(* ===== verification/_CoqProject ===== *)
-Q . S2P
Prelude.v
Qbft.v
QbftFacts.v
QbftSpec.v
QbftNet.v
QbftCluster.v
QbftRuns.v
Bytes.v
Types.v
SszHasher.v
SszFacts.v
SszBits.v
Rlp.v
K1Util.v
Enr.v
Priority.v
Deadline.v
DutyDb.v
DutyDbFacts.v
ParSigDb.v
SigAgg.v
AggSigDb.v
Tbls.v
Frost.v
FrostFacts.v
FrostRuns.v
Version.v
DkgBcast.v
DkgBcastFacts.v
FrostTransport.v
FrostNet.v
FrostViews.v
DkgSync.v
DkgSyncNet.v
DkgSyncFacts.v
DkgSyncCluster.v
ConsensusMsg.v
ConsensusTransport.v
ConsensusDefinition.v
FeatureSet.v
RoundTimer.v
ConsensusRunner.v
Tracker.v
TrackerFacts.v
Inclusion.v
InclusionFacts.v
DutyDefs.v
ValCache.v
Scheduler.v
SchedulerFacts.v
ChainSpec.v
Fetcher.v
FetcherFacts.v
Workflow.v
BeaconTypes.v
SszCodec.v
SszCodecFacts.v
Eth2Signed.v
Eth2SignedFacts.v
ParSigCodec.v
ParSigCodecFacts.v
SszContainers.v
Bcast.v
BcastFacts.v
Publish.v
