(* ===== verification/Prelude.v ===== *)
(** * Pluto: verification of a distributed validator middleware

    Pluto lets a cluster of nodes act as one Ethereum validator.  For each duty
    of a slot the nodes agree on the data to sign (QBFT consensus), keep it in
    the duty database, sign it with their share of the validator's key,
    exchange the partial signatures, and combine a threshold of them into the
    validator's signature, which is broadcast.  A deadliner tells every store
    when a duty may be forgotten.  The shares come from a distributed key
    generation (FROST over a reliable broadcast).  This development models the
    two paths, the codecs and hashes they rest on, and proves what each part
    promises to the next.

    ** Conventions

    One definition per Rust function, with its name.  [res] has the outcomes
    [Ok], [Err] and [Panic]; a method with [&mut self] is a [proc], a function
    from the state to the state and an outcome, so that what was done before an
    error stays done.  Machine integers are [Z] with explicit range checks where
    the code checks or may overflow.  Hash maps are [gmap]; where the code
    iterates over one, the order is an argument of type [HashOrder], and the
    theorems hold for all orders.  An [async] method is one step between its
    awaits on other components; channels, timers and clocks appear as events or
    as arguments.  Logging and metrics are left out.  Code outside the
    repository (blst, k256, SHA-256, Keccak, chrono, prost, libp2p, the
    beacon-chain payloads) is a section variable, with its documented laws as
    hypotheses.

    ** Files

    - [Prelude] (this file): outcomes, the state-error monad and its invariant
      rule [keeps] and weakest preconditions [wp], integer ranges, hash orders,
      shared list and map lemmas.
    - [Qbft]: crates/core/src/qbft/mod.rs and callbacks.rs.  Quorums, the
      justification predicates, [classify], [compare] and the event loop of
      [run], as [start] and [on_event] on an explicit state.
    - [QbftFacts]: what the filters, predicates and searches compute.
    - [QbftSpec]: the protocol as a transition system over votes, and agreement
      for it by quorum intersection.
    - [QbftNet], [QbftCluster]: a network of event loops with faulty
      participants; each iteration simulates steps of [QbftSpec], hence
      agreement, validity, no panics, at most one decision per run, and that
      what correct nodes send is accepted.
    - [QbftRuns]: concrete runs of four nodes, evaluated; they show that the
      hypotheses can hold, and one run in which two correct nodes decide
      differently after a faulty leader sent two proposals for a round.
    - [Bytes]: bytes and integers on the wire, for the codecs.
    - [SszHasher], [SszFacts]: crates/ssz/src/hasher.rs and helpers.rs.  The
      incremental Merkle hasher against the definition of the tree; the depth
      is right up to 2^32 leaves.
    - [SszBits]: crates/ssz/src/types.rs, encode.rs and decode.rs.  Bit lists
      implement sets of indices; encodings round-trip.
    - [Rlp], [K1Util], [Enr]: crates/eth2util/src/rlp.rs, crates/k1util and
      crates/eth2util/src/enr.rs.  Codecs, signatures and node records: round
      trips, total decoders, authenticity of what parses.
    - [Priority]: crates/priority/src/calculate.rs.  The result depends on
      neither the order of messages nor hash orders, and has only priorities
      with enough support.
    - [Types]: crates/core/src/types.rs.  Duties, slots, proposal types, public
      keys, their wire and text forms, the interface [SignedData].
    - [Deadline]: crates/core/src/deadline.  The deadline formula in checked
      64-bit milliseconds and the task that emits duties when they expire.
    - [DutyDb], [DutyDbFacts]: crates/core/src/dutydb/memory.rs.  Stores,
      indexes, eviction, queries and wake-ups; stored values do not change, are
      found, are evicted with their slot, and waiters are woken.
    - [ParSigDb]: crates/core/src/parsigdb/memory.rs.  When a threshold of
      shares agree on a root, exactly those are handed out.
    - [SigAgg]: crates/core/src/sigagg.rs.  It accepts what [ParSigDb] hands
      out, and passes on only verified signatures.
    - [AggSigDb]: crates/core/src/aggsigdb/memory.rs, an actor; every request is
      answered or still has reason to wait.
    - [Tbls]: crates/crypto/src/blst_impl.rs and types.rs (with MathComp).  A
      threshold of shares yields the signature, and the key, that was split.
    - [Frost], [FrostFacts], [FrostRuns]: crates/frost (with MathComp).  The
      participants of a key generation share one key, and any threshold of
      their partial signatures verifies under it.
    - [DkgBcast], [DkgBcastFacts]: crates/dkg/src/bcast.  The reliable
      broadcast: its behaviour answers commands in order, exactly once, and
      completes when the peers answer.
    - [FrostTransport], [FrostNet], [FrostViews]: crates/dkg/src/frostp2p.  The
      FROST rounds over the reliable broadcast, with faulty peers: honest peers
      that complete a round have one view of it.
    - [Version]: crates/core/src/version.rs.  Versions and their text form.
    - [DkgSync], [DkgSyncFacts]: crates/dkg/src/sync.  Server, client, handler
      and behaviour of the barrier between the steps of a ceremony; no wake-up
      is lost, a client has one stream, and how its claim can be lost.
    - [DkgSyncNet], [DkgSyncCluster]: the step sequence of
      crates/dkg/src/dkg.rs in a cluster.  No honest node works on a step
      before all honest nodes finished the one before, honest clusters raise
      no false alarm, and their ceremony can always complete.
    - [ConsensusMsg], [ConsensusTransport], [ConsensusDefinition]:
      crates/consensus/src/qbft/msg.rs, component.rs, transport.rs and
      definition.rs.  The wire form of consensus messages, the checks on
      inbound ones, broadcasting, leaders, the comparison of attestations, and
      the dispatch of decisions.  Admitted messages satisfy what [QbftNet] asks
      of a delivered message.
    - [FeatureSet]: crates/featureset.  Which features are on.
    - [RoundTimer]: crates/consensus/src/timer.rs.  The timeouts of rounds: no
      overflow, eager deadlines that depend on the first request only, and
      timeouts that outgrow every bound.
    - [ConsensusRunner]: crates/consensus/src/instance.rs and qbft/runner.rs.
      Concurrent proposals and participants of one instance: one of them runs
      it, and all of them return.
    - [Tracker], [TrackerFacts]: crates/core/src/tracker (steps, reasons,
      analysis, reporters, the tracker task).  The reported step is the furthest
      one reached, and the counters agree with the duties analysed.
    - [Inclusion], [InclusionFacts]: crates/core/src/tracker/inclusion.rs.  Every
      submitted duty is found on chain or reported missed.
    - [DutyDefs], [ValCache]: the duty definitions of crates/core/src/types.rs
      and crates/eth2api/src/valcache.rs.  Parsing of the beacon node's answers;
      concurrent callers of the cache get one coherent answer.
    - [Scheduler], [SchedulerFacts]: crates/core/src/scheduler.rs.  The actor,
      the slot ticker and the subscribers.  A tick triggers exactly the duties
      due in its slot, whatever failed before it.
    - [ChainSpec]: crates/eth2api/src/extensions.rs and, of crates/eth2util,
      signing.rs, eth2exp.rs, network.rs and the slot arithmetic of helpers.rs.
      Domains and signing roots: a signature for one kind of message is never
      one for another.
    - [Fetcher], [FetcherFacts]: crates/core/src/fetcher.  The data of a duty,
      with every request it takes in a log; committees share one answer,
      aggregates match the node's own data, graffiti fit.
    - [Workflow]: scheduler, fetcher and duty database composed.  Triggered
      duties can be fetched, and what is fetched for attesters can be stored.
    - [BeaconTypes]: the messages of crates/eth2api/src/spec, v1.rs and
      versioned.rs.  Block bodies and tree hashes are the class [BeaconSpec].
    - [SszCodec], [SszCodecFacts]: crates/core/src/ssz_codec.rs.  The binary
      headers of duty data: round trips, and one slot at which there is none.
    - [Eth2Signed], [Eth2SignedFacts]: crates/core/src/signeddata.rs and
      eth2signeddata.rs.  The instance of [SignedData]: signatures, roots,
      domains and verification.  Signatures cannot be replayed across duties;
      valid partial signatures aggregate to accepted ones.
    - [ParSigCodec], [ParSigCodecFacts], [SszContainers]:
      crates/core/src/parsigex_codec.rs, unsigneddata.rs and the protobuf forms
      of types.rs.  Peers read what was sent, and no bytes make a reader panic
      or return data of the wrong kind.  [SszContainers] has the SSZ encodings
      of the specification, which satisfy the laws assumed of them.
    - [Bcast], [BcastFacts]: crates/core/src/bcast and the requests of
      crates/eth2api/src/validator_duty.rs.  What is submitted is what was
      aggregated, and registrations are renewed.
    - [Publish]: partial-signature database, aggregator and broadcaster
      composed.  What a threshold of nodes signed is published.

    ** How the theorems fit together

    [ConsensusTransport] justifies the delivery rule of [QbftNet] for a single
    message; that signatures cannot be forged is a hypothesis there.
    [QbftCluster] assumes at most a third of faulty participants and, for
    agreement across rounds, that no process is sent two proposals for one
    round and that comparisons are stable; [QbftRuns] shows that the first of
    these is needed for the code as written.  [SigAgg] composes [ParSigDb] with
    aggregation, whose arithmetic is [Tbls].  [Workflow] composes [Scheduler],
    [Fetcher] and [DutyDb], with the beacon node as an oracle; [Publish]
    composes [ParSigDb], [SigAgg] and [Bcast] over the data of [Eth2Signed].
    That threshold signatures combine is a hypothesis there and a theorem of
    [Tbls].  [FrostFacts] assumes that all participants heard the same broadcasts in a round, which is what
    [FrostViews] proves of the transport; the two are stated over different
    libraries and are not linked by a proof.  That disagreement would need two
    acceptable messages with one digest is part of the conclusion of
    [FrostViews], because the digest does not separate its two parts.

    ** Bounds and fuel

    Loops over collections are structural.  The event loop is modelled per
    event and so needs no fuel.  The RLP decoder takes the length of its input
    as fuel, which is proved to suffice.  Theorems that need rounds below the largest
    [i64], or products that fit one, say so.  Samples use two to four nodes and,
    in [Tbls] and [FrostRuns], small fields; they only serve as witnesses.

    ** Not modelled

    Networking (libp2p), HTTP and beacon-node clients, task wiring, the command
    line, metrics and tracing are input and output.  The cluster
    files are pure enough to model and are not covered yet.
    Liveness of consensus under partial synchrony is not stated.  Interleavings
    of calls inside an [async] method are covered only as far as the method
    holds its lock. *)

From coqutil Require Export Datatypes.RecordSettersUsingExistingGetters.
From stdpp Require Export gmap sets list strings.
From Stdlib Require Export ZArith Lia.

Open Scope Z_scope.

(** Record updates [r <| f := v |>] compute under [cbn]. *)
#[global] Arguments RecordSettersUsingExistingGetters.const {E} newValue _ /.

(** ** Outcomes of a Rust function

    [Ok] and [Err] are the two constructors of [std::result::Result]; [Panic]
    is an unwinding panic ([panic!], [expect] on [None], an index out of
    range), which no caller in the modelled code catches. *)
Inductive res (E A : Type) : Type :=
| Ok (a : A)
| Err (e : E)
| Panic.
Arguments Ok {E A} a.
Arguments Err {E A} e.
Arguments Panic {E A}.

#[global] Instance res_ret {E} : MRet (res E) := fun A x => Ok x.
#[global] Instance res_bind {E} : MBind (res E) := fun A B f m =>
  match m with
  | Ok x => f x
  | Err e => Err e
  | Panic => Panic
  end.

(** [Option::expect] and [Option::ok_or]. *)
Definition expect {E A} (o : option A) : res E A :=
  match o with Some x => Ok x | None => Panic end.

Definition ok_or {E A} (o : option A) (e : E) : res E A :=
  match o with Some x => Ok x | None => Err e end.

Definition map_err {E E' A} (f : E -> E') (r : res E A) : res E' A :=
  match r with Ok x => Ok x | Err e => Err (f e) | Panic => Panic end.

Definition is_Ok {E A} (r : res E A) : bool :=
  match r with Ok _ => true | _ => false end.

Fixpoint collect {E A B} (f : A -> res E B) (l : list A) : res E (list B) :=
  match l with
  | [] => Ok []
  | x :: l => y ← f x; ys ← collect f l; Ok (y :: ys)
  end.

(** ** Methods with [&mut self]

    A method that changes its receiver and may fail: what it did before an
    error stays done. *)
Definition proc (S E A : Type) : Type := S -> S * res E A.

#[global] Instance proc_ret {S E} : MRet (proc S E) := fun A x s => (s, Ok x).
#[global] Instance proc_bind {S E} : MBind (proc S E) := fun A B f m s =>
  match m s with
  | (s', Ok x) => f x s'
  | (s', Err e) => (s', Err e)
  | (s', Panic) => (s', Panic)
  end.

Definition p_get {S E} : proc S E S := fun s => (s, Ok s).
Definition p_modify {S E} (f : S -> S) : proc S E unit := fun s => (f s, Ok tt).
Definition p_lift {S E A} (r : res E A) : proc S E A := fun s => (s, r).
Definition p_fail {S E A} (e : E) : proc S E A := fun s => (s, Err e).

(** [if let Err(e) = m { h(e) }]. *)
Definition p_catch {S E E' A} (m : proc S E A) (h : E -> proc S E' A) : proc S E' A := fun s =>
  match m s with
  | (s', Ok x) => (s', Ok x)
  | (s', Err e) => h e s'
  | (s', Panic) => (s', Panic)
  end.

(** [for x in l { f(x)?; }]. *)
Fixpoint p_for {S E X} (l : list X) (f : X -> proc S E unit) : proc S E unit :=
  match l with
  | [] => mret tt
  | x :: l => f x ;; p_for l f
  end.

(** ** Machine integers *)

Definition I64_MIN : Z := - 2 ^ 63.
Definition I64_MAX : Z := 2 ^ 63 - 1.
Definition U64_MAX : Z := 2 ^ 64 - 1.
Definition U32_MAX : Z := 2 ^ 32 - 1.

Definition in_i64 (z : Z) : bool := (I64_MIN <=? z) && (z <=? I64_MAX).
Definition in_u64 (z : Z) : bool := (0 <=? z) && (z <=? U64_MAX).
Definition in_u32 (z : Z) : bool := (0 <=? z) && (z <=? U32_MAX).

Definition guard_i64 (z : Z) : option Z := if in_i64 z then Some z else None.
Definition guard_u64 (z : Z) : option Z := if in_u64 z then Some z else None.
Definition guard_u32 (z : Z) : option Z := if in_u32 z then Some z else None.

(** [i64::checked_*]; division truncates towards zero and fails on a zero
    divisor and on [i64::MIN / -1] (out of range). *)
Definition checked_add_i64 (a b : Z) : option Z := guard_i64 (a + b).
Definition checked_sub_i64 (a b : Z) : option Z := guard_i64 (a - b).
Definition checked_mul_i64 (a b : Z) : option Z := guard_i64 (a * b).
Definition checked_div_i64 (a b : Z) : option Z :=
  if b =? 0 then None else guard_i64 (Z.quot a b).

(** [slice::len] as a machine integer. *)
Definition len {A} (l : list A) : Z := Z.of_nat (length l).

(** ** Hash maps

    A [HashMap] is a [gmap]; the order in which Rust iterates over one is
    unspecified and differs between runs, so every definition that iterates
    takes the order as an argument.  A [HashOrder] lists the entries of a map,
    each exactly once, in an order of its own. *)
Record HashOrder := {
  ho_list : forall (K A : Type) (eqK : EqDecision K) (cK : Countable K),
    gmap K A -> list (K * A);
  ho_perm : forall K A eqK cK (m : gmap K A),
    ho_list K A eqK cK m ≡ₚ map_to_list m;
}.
Arguments ho_list _ {K A eqK cK} _.
Arguments ho_perm _ {K A eqK cK} _.

(** The order in which [gmap] itself enumerates its entries. *)
Definition default_order : HashOrder :=
  {| ho_list := fun K A eqK cK m => map_to_list m;
     ho_perm := fun K A eqK cK m => reflexivity _ |}.

(** The opposite order. *)
Definition reverse_order : HashOrder.
Proof.
  refine {| ho_list := fun K A eqK cK m => reverse (map_to_list m) |}.
  intros K A eqK cK m. apply reverse_Permutation.
Defined.

(** [HashMap::values]. *)
Definition map_values (ho : HashOrder) {K A} `{Countable K} (m : gmap K A) : list A :=
  (ho_list ho m).*2.

(** [entry(k).or_default().push(x)]. *)
Definition push_at {K A} `{Countable K} (k : K) (x : A) (m : gmap K (list A)) : gmap K (list A) :=
  <[k := default [] (m !! k) ++ [x]]> m.

(** ** Iteration order *)

Section hash_order.
Context (ho : HashOrder) {K A : Type} `{Countable K}.
Implicit Types (m : gmap K A) (k : K) (x : A).

Lemma ho_list_NoDup m : NoDup (ho_list ho m).*1.
Proof. rewrite ho_perm. apply NoDup_fst_map_to_list. Qed.

Lemma elem_of_ho_list m k x : (k, x) ∈ ho_list ho m <-> m !! k = Some x.
Proof. rewrite ho_perm. apply elem_of_map_to_list. Qed.

Lemma elem_of_ho_list_fst m k : k ∈ (ho_list ho m).*1 <-> is_Some (m !! k).
Proof.
  rewrite list_elem_of_fmap. split.
  - intros ([k' x] & -> & Hx%elem_of_ho_list). eauto.
  - intros [x Hx]. exists (k, x). by rewrite elem_of_ho_list.
Qed.

Lemma not_elem_of_ho_list m k : k ∉ (ho_list ho m).*1 <-> m !! k = None.
Proof. by rewrite eq_None_not_Some, elem_of_ho_list_fst. Qed.

Lemma ho_list_dom m : (list_to_set (ho_list ho m).*1 : gset K) = dom m.
Proof. apply set_eq. intros k. by rewrite elem_of_list_to_set, elem_of_dom, elem_of_ho_list_fst. Qed.
End hash_order.

(** ** Tactics and automation *)

Create HintDb pluto discriminated.

Lemma res_bind_Ok {E A B} (f : A -> res E B) (m : res E A) y :
  (m ≫= f) = Ok y <-> exists x, m = Ok x /\ f x = Ok y.
Proof. destruct m; cbn; naive_solver. Qed.

Lemma res_bind_Panic {E A B} (f : A -> res E B) (m : res E A) :
  (m ≫= f) = Panic <-> m = Panic \/ exists x, m = Ok x /\ f x = Panic.
Proof. destruct m; cbn; naive_solver. Qed.

Lemma bind_no_panic {E A B} (f : A -> res E B) (m : res E A) :
  m <> Panic -> (forall x, m = Ok x -> f x <> Panic) -> (m ≫= f) <> Panic.
Proof. intros Hm Hf [?|(x & Hx & Hp)]%res_bind_Panic; [done|]. by eapply Hf. Qed.

Lemma ok_or_no_panic {E A} (o : option A) (e : E) : ok_or o e <> Panic.
Proof. by destruct o. Qed.

Lemma map_err_no_panic {E F A} (f : E -> F) (r : res E A) : r <> Panic -> map_err f r <> Panic.
Proof. by destruct r. Qed.

Lemma expect_Ok {E A} (o : option A) (x : A) : @expect E A o = Ok x <-> o = Some x.
Proof. destruct o; cbn; naive_solver. Qed.

Lemma ok_or_Ok {E A} (o : option A) (e : E) x : ok_or o e = Ok x <-> o = Some x.
Proof. destruct o; cbn; naive_solver. Qed.

(** Equations of [proc]. *)
Lemma proc_get {S E A} (f : S -> proc S E A) s : (p_get ≫= f) s = f s s.
Proof. done. Qed.

Lemma proc_modify {S E A} g (f : unit -> proc S E A) s : (p_modify g ≫= f) s = f tt (g s).
Proof. done. Qed.

Lemma proc_lift {S E A B} (r : res E A) (f : A -> proc S E B) s :
  (p_lift r ≫= f) s = match r with Ok x => f x s | Err e => (s, Err e) | Panic => (s, Panic) end.
Proof. by destruct r. Qed.

Lemma proc_mret {S E A B} (x : A) (f : A -> proc S E B) s : ((mret x : proc S E A) ≫= f) s = f x s.
Proof. done. Qed.

Lemma proc_fail {S E A B} (e : E) (f : A -> proc S E B) s : (p_fail e ≫= f) s = (s, Err e).
Proof. done. Qed.

Ltac proc_simp :=
  repeat (first [rewrite proc_get | rewrite proc_modify | rewrite proc_lift
                | rewrite proc_mret | rewrite proc_fail]; cbv beta).

Lemma proc_bind_Ok {S E A B} (m : proc S E A) (f : A -> proc S E B) s s' y :
  (m ≫= f) s = (s', Ok y) <-> exists s1 x, m s = (s1, Ok x) /\ f x s1 = (s', Ok y).
Proof.
  unfold mbind, proc_bind. destruct (m s) as [s1 [x|e|]]; split; intros Hm; try done.
  - by exists s1, x.
  - by destruct Hm as (? & ? & [= <- <-] & ?).
  - by destruct Hm as (? & ? & ? & ?).
  - by destruct Hm as (? & ? & ? & ?).
Qed.

(** A step that is known to succeed. *)
Lemma proc_step {S E A B} (m : proc S E A) (f : A -> proc S E B) s s' x :
  m s = (s', Ok x) -> (m ≫= f) s = f x s'.
Proof. intros Hm. unfold mbind, proc_bind. by rewrite Hm. Qed.

(** What a method keeps of its receiver, however it ends. *)
Definition keeps {S E A} (I : S -> Prop) (m : proc S E A) : Prop := forall s, I s -> I (fst (m s)).

Lemma keeps_ret {S E A} (I : S -> Prop) (x : A) : keeps I (mret x : proc S E A).
Proof. by intros s. Qed.

Lemma keeps_lift {S E A} (I : S -> Prop) (r : res E A) : keeps I (p_lift r : proc S E A).
Proof. by intros s. Qed.

Lemma keeps_fail {S E A} (I : S -> Prop) (e : E) : keeps I (p_fail e : proc S E A).
Proof. by intros s. Qed.

Lemma keeps_get {S E A} (I : S -> Prop) (f : S -> proc S E A) :
  (forall s, I s -> I (fst (f s s))) -> keeps I (p_get ≫= f).
Proof. intros Hf s Hs. by apply Hf. Qed.

Lemma keeps_bind {S E A B} (I : S -> Prop) (m : proc S E A) (f : A -> proc S E B) :
  keeps I m -> (forall x, keeps I (f x)) -> keeps I (m ≫= f).
Proof.
  intros Hm Hf s Hs. unfold mbind, proc_bind. specialize (Hm s Hs).
  destruct (m s) as [s' [x|e|]]; cbn in *; [by apply Hf|done|done].
Qed.

Lemma keeps_for {S E X} (I : S -> Prop) (l : list X) (f : X -> proc S E unit) :
  (forall x, x ∈ l -> keeps I (f x)) -> keeps I (p_for l f).
Proof.
  induction l as [|x l IH]; intros Hf; cbn; [apply keeps_ret|].
  apply keeps_bind; [apply Hf; by constructor|]. intros _. apply IH. intros y Hy.
  apply Hf. by constructor.
Qed.

#[export] Hint Resolve keeps_ret keeps_lift keeps_fail keeps_bind keeps_for : pluto.

(** Weakest preconditions: from [s] the method does not panic, and ends with
    a result in [Q] or an error in [R]. *)
Definition wp {S E A} (m : proc S E A) (Q : A -> S -> Prop) (R : E -> S -> Prop) (s : S) : Prop :=
  match m s with
  | (s', Ok x) => Q x s'
  | (s', Err e) => R e s'
  | (s', Panic) => False
  end.

Lemma wp_bind {S E A B} (m : proc S E A) (f : A -> proc S E B) Q R s :
  wp m (fun x => wp (f x) Q R) R s -> wp (m ≫= f) Q R s.
Proof. unfold wp, mbind, proc_bind. by destruct (m s) as [s' [x|e|]]. Qed.

Lemma wp_get {S E A} (f : S -> proc S E A) Q R s : wp (f s) Q R s -> wp (p_get ≫= f) Q R s.
Proof. done. Qed.

Lemma wp_modify {S E} (g : S -> S) (Q : unit -> S -> Prop) (R : E -> S -> Prop) s :
  Q tt (g s) -> wp (p_modify g) Q R s.
Proof. done. Qed.

Lemma wp_ret {S E A} (x : A) Q (R : E -> S -> Prop) s : Q x s -> wp (mret x) Q R s.
Proof. done. Qed.

Lemma wp_fail {S E A} (e : E) (Q : A -> S -> Prop) R s : R e s -> wp (p_fail e) Q R s.
Proof. done. Qed.

Lemma wp_lift {S E A} (r : res E A) (Q : A -> S -> Prop) R s :
  match r with Ok x => Q x s | Err e => R e s | Panic => False end -> wp (p_lift r) Q R s.
Proof. by destruct r. Qed.

Lemma wp_catch {S E E' A} (m : proc S E A) (h : E -> proc S E' A) Q R s :
  wp m Q (fun e => wp (h e) Q R) s -> wp (p_catch m h) Q R s.
Proof. unfold wp, p_catch. by destruct (m s) as [s' [x|e|]]. Qed.

Lemma wp_mono {S E A} (m : proc S E A) (Q Q' : A -> S -> Prop) (R R' : E -> S -> Prop) s :
  wp m Q R s -> (forall x s, Q x s -> Q' x s) -> (forall e s, R e s -> R' e s) -> wp m Q' R' s.
Proof. unfold wp. intros Hm HQ HR. destruct (m s) as [s' [x|e|]]; auto. Qed.

(** One step of a method under [wp]. *)
Ltac wp_step :=
  lazymatch goal with
  | |- wp (p_get ≫= _) _ _ _ => apply wp_get; cbv beta
  | |- wp (_ ≫= _) _ _ _ => apply wp_bind
  | |- wp (p_modify _) _ _ _ => apply wp_modify; cbv beta
  | |- wp (mret _) _ _ _ => apply wp_ret; cbv beta
  | |- wp (p_fail _) _ _ _ => apply wp_fail; cbv beta
  | |- wp (p_lift _) _ _ _ => apply wp_lift
  | |- wp (p_catch _ _) _ _ _ => apply wp_catch
  end.

(** Takes a successful monadic computation apart, hypothesis by hypothesis. *)
Ltac inv_res :=
  repeat match goal with
  | H : (_ ≫= _) = Ok _ |- _ => apply res_bind_Ok in H as (? & ? & ?)
  | H : mret _ = Ok _ |- _ => injection H as H
  | H : Ok _ = Ok _ |- _ => injection H as H
  | H : Err _ = Ok _ |- _ => discriminate H
  | H : Panic = Ok _ |- _ => discriminate H
  | H : expect _ = Ok _ |- _ => apply expect_Ok in H
  | H : ok_or _ _ = Ok _ |- _ => apply ok_or_Ok in H
  end.

(** Case analysis on the scrutinee of an [if] or [match] of a hypothesis. *)
Ltac case_in H :=
  match type of H with
  | context [if ?b then _ else _] => destruct b eqn:?
  | context [match ?x with _ => _ end] => destruct x eqn:?
  end.

(** Reflects boolean integer tests to propositions. *)
Ltac zbool :=
  repeat match goal with
  | H : (_ && _) = true |- _ => apply andb_true_iff in H as [? ?]
  | H : (_ || _) = false |- _ => apply orb_false_iff in H as [? ?]
  | H : negb _ = true |- _ => apply negb_true_iff in H
  | H : negb _ = false |- _ => apply negb_false_iff in H
  | H : (_ =? _) = true |- _ => apply Z.eqb_eq in H
  | H : (_ =? _) = false |- _ => apply Z.eqb_neq in H
  | H : (_ <=? _) = true |- _ => apply Z.leb_le in H
  | H : (_ <=? _) = false |- _ => apply Z.leb_gt in H
  | H : (_ <? _) = true |- _ => apply Z.ltb_lt in H
  | H : (_ <? _) = false |- _ => apply Z.ltb_ge in H
  | H : bool_decide _ = true |- _ => apply bool_decide_eq_true in H
  | H : bool_decide _ = false |- _ => apply bool_decide_eq_false in H
  end.

(** ** Generic lemmas *)

Lemma in_i64_spec z : in_i64 z = true <-> I64_MIN <= z <= I64_MAX.
Proof. unfold in_i64. rewrite andb_true_iff, !Z.leb_le. done. Qed.

Lemma guard_i64_Some z y : guard_i64 z = Some y <-> y = z /\ I64_MIN <= z <= I64_MAX.
Proof.
  unfold guard_i64. destruct (in_i64 z) eqn:E.
  - apply in_i64_spec in E. naive_solver.
  - split; [done|]. intros [_ H]. apply in_i64_spec in H. congruence.
Qed.

Lemma guard_i64_in z : I64_MIN <= z <= I64_MAX -> guard_i64 z = Some z.
Proof. intros H. by apply guard_i64_Some. Qed.

Lemma len_nonneg {A} (l : list A) : 0 <= len l.
Proof. unfold len. lia. Qed.

Lemma len_app {A} (l k : list A) : len (l ++ k) = len l + len k.
Proof. unfold len. rewrite length_app. lia. Qed.

Lemma elem_of_map_values ho {K A} `{Countable K} (m : gmap K A) x :
  x ∈ map_values ho m <-> exists k, m !! k = Some x.
Proof.
  unfold map_values. rewrite list_elem_of_fmap. split.
  - intros ([k y] & -> & Hin). rewrite ho_perm in Hin.
    apply elem_of_map_to_list in Hin. eauto.
  - intros [k Hk]. exists (k, x). split; [done|].
    rewrite ho_perm. by apply elem_of_map_to_list.
Qed.

Lemma length_map_values ho {K A} `{Countable K} (m : gmap K A) :
  length (map_values ho m) = size m.
Proof.
  unfold map_values. rewrite length_fmap, (Permutation_length (ho_perm ho m)).
  apply length_map_to_list.
Qed.

(** ** Quorums

    Counting on finite sets: the facts every quorum argument rests on. *)
Lemma size_intersection_lower (P X Y : gset Z) :
  X ⊆ P -> Y ⊆ P -> (size X + size Y <= size P + size (X ∩ Y))%nat.
Proof.
  intros HX HY.
  assert (size (X ∪ Y) + size (X ∩ Y) = size X + size Y)%nat as Hue.
  { rewrite (size_union_alt X Y).
    assert (size Y = size (Y ∖ X) + size (X ∩ Y))%nat as ->; [|lia].
    rewrite <-size_union by set_solver. f_equal.
    apply set_eq. intros z. destruct (decide (z ∈ X)); set_solver. }
  assert (size (X ∪ Y) <= size P)%nat by (apply subseteq_size; set_solver).
  lia.
Qed.

Lemma size_gt_not_subseteq (X B : gset Z) :
  (size B < size X)%nat -> exists x, x ∈ X /\ x ∉ B.
Proof.
  intros Hlt. destruct (decide (X ⊆ B)) as [Hs|Hs].
  - apply subseteq_size in Hs. lia.
  - assert (X ∖ B <> ∅) as Hne by (intros He; apply Hs; set_solver).
    apply set_choose_L in Hne as [x Hx]. exists x. set_solver.
Qed.

(** Two large sets of participants share a participant outside a small set. *)
Lemma quorum_intersection (P B X Y : gset Z) :
  X ⊆ P -> Y ⊆ P -> (size P + size B < size X + size Y)%nat ->
  exists x, x ∈ X /\ x ∈ Y /\ x ∉ B.
Proof.
  intros HX HY Hlt. pose proof (size_intersection_lower P X Y HX HY).
  destruct (size_gt_not_subseteq (X ∩ Y) B) as (x & Hx & HB); [lia|].
  exists x. set_solver.
Qed.

Lemma size_list_to_set_NoDup (l : list Z) :
  NoDup l -> size (list_to_set l : gset Z) = length l.
Proof.
  induction 1 as [|x l Hx Hl IH]; [done|].
  cbn. rewrite size_union, size_singleton, IH; [done|].
  rewrite disjoint_singleton_l, elem_of_list_to_set. done.
Qed.

(** ** Maps of lists *)

Lemma lookup_push_at {K A} `{Countable K} (m : gmap K (list A)) k x k' l :
  push_at k x m !! k' = Some l <->
  (k' = k /\ l = default [] (m !! k) ++ [x]) \/ (k' <> k /\ m !! k' = Some l).
Proof. unfold push_at. rewrite lookup_insert. case_decide; naive_solver. Qed.

Lemma default_push_at {K A} `{Countable K} (m : gmap K (list A)) k x k' :
  default [] (push_at k x m !! k') =
  if decide (k = k') then default [] (m !! k) ++ [x] else default [] (m !! k').
Proof. unfold push_at. rewrite lookup_insert. by case_decide. Qed.
