(* ===== verification/Qbft.v ===== *)
(** * The QBFT core

    A model of [crates/core/src/qbft/mod.rs]: message types and upon-rules,
    quorum arithmetic, the justification predicates, [classify], the blocking
    [compare] helper and the event loop of [run], one definition per function.
    The generic types of the [QbftTypes] trait are the section variables; the
    callbacks of [Definition] and [Transport] are arguments; panics and errors
    are the [Panic] and [Err] outcomes of [res]. *)

From S2P Require Import Prelude.

Open Scope Z_scope.

(** ** Message types and rules *)

(** [MessageType] and [UponRule] are newtypes over [i64]. *)
Definition MSG_UNKNOWN : Z := 0.
Definition MSG_PRE_PREPARE : Z := 1.
Definition MSG_PREPARE : Z := 2.
Definition MSG_COMMIT : Z := 3.
Definition MSG_ROUND_CHANGE : Z := 4.
Definition MSG_DECIDED : Z := 5.
Definition MSG_SENTINEL : Z := 6.

Definition message_type_valid (t : Z) : bool :=
  (MSG_UNKNOWN <? t) && (t <? MSG_SENTINEL).

(** [Display for MessageType]. *)
Definition message_type_label (t : Z) : string :=
  if t =? 0 then "unknown"
  else if t =? 1 then "pre_prepare"
  else if t =? 2 then "prepare"
  else if t =? 3 then "commit"
  else if t =? 4 then "round_change"
  else if t =? 5 then "decided"
  else "".

Definition UPON_NOTHING : Z := 0.
Definition UPON_JUSTIFIED_PRE_PREPARE : Z := 1.
Definition UPON_QUORUM_PREPARES : Z := 2.
Definition UPON_QUORUM_COMMITS : Z := 3.
Definition UPON_UNJUST_QUORUM_ROUND_CHANGES : Z := 4.
Definition UPON_F_PLUS1_ROUND_CHANGES : Z := 5.
Definition UPON_QUORUM_ROUND_CHANGES : Z := 6.
Definition UPON_JUSTIFIED_DECIDED : Z := 7.
Definition UPON_ROUND_TIMEOUT : Z := 8.

(** [Display for UponRule]. *)
Definition upon_rule_label (r : Z) : string :=
  if r =? 0 then "nothing"
  else if r =? 1 then "justified_pre_prepare"
  else if r =? 2 then "quorum_prepares"
  else if r =? 3 then "quorum_commits"
  else if r =? 4 then "unjust_quorum_round_changes"
  else if r =? 5 then "f_plus_1_round_changes"
  else if r =? 6 then "quorum_round_changes"
  else if r =? 7 then "justified_decided"
  else if r =? 8 then "round_timeout"
  else "".

(** [QbftError]; the payload of [UnexpectedCompareError] is the boxed error. *)
Inductive QbftError :=
| TimeoutError
| CompareError
| UnexpectedCompareError (e : QbftError)
| ContextCanceled
| MaxRoundReached
| ZeroInputValue
| ValueNotFound
| InvalidNodes (nodes : Z)
| InvalidFifoLimit (fifo_limit : Z)
| ChannelError.

(** ** Quorum arithmetic *)

(** [quorum]: [(2 * nodes + 2) / 3] in checked [i64] arithmetic. *)
Definition quorum (nodes : Z) : res QbftError Z :=
  expect (n2 ← checked_mul_i64 nodes 2;
          n2' ← checked_add_i64 n2 2;
          checked_div_i64 n2' 3).

(** ** Messages

    [SomeMsg<T>] as a record.  The accessors [instance] and [value_source] are
    read by the application callbacks only, never by the core. *)
Section qbft_core.

Context {Inst Value Compare : Type}.
Context `{Countable Value}.

(** [Default::default()] of the value and compare types. *)
Class QbftDefaults := {
  value_default : Value;
  compare_default : Compare;
}.
Context {Dflt : QbftDefaults}.

Inductive Msg : Type := MkMsg {
  type_ : Z;
  instance : Inst;
  source : Z;
  round : Z;
  value : Value;
  value_source : res QbftError Compare;
  prepared_round : Z;
  prepared_value : Value;
  justification : list Msg;
}.

(** [Definition<T>]: the fields the algorithm reads.  The callbacks
    [new_timer], [compare], [decide] and [logger] have no result the core
    depends on beyond the events of the loop below. *)
Record QDefinition := {
  is_leader : Inst -> Z -> Z -> bool;
  nodes : Z;
  fifo_limit : Z;
}.

Definition d_quorum (d : QDefinition) : res QbftError Z := quorum (nodes d).

Definition faulty (d : QDefinition) : res QbftError Z :=
  expect (n ← checked_sub_i64 (nodes d) 1; checked_div_i64 n 3).

(** [usize::try_from]: fails on a negative value. *)
Definition usize_of (z : Z) : res QbftError Z :=
  if z <? 0 then Panic else Ok z.

Definition quorum_count (d : QDefinition) : res QbftError Z :=
  q ← d_quorum d; usize_of q.

Definition faulty_plus_one_count (d : QDefinition) : res QbftError Z :=
  f ← faulty d;
  threshold ← expect (checked_add_i64 f 1);
  usize_of threshold.

Definition validate_definition (d : QDefinition) : res QbftError unit :=
  if nodes d <=? 0 then Err (InvalidNodes (nodes d))
  else if fifo_limit d <=? 0 then Err (InvalidFifoLimit (fifo_limit d))
  else Ok tt.

(** ** Filters *)

(** One call of the closure made by [uniq_source]: whether the source is new,
    and the set of sources seen from then on. *)
Definition uniq (sources : gset Z) (msg : Msg) : bool * gset Z :=
  (bool_decide (source msg ∉ sources), {[source msg]} ∪ sources).

(** [if let Some(x) = o && y != x]. *)
Definition differs {A} `{EqDecision A} (o : option A) (y : A) : bool :=
  match o with Some x => bool_decide (y <> x) | None => false end.

Section filter_msgs.
Context (message_type : Z) (rnd : Z) (val : option Value)
  (pr : option Z) (pv : option Value).

Fixpoint filter_msgs_loop (sources : gset Z) (msgs : list Msg) : list Msg :=
  match msgs with
  | [] => []
  | msg :: rest =>
    if negb (message_type =? type_ msg) then filter_msgs_loop sources rest
    else if negb (rnd =? round msg) then filter_msgs_loop sources rest
    else if differs val (value msg) then filter_msgs_loop sources rest
    else if differs pv (prepared_value msg) then filter_msgs_loop sources rest
    else if differs pr (prepared_round msg) then filter_msgs_loop sources rest
    else
      let '(new, sources) := uniq sources msg in
      if new then msg :: filter_msgs_loop sources rest
      else filter_msgs_loop sources rest
  end.

Definition filter_msgs (msgs : list Msg) : list Msg := filter_msgs_loop ∅ msgs.
End filter_msgs.

Definition filter_by_round_and_value (msgs : list Msg) (message_type rnd : Z)
    (val : Value) : list Msg :=
  filter_msgs message_type rnd (Some val) None None msgs.

Definition filter_round_change (msgs : list Msg) (rnd : Z) : list Msg :=
  filter_msgs MSG_ROUND_CHANGE rnd None None None msgs.

(** The justifications of one message, pushed after it; a justification that
    itself carries one is a bug of the caller. *)
Fixpoint flatten_justs (js : list Msg) : res QbftError (list Msg) :=
  match js with
  | [] => Ok []
  | j :: rest =>
    match justification j with
    | [] => tl ← flatten_justs rest; Ok (j :: tl)
    | _ :: _ => Panic
    end
  end.

Fixpoint flatten_msgs (msgs : list Msg) : res QbftError (list Msg) :=
  match msgs with
  | [] => Ok []
  | msg :: rest =>
    js ← flatten_justs (justification msg);
    tl ← flatten_msgs rest;
    Ok (msg :: js ++ tl)
  end.

Definition flatten (ho : HashOrder) (buffer : gmap Z (list Msg)) : res QbftError (list Msg) :=
  flatten_msgs (concat (map_values ho buffer)).

Definition extract_round_messages (ho : HashOrder) (buffer : gmap Z (list Msg))
    (rnd : Z) : list Msg :=
  filter (fun msg => round msg = rnd) (concat (map_values ho buffer)).

(** ** Justification of prepared rounds and values *)

Definition valid_round_change_prepared_round (msg : Msg) : bool :=
  (0 <=? prepared_round msg) && (prepared_round msg <? round msg).

(** The loop of [is_justified_round_change] over the PREPAREs. *)
Fixpoint round_change_prepares_ok (pr : Z) (pv : Value) (sources : gset Z)
    (prepares : list Msg) : bool :=
  match prepares with
  | [] => true
  | prepare :: rest =>
    let '(new, sources) := uniq sources prepare in
    if negb new then false
    else if negb (type_ prepare =? MSG_PREPARE) then false
    else if negb (round prepare =? pr) then false
    else if bool_decide (value prepare <> pv) then false
    else round_change_prepares_ok pr pv sources rest
  end.

Definition is_justified_round_change (d : QDefinition) (msg : Msg) : res QbftError bool :=
  if negb (type_ msg =? MSG_ROUND_CHANGE) then Panic
  else
    let prepares := justification msg in
    let pr := prepared_round msg in
    let pv := prepared_value msg in
    if negb (valid_round_change_prepared_round msg) then Ok false
    else match prepares with
    | [] => Ok ((pr =? 0) && bool_decide (pv = value_default))
    | _ :: _ =>
      q ← quorum_count d;
      if len prepares <? q then Ok false
      else Ok (round_change_prepares_ok pr pv ∅ prepares)
    end.

Definition is_justified_decided (d : QDefinition) (msg : Msg) : res QbftError bool :=
  if negb (type_ msg =? MSG_DECIDED) then Panic
  else
    let v := value msg in
    let commits := filter_msgs MSG_COMMIT (round msg) (Some v) None None (justification msg) in
    q ← quorum_count d;
    Ok (q <=? len commits).

(** [get_single_justified_pr_pv]; [count] never exceeds the number of
    messages, so its increment cannot overflow. *)
Fixpoint single_pr_pv_loop (pr : Z) (pv : Value) (count : Z) (sources : gset Z)
    (msgs : list Msg) : option (Z * Value * Z) :=
  match msgs with
  | [] => Some (pr, pv, count)
  | msg :: rest =>
    if negb (type_ msg =? MSG_PREPARE) then single_pr_pv_loop pr pv count sources rest
    else
      let '(new, sources) := uniq sources msg in
      if negb new then None
      else if count =? 0 then single_pr_pv_loop (round msg) (value msg) (count + 1) sources rest
      else if negb (pr =? round msg) || bool_decide (pv <> value msg) then None
      else single_pr_pv_loop pr pv (count + 1) sources rest
  end.

Definition get_single_justified_pr_pv (d : QDefinition) (msgs : list Msg)
    : res QbftError (option (Z * Value)) :=
  match single_pr_pv_loop 0 value_default 0 ∅ msgs with
  | None => Ok None
  | Some (pr, pv, count) =>
    q ← quorum_count d;
    if q <=? count then Ok (Some (pr, pv)) else Ok None
  end.

(** J2's scan of the round changes: [None] on one with a higher prepared
    round, otherwise whether one carries exactly [pr] and [pv]. *)
Fixpoint qrc_scan (pr : Z) (pv : Value) (found : bool) (qrc : list Msg) : option bool :=
  match qrc with
  | [] => Some found
  | rc :: rest =>
    if pr <? prepared_round rc then None
    else if (prepared_round rc =? pr) && bool_decide (prepared_value rc = pv)
    then qrc_scan pr pv true rest
    else qrc_scan pr pv found rest
  end.

Definition null_prepared (rc : Msg) : bool :=
  negb (negb (prepared_round rc =? 0) || bool_decide (prepared_value rc <> value_default)).

Definition contains_justified_qrc (d : QDefinition) (just : list Msg) (rnd : Z)
    : res QbftError (option Value) :=
  let qrc := filter (fun m => valid_round_change_prepared_round m = true)
               (filter_round_change just rnd) in
  q ← quorum_count d;
  if len qrc <? q then Ok None
  (* J1 *)
  else if forallb null_prepared qrc then Ok (Some value_default)
  (* J2 *)
  else
    p ← get_single_justified_pr_pv d just;
    match p with
    | None => Ok None
    | Some (pr, pv) =>
      match qrc_scan pr pv false qrc with
      | Some true => Ok (Some pv)
      | _ => Ok None
      end
    end.

Definition is_justified_pre_prepare (d : QDefinition) (inst : Inst) (msg : Msg)
    (compare_failure_round : Z) : res QbftError bool :=
  if negb (type_ msg =? MSG_PRE_PREPARE) then Panic
  else if negb (is_leader d inst (round msg) (source msg)) then Ok false
  else
    next_compare_round ← expect (checked_add_i64 compare_failure_round 1);
    if (round msg =? 1) || (round msg =? next_compare_round) then Ok true
    else
      qrc ← contains_justified_qrc d (justification msg) (round msg);
      match qrc with
      | None => Ok false
      | Some pv =>
        if bool_decide (pv = value_default) then Ok true
        else Ok (bool_decide (value msg = pv))
      end.

Definition is_justified (d : QDefinition) (inst : Inst) (msg : Msg)
    (compare_failure_round : Z) : res QbftError bool :=
  if type_ msg =? MSG_PRE_PREPARE then
    is_justified_pre_prepare d inst msg compare_failure_round
  else if type_ msg =? MSG_PREPARE then Ok true
  else if type_ msg =? MSG_COMMIT then Ok true
  else if type_ msg =? MSG_ROUND_CHANGE then is_justified_round_change d msg
  else if type_ msg =? MSG_DECIDED then is_justified_decided d msg
  else Panic.

(** ** Quorums of round changes *)

Definition quorum_null_prepared (d : QDefinition) (all : list Msg) (rnd : Z)
    : res QbftError (list Msg * bool) :=
  let just := filter_msgs MSG_ROUND_CHANGE rnd None (Some 0) (Some value_default) all in
  q ← quorum_count d;
  Ok (just, q <=? len just).

(** [get_prepare_quorums]: PREPAREs grouped by (round, value), one message per
    source (the last one seen wins). *)
Fixpoint prepare_sets (sets : gmap (Z * Value) (gmap Z Msg)) (all : list Msg)
    : gmap (Z * Value) (gmap Z Msg) :=
  match all with
  | [] => sets
  | msg :: rest =>
    if negb (type_ msg =? MSG_PREPARE) then prepare_sets sets rest
    else
      let key := (round msg, value msg) in
      let set := default ∅ (sets !! key) in
      prepare_sets (<[key := <[source msg := msg]> set]> sets) rest
  end.

Definition get_prepare_quorums (ho : HashOrder) (d : QDefinition) (all : list Msg)
    : res QbftError (list (list Msg)) :=
  q ← quorum_count d;
  let sets := map_values ho (prepare_sets ∅ all) in
  Ok (map (map_values ho) (filter (fun msgs => ~ Z.of_nat (size msgs) < q) sets)).

(** The inner loop of [get_justified_qrc]: the round changes kept for one
    PREPARE quorum, and whether one of them is the highest prepared. *)
Fixpoint qrc_collect (pr : Z) (pv : Value) (sources : gset Z) (has_highest : bool)
    (round_changes : list Msg) : list Msg * bool :=
  match round_changes with
  | [] => ([], has_highest)
  | rc :: rest =>
    if pr <? prepared_round rc then qrc_collect pr pv sources has_highest rest
    else
      let '(new, sources) := uniq sources rc in
      if negb new then qrc_collect pr pv sources has_highest rest
      else
        let has_highest :=
          if (prepared_round rc =? pr) && bool_decide (prepared_value rc = pv)
          then true else has_highest in
        let '(qrc, h) := qrc_collect pr pv sources has_highest rest in
        (rc :: qrc, h)
  end.

Fixpoint qrc_search (q : Z) (round_changes : list Msg) (quorums : list (list Msg))
    : res QbftError (option (list Msg)) :=
  match quorums with
  | [] => Ok None
  | prepares :: rest =>
    match prepares with
    | [] => Panic
    | p0 :: _ =>
      let '(qrc, has_highest) := qrc_collect (round p0) (value p0) ∅ false round_changes in
      if (q <=? len qrc) && has_highest then Ok (Some (qrc ++ prepares))
      else qrc_search q round_changes rest
    end
  end.

Definition get_justified_qrc (ho : HashOrder) (d : QDefinition) (all : list Msg) (rnd : Z)
    : res QbftError (option (list Msg)) :=
  '(qrc, ok) ← quorum_null_prepared d all rnd;
  if ok : bool then Ok (Some qrc)
  else
    let round_changes := filter (fun m => valid_round_change_prepared_round m = true)
                           (filter_round_change all rnd) in
    quorums ← get_prepare_quorums ho d all;
    q ← quorum_count d;
    qrc_search q round_changes quorums.

(** The loop of [get_fplus1_round_changes], which stops as soon as [f1]
    distinct sources are present. *)
Fixpoint highest_by_source (f1 : Z) (rnd : Z) (highest : gmap Z Msg) (all : list Msg)
    : gmap Z Msg :=
  match all with
  | [] => highest
  | msg :: rest =>
    if negb (type_ msg =? MSG_ROUND_CHANGE) then highest_by_source f1 rnd highest rest
    else if round msg <=? rnd then highest_by_source f1 rnd highest rest
    else
      let higher := match highest !! source msg with
                    | Some h => round msg <? round h
                    | None => false
                    end in
      if higher then highest_by_source f1 rnd highest rest
      else
        let highest := <[source msg := msg]> highest in
        if Z.of_nat (size highest) =? f1 then highest
        else highest_by_source f1 rnd highest rest
  end.

Definition get_fplus1_round_changes (ho : HashOrder) (d : QDefinition) (all : list Msg)
    (rnd : Z) : res QbftError (option (list Msg)) :=
  f1 ← faulty_plus_one_count d;
  let highest := highest_by_source f1 rnd ∅ all in
  if Z.of_nat (size highest) <? f1 then Ok None
  else Ok (Some (map_values ho highest)).

Fixpoint next_min_round_loop (rnd rmin : Z) (frc : list Msg) : res QbftError Z :=
  match frc with
  | [] => Ok rmin
  | msg :: rest =>
    if negb (type_ msg =? MSG_ROUND_CHANGE) then Panic
    else if round msg <=? rnd then Panic
    else next_min_round_loop rnd (if round msg <? rmin then round msg else rmin) rest
  end.

Definition next_min_round (d : QDefinition) (frc : list Msg) (rnd : Z) : res QbftError Z :=
  f1 ← faulty_plus_one_count d;
  if len frc <? f1 then Panic
  else next_min_round_loop rnd I64_MAX frc.

(** ** Classification of a received message *)
Definition classify (ho : HashOrder) (d : QDefinition) (inst : Inst) (rnd process : Z)
    (buffer : gmap Z (list Msg)) (msg : Msg) : res QbftError (Z * option (list Msg)) :=
  if type_ msg =? MSG_DECIDED then
    Ok (UPON_JUSTIFIED_DECIDED, Some (justification msg))
  else if type_ msg =? MSG_PRE_PREPARE then
    if round msg <? rnd then Ok (UPON_NOTHING, None)
    else Ok (UPON_JUSTIFIED_PRE_PREPARE, None)
  else if type_ msg =? MSG_PREPARE then
    if negb (round msg =? rnd) then Ok (UPON_NOTHING, None)
    else
      all ← flatten ho buffer;
      let prepares := filter_by_round_and_value all MSG_PREPARE (round msg) (value msg) in
      q ← quorum_count d;
      if q <=? len prepares then Ok (UPON_QUORUM_PREPARES, Some prepares)
      else Ok (UPON_NOTHING, None)
  else if type_ msg =? MSG_COMMIT then
    if negb (round msg =? rnd) then Ok (UPON_NOTHING, None)
    else
      all ← flatten ho buffer;
      let commits := filter_by_round_and_value all MSG_COMMIT (round msg) (value msg) in
      q ← quorum_count d;
      if q <=? len commits then Ok (UPON_QUORUM_COMMITS, Some commits)
      else Ok (UPON_NOTHING, None)
  else if type_ msg =? MSG_ROUND_CHANGE then
    if round msg <? rnd then Ok (UPON_NOTHING, None)
    else
      all ← flatten ho buffer;
      if rnd <? round msg then
        frc ← get_fplus1_round_changes ho d all rnd;
        match frc with
        | Some frc => Ok (UPON_F_PLUS1_ROUND_CHANGES, Some frc)
        | None => Ok (UPON_NOTHING, None)
        end
      else
        let qrc := filter_round_change all (round msg) in
        q ← quorum_count d;
        if len qrc <? q then Ok (UPON_NOTHING, None)
        else
          jqrc ← get_justified_qrc ho d all (round msg);
          match jqrc with
          | None => Ok (UPON_UNJUST_QUORUM_ROUND_CHANGES, None)
          | Some qrc =>
            if negb (is_leader d inst (round msg) process) then Ok (UPON_NOTHING, None)
            else Ok (UPON_QUORUM_ROUND_CHANGES, Some qrc)
          end
  else Panic.

(** ** The compare helper

    [compare] spawns the application callback and loops over four channels
    until one of them makes it return.  A run of the loop is a list of
    iterations that go around and one that returns:

    - [LErrClosed]/[LValueClosed]: the callback dropped its sender, the receiver
      becomes [never()];
    - [LValue v]: a compare value arrived and replaces the result;
    - [LPoll]: the cancellation poll ticked without cancellation;
    - [XCanceled]: the token was cancelled (loop head or poll);
    - [XErr err drained canceled]: the callback reported ([None] is [Ok(())]),
      [drained] are the values [try_recv] then empties from the value channel,
      [canceled] the token's state afterwards;
    - [XTimer ok]: the round timer fired, or its channel was closed. *)
Inductive CmpIter :=
| LErrClosed
| LValue (v : Compare)
| LValueClosed
| LPoll.

Inductive CmpExit :=
| XCanceled
| XErr (err : option QbftError) (drained : list Compare) (canceled : bool)
| XTimer (ok : bool).

Record CmpTrace := { cmp_iters : list CmpIter; cmp_exit : CmpExit }.

(** The traces the channels allow: nothing arrives on a closed channel. *)
Fixpoint cmp_iters_wf (err_open value_open : bool) (its : list CmpIter) (x : CmpExit) : bool :=
  match its with
  | [] =>
    match x with
    | XCanceled | XTimer _ => true
    | XErr _ drained _ => err_open && (value_open || bool_decide (length drained = 0%nat))
    end
  | LErrClosed :: its => err_open && cmp_iters_wf false value_open its x
  | LValue _ :: its => value_open && cmp_iters_wf err_open value_open its x
  | LValueClosed :: its => value_open && cmp_iters_wf err_open false its x
  | LPoll :: its => cmp_iters_wf err_open value_open its x
  end.

Definition cmp_trace_wf (t : CmpTrace) : bool :=
  cmp_iters_wf true true (cmp_iters t) (cmp_exit t).

Fixpoint compare_loop (result : Compare) (its : list CmpIter) (x : CmpExit)
    : Compare * res QbftError unit :=
  match its with
  | LValue v :: its => compare_loop v its x
  | LErrClosed :: its | LValueClosed :: its | LPoll :: its => compare_loop result its x
  | [] =>
    match x with
    | XCanceled => (result, Err ContextCanceled)
    | XErr err drained canceled =>
      let result := default result (last drained) in
      if canceled then (result, Err ContextCanceled)
      else match err with
           | None => (result, Ok tt)
           | Some _ => (result, Err CompareError)
           end
    | XTimer ok => (result, if ok then Err TimeoutError else Err ChannelError)
    end
  end.

Definition compare (input_value_source : Compare) (t : CmpTrace) : Compare * res QbftError unit :=
  compare_loop input_value_source (cmp_iters t) (cmp_exit t).

(** ** The event loop *)

(** [BroadcastRequest] without the cancellation token. *)
Record BroadcastRequest := {
  b_type : Z;
  b_instance : Inst;
  b_source : Z;
  b_round : Z;
  b_value : Value;
  b_prepared_round : Z;
  b_prepared_value : Value;
  b_justification : option (list Msg);
}.

(** What the loop does to the outside; the logger callbacks are left out. *)
Inductive Action :=
| ABroadcast (b : BroadcastRequest)
| ADecide (v : Value) (qcommit : list Msg)
| ANewTimer (rnd : Z)
| AStopTimer.

(** The locals of [run].  [s_timer] is the round whose timer [timer_chan]
    listens to ([None] is [never()]); [s_input_open] tells whether
    [input_value_ch] is still read. *)
Record RunState := {
  s_round : Z;
  s_input_value : Value;
  s_input_value_source : Compare;
  s_ppj_cache : option (list Msg);
  s_prepared_round : Z;
  s_prepared_value : Value;
  s_compare_failure_round : Z;
  s_prepared_justification : option (list Msg);
  s_q_commit : option (list Msg);
  s_buffer : gmap Z (list Msg);
  s_dedup_rules : gset (Z * Z);
  s_timer : option Z;
  s_input_open : bool;
}.

Definition initial_state : RunState := {|
  s_round := 1;
  s_input_value := value_default;
  s_input_value_source := compare_default;
  s_ppj_cache := None;
  s_prepared_round := 0;
  s_prepared_value := value_default;
  s_compare_failure_round := 0;
  s_prepared_justification := None;
  s_q_commit := None;
  s_buffer := ∅;
  s_dedup_rules := ∅;
  s_timer := None;
  s_input_open := true;
|}.

(** A statement of the loop body: new locals, what it did outside, and how it
    ended.  What was done before an error stays done. *)
Definition Run (A : Type) : Type := RunState -> RunState * list Action * res QbftError A.

#[global] Instance run_ret : MRet Run := fun A x s => (s, [], Ok x).
#[global] Instance run_bind : MBind Run := fun A B f m s =>
  match m s with
  | (s1, a1, Ok x) => match f x s1 with (s2, a2, r) => (s2, a1 ++ a2, r) end
  | (s1, a1, Err e) => (s1, a1, Err e)
  | (s1, a1, Panic) => (s1, a1, Panic)
  end.

Definition get : Run RunState := fun s => (s, [], Ok s).
Definition modify (f : RunState -> RunState) : Run unit := fun s => (f s, [], Ok tt).
Definition emit (a : Action) : Run unit := fun s => (s, [a], Ok tt).
Definition lift {A} (r : res QbftError A) : Run A := fun s => (s, [], r).

(** What the environment decides during one iteration of the loop: the
    iteration order of hash maps, the result of the transport's broadcast
    ([None] is [Ok(())]) and the course of a comparison. *)
Record Env := {
  e_order : HashOrder;
  e_broadcast : BroadcastRequest -> option QbftError;
  e_compare : CmpTrace;
}.

(** The branch of [select!] an iteration takes; [None] is a closed channel. *)
Inductive Event :=
| EvCanceled
| EvInput (v : option Value)
| EvReceive (m : option Msg)
| EvTimer (fired : bool)
| EvPoll (canceled : bool).

Section run.
Context (d : QDefinition) (inst : Inst) (process : Z) (env : Env).

Definition broadcast (b : BroadcastRequest) : Run unit :=
  emit (ABroadcast b) ;;
  match e_broadcast env b with
  | None => mret tt
  | Some e => lift (Err e)
  end.

(** Broadcasts a non-ROUND-CHANGE message for current round. *)
Definition broadcast_msg (t : Z) (v : Value) (just : option (list Msg)) : Run unit :=
  s ← get;
  broadcast {| b_type := t; b_instance := inst; b_source := process;
               b_round := s_round s; b_value := v; b_prepared_round := 0;
               b_prepared_value := value_default; b_justification := just |}.

(** Broadcasts a ROUND-CHANGE message with current state. *)
Definition broadcast_round_change : Run unit :=
  s ← get;
  broadcast {| b_type := MSG_ROUND_CHANGE; b_instance := inst; b_source := process;
               b_round := s_round s; b_value := value_default;
               b_prepared_round := s_prepared_round s;
               b_prepared_value := s_prepared_value s;
               b_justification := s_prepared_justification s |}.

(** Broadcasts a PRE-PREPARE with the own input value, or caches the
    justification until the value is available. *)
Definition broadcast_own_pre_prepare (just : list Msg) : Run unit :=
  s ← get;
  match s_ppj_cache s with
  | Some _ => lift Panic
  | None =>
    if bool_decide (s_input_value s = value_default) then
      modify (fun s => s <| s_ppj_cache := Some just |>)
    else broadcast_msg MSG_PRE_PREPARE (s_input_value s) (Some just)
  end.

(** Appends to the FIFO of the message's source, dropping the oldest
    messages over the limit. *)
Definition buffer_msg (msg : Msg) : Run unit :=
  modify (fun s =>
    let fifo := default [] (s_buffer s !! source msg) ++ [msg] in
    let limit := Z.to_nat (fifo_limit d) in
    let fifo := drop (length fifo - limit) fifo in
    s <| s_buffer := <[source msg := fifo]> (s_buffer s) |>).

(** Whether the rule was already executed for that round since the last
    round change; records it. *)
Definition is_duplicated_rule (rule rnd : Z) : Run bool :=
  s ← get;
  let k := (rule, rnd) in
  modify (fun s => s <| s_dedup_rules ::= union {[k]} |>) ;;
  mret (bool_decide (k ∈ s_dedup_rules s)).

Definition change_round (new_round : Z) : Run unit :=
  modify (fun s =>
    if s_round s =? new_round then s
    else s <| s_round := new_round |> <| s_dedup_rules := ∅ |> <| s_ppj_cache := None |>).

Definition stop_timer : Run unit := emit AStopTimer.

Definition new_timer : Run unit :=
  s ← get;
  emit (ANewTimer (s_round s)) ;;
  modify (fun s => s <| s_timer := Some (s_round s) |>).

(** The round times out (Algorithm 3:1). *)
Definition next_round_on_timeout : Run unit :=
  s ← get;
  next_round ← lift (expect (checked_add_i64 (s_round s) 1));
  change_round next_round ;;
  stop_timer ;;
  new_timer ;;
  broadcast_round_change.

(** Algorithm 2:1. *)
Definition upon_justified_pre_prepare (msg : Msg) : Run unit :=
  change_round (round msg) ;;
  stop_timer ;;
  new_timer ;;
  s ← get;
  let '(source', result) := compare (s_input_value_source s) (e_compare env) in
  modify (fun s => s <| s_input_value_source := source' |>) ;;
  match result with
  | Ok _ => broadcast_msg MSG_PREPARE (value msg) None
  | Err CompareError =>
    modify (fun s => s <| s_compare_failure_round := round msg |>)
  | Err TimeoutError => next_round_on_timeout
  | Err ContextCanceled => lift (Err ContextCanceled)
  | Err e => lift (Err (UnexpectedCompareError e))
  | Panic => lift Panic
  end.

(** Algorithm 2:4. *)
Definition upon_quorum_prepares (msg : Msg) (just : option (list Msg)) : Run unit :=
  modify (fun s => s <| s_prepared_round := s_round s |>
                     <| s_prepared_value := value msg |>
                     <| s_prepared_justification := just |>) ;;
  s ← get;
  broadcast_msg MSG_COMMIT (s_prepared_value s) None.

(** Algorithm 2:8. *)
Definition upon_decided (msg : Msg) (just : option (list Msg)) : Run unit :=
  change_round (round msg) ;;
  modify (fun s => s <| s_q_commit := just |>) ;;
  stop_timer ;;
  modify (fun s => s <| s_timer := None |>) ;;
  qcommit ← lift (expect just);
  emit (ADecide (value msg) qcommit).

(** Algorithm 3:5. *)
Definition upon_fplus1_round_changes (just : option (list Msg)) : Run unit :=
  frc ← lift (expect just);
  s ← get;
  r ← lift (next_min_round d frc (s_round s));
  change_round r ;;
  stop_timer ;;
  new_timer ;;
  broadcast_round_change.

(** Algorithm 3:11. *)
Definition upon_quorum_round_changes (just : option (list Msg)) : Run unit :=
  qrc ← lift (expect just);
  s ← get;
  p ← lift (get_single_justified_pr_pv d qrc);
  match p with
  | Some (pr, pv) =>
    if negb (s_compare_failure_round s =? pr) then
      broadcast_msg MSG_PRE_PREPARE pv (Some qrc)
    else broadcast_own_pre_prepare qrc
  | None => broadcast_own_pre_prepare qrc
  end.

Definition apply_rule (rule : Z) (msg : Msg) (just : option (list Msg)) : Run unit :=
  if rule =? UPON_JUSTIFIED_PRE_PREPARE then upon_justified_pre_prepare msg
  else if rule =? UPON_QUORUM_PREPARES then upon_quorum_prepares msg just
  else if (rule =? UPON_QUORUM_COMMITS) || (rule =? UPON_JUSTIFIED_DECIDED) then
    upon_decided msg just
  else if rule =? UPON_F_PLUS1_ROUND_CHANGES then upon_fplus1_round_changes just
  else if rule =? UPON_QUORUM_ROUND_CHANGES then upon_quorum_round_changes just
  else if rule =? UPON_UNJUST_QUORUM_ROUND_CHANGES then mret tt
  else lift Panic.

(** [recv(t.receive)]. *)
Definition on_receive (msg : Msg) : Run unit :=
  s ← get;
  match s_q_commit s with
  | Some (v0 :: _ as v) =>
    if negb (source msg =? process) && (type_ msg =? MSG_ROUND_CHANGE) then
      broadcast_msg MSG_DECIDED (value v0) (Some v)
    else mret tt
  | _ =>
    justified ← lift (is_justified d inst msg (s_compare_failure_round s));
    if negb justified then mret tt
    else
      buffer_msg msg ;;
      s ← get;
      '(rule, just) ← lift (classify (e_order env) d inst (s_round s) process
                              (s_buffer s) msg);
      if rule =? UPON_NOTHING then mret tt
      else
        dup ← is_duplicated_rule rule (round msg);
        if dup : bool then mret tt
        else apply_rule rule msg just
  end.

(** [recv(input_value_ch)]. *)
Definition on_input (iv : Value) : Run unit :=
  modify (fun s => s <| s_input_value := iv |>) ;;
  if bool_decide (iv = value_default) then lift (Err ZeroInputValue)
  else
    s ← get;
    match s_ppj_cache s with
    | Some ppj => broadcast_msg MSG_PRE_PREPARE iv (Some ppj)
    | None => mret tt
    end ;;
    modify (fun s => s <| s_input_open := false |>).

Definition on_event (ev : Event) : Run unit :=
  match ev with
  | EvCanceled => lift (Err ContextCanceled)
  | EvInput None => lift (Err ChannelError)
  | EvInput (Some v) => on_input v
  | EvReceive None => lift (Err ChannelError)
  | EvReceive (Some m) => on_receive m
  | EvTimer false => lift (Err ChannelError)
  | EvTimer true => next_round_on_timeout
  | EvPoll true => lift (Err ContextCanceled)
  | EvPoll false => mret tt
  end.

(** The part of [run] before the loop (Algorithm 1:11). *)
Definition start : Run unit :=
  lift (validate_definition d) ;;
  s ← get;
  (if is_leader d inst (s_round s) process then broadcast_own_pre_prepare [] else mret tt) ;;
  new_timer.
End run.

(** The events an iteration can take: a channel replaced by [never()] is not
    ready. *)
Definition enabled (s : RunState) (ev : Event) : bool :=
  match ev with
  | EvInput _ => s_input_open s
  | EvTimer _ => bool_decide (is_Some (s_timer s))
  | _ => true
  end.

(** [run] on a finite prefix of its events: everything it did, and either the
    state it waits in ([inl]) or how it ended ([inr]). *)
Fixpoint run_loop (d : QDefinition) (inst : Inst) (process : Z)
    (evs : list (Env * Event)) (s : RunState) : list Action * (RunState + res QbftError unit) :=
  match evs with
  | [] => ([], inl s)
  | (env, ev) :: evs =>
    if negb (enabled s ev) then ([], inl s)
    else match on_event d inst process env ev s with
    | (s', acts, Ok _) =>
      let '(acts', r) := run_loop d inst process evs s' in (acts ++ acts', r)
    | (s', acts, Err e) => (acts, inr (Err e))
    | (s', acts, Panic) => (acts, inr Panic)
    end
  end.

Definition run (d : QDefinition) (inst : Inst) (process : Z) (env0 : Env)
    (evs : list (Env * Event)) : list Action * (RunState + res QbftError unit) :=
  match start d inst process env0 initial_state with
  | (s, acts, Ok _) =>
    let '(acts', r) := run_loop d inst process evs s in (acts ++ acts', r)
  | (s, acts, Err e) => (acts, inr (Err e))
  | (s, acts, Panic) => (acts, inr Panic)
  end.

End qbft_core.
