(* ===== verification/QbftFacts.v ===== *)
(** * Facts about the QBFT predicates

    What the filters, justification predicates and searches of [Qbft] compute:
    each is characterised by the messages it accepts or returns, so that the
    later files reason about quorums of messages instead of loops. *)

From S2P Require Import Prelude Qbft.

Open Scope Z_scope.

(** The quorum and fault thresholds as plain integers. *)
Definition quorum_size (n : Z) : Z := (2 * n + 2) / 3.
Definition max_faulty (n : Z) : Z := (n - 1) / 3.

Section facts.
Context {Inst Value Compare : Type}.
Context `{Countable Value}.
Context {Dflt : @QbftDefaults Value Compare}.
Abbreviation Msg := (@Msg Inst Value Compare).
Abbreviation QDefinition := (@QDefinition Inst).

(** A definition [run] accepts and whose node count leaves room for the
    arithmetic (every cluster of fewer than 2^62 - 1 nodes). *)
Definition valid_def (d : QDefinition) : Prop :=
  0 < nodes d /\ 2 * nodes d + 2 <= I64_MAX /\ 0 < fifo_limit d.

(** Messages of one type, round and value, from pairwise different sources. *)
Definition votes (t r : Z) (v : Value) (l : list Msg) : Prop :=
  NoDup (source <$> l) /\
  Forall (fun m => type_ m = t /\ round m = r /\ value m = v) l.

(** ** Quorum arithmetic *)

Lemma quorum_ok n : 0 < n -> 2 * n + 2 <= I64_MAX -> quorum n = Ok (quorum_size n).
Proof.
  intros Hn Hmax. unfold quorum, checked_mul_i64, checked_add_i64, checked_div_i64.
  unfold I64_MAX in *.
  rewrite guard_i64_in by (unfold I64_MIN, I64_MAX; lia). cbn.
  rewrite guard_i64_in by (unfold I64_MIN, I64_MAX; lia). cbn.
  rewrite Z.quot_div_nonneg by lia.
  rewrite guard_i64_in; [by rewrite (Z.mul_comm n 2)|].
  split; [unfold I64_MIN; pose proof (Z.div_pos (n * 2 + 2) 3); lia|].
  unfold I64_MAX. apply Z.div_le_upper_bound; lia.
Qed.

Lemma quorum_size_pos n : 0 < n -> 0 < quorum_size n.
Proof. intros. unfold quorum_size. pose proof (Z.div_le_lower_bound (2 * n + 2) 3 1). lia. Qed.

Lemma quorum_count_ok d : valid_def d -> quorum_count d = Ok (quorum_size (nodes d)).
Proof.
  intros (Hn & Hmax & _). unfold quorum_count, d_quorum, usize_of.
  rewrite quorum_ok by done. cbn.
  destruct (Z.ltb_spec (quorum_size (nodes d)) 0); [|done].
  pose proof (quorum_size_pos (nodes d)). lia.
Qed.

Lemma faulty_plus_one_ok d :
  valid_def d -> faulty_plus_one_count d = Ok (max_faulty (nodes d) + 1).
Proof.
  intros (Hn & Hmax & _).
  unfold faulty_plus_one_count, faulty, checked_sub_i64, checked_div_i64,
    checked_add_i64, max_faulty.
  unfold I64_MAX in *.
  assert (0 <= (nodes d - 1) / 3 <= nodes d) as Hf.
  { split; [apply Z.div_pos; lia|]. apply Z.div_le_upper_bound; lia. }
  rewrite guard_i64_in by (unfold I64_MIN, I64_MAX; lia). cbn.
  rewrite Z.quot_div_nonneg by lia.
  rewrite guard_i64_in by (unfold I64_MIN, I64_MAX; lia). cbn.
  rewrite guard_i64_in by (unfold I64_MIN, I64_MAX; lia). cbn.
  unfold usize_of. destruct (Z.ltb_spec ((nodes d - 1) / 3 + 1) 0); [lia|done].
Qed.

Lemma max_faulty_nonneg n : 0 < n -> 0 <= max_faulty n.
Proof. intros. unfold max_faulty. apply Z.div_pos; lia. Qed.

(** Two quorums overlap in more than [max_faulty] participants, and a quorum
    always fits among the correct participants. *)
Lemma quorum_overlap n : 0 < n -> n + max_faulty n < 2 * quorum_size n.
Proof.
  intros. unfold quorum_size, max_faulty.
  pose proof (Z.div_mod (2 * n + 2) 3). pose proof (Z.div_mod (n - 1) 3).
  pose proof (Z.mod_pos_bound (2 * n + 2) 3). pose proof (Z.mod_pos_bound (n - 1) 3). lia.
Qed.

Lemma quorum_available n : 0 < n -> quorum_size n <= n - max_faulty n.
Proof.
  intros. unfold quorum_size, max_faulty.
  pose proof (Z.div_mod (2 * n + 2) 3). pose proof (Z.div_mod (n - 1) 3).
  pose proof (Z.mod_pos_bound (2 * n + 2) 3). pose proof (Z.mod_pos_bound (n - 1) 3). lia.
Qed.

(** ** [filter_msgs] *)

(** The selection [filter_msgs] makes, without the source deduplication. *)
Definition matches (t r : Z) (val : option Value) (pr : option Z) (pv : option Value)
    (m : Msg) : bool :=
  (t =? type_ m) && (r =? round m) && negb (differs val (value m))
  && negb (differs pv (prepared_value m)) && negb (differs pr (prepared_round m)).

Lemma filter_msgs_loop_spec t r val pr pv sources (msgs : list Msg) :
  let res := filter_msgs_loop t r val pr pv sources msgs in
  NoDup (source <$> res) /\
  (forall m, m ∈ res -> m ∈ msgs /\ matches t r val pr pv m = true /\ source m ∉ sources) /\
  (forall m, m ∈ msgs -> matches t r val pr pv m = true ->
     source m ∈ sources \/ source m ∈ source <$> res).
Proof.
  revert sources. induction msgs as [|m msgs IH]; intros sources; cbn.
  { split_and!; [constructor| |]; intros ? Hin; by apply elem_of_nil in Hin. }
  assert (forall m', matches t r val pr pv m = false ->
    m' ∈ m :: msgs -> matches t r val pr pv m' = true -> m' ∈ msgs) as Hskip.
  { intros m' Hf [->|Hin]%elem_of_cons Ht; [congruence|done]. }
  assert (matches t r val pr pv m = false ->
    let res := filter_msgs_loop t r val pr pv sources msgs in
    NoDup (source <$> res) /\
    (forall m', m' ∈ res ->
       m' ∈ m :: msgs /\ matches t r val pr pv m' = true /\ source m' ∉ sources) /\
    (forall m', m' ∈ m :: msgs -> matches t r val pr pv m' = true ->
       source m' ∈ sources \/ source m' ∈ source <$> res)) as Hno.
  { intros Hf. destruct (IH sources) as (Hnd & Hin & Hall). split_and!; [done| |].
    - intros m' Hm'. destruct (Hin m' Hm') as (? & ? & ?). split_and!; [by constructor|done|done].
    - intros m' Hm' Ht. apply Hall; eauto. }
  unfold matches in Hno.
  destruct (t =? type_ m) eqn:E1; [|by apply Hno].
  destruct (r =? round m) eqn:E2; [|by apply Hno].
  destruct (differs val (value m)) eqn:E3; [by apply Hno|].
  destruct (differs pv (prepared_value m)) eqn:E4; [by apply Hno|].
  destruct (differs pr (prepared_round m)) eqn:E5; [by apply Hno|].
  cbn. clear Hno Hskip.
  assert (matches t r val pr pv m = true) as Hm.
  { unfold matches. by rewrite E1, E2, E3, E4, E5. }
  destruct (IH ({[source m]} ∪ sources)) as (Hnd & Hin & Hall).
  case_bool_decide as Hs; cbn.
  - split_and!.
    + constructor; [|done]. intros (m' & Heq & Hm')%list_elem_of_fmap.
      destruct (Hin m' Hm') as (_ & _ & Hns). set_solver.
    + intros m' [->|Hm']%elem_of_cons; [split_and!; [by constructor|done|done]|].
      destruct (Hin m' Hm') as (? & ? & ?). split_and!; [by constructor|done|set_solver].
    + intros m' [->|Hm']%elem_of_cons Ht; [right; by constructor|].
      destruct (Hall m' Hm' Ht) as [[?%elem_of_singleton|?]%elem_of_union|?].
      * right. apply elem_of_cons. by left.
      * by left.
      * right. by constructor.
  - split_and!.
    + done.
    + intros m' Hm'. destruct (Hin m' Hm') as (? & ? & Hn).
      split_and!; [by constructor|done|]. intros Hin'. by apply Hn, elem_of_union_r.
    + intros m' [->|Hm']%elem_of_cons Ht; [by left|].
      destruct (Hall m' Hm' Ht) as [[->%elem_of_singleton|?]%elem_of_union|?];
        [by left|by left|by right].
Qed.

Lemma filter_msgs_NoDup t r val pr pv (msgs : list Msg) :
  NoDup (source <$> filter_msgs t r val pr pv msgs).
Proof. apply filter_msgs_loop_spec. Qed.

Lemma filter_msgs_in t r val pr pv (msgs : list Msg) m :
  m ∈ filter_msgs t r val pr pv msgs -> m ∈ msgs /\ matches t r val pr pv m = true.
Proof.
  intros Hm. destruct (filter_msgs_loop_spec t r val pr pv ∅ msgs) as (_ & Hin & _).
  by destruct (Hin m Hm) as (? & ? & _).
Qed.

Lemma filter_msgs_complete t r val pr pv (msgs : list Msg) m :
  m ∈ msgs -> matches t r val pr pv m = true ->
  source m ∈ source <$> filter_msgs t r val pr pv msgs.
Proof.
  intros Hm Ht. destruct (filter_msgs_loop_spec t r val pr pv ∅ msgs) as (_ & _ & Hall).
  by destruct (Hall m Hm Ht) as [[]%not_elem_of_empty|?].
Qed.

Lemma differs_false {A} `{EqDecision A} (o : option A) (y : A) :
  differs o y = false <-> forall x, o = Some x -> y = x.
Proof.
  unfold differs. destruct o as [x|]; [|naive_solver].
  rewrite bool_decide_eq_false. split.
  - intros Hn x' [= <-]. by apply dec_stable.
  - intros Hx Hn. by apply Hn, Hx.
Qed.

Lemma matches_spec t r val pr pv (m : Msg) :
  matches t r val pr pv m = true <->
  type_ m = t /\ round m = r /\
  (forall v, val = Some v -> value m = v) /\
  (forall v, pv = Some v -> prepared_value m = v) /\
  (forall p, pr = Some p -> prepared_round m = p).
Proof.
  unfold matches. rewrite !andb_true_iff, !negb_true_iff, !Z.eqb_eq, !differs_false.
  split; [intros ((((? & ?) & ?) & ?) & ?)|intros (? & ? & ? & ? & ?)]; by split_and!.
Qed.

Lemma filter_msgs_votes t r v pr pv (msgs : list Msg) :
  votes t r v (filter_msgs t r (Some v) pr pv msgs).
Proof.
  split; [apply filter_msgs_NoDup|]. apply Forall_forall. intros m Hm.
  apply filter_msgs_in in Hm as (_ & Hm). apply matches_spec in Hm as (? & ? & Hv & _).
  by split_and!; [| |apply Hv].
Qed.

(** A list that already has one matching message per source is unchanged. *)
Lemma filter_msgs_loop_id t r val pr pv sources (l : list Msg) :
  NoDup (source <$> l) ->
  (forall m, m ∈ l -> matches t r val pr pv m = true /\ source m ∉ sources) ->
  filter_msgs_loop t r val pr pv sources l = l.
Proof.
  revert sources. induction l as [|m l IH]; intros sources Hnd Hall; [done|].
  cbn in Hnd. apply NoDup_cons in Hnd as [Hm Hnd].
  destruct (Hall m) as [Hmt Hs]; [by constructor|].
  unfold matches in Hmt. rewrite !andb_true_iff, !negb_true_iff in Hmt.
  destruct Hmt as ((((H1 & H2) & H3) & H4) & H5).
  cbn. rewrite H1, H2, H3, H4, H5. cbn.
  rewrite bool_decide_eq_true_2 by done. f_equal. apply IH; [done|].
  intros m' Hm'. destruct (Hall m') as [? ?]; [by constructor|]. split; [done|].
  rewrite elem_of_union, elem_of_singleton. intros [Heq|?]; [|done].
  apply Hm. rewrite <-Heq. by apply list_elem_of_fmap_2.
Qed.

Lemma filter_msgs_loop_app_skip t r val pr pv sources (l k : list Msg) :
  (forall m, m ∈ k -> matches t r val pr pv m = false) ->
  filter_msgs_loop t r val pr pv sources (l ++ k) = filter_msgs_loop t r val pr pv sources l.
Proof.
  revert sources. induction l as [|m l IH]; intros sources Hk; cbn.
  - induction k as [|m k IH]; [done|]. cbn.
    assert (matches t r val pr pv m = false) as Hm by (apply Hk; by constructor).
    unfold matches in Hm. rewrite IH by (intros; apply Hk; by constructor).
    destruct (t =? type_ m), (r =? round m), (differs val (value m)),
      (differs pv (prepared_value m)), (differs pr (prepared_round m)); done.
  - rewrite !IH by done. done.
Qed.

(** ** [flatten] *)

Definition no_nested (m : Msg) : Prop := Forall (fun j => justification j = []) (justification m).

Lemma flatten_justs_ok (js : list Msg) :
  Forall (fun j => justification j = []) js -> flatten_justs js = Ok js.
Proof. induction 1 as [|j js Hj _ IH]; cbn; [done|]. by rewrite Hj, IH. Qed.

Lemma flatten_justs_id (js all : list Msg) : flatten_justs js = Ok all -> all = js.
Proof.
  revert all. induction js as [|j js IH]; intros all; cbn; [by intros [= <-]|].
  destruct (justification j); [|done]. intros ?. inv_res. subst. f_equal. by apply IH.
Qed.

Lemma flatten_msgs_ok (msgs : list Msg) :
  Forall no_nested msgs ->
  flatten_msgs msgs = Ok (msgs ≫= (fun m => m :: justification m)).
Proof.
  induction 1 as [|m msgs Hm _ IH]; cbn; [done|].
  rewrite (flatten_justs_ok _ Hm). cbn. by rewrite IH.
Qed.

Lemma flatten_msgs_in (msgs all : list Msg) x :
  flatten_msgs msgs = Ok all -> x ∈ all ->
  exists m, m ∈ msgs /\ (x = m \/ x ∈ justification m).
Proof.
  revert all. induction msgs as [|m msgs IH]; intros all; cbn.
  { intros [= <-] Hx. by apply elem_of_nil in Hx. }
  intros Hok Hx. inv_res. subst.
  match goal with Hj : flatten_justs _ = Ok _ |- _ => apply flatten_justs_id in Hj as -> end.
  apply elem_of_cons in Hx as [->|[Hx|Hx]%elem_of_app].
  - exists m. split; [by constructor|by left].
  - exists m. split; [by constructor|by right].
  - destruct (IH _ ltac:(eassumption) Hx) as (m' & ? & ?). exists m'. split; [by constructor|done].
Qed.

Lemma elem_of_buffer ho (buffer : gmap Z (list Msg)) m :
  m ∈ concat (map_values ho buffer) <-> exists k l, buffer !! k = Some l /\ m ∈ l.
Proof.
  rewrite list_elem_of_In, in_concat. setoid_rewrite <-list_elem_of_In.
  setoid_rewrite elem_of_map_values. naive_solver.
Qed.

(** Everything a flattened buffer holds was received, directly or as the
    justification of a received message. *)
Lemma flatten_in ho (buffer : gmap Z (list Msg)) all x :
  flatten ho buffer = Ok all -> x ∈ all ->
  exists k l m, buffer !! k = Some l /\ m ∈ l /\ (x = m \/ x ∈ justification m).
Proof.
  intros Hf Hx. destruct (flatten_msgs_in _ _ _ Hf Hx) as (m & Hm & Hor).
  apply elem_of_buffer in Hm as (k & l & ? & ?). eauto 10.
Qed.

Lemma flatten_ok ho (buffer : gmap Z (list Msg)) :
  (forall k l m, buffer !! k = Some l -> m ∈ l -> no_nested m) ->
  exists all, flatten ho buffer = Ok all.
Proof.
  intros Hn. eexists. apply flatten_msgs_ok, Forall_forall. intros m Hm.
  apply elem_of_buffer in Hm as (k & l & ? & ?). eauto.
Qed.

(** ** Quorums of PREPAREs in a justification *)

(** The PREPAREs of a list agree on one round and value, with different
    sources. *)
Lemma single_pr_pv_loop_spec pr pv count sources (msgs : list Msg) pr' pv' count' :
  0 <= count ->
  single_pr_pv_loop pr pv count sources msgs = Some (pr', pv', count') ->
  let ps := filter (fun m => type_ m = MSG_PREPARE) msgs in
  count' = count + len ps /\
  (count <> 0 -> pr' = pr /\ pv' = pv) /\
  votes MSG_PREPARE pr' pv' ps /\
  (forall m, m ∈ ps -> source m ∉ sources).
Proof.
  revert pr pv count sources. induction msgs as [|m msgs IH]; intros pr pv count sources Hc.
  { intros [= <- <- <-]. cbn. unfold len. cbn. split_and!; [lia|done| |by intros ? ?%elem_of_nil].
    split; constructor. }
  cbn [single_pr_pv_loop]. rewrite filter_cons.
  destruct (type_ m =? MSG_PREPARE) eqn:Et; zbool; cbn [negb].
  2:{ rewrite decide_False by done. by apply IH. }
  rewrite decide_True by done. cbn. case_bool_decide as Hs; cbn; [|done].
  intros Hl.
  assert (exists pr1 pv1, single_pr_pv_loop pr1 pv1 (count + 1) ({[source m]} ∪ sources) msgs
    = Some (pr', pv', count') /\ pr1 = round m /\ pv1 = value m /\
    (count <> 0 -> pr1 = pr /\ pv1 = pv)) as (pr1 & pv1 & Hl' & -> & -> & Hsame).
  { revert Hl. destruct (count =? 0) eqn:Ec; zbool; [intros; exists (round m), (value m); by split_and!|].
    destruct (negb (pr =? round m) || bool_decide (pv <> value m)) eqn:Ed; [done|]. intros Hl.
    zbool. match goal with Hn : ~ pv <> _ |- _ => apply dec_stable in Hn end.
    subst. exists (round m), (value m). by split_and!. }
  apply IH in Hl' as (Hcnt & Heq & [Hnd Hall] & Hns); [|lia].
  destruct Heq as [-> ->]; [lia|].
  split_and!.
  - rewrite Hcnt. unfold len. cbn. lia.
  - done.
  - split; cbn.
    + constructor; [|done]. intros (m' & Heq & Hm')%list_elem_of_fmap.
      apply (Hns m' Hm'). rewrite <-Heq. set_solver.
    + by constructor.
  - intros m' [->|Hm']%elem_of_cons; [done|]. specialize (Hns m' Hm'). set_solver.
Qed.

Lemma get_single_justified_spec d (msgs : list Msg) pr pv :
  valid_def d -> get_single_justified_pr_pv d msgs = Ok (Some (pr, pv)) ->
  exists ps, votes MSG_PREPARE pr pv ps /\ quorum_size (nodes d) <= len ps /\
    (forall m, m ∈ ps -> m ∈ msgs).
Proof.
  intros Hd. unfold get_single_justified_pr_pv.
  destruct (single_pr_pv_loop _ _ _ _ _) as [[[pr' pv'] c]|] eqn:El; [|done].
  rewrite quorum_count_ok by done. cbn.
  destruct (Z.leb_spec (quorum_size (nodes d)) c); [|done]. intros [= <- <-].
  apply single_pr_pv_loop_spec in El as (-> & _ & Hv & _); [|lia].
  eexists. split_and!; [done|lia|]. intros m Hm. by apply list_elem_of_filter in Hm as [_ ?].
Qed.

(** Conversely, PREPAREs that form votes are counted, whatever other messages
    surround them. *)
Lemma single_pr_pv_loop_more pr pv count sources (msgs : list Msg) :
  let ps := filter (fun m => type_ m = MSG_PREPARE) msgs in
  0 < count -> votes MSG_PREPARE pr pv ps -> (forall m, m ∈ ps -> source m ∉ sources) ->
  single_pr_pv_loop pr pv count sources msgs = Some (pr, pv, count + len ps).
Proof.
  revert count sources. induction msgs as [|m msgs IH]; intros count sources ps Hc Hv Hs.
  { subst ps. cbn. unfold len. cbn. by rewrite Z.add_0_r. }
  subst ps. rewrite filter_cons in *. destruct (decide (type_ m = MSG_PREPARE)) as [Ht|Ht].
  - destruct Hv as [Hnd Hall]. cbn in Hnd. apply NoDup_cons in Hnd as [Hm Hnd].
    apply Forall_cons in Hall as [(_ & Hr & Hv) Hall].
    cbn [single_pr_pv_loop]. rewrite Ht. cbn.
    rewrite bool_decide_eq_true_2 by (apply Hs; by constructor). cbn.
    destruct (Z.eqb_spec count 0); [lia|].
    rewrite Hr, Hv, Z.eqb_refl, bool_decide_eq_false_2 by (intros []; done). cbn.
    rewrite IH; [unfold len; cbn; do 2 f_equal; lia|lia|done|].
    intros m' Hm'. rewrite elem_of_union, elem_of_singleton. intros [Heq|Hin].
    + apply Hm. rewrite <-Heq. by apply list_elem_of_fmap_2.
    + by apply (Hs m'); [constructor|].
  - cbn [single_pr_pv_loop].
    assert ((type_ m =? MSG_PREPARE) = false) as -> by by apply Z.eqb_neq. by apply IH.
Qed.

Lemma single_pr_pv_loop_votes pr pv pr0 pv0 (msgs : list Msg) :
  let ps := filter (fun m => type_ m = MSG_PREPARE) msgs in
  ps <> [] -> votes MSG_PREPARE pr pv ps ->
  single_pr_pv_loop pr0 pv0 0 ∅ msgs = Some (pr, pv, len ps).
Proof.
  induction msgs as [|m msgs IH]; intros ps Hne Hv; [done|].
  subst ps. rewrite filter_cons in *. destruct (decide (type_ m = MSG_PREPARE)) as [Ht|Ht].
  - destruct Hv as [Hnd Hall]. cbn in Hnd. apply NoDup_cons in Hnd as [Hm Hnd].
    apply Forall_cons in Hall as [(_ & Hr & Hv) Hall].
    cbn [single_pr_pv_loop]. rewrite Ht. cbn.
    rewrite Hr, Hv, (single_pr_pv_loop_more pr pv 1); [unfold len; cbn; do 2 f_equal; lia|lia|done|].
    intros m' Hm'. rewrite elem_of_union, elem_of_singleton. intros [Heq|Hin]; [|set_solver].
    apply Hm. rewrite <-Heq. by apply list_elem_of_fmap_2.
  - cbn [single_pr_pv_loop].
    assert ((type_ m =? MSG_PREPARE) = false) as -> by by apply Z.eqb_neq. by apply IH.
Qed.

Lemma get_single_justified_votes d (msgs : list Msg) pr pv :
  valid_def d ->
  votes MSG_PREPARE pr pv (filter (fun m => type_ m = MSG_PREPARE) msgs) ->
  quorum_size (nodes d) <= len (filter (fun m => type_ m = MSG_PREPARE) msgs) ->
  get_single_justified_pr_pv d msgs = Ok (Some (pr, pv)).
Proof.
  intros Hd Hv Hq. pose proof (quorum_size_pos (nodes d) (proj1 Hd)).
  unfold get_single_justified_pr_pv.
  rewrite (single_pr_pv_loop_votes pr pv); [|intros Hnil; rewrite Hnil in Hq; unfold len in Hq; cbn in Hq; lia|done].
  rewrite quorum_count_ok by done. cbn.
  by rewrite (proj2 (Z.leb_le _ _) Hq).
Qed.

(** ** Quorums of ROUND-CHANGEs in a justification *)

(** A quorum of ROUND-CHANGEs for [rnd] with prepared rounds in range. *)
Definition rc_quorum (d : QDefinition) (rnd : Z) (qrc : list Msg) : Prop :=
  NoDup (source <$> qrc) /\ quorum_size (nodes d) <= len qrc /\
  Forall (fun rc => type_ rc = MSG_ROUND_CHANGE /\ round rc = rnd /\
                    0 <= prepared_round rc < rnd) qrc.

(** J1: nothing was prepared. *)
Definition all_null (qrc : list Msg) : Prop :=
  Forall (fun rc => prepared_round rc = 0 /\ prepared_value rc = value_default) qrc.

(** J2: [pr] and [pv] are the highest prepared round and its value. *)
Definition highest_prepared (pr : Z) (pv : Value) (qrc : list Msg) : Prop :=
  Forall (fun rc => prepared_round rc <= pr) qrc /\
  Exists (fun rc => prepared_round rc = pr /\ prepared_value rc = pv) qrc.

(** What a justified PRE-PREPARE of a later round carries: a quorum of
    ROUND-CHANGEs, and either none of them prepared or a quorum of PREPAREs
    for the highest prepared round and value. *)
Definition just_qrc (d : QDefinition) (just : list Msg) (rnd : Z) (pv : Value) : Prop :=
  exists qrc, rc_quorum d rnd qrc /\ qrc ⊆ just /\
    ((all_null qrc /\ pv = value_default) \/
     exists pr ps, votes MSG_PREPARE pr pv ps /\ quorum_size (nodes d) <= len ps /\
       ps ⊆ just /\ highest_prepared pr pv qrc).

Lemma valid_prepared_round_spec (m : Msg) :
  valid_round_change_prepared_round m = true <-> 0 <= prepared_round m < round m.
Proof. unfold valid_round_change_prepared_round. rewrite andb_true_iff, Z.leb_le, Z.ltb_lt. done. Qed.

Lemma null_prepared_spec (rc : Msg) :
  null_prepared rc = true <-> prepared_round rc = 0 /\ prepared_value rc = value_default.
Proof.
  unfold null_prepared. rewrite negb_orb, andb_true_iff, !negb_true_iff, negb_false_iff.
  rewrite Z.eqb_eq, bool_decide_eq_false. split; [intros [? ?]; split; [done|by apply dec_stable]|].
  intros [? ?]. split; [done|]. by intros [].
Qed.

Lemma forallb_null_spec (qrc : list Msg) : forallb null_prepared qrc = true <-> all_null qrc.
Proof.
  unfold all_null. rewrite forallb_forall, Forall_forall.
  setoid_rewrite <-list_elem_of_In. by setoid_rewrite null_prepared_spec.
Qed.

Lemma qrc_scan_spec pr pv found (qrc : list Msg) b :
  qrc_scan pr pv found qrc = Some b <->
  Forall (fun rc => prepared_round rc <= pr) qrc /\
  (b = true <-> found = true \/
     Exists (fun rc => prepared_round rc = pr /\ prepared_value rc = pv) qrc).
Proof.
  revert found. induction qrc as [|rc qrc IH]; intros found; cbn.
  { rewrite Exists_nil, (right_id False (∨)). split; [intros [= ->]; split; [constructor|done]|].
    intros [_ Hb]. destruct b, found; naive_solver. }
  rewrite Forall_cons, Exists_cons. destruct (Z.ltb_spec pr (prepared_round rc)) as [Hlt|Hge].
  { split; [done|]. intros [[? ?] ?]. lia. }
  destruct ((prepared_round rc =? pr) && bool_decide (prepared_value rc = pv)) eqn:E.
  - zbool. rewrite IH. naive_solver lia.
  - rewrite IH. apply andb_false_iff in E.
    assert (~ (prepared_round rc = pr /\ prepared_value rc = pv)) as Hne.
    { intros [Hp Hv]. rewrite Z.eqb_neq, bool_decide_eq_false in E. by destruct E. }
    naive_solver.
Qed.

(** The round changes [contains_justified_qrc] and [get_justified_qrc] look at. *)
Definition valid_rcs (just : list Msg) (rnd : Z) : list Msg :=
  filter (fun m => valid_round_change_prepared_round m = true) (filter_round_change just rnd).

Lemma NoDup_fmap_filter {A B} (f : A -> B) (P : A -> Prop) `{forall x, Decision (P x)} (l : list A) :
  NoDup (f <$> l) -> NoDup (f <$> filter P l).
Proof.
  induction l as [|x l IH]; [done|]. rewrite fmap_cons, filter_cons. intros [Hx Hl]%NoDup_cons.
  case_decide; [|by apply IH]. cbn. constructor; [|by apply IH].
  intros (y & Hy & Hin)%list_elem_of_fmap. apply Hx. rewrite Hy.
  apply list_elem_of_filter in Hin as [_ ?]. by apply list_elem_of_fmap_2.
Qed.

Lemma valid_rcs_in (just : list Msg) rnd m :
  m ∈ valid_rcs just rnd -> m ∈ just /\ type_ m = MSG_ROUND_CHANGE /\ round m = rnd /\
    0 <= prepared_round m < rnd.
Proof.
  intros [Hv Hm]%list_elem_of_filter. apply valid_prepared_round_spec in Hv.
  apply filter_msgs_in in Hm as [? Hm]. apply matches_spec in Hm as (? & Hr & _). by subst.
Qed.

Lemma valid_rcs_quorum d (just : list Msg) rnd :
  quorum_size (nodes d) <= len (valid_rcs just rnd) -> rc_quorum d rnd (valid_rcs just rnd).
Proof.
  intros Hq. split_and!; [|done|].
  - apply NoDup_fmap_filter, filter_msgs_NoDup.
  - apply Forall_forall. intros m Hm. by apply valid_rcs_in in Hm as (_ & ? & ? & ?).
Qed.

Lemma valid_rcs_subset (just : list Msg) rnd : valid_rcs just rnd ⊆ just.
Proof. intros m Hm. by apply valid_rcs_in in Hm as [? _]. Qed.

Lemma contains_justified_qrc_spec d (just : list Msg) rnd pv :
  valid_def d -> contains_justified_qrc d just rnd = Ok (Some pv) -> just_qrc d just rnd pv.
Proof.
  intros Hd. unfold contains_justified_qrc. rewrite quorum_count_ok by done. cbn.
  fold (valid_rcs just rnd).
  destruct (Z.ltb_spec (len (valid_rcs just rnd)) (quorum_size (nodes d))) as [|Hq]; [done|].
  intros Hc. exists (valid_rcs just rnd).
  split; [by apply valid_rcs_quorum|]. split; [apply valid_rcs_subset|].
  destruct (forallb null_prepared (valid_rcs just rnd)) eqn:En.
  { left. injection Hc as <-. split; [by apply forallb_null_spec|done]. }
  right. apply res_bind_Ok in Hc as ([[pr' pv']|] & Hp & Hc); [|done].
  destruct (qrc_scan pr' pv' false (valid_rcs just rnd)) as [[]|] eqn:Es; try done.
  injection Hc as <-. apply qrc_scan_spec in Es as [Hall Hex].
  apply get_single_justified_spec in Hp as (ps & Hv & Hlen & Hin); [|done].
  exists pr', ps. split_and!; [done|done|done|]. split; [done|]. naive_solver.
Qed.

(** A list made of a quorum of valid ROUND-CHANGEs that prepared nothing, or
    followed by a quorum of PREPAREs for their highest prepared pair, is
    accepted. *)
Lemma filter_round_change_id (qrc rest : list Msg) rnd :
  NoDup (source <$> qrc) ->
  Forall (fun rc => type_ rc = MSG_ROUND_CHANGE /\ round rc = rnd) qrc ->
  Forall (fun m => type_ m = MSG_PREPARE) rest ->
  filter_round_change (qrc ++ rest) rnd = qrc.
Proof.
  intros Hnd Hall Hrest. unfold filter_round_change, filter_msgs.
  rewrite filter_msgs_loop_app_skip.
  - apply filter_msgs_loop_id; [done|]. intros m Hm.
    rewrite Forall_forall in Hall. destruct (Hall m Hm). split; [|set_solver].
    apply matches_spec. by split_and!.
  - intros m Hm. rewrite Forall_forall in Hrest. specialize (Hrest m Hm).
    apply not_true_iff_false. rewrite matches_spec. intros (Ht & _). by rewrite Hrest in Ht.
Qed.

Lemma filter_true_id {A} (P : A -> Prop) `{forall x, Decision (P x)} (l : list A) :
  Forall P l -> filter P l = l.
Proof. induction 1 as [|x l Hx _ IH]; [done|]. rewrite filter_cons, decide_True by done. by f_equal. Qed.

Lemma filter_false_nil {A} (P : A -> Prop) `{forall x, Decision (P x)} (l : list A) :
  Forall (fun x => ~ P x) l -> filter P l = [].
Proof. induction 1 as [|x l Hx _ IH]; [done|]. by rewrite filter_cons, decide_False. Qed.

Lemma valid_rcs_id d (qrc rest : list Msg) rnd :
  rc_quorum d rnd qrc -> Forall (fun m => type_ m = MSG_PREPARE) rest ->
  valid_rcs (qrc ++ rest) rnd = qrc.
Proof.
  intros (Hnd & _ & Hall) Hrest. unfold valid_rcs.
  rewrite filter_round_change_id; [|done| |done].
  - apply filter_true_id. eapply Forall_impl; [done|]. intros m (_ & Hr & ?).
    apply valid_prepared_round_spec. by rewrite Hr.
  - eapply Forall_impl; [done|]. naive_solver.
Qed.

Lemma contains_justified_qrc_null d (qrc : list Msg) rnd :
  valid_def d -> rc_quorum d rnd qrc -> all_null qrc ->
  contains_justified_qrc d qrc rnd = Ok (Some value_default).
Proof.
  intros Hd Hq Hn. unfold contains_justified_qrc. rewrite quorum_count_ok by done. cbn.
  fold (valid_rcs qrc rnd).
  pose proof (valid_rcs_id d qrc [] rnd Hq (Forall_nil_2 _)) as Hid. rewrite app_nil_r in Hid.
  rewrite Hid. destruct Hq as (_ & Hlen & _).
  destruct (Z.ltb_spec (len qrc) (quorum_size (nodes d))); [lia|].
  by rewrite (proj2 (forallb_null_spec qrc) Hn).
Qed.

Lemma prepares_of_qrc d (qrc ps : list Msg) rnd pr pv :
  rc_quorum d rnd qrc -> votes MSG_PREPARE pr pv ps ->
  filter (fun m : Msg => type_ m = MSG_PREPARE) (qrc ++ ps) = ps.
Proof.
  intros (_ & _ & Hq) [_ Hv]. rewrite filter_app, filter_false_nil, filter_true_id; [done| |].
  - eapply Forall_impl; [done|]. naive_solver.
  - eapply Forall_impl; [done|]. intros m (Ht & _). by rewrite Ht.
Qed.

Lemma get_single_of_qrc d (qrc ps : list Msg) rnd pr pv :
  valid_def d -> rc_quorum d rnd qrc -> votes MSG_PREPARE pr pv ps ->
  quorum_size (nodes d) <= len ps -> get_single_justified_pr_pv d (qrc ++ ps) = Ok (Some (pr, pv)).
Proof.
  intros Hd Hq Hv Hlen.
  apply get_single_justified_votes; [done|..]; by rewrite (prepares_of_qrc d qrc ps rnd pr pv).
Qed.

Lemma contains_justified_qrc_prepared d (qrc ps : list Msg) rnd pr pv :
  valid_def d -> rc_quorum d rnd qrc -> highest_prepared pr pv qrc ->
  votes MSG_PREPARE pr pv ps -> quorum_size (nodes d) <= len ps ->
  exists pv', contains_justified_qrc d (qrc ++ ps) rnd = Ok (Some pv') /\
    (pv' = value_default \/ pv' = pv).
Proof.
  intros Hd Hq [Hall Hex] Hv Hlen. unfold contains_justified_qrc.
  rewrite quorum_count_ok by done. cbn. fold (valid_rcs (qrc ++ ps) rnd).
  assert (Forall (fun m : Msg => type_ m = MSG_PREPARE) ps) as Hps.
  { eapply Forall_impl; [apply Hv|]. naive_solver. }
  rewrite (valid_rcs_id d); [|done|done].
  pose proof Hq as (_ & Hql & Hqt).
  destruct (Z.ltb_spec (len qrc) (quorum_size (nodes d))); [lia|].
  destruct (forallb null_prepared qrc) eqn:En; [eauto|].
  rewrite (get_single_of_qrc d qrc ps rnd pr pv) by done. cbn.
  assert (qrc_scan pr pv false qrc = Some true) as ->; [|eauto].
  apply qrc_scan_spec. split; [done|]. naive_solver.
Qed.

(** ** The justification predicates on received messages *)

(** Why a PRE-PREPARE is accepted: it comes from the leader of its round and
    either needs no justification (first round, or the round after a failed
    comparison) or carries one for its value. *)
Lemma is_justified_pre_prepare_spec d inst (m : Msg) cfr :
  valid_def d -> is_justified_pre_prepare d inst m cfr = Ok true ->
  type_ m = MSG_PRE_PREPARE /\ is_leader d inst (round m) (source m) = true /\
  (round m = 1 \/ round m = cfr + 1 \/
   exists pv, just_qrc d (justification m) (round m) pv /\
     (pv = value_default \/ value m = pv)).
Proof.
  intros Hd. unfold is_justified_pre_prepare.
  destruct (type_ m =? MSG_PRE_PREPARE) eqn:Et; zbool; [|done].
  destruct (is_leader d inst (round m) (source m)) eqn:El; [|done]. cbn.
  intros (ncr & Hncr%expect_Ok & Hj)%res_bind_Ok.
  apply guard_i64_Some in Hncr as [-> _]. split_and!; [done|done|].
  destruct ((round m =? 1) || (round m =? cfr + 1)) eqn:Er.
  { apply orb_true_iff in Er as [?|?]; zbool; auto. }
  right. right. apply res_bind_Ok in Hj as ([pv|] & Hc & Hj); [|done].
  exists pv. split; [by apply contains_justified_qrc_spec|].
  case_bool_decide; [by left|]. injection Hj as Hj. zbool. by right.
Qed.

Lemma is_justified_decided_spec d (m : Msg) :
  valid_def d -> is_justified_decided d m = Ok true ->
  type_ m = MSG_DECIDED /\
  exists cs, votes MSG_COMMIT (round m) (value m) cs /\ quorum_size (nodes d) <= len cs /\
    cs ⊆ justification m.
Proof.
  intros Hd. unfold is_justified_decided.
  destruct (type_ m =? MSG_DECIDED) eqn:Et; zbool; [|done]. cbn.
  rewrite quorum_count_ok by done. cbn. intros [= Hq]. zbool. split; [done|].
  eexists. split_and!; [apply filter_msgs_votes|done|].
  intros x Hx. by apply filter_msgs_in in Hx as [? _].
Qed.

(** ** Searches over the buffered messages *)

Lemma map_values_votes ho t r v (set : gmap Z Msg) :
  (forall src m, set !! src = Some m -> source m = src /\ type_ m = t /\ round m = r /\ value m = v) ->
  votes t r v (map_values ho set).
Proof.
  intros Hall. split.
  - assert (source <$> map_values ho set = (ho_list ho set).*1) as ->.
    { unfold map_values. rewrite <-list_fmap_compose. apply list_fmap_ext.
      intros i [src m] Hi. apply list_elem_of_lookup_2 in Hi.
      rewrite ho_perm in Hi. apply elem_of_map_to_list in Hi. cbn. by apply Hall. }
    rewrite (ho_perm ho set). apply NoDup_fst_map_to_list.
  - apply Forall_forall. intros m [src Hm]%elem_of_map_values. by apply Hall in Hm as (_ & ? & ? & ?).
Qed.

Definition prepare_sets_ok (seen : list Msg) (sets : gmap (Z * Value) (gmap Z Msg)) : Prop :=
  forall r v set src m, sets !! (r, v) = Some set -> set !! src = Some m ->
    m ∈ seen /\ source m = src /\ type_ m = MSG_PREPARE /\ round m = r /\ value m = v.

Lemma prepare_sets_spec seen sets (all : list Msg) :
  prepare_sets_ok seen sets -> prepare_sets_ok (seen ++ all) (prepare_sets sets all).
Proof.
  revert seen sets. induction all as [|m all IH]; intros seen sets Hok; cbn.
  { by rewrite app_nil_r. }
  replace (seen ++ m :: all) with ((seen ++ [m]) ++ all) by by rewrite <-app_assoc.
  assert (prepare_sets_ok (seen ++ [m]) sets) as Hok'.
  { intros r v set src m' Hr Hs. destruct (Hok r v set src m' Hr Hs) as (? & ?).
    split; [|done]. apply elem_of_app. by left. }
  destruct (type_ m =? MSG_PREPARE) eqn:Et; zbool; cbn; [|by apply IH].
  apply IH. intros r v set src m'.
  destruct (decide ((round m, value m) = (r, v))) as [Heq|Hne].
  - rewrite Heq, lookup_insert_eq. intros [= <-]. injection Heq as <- <-.
    rewrite lookup_insert. case_decide as Hsrc; [intros [= <-]|].
    + split_and!; [apply elem_of_app; right; by constructor|done..].
    + destruct (sets !! (round m, value m)) as [set|] eqn:Es; cbn; [by apply Hok'|].
      by rewrite lookup_empty.
  - rewrite lookup_insert_ne by done. apply Hok'.
Qed.

Lemma get_prepare_quorums_spec ho d (all : list Msg) quorums l :
  valid_def d -> get_prepare_quorums ho d all = Ok quorums -> l ∈ quorums ->
  exists pr pv, votes MSG_PREPARE pr pv l /\ quorum_size (nodes d) <= len l /\ l ⊆ all.
Proof.
  intros Hd. unfold get_prepare_quorums. rewrite quorum_count_ok by done. cbn.
  intros [= <-] Hl. apply list_elem_of_fmap in Hl as (set & -> & Hset).
  apply list_elem_of_filter in Hset as [Hsz Hset].
  apply elem_of_map_values in Hset as [[pr pv] Hset].
  pose proof (prepare_sets_spec [] ∅ all) as Hok. cbn in Hok.
  assert (prepare_sets_ok all (prepare_sets ∅ all)) as Hps.
  { apply Hok. intros r v s src m Hs. by rewrite lookup_empty in Hs. }
  exists pr, pv. split_and!.
  - apply map_values_votes. intros src m Hm. by apply (Hps pr pv set src m) in Hm as (_ & ? & ? & ? & ?).
  - unfold len. rewrite length_map_values. lia.
  - intros m [src Hm]%elem_of_map_values. by apply (Hps pr pv set src m) in Hm as (? & _).
Qed.

Lemma qrc_collect_spec pr pv sources has (rcs qrc : list Msg) h :
  qrc_collect pr pv sources has rcs = (qrc, h) ->
  NoDup (source <$> qrc) /\
  (forall m, m ∈ qrc -> m ∈ rcs /\ prepared_round m <= pr /\ source m ∉ sources) /\
  (h = true <-> has = true \/
     Exists (fun rc => prepared_round rc = pr /\ prepared_value rc = pv) qrc).
Proof.
  revert sources has qrc h. induction rcs as [|rc rcs IH]; intros sources has qrc h; cbn.
  { intros [= <- <-]. split_and!; [constructor|by intros ? ?%elem_of_nil|].
    rewrite Exists_nil. naive_solver. }
  assert (forall sources' has' qrc' h', sources ⊆ sources' ->
    qrc_collect pr pv sources' has' rcs = (qrc', h') ->
    NoDup (source <$> qrc') /\
    (forall m, m ∈ qrc' -> m ∈ rc :: rcs /\ prepared_round m <= pr /\ source m ∉ sources) /\
    (h' = true <-> has' = true \/
       Exists (fun rc => prepared_round rc = pr /\ prepared_value rc = pv) qrc')) as Hskip.
  { intros sources' has' qrc' h' Hsub Hc. apply IH in Hc as (Hnd & Hin & Hh).
    split_and!; [done| |done]. intros m Hm. destruct (Hin m Hm) as (? & ? & Hn).
    split_and!; [by constructor|done|]. intros Hs. by apply Hn, Hsub. }
  destruct (Z.ltb_spec pr (prepared_round rc)) as [Hlt|Hge]; [by apply Hskip|].
  case_bool_decide as Hs; cbn; [|by apply Hskip; set_solver].
  set (has' := if (prepared_round rc =? pr) && _ then true else has).
  destruct (qrc_collect pr pv ({[source rc]} ∪ sources) has' rcs) as [qrc' h'] eqn:Ec.
  intros [= <- <-]. pose proof (IH _ _ _ _ Ec) as (Hnd & Hin & Hh).
  split_and!.
  - cbn. constructor; [|done]. intros (m' & Heq & Hm')%list_elem_of_fmap.
    destruct (Hin m' Hm') as (_ & _ & Hn). set_solver.
  - intros m [->|Hm]%elem_of_cons; [split_and!; [by constructor|done|done]|].
    destruct (Hin m Hm) as (? & ? & Hn). split_and!; [by constructor|done|set_solver].
  - rewrite Hh, Exists_cons. subst has'.
    destruct ((prepared_round rc =? pr) && bool_decide (prepared_value rc = pv)) eqn:E.
    + zbool. naive_solver.
    + apply andb_false_iff in E.
      assert (~ (prepared_round rc = pr /\ prepared_value rc = pv)) as Hne.
      { intros [Hp Hv]. rewrite Z.eqb_neq, bool_decide_eq_false in E. by destruct E. }
      naive_solver.
Qed.

(** What [get_justified_qrc] returns. *)
Definition qrc_result (d : QDefinition) (rnd : Z) (l : list Msg) : Prop :=
  (rc_quorum d rnd l /\ all_null l) \/
  exists qrc ps pr pv, l = qrc ++ ps /\ rc_quorum d rnd qrc /\ highest_prepared pr pv qrc /\
    votes MSG_PREPARE pr pv ps /\ quorum_size (nodes d) <= len ps.

Lemma qrc_search_spec d (all rcs : list Msg) rnd quorums l :
  (forall k, k ∈ quorums -> exists pr pv, votes MSG_PREPARE pr pv k /\
     quorum_size (nodes d) <= len k /\ k ⊆ all) ->
  rcs = valid_rcs all rnd ->
  qrc_search (quorum_size (nodes d)) rcs quorums = Ok (Some l) ->
  (exists qrc ps pr pv, l = qrc ++ ps /\ rc_quorum d rnd qrc /\ highest_prepared pr pv qrc /\
    votes MSG_PREPARE pr pv ps /\ quorum_size (nodes d) <= len ps) /\ l ⊆ all.
Proof.
  intros Hqs ->. induction quorums as [|ps quorums IH]; cbn; [done|].
  destruct (Hqs ps) as (pr & pv & Hv & Hlen & Hsub); [by constructor|].
  destruct ps as [|p0 ps]; [done|].
  pose proof (proj2 Hv) as (_ & Hr0 & Hv0)%Forall_inv. rewrite Hr0, Hv0.
  destruct (qrc_collect pr pv ∅ false (valid_rcs all rnd)) as [qrc h] eqn:Ec.
  apply qrc_collect_spec in Ec as (Hnd & Hin & Hh).
  destruct ((quorum_size (nodes d) <=? len qrc) && h) eqn:E.
  2:{ apply IH. intros k Hk. apply Hqs. by constructor. }
  zbool. intros [= <-]. subst h. split.
  - exists qrc, (p0 :: ps), pr, pv. split_and!; [done| | |done|done].
    + split_and!; [done|done|]. apply Forall_forall. intros m Hm.
      destruct (Hin m Hm) as (Hm' & _ & _). by apply valid_rcs_in in Hm' as (_ & ? & ? & ?).
    + split; [|naive_solver]. apply Forall_forall. intros m Hm. by destruct (Hin m Hm) as (_ & ? & _).
  - intros m [Hm|Hm]%elem_of_app; [|by apply Hsub].
    destruct (Hin m Hm) as (Hm' & _). by apply valid_rcs_in in Hm' as [? _].
Qed.

Lemma get_justified_qrc_spec ho d (all : list Msg) rnd l :
  valid_def d -> 0 < rnd -> get_justified_qrc ho d all rnd = Ok (Some l) ->
  qrc_result d rnd l /\ l ⊆ all.
Proof.
  intros Hd Hrnd. unfold get_justified_qrc, quorum_null_prepared.
  rewrite quorum_count_ok by done. cbn.
  destruct (Z.leb_spec (quorum_size (nodes d))
    (len (filter_msgs MSG_ROUND_CHANGE rnd None (Some 0) (Some value_default) all))) as [Hq|Hq].
  - intros [= <-].
    assert (forall m, m ∈ filter_msgs MSG_ROUND_CHANGE rnd None (Some 0) (Some value_default) all ->
      m ∈ all /\ type_ m = MSG_ROUND_CHANGE /\ round m = rnd /\
      prepared_round m = 0 /\ prepared_value m = value_default) as Hin.
    { intros m [? Hm]%filter_msgs_in. apply matches_spec in Hm as (? & ? & _ & Hv & Hp).
      split_and!; [done|done|done|by apply Hp|by apply Hv]. }
    split.
    + left. split.
      * split_and!; [apply filter_msgs_NoDup|done|]. apply Forall_forall. intros m Hm.
        destruct (Hin m Hm) as (_ & ? & ? & -> & _). split_and!; [done|done|lia|lia].
      * apply Forall_forall. intros m Hm. by destruct (Hin m Hm) as (_ & _ & _ & ? & ?).
    + intros m Hm. by destruct (Hin m Hm) as [? _].
  - intros (quorums & Hqs & Hs)%res_bind_Ok.
    fold (valid_rcs all rnd) in Hs.
    eapply qrc_search_spec in Hs as [Hs Hsub]; [| |reflexivity].
    + split; [by right|done].
    + intros k Hk. by eapply get_prepare_quorums_spec.
Qed.

(** ** Round changes of the future *)

Definition future_rcs (rnd : Z) (frc : list Msg) : Prop :=
  NoDup (source <$> frc) /\
  Forall (fun m => type_ m = MSG_ROUND_CHANGE /\ rnd < round m) frc.

Definition highest_ok (seen : list Msg) (rnd : Z) (highest : gmap Z Msg) : Prop :=
  forall src m, highest !! src = Some m ->
    m ∈ seen /\ source m = src /\ type_ m = MSG_ROUND_CHANGE /\ rnd < round m.

Lemma highest_ok_mono seen seen' rnd highest :
  seen ⊆ seen' -> highest_ok seen rnd highest -> highest_ok seen' rnd highest.
Proof.
  intros Hsub Hok src m Hm. destruct (Hok src m Hm) as [? ?]. split; [by apply Hsub|done].
Qed.

Lemma highest_by_source_ok f1 rnd seen highest (all : list Msg) :
  highest_ok seen rnd highest -> highest_ok (seen ++ all) rnd (highest_by_source f1 rnd highest all).
Proof.
  revert seen highest. induction all as [|m all IH]; intros seen highest Hok; cbn.
  { by rewrite app_nil_r. }
  replace (seen ++ m :: all) with ((seen ++ [m]) ++ all) by by rewrite <-app_assoc.
  assert (highest_ok (seen ++ [m]) rnd highest) as Hok'
    by (eapply highest_ok_mono; [|done]; set_solver).
  destruct (type_ m =? MSG_ROUND_CHANGE) eqn:Et; zbool; cbn; [|by apply IH].
  destruct (Z.leb_spec (round m) rnd) as [|Hlt]; [by apply IH|].
  destruct (match highest !! source m with Some h => round m <? round h | None => false end);
    [by apply IH|].
  assert (highest_ok (seen ++ [m]) rnd (<[source m := m]> highest)) as Hins.
  { intros src m'. rewrite lookup_insert. case_decide as Hs; [intros [= <-]|by apply Hok'].
    split_and!; [set_solver|done|done|done]. }
  destruct (Z.of_nat _ =? f1); [|by apply IH].
  eapply highest_ok_mono; [|done]. set_solver.
Qed.

Lemma get_fplus1_spec ho d (all : list Msg) rnd frc :
  valid_def d -> get_fplus1_round_changes ho d all rnd = Ok (Some frc) ->
  future_rcs rnd frc /\ max_faulty (nodes d) + 1 <= len frc /\ frc ⊆ all.
Proof.
  intros Hd. unfold get_fplus1_round_changes. rewrite faulty_plus_one_ok by done. cbn.
  set (h := highest_by_source _ _ _ _).
  assert (highest_ok all rnd h) as Hh.
  { apply (highest_by_source_ok _ rnd [] ∅ all). intros src m Hm. by rewrite lookup_empty in Hm. }
  destruct (Z.ltb_spec (Z.of_nat (size h)) (max_faulty (nodes d) + 1)) as [|Hsz]; [done|].
  intros [= <-]. split_and!.
  - split.
    + assert (source <$> map_values ho h = (ho_list ho h).*1) as ->.
      { unfold map_values. rewrite <-list_fmap_compose. apply list_fmap_ext.
        intros i [src m] Hi. apply list_elem_of_lookup_2 in Hi.
        rewrite ho_perm in Hi. apply elem_of_map_to_list in Hi. cbn. by apply Hh. }
      rewrite (ho_perm ho h). apply NoDup_fst_map_to_list.
    + apply Forall_forall. intros m [src Hm]%elem_of_map_values. by apply Hh in Hm as (_ & _ & ? & ?).
  - unfold len. by rewrite length_map_values.
  - intros m [src Hm]%elem_of_map_values. by apply Hh in Hm as [? _].
Qed.

Lemma next_min_round_loop_spec rnd rmin (frc : list Msg) :
  Forall (fun m => type_ m = MSG_ROUND_CHANGE /\ rnd < round m) frc ->
  exists r, next_min_round_loop rnd rmin frc = Ok r /\ r <= rmin /\
    Forall (fun m => r <= round m) frc /\ (r = rmin \/ r ∈ round <$> frc).
Proof.
  revert rmin. induction frc as [|m frc IH]; intros rmin; cbn.
  { intros _. exists rmin. split_and!; [done|lia|constructor|by left]. }
  intros [[Ht Hr] Hall]%Forall_cons. rewrite Ht. cbn.
  destruct (Z.leb_spec (round m) rnd); [lia|].
  destruct (IH (if round m <? rmin then round m else rmin) Hall) as (r & -> & Hle & Hmin & Hor).
  exists r. destruct (Z.ltb_spec (round m) rmin); split_and!; try done; try lia.
  - constructor; [lia|done].
  - right. destruct Hor as [->|?]; [by constructor|by constructor].
  - constructor; [lia|done].
  - destruct Hor as [->|?]; [by left|right; by constructor].
Qed.

(** [next_min_round] on what [get_fplus1_round_changes] returns: it does not
    panic and gives the smallest of the future rounds. *)
Lemma next_min_round_spec d (frc : list Msg) rnd :
  valid_def d -> max_faulty (nodes d) + 1 <= len frc -> future_rcs rnd frc ->
  Forall (fun m => round m <= I64_MAX) frc ->
  exists r, next_min_round d frc rnd = Ok r /\ rnd < r /\
    r ∈ round <$> frc /\ Forall (fun m => r <= round m) frc.
Proof.
  intros Hd Hlen [_ Hall] Hmax. unfold next_min_round. rewrite faulty_plus_one_ok by done. cbn.
  destruct (Z.ltb_spec (len frc) (max_faulty (nodes d) + 1)); [lia|].
  destruct (next_min_round_loop_spec rnd I64_MAX frc Hall) as (r & -> & _ & Hmin & Hor).
  assert (r ∈ round <$> frc) as Hin.
  { destruct Hor as [->|?]; [|done].
    destruct frc as [|m frc].
    { pose proof (max_faulty_nonneg (nodes d) (proj1 Hd)). unfold len in *. cbn in *. lia. }
    apply Forall_cons in Hmin as [Hm _]. apply Forall_cons in Hmax as [Hm' _].
    cbn. apply elem_of_cons. left. lia. }
  exists r. split_and!; [done| |done|done].
  apply list_elem_of_fmap in Hin as (m & -> & Hm). rewrite Forall_forall in Hall. by apply Hall.
Qed.

(** ** Classification *)

Section classified.
Context (d : QDefinition) (inst : Inst) (rnd process : Z) (all : list Msg) (msg : Msg).

(** What a fired rule says about the message and the messages buffered. *)
Inductive classified : Z -> option (list Msg) -> Prop :=
| cl_nothing just : classified UPON_NOTHING just
| cl_decided : type_ msg = MSG_DECIDED ->
    classified UPON_JUSTIFIED_DECIDED (Some (justification msg))
| cl_pre_prepare : type_ msg = MSG_PRE_PREPARE -> rnd <= round msg ->
    classified UPON_JUSTIFIED_PRE_PREPARE None
| cl_prepares ps : type_ msg = MSG_PREPARE -> round msg = rnd ->
    votes MSG_PREPARE rnd (value msg) ps -> quorum_size (nodes d) <= len ps -> ps ⊆ all ->
    classified UPON_QUORUM_PREPARES (Some ps)
| cl_commits cs : type_ msg = MSG_COMMIT -> round msg = rnd ->
    votes MSG_COMMIT rnd (value msg) cs -> quorum_size (nodes d) <= len cs -> cs ⊆ all ->
    classified UPON_QUORUM_COMMITS (Some cs)
| cl_fplus1 frc : type_ msg = MSG_ROUND_CHANGE -> rnd < round msg ->
    future_rcs rnd frc -> max_faulty (nodes d) + 1 <= len frc -> frc ⊆ all ->
    classified UPON_F_PLUS1_ROUND_CHANGES (Some frc)
| cl_quorum_rcs qrc : type_ msg = MSG_ROUND_CHANGE -> round msg = rnd ->
    is_leader d inst rnd process = true -> qrc_result d rnd qrc -> qrc ⊆ all ->
    classified UPON_QUORUM_ROUND_CHANGES (Some qrc)
| cl_unjust : type_ msg = MSG_ROUND_CHANGE -> round msg = rnd ->
    classified UPON_UNJUST_QUORUM_ROUND_CHANGES None.
End classified.

Lemma classify_spec ho d inst rnd process buffer (msg : Msg) rule just :
  valid_def d -> 0 < rnd ->
  classify ho d inst rnd process buffer msg = Ok (rule, just) ->
  exists all, (forall x, x ∈ all -> flatten ho buffer = Ok all) /\
    classified d inst rnd process all msg rule just.
Proof.
  intros Hd Hrnd. unfold classify.
  destruct (type_ msg =? MSG_DECIDED) eqn:E1; zbool.
  { intros [= <- <-]. exists []. split; [set_solver|by constructor]. }
  destruct (type_ msg =? MSG_PRE_PREPARE) eqn:E2; zbool.
  { exists []. split; [set_solver|].
    destruct (Z.ltb_spec (round msg) rnd); simplify_eq; by constructor. }
  destruct (type_ msg =? MSG_PREPARE) eqn:E3; zbool.
  { destruct (round msg =? rnd) eqn:Er; zbool; cbn.
    2:{ intros [= <- <-]. exists []. split; [set_solver|constructor]. }
    intros (all & Hf & Hc)%res_bind_Ok. exists all. split; [done|].
    rewrite quorum_count_ok in Hc by done. cbn in Hc.
    destruct (Z.leb_spec (quorum_size (nodes d))
      (len (filter_by_round_and_value all MSG_PREPARE (round msg) (value msg))));
      simplify_eq; [|constructor].
    constructor; [done|done|apply filter_msgs_votes|done|].
    intros x [? _]%filter_msgs_in. done. }
  destruct (type_ msg =? MSG_COMMIT) eqn:E4; zbool.
  { destruct (round msg =? rnd) eqn:Er; zbool; cbn.
    2:{ intros [= <- <-]. exists []. split; [set_solver|constructor]. }
    intros (all & Hf & Hc)%res_bind_Ok. exists all. split; [done|].
    rewrite quorum_count_ok in Hc by done. cbn in Hc.
    destruct (Z.leb_spec (quorum_size (nodes d))
      (len (filter_by_round_and_value all MSG_COMMIT (round msg) (value msg))));
      simplify_eq; [|constructor].
    constructor; [done|done|apply filter_msgs_votes|done|].
    intros x [? _]%filter_msgs_in. done. }
  destruct (type_ msg =? MSG_ROUND_CHANGE) eqn:E5; zbool; [|done].
  destruct (Z.ltb_spec (round msg) rnd).
  { intros [= <- <-]. exists []. split; [set_solver|constructor]. }
  intros (all & Hf & Hc)%res_bind_Ok. exists all. split; [done|].
  destruct (Z.ltb_spec rnd (round msg)).
  { apply res_bind_Ok in Hc as ([frc|] & Hfrc & Hc); simplify_eq; [|constructor].
    apply get_fplus1_spec in Hfrc as (? & ? & ?); [|done]. by constructor. }
  assert (round msg = rnd) as Hr by lia. rewrite Hr in Hc.
  rewrite quorum_count_ok in Hc by done. cbn in Hc.
  destruct (Z.ltb_spec (len (filter_round_change all rnd)) (quorum_size (nodes d)));
    simplify_eq; [constructor|].
  apply res_bind_Ok in Hc as ([qrc|] & Hq & Hc); [|simplify_eq; by constructor].
  destruct (is_leader d inst (round msg) process) eqn:El; simplify_eq/=; [|constructor].
  apply get_justified_qrc_spec in Hq as [? ?]; [|done|done]. by constructor.
Qed.
End facts.
