(* ===== verification/QbftSpec.v ===== *)
(** * The QBFT protocol, abstractly

    The algorithm of the IBFT paper as a transition system over votes, without
    buffers, timers or message lists: what a process may do given the votes
    that exist, and why two processes never decide differently.  [QbftNet]
    proves that the event loop of [Qbft] only makes these steps. *)

From S2P Require Import Prelude.
From stdpp Require Import functions.

Open Scope Z_scope.

Section spec.
Context {Value : Type} (null : Value).

(** Participants, the faulty ones among them, and the quorum size. *)
Context (P B : gset Z) (q : nat).

(** The messages that count as votes. *)
Inductive Vote :=
| VPrepare (r : Z) (v : Value)
| VCommit (r : Z) (v : Value)
| VRoundChange (r pr : Z) (pv : Value).

(** A process: its round, the highest round it prepared and that value, the
    last round whose proposal failed the comparison (0: none), whether it sent
    its COMMIT in this round, and whether it decided. *)
Record AState := {
  a_round : Z;
  a_pr : Z;
  a_pv : Value;
  a_cfr : Z;
  a_committed : bool;
  a_done : bool;
}.

(** The system: its processes, the votes cast by correct processes, the
    proposals they accepted with the outcome of the comparison, and their
    decisions. *)
Record ASys := {
  w_nodes : Z -> AState;
  w_votes : list (Z * Vote);
  w_accepted : list (Z * Z * Value * bool);
  w_decided : list (Z * Z * Value);
}.

Definition a_initial : AState :=
  {| a_round := 1; a_pr := 0; a_pv := null; a_cfr := 0; a_committed := false; a_done := false |}.

Definition w_initial : ASys :=
  {| w_nodes := fun _ => a_initial; w_votes := []; w_accepted := []; w_decided := [] |}.

(** A faulty participant may have cast any vote. *)
Definition cast (w : ASys) (p : Z) (x : Vote) : Prop :=
  p ∈ P /\ (p ∈ B \/ (p, x) ∈ w_votes w).

Definition vote_quorum (w : ASys) (x : Vote) : Prop :=
  exists Q : gset Z, (q <= size Q)%nat /\ forall p, p ∈ Q -> cast w p x.

(** A quorum of round changes for [r] together with the value it forces:
    [null] when none of them prepared anything (J1), otherwise the value of
    the highest prepared round, which a quorum prepared (J2). *)
Definition justified (w : ASys) (r : Z) (pv : Value) : Prop :=
  exists qrc : gmap Z (Z * Value), (q <= size qrc)%nat /\
    (forall p pr v, qrc !! p = Some (pr, v) -> cast w p (VRoundChange r pr v) /\ 0 <= pr < r) /\
    ((pv = null /\ forall p pr v, qrc !! p = Some (pr, v) -> pr = 0) \/
     exists pr, vote_quorum w (VPrepare pr pv) /\
       (forall p pr' v, qrc !! p = Some (pr', v) -> pr' <= pr) /\
       exists p, qrc !! p = Some (pr, pv)).

(** When a proposal of [v] for round [r] is accepted. *)
Definition acceptable (w : ASys) (cfr r : Z) (v : Value) : Prop :=
  r = 1 \/ r = cfr + 1 \/ exists pv, justified w r pv /\ (pv = null \/ v = pv).

Definition enter (r : Z) (a : AState) : AState :=
  if a_round a =? r then a
  else a <| a_round := r |> <| a_committed := false |>.

(** One step of a correct process that has not decided: the new state, the
    votes cast, the proposal accepted and the decision made. *)
Inductive node_step (w : ASys) (a : AState)
  : AState -> list Vote -> list (Z * Value * bool) -> list (Z * Value) -> Prop :=
| ns_idle : node_step w a a [] [] []
| ns_prepare r v :
    a_round a <= r -> acceptable w (a_cfr a) r v ->
    node_step w a (enter r a) [VPrepare r v] [(r, v, true)] []
| ns_compare_failed r v :
    a_round a <= r -> acceptable w (a_cfr a) r v ->
    node_step w a ((enter r a) <| a_cfr := r |>) [] [(r, v, false)] []
| ns_commit v :
    a_committed a = false -> vote_quorum w (VPrepare (a_round a) v) ->
    node_step w a (a <| a_pr := a_round a |> <| a_pv := v |> <| a_committed := true |>)
      [VCommit (a_round a) v] [] []
| ns_round_change r :
    a_round a < r ->
    node_step w a (enter r a) [VRoundChange r (a_pr a) (a_pv a)] [] []
| ns_decide r v :
    vote_quorum w (VCommit r v) ->
    node_step w a (a <| a_round := r |> <| a_done := true |>) [] [] [(r, v)].

(** A step of the system. *)
Inductive sys_step (w : ASys) : ASys -> Prop :=
| ws_node p a' votes acc dec :
    p ∈ P -> p ∉ B -> a_done (w_nodes w p) = false ->
    node_step w (w_nodes w p) a' votes acc dec ->
    sys_step w {|
      w_nodes := <[p := a']> (w_nodes w);
      w_votes := ((fun x => (p, x)) <$> votes) ++ w_votes w;
      w_accepted := ((fun '(r, v, ok) => (p, r, v, ok)) <$> acc) ++ w_accepted w;
      w_decided := ((fun '(r, v) => (p, r, v)) <$> dec) ++ w_decided w |}.

Definition sys_reachable : ASys -> Prop := rtc sys_step w_initial.

(** No process accepted two different proposals in one round. *)
Definition single_proposals (w : ASys) : Prop :=
  forall p r v v' ok ok', (p, r, v, ok) ∈ w_accepted w -> (p, r, v', ok') ∈ w_accepted w -> v = v'.

(** A process's comparison never rejects a value it passed. *)
Definition stable_comparisons (w : ASys) : Prop :=
  forall p r r' v, (p, r, v, true) ∈ w_accepted w -> (p, r', v, false) ∉ w_accepted w.

(** ** Monotonicity *)

Definition extends (w w' : ASys) : Prop :=
  w_votes w ⊆ w_votes w' /\ w_accepted w ⊆ w_accepted w' /\ w_decided w ⊆ w_decided w'.

Lemma cast_mono w w' p x : w_votes w ⊆ w_votes w' -> cast w p x -> cast w' p x.
Proof. intros Hsub [? [?|?]]; split; auto. Qed.

Lemma vote_quorum_mono w w' x : w_votes w ⊆ w_votes w' -> vote_quorum w x -> vote_quorum w' x.
Proof. intros Hsub (Q & ? & HQ). exists Q. eauto using cast_mono. Qed.

Lemma justified_mono w w' r pv : w_votes w ⊆ w_votes w' -> justified w r pv -> justified w' r pv.
Proof.
  intros Hsub (qrc & Hsz & Hall & Hj). exists qrc. split; [done|]. split.
  - intros p pr v Hp. destruct (Hall p pr v Hp). eauto using cast_mono.
  - destruct Hj as [?|(pr & Hq & ? & ?)]; [by left|right]. exists pr. eauto using vote_quorum_mono.
Qed.

Lemma acceptable_mono w w' cfr r v :
  w_votes w ⊆ w_votes w' -> acceptable w cfr r v -> acceptable w' cfr r v.
Proof. intros Hsub [?|[?|(pv & ? & ?)]]; unfold acceptable; eauto 10 using justified_mono. Qed.

Lemma sys_step_extends w w' : sys_step w w' -> extends w w'.
Proof. intros []; split_and!; cbn; set_solver. Qed.

(** ** Invariant *)

Definition vote_round (x : Vote) : Z :=
  match x with VPrepare r _ | VCommit r _ | VRoundChange r _ _ => r end.

(** What holds of a correct process [p] in every reachable system. *)
Record node_inv (w : ASys) (p : Z) : Prop := {
  ni_round : 1 <= a_round (w_nodes w p) \/ a_done (w_nodes w p) = true;
  ni_pr : a_done (w_nodes w p) = false -> a_pr (w_nodes w p) <= a_round (w_nodes w p);
  ni_past : forall x, a_done (w_nodes w p) = false -> (p, x) ∈ w_votes w ->
    vote_round x <= a_round (w_nodes w p);
  ni_positive : forall x, (p, x) ∈ w_votes w -> 1 <= vote_round x;
  ni_commit_pr : forall r v, a_done (w_nodes w p) = false -> (p, VCommit r v) ∈ w_votes w ->
    r <= a_pr (w_nodes w p);
  ni_committed : forall v, a_done (w_nodes w p) = false ->
    (p, VCommit (a_round (w_nodes w p)) v) ∈ w_votes w -> a_committed (w_nodes w p) = true;
  ni_commit_unique : forall r v v', (p, VCommit r v) ∈ w_votes w ->
    (p, VCommit r v') ∈ w_votes w -> v = v';
  ni_rc : forall r pr pv r' v, (p, VRoundChange r pr pv) ∈ w_votes w ->
    (p, VCommit r' v) ∈ w_votes w -> r' < r -> r' <= pr;
  ni_commit_quorum : forall r v, (p, VCommit r v) ∈ w_votes w -> vote_quorum w (VPrepare r v);
  ni_prepare_accepted : forall r v, (p, VPrepare r v) ∈ w_votes w -> (p, r, v, true) ∈ w_accepted w;
  ni_accepted : forall r v ok, (p, r, v, ok) ∈ w_accepted w ->
    exists cfr, acceptable w cfr r v /\
      (cfr = 0 \/ exists v', (p, cfr, v', false) ∈ w_accepted w);
  ni_cfr : a_cfr (w_nodes w p) = 0 \/
    exists v', (p, a_cfr (w_nodes w p), v', false) ∈ w_accepted w;
  ni_decided : forall r v, (p, r, v) ∈ w_decided w -> vote_quorum w (VCommit r v);
}.

Lemma node_inv_initial p : node_inv w_initial p.
Proof. constructor; cbn; intros; try lia; try (by left); set_solver. Qed.

(** A step of another process leaves the invariant of [p] alone. *)
Lemma node_inv_frame w w' p :
  w_nodes w' p = w_nodes w p ->
  (forall x, (p, x) ∈ w_votes w' -> (p, x) ∈ w_votes w) ->
  (forall r v ok, (p, r, v, ok) ∈ w_accepted w' <-> (p, r, v, ok) ∈ w_accepted w) ->
  (forall r v, (p, r, v) ∈ w_decided w' -> (p, r, v) ∈ w_decided w) ->
  w_votes w ⊆ w_votes w' -> node_inv w p -> node_inv w' p.
Proof.
  intros Hn Hv Ha Hd Hsub [I1 I2 I3 I4 I5 I6 I7 I8 I9 I10 I11 I12 I13].
  constructor; rewrite ?Hn; eauto using vote_quorum_mono.
  - intros r v Hr. apply Ha. eauto.
  - intros r v ok Hr%Ha. destruct (I11 r v ok Hr) as (cfr & Hacc & Hc).
    exists cfr. split; [eauto using acceptable_mono|].
    destruct Hc as [?|[v' ?]]; [by left|right]. exists v'. by apply Ha.
  - destruct I12 as [?|[v' ?]]; [by left|right]. exists v'. by apply Ha.
Qed.

Lemma a_round_enter r a : a_round (enter r a) = r.
Proof. unfold enter. destruct (Z.eqb_spec (a_round a) r); by subst. Qed.
Lemma a_pr_enter r a : a_pr (enter r a) = a_pr a.
Proof. unfold enter. by destruct (a_round a =? r). Qed.
Lemma a_cfr_enter r a : a_cfr (enter r a) = a_cfr a.
Proof. unfold enter. by destruct (a_round a =? r). Qed.
Lemma a_done_enter r a : a_done (enter r a) = a_done a.
Proof. unfold enter. by destruct (a_round a =? r). Qed.
Lemma enter_same a : enter (a_round a) a = a.
Proof. unfold enter. by rewrite Z.eqb_refl. Qed.

(** The state of [p] after a step, in terms of the state before. *)
Definition after (w : ASys) (p : Z) (a' : AState) (votes : list Vote)
    (acc : list (Z * Value * bool)) (dec : list (Z * Value)) : ASys := {|
  w_nodes := <[p := a']> (w_nodes w);
  w_votes := ((fun x => (p, x)) <$> votes) ++ w_votes w;
  w_accepted := ((fun '(r, v, ok) => (p, r, v, ok)) <$> acc) ++ w_accepted w;
  w_decided := ((fun '(r, v) => (p, r, v)) <$> dec) ++ w_decided w |}.

Lemma after_nodes w p a' vs acc dec : w_nodes (after w p a' vs acc dec) p = a'.
Proof. cbn. apply fn_lookup_insert. Qed.
Lemma after_votes w p p' a' vs acc dec x :
  (p', x) ∈ w_votes (after w p a' vs acc dec) <-> (p' = p /\ x ∈ vs) \/ (p', x) ∈ w_votes w.
Proof. cbn. rewrite elem_of_app, list_elem_of_fmap. naive_solver. Qed.
Lemma after_accepted w p p' a' vs acc dec r v ok :
  (p', r, v, ok) ∈ w_accepted (after w p a' vs acc dec) <->
  (p' = p /\ (r, v, ok) ∈ acc) \/ (p', r, v, ok) ∈ w_accepted w.
Proof.
  cbn. rewrite elem_of_app, list_elem_of_fmap. split.
  - intros [([[??]?] & ? & ?)|?]; naive_solver.
  - intros [[-> ?]|?]; [left|by right]. by exists (r, v, ok).
Qed.
Lemma after_decided w p p' a' vs acc dec r v :
  (p', r, v) ∈ w_decided (after w p a' vs acc dec) <->
  (p' = p /\ (r, v) ∈ dec) \/ (p', r, v) ∈ w_decided w.
Proof.
  cbn. rewrite elem_of_app, list_elem_of_fmap. split.
  - intros [([??] & ? & ?)|?]; naive_solver.
  - intros [[-> ?]|?]; [left|by right]. by exists (r, v).
Qed.
Lemma after_votes_mono w p a' vs acc dec : w_votes w ⊆ w_votes (after w p a' vs acc dec).
Proof. cbn. set_solver. Qed.

#[local] Arguments after : simpl never.

(** The steps of the other processes. *)
Lemma node_inv_other w p p' a' vs acc dec :
  p' <> p -> node_inv w p' -> node_inv (after w p a' vs acc dec) p'.
Proof.
  intros Hne. apply node_inv_frame.
  - unfold after; cbn. by rewrite fn_lookup_insert_ne.
  - intros x. rewrite after_votes. naive_solver.
  - intros r v ok. rewrite after_accepted. naive_solver.
  - intros r v. rewrite after_decided. naive_solver.
  - apply after_votes_mono.
Qed.

(** The fields of the invariant that only grow with the system. *)
Lemma accepted_after w p a' vs acc dec r v ok :
  node_inv w p ->
  Forall (fun '(r, v, _) => acceptable w (a_cfr (w_nodes w p)) r v) acc ->
  (p, r, v, ok) ∈ w_accepted (after w p a' vs acc dec) ->
  exists cfr, acceptable (after w p a' vs acc dec) cfr r v /\
    (cfr = 0 \/ exists v', (p, cfr, v', false) ∈ w_accepted (after w p a' vs acc dec)).
Proof.
  intros I Hacc. rewrite after_accepted. intros [[_ Hin]|Hin].
  - pose proof (proj1 (list.Forall_forall _ _) Hacc _ Hin) as Hacc'. cbn in Hacc'.
    exists (a_cfr (w_nodes w p)). split; [eauto using acceptable_mono, after_votes_mono|].
    destruct (ni_cfr _ _ I) as [?|[v' ?]]; [by left|right].
    exists v'. rewrite after_accepted. by right.
  - destruct (ni_accepted _ _ I _ _ _ Hin) as (cfr & ? & Hc).
    exists cfr. split; [eauto using acceptable_mono, after_votes_mono|].
    destruct Hc as [?|[v' ?]]; [by left|right]. exists v'. rewrite after_accepted. by right.
Qed.

Lemma quorum_after w p a' vs acc dec x :
  vote_quorum w x -> vote_quorum (after w p a' vs acc dec) x.
Proof. apply vote_quorum_mono, after_votes_mono. Qed.

(** Uses of the invariant on the votes and proposals of [p] before the step. *)
Ltac old_facts :=
  repeat match goal with
  | Hi : (_, _) ∈ w_votes (after _ _ _ _ _ _) |- _ => apply after_votes in Hi
  | Hi : (_, _) ∈ w_decided (after _ _ _ _ _ _) |- _ => apply after_decided in Hi
  | Hi : (_ = _ /\ _) \/ _ |- _ => destruct Hi as [[??]|?]
  | Hi : _ ∈ [] |- _ => by apply elem_of_nil in Hi
  | Hi : _ ∈ [_] |- _ => apply list_elem_of_singleton in Hi
  end; simplify_eq.

Ltac step_case :=
  constructor; rewrite ?after_nodes; cbn;
  rewrite ?a_round_enter, ?a_pr_enter, ?a_cfr_enter, ?a_done_enter;
  lazymatch goal with
  | |- forall r v ok, _ ∈ w_accepted _ -> _ => intros; eapply accepted_after; eauto
  | |- _ \/ exists v, _ ∈ w_accepted _ => 
      first [right; eexists; rewrite after_accepted; left; split; [done|by constructor]
            |match goal with Hc : a_cfr _ = 0 \/ _ |- _ => destruct Hc as [?|[??]] end;
             [by left|right; eexists; rewrite after_accepted; by right]]
  | |- forall r v, _ -> _ ∈ w_accepted _ =>
      intros; rewrite after_accepted; old_facts; solve [left; split; [done|by constructor]|eauto]
  | |- _ => intros; old_facts; eauto 4 using quorum_after;
      try match goal with
      | Hp : forall x, (_, x) ∈ w_votes _ -> vote_round x <= _, Hx : (_, _) ∈ w_votes _ |- _ =>
          specialize (Hp _ Hx); cbn in *; lia
      end; cbn; try lia
  end.

Lemma node_inv_own w p a' vs acc dec :
  node_inv w p -> a_done (w_nodes w p) = false ->
  node_step w (w_nodes w p) a' vs acc dec -> node_inv (after w p a' vs acc dec) p.
Proof.
  intros I Hdone Hstep. pose proof I as [I1 I2 I3 I4 I5 I6 I7 I8 I9 I10 I11 I12 I13].
  assert (forall x, (p, x) ∈ w_votes w -> vote_round x <= a_round (w_nodes w p)) as I3' by auto.
  specialize (I2 Hdone). assert (1 <= a_round (w_nodes w p)) as I1' by (destruct I1; congruence).
  inversion Hstep as [|r v Hr Hacc|r v Hr Hacc|v Hcom Hq|r Hr|r v Hq]; subst; clear Hstep.
  - step_case.
  - step_case.
    + assert (a_round (w_nodes w p) = r) as <-; [|rewrite enter_same; eauto].
      match goal with Hx : (p, ?x) ∈ w_votes w |- _ => specialize (I3' x Hx) end. cbn in *. lia.
  - step_case.
    + assert (a_round (w_nodes w p) = r) as <-; [|rewrite enter_same; eauto].
      match goal with Hx : (p, ?x) ∈ w_votes w |- _ => specialize (I3' x Hx) end. cbn in *. lia.
  - step_case; exfalso; rewrite (I6 _ Hdone) in Hcom by eassumption; done.
  - step_case.
  - step_case.
Qed.

Lemma reachable_inv w : sys_reachable w -> forall p, node_inv w p.
Proof.
  unfold sys_reachable. intros Hr.
  apply (rtc_ind_r (R := sys_step) (fun w => forall p, node_inv w p) w_initial); [| |done].
  - intros p. apply node_inv_initial.
  - intros w1 w2 _ Hstep IH p. destruct Hstep as [p' a' vs acc dec HP HB Hd Hn].
    change (node_inv (after w1 p' a' vs acc dec) p).
    destruct (decide (p = p')) as [->|?]; [by apply node_inv_own|by apply node_inv_other].
Qed.

(** ** Quorums *)

(** Any two quorums share a correct process. *)
Hypothesis quorums_intersect : (size P + size B < 2 * q)%nat.

Lemma cast_correct w p x : cast w p x -> p ∉ B -> (p, x) ∈ w_votes w.
Proof. intros [_ [?|?]]; done. Qed.

Lemma sets_meet (X Y : gset Z) :
  X ⊆ P -> Y ⊆ P -> (q <= size X)%nat -> (q <= size Y)%nat ->
  exists p, p ∈ X /\ p ∈ Y /\ p ∉ B.
Proof.
  intros HX HY ??. destruct (quorum_intersection P B X Y) as (p & ?); [done..|lia|].
  exists p. naive_solver.
Qed.

(** Two votes with a quorum each were both cast by some correct process. *)
Lemma vote_quorums_meet w x y :
  vote_quorum w x -> vote_quorum w y ->
  exists p, (p ∉ B) /\ ((p, x) ∈ w_votes w) /\ (p, y) ∈ w_votes w.
Proof.
  intros (X & HX & Hx) (Y & HY & Hy).
  destruct (sets_meet X Y) as (p & Hp & Hp' & HB); auto.
  - intros p Hp. apply (Hx p Hp).
  - intros p Hp. apply (Hy p Hp).
  - exists p. split_and!; auto using cast_correct.
Qed.

(** A quorum vote and a justification share a correct process. *)
Lemma vote_justification_meet w x (qrc : gmap Z (Z * Value)) r :
  vote_quorum w x -> (q <= size qrc)%nat ->
  (forall p pr v, qrc !! p = Some (pr, v) -> cast w p (VRoundChange r pr v) /\ 0 <= pr < r) ->
  exists p pr v, (p ∉ B) /\ ((p, x) ∈ w_votes w) /\ qrc !! p = Some (pr, v) /\
    (p, VRoundChange r pr v) ∈ w_votes w.
Proof.
  intros (X & HX & Hx) Hsz Hall.
  destruct (sets_meet X (dom qrc)) as (p & Hp & Hp' & HB); auto.
  - intros p Hp. apply (Hx p Hp).
  - intros p [[pr v] Hp]%elem_of_dom. apply (Hall p pr v Hp).
  - by rewrite size_dom.
  - apply elem_of_dom in Hp' as [[pr v] Hq]. exists p, pr, v.
    split_and!; auto using cast_correct. apply cast_correct; [|done]. eapply Hall; eauto.
Qed.

(** ** Agreement *)

Section agreement.
Context (w : ASys) (Hw : sys_reachable w).

Lemma commit_quorum_prepares r v :
  vote_quorum w (VCommit r v) -> vote_quorum w (VPrepare r v) /\ 1 <= r.
Proof.
  intros Hq. destruct (vote_quorums_meet w _ _ Hq Hq) as (p & HB & Hp & _).
  pose proof (reachable_inv w Hw p) as I. split; [by eapply ni_commit_quorum|].
  by apply (ni_positive _ _ I _ Hp).
Qed.

(** Within a round there is one committed value, whatever proposals exist. *)
Lemma same_round_agreement p p' r v v' :
  (p, r, v) ∈ w_decided w -> (p', r, v') ∈ w_decided w -> v = v'.
Proof.
  intros Hd%(ni_decided _ _ (reachable_inv w Hw p)) Hd'%(ni_decided _ _ (reachable_inv w Hw p')).
  destruct (vote_quorums_meet w _ _ Hd Hd') as (k & _ & Hk & Hk').
  by eapply (ni_commit_unique _ _ (reachable_inv w Hw k)).
Qed.

Hypothesis Hsingle : single_proposals w.
Hypothesis Hstable : stable_comparisons w.

(** A committed value is locked: a correct process that prepared it accepts no
    other value in a later round. *)
Lemma committed_value_locked r v r' p v' ok :
  vote_quorum w (VCommit r v) -> v <> null -> r < r' ->
  (p, r, v, true) ∈ w_accepted w -> (p, r', v', ok) ∈ w_accepted w -> v' = v.
Proof.
  intros Hq Hnull. destruct (commit_quorum_prepares r v Hq) as [Hprep Hpos].
  revert p v' ok. induction (Z.lt_wf r r') as [r' _ IH]. intros p v' ok Hlt Hp Hp'.
  destruct (ni_accepted _ _ (reachable_inv w Hw p) _ _ _ Hp') as (cfr & [?|[->|Hj]] & Hc); [lia| |].
  - destruct Hc as [->|(v'' & Hf)]; [lia|].
    destruct (decide (cfr = r)) as [->|Hne].
    + rewrite (Hsingle _ _ _ _ _ _ Hf Hp) in Hf. by destruct (Hstable _ _ _ _ Hp Hf).
    + rewrite (IH cfr ltac:(lia) p v'' false ltac:(lia) Hp Hf) in Hf. by destruct (Hstable _ _ _ _ Hp Hf).
  - destruct Hj as (pv & (qrc & Hsz & Hall & Hjust) & Hv).
    destruct (vote_justification_meet w _ qrc r' Hq Hsz Hall) as (j & pr & x & _ & Hj & Hjq & Hjr).
    pose proof (ni_rc _ _ (reachable_inv w Hw j) _ _ _ _ _ Hjr Hj Hlt) as Hpr.
    destruct Hjust as [[_ H0]|(pr' & Hprep' & Hmax & k0 & Hk0)].
    { apply H0 in Hjq. lia. }
    pose proof (Hmax _ _ _ Hjq). destruct (Hall _ _ _ Hk0) as [_ Hb].
    destruct (vote_quorums_meet w _ _ Hprep Hprep') as (k & _ & Hk & Hk').
    apply (ni_prepare_accepted _ _ (reachable_inv w Hw k)) in Hk, Hk'.
    assert (pv = v) as ->; [|by destruct Hv].
    destruct (decide (pr' = r)) as [->|Hne]; [by eapply Hsingle|].
    eapply (IH pr'); [lia..|done|done].
Qed.

Lemma later_decision_agrees p p' r r' v v' :
  (p, r, v) ∈ w_decided w -> (p', r', v') ∈ w_decided w -> v <> null -> r < r' -> v' = v.
Proof.
  intros Hd%(ni_decided _ _ (reachable_inv w Hw p)) Hd'%(ni_decided _ _ (reachable_inv w Hw p')) Hn Hlt.
  destruct (commit_quorum_prepares _ _ Hd) as [Hq _].
  destruct (commit_quorum_prepares _ _ Hd') as [Hq' _].
  destruct (vote_quorums_meet w _ _ Hq Hq') as (k & _ & Hk & Hk').
  apply (ni_prepare_accepted _ _ (reachable_inv w Hw k)) in Hk, Hk'.
  by eapply committed_value_locked.
Qed.

Lemma spec_agreement p p' r r' v v' :
  (p, r, v) ∈ w_decided w -> (p', r', v') ∈ w_decided w -> v <> null -> v' <> null -> v = v'.
Proof.
  intros Hd Hd' Hv Hv'. destruct (Ztrichotomy r r') as [Hlt|[->|Hlt]].
  - symmetry. by eapply later_decision_agrees.
  - by eapply same_round_agreement.
  - eapply later_decision_agrees; eauto. lia.
Qed.
End agreement.
End spec.
