(* ===== verification/QbftNet.v ===== *)
(** * A network of QBFT processes

    Processes that run [Qbft.start] and [Qbft.on_event] over a network with
    faulty participants, and the proof that each iteration of the event loop is
    a sequence of steps of [QbftSpec].  [QbftCluster] draws the conclusions. *)

From S2P Require Import Prelude Qbft QbftFacts QbftSpec.
From stdpp Require Import functions.

Open Scope Z_scope.

(** ** Equations of the loop monad *)

Section monad.
Context {Inst Value Compare : Type}.
Context `{Countable Value}.
Context {Dflt : @QbftDefaults Value Compare}.
Abbreviation RunState := (@RunState Inst Value Compare).
Abbreviation BroadcastRequest := (@BroadcastRequest Inst Value Compare).
Abbreviation Action := (@Action Inst Value Compare).
Abbreviation Env := (@Env Inst Value Compare).

Definition prepend (acts : list Action) {A} (out : RunState * list Action * res QbftError A)
    : RunState * list Action * res QbftError A :=
  let '(s, acts', r) := out in (s, acts ++ acts', r).

Definition sent_res (env : Env) (b : BroadcastRequest) : res QbftError unit :=
  match e_broadcast env b with None => Ok tt | Some e => Err e end.

Abbreviation Run := (@Run Inst Value Compare).

Lemma prepend_nil {A} (out : RunState * list Action * res QbftError A) : prepend [] out = out.
Proof. by destruct out as [[??]?]. Qed.

Lemma bind_get {A} (f : RunState -> Run A) s : (get ≫= f) s = f s s.
Proof. unfold mbind, run_bind. cbn. by destruct (f s s) as [[??]?]. Qed.

Lemma bind_modify {A} g (f : unit -> Run A) s : (modify g ≫= f) s = f tt (g s).
Proof. unfold mbind, run_bind. cbn. by destruct (f tt (g s)) as [[??]?]. Qed.

Lemma bind_emit {A} a (f : unit -> Run A) s : (emit a ≫= f) s = prepend [a] (f tt s).
Proof. done. Qed.

Lemma bind_lift {A B} (r : res QbftError A) (f : A -> Run B) s :
  (lift r ≫= f) s =
  match r with Ok x => f x s | Err e => (s, [], Err e) | Panic => (s, [], Panic) end.
Proof. unfold mbind, run_bind, lift. destruct r; [|done|done]. by destruct (f a s) as [[??]?]. Qed.

Lemma bind_mret {A B} (x : A) (f : A -> Run B) s : ((mret x : Run A) ≫= f) s = f x s.
Proof. apply (bind_lift (Ok x)). Qed.

Lemma run_bind_assoc {A B C} (m : Run A) (f : A -> Run B) (g : B -> Run C) s :
  ((m ≫= f) ≫= g) s = (m ≫= (fun x => f x ≫= g)) s.
Proof.
  unfold mbind, run_bind. destruct (m s) as [[s1 a1] [x|e|]]; try done.
  destruct (f x s1) as [[s2 a2] [y|e|]]; try done.
  destruct (g y s2) as [[s3 a3] r]. by rewrite app_assoc.
Qed.

Lemma broadcast_eq env b (s : RunState) :
  broadcast env b s = (s, [ABroadcast b], sent_res env b).
Proof. unfold broadcast, sent_res. by destruct (e_broadcast env b). Qed.

Lemma bind_broadcast {A} env b (f : unit -> Run A) s :
  (broadcast env b ≫= f) s =
  prepend [ABroadcast b] (match sent_res env b with
                          | Ok u => f u s | Err e => (s, [], Err e) | Panic => (s, [], Panic) end).
Proof. unfold mbind, run_bind. rewrite broadcast_eq. by destruct (sent_res env b). Qed.
End monad.

Ltac run_simp :=
  repeat (first [rewrite run_bind_assoc | rewrite bind_modify | rewrite bind_get
                | rewrite bind_emit | rewrite bind_mret | rewrite bind_lift | rewrite bind_broadcast]; cbv beta).

(** ** The network *)

Section net.
Context {Inst Value Compare : Type}.
Context `{Countable Value}.
Context {Dflt : @QbftDefaults Value Compare}.
Abbreviation Msg := (@Msg Inst Value Compare).
Abbreviation QDefinition := (@QDefinition Inst).
Abbreviation RunState := (@RunState Inst Value Compare).
Abbreviation BroadcastRequest := (@BroadcastRequest Inst Value Compare).
Abbreviation Action := (@Action Inst Value Compare).
Abbreviation Event := (@Event Inst Value Compare).
Abbreviation Env := (@Env Inst Value Compare).
Abbreviation Run := (@Run Inst Value Compare).
Abbreviation Outcome := (RunState * list Action * res QbftError unit)%type.

(** The consensus instance: its definition, the participants and the faulty
    ones among them. *)
Context (d : QDefinition) (inst : Inst) (P Byz : gset Z).

(** A participant before [run] is called, inside its loop, and after it
    returned. *)
Inductive Status :=
| Idle
| Running (s : RunState)
| Stopped (s : RunState) (r : res QbftError unit).

(** What the correct participants sent, received (with the course of the
    comparison a proposal led to) and decided (with the round). *)
Record Net := {
  n_status : Z -> Status;
  n_sent : list BroadcastRequest;
  n_received : list (Z * Msg * @CmpTrace Compare);
  n_decided : list (Z * Z * Value);
}.

Definition net_initial : Net :=
  {| n_status := fun _ => Idle; n_sent := []; n_received := []; n_decided := [] |}.

(** The signed part of a message: everything but its justification. *)
Definition same_body (b : BroadcastRequest) (m : Msg) : bool :=
  (b_type b =? type_ m) && (b_source b =? source m) && (b_round b =? round m)
  && bool_decide (b_value b = value m) && (b_prepared_round b =? prepared_round m)
  && bool_decide (b_prepared_value b = prepared_value m).

(** What the layer above checks before a message reaches the core: the type,
    the ranges of the rounds, and that a justification carries none itself. *)
Definition well_formed (m : Msg) : bool :=
  message_type_valid (type_ m) && (1 <=? round m) && (round m <=? I64_MAX)
  && (0 <=? prepared_round m).

Definition flat (m : Msg) : bool :=
  forallb (fun j => match justification j with [] => true | _ => false end) (justification m).

(** Signatures are verified too, those of the justification included: every
    message comes from a participant, and from a correct one only if it was
    broadcast. *)
Definition authentic (sent : list BroadcastRequest) (m : Msg) : bool :=
  bool_decide (source m ∈ P) && well_formed m
  && (bool_decide (source m ∈ Byz) || existsb (fun b => same_body b m) sent).

Definition deliverable (sent : list BroadcastRequest) (ev : Event) : bool :=
  match ev with
  | EvReceive (Some m) => forallb (authentic sent) (m :: justification m) && flat m
  | _ => true
  end.

Definition broadcasts (acts : list Action) : list BroadcastRequest :=
  omap (fun a => match a with ABroadcast b => Some b | _ => None end) acts.

Definition decisions (acts : list Action) : list Value :=
  omap (fun a => match a with ADecide v _ => Some v | _ => None end) acts.

Definition receives (p : Z) (env : Env) (ev : Event) : list (Z * Msg * @CmpTrace Compare) :=
  match ev with EvReceive (Some m) => [(p, m, e_compare env)] | _ => [] end.

Definition settle (net : Net) (p : Z) (rcv : list (Z * Msg * CmpTrace)) (out : Outcome) : Net :=
  let '(s, acts, r) := out in {|
    n_status := <[p := match r with Ok _ => Running s | _ => Stopped s r end]> (n_status net);
    n_sent := broadcasts acts ++ n_sent net;
    n_received := rcv ++ n_received net;
    n_decided := ((fun v => (p, s_round s, v)) <$> decisions acts) ++ n_decided net |}.

(** One participant starts, or goes once around its loop; [None] when that
    cannot happen now. *)
Definition net_start (net : Net) (p : Z) (env : Env) : option Net :=
  match n_status net p with
  | Idle =>
    if bool_decide (p ∈ P) && bool_decide (p ∉ Byz)
    then Some (settle net p [] (start d inst p env initial_state)) else None
  | _ => None
  end.

Definition net_event (net : Net) (p : Z) (env : Env) (ev : Event) : option Net :=
  match n_status net p with
  | Running s =>
    if bool_decide (p ∈ P) && bool_decide (p ∉ Byz) && enabled s ev && deliverable (n_sent net) ev
    then Some (settle net p (receives p env ev) (on_event d inst p env ev s)) else None
  | _ => None
  end.

Inductive net_step (net : Net) : Net -> Prop :=
| net_step_start p env net' : net_start net p env = Some net' -> net_step net net'
| net_step_event p env ev net' : net_event net p env ev = Some net' -> net_step net net'.

Definition net_reachable : Net -> Prop := rtc net_step net_initial.

(** A schedule: who starts, who takes which event. *)
Fixpoint net_exec (script : list (Z * Env * option Event)) (net : Net) : option Net :=
  match script with
  | [] => Some net
  | (p, env, o) :: script =>
    net' ← match o with None => net_start net p env | Some ev => net_event net p env ev end;
    net_exec script net'
  end.

Lemma net_exec_reachable script net net' :
  net_reachable net -> net_exec script net = Some net' -> net_reachable net'.
Proof.
  revert net. induction script as [|[[p env] [ev|]] script IH]; intros net Hr; cbn.
  - by intros [= <-].
  - destruct (net_event net p env ev) as [net1|] eqn:E; cbn; [|done]. apply IH.
    eapply rtc_r; [done|]. by eapply net_step_event.
  - destruct (net_start net p env) as [net1|] eqn:E; cbn; [|done]. apply IH.
    eapply rtc_r; [done|]. by eapply net_step_start.
Qed.

(** ** Messages as votes *)

Abbreviation Vote := (@Vote Value).
Abbreviation AState := (@AState Value).
Abbreviation ASys := (@ASys Value).

Definition q : nat := Z.to_nat (quorum_size (nodes d)).

Abbreviation cast := (cast P Byz).
Abbreviation vote_quorum := (vote_quorum P Byz q).
Abbreviation justified := (justified value_default P Byz q).
Abbreviation acceptable := (acceptable value_default P Byz q).
Abbreviation node_step := (node_step value_default P Byz q).
Abbreviation sys_step := (sys_step value_default P Byz q).
Abbreviation sys_reachable := (sys_reachable value_default P Byz q).

Definition vote_of (t r : Z) (v : Value) (pr : Z) (pv : Value) : option Vote :=
  if t =? MSG_PREPARE then Some (VPrepare r v)
  else if t =? MSG_COMMIT then Some (VCommit r v)
  else if t =? MSG_ROUND_CHANGE then Some (VRoundChange r pr pv)
  else None.

Definition msg_vote (m : Msg) : option Vote :=
  vote_of (type_ m) (round m) (value m) (prepared_round m) (prepared_value m).

Definition req_vote (b : BroadcastRequest) : option Vote :=
  vote_of (b_type b) (b_round b) (b_value b) (b_prepared_round b) (b_prepared_value b).

(** A message whose vote exists in the abstract system. *)
Definition genuine (w : ASys) (m : Msg) : Prop :=
  source m ∈ P /\ well_formed m = true /\ forall x, msg_vote m = Some x -> cast w (source m) x.

Definition genuine_all (w : ASys) (m : Msg) : Prop :=
  genuine w m /\ Forall (genuine w) (justification m) /\ no_nested m.

Definition buffer_ok (w : ASys) (s : RunState) : Prop :=
  forall k l m, s_buffer s !! k = Some l -> m ∈ l -> genuine_all w m.

Lemma well_formed_spec (m : Msg) :
  well_formed m = true <-> 
  message_type_valid (type_ m) = true /\ (1 <= round m /\ round m <= I64_MAX) /\ 0 <= prepared_round m.
Proof. unfold well_formed. rewrite !andb_true_iff, !Z.leb_le. tauto. Qed.

Lemma flat_spec (m : Msg) : flat m = true <-> no_nested m.
Proof.
  unfold flat, no_nested. rewrite forallb_forall, list.Forall_forall.
  setoid_rewrite <-list_elem_of_In.
  split; intros Hj j Hin; specialize (Hj j Hin); by destruct (justification j).
Qed.

Lemma genuine_mono w w' m : w_votes w ⊆ w_votes w' -> genuine w m -> genuine w' m.
Proof. intros Hsub (? & ? & Hc). split_and!; eauto using cast_mono. Qed.

Lemma genuine_all_mono w w' m : w_votes w ⊆ w_votes w' -> genuine_all w m -> genuine_all w' m.
Proof.
  intros Hsub (? & ? & ?). split_and!; [by eapply genuine_mono| |done].
  eauto using Forall_impl, genuine_mono.
Qed.

Lemma buffer_ok_mono w w' s : w_votes w ⊆ w_votes w' -> buffer_ok w s -> buffer_ok w' s.
Proof. intros Hsub Hb k l m ??. eauto using genuine_all_mono. Qed.

Lemma flatten_genuine w s ho all x :
  buffer_ok w s -> flatten ho (s_buffer s) = Ok all -> x ∈ all -> genuine w x.
Proof.
  intros Hb Hf Hx. destruct (flatten_in _ _ _ _ Hf Hx) as (k & l & m & Hl & Hm & Hor).
  destruct (Hb _ _ _ Hl Hm) as (? & Hj & _). rewrite list.Forall_forall in Hj. naive_solver.
Qed.

(** A list of votes that counts for the code counts for the protocol. *)
Lemma votes_quorum w t r v (l : list Msg) x :
  votes t r v l -> quorum_size (nodes d) <= len l -> (forall m, m ∈ l -> genuine w m) ->
  (forall pr pv, vote_of t r v pr pv = Some x) -> vote_quorum w x.
Proof.
  intros [Hnd Hall] Hlen Hg Hx. exists (list_to_set (source <$> l)). split.
  - rewrite size_list_to_set_NoDup, length_fmap by done. unfold q, len in *. lia.
  - intros p (m & -> & Hm)%elem_of_list_to_set%list_elem_of_fmap.
    destruct (Hg m Hm) as (_ & _ & Hc). apply Hc. unfold msg_vote.
    rewrite list.Forall_forall in Hall. destruct (Hall m Hm) as (-> & -> & ->). apply Hx.
Qed.

Lemma prepare_quorum w r v l :
  votes MSG_PREPARE r v l -> quorum_size (nodes d) <= len l -> (forall m, m ∈ l -> genuine w m) ->
  vote_quorum w (VPrepare r v).
Proof. intros ???. by eapply votes_quorum. Qed.

Lemma commit_quorum w r v l :
  votes MSG_COMMIT r v l -> quorum_size (nodes d) <= len l -> (forall m, m ∈ l -> genuine w m) ->
  vote_quorum w (VCommit r v).
Proof. intros ???. by eapply votes_quorum. Qed.

(** The round changes of a justification as a map from their sources. *)
Definition rc_map (qrc : list Msg) : gmap Z (Z * Value) :=
  list_to_map ((fun m => (source m, (prepared_round m, prepared_value m))) <$> qrc).

Lemma rc_map_fst (qrc : list Msg) :
  ((fun m => (source m, (prepared_round m, prepared_value m))) <$> qrc).*1 = source <$> qrc.
Proof. rewrite <-list_fmap_compose. by apply list_fmap_ext. Qed.

Lemma rc_map_lookup (qrc : list Msg) p pr pv :
  NoDup (source <$> qrc) ->
  rc_map qrc !! p = Some (pr, pv) <->
  exists m, m ∈ qrc /\ source m = p /\ prepared_round m = pr /\ prepared_value m = pv.
Proof.
  intros Hnd. unfold rc_map. rewrite <-elem_of_list_to_map by by rewrite rc_map_fst.
  rewrite list_elem_of_fmap. split.
  - intros (m & [= -> -> ->] & ?). eauto.
  - intros (m & ? & <- & <- & <-). eauto.
Qed.

Lemma rc_map_size (qrc : list Msg) : NoDup (source <$> qrc) -> size (rc_map qrc) = length qrc.
Proof.
  intros Hnd. unfold rc_map. rewrite <-size_dom, dom_list_to_map_L, rc_map_fst.
  by rewrite size_list_to_set_NoDup, length_fmap.
Qed.

Lemma just_qrc_justified w (just : list Msg) rnd pv :
  just_qrc d just rnd pv -> Forall (genuine w) just -> justified w rnd pv.
Proof.
  intros (qrc & (Hnd & Hlen & Hrc) & Hsub & Hj) Hg. rewrite list.Forall_forall in Hg, Hrc.
  exists (rc_map qrc). split_and!.
  - rewrite rc_map_size by done. unfold q, len in *. lia.
  - intros p pr v (m & Hm & <- & <- & <-)%rc_map_lookup; [|done].
    destruct (Hrc m Hm) as (Ht & Hr & Hb). split; [|done].
    destruct (Hg m (Hsub m Hm)) as (_ & _ & Hc). apply Hc.
    unfold msg_vote. by rewrite Ht, Hr.
  - destruct Hj as [[Hnull ->]|(pr & ps & Hps & Hq & Hsub' & Hmax & Hex)]; [left|right].
    + split; [done|]. intros p pr v (m & Hm & _ & <- & _)%rc_map_lookup; [|done].
      unfold all_null in Hnull. rewrite list.Forall_forall in Hnull. by apply Hnull.
    + exists pr. split_and!.
      * eapply prepare_quorum; [done..|]. intros m Hm. by apply Hg, Hsub'.
      * intros p pr' v (m & Hm & _ & <- & _)%rc_map_lookup; [|done].
        rewrite list.Forall_forall in Hmax. by apply Hmax.
      * apply list.Exists_exists in Hex as (m & Hm & Hpr & Hpv). exists (source m).
        apply rc_map_lookup; [done|]. by exists m.
Qed.

(** ** The handlers as protocol steps *)

(** How the locals of [run] represent a protocol state.  A decided process
    ([q_commit] is set) only answers ROUND-CHANGEs; its timer is off. *)
Definition decided_state (s : RunState) : bool :=
  match s_q_commit s with Some (_ :: _) => true | _ => false end.

(** What a change of round keeps. *)
Record same_locks (s : RunState) (a : AState) : Prop := {
  sl_commit : decided_state s = false;
  sl_done : a_done a = false;
  sl_pr : a_pr a = s_prepared_round s;
  sl_pv : a_pv a = s_prepared_value s;
  sl_cfr : a_cfr a = s_compare_failure_round s;
}.

Record undecided (s : RunState) (a : AState) : Prop := {
  ud_locks : same_locks s a;
  ud_round : a_round a = s_round s;
  ud_committed : a_committed a = true -> (UPON_QUORUM_PREPARES, s_round s) ∈ s_dedup_rules s;
}.

Definition abs (s : RunState) (a : AState) : Prop :=
  if decided_state s then a_done a = true /\ s_timer s = None else undecided s a.

(** The verdict of a comparison does not depend on the value it starts from. *)
Definition verdict (t : @CmpTrace Compare) : option bool :=
  match snd (compare compare_default t) with
  | Ok _ => Some true
  | Err CompareError => Some false
  | _ => None
  end.

Lemma compare_snd (x y : Compare) t : snd (compare x t) = snd (compare y t).
Proof.
  unfold compare. destruct t as [l ex]. cbn. revert x y.
  induction l as [|[] l IH]; intros x y; cbn; auto.
  destruct ex as [|err dr []|]; try done. by destruct err.
Qed.

(** The outcome of a handler run in state [a] is a step of the protocol: the
    votes it broadcast, the proposal it accepted and the value it decided are
    those of the step, and unless the loop ends, the new locals represent the
    new state. *)
Definition refines (w : ASys) (p : Z) (a : AState) (props : list (Z * Value * bool))
    (out : Outcome) : Prop :=
  let '(s', acts, r) := out in
  exists a' vs acc dec,
    node_step w a a' vs acc dec /\
    (a_done a = true -> a' = a /\ vs = [] /\ acc = [] /\ dec = []) /\
    (forall b, b ∈ broadcasts acts ->
       b_source b = p /\ forall x, req_vote b = Some x -> x ∈ vs) /\
    (forall v, v ∈ decisions acts -> (s_round s', v) ∈ dec) /\
    acc ⊆ props /\
    (r = Ok tt -> abs s' a' /\ buffer_ok w s').

#[local] Arguments refines : simpl never.

(** What leaves the protocol state alone. *)
Lemma refines_idle w p a props s' acts r :
  (forall b, b ∈ broadcasts acts -> b_source b = p /\ req_vote b = None) ->
  decisions acts = [] -> (r = Ok tt -> abs s' a /\ buffer_ok w s') ->
  refines w p a props (s', acts, r).
Proof.
  intros Hb Hd Hr. exists a, [], [], []. split_and!; auto using ns_idle.
  - intros b Hin. destruct (Hb b Hin) as [? Hn]. split; [done|]. by rewrite Hn.
  - rewrite Hd. set_solver.
  - set_solver.
Qed.

Lemma refines_stop w p a props s' r : r <> Ok tt -> refines w p a props (s', [], r).
Proof. intros Hr. apply refines_idle; [|done|done].
  intros b Hb. by apply elem_of_nil in Hb. Qed.

(** The effect of [change_round] and [new_timer] on the locals. *)
Definition in_round (r : Z) (s : RunState) : RunState :=
  if s_round s =? r then s
  else s <| s_round := r |> <| s_dedup_rules := ∅ |> <| s_ppj_cache := None |>.

Definition timer_on (s : RunState) : RunState := s <| s_timer := Some (s_round s) |>.

Definition rc_request (p : Z) (s : RunState) : BroadcastRequest :=
  {| b_type := MSG_ROUND_CHANGE; b_instance := inst; b_source := p;
     b_round := s_round s; b_value := value_default;
     b_prepared_round := s_prepared_round s; b_prepared_value := s_prepared_value s;
     b_justification := s_prepared_justification s |}.

Lemma s_round_in_round r s : s_round (in_round r s) = r.
Proof. unfold in_round. by destruct (Z.eqb_spec (s_round s) r). Qed.

Lemma same_locks_in_round r s a : same_locks s a -> same_locks (timer_on (in_round r s)) a.
Proof. unfold in_round. intros []. by destruct (s_round s =? r); constructor. Qed.

Lemma same_locks_enter r s a : same_locks s a -> same_locks s (enter r a).
Proof.
  intros []. constructor; rewrite ?a_done_enter, ?a_pr_enter, ?a_cfr_enter; try done.
  unfold enter. by destruct (a_round a =? r).
Qed.

Lemma buffer_in_round w r s : buffer_ok w s -> buffer_ok w (timer_on (in_round r s)).
Proof. unfold in_round. by destruct (s_round s =? r). Qed.

(** Entering a round, in the code and in the protocol. *)
Lemma undecided_in_round r s a :
  undecided s a -> undecided (timer_on (in_round r s)) (enter r a).
Proof.
  intros [Hl Hr Hc]. split.
  - by apply same_locks_enter, same_locks_in_round.
  - by rewrite a_round_enter; cbn; rewrite s_round_in_round.
  - unfold in_round, enter. rewrite Hr.
    by destruct (s_round s =? r) eqn:E; cbn.
Qed.

Lemma abs_undecided s a : undecided s a -> abs s a.
Proof. intros U. unfold abs. by rewrite (sl_commit _ _ (ud_locks _ _ U)). Qed.

(** Timer actions are no votes. *)
Lemma refines_prepend w p a props acts out :
  broadcasts acts = [] -> decisions acts = [] ->
  refines w p a props out -> refines w p a props (prepend acts out).
Proof.
  intros Hb Hd. destruct out as [[s' acts'] r]. intros (a' & vs & acc & dec & Href).
  exists a', vs, acc, dec. unfold broadcasts, decisions in *.
  by rewrite !omap_app, Hb, Hd.
Qed.

(** What a comparison makes of a proposal. *)
Definition proposal (env : Env) (msg : Msg) : list (Z * Value * bool) :=
  match verdict (e_compare env) with Some ok => [(round msg, value msg, ok)] | None => [] end.

#[local] Opaque in_round.

Section handlers.
Context (w : ASys) (p : Z) (env : Env).

Lemma round_change_eq r s :
  (change_round r ;; stop_timer ;; new_timer ;; broadcast_round_change inst p env) s =
  let s' := timer_on (in_round r s) in
  (s', [AStopTimer; ANewTimer r; ABroadcast (rc_request p s')], sent_res env (rc_request p s')).
Proof.
  unfold change_round, stop_timer, new_timer, broadcast_round_change. run_simp.
  change (if s_round s =? r then s else _) with (in_round r s).
  rewrite broadcast_eq. unfold rc_request, timer_on. cbn. by rewrite s_round_in_round.
Qed.

(** The end of a round: Algorithm 3:1 and 3:5. *)
Lemma round_change_refines a props s r :
  same_locks s a -> buffer_ok w s -> a_round a < r -> a_round a <= s_round s ->
  refines w p a props
    ((change_round r ;; stop_timer ;; new_timer ;; broadcast_round_change inst p env) s).
Proof.
  intros Hl Hbuf Hlt Hle. rewrite round_change_eq. cbn zeta.
  exists (enter r a), [VRoundChange r (a_pr a) (a_pv a)], [], [].
  pose proof (same_locks_in_round r s a Hl) as [U1 U2 U3 U4 U5].
  split_and!; [by constructor|congruence| |by intros v ?%elem_of_nil|set_solver|].
  - intros b Hb. apply list_elem_of_singleton in Hb as ->. split; [done|].
    intros x [= <-]. cbn. rewrite s_round_in_round. rewrite U3, U4. by constructor.
  - intros _. split; [|by apply buffer_in_round]. apply abs_undecided. split.
    + by apply same_locks_enter.
    + rewrite a_round_enter. cbn. by rewrite s_round_in_round.
    + unfold enter. destruct (Z.eqb_spec (a_round a) r); [lia|done].
Qed.

Lemma timeout_refines a props s :
  same_locks s a -> buffer_ok w s -> a_round a <= s_round s ->
  refines w p a props (next_round_on_timeout inst p env s).
Proof.
  intros Hl Hb Hle. unfold next_round_on_timeout. run_simp.
  destruct (checked_add_i64 (s_round s) 1) as [r|] eqn:E; cbn [expect]; [|by apply refines_stop].
  apply guard_i64_Some in E as [-> _]. apply round_change_refines; [done|done|lia|done].
Qed.

(** Algorithm 2:1. *)
Lemma pre_prepare_refines a s msg :
  undecided s a -> buffer_ok w s -> a_round a <= round msg ->
  acceptable w (a_cfr a) (round msg) (value msg) ->
  refines w p a (proposal env msg) (upon_justified_pre_prepare inst p env msg s).
Proof.
  intros U Hb Hle Hacc.
  unfold upon_justified_pre_prepare, change_round, stop_timer, new_timer. run_simp.
  change (if s_round s =? round msg then s else _) with (in_round (round msg) s).
  set (s1 := (in_round (round msg) s) <| s_timer := _ |>).
  assert (s1 = timer_on (in_round (round msg) s)) as E1 by done. clearbody s1. subst s1.
  pose proof (undecided_in_round (round msg) s a U) as U'.
  pose proof (buffer_in_round w (round msg) s Hb) as Hb'.
  pose proof (same_locks_in_round (round msg) s a (ud_locks _ _ U)) as Hl'.
  set (s1 := timer_on (in_round (round msg) s)) in *.
  assert (s_round s1 = round msg) as Hr by (cbn; apply s_round_in_round). clearbody s1.
  apply refines_prepend; [done..|]. apply refines_prepend; [done..|].
  unfold proposal, verdict.
  rewrite (compare_snd compare_default (s_input_value_source s1)).
  destruct (compare (s_input_value_source s1) (e_compare env)) as [src result]. cbn [snd].
  run_simp. set (s2 := s1 <| s_input_value_source := src |>).
  assert (undecided s2 (enter (round msg) a)) as U2 by (destruct U' as [[] ? ?]; by repeat constructor).
  assert (same_locks s2 a) as Hl2 by (destruct Hl'; by constructor).
  assert (s_round s2 = round msg) as Hr2 by done.
  assert (buffer_ok w s2) as Hb2 by done. clearbody s2.
  destruct result as [u|e|]; [| |by apply refines_stop].
  - unfold broadcast_msg. run_simp. rewrite broadcast_eq, Hr2.
    exists (enter (round msg) a), [VPrepare (round msg) (value msg)],
      [(round msg, value msg, true)], [].
    split_and!; [by constructor| | |by intros v ?%elem_of_nil|done|].
    + by rewrite (sl_done _ _ (ud_locks _ _ U)).
    + intros b Hin. apply list_elem_of_singleton in Hin as ->. split; [done|].
      intros x [= <-]. by constructor.
    + intros _. split; [by apply abs_undecided|done].
  - destruct e; try by apply refines_stop.
    + apply timeout_refines; [done|done|lia].
    + exists ((enter (round msg) a) <| a_cfr := round msg |>), [], [(round msg, value msg, false)], [].
      split_and!; [by constructor| |by intros b ?%elem_of_nil|by intros v ?%elem_of_nil|done|].
      * by rewrite (sl_done _ _ (ud_locks _ _ U)).
      * intros _. split; [|done]. apply abs_undecided.
        destruct U2 as [[] ? ?]. by repeat constructor.
Qed.

(** Algorithm 2:4. *)
Lemma prepares_refines a props s msg just :
  undecided s a -> buffer_ok w s -> a_committed a = false ->
  (UPON_QUORUM_PREPARES, s_round s) ∈ s_dedup_rules s ->
  vote_quorum w (VPrepare (s_round s) (value msg)) ->
  refines w p a props (upon_quorum_prepares inst p env msg just s).
Proof.
  intros U Hb Hc Hin Hq. unfold upon_quorum_prepares, broadcast_msg. run_simp.
  rewrite broadcast_eq. destruct U as [[U1 U2 U3 U4 U5] U6 U7].
  eexists _, [VCommit (a_round a) (value msg)], [], [].
  split_and!; [apply (ns_commit _ _ _ _ _ _ (value msg)); [done|by rewrite U6]|congruence| |
    by intros v ?%elem_of_nil|set_solver|].
  - intros b Hb'. apply list_elem_of_singleton in Hb' as ->. split; [done|].
    intros x [= <-]. cbn. rewrite U6. by constructor.
  - intros _. split; [|done]. apply abs_undecided. by repeat constructor.
Qed.

(** Algorithm 2:8. *)
Lemma decided_refines a props s msg v0 qc :
  undecided s a -> buffer_ok w s -> vote_quorum w (VCommit (round msg) (value msg)) ->
  refines w p a props (upon_decided msg (Some (v0 :: qc)) s).
Proof.
  intros U Hb Hq. unfold upon_decided, change_round, stop_timer. run_simp. cbn [expect].
  change (if s_round s =? round msg then s else _) with (in_round (round msg) s).
  apply refines_prepend; [done..|]. run_simp. unfold emit.
  eexists _, [], [], [(round msg, value msg)].
  split_and!; [by apply ns_decide| |by intros b ?%elem_of_nil| |set_solver|].
  - by rewrite (sl_done _ _ (ud_locks _ _ U)).
  - intros v ->%list_elem_of_singleton. cbn. rewrite s_round_in_round. by constructor.
  - intros _. split; [done|].  pose proof (buffer_in_round w (round msg) s Hb). done.
Qed.

(** Algorithm 3:5. *)
Lemma fplus1_refines a props s frc :
  valid_def d -> undecided s a -> buffer_ok w s ->
  future_rcs (s_round s) frc -> max_faulty (nodes d) + 1 <= len frc ->
  Forall (fun m => round m <= I64_MAX) frc ->
  refines w p a props (upon_fplus1_round_changes d inst p env (Some frc) s).
Proof.
  intros Hd U Hb Hf Hlen Hmax. unfold upon_fplus1_round_changes. run_simp. cbn [expect]. run_simp.
  destruct (next_min_round_spec d frc (s_round s) Hd Hlen Hf Hmax) as (r & -> & Hr & _).
  destruct U as [? U ?]. apply round_change_refines; [done|done|lia|lia].
Qed.

(** A PRE-PREPARE is no vote. *)
Lemma pre_prepare_sent a props s v just :
  abs s a -> buffer_ok w s ->
  refines w p a props (broadcast_msg inst p env MSG_PRE_PREPARE v just s).
Proof.
  intros Ha Hb. unfold broadcast_msg. run_simp. rewrite broadcast_eq.
  apply refines_idle; [|done|done]. intros b ->%list_elem_of_singleton. done.
Qed.

Lemma own_pre_prepare_refines a props s just :
  abs s a -> buffer_ok w s ->
  refines w p a props (broadcast_own_pre_prepare inst p env just s).
Proof.
  intros Ha Hb. unfold broadcast_own_pre_prepare. run_simp.
  destruct (s_ppj_cache s); [by apply refines_stop|].
  case_bool_decide; [|by apply pre_prepare_sent].
  apply refines_idle; [by intros b ?%elem_of_nil|done|]. intros _. split; [|done].
  unfold abs in *. change (decided_state (s <| s_ppj_cache := Some just |>)) with (decided_state s).
  destruct (decided_state s) eqn:E; [done|]. destruct Ha as [[] ? ?]. by repeat constructor.
Qed.

(** Algorithm 3:11. *)
Lemma quorum_rcs_refines a props s just :
  valid_def d -> abs s a -> buffer_ok w s ->
  refines w p a props (upon_quorum_round_changes d inst p env just s).
Proof.
  intros Hd Ha Hb. unfold upon_quorum_round_changes. run_simp.
  destruct just as [qrc|]; cbn [expect]; [|by apply refines_stop]. run_simp.
  destruct (get_single_justified_pr_pv d qrc) as [[[pr pv]|]|e|]; try by apply refines_stop.
  - destruct (negb _); [by apply pre_prepare_sent|by apply own_pre_prepare_refines].
  - by apply own_pre_prepare_refines.
Qed.

(** The proposals an event can lead to accept. *)
Definition proposals (ev : Event) : list (Z * Value * bool) :=
  match ev with
  | EvReceive (Some m) =>
    if (type_ m =? MSG_PRE_PREPARE) && is_leader d inst (round m) (source m)
    then proposal env m else []
  | _ => []
  end.

Lemma buffer_ok_insert s msg n :
  buffer_ok w s -> genuine_all w msg ->
  buffer_ok w (s <| s_buffer := <[source msg :=
    drop n (default [] (s_buffer s !! source msg) ++ [msg])]> (s_buffer s) |>).
Proof.
  intros Hb Hg k l m. cbn. rewrite lookup_insert. case_decide as Hk; [|by apply Hb].
  intros [= <-] Hm. apply (subseteq_drop _ _ _) in Hm.
  apply elem_of_app in Hm as [Hm|Hm%list_elem_of_singleton]; [|by subst].
  destruct (s_buffer s !! source msg) as [l|] eqn:E; cbn in Hm; [by eapply Hb|].
  by apply elem_of_nil in Hm.
Qed.

(** A rule that fires, whatever the message, is a step of the protocol. *)
Lemma apply_rule_refines a s msg all rule just :
  valid_def d -> undecided s a -> buffer_ok w s -> genuine_all w msg ->
  is_justified d inst msg (a_cfr a) = Ok true ->
  (forall x, x ∈ all -> genuine w x) ->
  classified d inst (s_round s) p all msg rule just -> rule <> UPON_NOTHING ->
  (rule, round msg) ∈ s_dedup_rules s ->
  (rule = UPON_QUORUM_PREPARES -> a_committed a = false) ->
  refines w p a (proposals (EvReceive (Some msg))) (apply_rule d inst p env rule msg just s).
Proof.
  intros Hd U Hb (Hg & Hgj & _) Hj Hall Hcl Hne Hdup Hcom.
  destruct Hcl as [| Ht | Ht Hr | ps Ht Hr Hv Hq Hsub | cs Ht Hr Hv Hq Hsub
                  | frc Ht Hr Hf Hlen Hsub | qrc Ht Hr Hl Hq Hsub | Ht Hr];
    unfold apply_rule; cbn; [done|..].
  - unfold is_justified in Hj. rewrite Ht in Hj. cbn in Hj.
    apply is_justified_decided_spec in Hj as (_ & cs & Hv & Hq & Hsub); [|done].
    rewrite list.Forall_forall in Hgj.
    assert (exists v0 qc, justification msg = v0 :: qc) as (v0 & qc & Eq).
    { pose proof (quorum_size_pos (nodes d) (proj1 Hd)).
      destruct cs as [|c cs]; [unfold len in Hq; cbn in Hq; lia|].
      destruct (justification msg) as [|v0 qc]; [|eauto].
      exfalso. apply (not_elem_of_nil c), Hsub. by constructor. }
    rewrite Eq. apply decided_refines; [done|done|].
    eapply commit_quorum; [done|done|]. intros m Hm. by apply Hgj, Hsub.
  - unfold is_justified in Hj. rewrite Ht in Hj. cbn in Hj.
    apply is_justified_pre_prepare_spec in Hj as (_ & Hl & Hj); [|done].
    rewrite Ht, Hl. cbn. apply pre_prepare_refines; [done|done|by rewrite (ud_round _ _ U)|].
    destruct Hj as [?|[?|(pv & Hj & ?)]]; [by left|by right; left|right; right].
    exists pv. eauto using just_qrc_justified.
  - apply prepares_refines; auto.
    + by rewrite <-Hr at 1.
    + eapply prepare_quorum; [done|done|]. intros m Hm. by apply Hall, Hsub.
  - destruct cs as [|c cs].
    { pose proof (quorum_size_pos (nodes d) (proj1 Hd)). unfold len in Hq. cbn in Hq. lia. }
    apply decided_refines; [done|done|]. rewrite Hr.
    eapply commit_quorum; [done|done|]. intros m Hm. by apply Hall, Hsub.
  - apply fplus1_refines; [done..|]. apply list.Forall_forall. intros m Hm.
    destruct (Hall m (Hsub m Hm)) as (_ & Hwf & _). by apply well_formed_spec in Hwf as (_ & [_ ?] & _).
  - apply quorum_rcs_refines; [done| |done]. by apply abs_undecided.
  - apply refines_idle; [by intros b ?%elem_of_nil|done|]. intros _. split; [|done].
    by apply abs_undecided.
Qed.

(** What [on_receive] does before a decision. *)
Definition consider (msg : Msg) : Run unit :=
  s ← get;
  justified ← lift (is_justified d inst msg (s_compare_failure_round s));
  if negb justified then mret tt
  else
    buffer_msg d msg ;;
    s ← get;
    '(rule, just) ← lift (classify (e_order env) d inst (s_round s) p (s_buffer s) msg);
    if rule =? UPON_NOTHING then mret tt
    else
      dup ← is_duplicated_rule rule (round msg);
      if dup : bool then mret tt
      else apply_rule d inst p env rule msg just.

Lemma on_receive_undecided msg s :
  decided_state s = false -> on_receive d inst p env msg s = consider msg s.
Proof.
  unfold decided_state, on_receive, consider. rewrite !bind_get.
  by destruct (s_q_commit s) as [[|v0 v]|].
Qed.

Lemma receive_refines a s msg :
  valid_def d -> abs s a -> buffer_ok w s -> genuine_all w msg ->
  (a_done a = false -> 1 <= a_round a) ->
  refines w p a (proposals (EvReceive (Some msg))) (on_receive d inst p env msg s).
Proof.
  intros Hd Ha Hb Hg Hpos. destruct (decided_state s) eqn:Eds.
  { pose proof Eds as Eds'. unfold on_receive. run_simp. unfold decided_state in Eds'.
    destruct (s_q_commit s) as [[|v0 v]|]; [done| |done].
    destruct (negb (source msg =? p) && (type_ msg =? MSG_ROUND_CHANGE)).
    - unfold broadcast_msg. run_simp. rewrite broadcast_eq.
      apply refines_idle; [|done|done]. by intros b ->%list_elem_of_singleton.
    - apply refines_idle; [by intros b ?%elem_of_nil|done|done]. }
  assert (undecided s a) as U by (unfold abs in Ha; by rewrite Eds in Ha).
  rewrite on_receive_undecided by done. unfold consider.
  run_simp. rewrite <-(sl_cfr _ _ (ud_locks _ _ U)).
  destruct (is_justified d inst msg (a_cfr a)) as [[]|e|] eqn:Ej; cbn [negb];
    try by apply refines_stop.
  2:{ apply refines_idle; [by intros b ?%elem_of_nil|done|done]. }
  unfold buffer_msg. run_simp.
  match goal with |- context [classify _ _ _ _ _ (s_buffer ?x) _] => set (s1 := x) end.
  assert (undecided s1 a) as U1 by (destruct U as [[] ? ?]; by repeat constructor).
  assert (buffer_ok w s1) as Hb1 by by apply buffer_ok_insert.
  clearbody s1.
  destruct (classify (e_order env) d inst (s_round s1) p (s_buffer s1) msg)
    as [[rule just]|e|] eqn:Ec; try by apply refines_stop.
  apply classify_spec in Ec as (all & Hall & Hcl); [|done|].
  2:{ rewrite <-(ud_round _ _ U1). specialize (Hpos (sl_done _ _ (ud_locks _ _ U1))). lia. }
  destruct (Z.eqb_spec rule UPON_NOTHING) as [|Hne].
  { apply refines_idle; [by intros b ?%elem_of_nil|done|]. intros _. split; [|done].
    by apply abs_undecided. }
  unfold is_duplicated_rule. run_simp.
  set (s2 := s1 <| s_dedup_rules ::= union {[(rule, round msg)]} |>).
  assert (undecided s2 a) as U2.
  { destruct U1 as [[] ? ?]. repeat constructor; try done. cbn. set_solver. }
  case_bool_decide as Hin.
  { apply refines_idle; [by intros b ?%elem_of_nil|done|]. intros _. split; [|done].
    by apply abs_undecided. }
  apply apply_rule_refines with all; auto.
  - intros x Hx. eapply flatten_genuine; [exact Hb1|by apply (Hall x Hx)|done].
  - subst s2. cbn. set_solver.
  - intros ->. destruct (a_committed a) eqn:Ecm; [|done]. exfalso. apply Hin.
    inversion Hcl as [| | |? ? Hr| | | |]. rewrite Hr. by apply (ud_committed _ _ U1).
Qed.

(** Locals the protocol does not see. *)
Lemma abs_irrelevant s s' a :
  s_q_commit s' = s_q_commit s -> s_timer s' = s_timer s -> s_round s' = s_round s ->
  s_prepared_round s' = s_prepared_round s -> s_prepared_value s' = s_prepared_value s ->
  s_compare_failure_round s' = s_compare_failure_round s ->
  s_dedup_rules s' = s_dedup_rules s -> abs s a -> abs s' a.
Proof.
  intros E1 E2 E3 E4 E5 E6 E7. unfold abs, decided_state. rewrite E1.
  destruct (match s_q_commit s with Some (_ :: _) => true | _ => false end) eqn:E;
    [by rewrite E2|].
  intros [[] ? ?]. repeat constructor; unfold decided_state; rewrite ?E1, ?E3, ?E4, ?E5, ?E6, ?E7; done.
Qed.

Lemma input_refines a s v :
  abs s a -> buffer_ok w s -> refines w p a [] (on_input inst p env v s).
Proof.
  intros Ha Hb. unfold on_input. run_simp.
  case_bool_decide; [by apply refines_stop|]. run_simp. cbn [s_ppj_cache].
  set (s1 := s <| s_input_value := v |>).
  assert (abs s1 a) as Ha1 by (by revert Ha; apply abs_irrelevant).
  assert (buffer_ok w s1) as Hb1 by done. clearbody s1.
  destruct (s_ppj_cache s1) as [ppj|]; run_simp.
  - unfold broadcast_msg. run_simp. destruct (sent_res env _) as [[]|e|]; cbn [prepend app modify];
      (apply refines_idle; [by intros b ->%list_elem_of_singleton|done|]); [|done|done].
    intros _. split; [|done]. by revert Ha1; apply abs_irrelevant.
  - apply refines_idle; [by intros b ?%elem_of_nil|done|]. intros _. split; [|done].
    by revert Ha1; apply abs_irrelevant.
Qed.

Lemma event_refines a s ev :
  valid_def d -> abs s a -> buffer_ok w s -> enabled s ev = true ->
  (forall m, ev = EvReceive (Some m) -> genuine_all w m) ->
  (a_done a = false -> 1 <= a_round a) ->
  refines w p a (proposals ev) (on_event d inst p env ev s).
Proof.
  intros Hd Ha Hb He Hg Hpos.
  destruct ev as [|[v|]|[m|]|[]|[]]; cbn [on_event]; try by apply refines_stop.
  - by apply input_refines.
  - apply receive_refines; auto.
  - cbn in He. apply bool_decide_eq_true in He as [t Ht].
    unfold abs in Ha. destruct (decided_state s); [destruct Ha; congruence|].
    destruct Ha as [? Hr ?]. apply timeout_refines; [done|done|lia].
  - apply refines_idle; [by intros b ?%elem_of_nil|done|done].
Qed.

Lemma abs_initial : abs initial_state (a_initial value_default).
Proof. by repeat constructor. Qed.

Lemma start_refines : refines w p (a_initial value_default) [] (start d inst p env initial_state).
Proof.
  assert (buffer_ok w initial_state) as Hb by (intros k l m; cbn; by rewrite lookup_empty).
  unfold start. run_simp. destruct (validate_definition d); try by apply refines_stop. run_simp.
  assert (forall s, abs s (a_initial value_default) -> buffer_ok w s ->
    refines w p (a_initial value_default) [] (new_timer s)) as Ht.
  { intros s Ha Hbs. unfold new_timer. run_simp. apply refines_prepend; [done..|].
    apply refines_idle; [by intros b ?%elem_of_nil|done|]. intros _. split; [|done].
    unfold abs in *. change (decided_state (s <| s_timer := Some (s_round s) |>)) with (decided_state s).
    destruct (decided_state s); [by destruct Ha|]. destruct Ha as [[] ? ?]. by repeat constructor. }
  destruct (is_leader d inst (s_round initial_state) p); run_simp; [|apply Ht; [apply abs_initial|done]].
  unfold broadcast_own_pre_prepare. run_simp. cbn [s_ppj_cache initial_state s_input_value].
  rewrite bool_decide_eq_true_2 by done. run_simp. apply Ht; [|done]. by repeat constructor.
Qed.
End handlers.

(** ** Simulation *)

Definition received_proposal (net : Net) (p r : Z) (v : Value) (ok : bool) : Prop :=
  exists m t, (p, m, t) ∈ n_received net /\ type_ m = MSG_PRE_PREPARE /\
    is_leader d inst (round m) (source m) = true /\ round m = r /\ value m = v /\
    verdict t = Some ok.

Record sim (net : Net) (w : ASys) : Prop := {
  sim_node : forall p, p ∈ P -> p ∉ Byz ->
    match n_status net p with
    | Idle => w_nodes w p = a_initial value_default
    | Running s => abs s (w_nodes w p) /\ buffer_ok w s
    | Stopped _ _ => True
    end;
  sim_sent : forall b x, b ∈ n_sent net -> req_vote b = Some x -> (b_source b, x) ∈ w_votes w;
  sim_decided : forall x, x ∈ n_decided net -> x ∈ w_decided w;
  sim_accepted : forall p r v ok, (p, r, v, ok) ∈ w_accepted w -> received_proposal net p r v ok;
}.

Lemma sim_initial : sim net_initial (w_initial value_default).
Proof.
  constructor; cbn; [done|..]; intros; match goal with Hx : _ ∈ [] |- _ => by apply elem_of_nil in Hx end.
Qed.

Lemma same_body_vote b (m : Msg) :
  same_body b m = true -> b_source b = source m /\ req_vote b = msg_vote m.
Proof. unfold same_body, req_vote, msg_vote. intros. zbool. split; congruence. Qed.

Lemma authentic_genuine net w m :
  sim net w -> authentic (n_sent net) m = true -> genuine w m.
Proof.
  intros S. unfold authentic. intros [[HP%bool_decide_eq_true Hr]%andb_true_iff Ha]%andb_true_iff.
  split_and!; [done|done|]. intros x Hx. split; [done|].
  apply orb_true_iff in Ha as [HB%bool_decide_eq_true|Hs]; [by left|right].
  apply existsb_exists in Hs as (b & Hb%list_elem_of_In & [Hsrc Hv]%same_body_vote).
  rewrite <-Hsrc. eapply sim_sent; [done|done|]. by rewrite Hv.
Qed.

Lemma deliverable_genuine net w m :
  sim net w -> deliverable (n_sent net) (EvReceive (Some m)) = true -> genuine_all w m.
Proof.
  intros S. unfold deliverable. rewrite andb_true_iff, forallb_forall, flat_spec.
  intros [Hall Hflat]. split_and!; [| |done].
  - eapply authentic_genuine; [done|]. apply Hall. by left.
  - apply list.Forall_forall. intros x Hx. eapply authentic_genuine; [done|].
    apply Hall. right. by apply list_elem_of_In.
Qed.

Lemma received_mono net p0 rcv out p r v ok :
  received_proposal net p r v ok -> received_proposal (settle net p0 rcv out) p r v ok.
Proof.
  destruct out as [[s acts] r0]. intros (m & t & Hin & ?). exists m, t. split; [|done].
  cbn. apply elem_of_app. by right.
Qed.

Lemma settle_sim_at net w w' p rcv s' acts r a' (vs : list Vote)
    (acc : list (Z * Value * bool)) (dec : list (Z * Value)) :
  sim net w -> w_nodes w' p = a' -> (forall p1, p1 <> p -> w_nodes w' p1 = w_nodes w p1) ->
  (forall p1 x, (p1, x) ∈ w_votes w' <-> (p1 = p /\ x ∈ vs) \/ (p1, x) ∈ w_votes w) ->
  (forall p1 r v, (p1, r, v) ∈ w_decided w' <-> (p1 = p /\ (r, v) ∈ dec) \/ (p1, r, v) ∈ w_decided w) ->
  (forall p1 r v ok, (p1, r, v, ok) ∈ w_accepted w' -> 
     (p1 = p /\ (r, v, ok) ∈ acc) \/ (p1, r, v, ok) ∈ w_accepted w) ->
  (forall b, b ∈ broadcasts acts -> b_source b = p /\ forall x, req_vote b = Some x -> x ∈ vs) ->
  (forall v, v ∈ decisions acts -> (s_round s', v) ∈ dec) ->
  (r = Ok tt -> abs s' a' /\ buffer_ok w s') ->
  (forall r0 v ok, (r0, v, ok) ∈ acc -> received_proposal (settle net p rcv (s', acts, r)) p r0 v ok) ->
  sim (settle net p rcv (s', acts, r)) w'.
Proof.
  intros S Hp Hother Hvotes Hdecs Haccs Hbc Hdec Hok Hprops.
  assert (w_votes w ⊆ w_votes w') as Hsub by (intros [p1 x] Hx; apply Hvotes; by right).
  constructor.
  - intros p1 HP1 HB1. cbn. destruct (decide (p1 = p)) as [->|Hne].
    + rewrite fn_lookup_insert, Hp. destruct r as [[]|e|]; [|done|done].
      destruct (Hok eq_refl). split; [done|]. by eapply buffer_ok_mono.
    + rewrite fn_lookup_insert_ne, Hother by done. pose proof (sim_node _ _ S p1 HP1 HB1) as Hn.
      destruct (n_status net p1); [done| |done]. destruct Hn. split; [done|].
      by eapply buffer_ok_mono.
  - intros b x [Hb|Hb]%elem_of_app Hx; apply Hvotes; [left|right].
    + destruct (Hbc b Hb) as [-> Hv]. auto.
    + by eapply sim_sent.
  - intros [[p1 r1] v1] [Hv|Hv]%elem_of_app; apply Hdecs; [left|right].
    + apply list_elem_of_fmap in Hv as (v & [= -> -> ->] & Hv). auto.
    + by eapply sim_decided.
  - intros p1 r1 v1 ok [[-> Hin]|Hin]%Haccs; [by apply Hprops|].
    apply received_mono. by eapply sim_accepted.
Qed.

(** Whatever a correct participant does is a protocol step, or none. *)
Lemma settle_sim net w p props rcv out :
  p ∈ P -> p ∉ Byz -> sys_reachable w -> sim net w ->
  refines w p (w_nodes w p) props out ->
  (forall r v ok, (r, v, ok) ∈ props -> received_proposal (settle net p rcv out) p r v ok) ->
  exists w', sys_reachable w' /\ sim (settle net p rcv out) w'.
Proof.
  intros HP HB Hreach S Href Hprops. destruct out as [[s' acts] r].
  destruct Href as (a' & vs & acc & dec & Hstep & Hdone & Hbc & Hdec & Hacc & Hok).
  destruct (a_done (w_nodes w p)) eqn:Ed.
  - destruct (Hdone eq_refl) as (-> & -> & -> & ->). exists w. split; [done|].
    eapply settle_sim_at; eauto; intros; set_solver.
  - exists (after w p a' vs acc dec). split; [eapply rtc_r; [done|]; by apply ws_node|].
    apply (settle_sim_at net w _ p rcv s' acts r a' vs acc dec); [done|..|done|done|done|].
    + apply after_nodes.
    + intros p1 Hne. cbn. by rewrite fn_lookup_insert_ne.
    + intros. apply after_votes.
    + intros. apply after_decided.
    + intros p1 r1 v1 ok. by rewrite after_accepted.
    + intros r0 v ok Hin. by apply Hprops, Hacc.
Qed.

Lemma net_step_sim net net' w :
  valid_def d -> net_step net net' -> sys_reachable w -> sim net w ->
  exists w', sys_reachable w' /\ sim net' w'.
Proof.
  intros Hd Hstep Hr S. destruct Hstep as [p env net' E|p env ev net' E].
  - unfold net_start in E. pose proof (sim_node _ _ S p) as Hn.
    destruct (n_status net p); [|done|done].
    destruct (bool_decide (p ∈ P) && bool_decide (p ∉ Byz)) eqn:Eb; [|done].
    injection E as <-. zbool. eapply settle_sim; [done..| |].
    + rewrite Hn by done. apply start_refines.
    + by intros r v ok ?%elem_of_nil.
  - unfold net_event in E. pose proof (sim_node _ _ S p) as Hn.
    destruct (n_status net p) as [|s|]; [done| |done].
    destruct (bool_decide (p ∈ P) && bool_decide (p ∉ Byz) && enabled s ev
      && deliverable (n_sent net) ev) eqn:Eb; [|done].
    injection E as <-. zbool. destruct Hn as [Ha Hbuf]; [done..|].
    eapply settle_sim; [done..| |].
    + apply event_refines; [done..| |].
      * intros m ->. by eapply deliverable_genuine.
      * intros Hnd. pose proof (ni_round _ _ _ _ _ _ (reachable_inv _ _ _ _ w Hr p)) as [?|?]; [done|congruence].
    + intros r v ok. unfold proposals. destruct ev as [|?|[m|]|?|?]; try by intros ?%elem_of_nil.
      destruct ((type_ m =? MSG_PRE_PREPARE) && is_leader d inst (round m) (source m)) eqn:El;
        [|by intros ?%elem_of_nil]. unfold proposal.
      destruct (verdict (e_compare env)) as [b|] eqn:Ev; [|by intros ?%elem_of_nil].
      intros [= -> -> ->]%list_elem_of_singleton. zbool.
      destruct (on_event _ _ _ _ _ _) as [[??]?]. exists m, (e_compare env).
      split_and!; try done. cbn. by constructor.
Qed.

Lemma net_reachable_sim net :
  valid_def d -> net_reachable net -> exists w, sys_reachable w /\ sim net w.
Proof.
  intros Hd Hr. apply (rtc_ind_r (R := net_step)
    (fun net => exists w, sys_reachable w /\ sim net w) net_initial); [| |done].
  - exists (w_initial value_default). split; [apply rtc_refl|apply sim_initial].
  - intros net1 net2 _ Hstep (w & Hw & S). by eapply net_step_sim.
Qed.
End net.
