(* ===== verification/QbftCluster.v ===== *)
(** * Properties of a QBFT cluster

    What [QbftNet]'s simulation says about a cluster of [nodes] participants
    with at most [max_faulty nodes] faulty ones: agreement on the decided value,
    validity, at most one decision per process, and that no message a faulty
    participant can send makes a correct one panic. *)

From S2P Require Import Prelude Qbft QbftFacts QbftSpec QbftNet.
From stdpp Require Import functions.

Open Scope Z_scope.

Section cluster.
Context {Inst Value Compare : Type}.
Context `{Countable Value}.
Context {Dflt : @QbftDefaults Value Compare}.
Abbreviation Msg := (@Msg Inst Value Compare).
Abbreviation QDefinition := (@QDefinition Inst).
Abbreviation RunState := (@RunState Inst Value Compare).
Abbreviation Event := (@Event Inst Value Compare).
Abbreviation Env := (@Env Inst Value Compare).
Abbreviation Action := (@Action Inst Value Compare).
Abbreviation BroadcastRequest := (@BroadcastRequest Inst Value Compare).
Abbreviation Outcome := (RunState * list Action * res QbftError unit)%type.
Abbreviation ASys := (@ASys Value).

(** ** Totality of the pure functions *)

Section total.
Context (d : QDefinition) (Hd : valid_def d).

Lemma get_single_total (msgs : list Msg) :
  exists x, get_single_justified_pr_pv d msgs = Ok x.
Proof.
  unfold get_single_justified_pr_pv.
  destruct (single_pr_pv_loop _ _ _ _ _) as [[[pr pv] c]|]; [|eauto].
  rewrite quorum_count_ok by done. cbn. destruct (_ <=? _); eauto.
Qed.

Lemma contains_qrc_total (just : list Msg) rnd :
  exists x, contains_justified_qrc d just rnd = Ok x.
Proof.
  unfold contains_justified_qrc. rewrite quorum_count_ok by done. cbn.
  destruct (_ <? _); [eauto|]. destruct (forallb _ _); [eauto|].
  destruct (get_single_total just) as [[[pr pv]|] ->]; cbn; [|eauto].
  destruct (qrc_scan _ _ _ _) as [[]|]; eauto.
Qed.

Lemma is_justified_total inst (m : Msg) cfr :
  message_type_valid (type_ m) = true -> in_i64 (cfr + 1) = true ->
  exists b, is_justified d inst m cfr = Ok b.
Proof.
  unfold message_type_valid, MSG_UNKNOWN, MSG_SENTINEL. intros Ht Hc. zbool.
  unfold is_justified.
  destruct (type_ m =? MSG_PRE_PREPARE) eqn:E1.
  { unfold is_justified_pre_prepare. rewrite E1. cbn. destruct (is_leader _ _ _ _); cbn; [|eauto].
    unfold checked_add_i64, guard_i64. rewrite Hc. cbn.
    destruct (_ || _); [eauto|].
    destruct (contains_qrc_total (justification m) (round m)) as [[pv|] ->]; cbn; [|eauto].
    case_bool_decide; eauto. }
  destruct (type_ m =? MSG_PREPARE) eqn:E2; [eauto|].
  destruct (type_ m =? MSG_COMMIT) eqn:E3; [eauto|].
  destruct (type_ m =? MSG_ROUND_CHANGE) eqn:E4.
  { unfold is_justified_round_change. rewrite E4. cbn. destruct (negb _); [eauto|].
    destruct (justification m); [eauto|]. rewrite quorum_count_ok by done. cbn.
    destruct (_ <? _); eauto. }
  destruct (type_ m =? MSG_DECIDED) eqn:E5.
  { unfold is_justified_decided. rewrite E5, quorum_count_ok by done. cbn. eauto. }
  unfold MSG_PRE_PREPARE, MSG_PREPARE, MSG_COMMIT, MSG_ROUND_CHANGE, MSG_DECIDED in *. zbool. lia.
Qed.

Lemma qrc_search_total qn (rcs : list Msg) quorums :
  [] ∉ quorums -> exists x, qrc_search qn rcs quorums = Ok x.
Proof.
  induction quorums as [|ps quorums IH]; cbn; [eauto|].
  rewrite not_elem_of_cons. intros [Hne Hn].
  destruct ps as [|p0 ps]; [done|]. destruct (qrc_collect _ _ _ _ _) as [qrc h].
  destruct (_ && _); eauto.
Qed.

Lemma get_justified_qrc_total ho (all : list Msg) rnd :
  exists x, get_justified_qrc ho d all rnd = Ok x.
Proof.
  unfold get_justified_qrc, quorum_null_prepared, get_prepare_quorums.
  rewrite quorum_count_ok by done. cbn. destruct (_ <=? _); [eauto|].
  apply qrc_search_total. intros (m & Hnil & Hm)%list_elem_of_fmap.
  apply list_elem_of_filter in Hm as [Hsz _].
  assert (size m = 0%nat) as Hz by (rewrite <-(length_map_values ho m), <-Hnil; done).
  pose proof (quorum_size_pos (nodes d) (proj1 Hd)). lia.
Qed.

Lemma classify_total ho inst rnd process (buffer : gmap Z (list Msg)) (m : Msg) :
  message_type_valid (type_ m) = true ->
  (forall k l m, buffer !! k = Some l -> m ∈ l -> no_nested m) ->
  exists x, classify ho d inst rnd process buffer m = Ok x.
Proof.
  intros Ht Hb. unfold message_type_valid, MSG_UNKNOWN, MSG_SENTINEL in Ht. zbool.
  destruct (flatten_ok ho buffer Hb) as [all Hall]. unfold classify. rewrite Hall.
  rewrite quorum_count_ok by done. cbn.
  destruct (type_ m =? MSG_DECIDED) eqn:E5; [eauto|].
  destruct (type_ m =? MSG_PRE_PREPARE) eqn:E1; [destruct (_ <? _); eauto|].
  destruct (type_ m =? MSG_PREPARE) eqn:E2.
  { destruct (negb _); [eauto|]. destruct (_ <=? _); eauto. }
  destruct (type_ m =? MSG_COMMIT) eqn:E3.
  { destruct (negb _); [eauto|]. destruct (_ <=? _); eauto. }
  destruct (type_ m =? MSG_ROUND_CHANGE) eqn:E4.
  2:{ unfold MSG_PRE_PREPARE, MSG_PREPARE, MSG_COMMIT, MSG_ROUND_CHANGE, MSG_DECIDED in *. zbool. lia. }
  destruct (round m <? rnd); [eauto|]. destruct (rnd <? round m).
  - unfold get_fplus1_round_changes. rewrite faulty_plus_one_ok by done. cbn.
    destruct (_ <? _); cbn; eauto.
  - destruct (_ <? _); [eauto|].
    destruct (get_justified_qrc_total ho all (round m)) as [[qrc|] ->]; cbn; [|eauto].
    destruct (negb _); eauto.
Qed.
End total.

(** ** What the handlers keep *)

(** [prepared_justification]: nothing was prepared, or a quorum of PREPAREs for
    the prepared round and value. *)
Definition locks_ok (d : QDefinition) (s : RunState) : Prop :=
  (s_prepared_round s = 0 /\ s_prepared_value s = value_default /\ s_prepared_justification s = None) \/
  exists ps, s_prepared_justification s = Some ps /\ quorum_size (nodes d) <= len ps /\
    votes MSG_PREPARE (s_prepared_round s) (s_prepared_value s) ps /\
    1 <= s_prepared_round s <= s_round s.

(** The locals of an undecided process: rounds in range, the round of the last
    failed comparison in the past, the lock justified, and a cached
    justification only where the rule that caches it cannot fire again. *)
Definition tidy (d : QDefinition) (s : RunState) : Prop :=
  decided_state s = false ->
  0 <= s_compare_failure_round s <= s_round s /\ 1 <= s_round s <= I64_MAX /\
  (s_ppj_cache s <> None ->
   s_round s = 1 \/ (UPON_QUORUM_ROUND_CHANGES, s_round s) ∈ s_dedup_rules s) /\
  locks_ok d s.

(** A ROUND-CHANGE its receivers accept. *)
Definition rc_accepted (d : QDefinition) (b : BroadcastRequest) : Prop :=
  forall m : Msg, same_body b m = true -> justification m = default [] (b_justification b) ->
    is_justified_round_change d m = Ok true.

Definition no_rc (acts : list Action) : bool :=
  forallb (fun a => match a with
                    | ABroadcast b => negb (b_type b =? MSG_ROUND_CHANGE)
                    | _ => true end) acts.

(** A handler panics in the last round at most, keeps the locals tidy and
    sends only ROUND-CHANGEs that are accepted. *)
Definition panic_free (d : QDefinition) (out : Outcome) : Prop :=
  let '(s', acts, r) := out in
  (r = Panic -> s_round s' = I64_MAX) /\ (r = Ok tt -> tidy d s') /\
  (forall b, b ∈ broadcasts acts -> b_type b = MSG_ROUND_CHANGE -> rc_accepted d b).

#[local] Arguments panic_free : simpl never.

Lemma no_rc_accepted d acts b :
  no_rc acts = true -> b ∈ broadcasts acts -> b_type b = MSG_ROUND_CHANGE -> rc_accepted d b.
Proof.
  unfold no_rc. rewrite forallb_forall. intros Hall Hb Ht.
  apply list_elem_of_omap in Hb as ([] & Hin & [= <-]).
  apply list_elem_of_In, Hall in Hin. by rewrite Ht in Hin.
Qed.

Lemma pf_prepend d acts (out : Outcome) :
  no_rc acts = true -> panic_free d out -> panic_free d (prepend acts out).
Proof.
  intros Hacts. destruct out as [[s acts'] r]. intros (Hp & Ho & Hb). unfold panic_free. split_and!; [done|done|].
  intros b. unfold broadcasts. rewrite omap_app, elem_of_app. intros [Hin|Hin]; [|by apply Hb].
  by eapply no_rc_accepted.
Qed.

Lemma pf_ok d s acts r : tidy d s -> r <> Panic -> no_rc acts = true -> panic_free d (s, acts, r).
Proof. intros. unfold panic_free. split_and!; [done|done|]. intros b. by apply no_rc_accepted. Qed.

Lemma pf_err d s e : panic_free d (s, [], Err e).
Proof. unfold panic_free. split_and!; [done|done|]. by intros b ?%elem_of_nil. Qed.

Lemma pf_panic d s : s_round s = I64_MAX -> panic_free d (s, [], Panic).
Proof. intros. unfold panic_free. split_and!; [done|done|]. by intros b ?%elem_of_nil. Qed.

Lemma sent_not_panic (env : Env) b : sent_res env b <> Panic.
Proof. unfold sent_res. by destruct (e_broadcast env b). Qed.

Lemma locks_in_round d r (s : RunState) :
  locks_ok d s -> s_round s <= r -> locks_ok d (timer_on (in_round r s)).
Proof.
  unfold in_round, locks_ok. destruct (Z.eqb_spec (s_round s) r); cbn; [done|].
  intros [?|(ps & ? & ? & ? & ?)] ?; [by left|right]. exists ps. split_and!; try done; lia.
Qed.

Lemma tidy_in_round d r (s : RunState) :
  decided_state s = false -> tidy d s -> s_round s <= r <= I64_MAX ->
  tidy d (timer_on (in_round r s)).
Proof.
  intros Hn Ht Hr _. destruct (Ht Hn) as (? & ? & Hp & Hl).
  apply (locks_in_round d r) in Hl; [|lia]. revert Hl.
  unfold in_round. destruct (Z.eqb_spec (s_round s) r) as [<-|]; cbn; [done|].
  intros Hl. split_and!; try lia; done.
Qed.

(** The PREPAREs of a lock pass the check of [is_justified_round_change]. *)
Lemma round_change_prepares_votes pr pv sources (ps : list Msg) :
  votes MSG_PREPARE pr pv ps -> (forall m, m ∈ ps -> source m ∉ sources) ->
  round_change_prepares_ok pr pv sources ps = true.
Proof.
  revert sources. induction ps as [|m ps IH]; intros sources [Hnd Hall] Hs; [done|].
  cbn in Hnd. apply list.NoDup_cons in Hnd as [Hm Hnd]. apply list.Forall_cons in Hall as [(Ht & Hr & Hv) Hall].
  cbn. rewrite bool_decide_eq_true_2 by (apply Hs; by constructor). cbn.
  rewrite Ht, Hr, Hv, !Z.eqb_refl, bool_decide_eq_false_2 by (intros []; done). cbn.
  apply IH; [by split|]. intros m' Hm'. rewrite elem_of_union, elem_of_singleton. intros [Heq|Hin].
  - apply Hm. rewrite <-Heq. by apply list_elem_of_fmap_2.
  - by apply (Hs m'); [constructor|].
Qed.

Lemma same_body_spec b (m : Msg) :
  same_body b m = true ->
  type_ m = b_type b /\ source m = b_source b /\ round m = b_round b /\ value m = b_value b /\
  prepared_round m = b_prepared_round b /\ prepared_value m = b_prepared_value b.
Proof. unfold same_body. intros. zbool. by split_and!. Qed.

Lemma lock_accepted d inst p (s : RunState) :
  valid_def d -> locks_ok d s -> s_prepared_round s < s_round s ->
  rc_accepted d (rc_request inst p s).
Proof.
  intros Hd Hl Hlt m (Ht & _ & Hr0 & _ & Hpr0 & Hpv0)%same_body_spec Hj. cbn in *.
  unfold is_justified_round_change, valid_round_change_prepared_round.
  rewrite Ht, Hr0, Hpr0, Hpv0, Hj. cbn.
  destruct Hl as [(Hpr & Hpv & ->)|(ps & -> & Hlen & Hv & Hr)]; cbn.
  - rewrite Hpr, Hpv in *. cbn. destruct (Z.ltb_spec 0 (s_round s)); [|lia]. cbn.
    by rewrite bool_decide_eq_true_2.
  - destruct (Z.leb_spec 0 (s_prepared_round s)); [|lia].
    destruct (Z.ltb_spec (s_prepared_round s) (s_round s)); [|lia]. cbn.
    pose proof (quorum_size_pos (nodes d) (proj1 Hd)).
    destruct ps as [|m0 ps]; [unfold len in Hlen; cbn in Hlen; lia|].
    rewrite quorum_count_ok by done. cbn [mbind res_bind].
    destruct (Z.ltb_spec (len (m0 :: ps)) (quorum_size (nodes d))); [lia|].
    f_equal. apply round_change_prepares_votes; [done|]. set_solver.
Qed.

Lemma decided_in_round r (s : RunState) :
  decided_state (timer_on (in_round r s)) = decided_state s.
Proof. unfold in_round. by destruct (s_round s =? r). Qed.

Section panics.
Context (d : QDefinition) (Hd : valid_def d) (inst : Inst) (p : Z) (env : Env).

Lemma round_change_pf r s :
  decided_state s = false -> tidy d s -> s_round s < r <= I64_MAX ->
  panic_free d ((change_round r ;; stop_timer ;; new_timer ;; broadcast_round_change inst p env) s).
Proof.
  intros Hn Ht Hr. rewrite round_change_eq. cbn zeta.
  pose proof (Ht Hn) as (_ & _ & _ & Hl). unfold panic_free. split_and!.
  - intros Hp. by apply sent_not_panic in Hp.
  - intros _. apply tidy_in_round; [done|done|lia].
  - intros b ->%list_elem_of_singleton _. apply lock_accepted; [done|apply locks_in_round; [done|lia]|].
    unfold in_round. destruct (Z.eqb_spec (s_round s) r); [lia|]. cbn.
    destruct (Ht Hn) as (? & ? & ?). destruct Hl as [(-> & _)|(ps & _ & _ & _ & ?)]; lia.
Qed.

Lemma timeout_pf s :
  decided_state s = false -> tidy d s -> panic_free d (next_round_on_timeout inst p env s).
Proof.
  intros Hn Ht. pose proof (Ht Hn) as (_ & Hr & _). unfold next_round_on_timeout. run_simp.
  destruct (checked_add_i64 (s_round s) 1) as [r|] eqn:E; cbn [expect].
  - apply guard_i64_Some in E as [-> Hi]. apply round_change_pf; [done|done|]. lia.
  - apply pf_panic. unfold checked_add_i64, guard_i64, in_i64 in E.
    unfold I64_MAX, I64_MIN in *. destruct (_ && _) eqn:Eb; [done|].
    apply andb_false_iff in Eb as [Eb|Eb]; zbool; lia.
Qed.

Lemma broadcast_pf t v just s :
  (t =? MSG_ROUND_CHANGE) = false -> tidy d s ->
  panic_free d (broadcast_msg inst p env t v just s).
Proof.
  intros Ht Hs. unfold broadcast_msg. run_simp. rewrite broadcast_eq.
  apply pf_ok; [done|apply sent_not_panic|]. cbn. by rewrite Ht.
Qed.

Lemma pre_prepare_pf s msg :
  decided_state s = false -> tidy d s -> s_round s <= round msg <= I64_MAX ->
  panic_free d (upon_justified_pre_prepare inst p env msg s).
Proof.
  intros Hn Ht Hr.
  unfold upon_justified_pre_prepare, change_round, stop_timer, new_timer. run_simp.
  change (if s_round s =? round msg then s else _) with (in_round (round msg) s).
  pose proof (tidy_in_round d (round msg) s Hn Ht Hr) as Ht'.
  rewrite <-(decided_in_round (round msg)) in Hn. unfold timer_on in Ht', Hn.
  set (s1 := (in_round (round msg) s) <| s_timer := _ |>) in *.
  assert (s_round s1 = round msg) as Hr1 by apply s_round_in_round. clearbody s1.
  apply pf_prepend; [done|]. apply pf_prepend; [done|].
  destruct (compare _ (e_compare env)) as [src result] eqn:Ec. run_simp.
  assert (result <> Panic) as Hnp.
  { intros ->. assert (forall l x (y : Compare), snd (compare_loop y l x) <> Panic) as Hl.
    { intros l x. induction l as [|[] l IH]; intros y; cbn; auto.
      destruct x as [|[] ? []|[]]; done. }
    unfold compare in Ec. by eapply Hl; rewrite Ec. }
  set (s2 := s1 <| s_input_value_source := src |>).
  assert (tidy d s2) as Ht2 by done. assert (decided_state s2 = false) as Hn2 by done.
  assert (s_round s2 = round msg) as Hr2 by done. clearbody s2.
  destruct result as [u|e|]; [by apply broadcast_pf| |done].
  destruct e; try by apply pf_err.
  - by apply timeout_pf.
  - apply pf_ok; [|done|done]. intros _. destruct (Ht2 Hn2) as (? & ? & ? & ?).
    split_and!; cbn; try lia; done.
Qed.

Lemma own_pre_prepare_pf s just :
  decided_state s = false -> tidy d s -> s_ppj_cache s = None ->
  (UPON_QUORUM_ROUND_CHANGES, s_round s) ∈ s_dedup_rules s ->
  panic_free d (broadcast_own_pre_prepare inst p env just s).
Proof.
  intros Hn Ht Hppj Hin. unfold broadcast_own_pre_prepare. run_simp. rewrite Hppj.
  case_bool_decide; [|by apply broadcast_pf].
  apply pf_ok; [|done|done]. intros _. destruct (Ht Hn) as (? & ? & _ & ?). split_and!; cbn; auto; lia.
Qed.

Lemma quorum_rcs_pf s qrc :
  decided_state s = false -> tidy d s -> s_ppj_cache s = None ->
  (UPON_QUORUM_ROUND_CHANGES, s_round s) ∈ s_dedup_rules s ->
  panic_free d (upon_quorum_round_changes d inst p env (Some qrc) s).
Proof.
  intros ????. unfold upon_quorum_round_changes. run_simp. cbn [expect]. run_simp.
  destruct (get_single_total d Hd qrc) as [[[pr pv]|] ->].
  - destruct (negb _); [by apply broadcast_pf|by apply own_pre_prepare_pf].
  - by apply own_pre_prepare_pf.
Qed.

Lemma decided_pf s msg v0 qc : panic_free d (upon_decided msg (Some (v0 :: qc)) s).
Proof.
  unfold upon_decided, change_round, stop_timer. run_simp. cbn [expect]. run_simp.
  apply pf_prepend; [done|]. unfold emit. by apply pf_ok.
Qed.

Lemma fplus1_pf s frc :
  decided_state s = false -> tidy d s -> future_rcs (s_round s) frc ->
  max_faulty (nodes d) + 1 <= len frc -> Forall (fun m => round m <= I64_MAX) frc ->
  panic_free d (upon_fplus1_round_changes d inst p env (Some frc) s).
Proof.
  intros Hn Ht Hf Hlen Hmax. unfold upon_fplus1_round_changes. run_simp. cbn [expect]. run_simp.
  destruct (next_min_round_spec d frc (s_round s) Hd Hlen Hf Hmax) as (r & -> & Hr & Hin & _).
  apply list_elem_of_fmap in Hin as (m & -> & Hm). rewrite list.Forall_forall in Hmax.
  apply round_change_pf; [done|done|]. specialize (Hmax m Hm). cbn in Hmax. lia.
Qed.
End panics.

Section events.
Context (d : QDefinition) (Hd : valid_def d) (inst : Inst) (P Byz : gset Z).
Context (w : ASys) (p : Z) (env : Env).

(** No quorum of ROUND-CHANGEs for the first round can be received. *)
Hypothesis no_first_rcs : forall qrc,
  qrc_result d 1 qrc -> (forall m : Msg, m ∈ qrc -> genuine P Byz w m) -> False.

Lemma apply_rule_pf s (msg : Msg) all rule just :
  decided_state s = false -> tidy d s -> genuine P Byz w msg ->
  is_justified d inst msg (s_compare_failure_round s) = Ok true ->
  (forall x, x ∈ all -> genuine P Byz w x) ->
  classified d inst (s_round s) p all msg rule just -> rule <> UPON_NOTHING ->
  (rule = UPON_QUORUM_ROUND_CHANGES ->
   s_ppj_cache s = None /\ (UPON_QUORUM_ROUND_CHANGES, s_round s) ∈ s_dedup_rules s) ->
  panic_free d (apply_rule d inst p env rule msg just s).
Proof.
  intros Hn Ht (_ & Hwf & _) Hj Hall Hcl Hne Hppj. apply well_formed_spec in Hwf as (_ & Hr0 & _).
  destruct Hcl as [| Hty | Hty Hr | ps Hty Hr Hv Hq Hsub | cs Hty Hr Hv Hq Hsub
                  | frc Hty Hr Hf Hlen Hsub | qrc Hty Hr Hl Hq Hsub | Hty Hr];
    unfold apply_rule; cbn; [done|..].
  - unfold is_justified in Hj. rewrite Hty in Hj. cbn in Hj.
    apply is_justified_decided_spec in Hj as (_ & cs & Hv & Hq & Hsub); [|done].
    pose proof (quorum_size_pos (nodes d) (proj1 Hd)).
    destruct cs as [|c cs]; [unfold len in Hq; cbn in Hq; lia|].
    destruct (justification msg) as [|v0 qc]; [|apply decided_pf].
    exfalso. apply (not_elem_of_nil c), Hsub. by constructor.
  - apply pre_prepare_pf; [done..|lia].
  - unfold upon_quorum_prepares. run_simp. apply broadcast_pf; [done|]. intros _.
    destruct (Ht Hn) as (? & ? & ? & _). split_and!; cbn; try lia; [done|].
    right. exists ps. split_and!; cbn; try done; lia.
  - pose proof (quorum_size_pos (nodes d) (proj1 Hd)).
    destruct cs as [|c cs]; [unfold len in Hq; cbn in Hq; lia|]. apply decided_pf.
  - apply fplus1_pf; [done..|]. apply list.Forall_forall. intros m Hm.
    destruct (Hall m (Hsub m Hm)) as (_ & Hwf & _). by apply well_formed_spec in Hwf as (_ & [_ ?] & _).
  - apply quorum_rcs_pf; auto; by apply Hppj.
  - by apply pf_ok.
Qed.

Lemma receive_pf s (msg : Msg) :
  tidy d s -> buffer_ok P Byz w s -> genuine_all P Byz w msg ->
  panic_free d (on_receive d inst p env msg s).
Proof.
  intros Ht Hb Hg. destruct (decided_state s) eqn:Hn.
  { pose proof Hn as Hn'. unfold on_receive. run_simp. unfold decided_state in Hn'.
    destruct (s_q_commit s) as [[|v0 v]|]; [done| |done].
    destruct (_ && _); [by apply broadcast_pf|by apply pf_ok]. }
  rewrite on_receive_undecided by done. unfold consider. run_simp.
  pose proof Hg as ((_ & Hwf & _) & _ & Hnest). apply well_formed_spec in Hwf as (Hty & Hr & _).
  pose proof (Ht Hn) as (Hcfr & Hround & _).
  destruct (is_justified d inst msg (s_compare_failure_round s)) as [[]|e|] eqn:Ej; cbn [negb].
  2:{ by apply pf_ok. }
  2:{ apply pf_err. }
  2:{ apply pf_panic. destruct (decide (s_compare_failure_round s < I64_MAX)) as [Hlt|]; [|lia].
      destruct (is_justified_total d Hd inst msg (s_compare_failure_round s)) as [b Hb']; [done| |congruence].
      apply in_i64_spec. unfold I64_MIN. lia. }
  unfold buffer_msg. run_simp.
  match goal with |- context [classify _ _ _ _ _ (s_buffer ?x) _] => set (s1 := x) end.
  assert (tidy d s1) as Ht1 by done. assert (decided_state s1 = false) as Hn1 by done.
  assert (buffer_ok P Byz w s1) as Hb1 by by apply buffer_ok_insert.
  assert (s_compare_failure_round s1 = s_compare_failure_round s) as Hc1 by done.
  clearbody s1.
  destruct (classify_total d Hd (e_order env) inst (s_round s1) p (s_buffer s1) msg Hty)
    as [[rule just] Ec].
  { intros k l m Hl Hm. by destruct (Hb1 k l m Hl Hm) as (_ & _ & ?). }
  rewrite Ec. apply classify_spec in Ec as (all & Hall & Hcl); [|done|destruct (Ht1 Hn1); lia].
  destruct (Z.eqb_spec rule UPON_NOTHING) as [|Hne]; [by apply pf_ok|].
  unfold is_duplicated_rule. run_simp.
  set (s2 := s1 <| s_dedup_rules ::= union {[(rule, round msg)]} |>).
  assert (tidy d s2) as Ht2.
  { intros _. destruct (Ht1 Hn1) as (? & ? & Hp & ?). split_and!; cbn; try lia; [|done].
    intros Hc. destruct (Hp Hc); [by left|right]. set_solver. }
  case_bool_decide as Hin; [by apply pf_ok|].
  assert (forall x, x ∈ all -> genuine P Byz w x) as Hgen.
  { intros x Hx. eapply flatten_genuine; [exact Hb1|by apply (Hall x Hx)|done]. }
  apply apply_rule_pf with all; auto; [by destruct Hg|subst s2; cbn; by rewrite Hc1|].
  intros ->. inversion Hcl as [| | | | | |qrc ? Hrm ? Hq Hsub|].
  split; [|subst s2; cbn; rewrite Hrm; set_solver].
  destruct (Ht1 Hn1) as (_ & _ & Hp & _). cbn.
  destruct (s_ppj_cache s1) as [ppj|]; [exfalso|done].
  destruct Hp as [Hone|Hold]; [done| |apply Hin; by rewrite Hrm].
  rewrite Hone in Hq. apply (no_first_rcs qrc Hq). intros m Hm. by apply Hgen, Hsub.
Qed.

Lemma event_pf s (ev : Event) :
  tidy d s -> buffer_ok P Byz w s -> enabled s ev = true ->
  (forall m, ev = EvReceive (Some m) -> genuine_all P Byz w m) ->
  (decided_state s = true -> s_timer s = None) ->
  panic_free d (on_event d inst p env ev s).
Proof.
  intros Ht Hb He Hg Htimer.
  destruct ev as [|[v|]|[m|]|[]|[]]; cbn [on_event]; try by apply pf_err.
  - unfold on_input. run_simp. case_bool_decide; [by apply pf_err|]. run_simp.
    set (s1 := s <| s_input_value := v |>). assert (tidy d s1) as Ht1 by done. clearbody s1.
    destruct (s_ppj_cache s1) as [ppj|]; run_simp; [|by apply pf_ok].
    unfold broadcast_msg. run_simp. apply pf_prepend; [done|].
    destruct (sent_res env _) as [[]|e|] eqn:Es; [by apply pf_ok|apply pf_err|].
    by apply sent_not_panic in Es.
  - apply receive_pf; auto.
  - cbn in He. apply bool_decide_eq_true in He as [t Hs].
    apply timeout_pf; [done| |done]. destruct (decided_state s); [|done]. by rewrite Htimer in Hs.
  - by apply pf_ok.
Qed.

Lemma start_pf : panic_free d (start d inst p env initial_state).
Proof.
  unfold start. run_simp. unfold validate_definition.
  destruct (nodes d <=? 0); [apply pf_err|]. destruct (fifo_limit d <=? 0); [apply pf_err|]. run_simp.
  assert (tidy d initial_state) as Ht by (intros _; cbn; unfold I64_MAX; split_and!; try lia; try done; by left).
  assert (forall s, tidy d s -> panic_free d (new_timer s)) as Hnt.
  { intros s Hs. unfold new_timer. run_simp. apply pf_prepend; [done|]. by apply pf_ok. }
  destruct (is_leader _ _ _ _); run_simp; [|by apply Hnt].
  unfold broadcast_own_pre_prepare. run_simp. cbn [s_ppj_cache initial_state s_input_value].
  rewrite bool_decide_eq_true_2 by done. run_simp. apply Hnt.
  intros _. cbn. unfold I64_MAX. split_and!; try lia; by left.
Qed.
End events.

(** ** Proposals of a new round *)


(** ** One decision per run *)

Definition decided_count (s : RunState) : nat := if decided_state s then 1 else 0.

(** Every decision leaves the process decided, and a decided process makes no
    other. *)
Definition counted (s : RunState) (out : Outcome) : Prop :=
  let '(s', acts, _) := out in
  (length (decisions acts) + decided_count s <= decided_count s')%nat.

#[local] Arguments counted : simpl never.

Lemma counted_quiet s s' acts r :
  decisions acts = [] -> decided_state s' = decided_state s -> counted s (s', acts, r).
Proof. intros Ha Hs. unfold counted, decided_count. by rewrite Ha, Hs. Qed.

Lemma counted_prepend s acts (out : Outcome) :
  decisions acts = [] -> counted s out -> counted s (prepend acts out).
Proof.
  destruct out as [[s' acts'] r]. intros Ha. unfold counted. cbn. unfold decisions in *.
  by rewrite omap_app, Ha.
Qed.

Lemma counted_from s s1 (out : Outcome) :
  decided_state s1 = decided_state s -> counted s1 out -> counted s out.
Proof. intros Hs. destruct out as [[??]?]. unfold counted, decided_count. by rewrite Hs. Qed.

Section counting.
Context (d : QDefinition) (Hd : valid_def d) (inst : Inst) (p : Z) (env : Env).

Lemma broadcast_counted t v just s : counted s (broadcast_msg inst p env t v just s).
Proof. unfold broadcast_msg. run_simp. rewrite broadcast_eq. by apply counted_quiet. Qed.

Lemma round_change_counted r s :
  counted s ((change_round r ;; stop_timer ;; new_timer ;; broadcast_round_change inst p env) s).
Proof. rewrite round_change_eq. apply counted_quiet; [done|]. apply decided_in_round. Qed.

Lemma timeout_counted s : counted s (next_round_on_timeout inst p env s).
Proof.
  unfold next_round_on_timeout. run_simp.
  destruct (checked_add_i64 (s_round s) 1); cbn [expect]; [|by apply counted_quiet].
  apply round_change_counted.
Qed.

Lemma pre_prepare_counted s msg : counted s (upon_justified_pre_prepare inst p env msg s).
Proof.
  unfold upon_justified_pre_prepare, change_round, stop_timer, new_timer. run_simp.
  change (if s_round s =? round msg then s else _) with (in_round (round msg) s).
  apply counted_prepend; [done|]. apply counted_prepend; [done|].
  destruct (compare _ (e_compare env)) as [src result]. run_simp.
  match goal with |- counted s (_ ?x) => set (s2 := x) end.
  assert (decided_state s2 = decided_state s) as Hs by apply (decided_in_round (round msg) s).
  apply (counted_from s s2); [done|]. clearbody s2.
  destruct result as [u|[]|]; try (by apply counted_quiet).
  - apply broadcast_counted.
  - apply timeout_counted.
Qed.

Lemma own_pre_prepare_counted s just : counted s (broadcast_own_pre_prepare inst p env just s).
Proof.
  unfold broadcast_own_pre_prepare. run_simp. destruct (s_ppj_cache s); [by apply counted_quiet|].
  case_bool_decide; [by apply counted_quiet|apply broadcast_counted].
Qed.

Lemma quorum_rcs_counted s just : counted s (upon_quorum_round_changes d inst p env just s).
Proof.
  unfold upon_quorum_round_changes. run_simp.
  destruct just as [qrc|]; cbn [expect]; [|by apply counted_quiet]. run_simp.
  destruct (get_single_total d Hd qrc) as [[[pr pv]|] ->]; [|apply own_pre_prepare_counted].
  destruct (negb _); [apply broadcast_counted|apply own_pre_prepare_counted].
Qed.

Lemma decided_counted s msg v0 qc :
  decided_state s = false -> counted s (upon_decided msg (Some (v0 :: qc)) s).
Proof.
  intros Hs. unfold upon_decided, change_round, stop_timer. run_simp. cbn [expect]. run_simp.
  apply counted_prepend; [done|]. unfold counted, decided_count, emit. rewrite Hs. cbn. lia.
Qed.

(** The rules that decide carry a quorum. *)
Lemma deciding_rule s (msg : Msg) rule just :
  is_justified d inst msg (s_compare_failure_round s) = Ok true ->
  classify (e_order env) d inst (s_round s) p (s_buffer s) msg = Ok (rule, just) ->
  rule = UPON_QUORUM_COMMITS \/ rule = UPON_JUSTIFIED_DECIDED ->
  exists v0 qc, just = Some (v0 :: qc).
Proof.
  intros Hj Hc Hrule. pose proof (quorum_size_pos (nodes d) (proj1 Hd)) as Hpos.
  assert (forall l : list Msg, quorum_size (nodes d) <= len l -> exists v0 qc, l = v0 :: qc) as Hne.
  { intros [|v0 qc] Hl; [unfold len in Hl; cbn in Hl; lia|eauto]. }
  unfold classify in Hc. destruct (type_ msg =? MSG_DECIDED) eqn:E1.
  { injection Hc as <- <-. zbool. unfold is_justified in Hj. rewrite E1 in Hj. cbn in Hj.
    apply is_justified_decided_spec in Hj as (_ & cs & _ & Hq & Hsub); [|done].
    destruct (Hne cs Hq) as (c & cs' & ->).
    destruct (justification msg) as [|v0 qc]; [|eauto].
    exfalso. apply (not_elem_of_nil c), Hsub. by constructor. }
  destruct (type_ msg =? MSG_PRE_PREPARE).
  { destruct (round msg <? s_round s); simplify_eq; by destruct Hrule. }
  destruct (type_ msg =? MSG_PREPARE).
  { destruct (negb _); [simplify_eq; by destruct Hrule|].
    apply res_bind_Ok in Hc as (all & _ & Hc). apply res_bind_Ok in Hc as (n & _ & Hc).
    destruct (_ <=? _); simplify_eq; by destruct Hrule. }
  destruct (type_ msg =? MSG_COMMIT).
  { destruct (negb _); [simplify_eq; by destruct Hrule|].
    apply res_bind_Ok in Hc as (all & _ & Hc). rewrite quorum_count_ok in Hc by done. cbn in Hc.
    destruct (Z.leb_spec (quorum_size (nodes d))
      (len (filter_by_round_and_value all MSG_COMMIT (round msg) (value msg)))) as [Hq|];
      simplify_eq; [|by destruct Hrule].
    destruct (Hne _ Hq) as (v0 & qc & ->). eauto. }
  destruct (type_ msg =? MSG_ROUND_CHANGE); [|done].
  destruct (_ <? _); [simplify_eq; by destruct Hrule|].
  apply res_bind_Ok in Hc as (all & _ & Hc). destruct (_ <? _).
  - apply res_bind_Ok in Hc as ([frc|] & _ & Hc); simplify_eq; by destruct Hrule.
  - apply res_bind_Ok in Hc as (n & _ & Hc). destruct (_ <? _); [simplify_eq; by destruct Hrule|].
    apply res_bind_Ok in Hc as ([qrc|] & _ & Hc); [|simplify_eq; by destruct Hrule].
    destruct (negb _); simplify_eq; by destruct Hrule.
Qed.

Lemma apply_rule_counted s msg rule just :
  decided_state s = false ->
  (rule = UPON_QUORUM_COMMITS \/ rule = UPON_JUSTIFIED_DECIDED -> exists v0 qc, just = Some (v0 :: qc)) ->
  counted s (apply_rule d inst p env rule msg just s).
Proof.
  intros Hs Hj. unfold apply_rule.
  destruct (_ =? _); [apply pre_prepare_counted|].
  destruct (_ =? _).
  { unfold upon_quorum_prepares. run_simp. eapply counted_from; [|apply broadcast_counted]. done. }
  destruct ((rule =? UPON_QUORUM_COMMITS) || (rule =? UPON_JUSTIFIED_DECIDED)) eqn:E.
  { destruct Hj as (v0 & qc & ->); [|by apply decided_counted].
    apply orb_true_iff in E as [E|E]; zbool; auto. }
  clear E. destruct (_ =? UPON_F_PLUS1_ROUND_CHANGES).
  { unfold upon_fplus1_round_changes. run_simp.
    destruct just as [frc|]; cbn [expect]; [|by apply counted_quiet]. run_simp.
    destruct (next_min_round _ _ _); try by apply counted_quiet. apply round_change_counted. }
  destruct (_ =? _); [apply quorum_rcs_counted|].
  destruct (_ =? _); by apply counted_quiet.
Qed.

Lemma receive_counted s msg : counted s (on_receive d inst p env msg s).
Proof.
  destruct (decided_state s) eqn:Hn.
  { pose proof Hn as Hn'. unfold on_receive. run_simp. unfold decided_state in Hn'.
    destruct (s_q_commit s) as [[|v0 v]|]; [done| |done].
    destruct (_ && _); [apply broadcast_counted|by apply counted_quiet]. }
  rewrite on_receive_undecided by done. unfold consider. run_simp.
  destruct (is_justified _ _ _ _) as [[]|e|] eqn:Ej; cbn [negb]; try by apply counted_quiet.
  unfold buffer_msg. run_simp.
  match goal with |- context [classify _ _ _ _ _ (s_buffer ?x) _] => set (s1 := x) end.
  assert (decided_state s1 = false) as Hn1 by done.
  rewrite <-Hn in Hn1. apply (counted_from s s1); [done|]. rewrite Hn in Hn1.
  change (s_compare_failure_round s) with (s_compare_failure_round s1) in Ej. clearbody s1.
  destruct (classify _ _ _ _ _ _ _) as [[rule just]|e|] eqn:Ec; try by apply counted_quiet.
  destruct (rule =? UPON_NOTHING); [by apply counted_quiet|].
  unfold is_duplicated_rule. run_simp. case_bool_decide; [by apply counted_quiet|].
  eapply counted_from; [|apply apply_rule_counted; [done|by apply (deciding_rule s1 msg)]]. done.
Qed.

Lemma event_counted s ev : counted s (on_event d inst p env ev s).
Proof.
  destruct ev as [|[v|]|[m|]|[]|[]]; cbn [on_event]; try by apply counted_quiet.
  - unfold on_input. run_simp. case_bool_decide; [by apply counted_quiet|]. run_simp.
    destruct (s_ppj_cache _) as [ppj|]; run_simp; [|by apply counted_quiet].
    unfold broadcast_msg. run_simp. apply counted_prepend; [done|].
    destruct (sent_res env _) as [[]|e|]; by apply counted_quiet.
  - apply receive_counted.
  - apply timeout_counted.
Qed.

Lemma start_counted : counted initial_state (start d inst p env initial_state).
Proof.
  unfold start. run_simp. destruct (validate_definition d); try by apply counted_quiet. run_simp.
  assert (forall s, counted s (new_timer s)) as Hnt.
  { intros s. unfold new_timer. run_simp. apply counted_prepend; [done|]. by apply counted_quiet. }
  destruct (is_leader _ _ _ _); run_simp; [|by apply Hnt].
  unfold broadcast_own_pre_prepare. run_simp. cbn [s_ppj_cache initial_state s_input_value].
  rewrite bool_decide_eq_true_2 by done. run_simp. eapply counted_from; [|apply Hnt]. done.
Qed.
End counting.

Lemma run_loop_counted d inst p evs s :
  valid_def d ->
  (length (decisions (fst (@run_loop Inst Value Compare _ _ _ d inst p evs s))) + decided_count s <= 1)%nat.
Proof.
  intros Hd. revert s. induction evs as [|[env ev] evs IH]; intros s; cbn.
  { unfold decided_count. destruct (decided_state s); cbn; lia. }
  destruct (enabled s ev); cbn; [|unfold decided_count; destruct (decided_state s); cbn; lia].
  pose proof (event_counted d Hd inst p env s ev) as Hc.
  destruct (on_event d inst p env ev s) as [[s' acts] r]. unfold counted in Hc.
  assert (decided_count s' <= 1)%nat by (unfold decided_count; destruct (decided_state s'); lia).
  destruct r as [u|e|]; cbn [fst]; [|lia|lia].
  specialize (IH s'). destruct (run_loop d inst p evs s') as [acts' o]. cbn [fst] in *.
  unfold decisions in *. rewrite omap_app, length_app. lia.
Qed.

(** A process decides at most once, whatever messages, timeouts and
    cancellations its event loop sees. *)
Theorem run_decides_once d inst p env evs :
  valid_def d -> (length (decisions (fst (@run Inst Value Compare _ _ _ d inst p env evs))) <= 1)%nat.
Proof.
  intros Hd. unfold run. pose proof (start_counted d inst p env) as Hc.
  destruct (start d inst p env initial_state) as [[s acts] r]. unfold counted in Hc.
  assert (decided_count s <= 1)%nat by (unfold decided_count; destruct (decided_state s); lia).
  destruct r as [u|e|]; cbn [fst]; [|lia|lia].
  pose proof (run_loop_counted d inst p evs s Hd) as Hl.
  destruct (run_loop d inst p evs s) as [acts' o]. cbn [fst] in *.
  unfold decisions in *. rewrite omap_app, length_app. lia.
Qed.

(** ** The cluster *)

Section theorems.
Context (d : QDefinition) (inst : Inst) (P Byz : gset Z).

(** [nodes] participants, at most [(nodes - 1) / 3] of them faulty. *)
Definition cluster : Prop :=
  valid_def d /\ Z.of_nat (size P) = nodes d /\ Z.of_nat (size Byz) <= max_faulty (nodes d).

Lemma cluster_quorums : cluster -> (size P + size Byz < 2 * q d)%nat.
Proof.
  intros ((Hn & _) & HP & HB). pose proof (quorum_overlap (nodes d) Hn).
  pose proof (quorum_size_pos (nodes d) Hn). unfold q. lia.
Qed.

(** A correct process only asks for rounds after the first. *)
Lemma round_changes_after_first w p r pr pv :
  sys_reachable value_default P Byz (q d) w -> (p, VRoundChange r pr pv) ∈ w_votes w -> 2 <= r.
Proof.
  intros Hr. revert p r pr pv.
  apply (rtc_ind_r (R := sys_step value_default P Byz (q d)) (fun w => forall p r pr pv,
    (p, VRoundChange r pr pv) ∈ w_votes w -> 2 <= r) (w_initial value_default)); [| |done].
  - intros p r pr pv Hx. by apply elem_of_nil in Hx.
  - intros w1 w2 Hreach Hstep IH p r pr pv.
    pose proof (reachable_inv value_default P Byz (q d) w1 Hreach) as I.
    destruct Hstep as [p' a' vs acc dec HP HB Hdn Hn].
    intros [[-> Hin]|Hin]%(after_votes w1 p' p a' vs acc dec); [|by eapply IH].
    destruct (ni_round _ _ _ _ _ _ (I p')) as [Hround|]; [|congruence].
    inversion Hn; subst; try (by apply elem_of_nil in Hin);
      apply list_elem_of_singleton in Hin; simplify_eq; lia.
Qed.

Lemma first_round_has_no_rcs w (qrc : list Msg) :
  cluster -> sys_reachable value_default P Byz (q d) w ->
  qrc_result d 1 qrc -> (forall m, m ∈ qrc -> genuine P Byz w m) -> False.
Proof.
  intros Hc Hr Hq Hg. pose proof (cluster_quorums Hc) as Hover.
  assert (exists l, rc_quorum d 1 l /\ l ⊆ qrc) as (l & (Hnd & Hlen & Hall) & Hsub).
  { destruct Hq as [[? _]|(l & ps & pr & pv & -> & ? & _)]; [by exists qrc|].
    exists l. split; [done|]. set_solver. }
  set (X := list_to_set (source <$> l) : gset Z).
  assert (X ⊆ P) as HX.
  { intros x (m & -> & Hm)%elem_of_list_to_set%list_elem_of_fmap. by apply Hg, Hsub. }
  assert (q d <= size X)%nat as Hsz.
  { unfold X. rewrite size_list_to_set_NoDup, length_fmap by done. unfold q, len in *. lia. }
  destruct (size_gt_not_subseteq X Byz) as (p & Hp & HB).
  { apply subseteq_size in HX. lia. }
  apply elem_of_list_to_set, list_elem_of_fmap in Hp as (m & -> & Hm).
  rewrite list.Forall_forall in Hall. destruct (Hall m Hm) as (Ht & Hrd & _).
  destruct (Hg m (Hsub m Hm)) as (_ & _ & Hv).
  assert (2 <= 1); [|lia].
  eapply (round_changes_after_first w (source m) 1); [done|].
  apply (cast_correct P Byz w); [|done]. apply Hv. unfold msg_vote. by rewrite Ht, Hrd.
Qed.

Abbreviation Net := (@Net Inst Value Compare).
Abbreviation net_reachable := (net_reachable d inst P Byz).

(** A participant's locals, or the state it stopped in. *)
Definition node_tidy (net : Net) (p : Z) : Prop :=
  match n_status net p with
  | Idle => True
  | Running s => tidy d s
  | Stopped s r => r = Panic -> s_round s = I64_MAX
  end.

Definition net_tidy (net : Net) : Prop :=
  (forall p, node_tidy net p) /\
  (forall b, b ∈ n_sent net -> b_type b = MSG_ROUND_CHANGE -> rc_accepted d b).

Lemma settle_tidy net p rcv (out : Outcome) :
  panic_free d out -> net_tidy net -> net_tidy (settle net p rcv out).
Proof.
  destruct out as [[s acts] r]. intros (Hp & Ho & Hb) [Hn Hs]. split.
  - intros p'. specialize (Hn p'). unfold node_tidy in *. cbn.
    destruct (decide (p' = p)) as [->|Hne]; [|by rewrite fn_lookup_insert_ne].
    rewrite fn_lookup_insert. destruct r as [[]|e|]; auto; done.
  - intros b [Hin|Hin]%elem_of_app; auto.
Qed.

Lemma reachable_tidy net : cluster -> net_reachable net -> net_tidy net.
Proof.
  intros Hc Hr. pose proof Hc as (Hd & _).
  apply (rtc_ind_r (R := net_step d inst P Byz) net_tidy net_initial); [| |done].
  { split; [done|]. by intros b ?%elem_of_nil. }
  intros net1 net2 Hreach Hstep IH.
  destruct (net_reachable_sim d inst P Byz net1 Hd Hreach) as (w & Hw & S).
  destruct Hstep as [p env net' E|p env ev net' E].
  - unfold net_start in E. destruct (n_status net1 p); [|done|done].
    destruct (_ && _); [|done]. injection E as <-. apply settle_tidy; [|done]. apply start_pf.
  - unfold net_event in E. pose proof (proj1 IH p) as Hp. unfold node_tidy in Hp.
    pose proof (sim_node _ _ _ _ _ _ S p) as Hn.
    destruct (n_status net1 p) as [|s|]; [done| |done].
    destruct (bool_decide (p ∈ P) && bool_decide (p ∉ Byz) && enabled s ev
      && deliverable P Byz (n_sent net1) ev) eqn:Eb; [|done].
    injection E as <-. zbool. destruct Hn as [Ha Hbuf]; [done..|].
    apply settle_tidy; [|done]. apply event_pf with P Byz w; auto.
    + intros qrc. by apply first_round_has_no_rcs.
    + intros m ->. by eapply deliverable_genuine.
    + intros Hdec. unfold abs in Ha. rewrite Hdec in Ha. by destruct Ha.
Qed.

(** Every process receives one proposal per round from the round's leader. *)
Definition one_proposal_per_round (net : Net) : Prop :=
  forall p m t m' t', (p, m, t) ∈ n_received net -> (p, m', t') ∈ n_received net ->
    type_ m = MSG_PRE_PREPARE -> type_ m' = MSG_PRE_PREPARE ->
    is_leader d inst (round m) (source m) = true -> is_leader d inst (round m') (source m') = true ->
    round m = round m' -> value m = value m'.

(** The comparison of a process that passed a value does not fail it later. *)
Definition stable_verdicts (net : Net) : Prop :=
  forall p m t m' t', (p, m, t) ∈ n_received net -> (p, m', t') ∈ n_received net ->
    value m = value m' -> verdict t = Some true -> verdict t' <> Some false.

Lemma proposals_single net w :
  sim d inst P Byz net w -> one_proposal_per_round net -> single_proposals w.
Proof.
  intros S Hone p r v v' ok ok' Ha Ha'.
  apply (sim_accepted _ _ _ _ _ _ S) in Ha as (m & t & Hin & ? & ? & Hr & <- & _).
  apply (sim_accepted _ _ _ _ _ _ S) in Ha' as (m' & t' & Hin' & ? & ? & Hr' & <- & _).
  eapply Hone; eauto. congruence.
Qed.

Lemma verdicts_stable net w :
  sim d inst P Byz net w -> stable_verdicts net -> stable_comparisons w.
Proof.
  intros S Hst p r r' v Ha Ha'.
  apply (sim_accepted _ _ _ _ _ _ S) in Ha as (m & t & Hin & _ & _ & _ & Hv & Ht).
  apply (sim_accepted _ _ _ _ _ _ S) in Ha' as (m' & t' & Hin' & _ & _ & _ & Hv' & Ht').
  eapply Hst; [exact Hin|exact Hin'| |done|done]. congruence.
Qed.


(** C2: agreement within a round.  Two correct participants that decide in the
    same round decide the same value, whatever the faulty participants send:
    not even an equivocating leader can split a round. *)
Theorem round_agreement net p p' r v v' :
  cluster -> net_reachable net ->
  (p, r, v) ∈ n_decided net -> (p', r, v') ∈ n_decided net -> v = v'.
Proof.
  intros Hc Hr Hd Hd'.
  destruct (net_reachable_sim d inst P Byz net (proj1 Hc) Hr) as (w & Hw & S).
  eapply (same_round_agreement value_default P Byz (q d) (cluster_quorums Hc) w Hw);
    eapply sim_decided; eauto.
Qed.

(** C15: validity.  A decided value was proposed for that round: some correct
    participant received it in a PRE-PREPARE from the round's leader, and its
    comparison accepted it. *)
Theorem validity net p r v :
  cluster -> net_reachable net -> (p, r, v) ∈ n_decided net ->
  exists k m t, (k ∉ Byz) /\ (k, m, t) ∈ n_received net /\ type_ m = MSG_PRE_PREPARE /\
    is_leader d inst r (source m) = true /\ round m = r /\ value m = v /\ verdict t = Some true.
Proof.
  intros Hc Hr Hdec.
  destruct (net_reachable_sim d inst P Byz net (proj1 Hc) Hr) as (w & Hw & S).
  pose proof (reachable_inv value_default P Byz (q d) w Hw) as I.
  apply (sim_decided _ _ _ _ _ _ S), (ni_decided _ _ _ _ _ _ (I p)) in Hdec.
  pose proof (cluster_quorums Hc) as Hq.
  destruct (commit_quorum_prepares value_default P Byz (q d) Hq w Hw r v Hdec) as [Hp _].
  destruct (vote_quorums_meet P Byz (q d) Hq w _ _ Hp Hp) as (k & HB & Hk & _).
  apply (ni_prepare_accepted _ _ _ _ _ _ (I k)), (sim_accepted _ _ _ _ _ _ S) in Hk
    as (m & t & Hin & Ht & Hl & <- & Hv & Hvd).
  by exists k, m, t.
Qed.

(** C13: no message of a faulty participant makes a correct one panic.  When
    the event loop of a correct participant has ended before round [i64::MAX],
    it returned an error: no assertion, [expect] or overflow check fired. *)
Theorem no_panic net p s r :
  cluster -> net_reachable net -> n_status net p = Stopped s r -> s_round s < I64_MAX -> r <> Panic.
Proof.
  intros Hc Hr Hs Hlt ->. destruct (reachable_tidy net Hc Hr) as [Hn _].
  specialize (Hn p). unfold node_tidy in Hn. rewrite Hs in Hn. specialize (Hn eq_refl). lia.
Qed.

(** Every ROUND-CHANGE a correct participant broadcasts is justified for
    its receivers: the prepared round, value and quorum it carries pass
    [is_justified_round_change]. *)
Theorem round_changes_justified net b m :
  cluster -> net_reachable net -> b ∈ n_sent net -> b_type b = MSG_ROUND_CHANGE ->
  same_body b m = true -> justification m = default [] (b_justification b) ->
  is_justified_round_change d m = Ok true.
Proof.
  intros Hc Hr Hb Ht Hs Hj. destruct (reachable_tidy net Hc Hr) as [_ Hn].
  by apply (Hn b Hb Ht).
Qed.

(** C14: refinement.  Everything the event loops of the correct participants do
    is a run of the abstract protocol: there is a reachable protocol state in
    which the messages they broadcast are votes and their decisions are
    decisions, each backed by a quorum of COMMITs. *)
Theorem network_refines_protocol net :
  valid_def d -> net_reachable net ->
  exists w, sys_reachable value_default P Byz (q d) w /\
    (forall b x, b ∈ n_sent net -> req_vote b = Some x -> (b_source b, x) ∈ w_votes w) /\
    (forall p r v, (p, r, v) ∈ n_decided net ->
       (p, r, v) ∈ w_decided w /\ vote_quorum P Byz (q d) w (VCommit r v)).
Proof.
  intros Hd Hr. destruct (net_reachable_sim d inst P Byz net Hd Hr) as (w & Hw & S).
  exists w. split_and!; [done|by intros b x; apply (sim_sent _ _ _ _ _ _ S)|].
  intros p r v Hdec. apply (sim_decided _ _ _ _ _ _ S) in Hdec. split; [done|].
  eapply ni_decided, Hdec. by apply (reachable_inv value_default).
Qed.
End theorems.
End cluster.
