(* ===== verification/QbftRuns.v ===== *)
(** * Runs of a QBFT cluster of four

    Executions of [QbftNet] with concrete values: a run in which every correct
    participant decides, and a run in which a faulty leader makes two correct
    participants decide differently. *)

From S2P Require Import Prelude Qbft QbftFacts QbftSpec QbftNet QbftCluster.

Open Scope Z_scope.

(** Values are integers, 0 the default; nothing is compared. *)
#[global] Instance run_defaults : @QbftDefaults Z unit :=
  {| value_default := 0; compare_default := tt |}.

Abbreviation Msg := (@Msg unit Z unit).
Abbreviation Event := (@Event unit Z unit).
Abbreviation Env := (@Env unit Z unit).
Abbreviation Net := (@Net unit Z unit).

(** Four nodes that lead in turns; the third is faulty. *)
Definition four : @QDefinition unit :=
  {| is_leader := fun _ r p => p =? r mod 4; nodes := 4; fifo_limit := 100 |}.
Definition members : gset Z := {[0; 1; 2; 3]}.
Definition traitor : gset Z := {[2]}.

Lemma four_cluster : cluster four members traitor.
Proof. unfold cluster, valid_def. vm_compute. split_and!; congruence. Qed.

(** Broadcasts succeed and comparisons pass. *)
Definition env_with (ho : HashOrder) : Env :=
  {| e_order := ho; e_broadcast := fun _ => None;
     e_compare := {| cmp_iters := []; cmp_exit := XErr None [] false |} |}.

Definition msg (t src rnd v pr pv : Z) (js : list Msg) : Msg :=
  {| type_ := t; instance := tt; source := src; round := rnd; value := v;
     value_source := Ok tt; prepared_round := pr; prepared_value := pv; justification := js |}.

Definition pre_prepare src rnd v js := msg MSG_PRE_PREPARE src rnd v 0 0 js.
Definition prepare rnd v src := msg MSG_PREPARE src rnd v 0 0 [].
Definition commit rnd v src := msg MSG_COMMIT src rnd v 0 0 [].
Definition round_change rnd pr pv js src := msg MSG_ROUND_CHANGE src rnd 0 pr pv js.

Definition step := (Z * Env * option Event)%type.
Definition begin (p : Z) : step := (p, env_with default_order, None).
Definition on (ev : Event) (p : Z) : step := (p, env_with default_order, Some ev).
Definition deliver (ms : list Msg) (p : Z) : list step :=
  (fun m => on (EvReceive (Some m)) p) <$> ms.

Definition exec (script : list step) : option Net := net_exec four tt members traitor script net_initial.

(** ** A run that decides *)

Definition good_run : list step :=
  (begin <$> [0; 1; 3]) ++ [on (EvInput (Some 7)) 1] ++
  ([0; 1; 3] ≫= deliver [pre_prepare 1 1 7 []]) ++
  ([0; 1; 3] ≫= deliver (prepare 1 7 <$> [0; 1; 3])) ++
  ([0; 1; 3] ≫= deliver (commit 1 7 <$> [0; 1; 3])).

(** ** A run that splits *)

Definition first_rcs : list Msg := round_change 2 0 0 [] <$> [0; 1; 2].
Definition prepares_7 : list Msg := prepare 2 7 <$> [0; 2; 3].
Definition prepares_8 : list Msg := prepare 2 8 <$> [1; 2; 3].
Definition second_rcs : list Msg :=
  [round_change 3 2 8 prepares_8 1; round_change 3 2 8 prepares_8 2; round_change 3 2 7 prepares_7 3].

(** What goes over the wire: justifications do not carry their own. *)
Definition bare (m : Msg) : Msg :=
  msg (type_ m) (source m) (round m) (value m) (prepared_round m) (prepared_value m) [].

Definition split_run (ho : HashOrder) : list step :=
  (* the first round fails at 0 and 1; 3 is slower *)
  (begin <$> [0; 1; 3]) ++ (on (EvTimer true) <$> [0; 1]) ++
  (* the leader of round 2 sends 7 to 0, 8 to 1, and both to 3 *)
  deliver [pre_prepare 2 2 7 first_rcs; pre_prepare 2 2 8 first_rcs] 3 ++
  deliver [pre_prepare 2 2 7 first_rcs] 0 ++ deliver [pre_prepare 2 2 8 first_rcs] 1 ++
  (* 0 and 3 prepare and commit 7, and 0 decides *)
  ([0; 3] ≫= deliver prepares_7) ++ deliver (commit 2 7 <$> [0; 2; 3]) 0 ++
  (* 1 prepares 8; 1 and 3 time out *)
  deliver prepares_8 1 ++ (on (EvTimer true) <$> [1; 3]) ++
  (* 3 leads round 3 and proposes 8 *)
  ((fun m => (3, env_with ho, Some (EvReceive (Some m)))) <$> second_rcs) ++
  ([1; 3] ≫= deliver [pre_prepare 3 3 8 ((bare <$> second_rcs) ++ prepares_8)]) ++
  ([1; 3] ≫= deliver (prepare 3 8 <$> [1; 2; 3])) ++
  ([1; 3] ≫= deliver (commit 3 8 <$> [1; 2; 3])).

(** What a check that computes on the final state of a run shows. *)
Definition run_check (script : list step) (check : Net -> bool) : bool :=
  match exec script with Some net => check net | None => false end.

Lemma run_checked script check :
  run_check script check = true ->
  exists net, net_reachable four tt members traitor net /\ check net = true.
Proof.
  unfold run_check. destruct (exec script) as [net|] eqn:E; [|done]. intros Hc.
  exists net. split; [|done]. eapply net_exec_reachable, E. apply rtc_refl.
Qed.

Definition no_comparison_fails (net : Net) : bool :=
  forallb (fun '(_, _, t) => negb (bool_decide (verdict t = Some false))) (n_received net).

Lemma stable_checked net : no_comparison_fails net = true -> stable_verdicts net.
Proof.
  unfold no_comparison_fails. rewrite forallb_forall. intros Hall p m t m' t' _ Hin _ _ Hf.
  apply list_elem_of_In, Hall in Hin. by rewrite Hf in Hin.
Qed.

Definition decides (net : Net) (p r v : Z) : bool := bool_decide ((p, r, v) ∈ n_decided net).

(** C17: agreement needs its hypothesis on proposals.  A process that joins a
    round on a PRE-PREPARE records the rule before [change_round] empties the
    record, so it prepares a second proposal for the same round.  With one
    faulty participant among four, this lets two correct participants decide 7
    and 8 although every comparison passed. *)
Theorem two_proposals_split_the_cluster :
  exists net, cluster four members traitor /\ net_reachable four tt members traitor net /\
    no_comparison_fails net = true /\ stable_verdicts net /\
    (0, 2, 7) ∈ n_decided net /\ (1, 3, 8) ∈ n_decided net.
Proof.
  destruct (run_checked (split_run reverse_order)
    (fun net => no_comparison_fails net && decides net 0 2 7 && decides net 1 3 8))
    as (net & Hr & Hc); [by vm_compute|].
  apply andb_true_iff in Hc as [Hc H8]. apply andb_true_iff in Hc as [Hc H7].
  exists net. split_and!; [apply four_cluster|done|done|by apply stable_checked| |].
  - by apply bool_decide_eq_true in H7.
  - by apply bool_decide_eq_true in H8.
Qed.

(** ** The theorems of [QbftCluster] on these runs *)

Definition run_net (script : list step) : Net :=
  match exec script with Some net => net | None => net_initial end.

Lemma run_net_reachable script :
  run_check script (fun _ => true) = true -> net_reachable four tt members traitor (run_net script).
Proof.
  unfold run_check, run_net. destruct (exec script) as [net|] eqn:E; [|done]. intros _.
  eapply net_exec_reachable, E. apply rtc_refl.
Qed.

Definition proposals_agree (net : Net) : bool :=
  forallb (fun '(p, m, _) => forallb (fun '(p', m', _) =>
    negb ((p =? p') && (type_ m =? MSG_PRE_PREPARE) && (type_ m' =? MSG_PRE_PREPARE)
          && (round m =? round m')) || (value m =? value m')) (n_received net)) (n_received net).

Lemma proposals_checked net :
  proposals_agree net = true -> one_proposal_per_round four tt net.
Proof.
  unfold proposals_agree. rewrite forallb_forall. intros Hall p m t m' t' Hin Hin' Ht Ht' _ _ Hr.
  apply list_elem_of_In, Hall in Hin. rewrite forallb_forall in Hin.
  apply list_elem_of_In, Hin in Hin'.
  rewrite Ht, Ht', Hr, !Z.eqb_refl in Hin'. cbn in Hin'. by apply Z.eqb_eq.
Qed.

Lemma decides_checked net p r v : decides net p r v = true -> (p, r, v) ∈ n_decided net.
Proof. apply bool_decide_eq_true. Qed.

Definition good_net : Net := run_net good_run.
Definition split_net : Net := run_net (split_run reverse_order).
Definition canceled_net : Net := run_net [begin 0; on EvCanceled 0].


Lemma round_agreement_witness : exists v, (1, 3, v) ∈ n_decided split_net /\ v = 8.
Proof.
  exists 8. assert ((1, 3, 8) ∈ n_decided split_net) as H1 by (apply decides_checked; by vm_compute).
  split; [exact H1|]. apply (round_agreement four tt members traitor split_net 1 3 3 8 8).
  - apply four_cluster.
  - apply run_net_reachable. by vm_compute.
  - exact H1.
  - apply decides_checked. by vm_compute.
Defined.

Lemma validity_witness : exists k m t, (k, m, t) ∈ n_received split_net /\ value m = 7.
Proof.
  destruct (validity four tt members traitor split_net 0 2 7) as (k & m & t & _ & Hin & _ & _ & _ & Hv & _).
  - apply four_cluster.
  - apply run_net_reachable. by vm_compute.
  - apply decides_checked. by vm_compute.
  - exists k, m, t. split; [exact Hin|exact Hv].
Defined.

Lemma no_panic_witness :
  exists s r, n_status canceled_net 0 = Stopped s r /\ s_round s = 1 /\ r <> Panic.
Proof.
  destruct (n_status canceled_net 0) as [|s|s r] eqn:E; [by vm_compute in E|by vm_compute in E|].
  assert (s_round s = 1) as Hs.
  { assert (match n_status canceled_net 0 with Stopped s _ => s_round s | _ => 0 end = 1) as H1
      by (by vm_compute). by rewrite E in H1. }
  exists s, r. split; [reflexivity|]. split; [exact Hs|].
  apply (no_panic four tt members traitor canceled_net 0 s r).
  - apply four_cluster.
  - apply run_net_reachable. by vm_compute.
  - exact E.
  - rewrite Hs. reflexivity.
Defined.

Definition sent_round_change (net : Net) (src rnd : Z) : option (@BroadcastRequest unit Z unit) :=
  find (fun b => (b_type b =? MSG_ROUND_CHANGE) && (b_source b =? src) && (b_round b =? rnd)) (n_sent net).

(** The ROUND-CHANGE of node 1, which prepared 8 in round 2. *)
Lemma round_changes_justified_witness :
  is_justified_round_change four (round_change 3 2 8 (reverse prepares_8) 1) = Ok true.
Proof.
  destruct (sent_round_change split_net 1 3) as [b|] eqn:E; [|by vm_compute in E].
  pose proof (find_some _ _ E) as [Hin%list_elem_of_In _].
  apply (round_changes_justified four tt members traitor split_net b).
  - apply four_cluster.
  - apply run_net_reachable. by vm_compute.
  - exact Hin.
  - vm_compute in E. by injection E as <-.
  - vm_compute in E. by injection E as <-.
  - vm_compute in E. by injection E as <-.
Defined.

(** The network after the run, seen as a run of the protocol. *)
Lemma network_refines_protocol_witness :
  exists w, (0, 2, 7) ∈ w_decided w /\ (1, 3, 8) ∈ w_decided w.
Proof.
  destruct (network_refines_protocol four tt members traitor split_net) as (w & _ & _ & Hdec).
  - apply four_cluster.
  - apply run_net_reachable. by vm_compute.
  - exists w. split; apply Hdec, decides_checked; by vm_compute.
Defined.

Definition round_one_messages : list Msg :=
  pre_prepare 1 1 7 [] :: (prepare 1 7 <$> [0; 1; 3]) ++ (commit 1 7 <$> [0; 1; 2; 3]).

Definition round_one : list (Env * Event) :=
  (fun m => (env_with default_order, EvReceive (Some m))) <$> round_one_messages.

Lemma run_decides_once_witness :
  decisions (fst (run four tt 0 (env_with default_order) round_one)) = [7] /\
  (length (decisions (fst (run four tt 0 (env_with default_order) round_one))) <= 1)%nat.
Proof. split; [by vm_compute|]. apply run_decides_once. apply four_cluster. Defined.

