(* ===== verification/Bytes.v ===== *)
(** * Bytes and integers on the wire

    Bytes as integers below 256, [to_le_bytes], [to_be_bytes] and their
    inverses, and splitting a buffer into chunks, for the codecs. *)

From Stdlib Require Import Ascii.
From S2P Require Import Prelude.

Definition is_byte (z : Z) : Prop := 0 <= z < 256.

#[global] Instance is_byte_dec z : Decision (is_byte z).
Proof. unfold is_byte. apply _. Defined.

(** [uN::to_le_bytes] with [n = N / 8], and [uN::from_le_bytes]. *)
Fixpoint le_bytes (n : nat) (z : Z) : list Z :=
  match n with
  | O => []
  | S n => z mod 256 :: le_bytes n (z / 256)
  end.

Fixpoint le_value (b : list Z) : Z :=
  match b with
  | [] => 0
  | x :: b => x + 256 * le_value b
  end.

(** [uN::to_be_bytes] and [uN::from_be_bytes]. *)
Definition be_bytes (n : nat) (z : Z) : list Z := reverse (le_bytes n z).
Definition be_value (b : list Z) : Z := le_value (reverse b).

(** [slice::chunks(n)]: the last chunk may be shorter.  The first argument
    bounds the number of chunks. *)
Fixpoint chunks_fuel {A} (fuel n : nat) (l : list A) : list (list A) :=
  match fuel, l with
  | _, [] => []
  | O, _ => []
  | S fuel, _ => take n l :: chunks_fuel fuel n (drop n l)
  end.
Definition chunks {A} (n : nat) (l : list A) : list (list A) := chunks_fuel (length l) n l.

(** The bytes of a text. *)
Definition bytes_of_string (s : string) : list Z := (fun c => Z.of_nat (nat_of_ascii c)) <$> String.list_ascii_of_string s.
Definition string_of_bytes (b : list Z) : string := String.string_of_list_ascii ((fun z => ascii_of_nat (Z.to_nat z)) <$> b).

(** [google.protobuf.Any]. *)
Record Any := { type_url : string; any_value : list Z }.

#[global] Instance Any_eq_dec : EqDecision Any.
Proof. solve_decision. Defined.

(** [skip_while(|x| x == 0)]. *)
Fixpoint drop_zeros (l : list Z) : list Z :=
  match l with
  | [] => []
  | x :: l => if x =? 0 then drop_zeros l else x :: l
  end.

(** The slice [l[a..b]], which panics outside of the list. *)
Definition slice {E A} (l : list A) (a b : Z) : res E (list A) :=
  if (0 <=? a) && (a <=? b) && (b <=? len l) then Ok (take (Z.to_nat (b - a)) (drop (Z.to_nat a) l)) else Panic.

(** ** Lemmas *)

Lemma length_le_bytes n z : length (le_bytes n z) = n.
Proof. revert z. induction n as [|n IH]; intros z; cbn; [done|]. by rewrite IH. Qed.

Lemma length_be_bytes n z : length (be_bytes n z) = n.
Proof. unfold be_bytes. by rewrite length_reverse, length_le_bytes. Qed.

Lemma le_bytes_byte n z : Forall is_byte (le_bytes n z).
Proof.
  revert z. induction n as [|n IH]; intros z; constructor; [|apply IH].
  unfold is_byte. pose proof (Z.mod_pos_bound z 256). lia.
Qed.

Lemma le_value_bytes n z : 0 <= z < 256 ^ Z.of_nat n -> le_value (le_bytes n z) = z.
Proof.
  revert z. induction n as [|n IH]; intros z Hz; cbn [le_bytes le_value].
  - change (256 ^ Z.of_nat 0) with 1 in Hz. lia.
  - rewrite Nat2Z.inj_succ, Z.pow_succ_r in Hz by lia. rewrite IH.
    + pose proof (Z.div_mod z 256). lia.
    + split; [apply Z.div_pos; lia|]. apply Z.div_lt_upper_bound; lia.
Qed.

Lemma le_value_bound b : Forall is_byte b -> 0 <= le_value b < 256 ^ len b.
Proof.
  induction 1 as [|x b Hx _ IH]; [done|]. cbn [le_value]. unfold len in *. cbn [length].
  rewrite Nat2Z.inj_succ, Z.pow_succ_r by lia. unfold is_byte in Hx. lia.
Qed.

Lemma le_bytes_value b : Forall is_byte b -> le_bytes (length b) (le_value b) = b.
Proof.
  induction 1 as [|x b Hx _ IH]; [done|]. cbn [length le_bytes le_value]. unfold is_byte in Hx.
  rewrite (Z.mul_comm 256), Z_mod_plus_full, Z.mod_small by lia. f_equal.
  rewrite Z_div_plus_full by lia. rewrite Z.div_small by lia. exact IH.
Qed.

Lemma be_value_bytes n z : 0 <= z < 256 ^ Z.of_nat n -> be_value (be_bytes n z) = z.
Proof. intros Hz. unfold be_value, be_bytes. rewrite reverse_involutive. by apply le_value_bytes. Qed.

Lemma le_value_zeros b n : le_value (b ++ replicate n 0) = le_value b.
Proof.
  induction b as [|x b IH]; cbn [app le_value]; [|by rewrite IH].
  induction n as [|n IH]; cbn [replicate le_value]; [done|]. by rewrite IH.
Qed.

Lemma le_value_snoc bs x : le_value (bs ++ [x]) = le_value bs + 2 ^ (8 * len bs) * x.
Proof.
  induction bs as [|y bs IH]; cbn [app le_value]; [unfold len; cbn; lia|].
  rewrite IH. unfold len. cbn [length]. rewrite Nat2Z.inj_succ, Z.mul_succ_r, Z.pow_add_r by lia. lia.
Qed.

Lemma be_value_cons x l : be_value (x :: l) = x * 2 ^ (8 * len l) + be_value l.
Proof. unfold be_value, len. rewrite reverse_cons, le_value_snoc. unfold len. rewrite length_reverse. lia. Qed.

Lemma drop_zeros_app k l : drop_zeros (replicate k 0 ++ l) = drop_zeros l.
Proof. by induction k. Qed.

Lemma drop_zeros_form l : exists k, l = replicate k 0 ++ drop_zeros l.
Proof.
  induction l as [|x l [k IH]]; [by exists 0%nat|]. cbn [drop_zeros]. destruct (Z.eqb_spec x 0) as [->|].
  - exists (S k). cbn. by rewrite <-IH.
  - by exists 0%nat.
Qed.

Lemma be_value_drop_zeros l : be_value (drop_zeros l) = be_value l.
Proof.
  destruct (drop_zeros_form l) as [k E]. rewrite E at 2. unfold be_value.
  by rewrite reverse_app, reverse_replicate, le_value_zeros.
Qed.

Lemma slice_app {E A} (a b c : list A) : slice (a ++ b ++ c) (len a) (len a + len b) = @Ok E _ b.
Proof.
  unfold slice, len. rewrite !length_app.
  rewrite (proj2 (Z.leb_le _ _)), (proj2 (Z.leb_le _ _)), (proj2 (Z.leb_le _ _)) by lia. cbn [andb].
  rewrite Nat2Z.id, drop_app_length. replace (Z.to_nat _) with (length b) by lia. by rewrite take_app_length.
Qed.

Lemma slice_ok {E A} (l : list A) a b : 0 <= a <= b -> b <= len l -> exists s, slice l a b = @Ok E _ s /\ len s = b - a.
Proof.
  intros Hab Hb. unfold slice.
  rewrite (proj2 (Z.leb_le _ _)), (proj2 (Z.leb_le _ _)), (proj2 (Z.leb_le _ _)) by lia. eexists. split; [done|].
  unfold len in *. rewrite length_take, length_drop. lia.
Qed.

(** Whole chunks are recovered from their concatenation. *)
Lemma chunks_fuel_concat {A} (n : nat) (cs : list (list A)) fuel :
  (0 < n)%nat -> Forall (fun c => length c = n) cs -> (length cs <= fuel)%nat ->
  chunks_fuel fuel n (concat cs) = cs.
Proof.
  intros Hn. revert fuel. induction cs as [|c cs IH]; intros fuel Hc Hf; [by destruct fuel|].
  apply list.Forall_cons in Hc as [Hc Hcs]. destruct fuel as [|fuel]; [cbn in Hf; lia|].
  cbn [concat]. assert (c ++ concat cs <> []) as Hne.
  { destruct c; [cbn in Hc; lia|done]. }
  destruct (c ++ concat cs) as [|a r] eqn:E; [done|]. cbn [chunks_fuel]. rewrite <-E.
  rewrite take_app_length', drop_app_length' by done. f_equal. apply IH; [done|]. cbn in Hf. lia.
Qed.

Lemma length_concat_same {A} (n : nat) (cs : list (list A)) :
  Forall (fun c => length c = n) cs -> length (concat cs) = (n * length cs)%nat.
Proof. induction 1 as [|c cs Hc _ IH]; cbn; [lia|]. rewrite length_app, Hc, IH. lia. Qed.

Lemma chunks_concat {A} (n : nat) (cs : list (list A)) :
  (0 < n)%nat -> Forall (fun c => length c = n) cs -> chunks n (concat cs) = cs.
Proof.
  intros Hn Hc. apply chunks_fuel_concat; [done|done|]. rewrite (length_concat_same n) by done. nia.
Qed.

(** A buffer of whole chunks. *)
Lemma chunks_exact {A} (n k : nat) (l : list A) :
  (0 < n)%nat -> length l = (n * k)%nat ->
  concat (chunks n l) = l /\ Forall (fun c => length c = n) (chunks n l) /\ length (chunks n l) = k.
Proof.
  intros Hn Hl.
  assert (exists cs, l = concat cs /\ Forall (fun c => length c = n) cs /\ length cs = k) as (cs & -> & Hc & <-).
  { revert l Hl. induction k as [|k IH]; intros l Hl.
    - exists []. destruct l; [done|cbn in Hl; lia].
    - destruct (IH (drop n l)) as (cs & E & Hc & Hk); [rewrite length_drop; lia|].
      exists (take n l :: cs). cbn [concat]. rewrite <-E, take_drop. split_and!; [done| |cbn; lia].
      constructor; [rewrite length_take; lia|done]. }
  by rewrite chunks_concat.
Qed.

#[export] Hint Rewrite @length_le_bytes @length_be_bytes : pluto_len.
#[export] Hint Resolve le_bytes_byte : pluto.

Lemma string_of_bytes_of_string s : string_of_bytes (bytes_of_string s) = s.
Proof.
  unfold string_of_bytes, bytes_of_string. rewrite <-list_fmap_compose.
  rewrite <-(String.string_of_list_ascii_of_string s) at 2. f_equal.
  induction (String.list_ascii_of_string s) as [|c l IH]; [done|]. cbn [fmap list_fmap]. rewrite IH. f_equal.
  unfold compose. by rewrite Nat2Z.id, ascii_nat_embedding.
Qed.

Lemma bytes_of_string_byte s : Forall is_byte (bytes_of_string s).
Proof.
  unfold bytes_of_string. apply Forall_fmap, Forall_forall. intros c _. unfold compose, is_byte.
  pose proof (nat_ascii_bounded c). lia.
Qed.
