(* ===== verification/Types.v ===== *)
(** * Core types

    The data types of [crates/core/src/types.rs] the other components share:
    duty types and their wire numbers, duties, proposal types, slots and the
    text form of public keys. *)

From S2P Require Import Prelude Bytes.
From Stdlib Require Import Ascii.

Open Scope Z_scope.

(** ** Duty types *)

Inductive DutyType :=
| Unknown
| Proposer
| Attester
| Signature
| Exit
| BuilderProposer
| BuilderRegistration
| Randao
| PrepareAggregator
| Aggregator
| SyncMessage
| PrepareSyncContribution
| SyncContribution
| InfoSync
| DutySentinel (t : DutyType).

#[global] Instance DutyType_eq_dec : EqDecision DutyType.
Proof. solve_decision. Defined.

Definition is_valid (t : DutyType) : bool :=
  match t with Unknown | DutySentinel _ => false | _ => true end.

Definition never_expires (t : DutyType) : bool :=
  match t with Exit | BuilderRegistration => true | _ => false end.

(** [DutyType::all]. *)
Definition all_duty_types : list DutyType :=
  [Proposer; Attester; Signature; Exit; BuilderProposer; BuilderRegistration; Randao;
   PrepareAggregator; Aggregator; SyncMessage; PrepareSyncContribution; SyncContribution; InfoSync].

(** The serde name ([snake_case]) of a variant, and [Display]: the name, or the
    JSON object that serde makes of a sentinel. *)
Definition quote (s : string) : string :=
  let q := String (Ascii.ascii_of_nat 34) EmptyString in (q +:+ s +:+ q)%string.

Fixpoint duty_type_json (t : DutyType) : string :=
  match t with
  | Unknown => quote "unknown"
  | Proposer => quote "proposer"
  | Attester => quote "attester"
  | Signature => quote "signature"
  | Exit => quote "exit"
  | BuilderProposer => quote "builder_proposer"
  | BuilderRegistration => quote "builder_registration"
  | Randao => quote "randao"
  | PrepareAggregator => quote "prepare_aggregator"
  | Aggregator => quote "aggregator"
  | SyncMessage => quote "sync_message"
  | PrepareSyncContribution => quote "prepare_sync_contribution"
  | SyncContribution => quote "sync_contribution"
  | InfoSync => quote "info_sync"
  | DutySentinel t => ("{" +:+ quote "duty_sentinel" +:+ ":" +:+ duty_type_json t +:+ "}")%string
  end.

(** [as_str] of a JSON string drops its quotes. *)
Definition duty_type_label (t : DutyType) : string :=
  match t with
  | DutySentinel _ => duty_type_json t
  | _ => let s := duty_type_json t in String.substring 1 (String.length s - 2) s
  end.

(** [TryFrom<&DutyType> for i32]; [None] is [InvalidDutyType]. *)
Definition duty_type_to_i32 (t : DutyType) : option Z :=
  match t with
  | Unknown => Some 0
  | Proposer => Some 1
  | Attester => Some 2
  | Signature => Some 3
  | Exit => Some 4
  | BuilderProposer => Some 5
  | BuilderRegistration => Some 6
  | Randao => Some 7
  | PrepareAggregator => Some 8
  | Aggregator => Some 9
  | SyncMessage => Some 10
  | PrepareSyncContribution => Some 11
  | SyncContribution => Some 12
  | InfoSync => Some 13
  | DutySentinel _ => None
  end.

(** [TryFrom<i32> for DutyType]; [None] is [ParSigExCodecError::InvalidDuty]. *)
Definition duty_type_of_i32 (value : Z) : option DutyType :=
  match value with
  | 0 => Some Unknown
  | 1 => Some Proposer
  | 2 => Some Attester
  | 3 => Some Signature
  | 4 => Some Exit
  | 5 => Some BuilderProposer
  | 6 => Some BuilderRegistration
  | 7 => Some Randao
  | 8 => Some PrepareAggregator
  | 9 => Some Aggregator
  | 10 => Some SyncMessage
  | 11 => Some PrepareSyncContribution
  | 12 => Some SyncContribution
  | 13 => Some InfoSync
  | _ => None
  end.

(** ** Duties *)

(** [SlotNumber] is a [u64]. *)
Definition slot_next (slot : Z) : Z := Z.min (slot + 1) U64_MAX.

Record Duty := { slot : Z; duty_type : DutyType }.

#[global] Instance Duty_eq_dec : EqDecision Duty.
Proof. solve_decision. Defined.

(** The protobuf duty. *)
Record PbDuty := { pb_slot : Z; pb_type : Z }.

(** [TryFrom<&Duty> for pbcore::Duty]. *)
Definition duty_to_proto (d : Duty) : option PbDuty :=
  t ← duty_type_to_i32 (duty_type d);
  Some {| pb_slot := slot d; pb_type := t |}.

(** [TryFrom<&pbcore::Duty> for Duty]. *)
Definition duty_from_proto (d : PbDuty) : option Duty :=
  t ← duty_type_of_i32 (pb_type d);
  if negb (is_valid t) then None
  else Some {| slot := pb_slot d; duty_type := t |}.

(** ** Proposal types *)

Inductive ProposalType :=
| Full
| Builder
| Synthetic
| UnknownProposal (s : string).

Definition proposal_type_str (p : ProposalType) : string :=
  match p with
  | Full => "full"
  | Builder => "builder"
  | Synthetic => "synthetic"
  | UnknownProposal s => s
  end.

Definition proposal_type_of (value : string) : ProposalType :=
  if bool_decide (value = "full"%string) then Full
  else if bool_decide (value = "builder"%string) then Builder
  else if bool_decide (value = "synthetic"%string) then Synthetic
  else UnknownProposal value.

(** ** Slots

    Times are counted in the unit of [slot_duration]; [Panic] is a division by
    zero slots per epoch. *)
Record Slot := {
  sl_slot : Z;
  sl_time : Z;
  sl_duration : Z;
  sl_per_epoch : Z;
}.

Definition epoch (s : Slot) : res unit Z :=
  if sl_per_epoch s =? 0 then Panic else Ok (sl_slot s / sl_per_epoch s).

Definition last_in_epoch (s : Slot) : res unit bool :=
  if sl_per_epoch s =? 0 then Panic
  else Ok (sl_slot s mod sl_per_epoch s =? Z.max 0 (sl_per_epoch s - 1)).

Definition first_in_epoch (s : Slot) : res unit bool :=
  if sl_per_epoch s =? 0 then Panic else Ok (sl_slot s mod sl_per_epoch s =? 0).

Definition next_slot (s : Slot) : Slot :=
  {| sl_slot := slot_next (sl_slot s); sl_time := sl_time s + sl_duration s;
     sl_duration := sl_duration s; sl_per_epoch := sl_per_epoch s |}.

(** The first [n] slots of [Slot::iter]. *)
Fixpoint slot_iter (n : nat) (s : Slot) : list Slot :=
  match n with O => [] | S n => s :: slot_iter n (next_slot s) end.

(** ** Public keys

    [hex::encode] and [hex::decode] are parameters. *)
Section pubkey.
Context (hex_encode : list Z -> string) (hex_decode : string -> option (list Z)).


Definition PK_LEN : Z := 48.

Inductive PubKeyError := InvalidLength | InvalidString.

(** [TryFrom<&[u8]>]. *)
Definition pubkey_of_bytes (bytes : list Z) : res PubKeyError (list Z) :=
  if negb (len bytes =? PK_LEN) then Err InvalidLength else Ok bytes.

Definition strip_0x (value : string) : string :=
  if String.prefix "0x" value then String.substring 2 (String.length value - 2) value else value.

(** [TryFrom<&str>]. *)
Definition pubkey_of_str (value : string) : res PubKeyError (list Z) :=
  hex_value ← ok_or (hex_decode (strip_0x value)) InvalidString;
  pubkey_of_bytes hex_value.

(** [Display]. *)
Definition pubkey_to_string (pk : list Z) : string := ("0x" +:+ hex_encode pk)%string.
End pubkey.

(** ** Signed data

    The trait [SignedData]: what the signature pipeline knows of a signed
    value.  Its types of values, roots, signatures and errors are the trait's
    implementations'. *)
Class SignedData (D Root Sig E : Type) := {
  signature : D -> res E Sig;
  set_signature : D -> Sig -> res E D;
  message_root : D -> res E Root;
}.

Record ParSignedData (D : Type) := { signed_data : D; share_idx : Z }.
Arguments signed_data {D} _.
Arguments share_idx {D} _.

#[global] Instance ParSignedData_eq_dec {D} `{EqDecision D} : EqDecision (ParSignedData D).
Proof. solve_decision. Defined.

(** ** Theorems *)

Definition duty_type_code (t : DutyType) : nat :=
  match t with
  | Unknown => 0 | Proposer => 1 | Attester => 2 | Signature => 3 | Exit => 4
  | BuilderProposer => 5 | BuilderRegistration => 6 | Randao => 7 | PrepareAggregator => 8
  | Aggregator => 9 | SyncMessage => 10 | PrepareSyncContribution => 11
  | SyncContribution => 12 | InfoSync => 13 | DutySentinel _ => 14
  end.

Fixpoint duty_type_codes (t : DutyType) : list nat :=
  match t with DutySentinel t => 14%nat :: duty_type_codes t | _ => [duty_type_code t] end.

Fixpoint duty_type_decode (l : list nat) : option DutyType :=
  match l with
  | [] => None
  | 14%nat :: l => DutySentinel <$> duty_type_decode l
  | n :: _ => duty_type_of_i32 (Z.of_nat n)
  end.

#[global] Instance DutyType_countable : Countable DutyType.
Proof.
  refine (inj_countable duty_type_codes duty_type_decode _).
  intros t. induction t as [| | | | | | | | | | | | | |t IH]; try done. cbn. by rewrite IH.
Defined.

#[global] Instance Duty_countable : Countable Duty.
Proof.
  refine (inj_countable (fun d => (slot d, duty_type d))
    (fun '(s, t) => Some {| slot := s; duty_type := t |}) _).
  by intros [].
Defined.

Lemma duty_type_i32_inv t z : duty_type_to_i32 t = Some z -> duty_type_of_i32 z = Some t.
Proof. destruct t; cbn; by intros [= <-]. Qed.

Lemma duty_type_of_i32_inv z t : duty_type_of_i32 z = Some t -> duty_type_to_i32 t = Some z.
Proof.
  unfold duty_type_of_i32. intros Hz.
  destruct z as [|z|]; [by simplify_eq| |done].
  repeat (destruct z as [z|z|]; try done; simplify_eq; try done).
Qed.

(** A duty survives the trip over the wire exactly when its type is valid;
    an unknown or sentinel type is refused, by the decoder at the latest. *)
Theorem duty_wire_roundtrip d :
  (pb ← duty_to_proto d; duty_from_proto pb) = if is_valid (duty_type d) then Some d else None.
Proof.
  unfold duty_to_proto, duty_from_proto.
  destruct (duty_type_to_i32 (duty_type d)) as [z|] eqn:E; cbn.
  - rewrite (duty_type_i32_inv _ _ E). cbn. by destruct (is_valid (duty_type d)), d.
  - by destruct (duty_type d).
Qed.

(** Conversely, a wire duty that decodes encodes to itself, and only the
    type numbers 1 to 13 decode. *)
Theorem wire_duty_roundtrip pb d :
  duty_from_proto pb = Some d -> duty_to_proto d = Some pb /\ 1 <= pb_type pb <= 13.
Proof.
  unfold duty_to_proto, duty_from_proto.
  destruct (duty_type_of_i32 (pb_type pb)) as [t|] eqn:E; cbn; [|done].
  destruct (is_valid t) eqn:Ev; cbn; [|done]. intros [= <-]. cbn.
  rewrite (duty_type_of_i32_inv _ _ E). destruct pb as [s z]. cbn in *. split; [done|].
  apply duty_type_of_i32_inv in E. destruct t; simplify_eq; cbn in *; try done; simplify_eq; lia.
Qed.

Lemma wire_duty_roundtrip_witness :
  duty_to_proto {| slot := 7; duty_type := Attester |} = Some {| pb_slot := 7; pb_type := 2 |} /\
  1 <= 2 <= 13.
Proof. apply (wire_duty_roundtrip {| pb_slot := 7; pb_type := 2 |}). reflexivity. Defined.

(** Slots walk through epochs: the slot after the last one of an epoch is
    the first one of the next epoch, and every other step stays in the epoch. *)
Theorem epoch_progress s :
  0 < sl_per_epoch s -> 0 <= sl_slot s < U64_MAX ->
  exists e last, epoch s = Ok e /\ last_in_epoch s = Ok last /\
    epoch (next_slot s) = Ok (if last then e + 1 else e) /\
    first_in_epoch (next_slot s) = Ok last.
Proof.
  intros Hp Hs. unfold epoch, last_in_epoch, first_in_epoch, next_slot, slot_next. cbn.
  destruct (Z.eqb_spec (sl_per_epoch s) 0) as [|_]; [lia|].
  rewrite Z.min_l, Z.max_r by lia.
  set (n := sl_per_epoch s) in *. set (x := sl_slot s) in *.
  pose proof (Z.div_mod x n ltac:(lia)) as Hd. pose proof (Z.mod_pos_bound x n Hp) as Hm.
  exists (x / n), (x mod n =? n - 1). split; [done|]. split; [done|].
  destruct (Z.eqb_spec (x mod n) (n - 1)) as [El|El].
  - assert (x + 1 = (x / n + 1) * n) as -> by nia.
    by rewrite Z.div_mul, Z.mod_mul by lia.
  - assert (x + 1 = x mod n + 1 + x / n * n) as -> by nia.
    rewrite Z.div_add, Z.mod_add, Z.div_small, Z.mod_small by lia.
    destruct (Z.eqb_spec (x mod n + 1) 0); [lia|done].
Qed.

Lemma epoch_progress_witness :
  epoch (next_slot {| sl_slot := 31; sl_time := 0; sl_duration := 12; sl_per_epoch := 32 |}) = Ok 1.
Proof.
  destruct (epoch_progress {| sl_slot := 31; sl_time := 0; sl_duration := 12; sl_per_epoch := 32 |})
    as (e & last & He & Hl & Hn & _).
  - reflexivity.
  - vm_compute. split; congruence.
  - vm_compute in He, Hl. injection He as <-. injection Hl as <-. exact Hn.
Defined.

(** The [n]th slot of the iterator. *)
Lemma slot_iter_nth n k s :
  (k < n)%nat -> 0 <= sl_slot s -> sl_slot s + Z.of_nat k <= U64_MAX ->
  exists s', slot_iter n s !! k = Some s' /\
    sl_slot s' = sl_slot s + Z.of_nat k /\ sl_time s' = sl_time s + Z.of_nat k * sl_duration s.
Proof.
  revert n s. induction k as [|k IH]; intros [|n] s Hk H0 Hmax; try lia; cbn.
  - exists s. split_and!; [done|lia|lia].
  - destruct (IH n (next_slot s)) as (s' & Hs' & Hslot & Htime);
      [lia|cbn; unfold slot_next; lia|cbn; unfold slot_next; lia|].
    exists s'. split; [done|]. rewrite Hslot, Htime. cbn. unfold slot_next. split; lia.
Qed.

(** ** Public keys and proposal types *)

Lemma substring_all s : String.substring 0 (String.length s) s = s.
Proof. induction s as [|c s IH]; cbn; [done|by rewrite IH]. Qed.

Lemma strip_0x_app s : strip_0x ("0x" +:+ s) = s.
Proof.
  unfold strip_0x. change ("0x" +:+ s)%string with (String "0"%char (String "x"%char s)). cbn.
  rewrite Nat.sub_0_r, substring_all. by destruct s.
Qed.

Section pubkey_text.
Context (hex_encode : list Z -> string) (hex_decode : string -> option (list Z)).

(** Printing a public key and parsing it gives the key back, given that
    [hex::decode] undoes [hex::encode]. *)
Theorem pubkey_text_roundtrip pk :
  (forall b, Forall is_byte b -> hex_decode (hex_encode b) = Some b) ->
  Forall is_byte pk -> len pk = PK_LEN ->
  pubkey_of_str hex_decode (pubkey_to_string hex_encode pk) = Ok pk.
Proof.
  intros Hhex Hb Hlen. unfold pubkey_of_str, pubkey_to_string.
  rewrite strip_0x_app, Hhex by done. cbn. unfold pubkey_of_bytes. by rewrite Hlen.
Qed.
End pubkey_text.

(** A codec that meets the hypothesis. *)
Definition hex_char (n : Z) : ascii :=
  ascii_of_nat (Z.to_nat (if n <? 10 then 48 + n else 87 + n)).
Definition hex_val (c : ascii) : option Z :=
  let n := Z.of_nat (nat_of_ascii c) in
  if (48 <=? n) && (n <=? 57) then Some (n - 48)
  else if (97 <=? n) && (n <=? 102) then Some (n - 87) else None.
Fixpoint hex_text (b : list Z) : string :=
  match b with
  | [] => EmptyString
  | z :: b => String (hex_char (z / 16)) (String (hex_char (z mod 16)) (hex_text b))
  end.
Fixpoint hex_parse (s : string) : option (list Z) :=
  match s with
  | EmptyString => Some []
  | String c (String c' s) =>
    x ← hex_val c; y ← hex_val c'; l ← hex_parse s; Some (16 * x + y :: l)
  | _ => None
  end.

Lemma hex_val_char n : 0 <= n < 16 -> hex_val (hex_char n) = Some n.
Proof.
  intros Hn. assert (exists k, (k < 16)%nat /\ n = Z.of_nat k) as (k & Hk & ->).
  { exists (Z.to_nat n). lia. }
  clear Hn. do 16 (destruct k as [|k]; [by vm_compute|]). lia.
Qed.

Lemma hex_parse_text b : Forall is_byte b -> hex_parse (hex_text b) = Some b.
Proof.
  induction 1 as [|z b Hz _ IH]; [done|]. unfold is_byte in Hz. cbn [hex_text hex_parse].
  pose proof (Z.div_mod z 16 ltac:(lia)). pose proof (Z.mod_pos_bound z 16 ltac:(lia)).
  rewrite !hex_val_char, IH by (try split; try apply Z.div_pos; try apply Z.div_lt_upper_bound; lia).
  cbn. by f_equal; f_equal; lia.
Qed.

Lemma pubkey_text_roundtrip_witness :
  pubkey_of_str hex_parse (pubkey_to_string hex_text (replicate 48 171)) = Ok (replicate 48 171).
Proof.
  apply (pubkey_text_roundtrip hex_text hex_parse).
  - exact hex_parse_text.
  - apply Forall_replicate. unfold is_byte. lia.
  - reflexivity.
Defined.

(** Proposal types of newer peers survive: parsing keeps the wire string
    whatever it is, and printing a parsed type gives it back. *)
Theorem proposal_type_roundtrip s : proposal_type_str (proposal_type_of s) = s.
Proof. unfold proposal_type_of. repeat case_bool_decide; by subst. Qed.
