(* ===== verification/SszHasher.v ===== *)
(** * SSZ merkleization

    [crates/ssz/src/hasher.rs] and [helpers.rs]: the hash walker that collects
    32-byte chunks in a buffer and folds them into Merkle roots in place, and
    what those roots are: the root of the padded binary tree of the SSZ
    specification.  SHA-256 is a parameter. *)

From S2P Require Import Prelude Bytes Types.

Inductive HasherError :=
| InvalidBufferLength
| CountGreaterThanLimit (count limit : Z)
| InvalidBitlistDelimiter.

Definition ZERO_BYTES : list Z := replicate 32 0.
Definition calculate_bool_bytes (b : bool) : list Z := if b then 1 :: replicate 31 0 else ZERO_BYTES.
Definition TRUE_BYTES : list Z := calculate_bool_bytes true.
Definition FALSE_BYTES : list Z := calculate_bool_bytes false.

(** [usize::leading_zeros] and [usize::div_ceil] on a 64-bit target. *)
Definition leading_zeros (i : Z) : Z := if i =? 0 then 64 else 63 - Z.log2 i.
Definition div_ceil (a b : Z) : Z := (a + b - 1) / b.

(** Arithmetic on [usize] that panics when it leaves the range. *)
Definition usize {E} (z : Z) : res E Z := if in_u64 z then Ok z else Panic.

Definition next_power_of_two {E} (v : Z) : res E Z :=
  v ← usize (v - 1);
  let v := Z.lor v (Z.shiftr v 1) in
  let v := Z.lor v (Z.shiftr v 2) in
  let v := Z.lor v (Z.shiftr v 4) in
  let v := Z.lor v (Z.shiftr v 8) in
  let v := Z.lor v (Z.shiftr v 16) in
  usize (v + 1).

Definition get_depth {E} (d : Z) : res E Z :=
  if d <=? 1 then Ok 0
  else
    i ← next_power_of_two d;
    usize (64 - leading_zeros i - 1).

Definition calculate_limit (max_capacity num_items size : Z) : Z :=
  let limit := div_ceil (Z.min U64_MAX (max_capacity * size)) 32 in
  if negb (limit =? 0) then limit else if num_items =? 0 then 1 else num_items.

(** Trailing zero bytes removed, as the backwards loop of [parse_bitlist] does. *)
Definition strip_zeros (l : list Z) : list Z := reverse (drop_zeros (reverse l)).

(** [parse_bitlist]: what [tmp] becomes, and the number of bits. *)
Definition parse_bitlist (buf : list Z) : res HasherError (list Z * Z) :=
  match last buf with
  | None => Err InvalidBufferLength
  | Some last_byte =>
      if last_byte =? 0 then Err InvalidBitlistDelimiter
      else
        let msb := Z.log2 last_byte in
        let size := 8 * (len buf - 1) + msb in
        let tmp := <[(length buf - 1)%nat := Z.ldiff last_byte (Z.shiftl 1 msb)]> buf in
        Ok (strip_zeros tmp, size)
  end.

Definition pad_to_32 (buf : list Z) : list Z :=
  let rest := len buf mod 32 in
  if negb (rest =? 0) then buf ++ take (Z.to_nat (32 - rest)) ZERO_BYTES else buf.

Section hasher.
Context (sha256 : list Z -> list Z).

(** The precomputed roots of all-zero trees: [n] more follow [h]. *)
Fixpoint zero_hashes (n : nat) (h : list Z) : list (list Z) :=
  match n with
  | O => [h]
  | S n => h :: zero_hashes n (sha256 (h ++ h))
  end.
Definition ZERO_HASHES : list (list Z) := zero_hashes 64 ZERO_BYTES.

Definition default_hash_fn (src : list Z) : res HasherError (list Z) :=
  if negb (len src mod 64 =? 0) then Err InvalidBufferLength
  else Ok (concat (map (fun pair => sha256 (take 32 pair ++ drop 32 pair)) (chunks 64 src))).

Record Hasher := {
  buf : list Z;
  tmp : list Z;
  hash_fn : list Z -> res HasherError (list Z);
}.

Abbreviation walk := (proc Hasher HasherError).

Definition hasher_new (hash : list Z -> res HasherError (list Z)) : Hasher :=
  {| buf := []; tmp := []; hash_fn := hash |}.
Definition hasher_default : Hasher := hasher_new default_hash_fn.

(** The loop of [merkleize_impl]: [n] layers from layer [i] up. *)
Fixpoint merkle_layers (hash : list Z -> res HasherError (list Z)) (i n : nat) (input : list Z)
    : res HasherError (list Z) :=
  match n with
  | O => Ok input
  | S n =>
      let odd_node_len := (len input / 32) mod 2 =? 1 in
      input ← (if odd_node_len then z ← expect (ZERO_HASHES !! i); Ok (input ++ z) else Ok input);
      input ← hash input;
      merkle_layers hash (S i) n input
  end.

Definition merkleize_impl (hash : list Z -> res HasherError (list Z)) (input : list Z) (limit : Z)
    : res HasherError (list Z) :=
  let count := div_ceil (len input) 32 in
  limit ← (if limit =? 0 then Ok count
           else if limit <? count then Err (CountGreaterThanLimit count limit) else Ok limit);
  if limit =? 0 then Ok ZERO_BYTES
  else if limit =? 1 then
    if count =? 1 then (if len input <? 32 then Panic else Ok (take 32 input)) else Ok ZERO_BYTES
  else
    depth ← get_depth limit;
    match input with
    | [] => expect (ZERO_HASHES !! Z.to_nat depth)
    | _ => merkle_layers hash 0 (Z.to_nat depth) input
    end.

(** ** The walker *)

Definition append (b : list Z) : walk unit := p_modify (fun h => h <| buf ::= (fun l => l ++ b) |>).
Definition fill_up_to_32 : walk unit := p_modify (fun h => h <| buf ::= pad_to_32 |>).

Definition append_u8 (i : Z) : walk unit := append [i].
Definition append_u32 (i : Z) : walk unit := append (le_bytes 4 i).
Definition append_u64 (i : Z) : walk unit := append (le_bytes 8 i).

Definition append_bytes32 (b : list Z) : walk unit :=
  p_modify (fun h => h <| buf ::= (fun l => pad_to_32 (l ++ b)) |>).

Definition put_uint64 (i : Z) : walk unit := append_bytes32 (le_bytes 8 i).
Definition put_uint32 (i : Z) : walk unit := append_bytes32 (le_bytes 4 i).
Definition put_uint16 (i : Z) : walk unit := append_bytes32 (le_bytes 2 i).
Definition put_uint8 (i : Z) : walk unit := append_bytes32 [i].

Definition put_bool (b : bool) : walk unit := append (if b then TRUE_BYTES else FALSE_BYTES).

Definition index : walk nat := h ← p_get; mret (length (buf h)).

(** [self.buf[index..]]. *)
Definition buf_from (index : nat) : walk (list Z) :=
  h ← p_get;
  if (length (buf h) <? index)%nat then p_lift Panic else mret (drop index (buf h)).

(** [truncate(index)] and [extend_from_slice]. *)
Definition replace_from (index : nat) (b : list Z) : walk unit :=
  p_modify (fun h => h <| buf ::= (fun l => take index l ++ b) |>).

Definition merkleize (index : nat) : walk unit :=
  input ← buf_from index;
  h ← p_get;
  input ← p_lift (merkleize_impl (hash_fn h) input 0);
  replace_from index input.

Definition merkleize_with_mixin (index : nat) (num limit : Z) : walk unit :=
  fill_up_to_32 ;;
  input ← buf_from index;
  h ← p_get;
  input ← p_lift (merkleize_impl (hash_fn h) input limit);
  replace_from index input ;;
  let tmp := le_bytes 8 num ++ replicate 24 0 in
  result ← p_lift (hash_fn h (input ++ tmp));
  replace_from index result.

Definition put_uint64_array (b : list Z) (max_capacity : option Z) : walk unit :=
  indx ← index;
  p_for b append_u64 ;;
  fill_up_to_32 ;;
  match max_capacity with
  | Some max_capacity =>
      let num_items := len b in
      merkleize_with_mixin indx num_items (calculate_limit max_capacity num_items 8)
  | None => merkleize indx
  end.

Definition put_bitlist (bb : list Z) (max_size : Z) : walk unit :=
  '(t, size) ← p_lift (parse_bitlist bb);
  p_modify (fun h => h <| tmp := t |>) ;;
  indx ← index;
  append_bytes32 t ;;
  merkleize_with_mixin indx size (div_ceil max_size 256).

Definition put_bytes (b : list Z) : walk unit :=
  if len b <=? 32 then append_bytes32 b
  else
    indx ← index;
    append_bytes32 b ;;
    merkleize indx.

Definition hash (h : Hasher) : res HasherError (list Z) :=
  if len (buf h) <? 32 then Err InvalidBufferLength else Ok (drop (length (buf h) - 32) (buf h)).

Definition hash_root (h : Hasher) : res HasherError (list Z) :=
  if negb (len (buf h) =? 32) then Err InvalidBufferLength else hash h.

Definition reset : walk unit := p_modify (fun h => h <| buf := [] |>).

(** The root of encoded protobuf bytes ([hash_proto_bytes] of the consensus
    messages). *)
Definition hash_proto_bytes (encoded : list Z) : res HasherError (list Z) :=
  match ((i ← index; put_bytes encoded ;; merkleize i) : walk unit) hasher_default with
  | (h, Ok _) => hash_root h
  | (_, Err e) => Err e
  | (_, Panic) => Panic
  end.

(** ** [helpers.rs] *)

Inductive SszError :=
| IncorrectListSize (namespace field : string) (actual expected : Z)
| HashWalkerError (e : HasherError)
| FailedToConvertHexString.

(** [.map_err(Error::HashWalkerError)]. *)
Definition map_walk_err {A} (m : walk A) : proc Hasher SszError A := fun h =>
  match m h with
  | (h', Ok x) => (h', Ok x)
  | (h', Err e) => (h', Err (HashWalkerError e))
  | (h', Panic) => (h', Panic)
  end.

Definition left_pad (bytes : list Z) (n : nat) : list Z :=
  if (n <=? length bytes)%nat then bytes else replicate (n - length bytes) 0 ++ bytes.

Definition put_byte_list (bytes : list Z) (limit : Z) (field : string) : proc Hasher SszError unit :=
  elem_indx ← map_walk_err index;
  let byte_len := len bytes in
  if limit <? byte_len then p_fail (IncorrectListSize "put_byte_list" field byte_len limit)
  else
    map_walk_err (append_bytes32 bytes) ;;
    map_walk_err (merkleize_with_mixin elem_indx byte_len (div_ceil limit 32)).

Definition put_bytes_n (bytes : list Z) (n : nat) : proc Hasher SszError unit :=
  if (n <? length bytes)%nat then p_fail (IncorrectListSize "put_bytes_n" "" (len bytes) (Z.of_nat n))
  else map_walk_err (put_bytes (left_pad bytes n)).

(** The [hex] crate. *)
Context (hex_encode : list Z -> string) (hex_decode : string -> option (list Z)).

Definition from_0x_hex_str (s : string) (n : nat) : res SszError (list Z) :=
  if (String.length s =? 0)%nat then Ok []
  else
    bytes ← ok_or (hex_decode (strip_0x s)) FailedToConvertHexString;
    if negb (length bytes =? n)%nat then Err FailedToConvertHexString else Ok bytes.

Definition put_hex_bytes_n (hex : string) (n : nat) : proc Hasher SszError unit :=
  bytes ← p_lift (from_0x_hex_str hex n);
  map_walk_err (put_bytes (left_pad bytes n)).

Definition to_0x_hex (bytes : list Z) : string :=
  if (length bytes =? 0)%nat then "" else ("0x" +:+ hex_encode bytes)%string.
End hasher.
