(* ===== verification/SszFacts.v ===== *)
(** * What the SSZ hasher computes

    The depth of a tree, and the roots the walker leaves in its buffer: the
    root of the complete binary tree whose leaves are the chunks followed by
    zero chunks, as the SSZ specification defines it. *)

From S2P Require Import Prelude Bytes SszHasher.

(** ** The depth of a tree *)

(** [v] has a bit wherever [w] has one in the [s] positions from there up. *)
Definition smeared (w s v : Z) : Prop :=
  0 <= v /\ forall i, 0 <= i -> Z.testbit v i = true <-> exists j, i <= j < i + s /\ Z.testbit w j = true.

Lemma smeared_step w s v :
  0 < s -> smeared w s v -> smeared w (2 * s) (Z.lor v (Z.shiftr v s)).
Proof.
  intros Hs [Hp Hv]. split; [apply Z.lor_nonneg; split; [done|by apply Z.shiftr_nonneg]|].
  intros i Hi. rewrite Z.lor_spec, Z.shiftr_spec, orb_true_iff by lia.
  rewrite (Hv i Hi), (Hv (i + s)) by lia. split.
  - intros [(j & Hj & Hw)|(j & Hj & Hw)]; exists j; (split; [lia|done]).
  - intros (j & Hj & Hw). destruct (decide (j < i + s)); [left|right]; exists j; (split; [lia|done]).
Qed.

Lemma smeared_one w : 0 <= w -> smeared w 1 w.
Proof.
  intros Hp. split; [done|]. intros i Hi. split.
  - intros Hw. exists i. split; [lia|done].
  - intros (j & Hj & Hw). by replace i with j by lia.
Qed.

(** Up to 32 bits, everything below the highest bit is filled. *)
Lemma smeared_ones w v : 0 < w < 2 ^ 32 -> smeared w 32 v -> v = Z.ones (Z.log2 w + 1).
Proof.
  intros Hw [Hv Hs]. assert (0 <= Z.log2 w < 32) as Hk.
  { split; [apply Z.log2_nonneg|]. apply Z.log2_lt_pow2; lia. }
  apply Z.bits_inj'. intros i Hi. apply eq_true_iff_eq. rewrite (Hs i Hi), Z.ones_spec_iff by lia. split.
  - intros (j & Hj & Hb). destruct (decide (j <= Z.log2 w)); [lia|].
    rewrite Z.bits_above_log2 in Hb by lia. done.
  - intros Hb. exists (Z.log2 w). split; [lia|]. apply Z.bit_log2. lia.
Qed.

Lemma usize_ok {E} z : 0 <= z <= U64_MAX -> @usize E z = Ok z.
Proof.
  intros Hz. unfold usize, in_u64. by rewrite (proj2 (andb_true_iff _ _)) by (rewrite !Z.leb_le; lia).
Qed.

Lemma log2_up_pred v : 1 < v -> Z.log2_up v = Z.log2 (v - 1) + 1.
Proof. intros Hv. rewrite Z.log2_up_eqn by lia. by rewrite Z.sub_1_r, Z.add_1_r. Qed.

Lemma next_power_of_two_spec {E} v :
  1 < v <= 2 ^ 32 -> @next_power_of_two E v = Ok (2 ^ Z.log2_up v).
Proof.
  intros Hv. unfold next_power_of_two. rewrite usize_ok by (unfold U64_MAX; lia).
  cbn [mbind res_bind]. set (w := v - 1). set (r := Z.lor _ (Z.shiftr _ 16)).
  assert (smeared w 32 r) as Hs.
  { apply (smeared_step w 16); [lia|]. apply (smeared_step w 8); [lia|].
    apply (smeared_step w 4); [lia|]. apply (smeared_step w 2); [lia|].
    apply (smeared_step w 1); [lia|]. apply smeared_one. lia. }
  rewrite (smeared_ones w r) by (done || lia).
  assert (Z.ones (Z.log2 w + 1) + 1 = 2 ^ Z.log2_up v) as ->.
  { rewrite Z.ones_equiv, log2_up_pred by lia. fold w. lia. }
  apply usize_ok. assert (Z.log2_up v <= 32) by (apply Z.log2_up_le_pow2; lia).
  pose proof (Z.log2_up_nonneg v). unfold U64_MAX.
  assert (2 ^ Z.log2_up v <= 2 ^ 32) by (apply Z.pow_le_mono_r; lia). lia.
Qed.

Lemma get_depth_spec {E} d : 0 <= d <= 2 ^ 32 -> @get_depth E d = Ok (Z.log2_up d).
Proof.
  intros Hd. unfold get_depth. destruct (d <=? 1) eqn:E1; zbool.
  - by rewrite Z.log2_up_eqn0 by lia.
  - rewrite next_power_of_two_spec by lia. cbn [mbind res_bind]. pose proof (Z.log2_up_nonneg d).
    unfold leading_zeros. rewrite (proj2 (Z.eqb_neq _ _)) by (apply Z.pow_nonzero; lia).
    rewrite Z.log2_pow2 by done. assert (Z.log2_up d <= 32) by (apply Z.log2_up_le_pow2; lia).
    rewrite usize_ok by (unfold U64_MAX; lia). f_equal. lia.
Qed.


(** ** The tree of the specification *)

Section tree.
Context (sha256 : list Z -> list Z) (sha_len : forall b, length (sha256 b) = 32%nat).

Fixpoint zero_hash (i : nat) : list Z :=
  match i with
  | O => ZERO_BYTES
  | S i => sha256 (zero_hash i ++ zero_hash i)
  end.

(** The root of the tree of depth [d] over nodes of level [i]: the nodes [cs]
    from the left, roots of zero subtrees to the right. *)
Fixpoint tree_at (i d : nat) (cs : list (list Z)) : list Z :=
  match d with
  | O => default (zero_hash i) (head cs)
  | S d => sha256 (tree_at i d (take (2 ^ d) cs) ++ tree_at i d (drop (2 ^ d) cs))
  end.

(** The Merkle root of the chunks [cs] in a tree of [2 ^ d] leaves. *)
Definition merkle_tree (d : nat) (cs : list (list Z)) : list Z := tree_at 0 d cs.

Definition is_chunk (c : list Z) : Prop := length c = 32%nat.

Lemma zero_hash_chunk i : is_chunk (zero_hash i).
Proof. destruct i; [apply length_replicate|apply sha_len]. Qed.

Lemma zero_hashes_lookup n h i k :
  h = zero_hash k -> (i <= n)%nat -> zero_hashes sha256 n h !! i = Some (zero_hash (k + i)).
Proof.
  revert h i k. induction n as [|n IH]; intros h i k -> Hi.
  - replace i with 0%nat by lia. by rewrite Nat.add_0_r.
  - destruct i as [|i]; [by rewrite Nat.add_0_r|]. cbn [zero_hashes lookup list_lookup].
    rewrite (IH _ i (S k)) by (done || lia). f_equal. f_equal. lia.
Qed.

Lemma ZERO_HASHES_lookup i : (i <= 64)%nat -> ZERO_HASHES sha256 !! i = Some (zero_hash i).
Proof. intros Hi. unfold ZERO_HASHES. by rewrite (zero_hashes_lookup 64 _ i 0). Qed.

(** One layer: pairs are hashed, an odd node with a zero subtree. *)
Fixpoint pair_layer (i : nat) (cs : list (list Z)) : list (list Z) :=
  match cs with
  | [] => []
  | [c] => [sha256 (c ++ zero_hash i)]
  | c :: c' :: cs => sha256 (c ++ c') :: pair_layer i cs
  end.

Lemma list_ind2 {A} (P : list A -> Prop) :
  P [] -> (forall x, P [x]) -> (forall x y l, P l -> P (x :: y :: l)) -> forall l, P l.
Proof.
  intros H0 H1 H2. fix IH 1. intros [|x [|y l]]; [done|apply H1|apply H2, IH].
Qed.

Lemma length_pair_layer i cs : length (pair_layer i cs) = ((length cs + 1) / 2)%nat.
Proof.
  induction cs as [|c|c c' cs IH] using list_ind2; [done|done|]. cbn [pair_layer length].
  rewrite IH. replace (S (S (length cs)) + 1)%nat with (length cs + 1 + 1 * 2)%nat by lia.
  rewrite Nat.div_add by lia. lia.
Qed.

Lemma pair_layer_take i k cs : pair_layer i (take (2 * k) cs) = take k (pair_layer i cs).
Proof.
  revert cs. induction k as [|k IH]; intros cs; [done|].
  replace (2 * S k)%nat with (S (S (2 * k))) by lia.
  destruct cs as [|c [|c' cs]]; [done|by rewrite !firstn_all2 by (cbn; lia)|]. cbn. by rewrite <-IH.
Qed.

Lemma pair_layer_drop i k cs : pair_layer i (drop (2 * k) cs) = drop k (pair_layer i cs).
Proof.
  revert cs. induction k as [|k IH]; intros cs; [done|].
  replace (2 * S k)%nat with (S (S (2 * k))) by lia.
  destruct cs as [|c [|c' cs]]; [done|by rewrite !skipn_all2 by (cbn; lia)|]. cbn. by rewrite <-IH.
Qed.

Lemma tree_at_layer i d cs : tree_at i (S d) cs = tree_at (S i) d (pair_layer i cs).
Proof.
  revert cs. induction d as [|d IH]; intros cs; [by destruct cs as [|c [|c' cs]]|].
  cbn [tree_at] in *. f_equal. rewrite <-pair_layer_take, <-pair_layer_drop.
  replace (2 * 2 ^ d)%nat with (2 ^ S d)%nat by (cbn; lia). by rewrite <-!IH.
Qed.

Lemma tree_at_nil i d : tree_at i d [] = zero_hash (i + d).
Proof.
  revert i. induction d as [|d IH]; intros i; cbn [tree_at]; [by rewrite Nat.add_0_r|].
  rewrite take_nil, drop_nil, !IH. by rewrite Nat.add_succ_r.
Qed.

(** ** The loop computes it *)

Lemma concat_app_one {A} (cs : list (list A)) c : concat cs ++ c = concat (cs ++ [c]).
Proof. by rewrite concat_app, concat_cons, app_nil_r. Qed.

Lemma hash_pairs i cs :
  Forall is_chunk cs -> Nat.Even (length cs) ->
  default_hash_fn sha256 (concat cs) = Ok (concat (pair_layer i cs)).
Proof.
  intros Hc He.
  assert (exists ps, concat cs = concat ps /\ Forall (fun p => length p = 64%nat) ps /\
    map sha256 ps = pair_layer i cs) as (ps & -> & Hps & <-).
  { induction cs as [|c|c c' cs IH] using list_ind2.
    - by exists [].
    - destruct He as [k Hk]. cbn in Hk. lia.
    - apply list.Forall_cons in Hc as [Hc1 Hc]. apply list.Forall_cons in Hc as [Hc2 Hc].
      destruct IH as (ps & E & Hps & Hm); [done|destruct He as [k Hk]; exists (k - 1)%nat; cbn in Hk; lia|].
      exists ((c ++ c') :: ps). cbn [concat map pair_layer]. rewrite E, <-app_assoc, Hm.
      split_and!; [done|constructor; [|done]|done]. rewrite length_app, Hc1, Hc2. done. }
  unfold default_hash_fn. rewrite chunks_concat by (done || lia).
  rewrite (proj2 (Z.eqb_eq _ 0)).
  - cbn [negb]. do 2 f_equal. apply map_ext. intros p. by rewrite take_drop.
  - unfold len. rewrite (length_concat_same 64) by done. rewrite Nat2Z.inj_mul, Z.mul_comm.
    apply Z.mod_mul. lia.
Qed.

Lemma pair_layer_chunks i cs : Forall is_chunk (pair_layer i cs).
Proof. induction cs as [|c|c c' cs IH] using list_ind2; repeat constructor; try apply sha_len; done. Qed.

Lemma odd_len {A} (l : list A) : len l mod 2 = 1 -> Nat.Odd (length l).
Proof.
  intros H. destruct (Nat.Even_or_Odd (length l)) as [[k Hk]|]; [|done].
  unfold len in H. rewrite Hk, Nat2Z.inj_mul, Z.mul_comm, Z.mod_mul in H; lia.
Qed.

Lemma even_len {A} (l : list A) : len l mod 2 <> 1 -> Nat.Even (length l).
Proof.
  intros H. destruct (Nat.Even_or_Odd (length l)) as [|[k Hk]]; [done|]. destruct H.
  unfold len. rewrite Hk, Nat2Z.inj_add, Nat2Z.inj_mul, Z.mul_comm, Z.add_comm, Z.mod_add; done.
Qed.

(** One pass of the loop. *)
Lemma layer_step hash i n cs :
  (forall b, hash b = default_hash_fn sha256 b) -> (i <= 64)%nat -> Forall is_chunk cs ->
  merkle_layers sha256 hash i (S n) (concat cs) =
    merkle_layers sha256 hash (S i) n (concat (pair_layer i cs)).
Proof.
  intros Hh Hi Hc. cbn [merkle_layers].
  assert (len (concat cs) / 32 = len cs) as ->.
  { unfold len. rewrite (length_concat_same 32) by done. rewrite Nat2Z.inj_mul, Z.mul_comm.
    apply Z.div_mul. lia. }
  destruct (len cs mod 2 =? 1) eqn:Eo; zbool.
  - rewrite ZERO_HASHES_lookup by done. cbn [expect mbind res_bind]. rewrite concat_app_one, Hh.
    rewrite (hash_pairs i).
    + cbn [mbind res_bind]. f_equal. f_equal.
      assert (forall l, Nat.Odd (length l) -> pair_layer i (l ++ [zero_hash i]) = pair_layer i l) as Hz.
      { induction l as [|c|c c' l IH] using list_ind2; intros [k Hk]; [cbn in Hk; lia|done|].
        cbn [app pair_layer]. f_equal. apply IH. exists (k - 1)%nat. cbn in Hk. lia. }
      by apply Hz, odd_len.
    + apply Forall_app. split; [done|]. repeat constructor. apply zero_hash_chunk.
    + apply odd_len in Eo as [k Hk]. exists (k + 1)%nat. rewrite length_app, Hk. cbn. lia.
  - cbn [mbind res_bind]. rewrite Hh, (hash_pairs i); [done|done|]. by apply even_len.
Qed.

Lemma merkle_layers_tree hash i n cs :
  (forall b, hash b = default_hash_fn sha256 b) -> (i + n <= 64)%nat -> Forall is_chunk cs ->
  cs <> [] -> (length cs <= 2 ^ n)%nat ->
  merkle_layers sha256 hash i n (concat cs) = Ok (tree_at i n cs).
Proof.
  intros Hh. revert i cs. induction n as [|n IH]; intros i cs Hi Hc Hne Hl.
  - destruct cs as [|c [|c' cs]]; [done| |cbn in Hl; lia]. cbn. by rewrite app_nil_r.
  - rewrite layer_step by (done || lia). rewrite tree_at_layer. apply IH; [lia|apply pair_layer_chunks| |].
    + destruct cs as [|c [|c' cs]]; done.
    + rewrite length_pair_layer. cbn in Hl. apply Nat.lt_succ_r, Nat.Div0.div_lt_upper_bound. lia.
Qed.

(** [merkleize_impl] on whole chunks, with or without a limit. *)
Lemma merkleize_impl_tree hash cs limit :
  (forall b, hash b = default_hash_fn sha256 b) -> Forall is_chunk cs -> 0 <= limit ->
  (limit <> 0 -> len cs <= limit) ->
  let leaves := if limit =? 0 then len cs else limit in
  leaves <= 2 ^ 32 ->
  merkleize_impl sha256 hash (concat cs) limit = Ok (merkle_tree (Z.to_nat (Z.log2_up leaves)) cs).
Proof.
  intros Hh Hc Hl Hcount leaves Hleaves. unfold merkleize_impl.
  assert (len (concat cs) = 32 * len cs) as Hlen.
  { unfold len. rewrite (length_concat_same 32) by done. lia. }
  assert (div_ceil (len (concat cs)) 32 = len cs) as ->.
  { unfold div_ceil. rewrite Hlen. Z.to_euclidean_division_equations. lia. }
  assert ((if limit =? 0 then Ok (len cs) else if limit <? len cs
    then Err (CountGreaterThanLimit (len cs) limit) else Ok limit) = Ok leaves) as ->.
  { unfold leaves. destruct (limit =? 0) eqn:E; [done|]. zbool.
    by rewrite (proj2 (Z.ltb_ge _ _)) by (by apply Hcount). }
  cbn [mbind res_bind]. pose proof (len_nonneg cs).
  assert (len cs <= leaves) as Hle by (unfold leaves; destruct (limit =? 0) eqn:E; zbool; auto; lia).
  destruct (leaves =? 0) eqn:E0; zbool.
  { destruct cs; [|unfold len in *; cbn in *; lia]. by rewrite E0. }
  destruct (leaves =? 1) eqn:E1; zbool.
  { rewrite E1. destruct cs as [|c [|c' cs]]; [done| |unfold len in *; cbn in *; lia].
    apply list.Forall_cons in Hc as [Hc _]. rewrite Hlen. cbn -[take].
    rewrite app_nil_r, take_ge by (unfold is_chunk in Hc; lia). done. }
  rewrite get_depth_spec by lia. cbn [mbind res_bind].
  assert (0 <= Z.log2_up leaves <= 32) as Hd.
  { split; [apply Z.log2_up_nonneg|]. apply Z.log2_up_le_pow2; lia. }
  destruct cs as [|c cs].
  { cbn [concat]. rewrite ZERO_HASHES_lookup by lia. cbn. unfold merkle_tree. by rewrite tree_at_nil. }
  destruct (concat (c :: cs)) as [|x r] eqn:Ec; [unfold len in Hlen; cbn in Hlen; lia|].
  rewrite <-Ec. apply merkle_layers_tree; [done|lia|done|done|].
  apply Nat2Z.inj_le. rewrite Nat2Z.inj_pow, Z2Nat.id by lia.
  unfold len in Hle. pose proof (Z.log2_up_spec leaves). cbn in *. lia.
Qed.

(** ** What the walker leaves in its buffer *)

(** A 32-byte root mixed with a length. *)
Definition mix_in_length (root : list Z) (num : Z) : list Z := sha256 (root ++ le_bytes 32 num).

(** The buffer holds whole chunks. *)
Definition aligned (h : Hasher) : Prop := (length (buf h) mod 32 = 0)%nat.

Lemma tree_chunk i d cs : Forall is_chunk cs -> is_chunk (tree_at i d cs).
Proof.
  intros Hc. destruct d as [|d]; [|apply sha_len]. destruct Hc; [apply zero_hash_chunk|done].
Qed.

Lemma pad_aligned b : (length b mod 32 = 0)%nat -> pad_to_32 b = b.
Proof.
  intros Hb. unfold pad_to_32, len. change 32 with (Z.of_nat 32). by rewrite <-Nat2Z.inj_mod, Hb.
Qed.

Lemma length_pad b : length (pad_to_32 b) = (32 * ((length b + 31) / 32))%nat.
Proof.
  unfold pad_to_32, len. change 32 with (Z.of_nat 32). rewrite <-Nat2Z.inj_mod.
  pose proof (Nat.div_mod_eq (length b) 32) as Hd. pose proof (Nat.mod_upper_bound (length b) 32) as Hm.
  assert ((length b + 31) / 32 = if (length b mod 32 =? 0)%nat then length b / 32 else length b / 32 + 1)%nat as ->.
  { destruct (Nat.eqb_spec (length b mod 32) 0) as [E|E]; symmetry.
    - apply (Nat.div_unique _ _ _ 31); lia.
    - apply (Nat.div_unique _ _ _ (length b mod 32 - 1)); lia. }
  destruct (Nat.eqb_spec (length b mod 32) 0) as [E|E].
  - rewrite (proj2 (Z.eqb_eq (Z.of_nat (length b mod 32)) 0)) by lia. cbn [negb]. lia.
  - rewrite (proj2 (Z.eqb_neq _ _)) by lia. cbn [negb]. rewrite length_app, length_take.
    unfold ZERO_BYTES. rewrite length_replicate. lia.
Qed.

Lemma le_bytes_zero n : le_bytes n 0 = replicate n 0.
Proof. induction n as [|n IH]; cbn; [done|]. by rewrite Z.mod_0_l, Z.div_0_l, IH by lia. Qed.

Lemma le_bytes_more m n z : 0 <= z < 256 ^ Z.of_nat m -> le_bytes (m + n) z = le_bytes m z ++ replicate n 0.
Proof.
  revert z. induction m as [|m IH]; intros z Hz.
  - change (256 ^ Z.of_nat 0) with 1 in Hz. replace z with 0 by lia. apply le_bytes_zero.
  - rewrite Nat2Z.inj_succ, Z.pow_succ_r in Hz by lia. cbn [Nat.add le_bytes app]. f_equal. apply IH.
    split; [apply Z.div_pos; lia|]. apply Z.div_lt_upper_bound; lia.
Qed.

Lemma buf_update (h : Hasher) f : h <| buf ::= f |> = h <| buf := f (buf h) |>.
Proof. by destruct h. Qed.

Lemma buf_same (h : Hasher) : h <| buf := buf h |> = h.
Proof. by destruct h. Qed.

Section walker.
Context (h : Hasher) (Hh : forall b, hash_fn h b = default_hash_fn sha256 b).
Context (pre : list Z) (cs : list (list Z)) (Hbuf : buf h = pre ++ concat cs) (Hc : Forall is_chunk cs).

Lemma buf_from_pre : buf_from (length pre) h = (h, Ok (concat cs)).
Proof.
  unfold buf_from. proc_simp. rewrite Hbuf. rewrite (proj2 (Nat.ltb_ge _ _)) by (rewrite length_app; lia).
  by rewrite drop_app_length.
Qed.

Lemma replace_from_pre b : replace_from (length pre) b h = (h <| buf := pre ++ b |>, Ok tt).
Proof. unfold replace_from, p_modify. by rewrite buf_update, Hbuf, take_app_length. Qed.

Lemma merkleize_root :
  len cs <= 2 ^ 32 ->
  merkleize sha256 (length pre) h =
    (h <| buf := pre ++ merkle_tree (Z.to_nat (Z.log2_up (len cs))) cs |>, Ok tt).
Proof.
  intros Hl. unfold merkleize. rewrite (proc_step _ _ _ _ _ buf_from_pre). proc_simp.
  rewrite (merkleize_impl_tree (hash_fn h) cs 0) by (done || lia).
  apply replace_from_pre.
Qed.
End walker.

Lemma mixin_root h pre cs num limit :
  (forall b, hash_fn h b = default_hash_fn sha256 b) -> buf h = pre ++ concat cs ->
  (length pre mod 32 = 0)%nat -> Forall is_chunk cs ->
  len cs <= limit -> 0 < limit <= 2 ^ 32 -> 0 <= num <= U64_MAX ->
  merkleize_with_mixin sha256 (length pre) num limit h =
    (h <| buf := pre ++ mix_in_length (merkle_tree (Z.to_nat (Z.log2_up limit)) cs) num |>, Ok tt).
Proof.
  intros Hh Hbuf Hpre Hc Hcount Hlim Hnum. unfold merkleize_with_mixin, fill_up_to_32. proc_simp.
  assert (h <| buf ::= pad_to_32 |> = h) as ->.
  { rewrite buf_update, pad_aligned; [apply buf_same|]. rewrite Hbuf, length_app.
    rewrite (length_concat_same 32) by done. rewrite Nat.Div0.add_mod, Hpre, Nat.mul_comm, Nat.Div0.mod_mul. done. }
  rewrite (proc_step _ _ _ _ _ (buf_from_pre h pre cs Hbuf)). proc_simp.
  rewrite (merkleize_impl_tree (hash_fn h) cs limit) by
    (try done; destruct (limit =? 0) eqn:E; zbool; lia).
  rewrite (proj2 (Z.eqb_neq limit 0)) by lia.
  set (root := merkle_tree _ cs).
  assert (is_chunk root) as Hr by by apply tree_chunk.
  assert (root ++ le_bytes 8 num ++ replicate 24 0 = concat [root; le_bytes 32 num]) as ->.
  { cbn [concat]. rewrite app_nil_r. f_equal. change 32%nat with (8 + 24)%nat.
    symmetry. apply le_bytes_more. unfold U64_MAX in Hnum. change (256 ^ Z.of_nat 8) with (2 ^ 64). lia. }
  rewrite (proc_step _ _ _ _ _ (replace_from_pre h pre cs Hbuf root)). proc_simp.
  rewrite Hh, (hash_pairs 0); [| |by exists 1%nat].
  2: { apply list.Forall_cons. split; [done|]. apply list.Forall_singleton, length_le_bytes. }
  cbn [pair_layer concat]. rewrite app_nil_r. fold (mix_in_length root num).
  rewrite (replace_from_pre (h <| buf := pre ++ root |>) pre [root]).
  - by destruct h.
  - destruct h. cbn. by rewrite app_nil_r.
Qed.

(** ** Byte vectors and byte lists *)

(** The chunks of a byte string, the last one padded with zeros. *)
Definition pack (b : list Z) : list (list Z) := chunks 32 (pad_to_32 b).

Lemma pack_spec b :
  concat (pack b) = pad_to_32 b /\ Forall is_chunk (pack b) /\ len (pack b) = div_ceil (len b) 32.
Proof.
  destruct (chunks_exact 32 ((length b + 31) / 32) (pad_to_32 b)) as (H1 & H2 & H3); [lia|apply length_pad|].
  split_and!; [done|done|]. unfold len, div_ceil, pack. rewrite H3, Nat2Z.inj_div. f_equal. lia.
Qed.

Lemma pad_app pre b : (length pre mod 32 = 0)%nat -> pad_to_32 (pre ++ b) = pre ++ pad_to_32 b.
Proof.
  intros Hp. unfold pad_to_32. assert (len (pre ++ b) mod 32 = len b mod 32) as ->.
  { rewrite len_app, Z.add_mod by lia. assert (len pre mod 32 = 0) as ->; [|by rewrite Z.add_0_l, Z.mod_mod by lia].
    unfold len. change 32 with (Z.of_nat 32). by rewrite <-Nat2Z.inj_mod, Hp. }
  destruct (negb _); [by rewrite app_assoc|done].
Qed.

Lemma append_bytes32_pack h b :
  aligned h -> append_bytes32 b h = (h <| buf := buf h ++ concat (pack b) |>, Ok tt).
Proof.
  intros Ha. unfold append_bytes32, p_modify. rewrite buf_update, pad_app by done.
  by rewrite (proj1 (pack_spec b)).
Qed.

(** A byte vector becomes the root over its own chunks. *)
Lemma put_bytes_root h b :
  (forall b, hash_fn h b = default_hash_fn sha256 b) -> aligned h -> 32 < len b <= 2 ^ 37 ->
  put_bytes sha256 b h =
    (h <| buf := buf h ++ merkle_tree (Z.to_nat (Z.log2_up (div_ceil (len b) 32))) (pack b) |>, Ok tt).
Proof.
  intros Hh Ha H32. destruct (pack_spec b) as (_ & Hc & Hlen).
  assert (div_ceil (len b) 32 <= 2 ^ 32) by (unfold div_ceil; apply Z.lt_succ_r, Z.div_lt_upper_bound; lia).
  unfold put_bytes. rewrite (proj2 (Z.leb_gt _ _)) by lia.
  rewrite (proc_step _ _ h h (length (buf h))) by done.
  rewrite (proc_step _ _ _ _ _ (append_bytes32_pack h b Ha)).
  rewrite (merkleize_root (h <| buf := buf h ++ concat (pack b) |>) ltac:(by destruct h) (buf h) (pack b) ltac:(by destruct h) Hc) by lia.
  rewrite Hlen. by destruct h.
Qed.

Lemma merkle_tree_chunk d cs : Forall is_chunk cs -> is_chunk (merkle_tree d cs).
Proof. apply tree_chunk. Qed.

(** The root of a protobuf message is the root of the byte vector of its
    encoding, and is always found. *)
Theorem hash_proto_root b :
  len b <= 2 ^ 37 ->
  hash_proto_bytes sha256 b = Ok (merkle_tree (Z.to_nat (Z.log2_up (len (pack b)))) (pack b)).
Proof.
  intros Hb. destruct (pack_spec b) as (Hcat & Hc & Hlen). unfold hash_proto_bytes.
  set (h := hasher_default sha256). rewrite (proc_step _ _ h h 0%nat) by done.
  assert (exists cs, put_bytes sha256 b h = (h <| buf := concat cs |>, Ok tt) /\ Forall is_chunk cs /\ len cs <= 1 /\
    merkle_tree (Z.to_nat (Z.log2_up (len cs))) cs = merkle_tree (Z.to_nat (Z.log2_up (len (pack b)))) (pack b))
    as (cs & E & Hcs & Hl & Hroot).
  { destruct (decide (len b <= 32)) as [Hs|Hs].
    - exists (pack b). split_and!; [|done| |done].
      + unfold put_bytes. rewrite (proj2 (Z.leb_le _ _)) by done. by apply append_bytes32_pack.
      + rewrite Hlen. unfold div_ceil. apply Z.lt_succ_r, Z.div_lt_upper_bound; lia.
    - set (root := merkle_tree (Z.to_nat (Z.log2_up (len (pack b)))) (pack b)). exists [root].
      assert (is_chunk root) by by apply merkle_tree_chunk. split_and!; [|by constructor|done|done].
      rewrite put_bytes_root by (done || lia). unfold root. rewrite Hlen. cbn [concat]. by rewrite app_nil_r. }
  rewrite (proc_step _ _ _ _ _ E).
  pose proof (merkleize_root (h <| buf := concat cs |>) ltac:(done) [] cs ltac:(done) Hcs ltac:(lia)) as Em.
  cbn [length app] in Em. rewrite Em.
  rewrite Hroot. set (root := merkle_tree _ (pack b)).
  assert (length root = 32%nat) as Hr by by apply merkle_tree_chunk.
  unfold hash_root, hash, len. cbn -[drop Z.eqb Z.ltb root]. rewrite Hr. cbn. by rewrite drop_0.
Qed.

(** C32: hashing of byte strings is the tree of the specification.  A byte list
    with a limit becomes the root of the tree over the limit's number of
    leaves, mixed with its length; a longer byte vector becomes the root over
    its own chunks; what was in the buffer before stays. *)
Theorem byte_string_roots h b limit field :
  (forall b, hash_fn h b = default_hash_fn sha256 b) -> aligned h ->
  len b <= limit -> 0 < limit <= 2 ^ 37 ->
  put_byte_list sha256 b limit field h =
    (h <| buf := buf h ++
       mix_in_length (merkle_tree (Z.to_nat (Z.log2_up (div_ceil limit 32))) (pack b)) (len b) |>, Ok tt) /\
  (32 < len b -> put_bytes sha256 b h =
    (h <| buf := buf h ++ merkle_tree (Z.to_nat (Z.log2_up (div_ceil (len b) 32))) (pack b) |>, Ok tt)).
Proof.
  intros Hh Ha Hb Hl. destruct (pack_spec b) as (Hcat & Hc & Hlen). pose proof (len_nonneg b).
  assert (div_ceil (len b) 32 <= div_ceil limit 32 <= 2 ^ 32 /\ 0 < div_ceil limit 32) as [Hd Hd0].
  { unfold div_ceil. split; [split|].
    - apply Z.div_le_mono; lia.
    - apply Z.lt_succ_r, Z.div_lt_upper_bound; lia.
    - apply Z.div_str_pos. lia. }
  set (h1 := h <| buf := buf h ++ concat (pack b) |>).
  assert (forall b, hash_fn h1 b = default_hash_fn sha256 b) as Hh1 by by destruct h.
  assert (buf h1 = buf h ++ concat (pack b)) as Hb1 by by destruct h.
  assert (forall x, h1 <| buf := x |> = h <| buf := x |>) as Hset by by destruct h.
  split.
  - unfold put_byte_list. rewrite (proc_step _ _ h h (length (buf h))) by done.
    rewrite (proj2 (Z.ltb_ge _ _)) by done.
    rewrite (proc_step _ _ h h1 tt); [|by unfold map_walk_err; rewrite append_bytes32_pack].
    unfold map_walk_err. rewrite (mixin_root h1 (buf h) (pack b)); [by rewrite Hset|done..| | |].
    + rewrite Hlen. apply Hd.
    + split; [done|apply Hd].
    + unfold U64_MAX. lia.
  - intros H32. apply put_bytes_root; [done|done|lia].
Qed.
End tree.

(** A hash function of the right length, for concrete runs. *)
Definition length_hash (b : list Z) : list Z := le_bytes 32 (len b).

Lemma length_hash_len b : length (length_hash b) = 32%nat.
Proof. apply length_le_bytes. Qed.

Lemma byte_string_roots_witness :
  let h := hasher_default length_hash in
  put_byte_list length_hash [1; 2; 3] 64 "field" h =
    (h <| buf := mix_in_length length_hash (length_hash (pad_to_32 [1; 2; 3] ++ ZERO_BYTES)) 3 |>, Ok tt).
Proof.
  apply (byte_string_roots length_hash length_hash_len (hasher_default length_hash) [1; 2; 3] 64 "field");
    (done || lia).
Defined.
