(* ===== verification/SszBits.v ===== *)
(** * SSZ bit fields

    [BitList] and [BitVector] of [crates/ssz/src/types.rs] and the integer
    codecs of [encode.rs] and [decode.rs].  A bit field is understood as the
    integer its bytes spell in little-endian order: bit [i] of the field is
    bit [i] of that integer, which turns every operation into the operation on
    integers of the same name. *)

From Stdlib Require Import Sorting.Sorted.
From S2P Require Import Prelude Bytes SszHasher SszFacts.

(** ** Single bits of a byte buffer *)

Definition BIT_MASK : list Z := [1; 2; 4; 8; 16; 32; 64; 128].

(** [bytes[i / 8] & BIT_MASK[i % 8] != 0] *)
Definition test_bit {E} (bytes : list Z) (i : Z) : res E bool :=
  m ← expect (BIT_MASK !! Z.to_nat (i mod 8));
  b ← expect (bytes !! Z.to_nat (i / 8));
  Ok (negb (Z.land b m =? 0)).

(** [bytes[i / 8] |= BIT_MASK[i % 8]] and [bytes[i / 8] &= !BIT_MASK[i % 8]] *)
Definition or_bit {E} (bytes : list Z) (i : Z) : res E (list Z) :=
  m ← expect (BIT_MASK !! Z.to_nat (i mod 8));
  b ← expect (bytes !! Z.to_nat (i / 8));
  Ok (<[Z.to_nat (i / 8) := Z.lor b m]> bytes).
Definition clear_bit {E} (bytes : list Z) (i : Z) : res E (list Z) :=
  m ← expect (BIT_MASK !! Z.to_nat (i mod 8));
  b ← expect (bytes !! Z.to_nat (i / 8));
  Ok (<[Z.to_nat (i / 8) := Z.ldiff b m]> bytes).

(** The loop of the two [with_bits] functions over the bits to set. *)
Fixpoint set_bits {E} (capacity : Z) (bits : list Z) (bytes : list Z) : res E (list Z) :=
  match bits with
  | [] => Ok bytes
  | bit :: bits =>
      if bit <? capacity then bytes ← or_bit bytes bit; set_bits capacity bits bytes else Panic
  end.

(** The [DecodeError]s of the two decoders, by message. *)
Inductive DecodeError :=
| EmptyBitlist
| MissingSentinel
| BitlistTooLong (len max : Z)
| InvalidByteLength (len expected : Z)
| NonzeroPadding.

Inductive BitfieldError := DifferentLength.

(** [u8::leading_zeros] *)
Definition leading_zeros_u8 (b : Z) : Z := if b =? 0 then 8 else 7 - Z.log2 b.

Definition minimum_leaf_count_for_bits (len : Z) : Z := div_ceil len (32 * 8).

(** ** Bit lists *)

Record BitList := { bytes : list Z; bit_len : Z }.

Module Bits.
Definition default : BitList := {| bytes := []; bit_len := 0 |}.

Definition append_sentinel {E} (bytes : list Z) (len : Z) : res E (list Z) :=
  let sentinel_byte := len / 8 in
  let bytes := if Prelude.len bytes <=? sentinel_byte
               then bytes ++ replicate (Z.to_nat (Z.min U64_MAX (sentinel_byte + 1)) - length bytes) 0
               else bytes in
  or_bit bytes len.

Definition from_ssz_bytes (MAX : Z) (ssz : list Z) : res DecodeError BitList :=
  match last ssz with
  | None => Err EmptyBitlist
  | Some last_byte =>
      if last_byte =? 0 then Err MissingSentinel
      else
        let sentinel_pos := Z.max 0 (7 - leading_zeros_u8 last_byte) in
        let len := Z.min U64_MAX (Z.min U64_MAX ((Prelude.len ssz - 1) * 8) + sentinel_pos) in
        if (0 <? MAX) && (MAX <? len) then Err (BitlistTooLong len MAX)
        else
          let bytes := take (Z.to_nat (div_ceil len 8)) ssz in
          let rem := len mod 8 in
          bytes ← (if rem =? 0 then Ok bytes
                   else match last bytes with
                        | None => Ok bytes
                        | Some b =>
                            m ← expect (BIT_MASK !! Z.to_nat rem);
                            Ok (<[(length bytes - 1)%nat := Z.ldiff b m]> bytes)
                        end);
          Ok {| bytes := bytes; bit_len := len |}
  end.

Definition to_ssz_bytes {E} (b : BitList) : res E (list Z) := append_sentinel (bytes b) (bit_len b).

Definition with_bits {E} (capacity : Z) (bits : list Z) : res E BitList :=
  bytes ← set_bits capacity bits (replicate (Z.to_nat (div_ceil capacity 8)) 0);
  Ok {| bytes := bytes; bit_len := capacity |}.

Definition bit_at {E} (b : BitList) (i : Z) : res E bool :=
  if bit_len b <=? i then Ok false else test_bit (bytes b) i.

Definition set_bit_at {E} (b : BitList) (i : Z) (value : bool) : res E BitList :=
  if bit_len b <=? i then Ok b
  else
    bs ← (if value then or_bit (bytes b) i else clear_bit (bytes b) i);
    Ok {| bytes := bs; bit_len := bit_len b |}.

(** [(0..len).filter(bit_at)]: the scan from index [i] over [n] more bits. *)
Fixpoint scan {E} (at_ : Z -> res E bool) (n : nat) (i : Z) : res E (list Z) :=
  match n with
  | O => Ok []
  | S n => b ← at_ i; rest ← scan at_ n (i + 1); Ok (if (b : bool) then i :: rest else rest)
  end.
Definition bit_indices {E} (b : BitList) : res E (list Z) := scan (bit_at b) (Z.to_nat (bit_len b)) 0.

Definition contains (self other : BitList) : res BitfieldError bool :=
  if negb (bit_len self =? bit_len other) then Err DifferentLength
  else Ok (forallb (fun '(o, s) => Z.land o s =? o) (zip (bytes other) (bytes self))).

Definition or (self other : BitList) : res BitfieldError BitList :=
  if negb (bit_len self =? bit_len other) then Err DifferentLength
  else Ok {| bytes := zip_with Z.lor (bytes self) (bytes other); bit_len := bit_len self |}.
End Bits.

(** ** Bit vectors of [SIZE] bits *)

Module Vector.
Section vector.
Context (SIZE : Z).

Definition default : list Z := replicate (Z.to_nat (div_ceil SIZE 8)) 0.
Definition with_bits {E} (bits : list Z) : res E (list Z) := set_bits SIZE bits default.
Definition bit_at {E} (v : list Z) (i : Z) : res E bool :=
  if SIZE <=? i then Ok false else test_bit v i.
Definition set_bit_at {E} (v : list Z) (i : Z) (value : bool) : res E (list Z) :=
  if SIZE <=? i then Ok v else if value then or_bit v i else clear_bit v i.
Definition bit_indices {E} (v : list Z) : res E (list Z) := Bits.scan (bit_at v) (Z.to_nat SIZE) 0.

Definition padding_is_zero (bytes : list Z) : bool :=
  let rem := SIZE mod 8 in
  if rem =? 0 then true
  else match last bytes with
       | Some b => Z.shiftr b rem =? 0
       | None => true
       end.

Definition from_ssz_bytes (bytes : list Z) : res DecodeError (list Z) :=
  let expected := div_ceil SIZE 8 in
  if negb (len bytes =? expected) then Err (InvalidByteLength (len bytes) expected)
  else if negb (padding_is_zero bytes) then Err NonzeroPadding
  else Ok bytes.
Definition ssz_append (v buf : list Z) : list Z := buf ++ v.
End vector.
End Vector.

(** ** Merkle roots, from the [tree_hash] crate's two functions *)
Section roots.
Context (merkle_root : list Z -> Z -> list Z) (mix_in : list Z -> Z -> list Z).

Definition bitlist_root (MAX : Z) (b : BitList) : list Z :=
  mix_in (merkle_root (bytes b) (minimum_leaf_count_for_bits MAX)) (bit_len b).
Definition bitvector_root (SIZE : Z) (v : list Z) : list Z :=
  merkle_root v (minimum_leaf_count_for_bits SIZE).
End roots.

(** ** Integer codecs *)

Inductive SszBinaryError :=
| InvalidLength (expected actual : Z)
| InvalidBool (v : Z).

Definition encode_u8 (value : Z) : list Z := [value].
Definition encode_u32 (value : Z) : list Z := le_bytes 4 value.
Definition encode_u64 (value : Z) : list Z := le_bytes 8 value.
Definition encode_bool (value : bool) : list Z := [if value then 1 else 0].

Definition decode_fixed_bytes (n : nat) (bytes : list Z) : res SszBinaryError (list Z) :=
  if (length bytes =? n)%nat then Ok bytes else Err (InvalidLength (Z.of_nat n) (len bytes)).
Definition decode_u8 (bytes : list Z) : res SszBinaryError Z :=
  arr ← decode_fixed_bytes 1 bytes; expect (arr !! 0%nat).
Definition decode_u32 (bytes : list Z) : res SszBinaryError Z :=
  arr ← decode_fixed_bytes 4 bytes; Ok (le_value arr).
Definition decode_u64 (bytes : list Z) : res SszBinaryError Z :=
  arr ← decode_fixed_bytes 8 bytes; Ok (le_value arr).
Definition decode_bool (bytes : list Z) : res SszBinaryError bool :=
  v ← decode_u8 bytes;
  if v =? 0 then Ok false else if v =? 1 then Ok true else Err (InvalidBool v).

(** ** A byte buffer as an integer *)

Lemma testbit_byte_cons x v i :
  is_byte x -> 0 <= i ->
  Z.testbit (x + 256 * v) i = if i <? 8 then Z.testbit x i else Z.testbit v (i - 8).
Proof.
  intros Hx Hi. unfold is_byte in Hx. destruct (i <? 8) eqn:E; zbool.
  - rewrite <-(Z.mod_pow2_bits_low (x + 256 * v) 8 i) by lia. f_equal.
    change (2 ^ 8) with 256. rewrite Z.mul_comm, Z.mod_add, Z.mod_small; lia.
  - replace i with (i - 8 + 8) at 1 by lia. rewrite <-Z.div_pow2_bits by lia. f_equal.
    change (2 ^ 8) with 256. rewrite Z.mul_comm, Z.div_add, Z.div_small; lia.
Qed.

Lemma byte_high_bits x i : is_byte x -> 8 <= i -> Z.testbit x i = false.
Proof.
  intros Hx Hi. unfold is_byte in Hx. destruct (decide (x = 0)) as [->|]; [apply Z.bits_0|].
  apply Z.bits_above_log2; [lia|]. apply Z.log2_lt_pow2; [lia|].
  pose proof (Z.pow_le_mono_r 2 8 i). lia.
Qed.

Lemma is_byte_bits x : 0 <= x -> (forall i, 8 <= i -> Z.testbit x i = false) -> is_byte x.
Proof.
  intros H0 Hb. split; [done|]. destruct (decide (x = 0)) as [->|]; [lia|].
  change 256 with (2 ^ 8). apply Z.log2_lt_pow2; [lia|].
  destruct (decide (Z.log2 x < 8)); [done|].
  pose proof (Z.bit_log2 x ltac:(lia)) as H. by rewrite Hb in H by lia.
Qed.

(** Bit [i] of the integer is bit [i mod 8] of byte [i / 8]. *)
Lemma testbit_le_value bs i :
  Forall is_byte bs -> 0 <= i ->
  Z.testbit (le_value bs) i = Z.testbit (default 0 (bs !! Z.to_nat (i / 8))) (i mod 8).
Proof.
  intros Hbs. revert i. induction Hbs as [|x bs Hx Hbs IH]; intros i Hi; cbn [le_value].
  - rewrite lookup_nil. cbn. by rewrite !Z.bits_0.
  - rewrite testbit_byte_cons by done. destruct (i <? 8) eqn:E; zbool.
    + rewrite Z.div_small, Z.mod_small by lia. done.
    + rewrite IH by lia.
      assert (i / 8 = (i - 8) / 8 + 1) as ->
        by (replace i with (i - 8 + 1 * 8) at 1 by lia; by rewrite Z.div_add by lia).
      assert (i mod 8 = (i - 8) mod 8) as ->
        by (replace i with (i - 8 + 1 * 8) at 1 by lia; by rewrite Z.mod_add by lia).
      rewrite Z2Nat.inj_add by (try apply Z.div_pos; lia). by rewrite Nat.add_1_r.
Qed.

Lemma le_value_inj b1 b2 :
  Forall is_byte b1 -> Forall is_byte b2 -> length b1 = length b2 ->
  le_value b1 = le_value b2 -> b1 = b2.
Proof. intros H1 H2 Hl Hv. by rewrite <-(le_bytes_value b1), <-(le_bytes_value b2), Hl, Hv. Qed.

Lemma mask_lookup i : BIT_MASK !! Z.to_nat (i mod 8) = Some (2 ^ (i mod 8)).
Proof.
  pose proof (Z.mod_pos_bound i 8) as Hi. specialize (Hi ltac:(lia)).
  assert (i mod 8 = 0 \/ i mod 8 = 1 \/ i mod 8 = 2 \/ i mod 8 = 3 \/ i mod 8 = 4 \/
          i mod 8 = 5 \/ i mod 8 = 6 \/ i mod 8 = 7) as E by lia.
  by destruct E as [->|[->|[->|[->|[->|[->|[->| ->]]]]]]].
Qed.

Section single.
Context (bs : list Z) (i : Z) (Hbs : Forall is_byte bs) (Hi : 0 <= i < 8 * len bs).

Lemma byte_of_bit : exists b, bs !! Z.to_nat (i / 8) = Some b /\ is_byte b.
Proof.
  destruct (lookup_lt_is_Some_2 bs (Z.to_nat (i / 8))) as [b Hb].
  - apply Nat2Z.inj_lt. rewrite Z2Nat.id by (apply Z.div_pos; lia). apply Z.div_lt_upper_bound; [lia|]. apply Hi.
  - exists b. split; [done|]. by eapply Forall_lookup_1 in Hb.
Qed.

Lemma test_bit_value {E} : test_bit bs i = @Ok E bool (Z.testbit (le_value bs) i).
Proof.
  destruct byte_of_bit as (b & Hb & Hbyte). unfold test_bit. rewrite mask_lookup, Hb. cbn. f_equal.
  rewrite testbit_le_value, Hb by (done || lia). cbv [default from_option id].
  pose proof (Z.mod_pos_bound i 8) as Hm. specialize (Hm ltac:(lia)).
  destruct (Z.testbit b (i mod 8)) eqn:E1.
  - apply negb_true_iff, Z.eqb_neq. intros H0.
    assert (Z.testbit (Z.land b (2 ^ (i mod 8))) (i mod 8) = true) as H1.
    { rewrite Z.land_spec, E1, Z.pow2_bits_true by lia. done. }
    by rewrite H0, Z.bits_0 in H1.
  - apply negb_false_iff, Z.eqb_eq. apply Z.bits_inj'. intros k Hk. rewrite Z.land_spec, Z.bits_0.
    rewrite Z.pow2_bits_eqb by lia. destruct (Z.eqb_spec (i mod 8) k) as [E2|]; [by rewrite <-E2, E1|].
    apply andb_false_r.
Qed.

(** Updating the byte that holds bit [i]. *)
Lemma byte_update f g :
  (forall b, is_byte b -> is_byte (f b)) -> 0 <= g ->
  (forall b j, is_byte b -> 0 <= j < 8 ->
     Z.testbit (f b) j = if j =? i mod 8 then Z.testbit g i else Z.testbit b j) ->
  (forall j, 0 <= j -> j <> i -> Z.testbit g j = Z.testbit (le_value bs) j) ->
  exists b, bs !! Z.to_nat (i / 8) = Some b /\
    Forall is_byte (<[Z.to_nat (i / 8) := f b]> bs) /\ le_value (<[Z.to_nat (i / 8) := f b]> bs) = g.
Proof.
  intros Hf Hg Hbit Hother. destruct byte_of_bit as (b & Hb & Hbyte).
  exists b. split; [done|]. assert (Forall is_byte (<[Z.to_nat (i / 8) := f b]> bs)) as Hall
    by (apply Forall_insert; auto).
  split; [done|]. apply Z.bits_inj'. intros j Hj. rewrite testbit_le_value by done.
  pose proof (Z.mod_pos_bound j 8 ltac:(lia)) as Hjm.
  pose proof (Z.div_mod i 8 ltac:(lia)). pose proof (Z.div_mod j 8 ltac:(lia)).
  pose proof (Z.div_pos i 8 ltac:(lia) ltac:(lia)). pose proof (Z.div_pos j 8 ltac:(lia) ltac:(lia)).
  pose proof (lookup_lt_Some _ _ _ Hb) as Hlt.
  destruct (decide (j / 8 = i / 8)) as [E|E].
  - rewrite E, list_lookup_insert_eq by done. cbv [default from_option id]. rewrite Hbit by done.
    destruct (Z.eqb_spec (j mod 8) (i mod 8)) as [Em|Em]; [by replace j with i by lia|].
    rewrite Hother by (done || congruence). by rewrite testbit_le_value, E, Hb.
  - rewrite list_lookup_insert_ne by lia. rewrite Hother by (done || congruence).
    by rewrite testbit_le_value.
Qed.

Lemma or_bit_value {E} :
  exists bs', or_bit bs i = @Ok E _ bs' /\ Forall is_byte bs' /\ length bs' = length bs /\
    le_value bs' = Z.setbit (le_value bs) i.
Proof.
  pose proof (Z.mod_pos_bound i 8 ltac:(lia)). pose proof (le_value_bound bs Hbs).
  destruct (byte_update (fun b => Z.lor b (2 ^ (i mod 8))) (Z.setbit (le_value bs) i)) as (b & Hb & H1 & H2).
  - intros b Hb. apply is_byte_bits.
    + apply Z.lor_nonneg. split; [apply Hb|]. apply Z.pow_nonneg. lia.
    + intros j Hj. rewrite Z.lor_spec, byte_high_bits, Z.pow2_bits_false by (done || lia). done.
  - rewrite Z.setbit_spec'. apply Z.lor_nonneg. split; [lia|]. apply Z.pow_nonneg. lia.
  - intros b j _ Hj. rewrite Z.lor_spec, Z.setbit_eq, Z.pow2_bits_eqb by lia.
    rewrite (Z.eqb_sym (i mod 8)). destruct (j =? i mod 8); [apply orb_true_r|apply orb_false_r].
  - intros j _ Hj. by apply Z.setbit_neq; lia.
  - unfold or_bit. rewrite mask_lookup, Hb. eexists. split; [reflexivity|]. by rewrite length_insert.
Qed.

Lemma clear_bit_value {E} :
  exists bs', clear_bit bs i = @Ok E _ bs' /\ Forall is_byte bs' /\ length bs' = length bs /\
    le_value bs' = Z.clearbit (le_value bs) i.
Proof.
  pose proof (Z.mod_pos_bound i 8 ltac:(lia)). pose proof (le_value_bound bs Hbs).
  destruct (byte_update (fun b => Z.ldiff b (2 ^ (i mod 8))) (Z.clearbit (le_value bs) i)) as (b & Hb & H1 & H2).
  - intros b Hb. apply is_byte_bits.
    + apply Z.ldiff_nonneg. left. apply Hb.
    + intros j Hj. rewrite Z.ldiff_spec, byte_high_bits by done. done.
  - rewrite Z.clearbit_spec'. apply Z.ldiff_nonneg. left. lia.
  - intros b j _ Hj. rewrite Z.ldiff_spec, Z.clearbit_eq, Z.pow2_bits_eqb by lia.
    rewrite (Z.eqb_sym (i mod 8)). destruct (j =? i mod 8); [apply andb_false_r|apply andb_true_r].
  - intros j _ Hj. by apply Z.clearbit_neq; lia.
  - unfold clear_bit. rewrite mask_lookup, Hb. eexists. split; [reflexivity|]. by rewrite length_insert.
Qed.
End single.

(** ** Well-formed bit lists *)

(** As many bytes as the bits need, and no bit above the last one. *)
Definition bits_wf (n : Z) (bs : list Z) : Prop :=
  Forall is_byte bs /\ len bs = div_ceil n 8 /\ le_value bs < 2 ^ n.
Definition wf (b : BitList) : Prop := 0 <= bit_len b <= U64_MAX /\ bits_wf (bit_len b) (bytes b).

Lemma div_ceil8 n : 0 <= n -> n <= 8 * div_ceil n 8 < n + 8.
Proof. intros Hn. unfold div_ceil. pose proof (Z.div_mod (n + 8 - 1) 8). pose proof (Z.mod_pos_bound (n + 8 - 1) 8). lia. Qed.

(** A natural number is below a power of two when its high bits are clear. *)
Lemma lt_pow2_bits v n : 0 <= v -> 0 <= n -> (v < 2 ^ n <-> forall i, n <= i -> Z.testbit v i = false).
Proof.
  intros Hv Hn. split.
  - intros Hlt i Hi. destruct (decide (v = 0)) as [->|]; [apply Z.bits_0|].
    apply Z.bits_above_log2; [done|]. apply Z.log2_lt_pow2; [lia|].
    pose proof (Z.pow_le_mono_r 2 n i). lia.
  - intros Hb. destruct (decide (v = 0)) as [->|]; [by apply Z.pow_pos_nonneg|].
    apply Z.log2_lt_pow2; [lia|]. destruct (decide (Z.log2 v < n)); [done|].
    pose proof (Z.bit_log2 v ltac:(lia)) as H. by rewrite Hb in H by lia.
Qed.

Section wellformed.
Context (n : Z) (bs : list Z) (Hn : 0 <= n) (Hwf : bits_wf n bs).

Lemma wf_high i : n <= i -> Z.testbit (le_value bs) i = false.
Proof.
  destruct Hwf as (Hb & _ & Hv). pose proof (le_value_bound bs Hb).
  apply lt_pow2_bits; lia || done.
Qed.

Lemma wf_covers i : 0 <= i < n -> 0 <= i < 8 * len bs.
Proof. destruct Hwf as (_ & -> & _). pose proof (div_ceil8 n). lia. Qed.

(** A buffer of the same length with no bits above [n]. *)
Lemma wf_update bs' :
  Forall is_byte bs' -> length bs' = length bs ->
  (forall i, n <= i -> Z.testbit (le_value bs') i = false) -> bits_wf n bs'.
Proof.
  intros Hb Hl Hbit. destruct Hwf as (_ & Hlen & _). pose proof (le_value_bound bs' Hb).
  split_and!; [done| |apply lt_pow2_bits; [lia..|done]]. unfold len in *. by rewrite Hl.
Qed.

Lemma or_bit_wf {E} i :
  0 <= i < n -> exists bs', or_bit bs i = @Ok E _ bs' /\ bits_wf n bs' /\
    le_value bs' = Z.setbit (le_value bs) i.
Proof.
  intros Hi. destruct (@or_bit_value bs i (proj1 Hwf) (wf_covers i Hi) E) as (bs' & E1 & Hb & Hl & Hv).
  exists bs'. split_and!; [done| |done]. apply wf_update; [done..|].
  intros j Hj. rewrite Hv, Z.setbit_neq by lia. by apply wf_high.
Qed.

Lemma clear_bit_wf {E} i :
  0 <= i < n -> exists bs', clear_bit bs i = @Ok E _ bs' /\ bits_wf n bs' /\
    le_value bs' = Z.clearbit (le_value bs) i.
Proof.
  intros Hi. destruct (@clear_bit_value bs i (proj1 Hwf) (wf_covers i Hi) E) as (bs' & E1 & Hb & Hl & Hv).
  exists bs'. split_and!; [done| |done]. apply wf_update; [done..|].
  intros j Hj. rewrite Hv, Z.clearbit_neq by lia. by apply wf_high.
Qed.
End wellformed.

Lemma zeros_wf n : 0 <= n -> bits_wf n (replicate (Z.to_nat (div_ceil n 8)) 0).
Proof.
  intros Hn. split_and!.
  - apply Forall_replicate. unfold is_byte. lia.
  - unfold len. rewrite length_replicate. pose proof (div_ceil8 n). lia.
  - rewrite <-(app_nil_l (replicate _ _)), le_value_zeros. cbn. by apply Z.pow_pos_nonneg.
Qed.

(** Setting bits in range succeeds; afterwards exactly the old and the listed
    bits are set. *)
Lemma set_bits_ok {E} n l bs :
  0 <= n -> bits_wf n bs -> Forall (fun i => 0 <= i < n) l ->
  exists bs', set_bits n l bs = @Ok E _ bs' /\ bits_wf n bs' /\
    forall i, 0 <= i -> Z.testbit (le_value bs') i = bool_decide (i ∈ l) || Z.testbit (le_value bs) i.
Proof.
  intros Hn Hwf Hl. revert bs Hwf. induction Hl as [|x l Hx Hl IH]; intros bs Hwf; cbn [set_bits].
  - by exists bs.
  - rewrite (proj2 (Z.ltb_lt _ _)) by lia.
    destruct (@or_bit_wf n bs Hn Hwf E x Hx) as (bs1 & E1 & Hwf1 & Hv1). rewrite E1. cbn [mbind res_bind].
    destruct (IH bs1 Hwf1) as (bs2 & E2 & Hwf2 & Hbits). exists bs2. split_and!; [done..|].
    intros i Hi. rewrite Hbits, Hv1 by done. destruct (decide (i = x)) as [->|Hne].
    + rewrite Z.setbit_eq by done. rewrite (bool_decide_eq_true_2 (x ∈ x :: l)) by set_solver. apply orb_true_r.
    + rewrite Z.setbit_neq by lia. f_equal. apply bool_decide_ext. set_solver.
Qed.

(** ** The encoding *)

Lemma le_value_bits bs : Forall is_byte bs -> 0 <= le_value bs < 2 ^ (8 * len bs).
Proof. intros H. rewrite Z.pow_mul_r by (pose proof (len_nonneg bs); lia). by apply le_value_bound. Qed.

(** The top bit of an encoding whose last byte is not zero. *)
Lemma log2_snoc bs x :
  Forall is_byte bs -> 0 < x -> Z.log2 (le_value (bs ++ [x])) = 8 * len bs + Z.log2 x.
Proof.
  intros Hb Hx. pose proof (le_value_bits bs Hb). pose proof (len_nonneg bs). rewrite le_value_snoc.
  pose proof (Z.log2_spec x Hx). pose proof (Z.log2_nonneg x).
  apply Z.log2_unique; [lia|]. rewrite <-Z.add_succ_r, !Z.pow_add_r by lia. nia.
Qed.

Section coded.
Context (b : BitList) (Hwf : wf b).

Lemma encode_spec {E} :
  exists ssz, Bits.to_ssz_bytes b = @Ok E _ ssz /\ Forall is_byte ssz /\
    len ssz = bit_len b / 8 + 1 /\ le_value ssz = le_value (bytes b) + 2 ^ bit_len b.
Proof.
  destruct Hwf as [[Hn0 Hn] Hbits]. pose proof Hbits as (Hb & Hlen & Hv).
  pose proof (Z.div_mod (bit_len b) 8 ltac:(lia)). pose proof (Z.mod_pos_bound (bit_len b) 8 ltac:(lia)).
  pose proof (div_ceil8 (bit_len b) Hn0). unfold Bits.to_ssz_bytes, Bits.append_sentinel.
  set (bs := if _ <=? _ then _ else _).
  assert (Forall is_byte bs /\ len bs = bit_len b / 8 + 1 /\ le_value bs = le_value (bytes b)) as (Hb1 & Hl1 & Hv1).
  { subst bs. destruct (_ <=? _) eqn:E1; zbool.
    - rewrite Z.min_r by (unfold U64_MAX in *; lia). split_and!; [|unfold len in *|apply le_value_zeros].
      + apply Forall_app. split; [done|]. apply Forall_replicate. unfold is_byte. lia.
      + rewrite length_app, length_replicate. lia.
    - split_and!; [done|lia|done]. }
  destruct (@or_bit_value bs (bit_len b) Hb1 ltac:(lia) E) as (ssz & E1 & Hb2 & Hl2 & Hv2).
  exists ssz. split_and!; [done..|unfold len in *; lia|]. rewrite Hv2, Hv1.
  rewrite Z.setbit_spec'. symmetry. apply Z.add_nocarry_lor, Z.bits_inj'. intros i Hi. rewrite Z.land_spec, Z.bits_0.
  rewrite Z.pow2_bits_eqb by done. destruct (Z.eqb_spec (bit_len b) i) as [Ei|]; [|apply andb_false_r].
  by rewrite (wf_high (bit_len b)) by (done || lia).
Qed.
End coded.

Lemma ldiff_top x : 0 < x -> Z.ldiff x (2 ^ Z.log2 x) = x - 2 ^ Z.log2 x.
Proof.
  intros Hx. symmetry. apply Z.sub_nocarry_ldiff, Z.bits_inj'. intros i Hi.
  rewrite Z.ldiff_spec, Z.bits_0, Z.pow2_bits_eqb by apply Z.log2_nonneg.
  destruct (Z.eqb_spec (Z.log2 x) i) as [<-|]; [|done]. by rewrite Z.bit_log2.
Qed.

Lemma below_top v : 0 < v -> v - 2 ^ Z.log2 v < 2 ^ Z.log2 v.
Proof.
  intros Hv. pose proof (Z.log2_spec v Hv) as [_ H]. rewrite Z.pow_succ_r in H by apply Z.log2_nonneg. lia.
Qed.

(** The decoder finds the top bit of the encoding. *)
Lemma decode_len bs x :
  let ssz := bs ++ [x] in
  let n := Z.log2 (le_value ssz) in
  Forall is_byte ssz -> n <= U64_MAX -> x <> 0 ->
  0 < x < 256 /\ 0 <= Z.log2 x < 8 /\ n = 8 * len bs + Z.log2 x /\ n mod 8 = Z.log2 x /\
  Z.min U64_MAX (Z.min U64_MAX ((len ssz - 1) * 8) + Z.max 0 (7 - leading_zeros_u8 x)) = n.
Proof.
  intros ssz n [Hb [Hbx _]%Forall_cons]%Forall_app Hn Hx. unfold is_byte in Hbx.
  assert (n = 8 * len bs + Z.log2 x) as Hn' by (apply log2_snoc; [done|lia]).
  pose proof (Z.log2_nonneg x). assert (Z.log2 x < 8) by (apply Z.log2_lt_pow2; lia).
  pose proof (len_nonneg bs). assert (len ssz = len bs + 1) as -> by (unfold ssz; by rewrite len_app).
  split_and!; [lia..| |].
  - rewrite Hn', Z.mul_comm, Z.add_comm, Z.mod_add, Z.mod_small; lia.
  - unfold leading_zeros_u8. rewrite (proj2 (Z.eqb_neq x 0)) by done.
    rewrite Z.min_r, Z.min_r, Z.max_r by (unfold U64_MAX in *; lia). lia.
Qed.

(** What the decoder does with an encoding that ends in a nonzero byte. *)
Lemma decode_spec MAX bs x :
  let ssz := bs ++ [x] in
  let n := Z.log2 (le_value ssz) in
  Forall is_byte ssz -> n <= U64_MAX -> x <> 0 -> (0 < MAX -> n <= MAX) ->
  exists b, Bits.from_ssz_bytes MAX ssz = Ok b /\ wf b /\ bit_len b = n /\
    le_value (bytes b) = le_value ssz - 2 ^ n.
Proof.
  intros ssz n Hssz Hmax64 Hx Hmax. pose proof Hssz as [Hb _]%Forall_app.
  destruct (decode_len bs x Hssz Hmax64 Hx) as (Hbx & Hlx & Hn & Hrem & Hlen). fold ssz n in Hn, Hrem, Hlen.
  pose proof (len_nonneg bs). assert (0 < x) as Hx0 by lia.
  assert (len ssz = len bs + 1) as Hls by (unfold ssz; by rewrite len_app).
  unfold Bits.from_ssz_bytes, ssz. rewrite last_snoc. rewrite (proj2 (Z.eqb_neq x 0)) by done. fold ssz.
  rewrite Hlen.
  assert ((0 <? MAX) && (MAX <? n) = false) as ->.
  { apply andb_false_iff. destruct (Z.ltb_spec 0 MAX); [right; apply Z.ltb_ge; auto|by left]. }
  assert (le_value ssz - 2 ^ n < 2 ^ n) as Hlow.
  { apply below_top. unfold ssz. rewrite le_value_snoc. pose proof (le_value_bits bs Hb).
    pose proof (Z.pow_pos_nonneg 2 (8 * len bs)). nia. }
  rewrite Hrem. destruct (Z.eqb_spec (Z.log2 x) 0) as [E0|E0].
  - assert (x = 1) as -> by (pose proof (Z.log2_spec x Hx0); rewrite E0 in *; cbn in *; lia).
    assert (take (Z.to_nat (div_ceil n 8)) ssz = bs) as ->.
    { assert (div_ceil n 8 = len bs) as -> by (pose proof (div_ceil8 n ltac:(lia)); lia).
      unfold len, ssz. by rewrite Nat2Z.id, take_app_length. }
    cbn [mbind res_bind]. eexists. split; [done|]. cbn [bytes bit_len].
    assert (le_value bs = le_value ssz - 2 ^ n) as Hv.
    { unfold ssz. rewrite le_value_snoc, Hn, E0, Z.add_0_r. lia. }
    split_and!; [|done|done]. split; cbn [bytes bit_len]; [lia|]. split_and!; [done| |lia].
    pose proof (div_ceil8 n ltac:(lia)). lia.
  - assert (take (Z.to_nat (div_ceil n 8)) ssz = ssz) as ->.
    { apply take_ge. pose proof (div_ceil8 n ltac:(lia)). unfold len in *. lia. }
    rewrite <-Hrem, mask_lookup, Hrem. unfold ssz at 1. rewrite last_snoc. cbn [expect mbind res_bind].
    assert (<[(length ssz - 1)%nat := Z.ldiff x (2 ^ Z.log2 x)]> ssz = bs ++ [x - 2 ^ Z.log2 x]) as ->.
    { rewrite ldiff_top by done. unfold ssz. rewrite length_app. cbn [length].
      rewrite insert_app_r_alt by lia. by replace (length bs + 1 - 1 - length bs)%nat with 0%nat by lia. }
    eexists. split; [done|]. cbn [bytes bit_len].
    assert (le_value (bs ++ [x - 2 ^ Z.log2 x]) = le_value ssz - 2 ^ n) as Hv.
    { unfold ssz. rewrite !le_value_snoc, Hn, Z.pow_add_r by lia. lia. }
    split_and!; [|done|done]. pose proof (Z.log2_spec x Hx0). pose proof (Z.pow_pos_nonneg 2 (Z.log2 x)).
    split; cbn [bytes bit_len]; [lia|]. split_and!; [| |lia].
    + apply Forall_app. split; [done|]. apply Forall_singleton. unfold is_byte. lia.
    + rewrite len_app. change (len [_]) with 1. pose proof (div_ceil8 n ltac:(lia)). lia.
Qed.

Lemma wf_ext (a b : BitList) :
  wf a -> wf b -> bit_len a = bit_len b -> le_value (bytes a) = le_value (bytes b) -> a = b.
Proof.
  intros [_ (Ha & Hla & _)] [_ (Hb & Hlb & _)] Hl Hv.
  destruct a as [ba la], b as [bb lb]. cbn in *. subst lb. f_equal.
  apply le_value_inj; [done..| |done]. unfold len in *. lia.
Qed.

Lemma log2_top v n : 0 <= v < 2 ^ n -> 0 <= n -> Z.log2 (v + 2 ^ n) = n.
Proof. intros Hv Hn. apply Z.log2_unique; [done|]. rewrite Z.pow_succ_r by done. lia. Qed.

(** The last byte of an encoding carries the sentinel. *)
Lemma nonzero_last ssz k :
  Forall is_byte ssz -> len ssz = k / 8 + 1 -> 0 <= k -> 2 ^ k <= le_value ssz ->
  exists bs x, ssz = bs ++ [x] /\ x <> 0.
Proof.
  intros Hb Hl Hk Hv. destruct ssz as [|x bs _] using rev_ind.
  { unfold len in Hl. cbn in Hl. pose proof (Z.div_pos k 8). lia. }
  exists bs, x. split; [done|]. intros ->. rewrite le_value_snoc, Z.mul_0_r, Z.add_0_r in Hv.
  apply Forall_app in Hb as [Hb _]. pose proof (le_value_bits bs Hb) as Hbd.
  rewrite len_app in Hl. change (len [0]) with 1 in Hl.
  pose proof (Z.div_mod k 8). pose proof (Z.mod_pos_bound k 8).
  pose proof (Z.pow_le_mono_r 2 (8 * len bs) k). lia.
Qed.

Lemma decode_inv MAX ssz b :
  Forall is_byte ssz -> 8 * len ssz <= U64_MAX -> Bits.from_ssz_bytes MAX ssz = Ok b ->
  exists bs x, ssz = bs ++ [x] /\ x <> 0 /\ Z.log2 (le_value ssz) <= U64_MAX /\
    (0 < MAX -> Z.log2 (le_value ssz) <= MAX).
Proof.
  intros Hb Hsize Hdec. destruct ssz as [|x bs _] using rev_ind; [done|].
  unfold Bits.from_ssz_bytes in Hdec. rewrite last_snoc in Hdec.
  destruct (Z.eqb_spec x 0) as [|Hx]; [done|].
  assert (Z.log2 (le_value (bs ++ [x])) <= U64_MAX) as Hn.
  { pose proof Hb as [Hbs [Hbx _]%Forall_cons]%Forall_app. unfold is_byte in Hbx. rewrite log2_snoc by (done || lia).
    assert (Z.log2 x < 8) by (apply Z.log2_lt_pow2; lia). rewrite len_app in Hsize. change (len [x]) with 1 in Hsize. lia. }
  exists bs, x. split_and!; [done..|]. destruct (decode_len bs x) as (_ & _ & _ & _ & Hl); [done..|].
  rewrite Hl in Hdec. intros Hmax. destruct ((0 <? MAX) && (MAX <? _)) eqn:E; [done|].
  apply andb_false_iff in E as [E|E]; zbool; lia.
Qed.

Lemma bits_read_back MAX b :
  wf b -> (0 < MAX -> bit_len b <= MAX) ->
  exists ssz, @Bits.to_ssz_bytes DecodeError b = Ok ssz /\ Bits.from_ssz_bytes MAX ssz = Ok b.
Proof.
  intros Hwf Hmax.
  destruct (encode_spec b Hwf (E := DecodeError)) as (ssz & E & Hb & Hl & Hv).
  exists ssz. split; [done|]. pose proof Hwf as [[Hn0 Hn] (Hbb & _ & Hlt)].
  pose proof (le_value_bound _ Hbb) as [Hpos _].
  assert (Z.log2 (le_value ssz) = bit_len b) as Hlog by (rewrite Hv; by apply log2_top).
  destruct (nonzero_last ssz (bit_len b)) as (bs & x & -> & Hx); [done..|lia|].
  destruct (decode_spec MAX bs x) as (b' & E' & Hwf' & Hlen' & Hv'); [done|by rewrite Hlog|done|by rewrite Hlog|].
  rewrite E'. f_equal. apply wf_ext; [done..|congruence|]. rewrite Hv', Hlog. lia.
Qed.

(** C33: the encoding of bit lists is a bijection.  Every well-formed bit list
    within the limit is encoded, and decoding gives it back; every byte string
    the decoder accepts is the encoding of the well-formed list it returns, so
    that no two encodings decode to the same list. *)
Theorem bitlist_roundtrip MAX :
  (forall b, wf b -> (0 < MAX -> bit_len b <= MAX) ->
     exists ssz, @Bits.to_ssz_bytes DecodeError b = Ok ssz /\ Bits.from_ssz_bytes MAX ssz = Ok b) /\
  (forall ssz b, Forall is_byte ssz -> 8 * len ssz <= U64_MAX -> Bits.from_ssz_bytes MAX ssz = Ok b ->
     wf b /\ (0 < MAX -> bit_len b <= MAX) /\ @Bits.to_ssz_bytes DecodeError b = Ok ssz).
Proof.
  split.
  - intros b Hwf Hmax. by apply bits_read_back.
  - intros ssz b Hb Hsize Hdec.
    destruct (decode_inv MAX ssz b Hb Hsize Hdec) as (bs & x & -> & Hx & Hn & Hm).
    destruct (decode_spec MAX bs x) as (b' & E' & Hwf & Hlen & Hv); [done..|].
    rewrite E' in Hdec. injection Hdec as <-. rewrite Hlen. split_and!; [done..|].
    destruct (encode_spec b' Hwf (E := DecodeError)) as (ssz & E & Hb' & Hl' & Hv'). rewrite E. f_equal.
    apply le_value_inj; [done..| |rewrite Hv', Hlen, Hv; lia].
    destruct (decode_len bs x) as (_ & Hlx & Hn' & _); [done..|]. rewrite Hlen, Hn' in Hl'.
    rewrite Z.mul_comm, Z.add_comm, (Z.add_comm (_ * 8)), Z.div_add, Z.div_small in Hl' by lia.
    unfold len in *. rewrite length_app. cbn [length]. lia.
Qed.

(** ** Bit lists as finite sets *)

(** The indices of the bits that are set. *)
Definition members (b : BitList) : gset Z :=
  list_to_set (filter (fun i => Z.testbit (le_value (bytes b)) i) (seqZ 0 (bit_len b))).

Lemma elem_of_members b i : i ∈ members b <-> 0 <= i < bit_len b /\ Z.testbit (le_value (bytes b)) i.
Proof. unfold members. rewrite elem_of_list_to_set, list_elem_of_filter, elem_of_seqZ. naive_solver lia. Qed.

Lemma no_high_bit b i : wf b -> bit_len b <= i -> Z.testbit (le_value (bytes b)) i = false.
Proof. intros [[Hn _] Hb] Hi. by apply (wf_high (bit_len b)). Qed.

Lemma bit_at_members {E} b i : wf b -> 0 <= i -> Bits.bit_at b i = @Ok E _ (bool_decide (i ∈ members b)).
Proof.
  intros [[Hn _] Hb] Hi. unfold Bits.bit_at. destruct (bit_len b <=? i) eqn:E1; zbool.
  - rewrite bool_decide_eq_false_2; [done|]. rewrite elem_of_members. lia.
  - rewrite test_bit_value; [|apply Hb|by apply (wf_covers (bit_len b))]. f_equal.
    destruct (Z.testbit _ i) eqn:E2; symmetry.
    + apply bool_decide_eq_true_2, elem_of_members. rewrite E2. done.
    + apply bool_decide_eq_false_2. rewrite elem_of_members, E2. by intros [_ []].
Qed.

Lemma set_bit_at_members {E} b i v :
  wf b -> 0 <= i ->
  exists b', Bits.set_bit_at b i v = @Ok E _ b' /\ wf b' /\ bit_len b' = bit_len b /\
    members b' = if bool_decide (i < bit_len b)
                 then (if (v : bool) then {[i]} ∪ members b else members b ∖ {[i]}) else members b.
Proof.
  intros Hwf Hi. pose proof Hwf as [Hn Hb]. unfold Bits.set_bit_at. destruct (bit_len b <=? i) eqn:E1; zbool.
  { exists b. by rewrite bool_decide_eq_false_2 by lia. }
  rewrite bool_decide_eq_true_2 by done. destruct v.
  - destruct (or_bit_wf (bit_len b) (bytes b) ltac:(lia) Hb (E := E) i) as (bs & E2 & Hb' & Hv); [lia|].
    rewrite E2. eexists. split_and!; [done|done|done|]. apply leibniz_equiv. intros j.
    rewrite elem_of_union, elem_of_singleton, !elem_of_members. cbn [bytes bit_len]. rewrite Hv.
    rewrite Z.setbit_eqb by done. destruct (Z.eqb_spec i j) as [<-|]; naive_solver.
  - destruct (clear_bit_wf (bit_len b) (bytes b) ltac:(lia) Hb (E := E) i) as (bs & E2 & Hb' & Hv); [lia|].
    rewrite E2. eexists. split_and!; [done|done|done|]. apply leibniz_equiv. intros j.
    rewrite elem_of_difference, elem_of_singleton, !elem_of_members. cbn [bytes bit_len]. rewrite Hv.
    rewrite Z.clearbit_eqb. destruct (Z.eqb_spec i j) as [<-|]; rewrite ?andb_false_r, ?andb_true_r; naive_solver.
Qed.

Lemma with_bits_members {E} n l :
  0 <= n <= U64_MAX -> Forall (fun i => 0 <= i < n) l ->
  exists b, Bits.with_bits n l = @Ok E _ b /\ wf b /\ bit_len b = n /\ members b = list_to_set l.
Proof.
  intros Hn Hl. destruct (set_bits_ok n l _ (proj1 Hn) (zeros_wf n (proj1 Hn)) Hl (E := E)) as (bs & E1 & Hb & Hv).
  unfold Bits.with_bits. rewrite E1. eexists. split_and!; [done|done|done|]. apply leibniz_equiv. intros j.
  rewrite elem_of_members, elem_of_list_to_set. cbn [bytes bit_len]. rewrite Forall_forall in Hl. split.
  - intros [Hj Ht]. rewrite Hv in Ht by lia. rewrite <-(app_nil_l (replicate _ _)), le_value_zeros in Ht.
    cbn [le_value] in Ht. rewrite Z.bits_0, orb_false_r in Ht. by apply bool_decide_unpack in Ht.
  - intros Hj. split; [auto|]. rewrite Hv by (apply Hl; done). by rewrite bool_decide_eq_true_2.
Qed.

(** *** Two lists of the same length *)

Section pair.
Context (a b : list Z) (Ha : Forall is_byte a) (Hb : Forall is_byte b) (Hl : length a = length b).

Lemma zip_with_bits f g :
  (forall x y i, Z.testbit (f x y) i = g (Z.testbit x i) (Z.testbit y i)) -> g false false = false ->
  (forall x y, 0 <= x -> 0 <= y -> 0 <= f x y) ->
  Forall is_byte (zip_with f a b) /\ le_value (zip_with f a b) = f (le_value a) (le_value b).
Proof.
  intros Hf Hg Hpos. assert (Forall is_byte (zip_with f a b)) as Hall.
  { apply Forall_zip_with_fst with (P := is_byte); [done|]. apply Forall_forall. intros y Hy x Hx.
    rewrite Forall_forall in Hb. specialize (Hb y Hy). apply is_byte_bits; [apply Hpos; [apply Hx|apply Hb]|].
    intros i Hi. by rewrite Hf, !byte_high_bits. }
  split; [done|]. apply Z.bits_inj'. intros i Hi. rewrite Hf, !testbit_le_value by done.
  rewrite lookup_zip_with. destruct (a !! _) as [x|] eqn:Ex; cbn.
  - destruct (lookup_lt_is_Some_2 b (Z.to_nat (i / 8))) as [y Hy].
    { rewrite <-Hl. by eapply lookup_lt_Some. }
    rewrite Hy. cbn. apply Hf.
  - apply lookup_ge_None in Ex. rewrite (proj2 (lookup_ge_None b _)) by lia. cbn. by rewrite Z.bits_0.
Qed.

Lemma contains_bits :
  forallb (fun '(o, s) => Z.land o s =? o) (zip a b) = true <->
  forall i, 0 <= i -> Z.testbit (le_value a) i -> Z.testbit (le_value b) i.
Proof.
  assert (forallb (fun '(o, s) => Z.land o s =? o) (zip a b) = true <-> zip_with Z.land a b = a) as ->.
  { clear Ha Hb. revert b Hl. induction a as [|x l IH]; intros [|y k] Hl'; try done.
    cbn [zip_with forallb]. rewrite andb_true_iff, Z.eqb_eq, IH by (injection Hl'; done).
    split; [intros [? ?]; congruence|intros [= ? ?]; done]. }
  destruct (zip_with_bits Z.land andb Z.land_spec) as [Hall Hv]; [done|intros; apply Z.land_nonneg; lia|].
  assert (zip_with Z.land a b = a <-> Z.land (le_value a) (le_value b) = le_value a) as ->.
  { rewrite <-Hv. split; [by intros ->|]. intros E. apply le_value_inj; [done..|rewrite length_zip_with; lia|done]. }
  split.
  - intros E i _ Hi. rewrite <-E, Z.land_spec in Hi. by apply andb_prop_elim in Hi as [_ Hi].
  - intros H. apply Z.bits_inj'. intros i Hi. rewrite Z.land_spec. specialize (H i Hi).
    destruct (Z.testbit (le_value a) i); [|done]. by apply Is_true_true, H.
Qed.
End pair.

Lemma or_members a b :
  wf a -> wf b -> bit_len a = bit_len b ->
  exists c, Bits.or a b = Ok c /\ wf c /\ bit_len c = bit_len a /\ members c = members a ∪ members b.
Proof.
  intros Ha Hb Hl. pose proof Ha as [Hna (Hba & Hla & _)]. pose proof Hb as [_ (Hbb & Hlb & _)].
  unfold Bits.or. rewrite Hl, Z.eqb_refl. cbn [negb]. rewrite <-Hl in *. eexists. split; [done|].
  assert (length (bytes a) = length (bytes b)) as Hlen by (unfold len in *; lia).
  destruct (zip_with_bits (bytes a) (bytes b) Hba Hbb Hlen Z.lor orb Z.lor_spec) as [Hall Hv];
    [done|intros; by apply Z.lor_nonneg|].
  assert (forall i, Z.testbit (le_value (zip_with Z.lor (bytes a) (bytes b))) i =
    Z.testbit (le_value (bytes a)) i || Z.testbit (le_value (bytes b)) i) as Hbit by (intros i; by rewrite Hv, Z.lor_spec).
  split_and!; [split; [done|]|done|].
  - cbn [bytes bit_len]. apply (wf_update (bit_len a) (bytes a)); [lia|apply Ha|done|rewrite length_zip_with; lia|].
    intros i Hi. by rewrite Hbit, !no_high_bit by (done || lia).
  - apply leibniz_equiv. intros i. rewrite elem_of_union, !elem_of_members. cbn [bytes bit_len].
    rewrite Hbit, orb_True, Hl. naive_solver.
Qed.

Lemma contains_members a b :
  wf a -> wf b -> bit_len a = bit_len b ->
  Bits.contains a b = Ok (bool_decide (members b ⊆ members a)).
Proof.
  intros Ha Hb Hl. pose proof Ha as [Hna (Hba & Hla & _)]. pose proof Hb as [_ (Hbb & Hlb & _)].
  unfold Bits.contains. rewrite Hl, Z.eqb_refl. cbn [negb]. f_equal. apply eq_bool_prop_intro.
  rewrite bool_decide_spec, Is_true_true, contains_bits; [|done..|rewrite Hl in Hla; unfold len in *; lia].
  split.
  - intros H i Hi. apply elem_of_members. apply elem_of_members in Hi as [Hi Ht]. rewrite Hl. split; [done|].
    apply H; [lia|done].
  - intros H i Hi Ht. destruct (decide (i < bit_len b)) as [Hlt|Hge].
    + apply (elem_of_members a i), H, elem_of_members. done.
    + by rewrite no_high_bit in Ht by (done || lia).
Qed.

Lemma scan_spec {E} (f : Z -> bool) n i :
  Bits.scan (fun j => Ok (f j)) n i = @Ok E _ (filter (fun j => f j) (seqZ i (Z.of_nat n))).
Proof.
  revert i. induction n as [|n IH]; intros i; [done|]. cbn [Bits.scan mbind res_bind]. rewrite IH. cbn.
  rewrite (seqZ_cons i) by lia. rewrite filter_cons. replace (Z.pred (Z.of_nat (S n))) with (Z.of_nat n) by lia.
  change (Z.succ i) with (i + 1). by destruct (f i).
Qed.

Lemma scan_ext {E} (f g : Z -> res E bool) n i :
  (forall j, i <= j -> f j = g j) -> Bits.scan f n i = Bits.scan g n i.
Proof.
  revert i. induction n as [|n IH]; intros i H; [done|]. cbn [Bits.scan]. rewrite H by lia.
  destruct (g i); [|done..]. cbn. rewrite IH; [done|]. intros j Hj. apply H. lia.
Qed.

Lemma seqZ_filter_sorted (P : Z -> Prop) `{!forall x, Decision (P x)} i n :
  StronglySorted Z.lt (filter P (seqZ i (Z.of_nat n))).
Proof.
  revert i. induction n as [|n IH]; intros i; [constructor|].
  rewrite (seqZ_cons i), filter_cons by lia. replace (Z.pred (Z.of_nat (S n))) with (Z.of_nat n) by lia.
  destruct (decide (P i)); [|apply IH]. constructor; [apply IH|]. apply Forall_forall.
  intros j [_ Hj%elem_of_seqZ]%list_elem_of_filter. lia.
Qed.

Lemma bit_indices_members {E} b :
  wf b -> exists l, Bits.bit_indices b = @Ok E _ l /\ StronglySorted Z.lt l /\ list_to_set l = members b.
Proof.
  intros Hwf. pose proof Hwf as [Hn _]. unfold Bits.bit_indices.
  rewrite (scan_ext _ (fun j => Ok (bool_decide (j ∈ members b)))) by (intros; by apply bit_at_members).
  rewrite scan_spec. eexists. split; [done|]. split; [apply seqZ_filter_sorted|].
  rewrite Z2Nat.id by lia.
  apply leibniz_equiv. intros i. rewrite elem_of_list_to_set, list_elem_of_filter, elem_of_seqZ, bool_decide_spec.
  rewrite elem_of_members. naive_solver lia.
Qed.

(** Bit lists implement finite sets of indices below their length.  On
    well-formed lists every operation succeeds, keeps well-formedness and does
    what its name says to the set of indices; the two operations on pairs
    require equal lengths and report a difference. *)
Theorem bitlist_implements_set :
  (forall n l, 0 <= n <= U64_MAX -> Forall (fun i => 0 <= i < n) l ->
     exists b, @Bits.with_bits BitfieldError n l = Ok b /\ wf b /\ bit_len b = n /\ members b = list_to_set l) /\
  (forall b, wf b ->
     exists l, @Bits.bit_indices BitfieldError b = Ok l /\ StronglySorted Z.lt l /\ list_to_set l = members b) /\
  (forall b i, wf b -> 0 <= i -> @Bits.bit_at BitfieldError b i = Ok (bool_decide (i ∈ members b))) /\
  (forall b i v, wf b -> 0 <= i ->
     exists b', @Bits.set_bit_at BitfieldError b i v = Ok b' /\ wf b' /\ bit_len b' = bit_len b /\
       members b' = if bool_decide (i < bit_len b)
                    then (if v : bool then {[i]} ∪ members b else members b ∖ {[i]}) else members b) /\
  (forall a b, wf a -> wf b ->
     if bool_decide (bit_len a = bit_len b) then
       (exists c, Bits.or a b = Ok c /\ wf c /\ bit_len c = bit_len a /\ members c = members a ∪ members b) /\
       Bits.contains a b = Ok (bool_decide (members b ⊆ members a))
     else Bits.or a b = Err DifferentLength /\ Bits.contains a b = Err DifferentLength).
Proof.
  split_and!; [apply with_bits_members|apply bit_indices_members|apply bit_at_members|apply set_bit_at_members|].
  intros a b Ha Hb. case_bool_decide as Hl.
  - split; [by apply or_members|by apply contains_members].
  - unfold Bits.or, Bits.contains. by rewrite (proj2 (Z.eqb_neq _ _)).
Qed.

(** ** Bit vectors *)

(** A bit vector is accepted exactly when it has the right number of bytes and
    no bit beyond [SIZE], and is stored as it is. *)
Theorem bitvector_accepts SIZE bs :
  0 <= SIZE -> Forall is_byte bs ->
  (Vector.from_ssz_bytes SIZE bs = Ok bs /\ bits_wf SIZE bs) \/
  (exists e, Vector.from_ssz_bytes SIZE bs = Err e /\ ~ bits_wf SIZE bs).
Proof.
  intros HS Hb. unfold Vector.from_ssz_bytes, Vector.padding_is_zero.
  destruct (Z.eqb_spec (len bs) (div_ceil SIZE 8)) as [Hl|Hl]; cbn [negb];
    [|right; eexists; split; [done|]; by intros (_ & ? & _)].
  pose proof (div_ceil8 SIZE HS). pose proof (Z.div_mod SIZE 8 ltac:(lia)). pose proof (Z.mod_pos_bound SIZE 8 ltac:(lia)).
  destruct (Z.eqb_spec (SIZE mod 8) 0) as [E0|E0]; cbn [negb].
  { left. split; [done|]. split_and!; [done..|]. pose proof (le_value_bits bs Hb) as [_ H2].
    replace SIZE with (8 * len bs) by lia. apply H2. }
  destruct bs as [|x bs _] using rev_ind; [unfold len in Hl; cbn in Hl; lia|]. rewrite last_snoc.
  rewrite len_app in Hl. change (len [x]) with 1 in Hl. pose proof Hb as [Hbs [Hbx _]%Forall_cons]%Forall_app.
  pose proof (le_value_bits bs Hbs) as Hv. unfold is_byte in Hbx. pose proof (len_nonneg bs).
  assert (SIZE = 8 * len bs + SIZE mod 8) as HSIZE by lia.
  assert (le_value (bs ++ [x]) < 2 ^ SIZE <-> x < 2 ^ (SIZE mod 8)) as Hlt.
  { rewrite le_value_snoc. rewrite HSIZE at 1. rewrite Z.pow_add_r by lia. nia. }
  rewrite Z.shiftr_div_pow2 by lia. pose proof (Z.pow_pos_nonneg 2 (SIZE mod 8)) as Hpow.
  destruct (Z.eqb_spec (x / 2 ^ (SIZE mod 8)) 0) as [Ez|Ez]; cbn [negb].
  - left. split; [done|]. split_and!; [done| |].
    + rewrite len_app. change (len [x]) with 1. lia.
    + apply Hlt. apply Z.div_small_iff in Ez; lia.
  - right. eexists. split; [done|]. intros (_ & _ & Hbad%Hlt). apply Ez, Z.div_small. lia.
Qed.

(** ** The walker and the derived root agree on bit lists *)

Lemma pad_form b : exists p, pad_to_32 b = b ++ replicate p 0.
Proof.
  unfold pad_to_32, ZERO_BYTES. destruct (negb _); [|exists 0%nat; by rewrite app_nil_r].
  eexists. by rewrite take_replicate.
Qed.

Lemma pack_zeros b m : exists j, pack (b ++ replicate m 0) = pack b ++ replicate j ZERO_BYTES.
Proof.
  destruct (pack_spec b) as (E1 & Hc1 & _), (pack_spec (b ++ replicate m 0)) as (E2 & Hc2 & _).
  set (n := length (pack b)) in *. set (n' := length (pack (b ++ replicate m 0))) in *.
  assert (length (pad_to_32 b) = (32 * n)%nat) as L1 by (rewrite <-E1; by apply length_concat_same).
  assert (length (pad_to_32 (b ++ replicate m 0)) = (32 * n')%nat) as L2 by (rewrite <-E2; by apply length_concat_same).
  assert (n <= n')%nat as Hn.
  { rewrite length_pad in L1, L2. rewrite length_app, length_replicate in L2.
    pose proof (Nat.Div0.div_le_mono (length b + 31) (length b + m + 31) 32). lia. }
  exists (n' - n)%nat. assert (Forall is_chunk (replicate (n' - n) ZERO_BYTES)) as Hz
    by (apply Forall_replicate, length_replicate).
  rewrite <-(chunks_concat 32 (pack b ++ _)) by (lia || by apply Forall_app).
  rewrite <-(chunks_concat 32 (pack (b ++ _))) by (done || lia). f_equal.
  rewrite E2, concat_app, E1. destruct (pad_form b) as [p Ep], (pad_form (b ++ replicate m 0)) as [p' Ep'].
  rewrite Ep, Ep' in *. rewrite <-!app_assoc. f_equal.
  assert (concat (replicate (n' - n) ZERO_BYTES) = replicate (32 * (n' - n)) 0) as ->.
  { generalize (n' - n)%nat. intros k. induction k as [|k IH]; [done|]. cbn [replicate concat]. rewrite IH.
    unfold ZERO_BYTES. rewrite <-replicate_add. f_equal. lia. }
  rewrite <-!replicate_add. f_equal. rewrite !length_app, !length_replicate in *. lia.
Qed.

Section agree.
Context (sha256 : list Z -> list Z) (sha_len : forall b, length (sha256 b) = 32%nat).

Lemma tree_zeros d cs j : tree_at sha256 0 d (cs ++ replicate j ZERO_BYTES) = tree_at sha256 0 d cs.
Proof.
  revert cs j. induction d as [|d IH]; intros cs j; cbn [tree_at].
  - destruct cs as [|c cs]; [by destruct j|done].
  - rewrite take_app, drop_app, take_replicate, drop_replicate. by rewrite !IH.
Qed.

Lemma root_zeros d b m : merkle_tree sha256 d (pack (b ++ replicate m 0)) = merkle_tree sha256 d (pack b).
Proof. destruct (pack_zeros b m) as [j ->]. apply tree_zeros. Qed.

Lemma strip_zeros_app l k : strip_zeros (l ++ replicate k 0) = strip_zeros l.
Proof. unfold strip_zeros. by rewrite reverse_app, reverse_replicate, drop_zeros_app. Qed.

Lemma strip_zeros_form l : exists k, l = strip_zeros l ++ replicate k 0.
Proof.
  destruct (drop_zeros_form (reverse l)) as [k E]. exists k. unfold strip_zeros.
  rewrite <-(reverse_replicate k), <-reverse_app, <-E. by rewrite reverse_involutive.
Qed.

(** What [parse_bitlist] makes of an encoding. *)
Lemma parse_encoded b ssz :
  wf b -> @Bits.to_ssz_bytes HasherError b = Ok ssz ->
  parse_bitlist ssz = Ok (strip_zeros (bytes b), bit_len b).
Proof.
  intros Hwf E. destruct (encode_spec b Hwf (E := HasherError)) as (ssz' & E' & Hb & Hl & Hv).
  rewrite E in E'. injection E' as <-. pose proof Hwf as [[Hn0 Hn] (Hbb & Hlb & Hlt)].
  pose proof (le_value_bound _ Hbb) as [Hpos _].
  assert (Z.log2 (le_value ssz) = bit_len b) as Hlog by (rewrite Hv; by apply log2_top).
  destruct (nonzero_last ssz (bit_len b)) as (bs & x & -> & Hx); [done..|lia|].
  destruct (decode_len bs x) as (Hbx & Hlx & Hlen & _); [done|by rewrite Hlog|done|]. rewrite Hlog in Hlen.
  pose proof Hb as [Hbs _]%Forall_app. unfold parse_bitlist. rewrite last_snoc, (proj2 (Z.eqb_neq x 0)) by done.
  rewrite Z.shiftl_1_l, ldiff_top by lia. rewrite length_app. cbn [length].
  rewrite insert_app_r_alt by lia. replace (length bs + 1 - 1 - length bs)%nat with 0%nat by lia. cbn [insert list_insert].
  rewrite len_app. change (len [x]) with 1.
  assert (8 * (len bs + 1 - 1) + Z.log2 x = bit_len b) as -> by lia. do 2 f_equal.
  pose proof (div_ceil8 (bit_len b) Hn0).
  assert (exists k, bs ++ [x - 2 ^ Z.log2 x] = bytes b ++ replicate k 0) as [k ->]; [|apply strip_zeros_app].
  exists (length bs + 1 - length (bytes b))%nat. pose proof (Z.log2_spec x ltac:(lia)) as [Hlo _].
  pose proof (Z.pow_pos_nonneg 2 (Z.log2 x)). apply le_value_inj.
  - apply Forall_app. split; [done|]. apply Forall_singleton. unfold is_byte. lia.
  - apply Forall_app. split; [done|]. apply Forall_replicate. unfold is_byte. lia.
  - rewrite !length_app, length_replicate. cbn [length]. unfold len in *. lia.
  - rewrite le_value_zeros. rewrite le_value_snoc in *. rewrite Hlen, Z.pow_add_r in Hv by (pose proof (len_nonneg bs); lia). lia.
Qed.

(** The [tree_hash] crate: the root over at least the given number of leaves,
    and the length mixed in. *)
Context (merkle_root : list Z -> Z -> list Z) (mix_in : list Z -> Z -> list Z).
Context (merkle_root_spec : forall b n, 0 < n -> len (pack b) <= n ->
  merkle_root b n = merkle_tree sha256 (Z.to_nat (Z.log2_up n)) (pack b)).
Context (mix_in_spec : forall r n, mix_in r n = mix_in_length sha256 r n).

(** The two implementations of the root of a bit list agree.  The hash
    walker, which receives the encoding and parses it, appends to its buffer
    the root that the [TreeHash] implementation of the decoded list computes. *)
Theorem bitlist_roots_agree MAX b h :
  wf b -> 0 < MAX <= 2 ^ 40 -> bit_len b <= MAX ->
  (forall b, hash_fn h b = default_hash_fn sha256 b) -> aligned h ->
  exists ssz h', @Bits.to_ssz_bytes HasherError b = Ok ssz /\
    put_bitlist sha256 ssz MAX h = (h', Ok tt) /\ buf h' = buf h ++ bitlist_root merkle_root mix_in MAX b.
Proof.
  intros Hwf HM Hle Hh Ha. destruct (encode_spec b Hwf (E := HasherError)) as (ssz & E & _).
  pose proof Hwf as [[Hn0 Hn] (_ & Hlb & _)].
  set (limit := div_ceil MAX 256).
  assert (0 < limit <= 2 ^ 32 /\ div_ceil (div_ceil (bit_len b) 8) 32 <= limit) as [Hlim Hcount].
  { unfold limit, div_ceil. Z.to_euclidean_division_equations. lia. }
  set (t := strip_zeros (bytes b)). destruct (strip_zeros_form (bytes b)) as [k Hk]. fold t in Hk.
  destruct (pack_spec t) as (_ & Hct & Hlt). destruct (pack_spec (bytes b)) as (_ & _ & Hlbytes).
  assert (len (pack t) <= limit) as Hpt.
  { etransitivity; [|exact Hcount]. rewrite Hlt, <-Hlb. unfold div_ceil. apply Z.div_le_mono; [lia|].
    rewrite Hk, len_app. pose proof (len_nonneg (replicate k 0)). lia. }
  exists ssz. set (h1 := h <| tmp := t |>). assert (aligned h1) as Ha1 by by destruct h.
  eexists. split; [done|]. split.
  - unfold put_bitlist. rewrite (proc_step _ _ h h (t, bit_len b)) by (unfold p_lift; by rewrite (parse_encoded b)).
    rewrite (proc_step _ _ h h1 tt) by done. rewrite (proc_step _ _ h1 h1 (length (buf h1))) by done.
    rewrite (proc_step _ _ _ _ _ (append_bytes32_pack h1 t Ha1)).
    apply (mixin_root sha256 sha_len _ (buf h1) (pack t)); [by destruct h|by destruct h|done..|lia].
  - unfold bitlist_root, minimum_leaf_count_for_bits. change (32 * 8) with 256. fold limit.
    rewrite mix_in_spec, merkle_root_spec; [|lia|by rewrite Hlbytes, Hlb].
    rewrite Hk at 1. rewrite root_zeros. by destruct h.
Qed.
End agree.

(** ** Concrete bit lists *)

Definition bits_sample : BitList := {| bytes := [5; 2]; bit_len := 10 |}.

Lemma bits_sample_wf : wf bits_sample.
Proof. split; [done|]. split_and!; [|done|done]. by apply (bool_decide_unpack _). Qed.

Lemma bitlist_roundtrip_witness :
  exists ssz, @Bits.to_ssz_bytes DecodeError bits_sample = Ok ssz /\ Bits.from_ssz_bytes 16 ssz = Ok bits_sample.
Proof. apply (bitlist_roundtrip 16); [exact bits_sample_wf|done]. Defined.

Lemma bitlist_implements_set_witness :
  @Bits.bit_at BitfieldError bits_sample 9 = Ok (bool_decide (9 ∈ members bits_sample)).
Proof. apply bitlist_implements_set; [exact bits_sample_wf|done]. Defined.

Lemma bitlist_roots_agree_witness :
  exists ssz h', @Bits.to_ssz_bytes HasherError bits_sample = Ok ssz /\
    put_bitlist length_hash ssz 2048 (hasher_default length_hash) = (h', Ok tt) /\
    buf h' = [] ++ bitlist_root (fun b n => merkle_tree length_hash (Z.to_nat (Z.log2_up n)) (pack b))
                     (mix_in_length length_hash) 2048 bits_sample.
Proof.
  apply (bitlist_roots_agree length_hash length_hash_len
           (fun b n => merkle_tree length_hash (Z.to_nat (Z.log2_up n)) (pack b)) (mix_in_length length_hash)
           (fun _ _ _ _ => eq_refl) (fun _ _ => eq_refl) 2048 bits_sample (hasher_default length_hash));
    [exact bits_sample_wf|lia|done..].
Defined.

(** ** Integers *)

(** Integers and booleans decode to what was encoded. *)
Theorem integers_roundtrip :
  (forall v, 0 <= v <= U32_MAX -> decode_u32 (encode_u32 v) = Ok v) /\
  (forall v, 0 <= v <= U64_MAX -> decode_u64 (encode_u64 v) = Ok v) /\
  (forall b, decode_bool (encode_bool b) = Ok b) /\
  (forall bs, Forall is_byte bs -> length bs = 8%nat -> exists v, decode_u64 bs = Ok v /\ encode_u64 v = bs).
Proof.
  unfold decode_u32, decode_u64, decode_fixed_bytes, encode_u32, encode_u64. split_and!.
  - intros v Hv. rewrite length_le_bytes. cbn -[le_bytes le_value]. rewrite le_value_bytes; [done|]. unfold U32_MAX in Hv.
    change (256 ^ Z.of_nat 4) with (2 ^ 32). lia.
  - intros v Hv. rewrite length_le_bytes. cbn -[le_bytes le_value]. rewrite le_value_bytes; [done|]. unfold U64_MAX in Hv.
    change (256 ^ Z.of_nat 8) with (2 ^ 64). lia.
  - by intros [].
  - intros bs Hb Hl. rewrite Hl. eexists. split; [done|]. rewrite <-Hl. by apply le_bytes_value.
Qed.
