(* ===== verification/Rlp.v ===== *)
(** * RLP

    [crates/eth2util/src/rlp.rs]: the recursive-length-prefix encoding of byte
    strings and of lists of byte strings, and the minimal big-endian integers
    of [utils.rs].  Lengths are [usize] and their sums wrap around as in the
    code. *)

From S2P Require Import Prelude Bytes.

Inductive RlpError := InputTooShort | NegativeLength | Overflow.

Definition wrapping_add (a b : Z) : Z := (a + b) mod 2 ^ 64.

Definition to_big_endian (value : Z) : list Z := drop_zeros (be_bytes 8 value).

(** [checked_shl(8)] checks the shift amount only. *)
Definition shl8_add (acc byte : Z) : option Z := guard_u64 (acc * 256 mod 2 ^ 64 + byte).

Fixpoint try_fold (acc : Z) (l : list Z) : option Z :=
  match l with
  | [] => Some acc
  | byte :: l => acc ← shl8_add acc byte; try_fold acc l
  end.

Definition from_big_endian (bytes : list Z) (offset length : Z) : res RlpError Z :=
  if (len bytes <=? offset) || (len bytes <=? wrapping_add offset length) then Err InputTooShort
  else
    digits ← slice bytes offset (wrapping_add offset length);
    ok_or (try_fold 0 digits) Overflow.

Definition validate_length_and_offset (offset length : Z) : res RlpError unit :=
  if in_u64 (offset + length) then Ok tt else Err Overflow.

(** Offset and length of the payload. *)
Definition decode_length (item : list Z) : res RlpError (Z * Z) :=
  match item with
  | [] => Err InputTooShort
  | prefix :: _ =>
      let long base :=
        let length_size := (prefix - base) mod 256 in
        let offset := wrapping_add 1 length_size in
        length ← from_big_endian item 1 length_size;
        validate_length_and_offset offset length ;;
        Ok (offset, length) in
      if prefix <=? 0x7f then Ok (0, 1)
      else if prefix <=? 0xb7 then Ok (1, (prefix - 0x80) mod 256)
      else if prefix <=? 0xbf then long 0xb7
      else if prefix <=? 0xf7 then Ok (1, (prefix - 0xc0) mod 256)
      else long 0xf7
  end.

Definition encode_length (length offset : Z) : res RlpError (list Z) :=
  if length <? 56 then Ok [(length + offset) mod 256]
  else
    let big_endian := to_big_endian length in
    if len big_endian <=? 255 then Ok (((len big_endian + offset) mod 256 + 55) mod 256 :: big_endian) else Panic.

Definition encode_bytes (item : list Z) : res RlpError (list Z) :=
  match item with
  | [x] => if x <? 0x80 then Ok item else p ← encode_length 1 0x80; Ok (p ++ item)
  | _ => p ← encode_length (len item) 0x80; Ok (p ++ item)
  end.

Fixpoint encode_items (items : list (list Z)) : res RlpError (list Z) :=
  match items with
  | [] => Ok []
  | item :: items => e ← encode_bytes item; es ← encode_items items; Ok (e ++ es)
  end.

Definition encode_bytes_list (items : list (list Z)) : res RlpError (list Z) :=
  encoded_items ← encode_items items;
  length_prefix ← encode_length (len encoded_items) 0xc0;
  Ok (length_prefix ++ encoded_items).

Definition decode_bytes (input : list Z) : res RlpError (list Z) :=
  match input with
  | [] => Ok []
  | _ =>
      '(offset, length) ← decode_length input;
      if len input <? wrapping_add offset length then Err InputTooShort
      else slice input offset (wrapping_add offset length)
  end.

(** The loop of [decode_bytes_list] from index [i] to [stop].  Running out of
    fuel counts as a panic. *)
Fixpoint decode_items (fuel : nat) (input : list Z) (i stop : Z) : res RlpError (list (list Z)) :=
  if i <? stop then
    match fuel with
    | O => Panic
    | S fuel =>
        rest ← slice input i (len input);
        '(item_offset, item_length) ← decode_length rest;
        let start := wrapping_add i item_offset in
        let end_ := wrapping_add start item_length in
        if (len input <? end_) || (end_ <? start) then Err InputTooShort
        else
          item ← slice input start end_;
          items ← decode_items fuel input end_ stop;
          Ok (item :: items)
    end
  else Ok [].

Definition decode_bytes_list (input : list Z) : res RlpError (list (list Z)) :=
  match input with
  | [] => Ok []
  | _ =>
      '(offset, length) ← decode_length input;
      if len input <? wrapping_add offset length then Err InputTooShort
      else decode_items (List.length input) input offset (wrapping_add offset length)
  end.

(** ** Lengths *)

Lemma wrapping_add_small a b : 0 <= a -> 0 <= b -> a + b <= U64_MAX -> wrapping_add a b = a + b.
Proof. intros ? ? ?. unfold wrapping_add, U64_MAX in *. apply Z.mod_small. lia. Qed.

Lemma wrapping_add_range a b : 0 <= wrapping_add a b <= U64_MAX.
Proof. unfold wrapping_add, U64_MAX. pose proof (Z.mod_pos_bound (a + b) (2 ^ 64)). lia. Qed.

(** Big-endian digits fold to their value as long as it fits. *)
Lemma try_fold_value l acc :
  Forall is_byte l -> 0 <= acc -> acc * 2 ^ (8 * len l) + be_value l <= U64_MAX ->
  try_fold acc l = Some (acc * 2 ^ (8 * len l) + be_value l).
Proof.
  intros Hl. revert acc. induction Hl as [|x l Hx Hl IH]; intros acc Ha Hmax.
  - change (be_value []) with 0. change (2 ^ (8 * len [])) with 1. cbn. f_equal. lia.
  - rewrite be_value_cons in *. assert (len (x :: l) = len l + 1) as Hlen by (unfold len; cbn; lia).
    rewrite Hlen, Z.mul_add_distr_l, Z.pow_add_r in * by (pose proof (len_nonneg l); lia).
    change (2 ^ (8 * 1)) with 256 in *. pose proof (Z.pow_pos_nonneg 2 (8 * len l)) as Hp.
    pose proof (len_nonneg l). unfold is_byte in Hx.
    assert (0 <= be_value l) as Hb by (apply le_value_bound; by apply Forall_reverse).
    cbn [try_fold]. unfold shl8_add, guard_u64, in_u64, U64_MAX in *.
    assert (acc * 256 + x <= 2 ^ 64 - 1) as Hfit by nia.
    rewrite Z.mod_small by lia. rewrite (proj2 (Z.leb_le _ _)), (proj2 (Z.leb_le _ _)) by lia.
    cbn [andb mbind option_bind]. rewrite IH by (unfold U64_MAX; nia). f_equal. lia.
Qed.

Lemma to_big_endian_bytes n : Forall is_byte (to_big_endian n) /\ len (to_big_endian n) <= 8.
Proof.
  unfold to_big_endian. destruct (drop_zeros_form (be_bytes 8 n)) as [k E]. split.
  - apply (Forall_app is_byte (replicate k 0)). rewrite <-E. apply Forall_reverse, le_bytes_byte.
  - apply (f_equal length) in E. rewrite length_app, length_be_bytes in E. unfold len. lia.
Qed.

Lemma be_value_to_big_endian n : 0 <= n <= U64_MAX -> be_value (to_big_endian n) = n.
Proof.
  intros Hn. unfold to_big_endian. rewrite be_value_drop_zeros. apply be_value_bytes. unfold U64_MAX in Hn.
  change (256 ^ Z.of_nat 8) with (2 ^ 64). lia.
Qed.

(** The minimal digits of a positive number. *)
Lemma big_endian_digits n :
  0 < n <= U64_MAX ->
  let d := to_big_endian n in
  Forall is_byte d /\ 0 < len d <= 8 /\ try_fold 0 d = Some n.
Proof.
  intros Hn d. assert (be_value d = n) as Hv by (apply be_value_to_big_endian; lia).
  destruct (to_big_endian_bytes n) as [Hb Hl]. fold d in Hb, Hl. split_and!; [done| |done|].
  - unfold len. destruct d; [|cbn; lia]. change (be_value []) with 0 in Hv. lia.
  - rewrite try_fold_value by (done || lia). f_equal. lia.
Qed.

(** The prefix of a payload is read back. *)
Lemma decode_encoded_length n offset rest :
  offset = 0x80 \/ offset = 0xc0 -> 0 <= n <= len rest -> len rest <= U64_MAX - 16 ->
  exists p, encode_length n offset = Ok p /\ 0 < len p <= 9 /\ decode_length (p ++ rest) = Ok (len p, n).
Proof.
  intros Ho Hn Hr. unfold encode_length. destruct (n <? 56) eqn:E56; zbool.
  - eexists. split; [done|]. split; [done|].
    rewrite Z.mod_small by (destruct Ho; lia). cbn [app decode_length].
    destruct Ho as [-> | ->];
      repeat (rewrite (proj2 (Z.leb_gt _ _)) by lia); rewrite (proj2 (Z.leb_le _ _)) by lia;
      change (len [_]) with 1; do 2 f_equal; rewrite Z.mod_small; lia.
  - destruct (big_endian_digits n) as (Hb & Hd & Hf); [unfold U64_MAX in *; lia|].
    set (d := to_big_endian n) in *. rewrite (proj2 (Z.leb_le _ _)) by lia. eexists. split; [done|].
    assert (len (((len d + offset) mod 256 + 55) mod 256 :: d) = 1 + len d) as Hlp by (unfold len; cbn; lia).
    rewrite Hlp. split; [lia|]. rewrite (Z.mod_small (len d + offset)) by (destruct Ho; lia).
    rewrite Z.mod_small by (destruct Ho; lia). cbn [app decode_length].
    assert (from_big_endian (len d + offset + 55 :: d ++ rest) 1 (len d) = Ok n) as Hbe.
    { unfold from_big_endian. rewrite wrapping_add_small by (unfold U64_MAX; lia).
      assert (len (len d + offset + 55 :: d ++ rest) = 1 + len d + len rest) as ->
        by (unfold len; cbn [length]; rewrite length_app; lia).
      rewrite (proj2 (Z.leb_gt _ _)), (proj2 (Z.leb_gt _ _)) by lia. cbn [orb].
      rewrite (slice_app [_] d rest : slice (_ :: d ++ rest) 1 (1 + len d) = _). cbn [mbind res_bind]. by rewrite Hf. }
    assert (validate_length_and_offset (1 + len d) n = Ok tt) as Hvalid.
    { unfold validate_length_and_offset, in_u64, U64_MAX in *.
      by rewrite (proj2 (Z.leb_le _ _)), (proj2 (Z.leb_le _ _)) by lia. }
    destruct Ho as [-> | ->];
      repeat (rewrite (proj2 (Z.leb_gt _ _)) by lia); rewrite ?(proj2 (Z.leb_le (len d + 0x80 + 55) _)) by lia.
    + replace ((len d + 128 + 55 - 183) mod 256) with (len d) by (rewrite Z.mod_small; lia).
      rewrite Hbe. cbn [mbind res_bind]. rewrite wrapping_add_small by (unfold U64_MAX; lia). by rewrite Hvalid.
    + replace ((len d + 192 + 55 - 247) mod 256) with (len d) by (rewrite Z.mod_small; lia).
      rewrite Hbe. cbn [mbind res_bind]. rewrite wrapping_add_small by (unfold U64_MAX; lia). by rewrite Hvalid.
Qed.

Lemma slice_tail {E A} (a b : list A) : slice (a ++ b) (len a) (len (a ++ b)) = @Ok E _ b.
Proof. pose proof (@slice_app E A a b []) as H. by rewrite app_nil_r, <-len_app in H. Qed.

(** An encoded string is a prefix and the string; the prefix is read back
    whatever follows. *)
Lemma encode_bytes_prefix item :
  Forall is_byte item -> len item <= U64_MAX - 16 ->
  exists p, encode_bytes item = Ok (p ++ item) /\ len p <= 9 /\ 0 < len p + len item /\
    forall rest, len item + len rest <= U64_MAX - 16 ->
      decode_length (p ++ item ++ rest) = Ok (len p, len item).
Proof.
  intros Hb Hl. pose proof (len_nonneg item).
  assert (exists p, encode_length (len item) 0x80 = Ok p /\ 0 < len p <= 9 /\
    forall rest, len item + len rest <= U64_MAX - 16 ->
      decode_length (p ++ item ++ rest) = Ok (len p, len item)) as (p & E & Hp & Hdec).
  { destruct (decode_encoded_length (len item) 0x80 item) as (p & E & Hp & _); [by left|lia|lia|].
    exists p. split_and!; [done|lia|lia|]. intros rest Hrest. pose proof (len_nonneg rest).
    destruct (decode_encoded_length (len item) 0x80 (item ++ rest)) as (p' & E' & _ & Hdec);
      [by left|rewrite len_app; lia|rewrite len_app; lia|].
    rewrite E in E'. by injection E' as <-. }
  assert (encode_bytes item = (p ← encode_length (len item) 0x80; Ok (p ++ item)) \/
    exists x, item = [x] /\ x < 0x80 /\ encode_bytes item = Ok item) as [Hlong|(x & -> & Hx & Hs)].
  { destruct item as [|x [|y item]]; [by left| |by left]. cbn [encode_bytes].
    destruct (x <? 128) eqn:Ex; zbool; [right; by exists x|by left]. }
  - exists p. rewrite Hlong, E. split_and!; [done|lia|lia|done].
  - exists []. rewrite Hs. split_and!; [done|done|done|]. intros rest _. cbn [app decode_length].
    by rewrite (proj2 (Z.leb_le _ _)) by lia.
Qed.

(** The loop reads the encoded items from behind any prefix. *)
Lemma decode_encoded_items items fuel pre es :
  Forall (Forall is_byte) items -> encode_items items = Ok es -> (length items <= fuel)%nat ->
  len pre + len es <= U64_MAX - 16 ->
  decode_items fuel (pre ++ es) (len pre) (len pre + len es) = Ok items.
Proof.
  intros Hb. revert fuel pre es. induction Hb as [|item items Hitem Hb IH]; intros fuel pre es E Hf Hl.
  { injection E as <-. change (len []) with 0. rewrite Z.add_0_r. destruct fuel; cbn [decode_items]; by rewrite Z.ltb_irrefl. }
  destruct fuel as [|fuel]; [cbn in Hf; lia|]. cbn [encode_items] in E. inv_res. subst es.
  rename x into e, x0 into es', H into Ee, H0 into Ees.
  pose proof (len_nonneg pre). pose proof (len_nonneg es'). pose proof (len_nonneg item).
  rewrite len_app in Hl. pose proof (len_nonneg e).
  assert (len item <= len e) as Hie.
  { destruct item as [|x [|y item]]; cbn [encode_bytes] in Ee; repeat case_in Ee; inv_res; subst e;
      rewrite ?len_app; change (len []) with 0; try pose proof (len_nonneg x0); try pose proof (len_nonneg x); lia. }
  destruct (encode_bytes_prefix item Hitem) as (p & Ep & Hp & Hpos & Hdec); [lia|].
  rewrite Ep in Ee. injection Ee as <-. rewrite !len_app in *. pose proof (len_nonneg p).
  cbn [decode_items]. rewrite (proj2 (Z.ltb_lt _ _)) by lia.
  rewrite slice_tail. cbn [mbind res_bind]. rewrite <-app_assoc, Hdec by lia. cbn [mbind res_bind].
  rewrite (wrapping_add_small (len pre)), wrapping_add_small by lia. rewrite !len_app.
  rewrite (proj2 (Z.ltb_ge _ _)), (proj2 (Z.ltb_ge _ _)) by lia. cbn [orb].
  replace (len pre + len p) with (len (pre ++ p)) by apply len_app. rewrite (app_assoc pre p).
  rewrite slice_app. cbn [mbind res_bind].
  rewrite (app_assoc (pre ++ p) item). replace (len (pre ++ p) + len item) with (len ((pre ++ p) ++ item)) by apply len_app.
  replace (len pre + (len p + len item + len es')) with (len ((pre ++ p) ++ item) + len es') by (rewrite !len_app; lia).
  rewrite IH; [done|done|cbn in Hf; lia|]. rewrite !len_app. lia.
Qed.

(** Room for the items and a prefix each. *)
Definition encoded_bound (items : list (list Z)) : Z := fold_right (fun i n => len i + 9 + n) 0 items.

Lemma encode_items_total items :
  Forall (Forall is_byte) items -> encoded_bound items <= U64_MAX - 32 ->
  exists es, encode_items items = Ok es /\ (length items <= length es)%nat /\ len es <= encoded_bound items.
Proof.
  intros Hb. induction Hb as [|item items Hitem Hb IH]; [by exists []|].
  cbn [encoded_bound fold_right]. fold (encoded_bound items). intros Hl. pose proof (len_nonneg item).
  destruct IH as (es & E & Hn & Hes).
  { lia. }
  pose proof (len_nonneg es).
  destruct (encode_bytes_prefix item Hitem) as (p & Ep & Hp & Hpos & _); [lia|].
  cbn [encode_items]. rewrite Ep, E. eexists. split; [done|]. rewrite !len_app. split; [|lia].
  rewrite !length_app. unfold len in Hpos. cbn [length]. lia.
Qed.

Lemma encoded_list_decodes items :
  Forall (Forall is_byte) items -> encoded_bound items <= U64_MAX - 32 ->
  exists e, encode_bytes_list items = Ok e /\ decode_bytes_list e = Ok items.
Proof.
  intros Hb Hl. destruct (encode_items_total items Hb Hl) as (es & E & Hn & Hes). pose proof (len_nonneg es).
  destruct (decode_encoded_length (len es) 0xc0 es) as (p & Ep & Hp & Hdec); [by right|lia|lia|].
  exists (p ++ es). unfold encode_bytes_list. rewrite E. cbn [mbind res_bind]. rewrite Ep. split; [done|].
  unfold decode_bytes_list. destruct (p ++ es) as [|x l] eqn:El.
  { destruct p; [change (len []) with 0 in Hp; lia|done]. }
  rewrite <-El in Hdec |- *. rewrite Hdec. cbn [mbind res_bind]. rewrite wrapping_add_small, len_app by lia.
  rewrite (proj2 (Z.ltb_ge _ _)) by lia. apply decode_encoded_items; [done|done| |lia].
  rewrite length_app. lia.
Qed.

Lemma encode_length_bytes n offset p : encode_length n offset = Ok p -> Forall is_byte p.
Proof.
  unfold encode_length. intros H. destruct (n <? 56).
  - injection H as <-. constructor; [|constructor]. apply Z.mod_pos_bound. lia.
  - destruct (_ <=? _); [|done]. injection H as <-. constructor; [apply Z.mod_pos_bound; lia|].
    apply to_big_endian_bytes.
Qed.

Lemma encode_bytes_bytes item e : Forall is_byte item -> encode_bytes item = Ok e -> Forall is_byte e.
Proof.
  intros Hb H. assert (e = item \/ exists p n, encode_length n 0x80 = Ok p /\ e = p ++ item) as [->|(p & n & Hp & ->)].
  - destruct item as [|x [|y item]]; cbn [encode_bytes] in H; try case_in H; inv_res; eauto 6.
  - done.
  - apply Forall_app. split; [by eapply encode_length_bytes|done].
Qed.

Lemma encode_items_bytes items es :
  Forall (Forall is_byte) items -> encode_items items = Ok es -> Forall is_byte es.
Proof.
  intros Hb. revert es. induction Hb as [|i items Hi Hb IH]; intros es Hes; cbn in Hes.
  - injection Hes as <-. constructor.
  - inv_res. subst es. apply Forall_app. split; [by eapply encode_bytes_bytes|by apply IH].
Qed.

Lemma encode_list_bytes items e :
  Forall (Forall is_byte) items -> encode_bytes_list items = Ok e -> Forall is_byte e.
Proof.
  intros Hb H. unfold encode_bytes_list in H. inv_res. subst e. apply Forall_app.
  split; [by eapply encode_length_bytes|by eapply encode_items_bytes].
Qed.

(** Encoding never fails. *)
Lemma encode_length_total n offset : exists p, encode_length n offset = Ok p.
Proof.
  unfold encode_length. destruct (n <? 56); [by eexists|]. destruct (to_big_endian_bytes n) as [_ Hl].
  rewrite (proj2 (Z.leb_le _ _)) by lia. by eexists.
Qed.

Lemma encode_list_total items : exists e, encode_bytes_list items = Ok e.
Proof.
  assert (exists es, encode_items items = Ok es) as [es Hes].
  { induction items as [|i items [es IH]]; [by exists []|]. cbn [encode_items]. rewrite IH.
    assert (exists e, encode_bytes i = Ok e) as [e ->]; [|by eexists].
    destruct i as [|x [|y i]]; cbn [encode_bytes]; [..|destruct (encode_length_total (len (x :: y :: i)) 0x80) as [p ->]; by eexists].
    - by eexists.
    - destruct (x <? 128); by eexists. }
  destruct (encode_length_total (len es) 0xc0) as [p Hp]. unfold encode_bytes_list. rewrite Hes. cbn. rewrite Hp. by eexists.
Qed.

(** C34: byte strings and lists of byte strings survive RLP encoding and
    decoding, whatever their bytes and lengths, as long as the encoding fits
    into an address space. *)
Theorem rlp_roundtrip :
  (forall item, Forall is_byte item -> len item <= U64_MAX - 16 ->
     exists e, encode_bytes item = Ok e /\ decode_bytes e = Ok item) /\
  (forall items, Forall (Forall is_byte) items -> encoded_bound items <= U64_MAX - 32 ->
     exists e, encode_bytes_list items = Ok e /\ decode_bytes_list e = Ok items).
Proof.
  split; [|apply encoded_list_decodes].
  intros item Hb Hl. destruct (encode_bytes_prefix item Hb Hl) as (p & E & Hp & Hpos & Hdec).
  pose proof (len_nonneg p). pose proof (len_nonneg item).
  exists (p ++ item). split; [done|]. unfold decode_bytes.
  destruct (p ++ item) as [|x l] eqn:El; [rewrite <-len_app, El in Hpos; done|]. rewrite <-El.
  specialize (Hdec [] ltac:(change (len []) with 0; lia)). rewrite app_nil_r in Hdec. rewrite Hdec.
  cbn [mbind res_bind]. rewrite wrapping_add_small, len_app by lia. rewrite (proj2 (Z.ltb_ge _ _)) by lia.
  rewrite <-len_app. apply slice_tail.
Qed.

Lemma encoded_bound_le M items :
  Forall (fun i => len i <= M) items -> encoded_bound items <= len items * (M + 9).
Proof.
  induction 1 as [|i items Hi _ IH]; [done|]. cbn [encoded_bound fold_right]. fold (encoded_bound items).
  assert (len (i :: items) = len items + 1) as -> by (unfold len; cbn; lia). lia.
Qed.

(** ** Arbitrary input *)

Lemma from_big_endian_safe bytes n :
  0 <= n <= 255 -> from_big_endian bytes 1 n <> Panic /\
  forall v, from_big_endian bytes 1 n = Ok v -> 0 <= v <= U64_MAX /\ 1 + n < len bytes.
Proof.
  intros Hn. unfold from_big_endian. rewrite wrapping_add_small by (unfold U64_MAX; lia).
  destruct (_ || _) eqn:E; [done|]. zbool. destruct (@slice_ok RlpError Z bytes 1 (1 + n)) as (s & -> & _); [lia|lia|].
  cbn [mbind res_bind]. assert (forall l acc v, 0 <= acc <= U64_MAX -> try_fold acc l = Some v -> 0 <= v <= U64_MAX) as Hr.
  { induction l as [|x l IH]; intros acc v Ha Hv; cbn in Hv; [naive_solver|].
    destruct (shl8_add acc x) as [acc'|] eqn:Es; [|done]. apply IH in Hv; [done|].
    unfold shl8_add, guard_u64 in Es. destruct (in_u64 _) eqn:Eu; [|done]. injection Es as <-.
    unfold in_u64 in Eu. zbool. lia. }
  destruct (try_fold 0 s) as [v|] eqn:Ef; cbn; [|done]. split; [done|]. intros v' [= <-]. split; [|lia].
  apply (Hr s 0); [unfold U64_MAX; lia|done].
Qed.

(** A decoded length leaves the prefix inside the input and never overflows. *)
Lemma decode_length_safe item :
  Forall is_byte item -> decode_length item <> Panic /\
  forall offset n, decode_length item = Ok (offset, n) ->
    0 <= offset <= len item /\ 0 <= n /\ offset + n <= U64_MAX /\ 0 < offset + n.
Proof.
  intros Hb. destruct Hb as [|x l Hx Hb]; [done|]. unfold is_byte in Hx.
  assert (1 <= len (x :: l)) as Hlen by (unfold len; cbn [length]; lia). unfold decode_length.
  assert (forall base, 0 <= x - base <= 255 -> 1 <= x - base ->
    let long := (length ← from_big_endian (x :: l) 1 ((x - base) mod 256);
      validate_length_and_offset (wrapping_add 1 ((x - base) mod 256)) length ;;
      Ok (wrapping_add 1 ((x - base) mod 256), length)) in
    long <> Panic /\ forall offset n, long = Ok (offset, n) ->
      0 <= offset <= len (x :: l) /\ 0 <= n /\ offset + n <= U64_MAX /\ 0 < offset + n) as Hlong.
  { intros base Hbase H1. rewrite Z.mod_small by lia. rewrite wrapping_add_small by (unfold U64_MAX; lia).
    destruct (from_big_endian_safe (x :: l) (x - base)) as [Hnp Hv]; [lia|].
    destruct (from_big_endian _ _ _) as [v| |] eqn:Ev; [|done..]. cbn [mbind res_bind]. destruct (Hv v eq_refl) as [Hr Hl].
    unfold validate_length_and_offset. destruct (in_u64 _) eqn:Eu; [|done]. cbn. unfold in_u64 in Eu. zbool.
    split; [done|]. intros offset n [= <- <-]. lia. }
  destruct (x <=? 127) eqn:E1; zbool; [split; [done|]; intros ? ? [= <- <-]; unfold U64_MAX; lia|].
  destruct (x <=? 183) eqn:E2; zbool.
  { rewrite Z.mod_small by lia. split; [done|]. intros ? ? [= <- <-]. unfold U64_MAX. lia. }
  destruct (x <=? 191) eqn:E3; zbool; [apply Hlong; lia|].
  destruct (x <=? 247) eqn:E4; zbool; [|apply Hlong; lia].
  rewrite Z.mod_small by lia. split; [done|]. intros ? ? [= <- <-]. unfold U64_MAX. lia.
Qed.

Lemma slice_bytes {E} l a b s : Forall is_byte l -> slice l a b = @Ok E _ s -> Forall is_byte s.
Proof.
  intros Hl Hs. unfold slice in Hs. case_in Hs; [|done]. injection Hs as <-. by apply Forall_take, Forall_drop.
Qed.

(** Every round of the loop moves forward, so that it ends within as many
    rounds as there are bytes. *)
Lemma decode_items_safe fuel input i stop :
  Forall is_byte input -> len input <= U64_MAX -> 0 <= i -> stop <= len input -> len input - i <= Z.of_nat fuel ->
  decode_items fuel input i stop <> Panic /\
  forall items, decode_items fuel input i stop = Ok items -> Forall (Forall is_byte) items.
Proof.
  intros Hb Hmax. revert i. induction fuel as [|fuel IH]; intros i Hi Hstop Hf; cbn [decode_items].
  { destruct (i <? stop) eqn:E; zbool; [lia|]. split; [done|]. by intros items [= <-]. }
  destruct (i <? stop) eqn:E; zbool; [|split; [done|]; by intros items [= <-]].
  destruct (@slice_ok RlpError Z input i (len input)) as (rest & Er & Hrest); [lia|lia|]. rewrite Er. cbn [mbind res_bind].
  destruct (decode_length_safe rest) as [Hnp Hdec]; [by eapply slice_bytes|].
  destruct (decode_length rest) as [[off n]| |] eqn:Ed; [|done..]. cbn [mbind res_bind].
  destruct (Hdec off n eq_refl) as (Hoff & Hn & Hsum & Hpos). rewrite (wrapping_add_small i) by lia.
  destruct (_ || _) eqn:Eb; [done|]. zbool.
  assert (wrapping_add (i + off) n = i + off + n) as Hw.
  { unfold wrapping_add in *. destruct (decide (i + off + n < 2 ^ 64)); [apply Z.mod_small; lia|].
    exfalso. assert ((i + off + n) mod 2 ^ 64 = i + off + n - 2 ^ 64) as Hm.
    { symmetry. apply (Z.mod_unique _ _ 1); unfold U64_MAX in *; lia. }
    unfold U64_MAX in *. lia. }
  rewrite Hw in *. destruct (@slice_ok RlpError Z input (i + off) (i + off + n)) as (s & Es & _); [lia|lia|].
  rewrite Es. cbn [mbind res_bind]. destruct (IH (i + off + n)) as [Hnp' Hok]; [lia|lia|lia|].
  destruct (decode_items fuel input (i + off + n) stop) as [items| |] eqn:Ei; [|done..]. cbn. split; [done|].
  intros items' [= <-]. constructor; [by eapply slice_bytes|by apply Hok].
Qed.

Lemma decode_list_safe input :
  Forall is_byte input -> len input <= U64_MAX ->
  decode_bytes_list input <> Panic /\
  forall items, decode_bytes_list input = Ok items -> Forall (Forall is_byte) items.
Proof.
  intros Hb Hmax. destruct (decode_length_safe input Hb) as [Hnp Hdec].
  destruct input as [|x l] eqn:Ein; [split; [done|by intros ? [= <-]]|].
  unfold decode_bytes_list. rewrite <-Ein in *. clear x l Ein.
  destruct (decode_length input) as [[off n]| |] eqn:Ed; [|done..]. cbn [mbind res_bind].
  destruct (Hdec off n eq_refl) as (Hoff & Hn & Hsum & Hpos). rewrite wrapping_add_small by lia.
  destruct (len input <? off + n) eqn:E; zbool; [done|].
  apply decode_items_safe; [done|done|lia|lia|unfold len; lia].
Qed.

(** The decoders cope with every input.  They end, with a result made of
    bytes of the input or with an error, and never panic: no index leaves the
    input, and the wrap-around of the length arithmetic is always noticed. *)
Theorem rlp_decoders_total input :
  Forall is_byte input -> len input <= U64_MAX ->
  decode_bytes input <> Panic /\ decode_bytes_list input <> Panic /\
  (forall item, decode_bytes input = Ok item -> Forall is_byte item) /\
  (forall items, decode_bytes_list input = Ok items -> Forall (Forall is_byte) items).
Proof.
  intros Hb Hmax. destruct (decode_list_safe input Hb Hmax) as [Hl1 Hl2].
  destruct (decode_length_safe input Hb) as [Hnp Hdec].
  destruct input as [|x l] eqn:Ein; [split_and!; [done|done|by intros ? [= <-]|done]|].
  unfold decode_bytes. rewrite <-Ein in *. clear x l Ein.
  destruct (decode_length input) as [[off n]| |] eqn:Ed; [|done..]. cbn [mbind res_bind].
  destruct (Hdec off n eq_refl) as (Hoff & Hn & Hsum & Hpos). rewrite wrapping_add_small by lia.
  destruct (len input <? off + n) eqn:E; zbool; [done|].
  destruct (@slice_ok RlpError Z input off (off + n)) as (s & Es & _); [lia|lia|]. rewrite Es.
  split_and!; [done|done| |done]. intros item [= <-]. by eapply slice_bytes.
Qed.

Lemma rlp_roundtrip_witness : exists e, encode_bytes [0x80; 1] = Ok e /\ decode_bytes e = Ok [0x80; 1].
Proof. apply rlp_roundtrip; [by apply (bool_decide_unpack _)|unfold U64_MAX; by vm_compute]. Defined.

(** A list whose only item claims more bytes than there are. *)
Lemma rlp_decoders_total_witness :
  decode_bytes_list [0xc2; 0xbf; 0xff] = Err InputTooShort /\ decode_bytes [0xc2; 0xbf; 0xff] <> Panic.
Proof.
  split; [by vm_compute|].
  apply (rlp_decoders_total [0xc2; 0xbf; 0xff]); [by apply (bool_decide_unpack _)|by vm_compute].
Defined.
