(* ===== verification/K1Util.v ===== *)
(** * secp256k1 helpers

    [crates/k1util/src/k1util.rs]: signing, verification and recovery with
    65-byte signatures [R || S || V].  The [k256] crate is a parameter. *)

From Stdlib Require Import Ascii.
From S2P Require Import Prelude Bytes.

Definition SCALAR_LEN : Z := 32.
Definition K1_HASH_LEN : Z := 32.
Definition SIGNATURE_LEN : Z := 65.
Definition SIGNATURE_LEN_WITHOUT_V : Z := SIGNATURE_LEN - 1.
Definition K1_REC_IDX : Z := 64.

Inductive K1UtilError :=
| InvalidSignatureLength (expected actual : Z)
| InvalidSignature
| InvalidHashLength (actual : Z)
| InvalidSignatureRecoveryId (invalid_recovery_byte : Z).

(** What the helpers use of [k256]. *)
Record K256 (SK PK Sig : Type) := {
  public_key : SK -> PK;
  sign_prehash_recoverable : SK -> list Z -> option (Sig * Z);
  sig_to_bytes : Sig -> list Z;
  sig_from_slice : list Z -> option Sig;
  normalize_s : Sig -> option Sig;
  recover_from_prehash : list Z -> Sig -> Z -> option PK;
  verify_prehashed : PK -> list Z -> Sig -> bool;
}.
Arguments public_key {SK PK Sig} _ _.
Arguments sign_prehash_recoverable {SK PK Sig} _ _ _.
Arguments sig_to_bytes {SK PK Sig} _ _.
Arguments sig_from_slice {SK PK Sig} _ _.
Arguments normalize_s {SK PK Sig} _ _.
Arguments recover_from_prehash {SK PK Sig} _ _ _ _.
Arguments verify_prehashed {SK PK Sig} _ _ _ _.

(** Its documented behaviour: signatures are 64 bytes and parse back, a
    produced signature has a low [S], recovers to and verifies under the public
    key of the signer; the recovery id is below 4. *)
Record k256_laws {SK PK Sig} (k : K256 SK PK Sig) : Prop := {
  sig_bytes_len : forall s, len (sig_to_bytes k s) = 64;
  sig_bytes_ok : forall s, Forall is_byte (sig_to_bytes k s);
  sig_parse : forall s, sig_from_slice k (sig_to_bytes k s) = Some s;
  sign_law : forall sk h s v, sign_prehash_recoverable k sk h = Some (s, v) ->
    0 <= v < 4 /\ normalize_s k s = None /\
    recover_from_prehash k h s v = Some (public_key k sk) /\ verify_prehashed k (public_key k sk) h s = true;
}.

Section k1.
Context {SK PK Sig : Type} `{!EqDecision PK} (k : K256 SK PK Sig).

Definition sign (key : SK) (hash : list Z) : res K1UtilError (list Z) :=
  if negb (len hash =? K1_HASH_LEN) then Err (InvalidHashLength (len hash))
  else
    '(signature, recovery_id) ← ok_or (sign_prehash_recoverable k key hash) InvalidSignature;
    Ok (sig_to_bytes k signature ++ [recovery_id]).

Definition verify_64 (pubkey : PK) (hash sig : list Z) : res K1UtilError bool :=
  if negb (len sig =? 2 * SCALAR_LEN) then Err (InvalidSignatureLength (2 * SCALAR_LEN) (len sig))
  else if negb (len hash =? K1_HASH_LEN) then Err (InvalidHashLength (len hash))
  else
    signature ← ok_or (sig_from_slice k sig) InvalidSignature;
    Ok (verify_prehashed k pubkey hash signature).

Definition recovery_of_byte (b : Z) : res K1UtilError Z :=
  if (b =? 0) || (b =? 1) then Ok b
  else if b =? 27 then Ok 0
  else if b =? 28 then Ok 1
  else Err (InvalidSignatureRecoveryId b).

Definition recover (hash sig : list Z) : res K1UtilError PK :=
  if negb (len hash =? K1_HASH_LEN) then Err (InvalidHashLength (len hash))
  else if negb (len sig =? SIGNATURE_LEN) then Err (InvalidSignatureLength SIGNATURE_LEN (len sig))
  else
    original_recovery_byte ← expect (sig !! Z.to_nat K1_REC_IDX);
    recovery_byte ← recovery_of_byte original_recovery_byte;
    rs ← slice sig 0 (SIGNATURE_LEN - 1);
    signature ← ok_or (sig_from_slice k rs) InvalidSignature;
    let '(signature, recovery_id) :=
      match normalize_s k signature with
      | Some normalized => (normalized, Z.lxor recovery_byte 1)
      | None => (signature, recovery_byte)
      end in
    ok_or (recover_from_prehash k hash signature recovery_id) InvalidSignature.

Definition verify_65 (pubkey : PK) (hash sig : list Z) : res K1UtilError bool :=
  recovered ← recover hash sig;
  Ok (bool_decide (recovered = pubkey)).

(** ** Facts *)

(** The index and the slice of [recover] are within the signature. *)
Lemma verify_65_no_panic pubkey hash sig : len sig = SIGNATURE_LEN -> verify_65 pubkey hash sig <> Panic.
Proof.
  intros Hl. unfold verify_65, recover. rewrite Hl, Z.eqb_refl. cbn [negb].
  destruct (len hash =? K1_HASH_LEN); [|done]. cbn [negb]. unfold SIGNATURE_LEN, len in Hl.
  destruct (lookup_lt_is_Some_2 sig (Z.to_nat K1_REC_IDX)) as [v ->]; [unfold K1_REC_IDX; lia|].
  cbn [expect mbind res_bind]. unfold recovery_of_byte.
  assert (forall v, (recovered ← (rs ← slice sig 0 (SIGNATURE_LEN - 1);
    signature ← ok_or (sig_from_slice k rs) InvalidSignature;
    let '(signature, recovery_id) :=
      match normalize_s k signature with
      | Some normalized => (normalized, Z.lxor v 1)
      | None => (signature, v)
      end in
    ok_or (recover_from_prehash k hash signature recovery_id) InvalidSignature);
    Ok (bool_decide (recovered = pubkey))) <> Panic) as Hrest.
  { intros w. destruct (@slice_ok K1UtilError _ sig 0 (SIGNATURE_LEN - 1)) as (rs & -> & _);
      [unfold SIGNATURE_LEN, len; lia..|]. cbn [mbind res_bind].
    destruct (sig_from_slice _ _) as [s|]; [|done]. cbn [ok_or mbind res_bind].
    destruct (normalize_s k s); by destruct (recover_from_prehash _ _ _ _). }
  repeat case_match; try done; apply Hrest.
Qed.

Context (laws : k256_laws k).

(** Recovery from a signature and a byte for its recovery id. *)
Lemma recover_split h s b :
  len h = K1_HASH_LEN ->
  recover h (sig_to_bytes k s ++ [b]) =
    (v ← recovery_of_byte b;
     let '(s, v) := match normalize_s k s with Some n => (n, Z.lxor v 1) | None => (s, v) end in
     ok_or (recover_from_prehash k h s v) InvalidSignature).
Proof.
  intros Hh. pose proof (sig_bytes_len k laws s) as Hs. unfold recover. rewrite Hh, Z.eqb_refl.
  rewrite (proj2 (Z.eqb_eq (len (_ ++ [b])) SIGNATURE_LEN)) by (rewrite len_app, Hs; done). cbn [negb].
  assert ((sig_to_bytes k s ++ [b]) !! Z.to_nat K1_REC_IDX = Some b) as ->.
  { unfold len in Hs. rewrite lookup_app_r by (unfold K1_REC_IDX; lia).
    by replace (Z.to_nat K1_REC_IDX - length (sig_to_bytes k s))%nat with 0%nat by (unfold K1_REC_IDX; lia). }
  cbn [expect mbind res_bind]. destruct (recovery_of_byte b); [|done..]. cbn [mbind res_bind].
  assert (slice (sig_to_bytes k s ++ [b]) 0 (SIGNATURE_LEN - 1) = @Ok K1UtilError _ (sig_to_bytes k s)) as ->.
  { change (SIGNATURE_LEN - 1) with (len (@nil Z) + 64). rewrite <-Hs. exact (slice_app [] (sig_to_bytes k s) [b]). }
  cbn [mbind res_bind]. by rewrite (sig_parse k laws).
Qed.

Lemma sign_verifies key h s v :
  len h = K1_HASH_LEN -> sign_prehash_recoverable k key h = Some (s, v) ->
  sign key h = Ok (sig_to_bytes k s ++ [v]) /\ verify_64 (public_key k key) h (sig_to_bytes k s) = Ok true.
Proof.
  intros Hh Hs. destruct (sign_law k laws _ _ _ _ Hs) as (_ & _ & _ & Hver). split.
  - unfold sign. by rewrite Hh, Hs.
  - unfold verify_64. rewrite (sig_bytes_len k laws), Hh. cbn. rewrite (sig_parse k laws). cbn. by rewrite Hver.
Qed.

Lemma sign_verify_65 key h s v :
  len h = K1_HASH_LEN -> sign_prehash_recoverable k key h = Some (s, v) -> v < 2 ->
  verify_65 (public_key k key) h (sig_to_bytes k s ++ [v]) = Ok true.
Proof.
  intros Hh Hs Hv. destruct (sign_law k laws _ _ _ _ Hs) as (Hv0 & Hlow & Hrec & _).
  unfold verify_65. rewrite recover_split by done.
  assert (recovery_of_byte v = Ok v) as -> by (assert (v = 0 \/ v = 1) as [-> | ->] by lia; done).
  cbn [mbind res_bind]. rewrite Hlow, Hrec. cbn. by rewrite bool_decide_eq_true_2.
Qed.

(** What was signed is recovered.  A produced signature recovers to the
    signer's key and verifies in both formats; so do its variants that other
    implementations produce: the recovery byte in the 27/28 form, and the
    signature with the negated [S] and the flipped recovery byte.  The only
    exception are the rare signatures with a recovery id of 2 or 3, which are
    refused. *)
Theorem signature_recovers key h s v :
  len h = K1_HASH_LEN -> sign_prehash_recoverable k key h = Some (s, v) ->
  sign key h = Ok (sig_to_bytes k s ++ [v]) /\
  verify_64 (public_key k key) h (sig_to_bytes k s) = Ok true /\
  if v <? 2 then
    verify_65 (public_key k key) h (sig_to_bytes k s ++ [v]) = Ok true /\
    recover h (sig_to_bytes k s ++ [v + 27]) = Ok (public_key k key) /\
    forall high, normalize_s k high = Some s ->
      recover h (sig_to_bytes k high ++ [1 - v]) = Ok (public_key k key)
  else recover h (sig_to_bytes k s ++ [v]) = Err (InvalidSignatureRecoveryId v).
Proof.
  intros Hh Hs. destruct (sign_law k laws _ _ _ _ Hs) as (Hv & Hlow & Hrec & Hver).
  split_and!; [by apply sign_verifies|by eapply sign_verifies|].
  - destruct (v <? 2) eqn:E2; zbool.
    + assert (recovery_of_byte (v + 27) = Ok v /\
        recovery_of_byte (1 - v) = Ok (1 - v) /\ Z.lxor (1 - v) 1 = v) as (H2 & H3 & H4)
        by (assert (v = 0 \/ v = 1) as [-> | ->] by lia; done).
      rewrite recover_split, H2 by done. cbn [mbind res_bind]. rewrite Hlow, Hrec. cbn [ok_or].
      split_and!; [by apply sign_verify_65|done|].
      intros high Hhigh. rewrite recover_split, H3 by done. cbn [mbind res_bind]. by rewrite Hhigh, H4, Hrec.
    + rewrite recover_split by done. assert (v = 2 \/ v = 3) as [-> | ->] by lia; done.
Qed.
End k1.

(** ** A toy scheme

    A signature is a flag for a high [S], the key, and the sum of the bytes of
    the hash. *)

Definition toy_tag (h : list Z) : ascii := ascii_of_nat (Z.to_nat (fold_right Z.add 0 h mod 256)).
Definition bit (b : bool) : Z := if b then 1 else 0.

Definition toy_k256 : K256 bool bool (bool * bool * ascii) := {|
  public_key := fun sk => sk;
  sign_prehash_recoverable := fun sk h => Some ((false, sk, toy_tag h), bit sk);
  sig_to_bytes := fun '(high, key, tag) => bit high :: bit key :: Z.of_nat (nat_of_ascii tag) :: replicate 61 0;
  sig_from_slice := fun b => match b with
    | x :: y :: z :: _ => Some (x =? 1, y =? 1, ascii_of_nat (Z.to_nat z)) | _ => None end;
  normalize_s := fun '(high, key, tag) => if high : bool then Some (false, key, tag) else None;
  recover_from_prehash := fun _ '(_, key, _) _ => Some key;
  verify_prehashed := fun pk h '(high, key, tag) =>
    negb high && eqb key pk && bool_decide (tag = toy_tag h);
|}.

Lemma toy_k256_laws : k256_laws toy_k256.
Proof.
  split.
  - by intros [[[] []] tag].
  - intros [[high key] tag]. cbn. pose proof (nat_ascii_bounded tag) as Ht.
    repeat constructor; try (destruct high, key; cbn; lia); lia.
  - intros [[[] []] tag]; cbn -[nat_of_ascii ascii_of_nat Z.of_nat Z.to_nat];
      by rewrite Nat2Z.id, ascii_nat_embedding.
  - intros sk h s v [= <- <-]. cbn -[bit]. split_and!; [by destruct sk..|done|done|].
    by rewrite eqb_reflx, bool_decide_eq_true_2.
Qed.

Lemma signature_recovers_witness :
  let h := be_bytes 32 12345 in
  exists s, sign toy_k256 true h = Ok s /\ verify_65 toy_k256 true h s = Ok true.
Proof.
  destruct (signature_recovers toy_k256 toy_k256_laws true (be_bytes 32 12345)
    (false, true, toy_tag (be_bytes 32 12345)) 1) as (H1 & _ & H2 & _); [by vm_compute|reflexivity|].
  eexists. split; [exact H1|exact H2].
Defined.
