(* ===== verification/Enr.v ===== *)
(** * Node records

    [crates/eth2util/src/enr.rs]: creation, printing and parsing of Ethereum
    node records (ENR) with the v4 identity scheme.  The base64 and Keccak
    crates and the key type of [k256] are parameters. *)

From Stdlib Require Import Ascii.
From stdpp Require Import sorting.
From S2P Require Import Prelude Bytes Types Rlp K1Util.

(** ** Text of the standard library *)

Definition in_range (lo hi : Z) (b : option Z) : bool :=
  match b with Some b => (lo <=? b) && (b <=? hi) | None => false end.
Definition continuation : option Z -> bool := in_range 0x80 0xbf.

(** The first UTF-8 sequence: whether it is valid, and how many bytes it has. *)
Definition utf8_step (b0 : Z) (r : list Z) : bool * nat :=
  if b0 <? 0x80 then (true, 1%nat)
  else if in_range 0xc2 0xdf (Some b0) then
    if continuation (r !! 0%nat) then (true, 2%nat) else (false, 1%nat)
  else if in_range 0xe0 0xef (Some b0) then
    if in_range (if b0 =? 0xe0 then 0xa0 else 0x80) (if b0 =? 0xed then 0x9f else 0xbf) (r !! 0%nat) then
      if continuation (r !! 1%nat) then (true, 3%nat) else (false, 2%nat)
    else (false, 1%nat)
  else if in_range 0xf0 0xf4 (Some b0) then
    if in_range (if b0 =? 0xf0 then 0x90 else 0x80) (if b0 =? 0xf4 then 0x8f else 0xbf) (r !! 0%nat) then
      if continuation (r !! 1%nat) then
        if continuation (r !! 2%nat) then (true, 4%nat) else (false, 3%nat)
      else (false, 2%nat)
    else (false, 1%nat)
  else (false, 1%nat).

(** [String::from_utf8_lossy], with the bytes as fuel. *)
Fixpoint utf8_lossy (fuel : nat) (b : list Z) : list Z :=
  match fuel, b with
  | S fuel, b0 :: r =>
      let '(valid, n) := utf8_step b0 r in
      (if (valid : bool) then take n b else [0xef; 0xbf; 0xbd]) ++ utf8_lossy fuel (drop n b)
  | _, _ => []
  end.
Definition from_utf8_lossy (b : list Z) : string := string_of_bytes (utf8_lossy (length b) b).

(** [trim_end_matches('=')] *)
Fixpoint drop_padding (l : list ascii) : list ascii :=
  match l with
  | [] => []
  | c :: l => if ascii_dec c "=" then drop_padding l else c :: l
  end.
Definition trim_padding (s : string) : string :=
  String.string_of_list_ascii (reverse (drop_padding (reverse (String.list_ascii_of_string s)))).

(** ** Records *)

Definition KEY_SECP256K1 : string := "secp256k1".
Definition KEY_ID : string := "id".
Definition VAL_ID : string := "v4".
Definition KEY_IP : string := "ip".
Definition KEY_TCP : string := "tcp".
Definition KEY_UDP : string := "udp".

Inductive InvalidFormatError :=
| DoesNotStartWithEnr
| OddNumberOfElements
| NonV4IdentitySchemeNotSupported
| PublicKeyNotSet.

Inductive RecordError :=
| InvalidFormat (e : InvalidFormatError)
| TooShort (expected actual : Z)
| DuplicateKey (key : string)
| FailedToDecodeBase64
| FailedToDecodeRlp (e : RlpError)
| Secp256k1Error
| FailedToVerifySignature
| VerificationError (e : K1UtilError)
| FailedToSign (e : K1UtilError).

Definition lift_err {E E' A} (f : E -> E') (m : res E A) : res E' A :=
  match m with Ok x => Ok x | Err e => Err (f e) | Panic => Panic end.

Inductive EnrEntry :=
| Ipv4 (a b c d : Z)
| Tcp (port : Z)
| Udp (port : Z).

Definition apply_entry (kvs : gmap string (list Z)) (e : EnrEntry) : gmap string (list Z) :=
  match e with
  | Ipv4 a b c d => <[KEY_IP := [a; b; c; d]]> kvs
  | Tcp tcp => <[KEY_TCP := to_big_endian tcp]> kvs
  | Udp udp => <[KEY_UDP := to_big_endian udp]> kvs
  end.

Definition port_from_be_bytes (bytes : list Z) : option Z :=
  if 2 <? len bytes then None else Some (be_value (replicate (2 - length bytes) 0 ++ bytes)).

(** The elements in pairs, a last odd one left out. *)
Fixpoint pairs {A} (l : list A) : list (A * A) :=
  match l with
  | x :: y :: l => (x, y) :: pairs l
  | _ => []
  end.

Section record.
Context {SK PK Sig : Type} `{!EqDecision PK} (k : K256 SK PK Sig).
Context (to_sec1_bytes : PK -> list Z) (from_sec1_bytes : list Z -> option PK).
Context (keccak256 : list Z -> list Z).
Context (b64_encode : list Z -> string) (b64_decode : string -> option (list Z)).

Record EnrRecord := {
  enr_public_key : option PK;
  enr_signature : list Z;
  enr_kvs : gmap string (list Z);
}.

Definition encode_elements (signature : list Z) (kvs : gmap string (list Z)) : res RlpError (list Z) :=
  let keys := merge_sort String.le (elements (dom kvs)) in
  let elements := to_big_endian 0 :: concat ((fun key => [bytes_of_string key; default [] (kvs !! key)]) <$> keys) in
  encode_bytes_list (if bool_decide (signature = []) then elements else signature :: elements).

Definition enr_sign (private_key : SK) (raw_excl_sig : list Z) : res RecordError (list Z) :=
  let digest := keccak256 raw_excl_sig in
  signature ← lift_err FailedToSign (sign k private_key digest);
  slice signature 0 SIGNATURE_LEN_WITHOUT_V.

Definition enr_verify (pubkey : PK) (signature raw_excl_sig : list Z) : res RecordError unit :=
  let digest := keccak256 raw_excl_sig in
  match verify_64 k pubkey digest signature with
  | Ok true => Ok tt
  | Ok false => Err FailedToVerifySignature
  | Err e => Err (VerificationError e)
  | Panic => Panic
  end.

Definition record_new (secret_key : SK) (opts : list EnrEntry) : res RecordError EnrRecord :=
  let kvs := <[KEY_SECP256K1 := to_sec1_bytes (public_key k secret_key)]>
             (<[KEY_ID := bytes_of_string VAL_ID]> ∅) in
  let kvs := foldl apply_entry kvs opts in
  raw ← lift_err FailedToDecodeRlp (encode_elements [] kvs);
  signature ← enr_sign secret_key raw;
  Ok {| enr_public_key := Some (public_key k secret_key); enr_signature := signature; enr_kvs := kvs |}.

Definition record_from_key (secret_key : SK) : res RecordError EnrRecord := record_new secret_key [].

Definition record_ip (r : EnrRecord) : option (list Z) :=
  value ← enr_kvs r !! KEY_IP;
  if len value =? 4 then Some value else None.
Definition record_tcp (r : EnrRecord) : option Z := value ← enr_kvs r !! KEY_TCP; port_from_be_bytes value.
Definition record_udp (r : EnrRecord) : option Z := value ← enr_kvs r !! KEY_UDP; port_from_be_bytes value.

(** [Display] *)
Definition record_to_string (r : EnrRecord) : res RecordError string :=
  raw ← lift_err FailedToDecodeRlp (encode_elements (enr_signature r) (enr_kvs r));
  Ok ("enr:" +:+ b64_encode raw)%string.

(** One key-value pair of the parser's loop. *)
Definition parse_pair (r : EnrRecord) (pair : list Z * list Z) : res RecordError EnrRecord :=
  let '(key, value) := pair in
  let key := from_utf8_lossy key in
  match enr_kvs r !! key with
  | Some _ => Err (DuplicateKey key)
  | None =>
      let kvs := <[key := value]> (enr_kvs r) in
      if String.eqb key KEY_SECP256K1 then
        pk ← ok_or (from_sec1_bytes value) Secp256k1Error;
        Ok {| enr_public_key := Some pk; enr_signature := enr_signature r; enr_kvs := kvs |}
      else if String.eqb key KEY_ID && negb (String.eqb (from_utf8_lossy value) VAL_ID) then
        Err (InvalidFormat NonV4IdentitySchemeNotSupported)
      else Ok {| enr_public_key := enr_public_key r; enr_signature := enr_signature r; enr_kvs := kvs |}
  end.

Fixpoint parse_pairs (r : EnrRecord) (l : list (list Z * list Z)) : res RecordError EnrRecord :=
  match l with
  | [] => Ok r
  | p :: l => r ← parse_pair r p; parse_pairs r l
  end.

(** [TryFrom<&str>] *)
Definition record_of_string (enr_str : string) : res RecordError EnrRecord :=
  if negb (String.prefix "enr:" enr_str) then Err (InvalidFormat DoesNotStartWithEnr)
  else
    let enr_str := trim_padding enr_str in
    let enr_str := if String.prefix "enr:" enr_str then String.substring 4 (String.length enr_str - 4) enr_str
                   else enr_str in
    raw ← ok_or (b64_decode enr_str) FailedToDecodeBase64;
    elements ← lift_err FailedToDecodeRlp (decode_bytes_list raw);
    if len elements <? 4 then Err (TooShort 4 (len elements))
    else if negb (len elements mod 2 =? 0) then Err (InvalidFormat OddNumberOfElements)
    else
      signature ← expect (elements !! 0%nat);
      record ← parse_pairs {| enr_public_key := None; enr_signature := signature; enr_kvs := ∅ |}
                 (drop 1 (pairs elements));
      public_key ← ok_or (enr_public_key record) (InvalidFormat PublicKeyNotSet);
      encoded_elements ← lift_err FailedToDecodeRlp (encode_bytes_list (drop 1 elements));
      enr_verify public_key (enr_signature record) encoded_elements ;;
      Ok record.
End record.
Arguments EnrRecord : clear implicits.

(** ** Text *)

(** Text of characters below 128. *)
Definition ascii_text (s : string) : Prop := Forall (fun z => z < 128) (bytes_of_string s).

Lemma utf8_lossy_ascii b : Forall (fun z => z < 128) b -> utf8_lossy (length b) b = b.
Proof.
  induction 1 as [|x b Hx Hb IH]; [done|]. cbn [length utf8_lossy]. unfold utf8_step.
  rewrite (proj2 (Z.ltb_lt _ _)) by done. cbn [take drop app]. by rewrite drop_0, take_0, IH.
Qed.

Lemma from_utf8_lossy_ascii s : ascii_text s -> from_utf8_lossy (bytes_of_string s) = s.
Proof. intros Hs. unfold from_utf8_lossy. rewrite utf8_lossy_ascii by done. apply string_of_bytes_of_string. Qed.

(** Text with [n] padding characters behind it. *)
Definition padded (s : string) (n : nat) : string := (s +:+ String.string_of_list_ascii (replicate n "="%char))%string.

Lemma list_ascii_app s t :
  String.list_ascii_of_string (s +:+ t) = String.list_ascii_of_string s ++ String.list_ascii_of_string t.
Proof.
  induction s as [|a s IH]; [done|].
  change (a :: String.list_ascii_of_string (s +:+ t) =
          a :: String.list_ascii_of_string s ++ String.list_ascii_of_string t). by rewrite IH.
Qed.

Lemma trim_padded s c n :
  c <> "="%char -> trim_padding (padded (s +:+ String.String c "") n) = (s +:+ String.String c "")%string.
Proof.
  intros Hc. unfold trim_padding, padded.
  rewrite list_ascii_app, String.list_ascii_of_string_of_list_ascii, reverse_app, reverse_replicate.
  assert (forall l, drop_padding (replicate n "="%char ++ l) = drop_padding l) as -> by by induction n.
  rewrite list_ascii_app. change (String.list_ascii_of_string (String.String c "")) with [c].
  rewrite reverse_snoc. cbn [drop_padding]. destruct (ascii_dec c "="); [done|].
  rewrite reverse_cons, reverse_involutive.
  change (String.list_ascii_of_string s ++ [c]) with (String.list_ascii_of_string s ++ String.list_ascii_of_string (String.String c "")).
  rewrite <-list_ascii_app. apply String.string_of_list_ascii_of_string.
Qed.

(** ** Pairs *)

Lemma pairs_concat {A B} (f g : B -> A) l : pairs (concat ((fun x => [f x; g x]) <$> l)) = (fun x => (f x, g x)) <$> l.
Proof. induction l as [|x l IH]; cbn; [done|]. by rewrite IH. Qed.

Lemma length_pairs_concat {A B} (f g : B -> A) l :
  length (concat ((fun x => [f x; g x]) <$> l)) = (2 * length l)%nat.
Proof. induction l as [|x l IH]; cbn; [done|]. rewrite IH. lia. Qed.

Section facts.
Context {SK PK Sig : Type} `{!EqDecision PK} (k : K256 SK PK Sig) (laws : k256_laws k).
Context (to_sec1_bytes : PK -> list Z) (from_sec1_bytes : list Z -> option PK).
Context (keccak256 : list Z -> list Z).
Context (b64_encode : list Z -> string) (b64_decode : string -> option (list Z)).

(** The loop of the parser on pairs with new keys. *)
Lemma parse_pairs_new (v : string -> list Z) keys r :
  NoDup keys -> Forall ascii_text keys -> (forall x, x ∈ keys -> enr_kvs r !! x = None) ->
  (KEY_ID ∈ keys -> v KEY_ID = bytes_of_string VAL_ID) ->
  (KEY_SECP256K1 ∈ keys -> exists pk, from_sec1_bytes (v KEY_SECP256K1) = Some pk) ->
  exists r', parse_pairs from_sec1_bytes r ((fun key => (bytes_of_string key, v key)) <$> keys) = Ok r' /\
    enr_signature r' = enr_signature r /\
    enr_public_key r' = (if bool_decide (KEY_SECP256K1 ∈ keys) then from_sec1_bytes (v KEY_SECP256K1) else enr_public_key r) /\
    forall x, enr_kvs r' !! x = if bool_decide (x ∈ keys) then Some (v x) else enr_kvs r !! x.
Proof.
  intros Hnd. revert r. induction Hnd as [|key keys Hkey Hnd IH]; intros r Hascii Hnew Hid Hpk.
  { exists r. split_and!; [done..|]. done. }
  apply Forall_cons in Hascii as [Ha Hascii].
  assert (exists r1, parse_pair from_sec1_bytes r (bytes_of_string key, v key) = Ok r1 /\
    enr_signature r1 = enr_signature r /\ enr_kvs r1 = <[key := v key]> (enr_kvs r) /\
    enr_public_key r1 = if bool_decide (key = KEY_SECP256K1) then from_sec1_bytes (v key) else enr_public_key r)
    as (r1 & E1 & Hs1 & Hk1 & Hp1).
  { unfold parse_pair. rewrite from_utf8_lossy_ascii by done. rewrite Hnew by set_solver.
    destruct (String.eqb_spec key KEY_SECP256K1) as [->|Hne].
    - destruct Hpk as [pk Epk]; [set_solver|]. rewrite Epk. eexists. split; [done|]. cbn.
      by rewrite bool_decide_eq_true_2.
    - destruct (String.eqb_spec key KEY_ID) as [->|Hni]; cbn [andb].
      + rewrite Hid by set_solver. rewrite from_utf8_lossy_ascii by by apply (bool_decide_unpack _).
        rewrite String.eqb_refl. eexists. split; [done|]. cbn. done.
      + eexists. split; [done|]. cbn. by rewrite bool_decide_eq_false_2. }
  destruct (IH r1) as (r' & E' & Hs' & Hp' & Hk'); [done| | | |].
  - intros x Hx. rewrite Hk1, lookup_insert_ne by set_solver. apply Hnew. set_solver.
  - intros Hx. apply Hid. set_solver.
  - intros Hx. apply Hpk. set_solver.
  - exists r'. cbn [fmap list_fmap parse_pairs]. rewrite E1. cbn [mbind res_bind]. split_and!; [done|congruence| |].
    + rewrite Hp', Hp1. destruct (decide (KEY_SECP256K1 ∈ keys)).
      * by rewrite !bool_decide_eq_true_2 by set_solver.
      * rewrite (bool_decide_eq_false_2 (_ ∈ keys)) by done.
        destruct (decide (key = KEY_SECP256K1)) as [->|].
        -- by rewrite !bool_decide_eq_true_2 by set_solver.
        -- by rewrite !bool_decide_eq_false_2 by set_solver.
    + intros x. rewrite Hk', Hk1. destruct (decide (x ∈ keys)).
      * by rewrite !bool_decide_eq_true_2 by set_solver.
      * rewrite (bool_decide_eq_false_2 (x ∈ keys)) by done. destruct (decide (x = key)) as [->|].
        -- by rewrite bool_decide_eq_true_2, lookup_insert_eq by set_solver.
        -- by rewrite bool_decide_eq_false_2, lookup_insert_ne by set_solver.
Qed.

(** The keys and values a new record can have. *)
Definition kvs_ok (pk : PK) (kvs : gmap string (list Z)) : Prop :=
  kvs !! KEY_ID = Some (bytes_of_string VAL_ID) /\ kvs !! KEY_SECP256K1 = Some (to_sec1_bytes pk) /\
  forall key v, kvs !! key = Some v ->
    key ∈ [KEY_ID; KEY_SECP256K1; KEY_IP; KEY_TCP; KEY_UDP] /\ Forall is_byte v /\ len v <= 65.

Definition entry_ok (e : EnrEntry) : Prop :=
  match e with
  | Ipv4 a b c d => is_byte a /\ is_byte b /\ is_byte c /\ is_byte d
  | Tcp p | Udp p => 0 <= p < 2 ^ 16
  end.

Lemma kvs_ok_insert pk kvs key v :
  kvs_ok pk kvs -> key ∈ [KEY_IP; KEY_TCP; KEY_UDP] -> Forall is_byte v -> len v <= 65 ->
  kvs_ok pk (<[key := v]> kvs).
Proof.
  intros (Hid & Hpk & Hall) Hkey Hv Hl. split_and!.
  - rewrite lookup_insert_ne; [done|]. intros ->. apply (bool_decide_pack _) in Hkey. by vm_compute in Hkey.
  - rewrite lookup_insert_ne; [done|]. intros ->. apply (bool_decide_pack _) in Hkey. by vm_compute in Hkey.
  - intros x w [[<- <-]|[Hne Hx]]%lookup_insert_Some; [|by apply Hall]. split_and!; [set_solver|done|done].
Qed.

Lemma apply_entries_ok pk kvs opts :
  kvs_ok pk kvs -> Forall entry_ok opts -> kvs_ok pk (foldl apply_entry kvs opts).
Proof.
  intros Hk Ho. revert kvs Hk. induction Ho as [|e opts He Ho IH]; intros kvs Hk; [done|]. apply IH.
  destruct e as [a b c d|p|p]; cbn [apply_entry entry_ok] in *.
  - apply kvs_ok_insert; [done|set_solver| |done]. destruct He as (? & ? & ? & ?).
    repeat (constructor; [done|]). constructor.
  - destruct (to_big_endian_bytes p). apply kvs_ok_insert; [done|set_solver|done|lia].
  - destruct (to_big_endian_bytes p). apply kvs_ok_insert; [done|set_solver|done|lia].
Qed.

(** The elements of a record in the order they are written. *)
Definition key_elements (kvs : gmap string (list Z)) : list (list Z) :=
  concat ((fun key => [bytes_of_string key; default [] (kvs !! key)]) <$> merge_sort String.le (elements (dom kvs))).

Lemma sorted_keys (kvs : gmap string (list Z)) :
  let keys := merge_sort String.le (elements (dom kvs)) in
  NoDup keys /\ (forall x, x ∈ keys <-> is_Some (kvs !! x)) /\ length keys = size kvs.
Proof.
  intros keys. pose proof (merge_sort_Permutation String.le (elements (dom kvs))) as Hp. fold keys in Hp.
  split_and!.
  - rewrite Hp. apply NoDup_elements.
  - intros x. rewrite Hp, elem_of_elements. apply elem_of_dom.
  - rewrite Hp. change (length (elements (dom kvs))) with (size (dom kvs)). apply size_dom.
Qed.

Section ok.
Context (pk : PK) (kvs : gmap string (list Z)) (Hkvs : kvs_ok pk kvs).

Lemma kvs_ascii : Forall ascii_text (merge_sort String.le (elements (dom kvs))).
Proof.
  apply Forall_forall. intros x [v Hx]%(proj1 (proj2 (sorted_keys kvs))).
  apply Hkvs in Hx as [Hx _]. revert x Hx. apply Forall_forall. repeat constructor; by vm_compute.
Qed.

Lemma kvs_size : 2 <= Z.of_nat (size kvs) <= 5.
Proof.
  destruct Hkvs as (Hid & Hpk & Hall). split.
  - assert (size ({[KEY_ID; KEY_SECP256K1]} : gset string) <= size (dom kvs))%nat as Hle.
    { apply subseteq_size. intros x Hx. apply elem_of_dom. set_unfold in Hx. destruct Hx as [-> | ->]; eauto. }
    rewrite size_dom in Hle. change (size _) with 2%nat in Hle at 1. lia.
  - assert (size (dom kvs) <= size (list_to_set [KEY_ID; KEY_SECP256K1; KEY_IP; KEY_TCP; KEY_UDP] : gset string))%nat as Hle.
    { apply subseteq_size. intros x [v Hx]%elem_of_dom. apply Hall in Hx as [Hx _]. by apply elem_of_list_to_set. }
    rewrite size_dom in Hle. change (size (list_to_set _)) with 5%nat in Hle. lia.
Qed.

Lemma kvs_elements_bytes : Forall (Forall is_byte) (key_elements kvs) /\ Forall (fun i => len i <= 65) (key_elements kvs).
Proof.
  assert (forall e, e ∈ key_elements kvs -> Forall is_byte e /\ len e <= 65) as H.
  { intros e He. unfold key_elements in He. apply list_elem_of_In, in_concat in He as (l & Hl & He).
    apply list_elem_of_In, list_elem_of_fmap in Hl as (x & -> & Hx).
    apply (proj1 (proj2 (sorted_keys kvs))) in Hx as [v Hv]. rewrite Hv in He.
    destruct Hkvs as (_ & _ & Hall). apply Hall in Hv as (Hkey & Hb & Hl).
    destruct He as [<-|[<-|[]]]; [|done]. split; [apply bytes_of_string_byte|].
    revert x Hkey. apply Forall_forall. repeat constructor; by vm_compute. }
  split; apply Forall_forall; intros e He; by destruct (H e He).
Qed.

Lemma kvs_encodable sig :
  Forall is_byte sig -> len sig <= 65 ->
  exists e, encode_elements sig kvs = Ok e /\ Forall is_byte e /\
    decode_bytes_list e = Ok ((if bool_decide (sig = []) then [] else [sig]) ++ [] :: key_elements kvs).
Proof.
  intros Hb Hl. destruct kvs_elements_bytes as [Hkb Hkl]. pose proof kvs_size as Hsize.
  unfold encode_elements. fold (key_elements kvs). change (to_big_endian 0) with (@nil Z).
  replace (if bool_decide (sig = []) then [] :: key_elements kvs else sig :: [] :: key_elements kvs)
    with ((if bool_decide (sig = []) then [] else [sig]) ++ [] :: key_elements kvs) by by case_bool_decide.
  set (items := _ ++ _). assert (Forall (Forall is_byte) items /\ Forall (fun i => len i <= 65) items) as [Hall Hlen].
  { unfold items. split; case_bool_decide; cbn [app]; repeat (constructor; try done). }
  destruct (encoded_list_decodes items) as (e & Ee & Hdec); [done| |exists e; split_and!; [done|by eapply encode_list_bytes|done]].
  - etransitivity; [by apply (encoded_bound_le 65)|]. unfold items.
    rewrite len_app. assert (len (@nil Z :: key_elements kvs) = 1 + 2 * Z.of_nat (size kvs)) as ->.
    { unfold len, key_elements. cbn [length]. rewrite length_pairs_concat, (proj2 (proj2 (sorted_keys kvs))). lia. }
    unfold U64_MAX. case_bool_decide; [change (len []) with 0|change (len [sig]) with 1]; lia.
Qed.
End ok.

(** The crates: base64 without padding characters, Keccak with 32 bytes,
    public keys of at most 65 bytes that parse back, and a signer. *)
Record enr_laws (sk : SK) : Prop := {
  b64_law : forall b, Forall is_byte b -> b64_decode (b64_encode b) = Some b;
  b64_unpadded : forall b, Forall is_byte b -> b <> [] -> exists s c, b64_encode b = (s +:+ String.String c "")%string /\ c <> "="%char;
  keccak_len : forall b, len (keccak256 b) = K1_HASH_LEN;
  sec1_bytes : forall pk, Forall is_byte (to_sec1_bytes pk) /\ len (to_sec1_bytes pk) <= 65;
  sec1_law : forall pk, from_sec1_bytes (to_sec1_bytes pk) = Some pk;
  signs : forall h, is_Some (sign_prehash_recoverable k sk h);
}.

Lemma strip_enr b n s c :
  b = (s +:+ String.String c "")%string -> c <> "="%char ->
  let text := padded ("enr:" +:+ b) n in
  String.prefix "enr:" text = true /\ trim_padding text = ("enr:" +:+ b)%string /\
  String.prefix "enr:" (trim_padding text) = true /\
  String.substring 4 (String.length (trim_padding text) - 4) (trim_padding text) = b.
Proof.
  intros Hb Hc text. assert (trim_padding text = ("enr:" +:+ b)%string) as Ht.
  { unfold text. subst b. exact (trim_padded ("enr:" +:+ s)%string c n Hc). }
  assert (forall t, String.prefix "enr:" ("enr:" +:+ t)%string = true) as Hp by by intros [].
  rewrite Ht. split_and!; [|done|apply Hp|].
  - unfold text, padded. exact (Hp (b +:+ _)%string).
  - change (String.length ("enr:" +:+ b)) with (4 + String.length b)%nat.
    replace (4 + String.length b - 4)%nat with (String.length b) by lia. exact (substring_all b).
Qed.

Lemma new_kvs_ok sk :
  enr_laws sk ->
  kvs_ok (public_key k sk) (<[KEY_SECP256K1 := to_sec1_bytes (public_key k sk)]> (<[KEY_ID := bytes_of_string VAL_ID]> ∅)).
Proof.
  intros L. destruct (sec1_bytes sk L (public_key k sk)) as [Hb Hl]. split_and!; [done|apply lookup_insert_eq|].
  intros key v [[<- <-]|[_ [[<- <-]|[_ H]]%lookup_insert_Some]]%lookup_insert_Some; [| |done].
  - split_and!; [set_solver|done|done].
  - split_and!; [set_solver|apply bytes_of_string_byte|done].
Qed.

(** The parser on a printed record. *)
Lemma parse_printed sk kvs sig raw e n :
  enr_laws sk -> kvs_ok (public_key k sk) kvs -> sig <> [] -> Forall is_byte sig -> len sig <= 65 ->
  encode_elements [] kvs = Ok raw -> encode_elements sig kvs = Ok e ->
  verify_64 k (public_key k sk) (keccak256 raw) sig = Ok true ->
  record_of_string k from_sec1_bytes keccak256 b64_decode (padded ("enr:" +:+ b64_encode e) n) =
    Ok {| enr_public_key := Some (public_key k sk); enr_signature := sig; enr_kvs := kvs |}.
Proof.
  intros L Hk Hne Hsig Hlsig Eraw Ee Hver.
  destruct (kvs_encodable _ kvs Hk sig Hsig Hlsig) as (e' & Ee' & He & Hdec).
  rewrite Ee in Ee'. injection Ee' as <-.
  rewrite bool_decide_eq_false_2 in Hdec by done. cbn [app] in Hdec.
  destruct (b64_unpadded sk L e He) as (s & c & Eb & Hc); [by intros ->|].
  destruct (strip_enr _ n s c Eb Hc) as (H1 & H2 & H3 & H4).
  unfold record_of_string. rewrite H1, H3, H4. cbn [negb]. rewrite (b64_law sk L) by done. cbn [ok_or mbind res_bind].
  rewrite Hdec. cbn [lift_err mbind res_bind]. pose proof (kvs_size _ kvs Hk) as Hsize.
  destruct (sorted_keys kvs) as (Hnd & Hin & Hlen).
  assert (len (sig :: [] :: key_elements kvs) = 2 + 2 * Z.of_nat (size kvs)) as ->.
  { unfold len, key_elements. cbn [length]. rewrite length_pairs_concat, Hlen. lia. }
  rewrite (proj2 (Z.ltb_ge _ _)) by lia.
  rewrite (proj2 (Z.eqb_eq _ 0)) by (rewrite <-(Z.mod_mul (1 + Z.of_nat (size kvs)) 2) by lia; f_equal; lia).
  cbn [negb lookup list_lookup expect mbind res_bind pairs drop].
  rewrite drop_0, (pairs_concat bytes_of_string (fun key => default [] (kvs !! key)) _ : pairs (key_elements kvs) = _).
  destruct (parse_pairs_new (fun key => default [] (kvs !! key))
    (merge_sort String.le (elements (dom kvs))) {| enr_public_key := None; enr_signature := sig; enr_kvs := ∅ |})
    as (r & Er & Hrs & Hrp & Hrk).
  - done.
  - by eapply kvs_ascii.
  - done.
  - intros _. by rewrite (proj1 Hk).
  - intros _. rewrite (proj1 (proj2 Hk)). cbn. rewrite (sec1_law sk L). by eexists.
  - rewrite Er. cbn [mbind res_bind]. rewrite bool_decide_eq_true_2 in Hrp
      by (apply Hin; rewrite (proj1 (proj2 Hk)); by eexists).
    rewrite (proj1 (proj2 Hk)) in Hrp. cbn in Hrp. rewrite (sec1_law sk L) in Hrp. rewrite Hrp. cbn [ok_or mbind res_bind].
    assert (encode_bytes_list ([] :: key_elements kvs) = Ok raw) as -> by exact Eraw.
    cbn [lift_err mbind res_bind]. unfold enr_verify. rewrite Hrs. cbn [enr_signature]. rewrite Hver. cbn.
    f_equal. destruct r as [rp rs rk]. cbn in *. subst rp rs. f_equal. apply map_eq. intros x. rewrite Hrk, lookup_empty.
    case_bool_decide as Hx.
    + apply Hin in Hx as [v ->]. done.
    + destruct (kvs !! x) eqn:E; [|done]. destruct Hx. apply Hin. by eexists.
Qed.

(** The last address of a kind among the entries. *)
Definition last_of {A} (f : EnrEntry -> option A) (opts : list EnrEntry) : option A := last (omap f opts).
Definition ip_of (e : EnrEntry) : option (list Z) := match e with Ipv4 a b c d => Some [a; b; c; d] | _ => None end.
Definition tcp_of (e : EnrEntry) : option Z := match e with Tcp p => Some p | _ => None end.
Definition udp_of (e : EnrEntry) : option Z := match e with Udp p => Some p | _ => None end.

Lemma port_roundtrip p : 0 <= p < 2 ^ 16 -> port_from_be_bytes (to_big_endian p) = Some p.
Proof.
  intros Hp. assert (be_value (to_big_endian p) = p) as Hv by (apply be_value_to_big_endian; unfold U64_MAX; lia).
  assert (be_bytes 8 p = replicate 6 0 ++ be_bytes 2 p) as Eb.
  { unfold be_bytes.
    assert (le_bytes 8 p = le_bytes 2 p ++ replicate 6 0) as ->.
    { cbn [le_bytes Nat.add app replicate]. assert (p / 256 / 256 = 0) as ->; [|done].
      apply Z.div_small. split; [apply Z.div_pos; lia|]. apply Z.div_lt_upper_bound; lia. }
    by rewrite reverse_app, reverse_replicate. }
  assert (len (to_big_endian p) <= 2) as Hl.
  { unfold to_big_endian. rewrite Eb, drop_zeros_app. destruct (drop_zeros_form (be_bytes 2 p)) as [j E].
    apply (f_equal length) in E. rewrite length_app, length_be_bytes in E. unfold len. lia. }
  unfold port_from_be_bytes. rewrite (proj2 (Z.ltb_ge _ _)) by done. f_equal.
  etransitivity; [|exact Hv]. unfold be_value. by rewrite reverse_app, reverse_replicate, le_value_zeros.
Qed.

Lemma foldl_entries opts kvs :
  let kvs' := foldl apply_entry kvs opts in
  kvs' !! KEY_IP = match last_of ip_of opts with Some ip => Some ip | None => kvs !! KEY_IP end /\
  kvs' !! KEY_TCP = match last_of tcp_of opts with Some p => Some (to_big_endian p) | None => kvs !! KEY_TCP end /\
  kvs' !! KEY_UDP = match last_of udp_of opts with Some p => Some (to_big_endian p) | None => kvs !! KEY_UDP end.
Proof.
  induction opts as [|e opts IH] using rev_ind; [done|]. rewrite foldl_app. cbn [foldl].
  set (kvs' := foldl apply_entry kvs opts) in *. destruct IH as (H1 & H2 & H3).
  unfold last_of in *. rewrite !omap_app.
  destruct e as [a b c d|p|p]; cbn [apply_entry omap list_omap ip_of tcp_of udp_of];
    rewrite !app_nil_r, last_snoc; split_and!;
    first [apply lookup_insert_eq | rewrite lookup_insert_ne by done; done].
Qed.

Lemma last_of_in {A} (f : EnrEntry -> option A) opts x : last_of f opts = Some x -> exists e, e ∈ opts /\ f e = Some x.
Proof. intros H%last_Some_elem_of. by apply list_elem_of_omap in H. Qed.

(** A new node record can be printed and parsed, with or without base64
    padding behind it, and parsing verifies it and gives the record back; its
    addresses are the last ones it was created with. *)
Theorem enr_roundtrip sk opts :
  enr_laws sk -> Forall entry_ok opts ->
  exists r text,
    record_new k to_sec1_bytes keccak256 sk opts = Ok r /\ record_to_string b64_encode r = Ok text /\
    (forall n, record_of_string k from_sec1_bytes keccak256 b64_decode (padded text n) = Ok r) /\
    enr_public_key r = Some (public_key k sk) /\
    record_ip r = last_of ip_of opts /\ record_tcp r = last_of tcp_of opts /\ record_udp r = last_of udp_of opts.
Proof.
  intros L Ho. pose proof (apply_entries_ok _ _ opts (new_kvs_ok sk L) Ho) as Hk.
  destruct (foldl_entries opts (<[KEY_SECP256K1 := to_sec1_bytes (public_key k sk)]> (<[KEY_ID := bytes_of_string VAL_ID]> ∅)))
    as (Hip & Htcp & Hudp).
  set (kvs := foldl apply_entry _ opts) in Hk, Hip, Htcp, Hudp.
  destruct (kvs_encodable _ kvs Hk []) as (raw & Eraw & _); [done|done|].
  destruct (signs sk L (keccak256 raw)) as [[s v] Hs].
  destruct (sign_verifies k laws sk (keccak256 raw) s v (keccak_len sk L raw) Hs) as [Esign Hver].
  pose proof (sig_bytes_len k laws s) as Hls. pose proof (sig_bytes_ok k laws s) as Hbs.
  assert (sig_to_bytes k s <> []) as Hne by (by intros E; rewrite E in Hls).
  destruct (kvs_encodable _ kvs Hk (sig_to_bytes k s)) as (e & Ee & _); [done|lia|].
  exists {| enr_public_key := Some (public_key k sk); enr_signature := sig_to_bytes k s; enr_kvs := kvs |}.
  exists ("enr:" +:+ b64_encode e)%string. split_and!.
  - unfold record_new. fold kvs. rewrite Eraw. cbn [lift_err mbind res_bind]. unfold enr_sign. rewrite Esign.
    cbn [lift_err mbind res_bind].
    assert (slice (sig_to_bytes k s ++ [v]) 0 SIGNATURE_LEN_WITHOUT_V = @Ok RecordError _ (sig_to_bytes k s)) as ->.
    { change SIGNATURE_LEN_WITHOUT_V with (len (@nil Z) + 64). rewrite <-Hls. exact (slice_app [] (sig_to_bytes k s) [v]). }
    done.
  - unfold record_to_string. cbn [enr_signature enr_kvs]. by rewrite Ee.
  - intros n. eapply parse_printed; try done. lia.
  - done.
  - unfold record_ip. cbn [enr_kvs]. rewrite Hip.
    destruct (last_of ip_of opts) as [ip|] eqn:Ei; [|done]. by apply last_of_in in Ei as ([] & _ & [= <-]).
  - unfold record_tcp. cbn [enr_kvs]. rewrite Htcp. destruct (last_of tcp_of opts) as [p|] eqn:Ep; [|done].
    cbn. apply port_roundtrip. rewrite Forall_forall in Ho.
    by apply last_of_in in Ep as ([] & He%Ho & [= <-]).
  - unfold record_udp. cbn [enr_kvs]. rewrite Hudp. destruct (last_of udp_of opts) as [p|] eqn:Ep; [|done].
    cbn. apply port_roundtrip. rewrite Forall_forall in Ho.
    by apply last_of_in in Ep as ([] & He%Ho & [= <-]).
Qed.

(** *** Parsing arbitrary text *)

(** What the parser's loop maintains. *)
Definition parsed_ok (r : EnrRecord PK) : Prop :=
  (forall pk, enr_public_key r = Some pk -> exists v, enr_kvs r !! KEY_SECP256K1 = Some v /\ from_sec1_bytes v = Some pk) /\
  (forall v, enr_kvs r !! KEY_ID = Some v -> from_utf8_lossy v = VAL_ID).

Lemma parse_pair_ok r pair r' :
  parsed_ok r -> parse_pair from_sec1_bytes r pair = Ok r' -> parsed_ok r' /\ enr_signature r' = enr_signature r.
Proof.
  intros [Hpk Hid] H. destruct pair as [kb v]. unfold parse_pair in H. set (key := from_utf8_lossy kb) in *.
  destruct (enr_kvs r !! key) eqn:Ek; [done|]. destruct (String.eqb_spec key KEY_SECP256K1) as [Es|Es].
  - destruct (from_sec1_bytes v) as [pk|] eqn:Ev; [|done]. injection H as <-. rewrite Es.
    split; [|done]. split; cbn [enr_public_key enr_kvs].
    + intros pk' [= <-]. exists v. split; [apply lookup_insert_eq|done].
    + intros w. rewrite lookup_insert_ne by done. apply Hid.
  - destruct (String.eqb_spec key KEY_ID) as [Ei|Ei]; cbn [andb] in H.
    + destruct (String.eqb_spec (from_utf8_lossy v) VAL_ID) as [Ev|]; [|done]. injection H as <-. rewrite Ei.
      split; [|done]. split; cbn [enr_public_key enr_kvs].
      * intros pk Hp. rewrite lookup_insert_ne by done. by apply Hpk.
      * intros w. rewrite lookup_insert_eq. by intros [= <-].
    + injection H as <-. split; [|done]. split; cbn [enr_public_key enr_kvs].
      * intros pk Hp. rewrite lookup_insert_ne by done. by apply Hpk.
      * intros w. rewrite lookup_insert_ne by done. apply Hid.
Qed.

Lemma parse_pairs_ok l r :
  parse_pairs from_sec1_bytes r l <> Panic /\
  forall r', parsed_ok r -> parse_pairs from_sec1_bytes r l = Ok r' -> parsed_ok r' /\ enr_signature r' = enr_signature r.
Proof.
  revert r. induction l as [|p l IH]; intros r; cbn [parse_pairs]; [split; [done|]; by intros r' ? [= <-]|].
  assert (parse_pair from_sec1_bytes r p <> Panic) as Hnp.
  { destruct p as [kb v]. unfold parse_pair. destruct (enr_kvs r !! _); [done|].
    destruct (String.eqb _ _); [by destruct (from_sec1_bytes v)|]. by destruct (_ && _). }
  destruct (parse_pair from_sec1_bytes r p) as [r1| |] eqn:E1; [|done..]. cbn [mbind res_bind].
  destruct (IH r1) as [Hp Hok]. split; [done|]. intros r' Hr H.
  destruct (parse_pair_ok r p r1 Hr E1) as [Hr1 Hs1]. destruct (Hok r' Hr1 H) as [Hr' Hs']. split; [done|congruence].
Qed.

End facts.

(** ** Concrete records

    Hexadecimal text stands in for base64, a checksum for Keccak. *)
Module EnrSample.
Definition checksum (b : list Z) : list Z := be_bytes 32 (fold_right Z.add 0 b).
Definition to_sec1 (pk : bool) : list Z := [2 + bit pk].
Definition of_sec1 (b : list Z) : option bool :=
  match b with [2] => Some false | [3] => Some true | _ => None end.

Lemma hex_text_last b :
  Forall is_byte b -> b <> [] -> exists s c, hex_text b = (s +:+ String.String c "")%string /\ c <> "="%char.
Proof.
  induction 1 as [|z b Hz Hb IH]; [done|]. intros _. cbn [hex_text]. unfold is_byte in Hz.
  destruct b as [|y b].
  - exists (String.String (hex_char (z / 16)) ""), (hex_char (z mod 16)). split; [done|]. intros E.
    pose proof (hex_val_char (z mod 16) ltac:(apply Z.mod_pos_bound; lia)) as Hv. by rewrite E in Hv.
  - destruct IH as (s & c & E & Hc); [done|]. rewrite E.
    by exists (String.String (hex_char (z / 16)) (String.String (hex_char (z mod 16)) s)), c.
Qed.

Lemma sample_laws : enr_laws toy_k256 to_sec1 of_sec1 checksum hex_text hex_parse true.
Proof.
  split.
  - apply hex_parse_text.
  - apply hex_text_last.
  - intros b. unfold checksum, len. by rewrite length_be_bytes.
  - intros pk. split; [|done]. constructor; [|constructor]. by destruct pk.
  - by intros [].
  - by eexists.
Qed.

Lemma enr_roundtrip_witness :
  exists r text, record_new toy_k256 to_sec1 checksum true [Ipv4 127 0 0 1; Tcp 3610; Tcp 80] = Ok r /\
    record_to_string hex_text r = Ok text /\
    record_of_string toy_k256 of_sec1 checksum hex_parse (padded text 2) = Ok r /\ record_tcp r = Some 80.
Proof.
  destruct (enr_roundtrip toy_k256 toy_k256_laws to_sec1 of_sec1 checksum hex_text hex_parse true
    [Ipv4 127 0 0 1; Tcp 3610; Tcp 80]) as (r & text & H1 & H2 & H3 & _ & _ & H4 & _);
    [exact sample_laws|repeat constructor; by vm_compute|].
  exists r, text. split_and!; [exact H1|exact H2|exact (H3 2%nat)|exact H4].
Defined.

(** A record with sequence number 1, signed by its key. *)
Definition numbered : list (list Z) :=
  [[1]; bytes_of_string "id"; bytes_of_string "v4"; bytes_of_string "secp256k1"; [3]].
Definition numbered_text : string :=
  match encode_bytes_list numbered with
  | Ok signed =>
      match encode_bytes_list (sig_to_bytes toy_k256 (false, true, toy_tag (checksum signed)) :: numbered) with
      | Ok raw => ("enr:" +:+ hex_text raw)%string
      | _ => ""
      end
  | _ => ""
  end.

(** A parsed record is not always printed as it was read.  A valid record
    with sequence number 1 is accepted, but printing writes sequence number 0
    under the old signature, and the printed text is refused. *)
Theorem sequence_number_lost :
  exists r text,
    record_of_string toy_k256 of_sec1 checksum hex_parse numbered_text = Ok r /\
    record_to_string hex_text r = Ok text /\ text <> numbered_text /\
    record_of_string toy_k256 of_sec1 checksum hex_parse text = Err FailedToVerifySignature.
Proof. eexists _, _. split_and!; [by vm_compute|by vm_compute|by vm_compute|by vm_compute]. Qed.

(** The decoder for text of bounded length. *)
Definition short_parse (s : string) : option (list Z) :=
  if (String.length s <=? 4096)%nat then hex_parse s else None.

Lemma hex_val_range c x : hex_val c = Some x -> 0 <= x < 16.
Proof. unfold hex_val. intros H. repeat case_in H; zbool; naive_solver lia. Qed.

Lemma hex_parse_bytes n s b :
  (String.length s <= n)%nat -> hex_parse s = Some b -> Forall is_byte b /\ len b <= Z.of_nat n.
Proof.
  revert s b. induction n as [n IH] using lt_wf_ind. intros s b Hn H.
  destruct s as [|c [|c' s]]; cbn in H; [injection H as <-; split; [done|unfold len; cbn; lia]|done|].
  destruct (hex_val c) as [x|] eqn:Ex; [|done]. destruct (hex_val c') as [y|] eqn:Ey; [|done]. cbn in H.
  destruct (hex_parse s) as [l|] eqn:El; [|done]. injection H as <-. cbn [String.length] in Hn.
  destruct (IH (n - 2)%nat ltac:(lia) s l ltac:(lia) El) as [Hb Hl].
  apply hex_val_range in Ex, Ey. split; [constructor; [unfold is_byte; lia|done]|]. unfold len in *. cbn [length]. lia.
Qed.

Lemma short_parse_bytes s b : short_parse s = Some b -> Forall is_byte b /\ len b <= U64_MAX.
Proof.
  unfold short_parse. destruct (Nat.leb_spec (String.length s) 4096) as [Hs|]; [|done]. intros H.
  apply (hex_parse_bytes 4096) in H as [Hb Hl]; [|done]. split; [done|]. unfold U64_MAX. lia.
Qed.

End EnrSample.
