(* ===== verification/Priority.v ===== *)
(** * Cluster-wide priorities

    [crates/priority/src/calculate.rs]: the calculation of the cluster's
    priorities from the priorities of its peers, and the validation of the
    peers' messages.  Protobuf encoding and SHA-256 are parameters. *)

From stdpp Require Import sorting.
From S2P Require Import Prelude Bytes SszHasher SszFacts.

(** ** Stable sorting

    [slice::sort_by] and [sort_by_key] are stable: equal elements keep their
    order. *)
Section sort.
Context {A : Type} (le : A -> A -> bool).

Fixpoint sort_insert (x : A) (l : list A) : list A :=
  match l with
  | [] => [x]
  | y :: l' => if le x y then x :: l else y :: sort_insert x l'
  end.
Definition stable_sort (l : list A) : list A := foldr sort_insert [] l.
End sort.

(** Byte-wise lexicographic order of hashes. *)
Fixpoint bytes_le (a b : list Z) : bool :=
  match a, b with
  | [], _ => true
  | _ :: _, [] => false
  | x :: a, y :: b => if x <? y then true else if y <? x then false else bytes_le a b
  end.

(** ** Messages *)

Definition MAX_PRIORITIES : Z := 1000.
Definition COUNT_WEIGHT : Z := MAX_PRIORITIES.

Abbreviation HashRoot := (list Z).

Definition EMPTY_ANY : Any := {| type_url := ""; any_value := [] |}.

Record TopicProposal := { topic : option Any; priorities : list Any }.
Record ScoredResult := { priority : option Any; score : Z }.
Record TopicResult := { result_topic : option Any; result_priorities : list ScoredResult }.

Inductive PriorityError :=
| MessagesEmpty
| MismatchingDuties
| DuplicatePeer
| DuplicateTopic
| MaxPriorityReached
| DuplicatePriority
| HashProtoError (e : HasherError).

(** [i64] arithmetic that saturates. *)
Definition sat (z : Z) : Z := Z.max I64_MIN (Z.min I64_MAX z).
Definition saturating_add (a b : Z) : Z := sat (a + b).
Definition saturating_sub (a b : Z) : Z := sat (a - b).
Definition saturating_mul (a b : Z) : Z := sat (a * b).

Definition topic_any (t : TopicProposal) : Any := default EMPTY_ANY (topic t).
Definition topic_result_any (r : TopicResult) : Any := default EMPTY_ANY (result_topic r).

Section priority.
Context {Duty : Type} `{!EqDecision Duty}.
Context (sha256 : list Z -> list Z) (encode_to_vec : Any -> list Z).

Record PriorityMsg := {
  duty : option Duty;
  topics : list TopicProposal;
  peer_id : string;
  signature : list Z;
}.
Record PriorityResult := { msgs : list PriorityMsg; result_topics : list TopicResult }.

Definition hash_any (any : Any) : res PriorityError HashRoot :=
  match hash_proto_bytes sha256 (encode_to_vec any) with
  | Ok h => Ok h
  | Err e => Err (HashProtoError e)
  | Panic => Panic
  end.

(** *** Validation *)

Fixpoint validate_priorities (dedup_priority : gset HashRoot) (l : list Any) : res PriorityError unit :=
  match l with
  | [] => Ok tt
  | p :: l =>
      prio_hash ← hash_any p;
      if bool_decide (prio_hash ∈ dedup_priority) then Err DuplicatePriority
      else validate_priorities ({[prio_hash]} ∪ dedup_priority) l
  end.

Fixpoint validate_topics (dedup_topics : gset HashRoot) (l : list TopicProposal) : res PriorityError unit :=
  match l with
  | [] => Ok tt
  | t :: l =>
      topic_hash ← hash_any (topic_any t);
      if bool_decide (topic_hash ∈ dedup_topics) then Err DuplicateTopic
      else if MAX_PRIORITIES <=? len (priorities t) then Err MaxPriorityReached
      else
        validate_priorities ∅ (priorities t) ;;
        validate_topics ({[topic_hash]} ∪ dedup_topics) l
  end.

Fixpoint validate_peers (d : option Duty) (dedup_peers : gset string) (l : list PriorityMsg) : res PriorityError unit :=
  match l with
  | [] => Ok tt
  | m :: l =>
      if negb (bool_decide (duty m = d)) then Err MismatchingDuties
      else if bool_decide (peer_id m ∈ dedup_peers) then Err DuplicatePeer
      else
        validate_topics ∅ (topics m) ;;
        validate_peers d ({[peer_id m]} ∪ dedup_peers) l
  end.

Definition validate_msgs (msgs : list PriorityMsg) : res PriorityError unit :=
  match msgs with
  | [] => Err MessagesEmpty
  | m :: _ => validate_peers (duty m) ∅ msgs
  end.

(** *** Scores *)

Definition sort_input (msgs : list PriorityMsg) : list PriorityMsg :=
  stable_sort (fun a b => bool_decide (String.le (peer_id a) (peer_id b))) msgs.

Fixpoint group_topics (acc : gmap HashRoot (list TopicProposal)) (l : list TopicProposal)
    : res PriorityError (gmap HashRoot (list TopicProposal)) :=
  match l with
  | [] => Ok acc
  | t :: l => topic_hash ← hash_any (topic_any t); group_topics (push_at topic_hash t acc) l
  end.

(** The hashes in the order they were first seen, their scores and values. *)
Record Scores := { all_priorities : list HashRoot; scores : gmap HashRoot Z; prios : gmap HashRoot Any }.

Fixpoint score_priorities (order : Z) (l : list Any) (st : Scores) : res PriorityError Scores :=
  match l with
  | [] => Ok st
  | prio :: l =>
      prio_hash ← hash_any prio;
      let all := match scores st !! prio_hash with
                 | Some _ => all_priorities st
                 | None => all_priorities st ++ [prio_hash]
                 end in
      let weight := saturating_sub COUNT_WEIGHT (if order <=? I64_MAX then order else I64_MAX) in
      let sc := saturating_add (default 0 (scores st !! prio_hash)) weight in
      score_priorities (order + 1) l
        {| all_priorities := all; scores := <[prio_hash := sc]> (scores st);
           prios := <[prio_hash := prio]> (prios st) |}
  end.

Fixpoint score_proposals (l : list TopicProposal) (st : Scores) : res PriorityError Scores :=
  match l with
  | [] => Ok st
  | p :: l => st ← score_priorities 0 (priorities p) st; score_proposals l st
  end.

(** The loop that keeps what scores above the minimum. *)
Fixpoint keep_scored (min_score : Z) (st : Scores) (l : list HashRoot) : res PriorityError (list ScoredResult) :=
  match l with
  | [] => Ok []
  | h :: l =>
      sc ← expect (scores st !! h);
      if sc <=? min_score then keep_scored min_score st l
      else
        p ← expect (prios st !! h);
        rest ← keep_scored min_score st l;
        Ok ({| priority := Some p; score := sc |} :: rest)
  end.

Definition score_topic (min_score : Z) (proposals : list TopicProposal) : res PriorityError TopicResult :=
  st ← score_proposals proposals {| all_priorities := []; scores := ∅; prios := ∅ |};
  let sorted := stable_sort (fun a b => default 0 (scores st !! b) <=? default 0 (scores st !! a)) (all_priorities st) in
  first ← expect (head proposals);
  kept ← keep_scored min_score st sorted;
  Ok {| result_topic := topic first; result_priorities := kept |}.

Definition order_topic_results (values : list TopicResult) : res PriorityError (list TopicResult) :=
  tuples ← collect (fun v => h ← hash_any (topic_result_any v); Ok (h, v)) values;
  Ok (snd <$> stable_sort (fun a b : HashRoot * TopicResult => bytes_le a.1 b.1) tuples).

Definition calculate_result (ho : HashOrder) (msgs : list PriorityMsg) (min_required : Z)
    : res PriorityError PriorityResult :=
  validate_msgs msgs ;;
  proposals_by_topic ← group_topics ∅ (concat (topics <$> sort_input msgs));
  let min_score := saturating_mul (saturating_sub min_required 1) COUNT_WEIGHT in
  topic_results ← collect (score_topic min_score) (map_values ho proposals_by_topic);
  ordered ← order_topic_results topic_results;
  Ok {| msgs := msgs; result_topics := ordered |}.
End priority.

(** ** Sorting *)

Section sort_facts.
Context {A : Type} (le : A -> A -> bool).

Lemma sort_insert_perm x l : sort_insert le x l ≡ₚ x :: l.
Proof.
  induction l as [|y l IH]; cbn; [done|]. destruct (le x y); [done|]. rewrite IH. apply Permutation_swap.
Qed.

Lemma stable_sort_perm l : stable_sort le l ≡ₚ l.
Proof. induction l as [|x l IH]; cbn; [done|]. by rewrite sort_insert_perm, IH. Qed.

Context (total : forall x y, le x y = true \/ le y x = true).
Context (trans : forall x y z, le x y = true -> le y z = true -> le x z = true).

Lemma sort_insert_sorted x l : StronglySorted le l -> StronglySorted le (sort_insert le x l).
Proof.
  induction 1 as [|y l Hl IH Hy]; cbn; [repeat constructor|]. destruct (le x y) eqn:E.
  - constructor; [by constructor|]. constructor; [by rewrite E|].
    eapply Forall_impl; [exact Hy|]. intros z Hz. apply Is_true_true. apply (trans x y z E). by apply Is_true_true.
  - constructor; [done|]. rewrite sort_insert_perm. constructor; [|done].
    apply Is_true_true. by destruct (total x y) as [H|H]; [rewrite E in H|].
Qed.

Lemma stable_sort_sorted l : StronglySorted le (stable_sort le l).
Proof. induction l as [|x l IH]; cbn; [constructor|]. by apply sort_insert_sorted. Qed.

(** Two lists of the same elements are sorted alike when no two elements are
    equivalent. *)
Lemma stable_sort_unique l l' :
  l ≡ₚ l' -> (forall x y, x ∈ l -> y ∈ l -> le x y = true -> le y x = true -> x = y) ->
  stable_sort le l = stable_sort le l'.
Proof.
  intros Hp Hanti. apply (StronglySorted_unique_strong le).
  - intros x y Hx Hy H1 H2. rewrite stable_sort_perm in Hx, Hy. apply Hanti; try by apply Is_true_true.
    + done.
    + by rewrite Hp.
  - apply stable_sort_sorted.
  - apply stable_sort_sorted.
  - by rewrite !stable_sort_perm.
Qed.
End sort_facts.

Lemma bytes_le_total a b : bytes_le a b = true \/ bytes_le b a = true.
Proof.
  revert b. induction a as [|x a IH]; intros [|y b]; cbn; [by left..|by right|].
  destruct (x <? y) eqn:E1, (y <? x) eqn:E2; auto.
Qed.

Lemma bytes_le_antisym a b : bytes_le a b = true -> bytes_le b a = true -> a = b.
Proof.
  revert b. induction a as [|x a IH]; intros [|y b] H1 H2; cbn in *; try done.
  destruct (x <? y) eqn:E1, (y <? x) eqn:E2; zbool; try done; try lia. f_equal; [lia|auto].
Qed.

Lemma bytes_le_trans a b c : bytes_le a b = true -> bytes_le b c = true -> bytes_le a c = true.
Proof.
  revert b c. induction a as [|x a IH]; intros [|y b] [|z c] H1 H2; cbn in *; try done.
  destruct (x <? y) eqn:E1, (y <? x) eqn:E2, (y <? z) eqn:E3, (z <? y) eqn:E4, (x <? z) eqn:E5, (z <? x) eqn:E6;
    zbool; try done; try lia. eauto.
Qed.

Lemma collect_map {E A B} (f : A -> res E B) (g : A -> B) l :
  (forall x, x ∈ l -> f x = Ok (g x)) -> collect f l = Ok (g <$> l).
Proof.
  intros H. induction l as [|x l IH]; [done|]. cbn [collect fmap list_fmap]. rewrite H by set_solver. cbn.
  rewrite IH; [done|]. set_solver.
Qed.

(** ** Validation *)

Section facts.
Context {Duty : Type} `{!EqDecision Duty}.
Context (sha256 : list Z -> list Z) (sha_len : forall b, length (sha256 b) = 32%nat).
Context (encode_to_vec : Any -> list Z) (any_small : forall a, len (encode_to_vec a) <= 2 ^ 37).

(** The hash of a value. *)
Definition root (a : Any) : HashRoot :=
  merkle_tree sha256 (Z.to_nat (Z.log2_up (len (pack (encode_to_vec a))))) (pack (encode_to_vec a)).

Lemma hash_any_root a : hash_any sha256 encode_to_vec a = Ok (root a).
Proof. unfold hash_any. by rewrite hash_proto_root. Qed.

Definition topic_root (t : TopicProposal) : HashRoot := root (topic_any t).

Definition valid_topic (t : TopicProposal) : Prop :=
  len (priorities t) < MAX_PRIORITIES /\ NoDup (root <$> priorities t).
Definition valid_msg (m : PriorityMsg (Duty := Duty)) : Prop :=
  NoDup (topic_root <$> topics m) /\ Forall valid_topic (topics m).
(** What the messages of a round have to be. *)
Definition valid_msgs (l : list (PriorityMsg (Duty := Duty))) : Prop :=
  l <> [] /\ (forall m m', m ∈ l -> m' ∈ l -> duty m = duty m') /\ NoDup (peer_id <$> l) /\ Forall valid_msg l.

(** A check that either passes or reports an error. *)
Definition decides (r : res PriorityError unit) (P : Prop) : Prop := (r = Ok tt /\ P) \/ (exists e, r = Err e /\ ~ P).

Lemma decides_iff r P Q : decides r P -> (P <-> Q) -> decides r Q.
Proof. unfold decides. naive_solver. Qed.

Lemma decides_and r r' P Q : decides r P -> decides r' Q -> decides (r ;; r') (P /\ Q).
Proof. intros [[-> HP]|(e & -> & HP)] [[-> HQ]|(e' & -> & HQ)]; cbn; unfold decides; naive_solver. Qed.

Lemma decides_if (b : bool) e r Q :
  (b = true -> ~ Q) -> (b = false -> decides r Q) -> decides (if b then Err e else r) Q.
Proof. intros H1 H2. destruct b; [right; eauto|auto]. Qed.

Lemma validate_priorities_spec seen l :
  decides (validate_priorities sha256 encode_to_vec seen l) (NoDup (root <$> l) /\ Forall (fun a => root a ∉ seen) l).
Proof.
  revert seen. induction l as [|a l IH]; intros seen; cbn [validate_priorities].
  { left. split; [done|]. split; constructor. }
  rewrite hash_any_root. cbn [mbind res_bind]. apply decides_if.
  - intros H%bool_decide_eq_true [_ Hf]. apply Forall_cons in Hf as [Hf _]. done.
  - intros H%bool_decide_eq_false. eapply decides_iff; [apply IH|].
    cbn [fmap list_fmap]. rewrite NoDup_cons, Forall_cons, !Forall_forall. setoid_rewrite list_elem_of_fmap. set_solver.
Qed.

Lemma validate_topics_spec seen l :
  decides (validate_topics sha256 encode_to_vec seen l)
    ((NoDup (topic_root <$> l) /\ Forall (fun t => topic_root t ∉ seen) l) /\ Forall valid_topic l).
Proof.
  revert seen. induction l as [|t l IH]; intros seen; cbn [validate_topics].
  { left. split; [done|]. repeat split; constructor. }
  rewrite hash_any_root. cbn [mbind res_bind]. fold (topic_root t). apply decides_if; [|intros H; apply decides_if].
  - intros H%bool_decide_eq_true [[_ Hf] _]. apply Forall_cons in Hf as [Hf _]. done.
  - intros H' [_ Hf]. zbool. apply Forall_cons in Hf as [[Hl _] _]. lia.
  - intros H'. zbool. eapply decides_iff; [apply decides_and; [apply validate_priorities_spec|apply IH]|].
    cbn [fmap list_fmap]. rewrite NoDup_cons, !Forall_cons, !Forall_forall. setoid_rewrite list_elem_of_fmap.
    unfold valid_topic at 2. set_solver.
Qed.

Lemma validate_peers_spec d seen l :
  decides (validate_peers sha256 encode_to_vec d seen l)
    (Forall (fun m => duty m = d) l /\ (NoDup (peer_id <$> l) /\ Forall (fun m => peer_id m ∉ seen) l) /\ Forall valid_msg l).
Proof.
  revert seen. induction l as [|m l IH]; intros seen; cbn [validate_peers].
  { left. split; [done|]. repeat split; constructor. }
  apply decides_if; [|intros H; apply decides_if].
  - intros H [Hf _]. apply Forall_cons in Hf as [Hf _]. zbool. done.
  - intros H'%bool_decide_eq_true (_ & [_ Hf] & _). apply Forall_cons in Hf as [Hf _]. done.
  - intros H'. zbool. eapply decides_iff; [apply decides_and; [apply validate_topics_spec|apply IH]|].
    cbn [fmap list_fmap]. rewrite NoDup_cons, !Forall_cons, !Forall_forall. setoid_rewrite list_elem_of_fmap.
    unfold valid_msg at 2. rewrite Forall_forall. set_solver.
Qed.

Lemma validate_msgs_spec l : decides (validate_msgs sha256 encode_to_vec l) (valid_msgs l).
Proof.
  destruct l as [|m l]; [right; eexists; split; [done|]; by intros []|].
  eapply decides_iff; [apply validate_peers_spec|]. unfold valid_msgs. rewrite !Forall_forall. split.
  - intros (Hd & [Hn _] & Hv). split_and!; [done| |done|done]. intros m1 m2 H1 H2. by rewrite (Hd m1), (Hd m2).
  - intros (_ & Hd & Hn & Hv). split_and!; [|done| |done]; [|set_solver]. intros m' Hm'. apply Hd; set_solver.
Qed.

Lemma valid_msgs_perm l l' : l ≡ₚ l' -> valid_msgs l -> valid_msgs l'.
Proof.
  intros Hp (Hne & Hd & Hn & Hv). split_and!.
  - intros ->. by apply Permutation_nil_r in Hp.
  - intros m m'. rewrite <-Hp. apply Hd.
  - by rewrite <-Hp.
  - by rewrite <-Hp.
Qed.

(** ** Grouping *)

Definition group (l : list TopicProposal) : gmap HashRoot (list TopicProposal) :=
  foldl (fun acc t => push_at (topic_root t) t acc) ∅ l.

Lemma group_topics_ok l acc :
  group_topics sha256 encode_to_vec acc l = Ok (foldl (fun acc t => push_at (topic_root t) t acc) acc l).
Proof.
  revert acc. induction l as [|t l IH]; intros acc; cbn [group_topics foldl]; [done|]. rewrite hash_any_root. cbn. apply IH.
Qed.

(** The proposals for a topic, in the order of the peers. *)
Lemma topic_group_lookup l h :
  group l !! h = (if decide (filter (fun t => topic_root t = h) l = []) then None
                  else Some (filter (fun t => topic_root t = h) l)).
Proof.
  unfold group. induction l as [|t l IH] using rev_ind; [done|]. rewrite foldl_app. cbn [foldl].
  set (acc := foldl _ ∅ l) in *. rewrite filter_app, filter_cons, filter_nil. unfold push_at. destruct (decide (topic_root t = h)) as [<-|Hne].
  - rewrite lookup_insert_eq, decide_False by (by destruct (filter _ l)). rewrite IH.
    destruct (decide _) as [E|]; [by rewrite E|done].
  - by rewrite lookup_insert_ne, app_nil_r by done.
Qed.

(** ** Scoring *)

(** The priorities of a proposal with their positions. *)
Fixpoint entries (order : Z) (l : list Any) : list (Z * Any) :=
  match l with
  | [] => []
  | a :: l => (order, a) :: entries (order + 1) l
  end.
Definition all_entries (ps : list TopicProposal) : list (Z * Any) := concat ((fun p => entries 0 (priorities p)) <$> ps).

(** The sum of the weights a priority got. *)
Definition total (h : HashRoot) (L : list (Z * Any)) : Z :=
  fold_right (fun e n => (if decide (root e.2 = h) then COUNT_WEIGHT - e.1 else 0) + n) 0 L.

Lemma total_app h L L' : total h (L ++ L') = total h L + total h L'.
Proof. unfold total. induction L as [|e L IH]; cbn; [done|]. rewrite IH. lia. Qed.

Lemma entries_range l order e : e ∈ entries order l -> order <= e.1 < order + len l.
Proof.
  revert order. induction l as [|a l IH]; intros order; cbn [entries]; [by intros ?%elem_of_nil|].
  assert (len (a :: l) = len l + 1) as -> by (unfold len; cbn; lia). pose proof (len_nonneg l).
  intros [->|He]%elem_of_cons; [cbn; lia|]. apply IH in He. lia.
Qed.

Definition score_step (st : Scores) (e : Z * Any) : Scores :=
  let h := root e.2 in
  {| all_priorities := match scores st !! h with Some _ => all_priorities st | None => all_priorities st ++ [h] end;
     scores := <[h := saturating_add (default 0 (scores st !! h))
                        (saturating_sub COUNT_WEIGHT (if e.1 <=? I64_MAX then e.1 else I64_MAX))]> (scores st);
     prios := <[h := e.2]> (prios st) |}.

Lemma score_priorities_ok l order st :
  score_priorities sha256 encode_to_vec order l st = Ok (foldl score_step st (entries order l)).
Proof.
  revert order st. induction l as [|a l IH]; intros order st; cbn [score_priorities entries foldl]; [done|].
  rewrite hash_any_root. cbn. apply IH.
Qed.

Lemma score_proposals_ok ps st :
  score_proposals sha256 encode_to_vec ps st = Ok (foldl score_step st (all_entries ps)).
Proof.
  revert st. induction ps as [|p ps IH]; intros st; cbn [score_proposals all_entries fmap list_fmap concat]; [done|].
  rewrite score_priorities_ok. cbn. rewrite IH, foldl_app. done.
Qed.

Definition no_scores : Scores := {| all_priorities := []; scores := ∅; prios := ∅ |}.
(** Positions below the bound of [validate_msgs], and few enough entries. *)
Definition in_bounds (L : list (Z * Any)) : Prop :=
  Forall (fun e => 0 <= e.1 < MAX_PRIORITIES) L /\ len L * COUNT_WEIGHT <= I64_MAX.

Lemma total_bounds h L : in_bounds L ->
  let n := len (filter (fun e => root e.2 = h) L) in n <= total h L <= n * COUNT_WEIGHT.
Proof.
  intros [HL _]. induction HL as [|e L He HL IH]; [done|]. cbn zeta in *. rewrite filter_cons.
  unfold total, COUNT_WEIGHT, MAX_PRIORITIES in *. cbn [fold_right]. fold (total h L).
  destruct (decide (root e.2 = h)); [|lia].
  assert (len (e :: filter (fun e => root e.2 = h) L) = len (filter (fun e => root e.2 = h) L) + 1) as ->
    by (unfold len; cbn; lia). lia.
Qed.

Lemma total_none k L : k ∉ (fun e : Z * Any => root e.2) <$> L -> total k L = 0.
Proof.
  intros Hnot. unfold total. induction L as [|e L IH]; [done|]. cbn [fold_right].
  rewrite decide_False by set_solver. cbn. apply IH. set_solver.
Qed.

Lemma total_small k L : in_bounds L -> 0 <= total k L <= len L * COUNT_WEIGHT.
Proof.
  intros HbL. pose proof (total_bounds k L HbL) as Hb. cbn zeta in Hb. unfold COUNT_WEIGHT, MAX_PRIORITIES in *.
  assert (0 <= len (filter (fun e => root e.2 = k) L) <= len L) as Hf.
  { split; [apply len_nonneg|]. unfold len. apply inj_le, length_filter. }
  lia.
Qed.

(** One step adds the weight, and does not saturate. *)
Lemma score_step_exact st e L :
  0 <= e.1 < MAX_PRIORITIES -> in_bounds (L ++ [e]) -> default 0 (scores st !! root e.2) = total (root e.2) L ->
  scores (score_step st e) = <[root e.2 := total (root e.2) (L ++ [e])]> (scores st).
Proof.
  intros He Hb Hsc. unfold score_step. cbn [scores]. rewrite Hsc. f_equal.
  pose proof (total_small (root e.2) (L ++ [e]) Hb) as Hs. destruct Hb as [_ Hb].
  assert (total (root e.2) [e] = COUNT_WEIGHT - e.1) as He1.
  { unfold total. cbn [fold_right]. rewrite decide_True by done. lia. }
  rewrite total_app, He1 in *. rewrite (proj2 (Z.leb_le e.1 I64_MAX)) by (unfold I64_MAX, MAX_PRIORITIES in *; lia).
  unfold saturating_add, saturating_sub, sat, COUNT_WEIGHT, MAX_PRIORITIES, I64_MIN, I64_MAX in *. lia.
Qed.

Lemma scored L : in_bounds L ->
  let st := foldl score_step no_scores L in
  NoDup (all_priorities st) /\
  forall h, (h ∈ all_priorities st <-> h ∈ (fun e => root e.2) <$> L) /\
    scores st !! h = (if decide (h ∈ (fun e : Z * Any => root e.2) <$> L) then Some (total h L) else None) /\
    (h ∈ all_priorities st -> exists a, prios st !! h = Some a /\ root a = h).
Proof.
  induction L as [|e L IH] using rev_ind; intros [HL Hlen].
  { cbn. split; [constructor|]. intros h. split_and!; [set_solver| |by intros ?%elem_of_nil].
    by rewrite decide_False by set_solver. }
  assert (in_bounds (L ++ [e])) as HbLe by done.
  apply Forall_app in HL as [HL He]. apply Forall_cons in He as [He _]. rewrite len_app in Hlen.
  assert (in_bounds L) as HbL by (split; [done|unfold COUNT_WEIGHT, MAX_PRIORITIES in *; change (len [e]) with 1 in Hlen; lia]).
  destruct (IH HbL) as [Hnd Hst]. rewrite foldl_app. cbn zeta. cbn [foldl]. set (st := foldl score_step no_scores L) in *.
  set (k := root e.2). destruct (Hst k) as (Hk1 & Hk2 & Hk3).
  rewrite (score_step_exact st e L); [|done|done|].
  2: { fold k. rewrite Hk2. destruct (decide _); [done|]. by rewrite total_none. }
  cbn [score_step all_priorities prios]. fold k. split.
  - rewrite Hk2. destruct (decide _) as [|Hnot]; [done|]. apply NoDup_app. split_and!; [done| |apply NoDup_singleton].
    intros x Hx ->%list_elem_of_singleton. by apply Hnot, Hk1.
  - intros h. destruct (Hst h) as (H1 & H2 & H3).
    assert (h ∈ (fun e : Z * Any => root e.2) <$> L ++ [e] <-> h ∈ (fun e : Z * Any => root e.2) <$> L \/ h = k) as Hmem.
    { rewrite fmap_app, elem_of_app. cbn [fmap list_fmap]. by rewrite list_elem_of_singleton. }
    split_and!.
    + rewrite Hmem, Hk2. destruct (decide (k ∈ (fun e : Z * Any => root e.2) <$> L)) as [Hin|].
      * rewrite H1. naive_solver.
      * by rewrite elem_of_app, list_elem_of_singleton, H1.
    + destruct (decide (h = k)) as [->|Hne].
      * rewrite lookup_insert_eq, decide_True; [done|]. apply Hmem. by right.
      * rewrite lookup_insert_ne, H2 by done. rewrite total_app. unfold total at 3. cbn [fold_right].
        rewrite (decide_False (P := root e.2 = h)) by done.
        destruct (decide (h ∈ (fun e : Z * Any => root e.2) <$> L)) as [Hin|Hin].
        -- rewrite decide_True by (apply Hmem; by left). f_equal. lia.
        -- by rewrite decide_False by (rewrite Hmem; naive_solver).
    + rewrite Hk2. intros Hh. destruct (decide (h = k)) as [->|Hne]; [exists e.2; by rewrite lookup_insert_eq|].
      rewrite lookup_insert_ne by done. apply H3.
      destruct (decide (k ∈ _)); [done|]. apply elem_of_app in Hh as [?|?%list_elem_of_singleton]; done.
Qed.

(** ** One topic *)

Definition scored_as (st : Scores) (L : list (Z * Any)) (h : HashRoot) : ScoredResult :=
  {| priority := Some (default EMPTY_ANY (prios st !! h)); score := total h L |}.

Lemma keep_scored_ok min_score L l :
  in_bounds L -> (forall h, h ∈ l -> h ∈ (fun e : Z * Any => root e.2) <$> L) ->
  let st := foldl score_step no_scores L in
  keep_scored min_score st l = Ok (scored_as st L <$> filter (fun h => min_score < total h L) l).
Proof.
  intros HbL Hl st. destruct (scored L HbL) as [_ Hst]. fold st in Hst.
  induction l as [|h l IH]; [done|]. cbn [keep_scored].
  destruct (Hst h) as (H1 & H2 & H3). rewrite decide_True in H2 by (apply Hl; set_solver).
  destruct H3 as (a & Ha & Hra); [apply H1, Hl; set_solver|].
  rewrite H2. cbn [expect mbind res_bind]. rewrite IH by set_solver. rewrite filter_cons.
  destruct (total h L <=? min_score) eqn:E; zbool.
  - by rewrite decide_False by lia.
  - rewrite decide_True by done. rewrite Ha. cbn. unfold scored_as at 2. by rewrite Ha.
Qed.

Lemma score_topic_spec min_score ps p0 :
  head ps = Some p0 -> in_bounds (all_entries ps) ->
  exists r, score_topic sha256 encode_to_vec min_score ps = Ok r /\ result_topic r = topic p0 /\
    StronglySorted (fun a b => score b <= score a) (result_priorities r) /\
    NoDup ((fun s => root (default EMPTY_ANY (priority s))) <$> result_priorities r) /\
    (forall s, s ∈ result_priorities r -> exists a, priority s = Some a /\
       root a ∈ (fun e : Z * Any => root e.2) <$> all_entries ps /\ score s = total (root a) (all_entries ps) /\ min_score < score s) /\
    (forall h, h ∈ (fun e : Z * Any => root e.2) <$> all_entries ps -> min_score < total h (all_entries ps) ->
       exists s a, s ∈ result_priorities r /\ priority s = Some a /\ root a = h).
Proof.
  intros Hhd Hb. set (L := all_entries ps) in *. unfold score_topic. rewrite score_proposals_ok. fold L no_scores.
  set (st := foldl score_step no_scores L). cbn [mbind res_bind]. rewrite Hhd. cbn [expect mbind res_bind].
  destruct (scored L Hb) as [Hnd Hst]. fold st in Hnd, Hst.
  set (le := fun a b => default 0 (scores st !! b) <=? default 0 (scores st !! a)).
  pose proof (stable_sort_perm le (all_priorities st)) as Hperm.
  assert (StronglySorted le (stable_sort le (all_priorities st))) as Hsort.
  { apply stable_sort_sorted; unfold le.
    - intros x y. rewrite !Z.leb_le. lia.
    - intros x y z. rewrite !Z.leb_le. lia. }
  set (l := stable_sort le (all_priorities st)) in *.
  assert (forall h, h ∈ l <-> h ∈ (fun e : Z * Any => root e.2) <$> L) as Hin by (intros h; rewrite Hperm; apply Hst).
  pose proof (keep_scored_ok min_score L l Hb ltac:(intros h; apply Hin)) as Hkeep. cbn zeta in Hkeep. fold st in Hkeep.
  rewrite Hkeep. cbn [mbind res_bind].
  eexists. split; [done|]. cbn [result_topic result_priorities]. split; [done|].
  assert (forall h, h ∈ l -> root (default EMPTY_ANY (prios st !! h)) = h) as Hroot.
  { intros h Hh. destruct (proj2 (proj2 (Hst h))) as (a & -> & Ha); [by rewrite <-Hperm|done]. }
  split_and!.
  - assert (forall h, h ∈ l -> default 0 (scores st !! h) = total h L) as Hval.
    { intros h Hh. rewrite (proj1 (proj2 (Hst h))), decide_True by by apply Hin. done. }
    clear -Hsort Hval. induction Hsort as [|h l Hl IH Hh]; [constructor|]. rewrite filter_cons.
    destruct (decide _); [|apply IH; set_solver]. cbn. constructor; [apply IH; set_solver|].
    apply Forall_fmap, Forall_forall. intros y [_ Hy]%list_elem_of_filter. cbn. rewrite Forall_forall in Hh.
    specialize (Hh y Hy). apply Is_true_true, Z.leb_le in Hh. rewrite !Hval in Hh by set_solver. done.
  - rewrite <-list_fmap_compose. assert (NoDup (filter (fun h => min_score < total h L) l)) as Hn.
    { apply NoDup_filter. by rewrite Hperm. }
    erewrite list_fmap_ext; [rewrite list_fmap_id; exact Hn|].
    intros i h Hh. apply list_elem_of_lookup_2, list_elem_of_filter in Hh as [_ Hh]. unfold compose, scored_as. cbn. by apply Hroot.
  - intros s (h & -> & [Hmin Hh]%list_elem_of_filter)%list_elem_of_fmap. exists (default EMPTY_ANY (prios st !! h)).
    unfold scored_as. cbn [priority score]. rewrite Hroot by done. split_and!; [done|by apply Hin|done|done].
  - intros h Hh Hmin. exists (scored_as st L h), (default EMPTY_ANY (prios st !! h)). split_and!; [|done|apply Hroot; by apply Hin].
    apply list_elem_of_fmap. exists h. split; [done|]. apply list_elem_of_filter. split; [done|]. by apply Hin.
Qed.

(** ** Peers *)

Abbreviation Msg := (PriorityMsg (Duty := Duty)).

(** The proposal of a peer for a topic, and whether it lists a priority. *)
Definition proposal_of (h : HashRoot) (m : Msg) : option TopicProposal := head (filter (fun t => topic_root t = h) (topics m)).
Definition supports (h p : HashRoot) (m : Msg) : bool :=
  match proposal_of h m with
  | Some t => bool_decide (p ∈ root <$> priorities t)
  | None => false
  end.
(** The number of peers that list a priority for a topic. *)
Definition support (h p : HashRoot) (l : list Msg) : Z := len (filter (fun m => supports h p m) l).
(** All positions given to priorities of a topic. *)
Definition topic_entries (h : HashRoot) (l : list Msg) : list (Z * Any) := all_entries (omap (proposal_of h) l).

Lemma proposals_filter h l :
  Forall valid_msg l -> filter (fun t => topic_root t = h) (concat (topics <$> l)) = omap (proposal_of h) l.
Proof.
  induction 1 as [|m l [Hm _] Hl IH]; [done|]. cbn [fmap list_fmap concat omap list_omap]. rewrite filter_app, IH.
  assert (forall ts, NoDup (topic_root <$> ts) -> h ∉ topic_root <$> ts -> filter (fun t => topic_root t = h) ts = []) as Hnone.
  { clear. intros ts _ Hts. induction ts as [|t ts IHt]; [done|]. rewrite filter_cons, decide_False by set_solver. apply IHt. set_solver. }
  assert (filter (fun t => topic_root t = h) (topics m) = match proposal_of h m with Some t => [t] | None => [] end) as ->;
    [|by destruct (proposal_of h m)].
  unfold proposal_of. induction (topics m) as [|t ts IHt]; [done|]. cbn [fmap list_fmap] in Hm.
  apply NoDup_cons in Hm as [Hnot Hm]. rewrite filter_cons. destruct (decide (topic_root t = h)) as [<-|]; [|by apply IHt].
  by rewrite Hnone.
Qed.

Lemma entries_count p l order :
  NoDup (root <$> l) -> len (filter (fun e => root e.2 = p) (entries order l)) = if bool_decide (p ∈ root <$> l) then 1 else 0.
Proof.
  revert order. induction l as [|a l IH]; intros order Hnd; [done|]. cbn [fmap list_fmap] in Hnd.
  apply NoDup_cons in Hnd as [Hnot Hnd]. cbn [entries]. rewrite filter_cons. specialize (IH (order + 1) Hnd). cbn [snd].
  destruct (decide (root a = p)) as [<-|Hne].
  - rewrite bool_decide_eq_false_2 in IH by done. rewrite bool_decide_eq_true_2 by set_solver.
    unfold len in *. cbn [length]. lia.
  - rewrite IH. by rewrite (bool_decide_ext (p ∈ root <$> a :: l) (p ∈ root <$> l)) by set_solver.
Qed.

Lemma len_filter_app {A} (P : A -> Prop) `{!forall x, Decision (P x)} l l' :
  len (filter P (l ++ l')) = len (filter P l) + len (filter P l').
Proof. by rewrite filter_app, len_app. Qed.

Lemma topic_entries_cons h m l :
  topic_entries h (m :: l) = match proposal_of h m with Some t => entries 0 (priorities t) | None => [] end ++ topic_entries h l.
Proof. unfold topic_entries, all_entries. cbn [omap list_omap]. by destruct (proposal_of h m). Qed.

Lemma proposal_in h m t : proposal_of h m = Some t -> t ∈ topics m /\ topic_root t = h.
Proof.
  intros Ht. assert (t ∈ filter (fun t => topic_root t = h) (topics m)) as Hin.
  { unfold proposal_of in Ht. destruct (filter _ _); [done|]. injection Ht as ->. set_solver. }
  apply list_elem_of_filter in Hin. naive_solver.
Qed.

Lemma proposal_valid h m t : valid_msg m -> proposal_of h m = Some t -> valid_topic t.
Proof. intros [_ Hv] [Ht _]%proposal_in. rewrite Forall_forall in Hv. by apply Hv. Qed.

Lemma entries_support h p l :
  Forall valid_msg l -> len (filter (fun e => root e.2 = p) (topic_entries h l)) = support h p l.
Proof.
  unfold support. induction 1 as [|m l Hm Hl IH]; [done|]. rewrite topic_entries_cons, len_filter_app, IH, filter_cons.
  destruct (proposal_of h m) as [t|] eqn:Et.
  - destruct (proposal_valid h m t Hm Et) as [_ Hnd]. rewrite entries_count by done.
    assert (supports h p m = bool_decide (p ∈ root <$> priorities t)) as -> by (unfold supports; by rewrite Et).
    destruct (bool_decide (p ∈ root <$> priorities t)); cbn; [|done].
    rewrite decide_True by done. unfold len. cbn [length]. lia.
  - assert (supports h p m = false) as -> by (unfold supports; by rewrite Et). done.
Qed.

Lemma topic_entries_bounds h l :
  Forall valid_msg l -> Forall (fun e => 0 <= e.1 < MAX_PRIORITIES) (topic_entries h l) /\ len (topic_entries h l) <= len l * MAX_PRIORITIES.
Proof.
  induction 1 as [|m l Hm Hl [IH1 IH2]]; [done|]. rewrite topic_entries_cons, len_app.
  assert (len (m :: l) = len l + 1) as -> by (unfold len; cbn; lia). unfold MAX_PRIORITIES in *.
  destruct (proposal_of h m) as [t|] eqn:Et; [|split; [done|change (len []) with 0; lia]].
  destruct (proposal_valid h m t Hm Et) as [Hlen _]. unfold MAX_PRIORITIES in Hlen. split.
  - apply Forall_app. split; [|done]. apply Forall_forall. intros e He%entries_range. lia.
  - assert (forall o k, len (entries o k) = len k) as Hek.
    { intros o k. revert o. induction k as [|a k IHk]; intros o; [done|]. cbn [entries]. unfold len in *. cbn [length].
      specialize (IHk (o + 1)). lia. }
    rewrite Hek. lia.
Qed.

Lemma total_perm p L L' : L ≡ₚ L' -> total p L = total p L'.
Proof. unfold total. induction 1; cbn [fold_right]; lia. Qed.

Lemma topic_entries_perm h l l' : l ≡ₚ l' -> topic_entries h l ≡ₚ topic_entries h l'.
Proof.
  intros Hp. induction Hp as [|m l l' Hp IH|m m' l|l l' l'' H1 IH1 H2 IH2]; [done| | |by etransitivity].
  - by rewrite !topic_entries_cons, IH.
  - rewrite !topic_entries_cons. apply Permutation_app_swap_app.
Qed.

Lemma support_perm h p l l' : l ≡ₚ l' -> support h p l = support h p l'.
Proof. intros Hp. unfold support, len. by rewrite Hp. Qed.

(** ** The result *)

Lemma sort_input_perm (l : list Msg) : sort_input l ≡ₚ l.
Proof. apply stable_sort_perm. Qed.

Lemma sort_input_unique (l l' : list Msg) : NoDup (peer_id <$> l) -> l ≡ₚ l' -> sort_input l = sort_input l'.
Proof.
  intros Hnd Hp. apply stable_sort_unique; [| |done|].
  - intros x y. rewrite !bool_decide_eq_true. apply String.le_total.
  - intros x y z. rewrite !bool_decide_eq_true. apply String.le_po.
  - intros x y Hx Hy. rewrite !bool_decide_eq_true. intros H1 H2. assert (peer_id x = peer_id y) as E by by apply (anti_symm String.le).
    apply list_elem_of_lookup in Hx as [i Hi], Hy as [j Hj].
    assert (i = j) as <-; [|congruence].
    eapply NoDup_lookup; [exact Hnd|rewrite list_lookup_fmap, Hi; done|rewrite list_lookup_fmap, Hj; cbn; by rewrite E].
Qed.

Definition min_score_of (min_required : Z) : Z := saturating_mul (saturating_sub min_required 1) COUNT_WEIGHT.
Definition topic_result_of (min_required : Z) (ps : list TopicProposal) : TopicResult :=
  match score_topic sha256 encode_to_vec (min_score_of min_required) ps with
  | Ok r => r
  | _ => {| result_topic := None; result_priorities := [] |}
  end.
Definition result_root (r : TopicResult) : HashRoot := root (topic_result_any r).

Section round.
Context (l : list Msg) (Hvalid : valid_msgs l) (Hsize : len l <= 2 ^ 40).
Let by_topic := group (concat (topics <$> sort_input l)).

Lemma sorted_valid : Forall valid_msg (sort_input l).
Proof. destruct Hvalid as (_ & _ & _ & Hv). by rewrite sort_input_perm. Qed.

Lemma by_topic_lookup h ps :
  by_topic !! h = Some ps <-> ps = omap (proposal_of h) (sort_input l) /\ ps <> [].
Proof.
  unfold by_topic. rewrite topic_group_lookup, proposals_filter by apply sorted_valid.
  destruct (decide _) as [E|E]; [rewrite E|]; naive_solver.
Qed.

Lemma entries_in_bounds h : in_bounds (topic_entries h (sort_input l)).
Proof.
  destruct (topic_entries_bounds h (sort_input l) sorted_valid) as [H1 H2]. split; [done|].
  assert (len (sort_input l) = len l) as Hlen by (unfold len; by rewrite sort_input_perm).
  rewrite Hlen in H2. unfold COUNT_WEIGHT, MAX_PRIORITIES, I64_MAX in *. lia.
Qed.

(** The result for a topic that some peer proposed. *)
Lemma topic_scored min_required h ps :
  by_topic !! h = Some ps ->
  let r := topic_result_of min_required ps in
  let L := topic_entries h (sort_input l) in
  score_topic sha256 encode_to_vec (min_score_of min_required) ps = Ok r /\ result_root r = h /\
  StronglySorted (fun a b => score b <= score a) (result_priorities r) /\
  NoDup ((fun s => root (default EMPTY_ANY (priority s))) <$> result_priorities r) /\
  (forall s, s ∈ result_priorities r -> exists a, priority s = Some a /\
     score s = total (root a) L /\ min_score_of min_required < score s) /\
  (forall p, p ∈ (fun e : Z * Any => root e.2) <$> L -> min_score_of min_required < total p L ->
     exists s a, s ∈ result_priorities r /\ priority s = Some a /\ root a = p).
Proof.
  intros [Hps Hne]%by_topic_lookup. destruct (head ps) as [p0|] eqn:Hhd; [|by destruct ps].
  destruct (score_topic_spec (min_score_of min_required) ps p0 Hhd) as (r & Er & Ht & Hs & Hn & H1 & H2).
  { subst ps. apply entries_in_bounds. }
  intros r' L. unfold r', topic_result_of. rewrite Er.
  assert (all_entries ps = L) as HL by by subst ps. rewrite HL in *. split_and!; [done| |done|done| |done].
  - unfold result_root, topic_result_any. rewrite Ht.
    assert (p0 ∈ omap (proposal_of h) (sort_input l)) as Hin.
    { rewrite <-Hps. destruct ps; [done|]. injection Hhd as ->. set_solver. }
    apply list_elem_of_omap in Hin as (m & _ & Hm). by apply proposal_in in Hm as [_ <-].
  - intros s Hss. destruct (H1 s Hss) as (a & Ha & _ & Hsc & Hmin). eauto.
Qed.

Definition ordered (ho : HashOrder) (min_required : Z) : list TopicResult :=
  snd <$> stable_sort (fun a b : HashRoot * TopicResult => bytes_le a.1 b.1)
    ((fun r => (result_root r, r)) <$> (topic_result_of min_required <$> map_values ho by_topic)).

Lemma calculated ho min_required :
  calculate_result sha256 encode_to_vec ho l min_required = Ok {| msgs := l; result_topics := ordered ho min_required |}.
Proof.
  unfold calculate_result. destruct (validate_msgs_spec l) as [[-> _]|(e & _ & Hnot)]; [|done]. cbn [mbind res_bind].
  rewrite group_topics_ok. cbn [mbind res_bind]. fold (group (concat (topics <$> sort_input l))) by_topic.
  fold (min_score_of min_required).
  rewrite (collect_map _ (topic_result_of min_required)).
  - cbn [mbind res_bind]. unfold order_topic_results.
    rewrite (collect_map _ (fun r => (result_root r, r))); [done|]. intros r _. by rewrite hash_any_root.
  - intros ps [h Hh]%elem_of_map_values. by destruct (topic_scored min_required h ps Hh) as [-> _].
Qed.

(** The results of the topics, in the order of their hashes. *)
Lemma ordered_spec ho min_required :
  StronglySorted (fun a b => bytes_le (result_root a) (result_root b)) (ordered ho min_required) /\
  forall r, r ∈ ordered ho min_required <-> exists h ps, by_topic !! h = Some ps /\ r = topic_result_of min_required ps.
Proof.
  unfold ordered. set (R := _ <$> (_ <$> map_values ho by_topic)).
  set (le := fun a b : HashRoot * TopicResult => bytes_le a.1 b.1).
  assert (StronglySorted le (stable_sort le R)) as Hs.
  { apply stable_sort_sorted; unfold le; [intros x y; apply bytes_le_total|intros x y z; apply bytes_le_trans]. }
  assert (forall x, x ∈ stable_sort le R -> x.1 = result_root x.2) as Hkey.
  { intros x Hx. rewrite stable_sort_perm in Hx. by apply list_elem_of_fmap in Hx as (r & -> & _). }
  split.
  - clearbody R. induction Hs as [|x k Hk IH Hx]; [constructor|]. cbn [fmap list_fmap]. constructor; [apply IH; set_solver|].
    apply Forall_fmap, Forall_forall. intros y Hy. rewrite Forall_forall in Hx. specialize (Hx y Hy).
    unfold le in Hx. by rewrite !Hkey in Hx by set_solver.
  - intros r. rewrite (stable_sort_perm le R). unfold R. rewrite <-list_fmap_compose. unfold compose. cbn.
    rewrite list_fmap_id, list_elem_of_fmap. setoid_rewrite elem_of_map_values. naive_solver.
Qed.

Lemma ordered_roots ho min_required : result_root <$> ordered ho min_required ≡ₚ (map_to_list by_topic).*1.
Proof.
  unfold ordered. rewrite stable_sort_perm, <-(list_fmap_compose (fun r => (result_root r, r)) snd).
  change (snd ∘ (fun r => (result_root r, r))) with (@id TopicResult). rewrite list_fmap_id, <-list_fmap_compose.
  unfold map_values. rewrite <-list_fmap_compose, <-(ho_perm ho by_topic).
  erewrite list_fmap_ext; [reflexivity|]. intros i [h ps] Hi. cbn.
  apply (topic_scored min_required h ps). apply list_elem_of_lookup_2 in Hi. rewrite ho_perm in Hi.
  by apply elem_of_map_to_list in Hi.
Qed.

Lemma ordered_unique ho ho' min_required : ordered ho min_required = ordered ho' min_required.
Proof.
  unfold ordered. f_equal. apply stable_sort_unique.
  - intros x y. apply bytes_le_total.
  - intros x y z. apply bytes_le_trans.
  - apply fmap_Permutation, fmap_Permutation. unfold map_values. by rewrite !ho_perm.
  - intros x y (r & -> & (ps & -> & (h & Hh)%elem_of_map_values)%list_elem_of_fmap)%list_elem_of_fmap
      (r' & -> & (ps' & -> & (h' & Hh')%elem_of_map_values)%list_elem_of_fmap)%list_elem_of_fmap H1 H2.
    cbn in H1, H2. pose proof (bytes_le_antisym _ _ H1 H2) as E.
    rewrite (proj1 (proj2 (topic_scored min_required h ps Hh))), (proj1 (proj2 (topic_scored min_required h' ps' Hh'))) in E.
    subst h'. rewrite Hh in Hh'. by injection Hh' as <-.
Qed.
End round.

Lemma ordered_perm l l' ho ho' min_required :
  valid_msgs l -> len l <= 2 ^ 40 -> l ≡ₚ l' -> ordered l ho min_required = ordered l' ho' min_required.
Proof.
  intros Hv Hs Hp. rewrite (ordered_unique l Hv Hs ho ho'). unfold ordered.
  by rewrite (sort_input_unique l l') by (done || apply Hv).
Qed.

(** The result does not depend on the order of the messages, nor on the
    order of hash maps: for the same messages in another order, validation
    agrees and the calculated topics are the same. *)
Theorem priorities_deterministic ho ho' (l l' : list Msg) min_required :
  len l <= 2 ^ 40 -> l ≡ₚ l' ->
  (validate_msgs sha256 encode_to_vec l = Ok tt <-> validate_msgs sha256 encode_to_vec l' = Ok tt) /\
  (validate_msgs sha256 encode_to_vec l = Ok tt ->
   exists ts, calculate_result sha256 encode_to_vec ho l min_required = Ok {| msgs := l; result_topics := ts |} /\
     calculate_result sha256 encode_to_vec ho' l' min_required = Ok {| msgs := l'; result_topics := ts |}).
Proof.
  intros Hs Hp. destruct (validate_msgs_spec l) as [[E Hv]|(e & E & Hv)].
  - pose proof (valid_msgs_perm l l' Hp Hv) as Hv'. assert (len l' <= 2 ^ 40) as Hs' by (unfold len in *; by rewrite <-Hp).
    destruct (validate_msgs_spec l') as [[E' _]|(e & _ & Hn)]; [|done]. split; [done|]. intros _.
    exists (ordered l ho min_required). rewrite !calculated by done. by rewrite (ordered_perm l l' ho ho').
  - destruct (validate_msgs_spec l') as [[_ Hv']|(e' & E' & _)]; [|rewrite E, E'; done].
    destruct Hv. by apply (valid_msgs_perm l').
Qed.

Lemma min_score_exact m : 0 <= m <= 2 ^ 40 -> min_score_of m = (m - 1) * COUNT_WEIGHT.
Proof.
  intros Hm. unfold min_score_of, saturating_mul, saturating_sub, sat, COUNT_WEIGHT, MAX_PRIORITIES, I64_MIN, I64_MAX. lia.
Qed.

(** A priority is in bounds for sure when its supporters list it early. *)
Definition listed_before (k : Z) (h p : HashRoot) (l : list Msg) : Prop :=
  Forall (fun e : Z * Any => root e.2 = p -> e.1 < k) (topic_entries h l).

Lemma total_early k p L :
  Forall (fun e : Z * Any => root e.2 = p -> e.1 < k) L ->
  len (filter (fun e => root e.2 = p) L) * (COUNT_WEIGHT + 1 - k) <= total p L.
Proof.
  induction 1 as [|e L He HL IH]; [done|]. rewrite filter_cons. unfold total, COUNT_WEIGHT, MAX_PRIORITIES in *.
  cbn [fold_right]. fold (total p L). destruct (decide (root e.2 = p)) as [E|]; [|lia]. specialize (He E).
  assert (len (e :: filter (fun e => root e.2 = p) L) = len (filter (fun e => root e.2 = p) L) + 1) as ->
    by (unfold len; cbn; lia). lia.
Qed.

(** What the cluster's priorities are.  Every proposed topic has exactly
    one result, in the order of the topics' hashes.  Within a topic no priority
    is listed twice and scores decrease; a listed priority has as score the sum
    of the weights its supporters gave it, and at least [min_required]
    supporters.  Conversely, a priority with that many supporters is listed if
    they all rank it before position [k] with [min_required * (k - 1)] below
    1000. *)
Theorem priorities_supported ho (l : list Msg) min_required :
  validate_msgs sha256 encode_to_vec l = Ok tt -> len l <= 2 ^ 40 -> 0 <= min_required <= 2 ^ 40 ->
  exists ts, calculate_result sha256 encode_to_vec ho l min_required = Ok {| msgs := l; result_topics := ts |} /\
    NoDup (result_root <$> ts) /\ StronglySorted (fun a b => bytes_le (result_root a) (result_root b)) ts /\
    (forall h, h ∈ result_root <$> ts <-> exists m t, m ∈ l /\ t ∈ topics m /\ topic_root t = h) /\
    forall r, r ∈ ts -> let h := result_root r in
      StronglySorted (fun a b => score b <= score a) (result_priorities r) /\
      NoDup ((fun s => root (default EMPTY_ANY (priority s))) <$> result_priorities r) /\
      (forall s, s ∈ result_priorities r -> exists a, priority s = Some a /\
         score s = total (root a) (topic_entries h l) /\ min_required <= support h (root a) l) /\
      (forall p k, 1 <= support h p l -> min_required <= support h p l -> listed_before k h p l ->
         min_required * (k - 1) < COUNT_WEIGHT -> 1 <= k <= COUNT_WEIGHT ->
         exists s a, s ∈ result_priorities r /\ priority s = Some a /\ root a = p).
Proof.
  intros Hval Hs Hm. destruct (validate_msgs_spec l) as [[_ Hv]|(e & E & _)]; [|congruence].
  exists (ordered l ho min_required). rewrite calculated by done. split; [done|].
  destruct (ordered_spec l Hv Hs ho min_required) as [Hsort Hin].
  split_and!; [|exact Hsort| |].
  - rewrite ordered_roots by done. apply NoDup_fst_map_to_list.
  - intros h. rewrite ordered_roots by done. split.
    + intros ([h' ps] & -> & Hps%elem_of_map_to_list)%list_elem_of_fmap. apply by_topic_lookup in Hps as [-> Hne]; [|done].
      destruct (omap (proposal_of _) (sort_input l)) as [|t ts] eqn:E; [done|].
      assert (t ∈ omap (proposal_of h') (sort_input l)) as Ht by (rewrite E; set_solver).
      apply list_elem_of_omap in Ht as (m & Hmem & [Ht1 Ht2]%proposal_in). rewrite sort_input_perm in Hmem. eauto.
    + intros (m & t & Hmem & Ht & <-). apply list_elem_of_fmap.
      eexists (topic_root t, _). split; [done|]. apply elem_of_map_to_list. rewrite topic_group_lookup, decide_False; [done|].
      intros E. assert (t ∈ filter (fun t' => topic_root t' = topic_root t) (concat (topics <$> sort_input l))) as Hf.
      { apply list_elem_of_filter. split; [done|]. apply list_elem_of_In, in_concat. exists (topics m).
        rewrite <-!list_elem_of_In, sort_input_perm. split; [by apply list_elem_of_fmap_2|done]. }
      rewrite E in Hf. by apply elem_of_nil in Hf.
  - intros r (h & ps & Hps & ->)%Hin. cbn zeta.
    destruct (topic_scored l Hv Hs min_required h ps Hps) as (_ & Hroot & Hdec & Hnd & Hlisted & Hkept).
    rewrite Hroot. pose proof (sort_input_perm l) as Hperm. pose proof (topic_entries_perm h _ _ Hperm) as Hep.
    pose proof (sorted_valid l Hv) as Hsv. pose proof (entries_in_bounds l Hv Hs h) as Hbounds.
    rewrite min_score_exact in Hlisted, Hkept by done.
    split_and!; [done|done| |].
    + intros s Hss. destruct (Hlisted s Hss) as (a & Ha & Hsc & Hmin). exists a. split_and!; [done| |].
      * by rewrite Hsc, (total_perm _ _ _ Hep).
      * pose proof (total_bounds (root a) _ Hbounds) as Hb. cbn zeta in Hb.
        rewrite entries_support, (support_perm h (root a) _ _ Hperm) in Hb by done.
        unfold COUNT_WEIGHT, MAX_PRIORITIES in *. lia.
    + intros p k H1 Hsup Hearly Hk Hk1. apply Hkept.
      * assert (0 < len (filter (fun e => root e.2 = p) (topic_entries h (sort_input l)))) as Hpos.
        { rewrite entries_support, (support_perm h p _ _ Hperm) by done. lia. }
        destruct (filter _ _) as [|e es] eqn:E; [done|].
        assert (e ∈ filter (fun e => root e.2 = p) (topic_entries h (sort_input l))) as He by (rewrite E; set_solver).
        apply list_elem_of_filter in He as [<- He]. apply list_elem_of_fmap. eauto.
      * rewrite (total_perm _ _ _ Hep). pose proof (total_early k p _ Hearly) as Ht.
        rewrite entries_support in Ht by apply Hv. unfold COUNT_WEIGHT, MAX_PRIORITIES in *. nia.
Qed.
End facts.

(** ** Concrete rounds *)
Module PrioritySample.
Definition any (n : Z) : Any := {| type_url := ""; any_value := [n] |}.
Definition encode_any (a : Any) : list Z := take 32 (any_value a).

Lemma encode_any_small a : len (encode_any a) <= 2 ^ 37.
Proof. unfold encode_any, len. rewrite length_take. lia. Qed.

(** Peer [name] proposes the priorities [ps] for the only topic. *)
Definition peer (name : string) (ps : list Z) : PriorityMsg (Duty := unit) :=
  {| duty := None; topics := [{| topic := Some (any 7); priorities := any <$> ps |}]; peer_id := name; signature := [] |}.
Definition three_peers : list (PriorityMsg (Duty := unit)) := [peer "b" [1; 2; 3]; peer "a" [2; 1]; peer "c" [4]].

Lemma priorities_deterministic_witness :
  exists ts,
    calculate_result length_hash encode_any default_order three_peers 2 = Ok {| msgs := three_peers; result_topics := ts |} /\
    calculate_result length_hash encode_any reverse_order (reverse three_peers) 2 =
      Ok {| msgs := reverse three_peers; result_topics := ts |}.
Proof.
  apply (priorities_deterministic length_hash length_hash_len encode_any encode_any_small default_order reverse_order
    three_peers (reverse three_peers) 2); [by vm_compute|symmetry; apply reverse_Permutation|by vm_compute].
Defined.

Lemma priorities_supported_witness :
  exists ts r,
    calculate_result length_hash encode_any default_order three_peers 2 = Ok {| msgs := three_peers; result_topics := ts |} /\
    r ∈ ts /\ StronglySorted (fun a b => score b <= score a) (result_priorities r).
Proof.
  destruct (priorities_supported length_hash length_hash_len encode_any encode_any_small default_order three_peers 2)
    as (ts & E & _ & _ & _ & Hr); [by vm_compute|by vm_compute|lia|].
  destruct ts as [|r ts]; [vm_compute in E; done|].
  exists (r :: ts), r. split_and!; [exact E|apply list_elem_of_here|]. apply (Hr r). apply list_elem_of_here.
Defined.

(** Ten peers that all list the priority 200 at position 100. *)
Definition long_list : list Z := seqZ 0 100 ++ [200].
Definition ten_peers : list (PriorityMsg (Duty := unit)) :=
  (fun name => peer name long_list) <$> ["a"; "b"; "c"; "d"; "e"; "f"; "g"; "h"; "i"; "j"]%string.

(** Support by enough peers is not always enough.  All ten of ten peers
    list a priority, ten are required, and it is dropped because all of them
    list it at position 100: the bound on positions of the previous property
    cannot be left out. *)
Theorem popular_priority_dropped :
  exists r, calculate_result length_hash encode_any default_order ten_peers 10 = Ok r /\
    Forall (fun m => Exists (fun t => any 200 ∈ priorities t) (topics m)) ten_peers /\
    Forall (fun tr => Forall (fun s => priority s <> Some (any 200)) (result_priorities tr)) (result_topics r).
Proof.
  eexists. split; [by vm_compute|]. split; by apply (bool_decide_unpack _); vm_compute.
Qed.
End PrioritySample.
