(* ===== verification/Deadline.v ===== *)
(** * Duty deadlines

    [crates/core/src/deadline]: the beacon-node deadline calculator with its
    checked millisecond arithmetic, and the background task that tracks duties
    and emits them when they expire. *)

From S2P Require Import Prelude Types.
From Stdlib Require Import Sorted.

Open Scope Z_scope.

(** ** Deadlines

    Instants and durations are nanosecond counts.  What is used of [chrono] is
    a parameter: [Duration::try_milliseconds] and
    [DateTime::checked_add_signed]. *)

Inductive DeadlineError :=
| ArithmeticOverflow
| DurationConversion
| DateTimeCalculation.

Record Chrono := {
  try_milliseconds : Z -> option Z;
  checked_add_signed : Z -> Z -> option Z;
}.

(** A duration holds every [i64] of milliseconds but the least one; a sum is
    exact, and defined when it is a date between the first and the last one. *)
Record chrono_laws (c : Chrono) (first_date last_date : Z) : Prop := {
  try_milliseconds_spec : forall ms,
    try_milliseconds c ms = if (- I64_MAX <=? ms) && (ms <=? I64_MAX) then Some (ms * 1000000) else None;
  checked_add_spec : forall b d,
    checked_add_signed c b d = if (first_date <=? b + d) && (b + d <=? last_date) then Some (b + d) else None;
}.

Section calculator.
Context (c : Chrono).

(** [Msecs]: whole milliseconds in an [i64]. *)
Definition msecs_from (d : Z) : Z := Z.quot d 1000000.

Definition msecs_mul_slot (ms slot : Z) : res DeadlineError Z :=
  mul ← ok_or (guard_i64 slot) ArithmeticOverflow;
  ok_or (checked_mul_i64 ms mul) ArithmeticOverflow.

Definition msecs_mul (ms by_ : Z) : res DeadlineError Z :=
  ok_or (checked_mul_i64 ms by_) ArithmeticOverflow.

Definition msecs_div (ms by_ : Z) : res DeadlineError Z :=
  ok_or (checked_div_i64 ms by_) ArithmeticOverflow.

Definition msecs_add (ms other : Z) : res DeadlineError Z :=
  ok_or (checked_add_i64 ms other) ArithmeticOverflow.

Definition msecs_add_to (ms base : Z) : res DeadlineError Z :=
  offset ← ok_or (try_milliseconds c ms) DurationConversion;
  ok_or (checked_add_signed c base offset) DateTimeCalculation.

Definition MARGIN_FACTOR : Z := 12.
Definition PROPOSAL_SLOT_FRACTION : Z := 3.
Definition SYNC_MESSAGE_PHASES : Z := 2.
Definition ATTESTATION_DEADLINE_SLOTS : Z := 2.

Record DutyDeadlineCalculator := { genesis_time : Z; slot_duration : Z }.

Definition slot_start (k : DutyDeadlineCalculator) (slot : Z) : res DeadlineError Z :=
  offset ← msecs_mul_slot (msecs_from (slot_duration k)) slot;
  msecs_add_to offset (genesis_time k).

Definition margin (k : DutyDeadlineCalculator) : res DeadlineError Z :=
  msecs_div (msecs_from (slot_duration k)) MARGIN_FACTOR.

Definition duty_duration (k : DutyDeadlineCalculator) (t : DutyType) : res DeadlineError Z :=
  let secs := msecs_from (slot_duration k) in
  match t with
  | Proposer | Randao => msecs_div secs PROPOSAL_SLOT_FRACTION
  | SyncMessage =>
    x ← msecs_mul secs SYNC_MESSAGE_PHASES; msecs_div x PROPOSAL_SLOT_FRACTION
  | Attester | Aggregator | PrepareAggregator => msecs_mul secs ATTESTATION_DEADLINE_SLOTS
  | _ => Ok secs
  end.

(** [DeadlineCalculator::deadline]. *)
Definition duty_deadline (k : DutyDeadlineCalculator) (d : Duty) : res DeadlineError (option Z) :=
  if never_expires (duty_type d) then Ok None
  else
    start ← slot_start k (slot d);
    dur ← duty_duration k (duty_type d);
    mg ← margin k;
    offset ← msecs_add dur mg;
    deadline ← msecs_add_to offset start;
    Ok (Some deadline).
End calculator.

(** [NeverExpiringCalculator]. *)
Definition never_deadline (_ : Duty) : res DeadlineError (option Z) := Ok None.

(** ** The deadliner task *)

Inductive AddOutcome := Scheduled | AlreadyExpired | NoDeadline | FailedToCompute.

(** [DeadlinerHandle::add]; [reply] is what came back from the task, [None] when
    a channel was closed. *)
Definition add (cancelled : bool) (reply : option AddOutcome) : AddOutcome :=
  if cancelled then FailedToCompute else default FailedToCompute reply.

Section task.
Context (calc : Duty -> res DeadlineError (option Z)) (MAX_UTC : Z).

Definition sentinel : Duty := {| slot := 0; duty_type := Unknown |}.

(** [DeadlinerTask]; the set of duties is a map to [unit]. *)
Record Task := {
  duties : gmap Duty unit;
  curr_duty : Duty;
  curr_deadline : Z;
}.

Definition task_start : Task :=
  {| duties := ∅; curr_duty := sentinel; curr_deadline := MAX_UTC |}.

Definition remaining_duration (now : Z) (t : Task) : Z :=
  if curr_deadline t <? now then 0 else curr_deadline t - now.

Fixpoint recompute_loop (l : list Duty) (cd : Duty) (cdl : Z) : Duty * Z :=
  match l with
  | [] => (cd, cdl)
  | d :: l =>
    match calc d with
    | Ok (Some deadline) =>
      if deadline <? cdl then recompute_loop l d deadline else recompute_loop l cd cdl
    | _ => recompute_loop l cd cdl
    end
  end.

Definition recompute_curr (ho : HashOrder) (t : Task) : Task :=
  let '(cd, cdl) := recompute_loop (ho_list ho (duties t)).*1 sentinel MAX_UTC in
  t <| curr_duty := cd |> <| curr_deadline := cdl |>.

(** [handle_input]: the reply and, when the timer is reset, its duration. *)
Definition handle_input (ho : HashOrder) (now : Z) (d : Duty) (t : Task)
    : Task * AddOutcome * option Z :=
  match calc d with
  | Ok (Some deadline) =>
    if deadline <? now then (t, AlreadyExpired, None)
    else
      let t' := t <| duties ::= insert d tt |> in
      if deadline <? curr_deadline t' then
        let t'' := recompute_curr ho t' in
        (t'', Scheduled, Some (remaining_duration now t''))
      else (t', Scheduled, None)
  | Ok None => (t, NoDeadline, None)
  | _ => (t, FailedToCompute, None)
  end.

(** [try_send] on the output channel. *)
Inductive SendResult := Sent | Full | Closed.

(** [handle_expired]: the duty the consumer receives, and the next timer
    ([None]: the task exits). *)
Definition handle_expired (ho : HashOrder) (now : Z) (send : SendResult) (t : Task)
    : Task * option Duty * option Z :=
  if bool_decide (duties t = ∅) then (t, None, Some (remaining_duration now t))
  else match send with
  | Closed => (t, None, None)
  | _ =>
    let out := match send with Sent => Some (curr_duty t) | _ => None end in
    let t' := recompute_curr ho (t <| duties ::= delete (curr_duty t) |>) in
    (t', out, Some (remaining_duration now t'))
  end.

(** A run of the task: duties that arrive and timers that fire, with the time
    of each, until the output channel is closed. *)
Inductive TaskEvent :=
| TInput (ho : HashOrder) (now : Z) (d : Duty)
| TFired (ho : HashOrder) (now : Z) (send : SendResult).

Fixpoint run_task (evs : list TaskEvent) (t : Task) : Task * list Duty :=
  match evs with
  | [] => (t, [])
  | TInput ho now d :: evs => run_task evs (handle_input ho now d t).1.1
  | TFired ho now send :: evs =>
    match handle_expired ho now send t with
    | (t', out, Some _) =>
      let '(t'', outs) := run_task evs t' in (t'', option_list out ++ outs)
    | (t', _, None) => (t', [])
    end
  end.

Definition event_time (ev : TaskEvent) : Z :=
  match ev with TInput _ now _ | TFired _ now _ => now end.

(** The clock does not go back and the timer does not fire early. *)
Fixpoint timely (now : Z) (evs : list TaskEvent) (t : Task) : Prop :=
  match evs with
  | [] => True
  | ev :: evs =>
    now <= event_time ev /\
    match ev with
    | TInput ho now' d => timely now' evs (handle_input ho now' d t).1.1
    | TFired ho now' send =>
      (duties t = ∅ \/ curr_deadline t <= now') /\
      timely now' evs (handle_expired ho now' send t).1.1
    end
  end.
End task.

(** ** Theorems: deadlines *)

Section calculator_facts.
Context (c : Chrono) (first_date last_date : Z) (Hc : chrono_laws c first_date last_date).

Lemma ok_or_inv {E A} (o : option A) (e : E) x : ok_or o e = Ok x -> o = Some x.
Proof. by destruct o; intros [= ->]. Qed.

Lemma msecs_add_to_exact ms base t : msecs_add_to c ms base = Ok t -> t = base + ms * 1000000.
Proof.
  unfold msecs_add_to. intros (d & Hd%ok_or_inv & Ht%ok_or_inv)%res_bind_Ok.
  rewrite (try_milliseconds_spec _ _ _ Hc) in Hd. rewrite (checked_add_spec _ _ _ Hc) in Ht.
  by repeat case_match; simplify_eq.
Qed.

Lemma msecs_add_to_ok ms base :
  - I64_MAX <= ms <= I64_MAX -> first_date <= base + ms * 1000000 <= last_date ->
  msecs_add_to c ms base = Ok (base + ms * 1000000).
Proof.
  intros Hms Hdate. unfold msecs_add_to. rewrite (try_milliseconds_spec _ _ _ Hc).
  replace (_ && _) with true by (symmetry; apply andb_true_iff; split; apply Z.leb_le; lia). cbn.
  rewrite (checked_add_spec _ _ _ Hc).
  by replace (_ && _) with true by (symmetry; apply andb_true_iff; split; apply Z.leb_le; lia).
Qed.

(** The offset of a duty type in its slot, in milliseconds. *)
Definition duty_offset (secs : Z) (t : DutyType) : Z :=
  match t with
  | Proposer | Randao => Z.quot secs 3
  | SyncMessage => Z.quot (secs * 2) 3
  | Attester | Aggregator | PrepareAggregator => secs * 2
  | _ => secs
  end.

Lemma duty_duration_exact k t ms :
  duty_duration k t = Ok ms -> ms = duty_offset (msecs_from (slot_duration k)) t.
Proof.
  unfold duty_duration, msecs_div, msecs_mul, checked_div_i64, checked_mul_i64.
  destruct t; cbn; intros; inv_res;
    repeat match goal with Hx : guard_i64 _ = Some _ |- _ => apply guard_i64_Some in Hx as [-> _] end;
    done.
Qed.

(** The deadline a calculator returns. *)
Definition deadline_at (k : DutyDeadlineCalculator) (d : Duty) : Z :=
  let secs := msecs_from (slot_duration k) in
  genesis_time k + (slot d * secs + (duty_offset secs (duty_type d) + Z.quot secs 12)) * 1000000.

Lemma deadline_exact k d t : duty_deadline c k d = Ok (Some t) -> t = deadline_at k d.
Proof.
  unfold duty_deadline. destruct (never_expires (duty_type d)); [done|].
  intros (start & Hs & H1)%res_bind_Ok. apply res_bind_Ok in H1 as (dur & Hdur & H2).
  apply res_bind_Ok in H2 as (mg & Hmg & H3). apply res_bind_Ok in H3 as (off & Hoff & H4).
  apply res_bind_Ok in H4 as (dl & Hdl & [= ->]).
  unfold slot_start in Hs. apply res_bind_Ok in Hs as (so & Hso & Hs).
  unfold msecs_mul_slot in Hso. apply res_bind_Ok in Hso as (sl & Hsl%ok_or_inv & Hso%ok_or_inv).
  apply guard_i64_Some in Hsl as [-> _], Hso as [-> _].
  apply ok_or_inv, guard_i64_Some in Hoff as [-> _].
  apply duty_duration_exact in Hdur as ->.
  unfold margin, msecs_div, checked_div_i64 in Hmg. cbn in Hmg.
  apply ok_or_inv, guard_i64_Some in Hmg as [-> _].
  apply msecs_add_to_exact in Hs as ->. apply msecs_add_to_exact in Hdl as ->.
  unfold deadline_at. cbn zeta. unfold MARGIN_FACTOR. ring.
Qed.

(** What a deadline is.  It is the start of the slot, plus the share of a
    slot the duty type has, plus a twelfth of a slot of margin.  The calculator
    returns it whenever it is a date and the products fit an [i64], and never
    returns anything else: an overflow is an error, not a wrapped result. *)
Theorem deadline_formula k d :
  never_expires (duty_type d) = false ->
  (forall t, duty_deadline c k d = Ok (Some t) -> t = deadline_at k d) /\
  (let secs := msecs_from (slot_duration k) in
   0 <= slot d <= I64_MAX -> 0 <= secs -> secs * slot d <= I64_MAX -> secs * 3 <= I64_MAX ->
   first_date <= genesis_time k -> deadline_at k d <= last_date ->
   duty_deadline c k d = Ok (Some (deadline_at k d))).
Proof.
  intros Hne. split; [apply deadline_exact|]. cbn zeta. set (secs := msecs_from (slot_duration k)).
  intros Hsl Hs Hm H3 Hg Hl. unfold deadline_at in *. fold secs in Hl |- *.
  assert (0 <= Z.quot secs 12 <= secs) as Hq12
    by (split; [apply Z.quot_pos; lia|apply Z.quot_le_upper_bound; lia]).
  assert (0 <= duty_offset secs (duty_type d) <= secs * 2) as Hoff.
  { assert (0 <= Z.quot secs 3 <= secs) by (split; [apply Z.quot_pos; lia|apply Z.quot_le_upper_bound; lia]).
    assert (0 <= Z.quot (secs * 2) 3 <= secs * 2)
      by (split; [apply Z.quot_pos; lia|apply Z.quot_le_upper_bound; lia]).
    destruct (duty_type d); cbn; lia. }
  rewrite (Z.mul_comm (slot d) secs) in *. assert (0 <= secs * slot d) as HP by nia.
  unfold duty_deadline. rewrite Hne. unfold slot_start, msecs_mul_slot, checked_mul_i64. fold secs.
  rewrite (guard_i64_in (slot d)) by (unfold I64_MIN, I64_MAX in *; lia). cbn.
  rewrite (guard_i64_in (secs * slot d)) by (unfold I64_MIN, I64_MAX in *; lia). cbn.
  rewrite msecs_add_to_ok by (unfold I64_MAX in *; lia). cbn.
  assert (duty_duration k (duty_type d) = Ok (duty_offset secs (duty_type d))) as ->.
  { unfold duty_duration, msecs_div, msecs_mul, checked_div_i64, checked_mul_i64,
      PROPOSAL_SLOT_FRACTION, SYNC_MESSAGE_PHASES, ATTESTATION_DEADLINE_SLOTS. fold secs.
    destruct (duty_type d); cbn in Hoff |- *; try done;
      repeat (rewrite guard_i64_in by (unfold I64_MIN, I64_MAX in *; lia); cbn); done. }
  cbn. unfold margin, msecs_div, checked_div_i64. fold secs. cbn.
  rewrite guard_i64_in by (unfold MARGIN_FACTOR, I64_MIN, I64_MAX in *; lia). cbn.
  unfold msecs_add, checked_add_i64, MARGIN_FACTOR. rewrite guard_i64_in by (unfold I64_MIN, I64_MAX in *; lia). cbn.
  rewrite msecs_add_to_ok by (unfold I64_MAX in *; lia). cbn. do 2 f_equal. ring.
Qed.

(** Within a duty type, later slots have later deadlines. *)
Lemma deadline_increasing k d d' t t' :
  0 < msecs_from (slot_duration k) -> duty_type d = duty_type d' ->
  duty_deadline c k d = Ok (Some t) -> duty_deadline c k d' = Ok (Some t') ->
  t <= t' -> slot d <= slot d'.
Proof.
  intros Hpos Hty Ht%deadline_exact Ht'%deadline_exact Hle. unfold deadline_at in *. cbn zeta in *.
  rewrite Hty in Ht. nia.
Qed.
End calculator_facts.

(** ** Theorems: the task *)

Section task_facts.
Context (calc : Duty -> res DeadlineError (option Z)) (MAX_UTC : Z).
Hypothesis deadlines_finite : forall d x, calc d = Ok (Some x) -> x < MAX_UTC.

(** The task tracks duties with a deadline; the current duty is one with the
    earliest deadline. *)
Record task_inv (t : Task) : Prop := {
  ti_deadline : forall d, is_Some (duties t !! d) -> exists x, calc d = Ok (Some x);
  ti_min : forall d x, is_Some (duties t !! d) -> calc d = Ok (Some x) -> curr_deadline t <= x;
  ti_curr : (duties t = ∅ /\ curr_deadline t = MAX_UTC) \/
    (is_Some (duties t !! curr_duty t) /\ calc (curr_duty t) = Ok (Some (curr_deadline t)));
}.

Lemma task_start_inv : task_inv (task_start MAX_UTC).
Proof.
  constructor; cbn; [by intros d [? ?%lookup_empty_Some]|by intros d x [? ?%lookup_empty_Some]|].
  by left.
Qed.

Lemma recompute_loop_spec l cd cdl :
  let '(cd', cdl') := recompute_loop calc l cd cdl in
  cdl' <= cdl /\ (forall d x, d ∈ l -> calc d = Ok (Some x) -> cdl' <= x) /\
  ((cd' = cd /\ cdl' = cdl) \/ (cd' ∈ l /\ calc cd' = Ok (Some cdl'))).
Proof.
  revert cd cdl. induction l as [|d l IH]; intros cd cdl; cbn.
  { split_and!; [lia|by intros ? ? ?%elem_of_nil|by left]. }
  assert (forall cd0 cdl0, cdl0 <= cdl -> 
    ((cd0 = cd /\ cdl0 = cdl) \/ (cd0 = d /\ calc d = Ok (Some cdl0))) ->
    (forall x, calc d = Ok (Some x) -> cdl0 <= x) ->
    let '(cd', cdl') := recompute_loop calc l cd0 cdl0 in
    cdl' <= cdl /\ (forall e x, e ∈ d :: l -> calc e = Ok (Some x) -> cdl' <= x) /\
    ((cd' = cd /\ cdl' = cdl) \/ (cd' ∈ d :: l /\ calc cd' = Ok (Some cdl')))) as Hstep.
  { intros cd0 cdl0 Hle Hcd Hd. specialize (IH cd0 cdl0).
    destruct (recompute_loop calc l cd0 cdl0) as [cd' cdl'].
    destruct IH as (Hle' & Hmin & Hor). split_and!; [lia| |].
    - intros e x [->|He]%elem_of_cons Hx; [specialize (Hd _ Hx); lia|eauto].
    - destruct Hor as [[-> ->]|[? ?]]; [|right; split; [by constructor|done]].
      destruct Hcd as [[-> ->]|[-> ?]]; [by left|right; split; [by constructor|done]]. }
  destruct (calc d) as [[x|]|e|] eqn:Ed.
  - destruct (Z.ltb_spec x cdl) as [Hlt|Hge].
    + apply Hstep; [lia|by right|]. intros y [= <-]. lia.
    + apply Hstep; [lia|by left|]. intros y [= <-]. lia.
  - apply Hstep; [lia|by left|done].
  - apply Hstep; [lia|by left|done].
  - apply Hstep; [lia|by left|done].
Qed.

Lemma elem_of_ho_keys ho (m : gmap Duty unit) d : d ∈ (ho_list ho m).*1 <-> is_Some (m !! d).
Proof.
  rewrite (ho_perm ho m), list_elem_of_fmap. split.
  - intros ([d' []] & -> & Hd%elem_of_map_to_list). cbn. by rewrite Hd.
  - intros [[] Hd]. exists (d, tt). split; [done|by apply elem_of_map_to_list].
Qed.

(** [recompute_curr] restores the invariant from the tracked duties alone,
    whatever order it visits them in. *)
Lemma recompute_inv ho t :
  (forall d, is_Some (duties t !! d) -> exists x, calc d = Ok (Some x)) ->
  task_inv (recompute_curr calc MAX_UTC ho t).
Proof.
  intros Hd. unfold recompute_curr.
  pose proof (recompute_loop_spec (ho_list ho (duties t)).*1 sentinel MAX_UTC) as Hspec.
  destruct (recompute_loop _ _ _ _) as [cd cdl]. destruct Hspec as (Hle & Hmin & Hor).
  constructor; cbn; [done| |].
  - intros d x Hin Hx. apply (Hmin d x); [by apply elem_of_ho_keys|done].
  - destruct Hor as [[-> ->]|[Hin Hx]]; [left|right].
    + split; [|done]. apply map_empty. intros d. apply eq_None_not_Some. intros Hin.
      destruct (Hd d Hin) as [x Hx].
      pose proof (Hmin d x ltac:(by apply elem_of_ho_keys) Hx). apply deadlines_finite in Hx. lia.
    + split; [by apply elem_of_ho_keys in Hin|done].
Qed.

Lemma handle_input_inv ho now d t :
  task_inv t -> task_inv (handle_input calc MAX_UTC ho now d t).1.1.
Proof.
  intros I. unfold handle_input. destruct (calc d) as [[x|]|e|] eqn:Ed; cbn; try done.
  destruct (x <? now); [done|].
  assert (forall e, is_Some (<[d := ()]> (duties t) !! e) -> exists y, calc e = Ok (Some y)) as Hd.
  { intros e. rewrite lookup_insert_is_Some. intros [<-|[_ He]]; [eauto|by apply (ti_deadline _ I)]. }
  cbn. destruct (Z.ltb_spec x (curr_deadline t)) as [Hlt|Hge].
  - by apply recompute_inv.
  - constructor; cbn; [done| |].
    + intros e y. rewrite lookup_insert_is_Some. intros [<-|[_ He]] Hy; [rewrite Ed in Hy; simplify_eq; lia|].
      by apply (ti_min _ I e).
    + destruct (ti_curr _ I) as [[_ Hmax]|[Hin Hx]].
      * apply deadlines_finite in Ed. lia.
      * right. split; [|done]. apply lookup_insert_is_Some. destruct (decide (d = curr_duty t)); auto.
Qed.

Lemma handle_expired_inv ho now send t :
  task_inv t -> task_inv (handle_expired calc MAX_UTC ho now send t).1.1.
Proof.
  intros I. unfold handle_expired. case_bool_decide; [done|].
  assert (forall e, is_Some (delete (curr_duty t) (duties t) !! e) -> exists y, calc e = Ok (Some y)) as Hd.
  { intros e. rewrite lookup_delete_is_Some. intros [_ He]. by apply (ti_deadline _ I). }
  destruct send; cbn; try done; by apply recompute_inv.
Qed.

Lemma run_task_inv evs t : task_inv t -> task_inv (run_task calc MAX_UTC evs t).1.
Proof.
  revert t. induction evs as [|[ho now d|ho now send] evs IH]; intros t I; cbn; [done| |].
  - by apply IH, handle_input_inv.
  - pose proof (handle_expired_inv ho now send t I) as I'.
    destruct (handle_expired _ _ _ _ _ _) as [[t' out] [timer|]]; [|done].
    specialize (IH t' I'). by destruct (run_task calc MAX_UTC evs t').
Qed.

Definition tracked (t : Task) (d : Duty) : Prop := is_Some (duties t !! d).

Lemma duties_recompute ho t : duties (recompute_curr calc MAX_UTC ho t) = duties t.
Proof. unfold recompute_curr. by destruct (recompute_loop _ _ _ _). Qed.

Lemma handle_input_tracked ho now d t e :
  tracked (handle_input calc MAX_UTC ho now d t).1.1 e ->
  tracked t e \/ (e = d /\ exists x, calc d = Ok (Some x) /\ now <= x).
Proof.
  unfold handle_input, tracked. destruct (calc d) as [[x|]|err|] eqn:Ed; cbn; auto.
  destruct (Z.ltb_spec x now); cbn; auto.
  destruct (x <? curr_deadline t); cbn; rewrite ?duties_recompute; cbn;
    rewrite lookup_insert_is_Some; intros [<-|[_ ?]]; eauto.
Qed.

Lemma handle_expired_tracked ho now send t e :
  tracked (handle_expired calc MAX_UTC ho now send t).1.1 e -> tracked t e.
Proof.
  unfold handle_expired, tracked. case_bool_decide; [done|].
  destruct send; cbn; rewrite ?duties_recompute; cbn; rewrite ?lookup_delete_is_Some; naive_solver.
Qed.

Lemma handle_expired_emits ho now send t t' out timer :
  task_inv t -> handle_expired calc MAX_UTC ho now send t = (t', Some out, timer) ->
  out = curr_duty t /\ tracked t out /\ calc out = Ok (Some (curr_deadline t)).
Proof.
  intros I. unfold handle_expired. case_bool_decide as Hne; [done|].
  destruct send; [|done|done]. intros [= _ <- _]. split; [done|].
  destruct (ti_curr _ I) as [[? _]|?]; [done|done].
Qed.

(** Nothing earlier than a bound is emitted while the tracked duties and the
    clock are beyond it. *)
Lemma emitted_after evs t now L :
  task_inv t -> timely calc MAX_UTC now evs t -> L <= now ->
  (forall d x, tracked t d -> calc d = Ok (Some x) -> L <= x) ->
  forall e x, e ∈ (run_task calc MAX_UTC evs t).2 -> calc e = Ok (Some x) -> L <= x.
Proof.
  revert t now. induction evs as [|[ho now' d|ho now' send] evs IH]; intros t now I Ht HL Hd e x; cbn in *.
  { by intros ?%elem_of_nil. }
  - destruct Ht as [Hn Ht]. apply (IH _ now'); [by apply handle_input_inv|done|lia|].
    intros e' x' [?|(-> & y & Hy & ?)]%handle_input_tracked Hx'; [by eapply Hd|].
    rewrite Hy in Hx'. simplify_eq. lia.
  - destruct Ht as (Hn & _ & Ht).
    pose proof (handle_expired_inv ho now' send t I) as I'.
    pose proof (handle_expired_tracked ho now' send t) as Htr.
    pose proof (handle_expired_emits ho now' send t) as Hem.
    destruct (handle_expired _ _ _ _ _ _) as [[t' out] [timer|]]; cbn in *; [|by intros ?%elem_of_nil].
    specialize (IH t' now' I' Ht ltac:(lia) ltac:(eauto) e x).
    destruct (run_task calc MAX_UTC evs t') as [t'' outs]. cbn in *.
    rewrite elem_of_app. intros [Hin|Hin] Hx; [|by apply IH].
    destruct out as [o|]; cbn in Hin; [|by apply elem_of_nil in Hin].
    apply list_elem_of_singleton in Hin as ->.
    destruct (Hem _ _ _ I eq_refl) as (_ & ? & _). eauto.
Qed.

Lemma run_task_deadlines evs t e :
  task_inv t -> e ∈ (run_task calc MAX_UTC evs t).2 -> exists x, calc e = Ok (Some x).
Proof.
  revert t. induction evs as [|[ho now' d|ho now' send] evs IH]; intros t I; cbn in *.
  { by intros ?%elem_of_nil. }
  - by apply IH, handle_input_inv.
  - pose proof (handle_expired_inv ho now' send t I) as I'.
    pose proof (handle_expired_emits ho now' send t) as Hem.
    destruct (handle_expired _ _ _ _ _ _) as [[t' out] [timer|]]; cbn in *; [|by intros ?%elem_of_nil].
    specialize (IH t' I'). destruct (run_task calc MAX_UTC evs t') as [t'' outs]. cbn in *.
    rewrite elem_of_app. intros [Hin|Hin]; [|by apply IH].
    destruct out as [o|]; cbn in Hin; [|by apply elem_of_nil in Hin].
    apply list_elem_of_singleton in Hin as ->. destruct (Hem _ _ _ I eq_refl) as (_ & _ & ?). eauto.
Qed.

Lemma emitted_sorted evs t now :
  task_inv t -> timely calc MAX_UTC now evs t ->
  StronglySorted (fun d d' => forall x x', calc d = Ok (Some x) -> calc d' = Ok (Some x') -> x <= x')
    (run_task calc MAX_UTC evs t).2.
Proof.
  revert t now. induction evs as [|[ho now' d|ho now' send] evs IH]; intros t now I Ht; cbn in *.
  { constructor. }
  - destruct Ht as [Hn Ht]. eapply IH; [by apply handle_input_inv|done].
  - destruct Ht as (Hn & Hdue & Ht).
    pose proof (handle_expired_inv ho now' send t I) as I'.
    pose proof (handle_expired_tracked ho now' send t) as Htr.
    pose proof (handle_expired_emits ho now' send t) as Hem.
    destruct (handle_expired _ _ _ _ _ _) as [[t' out] [timer|]]; cbn in *; [|constructor].
    pose proof (IH t' now' I' Ht) as Hsorted.
    pose proof (emitted_after evs t' now' (curr_deadline t) I' Ht) as Hafter.
    destruct (run_task calc MAX_UTC evs t') as [t'' outs]. cbn in *.
    destruct out as [o|]; cbn; [|done].
    destruct (Hem _ _ _ I eq_refl) as (-> & Hin & Hx). constructor; [done|].
    apply list.Forall_forall. intros e He x x' Hx1 Hx'. rewrite Hx in Hx1. injection Hx1 as <-.
    destruct Hdue as [Hempty|Hdue]; [unfold tracked in Hin; rewrite Hempty, lookup_empty in Hin; by destruct Hin|].
    apply (Hafter Hdue) with e; [|done|done].
    intros d y Hd Hy. apply (ti_min _ I d); [by apply Htr|done].
Qed.

Lemma drain_task ho now t :
  task_inv t ->
  let '(t', outs) := run_task calc MAX_UTC (replicate (size (duties t)) (TFired ho now Sent)) t in
  duties t' = ∅ /\ outs ≡ₚ (map_to_list (duties t)).*1.
Proof.
  remember (size (duties t)) as n eqn:Hn. revert t Hn.
  induction n as [|n IH]; intros t Hn I; cbn.
  { symmetry in Hn. apply map_size_empty_inv in Hn. by rewrite Hn, map_to_list_empty. }
  pose proof (handle_expired_inv ho now Sent t I) as I'. unfold handle_expired in *.
  destruct (ti_curr _ I) as [[He _]|[Hin Hx]]; [by rewrite He, map_size_empty in Hn|].
  rewrite bool_decide_eq_false_2 in * by (intros He; rewrite He, lookup_empty in Hin; by destruct Hin).
  cbn in *. set (t' := recompute_curr _ _ _ _) in *.
  assert (duties t' = delete (curr_duty t) (duties t)) as Hdel by (unfold t'; by rewrite duties_recompute).
  specialize (IH t'). rewrite Hdel in IH.
  destruct Hin as [[] Hin]. rewrite map_size_delete_Some in IH by eauto.
  destruct (run_task calc MAX_UTC (replicate n (TFired ho now Sent)) t') as [t'' outs].
  destruct IH as [He Hp]; [lia|done|]. split; [done|]. cbn.
  by rewrite <-(map_to_list_delete (duties t) (curr_duty t) tt), Hp.
Qed.

(** C28: no tracked duty is lost.  Whatever the task went through, when the timer
    then fires once for each tracked duty and the consumer keeps up, every
    tracked duty is emitted exactly once and nothing is tracked any more. *)
Theorem every_duty_expires ho now evs :
  let t := (run_task calc MAX_UTC evs (task_start MAX_UTC)).1 in
  let '(t', outs) := run_task calc MAX_UTC (replicate (size (duties t)) (TFired ho now Sent)) t in
  duties t' = ∅ /\ outs ≡ₚ (map_to_list (duties t)).*1.
Proof. apply drain_task, run_task_inv, task_start_inv. Qed.
End task_facts.

(** Duties of one type expire in the order of their slots.  The duties the
    task emits, run with the beacon-node calculator, are sorted by slot within
    each duty type: the assumption behind the eviction marks of the duty
    database. *)
Theorem expiry_in_slot_order c first_date last_date k MAX_UTC evs now :
  chrono_laws c first_date last_date -> 0 < msecs_from (slot_duration k) ->
  (forall d x, duty_deadline c k d = Ok (Some x) -> x < MAX_UTC) ->
  timely (duty_deadline c k) MAX_UTC now evs (task_start MAX_UTC) ->
  StronglySorted (fun d d' => duty_type d = duty_type d' -> slot d <= slot d')
    (run_task (duty_deadline c k) MAX_UTC evs (task_start MAX_UTC)).2.
Proof.
  intros Hc Hpos Hfin Ht.
  pose proof (task_start_inv (duty_deadline c k) MAX_UTC) as I.
  pose proof (emitted_sorted _ _ Hfin evs _ now I Ht) as Hs.
  assert (forall e, e ∈ (run_task (duty_deadline c k) MAX_UTC evs (task_start MAX_UTC)).2 ->
    exists x, duty_deadline c k e = Ok (Some x)) as Hd by (intros e; by apply run_task_deadlines).
  revert Hs Hd. generalize ((run_task (duty_deadline c k) MAX_UTC evs (task_start MAX_UTC)).2) as l.
  induction 1 as [|d l Hl IH Hall]; intros Hd; constructor.
  - apply IH. intros e He. apply Hd. by constructor.
  - rewrite list.Forall_forall in *. intros e He Hty.
    destruct (Hd d) as [x Hx]; [by constructor|]. destruct (Hd e) as [x' Hx']; [by constructor|].
    eapply deadline_increasing; eauto.
Qed.

(** ** The theorems at concrete inputs *)

(** A clock that ends at [10^18] and slots of twelve seconds from [10^9]. *)
Definition demo_end : Z := 10 ^ 18.
Definition demo_chrono : Chrono := {|
  try_milliseconds := fun ms => if (- I64_MAX <=? ms) && (ms <=? I64_MAX) then Some (ms * 1000000) else None;
  checked_add_signed := fun b d =>
    if (0 <=? b + d) && (b + d <=? demo_end - 1) then Some (b + d) else None |}.
Definition demo_calc : DutyDeadlineCalculator :=
  {| genesis_time := 10 ^ 9; slot_duration := 12 * 10 ^ 9 |}.
Definition demo_deadline : Duty -> res DeadlineError (option Z) := duty_deadline demo_chrono demo_calc.

Lemma demo_chrono_laws : chrono_laws demo_chrono 0 (demo_end - 1).
Proof. by constructor. Qed.

Lemma demo_finite d x : demo_deadline d = Ok (Some x) -> x < demo_end.
Proof.
  unfold demo_deadline, duty_deadline. destruct (never_expires _); [done|]. intros. inv_res. simplify_eq.
  match goal with Hx : msecs_add_to _ _ _ = Ok x |- _ =>
    unfold msecs_add_to in Hx; apply res_bind_Ok in Hx as (off & _ & Hx%ok_or_inv); cbn in Hx;
    revert Hx; case_match eqn:Hlt; [|done]; intros [= <-]; apply andb_true_iff in Hlt as [_ Hlt%Z.leb_le]; lia end.
Qed.

(** [timely] as a computation. *)
Fixpoint timely_check (calc : Duty -> res DeadlineError (option Z)) (MAX_UTC now : Z)
    (evs : list TaskEvent) (t : Task) : bool :=
  match evs with
  | [] => true
  | ev :: evs =>
    (now <=? event_time ev) &&
    match ev with
    | TInput ho now' d => timely_check calc MAX_UTC now' evs (handle_input calc MAX_UTC ho now' d t).1.1
    | TFired ho now' send =>
      (bool_decide (duties t = ∅) || (curr_deadline t <=? now')) &&
      timely_check calc MAX_UTC now' evs (handle_expired calc MAX_UTC ho now' send t).1.1
    end
  end.

Lemma timely_checked calc MAX_UTC now evs t :
  timely_check calc MAX_UTC now evs t = true -> timely calc MAX_UTC now evs t.
Proof.
  revert now t. induction evs as [|[ho now' d|ho now' send] evs IH]; intros now t; cbn; [done|..].
  - intros [Hn%Z.leb_le Ht]%andb_true_iff. auto.
  - intros [Hn%Z.leb_le [Hd Ht]%andb_true_iff]%andb_true_iff. split_and!; [done| |auto].
    apply orb_true_iff in Hd as [Hd%bool_decide_eq_true|Hd%Z.leb_le]; auto.
Qed.

Definition demo_duty (n : Z) : Duty := {| slot := n; duty_type := Attester |}.
Definition demo_events : list TaskEvent :=
  [TInput default_order 0 (demo_duty 5); TInput default_order 0 (demo_duty 3);
   TFired default_order (10 ^ 12) Sent; TInput default_order (10 ^ 12) (demo_duty 90);
   TFired default_order (10 ^ 12) Sent; TFired default_order (10 ^ 13) Sent].

Lemma deadline_formula_witness :
  deadline_at demo_calc (demo_duty 3) = 10 ^ 9 + (3 * 12000 + (24000 + 1000)) * 1000000 /\
  demo_deadline (demo_duty 3) = Ok (Some (deadline_at demo_calc (demo_duty 3))).
Proof.
  split; [reflexivity|].
  refine (proj2 (deadline_formula demo_chrono 0 (demo_end - 1) demo_chrono_laws demo_calc (demo_duty 3) _) _ _ _ _ _ _);
    vm_compute; by try split.
Defined.

Lemma expiry_in_slot_order_witness :
  (run_task demo_deadline demo_end demo_events (task_start demo_end)).2
    = [demo_duty 3; demo_duty 5; demo_duty 90] /\
  StronglySorted (fun d d' => duty_type d = duty_type d' -> slot d <= slot d')
    (run_task demo_deadline demo_end demo_events (task_start demo_end)).2.
Proof.
  split; [by vm_compute|].
  apply (expiry_in_slot_order demo_chrono 0 (demo_end - 1) demo_calc demo_end demo_events 0).
  - exact demo_chrono_laws.
  - reflexivity.
  - exact demo_finite.
  - apply timely_checked. by vm_compute.
Defined.

Definition demo_task : Task := (run_task demo_deadline demo_end (take 2 demo_events) (task_start demo_end)).1.

Lemma every_duty_expires_witness :
  (run_task demo_deadline demo_end [TFired default_order 0 Sent; TFired default_order 0 Sent] demo_task).2
    = [demo_duty 3; demo_duty 5] /\
  duties (run_task demo_deadline demo_end [TFired default_order 0 Sent; TFired default_order 0 Sent] demo_task).1 = ∅.
Proof.
  split; [by vm_compute|].
  pose proof (every_duty_expires demo_deadline demo_end demo_finite default_order 0 (take 2 demo_events)) as Hw.
  fold demo_task in Hw.
  change (size (duties demo_task)) with 2%nat in Hw. cbn [replicate] in Hw.
  destruct (run_task _ _ _ demo_task). by destruct Hw.
Defined.
