(* ===== verification/DutyDb.v ===== *)
(** * The duty database

    [crates/core/src/dutydb/memory.rs]: the in-memory store of unsigned duty
    data with its indexes by slot, the eviction of expired duties, and the
    blocking queries with their wake-ups. *)

From S2P Require Import Prelude Types Deadline.

Open Scope Z_scope.

(** The beacon-chain values, as far as the database looks into them.  Roots,
    checkpoints, block proposals and aggregated attestations are abstract:
    [slot()], [root()] and [data()] are read through [DutyData]. *)
Section dutydb.
Context {PubKey Root Checkpoint Proposal AggAttestation Bits : Type}.
Context `{Countable PubKey, Countable Root, EqDecision Checkpoint}.

(** [phase0::AttestationData]. *)
Record AttData := {
  ad_slot : Z;
  ad_index : Z;
  ad_beacon_block_root : Root;
  ad_source : Checkpoint;
  ad_target : Checkpoint;
}.

(** [AttestationData] of the core: the data and the attester duty. *)
Record Attestation := {
  at_data : AttData;
  at_duty_slot : Z;
  at_committee_index : Z;
  at_validator_index : Z;
}.

(** [altair::SyncCommitteeContribution]. *)
Record Contribution := {
  sc_slot : Z;
  sc_beacon_block_root : Root;
  sc_subcommittee_index : Z;
  sc_rest : Bits;
}.

Class DutyData := {
  proposal_slot : Proposal -> Z;
  proposal_root : Proposal -> Root;
  agg_data : AggAttestation -> option AttData;
  att_data_root : AttData -> Root;
  contribution_root : Contribution -> Root;
}.
Context {DD : DutyData}.

Inductive UnsignedDutyData :=
| UProposal (p : Proposal)
| UAttestation (a : Attestation)
| UAggAttestation (a : AggAttestation)
| USyncContribution (c : Contribution).

Inductive DbError :=
| ExpiredDuty
| DeadlineComputation
| UnexpectedProposerSetLength
| DeprecatedDutyBuilderProposer
| UnsupportedDutyType
| Shutdown
| AwaitDutyExpired
| ClashingPublicKey (slot committee_index validator_index : Z)
| ClashingAttestationData (slot committee_index : Z)
| ClashingSyncContributions (slot subcommittee_index : Z)
| ClashingBlocks (slot : Z)
| PubKeyNotFound (slot committee_index validator_index : Z)
| UnknownDutyType
| InvalidVersionedProposal
| InvalidAttestationData
| InvalidAggregatedAttestation
| InvalidSyncContribution.

(** [AttKey], [PkKey] and [ContribKey]; [AggKey] is a root. *)
Abbreviation AttKey := (Z * Z)%type.
Abbreviation PkKey := (Z * Z * Z)%type.
Abbreviation ContribKey := (Z * Z * Root)%type.

(** [State], and the generation counters of the four [Notify]s: a waiter is
    woken by the next increment. *)
Record Db := {
  attestation_duties : gmap AttKey AttData;
  attestation_pub_keys : gmap PkKey PubKey;
  attestation_keys_by_slot : gmap Z (list PkKey);
  proposer_duties : gmap Z Proposal;
  aggregation_duties : gmap Root AggAttestation;
  aggregation_keys_by_slot : gmap Z (list Root);
  contrib_duties : gmap ContribKey Contribution;
  contrib_keys_by_slot : gmap Z (list ContribKey);
  max_evicted_attestation_slot : option Z;
  max_evicted_proposer_slot : option Z;
  max_evicted_contrib_slot : option Z;
  attestation_notify : nat;
  proposer_notify : nat;
  aggregation_notify : nat;
  contrib_notify : nat;
}.

Definition db_new : Db := {|
  attestation_duties := ∅; attestation_pub_keys := ∅; attestation_keys_by_slot := ∅;
  proposer_duties := ∅; aggregation_duties := ∅; aggregation_keys_by_slot := ∅;
  contrib_duties := ∅; contrib_keys_by_slot := ∅;
  max_evicted_attestation_slot := None; max_evicted_proposer_slot := None;
  max_evicted_contrib_slot := None;
  attestation_notify := 0; proposer_notify := 0; aggregation_notify := 0; contrib_notify := 0 |}.

Abbreviation Proc := (proc Db DbError).

Definition store_proposal (p : Proposal) : Proc unit :=
  let slot := proposal_slot p in
  s ← p_get;
  match proposer_duties s !! slot with
  | Some existing =>
    if bool_decide (proposal_root existing <> proposal_root p) then p_fail (ClashingBlocks slot)
    else mret tt
  | None => p_modify (fun s => s <| proposer_duties ::= insert slot p |>)
  end.

Definition store_att_pubkey (slot duty_slot committee_index validator_index : Z) (pubkey : PubKey)
    : Proc unit :=
  let pk_key : PkKey := (slot, committee_index, validator_index) in
  s ← p_get;
  match attestation_pub_keys s !! pk_key with
  | Some existing =>
    if bool_decide (existing <> pubkey) then
      p_fail (ClashingPublicKey slot committee_index validator_index)
    else mret tt
  | None =>
    p_modify (fun s => s <| attestation_pub_keys ::= insert pk_key pubkey |>
                         <| attestation_keys_by_slot ::= push_at duty_slot pk_key |>)
  end.

Definition store_att_data (slot committee_index : Z) (data : AttData) : Proc unit :=
  let att_key : AttKey := (slot, committee_index) in
  s ← p_get;
  match attestation_duties s !! att_key with
  | Some existing =>
    if bool_decide (ad_source existing <> ad_source data)
       || bool_decide (ad_target existing <> ad_target data)
       || bool_decide (ad_beacon_block_root existing <> ad_beacon_block_root data)
    then p_fail (ClashingAttestationData slot committee_index)
    else mret tt
  | None => p_modify (fun s => s <| attestation_duties ::= insert att_key data |>)
  end.

Definition store_att_data_commidx0 (slot : Z) (data : AttData) : Proc unit :=
  let att_key : AttKey := (slot, 0) in
  s ← p_get;
  match attestation_duties s !! att_key with
  | Some existing =>
    if bool_decide (ad_source existing <> ad_source data)
       || bool_decide (ad_target existing <> ad_target data)
    then p_fail (ClashingAttestationData slot 0)
    else mret tt
  | None => p_modify (fun s => s <| attestation_duties ::= insert att_key data |>)
  end.

Definition store_attestation (pubkey : PubKey) (att : Attestation) : Proc unit :=
  let slot := ad_slot (at_data att) in
  let duty_slot := at_duty_slot att in
  let committee_index := at_committee_index att in
  let validator_index := at_validator_index att in
  store_att_pubkey slot duty_slot committee_index validator_index pubkey ;;
  store_att_data slot committee_index (at_data att) ;;
  store_att_pubkey slot duty_slot 0 validator_index pubkey ;;
  store_att_data_commidx0 slot (at_data att).

Definition store_agg_attestation (agg : AggAttestation) : Proc unit :=
  att_data ← p_lift (ok_or (agg_data agg) InvalidAggregatedAttestation);
  let root := att_data_root att_data in
  let slot := ad_slot att_data in
  s ← p_get;
  (if bool_decide (is_Some (aggregation_duties s !! root)) then mret tt
   else p_modify (fun s => s <| aggregation_keys_by_slot ::= push_at slot root |>)) ;;
  p_modify (fun s => s <| aggregation_duties ::= insert root agg |>).

Definition store_sync_contribution (inner : Contribution) : Proc unit :=
  let key : ContribKey := (sc_slot inner, sc_subcommittee_index inner, sc_beacon_block_root inner) in
  s ← p_get;
  match contrib_duties s !! key with
  | Some existing =>
    if bool_decide (contribution_root existing <> contribution_root inner)
    then p_fail (ClashingSyncContributions (sc_slot inner) (sc_subcommittee_index inner))
    else mret tt
  | None =>
    p_modify (fun s => s <| contrib_duties ::= insert key inner |>
                         <| contrib_keys_by_slot ::= push_at (sc_slot inner) key |>)
  end.

Definition bump_high_water (mark : option Z) (slot : Z) : option Z :=
  Some (match mark with Some current => Z.max current slot | None => slot end).

Definition delete_duty (duty : Duty) : Proc unit :=
  let slot := slot duty in
  match duty_type duty with
  | Proposer =>
    p_modify (fun s => s <| proposer_duties ::= delete slot |>
                         <| max_evicted_proposer_slot ::= fun m => bump_high_water m slot |>)
  | BuilderProposer => p_fail DeprecatedDutyBuilderProposer
  | Attester =>
    p_modify (fun s =>
      let s1 := match attestation_keys_by_slot s !! slot with
        | Some keys =>
          foldl (fun s (key : PkKey) =>
                   s <| attestation_pub_keys ::= delete key |>
                     <| attestation_duties ::= delete (key.1.1, key.1.2) |>)
            (s <| attestation_keys_by_slot ::= delete slot |>) keys
        | None => s
        end in
      s1 <| max_evicted_attestation_slot ::= fun m => bump_high_water m slot |>)
  | Aggregator =>
    p_modify (fun s =>
      match aggregation_keys_by_slot s !! slot with
      | Some keys =>
        foldl (fun s key => s <| aggregation_duties ::= delete key |>)
          (s <| aggregation_keys_by_slot ::= delete slot |>) keys
      | None => s
      end)
  | SyncContribution =>
    p_modify (fun s =>
      let s1 := match contrib_keys_by_slot s !! slot with
        | Some keys =>
          foldl (fun s key => s <| contrib_duties ::= delete key |>)
            (s <| contrib_keys_by_slot ::= delete slot |>) keys
        | None => s
        end in
      s1 <| max_evicted_contrib_slot ::= fun m => bump_high_water m slot |>)
  | _ => p_fail UnknownDutyType
  end.

Definition wake (t : DutyType) : Proc unit :=
  match t with
  | Proposer => p_modify (fun s => s <| proposer_notify ::= S |>)
  | Attester => p_modify (fun s => s <| attestation_notify ::= S |>)
  | Aggregator => p_modify (fun s => s <| aggregation_notify ::= S |>)
  | SyncContribution => p_modify (fun s => s <| contrib_notify ::= S |>)
  | _ => mret tt
  end.

(** [MemDB::store]: the set is visited in the order of its hash map; [outcome]
    is the deadliner's answer, [expired] what its channel holds. *)
Definition store_set (ho : HashOrder) (t : DutyType) (unsigned_set : gmap PubKey UnsignedDutyData)
    : Proc unit :=
  match t with
  | Proposer =>
    if bool_decide (1 < size unsigned_set)%nat then p_fail UnexpectedProposerSetLength
    else match map_values ho unsigned_set with
    | [] => mret tt
    | UProposal p :: _ => store_proposal p
    | _ :: _ => p_fail InvalidVersionedProposal
    end
  | Attester =>
    p_for (ho_list ho unsigned_set) (fun '(pubkey, data) =>
      match data with
      | UAttestation a => store_attestation pubkey a
      | _ => p_fail InvalidAttestationData
      end)
  | Aggregator =>
    p_for (map_values ho unsigned_set) (fun data =>
      match data with
      | UAggAttestation a => store_agg_attestation a
      | _ => p_fail InvalidAggregatedAttestation
      end)
  | SyncContribution =>
    p_for (map_values ho unsigned_set) (fun data =>
      match data with
      | USyncContribution c => store_sync_contribution c
      | _ => p_fail InvalidSyncContribution
      end)
  | _ => p_fail UnsupportedDutyType
  end.

Definition evict_expired (expired : list Duty) : Proc unit :=
  p_for expired (fun d => delete_duty d ;; wake (duty_type d)).

Definition store (ho : HashOrder) (outcome : AddOutcome) (expired : list Duty)
    (duty : Duty) (unsigned_set : gmap PubKey UnsignedDutyData) : Proc unit :=
  if bool_decide (duty_type duty = BuilderProposer) then p_fail DeprecatedDutyBuilderProposer
  else match outcome with
  | AlreadyExpired => p_fail ExpiredDuty
  | NoDeadline => p_fail UnsupportedDutyType
  | FailedToCompute => p_fail DeadlineComputation
  | Scheduled =>
    store_set ho (duty_type duty) unsigned_set ;;
    wake (duty_type duty) ;;
    evict_expired expired
  end.

(** ** Queries *)

Inductive Lookup (V : Type) :=
| Found (v : V)
| Evicted
| Pending.
Arguments Found {V} v.
Arguments Evicted {V}.
Arguments Pending {V}.

(** [is_some_and(|hw| slot <= hw)]. *)
Definition evicted (mark : option Z) (slot : Z) : bool :=
  match mark with Some hw => slot <=? hw | None => false end.

(** The closures handed to [await_data]. *)
Definition lookup_proposal (slot : Z) (s : Db) : Lookup Proposal :=
  match proposer_duties s !! slot with
  | Some v => Found v
  | None => if evicted (max_evicted_proposer_slot s) slot then Evicted else Pending
  end.

Definition lookup_attestation (slot committee_index : Z) (s : Db) : Lookup AttData :=
  match attestation_duties s !! (slot, committee_index) with
  | Some v => Found v
  | None => if evicted (max_evicted_attestation_slot s) slot then Evicted else Pending
  end.

Definition lookup_agg_attestation (root : Root) (s : Db) : Lookup AggAttestation :=
  match aggregation_duties s !! root with
  | Some v => Found v
  | None => Pending
  end.

Definition lookup_sync_contribution (slot subcommittee_index : Z) (root : Root) (s : Db)
    : Lookup Contribution :=
  match contrib_duties s !! (slot, subcommittee_index, root) with
  | Some v => Found v
  | None => if evicted (max_evicted_contrib_slot s) slot then Evicted else Pending
  end.

(** One turn of [await_data]'s loop: a result, or [None] to park until the
    [Notify] fires ([Shutdown] if the token is cancelled instead). *)
Definition await_turn {V} (lookup : Db -> Lookup V) (s : Db) : option (res DbError V) :=
  match lookup s with
  | Found v => Some (Ok v)
  | Evicted => Some (Err AwaitDutyExpired)
  | Pending => None
  end.

Definition pub_key_by_attestation (slot committee_index validator_index : Z) (s : Db)
    : res DbError PubKey :=
  ok_or (attestation_pub_keys s !! (slot, committee_index, validator_index))
    (PubKeyNotFound slot committee_index validator_index).
End dutydb.

#[global] Arguments Found {V} v.
#[global] Arguments Evicted {V}.
#[global] Arguments Pending {V}.
