(* ===== verification/DutyDbFacts.v ===== *)
(** * What the duty database guarantees

    Its slot indexes cover exactly what is stored, so that eviction leaves
    nothing behind; a stored value never changes while it is stored; a stored
    duty can be queried; waiters are woken. *)

From S2P Require Import Prelude Types Deadline DutyDb.

Open Scope Z_scope.

(** ** Maps with an index by slot *)

Section indexed.
Context {K V : Type} `{Countable K}.

(** The index lists exactly the keys of the map, each under one slot. *)
Definition indexed (m : gmap K V) (idx : gmap Z (list K)) : Prop :=
  (forall k, is_Some (m !! k) <-> exists sl l, idx !! sl = Some l /\ k ∈ l) /\
  (forall sl sl' l l' k, idx !! sl = Some l -> idx !! sl' = Some l' -> k ∈ l -> k ∈ l' -> sl = sl').

Lemma indexed_empty : indexed ∅ ∅.
Proof.
  split.
  - intros k. rewrite lookup_empty. split; [by intros []|]. intros (sl & l & Hl & _).
    by rewrite lookup_empty in Hl.
  - intros sl sl' l l' k Hl. by rewrite lookup_empty in Hl.
Qed.

Lemma indexed_insert m idx k v sl :
  indexed m idx -> m !! k = None -> indexed (<[k := v]> m) (push_at sl k idx).
Proof.
  intros [Hdom Huniq] Hk.
  assert (forall sl l, idx !! sl = Some l -> k ∉ l) as Hfresh.
  { intros sl' l Hl Hin. assert (is_Some (m !! k)) as [? ?] by (apply Hdom; eauto). congruence. }
  assert (forall k', k' ∈ default [] (idx !! sl) -> exists l, idx !! sl = Some l /\ k' ∈ l) as Hdef.
  { intros k'. destruct (idx !! sl) as [l|]; cbn; [eauto|]. by intros ?%elem_of_nil. }
  split.
  - intros k'. rewrite lookup_insert_is_Some. split.
    + intros [<-|[Hne (sl' & l & Hl & Hin)%Hdom]].
      * exists sl, (default [] (idx !! sl) ++ [k]). rewrite lookup_push_at. set_solver.
      * destruct (decide (sl' = sl)) as [->|Hs].
        -- exists sl, (default [] (idx !! sl) ++ [k]). rewrite lookup_push_at, Hl. set_solver.
        -- exists sl', l. rewrite lookup_push_at. naive_solver.
    + intros (sl' & l & Hl%lookup_push_at & Hin).
      destruct (decide (k = k')) as [|Hne]; [by left|right]. split; [done|]. apply Hdom.
      destruct Hl as [[-> ->]|[_ Hl]]; [|eauto].
      apply elem_of_app in Hin as [Hin|Hin%list_elem_of_singleton]; [|done].
      apply Hdef in Hin as (l & ? & ?). eauto.
  - intros sl1 sl2 l1 l2 k' [[-> ->]|[? Hl1]]%lookup_push_at [[-> ->]|[? Hl2]]%lookup_push_at Hin1 Hin2;
      [done| | |by eapply Huniq].
    + apply elem_of_app in Hin1 as [Hin1|Hin1%list_elem_of_singleton].
      * apply Hdef in Hin1 as (l & ? & ?). by eapply Huniq.
      * subst. by destruct (Hfresh _ _ Hl2).
    + apply elem_of_app in Hin2 as [Hin2|Hin2%list_elem_of_singleton].
      * apply Hdef in Hin2 as (l & ? & ?). by eapply Huniq.
      * subst. by destruct (Hfresh _ _ Hl1).
Qed.

Lemma indexed_update m idx k v : indexed m idx -> is_Some (m !! k) -> indexed (<[k := v]> m) idx.
Proof.
  intros [Hdom Huniq] Hk. split; [|done]. intros k'. rewrite <-Hdom, lookup_insert_is_Some.
  split; [intros [<-|[_ ?]]; done|]. destruct (decide (k = k')); auto.
Qed.

(** Deleting every key of a list. *)
Definition delete_all (m : gmap K V) (keys : list K) : gmap K V := foldl (fun m k => delete k m) m keys.

Lemma lookup_delete_all keys m k v :
  delete_all m keys !! k = Some v <-> (k ∉ keys) /\ m !! k = Some v.
Proof.
  unfold delete_all. revert m. induction keys as [|k0 keys IH]; intros m; cbn.
  - split; [intros ?; split; [apply not_elem_of_nil|done]|by intros [_ ?]].
  - rewrite IH, lookup_delete_Some, not_elem_of_cons. naive_solver.
Qed.

Lemma indexed_evict m idx sl keys :
  indexed m idx -> idx !! sl = Some keys -> indexed (delete_all m keys) (delete sl idx).
Proof.
  intros [Hdom Huniq] Hsl. split.
  - intros k. split.
    + intros [v [Hnot Hk]%lookup_delete_all].
      destruct (proj1 (Hdom k) ltac:(eauto)) as (sl' & l & Hl & Hin).
      exists sl', l. rewrite lookup_delete_Some. split; [|done]. split; [|done].
      intros <-. congruence.
    + intros (sl' & l & [Hne Hl]%lookup_delete_Some & Hin).
      destruct (proj2 (Hdom k) ltac:(eauto)) as [v Hv]. exists v. apply lookup_delete_all.
      split; [|done]. intros Hk. by eapply Hne, Huniq.
  - intros sl1 sl2 l1 l2 k [_ Hl1]%lookup_delete_Some [_ Hl2]%lookup_delete_Some. by eapply Huniq.
Qed.
End indexed.

(** Projections of a loop over a record. *)
Lemma foldl_proj {S A X} (f : S -> X -> S) (g : A -> X -> A) (π : S -> A) :
  (forall s x, π (f s x) = g (π s) x) -> forall l s, π (foldl f s l) = foldl g (π s) l.
Proof. intros Hfg l. induction l as [|x l IH]; intros s; cbn; [done|]. by rewrite IH, Hfg. Qed.

Section facts.
Context {PubKey Root Checkpoint Proposal AggAttestation Bits : Type}.
Context `{Countable PubKey, Countable Root, EqDecision Checkpoint}.
Abbreviation AttData := (@AttData Root Checkpoint).
Abbreviation Attestation := (@Attestation Root Checkpoint).
Abbreviation Contribution := (@Contribution Root Bits).
Context {DD : @DutyData Root Checkpoint Proposal AggAttestation Bits}.
Abbreviation Db := (@Db PubKey Root Checkpoint Proposal AggAttestation Bits _ _).
Abbreviation UnsignedDutyData := (@UnsignedDutyData Root Checkpoint Proposal AggAttestation Bits).

Implicit Types s : Db.

(** ** The indexes *)

Record db_inv (s : Db) : Prop := {
  inv_att : indexed (attestation_pub_keys s) (attestation_keys_by_slot s);
  inv_data : forall sl ci, is_Some (attestation_duties s !! (sl, ci)) ->
    exists vi, is_Some (attestation_pub_keys s !! (sl, ci, vi));
  inv_agg : indexed (aggregation_duties s) (aggregation_keys_by_slot s);
  inv_contrib : indexed (contrib_duties s) (contrib_keys_by_slot s);
}.

Lemma db_new_inv : db_inv db_new.
Proof.
  constructor; cbn; try apply indexed_empty. intros sl ci [? Hx]. by rewrite lookup_empty in Hx.
Qed.

Abbreviation keeps_inv m := (keeps db_inv m).

Lemma store_proposal_inv p : keeps_inv (store_proposal p).
Proof.
  apply keeps_get. intros s I. cbn. destruct (proposer_duties s !! _); [by case_bool_decide|]. cbn.
  by destruct I; constructor.
Qed.

Lemma store_att_pubkey_inv sl ds ci vi pk : keeps_inv (store_att_pubkey sl ds ci vi pk).
Proof.
  apply keeps_get. intros s I. cbn.
  destruct (attestation_pub_keys s !! (sl, ci, vi)) eqn:E; [by case_bool_decide|].
  destruct I as [I1 I2 I3 I4]. constructor; cbn; [by apply indexed_insert| |done|done].
  intros sl' ci' Hd. destruct (I2 sl' ci' Hd) as [vi' ?]. exists vi'.
  apply lookup_insert_is_Some. destruct (decide ((sl, ci, vi) = (sl', ci', vi'))); auto.
Qed.

(** Data is only stored where a public key is. *)
Lemma data_inv s sl ci d vi :
  db_inv s -> is_Some (attestation_pub_keys s !! (sl, ci, vi)) ->
  db_inv (s <| attestation_duties ::= insert (sl, ci) d |>).
Proof.
  intros [I1 I2 I3 I4] Hpk. constructor; cbn; [done| |done|done].
  intros sl' ci'. rewrite lookup_insert_is_Some. intros [[= <- <-]|[_ Hd]]; [by exists vi|by apply I2].
Qed.

(** A postcondition of a successful method that keeps the invariant. *)
Definition ensures {A} (m : proc Db DbError A) (Q : Db -> Prop) : Prop :=
  forall s, db_inv s -> match m s with (s', Ok _) => Q s' | _ => True end.

Lemma store_att_pubkey_ensures sl ds ci vi pk :
  ensures (store_att_pubkey sl ds ci vi pk)
    (fun s => attestation_pub_keys s !! (sl, ci, vi) = Some pk).
Proof.
  intros s _. unfold store_att_pubkey. proc_simp.
  destruct (attestation_pub_keys s !! (sl, ci, vi)) as [pk'|] eqn:E; cbn.
  - case_bool_decide as Hne; cbn; [done|]. by subst.
  - by rewrite lookup_insert_eq.
Qed.

Lemma keeps_then {A B} (m : proc Db DbError A) (Q : Db -> Prop) (f : A -> proc Db DbError B) :
  keeps_inv m -> ensures m Q -> (forall x s, db_inv s -> Q s -> db_inv (fst (f x s))) ->
  keeps_inv (m ≫= f).
Proof.
  intros Hm HQ Hf s I. specialize (Hm s I). specialize (HQ s I). unfold mbind, proc_bind.
  destruct (m s) as [s' [x|e|]]; [by apply Hf|done|done].
Qed.

Lemma store_att_data_inv sl ci d s vi :
  db_inv s -> is_Some (attestation_pub_keys s !! (sl, ci, vi)) ->
  db_inv (fst (store_att_data sl ci d s)).
Proof.
  intros I Hpk. unfold store_att_data. proc_simp.
  destruct (attestation_duties s !! (sl, ci)); [by destruct (_ || _)|]. by eapply data_inv.
Qed.

Lemma store_att_data0_inv sl d s vi :
  db_inv s -> is_Some (attestation_pub_keys s !! (sl, 0, vi)) ->
  db_inv (fst (store_att_data_commidx0 sl d s)).
Proof.
  intros I Hpk. unfold store_att_data_commidx0. proc_simp.
  destruct (attestation_duties s !! (sl, 0)); [by destruct (_ || _)|]. by eapply data_inv.
Qed.

Lemma store_attestation_inv pk a : keeps_inv (store_attestation pk a).
Proof.
  unfold store_attestation.
  eapply keeps_then; [apply store_att_pubkey_inv|apply store_att_pubkey_ensures|].
  intros _ s I Hpk. set (vi := at_validator_index a) in *.
  pose proof (store_att_data_inv _ _ (at_data a) s vi I (mk_is_Some _ _ Hpk)) as I1.
  unfold mbind at 1, proc_bind at 1.
  destruct (store_att_data _ _ _ s) as [s1 [[]|e|]]; cbn in *; [|done|done].
  revert s1 I1. change (keeps_inv (store_att_pubkey (ad_slot (at_data a)) (at_duty_slot a) 0 vi pk ;;
    store_att_data_commidx0 (ad_slot (at_data a)) (at_data a))).
  eapply keeps_then; [apply store_att_pubkey_inv|apply store_att_pubkey_ensures|].
  intros _ s1 I1 Hpk1. eapply store_att_data0_inv; [done|]. exact (mk_is_Some _ _ Hpk1).
Qed.

Lemma store_agg_inv a : keeps_inv (store_agg_attestation a).
Proof.
  unfold store_agg_attestation. apply keeps_bind; [apply keeps_lift|]. intros d.
  apply keeps_get. intros s [I1 I2 I3 I4]. proc_simp. case_bool_decide as Hin; proc_simp; constructor; cbn; try done.
  - by apply indexed_update.
  - apply indexed_insert; [done|]. by apply eq_None_not_Some.
Qed.

Lemma store_contrib_inv c : keeps_inv (store_sync_contribution c).
Proof.
  apply keeps_get. intros s I. cbn.
  destruct (contrib_duties s !! _) eqn:E; [by case_bool_decide|].
  destruct I as [I1 I2 I3 I4]. constructor; cbn; try done. by apply indexed_insert.
Qed.

(** ** Eviction *)

Abbreviation evict_att_key := (fun (s : Db) (key : Z * Z * Z) =>
  s <| attestation_pub_keys ::= delete key |> <| attestation_duties ::= delete (key.1.1, key.1.2) |>).

Lemma foldl_const {A X} (l : list X) (a : A) : foldl (fun a _ => a) a l = a.
Proof. by induction l. Qed.

Lemma evict_att_pub_keys keys (s : Db) :
  attestation_pub_keys (foldl evict_att_key s keys) = delete_all (attestation_pub_keys s) keys.
Proof. by apply (foldl_proj evict_att_key (fun m k => delete k m) attestation_pub_keys). Qed.

Lemma evict_att_same {A} (π : Db -> A) keys (s : Db) :
  (forall s key, π (evict_att_key s key) = π s) -> π (foldl evict_att_key s keys) = π s.
Proof.
  intros Hπ. rewrite (foldl_proj evict_att_key (fun a _ => a) π) by done. apply foldl_const.
Qed.

Lemma evict_att_data keys (s : Db) sl ci d :
  attestation_duties (foldl evict_att_key s keys) !! (sl, ci) = Some d <->
  attestation_duties s !! (sl, ci) = Some d /\ forall vi, (sl, ci, vi) ∉ keys.
Proof.
  revert s. induction keys as [|[[ks kc] kv] keys IH]; intros s; cbn [foldl].
  { split; [|by intros [? _]]. intros Hd. split; [done|]. intros vi. apply not_elem_of_nil. }
  rewrite IH. cbn. rewrite lookup_delete_Some. setoid_rewrite not_elem_of_cons. split.
  - intros [[Hne Hd] Hk]. split; [done|]. intros vi. split; [congruence|done].
  - intros [Hd Hk]. split; [split; [|done]|by intros vi; apply Hk].
    intros [= -> ->]. by destruct (Hk kv) as [[] _].
Qed.

Lemma delete_duty_inv d : keeps_inv (delete_duty d).
Proof.
  intros s [I1 I2 I3 I4]. unfold delete_duty. destruct (duty_type d); cbn; try by constructor.
  - destruct (attestation_keys_by_slot s !! slot d) as [keys|] eqn:E; [|by constructor].
    constructor; cbn.
    + rewrite evict_att_pub_keys, evict_att_same by done. by apply indexed_evict.
    + intros sl ci [x [Hd Hk]%evict_att_data]. cbn in Hd. destruct (I2 sl ci) as [vi [pk Hpk]]; [eauto|].
      exists vi. rewrite evict_att_pub_keys. exists pk. by apply lookup_delete_all.
    + by rewrite !evict_att_same by done.
    + by rewrite !evict_att_same by done.
  - destruct (aggregation_keys_by_slot s !! slot d) as [keys|] eqn:E; [|by constructor].
    set (f := fun (s : Db) key => s <| aggregation_duties ::= delete key |>).
    assert (forall A (π : Db -> A), (forall s k, π (f s k) = π s) -> forall s, π (foldl f s keys) = π s) as Hsame.
    { intros A π Hπ s'. rewrite (foldl_proj f (fun a _ => a) π) by done. apply foldl_const. }
    constructor; cbn; rewrite ?(Hsame _ attestation_pub_keys), ?(Hsame _ attestation_keys_by_slot),
      ?(Hsame _ attestation_duties), ?(Hsame _ contrib_duties), ?(Hsame _ contrib_keys_by_slot),
      ?(Hsame _ aggregation_keys_by_slot) by done; try done.
    rewrite (foldl_proj f (fun m k => delete k m) aggregation_duties) by done. by apply indexed_evict.
  - destruct (contrib_keys_by_slot s !! slot d) as [keys|] eqn:E; [|by constructor].
    set (f := fun (s : Db) key => s <| contrib_duties ::= delete key |>).
    assert (forall A (π : Db -> A), (forall s k, π (f s k) = π s) -> forall s, π (foldl f s keys) = π s) as Hsame.
    { intros A π Hπ s'. rewrite (foldl_proj f (fun a _ => a) π) by done. apply foldl_const. }
    constructor; cbn; rewrite ?(Hsame _ attestation_pub_keys), ?(Hsame _ attestation_keys_by_slot),
      ?(Hsame _ attestation_duties), ?(Hsame _ aggregation_duties), ?(Hsame _ aggregation_keys_by_slot),
      ?(Hsame _ contrib_keys_by_slot) by done; try done.
    rewrite (foldl_proj f (fun m k => delete k m) contrib_duties) by done. by apply indexed_evict.
Qed.

Lemma wake_inv t : keeps_inv (wake t).
Proof. intros s [I1 I2 I3 I4]. by destruct t; constructor. Qed.

Lemma store_set_inv ho t set : keeps_inv (store_set ho t set).
Proof.
  unfold store_set. destruct t; try apply keeps_fail.
  - case_bool_decide; [apply keeps_fail|].
    destruct (map_values ho set) as [|[] ?]; try apply keeps_fail; [apply keeps_ret|apply store_proposal_inv].
  - apply keeps_for. intros [pk []] _; try apply keeps_fail. apply store_attestation_inv.
  - apply keeps_for. intros [] _; try apply keeps_fail. apply store_agg_inv.
  - apply keeps_for. intros [] _; try apply keeps_fail. apply store_contrib_inv.
Qed.

Lemma evict_expired_inv expired : keeps_inv (evict_expired expired).
Proof.
  apply keeps_for. intros d _. apply keeps_bind; [apply delete_duty_inv|intros; apply wake_inv].
Qed.

Lemma store_inv ho outcome expired d set : keeps_inv (store ho outcome expired d set).
Proof.
  unfold store. case_bool_decide; [apply keeps_fail|]. destruct outcome; try apply keeps_fail.
  apply keeps_bind; [apply store_set_inv|intros _].
  apply keeps_bind; [apply wake_inv|intros _; apply evict_expired_inv].
Qed.

(** The databases the node can have: any sequence of stores from the empty one,
    whatever they return. *)
Inductive db_reachable : Db -> Prop :=
| db_reach_new : db_reachable db_new
| db_reach_store ho outcome expired d set s :
    db_reachable s -> db_reachable (fst (store ho outcome expired d set s)).

Lemma reachable_db_inv s : db_reachable s -> db_inv s.
Proof. induction 1; [apply db_new_inv|by apply store_inv]. Qed.

(** A listed key is gone once its slot is deleted. *)
Lemma delete_all_gone {K V} `{Countable K} (m : gmap K V) keys k :
  k ∈ keys -> delete_all m keys !! k = None.
Proof.
  intros Hin. destruct (delete_all m keys !! k) eqn:E; [|done].
  by apply lookup_delete_all in E as [? _].
Qed.

Lemma deleted_att (s : Db) sl keys ks ci vi :
  attestation_keys_by_slot s !! sl = Some keys -> (ks, ci, vi) ∈ keys ->
  let s' := fst (delete_duty {| slot := sl; duty_type := Attester |} s) in
  attestation_pub_keys s' !! (ks, ci, vi) = None /\ attestation_duties s' !! (ks, ci) = None.
Proof.
  intros Hkeys Hin. cbn. rewrite Hkeys. cbn. split.
  - rewrite evict_att_pub_keys. by apply delete_all_gone.
  - destruct (attestation_duties _ !! (ks, ci)) eqn:E; [|done].
    apply evict_att_data in E as [_ Hk]. by destruct (Hk vi).
Qed.

(** Nothing is stored forever.  In every database the node can reach, also
    after stores that failed half way, each public key, attestation data,
    aggregated attestation and sync contribution is removed by the eviction
    of some slot: what is stored and what the slot indexes list agree. *)
Theorem every_entry_evictable (s : Db) :
  db_reachable s ->
  (forall k, is_Some (attestation_pub_keys s !! k) -> exists sl,
     attestation_pub_keys (fst (delete_duty {| slot := sl; duty_type := Attester |} s)) !! k = None) /\
  (forall k, is_Some (attestation_duties s !! k) -> exists sl,
     attestation_duties (fst (delete_duty {| slot := sl; duty_type := Attester |} s)) !! k = None) /\
  (forall k, is_Some (aggregation_duties s !! k) -> exists sl,
     aggregation_duties (fst (delete_duty {| slot := sl; duty_type := Aggregator |} s)) !! k = None) /\
  (forall k, is_Some (contrib_duties s !! k) -> exists sl,
     contrib_duties (fst (delete_duty {| slot := sl; duty_type := SyncContribution |} s)) !! k = None).
Proof.
  intros [I1 I2 I3 I4]%reachable_db_inv. split_and!.
  - intros [[ks ci] vi] (sl & keys & Hkeys & Hin)%I1. exists sl. by eapply deleted_att.
  - intros [ks ci] [vi (sl & keys & Hkeys & Hin)%I1]%I2. exists sl. by eapply deleted_att.
  - intros k (sl & keys & Hkeys & Hin)%I3. exists sl. cbn. rewrite Hkeys.
    rewrite (foldl_proj _ (fun m k => delete k m) aggregation_duties) by done. by apply delete_all_gone.
  - intros k (sl & keys & Hkeys & Hin)%I4. exists sl. cbn. rewrite Hkeys. cbn.
    rewrite (foldl_proj _ (fun m k => delete k m) contrib_duties) by done. by apply delete_all_gone.
Qed.

(** An evicted attester duty is gone for good: the public keys listed for
    its slot are no longer found, and a query for its data is told that the
    duty expired instead of waiting. *)
Theorem evicted_attestation (s : Db) d keys sl ci vi :
  duty_type d = Attester ->
  attestation_keys_by_slot s !! slot d = Some keys -> (sl, ci, vi) ∈ keys -> sl <= slot d ->
  let s' := fst (delete_duty d s) in
  pub_key_by_attestation sl ci vi s' = Err (PubKeyNotFound sl ci vi) /\
  await_turn (lookup_attestation sl ci) s' = Some (Err AwaitDutyExpired).
Proof.
  destruct d as [dsl dt]. cbn. intros -> Hkeys Hin Hle.
  destruct (deleted_att s dsl keys sl ci vi Hkeys Hin) as [Hpk Hd].
  unfold pub_key_by_attestation, await_turn, lookup_attestation. rewrite Hpk, Hd. split; [done|].
  unfold evicted. cbn. unfold bump_high_water.
  set (o := max_evicted_attestation_slot _).
  replace (sl <=? _) with true; [done|]. symmetry. apply Z.leb_le. destruct o; lia.
Qed.

(** ** Stored values do not change *)

Lemma grow_insert {K V} `{Countable K} (m0 m : gmap K V) k v :
  m0 ⊆ m -> m !! k = None -> m0 ⊆ <[k := v]> m.
Proof. intros Hsub Hk. etrans; [done|]. by apply insert_subseteq. Qed.

Definition grows (s s' : Db) : Prop :=
  proposer_duties s ⊆ proposer_duties s' /\ attestation_duties s ⊆ attestation_duties s' /\
  attestation_pub_keys s ⊆ attestation_pub_keys s' /\ contrib_duties s ⊆ contrib_duties s'.

Lemma grows_refl s : grows s s.
Proof. by split_and!. Qed.

(** A method that only adds. *)
Abbreviation keeps_grows m := (forall s0, keeps (grows s0) m).

Lemma store_proposal_grows p : keeps_grows (store_proposal p).
Proof.
  intros s0. apply keeps_get. intros s (G1 & G2 & G3 & G4). cbn.
  destruct (proposer_duties s !! _) eqn:E; [by case_bool_decide|].
  split_and!; cbn; try done. by apply grow_insert.
Qed.

Lemma store_att_pubkey_grows sl ds ci vi pk : keeps_grows (store_att_pubkey sl ds ci vi pk).
Proof.
  intros s0. apply keeps_get. intros s (G1 & G2 & G3 & G4). cbn.
  destruct (attestation_pub_keys s !! _) eqn:E; [by case_bool_decide|].
  split_and!; cbn; try done. by apply grow_insert.
Qed.

Lemma store_att_data_grows sl ci d : keeps_grows (store_att_data sl ci d).
Proof.
  intros s0. apply keeps_get. intros s (G1 & G2 & G3 & G4). cbn.
  destruct (attestation_duties s !! _) eqn:E; [by destruct (_ || _)|].
  split_and!; cbn; try done. by apply grow_insert.
Qed.

Lemma store_att_data0_grows sl d : keeps_grows (store_att_data_commidx0 sl d).
Proof.
  intros s0. apply keeps_get. intros s (G1 & G2 & G3 & G4). cbn.
  destruct (attestation_duties s !! _) eqn:E; [by destruct (_ || _)|].
  split_and!; cbn; try done. by apply grow_insert.
Qed.

Lemma store_attestation_grows pk a : keeps_grows (store_attestation pk a).
Proof.
  intros s0. unfold store_attestation.
  repeat (apply keeps_bind; [apply store_att_pubkey_grows || apply store_att_data_grows|intros _]).
  apply store_att_data0_grows.
Qed.

Lemma store_agg_grows a : keeps_grows (store_agg_attestation a).
Proof.
  intros s0. apply keeps_bind; [apply keeps_lift|]. intros d. apply keeps_get. intros s G. proc_simp.
  by case_bool_decide.
Qed.

Lemma store_contrib_grows c : keeps_grows (store_sync_contribution c).
Proof.
  intros s0. apply keeps_get. intros s (G1 & G2 & G3 & G4). cbn.
  destruct (contrib_duties s !! _) eqn:E; [by case_bool_decide|].
  split_and!; cbn; try done. by apply grow_insert.
Qed.

Lemma store_set_grows ho t set : keeps_grows (store_set ho t set).
Proof.
  intros s0. unfold store_set. destruct t; try apply keeps_fail.
  - case_bool_decide; [apply keeps_fail|].
    destruct (map_values ho set) as [|[] ?]; try apply keeps_fail; [apply keeps_ret|apply store_proposal_grows].
  - apply keeps_for. intros [pk []] _; try apply keeps_fail. apply store_attestation_grows.
  - apply keeps_for. intros [] _; try apply keeps_fail. apply store_agg_grows.
  - apply keeps_for. intros [] _; try apply keeps_fail. apply store_contrib_grows.
Qed.

(** Eviction only removes. *)
Lemma evict_grows expired s0 : keeps (fun s => grows s s0) (evict_expired expired).
Proof.
  assert (forall d, keeps (fun s => grows s s0) (delete_duty d)) as Hdel.
  { intros d s (G1 & G2 & G3 & G4). unfold delete_duty. destruct (duty_type d); cbn; try by split_and!.
    - split_and!; cbn; try done. etrans; [apply delete_subseteq|done].
    - destruct (attestation_keys_by_slot s !! slot d) as [keys|]; [|by split_and!].
      split_and!; cbn; rewrite ?evict_att_same by done; try done.
      + apply map_subseteq_spec. intros [sl ci] x [Hd _]%evict_att_data. by eapply lookup_weaken.
      + rewrite evict_att_pub_keys. apply map_subseteq_spec.
        intros k x [_ Hk]%lookup_delete_all. by eapply lookup_weaken.
    - destruct (aggregation_keys_by_slot s !! slot d) as [keys|]; [|by split_and!].
      set (f := fun (s : Db) key => s <| aggregation_duties ::= delete key |>).
      split_and!; by rewrite (foldl_proj f (fun a _ => a)), foldl_const by done.
    - destruct (contrib_keys_by_slot s !! slot d) as [keys|]; [|by split_and!].
      set (f := fun (s : Db) key => s <| contrib_duties ::= delete key |>).
      split_and!; cbn; try by rewrite (foldl_proj f (fun a _ => a)), foldl_const by done.
      rewrite (foldl_proj f (fun m k => delete k m)) by done. apply map_subseteq_spec.
      intros k x [_ Hk]%(lookup_delete_all keys (contrib_duties s)). by eapply lookup_weaken. }
  apply keeps_for. intros d _. apply keeps_bind; [apply Hdel|]. intros _ s G. by destruct (duty_type d).
Qed.

(** The value of a key before and after a store that may also evict. *)
Lemma store_agrees ho outcome expired d set s :
  exists s1, grows s s1 /\ grows (fst (store ho outcome expired d set s)) s1.
Proof.
  unfold store. case_bool_decide; [by exists s; split; apply grows_refl|].
  destruct outcome; try by exists s; split; apply grows_refl.
  pose proof (store_set_grows ho (duty_type d) set s s (grows_refl s)) as Hg.
  unfold mbind at 1, proc_bind at 1.
  destruct (store_set ho (duty_type d) set s) as [s1 [[]|e|]]; cbn in Hg;
    [|by exists s1; split; [done|apply grows_refl]..].
  exists s1. split; [done|].
  assert (grows (fst (wake (PubKey := PubKey) (duty_type d) s1)) s1) as Hw by (by destruct (duty_type d)).
  unfold mbind at 1, proc_bind at 1.
  destruct (wake (duty_type d) s1) as [s2 [[]|e|]] eqn:Ew; cbn in Hw; [|done|done].
  by apply (evict_grows expired s1).
Qed.

(** C25: stored values are write-once.  Whatever a store does (it may fail half
    way, it may evict), a proposal, attestation data, validator public key or
    sync contribution that is stored both before and after it is the same
    value: a clash is refused, never overwritten. *)
Theorem stored_values_stable ho outcome expired d (set : gmap PubKey UnsignedDutyData) (s : Db) :
  let s' := fst (store ho outcome expired d set s) in
  (forall k v v', proposer_duties s !! k = Some v -> proposer_duties s' !! k = Some v' -> v = v') /\
  (forall k v v', attestation_duties s !! k = Some v -> attestation_duties s' !! k = Some v' -> v = v') /\
  (forall k v v', attestation_pub_keys s !! k = Some v -> attestation_pub_keys s' !! k = Some v' -> v = v') /\
  (forall k v v', contrib_duties s !! k = Some v -> contrib_duties s' !! k = Some v' -> v = v').
Proof.
  destruct (store_agrees ho outcome expired d set s) as (s1 & (G1 & G2 & G3 & G4) & (L1 & L2 & L3 & L4)).
  split_and!; intros k v v' Hv Hv'; eapply lookup_weaken in Hv; eauto;
    eapply lookup_weaken in Hv'; eauto; congruence.
Qed.

(** ** A stored attester duty can be queried *)

(** What [store_attestation] leaves behind. *)
Definition att_stored (pk : PubKey) (a : Attestation) (s : Db) : Prop :=
  let d := at_data a in
  let sl := ad_slot d in
  (exists x, attestation_duties s !! (sl, at_committee_index a) = Some x /\
     ad_source x = ad_source d /\ ad_target x = ad_target d /\
     ad_beacon_block_root x = ad_beacon_block_root d) /\
  (exists x, attestation_duties s !! (sl, 0) = Some x /\
     ad_source x = ad_source d /\ ad_target x = ad_target d) /\
  attestation_pub_keys s !! (sl, at_committee_index a, at_validator_index a) = Some pk /\
  attestation_pub_keys s !! (sl, 0, at_validator_index a) = Some pk.

Lemma att_stored_grows pk a s s' : att_stored pk a s -> grows s s' -> att_stored pk a s'.
Proof.
  intros ((x & Hx & ?) & (y & Hy & ?) & Hk & Hk0) (_ & G2 & G3 & _). split_and!.
  - exists x. split; [by eapply lookup_weaken|done].
  - exists y. split; [by eapply lookup_weaken|done].
  - by eapply lookup_weaken.
  - by eapply lookup_weaken.
Qed.

Lemma store_att_data_ok sl ci (d : AttData) s s' :
  store_att_data sl ci d s = (s', Ok tt) ->
  exists x, attestation_duties s' !! (sl, ci) = Some x /\ ad_source x = ad_source d /\
    ad_target x = ad_target d /\ ad_beacon_block_root x = ad_beacon_block_root d.
Proof.
  unfold store_att_data. proc_simp.
  destruct (attestation_duties s !! (sl, ci)) as [x|] eqn:E; cbn.
  - repeat case_bool_decide; cbn; intros [= <-]. by exists x.
  - intros [= <-]. exists d. cbn. by rewrite lookup_insert_eq.
Qed.

Lemma store_att_data0_ok sl (d : AttData) s s' :
  store_att_data_commidx0 sl d s = (s', Ok tt) ->
  exists x, attestation_duties s' !! (sl, 0) = Some x /\ ad_source x = ad_source d /\
    ad_target x = ad_target d.
Proof.
  unfold store_att_data_commidx0. proc_simp.
  destruct (attestation_duties s !! (sl, 0)) as [x|] eqn:E; cbn.
  - repeat case_bool_decide; cbn; intros [= <-]. by exists x.
  - intros [= <-]. exists d. cbn. by rewrite lookup_insert_eq.
Qed.

Lemma store_att_pubkey_ok sl ds ci vi pk s s' :
  store_att_pubkey sl ds ci vi pk s = (s', Ok tt) ->
  attestation_pub_keys s' !! (sl, ci, vi) = Some pk.
Proof.
  unfold store_att_pubkey. proc_simp.
  destruct (attestation_pub_keys s !! (sl, ci, vi)) as [x|] eqn:E; cbn.
  - case_bool_decide; cbn; intros [= <-]. by subst.
  - intros [= <-]. cbn. by rewrite lookup_insert_eq.
Qed.

(** A method that only adds, from the state it starts in. *)
Lemma grows_from {A} (m : proc Db DbError A) s s' x :
  keeps_grows m -> m s = (s', Ok x) -> grows s s'.
Proof. intros Hm Hs. specialize (Hm s s (grows_refl s)). by rewrite Hs in Hm. Qed.

Lemma grows_trans s1 s2 s3 : grows s1 s2 -> grows s2 s3 -> grows s1 s3.
Proof. intros (?&?&?&?) (?&?&?&?). split_and!; by etrans. Qed.

Lemma store_attestation_ok pk a s s' :
  store_attestation pk a s = (s', Ok tt) -> att_stored pk a s'.
Proof.
  unfold store_attestation.
  intros (s1 & [] & H1 & (s2 & [] & H2 & (s3 & [] & H3 & H4)%proc_bind_Ok)%proc_bind_Ok)%proc_bind_Ok.
  pose proof (grows_from _ _ _ _ (store_att_data_grows _ _ _) H2) as G2.
  pose proof (grows_from _ _ _ _ (store_att_pubkey_grows _ _ _ _ _) H3) as G3.
  pose proof (grows_from _ _ _ _ (store_att_data0_grows _ _) H4) as G4.
  apply store_att_pubkey_ok in H1, H3. apply store_att_data_ok in H2 as (x & Hx & Heq).
  apply store_att_data0_ok in H4.
  destruct (grows_trans _ _ _ G3 G4) as (_ & D3 & _ & _).
  destruct (grows_trans _ _ _ G2 (grows_trans _ _ _ G3 G4)) as (_ & _ & P2 & _).
  split_and!; [|done| |].
  - exists x. split; [by eapply lookup_weaken|done].
  - by eapply lookup_weaken.
  - destruct G4 as (_ & _ & P4 & _). by eapply lookup_weaken.
Qed.

Lemma store_set_attester_ok ho (set : gmap PubKey UnsignedDutyData) s s' pk a :
  store_set ho Attester set s = (s', Ok tt) -> set !! pk = Some (UAttestation a) ->
  att_stored pk a s'.
Proof.
  intros Hs Hpk. assert ((pk, UAttestation a) ∈ ho_list ho set) as Hin.
  { rewrite (ho_perm ho set). by apply elem_of_map_to_list. }
  unfold store_set in Hs. revert s Hs Hin. generalize (ho_list ho set) as l.
  induction l as [|[pk' u] l IH]; intros s Hs Hin; [by apply elem_of_nil in Hin|].
  cbn [p_for] in Hs. apply proc_bind_Ok in Hs as (s1 & [] & H1 & H2).
  apply elem_of_cons in Hin as [[= <- <-]|Hin]; [|by eapply IH].
  apply store_attestation_ok in H1. eapply att_stored_grows; [exact H1|].
  eapply grows_from; [|exact H2]. intros s0. apply keeps_for.
  intros [pk0 []] _; try apply keeps_fail. apply store_attestation_grows.
Qed.

Lemma evict_other_att expired s :
  Forall (fun d => duty_type d <> Attester) expired ->
  let s' := fst (evict_expired expired s) in
  attestation_duties s' = attestation_duties s /\ attestation_pub_keys s' = attestation_pub_keys s.
Proof.
  intros Hall. cbn. set (D := attestation_duties s). set (P := attestation_pub_keys s).
  assert (keeps (fun s => attestation_duties s = D /\ attestation_pub_keys s = P) (evict_expired expired))
    as Hkeeps; [|by apply Hkeeps].
  apply keeps_for. intros d Hd. rewrite list.Forall_forall in Hall. specialize (Hall d Hd).
  clearbody D P. clear s. apply keeps_bind; [|by intros _ s; destruct (duty_type d)].
  intros s [<- <-]. unfold delete_duty. destruct (duty_type d); cbn; try done.
  - destruct (aggregation_keys_by_slot s !! slot d); cbn; [|done].
    by rewrite !(foldl_proj _ (fun a _ => a)), !foldl_const by done.
  - destruct (contrib_keys_by_slot s !! slot d); cbn; [|done].
    by rewrite !(foldl_proj _ (fun a _ => a)), !foldl_const by done.
Qed.

(** A stored attester duty can be queried.  When [store] accepts a set of
    attestations, every validator of it finds its attestation's source, target
    and head under its own committee index, the source and target under
    committee index 0 (the two ways the validator API asks), and its public
    key under both. *)
Theorem stored_attestation_found ho outcome expired d (set : gmap PubKey UnsignedDutyData) s s' pk a :
  duty_type d = Attester -> set !! pk = Some (UAttestation a) ->
  Forall (fun d => duty_type d <> Attester) expired ->
  store ho outcome expired d set s = (s', Ok tt) ->
  let sl := ad_slot (at_data a) in
  (exists x, await_turn (lookup_attestation sl (at_committee_index a)) s' = Some (Ok x) /\
     ad_source x = ad_source (at_data a) /\ ad_target x = ad_target (at_data a) /\
     ad_beacon_block_root x = ad_beacon_block_root (at_data a)) /\
  (exists x, await_turn (lookup_attestation sl 0) s' = Some (Ok x) /\
     ad_source x = ad_source (at_data a) /\ ad_target x = ad_target (at_data a)) /\
  pub_key_by_attestation sl (at_committee_index a) (at_validator_index a) s' = Ok pk /\
  pub_key_by_attestation sl 0 (at_validator_index a) s' = Ok pk.
Proof.
  intros Ht Hpk Hexp. unfold store. rewrite Ht. case_bool_decide as Hb; [done|].
  destruct outcome; try done.
  intros (s1 & [] & K1 & (s2 & [] & [= <-] & K3)%proc_bind_Ok)%proc_bind_Ok.
  destruct (store_set_attester_ok _ _ _ _ _ _ K1 Hpk) as ((x & Hx & ?) & (y & Hy & ?) & Hk & Hk0).
  destruct (evict_other_att expired (s1 <| attestation_notify ::= S |>) Hexp) as [Hd Hp].
  rewrite K3 in Hd, Hp. cbn in Hd, Hp.
  unfold await_turn, lookup_attestation, pub_key_by_attestation. rewrite Hd, Hp, Hx, Hy, Hk, Hk0. eauto 10.
Qed.

(** ** No lost wake-ups *)

(** What the queries of a kind of duty see, and the counter their waiters
    sleep on. *)
Definition same_view (t : DutyType) (s s' : Db) : Prop :=
  match t with
  | Proposer => proposer_duties s' = proposer_duties s /\
      max_evicted_proposer_slot s' = max_evicted_proposer_slot s
  | Attester => attestation_duties s' = attestation_duties s /\
      max_evicted_attestation_slot s' = max_evicted_attestation_slot s
  | Aggregator => aggregation_duties s' = aggregation_duties s
  | SyncContribution => contrib_duties s' = contrib_duties s /\
      max_evicted_contrib_slot s' = max_evicted_contrib_slot s
  | _ => True
  end.

Definition notify_of (t : DutyType) (s : Db) : nat :=
  match t with
  | Proposer => proposer_notify s
  | Attester => attestation_notify s
  | Aggregator => aggregation_notify s
  | SyncContribution => contrib_notify s
  | _ => 0
  end.

Lemma same_view_refl t s : same_view t s s.
Proof. by destruct t. Qed.

Lemma same_view_trans t s1 s2 s3 : same_view t s1 s2 -> same_view t s2 s3 -> same_view t s1 s3.
Proof. destruct t; cbn; intuition congruence. Qed.

(** A method that touches the views of one kind only, and no counter. *)
Definition only_view (t : DutyType) (s0 s : Db) : Prop :=
  (forall t', t' <> t -> same_view t' s0 s) /\ (forall t', notify_of t' s = notify_of t' s0).

Lemma only_view_refl t s : only_view t s s.
Proof. split; intros; [apply same_view_refl|done]. Qed.

Lemma only_view_step t s0 s s' :
  only_view t s0 s -> only_view t s s' -> only_view t s0 s'.
Proof.
  intros [V1 N1] [V2 N2]. split; intros t'.
  - intros Ht. eapply same_view_trans; [by apply V1|by apply V2].
  - by rewrite N2.
Qed.

Abbreviation keeps_only t m := (forall s0, keeps (only_view t s0) m).

Ltac only_view_tac :=
  eapply only_view_step; [eassumption|]; by split; [intros []|intros []].

Lemma store_set_only ho t set : keeps_only t (store_set ho t set).
Proof.
  intros s0. unfold store_set. destruct t; try apply keeps_fail.
  - case_bool_decide; [apply keeps_fail|].
    destruct (map_values ho set) as [|[] ?]; try apply keeps_fail; [apply keeps_ret|].
    apply keeps_get. intros s V. cbn.
    destruct (proposer_duties s !! _); [by case_bool_decide|]. only_view_tac.
  - apply keeps_for. intros [pk []] _; try apply keeps_fail. unfold store_attestation.
    assert (forall sl ds ci vi, keeps (only_view Attester s0) (store_att_pubkey sl ds ci vi pk)) as Hpk.
    { intros. apply keeps_get. intros s V. cbn.
      destruct (attestation_pub_keys s !! _); [by case_bool_decide|]. only_view_tac. }
    assert (forall sl ci x, keeps (only_view Attester s0) (store_att_data sl ci x)) as Hd.
    { intros. apply keeps_get. intros s V. cbn.
      destruct (attestation_duties s !! _); [by destruct (_ || _)|]. only_view_tac. }
    do 3 (apply keeps_bind; [apply Hpk || apply Hd|intros _]). apply keeps_get. intros s V. cbn.
    destruct (attestation_duties s !! _); [by destruct (_ || _)|]. only_view_tac.
  - apply keeps_for. intros [] _; try apply keeps_fail. apply keeps_bind; [apply keeps_lift|].
    intros x. apply keeps_get. intros s V. proc_simp. case_bool_decide; proc_simp; cbn; only_view_tac.
  - apply keeps_for. intros [] _; try apply keeps_fail. apply keeps_get. intros s V. cbn.
    destruct (contrib_duties s !! _); [by case_bool_decide|]. only_view_tac.
Qed.

Lemma delete_duty_only d : keeps_only (duty_type d) (delete_duty d).
Proof.
  intros s0 s V. unfold delete_duty. destruct (duty_type d); cbn; try done.
  - only_view_tac.
  - destruct (attestation_keys_by_slot s !! slot d); [|only_view_tac].
    eapply only_view_step; [exact V|]. split; intros []; cbn; by rewrite ?evict_att_same by done.
  - destruct (aggregation_keys_by_slot s !! slot d); [|done].
    eapply only_view_step; [exact V|]. split; intros []; cbn; try done;
      by rewrite ?(foldl_proj _ (fun a _ => a)), ?foldl_const by done.
  - destruct (contrib_keys_by_slot s !! slot d); [|only_view_tac].
    eapply only_view_step; [exact V|]. split; intros []; cbn; try done;
      by rewrite ?(foldl_proj _ (fun a _ => a)), ?foldl_const by done.
Qed.

(** The state of a kind after a method, given the state before: its view is the
    same or its waiters were woken. *)
Definition signalled (s0 s : Db) : Prop :=
  forall t, (same_view t s0 s /\ notify_of t s0 = notify_of t s) \/ (notify_of t s0 < notify_of t s)%nat.

Lemma signalled_refl s : signalled s s.
Proof. intros t. left. split; [apply same_view_refl|done]. Qed.

Lemma signalled_trans s1 s2 s3 : signalled s1 s2 -> signalled s2 s3 -> signalled s1 s3.
Proof.
  intros S1 S2 t. destruct (S1 t) as [[V1 N1]|N1], (S2 t) as [[V2 N2]|N2]; [|right; lia..].
  left. split; [by eapply same_view_trans|congruence].
Qed.

(** A change of one kind followed by its wake-up. *)
Lemma wake_signals t s0 s s' r :
  (t ∈ [Proposer; Attester; Aggregator; SyncContribution]) ->
  only_view t s0 s -> wake t s = (s', r) -> signalled s0 s'.
Proof.
  intros Ht [V N] Hw t'. destruct (decide (t' = t)) as [->|Hne].
  - right. rewrite <- (N t). repeat (apply elem_of_cons in Ht as [->|Ht]); [..|by apply elem_of_nil in Ht];
      injection Hw as <- <-; cbn; lia.
  - left. specialize (V t' Hne). specialize (N t'). destruct t; injection Hw as <- <-; by destruct t'.
Qed.

Lemma delete_duty_kind d s s' :
  delete_duty d s = (s', Ok tt) -> duty_type d ∈ [Proposer; Attester; Aggregator; SyncContribution].
Proof. unfold delete_duty. destruct (duty_type d); try done; intros _; set_solver. Qed.

Lemma store_set_kind ho t set s s' :
  store_set ho t set s = (s', Ok tt) -> t ∈ [Proposer; Attester; Aggregator; SyncContribution].
Proof. destruct t; try done; intros _; set_solver. Qed.

Lemma evict_expired_signals expired s s' :
  evict_expired expired s = (s', Ok tt) -> signalled s s'.
Proof.
  unfold evict_expired. revert s. induction expired as [|d expired IH]; intros s; cbn [p_for].
  { intros [= <-]. apply signalled_refl. }
  intros (s2 & [] & (s1 & [] & K1 & K2)%proc_bind_Ok & K3)%proc_bind_Ok.
  apply (signalled_trans _ s2); [|by apply IH].
  eapply wake_signals; [by eapply delete_duty_kind| |exact K2].
  pose proof (delete_duty_only d s s (only_view_refl _ s)) as Hd. by rewrite K1 in Hd.
Qed.

(** C26: no wake-up is lost.  After a store that succeeds, a query of any kind
    whose answer changed (new data, or an eviction that turns waiting into
    "expired") belongs to waiters whose [Notify] fired during the store. *)
Theorem waiters_are_woken ho outcome expired d (set : gmap PubKey UnsignedDutyData) s s' :
  store ho outcome expired d set s = (s', Ok tt) ->
  (forall sl, lookup_proposal sl s' <> lookup_proposal sl s -> (proposer_notify s < proposer_notify s')%nat) /\
  (forall sl ci, lookup_attestation sl ci s' <> lookup_attestation sl ci s ->
     (attestation_notify s < attestation_notify s')%nat) /\
  (forall root, lookup_agg_attestation root s' <> lookup_agg_attestation root s ->
     (aggregation_notify s < aggregation_notify s')%nat) /\
  (forall sl i root, lookup_sync_contribution sl i root s' <> lookup_sync_contribution sl i root s ->
     (contrib_notify s < contrib_notify s')%nat).
Proof.
  intros Hs. assert (signalled s s') as Hsig.
  { unfold store in Hs. case_bool_decide as Hb; [done|]. destruct outcome; try done.
    apply proc_bind_Ok in Hs as (s1 & [] & K1 & (s2 & [] & K2 & K3)%proc_bind_Ok).
    apply (signalled_trans _ s2); [|by eapply evict_expired_signals].
    eapply wake_signals; [by eapply store_set_kind| |exact K2].
    pose proof (store_set_only ho (duty_type d) set s s (only_view_refl _ s)) as Hd. by rewrite K1 in Hd. }
  unfold lookup_proposal, lookup_attestation, lookup_agg_attestation, lookup_sync_contribution. split_and!.
  - intros sl Hne. destruct (Hsig Proposer) as [[[V1 V2] _]|]; [|done]. by rewrite V1, V2 in Hne.
  - intros sl ci Hne. destruct (Hsig Attester) as [[[V1 V2] _]|]; [|done]. by rewrite V1, V2 in Hne.
  - intros root Hne. destruct (Hsig Aggregator) as [[V1 _]|]; [|done]. cbn in V1. by rewrite V1 in Hne.
  - intros sl i root Hne. destruct (Hsig SyncContribution) as [[[V1 V2] _]|]; [|done]. by rewrite V1, V2 in Hne.
Qed.
End facts.

(** ** A concrete database

    Roots, checkpoints and public keys are numbers, a proposal is its slot and
    root, an aggregate is its data. *)
Module Sample.
Abbreviation AD := (@AttData Z Z).
Abbreviation Prop2 := (Z * Z)%type.

Definition data : @DutyData Z Z Prop2 (option AD) Z := {|
  proposal_slot := fst; proposal_root := snd; agg_data := fun a => a;
  att_data_root := ad_beacon_block_root; contribution_root := sc_rest |}.
#[local] Existing Instance data.

Abbreviation SDb := (@Db Z Z Z Prop2 (option AD) Z _ _).
Abbreviation Unsigned := (@UnsignedDutyData Z Z Prop2 (option AD) Z).

Definition att (sl ci vi root : Z) : @Attestation Z Z := {|
  at_data := {| ad_slot := sl; ad_index := ci; ad_beacon_block_root := root; ad_source := 1; ad_target := 2 |};
  at_duty_slot := sl; at_committee_index := ci; at_validator_index := vi |}.

Definition duty (sl : Z) (t : DutyType) : Duty := {| slot := sl; duty_type := t |}.

(** Two validators of committee 3 attest in slot 7. *)
Definition atts : gmap Z Unsigned :=
  <[11 := UAttestation (att 7 3 0 5)]> (<[12 := UAttestation (att 7 3 1 5)]> ∅).

Definition db1 : SDb := fst (store default_order Scheduled [] (duty 7 Attester) atts db_new).

Lemma every_entry_evictable_witness :
  db_reachable db1 /\ is_Some (attestation_pub_keys db1 !! (7, 0, 1)) /\
  exists sl, attestation_pub_keys (fst (delete_duty (duty sl Attester) db1)) !! (7, 0, 1) = None.
Proof.
  assert (db_reachable db1) as Hr by (apply db_reach_store, db_reach_new).
  assert (is_Some (attestation_pub_keys db1 !! (7, 0, 1))) as Hs by (vm_compute; eauto).
  split; [exact Hr|split; [exact Hs|]].
  exact (proj1 (every_entry_evictable db1 Hr) (7, 0, 1) Hs).
Defined.

Lemma evicted_attestation_witness :
  pub_key_by_attestation 7 3 1 db1 = Ok 12 /\
  pub_key_by_attestation 7 3 1 (fst (delete_duty (duty 7 Attester) db1)) = Err (PubKeyNotFound 7 3 1).
Proof.
  split; [reflexivity|].
  refine (proj1 (evicted_attestation db1 (duty 7 Attester) [(7,3,0); (7,0,0); (7,3,1); (7,0,1)] 7 3 1 _ _ _ _)).
  - reflexivity.
  - vm_compute; reflexivity.
  - apply list_elem_of_In. cbn. tauto.
  - cbn. lia.
Defined.

Lemma stored_attestation_found_witness :
  pub_key_by_attestation 7 0 1 db1 = Ok 12.
Proof.
  refine (proj2 (proj2 (proj2 (stored_attestation_found default_order Scheduled [] (duty 7 Attester) atts
    db_new db1 12 (att 7 3 1 5) _ _ _ _)))).
  - reflexivity.
  - reflexivity.
  - constructor.
  - vm_compute; reflexivity.
Defined.

Lemma waiters_are_woken_witness :
  lookup_attestation 7 3 (db_new : SDb) = Pending /\ lookup_attestation 7 3 db1 <> Pending /\
  (attestation_notify (db_new : SDb) < attestation_notify db1)%nat.
Proof.
  assert (lookup_attestation 7 3 db1 <> Pending) as Hne by (by vm_compute).
  split; [reflexivity|split; [exact Hne|]].
  assert (store default_order Scheduled [] (duty 7 Attester) atts db_new = (db1, Ok tt)) as Hs
    by (vm_compute; reflexivity).
  exact (proj1 (proj2 (waiters_are_woken _ _ _ _ _ _ _ Hs)) 7 3 Hne).
Defined.

(** The second validator's attestation clashes with the first one's: another
    head for the same slot and committee. *)
Definition clashing : gmap Z Unsigned :=
  <[11 := UAttestation (att 7 3 0 5)]> (<[12 := UAttestation (att 7 3 1 6)]> ∅).

(** A store that fails half way stores without waking.  The first
    attestation is stored, so that a query for it would now be answered, the
    second one clashes and makes [store] return early: no [Notify] fires, and
    a waiter that was parked before stays parked. *)
Theorem failed_store_wakes_nobody :
  let '(s', r) := store default_order Scheduled [] (duty 7 Attester) clashing (db_new : SDb) in
  r = Err (ClashingAttestationData 7 3) /\
  await_turn (lookup_attestation 7 3) (db_new : SDb) = None /\
  (exists v, await_turn (lookup_attestation 7 3) s' = Some (Ok v)) /\
  attestation_notify s' = attestation_notify (db_new : SDb).
Proof. vm_compute. split_and!; eauto. Qed.

(** A duty of a kind the database does not hold poisons a later store.
    Storing a randao duty is refused, but only after the deadliner was asked to
    watch it; when it expires, the next store, of an unrelated attester duty,
    stores its data and then fails on the eviction, and the expired duties
    behind it are not evicted. *)
Theorem foreign_duty_fails_later_store :
  store default_order Scheduled [] (duty 6 Randao) ∅ (db_new : SDb) = (db_new, Err UnsupportedDutyType) /\
  let '(s', r) := store default_order Scheduled [duty 6 Randao; duty 7 Attester] (duty 8 Attester)
    (<[11 := UAttestation (att 8 3 0 5)]> ∅) db1 in
  r = Err UnknownDutyType /\
  (exists v, await_turn (lookup_attestation 8 3) s' = Some (Ok v)) /\
  (exists v, await_turn (lookup_attestation 7 3) s' = Some (Ok v)).
Proof. vm_compute. split_and!; eauto. Qed.
End Sample.
