(* ===== verification/ParSigDb.v ===== *)
(** * The database of partial signatures

    [crates/core/src/parsigdb/memory.rs]: shares of the cluster's nodes are
    collected per duty and validator; when a threshold of them agree on a
    message root, they are handed to the threshold subscribers. *)

From S2P Require Import Prelude Types.

Open Scope Z_scope.

Section parsigdb.
Context {PubKey D Root Sig SDError : Type}.
Context `{Countable PubKey, EqDecision D, Countable Root}.
Context {SD : SignedData D Root Sig SDError}.

(** [MemDBError]; an [InternalSubscriberError] carries an opaque source. *)
Inductive MemDBError :=
| ParsigDataMismatch (pubkey : PubKey) (share_idx : Z)
| SignedDataError (e : SDError)
| InternalSubscriber.

Abbreviation PSD := (ParSignedData D).
Abbreviation Key := (Duty * PubKey)%type.
Abbreviation ParSignedDataSet := (gmap PubKey PSD).
Abbreviation Output := (gmap PubKey (list PSD)).

(** What a subscriber answers to a call. *)
Abbreviation InternalSub := (Duty -> ParSignedDataSet -> res MemDBError unit).
Abbreviation ThreshSub := (Duty -> Output -> res MemDBError unit).

(** [MemDBInner], and what the database did to its surroundings: the duties it
    asked the deadliner to watch and the calls it made to subscribers. *)
Record MemDB := {
  internal_subs : list InternalSub;
  thresh_subs : list ThreshSub;
  entries : gmap Key (list PSD);
  keys_by_duty : gmap Duty (list Key);
  deadliner_adds : list Duty;
  internal_calls : list (Duty * ParSignedDataSet);
  thresh_calls : list (Duty * Output);
}.

Definition memdb_new : MemDB := {|
  internal_subs := []; thresh_subs := []; entries := ∅; keys_by_duty := ∅;
  deadliner_adds := []; internal_calls := []; thresh_calls := [] |}.

Abbreviation Proc := (proc MemDB MemDBError).

Definition subscribe_internal (sub : InternalSub) : Proc unit :=
  p_modify (fun s => s <| internal_subs ::= fun l => l ++ [sub] |>).

Definition subscribe_threshold (sub : ThreshSub) : Proc unit :=
  p_modify (fun s => s <| thresh_subs ::= fun l => l ++ [sub] |>).

Inductive StoreOutcome :=
| Duplicate
| Stored
| Threshold (psigs : list PSD).

(** The loop of [get_threshold_matching] that groups shares by root. *)
Fixpoint group_by_root (sigs : list PSD) (acc : gmap Root (list PSD))
    : res MemDBError (gmap Root (list PSD)) :=
  match sigs with
  | [] => Ok acc
  | sig :: sigs =>
    match message_root (signed_data sig) with
    | Ok root => group_by_root sigs (push_at root sig acc)
    | Err e => Err (SignedDataError e)
    | Panic => Panic
    end
  end.

Definition get_threshold_matching (ho : HashOrder) (typ : DutyType) (sigs : list PSD) (threshold : Z)
    : res MemDBError (option (list PSD)) :=
  if len sigs <? threshold then Ok None
  else if bool_decide (typ = Signature) then
    if len sigs =? threshold then Ok (Some sigs) else Ok None
  else
    groups ← group_by_root sigs ∅;
    Ok (snd <$> list_find (fun set => len set = threshold) (map_values ho groups)).

(** The scan for a share of the same node: nothing to store, a conflict, or a
    new share. *)
Fixpoint find_share (existing : list PSD) (value : PSD) : option PSD :=
  match existing with
  | [] => None
  | s :: existing => if share_idx s =? share_idx value then Some s else find_share existing value
  end.

Definition store (ho : HashOrder) (threshold : Z) (k : Key) (value : PSD) : Proc StoreOutcome :=
  s ← p_get;
  match find_share (default [] (entries s !! k)) value with
  | Some s =>
    if bool_decide (s = value) then mret Duplicate
    else p_fail (ParsigDataMismatch k.2 (share_idx value))
  | None =>
    p_modify (fun s => s <| entries ::= push_at k value |> <| keys_by_duty ::= push_at k.1 k |>) ;;
    s ← p_get;
    o ← p_lift (get_threshold_matching ho (duty_type k.1) (default [] (entries s !! k)) threshold);
    mret (match o with Some psigs => Threshold psigs | None => Stored end)
  end.

(** The loop of [store_external] over the shares of a set. *)
Fixpoint store_all (ho : HashOrder) (threshold : Z) (duty : Duty) (l : list (PubKey * PSD)) (output : Output)
    : Proc Output :=
  match l with
  | [] => mret output
  | (pub_key, par_signed) :: l =>
    outcome ← store ho threshold (duty, pub_key) par_signed;
    store_all ho threshold duty l
      (match outcome with Threshold psigs => <[pub_key := psigs]> output | _ => output end)
  end.

Definition store_external (ho : HashOrder) (threshold : Z) (duty : Duty) (signed_set : ParSignedDataSet)
    : Proc unit :=
  p_modify (fun s => s <| deadliner_adds ::= fun l => l ++ [duty] |>) ;;
  output ← store_all ho threshold duty (ho_list ho signed_set) ∅;
  if bool_decide (output = ∅) then mret tt
  else
    s ← p_get;
    p_for (thresh_subs s) (fun sub =>
      p_modify (fun s => s <| thresh_calls ::= fun l => l ++ [(duty, output)] |>) ;;
      p_lift (sub duty output)).

Definition store_internal (ho : HashOrder) (threshold : Z) (duty : Duty) (signed_set : ParSignedDataSet)
    : Proc unit :=
  store_external ho threshold duty signed_set ;;
  s ← p_get;
  p_for (internal_subs s) (fun sub =>
    p_modify (fun s => s <| internal_calls ::= fun l => l ++ [(duty, signed_set)] |>) ;;
    p_lift (sub duty signed_set)).

(** One turn of [trim]'s loop, for an expired duty. *)
Definition trim_duty (duty : Duty) (s : MemDB) : MemDB :=
  (foldl (fun s key => s <| entries ::= delete key |>) s (default [] (keys_by_duty s !! duty)))
    <| keys_by_duty ::= delete duty |>.
End parsigdb.

(** ** What the database guarantees *)

Section facts.
Context {PubKey D Root Sig SDError : Type}.
Context `{Countable PubKey, EqDecision D, Countable Root}.
Context {SD : SignedData D Root Sig SDError}.
Abbreviation PSD := (ParSignedData D).
Abbreviation MemDB := (@MemDB PubKey D SDError _ _).
Implicit Types (s : MemDB) (k : Duty * PubKey) (v : PSD).

(** The shares that sign root [r]. *)
Definition has_root (r : Root) (v : PSD) : bool :=
  match message_root (signed_data v) with Ok r' => bool_decide (r = r') | _ => false end.
Abbreviation with_root r l := (filter (fun v => has_root r v = true) l).

Lemma has_root_true r v : has_root r v = true <-> message_root (signed_data v) = Ok r.
Proof.
  unfold has_root. destruct (message_root (signed_data v)); [|done..]. rewrite bool_decide_eq_true.
  naive_solver.
Qed.

Lemma group_by_root_spec sigs acc g :
  group_by_root (PubKey := PubKey) sigs acc = Ok g ->
  forall r, default [] (g !! r) = default [] (acc !! r) ++ with_root r sigs.
Proof.
  revert acc. induction sigs as [|v sigs IH]; intros acc; cbn [group_by_root].
  { intros [= <-] r. cbn. by rewrite app_nil_r. }
  destruct (message_root (signed_data v)) as [r0| |] eqn:Er; [|done..].
  intros Hg r. rewrite (IH _ Hg r), default_push_at, filter_cons.
  destruct (decide (r0 = r)) as [->|Hne].
  - rewrite decide_True by (by apply has_root_true). by rewrite <- app_assoc.
  - rewrite decide_False; [done|]. rewrite has_root_true, Er. congruence.
Qed.

(** The groups are the shares of their root, none is empty. *)
Lemma group_lookup sigs g r l :
  group_by_root (PubKey := PubKey) sigs ∅ = Ok g -> g !! r = Some l -> l = with_root r sigs.
Proof. intros Hg Hl. pose proof (group_by_root_spec _ _ _ Hg r) as E. by rewrite Hl, lookup_empty in E. Qed.

Lemma group_found ho sigs g r :
  group_by_root (PubKey := PubKey) sigs ∅ = Ok g -> with_root r sigs <> [] ->
  with_root r sigs ∈ map_values ho g.
Proof.
  intros Hg Hne. pose proof (group_by_root_spec _ _ _ Hg r) as E. rewrite lookup_empty in E. cbn in E.
  destruct (g !! r) as [l|] eqn:El; cbn in E; [|by rewrite <- E in Hne]. rewrite <- E.
  apply list_elem_of_fmap. exists (r, l). split; [done|]. rewrite (ho_perm ho g).
  by apply elem_of_map_to_list.
Qed.

Lemma in_map_values ho (g : gmap Root (list PSD)) l : l ∈ map_values ho g -> exists r, g !! r = Some l.
Proof.
  intros ([r l'] & -> & Hin)%list_elem_of_fmap. exists r. rewrite (ho_perm ho g) in Hin.
  by apply elem_of_map_to_list.
Qed.

(** A set handed to the threshold subscribers: a threshold of shares of
    distinct nodes which, for every duty but plain signatures, sign the same
    root. *)
Record threshold_set (th : Z) (typ : DutyType) (ps : list PSD) : Prop := {
  ts_size : len ps = th;
  ts_distinct : NoDup (share_idx <$> ps);
  ts_root : typ <> Signature -> exists r, Forall (fun v => message_root (signed_data v) = Ok r) ps;
}.

Lemma matching_sound ho typ sigs th ps :
  NoDup (share_idx <$> sigs) ->
  get_threshold_matching (PubKey := PubKey) ho typ sigs th = Ok (Some ps) ->
  threshold_set th typ ps /\ ps `sublist_of` sigs.
Proof.
  unfold get_threshold_matching. intros Hnd. destruct (len sigs <? th); [done|].
  case_bool_decide as Ht.
  { destruct (Z.eqb_spec (len sigs) th); [|done]. intros [= <-]. by split. }
  intros (g & Hg & [= Hf])%res_bind_Ok.
  apply fmap_Some in Hf as ([i l] & Hf & ->). apply list_find_Some in Hf as (Hl & Hlen & _). cbn.
  apply list_elem_of_lookup_2, in_map_values in Hl as [r Hr]. rewrite (group_lookup _ _ _ _ Hg Hr) in *.
  assert (with_root r sigs `sublist_of` sigs) as Hsub by apply sublist_filter. split; [|done].
  split; [done| |].
  - eapply sublist_NoDup; [exact Hnd|]. by apply fmap_sublist.
  - intros _. exists r. apply list.Forall_forall. intros v [Hv _]%list_elem_of_filter. by apply has_root_true.
Qed.

(** ** Invariant *)

Record memdb_inv (s : MemDB) : Prop := {
  inv_shares : forall k l, entries s !! k = Some l -> NoDup (share_idx <$> l);
  inv_listed : forall k, is_Some (entries s !! k) -> k ∈ default [] (keys_by_duty s !! k.1);
  inv_duty : forall d k, k ∈ default [] (keys_by_duty s !! d) -> k.1 = d;
  inv_added : forall k, is_Some (entries s !! k) -> k.1 ∈ deadliner_adds s;
}.

Lemma memdb_new_inv : memdb_inv memdb_new.
Proof.
  split; cbn.
  - intros k l Hl. by rewrite lookup_empty in Hl.
  - intros k [l Hl]. by rewrite lookup_empty in Hl.
  - intros d k. rewrite lookup_empty. cbn. by intros ?%elem_of_nil.
  - intros k [l Hl]. by rewrite lookup_empty in Hl.
Qed.

Lemma find_share_None l v : find_share l v = None <-> share_idx v ∉ share_idx <$> l.
Proof.
  induction l as [|x l IH]; cbn; [split; [intros _; apply not_elem_of_nil|done]|].
  destruct (Z.eqb_spec (share_idx x) (share_idx v)); set_solver.
Qed.

Lemma find_share_Some l v x : find_share l v = Some x -> x ∈ l /\ share_idx x = share_idx v.
Proof.
  induction l as [|y l IH]; cbn; [done|].
  destruct (Z.eqb_spec (share_idx y) (share_idx v)); [intros [= ->]|]; set_solver.
Qed.

(** The state [store] leaves, by branch. *)
Lemma store_cases ho th k v s :
  let l := default [] (entries s !! k) in
  match find_share l v with
  | Some x => store ho th k v s =
      (s, if bool_decide (x = v) then Ok Duplicate else Err (ParsigDataMismatch k.2 (share_idx v)))
  | None => store ho th k v s =
      (s <| entries ::= push_at k v |> <| keys_by_duty ::= push_at k.1 k |>,
       o ← get_threshold_matching ho (duty_type k.1) (l ++ [v]) th;
       Ok (match o with Some ps => Threshold ps | None => Stored end))
  end.
Proof.
  cbn. unfold store. proc_simp. destruct (find_share _ v) as [x|]; [by case_bool_decide|].
  proc_simp. cbn. rewrite default_push_at, decide_True by done.
  by destruct (get_threshold_matching _ _ _ _).
Qed.

Lemma parsig_store_inv ho th k v s :
  k.1 ∈ deadliner_adds s -> memdb_inv s -> memdb_inv (fst (store ho th k v s)).
Proof.
  intros Hk I. pose proof (store_cases ho th k v s) as Hc. cbn in Hc.
  destruct (find_share _ v) eqn:Ef; rewrite Hc; [done|]. destruct I as [I1 I2 I3 I4].
  apply find_share_None in Ef. split; cbn.
  - intros k' l [[-> ->]|[_ Hl]]%lookup_push_at; [|by eapply I1].
    rewrite fmap_app. apply NoDup_app. split_and!; [|set_solver|apply NoDup_singleton].
    destruct (entries s !! k) as [l|] eqn:El; cbn; [by eapply I1|constructor].
  - intros k' [l Hl%lookup_push_at]. rewrite default_push_at.
    destruct Hl as [[-> _]|[_ Hl]]; [rewrite decide_True by done; set_solver|].
    specialize (I2 k' ltac:(eauto)). case_decide as E; [|done]. rewrite E. set_solver.
  - intros d k'. rewrite default_push_at. case_decide; [|apply I3].
    intros [Hin|Hin%list_elem_of_singleton]%elem_of_app; [|by subst]. subst. by apply I3.
  - intros k' [l [[-> _]|[_ Hl]]%lookup_push_at]; [done|]. by eauto.
Qed.

Lemma store_adds ho th k v s : deadliner_adds (fst (store ho th k v s)) = deadliner_adds s.
Proof.
  pose proof (store_cases ho th k v s) as Hc. cbn in Hc. by destruct (find_share _ v); rewrite Hc.
Qed.

Lemma store_sound ho th k v s s' ps :
  memdb_inv s -> store ho th k v s = (s', Ok (Threshold ps)) ->
  threshold_set th (duty_type k.1) ps /\ ps `sublist_of` default [] (entries s' !! k).
Proof.
  intros I Hs. pose proof (store_cases ho th k v s) as Hc. cbn in Hc.
  destruct (find_share _ v) eqn:Ef; rewrite Hc in Hs; [by case_bool_decide|].
  injection Hs as <- Hr. apply res_bind_Ok in Hr as ([ps'|] & Hm & Hr); [|done]. injection Hr as ->.
  cbn. rewrite default_push_at, decide_True by done. eapply matching_sound; [|exact Hm].
  apply find_share_None in Ef. rewrite fmap_app. apply NoDup_app.
  split_and!; [|set_solver|apply NoDup_singleton].
  destruct (entries s !! k) as [l|] eqn:El; cbn; [by eapply inv_shares|constructor].
Qed.

(** ** Reachable databases *)

Section reachable.
Context (th : Z).

Definition good_output (d : Duty) (out : gmap PubKey (list PSD)) : Prop :=
  forall pk ps, out !! pk = Some ps -> threshold_set th (duty_type d) ps.

Record db_ok (s : MemDB) : Prop := {
  ok_inv : memdb_inv s;
  ok_calls : forall d out, (d, out) ∈ thresh_calls s -> out <> ∅ /\ good_output d out;
}.

Lemma store_ok ho k v s : k.1 ∈ deadliner_adds s -> db_ok s -> db_ok (fst (store ho th k v s)).
Proof.
  intros Hk [I C]. split; [by apply parsig_store_inv|]. pose proof (store_cases ho th k v s) as Hc. cbn in Hc.
  by destruct (find_share _ v); rewrite Hc.
Qed.

Lemma store_all_ok ho d l out s :
  d ∈ deadliner_adds s -> db_ok s -> good_output d out ->
  match store_all ho th d l out s with
  | (s', Ok out') => db_ok s' /\ good_output d out'
  | (s', _) => db_ok s'
  end.
Proof.
  revert out s. induction l as [|[pk v] l IH]; intros out s Hd Hok Hout; [done|].
  cbn [store_all]. unfold mbind, proc_bind.
  pose proof (store_ok ho (d, pk) v s Hd Hok) as Hok1. pose proof (store_adds ho th (d, pk) v s) as Hadds.
  destruct (store ho th (d, pk) v s) as [s1 [o|e|]] eqn:Hs; cbn in Hok1, Hadds; [|done..].
  apply IH; [by rewrite Hadds|done|]. destruct o as [| |ps]; [done..|].
  intros pk' ps' [[<- <-]|[_ Hl]]%lookup_insert_Some; [|by eapply Hout].
  by eapply store_sound in Hs as [? _]; [|apply Hok].
Qed.

Lemma store_external_ok ho d set : keeps db_ok (store_external ho th d set).
Proof.
  intros s [I C]. unfold store_external. proc_simp. cbn.
  set (s0 := s <| deadliner_adds ::= fun l => l ++ [d] |>).
  assert (db_ok s0) as Hok0.
  { destruct I as [I1 I2 I3 I4]. split; [|done]. split; cbn; [done..|]. intros k Hk.
    apply elem_of_app. left. by apply I4. }
  assert (d ∈ deadliner_adds s0) as Hd by (cbn; set_solver).
  pose proof (store_all_ok ho d (ho_list ho set) ∅ s0 Hd Hok0) as Hall.
  unfold mbind at 1, proc_bind at 1.
  destruct (store_all _ _ _ _ _ _) as [s1 [out|e|]]; [|apply Hall; intros ? ? Hl; by rewrite lookup_empty in Hl..].
  destruct Hall as [Hok1 Hout]; [intros ? ? Hl; by rewrite lookup_empty in Hl|].
  case_bool_decide as Hne; [done|]. proc_simp. apply keeps_for; [|done]. intros sub _.
  apply keeps_bind; [|intros _; apply keeps_lift].
  intros s2 [I2 C2]. split; [by destruct I2|]. cbn.
  intros d' out' [Hin|[= -> ->]%list_elem_of_singleton]%elem_of_app; [by apply C2|done].
Qed.

Lemma store_internal_ok ho d set : keeps db_ok (store_internal ho th d set).
Proof.
  apply keeps_bind; [apply store_external_ok|]. intros _. apply keeps_get. intros s Hok.
  apply keeps_for; [|done]. intros sub _. apply keeps_bind; [|intros _; apply keeps_lift].
  intros s2 [[I1 I2 I3 I4] C2]. by split.
Qed.

Lemma trim_fields {A} (π : MemDB -> A) keys s :
  (forall s key, π (s <| entries ::= delete key |>) = π s) ->
  π (foldl (fun s key => s <| entries ::= delete key |>) s keys) = π s.
Proof. intros Hπ. revert s. induction keys as [|k keys IH]; intros s; cbn; [done|]. by rewrite IH. Qed.

Lemma trim_entries keys s k l :
  entries (foldl (fun s key => s <| entries ::= delete key |>) s keys) !! k = Some l <->
  (k ∉ keys) /\ entries s !! k = Some l.
Proof.
  revert s. induction keys as [|k0 keys IH]; intros s; cbn [foldl].
  - split; [intros ?; split; [apply not_elem_of_nil|done]|by intros [_ ?]].
  - rewrite IH. cbn. rewrite lookup_delete_Some, not_elem_of_cons. naive_solver.
Qed.

Lemma trim_lookup d s k l :
  memdb_inv s -> entries (trim_duty d s) !! k = Some l <-> k.1 <> d /\ entries s !! k = Some l.
Proof.
  intros [I1 I2 I3 I4]. unfold trim_duty. cbn. rewrite trim_entries. split; intros [Hk Hl]; (split; [|done]).
  - intros <-. apply Hk, I2. eauto.
  - by intros ?%I3.
Qed.

Lemma parsig_trim_inv d s : memdb_inv s -> memdb_inv (trim_duty d s).
Proof.
  intros I. pose proof (fun k l => trim_lookup d s k l I) as Ht. destruct I as [I1 I2 I3 I4].
  assert (keys_by_duty (trim_duty d s) = delete d (keys_by_duty s)) as Hkeys.
  { unfold trim_duty. cbn. by rewrite (trim_fields keys_by_duty). }
  split; rewrite ?Hkeys.
  - intros k l [_ Hl]%Ht. by eapply I1.
  - intros k [l [Hne Hl]%Ht]. rewrite lookup_delete_ne by done. eauto.
  - intros d' k. rewrite lookup_delete. case_decide; cbn; [by intros ?%elem_of_nil|apply I3].
  - intros k [l [Hne Hl]%Ht]. unfold trim_duty. cbn. rewrite (trim_fields deadliner_adds) by done. eauto.
Qed.

Lemma trim_ok d s : db_ok s -> db_ok (trim_duty d s).
Proof.
  intros [I C]. split; [by apply parsig_trim_inv|]. unfold trim_duty. cbn.
  by rewrite (trim_fields thresh_calls).
Qed.

(** The databases a node can have with threshold [th]: any sequence of calls,
    whatever they return and whatever the subscribers answer. *)
Inductive reachable : MemDB -> Prop :=
| reach_new : reachable memdb_new
| reach_internal_sub sub s : reachable s -> reachable (fst (subscribe_internal sub s))
| reach_thresh_sub sub s : reachable s -> reachable (fst (subscribe_threshold sub s))
| reach_external ho d set s : reachable s -> reachable (fst (store_external ho th d set s))
| reach_internal ho d set s : reachable s -> reachable (fst (store_internal ho th d set s))
| reach_trim d s : reachable s -> reachable (trim_duty d s).

Lemma reachable_ok s : reachable s -> db_ok s.
Proof.
  induction 1 as [|sub s _ [[I1 I2 I3 I4] C]|sub s _ [[I1 I2 I3 I4] C]|ho d set s _ IH|ho d set s _ IH|d s _ IH].
  - split; [apply memdb_new_inv|]. intros d out Hin. by apply elem_of_nil in Hin.
  - by split.
  - by split.
  - by apply store_external_ok.
  - by apply store_internal_ok.
  - by apply trim_ok.
Qed.

(** What the threshold subscribers are given.  Every set of partial
    signatures the database ever hands out holds, for each validator, exactly
    a threshold of shares, from distinct nodes, and (but for plain signatures,
    which have no root) all of them sign the same message root. *)
Theorem subscribers_get_threshold_sets s d out pk ps :
  reachable s -> (d, out) ∈ thresh_calls s -> out !! pk = Some ps ->
  len ps = th /\ NoDup (share_idx <$> ps) /\
  (duty_type d <> Signature -> exists r, Forall (fun v => message_root (signed_data v) = Ok r) ps).
Proof. intros Hr Hin Hpk. apply (ok_calls _ (reachable_ok s Hr)) in Hin as [_ Hout]. by destruct (Hout pk ps Hpk). Qed.

(** Expiry removes exactly the shares of the expired duty, and every duty
    with stored shares was handed to the deadliner. *)
Theorem trim_removes_duty s d k :
  reachable s ->
  (entries (trim_duty d s) !! k = if decide (k.1 = d) then None else entries s !! k) /\
  (is_Some (entries s !! k) -> k.1 ∈ deadliner_adds s).
Proof.
  intros [I _]%reachable_ok. split; [|by apply inv_added].
  pose proof (fun l => trim_lookup d s k l I) as Ht. case_decide as Hd; apply option_eq; intros l; rewrite Ht.
  - split; [by intros [? _]|done].
  - split; [by intros [_ ?]|done].
Qed.
End reachable.

(** ** When the threshold is reached *)

(** Two roots have disjoint groups. *)
Lemma groups_disjoint r r' l :
  r <> r' -> (length (with_root r l) + length (with_root r' l) <= length l)%nat.
Proof.
  intros Hne. induction l as [|v l IH]; [cbn; lia|]. rewrite !filter_cons.
  destruct (decide (has_root r v = true)) as [Hr|_], (decide (has_root r' v = true)) as [Hr'|_]; cbn; try lia.
  apply has_root_true in Hr, Hr'. congruence.
Qed.

(** The set the loop finds is a group. *)
Lemma found_group ho sigs g th i x :
  group_by_root (PubKey := PubKey) sigs ∅ = Ok g ->
  list_find (fun set => len set = th) (map_values ho g) = Some (i, x) ->
  exists r, x = with_root r sigs /\ len (with_root r sigs) = th.
Proof.
  intros Hg (Hl & Hlen & _)%list_find_Some. apply list_elem_of_lookup_2, in_map_values in Hl as [r Hr].
  rewrite (group_lookup _ _ _ _ Hg Hr) in *. eauto.
Qed.

Lemma matching_complete ho typ sigs th r g :
  typ <> Signature -> group_by_root (PubKey := PubKey) sigs ∅ = Ok g -> 0 < th ->
  len (with_root r sigs) = th -> len sigs < 2 * th ->
  get_threshold_matching (PubKey := PubKey) ho typ sigs th = Ok (Some (with_root r sigs)).
Proof.
  intros Ht Hg Hth Hr Hn. unfold get_threshold_matching.
  assert (len (with_root r sigs) <= len sigs) as Hle.
  { unfold len. pose proof (sublist_length _ _ (sublist_filter (fun v => has_root r v = true) sigs)). lia. }
  destruct (Z.ltb_spec (len sigs) th); [lia|]. case_bool_decide; [done|]. rewrite Hg. cbn.
  assert (with_root r sigs ∈ map_values ho g) as Hin.
  { apply group_found; [done|]. intros E. rewrite E in Hr. unfold len in Hr. cbn in Hr. lia. }
  destruct (list_find (fun set => len set = th) (map_values ho g)) as [[i l]|] eqn:Ef; cbn.
  - destruct (found_group _ _ _ _ _ _ Hg Ef) as (r' & -> & Hlen).
    destruct (decide (r = r')) as [->|Hne]; [done|].
    pose proof (groups_disjoint r r' sigs Hne). unfold len in *. lia.
  - apply list_find_None in Ef. rewrite list.Forall_forall in Ef. by destruct (Ef _ Hin).
Qed.

(** Grouping succeeds when every share has a root. *)
Lemma group_by_root_total sigs acc :
  Forall (fun v => exists r, message_root (signed_data v) = Ok r) sigs ->
  exists g, group_by_root (PubKey := PubKey) sigs acc = Ok g.
Proof.
  intros Hall. revert acc. induction Hall as [|v sigs [r Hr] _ IH]; intros acc; cbn; [eauto|]. by rewrite Hr.
Qed.

(** A threshold of matching shares is noticed.  When a share is stored and
    the stored shares for its root are now exactly a threshold, the outcome is
    that threshold set, however the hash map is ordered and whatever other
    nodes signed, as long as fewer than two thresholds of shares are stored
    (a cluster has fewer nodes than that). *)
Theorem threshold_noticed ho th k v s r :
  duty_type k.1 <> Signature -> 0 < th ->
  let l := default [] (entries s !! k) ++ [v] in
  find_share (default [] (entries s !! k)) v = None ->
  Forall (fun v => exists r, message_root (signed_data v) = Ok r) l ->
  len (filter (fun v => has_root r v = true) l) = th -> len l < 2 * th ->
  snd (store ho th k v s) = Ok (Threshold (filter (fun v => has_root r v = true) l)).
Proof.
  intros Ht Hth l Hf Hall Hr Hn. pose proof (store_cases ho th k v s) as Hc. cbn in Hc. fold l in Hc.
  rewrite Hf in Hc. rewrite Hc. cbn. destruct (group_by_root_total l ∅ Hall) as [g Hg].
  by erewrite matching_complete.
Qed.

(** Storing shares one after the other. *)
Fixpoint store_shares (ho : HashOrder) (th : Z) (k : Duty * PubKey) (vs : list PSD)
    : proc MemDB MemDBError (list StoreOutcome) :=
  match vs with
  | [] => mret []
  | v :: vs => o ← store ho th k v; os ← store_shares ho th k vs; mret (o :: os)
  end.

Lemma with_root_all r l :
  Forall (fun v => message_root (signed_data v) = Ok r) l -> with_root r l = l.
Proof.
  induction 1 as [|v l Hv _ IH]; [done|]. rewrite filter_cons, decide_True, IH; [done|].
  by apply has_root_true.
Qed.

(** If all shares sign one root there is one group. *)
Lemma single_group r r' l :
  Forall (fun v => message_root (signed_data v) = Ok r) l -> 0 < len (with_root r' l) ->
  with_root r' l = l.
Proof.
  intros Hall Hpos. destruct (decide (r = r')) as [<-|Hne]; [by apply with_root_all|].
  pose proof (groups_disjoint r r' l Hne) as Hd. rewrite (with_root_all r l Hall) in Hd.
  unfold len in Hpos. lia.
Qed.

(** One more share of a single root. *)
Lemma store_same_root ho th k v s r :
  let l := default [] (entries s !! k) in
  0 < th -> Forall (fun v => message_root (signed_data v) = Ok r) (l ++ [v]) ->
  NoDup (share_idx <$> l ++ [v]) ->
  store ho th k v s = (s <| entries ::= push_at k v |> <| keys_by_duty ::= push_at k.1 k |>,
    Ok (if len (l ++ [v]) =? th then Threshold (l ++ [v]) else Stored)).
Proof.
  intros l Hth Hall Hnd. pose proof (store_cases ho th k v s) as Hc. cbn in Hc. fold l in Hc.
  destruct (find_share l v) eqn:Ef.
  { apply find_share_Some in Ef as [Hin Hi]. rewrite fmap_app, NoDup_app in Hnd.
    destruct Hnd as (_ & Hd & _). exfalso. apply (Hd (share_idx v)); [|set_solver].
    rewrite <- Hi. by apply list_elem_of_fmap_2. }
  rewrite Hc. f_equal. destruct (group_by_root_total (l ++ [v]) ∅) as [g Hg].
  { eapply Forall_impl; [exact Hall|]. intros x Hx. by exists r. }
  unfold get_threshold_matching.
  destruct (Z.ltb_spec (len (l ++ [v])) th) as [Hlt|Hge].
  { cbn. by destruct (Z.eqb_spec (len (l ++ [v])) th); [lia|]. }
  case_bool_decide; [by destruct (_ =? _)|]. rewrite Hg. cbn.
  destruct (Z.eqb_spec (len (l ++ [v])) th) as [Heq|Hne].
  - assert (l ++ [v] ∈ map_values ho g) as Hin.
    { rewrite <- (with_root_all r _ Hall). apply group_found; [done|].
      rewrite with_root_all by done. by destruct l. }
    destruct (list_find _ _) as [[i x]|] eqn:El; cbn.
    + destruct (found_group _ _ _ _ _ _ Hg El) as (r' & -> & Hlen).
      by rewrite (single_group r r' (l ++ [v])) by (done || lia).
    + apply list_find_None in El. rewrite list.Forall_forall in El. by destruct (El _ Hin).
  - destruct (list_find _ _) as [[i x]|] eqn:El; cbn; [|done].
    destruct (found_group _ _ _ _ _ _ Hg El) as (r' & -> & Hlen).
    by rewrite (single_group r r' (l ++ [v])) in Hlen by (done || lia).
Qed.

(** The state after storing shares of one validator. *)
Lemma store_shares_same_root ho th k vs s r l :
  default [] (entries s !! k) = l -> 0 < th ->
  Forall (fun v => message_root (signed_data v) = Ok r) (l ++ vs) -> NoDup (share_idx <$> l ++ vs) ->
  exists s', store_shares ho th k vs s = (s', Ok (imap (fun i _ =>
      if len l + Z.of_nat i + 1 =? th then Threshold (l ++ take (S i) vs) else Stored) vs)) /\
    default [] (entries s' !! k) = l ++ vs.
Proof.
  intros Hl Hth. revert s l Hl. induction vs as [|v vs IH]; intros s l Hl Hall Hnd.
  { exists s. split; [done|]. by rewrite app_nil_r. }
  rewrite cons_middle, app_assoc in Hall, Hnd.
  pose proof (store_same_root ho th k v s r) as Hs. cbn in Hs. rewrite Hl in Hs.
  specialize (Hs Hth (proj1 (proj1 (Forall_app _ _ _) Hall))).
  assert (NoDup (share_idx <$> l ++ [v])) as Hnd1.
  { rewrite fmap_app in Hnd. by apply NoDup_app in Hnd as [? _]. }
  specialize (Hs Hnd1). destruct (IH (s <| entries ::= push_at k v |> <| keys_by_duty ::= push_at k.1 k |>)
    (l ++ [v])) as (s' & Hrun & Hs'); [|done|done|].
  { cbn. by rewrite default_push_at, decide_True, Hl. }
  exists s'. rewrite Hs', <- app_assoc. split; [|done]. cbn [store_shares].
  unfold mbind at 1, proc_bind at 1.
  rewrite Hs.
  unfold mbind, proc_bind. rewrite Hrun. unfold mret, proc_ret. rewrite imap_cons.
  assert (len (l ++ [v]) = len l + 1) as Hlen by (unfold len; rewrite length_app; cbn; lia).
  do 3 f_equal.
  - rewrite Hlen. by replace (len l + Z.of_nat 0 + 1) with (len l + 1) by lia.
  - apply imap_ext. intros i x _. cbn. rewrite <- app_assoc, Hlen.
    by replace (len l + 1 + Z.of_nat i + 1) with (len l + Z.of_nat (S i) + 1) by lia.
Qed.

(** C18: the threshold fires exactly once.  When the nodes agree on the root
    and their shares arrive one by one, in any order, the first threshold of
    shares is handed out with the share that completes it and no other store
    hands out anything; all shares are kept. *)
Theorem threshold_fires_once ho th k vs s r :
  entries s !! k = None -> 0 < th ->
  Forall (fun v => message_root (signed_data v) = Ok r) vs -> NoDup (share_idx <$> vs) ->
  exists s', store_shares ho th k vs s = (s', Ok (imap (fun i _ =>
      if Z.of_nat i + 1 =? th then Threshold (take (S i) vs) else Stored) vs)) /\
    default [] (entries s' !! k) = vs.
Proof.
  intros Hk Hth Hall Hnd. apply (store_shares_same_root ho th k vs s r []); [by rewrite Hk|done..].
Qed.

(** A share is written once.  Storing a share of a node that already gave
    one for the duty and validator changes nothing: the same share is a
    duplicate, another one is refused with the node's index. *)
Theorem share_written_once ho th k v s x :
  reachable th s -> x ∈ default [] (entries s !! k) -> share_idx x = share_idx v ->
  store ho th k v s =
    (s, if decide (x = v) then Ok Duplicate else Err (ParsigDataMismatch k.2 (share_idx v))).
Proof.
  intros [[I1 _ _ _] _]%reachable_ok Hx Hi. pose proof (store_cases ho th k v s) as Hc. cbn in Hc.
  destruct (find_share _ v) as [y|] eqn:Ef.
  - apply find_share_Some in Ef as [Hy Hyi]. rewrite Hc. f_equal.
    destruct (entries s !! k) as [l|] eqn:El; cbn in *; [|by apply elem_of_nil in Hx].
    assert (y = x) as ->.
    { apply list_elem_of_lookup in Hx as [i Hi'], Hy as [j Hj]. assert (i = j) as ->; [|congruence].
      eapply (NoDup_lookup (share_idx <$> l) i j (share_idx v)); [by eapply I1|..]; rewrite list_lookup_fmap, ?Hi', ?Hj; cbn; congruence. }
    by case_bool_decide; case_decide.
  - apply find_share_None in Ef. destruct Ef. rewrite <- Hi. by apply list_elem_of_fmap_2.
Qed.
End facts.

(** ** A concrete database

    A signed value is its root and its signature; validators are numbers. *)
Module ParSigSample.
Definition data : SignedData (Z * Z) Z Z unit := {|
  signature := fun d => Ok d.2;
  set_signature := fun d sig => Ok (d.1, sig);
  message_root := fun d => Ok d.1 |}.
#[local] Existing Instance data.

Abbreviation SDB := (@MemDB Z (Z * Z) unit _ _).

Definition d7 : Duty := {| slot := 7; duty_type := Attester |}.

(** The share of node [i] for root [r]. *)
Definition share (i r : Z) : ParSignedData (Z * Z) := {| signed_data := (r, 100 + i); share_idx := i |}.

Definition accept : Duty -> gmap Z (list (ParSignedData (Z * Z))) -> res (@MemDBError Z unit) unit := fun _ _ => Ok tt.

(** A database with a threshold subscriber, after a list of calls of
    [store_external] for duty [d7]. *)
Definition db_sub : SDB := fst (subscribe_threshold accept memdb_new).
Definition calls_from (ho : HashOrder) (th : Z) (sets : list (gmap Z (ParSignedData (Z * Z)))) (s : SDB) : SDB :=
  foldl (fun s set => fst (store_external ho th d7 set s)) s sets.

Definition db2 : SDB := calls_from default_order 2 [{[1 := share 1 5]}; {[1 := share 2 5]}] db_sub.

Lemma db2_reachable : reachable 2 db2.
Proof. do 2 apply reach_external. apply reach_thresh_sub, reach_new. Defined.

Lemma subscribers_get_threshold_sets_witness :
  (d7, {[1 := [share 1 5; share 2 5]]}) ∈ thresh_calls db2 /\ len [share 1 5; share 2 5] = 2.
Proof.
  assert ((d7, {[1 := [share 1 5; share 2 5]]}) ∈ thresh_calls db2) as Hin
    by (apply list_elem_of_In; vm_compute; auto).
  split; [exact Hin|].
  exact (proj1 (subscribers_get_threshold_sets 2 db2 d7 {[1 := [share 1 5; share 2 5]]} 1 _
    db2_reachable Hin eq_refl)).
Defined.

Lemma trim_removes_duty_witness :
  entries db2 !! (d7, 1) = Some [share 1 5; share 2 5] /\ entries (trim_duty d7 db2) !! (d7, 1) = None.
Proof. split; [reflexivity|]. exact (proj1 (trim_removes_duty 2 db2 d7 (d7, 1) db2_reachable)). Defined.

(** Two shares for root 5, one for root 6: the share that completes root 5. *)
Definition db_mixed : SDB :=
  calls_from default_order 2 [{[1 := share 1 5]}; {[1 := share 2 6]}] db_sub.

Lemma threshold_noticed_witness :
  snd (store reverse_order 2 (d7, 1) (share 3 5) db_mixed) = Ok (Threshold [share 1 5; share 3 5]).
Proof.
  refine (threshold_noticed reverse_order 2 (d7, 1) (share 3 5) db_mixed 5 _ _ _ _ _ _).
  - discriminate.
  - lia.
  - reflexivity.
  - repeat constructor; eexists; reflexivity.
  - reflexivity.
  - reflexivity.
Defined.

Lemma threshold_fires_once_witness :
  exists s', store_shares default_order 2 (d7, 1) [share 3 5; share 1 5; share 2 5] db_sub =
    (s', Ok [Stored; Threshold [share 3 5; share 1 5]; Stored]) /\
    default [] (entries s' !! (d7, 1)) = [share 3 5; share 1 5; share 2 5].
Proof.
  refine (threshold_fires_once default_order 2 (d7, 1) [share 3 5; share 1 5; share 2 5] db_sub 5 _ _ _ _).
  - reflexivity.
  - lia.
  - repeat constructor.
  - apply (bool_decide_unpack _). vm_compute. exact I.
Defined.

Lemma share_written_once_witness :
  store default_order 2 (d7, 1) (share 2 6) db2 = (db2, Err (ParsigDataMismatch 1 2)).
Proof.
  refine (share_written_once default_order 2 (d7, 1) (share 2 6) db2 (share 2 5) db2_reachable _ _).
  - apply list_elem_of_In. vm_compute. auto.
  - reflexivity.
Defined.

(** Node 2 sends a matching share for validator 1 and, in the same set, a share
    for validator 2 that conflicts with one it gave before. *)
Definition conflicting : gmap Z (ParSignedData (Z * Z)) := {[1 := share 2 5; 2 := share 2 6]}.
Definition db_before : SDB :=
  calls_from default_order 2 [{[1 := share 1 5; 2 := share 2 5]}] db_sub.

(** A conflicting share hides another validator's threshold.  The set of
    node 2 completes validator 1's threshold, but its share for validator 2 is
    refused, and [store_external] returns before it calls the subscribers.
    A third node's share does not make up for it, as validator 1's group is then
    larger than the threshold, and neither does sending the share again, which
    is a duplicate. *)
Theorem conflict_hides_threshold :
  exists ho,
  let '(s1, r1) := store_external ho 2 d7 conflicting db_before in
  let '(s2, r2) := store_external ho 2 d7 {[1 := share 3 5]} s1 in
  let '(s3, r3) := store_external ho 2 d7 {[1 := share 2 5]} s2 in
  r1 = Err (ParsigDataMismatch 2 2) /\ r2 = Ok tt /\ r3 = Ok tt /\
  entries s1 !! (d7, 1) = Some [share 1 5; share 2 5] /\
  thresh_calls s3 = [].
Proof. exists reverse_order. vm_compute. done. Qed.

(** A threshold set is handed out again when a share for another root
    arrives: "exactly once" needs nodes that agree. *)
Theorem late_mismatch_fires_again :
  thresh_calls (calls_from default_order 2 [{[1 := share 3 6]}] db2) =
    [(d7, {[1 := [share 1 5; share 2 5]]}); (d7, {[1 := [share 1 5; share 2 5]]})].
Proof. vm_compute. done. Qed.
End ParSigSample.
