(* ===== verification/SigAgg.v ===== *)
(** * Aggregation of partial signatures

    [crates/core/src/sigagg.rs]: a threshold of partial signatures per
    validator becomes one signed value, which is verified before the
    subscribers see it. *)

From S2P Require Import Prelude Types ParSigDb.

Open Scope Z_scope.

Section sigagg.
Context {PubKey D Root Sig SDError CryptoError Eth2Error : Type}.
Context `{Countable PubKey, EqDecision D, Countable Root}.
Context {SD : SignedData D Root Sig SDError}.

Inductive SigAggError :=
| InvalidThreshold
| EmptySet
| RequireThresholdSignatures (pubkey : PubKey)
| InsufficientDistinctSignatures (pubkey : PubKey)
| SignatureFromCore (pubkey : PubKey) (source : SDError)
| SetSignature (pubkey : PubKey) (source : SDError)
| ThresholdAggregate (pubkey : PubKey) (source : CryptoError)
| InvalidEth2SignedData
| PubkeyFromCore
| VerificationFailed (source : Eth2Error).

Abbreviation PSD := (ParSignedData D).
Abbreviation AggSignedDataSet := (gmap PubKey D).
Abbreviation AggSub := (Duty -> AggSignedDataSet -> res SigAggError unit).

(** [BlstImpl.threshold_aggregate]; the downcast to [VersionedAttestation],
    with its validator index; and the verification callback. *)
Context (threshold_aggregate : gmap Z Sig -> res CryptoError Sig).
Context (attestation_index : D -> option (option Z)).

Record Aggregator := {
  threshold : Z;
  verify_fn : PubKey -> D -> res SigAggError unit;
  subs : list AggSub;
}.

(** [Aggregator::new]. *)
Definition aggregator_new (threshold : Z) (verify_fn : PubKey -> D -> res SigAggError unit)
    : res SigAggError Aggregator :=
  if threshold =? 0 then Err InvalidThreshold
  else Ok {| threshold := threshold; verify_fn := verify_fn; subs := [] |}.

Definition subscribe (sub : AggSub) (a : Aggregator) : Aggregator := a <| subs ::= fun l => l ++ [sub] |>.

(** [map_err]. *)
Definition map_err {E E' A} (f : E -> E') (r : res E A) : res E' A :=
  match r with Ok x => Ok x | Err e => Err (f e) | Panic => Panic end.

(** Signatures by share index; the last one wins. *)
Fixpoint collect_sigs (pubkey : PubKey) (par_sigs : list PSD) (bls_sigs : gmap Z Sig)
    : res SigAggError (gmap Z Sig) :=
  match par_sigs with
  | [] => Ok bls_sigs
  | par_sig :: par_sigs =>
    sig ← map_err (SignatureFromCore pubkey) (signature (signed_data par_sig));
    collect_sigs pubkey par_sigs (<[share_idx par_sig := sig]> bls_sigs)
  end.

(** The scan for an attestation that carries its validator index. *)
Fixpoint find_full (par_sigs : list PSD) : option D :=
  match par_sigs with
  | [] => None
  | ps :: par_sigs =>
    match attestation_index (signed_data ps) with
    | None => None
    | Some (Some _) => Some (signed_data ps)
    | Some None => find_full par_sigs
    end
  end.

Definition aggregate_one (a : Aggregator) (pubkey : PubKey) (par_sigs : list PSD) : res SigAggError D :=
  if len par_sigs <? threshold a then Err (RequireThresholdSignatures pubkey)
  else
    bls_sigs ← collect_sigs pubkey par_sigs ∅;
    if Z.of_nat (size bls_sigs) <? threshold a then Err (InsufficientDistinctSignatures pubkey)
    else
      agg_bytes ← map_err (ThresholdAggregate pubkey) (threshold_aggregate bls_sigs);
      template ← match find_full par_sigs with
        | Some d => Ok d
        | None => ps ← expect (head par_sigs); Ok (signed_data ps)
        end;
      agg_signed ← map_err (SetSignature pubkey) (set_signature template agg_bytes);
      verify_fn a pubkey agg_signed ;;
      Ok agg_signed.

(** The loop of [aggregate]. *)
Fixpoint aggregate_all (a : Aggregator) (l : list (PubKey * list PSD)) (output : AggSignedDataSet)
    : res SigAggError AggSignedDataSet :=
  match l with
  | [] => Ok output
  | (pubkey, par_sigs) :: l =>
    signed ← aggregate_one a pubkey par_sigs;
    aggregate_all a l (<[pubkey := signed]> output)
  end.

(** [aggregate]; the state is the log of calls to the subscribers. *)
Definition aggregate (ho : HashOrder) (a : Aggregator) (duty : Duty) (set : gmap PubKey (list PSD))
    : proc (list (Duty * AggSignedDataSet)) SigAggError unit :=
  if bool_decide (set = ∅) then p_fail EmptySet
  else
    output ← p_lift (aggregate_all a (ho_list ho set) ∅);
    p_for (subs a) (fun sub => p_modify (fun log => log ++ [(duty, output)]) ;; p_lift (sub duty output)).

(** ** Theorems *)

(** The signatures of shares of distinct nodes. *)
Lemma collect_sigs_ok pk ps m :
  NoDup (share_idx <$> ps) ->
  Forall (fun v => exists sig, signature (signed_data v) = Ok sig) ps ->
  (forall v, v ∈ ps -> m !! share_idx v = None) ->
  exists m', collect_sigs pk ps m = Ok m' /\ size m' = (size m + length ps)%nat /\
    (forall i, (i ∉ share_idx <$> ps) -> m' !! i = m !! i) /\
    (forall v sig, v ∈ ps -> signature (signed_data v) = Ok sig -> m' !! share_idx v = Some sig).
Proof.
  revert m. induction ps as [|v ps IH]; intros m Hnd Hall Hfresh; cbn [collect_sigs].
  { exists m. split_and!; [done|cbn; lia|done|]. by intros v sig ?%elem_of_nil. }
  cbn in Hnd. apply list.NoDup_cons in Hnd as [Hv Hnd]. apply list.Forall_cons in Hall as [[sig Hsig] Hall].
  rewrite Hsig. cbn. destruct (IH (<[share_idx v := sig]> m)) as (m' & Hm & Hsz & Hother & Hin); [done|done| |].
  { intros v' Hv'. rewrite lookup_insert_ne; [apply Hfresh; by right|].
    intros E. apply Hv. rewrite E. by apply list_elem_of_fmap_2. }
  exists m'. split_and!; [done| | |].
  - rewrite Hsz, map_size_insert_None by (apply Hfresh; by left). cbn. lia.
  - intros i Hi. cbn in Hi. rewrite not_elem_of_cons in Hi. destruct Hi as [Hne Hi].
    by rewrite Hother, lookup_insert_ne.
  - intros v' sig' [->|Hv']%elem_of_cons Hs; [|by apply Hin].
    rewrite Hother by done. rewrite lookup_insert_eq. congruence.
Qed.

Lemma aggregate_one_verified a pk ps d :
  aggregate_one a pk ps = Ok d -> verify_fn a pk d = Ok tt.
Proof.
  unfold aggregate_one. destruct (_ <? _); [done|]. intros (m & _ & Hr)%res_bind_Ok.
  destruct (_ <? _); [done|].
  apply res_bind_Ok in Hr as (agg & _ & (t & _ & (d' & _ & ([] & Hv & [= ->])%res_bind_Ok)%res_bind_Ok)%res_bind_Ok).
  done.
Qed.

Lemma aggregate_all_ok a l out out' :
  aggregate_all a l out = Ok out' ->
  (forall pk d, out !! pk = Some d -> verify_fn a pk d = Ok tt) ->
  (forall pk d, out' !! pk = Some d -> verify_fn a pk d = Ok tt) /\
  dom out' = dom out ∪ list_to_set l.*1.
Proof.
  revert out. induction l as [|[pk ps] l IH]; intros out; cbn [aggregate_all].
  { intros [= <-] Hout. split; [done|]. cbn. by rewrite (right_id_L ∅ (∪)). }
  intros (d & Hd & Hr)%res_bind_Ok Hout. apply IH in Hr as [Hv Hdom].
  - split; [done|]. rewrite Hdom, dom_insert_L. cbn. set_solver.
  - intros pk' d' [[<- <-]|[_ Hl]]%lookup_insert_Some; [|by apply Hout]. by eapply aggregate_one_verified.
Qed.

(** C23: subscribers only see verified signatures, for all validators or none.
    Whatever [aggregate] is given and however it ends, every call it makes to
    a subscriber is for the duty and for exactly the validators it was given,
    and the signed value of each passed the verification callback. *)
Theorem aggregated_data_verified ho a duty set log d out :
  (d, out) ∉ log -> (d, out) ∈ fst (aggregate ho a duty set log) ->
  d = duty /\ dom out = dom set /\
  (forall pk v, out !! pk = Some v -> verify_fn a pk v = Ok tt).
Proof.
  intros Hnew. unfold aggregate. case_bool_decide as He; [done|].
  destruct (aggregate_all a (ho_list ho set) ∅) as [out'|e|] eqn:Ha; cbn; [|done..].
  assert (keeps (fun l => (d, out) ∈ l -> (d, out) ∈ log \/ (d, out) = (duty, out'))
    (p_for (subs a) (fun sub => p_modify (fun log => log ++ [(duty, out')]) ;; p_lift (sub duty out')))) as Hk.
  { apply keeps_for. intros sub _. apply keeps_bind; [|intros _; apply keeps_lift].
    intros l Hl. cbn. intros [Hin|Hin%list_elem_of_singleton]%elem_of_app; auto. }
  intros Hin. specialize (Hk log (fun H => or_introl H)).
  destruct (Hk Hin) as [?|[= -> ->]]; [done|].
  apply aggregate_all_ok in Ha as [Hv Hdom]; [|intros ? ? Hx; by rewrite lookup_empty in Hx].
  split_and!; [done| |done]. rewrite Hdom, dom_empty_L, (left_id_L ∅ (∪)). apply ho_list_dom.
Qed.

(** What [aggregate_one] does with the combined signature. *)
Definition finish (a : Aggregator) (pubkey : PubKey) (par_sigs : list PSD) (bls_sigs : gmap Z Sig)
    : res SigAggError D :=
  agg_bytes ← map_err (ThresholdAggregate pubkey) (threshold_aggregate bls_sigs);
  template ← match find_full par_sigs with
    | Some d => Ok d
    | None => ps ← expect (head par_sigs); Ok (signed_data ps)
    end;
  agg_signed ← map_err (SetSignature pubkey) (set_signature template agg_bytes);
  verify_fn a pubkey agg_signed ;;
  Ok agg_signed.

(** The signatures of a threshold set, one per node. *)
Lemma threshold_set_sigs a pk ps typ :
  threshold_set (threshold a) typ ps ->
  Forall (fun v => exists sig, signature (signed_data v) = Ok sig) ps ->
  exists m, aggregate_one a pk ps = finish a pk ps m /\
    Z.of_nat (size m) = threshold a /\
    (forall v sig, v ∈ ps -> signature (signed_data v) = Ok sig -> m !! share_idx v = Some sig) /\
    (forall i sig, m !! i = Some sig -> exists v, v ∈ ps /\ share_idx v = i /\ signature (signed_data v) = Ok sig).
Proof.
  intros [Hlen Hnd _] Hsig.
  destruct (collect_sigs_ok pk ps ∅ Hnd Hsig) as (m & Hm & Hsz & Hother & Hv); [done|].
  rewrite map_size_empty in Hsz. cbn in Hsz. unfold len in Hlen. exists m. split_and!; [|lia|done|].
  - unfold aggregate_one, len. rewrite Hm. cbn [mbind res_bind].
    destruct (Z.ltb_spec (Z.of_nat (length ps)) (threshold a)); [lia|].
    by destruct (Z.ltb_spec (Z.of_nat (size m)) (threshold a)); [lia|].
  - intros i sig Hi. destruct (decide (i ∈ share_idx <$> ps)) as [Hin|Hin]; [|by rewrite Hother in Hi].
    apply list_elem_of_fmap in Hin as (v & -> & Hin). exists v. split_and!; [done|done|].
    rewrite list.Forall_forall in Hsig. destruct (Hsig v Hin) as [sig' Hs]. rewrite (Hv v sig' Hin Hs) in Hi. congruence.
Qed.

(** What the partial signature database hands out can be aggregated.  For
    every set it ever gave to a threshold subscriber, an aggregator with the
    same threshold passes both of its size checks and combines exactly the
    set's signatures, one per node, under their share indices. *)
Theorem threshold_sets_aggregate (db : @MemDB PubKey D SDError _ _) a d out pk ps :
  reachable (threshold a) db -> (d, out) ∈ thresh_calls db -> out !! pk = Some ps ->
  Forall (fun v => exists sig, signature (signed_data v) = Ok sig) ps ->
  exists m, aggregate_one a pk ps = finish a pk ps m /\
    Z.of_nat (size m) = threshold a /\
    (forall v sig, v ∈ ps -> signature (signed_data v) = Ok sig -> m !! share_idx v = Some sig).
Proof.
  intros Hr Hin Hpk Hsig. apply reachable_ok in Hr. apply (ok_calls _ _ Hr) in Hin as [_ Hout].
  destruct (threshold_set_sigs a pk ps _ (Hout pk ps Hpk) Hsig) as (m & ? & ? & ? & _). by exists m.
Qed.
End sigagg.

(** ** A concrete aggregator *)

Module SigAggSample.
Import ParSigSample.
#[local] Existing Instance data.

Definition sum_sigs (m : gmap Z Z) : res unit Z := Ok (map_fold (fun _ s acc => s + acc) 0 m).
Definition no_attestation : Z * Z -> option (option Z) := fun _ => None.
Definition accept_even (pk : Z) (d : Z * Z) : res (@SigAggError Z unit unit unit) unit :=
  if Z.even d.1 || (d.1 =? 5) then Ok tt else Err InvalidEth2SignedData.

Definition agg : @Aggregator Z (Z * Z) unit unit unit _ _ :=
  {| SigAgg.threshold := 2; verify_fn := accept_even; subs := [fun _ _ => Ok tt] |}.

Definition shares5 : gmap Z (list (ParSignedData (Z * Z))) := {[1 := [share 1 5; share 2 5]]}.

Lemma aggregated_data_verified_witness :
  (d7, {[1 := (5, 203)]}) ∈ fst (aggregate sum_sigs no_attestation default_order agg d7 shares5 []) /\
  dom ({[1 := (5, 203)]} : gmap Z (Z * Z)) = dom shares5.
Proof.
  assert ((d7, {[1 := (5, 203)]}) ∈ fst (aggregate sum_sigs no_attestation default_order agg d7 shares5 [])) as Hin
    by (apply list_elem_of_In; vm_compute; auto).
  split; [exact Hin|].
  refine (proj1 (proj2 (aggregated_data_verified sum_sigs no_attestation default_order agg d7 shares5 [] d7 _ _ Hin))).
  apply not_elem_of_nil.
Defined.

Lemma threshold_sets_aggregate_witness :
  exists m, aggregate_one sum_sigs no_attestation agg 1 [share 1 5; share 2 5] =
      finish sum_sigs no_attestation agg 1 [share 1 5; share 2 5] m /\
    Z.of_nat (size m) = 2 /\
    (forall v sig, v ∈ [share 1 5; share 2 5] -> signature (signed_data v) = Ok sig -> m !! share_idx v = Some sig).
Proof.
  refine (threshold_sets_aggregate sum_sigs no_attestation db2 agg d7 shares5 1 _ _ _ _ _).
  - exact db2_reachable.
  - apply list_elem_of_In. vm_compute. auto.
  - reflexivity.
  - repeat constructor; eexists; reflexivity.
Defined.
End SigAggSample.
