(* ===== verification/AggSigDb.v ===== *)
(** * The database of aggregated signatures

    [crates/core/src/aggsigdb/memory.rs]: an actor that stores one signed value
    per duty and validator and answers those who wait for one. *)

From S2P Require Import Prelude Types.

Open Scope Z_scope.

Section aggsigdb.
Context {PubKey D : Type}.
Context `{Countable PubKey, EqDecision D}.

Inductive AggSigDbError := MismatchingData.

Abbreviation Key := (Duty * PubKey)%type.
Abbreviation SignedDataSet := (gmap PubKey D).

(** [MemoryDBActor]; a waiter's one-shot channel is a number.  [closed] are the
    channels whose receiver was dropped, [responses] what was sent on
    channels, [deadliner_adds] the duties handed to the deadliner; [asked] and
    [history] record the requests and the values ever stored. *)
Record Actor := {
  entries : gmap Duty SignedDataSet;
  waiters : gmap Key (list nat);
  closed : gset nat;
  responses : list (nat * D);
  deadliner_adds : list Duty;
  asked : list (nat * Key);
  history : list (Key * D);
}.

Definition actor_new : Actor := {|
  entries := ∅; waiters := ∅; closed := ∅; responses := []; deadliner_adds := [];
  asked := []; history := [] |}.

Abbreviation Proc := (proc Actor AggSigDbError).

Definition get (duty : Duty) (pub_key : PubKey) (s : Actor) : option D :=
  entries s !! duty ≫= fun for_duty => for_duty !! pub_key.

(** [w.send(v)] on the waiters of a key whose receivers still listen. *)
Definition answer (v : D) (ws : list nat) (s : Actor) : Actor :=
  s <| responses ::= fun l => l ++ ((fun w => (w, v)) <$> filter (fun w => w ∉ closed s) ws) |>.

(** The body of [store]'s loop. *)
Definition store_entry (duty : Duty) (pub_key : PubKey) (signed_data : D) : Proc unit :=
  s ← p_get;
  match get duty pub_key s with
  | None =>
    p_modify (fun s => s <| entries ::= alter (insert pub_key signed_data) duty |>
                         <| history ::= fun l => l ++ [((duty, pub_key), signed_data)] |>) ;;
    match waiters s !! (duty, pub_key) with
    | Some ws =>
      p_modify (fun s => answer signed_data ws (s <| waiters ::= delete (duty, pub_key) |>))
    | None => mret tt
    end
  | Some v => if bool_decide (v <> signed_data) then p_fail MismatchingData else mret tt
  end.

Definition store (ho : HashOrder) (duty : Duty) (set : SignedDataSet) : Proc unit :=
  if bool_decide (set = ∅) then mret tt
  else
    p_modify (fun s => s <| deadliner_adds ::= fun l => l ++ [duty] |>) ;;
    p_modify (fun s => s <| entries ::= fun m => <[duty := default ∅ (m !! duty)]> m |>) ;;
    p_for (ho_list ho set) (fun '(pub_key, signed_data) => store_entry duty pub_key signed_data).

Definition wait_for (duty : Duty) (pub_key : PubKey) (w : nat) (s : Actor) : Actor :=
  let s := s <| asked ::= fun l => l ++ [(w, (duty, pub_key))] |> in
  match get duty pub_key s with
  | Some found => answer found [w] s
  | None => s <| waiters ::= push_at (duty, pub_key) w |>
  end.

Definition evict (duty : Duty) (s : Actor) : Actor := s <| entries ::= delete duty |>.

(** Waiters that listen no more are dropped, and keys without waiters. *)
Definition trim_readers (s : Actor) : Actor :=
  s <| waiters ::= omap (fun ws =>
        match filter (fun w => w ∉ closed s) ws with [] => None | ws' => Some ws' end) |>.

(** What the actor's loop receives, and a receiver being dropped meanwhile. *)
Inductive Event :=
| Store (ho : HashOrder) (duty : Duty) (set : SignedDataSet)
| WaitFor (duty : Duty) (pub_key : PubKey) (response : nat)
| Expired (duty : Duty)
| Dropped (response : nat).

Definition on_event (ev : Event) (s : Actor) : Actor :=
  match ev with
  | Store ho duty set => trim_readers (fst (store ho duty set s))
  | WaitFor duty pub_key w => trim_readers (wait_for duty pub_key w s)
  | Expired duty => trim_readers (evict duty s)
  | Dropped w => s <| closed ::= union {[w]} |>
  end.

Definition run (evs : list Event) (s : Actor) : Actor := foldl (fun s ev => on_event ev s) s evs.

(** ** Theorems *)

Implicit Types (s : Actor) (k : Key) (v : D).

(** A waiting request is listed under its key. *)
Definition waiting s (w : nat) k : Prop := exists ws, waiters s !! k = Some ws /\ w ∈ ws.

Record actor_inv s : Prop := {
  inv_waiters : forall w k, waiting s w k -> get k.1 k.2 s = None /\ (w, k) ∈ asked s;
  inv_asked : forall w k, (w, k) ∈ asked s ->
    w ∈ closed s \/ (exists v, (w, v) ∈ responses s) \/ waiting s w k;
  inv_answers : forall w v, (w, v) ∈ responses s ->
    exists k, (w, k) ∈ asked s /\ (k, v) ∈ history s;
  inv_stored : forall k v, get k.1 k.2 s = Some v -> (k, v) ∈ history s;
}.

Lemma actor_new_inv : actor_inv actor_new.
Proof.
  split; cbn.
  - intros w k (ws & Hw & _). cbn in Hw. by rewrite lookup_empty in Hw.
  - by intros w k ?%elem_of_nil.
  - by intros w v ?%elem_of_nil.
  - intros k v. unfold get. cbn. by rewrite lookup_empty.
Qed.

Lemma agg_trim_inv s : actor_inv s -> actor_inv (trim_readers s).
Proof.
  intros [I1 I2 I3 I4].
  assert (forall w k, waiting (trim_readers s) w k <-> waiting s w k /\ w ∉ closed s) as Hw.
  { intros w k. unfold waiting, trim_readers. cbn. rewrite lookup_omap.
    destruct (waiters s !! k) as [ws|]; cbn; [|naive_solver].
    destruct (filter (fun w => w ∉ closed s) ws) as [|w0 ws'] eqn:Ef.
    - split; [by intros (? & ? & ?)|]. intros [(? & [= <-] & Hin) Hc].
      assert (w ∈ filter (fun w => w ∉ closed s) ws) as Hf by (by apply list_elem_of_filter).
      rewrite Ef in Hf. by apply elem_of_nil in Hf.
    - rewrite <- Ef. split.
      + intros (? & [= <-] & [Hc Hin]%list_elem_of_filter). eauto.
      + intros [(? & [= <-] & Hin) Hc]. eexists. split; [done|]. by apply list_elem_of_filter. }
  split; cbn.
  - intros w k [Hk _]%Hw. by apply I1.
  - intros w k Hk. destruct (I2 w k Hk) as [?|[?|?]]; [by left|by right; left|].
    destruct (decide (w ∈ closed s)); [by left|]. right. right. by apply Hw.
  - done.
  - done.
Qed.

Lemma get_alter d pk v s k :
  is_Some (entries s !! d) ->
  get k.1 k.2 (s <| entries ::= alter (insert pk v) d |>) = if decide (k = (d, pk)) then Some v else get k.1 k.2 s.
Proof.
  intros [m Hm]. destruct k as [d' pk']. unfold get. cbn.
  destruct (decide (d' = d)) as [->|Hd].
  - rewrite lookup_alter_eq, Hm. cbn. rewrite lookup_insert. repeat case_decide; naive_solver.
  - rewrite lookup_alter_ne by done. case_decide; [naive_solver|done].
Qed.

(** Answering the waiters of a key and dropping them from the table. *)
Lemma answer_inv s d pk v :
  is_Some (entries s !! d) -> get d pk s = None -> actor_inv s ->
  actor_inv (fst (store_entry d pk v s)).
Proof.
  intros Hd Hnone [I1 I2 I3 I4]. unfold store_entry. proc_simp. rewrite Hnone. proc_simp. cbn.
  pose proof (fun k => get_alter d pk v s k Hd) as Hget.
  destruct (waiters s !! (d, pk)) as [ws|] eqn:Hws; cbn.
  - assert (forall w k, waiting (s <| waiters ::= delete (d, pk) |>) w k <-> waiting s w k /\ k <> (d, pk)) as Hw.
    { intros w k. unfold waiting. cbn. setoid_rewrite lookup_delete_Some. naive_solver. }
    split; cbn.
    + intros w k Hk. change (waiting (s <| waiters ::= delete (d, pk) |>) w k) in Hk.
      apply Hw in Hk as [Hk Hne]. destruct (I1 w k Hk) as [Hg Hask]. split; [|done].
      change (get k.1 k.2 (s <| entries ::= alter (insert pk v) d |>) = None). rewrite Hget. by case_decide.
    + intros w k Hk. destruct (I2 w k Hk) as [?|[[v' ?]|Hwait]]; [by left|right; left; set_solver|].
      destruct (decide (k = (d, pk))) as [->|Hne].
      * destruct Hwait as (ws' & Hws' & Hin). rewrite Hws in Hws'. injection Hws' as <-.
        destruct (decide (w ∈ closed s)); [by left|]. right. left. exists v. apply elem_of_app. right.
        apply list_elem_of_fmap. exists w. split; [done|]. by apply list_elem_of_filter.
      * right. right. by apply (Hw w k).
    + intros w v' [Hold|Hnew]%elem_of_app.
      * destruct (I3 w v' Hold) as (k & ? & ?). exists k. set_solver.
      * apply list_elem_of_fmap in Hnew as (w' & [= -> ->] & [_ Hin]%list_elem_of_filter).
        exists (d, pk). split; [|set_solver]. apply (I1 w' (d, pk)). by exists ws.
    + intros k v'. change (get k.1 k.2 (s <| entries ::= alter (insert pk v) d |>) = Some v' ->
        (k, v') ∈ history s ++ [(d, pk, v)]). rewrite Hget. case_decide; [intros [= ->]|intros ?%I4]; set_solver.
  - split; cbn.
    + intros w k Hk. change (waiting s w k) in Hk. destruct (I1 w k Hk) as [Hg Hask]. split; [|done].
      change (get k.1 k.2 (s <| entries ::= alter (insert pk v) d |>) = None). rewrite Hget.
      case_decide as E; [|done]. subst k. destruct Hk as (? & ? & _). congruence.
    + done.
    + intros w v' Hold. destruct (I3 w v' Hold) as (k & ? & ?). exists k. set_solver.
    + intros k v'. change (get k.1 k.2 (s <| entries ::= alter (insert pk v) d |>) = Some v' ->
        (k, v') ∈ history s ++ [(d, pk, v)]). rewrite Hget. case_decide; [intros [= ->]|intros ?%I4]; set_solver.
Qed.

Lemma store_entry_inv d pk v :
  keeps (fun s => actor_inv s /\ is_Some (entries s !! d)) (store_entry d pk v).
Proof.
  intros s [I Hd]. destruct (get d pk s) as [v'|] eqn:Hg.
  - unfold store_entry. proc_simp. rewrite Hg. by case_bool_decide.
  - split; [by apply answer_inv|]. unfold store_entry. proc_simp. rewrite Hg. proc_simp. cbn.
    by destruct (waiters s !! (d, pk)); cbn; rewrite lookup_alter_is_Some.
Qed.

Lemma get_or_default d s k :
  get k.1 k.2 (s <| entries ::= fun m => <[d := default ∅ (m !! d)]> m |>) = get k.1 k.2 s.
Proof.
  destruct k as [d' pk]. unfold get. cbn. rewrite lookup_insert. case_decide as E; [|done]. subst d'.
  destruct (entries s !! d); [done|]. cbn. by rewrite lookup_empty.
Qed.

Lemma same_get_inv s s' :
  (forall k, get k.1 k.2 s' = get k.1 k.2 s) -> waiters s' = waiters s -> closed s' = closed s ->
  responses s' = responses s -> asked s' = asked s -> history s' = history s -> actor_inv s -> actor_inv s'.
Proof.
  intros Hg Hw Hc Hr Ha Hh [I1 I2 I3 I4]. split; unfold waiting in *; rewrite ?Hw, ?Hc, ?Hr, ?Ha, ?Hh;
    try setoid_rewrite Hg; done.
Qed.

Lemma agg_store_inv ho d set : keeps actor_inv (store ho d set).
Proof.
  intros s I. unfold store. case_bool_decide; [done|]. proc_simp.
  refine (proj1 (keeps_for (fun s => actor_inv s /\ is_Some (entries s !! d)) _ _ _ _ _)).
  - intros [pk v] _. apply store_entry_inv.
  - split; [|cbn; by rewrite lookup_insert_eq].
    eapply same_get_inv; [..|exact I]; try done. intros k. exact (get_or_default d _ k).
Qed.

Lemma wait_for_inv d pk w s : actor_inv s -> actor_inv (wait_for d pk w s).
Proof.
  intros [I1 I2 I3 I4]. unfold wait_for. cbn.
  change (get d pk (s <| asked ::= fun l => l ++ [(w, (d, pk))] |>)) with (get d pk s).
  destruct (get d pk s) as [v|] eqn:Hg; split; cbn.
  - intros w' k Hk. change (waiting s w' k) in Hk. destruct (I1 w' k Hk). split; [done|set_solver].
  - intros w' k [Hin|[= -> ->]%list_elem_of_singleton]%elem_of_app.
    + destruct (I2 w' k Hin) as [?|[[v' ?]|?]]; [by left|right; left; set_solver|by right; right].
    + destruct (decide (w ∈ closed s)); [by left|]. right. left. exists v. apply elem_of_app. right.
      rewrite decide_True by done. by left.
  - intros w' v' [Hin|Hin]%elem_of_app; [destruct (I3 w' v' Hin) as (k & ? & ?); exists k; set_solver|].
    case_decide; [|by apply elem_of_nil in Hin].
    apply list_elem_of_singleton in Hin as [= -> ->]. exists (d, pk). split; [set_solver|by apply I4].
  - done.
  - intros w' k (ws & [[-> ->]|[Hne Hl]]%lookup_push_at & Hin).
    + split; [done|]. apply elem_of_app in Hin as [Hin|E%list_elem_of_singleton]; [|set_solver].
      match type of Hin with context [default [] ?o] => destruct o as [ws|] eqn:Hws end; cbn in Hin;
        [|by apply elem_of_nil in Hin].
      apply elem_of_app. left. apply I1. by exists ws.
    + destruct (I1 w' k) as [? ?]; [by exists ws|]. split; [done|set_solver].
  - assert (forall w' k, waiting s w' k -> exists ws, push_at (d, pk) w (waiters s) !! k = Some ws /\ w' ∈ ws) as Hold.
    { intros w' k (ws & Hws & Hin). destruct (decide (k = (d, pk))) as [->|Hne].
      - exists (ws ++ [w]). rewrite lookup_push_at, Hws. set_solver.
      - exists ws. rewrite lookup_push_at. auto. }
    intros w' k [Hin|[= -> ->]%list_elem_of_singleton]%elem_of_app.
    + destruct (I2 w' k Hin) as [?|[?|?]]; [by left|by right; left|right; right; exact (Hold _ _ ltac:(eassumption))].
    + right. right. exists (default [] (waiters s !! (d, pk)) ++ [w]).
      split; [apply lookup_push_at; by left|set_solver].
  - intros w' v' Hin. destruct (I3 w' v' Hin) as (k & ? & ?). exists k. set_solver.
  - done.
Qed.

Lemma evict_inv d s : actor_inv s -> actor_inv (evict d s).
Proof.
  intros [I1 I2 I3 I4].
  assert (forall k v, get k.1 k.2 (evict d s) = Some v -> get k.1 k.2 s = Some v) as Hg.
  { intros [d' pk] v. unfold get, evict. cbn. rewrite lookup_delete. by case_decide. }
  split; cbn; [|done|done|].
  - intros w k Hk. destruct (I1 w k Hk) as [Hn ?]. split; [|done].
    destruct (get k.1 k.2 (evict d s)) eqn:E; [|done]. apply Hg in E. congruence.
  - intros k v ?%Hg. by apply I4.
Qed.

Lemma on_event_inv ev s : actor_inv s -> actor_inv (on_event ev s).
Proof.
  intros I. destruct ev as [ho d set|d pk w|d|w]; cbn.
  - by apply agg_trim_inv, agg_store_inv.
  - by apply agg_trim_inv, wait_for_inv.
  - by apply agg_trim_inv, evict_inv.
  - destruct I as [I1 I2 I3 I4]. split; cbn; [done| |done|done].
    intros w' k Hk. destruct (I2 w' k Hk) as [?|[?|?]]; [left; set_solver|by right; left|by right; right].
Qed.

Lemma run_inv evs s : actor_inv s -> actor_inv (run evs s).
Proof. revert s. induction evs as [|ev evs IH]; intros s I; [done|]. by apply IH, on_event_inv. Qed.

(** C27: no waiter is forgotten or answered wrongly.  After any sequence of
    stores, requests, evictions and dropped receivers: a request whose
    receiver still listens was answered or is still waiting; a request that
    waits does so because nothing is stored for its key; and every answer is a
    value that was stored for the key the request asked for. *)
Theorem waiters_answered evs w d pk :
  let s := run evs actor_new in
  (w, (d, pk)) ∈ asked s ->
  (w ∈ closed s \/ (exists v, (w, v) ∈ responses s) \/ (waiting s w (d, pk) /\ get d pk s = None)) /\
  (forall v, (w, v) ∈ responses s -> exists k, (w, k) ∈ asked s /\ (k, v) ∈ history s).
Proof.
  intros s Hask. destruct (run_inv evs actor_new actor_new_inv) as [I1 I2 I3 _]. fold s in I1, I2, I3.
  split; [|by apply I3]. destruct (I2 w (d, pk) Hask) as [?|[?|Hw]]; auto.
  right. right. split; [done|]. by apply (I1 w (d, pk)).
Qed.

(** The state of the table after the loop's body. *)
Lemma store_entry_get d pk v s k :
  is_Some (entries s !! d) ->
  let s' := fst (store_entry d pk v s) in
  is_Some (entries s' !! d) /\
  get k.1 k.2 s' = if decide (k = (d, pk) /\ get d pk s = None) then Some v else get k.1 k.2 s.
Proof.
  intros Hd. cbn. unfold store_entry. proc_simp. destruct (get d pk s) as [v'|] eqn:Hg.
  { rewrite decide_False by naive_solver. by case_bool_decide. }
  proc_simp. cbn. pose proof (get_alter d pk v s k Hd) as Hget.
  assert (is_Some (alter (insert pk v) d (entries s) !! d)) as Hd' by (by rewrite lookup_alter_is_Some).
  assert (forall P, P (get k.1 k.2 (s <| entries ::= alter (insert pk v) d |>)) ->
    P (if decide (k = (d, pk) /\ @None D = None) then Some v else get k.1 k.2 s)) as Hrew.
  { intros P. rewrite Hget. by repeat case_decide; naive_solver. }
  destruct (waiters s !! (d, pk)); cbn; (split; [done|]); by apply (Hrew (eq _)).
Qed.

Lemma store_loop_get d l s k :
  is_Some (entries s !! d) ->
  let '(s', r) := p_for l (fun '(pub_key, signed_data) => store_entry d pub_key signed_data) s in
  (forall v, get k.1 k.2 s = Some v -> get k.1 k.2 s' = Some v) /\
  (r = Ok tt -> forall pk v, k = (d, pk) -> (pk, v) ∈ l -> get k.1 k.2 s' = Some v).
Proof.
  revert s. induction l as [|[pk v] l IH]; intros s Hd; [by split; [|intros _ ? ? _ ?%elem_of_nil]|].
  cbn [p_for]. unfold mbind, proc_bind. pose proof (store_entry_get d pk v s k Hd) as Hs.
  destruct (store_entry d pk v s) as [s1 r1] eqn:E1. cbn in Hs. destruct Hs as [Hd1 Hg1].
  assert (forall x, get k.1 k.2 s = Some x -> get k.1 k.2 s1 = Some x) as Hkeep.
  { intros x Hx. rewrite Hg1. case_decide as Hc; [|done]. destruct Hc as [-> Hn]. cbn in *. congruence. }
  destruct r1 as [[]|e|]; [|by split..]. specialize (IH s1 Hd1).
  destruct (p_for l _ s1) as [s' r]. destruct IH as [IH1 IH2]. split; [by eauto|].
  intros Hr pk' v' Hk [[= -> ->]|Hin]%elem_of_cons; [|by eapply IH2]. subst k. cbn in *. apply IH1.
  rewrite Hg1. case_decide as Hc; [done|]. destruct (get d pk s) as [x|] eqn:Hx; [|naive_solver].
  unfold store_entry in E1. rewrite proc_get in E1. rewrite Hx in E1. by case_bool_decide; simplify_eq.
Qed.

(** Values are written once.  A store, however it ends, changes no stored
    value; when it succeeds, every value of its set is stored; in particular a
    set that contradicts a stored value is refused. *)
Theorem stored_signature_stable ho d set s s' r :
  store ho d set s = (s', r) ->
  (forall d' pk v, get d' pk s = Some v -> get d' pk s' = Some v) /\
  (r = Ok tt -> forall pk v, set !! pk = Some v -> get d pk s' = Some v).
Proof.
  unfold store. case_bool_decide as He.
  { intros [= <- <-]. subst set. split; [done|]. intros _ pk v. by rewrite lookup_empty. }
  proc_simp. set (s0 := s <| deadliner_adds ::= _ |> <| entries ::= _ |>). intros Hr.
  assert (is_Some (entries s0 !! d)) as Hd by (cbn; by rewrite lookup_insert_eq).
  assert (forall k, get k.1 k.2 s0 = get k.1 k.2 s) as Hs0 by (intros k; exact (get_or_default d _ k)).
  split.
  - intros d' pk v Hg. pose proof (store_loop_get d (ho_list ho set) s0 (d', pk) Hd) as Hl.
    rewrite Hr in Hl. apply Hl. by rewrite Hs0.
  - intros -> pk v Hv. pose proof (store_loop_get d (ho_list ho set) s0 (d, pk) Hd) as Hl.
    rewrite Hr in Hl. apply (proj2 Hl eq_refl pk v eq_refl). rewrite (ho_perm ho set).
    by apply elem_of_map_to_list.
Qed.
End aggsigdb.

(** ** A concrete run *)

Module AggSigSample.
Definition d7 : Duty := {| slot := 7; duty_type := Attester |}.

(** Request 0 comes before the value, request 1 after it, request 2 is for
    another validator. *)
Definition events : list (@Event Z Z _ _) :=
  [WaitFor d7 1 0; WaitFor d7 2 2; Store default_order d7 {[1 := 5]}; WaitFor d7 1 1].

Lemma waiters_answered_witness :
  responses (run events actor_new) = [(0%nat, 5); (1%nat, 5)] /\
  (1%nat, (d7, 1)) ∈ asked (run events actor_new) /\
  exists k, (1%nat, k) ∈ asked (run events actor_new) /\ (k, 5) ∈ history (run events actor_new).
Proof.
  assert ((1%nat, (d7, 1)) ∈ asked (run events actor_new)) as Hask
    by (apply list_elem_of_In; vm_compute; auto).
  split; [reflexivity|split; [exact Hask|]].
  apply (proj2 (waiters_answered events 1 d7 1 Hask)). apply list_elem_of_In. vm_compute. auto.
Defined.

Definition s1 : @Actor Z Z _ _ := run events actor_new.

Lemma stored_signature_stable_witness :
  store default_order d7 {[1 := 6]} s1 = (fst (store default_order d7 {[1 := 6]} s1), Err MismatchingData) /\
  get d7 1 (fst (store default_order d7 {[1 := 6]} s1)) = Some 5.
Proof.
  assert (store default_order d7 {[1 := 6]} s1 = (fst (store default_order d7 {[1 := 6]} s1), Err MismatchingData))
    as Hs by (vm_compute; reflexivity).
  split; [exact Hs|].
  exact (proj1 (stored_signature_stable default_order d7 {[1 := 6]} s1 _ _ Hs) d7 1 5 eq_refl).
Defined.
End AggSigSample.
