(* ===== verification/Tbls.v ===== *)
(** * Threshold BLS signatures

    [crates/crypto/src/blst_impl.rs]: splitting a secret key into shares of a
    random polynomial, recovering it, and combining partial signatures by
    Lagrange interpolation at 0.  The curve library blst is a parameter: a
    record of the functions the code calls, with the laws it relies on.
    Scalars are the field of prime order [p], signatures a module over it. *)

From mathcomp Require Import boot algebra.

Set Implicit Arguments.
Unset Strict Implicit.
Unset Printing Implicit Defensive.

Import GRing.Theory.
Local Open Scope ring_scope.

(** ** Errors *)

Inductive tbls_error :=
| InvalidSecretKey
| InvalidSignature
| InvalidThreshold of nat & nat
| EmptySignatureArray
| DivisionByZero
| FailedToConvertSkToBlstScalar
| FailedToAddScalars
| FailedToMultiplyScalars
| IndicesNotUnique
| SharesAreEmpty
| FailedToConvertScalarToSecretKey
| IndicesSharesMismatch
| PolynomialIsEmpty.

Inductive tresult (A : Type) :=
| TOk of A
| TErr of tbls_error.
Arguments TErr {A} _.

Definition tbind {A B : Type} (m : tresult A) (f : A -> tresult B) : tresult B :=
  match m with TOk x => f x | TErr e => TErr e end.

Definition tok_or {A : Type} (o : option A) (e : tbls_error) : tresult A :=
  if o is Some x then TOk x else TErr e.

Declare Scope tbls_scope.
Notation "x <-? m ;; k" := (tbind m (fun x => k))
  (at level 61, m at next level, right associativity) : tbls_scope.
Local Open Scope tbls_scope.

(** [iter().map(f).collect::<Result<Vec<_>, _>>()], and loops that push. *)
Fixpoint collect {A B : Type} (f : A -> tresult B) (s : seq A) : tresult (seq B) :=
  if s is x :: s' then y <-? f x;; ys <-? collect f s';; TOk (y :: ys) else TOk [::].

(** A loop that updates an accumulator and may fail. *)
Fixpoint tfold {A S : Type} (f : S -> A -> tresult S) (acc : S) (s : seq A) : tresult S :=
  if s is x :: s' then acc' <-? f acc x;; tfold f acc' s' else TOk acc.

Section tbls.
Variables (p : nat) (V : lmodType 'F_p) (KeyBytes SigBytes Data Ikm : Type).

(** What the code calls of blst. *)
Record Blst := {
  scalar_from_uint64 : nat -> 'F_p;
  sk_add_n_check : 'F_p -> 'F_p -> option 'F_p;
  sk_mul_n_check : 'F_p -> 'F_p -> option 'F_p;
  sk_inverse : 'F_p -> 'F_p;
  fr_sub : 'F_p -> 'F_p -> 'F_p;
  sk_check : 'F_p -> bool;
  p2_mult : V -> 'F_p -> V;
  p2_add : V -> V -> V;
  sk_from_bytes : KeyBytes -> option 'F_p;
  sk_to_bytes : 'F_p -> KeyBytes;
  sig_from_bytes : SigBytes -> option V;
  sig_to_bytes : V -> SigBytes;
  key_gen : Ikm -> option 'F_p;
  sk_sign : 'F_p -> Data -> V;
}.

(** Its documented behaviour: arithmetic in the scalar field, where the
    checked operations and the conversion to a secret key refuse 0; the group
    operations; serialisation that can be read back; signing multiplies the
    hash of the message by the key. *)
Record blst_laws (B : Blst) : Prop := {
  law_u64 : forall v, scalar_from_uint64 B v = v%:R;
  law_add : forall a b, sk_add_n_check B a b = if a + b == 0 then None else Some (a + b);
  law_mul : forall a b, sk_mul_n_check B a b = if a * b == 0 then None else Some (a * b);
  law_inv : forall a, a != 0 -> sk_inverse B a = a^-1;
  law_sub : forall a b, fr_sub B a b = a - b;
  law_check : forall a, sk_check B a = (a != 0);
  law_mult : forall s a, p2_mult B s a = a *: s;
  law_p2_add : forall s t, p2_add B s t = s + t;
  law_sk_bytes : forall a, a != 0 -> sk_from_bytes B (sk_to_bytes B a) = Some a;
  law_sk_valid : forall b a, sk_from_bytes B b = Some a -> a != 0;
  law_sig_bytes : forall s, sig_from_bytes B (sig_to_bytes B s) = Some s;
  law_sign : exists h, forall sk d, sk_sign B sk d = sk *: h d;
}.

Variable B : Blst.

(** ** Scalars *)

Definition scalar_from_u64 (val : nat) : 'F_p := scalar_from_uint64 B val.

Definition scalar_add (a b : 'F_p) : tresult 'F_p :=
  tok_or (sk_add_n_check B a b) FailedToAddScalars.

Definition scalar_mult_scalars (a b : 'F_p) : tresult 'F_p :=
  tok_or (sk_mul_n_check B a b) FailedToMultiplyScalars.

Definition scalar_negate (a : 'F_p) : tresult 'F_p := TOk (fr_sub B (scalar_from_u64 0) a).

Definition scalar_div (numerator denominator : 'F_p) : tresult 'F_p :=
  if denominator == 0 then TErr DivisionByZero
  else scalar_mult_scalars numerator (sk_inverse B denominator).

Definition scalar_mult_secret (sk scalar : 'F_p) : tresult 'F_p :=
  r <-? scalar_mult_scalars sk scalar;;
  if sk_check B r then TOk r else TErr FailedToConvertSkToBlstScalar.

Definition scalar_add_secret (sk1 sk2 : 'F_p) : tresult 'F_p :=
  r <-? scalar_add sk1 sk2;;
  if sk_check B r then TOk r else TErr FailedToConvertScalarToSecretKey.

Definition signature_mult (sig : V) (scalar : 'F_p) : tresult V := TOk (p2_mult B sig scalar).

(** ** Polynomials *)

(** The loop of [evaluate_polynomial]; [many] is [poly.len() > 2]. *)
Definition eval_step (many : bool) (x : nat) (acc : 'F_p * 'F_p) (coeff : 'F_p)
    : tresult ('F_p * 'F_p) :=
  let: (result, x_power) := acc in
  term <-? scalar_mult_secret coeff x_power;;
  result' <-? scalar_add_secret result term;;
  if many then
    x_power' <-? scalar_mult_scalars x_power (scalar_from_u64 x);;
    TOk (result', x_power')
  else TOk (result', x_power).

Definition evaluate_polynomial (poly : seq 'F_p) (x : nat) : tresult 'F_p :=
  if poly is a0 :: coeffs then
    r <-? tfold (eval_step (2 < size poly)%N x) (a0, scalar_from_u64 x) coeffs;;
    TOk r.1
  else TErr PolynomialIsEmpty.

(** ** Lagrange interpolation at 0 *)

(** The inner loop: numerator and denominator of the coefficient of [x_i]. *)
Definition lagrange_step (i x_i : nat) (acc : 'F_p * 'F_p) (jx : nat * nat) : tresult ('F_p * 'F_p) :=
  let: (numerator, denominator) := acc in
  let: (j, x_j) := jx in
  if i == j then TOk acc
  else
    numerator' <-? scalar_mult_scalars numerator (scalar_from_u64 x_j);;
    diff <-? (if (x_i < x_j)%N then TOk (scalar_from_u64 (x_j - x_i))
              else scalar_negate (scalar_from_u64 (x_i - x_j)));;
    denominator' <-? scalar_mult_scalars denominator diff;;
    TOk (numerator', denominator').

Definition enumerate (s : seq nat) : seq (nat * nat) := zip (iota 0 (size s)) s.

Definition compute_lagrange_coefficients (indices : seq nat) : tresult (seq 'F_p) :=
  if size indices != size (undup indices) then TErr IndicesNotUnique
  else collect (fun ix : nat * nat =>
    nd <-? tfold (lagrange_step ix.1 ix.2) (scalar_from_u64 1, scalar_from_u64 1) (enumerate indices);;
    scalar_div nd.1 nd.2) (enumerate indices).

Definition lagrange_interpolate_secret (indices : seq nat) (shares : seq 'F_p) : tresult 'F_p :=
  if (size indices != size shares) || nilp indices then TErr IndicesSharesMismatch
  else
    coeffs <-? compute_lagrange_coefficients indices;;
    tfold (fun result (sc : 'F_p * 'F_p) =>
      term <-? scalar_mult_secret sc.1 sc.2;;
      scalar_add_secret result term) 0 (zip shares coeffs).

Definition lagrange_interpolate_signature (indices : seq nat) (signatures : seq V) : tresult V :=
  if (size indices != size signatures) || nilp indices then TErr EmptySignatureArray
  else
    coeffs <-? compute_lagrange_coefficients indices;;
    if zip signatures coeffs is (s0, c0) :: rest then
      first_sig_scaled <-? signature_mult s0 c0;;
      tfold (fun result (sc : V * 'F_p) =>
        sig_scaled <-? signature_mult sc.1 sc.2;;
        TOk (p2_add B result sig_scaled)) first_sig_scaled rest
    else TErr EmptySignatureArray.

(** ** The [Tbls] operations *)

Definition sign (private_key : KeyBytes) (data : Data) : tresult SigBytes :=
  sk <-? tok_or (sk_from_bytes B private_key) InvalidSecretKey;;
  TOk (sig_to_bytes B (sk_sign B sk data)).

(** A hash map of shares is a list of its entries in the order the map is
    iterated; [rng k] is what the [k]-th [fill_bytes] returns. *)
Definition threshold_split_insecure (secret_key : KeyBytes) (total threshold : nat) (rng : nat -> Ikm)
    : tresult (seq (nat * KeyBytes)) :=
  if (threshold <= 1)%N || (total < threshold)%N then TErr (InvalidThreshold threshold total)
  else
    sk <-? tok_or (sk_from_bytes B secret_key) InvalidSecretKey;;
    coeffs <-? collect (fun k => tok_or (key_gen B (rng k)) InvalidSecretKey) (iota 0 threshold.-1);;
    collect (fun i =>
      share <-? evaluate_polynomial (sk :: coeffs) i;;
      TOk (i, sk_to_bytes B share)) (iota 1 total).

Definition recover_secret (shares : seq (nat * KeyBytes)) : tresult KeyBytes :=
  if nilp shares then TErr SharesAreEmpty
  else
    share_secrets <-? collect (fun b => tok_or (sk_from_bytes B b) InvalidSecretKey) (unzip2 shares);;
    recovered <-? lagrange_interpolate_secret (unzip1 shares) share_secrets;;
    TOk (sk_to_bytes B recovered).

Definition threshold_aggregate (partial_signatures_by_idx : seq (nat * SigBytes)) : tresult SigBytes :=
  if nilp partial_signatures_by_idx then TErr EmptySignatureArray
  else
    signatures <-? collect (fun b => tok_or (sig_from_bytes B b) InvalidSignature)
      (unzip2 partial_signatures_by_idx);;
    recovered_sig <-? lagrange_interpolate_signature (unzip1 partial_signatures_by_idx) signatures;;
    TOk (sig_to_bytes B recovered_sig).
End tbls.

(** ** Interpolation *)

Section lagrange.
Variable F : fieldType.
Implicit Types (xs : seq F) (f : {poly F}) (x y : F).

(** The basis polynomial of [x]: 1 at [x], 0 at the other points. *)
Definition basis xs x : {poly F} :=
  (\prod_(y <- rem x xs) (x - y))^-1 *: \prod_(y <- rem x xs) ('X - y%:P).

Lemma basis_den xs x : uniq xs -> \prod_(y <- rem x xs) (x - y) != 0.
Proof.
move=> uxs; rw prodf_seq_neq0; apply/allP => y /=.
by rw mem_rem_uniq // inE subr_eq0 eq_sym => /andP[].
Qed.

Lemma basis_self xs x : uniq xs -> (basis xs x).[x] = 1.
Proof.
move=> uxs; rw /basis hornerZ horner_prod.
under [X in _ * X]eq_bigr do rw hornerXsubC.
by rw mulVf // basis_den.
Qed.

Lemma basis_other xs x y : uniq xs -> y \in xs -> y != x -> (basis xs x).[y] = 0.
Proof.
move=> uxs yxs yx; rw /basis hornerZ; apply/eqP; rw mulf_eq0; apply/orP; right.
rw -/(root _ _) root_prod_XsubC.
by rw mem_rem_uniq // inE yx.
Qed.

Lemma size_basis xs x : x \in xs -> (size (basis xs x) <= size xs)%N.
Proof.
move=> xxs; apply: leq_trans (size_scale_leq _ _) _.
by rw size_prod_XsubC size_rem // prednK // -has_predT; apply/hasP; exists x.
Qed.

(** A polynomial is the interpolation of its values. *)
Lemma lagrange_poly xs f :
  uniq xs -> (size f <= size xs)%N -> f = \sum_(x <- xs) f.[x] *: basis xs x.
Proof.
move=> uxs szf; apply/eqP; rw -subr_eq0; apply/eqP.
apply: (@roots_geq_poly_eq0 _ _ xs) => //.
- apply/allP => y yxs; rw /root hornerD hornerN horner_sum.
  have rest : \sum_(x <- xs | x != y) (f.[x] *: basis xs x).[y] = 0.
    apply: big1_seq => x /andP[xy xxs].
    by rw hornerZ basis_other ?mulr0 // eq_sym.
  by rw (bigD1_seq y) //= rest hornerZ basis_self // mulr1 addr0 subrr.
- apply: leq_trans (size_polyD _ _) _; rw geq_max szf size_polyN /=.
  apply: leq_trans (size_sum _ _ _) _; apply/bigmax_leqP_seq => x xxs _.
  by apply: leq_trans (size_scale_leq _ _) _; apply: size_basis.
Qed.

(** Its value at 0. *)
Lemma lagrange_at0 xs f :
  uniq xs -> (size f <= size xs)%N ->
  f.[0] = \sum_(x <- xs) f.[x] * \prod_(y <- xs | y != x) (y / (y - x)).
Proof.
move=> uxs szf; rw {1}(lagrange_poly uxs szf) horner_sum.
rw big_seq [RHS]big_seq; apply: eq_bigr => x xxs; rw hornerZ; congr (_ * _).
rw /basis hornerZ horner_prod -prodfV -big_split /= rem_filter // big_filter.
by apply: eq_bigr => y _; rw hornerXsubC sub0r -[y - x]opprB invrN !mulrN mulrC.
Qed.
End lagrange.

(** ** What the code computes *)

Lemma collect_ok {A B : eqType} (f : A -> tresult B) (g : A -> B) (s : seq A) :
  {in s, forall x, f x = TOk (g x)} -> collect f s = TOk (map g s).
Proof.
elim: s => //= x s IH fg; rw fg ?mem_head //= IH // => y ys.
by apply: fg; rw in_cons ys orbT.
Qed.

Lemma collect_inv {A : eqType} {B : Type} (f : A -> tresult B) (h : A -> B) s ys :
  {in s, forall x y, f x = TOk y -> y = h x} -> collect f s = TOk ys -> ys = map h s.
Proof.
elim: s ys => [|x s IH] ys /= fh; first by case=> <-.
case fx: (f x) => [y|//] /=; case fs: collect => [ys'|//] /= [<-].
rw (fh x (mem_head _ _) y fx) -(IH ys') // => z zs; apply: fh.
by rw in_cons zs orbT.
Qed.

Lemma collect_all {A : eqType} {B : Type} (f : A -> tresult B) s ys :
  collect f s = TOk ys -> {in s, forall x, exists y, f x = TOk y}.
Proof.
elim: s ys => [|x s IH] ys //=; case fx: (f x) => [y|//] /=; case fs: collect => [ys'|//] /= _ z.
by rw in_cons => /orP[/eqP->|zs]; [exists y | apply: IH fs _ zs].
Qed.

Lemma collect_size {A B : Type} (f : A -> tresult B) s ys : collect f s = TOk ys -> size ys = size s.
Proof.
elim: s ys => [|x s IH] ys /=; first by case=> <-.
by case: (f x) => [y|//] /=; case fs: collect => [ys'|//] /= [<-] /=; rw (IH _ fs).
Qed.

Section correctness.
Variables (p : nat) (V : lmodType 'F_p) (KeyBytes SigBytes : eqType) (Data Ikm : Type).
Variable B : Blst V KeyBytes SigBytes Data Ikm.
Hypotheses (p_prime : prime p) (LB : blst_laws B).

(** An index of a share: a non-zero [u64] below the order of the field (for
    BLS12-381, whose order exceeds [2^64], every non-zero [u64]). *)
Definition share_index (i : nat) : bool := (0 < i < p)%N.

Lemma natr_inj (a b : nat) : (a < p)%N -> (b < p)%N -> (a%:R == b%:R :> 'F_p) = (a == b).
Proof.
move=> ap bp; apply/eqP/eqP => [|-> //] /(congr1 val).
by rw /= !val_Fp_nat // !modn_small.
Qed.

Lemma share_index_neq0 i : share_index i -> i%:R != 0 :> 'F_p.
Proof.
case/andP=> i0 ip; have /= -> := natr_inj ip (prime_gt0 p_prime).
by rw -lt0n.
Qed.

Lemma mult_scalars_ok a b : a != 0 -> b != 0 -> scalar_mult_scalars B a b = TOk (a * b).
Proof. by move=> a0 b0; rw /scalar_mult_scalars law_mul // mulf_eq0 (negPf a0) (negPf b0). Qed.

Lemma from_u64E v : scalar_from_u64 B v = v%:R.
Proof. by rw /scalar_from_u64 law_u64. Qed.

(** The difference the code computes is the one in the field. *)
Lemma diff_ok x y :
  (if (x < y)%N then TOk (scalar_from_u64 B (y - x))
   else scalar_negate B (scalar_from_u64 B (x - y))) = TOk (y%:R - x%:R).
Proof.
case: ltnP => [/ltnW|] xy; first by rw from_u64E natrB.
by rw /scalar_negate !from_u64E law_sub // natrB // sub0r opprB.
Qed.

Lemma lagrange_loop_ok i x (jxs : seq (nat * nat)) num den :
  share_index x -> num != 0 -> den != 0 ->
  {in jxs, forall jx : nat * nat, share_index jx.2 /\ (jx.2 == x) = (jx.1 == i)} ->
  tfold (lagrange_step B i x) (num, den) jxs =
    TOk (num * \prod_(jx <- jxs | jx.2 != x) jx.2%:R,
         den * \prod_(jx <- jxs | jx.2 != x) (jx.2%:R - x%:R)).
Proof.
move=> xi; elim: jxs num den => [|[j y] jxs IH] num den n0 d0 H /=; first by rw !big_nil !mulr1.
have [yi yx] := H (j, y) (mem_head _ _); rw /= in yi yx.
have {}H : {in jxs, forall jx : nat * nat, share_index jx.2 /\ (jx.2 == x) = (jx.1 == i)}.
  by move=> jx jxin; apply: H; rw in_cons jxin orbT.
rw !big_cons /= yx [i == j]eq_sym; case ji: (j == i) => /=; first exact: IH.
have yx0 : y%:R - x%:R != 0 :> 'F_p.
  by case/andP: yi => _ yp; case/andP: xi => _ xp; rw subr_eq0 natr_inj // yx ji.
rw diff_ok /= from_u64E !mult_scalars_ok ?share_index_neq0 //=.
by rw IH ?mulf_neq0 ?share_index_neq0 // !mulrA.
Qed.

(** The coefficient of [x] among the indices. *)
Definition coeff (idx : seq nat) (x : nat) : 'F_p :=
  \prod_(y <- idx | y != x) (y%:R / (y%:R - x%:R)).

Lemma enumerate_snd s : unzip2 (enumerate s) = s.
Proof. by rw /enumerate unzip2_zip // size_iota. Qed.

Lemma enumerate_fst_snd s ix jx :
  uniq s -> ix \in enumerate s -> jx \in enumerate s -> (jx.2 == ix.2) = (jx.1 == ix.1).
Proof.
have mem_enum kx : kx \in enumerate s -> (kx.1 < size s)%N /\ kx.2 = nth 0%N s kx.1.
  case/(nthP (0, 0)%N) => k; rw size_zip size_iota minnn => ks <-.
  by rw nth_zip ?size_iota //= nth_iota.
move=> us /mem_enum[lti ->] /mem_enum[ltj ->]; exact: nth_uniq.
Qed.

Lemma coefficients_ok idx :
  uniq idx -> all share_index idx -> compute_lagrange_coefficients B idx = TOk (map (coeff idx) idx).
Proof.
move=> us /allP si; rw /compute_lagrange_coefficients undup_id // eqxx /=.
have mem2 jx : jx \in enumerate idx -> jx.2 \in idx.
  by move=> jxin; rw -[X in _ \in X](enumerate_snd idx); apply: map_f.
rw (collect_ok (g := fun ix => coeff idx ix.2)) => [ix ixin|]; last first.
  by rw (map_comp (coeff idx) snd) -/(unzip2 _) enumerate_snd.
rw lagrange_loop_ok ?from_u64E ?oner_neq0 //.
- exact/si/mem2.
- by move=> jx jxin; split; [apply/si/mem2 | apply: enumerate_fst_snd us ixin jxin].
rw /= !mul1r -(big_map snd (fun y => y != ix.2) (fun y => y%:R)).
rw -(big_map snd (fun y => y != ix.2) (fun y => y%:R - ix.2%:R)) -/(unzip2 _) enumerate_snd.
have den0 : \prod_(y <- idx | y != ix.2) (y%:R - ix.2%:R) != 0 :> 'F_p.
  rw prodf_seq_neq0; apply/allP => y yin; apply/implyP => yx.
  have [/andP[_ yp] /andP[_ xp]] := (si _ yin, si _ (mem2 _ ixin)).
  by rw subr_eq0 natr_inj.
have num0 : \prod_(y <- idx | y != ix.2) y%:R != 0 :> 'F_p.
  by rw prodf_seq_neq0; apply/allP => y yin; apply/implyP => _; apply/share_index_neq0/si.
by rw /scalar_div (negPf den0) law_inv // mult_scalars_ok ?invr_neq0 // /coeff prodf_div.
Qed.

(** The coefficients interpolate at 0. *)
Lemma coeff_interpolates idx (f : {poly 'F_p}) :
  uniq idx -> all share_index idx -> (size f <= size idx)%N ->
  \sum_(x <- idx) f.[x%:R] * coeff idx x = f.[0].
Proof.
move=> us /allP si szf; pose xs := [seq (x%:R : 'F_p) | x <- idx].
have inj : {in idx &, forall x y : nat, (x%:R == y%:R :> 'F_p) = (x == y)}.
  by move=> x y /si/andP[_ xp] /si/andP[_ yp]; apply: natr_inj.
have uxs : uniq xs.
  by rw map_inj_in_uniq // => x y xin yin /eqP; rw inj // => /eqP.
rw (lagrange_at0 uxs) ?size_map // big_map big_seq [RHS]big_seq; apply: eq_bigr => x xin.
congr (_ * _); rw /coeff big_map big_seq_cond [RHS]big_seq_cond.
by apply: eq_bigl => y; case yin: (y \in idx) => //=; rw inj.
Qed.

Lemma interpolate_signature_ok idx (g : nat -> V) :
  idx != [::] -> uniq idx -> all share_index idx ->
  lagrange_interpolate_signature B idx (map g idx) = TOk (\sum_(x <- idx) coeff idx x *: g x).
Proof.
move=> idx0 us si; rw /lagrange_interpolate_signature size_map eqxx /= /nilp size_eq0 (negPf idx0).
rw coefficients_ok //=; case: idx idx0 us si => // x0 idx _ _ _ /=.
rw law_mult // big_cons; move: (coeff _) => c.
elim: idx (c x0 *: g x0) => [|x idx IH] acc /=; first by rw big_nil addr0.
by rw big_cons addrA -IH law_mult // law_p2_add.
Qed.

(** ** Evaluating the polynomial *)

Lemma mult_secret_inv a b r : scalar_mult_secret B a b = TOk r -> r = a * b.
Proof.
rw /scalar_mult_secret /scalar_mult_scalars law_mul //; case: eqP => //= _.
by case: ifP => // _ [].
Qed.

Lemma add_secret_inv a b r : scalar_add_secret B a b = TOk r -> r = a + b /\ r != 0.
Proof.
rw /scalar_add_secret /scalar_add law_add //; case: eqP => //= ab0.
by case: ifP => // _ [<-]; split=> //; apply/eqP.
Qed.

Lemma eval_loop_inv many x cs acc r :
  many || (size cs <= 1)%N -> acc.1 != 0 -> tfold (eval_step B many x) acc cs = TOk r ->
  r.1 = acc.1 + acc.2 * (Poly cs).[x%:R] /\ r.1 != 0.
Proof.
elim: cs acc => [|c cs IH] [res xp] many_cs /= res0; first by case=> <-; rw horner0 mulr0 addr0.
case Ht: scalar_mult_secret => [t|//] /=; case Ha: scalar_add_secret => [res'|//] /=.
move: Ht => /mult_secret_inv Ht; move: Ha => /add_secret_inv[Ha Ha0]; rw horner_cons.
case: many many_cs IH => [_ IH|/= cs0 IH].
- rw /scalar_mult_scalars law_mul //; case: eqP => //= _ H; have [-> ?] := IH (res', _) isT Ha0 H.
  split=> //=; rw Ha Ht from_u64E mulrDr [xp * c]mulrC [_.[_] * _]mulrC !mulrA -!addrA.
  by congr (_ + _); rw addrC.
- by case: cs cs0 {IH} => // _ [<-]; split=> //=; rw horner0 mul0r add0r Ha Ht mulrC.
Qed.

Lemma evaluate_polynomial_inv a0 cs x r :
  a0 != 0 -> evaluate_polynomial B (a0 :: cs) x = TOk r -> r = (Poly (a0 :: cs)).[x%:R] /\ r != 0.
Proof.
move=> a00 /=; case Hl: tfold => [acc|//] /= [<-].
have [|//|->] := eval_loop_inv _ _ Hl; first by case: cs {Hl} => [|c1 [|c2 cs]].
by rw horner_cons /= from_u64E mulrC addrC.
Qed.

(** ** Shares and what a threshold of them does *)

#[local] Arguments evaluate_polynomial : simpl never.

(** The shares are the values of a polynomial with the secret at 0. *)
Lemma split_shares secret total threshold rng shares :
  threshold_split_insecure B secret total threshold rng = TOk shares ->
  (1 < threshold)%N /\
  exists sk (f : {poly 'F_p}), [/\ sk_from_bytes B secret = Some sk, (size f <= threshold)%N, f.[0] = sk,
    shares = [seq (i, sk_to_bytes B f.[i%:R]) | i <- iota 1 total] &
    {in iota 1 total, forall i, f.[i%:R] != 0}].
Proof.
rw /threshold_split_insecure; case: ifP => //= /negbT; rw negb_or -ltnNge => /andP[t1 _].
case sks: sk_from_bytes => [sk|//] /=; case cs: collect => [coeffs|//] /= sh.
have sk0 := law_sk_valid LB sks; split=> //; exists sk, (Poly (sk :: coeffs)); split=> //.
- apply: leq_trans (size_Poly _) _; rw /= (collect_size cs) size_iota prednK //.
  exact: ltn_trans t1.
- by rw horner_cons mulr0 add0r.
- apply: collect_inv sh => i _ y /=; case ev: (evaluate_polynomial B _ i) => [r|//] /= [<-].
  by have [-> _] := evaluate_polynomial_inv sk0 ev.
- move=> i iin; have [y /=] := collect_all sh iin; case ev: (evaluate_polynomial B _ i) => [r|//] _.
  by have [<- ->] := evaluate_polynomial_inv sk0 ev.
Qed.

(** Shares chosen among those of a split, by their indices. *)
Lemma chosen_shares (f : {poly 'F_p}) total chosen :
  {subset chosen <= [seq (i, sk_to_bytes B f.[i%:R]) | i <- iota 1 total]} ->
  chosen = [seq (i, sk_to_bytes B f.[i%:R]) | i <- unzip1 chosen] /\
  {subset unzip1 chosen <= iota 1 total}.
Proof.
move=> sub; split.
- rw -map_comp -[LHS]map_id; apply/eq_in_map => s /sub/mapP[i _ ->] //.
- by move=> i /mapP[s /sub/mapP[j jin ->] ->].
Qed.

Lemma total_share_index total idx :
  (total < p)%N -> {subset idx <= iota 1 total} -> all share_index idx.
Proof.
move=> tp sub; apply/allP => i /sub; rw mem_iota add1n ltnS => /andP[i1 it].
by rw /share_index i1 (leq_ltn_trans it tp).
Qed.

(** C3: any threshold of partial signatures makes the validator's signature.
    Split a secret key into [total] shares with threshold [threshold]; let any
    set of at least [threshold] different share holders sign a message and
    aggregate their partial signatures in any order: the result is, byte for
    byte, the signature of the original secret key. *)
Theorem threshold_signature secret total threshold rng shares chosen data :
  (total < p)%N ->
  threshold_split_insecure B secret total threshold rng = TOk shares ->
  {subset chosen <= shares} -> uniq (unzip1 chosen) -> (threshold <= size chosen)%N ->
  exists sig, sign B secret data = TOk sig /\
    tbind (collect (fun s => tbind (sign B s.2 data) (fun x => TOk (s.1, x))) chosen)
      (threshold_aggregate B) = TOk sig.
Proof.
move=> tp /split_shares[t1 [sk [f [sks szf f0 -> fnz]]]] sub us szc.
have [echosen sub1] := chosen_shares sub; have si := total_share_index tp sub1.
have [h hE] := law_sign LB; exists (sig_to_bytes B (sk *: h data)); rw /sign sks /= hE; split=> //.
have idx0 : unzip1 chosen != [::] by rw -size_eq0 size_map -lt0n (leq_trans _ szc) // ltnW.
move: echosen; set idx := unzip1 chosen in us sub1 si idx0 * => echosen.
pose g i := f.[i%:R] *: h data.
have -> : collect (fun s : nat * KeyBytes => tbind (sign B s.2 data) (fun x => TOk (s.1, x))) chosen =
          TOk [seq (i, sig_to_bytes B (g i)) | i <- idx].
  rw [X in collect _ X]echosen (collect_ok (g := fun s => (s.1, sig_to_bytes B (g s.1)))) =>
    [s /mapP[i iin ->]|]; last by rw -map_comp.
  by rw /sign /= (law_sk_bytes LB (fnz _ (sub1 _ iin))) /= hE.
rw /= /threshold_aggregate /nilp size_map size_eq0 (negPf idx0).
have -> : unzip1 [seq (i, sig_to_bytes B (g i)) | i <- idx] = idx by rw /unzip1 -map_comp map_id.
have -> : unzip2 [seq (i, sig_to_bytes B (g i)) | i <- idx] = map (sig_to_bytes B) (map g idx).
  by rw /unzip2 -!map_comp.
have -> : collect (fun b => tok_or (sig_from_bytes B b) InvalidSignature) (map (sig_to_bytes B) (map g idx)) =
          TOk (map g idx).
  by elim: (map g idx) => //= x s ->; rw law_sig_bytes.
rw /= interpolate_signature_ok //=; congr (TOk (sig_to_bytes B _)).
rw -f0 -(coeff_interpolates us si) ?(leq_trans szf) ?size_map // scaler_suml.
by apply: eq_bigr => x _; rw /g scalerA mulrC.
Qed.

(** The running sums of [lagrange_interpolate_secret] that blst's addition
    refuses when they are 0. *)
Fixpoint sums_nonzero (acc : 'F_p) (ts : seq 'F_p) : bool :=
  if ts is t :: ts' then (acc + t != 0) && sums_nonzero (acc + t) ts' else true.

Lemma coeff_neq0 idx x : uniq idx -> all share_index idx -> x \in idx -> coeff idx x != 0.
Proof.
move=> us /allP si xin; rw prodf_seq_neq0; apply/allP => y yin; apply/implyP => yx.
have [/andP[_ yp] /andP[_ xp]] := (si _ yin, si _ xin).
by rw mulf_neq0 ?share_index_neq0 ?si // invr_neq0 // subr_eq0 natr_inj.
Qed.

Lemma mult_secret_ok a b : a != 0 -> b != 0 -> scalar_mult_secret B a b = TOk (a * b).
Proof. by move=> a0 b0; rw /scalar_mult_secret mult_scalars_ok //= law_check // mulf_neq0. Qed.

Lemma add_secretE a b :
  scalar_add_secret B a b = if a + b == 0 then TErr FailedToAddScalars else TOk (a + b).
Proof.
rw /scalar_add_secret /scalar_add law_add //; case: eqP => //= /eqP ab0.
by rw law_check // ab0.
Qed.

Lemma secret_loop_ok (scs : seq ('F_p * 'F_p)) acc :
  all (fun sc => (sc.1 != 0) && (sc.2 != 0)) scs ->
  tfold (fun result (sc : 'F_p * 'F_p) =>
      tbind (scalar_mult_secret B sc.1 sc.2) (fun term => scalar_add_secret B result term)) acc scs =
    if sums_nonzero acc [seq sc.1 * sc.2 | sc <- scs]
    then TOk (acc + \sum_(sc <- scs) sc.1 * sc.2) else TErr FailedToAddScalars.
Proof.
elim: scs acc => [|[a b] scs IH] acc /=; first by rw big_nil addr0.
case/andP=> /andP[a0 b0] nz; rw mult_secret_ok //= add_secretE; case: eqP => //= _.
by rw IH // big_cons addrA.
Qed.

(** Any threshold of shares recovers the secret key.  The result is the
    original secret; the only other outcome is an error, exactly when a running
    sum of the interpolation happens to be 0, which blst's addition refuses. *)
Theorem threshold_recovery secret total threshold rng shares chosen :
  (total < p)%N ->
  threshold_split_insecure B secret total threshold rng = TOk shares ->
  {subset chosen <= shares} -> uniq (unzip1 chosen) -> (threshold <= size chosen)%N ->
  exists sk, sk_from_bytes B secret = Some sk /\
    recover_secret B chosen =
      if sums_nonzero 0 [seq odflt 0 (sk_from_bytes B s.2) * coeff (unzip1 chosen) s.1 | s <- chosen]
      then TOk (sk_to_bytes B sk) else TErr FailedToAddScalars.
Proof.
move=> tp /split_shares[t1 [sk [f [sks szf f0 -> fnz]]]] sub us szc; exists sk; split=> //.
have [echosen sub1] := chosen_shares sub; have si := total_share_index tp sub1.
have idx0 : unzip1 chosen != [::] by rw -size_eq0 size_map -lt0n (leq_trans _ szc) // ltnW.
rw /recover_secret /nilp size_eq0; have /negPf-> : chosen != [::] by case: (chosen) idx0.
move: echosen; set idx := unzip1 chosen in us sub1 si idx0 * => echosen.
have fbytes i : i \in idx -> sk_from_bytes B (sk_to_bytes B f.[i%:R]) = Some f.[i%:R].
  by move=> iin; rw (law_sk_bytes LB (fnz _ (sub1 _ iin))).
have -> : unzip2 chosen = [seq sk_to_bytes B f.[i%:R] | i <- idx].
  by rw {1}echosen /unzip2 -map_comp.
have -> : collect (fun b => tok_or (sk_from_bytes B b) InvalidSecretKey) [seq sk_to_bytes B f.[i%:R] | i <- idx] =
          TOk [seq f.[i%:R] | i <- idx].
  move: fbytes; elim: (idx) => //= i l IH fb.
  by rw fb ?mem_head //= IH // => j jl; apply: fb; rw in_cons jl orbT.
have -> : [seq odflt 0 (sk_from_bytes B s.2) * coeff idx s.1 | s <- chosen] =
          [seq f.[i%:R] * coeff idx i | i <- idx].
  by rw {1}echosen -map_comp; apply/eq_in_map => i iin /=; rw fbytes.
rw /= /lagrange_interpolate_secret size_map eqxx /nilp size_eq0 (negPf idx0) /= coefficients_ok //=.
rw zip_map secret_loop_ok.
  apply/allP => sc /mapP[i iin ->] /=; rw fnz ?sub1 //=; exact: coeff_neq0.
rw -map_comp big_map /= add0r.
rw coeff_interpolates ?(leq_trans szf) ?size_map // f0.
by case: sums_nonzero.
Qed.
End correctness.

(** ** A small instance

    The field of order 7, whose elements are their own serialisation, and
    signatures in the field itself: the secret 3 is split over the polynomial
    [3 + X] into the shares 4, 5 and 6. *)
Module TblsSample.
Definition blst7 : Blst ('F_7)^o 'F_7 'F_7 nat 'F_7 := {|
  scalar_from_uint64 := fun v => v%:R;
  sk_add_n_check := fun a b => if a + b == 0 then None else Some (a + b);
  sk_mul_n_check := fun a b => if a * b == 0 then None else Some (a * b);
  sk_inverse := fun a => a^-1;
  fr_sub := fun a b => a - b;
  sk_check := fun a => a != 0;
  p2_mult := fun s a => a *: s;
  p2_add := fun s t => s + t;
  sk_from_bytes := fun b => if b == 0 then None else Some b;
  sk_to_bytes := id;
  sig_from_bytes := fun b => Some b;
  sig_to_bytes := id;
  key_gen := fun b => if b == 0 then None else Some b;
  sk_sign := fun sk d => sk *: (d.+1%:R : ('F_7)^o) |}.

Lemma blst7_laws : blst_laws blst7.
Proof.
split=> //=; first by move=> a /negPf ->.
- by move=> b a; case: eqP => // /eqP b0 [<-].
- by exists (fun d => d.+1%:R).
Qed.

Definition get_ok {A : Type} (r : tresult (seq A)) : seq A := if r is TOk s then s else [::].
Definition is_ok {A : Type} (r : tresult A) : bool := if r is TOk _ then true else false.

Definition split7 := threshold_split_insecure blst7 3%:R 3 2 (fun _ => 1).
Definition shares7 := get_ok split7.

(** The first and the third share. *)
Definition chosen7 := [:: nth (0%N, 0) shares7 0; nth (0%N, 0) shares7 2].

Lemma split7_ok : split7 = TOk shares7.
Proof.
have : is_ok split7 by vm_compute.
by rw /shares7; case: split7.
Qed.

Lemma chosen7_sub : {subset chosen7 <= shares7}.
Proof.
have sz : size shares7 = 3 by vm_compute.
by move=> s; rw /chosen7 in_cons mem_seq1 => /orP[/eqP->|/eqP->]; rw mem_nth ?sz.
Qed.

Lemma threshold_signature_witness :
  exists sig, sign blst7 (3%:R : 'F_7) 1%N = TOk sig /\
    tbind (collect (fun s => tbind (sign blst7 s.2 1%N) (fun x => TOk (s.1, x))) chosen7)
      (threshold_aggregate blst7) = TOk sig.
Proof.
apply: (@threshold_signature 7 _ _ _ _ _ blst7 _ blst7_laws 3%:R 3 2 (fun _ => 1) shares7 chosen7 1%N).
- by vm_compute.
- by vm_compute.
- exact: split7_ok.
- exact: chosen7_sub.
- by vm_compute.
- by vm_compute.
Defined.

Lemma threshold_recovery_witness :
  exists sk, sk_from_bytes blst7 3%:R = Some sk /\
    recover_secret blst7 chosen7 =
      if sums_nonzero 0 [seq odflt 0 (sk_from_bytes blst7 s.2) * coeff 7 (unzip1 chosen7) s.1 | s <- chosen7]
      then TOk (sk_to_bytes blst7 sk) else TErr FailedToAddScalars.
Proof.
apply: (@threshold_recovery 7 _ _ _ _ _ blst7 _ blst7_laws 3%:R 3 2 (fun _ => 1) shares7 chosen7).
- by vm_compute.
- by vm_compute.
- exact: split7_ok.
- exact: chosen7_sub.
- by vm_compute.
- by vm_compute.
Defined.

End TblsSample.
