(* ===== verification/Frost.v ===== *)
(** * Distributed key generation

    [crates/frost]: the kryptology-compatible FROST key generation of
    [kryptology.rs] over the key material of [frost_core.rs] and the curve
    wrappers of [curve.rs].  Every participant deals a random polynomial,
    commits to it and proves knowledge of its constant term (round 1), checks
    what it received and adds up the shares (round 2).  The curve library blst
    and SHA-256 are parameters; points are known by their discrete logarithm. *)

From mathcomp Require Import boot algebra.
From S2P Require Import Tbls.

Set Implicit Arguments.
Unset Strict Implicit.
Unset Printing Implicit Defensive.

Import GRing.Theory.
Local Open Scope ring_scope.

(** A byte is a number below 256. *)
Abbreviation bytes := (seq nat).

(** ** Errors and outcomes *)

Inductive frost_core_error :=
| InvalidZeroScalar
| InvalidMinSigners
| InvalidMaxSigners
| InvalidSecretShare
| IncorrectNumberOfCommitments
| IncorrectCommitment.

Inductive kryptology_error :=
| InvalidParticipantId of nat
| DuplicateIdentifier of nat
| InsufficientSigners
| InvalidSignerCount
| InvalidProof of nat
| InvalidShare of nat
| IncorrectPackageCount
| InvalidScalar
| InvalidPoint
| InvalidCommitmentCount of nat
| FrostCoreError of frost_core_error.

(** [KPanic] is a failed assertion or [expect]; [KStarved] is a run that asks
    for more random blocks than it was given. *)
Inductive kresult (E A : Type) :=
| KOk of A
| KErr of E
| KPanic
| KStarved.
Arguments KOk {E A} _.
Arguments KErr {E A} _.
Arguments KPanic {E A}.
Arguments KStarved {E A}.

Definition kbind {E A B : Type} (m : kresult E A) (f : A -> kresult E B) : kresult E B :=
  match m with KOk x => f x | KErr e => KErr e | KPanic => KPanic | KStarved => KStarved end.

Definition kmap_err {E E' A : Type} (h : E -> E') (m : kresult E A) : kresult E' A :=
  match m with KOk x => KOk x | KErr e => KErr (h e) | KPanic => KPanic | KStarved => KStarved end.

Definition kok_or {E A : Type} (o : option A) (e : E) : kresult E A :=
  if o is Some x then KOk x else KErr e.

Definition kguard {E : Type} (b : bool) (e : E) : kresult E unit :=
  if b then KErr e else KOk tt.

Declare Scope frost_scope.
Notation "x <-! m ;; k" := (kbind m (fun x => k))
  (at level 61, m at next level, right associativity) : frost_scope.
Notation "'let!' p := m 'in' k" := (kbind m (fun x => let: p := x in k))
  (at level 200, p pattern, m at level 100, k at level 200) : frost_scope.
Local Open Scope frost_scope.

(** A loop with an early return. *)
Fixpoint kfold {E A S : Type} (f : S -> A -> kresult E S) (acc : S) (s : seq A) : kresult E S :=
  if s is x :: s' then acc' <-! f acc x;; kfold f acc' s' else KOk acc.

(** [iter().map(f).collect::<Option<Vec<_>>>()]. *)
Fixpoint ocollect {A B : Type} (f : A -> option B) (s : seq A) : option (seq B) :=
  if s is x :: s' then obind (fun y => omap (cons y) (ocollect f s')) (f x) else Some [::].

(** ** [BTreeMap]: entries in the order of their keys *)

Section btree.
Variables (K A : Type) (key : K -> nat).

Fixpoint bt_insert (k : K) (v : A) (m : seq (K * A)) : seq (K * A) :=
  if m is (k', v') :: m' then
    if (key k < key k')%N then (k, v) :: m
    else if key k == key k' then (k', v) :: m'
    else (k', v') :: bt_insert k v m'
  else [:: (k, v)].

Fixpoint bt_get (k : nat) (m : seq (K * A)) : option A :=
  if m is (k', v') :: m' then if key k' == k then Some v' else bt_get k m' else None.
End btree.

(** Maps with [u32] keys. *)
Definition u32_key (k : nat) : nat := k.

Section frost.
(** [P1], [A1]: points of the first curve, Jacobian and affine; [P2], [A2] of
    the second. *)
Variables (p : nat) (P1 A1 P2 A2 : Type).

(** What the code calls of blst and sha2.  A [blst_fr] is the field element it
    stands for, a [blst_scalar] the integer it holds. *)
Record Curve := {
  fr_from_uint64 : nat -> 'F_p;
  fr_add : 'F_p -> 'F_p -> 'F_p;
  fr_sub : 'F_p -> 'F_p -> 'F_p;
  fr_mul : 'F_p -> 'F_p -> 'F_p;
  fr_eucl_inverse : 'F_p -> 'F_p;
  scalar_from_fr : 'F_p -> nat;
  fr_from_scalar : nat -> 'F_p;
  scalar_fr_check : nat -> bool;
  lendian_from_scalar : nat -> bytes;
  scalar_from_lendian : bytes -> nat;
  scalar_from_le_bytes : bytes -> nat;
  scalar_from_be_bytes : bytes -> nat;
  p1_generator : P1;
  p1_default : P1;
  p1_add_or_double : P1 -> P1 -> P1;
  p1_cneg : P1 -> P1;
  p1_mult : P1 -> nat -> P1;
  p1_is_equal : P1 -> P1 -> bool;
  p1_to_affine : P1 -> A1;
  p1_from_affine : A1 -> P1;
  p1_affine_compress : A1 -> bytes;
  p1_uncompress : bytes -> option A1;
  p1_affine_in_g1 : A1 -> bool;
  p1_affine_is_inf : A1 -> bool;
  p2_default : P2;
  p2_add_or_double : P2 -> P2 -> P2;
  p2_mult_int : P2 -> nat -> P2;
  p2_to_affine : P2 -> A2;
  p2_affine_compress : A2 -> bytes;
  blst_hash_to_g2 : bytes -> bytes -> P2;
  signature_verify : A2 -> bytes -> bytes -> A1 -> bool;
  sha256 : bytes -> bytes;
}.

(** Its documented behaviour.  [dlog1 P = Some a] says that [P] is [a] times
    the generator of the group G1 of order [p]; [dlog2] is the same for G2.
    Points have one affine form and one compressed form; [signature_verify] is
    the pairing check with a valid public key. *)
Record curve_laws (C : Curve) (dlog1 : P1 -> option 'F_p) (dlog2 : P2 -> option 'F_p) : Prop := {
  cl_u64 : forall v, fr_from_uint64 C v = v%:R;
  cl_add : forall a b, fr_add C a b = a + b;
  cl_sub : forall a b, fr_sub C a b = a - b;
  cl_mul : forall a b, fr_mul C a b = a * b;
  cl_inv : forall a, a != 0 -> fr_eucl_inverse C a = a^-1;
  cl_scalar : forall a, (scalar_from_fr C a)%:R = a /\ scalar_fr_check C (scalar_from_fr C a) /\
    fr_from_scalar C (scalar_from_fr C a) = a;
  cl_lendian : forall a, scalar_from_lendian C (lendian_from_scalar C (scalar_from_fr C a)) = scalar_from_fr C a;
  cl_gen : dlog1 (p1_generator C) = Some 1;
  cl_default1 : dlog1 (p1_default C) = Some 0;
  cl_add1 : forall P Q a b, dlog1 P = Some a -> dlog1 Q = Some b ->
    dlog1 (p1_add_or_double C P Q) = Some (a + b);
  cl_neg1 : forall P a, dlog1 P = Some a -> dlog1 (p1_cneg C P) = Some (- a);
  cl_mult1 : forall P a s, dlog1 P = Some a -> dlog1 (p1_mult C P (scalar_from_fr C s)) = Some (a * s);
  cl_equal1 : forall P Q a b, dlog1 P = Some a -> dlog1 Q = Some b -> p1_is_equal C P Q = (a == b);
  cl_affine1 : forall P a, dlog1 P = Some a ->
    dlog1 (p1_from_affine C (p1_to_affine C P)) = Some a /\ p1_affine_in_g1 C (p1_to_affine C P);
  cl_canonical1 : forall P Q a, dlog1 P = Some a -> dlog1 Q = Some a -> p1_to_affine C P = p1_to_affine C Q;
  cl_in_g1 : forall x, p1_affine_in_g1 C x -> exists a, dlog1 (p1_from_affine C x) = Some a;
  cl_inf : forall x a, dlog1 (p1_from_affine C x) = Some a -> p1_affine_is_inf C x = (a == 0);
  cl_compress1 : forall P a, dlog1 P = Some a ->
    p1_uncompress C (p1_affine_compress C (p1_to_affine C P)) = Some (p1_to_affine C P);
  cl_default2 : dlog2 (p2_default C) = Some 0;
  cl_add2 : forall P Q a b, dlog2 P = Some a -> dlog2 Q = Some b ->
    dlog2 (p2_add_or_double C P Q) = Some (a + b);
  cl_mult2 : forall P a s, dlog2 P = Some a -> dlog2 (p2_mult_int C P (scalar_from_fr C s)) = Some (a * s);
  cl_hash2 : forall msg dst, exists h, dlog2 (blst_hash_to_g2 C msg dst) = Some h;
  cl_canonical2 : forall P Q a, dlog2 P = Some a -> dlog2 Q = Some a -> p2_to_affine C P = p2_to_affine C Q;
  cl_verify : forall P x msg dst s a h, dlog2 P = Some s -> dlog1 (p1_from_affine C x) = Some a ->
    dlog2 (blst_hash_to_g2 C msg dst) = Some h ->
    signature_verify C (p2_to_affine C P) msg dst x = (a != 0) && (s == h * a);
}.

Variable C : Curve.

(** ** [curve.rs] *)

Definition to_bytes (s : 'F_p) : bytes := lendian_from_scalar C (scalar_from_fr C s).

Definition from_bytes (b : bytes) : option 'F_p :=
  let scalar := scalar_from_lendian C b in
  if ~~ scalar_fr_check C scalar then None else Some (fr_from_scalar C scalar).

Definition from_bytes_wide (b : bytes) : 'F_p := fr_from_scalar C (scalar_from_le_bytes C b).
Definition from_be_bytes_wide (b : bytes) : 'F_p := fr_from_scalar C (scalar_from_be_bytes C b).

Definition invert (s : 'F_p) : option 'F_p := if s == 0 then None else Some (fr_eucl_inverse C s).

Definition p1_sub (P Q : P1) : P1 := p1_add_or_double C P (p1_cneg C Q).
Definition p1_mul (P : P1) (s : 'F_p) : P1 := p1_mult C P (scalar_from_fr C s).

Definition to_compressed (P : P1) : bytes := p1_affine_compress C (p1_to_affine C P).

Definition affine_from_compressed (b : bytes) : option A1 :=
  if p1_uncompress C b is Some affine then
    if ~~ p1_affine_in_g1 C affine then None else Some affine
  else None.

Definition from_compressed (b : bytes) : option P1 :=
  if affine_from_compressed b is Some affine then
    if p1_affine_is_inf C affine then None else Some (p1_from_affine C affine)
  else None.

(** A source of randomness is the list of the 64-byte blocks it will deliver. *)
Definition random (tape : seq bytes) : kresult kryptology_error ('F_p * seq bytes) :=
  if tape is wide :: tape' then KOk (from_bytes_wide wide, tape') else KStarved.

(** ** [frost_core.rs] *)

Record Identifier := { id_u32 : nat; id_scalar : 'F_p }.

Definition from_u32 (id : nat) : kresult frost_core_error Identifier :=
  let scalar := fr_from_uint64 C id in
  if scalar == 0 then KErr InvalidZeroScalar else KOk {| id_u32 := id; id_scalar := scalar |}.

Definition evaluate_polynomial (identifier : Identifier) (coefficients : seq 'F_p)
    : kresult kryptology_error 'F_p :=
  let x := id_scalar identifier in
  let value := foldl (fun value coeff => fr_mul C (fr_add C value coeff) x) 0 (rev (drop 1 coefficients)) in
  if coefficients is a0 :: _ then KOk (fr_add C value a0) else KPanic.

Definition evaluate_vss (identifier : Identifier) (commitment : seq P1) : P1 :=
  let i := id_scalar identifier in
  (foldl (fun acc comm_k => (fr_mul C i acc.1, p1_add_or_double C acc.2 (p1_mul comm_k acc.1)))
    (1, p1_default C) commitment).2.

(** One commitment added to the running sum, element by element. *)
Fixpoint add_commitment (group commitment : seq P1) : kresult frost_core_error (seq P1) :=
  match group, commitment with
  | [::], _ => KOk [::]
  | g :: group', c :: commitment' =>
      rest <-! add_commitment group' commitment';; KOk (p1_add_or_double C g c :: rest)
  | _ :: _, [::] => KErr IncorrectNumberOfCommitments
  end.

Definition sum_commitments (commitments : seq (seq P1)) : kresult frost_core_error (seq P1) :=
  if commitments is first :: _ then kfold add_commitment (nseq (size first) (p1_default C)) commitments
  else KErr IncorrectNumberOfCommitments.

Definition validate_num_of_signers (min_signers max_signers : nat) : kresult frost_core_error unit :=
  if (min_signers < 2)%N then KErr InvalidMinSigners
  else if (max_signers < 2)%N then KErr InvalidMaxSigners
  else if (max_signers < min_signers)%N then KErr InvalidMinSigners
  else KOk tt.

Record SecretShare := {
  ss_identifier : Identifier; ss_signing_share : 'F_p; ss_commitment : seq P1 }.

Definition secret_share_verify (s : SecretShare) : kresult frost_core_error unit :=
  let f_result := p1_mul (p1_generator C) (ss_signing_share s) in
  let result := evaluate_vss (ss_identifier s) (ss_commitment s) in
  if ~~ p1_is_equal C f_result result then KErr InvalidSecretShare else KOk tt.

Record KeyPackage := {
  kp_identifier : Identifier; kp_signing_share : 'F_p; kp_verifying_share : P1;
  kp_verifying_key : P1; kp_min_signers : nat }.

Record PublicKeyPackage := {
  pk_verifying_shares : seq (Identifier * P1); pk_verifying_key : P1 }.

Definition verifying_key_from_commitment (commitment : seq P1) : kresult frost_core_error P1 :=
  kok_or (ohead commitment) IncorrectCommitment.

Definition pk_from_commitment (identifiers : seq Identifier) (commitment : seq P1)
    : kresult frost_core_error PublicKeyPackage :=
  let verifying_shares := [seq (id, evaluate_vss id commitment) | id <- identifiers] in
  vk <-! verifying_key_from_commitment commitment;;
  KOk {| pk_verifying_shares := verifying_shares; pk_verifying_key := vk |}.

Definition from_dkg_commitments (commitments : seq (Identifier * seq P1))
    : kresult frost_core_error PublicKeyPackage :=
  group_commitment <-! sum_commitments (unzip2 commitments);;
  pk_from_commitment (unzip1 commitments) group_commitment.

(** ** [kryptology.rs]: wire data *)

Record Round1Bcast := { commitments : seq bytes; b_wi : bytes; b_ci : bytes }.
Record Round2Bcast := { verification_key : bytes; vk_share : bytes }.
Record ShamirShare := { sh_id : nat; sh_value : bytes }.

Record Round1Secret := {
  r1_id : nat; r1_ctx : nat; r1_coefficients : seq 'F_p; r1_commitment : seq P1;
  r1_threshold : nat; r1_max_signers : nat }.

Definition scalar_to_be (s : 'F_p) : bytes := rev (to_bytes s).
Definition scalar_from_be (b : bytes) : kresult kryptology_error 'F_p := kok_or (from_bytes (rev b)) InvalidScalar.

(** ** Hashing to a scalar *)

Definition B_IN_BYTES : nat := 32%N.
Definition S_IN_BYTES : nat := 64%N.

Definition xor_bytes (a b : bytes) : bytes := [seq Nat.lxor xy.1 xy.2 | xy <- zip a b].

(** The loop [for i in 2..=ell]: [left] blocks remain, the next is number [i]. *)
Fixpoint expand_blocks (dst_prime b_0 b_prev : bytes) (i left : nat) : bytes :=
  if left is left'.+1 then
    let b_i := sha256 C (xor_bytes b_0 b_prev ++ i :: dst_prime) in
    b_i ++ expand_blocks dst_prime b_0 b_i i.+1 left'
  else [::].

Definition expand_msg_xmd (msg dst : bytes) (len_in_bytes : nat) : kresult kryptology_error bytes :=
  let ell := ((len_in_bytes + B_IN_BYTES - 1) %/ B_IN_BYTES)%N in
  if (255 < ell)%N || (65535 < len_in_bytes)%N || (255 < size dst)%N then KPanic
  else
    let dst_prime := dst ++ [:: size dst] in
    let l_i_b_str := [:: len_in_bytes %/ 256; len_in_bytes %% 256]%N in
    let b_0 := sha256 C (nseq S_IN_BYTES 0%N ++ msg ++ l_i_b_str ++ 0%N :: dst_prime) in
    let b_1 := sha256 C (b_0 ++ 1%N :: dst_prime) in
    KOk (take len_in_bytes (b_1 ++ expand_blocks dst_prime b_0 b_1 2 ell.-1)).

(** The ASCII codes of BLS12381_XMD:SHA-256_SSWU_RO_. *)
Definition KRYPTOLOGY_DST : bytes :=
  [:: 66; 76; 83; 49; 50; 51; 56; 49; 95; 88; 77; 68; 58; 83; 72; 65; 45; 50; 53; 54; 95;
      83; 83; 87; 85; 95; 82; 79; 95]%N.

Definition kryptology_hash_to_scalar (msg : bytes) : kresult kryptology_error 'F_p :=
  xmd <-! expand_msg_xmd msg KRYPTOLOGY_DST 48;; KOk (from_be_bytes_wide xmd).

Definition kryptology_challenge (id ctx : nat) (commitment_0 r : P1) : kresult kryptology_error 'F_p :=
  kryptology_hash_to_scalar (id :: ctx :: to_compressed commitment_0 ++ to_compressed r).

(** ** Round 1 *)

Definition validate_round_parameters (id threshold max_signers : nat) : kresult kryptology_error unit :=
  if (255 < max_signers)%N then KErr InvalidSignerCount
  else
    _ <-! kmap_err FrostCoreError (validate_num_of_signers threshold max_signers);;
    if (id == 0)%N || (max_signers < id)%N then KErr (InvalidParticipantId id) else KOk tt.

Fixpoint random_scalars (n : nat) (tape : seq bytes) : kresult kryptology_error (seq 'F_p * seq bytes) :=
  if n is n'.+1 then
    let! (s, tape1) := random tape in
    let! (ss, tape2) := random_scalars n' tape1 in
    KOk (s :: ss, tape2)
  else KOk ([::], tape).

(** The loop that samples until the scalar is not zero. *)
Fixpoint random_nonzero (tape : seq bytes) : kresult kryptology_error 'F_p :=
  if tape is wide :: tape' then
    let s := from_bytes_wide wide in
    if s != 0 then KOk s else random_nonzero tape'
  else KStarved.

Definition try_u8 (id : nat) : option nat := if (id <= 255)%N then Some id else None.

(** The loop over the other participants. *)
Definition deal_share (id : nat) (coefficients : seq 'F_p) (shares : seq (nat * ShamirShare)) (j : nat)
    : kresult kryptology_error (seq (nat * ShamirShare)) :=
  if j == id then KOk shares
  else
    j_id <-! kmap_err FrostCoreError (from_u32 j);;
    share_scalar <-! evaluate_polynomial j_id coefficients;;
    KOk (bt_insert u32_key j {| sh_id := j; sh_value := scalar_to_be share_scalar |} shares).

Definition round1 (id threshold max_signers ctx : nat) (tape : seq bytes)
    : kresult kryptology_error (Round1Bcast * seq (nat * ShamirShare) * Round1Secret) :=
  _ <-! validate_round_parameters id threshold max_signers;;
  let! (coefficients, tape') := random_scalars threshold tape in
  let commitment_points := [seq p1_mul (p1_generator C) c | c <- coefficients] in
  k <-! random_nonzero tape';;
  let r_point := p1_mul (p1_generator C) k in
  id_u8 <-! (if try_u8 id is Some b then KOk b else KPanic);;
  a0 <-! (if coefficients is a0 :: _ then KOk a0 else KPanic);;
  A0 <-! (if commitment_points is A0 :: _ then KOk A0 else KPanic);;
  ci <-! kryptology_challenge id_u8 ctx A0 r_point;;
  let wi := fr_add C k (fr_mul C a0 ci) in
  shares <-! kfold (deal_share id coefficients) [::] (iota 1 max_signers);;
  KOk ({| commitments := [seq to_compressed P | P <- commitment_points];
          b_wi := scalar_to_be wi; b_ci := scalar_to_be ci |},
       shares,
       {| r1_id := id; r1_ctx := ctx; r1_coefficients := coefficients;
          r1_commitment := commitment_points; r1_threshold := threshold;
          r1_max_signers := max_signers |}).

(** ** Round 2 *)

Definition deserialize_commitment (participant threshold : nat) (cs : seq bytes)
    : kresult kryptology_error (seq P1) :=
  if size cs != threshold then KErr (InvalidCommitmentCount participant)
  else kok_or (ocollect from_compressed cs) InvalidPoint.

(** What is checked of one sender: its proof of knowledge. *)
Definition check_proof (ctx sender_id : nat) (a0 : P1) (bcast : Round1Bcast) : kresult kryptology_error unit :=
  wi <-! scalar_from_be (b_wi bcast);;
  ci <-! scalar_from_be (b_ci bcast);;
  _ <-! kguard (ci == 0) (InvalidProof sender_id);;
  let r_reconstructed := p1_sub (p1_mul (p1_generator C) wi) (p1_mul a0 ci) in
  sender_id_u8 <-! kok_or (try_u8 sender_id) (InvalidParticipantId sender_id);;
  ci_check <-! kryptology_challenge sender_id_u8 ctx a0 r_reconstructed;;
  kguard (ci_check != ci) (InvalidProof sender_id).

(** Its share, which is returned. *)
Definition check_share (own_id : nat) (own_identifier : Identifier) (sender_id : nat) (commitment : seq P1)
    (received_shares : seq (nat * ShamirShare)) : kresult kryptology_error 'F_p :=
  share <-! kok_or (bt_get u32_key sender_id received_shares) (InvalidShare sender_id);;
  _ <-! kguard ((sh_id share == 0)%N || (sh_id share != own_id)) (InvalidShare sender_id);;
  share_scalar <-! scalar_from_be (sh_value share);;
  _ <-! kguard (share_scalar == 0) (InvalidShare sender_id);;
  _ <-! kmap_err (fun _ => InvalidShare sender_id)
    (secret_share_verify {| ss_identifier := own_identifier; ss_signing_share := share_scalar;
                            ss_commitment := commitment |});;
  KOk share_scalar.

(** The body of the loop over the received broadcasts. *)
Definition round2_sender (secret : Round1Secret) (own_identifier : Identifier)
    (received_shares : seq (nat * ShamirShare)) (acc : seq (Identifier * seq P1) * 'F_p)
    (entry : nat * Round1Bcast) : kresult kryptology_error (seq (Identifier * seq P1) * 'F_p) :=
  let: (peer_commitments, share_sum) := acc in
  let: (sender_id, bcast) := entry in
  if sender_id == r1_id secret then KOk acc
  else
    sender_commitment <-! deserialize_commitment sender_id (r1_threshold secret) (commitments bcast);;
    a0 <-! (if sender_commitment is a0 :: _ then KOk a0 else KPanic);;
    _ <-! check_proof (r1_ctx secret) sender_id a0 bcast;;
    share_scalar <-! check_share (r1_id secret) own_identifier sender_id sender_commitment received_shares;;
    sender_identifier <-! kmap_err FrostCoreError (from_u32 sender_id);;
    KOk (bt_insert id_u32 sender_identifier sender_commitment peer_commitments,
         fr_add C share_sum share_scalar).

Definition round2 (secret : Round1Secret) (received_bcasts : seq (nat * Round1Bcast))
    (received_shares : seq (nat * ShamirShare))
    : kresult kryptology_error (Round2Bcast * KeyPackage * PublicKeyPackage) :=
  let min_received := (r1_threshold secret - 1)%N in
  let bcast_max := r1_max_signers secret in
  let shares_max := (r1_max_signers secret - 1)%N in
  _ <-! kguard [|| size received_bcasts < min_received, bcast_max < size received_bcasts,
                   size received_shares < min_received | shares_max < size received_shares]%N
          IncorrectPackageCount;;
  own_identifier <-! kmap_err FrostCoreError (from_u32 (r1_id secret));;
  own_share_scalar <-! evaluate_polynomial own_identifier (r1_coefficients secret);;
  let! (peer_commitments, share_sum) :=
    kfold (round2_sender secret own_identifier received_shares) ([::], 0) received_bcasts in
  let total_scalar := fr_add C own_share_scalar share_sum in
  let verifying_share_element := p1_mul (p1_generator C) total_scalar in
  let peer_commitments := bt_insert id_u32 own_identifier (r1_commitment secret) peer_commitments in
  public_key_package <-! kmap_err FrostCoreError (from_dkg_commitments peer_commitments);;
  let verifying_key := pk_verifying_key public_key_package in
  KOk ({| verification_key := to_compressed verifying_key;
          vk_share := to_compressed verifying_share_element |},
       {| kp_identifier := own_identifier; kp_signing_share := total_scalar;
          kp_verifying_share := verifying_share_element; kp_verifying_key := verifying_key;
          kp_min_signers := r1_threshold secret |},
       public_key_package).

(** ** Signatures *)

(** The ASCII codes of BLS_SIG_BLS12381G2_XMD:SHA-256_SSWU_RO_POP_. *)
Definition BLS_SIG_DST : bytes :=
  [:: 66; 76; 83; 95; 83; 73; 71; 95; 66; 76; 83; 49; 50; 51; 56; 49; 71; 50; 95; 88; 77; 68; 58;
      83; 72; 65; 45; 50; 53; 54; 95; 83; 83; 87; 85; 95; 82; 79; 95; 80; 79; 80; 95]%N.

Definition hash_to_g2 (msg : bytes) : P2 := blst_hash_to_g2 C msg BLS_SIG_DST.
Definition p2_mult (point : P2) (scalar : 'F_p) : P2 := p2_mult_int C point (scalar_from_fr C scalar).

Record BlsPartialSignature := { bps_identifier : nat; bps_point : P2 }.

Definition from_key_package (key_package : KeyPackage) (msg : bytes) : BlsPartialSignature :=
  {| bps_identifier := id_u32 (kp_identifier key_package);
     bps_point := p2_mult (hash_to_g2 msg) (kp_signing_share key_package) |}.

(** The scan for identifiers seen before. *)
Fixpoint check_duplicates (seen : seq nat) (partial_sigs : seq BlsPartialSignature)
    : kresult kryptology_error unit :=
  if partial_sigs is ps :: rest then
    if bps_identifier ps \in seen then KErr (DuplicateIdentifier (bps_identifier ps))
    else check_duplicates (bps_identifier ps :: seen) rest
  else KOk tt.

(** The inner loop: the Lagrange coefficient of the [i]-th signer. *)
Definition lambda_step (x_vals : seq 'F_p) (i : nat) (lambda : 'F_p) (j : nat) : kresult kryptology_error 'F_p :=
  if i == j then KOk lambda
  else
    let num := nth 0 x_vals j in
    let den := fr_sub C (nth 0 x_vals j) (nth 0 x_vals i) in
    den_inv <-! kok_or (invert den) InvalidSignerCount;;
    KOk (fr_mul C (fr_mul C lambda num) den_inv).

Definition combine_step (x_vals : seq 'F_p) (combined : P2) (entry : nat * BlsPartialSignature)
    : kresult kryptology_error P2 :=
  let: (i, ps) := entry in
  lambda <-! kfold (lambda_step x_vals i) 1 (iota 0 (size x_vals));;
  let weighted := p2_mult (bps_point ps) lambda in
  KOk (p2_add_or_double C combined weighted).

Definition from_partial_signatures (min_signers : nat) (partial_sigs : seq BlsPartialSignature)
    : kresult kryptology_error P2 :=
  if (min_signers < 2)%N || (size partial_sigs < min_signers)%N then KErr InsufficientSigners
  else
    _ <-! check_duplicates [::] partial_sigs;;
    let x_vals := [seq fr_from_uint64 C (bps_identifier ps) | ps <- partial_sigs] in
    kfold (combine_step x_vals) (p2_default C) (zip (iota 0 (size partial_sigs)) partial_sigs).

Definition bls_to_bytes (sig : P2) : bytes := p2_affine_compress C (p2_to_affine C sig).

Definition bls_verify (sig : P2) (verifying_key : P1) (msg : bytes) : bool :=
  signature_verify C (p2_to_affine C sig) msg BLS_SIG_DST (p1_to_affine C verifying_key).
End frost.
