(* ===== verification/FrostFacts.v ===== *)
(** * What the distributed key generation guarantees

    The participants that finish hold shares of one polynomial, whatever the
    others dealt; they agree on the group key and on everybody's verifying
    share; a threshold of them signs for the group; and a run in which everybody
    is honest finishes. *)

From Stdlib Require List.
From HB Require Import structures.
From mathcomp Require Import boot algebra.
From S2P Require Import Tbls Frost.

Set Implicit Arguments.
Unset Strict Implicit.
Unset Printing Implicit Defensive.

Import GRing.Theory.
Local Open Scope ring_scope.
Local Open Scope frost_scope.

Definition bcast_fields (b : Round1Bcast) := (commitments b, b_wi b, b_ci b).
Definition bcast_of_fields f := {| commitments := f.1.1; b_wi := f.1.2; b_ci := f.2 |}.
Lemma bcast_fieldsK : cancel bcast_fields bcast_of_fields. Proof. by case. Qed.
HB.instance Definition _ := Equality.copy Round1Bcast (can_type bcast_fieldsK).

(** ** Outcomes *)

Lemma kbind_ok {E A B : Type} (m : kresult E A) (f : A -> kresult E B) b :
  kbind m f = KOk b -> exists2 a, m = KOk a & f a = KOk b.
Proof. by case: m => //= a fa; exists a. Qed.

Lemma kbindE {E A B : Type} (x : A) (f : A -> kresult E B) : kbind (KOk x) f = f x.
Proof. by []. Qed.

Lemma kmap_err_ok {E E' A : Type} (h : E -> E') (m : kresult E A) a :
  kmap_err h m = KOk a -> m = KOk a.
Proof. by case: m => //= x [->]. Qed.

Lemma kguard_ok {E : Type} b (e : E) u : kguard b e = KOk u -> ~~ b.
Proof. by case: b. Qed.

Lemma kok_or_ok {E A : Type} (o : option A) (e : E) a : kok_or o e = KOk a -> o = Some a.
Proof. by case: o => //= x [->]. Qed.

Lemma ocollect_map {A B : Type} (f : A -> option B) s ys :
  ocollect f s = Some ys -> map f s = map Some ys.
Proof.
elim: s ys => [|x s IH] ys /=; first by case=> <-.
by case fx: (f x) => [y|//] /=; case fs: ocollect => [ys'|//] /= [<-] /=; rw (IH _ fs).
Qed.

Lemma ocollect_ok {A B : Type} (f : A -> option B) (g : A -> B) s :
  map f s = map (fun x => Some (g x)) s -> ocollect f s = Some (map g s).
Proof. by elim: s => //= x s IH [-> /IH ->]. Qed.

(** Takes apart a run of binds that succeeded. *)
Ltac kinv H0 :=
  match type of H0 with
  | kbind _ _ = KOk _ => let a := fresh "x" in let e := fresh "Hx" in let r := fresh in
      destruct (kbind_ok H0) as [a e r]; clear H0; rename r into H0
  end.

(** ** Ordered maps *)

Section btree_facts.
Variables (K A : Type) (key : K -> nat).
Implicit Types m : seq (K * A).

Definition keys m : seq nat := [seq key e.1 | e <- m].
Arguments keys : simpl never.

Lemma keys_cons k v m : keys ((k, v) :: m) = key k :: keys m.
Proof. by []. Qed.

Lemma keys_insert k v m : keys (bt_insert key k v m) =i key k :: keys m.
Proof.
elim: m => [|[k' v'] m IH] x //=; case: ltngtP => [//|lt|eq]; rw !keys_cons.
- by rw in_cons IH !in_cons orbCA.
- by rw !in_cons eq orbA orbb.
Qed.

Lemma sorted_insert k v m : sorted ltn (keys m) -> sorted ltn (keys (bt_insert key k v m)).
Proof.
rw /keys; set ks := map _; have path_insert b l :
    (b < key k)%N -> path ltn b (ks l) -> path ltn b (ks (bt_insert key k v l)).
  elim: l b => [|[k' v'] l IH] b bk /=; first by rw bk.
  case/andP=> bk' pl; case: ltngtP => lt /=; first by rw bk lt.
  - by rw bk' IH.
  - by rw bk'.
case: m => [|[k' v'] m] //= pm; case: ltngtP => lt /=; first by rw lt.
- exact: path_insert.
- by [].
Qed.

(** An inserted entry is new, or was there. *)
Lemma insert_all (Q : K * A -> Prop) k v m :
  Q (k, v) -> (forall k' v', key k' = key k -> Q (k', v') -> Q (k', v)) ->
  List.Forall Q m -> List.Forall Q (bt_insert key k v m).
Proof.
move=> Qk Qk'; elim=> {m} [|[k' v'] m Qe Qm IH] /=; first by constructor.
case: ltngtP => lt; constructor=> //; first by constructor.
exact: Qk' Qe.
Qed.

Lemma get_keys k m : isSome (bt_get key k m) = (k \in keys m).
Proof. by elim: m => //= [[k' v'] m IH]; rw keys_cons in_cons eq_sym; case: eqP. Qed.
End btree_facts.
#[global] Arguments keys {K A} key m : simpl never.

Section facts.
Variables (p : nat) (P1 A1 P2 A2 : Type) (C : Curve p P1 A1 P2 A2).
Variables (dlog1 : P1 -> option 'F_p) (dlog2 : P2 -> option 'F_p).
Hypotheses (p_prime : prime p) (LC : curve_laws C dlog1 dlog2).

(** [has_logs Ps ls]: the points [Ps] have the discrete logarithms [ls]. *)
Definition has_logs (Ps : seq P1) (ls : seq 'F_p) : Prop := map dlog1 Ps = map Some ls.

Lemma size_logs Ps ls : has_logs Ps ls -> size Ps = size ls.
Proof. by move/(congr1 size); rw !size_map. Qed.

Lemma has_logs_cons Q Ps ls :
  has_logs (Q :: Ps) ls -> exists a ls', [/\ ls = a :: ls', dlog1 Q = Some a & has_logs Ps ls'].
Proof. by case: ls => //= a ls' [Qa Psls]; exists a, ls'. Qed.

(** ** Scalars and points on the wire *)

Lemma from_to_be s : scalar_from_be C (scalar_to_be C s) = KOk s.
Proof.
rw /scalar_from_be /scalar_to_be revK /from_bytes /to_bytes (cl_lendian LC).
by have [_ [-> ->]] := cl_scalar LC s.
Qed.

Lemma mul_log P a s : dlog1 P = Some a -> dlog1 (p1_mul C P s) = Some (a * s).
Proof. exact: (cl_mult1 LC). Qed.

Lemma gen_log s : dlog1 (p1_mul C (p1_generator C) s) = Some s.
Proof. by rw (mul_log _ (cl_gen LC)) mul1r. Qed.

(** The logarithm of a compressed point. *)
Definition wire_log (b : bytes) : 'F_p :=
  odflt 0 (obind (fun x => dlog1 (p1_from_affine C x)) (p1_uncompress C b)).

Lemma wire_log_compressed P a : dlog1 P = Some a -> wire_log (to_compressed C P) = a.
Proof. by move=> Pa; rw /wire_log (cl_compress1 LC Pa) /= (proj1 (cl_affine1 LC Pa)). Qed.

Lemma from_compressed_log b P : from_compressed C b = Some P -> dlog1 P = Some (wire_log b).
Proof.
rw /from_compressed /affine_from_compressed /wire_log; case: p1_uncompress => [x|//] /=.
case g1: p1_affine_in_g1 => //=; case: p1_affine_is_inf => // [[<-]].
by have [a ->] := cl_in_g1 LC g1.
Qed.

Lemma from_to_compressed P a :
  dlog1 P = Some a -> a != 0 ->
  exists2 Q, from_compressed C (to_compressed C P) = Some Q & dlog1 Q = Some a.
Proof.
move=> Pa a0; have [Qa g1] := cl_affine1 LC Pa.
rw /from_compressed /affine_from_compressed (cl_compress1 LC Pa) g1 /= (cl_inf LC Qa) (negPf a0).
by exists (p1_from_affine C (p1_to_affine C P)).
Qed.

(** ** Polynomials and commitments to them *)

Lemma evaluate_polynomialE i cs :
  cs != [::] -> evaluate_polynomial C i cs = KOk (Poly cs).[id_scalar i].
Proof.
case: cs => // a cs _; rw /evaluate_polynomial /= drop0 (cl_add LC) foldl_rev horner_cons.
congr (KOk (_ + _)); elim: cs => [|c cs IH] /=; first by rw horner0 mul0r.
by rw (cl_mul LC) (cl_add LC) IH horner_cons.
Qed.

Lemma evaluate_vss_log i Ps ls :
  has_logs Ps ls -> dlog1 (evaluate_vss C i Ps) = Some (Poly ls).[id_scalar i].
Proof.
rw /evaluate_vss -[(Poly ls).[_]]mul1r -[1 * _]add0r; move: (cl_default1 LC).
move: (p1_default C) 0 1 => S s xk; elim: Ps ls S s xk => [|Q Ps IH] ls S s xk Ss /=.
  by move/size_logs; case: ls => //= _; rw horner0 mulr0 addr0.
case/has_logs_cons=> a [ls' [-> Qa Pls]]; rw (IH ls' _ (s + a * xk)) //.
  exact/(cl_add1 LC)/mul_log.
rw (cl_mul LC) horner_cons mulrDr -addrA; congr (Some (s + _)).
by rw addrC [a * xk]mulrC [_ * xk]mulrC [_.[_] * _]mulrC mulrA.
Qed.

Lemma add_commitment_log Gs gs Ps ls :
  has_logs Gs gs -> has_logs Ps ls -> size Gs = size Ps ->
  exists Ss ss, [/\ add_commitment C Gs Ps = KOk Ss, has_logs Ss ss, size Ss = size Gs &
    Poly ss = Poly gs + Poly ls].
Proof.
elim: Gs gs Ps ls => [|G Gs IH] gs [|Q Ps] ls //=.
  by move/size_logs; case: gs => // _ /size_logs; case: ls => // _ _; exists [::], [::]; rw addr0.
case/has_logs_cons=> g [gs' [-> Gg Hgs]] /has_logs_cons[l [ls' [-> Ql Hls]]] [sz].
have [Ss [ss [-> Hss szS PS]]] := IH _ _ _ Hgs Hls sz.
exists (p1_add_or_double C G Q :: Ss), (g + l :: ss); split=> //=.
- by rw /has_logs /= Hss (cl_add1 LC Gg Ql).
- by rw szS.
- by rw PS !cons_poly_def polyCD mulrDl addrACA.
Qed.

(** ** Sums of commitments

    [L j] are the coefficients participant [j] committed to. *)
Section commitments.
Variables (L : nat -> seq 'F_p) (t : nat).

Definition identifies (i : Identifier p) : Prop := id_scalar i = (id_u32 i)%:R.

Definition entry_ok (e : Identifier p * seq P1) : Prop :=
  [/\ identifies e.1, has_logs e.2 (L (id_u32 e.1)) & size e.2 = t].

(** The polynomial the participants [js] share. *)
Definition joint (js : seq nat) : {poly 'F_p} := \sum_(j <- js) Poly (L j).

Lemma from_u32_ok j i : from_u32 C j = KOk i -> id_u32 i = j /\ identifies i.
Proof. by rw /from_u32 (cl_u64 LC) /identifies; case: eqP => // _ [<-]. Qed.

Lemma sum_loop_log Gs gs pc :
  has_logs Gs gs -> size Gs = t -> List.Forall entry_ok pc ->
  exists Ss ss, [/\ kfold (add_commitment C) Gs (unzip2 pc) = KOk Ss, has_logs Ss ss, size Ss = t &
    Poly ss = Poly gs + joint (keys (@id_u32 p) pc)].
Proof.
move=> HG szG ok; elim: ok Gs gs HG szG => {pc} [|[i Ps] pc [_ /= HP szP] _ IH] Gs gs HG szG /=.
  by exists Gs, gs; rw /joint big_nil addr0.
have [|Ss [ss [-> HS szS PS]]] := add_commitment_log HG HP; first by rw szG szP.
have [|Ss' [ss' [/= -> HS' szS' PS']]] := IH Ss ss HS; first by rw szS.
by exists Ss', ss'; split=> //; rw PS' PS /joint /= big_cons addrA.
Qed.

Lemma Poly_nseq0 n : Poly (nseq n 0) = 0 :> {poly 'F_p}.
Proof. by elim: n => //= n ->; rw cons_poly_def mul0r add0r. Qed.

Lemma from_dkg_commitments_log pc :
  (0 < t)%N -> pc <> [::] -> List.Forall entry_ok pc ->
  let f := joint (keys (@id_u32 p) pc) in
  exists pk, [/\ from_dkg_commitments C pc = KOk pk, dlog1 (pk_verifying_key pk) = Some f.[0] &
    [seq (id_u32 e.1, dlog1 e.2) | e <- pk_verifying_shares pk] =
    [seq (j, Some f.[j%:R]) | j <- keys (@id_u32 p) pc]].
Proof.
move=> t0 pc0 ok f; have szPs : size (head [::] (unzip2 pc)) = t by case: ok pc0 => // e pc' [].
have H0 : has_logs (nseq (size (head [::] (unzip2 pc))) (p1_default C)) (nseq t 0).
  by rw /has_logs szPs !map_nseq (cl_default1 LC).
have [|Ss [ss [Es HS szS PS]]] := sum_loop_log H0 _ ok; first by rw size_nseq szPs.
rw Poly_nseq0 add0r -/f in PS.
have {}Es : sum_commitments C (unzip2 pc) = KOk Ss by move: Es; case: (pc) pc0.
rw /from_dkg_commitments Es /= /pk_from_commitment /verifying_key_from_commitment.
case: Ss HS szS {Es} => [_ /= tE|S0 Ss HS _ /=]; first by rw -tE in t0.
exists {| pk_verifying_shares := [seq (id, evaluate_vss C id (S0 :: Ss)) | id <- unzip1 pc];
  pk_verifying_key := S0 |}; split=> //=.
- have [a [ss' [ssE Sa _]]] := has_logs_cons HS.
  by rw Sa -PS ssE /= horner_cons mulr0 add0r.
- rw /unzip1 /keys -!map_comp; elim: ok => //= e pc' [ide _ _] _ ->.
  by rw (evaluate_vss_log _ HS) PS ide.
Qed.
End commitments.

(** ** What round 2 accepts *)

Lemma deserialize_log j t cs Ps :
  deserialize_commitment C j t cs = KOk Ps -> size Ps = t /\ has_logs Ps (map wire_log cs).
Proof.
rw /deserialize_commitment; case: eqP => // szc H; have E := ocollect_map (kok_or_ok H).
have sz : size Ps = size cs by move/(congr1 size): E; rw !size_map.
split; first by rw sz.
elim: cs Ps E {H szc sz} => [|c cs IH] [|Q Ps] //= [/from_compressed_log Qc /IH Hcs].
by rw /has_logs /= Hcs Qc.
Qed.

(** An accepted share lies on the polynomial its sender committed to. *)
Lemma check_share_sound own i j Ps ls shs s :
  has_logs Ps ls -> check_share C own i j Ps shs = KOk s -> s = (Poly ls).[id_scalar i].
Proof.
move=> HP H; rw /check_share in H; do 5 kinv H; case: H => <-.
have := kmap_err_ok Hx3; rw /secret_share_verify /=.
rw (cl_equal1 LC (gen_log _) (evaluate_vss_log _ HP)).
by case: eqP.
Qed.

(** The loop over the received broadcasts, when [L] is what they commit to. *)
Lemma round2_loop_sound L sec i shs bcs pc s pc' s' :
  {in bcs, forall e, e.1 != r1_id sec -> L e.1 = map wire_log (commitments e.2)} ->
  sorted ltn (keys (@id_u32 p) pc) -> List.Forall (entry_ok L (r1_threshold sec)) pc ->
  kfold (round2_sender C sec i shs) (pc, s) bcs = KOk (pc', s') ->
  [/\ sorted ltn (keys (@id_u32 p) pc'), List.Forall (entry_ok L (r1_threshold sec)) pc',
     keys (@id_u32 p) pc' =i keys (@id_u32 p) pc ++ [seq j <- keys u32_key bcs | j != r1_id sec] &
     s' = s + \sum_(j <- keys u32_key bcs | j != r1_id sec) (Poly (L j)).[id_scalar i]].
Proof.
elim: bcs pc s => [|[j b] bcs IH] pc s HL Spc ok /=.
  by case=> <- <-; rw big_nil addr0; split=> // x; rw cats0.
have {}IH pc0 s0 := IH pc0 s0 (sub_in1 (fun e ein => mem_behead ein) HL).
move=> H; kinv H; case: eqP Hx => [->|/eqP jown] Hx.
  case: Hx H => <- /(IH _ _ Spc ok) [-> ok' K' ->]; rw keys_cons big_cons /= ?eqxx; split=> //; rw /u32_key ?eqxx //.
do 5 kinv Hx; case: Hx H => <- H.
have [szP HP] := deserialize_log Hx0; rw -(HL _ (mem_head _ _) jown) /= in HP.
have [idj idok] := from_u32_ok (kmap_err_ok Hx4).
have := IH _ _ (sorted_insert x4 x0 Spc) _ H.
case=> [|Spc' ok' K' ->].
  apply: insert_all ok => [|i' v' /= ij [i'ok _ _]]; split=> //=; first by rw idj.
  by rw ij idj.
have {}jown : u32_key j != r1_id sec by [].
split=> //.
- move=> k; rw K' !mem_cat keys_insert in_cons idj /= in_cons /u32_key.
  by rw -!orbA orbCA.
- by rw keys_cons big_cons jown (cl_add LC) -addrA (check_share_sound HP Hx3).
Qed.

(** ** What round 1 produces *)

Lemma random_scalars_size n tape cs tape' :
  random_scalars C n tape = KOk (cs, tape') -> size cs = n.
Proof.
elim: n tape cs tape' => [|n IH] tape cs tape' /= H; first by case: H => <-.
kinv H; case: x Hx H => s tape1 Hx H; kinv H; case: x Hx0 H => ss tape2 Hx0 [<- _] /=.
by rw (IH _ _ _ Hx0).
Qed.

Lemma insert_last k v (m : seq (nat * ShamirShare)) :
  all (fun e => e.1 < k)%N m -> bt_insert u32_key k v m = rcons m (k, v).
Proof.
elim: m => //= [[k' v'] m IH] /andP[/= lt /IH ->].
by rw /u32_key ltnNge (ltnW lt) /= gtn_eqF.
Qed.

(** The share of participant [j]. *)
Definition share_for (cs : seq 'F_p) (j : nat) : nat * ShamirShare :=
  (j, {| sh_id := j; sh_value := scalar_to_be C (Poly cs).[j%:R] |}).

Lemma deal_shares id cs n :
  cs != [::] -> all (fun j => j%:R != 0 :> 'F_p) (iota 1 n) ->
  kfold (deal_share C id cs) [::] (iota 1 n) = KOk [seq share_for cs j | j <- iota 1 n & j != id].
Proof.
move=> cs0; suff H m a (acc : seq (nat * ShamirShare)) :
    all (fun e => e.1 < a)%N acc -> all (fun j => j%:R != 0 :> 'F_p) (iota a m) ->
    kfold (deal_share C id cs) acc (iota a m) =
      KOk (acc ++ [seq share_for cs j | j <- iota a m & j != id]) by exact: (H n 1%N [::]).
elim: m a acc => [|m IH] a acc lt /=; first by rw cats0.
have lt' : all (fun e => e.1 < a.+1)%N acc by apply: sub_all lt => e /ltnW.
case/andP=> a0 nz; rw /deal_share; case: eqP => _ /=; first exact: IH.
rw /from_u32 (cl_u64 LC) (negPf a0) /= evaluate_polynomialE //= insert_last //.
by rw IH ?cat_rcons // all_rcons lt' /= ltnSn.
Qed.

Lemma validate_ok id t n u :
  validate_round_parameters id t n = KOk u -> [/\ (1 < t)%N, (t <= n)%N, (n <= 255)%N, (0 < id)%N & (id <= n)%N].
Proof.
rw /validate_round_parameters; case: ltnP => // n255 H; kinv H; move: H.
case: id => [|id] //=; case: ltnP => //= idn _.
move: (kmap_err_ok Hx); rw /validate_num_of_signers.
by case: ltnP => //= t2; case: ltnP => //= n2; case: ltnP.
Qed.

Lemma round1_inv id t n ctx tape b shs sec :
  round1 C id t n ctx tape = KOk (b, shs, sec) ->
  [/\ (1 < t)%N, (t <= n)%N, (n <= 255)%N & (0 < id <= n)%N] /\
  exists cs k ci, [/\ size cs = t, k != 0,
    kryptology_challenge C id ctx (p1_mul C (p1_generator C) (head 0 cs)) (p1_mul C (p1_generator C) k) = KOk ci,
    b = {| commitments := [seq to_compressed C (p1_mul C (p1_generator C) c) | c <- cs];
           b_wi := scalar_to_be C (k + head 0 cs * ci); b_ci := scalar_to_be C ci |} &
    sec = {| r1_id := id; r1_ctx := ctx; r1_coefficients := cs;
             r1_commitment := [seq p1_mul C (p1_generator C) c | c <- cs];
             r1_threshold := t; r1_max_signers := n |}].
Proof.
move=> H; rw /round1 in H; kinv H; have [t1 tn n255 id0 idn] := validate_ok Hx.
split; first by rw id0.
kinv H; case: x0 Hx0 H => cs tape' Hcs H; do 6 kinv H; case: H => <- _ <-.
have szc := random_scalars_size Hcs.
have k0 : x0 != 0.
  elim: tape' Hx0 {Hcs} => //= w tape' IH; case: ifP => [nz [<-]|_ /IH //]; exact: nz.
exists cs, x0, x4; rw -map_comp (cl_add LC) (cl_mul LC).
case: cs {Hcs Hx5} szc Hx2 Hx3 Hx4 => [|c cs] // szc [<-] [<-] Hx4.
move: Hx1; rw /try_u8 (leq_trans idn n255) => [[idE]]; rw -idE in Hx4.
by split.
Qed.

(** ** Participants that finished

    What one participant did and received. *)
Record transcript := {
  tr_id : nat; tr_tape : seq bytes;
  tr_bcast : Round1Bcast; tr_dealt : seq (nat * ShamirShare); tr_secret : Round1Secret p P1;
  tr_bcasts : seq (nat * Round1Bcast); tr_shares : seq (nat * ShamirShare);
  tr_out : Round2Bcast; tr_kp : KeyPackage p P1; tr_pk : PublicKeyPackage p P1 }.

Definition completed (t n ctx : nat) (tr : transcript) : Prop :=
  round1 C (tr_id tr) t n ctx (tr_tape tr) = KOk (tr_bcast tr, tr_dealt tr, tr_secret tr) /\
  round2 C (tr_secret tr) (tr_bcasts tr) (tr_shares tr) = KOk (tr_out tr, tr_kp tr, tr_pk tr).

(** The participant's broadcast is among [bcs], and those it received from the
    others are the others of [bcs]. *)
Definition heard (bcs : seq (nat * Round1Bcast)) (tr : transcript) : Prop :=
  bt_get u32_key (tr_id tr) bcs = Some (tr_bcast tr) /\
  [seq e <- tr_bcasts tr | e.1 != tr_id tr] = [seq e <- bcs | e.1 != tr_id tr].

(** The coefficients committed to in [bcs]. *)
Definition committed (bcs : seq (nat * Round1Bcast)) (j : nat) : seq 'F_p :=
  if bt_get u32_key j bcs is Some b then map wire_log (commitments b) else [::].

Lemma get_all (bcs : seq (nat * Round1Bcast)) :
  uniq (keys u32_key bcs) -> {in bcs, forall e, bt_get u32_key e.1 bcs = Some e.2}.
Proof.
elim: bcs => [|[j b] bcs IH] //; rw keys_cons /= => /andP[jn /IH H] e.
rw in_cons => /orP[/eqP->|ein] /=; first by rw /u32_key eqxx.
case: eqP => [je|_]; last exact: H.
by move: jn; rw je (map_f (fun e => u32_key e.1) ein).
Qed.

Lemma keys_filter j (m : seq (nat * Round1Bcast)) :
  [seq k <- keys u32_key m | k != j] = keys u32_key [seq e <- m | e.1 != j].
Proof. by rw /keys filter_map. Qed.

(** A finished participant's own commitments. *)
Lemma committed_own bcs id (cs : seq 'F_p) b :
  bt_get u32_key id bcs = Some b ->
  commitments b = [seq to_compressed C (p1_mul C (p1_generator C) c) | c <- cs] -> committed bcs id = cs.
Proof.
rw /committed => -> ->; rw -map_comp -[RHS]map_id; apply: eq_map => c /=.
exact/wire_log_compressed/gen_log.
Qed.

Lemma own_logs (cs : seq 'F_p) : has_logs [seq p1_mul C (p1_generator C) c | c <- cs] cs.
Proof. by rw /has_logs -map_comp; apply: eq_map => c /=; apply: gen_log. Qed.

Lemma own_entry_ok L i (cs : seq 'F_p) pc :
  identifies i -> L (id_u32 i) = cs -> List.Forall (entry_ok L (size cs)) pc ->
  List.Forall (entry_ok L (size cs))
    (bt_insert (@id_u32 p) i [seq p1_mul C (p1_generator C) c | c <- cs] pc).
Proof.
move=> iok Li; have HP := own_logs cs; apply: insert_all => [|k v ki [kok _ _]]; split=> //=;
  by rw ?size_map ?ki ?Li.
Qed.

Lemma insert_neq0 (K A : Type) (key : K -> nat) k (v : A) m : bt_insert key k v m <> [::].
Proof. by case: m => [|[k' v'] m] //=; case: ltngtP. Qed.

Lemma sorted_keys_eq (m : seq (nat * Round1Bcast)) (ks : seq nat) i :
  sorted ltn (keys u32_key m) -> i \in keys u32_key m -> sorted ltn ks ->
  ks =i i :: [seq k <- keys u32_key m | k != i] -> ks = keys u32_key m.
Proof.
move=> Sm im Sks E; apply: (irr_sorted_eq ltn_trans ltnn) => // k; rw E in_cons mem_filter.
by case: eqP => [->|].
Qed.

Lemma joint_size L t (pc : seq (Identifier p * seq P1)) :
  List.Forall (entry_ok L t) pc -> (size (joint L (keys (@id_u32 p) pc)) <= t)%N.
Proof.
elim=> {pc} [|[i Ps] pc [_ HP szP] _ IH]; first by rw /joint big_nil size_poly0.
rw /joint keys_cons big_cons (leq_trans (size_polyD _ _)) // geq_max IH andbT.
by apply: leq_trans (size_Poly _) _; rw -(size_logs HP) szP.
Qed.

Lemma completed_shares t n ctx bcs tr :
  sorted ltn (keys u32_key bcs) -> completed t n ctx tr -> heard bcs tr ->
  let f := joint (committed bcs) (keys u32_key bcs) in
  [/\ (size f <= t)%N, kp_signing_share (tr_kp tr) = f.[(tr_id tr)%:R],
      dlog1 (kp_verifying_key (tr_kp tr)) = Some f.[0] &
      [seq (id_u32 e.1, dlog1 e.2) | e <- pk_verifying_shares (tr_pk tr)] =
        [seq (j, Some f.[j%:R]) | j <- keys u32_key bcs]] /\
  [/\ id_u32 (kp_identifier (tr_kp tr)) = tr_id tr,
      kp_verifying_share (tr_kp tr) = p1_mul C (p1_generator C) (kp_signing_share (tr_kp tr)),
      pk_verifying_key (tr_pk tr) = kp_verifying_key (tr_kp tr) &
      verification_key (tr_out tr) = to_compressed C (kp_verifying_key (tr_kp tr))].
Proof.
move=> Sb [/round1_inv[[t1 tn _ _] [cs [k [ci [szc _ _ bE secE]]]]] R2] [own Eb] f.
have Lown : committed bcs (tr_id tr) = cs by apply: (committed_own own); rw bE.
have ub : uniq (keys u32_key bcs) by rw (sorted_uniq ltn_trans ltnn).
have inown : tr_id tr \in keys u32_key bcs by rw -get_keys own.
move: R2; rw /round2 secE /= => R2; do 4 kinv R2; case: x2 Hx2 R2 => pc sum Hloop R2.
have [idE idok] := from_u32_ok (kmap_err_ok Hx0).
have cs0 : cs != [::] by rw -size_eq0 szc -lt0n (ltn_trans _ t1).
have Hb : {in tr_bcasts tr, forall e, e.1 != tr_id tr -> committed bcs e.1 = map wire_log (commitments e.2)}.
  move=> e ein ne; have : e \in [seq e <- bcs | e.1 != tr_id tr] by rw -Eb mem_filter ne.
  by rw mem_filter => /andP[_ /(get_all ub) eb]; rw /committed eb.
have [|||Spc ok Kpc sumE] := round2_loop_sound (L := committed bcs) _ _ _ Hloop => //=.
kinv R2; case: R2 => <- <- <- /=; set pc1 := bt_insert _ _ _ _ in Hx2.
have ok1 : List.Forall (entry_ok (committed bcs) t) pc1.
  by rw -szc; apply: own_entry_ok => //; rw ?idE ?szc.
have K1 : keys (@id_u32 p) pc1 = keys u32_key bcs.
  apply: (sorted_keys_eq Sb inown) => [|j]; first exact: sorted_insert.
  by rw keys_insert !in_cons idE Kpc !keys_filter Eb.
have [||pk [pkE vkE shE]] := from_dkg_commitments_log _ _ ok1; first exact: ltn_trans t1.
  exact: insert_neq0.
move: (kmap_err_ok Hx2); rw pkE => [[<-]]; rw K1 -/f in vkE shE.
split; last by split.
split=> //; first by rw /f -K1; apply: joint_size ok1.
rw evaluate_polynomialE // in Hx1; case: Hx1 => <-; rw (cl_add LC) sumE add0r idok idE.
rw /f /joint horner_sum (bigD1_seq (tr_id tr)) //= Lown; congr (_ + _).
by rw -[LHS]big_filter -[RHS]big_filter !keys_filter Eb.
Qed.

(** ** Combining partial signatures *)

Section combine.
Variable idx : seq nat.
Hypotheses (uidx : uniq idx) (sidx : all (share_index p) idx).
Let xs : seq 'F_p := [seq x%:R | x <- idx].

Lemma nth_xs i : (i < size idx)%N -> nth 0 xs i = (nth 0%N idx i)%:R.
Proof. by move=> si; rw (nth_map 0%N). Qed.

Lemma lambda_loop i js l :
  (i < size idx)%N -> all (fun j => j < size idx)%N js ->
  kfold (lambda_step C xs i) l js =
    KOk (l * \prod_(j <- js | j != i) (nth 0 xs j / (nth 0 xs j - nth 0 xs i))).
Proof.
move=> si; elim: js l => [|j js IH] l /=; first by rw big_nil mulr1.
case/andP=> sj sjs; rw big_cons /lambda_step [i == j]eq_sym; case: eqP => [_|/eqP ji] /=; first exact: IH.
have d0 : nth 0 xs j - nth 0 xs i != 0.
  have idxp k : (k < size idx)%N -> (nth 0%N idx k < p)%N.
    by move=> sk; case/andP: (allP sidx _ (mem_nth 0%N sk)).
  by rw !nth_xs // subr_eq0 natr_inj ?idxp // nth_uniq.
by rw (cl_sub LC) /invert (negPf d0) /= !(cl_mul LC) (cl_inv LC) // IH // !mulrA.
Qed.

Lemma lambda_coeff i :
  (i < size idx)%N ->
  kfold (lambda_step C xs i) 1 (iota 0 (size xs)) = KOk (coeff p idx (nth 0%N idx i)).
Proof.
move=> si; rw lambda_loop // size_map; last first.
  rw mul1r /coeff; congr KOk; rw [RHS](big_nth 0%N) /index_iota subn0.
  rw big_seq_cond [RHS]big_seq_cond; apply: eq_big => [j|j /andP[]]; rw mem_iota add0n.
    by case: (ltnP j (size idx)) => sj //; rw nth_uniq.
  by move=> /andP[_ sj] _; rw !nth_xs.
by apply/allP => j; rw mem_iota add0n => /andP[].
Qed.

Lemma combine_loop (es : seq (nat * BlsPartialSignature P2)) g acc a :
  dlog2 acc = Some a ->
  all (fun e => (e.1 < size idx)%N && (nth 0%N idx e.1 == bps_identifier e.2)) es ->
  map (fun e => dlog2 (bps_point e.2)) es = map (fun e => Some (g (bps_identifier e.2))) es ->
  exists2 S, kfold (combine_step C xs) acc es = KOk S &
    dlog2 S = Some (a + \sum_(e <- es) g (bps_identifier e.2) * coeff p idx (bps_identifier e.2)).
Proof.
elim: es acc a => [|[i ps] es IH] acc a Ha /=; first by exists acc; rw // big_nil addr0.
case/andP=> /andP[si /eqP ix] ok [Hp Hes]; rw lambda_coeff //= ix.
have Hacc := cl_add2 LC Ha (cl_mult2 LC (coeff p idx (bps_identifier ps)) Hp).
by have [S ES HS] := IH _ _ Hacc ok Hes; exists S => //; rw HS big_cons addrA.
Qed.
End combine.

Lemma no_duplicates seen (sigs : seq (BlsPartialSignature P2)) :
  uniq (map (@bps_identifier P2) sigs) -> ~~ has (mem seen) (map (@bps_identifier P2) sigs) ->
  check_duplicates seen sigs = KOk tt.
Proof.
elim: sigs seen => //= ps sigs IH seen /andP[ns us]; rw negb_or => /andP[/negPf-> nh].
apply: IH us _; apply/hasPn => x xin; rw inE negb_or (hasPn nh _ xin) andbT.
by apply: contraNneq ns => <-.
Qed.

Lemma enumerated pre (sigs : seq (BlsPartialSignature P2)) :
  let idx := pre ++ map (@bps_identifier P2) sigs in
  all (fun e : nat * BlsPartialSignature P2 => (e.1 < size idx)%N && (nth 0%N idx e.1 == bps_identifier e.2))
    (zip (iota (size pre) (size sigs)) sigs).
Proof.
elim: sigs pre => //= ps sigs IH pre.
rw -cat_rcons nth_cat size_cat !size_rcons ltnS leqnn nth_rcons ltnn eqxx eqxx addSn ltnS leq_addr /=.
by have := IH (rcons pre (bps_identifier ps)); rw size_rcons size_cat size_rcons addSn.
Qed.

Lemma combine_sound t (sigs : seq (BlsPartialSignature P2)) g :
  let idx := map (@bps_identifier P2) sigs in
  (1 < t)%N -> (t <= size sigs)%N -> uniq idx -> all (share_index p) idx ->
  map (fun ps => dlog2 (bps_point ps)) sigs = map (fun ps => Some (g (bps_identifier ps))) sigs ->
  exists2 S, from_partial_signatures C t sigs = KOk S &
    dlog2 S = Some (\sum_(x <- idx) g x * coeff p idx x).
Proof.
move=> idx t1 szt us si Hp; rw /from_partial_signatures ltnNge t1 ltnNge szt.
have -> : check_duplicates [::] sigs = KOk tt by apply: no_duplicates => //; apply/hasPn.
rw /=.
have -> : [seq fr_from_uint64 C (bps_identifier ps) | ps <- sigs] = [seq x%:R | x <- idx].
  by rw -map_comp; apply: eq_map => ps /=; rw (cl_u64 LC).
have sz : size (iota 0 (size sigs)) = size sigs by rw size_iota.
have [||S -> HS] := @combine_loop idx us si (zip (iota 0 (size sigs)) sigs) g _ _ (cl_default2 LC).
- exact: (enumerated [::]).
- by move: Hp; elim: (sigs) 0%N => //= ps s' IH m [-> /IH ->].
exists S => //; rw HS add0r -(big_map (fun e => bps_identifier e.2) xpredT (fun x => g x * coeff p idx x)).
by rw (map_comp (@bps_identifier P2) snd) -/(unzip2 _) unzip2_zip ?sz.
Qed.

(** ** What the participants that finish have *)

Section finished.
Variables (t n ctx : nat) (bcs : seq (nat * Round1Bcast)) (honest : transcript -> Prop).
Hypothesis bcs_sorted : sorted ltn (keys u32_key bcs).
Hypothesis honest_ok : forall tr, honest tr -> completed t n ctx tr /\ heard bcs tr.

(** C6: agreement of the key generation.  Whatever the other participants
    broadcast and dealt, the honest ones that finish, having heard the same
    broadcasts, hold values of one polynomial of the threshold's size at their
    identifiers; they publish the same group key, its value at 0, and compute
    the same verifying share for everybody. *)
Theorem dkg_agreement :
  exists f : {poly 'F_p}, forall tr, honest tr ->
  [/\ (size f <= t)%N, kp_signing_share (tr_kp tr) = f.[(tr_id tr)%:R],
      dlog1 (kp_verifying_key (tr_kp tr)) = Some f.[0],
      verification_key (tr_out tr) = to_compressed C (p1_mul C (p1_generator C) f.[0]) &
      [seq (id_u32 e.1, dlog1 e.2) | e <- pk_verifying_shares (tr_pk tr)] =
        [seq (j, Some f.[j%:R]) | j <- keys u32_key bcs]].
Proof.
exists (joint (committed bcs) (keys u32_key bcs)) => tr /honest_ok[done_ heard_].
have [[szf ss vk shs] [_ _ _ vkE]] := completed_shares bcs_sorted done_ heard_.
by split=> //; rw vkE /to_compressed (cl_canonical1 LC vk (gen_log _)).
Qed.

Lemma partial_log tr f msg h :
  dlog2 (hash_to_g2 C msg) = Some h -> kp_signing_share (tr_kp tr) = f.[(tr_id tr)%:R] ->
  dlog2 (bps_point (from_key_package C (tr_kp tr) msg)) = Some (h * f.[(tr_id tr)%:R]).
Proof. by move=> hh ss; rw /from_key_package /= (cl_mult2 LC _ hh) ss. Qed.

End finished.

(** ** A run without faults finishes *)

Lemma challenge_canonical id ctx A A' R R' a r :
  dlog1 A = Some a -> dlog1 A' = Some a -> dlog1 R = Some r -> dlog1 R' = Some r ->
  kryptology_challenge C id ctx A R = kryptology_challenge C id ctx A' R'.
Proof.
move=> Aa Aa' Rr Rr'; rw /kryptology_challenge /to_compressed.
by rw (cl_canonical1 LC Aa Aa') (cl_canonical1 LC Rr Rr').
Qed.

Lemma deserialize_ok j (cs : seq 'F_p) :
  all (fun c => c != 0) cs ->
  exists2 Ps, deserialize_commitment C j (size cs)
      [seq to_compressed C (p1_mul C (p1_generator C) c) | c <- cs] = KOk Ps & has_logs Ps cs.
Proof.
rw /deserialize_commitment size_map eqxx /=; elim: cs => [|c cs IH] /=; first by exists [::].
case/andP=> c0 /IH[Ps]; have [Q -> Qc] := from_to_compressed (gen_log c) c0.
by case: ocollect => //= Ps' [<-] HP; exists (Q :: Ps'); rw // /has_logs /= HP Qc.
Qed.

(** The proof of knowledge an honest dealer makes is accepted. *)
Lemma check_proof_ok id ctx A (a k ci : 'F_p) cs :
  (id <= 255)%N -> dlog1 A = Some a -> ci != 0 ->
  kryptology_challenge C id ctx (p1_mul C (p1_generator C) a) (p1_mul C (p1_generator C) k) = KOk ci ->
  check_proof C ctx id A {| commitments := cs; b_wi := scalar_to_be C (k + a * ci); b_ci := scalar_to_be C ci |} =
    KOk tt.
Proof.
move=> id255 Aa ci0 ch; rw /check_proof !from_to_be 2!kbindE (negPf ci0) /try_u8 id255 2!kbindE.
have Rk : dlog1 (p1_sub C (p1_mul C (p1_generator C) (k + a * ci)) (p1_mul C A ci)) = Some k.
  by rw (cl_add1 LC (gen_log _) (cl_neg1 LC (mul_log ci Aa))) addrK.
by rw (challenge_canonical _ _ Aa (gen_log a) Rk (gen_log k)) ch kbindE eqxx.
Qed.

(** So is the share it sends. *)
Lemma check_share_ok own i j Ps (cs : seq 'F_p) shs :
  (0 < own)%N -> identifies i -> id_u32 i = own -> has_logs Ps cs -> (Poly cs).[own%:R] != 0 ->
  bt_get u32_key j shs = Some (share_for cs own).2 ->
  check_share C own i j Ps shs = KOk (Poly cs).[own%:R].
Proof.
move=> own0 iok idE HP s0 E; rw /check_share E /= eqxx gtn_eqF //= from_to_be /=.
rw (negPf s0) /= /secret_share_verify /=.
by rw (cl_equal1 LC (gen_log _) (evaluate_vss_log _ HP)) iok idE eqxx.
Qed.

Lemma round1_dealt id t n ctx tape b shs sec :
  (n < p)%N -> round1 C id t n ctx tape = KOk (b, shs, sec) ->
  shs = [seq share_for (r1_coefficients sec) j | j <- iota 1 n & j != id].
Proof.
move=> np H; have [[t1 _ _ _] [cs [_ [_ [szc _ _ _ secE]]]]] := round1_inv H.
rw /round1 in H; kinv H; kinv H; case: x0 Hx0 H => cs' tape' _ H; do 6 kinv H; case: H => _ <- E.
move: secE; rw -E => [[csE _]] /=; rw csE in Hx5; move: Hx5; rw deal_shares => [||[<-]]; last by rw csE.
  by rw -size_eq0 szc -lt0n (ltn_trans _ t1).
apply/allP => j; rw mem_iota add1n ltnS => /andP[j0 jn].
by apply: share_index_neq0 => //; rw /share_index j0 (leq_ltn_trans jn np).
Qed.

(** Looking up a list of entries made from their keys. *)
Lemma get_map (A : Type) (g : nat -> A) js k :
  bt_get u32_key k [seq (j, g j) | j <- js] = if k \in js then Some (g k) else None.
Proof. by elim: js => //= j js ->; rw in_cons /u32_key eq_sym; case: eqP => [->|]. Qed.

Lemma loop_total sec i shs bcs acc :
  {in bcs, forall e acc, e.1 != r1_id sec -> exists acc', round2_sender C sec i shs acc e = KOk acc'} ->
  exists acc', kfold (round2_sender C sec i shs) acc bcs = KOk acc'.
Proof.
elim: bcs acc => [|e bcs IH] acc ok /=; first by exists acc.
have [acc' ->] /= : exists acc', round2_sender C sec i shs acc e = KOk acc'.
  case: (altP (e.1 =P r1_id sec)) => [eown|]; last by apply: ok; rw mem_head.
  by exists acc; case: acc e eown {ok} => pc s [j b] /= ->; rw eqxx.
by apply: IH => e' ein; apply: ok; rw in_cons ein orbT.
Qed.

Section faultless.
Variables (t n ctx : nat) (tape : nat -> seq bytes).
Variables (b : nat -> Round1Bcast) (dealt : nat -> seq (nat * ShamirShare)) (sec : nat -> Round1Secret p P1).
Hypothesis np : (n < p)%N.
Hypothesis runs : {in iota 1 n, forall i, round1 C i t n ctx (tape i) = KOk (b i, dealt i, sec i)}.
Let cs i := r1_coefficients (sec i).

(** What participant [i] receives. *)
Definition everyone : seq (nat * Round1Bcast) := [seq (j, b j) | j <- iota 1 n].
Definition shares_to (i : nat) : seq (nat * ShamirShare) :=
  pmap (fun j => omap (pair j) (bt_get u32_key i (dealt j))) (iota 1 n).

Lemma shares_toE i :
  i \in iota 1 n -> shares_to i = [seq (j, (share_for (cs j) i).2) | j <- iota 1 n & j != i].
Proof.
move=> iin; rw /shares_to; have: {subset iota 1 n <= iota 1 n} by [].
elim: {1 3 4}(iota 1 n) => //= j js IH sub; rw IH => [k kin|]; first by apply: sub; rw in_cons kin orbT.
rw (round1_dealt np (runs (sub _ (mem_head _ _)))).
rw (get_map (fun k => (share_for (cs j) k).2)) mem_filter iin andbT eq_sym.
by case: eqP.
Qed.

Lemma size_shares_to i : i \in iota 1 n -> size (shares_to i) = n.-1.
Proof. by move=> iin; rw shares_toE // size_map -rem_filter ?iota_uniq // size_rem // size_iota. Qed.

(** No value happens to be 0: the coefficients, the challenges, the shares.
    Round 2 refuses such a value even from an honest participant. *)
Definition nondegenerate : Prop :=
  [/\ {in iota 1 n, forall i, all (fun c => c != 0) (cs i)},
      {in iota 1 n, forall i, scalar_from_be C (b_ci (b i)) <> KOk 0} &
      {in iota 1 n &, forall i j, i != j -> (Poly (cs i)).[j%:R] != 0}].

Lemma sender_ok i own j acc :
  nondegenerate -> i \in iota 1 n -> from_u32 C i = KOk own -> j \in iota 1 n -> j != i ->
  exists acc', round2_sender C (sec i) own (shares_to i) acc (j, b j) = KOk acc'.
Proof.
move=> [nzc nzp nzs] iin own_ jin ji; have [ownE ownok] := from_u32_ok own_.
have [[t1 _ n255 /andP[j0 jn]] [csj [k [ci [szj _ ch bE secE]]]]] := round1_inv (runs jin).
have [[_ _ _ /andP[i0 _]] [csi [_ [_ [_ _ _ _ secEi]]]]] := round1_inv (runs iin).
have csE : cs j = csj by rw /cs secE.
case: acc => pc s; rw /round2_sender secEi /= (negPf ji) bE /=.
have [|Ps EPs HP] := @deserialize_ok j csj; first by rw -csE nzc.
rw szj in EPs; rw EPs kbindE.
case: Ps HP EPs => [/size_logs|A Ps HP _]; first by rw szj => tE; rw -tE in t1.
have [a [ls [csa Aa _]]] := has_logs_cons HP; rw kbindE; have ci0 : ci != 0.
  by apply/eqP => ci0; apply: (nzp j jin); rw bE /= from_to_be ci0.
rw csa /= in ch *; rw (check_proof_ok _ (leq_trans jn n255) Aa ci0 ch) kbindE.
rw (@check_share_ok _ _ _ _ csj) //; last first.
  have [jd ->] : exists jd, from_u32 C j = KOk jd; last by eexists.
  rw /from_u32 (cl_u64 LC); case: eqP => [|_]; last by eexists.
  by move/eqP; rw (negPf (share_index_neq0 p_prime _)) // /share_index j0 (leq_ltn_trans jn np).
- by rw shares_toE // (get_map (fun j => (share_for (cs j) i).2)) mem_filter ji jin csE.
- by rw -csE nzs.
Qed.

End faultless.
End facts.
