(* ===== verification/FrostRuns.v ===== *)
(** * A run of the key generation

    The field of order 7 with points that are their own logarithms; three
    participants with threshold 2 deal [1 + X], [2 + X] and [1 + 2X]. *)

From mathcomp Require Import boot algebra.
From S2P Require Import Tbls Frost FrostFacts.

Set Implicit Arguments.
Unset Strict Implicit.
Unset Printing Implicit Defensive.

Import GRing.Theory.
Local Open Scope ring_scope.

Definition nat7 (a : 'F_7) : nat := a.

Definition curve7 : Curve 7 'F_7 'F_7 'F_7 'F_7 := {|
  fr_from_uint64 := fun v => v%:R;
  fr_add := fun a b => a + b;
  fr_sub := fun a b => a - b;
  fr_mul := fun a b => a * b;
  fr_eucl_inverse := fun a => a^-1;
  scalar_from_fr := nat7;
  fr_from_scalar := fun s => s%:R;
  scalar_fr_check := fun s => (s < 7)%N;
  lendian_from_scalar := fun s => [:: s];
  scalar_from_lendian := head 0%N;
  scalar_from_le_bytes := head 0%N;
  scalar_from_be_bytes := head 0%N;
  p1_generator := 1;
  p1_default := 0;
  p1_add_or_double := fun a b => a + b;
  p1_cneg := fun a => - a;
  p1_mult := fun a s => a * s%:R;
  p1_is_equal := fun a b => a == b;
  p1_to_affine := id;
  p1_from_affine := id;
  p1_affine_compress := fun a => [:: nat7 a];
  p1_uncompress := fun b => Some (head 0%N b)%:R;
  p1_affine_in_g1 := fun _ => true;
  p1_affine_is_inf := fun a => a == 0;
  p2_default := 0;
  p2_add_or_double := fun a b => a + b;
  p2_mult_int := fun a s => a * s%:R;
  p2_to_affine := id;
  p2_affine_compress := fun a => [:: nat7 a];
  blst_hash_to_g2 := fun msg _ => (sumn msg).+1%:R;
  signature_verify := fun s msg _ pk => (pk != 0) && (s == (sumn msg).+1%:R * pk);
  sha256 := fun b => nseq 32 (sumn b %% 5).+1 |}.

Lemma nat7K (a : 'F_7) : (nat7 a)%:R = a.
Proof. exact: natr_Zp. Qed.

Lemma curve7_laws : curve_laws curve7 (@Some 'F_7) (@Some 'F_7).
Proof.
split=> //=.
- by move=> a; rw nat7K; split=> //; split=> //; case: a.
- by move=> P Q a b [->] [->].
- by move=> P a [->].
- by move=> P a s [->]; rw nat7K.
- by move=> P Q a b [->] [->].
- by move=> P Q a [->] [->].
- by move=> x _; exists x.
- by move=> x a [->].
- by move=> P a _; rw nat7K.
- by move=> P Q a b [->] [->].
- by move=> P a s [->]; rw nat7K.
- by move=> msg _; exists (sumn msg).+1%:R.
- by move=> P Q a [->] [->].
- by move=> P x msg _ s a h [->] [->] [->].
Qed.

Definition get {E A : Type} (d : A) (r : kresult E A) : A := if r is KOk x then x else d.
Definition is_kok {E A : Type} (r : kresult E A) : bool := if r is KOk _ then true else false.

Lemma get_kok {E A : Type} (d : A) (r : kresult E A) : is_kok r -> r = KOk (get d r).
Proof. by case: r. Qed.

(** The random blocks of participant [i]: its coefficients and its nonce. *)
Definition tape7 (i : nat) : seq bytes :=
  nth [::] [:: [::]; [:: [:: 1]; [:: 1]; [:: 3]]; [:: [:: 2]; [:: 1]; [:: 0]; [:: 2]];
               [:: [:: 1]; [:: 2]; [:: 5]]]%N i.

Definition no_bcast := {| commitments := [::]; b_wi := [::]; b_ci := [::] |}.
Definition no_secret : Round1Secret 7 'F_7 :=
  {| r1_id := 0; r1_ctx := 0; r1_coefficients := [::]; r1_commitment := [::];
     r1_threshold := 0; r1_max_signers := 0 |}%N.

Definition first7 (i : nat) := get (no_bcast, [::], no_secret) (round1 curve7 i 2 3 0 (tape7 i)).
Definition b7 (i : nat) := (first7 i).1.1.
Definition dealt7 (i : nat) := (first7 i).1.2.
Definition sec7 (i : nat) := (first7 i).2.

Lemma first7_ok : {in iota 1 3, forall i, round1 curve7 i 2 3 0 (tape7 i) = KOk (b7 i, dealt7 i, sec7 i)}.
Proof.
have ok : all (fun i => is_kok (round1 curve7 i 2 3 0 (tape7 i))) (iota 1 3) by vm_compute.
move=> i /(allP ok)/(get_kok (no_bcast, [::], no_secret)) ->.
by rw /b7 /dealt7 /sec7 /first7; case: (get _ _) => [[]].
Qed.

Definition no_id : Identifier 7 := {| id_u32 := 0%N; id_scalar := 0 |}.
Definition no_result : Round2Bcast * KeyPackage 7 'F_7 * PublicKeyPackage 7 'F_7 :=
  ({| verification_key := [::]; vk_share := [::] |},
   {| kp_identifier := no_id; kp_signing_share := 0; kp_verifying_share := 0; kp_verifying_key := 0;
      kp_min_signers := 0%N |},
   {| pk_verifying_shares := [::]; pk_verifying_key := 0 |}).

Definition second7 (i : nat) := get no_result (round2 curve7 (sec7 i) (everyone 3 b7) (shares_to 3 dealt7 i)).

Definition tr7 (i : nat) : transcript 7 'F_7 := {|
  tr_id := i; tr_tape := tape7 i; tr_bcast := b7 i; tr_dealt := dealt7 i; tr_secret := sec7 i;
  tr_bcasts := everyone 3 b7; tr_shares := shares_to 3 dealt7 i;
  tr_out := (second7 i).1.1; tr_kp := (second7 i).1.2; tr_pk := (second7 i).2 |}.

(** Participants 1 and 3 are honest; nothing is said of 2. *)
Definition honest7 (tr : transcript 7 'F_7) : Prop := tr = tr7 1 \/ tr = tr7 3.

Lemma second7_ok :
  {in [:: 1; 3]%N, forall i, round2 curve7 (sec7 i) (everyone 3 b7) (shares_to 3 dealt7 i) =
    KOk ((second7 i).1.1, (second7 i).1.2, (second7 i).2)}.
Proof.
have ok : all (fun i => is_kok (round2 curve7 (sec7 i) (everyone 3 b7) (shares_to 3 dealt7 i))) [:: 1; 3]%N
  by vm_compute.
move=> i /(allP ok)/(get_kok no_result) ->.
by rw /second7; case: (get _ _) => [[]].
Qed.

Lemma heard7 i : i \in iota 1 3 -> heard (everyone 3 b7) (tr7 i).
Proof. by move=> iin; split; [have := get_map b7 (iota 1 3) i; rw iin | reflexivity]. Qed.

Lemma honest7_ok tr : honest7 tr -> completed curve7 2 3 0 tr /\ heard (everyone 3 b7) tr.
Proof.
case=> ->; (split; [split|]); try exact: heard7; try exact: first7_ok; exact: second7_ok.
Qed.

Lemma dkg_agreement_witness :
  exists f : {poly 'F_7}, forall tr, honest7 tr ->
  [/\ (size f <= 2)%N, kp_signing_share (tr_kp tr) = f.[(tr_id tr)%:R],
      Some (kp_verifying_key (tr_kp tr)) = Some f.[0],
      verification_key (tr_out tr) = to_compressed curve7 (p1_mul curve7 (p1_generator curve7) f.[0]) &
      [seq (id_u32 e.1, Some e.2) | e <- pk_verifying_shares (tr_pk tr)] =
        [seq (j, Some f.[j%:R]) | j <- keys u32_key (everyone 3 b7)]].
Proof.
apply: (@dkg_agreement 7 _ _ _ _ curve7 _ _ curve7_laws 2 3 0 (everyone 3 b7) honest7).
- by vm_compute.
- exact: honest7_ok.
Defined.


Lemma nondegenerate7 : nondegenerate curve7 3 b7 sec7.
Proof.
have c0 : all (fun i => all (fun c => c != 0) (r1_coefficients (sec7 i))) (iota 1 3) by vm_compute.
have p0 : all (fun i => get 0 (scalar_from_be curve7 (b_ci (b7 i))) != 0) (iota 1 3) by vm_compute.
have s0 : all (fun i => all (fun j => (i == j) || (get 0 (evaluate_polynomial curve7
    {| id_u32 := j; id_scalar := j%:R |} (r1_coefficients (sec7 i))) != 0)) (iota 1 3)) (iota 1 3) by vm_compute.
split=> [i iin|i iin E|i j iin jin /negPf ij]; first exact: (allP c0).
- by have := allP p0 i iin; rw E eqxx.
- have sz : all (fun i => size (r1_coefficients (sec7 i)) == 2) (iota 1 3) by vm_compute.
  have c1 : r1_coefficients (sec7 i) != [::] by rw -size_eq0 (eqP (allP sz i iin)).
  by have := allP (allP s0 i iin) j jin; rw ij orFb (evaluate_polynomialE curve7_laws _ c1).
Qed.

