(* ===== verification/Version.v ===== *)
(** * Semantic versions

    [crates/core/src/version.rs]: parsing with the pattern
    [^v(\d+)\.(\d+)(?:\.(\d+))?(?:-(.+))?$], printing and comparison.  Numbers
    are [usize], 64 bits wide.  A digit of another script is matched by [\d]
    and then refused by [str::parse], with the same error as a string that does
    not match, so that the model only knows ASCII digits. *)

From S2P Require Import Prelude.
From stdpp Require Import pretty.
From Stdlib Require Import Ascii.

#[local] Open Scope string_scope.
#[local] Open Scope Z_scope.

(** ** Decimal numbers *)

Definition digit_value (c : ascii) : option Z :=
  let z := Z.of_N (N_of_ascii c) in
  if (48 <=? z) && (z <=? 57) then Some (z - 48) else None.

(** The longest prefix of digits, and the rest. *)
Fixpoint span_digits (s : string) : string * string :=
  match s with
  | String c s' =>
      match digit_value c with
      | Some _ => let '(ds, rest) := span_digits s' in (String c ds, rest)
      | None => ("", s)
      end
  | "" => ("", "")
  end.

(** [str::parse::<usize>] on digits: every step is checked. *)
Fixpoint parse_digits (acc : Z) (s : string) : option Z :=
  match s with
  | "" => Some acc
  | String c s' =>
      d ← digit_value c;
      acc ← guard_u64 (acc * 10);
      acc ← guard_u64 (acc + d);
      parse_digits acc s'
  end.

Definition parse_usize (s : string) : option Z :=
  match s with "" => None | _ => parse_digits 0 s end.

(** [Display] of an unsigned integer. *)
Definition show_usize (z : Z) : string := pretty (Z.to_N z).

(** ** Versions *)

Inductive SemVerError := InvalidFormat.
Inductive SemVerType := Minor | Patch | PreRelease.

Record SemVer := {
  sem_ver_type : SemVerType;
  major : Z;
  minor : Z;
  patch : Z;
  pre_release : string;
}.

#[global] Instance SemVerType_eq_dec : EqDecision SemVerType.
Proof. solve_decision. Defined.
#[global] Instance SemVer_eq_dec : EqDecision SemVer.
Proof. solve_decision. Defined.

(** [.+]: at least one character, none of them a line feed. *)
Fixpoint no_line_feed (s : string) : bool :=
  match s with
  | "" => true
  | String c s' => negb (Ascii.eqb c (ascii_of_N 10)) && no_line_feed s'
  end.

(** [(\d+)] *)
Definition digits_group (s : string) : option (string * string) :=
  match span_digits s with
  | ("", _) => None
  | g => Some g
  end.

Definition strip_char (c : ascii) (s : string) : option string :=
  match s with
  | String c' s => if Ascii.eqb c c' then Some s else None
  | "" => None
  end.

(** [(?:\.(\d+))?] *)
Definition patch_group (s : string) : option (option string * string) :=
  match strip_char "." s with
  | Some s => '(g, s) ← digits_group s; Some (Some g, s)
  | None => Some (None, s)
  end.

(** [(?:-(.+))?$] *)
Definition pre_release_group (s : string) : option (option string) :=
  match s with
  | "" => Some None
  | _ =>
      g ← strip_char "-" s;
      if bool_decide (g <> "") && no_line_feed g then Some (Some g) else None
  end.

(** The captures of [SEMVER_REGEX].  The pattern has one way to match: a run of
    digits ends at a character that is not a digit. *)
Definition captures (s : string) : option (string * string * option string * option string) :=
  s ← strip_char "v" s;
  '(g1, s) ← digits_group s;
  s ← strip_char "." s;
  '(g2, s) ← digits_group s;
  '(g3, s) ← patch_group s;
  g4 ← pre_release_group s;
  Some (g1, g2, g3, g4).

(** [SemVer::parse] *)
Definition parse (value : string) : res SemVerError SemVer :=
  '(g1, g2, g3, g4) ← ok_or (captures value) InvalidFormat;
  major ← ok_or (parse_usize g1) InvalidFormat;
  minor ← ok_or (parse_usize g2) InvalidFormat;
  '(patch, ty) ← match g3 with
                 | Some m => p ← ok_or (parse_usize m) InvalidFormat; Ok (p, Patch)
                 | None => Ok (0, Minor)
                 end;
  let '(pre, ty) := match g4 with Some m => (m, PreRelease) | None => ("", ty) end in
  Ok {| sem_ver_type := ty; major := major; minor := minor; patch := patch; pre_release := pre |}.

(** [Display for SemVer] *)
Definition to_string (v : SemVer) : string :=
  match sem_ver_type v with
  | Minor => "v" +:+ show_usize (major v) +:+ "." +:+ show_usize (minor v)
  | Patch => "v" +:+ show_usize (major v) +:+ "." +:+ show_usize (minor v) +:+ "." +:+ show_usize (patch v)
  | PreRelease =>
      "v" +:+ show_usize (major v) +:+ "." +:+ show_usize (minor v) +:+ "." +:+ show_usize (patch v) +:+
      "-" +:+ pre_release v
  end.

Definition is_pre_release (v : SemVer) : bool := bool_decide (sem_ver_type v = PreRelease).

Definition to_minor (v : SemVer) : SemVer :=
  {| sem_ver_type := Minor; major := major v; minor := minor v; patch := 0; pre_release := "" |}.

(** [Ord for SemVer], and the equality derived from it. *)
Definition cmp (a b : SemVer) : comparison :=
  if negb (major a =? major b) then (if major a <? major b then Lt else Gt)
  else if negb (minor a =? minor b) then (if minor a <? minor b then Lt else Gt)
  else if bool_decide (sem_ver_type a <> Patch \/ sem_ver_type b <> Patch) then Eq
  else if patch a =? patch b then Eq
  else if patch a <? patch b then Lt
  else Gt.

Definition semver_eq (a b : SemVer) : bool :=
  match cmp a b with Eq => true | _ => false end.

(** The const function [v] of the table, and [SUPPORTED] itself. *)
Definition v_minor (major minor : Z) : SemVer :=
  {| sem_ver_type := Minor; major := major; minor := minor; patch := 0; pre_release := "" |}.

Definition SUPPORTED : list SemVer :=
  [v_minor 1 7; v_minor 1 6; v_minor 1 5; v_minor 1 4; v_minor 1 3; v_minor 1 2; v_minor 1 1; v_minor 1 0].

(** What [parse] returns and [SUPPORTED] holds: the fields a type does not have
    are empty. *)
Definition semver_ok (v : SemVer) : Prop :=
  0 <= major v <= U64_MAX /\ 0 <= minor v <= U64_MAX /\ 0 <= patch v <= U64_MAX /\
  match sem_ver_type v with
  | Minor => patch v = 0 /\ pre_release v = ""
  | Patch => pre_release v = ""
  | PreRelease => pre_release v <> "" /\ no_line_feed (pre_release v) = true
  end.

(** ** Facts *)

Lemma guard_u64_in z : 0 <= z <= U64_MAX -> guard_u64 z = Some z.
Proof. intros ?. unfold guard_u64, in_u64. by rewrite !(proj2 (Z.leb_le _ _)) by lia. Qed.

Lemma guard_u64_Some z y : guard_u64 z = Some y -> y = z /\ 0 <= z <= U64_MAX.
Proof. unfold guard_u64, in_u64. case_match; [|done]. intros [= ->]. zbool. lia. Qed.

Lemma digit_value_bound c d : digit_value c = Some d -> 0 <= d <= 9.
Proof. unfold digit_value. case_match; [|done]. intros [= <-]. zbool. lia. Qed.

Lemma digit_value_char n : (n < 10)%N -> digit_value (pretty_N_char n) = Some (Z.of_N n).
Proof.
  intros ?. assert (n ∈ [0; 1; 2; 3; 4; 5; 6; 7; 8; 9]%N) as Hn
    by (rewrite !elem_of_cons; lia).
  repeat (apply elem_of_cons in Hn as [-> |Hn]; [done|]). by apply not_elem_of_nil in Hn.
Qed.

(** All characters of a string are digits. *)
Fixpoint all_digits (s : string) : bool :=
  match s with
  | "" => true
  | String c s => match digit_value c with Some _ => all_digits s | None => false end
  end.

Lemma span_digits_app s rest :
  all_digits s = true -> span_digits rest = ("", rest) -> span_digits (s +:+ rest) = (s, rest).
Proof.
  intros Hs Hr. induction s as [|c s IH]; [done|]. cbn [all_digits] in Hs.
  change (String c s +:+ rest) with (String c (s +:+ rest)). cbn [span_digits].
  destruct (digit_value c); [|done]. by rewrite IH.
Qed.

Lemma span_digits_all s ds rest : span_digits s = (ds, rest) -> all_digits ds = true.
Proof.
  revert ds. induction s as [|c s IH]; intros ds; cbn; [by intros [= <- <-]|].
  destruct (digit_value c) eqn:E; [|by intros [= <- <-]].
  destruct (span_digits s) as [ds' r] eqn:Es. intros [= <- <-]. cbn. rewrite E. by apply IH.
Qed.

Lemma show_go_digits n s : all_digits s = true -> all_digits (pretty_N_go n s) = true.
Proof.
  revert s. induction (N.lt_wf_0 n) as [n _ IH]; intros s Hs.
  destruct (decide (n = 0%N)) as [->|]; [done|].
  rewrite pretty_N_go_step by lia. apply IH; [apply N.div_lt; lia|]. cbn.
  rewrite digit_value_char by (apply N.mod_lt; lia). done.
Qed.

Lemma show_usize_digits z : all_digits (show_usize z) = true.
Proof. unfold show_usize, pretty, pretty_N. case_decide; [done|]. by apply show_go_digits. Qed.

Lemma show_go_nonempty n s : s <> "" -> pretty_N_go n s <> "".
Proof.
  revert s. induction (N.lt_wf_0 n) as [n _ IH]; intros s Hs.
  destruct (decide (n = 0%N)) as [->|]; [done|].
  rewrite pretty_N_go_step by lia. apply IH; [apply N.div_lt; lia|done].
Qed.

Lemma show_usize_nonempty z : show_usize z <> "".
Proof.
  unfold show_usize, pretty, pretty_N. case_decide; [done|].
  rewrite pretty_N_go_step by lia. by apply show_go_nonempty.
Qed.

Lemma parse_show_go n s :
  Z.of_N n <= U64_MAX -> parse_digits 0 (pretty_N_go n s) = parse_digits (Z.of_N n) s.
Proof.
  revert s. induction (N.lt_wf_0 n) as [n _ IH]; intros s Hn.
  destruct (decide (n = 0%N)) as [->|]; [done|].
  rewrite pretty_N_go_step by lia.
  pose proof (N.div_mod n 10 ltac:(done)) as Hdm. pose proof (N.mod_lt n 10 ltac:(done)).
  pose proof (N.div_lt n 10 ltac:(lia) ltac:(done)).
  generalize dependent (n `div` 10)%N. generalize dependent (n `mod` 10)%N. intros r Hr q Hdm Hq.
  rewrite IH by lia. cbn [parse_digits].
  rewrite digit_value_char by done. cbn [mbind option_bind].
  rewrite guard_u64_in by lia. cbn [mbind option_bind].
  rewrite guard_u64_in by lia. cbn [mbind option_bind]. f_equal. lia.
Qed.

Lemma parse_show z : 0 <= z <= U64_MAX -> parse_usize (show_usize z) = Some z.
Proof.
  intros Hz. pose proof (show_usize_nonempty z) as Hne. unfold parse_usize.
  destruct (show_usize z) as [|c s] eqn:E; [done|]. rewrite <-E.
  unfold show_usize, pretty, pretty_N. case_decide; [by replace z with 0 by lia|].
  rewrite parse_show_go by lia. cbn. f_equal. lia.
Qed.

Lemma parse_digits_bound s acc z : 0 <= acc <= U64_MAX -> parse_digits acc s = Some z -> 0 <= z <= U64_MAX.
Proof.
  revert acc. induction s as [|c s IH]; intros acc Ha; cbn [parse_digits]; [by intros [= <-]|].
  intros (d & _ & (a1 & [-> ?]%guard_u64_Some & (a2 & [-> ?]%guard_u64_Some & Hp)%bind_Some)%bind_Some)%bind_Some.
  by apply IH in Hp.
Qed.

Lemma parse_usize_bound s z : parse_usize s = Some z -> 0 <= z <= U64_MAX.
Proof. destruct s as [|c s]; [done|]. apply parse_digits_bound. unfold U64_MAX. lia. Qed.

Lemma digits_group_show z rest :
  span_digits rest = ("", rest) -> digits_group (show_usize z +:+ rest) = Some (show_usize z, rest).
Proof.
  intros Hr. unfold digits_group. rewrite span_digits_app by auto using show_usize_digits.
  pose proof (show_usize_nonempty z). by destruct (show_usize z).
Qed.

Lemma append_empty_r (s : string) : s +:+ "" = s.
Proof. induction s as [|c s IH]; [done|]. change (String c (s +:+ "") = String c s). by rewrite IH. Qed.

Lemma digits_group_last z : digits_group (show_usize z) = Some (show_usize z, "").
Proof. rewrite <-(append_empty_r (show_usize z)) at 1. by apply digits_group_show. Qed.

Lemma strip_char_app c s : strip_char c (String c "" +:+ s) = Some s.
Proof.
  change (strip_char c (String c "" +:+ s)) with (if Ascii.eqb c c then Some s else None).
  by rewrite Ascii.eqb_refl.
Qed.

Lemma pre_release_group_dash g :
  g <> "" -> no_line_feed g = true -> pre_release_group ("-" +:+ g) = Some (Some g).
Proof.
  intros Hg Hl. change (pre_release_group ("-" +:+ g)) with
    (if bool_decide (g <> "") && no_line_feed g then Some (Some g) else None).
  by rewrite bool_decide_true, Hl.
Qed.

(** The captures of a printed version. *)
Lemma captures_to_string v :
  semver_ok v ->
  captures (to_string v) =
  Some (show_usize (major v), show_usize (minor v),
        match sem_ver_type v with Minor => None | _ => Some (show_usize (patch v)) end,
        match sem_ver_type v with PreRelease => Some (pre_release v) | _ => None end).
Proof.
  intros (_ & _ & _ & Hty). unfold to_string, captures.
  destruct v as [[] ma mi pa pre]; cbn [sem_ver_type major minor patch pre_release] in *;
    rewrite strip_char_app; cbn [mbind option_bind];
    rewrite digits_group_show by done; cbn [mbind option_bind];
    rewrite strip_char_app; cbn [mbind option_bind].
  - by rewrite digits_group_last.
  - rewrite digits_group_show by done. cbn [mbind option_bind]. unfold patch_group.
    rewrite strip_char_app, digits_group_last. done.
  - rewrite digits_group_show by done. cbn [mbind option_bind]. unfold patch_group.
    rewrite strip_char_app, digits_group_show by done. cbn [mbind option_bind].
    by rewrite pre_release_group_dash by apply Hty.
Qed.

Lemma pre_release_group_ok s g :
  pre_release_group s = Some (Some g) -> g <> "" /\ no_line_feed g = true.
Proof.
  unfold pre_release_group. destruct s as [|c s]; [done|].
  intros (g' & _ & Hg)%bind_Some. case_match eqn:E; [|done]. injection Hg as ->. by zbool.
Qed.

(** What [parse] accepts is well formed. *)
Lemma parse_ok s v : parse s = Ok v -> semver_ok v.
Proof.
  unfold parse. intros ([[[g1 g2] g3] g4] & Hc%ok_or_Ok & H)%res_bind_Ok.
  apply res_bind_Ok in H as (ma & Hma%ok_or_Ok%parse_usize_bound & H).
  apply res_bind_Ok in H as (mi & Hmi%ok_or_Ok%parse_usize_bound & H).
  apply res_bind_Ok in H as ([pa ty] & Hp & H).
  assert (forall g, g4 = Some g -> g <> "" /\ no_line_feed g = true) as Hg4.
  { intros g ->. unfold captures in Hc.
    repeat match type of Hc with
    | (_ ≫= _) = Some _ => apply bind_Some in Hc as (? & ? & Hc)
    | (let '(_, _) := ?x in _) = Some _ => destruct x
    end.
    simplify_eq. by eapply pre_release_group_ok. }
  assert (0 <= pa <= U64_MAX /\ ((ty = Minor /\ pa = 0) \/ ty = Patch)) as [Hpa Hty].
  { destruct g3; inv_res; simplify_eq; [|by split; [unfold U64_MAX; lia|left]].
    split; [|by right]. by eapply parse_usize_bound. }
  unfold semver_ok. destruct g4 as [g|]; simplify_eq/=.
  - by specialize (Hg4 g eq_refl).
  - destruct Hty as [[-> ->]| ->]; done.
Qed.

Theorem version_roundtrip v : parse (to_string v) = Ok v <-> semver_ok v.
Proof.
  split; [apply parse_ok|]. intros Hv. unfold parse.
  rewrite captures_to_string by done. destruct Hv as (? & ? & ? & Hty). cbn [mbind res_bind ok_or].
  rewrite !parse_show by done. cbn [mbind res_bind ok_or].
  destruct v as [[] ma mi pa pre]; cbn in *; [by destruct Hty; subst| |];
    rewrite parse_show by done; cbn; by simplify_eq.
Qed.

(** ** Comparison *)

(** Equality of versions is not transitive: a version without a patch number,
    or with a label, equals every patch of its minor version. *)
Example version_eq_not_transitive :
  match parse "v1.7.1", parse "v1.7", parse "v1.7.2" with
  | Ok a, Ok b, Ok c => semver_eq a b = true /\ semver_eq b c = true /\ semver_eq a c = false
  | _, _, _ => False
  end.
Proof. by vm_compute. Qed.

(** Comparison is antisymmetric. *)
Lemma cmp_antisym a b : cmp b a = CompOpp (cmp a b).
Proof.
  unfold cmp. rewrite (Z.eqb_sym (major b)), (Z.eqb_sym (minor b)), (Z.eqb_sym (patch b)).
  repeat (case_match; zbool); try done; try (exfalso; lia); naive_solver.
Qed.

(** Minor versions are equal when their two numbers are. *)
Lemma to_minor_spec a b :
  cmp (to_minor a) (to_minor b) = Eq <-> major a = major b /\ minor a = minor b.
Proof. unfold cmp, to_minor; cbn. repeat (case_match; zbool); naive_solver lia. Qed.

(** On releases with a patch number it is the lexicographic order. *)
Lemma cmp_patch a b :
  sem_ver_type a = Patch -> sem_ver_type b = Patch ->
  cmp a b = Lt <->
  major a < major b \/ major a = major b /\
    (minor a < minor b \/ minor a = minor b /\ patch a < patch b).
Proof.
  intros Ha Hb. unfold cmp. rewrite Ha, Hb. rewrite (bool_decide_false (_ \/ _)) by naive_solver.
  repeat (case_match; zbool); split; try done; lia.
Qed.

Lemma supported_sorted : forall i a b, SUPPORTED !! i = Some a -> SUPPORTED !! S i = Some b -> cmp a b = Gt.
Proof. intros i a b. do 7 (destruct i; [by intros [= <-] [= <-]|]). done. Qed.
