(* ===== verification/DkgBcast.v ===== *)
(** * Reliable broadcast of the key generation

    [crates/dkg/src/bcast]: the wire helpers ([protocol.rs]), the typed
    registry and command queue of [Component], the inbound side of the
    connection handler ([handler.rs]) with its store of signed digests, and
    the [Behaviour] that drives one broadcast at a time: signatures of all
    peers first, then the fully signed message.  Streams, timeouts and libp2p
    are not modelled: a request or message that arrives is an argument, an
    outbound operation ends with an [OutEvent]. *)

From S2P Require Import Prelude Bytes K1Util.

(** ** Data *)

(** [Failure] *)
Inductive Failure :=
| FailureTimeout
| Unsupported
| Io (message : string)
| Other (message : string).

(** [Error]: the variants the modelled code constructs. *)
Inductive BcastError (PeerId : Type) :=
| DuplicateMessageId (msg_id : string)
| UnknownMessageId (msg_id : string)
| LocalPeerMissing
| PeerNotConnected (peer : PeerId)
| BehaviourClosed
| BroadcastFailed (text : string)
| OutboundFailed (peer : PeerId) (failure : Failure)
| InvalidSignatureCount (expected actual : Z)
| InvalidSignatureLength (actual : Z)
| InvalidSignature (peer : PeerId)
| InvalidPeerIndex (peer : PeerId)
| DuplicateMismatchingHash
| SignatureCollectionIncomplete
| MissingField (name : string)
| Decode
| Peer
| K1 (e : K1UtilError).
Arguments DuplicateMessageId {PeerId} msg_id.
Arguments UnknownMessageId {PeerId} msg_id.
Arguments LocalPeerMissing {PeerId}.
Arguments PeerNotConnected {PeerId} peer.
Arguments BehaviourClosed {PeerId}.
Arguments BroadcastFailed {PeerId} text.
Arguments OutboundFailed {PeerId} peer failure.
Arguments InvalidSignatureCount {PeerId} expected actual.
Arguments InvalidSignatureLength {PeerId} actual.
Arguments InvalidSignature {PeerId} peer.
Arguments InvalidPeerIndex {PeerId} peer.
Arguments DuplicateMismatchingHash {PeerId}.
Arguments SignatureCollectionIncomplete {PeerId}.
Arguments MissingField {PeerId} name.
Arguments Decode {PeerId}.
Arguments Peer {PeerId}.
Arguments K1 {PeerId} e.

Record BCastSigRequest := { sig_req_id : string; sig_req_message : option Any }.
Record BCastSigResponse := { sig_resp_id : string; sig_resp_signature : list Z }.
Record BCastMessage := { bmsg_id : string; bmsg_message : option Any; bmsg_signatures : list (list Z) }.

(** [InEvent] and [OutEvent], between the behaviour and a connection. *)
Inductive InEvent :=
| RequestSignature (op_id : Z) (request : BCastSigRequest)
| BroadcastMessage (op_id : Z) (message : BCastMessage).

Inductive OutEvent :=
| SigResponse (op_id : Z) (signature : list Z)
| MessageSent (op_id : Z)
| OutboundFailure (op_id : Z) (failure : Failure).

(** The completion sender of a command is the name of the waiter. *)
Record BroadcastCommand := { cmd_msg_id : string; cmd_any : Any; cmd_completion_tx : option nat }.

Section data.
Context (PeerId : Type) `{Countable PeerId} (App : Type).

(** [RegisteredMessage]: the callback works on the state of the application. *)
Record RegisteredMessage := {
  reg_check : PeerId -> Any -> res (BcastError PeerId) unit;
  reg_callback : PeerId -> string -> Any -> proc App (BcastError PeerId) unit;
}.

Record SigOp := { op_peer : PeerId; op_index : nat }.

Record BroadcastState := {
  st_msg_id : string;
  st_any : Any;
  st_completion_tx : option nat;
  signatures : list (option (list Z));
  sig_ops : gmap Z SigOp;
  msg_ops : gmap Z PeerId;
}.

(** [Event] and [ToSwarm<Event, InEvent>] *)
Inductive Event :=
| EvBroadcastCompleted (msg_id : string)
| EvBroadcastFailed (msg_id : string) (error : BcastError PeerId).

Inductive ToSwarm :=
| GenerateEvent (e : Event)
| NotifyHandler (peer_id : PeerId) (e : InEvent).

(** [Behaviour], with the local peer id and the connected peers of the shared
    [P2PContext], the commands in the channel from the component, and the
    results sent to waiters. *)
Record Behaviour := {
  local_peer_id : option PeerId;
  connected : gset PeerId;
  command_rx : list BroadcastCommand;
  pending_commands : list BroadcastCommand;
  pending_events : list ToSwarm;
  active_broadcast : option BroadcastState;
  next_op : Z;
  completions : list (nat * res (BcastError PeerId) unit);
}.
End data.
Arguments reg_check {PeerId App} _.
Arguments reg_callback {PeerId App} _.
Arguments op_peer {PeerId} _.
Arguments op_index {PeerId} _.
Arguments st_msg_id {PeerId} _.
Arguments st_any {PeerId} _.
Arguments st_completion_tx {PeerId} _.
Arguments signatures {PeerId} _.
Arguments sig_ops {PeerId} _.
Arguments msg_ops {PeerId} _.
Arguments EvBroadcastCompleted {PeerId} msg_id.
Arguments EvBroadcastFailed {PeerId} msg_id error.
Arguments GenerateEvent {PeerId} e.
Arguments NotifyHandler {PeerId} peer_id e.
Arguments local_peer_id {PeerId _ _} _.
Arguments connected {PeerId _ _} _.
Arguments command_rx {PeerId _ _} _.
Arguments pending_commands {PeerId _ _} _.
Arguments pending_events {PeerId _ _} _.
Arguments active_broadcast {PeerId _ _} _.
Arguments next_op {PeerId _ _} _.
Arguments completions {PeerId _ _} _.

Section bcast.
Context {PeerId : Type} `{Countable PeerId} {App : Type}.
Context {SK PK Sig : Type} `{!EqDecision PK} (k : K256 SK PK Sig).
Context (sha256 : list Z -> list Z) (peer_id_to_public_key : PeerId -> option PK).
Context (error_text : BcastError PeerId -> string).

#[local] Abbreviation Error := (BcastError PeerId).
#[local] Abbreviation Behaviour := (Behaviour PeerId).
#[local] Abbreviation BroadcastState := (BroadcastState PeerId).
#[local] Abbreviation SigOp := (SigOp PeerId).

(** ** [protocol.rs] *)

Definition hash_any (any : Any) : list Z := sha256 (bytes_of_string (type_url any) ++ any_value any).

Definition sign_any (secret : SK) (any : Any) : res Error (list Z) :=
  map_err K1 (sign k secret (hash_any any)).

(** The loop of [verify_signatures]. *)
Fixpoint verify_each (hash : list Z) (l : list (PeerId * list Z)) : res Error unit :=
  match l with
  | [] => Ok tt
  | (peer, signature) :: l =>
      if negb (len signature =? SIGNATURE_LEN) then Err (InvalidSignatureLength (len signature))
      else
        public_key ← ok_or (peer_id_to_public_key peer) Peer;
        valid ← map_err K1 (verify_65 k public_key hash signature);
        if negb valid then Err (InvalidSignature peer) else verify_each hash l
  end.

Definition verify_signatures (any : Any) (signatures : list (list Z)) (peers : list PeerId) : res Error unit :=
  if negb (len signatures =? len peers) then Err (InvalidSignatureCount (len peers) (len signatures))
  else verify_each (hash_any any) (zip peers signatures).

(** ** [component.rs] *)

Abbreviation Registry := (gmap string (RegisteredMessage PeerId App)).

(** [TypedRegistration<M>]; [to_msg] is [Any::to_msg::<M>]. *)
Definition typed_registration {M} (to_msg : Any -> option M) (check : PeerId -> M -> res Error unit)
    (callback : PeerId -> string -> M -> proc App Error unit) : RegisteredMessage PeerId App := {|
  reg_check := fun peer_id any => message ← ok_or (to_msg any) Decode; check peer_id message;
  reg_callback := fun peer_id msg_id any =>
    match to_msg any with
    | Some message => callback peer_id msg_id message
    | None => p_fail Decode
    end;
|}.

Definition register_message (msg_id : string) (registration : RegisteredMessage PeerId App) : proc Registry Error unit :=
  registry ← p_get;
  if decide (is_Some (registry !! msg_id)) then p_fail (DuplicateMessageId msg_id)
  else p_modify (insert msg_id registration).

(** The behaviour is running, so that the channel accepts the command. *)
Definition enqueue (registry : Registry) (msg_id : string) (any_msg : Any) (completion_tx : option nat)
    : proc Behaviour Error unit :=
  if decide (registry !! msg_id = None) then p_fail (UnknownMessageId msg_id)
  else p_modify (fun b => b <| command_rx ::= fun l =>
    l ++ [{| cmd_msg_id := msg_id; cmd_any := any_msg; cmd_completion_tx := completion_tx |}] |>).

(** ** [handler.rs] *)

Abbreviation DedupStore := (gmap (PeerId * string) (list Z)).

Definition handle_inbound_sig_request (registry : Registry) (secret : SK) (peer_id : PeerId) (request : BCastSigRequest)
    : proc DedupStore Error BCastSigResponse :=
  any ← p_lift (ok_or (sig_req_message request) (MissingField "message"));
  handler ← p_lift (ok_or (registry !! sig_req_id request) (UnknownMessageId (sig_req_id request)));
  p_lift (reg_check handler peer_id any) ;;
  (let hash := hash_any any in
   let key := (peer_id, sig_req_id request) in
   dedup ← p_get;
   match (dedup : DedupStore) !! key with
   | Some previous => if decide (previous = hash) then mret tt else p_fail DuplicateMismatchingHash
   | None => p_modify (insert key hash)
   end) ;;
  signature ← p_lift (sign_any secret any);
  mret {| sig_resp_id := sig_req_id request; sig_resp_signature := signature |}.

Definition handle_inbound_msg (registry : Registry) (peers : list PeerId) (peer_id : PeerId) (message : BCastMessage)
    : proc App Error unit :=
  any ← p_lift (ok_or (bmsg_message message) (MissingField "message"));
  p_lift (verify_signatures any (bmsg_signatures message) peers) ;;
  handler ← p_lift (ok_or (registry !! bmsg_id message) (UnknownMessageId (bmsg_id message)));
  reg_callback handler peer_id (bmsg_id message) any.

(** ** [behaviour.rs] *)

Section behaviour.
Context (peers : list PeerId) (secret : SK).

Definition behaviour_new (local : option PeerId) (conns : gset PeerId) : Behaviour := {|
  local_peer_id := local; connected := conns; command_rx := []; pending_commands := []; pending_events := [];
  active_broadcast := None; next_op := 0; completions := [] |}.

Definition next_op_id {E} : proc Behaviour E Z :=
  b ← p_get;
  p_modify (fun b => b <| next_op := (next_op b + 1) mod 2 ^ 64 |>) ;;
  mret (next_op b).

Definition is_connected (b : Behaviour) (peer_id : PeerId) : bool := bool_decide (peer_id ∈ connected b).

Definition push_event (e : ToSwarm PeerId) (b : Behaviour) : Behaviour := b <| pending_events ::= fun l => l ++ [e] |>.

Definition emit_broadcast_result (msg_id : string) (result : res Error unit) {E} : proc Behaviour E unit :=
  match result with
  | Ok _ => p_modify (push_event (GenerateEvent (EvBroadcastCompleted msg_id)))
  | Err error => p_modify (push_event (GenerateEvent (EvBroadcastFailed msg_id error)))
  | Panic => p_lift Panic
  end.

Definition complete_command (msg_id : string) (completion_tx : option nat) (result : res Error unit) {E} : proc Behaviour E unit :=
  match completion_tx with
  | Some tx => p_modify (fun b => b <| completions ::= fun l =>
      l ++ [(tx, map_err (fun error => BroadcastFailed (error_text error)) result)] |>)
  | None => mret tt
  end ;;
  emit_broadcast_result msg_id result.

Definition complete_active_broadcast (result : res Error unit) {E} : proc Behaviour E unit :=
  b ← p_get;
  match active_broadcast b with
  | Some state =>
      p_modify (fun b => b <| active_broadcast := None |>) ;;
      complete_command (st_msg_id state) (st_completion_tx state) result
  | None => mret tt
  end.

(** The final message goes to every other peer; an operation id is taken for
    each peer in turn. *)
Fixpoint allocate (local : PeerId) (l : list PeerId) : proc Behaviour Error (list (PeerId * Z)) :=
  match l with
  | [] => mret []
  | peer_id :: l =>
      if decide (peer_id = local) then allocate local l
      else
        b ← p_get;
        if negb (is_connected b peer_id) then p_fail (PeerNotConnected peer_id)
        else
          op_id ← next_op_id;
          dispatches ← allocate local l;
          mret ((peer_id, op_id) :: dispatches)
  end.

Definition maybe_advance_broadcast : proc Behaviour Error unit :=
  b ← p_get;
  match active_broadcast b with
  | None => mret tt
  | Some state =>
      if decide (sig_ops state = ∅ /\ msg_ops state = ∅) then
        sigs ← p_lift (ok_or (mapM (fun s => s) (signatures state)) SignatureCollectionIncomplete);
        p_lift (verify_signatures (st_any state) sigs peers) ;;
        let message := {| bmsg_id := st_msg_id state; bmsg_message := Some (st_any state); bmsg_signatures := sigs |} in
        local ← p_lift (ok_or (local_peer_id b) LocalPeerMissing);
        dispatches ← allocate local peers;
        if decide (dispatches = []) then complete_active_broadcast (Ok tt)
        else
          p_modify (fun b => b <| active_broadcast ::= fmap (fun state => state <| msg_ops ::= fun ops =>
            foldl (fun ops '(peer_id, op_id) => <[op_id := peer_id]> ops) ops dispatches |>) |>) ;;
          p_modify (fun b => foldl (fun b '(peer_id, op_id) =>
            push_event (NotifyHandler peer_id (BroadcastMessage op_id message)) b) b dispatches)
      else mret tt
  end.

(** [if let Err(error) = self.maybe_advance_broadcast() { .. }] *)
Definition advance : proc Behaviour Empty_set unit :=
  p_catch maybe_advance_broadcast (fun error => complete_active_broadcast (Err error)).

(** The other peers with their indices; all of them must be connected. *)
Fixpoint sig_dispatches (b : Behaviour) (local : PeerId) (index : nat) (l : list PeerId) : res Error (list (nat * PeerId)) :=
  match l with
  | [] => Ok []
  | peer_id :: l =>
      if decide (peer_id = local) then sig_dispatches b local (S index) l
      else if negb (is_connected b peer_id) then Err (PeerNotConnected peer_id)
      else ds ← sig_dispatches b local (S index) l; Ok ((index, peer_id) :: ds)
  end.

(** The part of [start_broadcast] that may refuse the command. *)
Definition prepare_broadcast (b : Behaviour) (any_msg : Any)
    : res Error (list (option (list Z)) * list (nat * PeerId)) :=
  local ← ok_or (local_peer_id b) LocalPeerMissing;
  '(local_index, _) ← ok_or (list_find (fun p => p = local) peers) LocalPeerMissing;
  local_signature ← sign_any secret any_msg;
  ds ← sig_dispatches b local 0 peers;
  Ok (<[local_index := Some local_signature]> (replicate (length peers) None), ds).

Fixpoint request_signatures (state : BroadcastState) (ds : list (nat * PeerId)) : proc Behaviour Empty_set BroadcastState :=
  match ds with
  | [] => mret state
  | (index, peer_id) :: ds =>
      op_id ← next_op_id;
      p_modify (push_event (NotifyHandler peer_id (RequestSignature op_id
        {| sig_req_id := st_msg_id state; sig_req_message := Some (st_any state) |}))) ;;
      request_signatures (state <| sig_ops ::= <[op_id := {| op_peer := peer_id; op_index := index |}]> |>) ds
  end.

Definition start_broadcast (msg_id : string) (any_msg : Any) (completion_tx : option nat) : proc Behaviour Empty_set unit :=
  b ← p_get;
  match prepare_broadcast b any_msg with
  | Ok (sigs, ds) =>
      state ← request_signatures {| st_msg_id := msg_id; st_any := any_msg; st_completion_tx := completion_tx;
        signatures := sigs; sig_ops := ∅; msg_ops := ∅ |} ds;
      p_modify (fun b => b <| active_broadcast := Some state |>) ;;
      advance
  | Err error => complete_command msg_id completion_tx (Err error)
  | Panic => p_lift Panic
  end.

Definition start_next_broadcast : proc Behaviour Empty_set unit :=
  b ← p_get;
  match active_broadcast b, pending_commands b with
  | None, c :: l =>
      p_modify (fun b => b <| pending_commands := l |>) ;;
      start_broadcast (cmd_msg_id c) (cmd_any c) (cmd_completion_tx c)
  | _, _ => mret tt
  end.

Definition set_active (state : BroadcastState) (b : Behaviour) : Behaviour := b <| active_broadcast := Some state |>.

Definition handle_handler_event (event : OutEvent) : proc Behaviour Empty_set unit :=
  b ← p_get;
  match active_broadcast b with
  | None => mret tt
  | Some state =>
      match event with
      | SigResponse op_id signature =>
          match sig_ops state !! op_id with
          | Some sig_op =>
              if decide (op_index sig_op < length (signatures state))%nat then
                p_modify (set_active (state <| sig_ops ::= delete op_id |>
                                            <| signatures ::= <[op_index sig_op := Some signature]> |>)) ;;
                advance
              else p_lift Panic
          | None => mret tt
          end
      | MessageSent op_id =>
          match msg_ops state !! op_id with
          | Some _ =>
              p_modify (set_active (state <| msg_ops ::= delete op_id |>)) ;;
              if decide (delete op_id (msg_ops state) = ∅) then complete_active_broadcast (Ok tt) else mret tt
          | None => mret tt
          end
      | OutboundFailure op_id failure =>
          match op_peer <$> sig_ops state !! op_id with
          | Some peer =>
              p_modify (set_active (state <| sig_ops ::= delete op_id |>)) ;;
              complete_active_broadcast (Err (OutboundFailed peer failure))
          | None =>
              match msg_ops state !! op_id with
              | Some peer =>
                  p_modify (set_active (state <| msg_ops ::= delete op_id |>)) ;;
                  complete_active_broadcast (Err (OutboundFailed peer failure))
              | None => mret tt
              end
          end
      end
  end.

(** [on_swarm_event] for a closed connection. *)
Definition on_connection_closed (peer_id : PeerId) : proc Behaviour Empty_set unit :=
  b ← p_get;
  if decide (peer_id ∈ peers) then
    if is_connected b peer_id then mret tt
    else
      match active_broadcast b with
      | Some state =>
          if existsb (fun '(_, op) => bool_decide (op_peer op = peer_id)) (map_to_list (sig_ops state)) ||
             existsb (fun '(_, peer) => bool_decide (peer = peer_id)) (map_to_list (msg_ops state))
          then complete_active_broadcast (Err (PeerNotConnected peer_id))
          else mret tt
      | None => mret tt
      end
  else mret tt.

Definition pop_event : proc Behaviour Empty_set (option (ToSwarm PeerId)) :=
  b ← p_get;
  match pending_events b with
  | e :: l => p_modify (fun b => b <| pending_events := l |>) ;; mret (Some e)
  | [] => mret None
  end.

Definition poll : proc Behaviour Empty_set (option (ToSwarm PeerId)) :=
  event ← pop_event;
  match event with
  | Some e => mret (Some e)
  | None =>
      p_modify (fun b => b <| pending_commands ::= fun l => l ++ command_rx b |> <| command_rx := [] |>) ;;
      b ← p_get;
      match active_broadcast b with
      | None => start_next_broadcast
      | Some _ => mret tt
      end ;;
      pop_event
  end.
End behaviour.
End bcast.
