(* ===== verification/DkgBcastFacts.v ===== *)
(** * Facts of the reliable broadcast

    What [DkgBcast] promises: a behaviour under any sequence of inputs answers
    its commands in order and exactly once, never waits for nothing, and only
    sends messages every peer accepts; with responding peers a broadcast
    completes. *)

From S2P Require Import Prelude Bytes K1Util DkgBcast.

(** ** Runs of a behaviour

    The inputs of a behaviour: a command from the component, the end of an
    outbound operation, a closed connection, a change of the shared peer store
    and a poll by the swarm.  A run keeps the accepted commands and the events
    handed to the swarm. *)

Inductive Input (PeerId : Type) `{Countable PeerId} :=
| IEnqueue (msg_id : string) (any : Any) (completion_tx : option nat)
| IHandler (e : OutEvent)
| IClosed (peer_id : PeerId)
| IContext (local : option PeerId) (conns : gset PeerId)
| IPoll.
Arguments IEnqueue {PeerId _ _} msg_id any completion_tx.
Arguments IHandler {PeerId _ _} e.
Arguments IClosed {PeerId _ _} peer_id.
Arguments IContext {PeerId _ _} local conns.
Arguments IPoll {PeerId _ _}.

Record Run (PeerId : Type) `{Countable PeerId} := {
  run_behaviour : Behaviour PeerId;
  issued : list BroadcastCommand;
  emitted : list (ToSwarm PeerId);
}.
Arguments run_behaviour {PeerId _ _} _.
Arguments issued {PeerId _ _} _.
Arguments emitted {PeerId _ _} _.

Section facts.
Context {PeerId : Type} `{Countable PeerId} {App : Type}.
Context {SK PK Sig : Type} `{!EqDecision PK} (k : K256 SK PK Sig).
Context (sha256 : list Z -> list Z) (peer_id_to_public_key : PeerId -> option PK).
Context (error_text : BcastError PeerId -> string).
Context (registry : gmap string (RegisteredMessage PeerId App)) (peers : list PeerId) (secret : SK).

#[local] Abbreviation Error := (BcastError PeerId).
#[local] Abbreviation Behaviour := (Behaviour PeerId).
#[local] Abbreviation BroadcastState := (BroadcastState PeerId).
#[local] Abbreviation verify_signatures := (verify_signatures k sha256 peer_id_to_public_key).
#[local] Abbreviation complete_command := (complete_command error_text).
#[local] Abbreviation complete_active_broadcast := (complete_active_broadcast error_text).
#[local] Abbreviation maybe_advance_broadcast := (maybe_advance_broadcast k sha256 peer_id_to_public_key error_text peers).
#[local] Abbreviation advance := (advance k sha256 peer_id_to_public_key error_text peers).
#[local] Abbreviation start_broadcast := (start_broadcast k sha256 peer_id_to_public_key error_text peers secret).
#[local] Abbreviation handle_handler_event := (handle_handler_event k sha256 peer_id_to_public_key error_text peers).
#[local] Abbreviation on_connection_closed := (on_connection_closed error_text peers).
#[local] Abbreviation poll := (poll k sha256 peer_id_to_public_key error_text peers secret).

Definition react (i : Input PeerId) : proc (Run PeerId) Empty_set unit := fun r =>
  let b := run_behaviour r in
  let after {A} (out : A -> list (ToSwarm PeerId)) (x : Behaviour * res Empty_set A) :=
    match x with
    | (b, Ok y) => (r <| run_behaviour := b |> <| emitted ::= fun l => l ++ out y |>, Ok tt)
    | (b, Err e) => (r, Err e)
    | (b, Panic) => (r, Panic)
    end in
  match i with
  | IEnqueue msg_id any completion_tx =>
      match enqueue registry msg_id any completion_tx b with
      | (b, Ok _) => (r <| run_behaviour := b |> <| issued ::= fun l =>
          l ++ [{| cmd_msg_id := msg_id; cmd_any := any; cmd_completion_tx := completion_tx |}] |>, Ok tt)
      | (b, Err _) => (r <| run_behaviour := b |>, Ok tt)
      | (b, Panic) => (r, Panic)
      end
  | IHandler e => after (fun _ => []) (handle_handler_event e b)
  | IClosed p => after (fun _ => []) (on_connection_closed p b)
  | IContext local conns => (r <| run_behaviour := b <| local_peer_id := local |> <| connected := conns |> |>, Ok tt)
  | IPoll => after (fun e => match e with Some e => [e] | None => [] end) (poll b)
  end.

Definition run (inputs : list (Input PeerId)) : proc (Run PeerId) Empty_set unit := p_for inputs react.

Definition run_new : Run PeerId := {| run_behaviour := behaviour_new None ∅; issued := []; emitted := [] |}.

(** The results among the events, and what the waiter of a command is told. *)
Definition terminal (e : ToSwarm PeerId) : option (string * option Error) :=
  match e with
  | GenerateEvent (EvBroadcastCompleted msg_id) => Some (msg_id, None)
  | GenerateEvent (EvBroadcastFailed msg_id error) => Some (msg_id, Some error)
  | NotifyHandler _ _ => None
  end.

Definition told (x : BroadcastCommand * option Error) : option (nat * res Error unit) :=
  let '(c, r) := x in
  (fun tx => (tx, match r with None => Ok tt | Some e => Err (BroadcastFailed (error_text e)) end)) <$> cmd_completion_tx c.

(** All issued commands but [rest] have their result. *)
Definition accounted (cs : list BroadcastCommand) (out : list (ToSwarm PeerId)) (b : Behaviour) (rest : list BroadcastCommand) : Prop :=
  exists done results, length done = length results /\ cs = done ++ rest /\
    omap terminal (out ++ pending_events b) = zip (cmd_msg_id <$> done) results /\
    completions b = omap told (zip done results).

(** An event for a connection belongs to an issued command and goes to a peer
    of the cluster; a full message passes the check of its receiver. *)
Definition event_ok (cs : list BroadcastCommand) (e : ToSwarm PeerId) : Prop :=
  match e with
  | GenerateEvent _ => True
  | NotifyHandler p (RequestSignature _ request) => p ∈ peers /\ exists c, c ∈ cs /\
      request = {| sig_req_id := cmd_msg_id c; sig_req_message := Some (cmd_any c) |}
  | NotifyHandler p (BroadcastMessage _ message) => p ∈ peers /\ exists c, c ∈ cs /\
      bmsg_id message = cmd_msg_id c /\ bmsg_message message = Some (cmd_any c) /\
      verify_signatures (cmd_any c) (bmsg_signatures message) peers = Ok tt
  end.

Definition command_of (st : BroadcastState) : BroadcastCommand :=
  {| cmd_msg_id := st_msg_id st; cmd_any := st_any st; cmd_completion_tx := st_completion_tx st |}.

Definition active_commands (b : Behaviour) : list BroadcastCommand :=
  match active_broadcast b with Some st => [command_of st] | None => [] end.

Definition state_ok (st : BroadcastState) : Prop :=
  length (signatures st) = length peers /\
  (forall op s, sig_ops st !! op = Some s -> peers !! op_index s = Some (op_peer s)).

Definition waiting (st : BroadcastState) : Prop := sig_ops st <> ∅ \/ msg_ops st <> ∅.

Record inv (cs : list BroadcastCommand) (out : list (ToSwarm PeerId)) (b : Behaviour) : Prop := {
  inv_accounted : accounted cs out b (active_commands b ++ pending_commands b ++ command_rx b);
  inv_events : Forall (event_ok cs) (out ++ pending_events b);
  inv_state : forall st, active_broadcast b = Some st -> state_ok st;
}.

Definition inv_waiting cs out b : Prop := inv cs out b /\ forall st, active_broadcast b = Some st -> waiting st.

(** ** Accounting *)

Lemma accounted_finish cs out b b' c r rest :
  accounted cs out b (c :: rest) ->
  omap terminal (pending_events b') = omap terminal (pending_events b) ++ [(cmd_msg_id c, r)] ->
  completions b' = completions b ++ option_list (told (c, r)) ->
  accounted cs out b' rest.
Proof.
  intros (done & results & Hl & -> & Ht & Hc) Hp Hc'. exists (done ++ [c]), (results ++ [r]).
  rewrite !length_app, fmap_app, !zip_with_app by (rewrite ?length_fmap; lia). split_and!.
  - cbn. lia.
  - by rewrite <-app_assoc.
  - by rewrite omap_app, Hp, app_assoc, <-omap_app, Ht.
  - by rewrite omap_app, Hc', Hc.
Qed.

(** Events for connections are no results. *)
Lemma accounted_same cs out b b' rest :
  accounted cs out b rest ->
  omap terminal (pending_events b') = omap terminal (pending_events b) -> completions b' = completions b ->
  accounted cs out b' rest.
Proof.
  intros (done & results & Hl & -> & Ht & Hc) Hp Hc'. exists done, results. split_and!; [done..| |by rewrite Hc'].
  by rewrite omap_app, Hp, <-omap_app.
Qed.

(** What [complete_command] leaves alone. *)
Definition same_queue (b b' : Behaviour) : Prop :=
  active_broadcast b' = active_broadcast b /\ pending_commands b' = pending_commands b /\ command_rx b' = command_rx b.

Lemma wp_complete_command {E} c r cs out b rest (Q : unit -> Behaviour -> Prop) (R : E -> Behaviour -> Prop) :
  accounted cs out b (c :: rest) -> Forall (event_ok cs) (out ++ pending_events b) -> r <> Panic ->
  (forall b', same_queue b b' -> accounted cs out b' rest -> Forall (event_ok cs) (out ++ pending_events b') -> Q tt b') ->
  wp (complete_command (cmd_msg_id c) (cmd_completion_tx c) r) Q R b.
Proof.
  intros Hb He Hr HQ. unfold DkgBcast.complete_command. wp_step.
  enough (forall b1, same_queue b b1 -> pending_events b1 = pending_events b ->
    completions b1 = completions b ++
      option_list (told (c, match r with Err e => Some e | _ => None end)) ->
    wp (emit_broadcast_result (cmd_msg_id c) r) Q R b1) as Hrest.
  { unfold told in Hrest. destruct (cmd_completion_tx c) as [tx|]; wp_step; apply Hrest; try done.
    - by destruct r as [[]| |].
    - cbn. by rewrite app_nil_r. }
  intros b1 Hq Hp Hc. unfold emit_broadcast_result.
  destruct r as [[]|e|]; [| |done]; wp_step; apply HQ; try done; cbn -[omap].
  all: try (eapply accounted_finish; [exact Hb| |exact Hc]; cbn -[omap]; by rewrite Hp, omap_app).
  all: rewrite Hp, app_assoc; apply Forall_app; split; [done|by repeat constructor].
Qed.

Lemma wp_complete_active {E} r cs out b (R : E -> Behaviour -> Prop) :
  inv cs out b -> r <> Panic -> wp (complete_active_broadcast r) (fun _ => inv_waiting cs out) R b.
Proof.
  intros [Ha He Hs] Hr. unfold DkgBcast.complete_active_broadcast. wp_step.
  unfold active_commands in Ha. destruct (active_broadcast b) as [st|] eqn:Eb.
  - wp_step. wp_step.
    apply (wp_complete_command (command_of st) r cs out _ (pending_commands b ++ command_rx b)); [|done|done|].
    { by eapply accounted_same; [exact Ha|..]. }
    intros b' (E1 & E2 & E3) Ha' He'. cbn in *. split; [|by rewrite E1]. split; [|done|by rewrite E1].
    unfold active_commands. by rewrite E1, E2, E3.
  - wp_step. split; [|by rewrite Eb]. split; [|done|by rewrite Eb]. unfold active_commands. by rewrite Eb.
Qed.
(** ** Advancing *)

Lemma sign_no_panic key h : sign k key h <> Panic.
Proof. unfold sign. case_match; [done|]. by destruct (sign_prehash_recoverable k key h) as [[]|]. Qed.

Lemma verify_each_no_panic hash l : verify_each k peer_id_to_public_key hash l <> Panic.
Proof.
  induction l as [|[p s] l IH]; [done|]. cbn [verify_each]. destruct (len s =? SIGNATURE_LEN) eqn:El; [|done]. cbn [negb].
  destruct (peer_id_to_public_key p); [|done]. cbn [ok_or mbind res_bind].
  destruct (verify_65 k p0 hash s) as [valid|e|] eqn:Ev; cbn [map_err mbind res_bind]; [by destruct valid|done|].
  exfalso. revert Ev. apply verify_65_no_panic. lia.
Qed.

Lemma verify_signatures_no_panic any sigs : verify_signatures any sigs peers <> Panic.
Proof. unfold DkgBcast.verify_signatures. case_match; [done|]. apply verify_each_no_panic. Qed.

Lemma omap_nil_notify {A} (f : A -> ToSwarm PeerId) (l : list A) :
  (forall x, terminal (f x) = None) -> omap terminal (f <$> l) = [].
Proof. intros Hf. induction l as [|x l IH]; [done|]. cbn -[terminal]. by rewrite Hf. Qed.

Lemma inv_next_op cs out b n : inv cs out b -> inv cs out (b <| next_op := n |>).
Proof. intros [Ha He Hs]. by split. Qed.

Lemma wp_allocate local l b (Q : list (PeerId * Z) -> Behaviour -> Prop) R :
  (forall ds n, Forall (fun d => fst d ∈ l) ds -> Q ds (b <| next_op := n |>)) ->
  (forall e n, R e (b <| next_op := n |>)) -> wp (allocate local l) Q R b.
Proof.
  revert b Q. induction l as [|p l IH]; intros b Q HQ HR; cbn [allocate].
  - wp_step. replace b with (b <| next_op := next_op b |>) by by destruct b. by apply HQ.
  - case_decide.
    { apply IH; [|done]. intros ds n Hds. apply HQ. eapply Forall_impl; [exact Hds|]. intros; by constructor. }
    wp_step. destruct (is_connected b p); cbn [negb].
    + wp_step. unfold next_op_id. repeat wp_step. apply IH; [|intros e n; exact (HR e n)].
      intros ds n Hds. wp_step. apply HQ. constructor; [by constructor|].
      eapply Forall_impl; [exact Hds|]. intros; by constructor.
    + wp_step. replace b with (b <| next_op := next_op b |>) by by destruct b. apply HR.
Qed.

Lemma push_events (f : PeerId -> Z -> ToSwarm PeerId) ds (b : Behaviour) :
  foldl (fun b '(p, op) => push_event (f p op) b) b ds =
  b <| pending_events ::= fun l => l ++ ((fun '(p, op) => f p op) <$> ds) |>.
Proof.
  revert b. induction ds as [|[p op] ds IH]; intros b; cbn [foldl].
  - transitivity (b <| pending_events := pending_events b ++ [] |>); [|done]. rewrite app_nil_r. by destruct b.
  - rewrite IH. transitivity (b <| pending_events := (pending_events b ++ [f p op]) ++ ((fun '(p, op) => f p op) <$> ds) |>);
      [done|]. by rewrite <-app_assoc.
Qed.

Lemma foldl_insert_nonempty (ds : list (PeerId * Z)) (m : gmap Z PeerId) :
  ds <> [] -> foldl (fun ops '(p, op) => <[op := p]> ops) m ds <> ∅.
Proof.
  destruct ds as [|d ds _] using rev_ind; [done|]. intros _. rewrite foldl_app. destruct d as [p op]. cbn.
  apply insert_non_empty.
Qed.

Lemma wp_maybe_advance cs out b :
  inv cs out b -> wp maybe_advance_broadcast (fun _ => inv_waiting cs out) (fun _ => inv cs out) b.
Proof.
  intros Hb. unfold DkgBcast.maybe_advance_broadcast. wp_step.
  destruct (active_broadcast b) as [st|] eqn:Eb; [|wp_step; by split; [|rewrite Eb]].
  case_decide as Hw.
  2:{ wp_step. split; [done|]. intros st' [= <-]%(eq_trans (eq_sym Eb)). unfold waiting.
      destruct (decide (sig_ops st = ∅)); tauto. }
  wp_step. wp_step. destruct (mapM _ _) as [sigs|] eqn:Esigs; cbn [ok_or]; [|done].
  wp_step. wp_step. destruct (verify_signatures _ _ _) as [[]|e|] eqn:Ever; [|done|].
  2:{ exfalso. revert Ever. apply verify_signatures_no_panic. }
  wp_step. wp_step. destruct (local_peer_id b) as [local|]; cbn [ok_or]; [|done].
  wp_step. apply wp_allocate; [|intros e n; by apply inv_next_op].
  intros ds n Hds. case_decide as Hd; [by apply wp_complete_active; [apply inv_next_op|]|].
  wp_step. wp_step. wp_step. rewrite push_events. cbn -[omap].
  destruct Hb as [Ha He Hs]. unfold active_commands in Ha. rewrite Eb in Ha.
  split; [split|]; cbn -[omap]; unfold active_commands; cbn -[omap]; rewrite ?Eb; cbn [fmap option_fmap option_map].
  - eapply accounted_same; [exact Ha| |done]. cbn -[omap]. rewrite omap_app, omap_nil_notify; [by rewrite app_nil_r|by intros []].
  - rewrite app_assoc. apply Forall_app. split; [done|]. apply Forall_fmap. eapply Forall_impl; [exact Hds|].
    intros [p op] Hp. cbn in *. split; [done|]. exists (command_of st). split_and!; [|done..].
    destruct Ha as (done & results & _ & -> & _). set_solver.
  - intros st' [= <-]. exact (Hs st Eb).
  - intros st' [= <-]. right. by apply foldl_insert_nonempty.
Qed.

Lemma wp_advance cs out b : inv cs out b -> wp advance (fun _ => inv_waiting cs out) (fun _ _ => False) b.
Proof.
  intros Hb. unfold DkgBcast.advance. wp_step.
  eapply wp_mono; [by apply wp_maybe_advance|done|]. cbn. intros e b' Hb'. by apply wp_complete_active.
Qed.
(** ** Starting *)

Lemma sig_dispatches_peers (b : Behaviour) local i l ds :
  sig_dispatches b local i l = Ok ds ->
  Forall (fun '(j, p) => (i <= j)%nat /\ l !! (j - i)%nat = Some p) ds.
Proof.
  revert i ds. induction l as [|q l IH]; intros i ds Hds; cbn [sig_dispatches] in Hds; [by injection Hds as <-|].
  assert (forall ds', sig_dispatches b local (S i) l = Ok ds' ->
    Forall (fun '(j, p) => (i <= j)%nat /\ (q :: l) !! (j - i)%nat = Some p) ds') as Hrest.
  { intros ds' Hd. eapply Forall_impl; [exact (IH _ _ Hd)|]. intros [j p] [Hj Hp]. split; [lia|].
    by replace (j - i)%nat with (S (j - S i)) by lia. }
  case_decide; [by apply Hrest|]. destruct (is_connected b q); [|done]. cbn [negb] in Hds. inv_res. subst.
  constructor; [|by apply Hrest]. split; [lia|]. by rewrite Nat.sub_diag.
Qed.

Lemma sig_dispatches_no_panic (b : Behaviour) local i l : sig_dispatches b local i l <> Panic.
Proof.
  revert i. induction l as [|p l IH]; intros i; [done|]. cbn [sig_dispatches]. case_decide; [apply IH|].
  destruct (is_connected b p); [|done]. cbn [negb]. specialize (IH (S i)). by destruct (sig_dispatches b local (S i) l).
Qed.

Lemma wp_request_signatures st ds cs out b rest (Q : BroadcastState -> Behaviour -> Prop) :
  Forall (fun '(i, p) => peers !! i = Some p) ds -> state_ok st -> command_of st ∈ cs ->
  accounted cs out b rest -> Forall (event_ok cs) (out ++ pending_events b) ->
  (forall st' b', command_of st' = command_of st -> state_ok st' -> same_queue b b' -> accounted cs out b' rest ->
    Forall (event_ok cs) (out ++ pending_events b') -> Q st' b') ->
  wp (request_signatures st ds) Q (fun _ _ => False) b.
Proof.
  revert st b Q. induction ds as [|[i p] ds IH]; intros st b Q Hds Hst Hc Ha He HQ; cbn [request_signatures].
  - wp_step. by apply HQ.
  - apply Forall_cons in Hds as [Hp Hds]. wp_step. unfold next_op_id. repeat wp_step. apply IH.
    + done.
    + split; [apply Hst|]. cbn. intros op s. rewrite lookup_insert_Some. intros [[<- <-]|[_ Hs]]; [done|by apply Hst in Hs].
    + done.
    + eapply accounted_same; [exact Ha| |done]. cbn -[omap]. by rewrite omap_app, app_nil_r.
    + cbn -[omap]. rewrite app_assoc. apply Forall_app. split; [done|]. constructor; [|done]. cbn.
      split; [by eapply list_elem_of_lookup_2|]. by exists (command_of st).
    + intros st' b' E Hst' (E1 & E2 & E3) Ha' He'. by apply HQ.
Qed.

Lemma wp_start_broadcast c cs out b :
  accounted cs out b (c :: pending_commands b ++ command_rx b) -> Forall (event_ok cs) (out ++ pending_events b) ->
  active_broadcast b = None ->
  wp (start_broadcast (cmd_msg_id c) (cmd_any c) (cmd_completion_tx c)) (fun _ => inv_waiting cs out) (fun _ _ => False) b.
Proof.
  intros Ha He Hb. unfold DkgBcast.start_broadcast. wp_step.
  destruct (prepare_broadcast _ _ _ _ _ _) as [[sigs ds]|e|] eqn:Ep.
  - unfold prepare_broadcast in Ep. inv_res. destruct x0 as [li ?]. inv_res. simplify_eq. wp_step.
    eapply wp_request_signatures; [..|exact Ha|exact He|]; cbn.
    + match goal with Hd : sig_dispatches _ _ _ _ = Ok _ |- _ => apply sig_dispatches_peers in Hd; revert Hd end.
      intros Hd. eapply Forall_impl; [exact Hd|]. intros [j q] [_ Hp]. by rewrite Nat.sub_0_r in Hp.
    + split; [by cbn; rewrite length_insert, length_replicate|done].
    + destruct c as [id any tx]. destruct Ha as (done & results & _ & -> & _). set_solver.
    + intros st' b' E Hst' (E1 & E2 & E3) Ha' He'. wp_step. wp_step. apply wp_advance. split.
      * unfold active_commands. cbn. rewrite E, E2, E3. cbn. destruct c. by eapply accounted_same; [exact Ha'|..].
      * done.
      * by intros st [= <-].
  - eapply wp_complete_command; [exact Ha|done|done|]. intros b' (E1 & E2 & E3) Ha' He'. rewrite Hb in E1.
    split; [|by rewrite E1]. split; [|done|by rewrite E1]. unfold active_commands. by rewrite E1, E2, E3.
  - exfalso. revert Ep. unfold prepare_broadcast, sign_any.
    destruct (local_peer_id b) as [l|]; [|done]. cbn [ok_or mbind res_bind].
    destruct (list_find (fun p => p = l) peers) as [[li ?]|]; [|done]. cbn [ok_or mbind res_bind].
    pose proof (sign_no_panic secret (DkgBcast.hash_any sha256 (cmd_any c))) as Hs.
    destruct (sign k secret _); [|done..]. cbn [map_err mbind res_bind].
    pose proof (sig_dispatches_no_panic b l 0 peers). by destruct (sig_dispatches b l 0 peers).
Qed.
(** ** Inputs *)

Lemma wp_handler_event e cs out b :
  inv_waiting cs out b -> wp (handle_handler_event e) (fun _ => inv_waiting cs out) (fun _ _ => False) b.
Proof.
  intros Hb. unfold DkgBcast.handle_handler_event. wp_step.
  destruct (active_broadcast b) as [st|] eqn:Eb; [|by wp_step]. destruct (Hb) as [[Ha He Hs] Hw].
  specialize (Hs st Eb) as [Hl Hops]. unfold active_commands in Ha. rewrite Eb in Ha.
  assert (forall st', command_of st' = command_of st -> state_ok st' -> inv cs out (set_active st' b)) as Hset.
  { intros st' E Hst'. split; [|done|by intros ? [= <-]]. unfold active_commands. cbn. rewrite E.
    by eapply accounted_same; [exact Ha|..]. }
  assert (forall op op' s, delete op (sig_ops st) !! op' = Some s -> peers !! op_index s = Some (op_peer s)) as Hdel.
  { intros op op' s [_ Hs]%lookup_delete_Some. by eapply Hops. }
  destruct e as [op signature|op|op failure].
  - destruct (sig_ops st !! op) as [so|] eqn:Eo; [|by wp_step].
    pose proof (lookup_lt_Some _ _ _ (Hops _ _ Eo)) as Hlt. rewrite decide_True by lia. wp_step. wp_step.
    apply wp_advance, Hset; [done|]. split; cbn; [by rewrite length_insert|apply Hdel].
  - destruct (msg_ops st !! op) as [p|] eqn:Eo; [|by wp_step]. wp_step. wp_step.
    assert (inv cs out (set_active (st <| msg_ops ::= delete op |>) b)) as Hi by by apply Hset.
    case_decide as Hd; [by apply wp_complete_active|]. wp_step. split; [done|]. intros ? [= <-]. by right.
  - destruct (sig_ops st !! op) as [so|] eqn:Eo; cbn [fmap option_fmap option_map].
    { wp_step. wp_step. apply wp_complete_active; [|done]. apply Hset; [done|]. split; [done|apply Hdel]. }
    destruct (msg_ops st !! op) as [p|] eqn:Eo'; [|by wp_step].
    wp_step. wp_step. apply wp_complete_active; [|done]. by apply Hset.
Qed.

Lemma wp_connection_closed p cs out b :
  inv_waiting cs out b -> wp (on_connection_closed p) (fun _ => inv_waiting cs out) (fun _ _ => False) b.
Proof.
  intros Hb. unfold DkgBcast.on_connection_closed. wp_step. repeat case_match; try by wp_step.
  apply wp_complete_active; [by apply Hb|done].
Qed.

Lemma wp_pop_event cs out b :
  inv_waiting cs out b ->
  wp pop_event (fun e => inv_waiting cs (out ++ option_list e)) (fun _ _ => False) b.
Proof.
  intros [[Ha He Hs] Hw]. unfold pop_event. wp_step. destruct (pending_events b) as [|e l] eqn:E.
  - wp_step. cbn. rewrite app_nil_r. split; [|done]. split; [done|by rewrite E|done].
  - wp_step. wp_step. wp_step. split; [|done]. split; [| |done]; cbn -[omap].
    + destruct Ha as (done & results & ? & ? & Ht & ?). exists done, results. split_and!; [done..| |done].
      rewrite <-Ht, E. cbn -[omap]. by rewrite <-app_assoc.
    + by rewrite <-app_assoc.
Qed.

Lemma wp_poll cs out b :
  inv_waiting cs out b -> wp poll (fun e => inv_waiting cs (out ++ option_list e)) (fun _ _ => False) b.
Proof.
  intros Hb. unfold DkgBcast.poll. wp_step. eapply wp_mono; [by apply wp_pop_event| |done]. cbn.
  intros [e|] b1 Hb1; [by wp_step|]. cbn in Hb1. rewrite app_nil_r in Hb1. wp_step. wp_step. wp_step.
  set (b2 := b1 <| pending_commands ::= _ |> <| command_rx := [] |>).
  assert (inv_waiting cs out b2) as Hb2.
  { destruct Hb1 as [[Ha He Hs] Hw]. split; [|done]. split; [|done|done]. unfold active_commands. cbn.
    rewrite app_nil_r. by eapply accounted_same; [exact Ha|..]. }
  wp_step. eapply (wp_mono _ (fun _ => inv_waiting cs out) _ (fun _ _ => False)); [|intros _ b3; apply wp_pop_event|done].
  destruct (active_broadcast b2) as [st|] eqn:E2; [by wp_step|]. unfold start_next_broadcast. wp_step. rewrite E2.
  destruct (pending_commands b2) as [|c l] eqn:Ec; [by wp_step|]. wp_step. wp_step.
  destruct Hb2 as [[Ha He Hs] Hw]. unfold active_commands in Ha. rewrite E2, Ec in Ha.
  by apply wp_start_broadcast; [by eapply accounted_same; [exact Ha|..]|..].
Qed.
Definition run_inv (r : Run PeerId) : Prop := inv_waiting (issued r) (emitted r) (run_behaviour r).

Lemma event_ok_more cs c e : event_ok cs e -> event_ok (cs ++ [c]) e.
Proof.
  destruct e as [|p [op req|op m]]; cbn; [done| |].
  - intros [Hp (c' & Hc & E)]. split; [done|]. exists c'. set_solver.
  - intros [Hp (c' & Hc & E)]. split; [done|]. exists c'. set_solver.
Qed.

Lemma wp_react i r : run_inv r -> wp (react i) (fun _ => run_inv) (fun _ _ => False) r.
Proof.
  intros Hr. unfold wp, react. destruct i as [id any tx|e|p|local conns|].
  - unfold enqueue. case_decide as Hreg; [exact Hr|]. cbn [p_modify fst snd].
    destruct Hr as [[Ha He Hs] Hw]. split; [|done]. split; [| |done].
    + destruct Ha as (done & results & Hl & E & Ht & Hc). exists done, results. split_and!; [done| |done|done].
      cbn. rewrite E. unfold active_commands. cbn. by rewrite !app_assoc.
    + cbn. eapply Forall_impl; [exact He|]. intros e. apply event_ok_more.
  - pose proof (wp_handler_event e _ _ _ Hr) as Hw. unfold wp in Hw.
    destruct (handle_handler_event _ _) as [b' [x|[]|]]; [|done]. unfold run_inv. cbn. by rewrite app_nil_r.
  - pose proof (wp_connection_closed p _ _ _ Hr) as Hw. unfold wp in Hw.
    destruct (on_connection_closed _ _) as [b' [x|[]|]]; [|done]. unfold run_inv. cbn. by rewrite app_nil_r.
  - destruct Hr as [[Ha He Hs] Hw]. by split; [split|].
  - pose proof (wp_poll _ _ _ Hr) as Hw. unfold wp in Hw. by destruct (poll _) as [b' [[x|]|[]|]].
Qed.

Lemma run_new_inv : run_inv run_new.
Proof. split; [|done]. split; [|done|done]. by exists [], []. Qed.

Lemma run_ok inputs : exists r, run inputs run_new = (r, Ok tt) /\ run_inv r.
Proof.
  assert (forall r, run_inv r -> exists r', run inputs r = (r', Ok tt) /\ run_inv r') as Hrun; [|apply Hrun, run_new_inv].
  induction inputs as [|i l IH]; intros r Hr; [by exists r|].
  pose proof (wp_react i r Hr) as Hi. unfold wp in Hi. destruct (react i r) as [r1 [[]|[]|]] eqn:E; [|done].
  destruct (IH r1 Hi) as (r2 & E2 & H2). exists r2. split; [|done]. cbn [run p_for].
  by rewrite (proc_step _ _ _ _ _ E).
Qed.

(** Under every sequence of inputs the behaviour does not panic, answers
    its commands in the order in which they were enqueued, each with exactly
    one result, tells the waiter of a command that same result, and while a
    broadcast is active there is an outbound operation it waits for: it never
    gets stuck on its own. *)
Theorem commands_answered_in_order inputs :
  exists r done results, run inputs run_new = (r, Ok tt) /\
    let b := run_behaviour r in
    length done = length results /\
    issued r = done ++ active_commands b ++ pending_commands b ++ command_rx b /\
    omap terminal (emitted r ++ pending_events b) = zip (cmd_msg_id <$> done) results /\
    completions b = omap told (zip done results) /\
    forall st, active_broadcast b = Some st -> sig_ops st <> ∅ \/ msg_ops st <> ∅.
Proof.
  destruct (run_ok inputs) as (r & Hr & [[(done & results & Hl & E & Ht & Hc) _ _] Hw]).
  by exists r, done, results.
Qed.

(** A fully signed message the behaviour hands to a connection carries
    an issued command and goes to a peer; every node of the cluster that has
    the message id registered accepts it: its inbound handler runs the
    registered callback on the wrapped message. *)
Theorem sent_messages_accepted inputs r p op message (receiver : gmap string (RegisteredMessage PeerId App)) reg sender app :
  run inputs run_new = (r, Ok tt) -> NotifyHandler p (BroadcastMessage op message) ∈ emitted r ->
  receiver !! bmsg_id message = Some reg ->
  p ∈ peers /\
  exists c, c ∈ issued r /\ bmsg_id message = cmd_msg_id c /\
    handle_inbound_msg k sha256 peer_id_to_public_key receiver peers sender message app =
      reg_callback reg sender (cmd_msg_id c) (cmd_any c) app.
Proof.
  intros Hr He Hreg. destruct (run_ok inputs) as (r' & Hr' & [[_ Hev _] _]).
  rewrite Hr in Hr'. injection Hr' as <-. rewrite Forall_forall in Hev.
  destruct (Hev _ (proj2 (elem_of_app _ _ _) (or_introl He))) as [Hp (c & Hc & Hid & Hm & Hv)].
  split; [done|]. exists c. split_and!; [done..|]. unfold handle_inbound_msg. rewrite Hm. proc_simp. cbn [ok_or].
  rewrite Hv. proc_simp. by rewrite Hreg, Hid.
Qed.

(** ** Completion

    All peers are connected and answer; [secrets] are their keys. *)

Section completion.
Context (laws : k256_laws k) (secrets : PeerId -> SK).
Context (keys : forall p, p ∈ peers -> peer_id_to_public_key p = Some (public_key k (secrets p))).

Definition signature_of (any : Any) (p : PeerId) : list Z :=
  match sign_any (PeerId := PeerId) k sha256 (secrets p) any with Ok s => s | _ => [] end.

(** The digest can be signed by every peer, with a recovery id that the
    verification accepts. *)
Definition signable (any : Any) : Prop :=
  len (DkgBcast.hash_any sha256 any) = K1_HASH_LEN /\
  forall p, p ∈ peers -> exists s v, sign_prehash_recoverable k (secrets p) (DkgBcast.hash_any sha256 any) = Some (s, v) /\ v < 2.

Lemma signature_of_ok any p :
  signable any -> p ∈ peers ->
  sign_any k sha256 (secrets p) any = @Ok Error _ (signature_of any p) /\
  len (signature_of any p) = SIGNATURE_LEN /\
  verify_65 k (public_key k (secrets p)) (DkgBcast.hash_any sha256 any) (signature_of any p) = Ok true.
Proof.
  intros [Hh Hs] Hp. destruct (Hs p Hp) as (s & v & E & Hv).
  pose proof (sign_verifies k laws _ _ _ _ Hh E) as [E1 _].
  unfold signature_of, sign_any. rewrite E1. cbn [map_err]. split_and!; [done| |by apply sign_verify_65].
  rewrite len_app, (sig_bytes_len k laws). done.
Qed.

Lemma verify_signature_of any : signable any -> verify_signatures any (signature_of any <$> peers) peers = Ok tt.
Proof.
  intros Hs. unfold DkgBcast.verify_signatures. unfold len at 1. rewrite length_fmap, Z.eqb_refl. cbn [negb].
  assert (forall l, (forall p, p ∈ l -> p ∈ peers) -> verify_each k peer_id_to_public_key (DkgBcast.hash_any sha256 any)
    (zip l (signature_of any <$> l)) = Ok tt) as Hl; [|by apply Hl].
  induction l as [|p l IH]; intros Hin; [done|]. cbn [fmap list_fmap zip zip_with verify_each].
  destruct (signature_of_ok any p) as (_ & Hlen & Hver); [done|apply Hin; by constructor|].
  rewrite Hlen, Z.eqb_refl, keys by (apply Hin; by constructor). cbn [negb ok_or mbind res_bind]. rewrite Hver.
  cbn [map_err mbind res_bind negb]. apply IH. intros q Hq. apply Hin. by constructor.
Qed.

(** Every slot is filled or has an outstanding request. *)
Definition collecting (st : BroadcastState) : Prop :=
  state_ok st /\ forall i p, peers !! i = Some p ->
    signatures st !! i = Some (Some (signature_of (st_any st) p)) \/
    exists op s, sig_ops st !! op = Some s /\ op_index s = i.

Lemma collecting_done st :
  collecting st -> sig_ops st = ∅ -> mapM (fun s => s) (signatures st) = Some (signature_of (st_any st) <$> peers).
Proof.
  intros [[Hl _] Hslots] He.
  assert (signatures st = Some <$> (signature_of (st_any st) <$> peers)) as ->.
  { apply list_eq. intros i. rewrite !list_lookup_fmap. destruct (peers !! i) as [p|] eqn:Ep; cbn.
    - destruct (Hslots i p Ep) as [?|(op & s & Hs & _)]; [done|]. by rewrite He, lookup_empty in Hs.
    - apply lookup_ge_None. apply lookup_ge_None in Ep. lia. }
  apply mapM_Some, Forall2_fmap_l, Forall_Forall2_diag. by apply Forall_forall.
Qed.

Lemma collecting_respond st op s :
  collecting st -> sig_ops st !! op = Some s ->
  collecting (st <| sig_ops ::= delete op |>
                 <| signatures ::= <[op_index s := Some (signature_of (st_any st) (op_peer s))]> |>).
Proof.
  intros [[Hl Hops] Hslots] Hs. split; [split|]; cbn.
  - by rewrite length_insert.
  - intros op' s' [_ Hs']%lookup_delete_Some. by eapply Hops.
  - intros i p Hp. destruct (decide (op_index s = i)) as [<-|Hne].
    { left. rewrite list_lookup_insert_eq.
      - rewrite (Hops _ _ Hs) in Hp. by injection Hp as ->.
      - apply lookup_lt_Some in Hp. lia. }
    rewrite list_lookup_insert_ne by done. destruct (Hslots i p Hp) as [?|(op' & s' & Hs' & Hi)]; [by left|].
    right. exists op', s'. split; [|done]. apply lookup_delete_Some. split; [|done]. by intros <-; simplify_eq.
Qed.

Definition all_connected (local : PeerId) (b : Behaviour) : Prop :=
  local_peer_id b = Some local /\ forall p, p ∈ peers -> p <> local -> p ∈ connected b.

Lemma allocate_ok local l (b : Behaviour) :
  (forall p, p ∈ l -> p <> local -> p ∈ connected b) ->
  exists ds n, allocate local l b = (b <| next_op := n |>, Ok ds) /\ fst <$> ds = filter (fun p => p <> local) l.
Proof.
  revert b. induction l as [|p l IH]; intros b Hc; cbn [allocate].
  - exists [], (next_op b). split; [|done]. by destruct b.
  - assert (forall q, q ∈ l -> q <> local -> q ∈ connected b) as Hc' by (intros q Hq; apply Hc; by constructor).
    case_decide as Hp.
    + destruct (IH b Hc') as (ds & n & E & Eds). exists ds, n. split; [done|]. by rewrite filter_cons_False by tauto.
    + proc_simp. unfold is_connected. rewrite bool_decide_eq_true_2 by (apply Hc; [by constructor|done]). cbn [negb].
      unfold next_op_id. rewrite (proc_step _ _ _ (b <| next_op := (next_op b + 1) mod 2 ^ 64 |>) (next_op b)) by done. cbv beta.
      pose (b1 := (b : Behaviour) <| next_op := (next_op b + 1) mod 2 ^ 64 |>).
      destruct (IH b1 Hc') as (ds & n & E & Eds).
      exists ((p, next_op b) :: ds), n. split.
      { exact (proc_step _ _ _ _ _ E). }
      rewrite filter_cons_True by done. cbn. by rewrite Eds.
Qed.

Lemma advance_waiting b st : active_broadcast b = Some st -> waiting st -> advance b = (b, Ok tt).
Proof.
  intros Hb Hw. unfold DkgBcast.advance, p_catch, DkgBcast.maybe_advance_broadcast. proc_simp. rewrite Hb.
  rewrite decide_False; [done|]. intros [H1 H2]. destruct Hw; done.
Qed.

(** The message that is sent in the end. *)
Definition full_message (c : BroadcastCommand) : BCastMessage := {|
  bmsg_id := cmd_msg_id c; bmsg_message := Some (cmd_any c); bmsg_signatures := signature_of (cmd_any c) <$> peers |}.

Definition sent_to_all (local : PeerId) (c : BroadcastCommand) (b : Behaviour) : Prop :=
  forall p, p ∈ peers -> p <> local -> exists op, NotifyHandler p (BroadcastMessage op (full_message c)) ∈ pending_events b.

Lemma advance_sends local b st :
  active_broadcast b = Some st -> collecting st -> sig_ops st = ∅ -> msg_ops st = ∅ -> signable (st_any st) ->
  all_connected local b -> (exists q, q ∈ peers /\ q <> local) ->
  exists b' st', advance b = (b', Ok tt) /\ active_broadcast b' = Some st' /\ command_of st' = command_of st /\
    sig_ops st' = ∅ /\ msg_ops st' <> ∅ /\ sent_to_all local (command_of st) b'.
Proof.
  intros Hb Hc Hs Hm Hsig [Hl Hcon] (q & Hq & Hqn).
  destruct (allocate_ok local peers b Hcon) as (ds & n & Eds & Hds).
  assert (forall p, p ∈ peers -> p <> local -> exists op, (p, op) ∈ ds) as Hall.
  { intros p Hp Hpn. assert (p ∈ ds.*1) as ([p' op] & -> & Hd)%list_elem_of_fmap; [|by exists op].
    rewrite Hds. by apply list_elem_of_filter. }
  assert (ds <> []) as Hne by (intros ->; destruct (Hall q Hq Hqn) as [op Hop]; by apply elem_of_nil in Hop).
  unfold DkgBcast.advance, p_catch, DkgBcast.maybe_advance_broadcast. proc_simp. rewrite Hb, decide_True by done.
  proc_simp. rewrite collecting_done by done. cbn [ok_or]. proc_simp. rewrite verify_signature_of by done. proc_simp.
  rewrite Hl. cbn [ok_or]. rewrite (proc_step _ _ _ _ _ Eds). rewrite decide_False by done. proc_simp.
  unfold p_modify. rewrite push_events. eexists _, _. split; [done|]. cbn [active_broadcast]. cbn. rewrite Hb. cbn.
  split_and!; [done..|by apply foldl_insert_nonempty|].
  intros p Hp Hpn. destruct (Hall p Hp Hpn) as [op Hop]. exists op. cbn.
  apply elem_of_app. right. apply list_elem_of_fmap. by exists (p, op).
Qed.

(** The signatures come in, in some order. *)
Definition respond (any : Any) (x : Z * SigOp PeerId) : proc Behaviour Empty_set unit :=
  let '(op, s) := x in handle_handler_event (SigResponse op (signature_of any (op_peer s))).

Lemma responses_complete local order b st :
  active_broadcast b = Some st -> collecting st -> sig_ops st = list_to_map order -> NoDup (order.*1) -> order <> [] ->
  msg_ops st = ∅ -> signable (st_any st) -> all_connected local b -> (exists q, q ∈ peers /\ q <> local) ->
  exists b' st', p_for order (respond (st_any st)) b = (b', Ok tt) /\ active_broadcast b' = Some st' /\
    command_of st' = command_of st /\ sig_ops st' = ∅ /\ msg_ops st' <> ∅ /\ sent_to_all local (command_of st) b'.
Proof.
  revert b st. induction order as [|[op s] order IH]; intros b st Hb Hc Hs Hnd Hne Hm Hsig Hcon Hq; [done|].
  apply NoDup_cons in Hnd as [Hop Hnd]. cbn in Hop.
  assert (sig_ops st !! op = Some s) as Hlook by (rewrite Hs; apply lookup_insert_eq).
  pose (st1 := st <| sig_ops ::= delete op |> <| signatures ::= <[op_index s := Some (signature_of (st_any st) (op_peer s))]> |>).
  assert (respond (st_any st) (op, s) b = advance (set_active st1 b)) as Hstep.
  { unfold respond, DkgBcast.handle_handler_event. proc_simp. rewrite Hb, Hlook. destruct Hc as [[Hl Hops] _].
    pose proof (lookup_lt_Some _ _ _ (Hops _ _ Hlook)). by rewrite decide_True by lia. }
  assert (collecting st1) as Hc1 by by apply collecting_respond.
  assert (sig_ops st1 = list_to_map order) as Hs1.
  { cbn. rewrite Hs. cbn. apply delete_insert_id. by apply not_elem_of_list_to_map_1. }
  cbn [p_for]. destruct order as [|x order].
  - destruct (advance_sends local (set_active st1 b) st1) as (b' & st' & E & H1); [done..|].
    exists b', st'. split; [|done]. rewrite <-Hstep in E. by rewrite (proc_step _ _ _ _ _ E).
  - rewrite (advance_waiting _ st1) in Hstep; [|done|].
    + rewrite (proc_step _ _ _ _ _ Hstep). by apply (IH (set_active st1 b) st1).
    + left. rewrite Hs1. destruct x. apply insert_non_empty.
Qed.

(** The message is taken by the connections, in some order. *)
Definition acknowledge (x : Z * PeerId) : proc Behaviour Empty_set unit := handle_handler_event (MessageSent (fst x)).

Lemma complete_active_ok b st :
  active_broadcast b = Some st ->
  exists b', complete_active_broadcast (Ok tt) b = (b', Ok tt : res Empty_set unit) /\ active_broadcast b' = None /\
    pending_events b' = pending_events b ++ [GenerateEvent (EvBroadcastCompleted (st_msg_id st))] /\
    completions b' = completions b ++ option_list ((fun tx => (tx, Ok tt)) <$> st_completion_tx st).
Proof.
  intros Hb. unfold DkgBcast.complete_active_broadcast, DkgBcast.complete_command. proc_simp. rewrite Hb. proc_simp.
  destruct (st_completion_tx st) as [tx|]; proc_simp; eexists; split_and!; try done. cbn. by rewrite app_nil_r.
Qed.

Lemma acknowledged_complete order b st :
  active_broadcast b = Some st -> msg_ops st = list_to_map order -> NoDup (order.*1) -> order <> [] ->
  exists b', p_for order acknowledge b = (b', Ok tt) /\ active_broadcast b' = None /\
    pending_events b' = pending_events b ++ [GenerateEvent (EvBroadcastCompleted (st_msg_id st))] /\
    completions b' = completions b ++ option_list ((fun tx => (tx, Ok tt)) <$> st_completion_tx st).
Proof.
  revert b st. induction order as [|[op p] order IH]; intros b st Hb Hm Hnd Hne; [done|].
  apply NoDup_cons in Hnd as [Hop Hnd]. cbn in Hop.
  assert (msg_ops st !! op = Some p) as Hlook by (rewrite Hm; apply lookup_insert_eq).
  assert (delete op (msg_ops st) = list_to_map order) as Hdel.
  { rewrite Hm. cbn. apply delete_insert_id. by apply not_elem_of_list_to_map_1. }
  pose (st1 := (st : BroadcastState) <| msg_ops ::= delete op |>). pose (b1 := set_active st1 b).
  assert (acknowledge (op, p) b =
    (if decide (delete op (msg_ops st) = ∅) then complete_active_broadcast (Ok tt) else mret tt) b1) as Hstep.
  { unfold acknowledge, DkgBcast.handle_handler_event. proc_simp. cbn [fst]. by rewrite Hb, Hlook. }
  cbn [p_for]. rewrite Hdel in Hstep. destruct order as [|x order].
  - rewrite decide_True in Hstep by done. destruct (complete_active_ok b1 _ eq_refl) as (b' & E & Hb').
    rewrite E in Hstep. exists b'. by rewrite (proc_step _ _ _ _ _ Hstep).
  - rewrite decide_False in Hstep by (destruct x; apply insert_non_empty).
    rewrite (proc_step _ _ _ _ _ Hstep). by apply (IH b1 st1).
Qed.

(** The requests of a broadcast have different operation ids. *)
Lemma request_signatures_ok st ds (b : Behaviour) :
  0 <= next_op b < 2 ^ 64 -> len ds <= 2 ^ 64 ->
  exists b' st', request_signatures st ds b = (b', Ok st') /\
    command_of st' = command_of st /\ signatures st' = signatures st /\ msg_ops st' = msg_ops st /\
    local_peer_id b' = local_peer_id b /\ connected b' = connected b /\
    (forall j i p, ds !! j = Some (i, p) ->
      sig_ops st' !! ((next_op b + Z.of_nat j) mod 2 ^ 64) = Some {| op_peer := p; op_index := i |}) /\
    (forall op, (forall j, (j < length ds)%nat -> op <> (next_op b + Z.of_nat j) mod 2 ^ 64) -> sig_ops st' !! op = sig_ops st !! op) /\
    (forall op s, sig_ops st' !! op = Some s -> sig_ops st !! op = Some s \/ (op_index s, op_peer s) ∈ ds).
Proof.
  revert st b. induction ds as [|[i p] ds IH]; intros st b Hn Hl; cbn [request_signatures].
  - exists b, st. split_and!; try done. by left.
  - unfold len in Hl. cbn [length] in Hl. pose (bn := (b : Behaviour) <| next_op := (next_op b + 1) mod 2 ^ 64 |>).
    rewrite (proc_step next_op_id _ b bn (next_op b)) by done. proc_simp.
    pose (st1 := (st : BroadcastState) <| sig_ops ::= <[next_op b := {| op_peer := p; op_index := i |}]> |>).
    match goal with |- context [request_signatures _ ds ?x] => set (b1 := x) end.
    assert (next_op b1 = (next_op b + 1) mod 2 ^ 64) as Hb1 by done.
    assert (forall j, (next_op b1 + Z.of_nat j) mod 2 ^ 64 = (next_op b + Z.of_nat (S j)) mod 2 ^ 64) as Hids.
    { intros j. rewrite Hb1, Z.add_mod_idemp_l by done. f_equal. lia. }
    destruct (IH st1 b1) as (b' & st' & E & Hc & Hs & Hm & Hlp & Hco & Hin & Hout & Hsrc);
      [rewrite Hb1; apply Z.mod_pos_bound; lia|unfold len; lia|].
    exists b', st'. split_and!; [exact E|done..| | |].
    + intros [|j] i' p' Hj.
      * cbn in Hj. injection Hj as <- <-. change (Z.of_nat 0) with 0. rewrite Z.add_0_r, Z.mod_small by done.
        rewrite Hout; [apply lookup_insert_eq|].
        intros j Hj. rewrite Hids. intros Heq.
        enough (Z.of_nat (S j) mod 2 ^ 64 = 0) as Hz by (rewrite Z.mod_small in Hz; lia).
        replace (Z.of_nat (S j)) with ((next_op b + Z.of_nat (S j)) - next_op b) by lia.
        by rewrite Zminus_mod, <-Heq, (Z.mod_small (next_op b)), Z.sub_diag by lia.
      * rewrite <-Hids. by apply Hin.
    + intros op Hop. rewrite Hout.
      * apply lookup_insert_ne. specialize (Hop 0%nat). change (Z.of_nat 0) with 0 in Hop. rewrite Z.add_0_r, Z.mod_small in Hop by done.
        intros Heq. apply Hop; [cbn; lia|done].
      * intros j Hj. rewrite Hids. apply Hop. cbn. lia.
    + intros op s Hs'. destruct (Hsrc op s Hs') as [Hs1|Hd]; [|right; by constructor].
      cbn in Hs1. apply lookup_insert_Some in Hs1 as [[_ <-]|[_ ?]]; [right; by constructor|by left].
Qed.

Lemma sig_dispatches_ok local i l (b : Behaviour) :
  (forall p, p ∈ l -> p <> local -> p ∈ connected b) ->
  exists ds, sig_dispatches b local i l = Ok ds /\ (length ds <= length l)%nat /\
    forall j p, l !! j = Some p -> p <> local -> ((i + j)%nat, p) ∈ ds.
Proof.
  revert i. induction l as [|q l IH]; intros i Hc; cbn [sig_dispatches]; [by exists []|].
  destruct (IH (S i)) as (ds & E & Hl & Hin); [intros p Hp; apply Hc; by constructor|].
  case_decide as Hq.
  - exists ds. split_and!; [done|cbn; lia|]. intros [|j] p Hj Hp; [cbn in Hj; congruence|].
    rewrite Nat.add_succ_r. by apply Hin.
  - unfold is_connected. rewrite bool_decide_eq_true_2 by (apply Hc; [by constructor|done]). cbn [negb]. rewrite E.
    exists ((i, q) :: ds). split_and!; [done|cbn; lia|]. intros [|j] p Hj Hp.
    + cbn in Hj. injection Hj as ->. rewrite Nat.add_0_r. by constructor.
    + constructor 2. rewrite Nat.add_succ_r. by apply Hin.
Qed.

Lemma order_of_map {A} (m : gmap Z A) order :
  order ≡ₚ map_to_list m -> m = list_to_map order /\ NoDup (order.*1) /\ (m <> ∅ -> order <> []).
Proof.
  intros Hp. assert (NoDup (order.*1)) as Hnd by (rewrite Hp; apply NoDup_fst_map_to_list). split_and!; [|done|].
  - by rewrite (list_to_map_proper _ _ Hnd Hp), list_to_map_to_list.
  - intros Hm ->. symmetry in Hp. apply Permutation_nil_r in Hp. by apply map_to_list_empty_iff in Hp.
Qed.

Lemma collecting_started local li st :
  NoDup peers -> peers !! li = Some local ->
  signatures st = <[li := Some (signature_of (st_any st) local)]> (replicate (length peers) None) ->
  (forall i p, peers !! i = Some p -> p <> local -> exists op s, sig_ops st !! op = Some s /\ op_index s = i) ->
  (forall op s, sig_ops st !! op = Some s -> peers !! op_index s = Some (op_peer s)) -> collecting st.
Proof.
  intros Hnd Hli Hs Hops Hok. split; [split; [by rewrite Hs, length_insert, length_replicate|done]|].
  intros i p Hp. destruct (decide (p = local)) as [->|Hne]; [|right; by apply (Hops i p)].
  left. rewrite (NoDup_lookup _ _ _ _ Hnd Hp Hli), Hs, list_lookup_insert_eq; [done|].
  rewrite length_replicate. by eapply lookup_lt_Some.
Qed.

Lemma broadcast_started local c b :
  NoDup peers -> len peers <= 2 ^ 64 -> local ∈ peers -> (exists q, q ∈ peers /\ q <> local) -> secret = secrets local ->
  signable (cmd_any c) -> all_connected local b -> 0 <= next_op b < 2 ^ 64 ->
  exists b1 st1, start_broadcast (cmd_msg_id c) (cmd_any c) (cmd_completion_tx c) b = (b1, Ok tt) /\
    active_broadcast b1 = Some st1 /\ command_of st1 = c /\ collecting st1 /\ msg_ops st1 = ∅ /\ sig_ops st1 <> ∅ /\
    all_connected local b1.
Proof.
  intros Hnd Hlen Hlocal (q & Hq & Hqn) Hsec Hsig [Hlp Hcon] Hop.
  destruct (sig_dispatches_ok local 0 peers b Hcon) as (ds & Eds & Hdl & Hds).
  destruct (list_find_elem_of (fun p => p = local) peers local Hlocal eq_refl) as [[li p'] Hfind].
  destruct (proj1 (list_find_Some _ _ _ _) Hfind) as (Hli & -> & _).
  pose (st0 := {| st_msg_id := cmd_msg_id c; st_any := cmd_any c; st_completion_tx := cmd_completion_tx c;
    signatures := <[li := Some (signature_of (cmd_any c) local)]> (replicate (length peers) None);
    sig_ops := ∅; msg_ops := ∅ |} : BroadcastState).
  assert (prepare_broadcast k sha256 peers secret b (cmd_any c) = Ok (signatures st0, ds)) as Hprep.
  { unfold prepare_broadcast. rewrite Hlp. cbn [ok_or mbind res_bind]. rewrite Hfind. cbn [ok_or mbind res_bind].
    rewrite Hsec. destruct (signature_of_ok (cmd_any c) local) as [-> _]; [done..|]. cbn [mbind res_bind]. by rewrite Eds. }
  destruct (request_signatures_ok st0 ds b) as (b' & st & E & Hc & Hs & Hm & Hlp' & Hcon' & Hin & _ & Hsrc);
    [done|unfold len in *; lia|].
  assert (forall i p, peers !! i = Some p -> p <> local -> exists op s, sig_ops st !! op = Some s /\ op_index s = i) as Hasked.
  { intros i p Hp Hpn. destruct (list_elem_of_lookup_1 _ _ (Hds i p Hp Hpn)) as [j Hj].
    eexists _, _. split; [exact (Hin j _ _ Hj)|done]. }
  assert (sig_ops st <> ∅) as Hne.
  { destruct (list_elem_of_lookup_1 _ _ Hq) as [i Hi]. destruct (Hasked i q Hi Hqn) as (op & s & Hos & _).
    intros E0. by rewrite E0, lookup_empty in Hos. }
  exists (set_active st b'), st. split_and!; [|done| | |by rewrite Hm|done|].
  - unfold DkgBcast.start_broadcast. proc_simp. rewrite Hprep. rewrite (proc_step _ _ _ _ _ E). proc_simp.
    apply (advance_waiting _ st); [done|by left].
  - rewrite Hc. by destruct c.
  - eapply (collecting_started local li); [done|done| |exact Hasked|].
    + injection Hc as _ -> _. by rewrite Hs.
    + intros op s Hos. destruct (Hsrc op s Hos) as [E0|Hd]; [cbn in E0; by rewrite lookup_empty in E0|].
      pose proof (sig_dispatches_peers _ _ _ _ _ Eds) as Hall. rewrite Forall_forall in Hall.
      destruct (Hall _ Hd) as [_ Hp]. by rewrite Nat.sub_0_r in Hp.
  - split; cbn; [by rewrite Hlp'|by rewrite Hcon'].
Qed.

(** C40: with all other peers connected and answering, a broadcast completes,
    whatever the order of the answers.  Starting the command asks the peers for
    their signatures; when all have signed the digest, in any order, the fully
    signed message goes to every other peer; when all of them have taken it, in
    any order, the completion event is emitted and the waiter is told of the
    success. *)
Theorem broadcast_completes local c b :
  NoDup peers -> len peers <= 2 ^ 64 -> local ∈ peers -> (exists q, q ∈ peers /\ q <> local) -> secret = secrets local ->
  signable (cmd_any c) -> all_connected local b -> 0 <= next_op b < 2 ^ 64 ->
  exists b1 st1, start_broadcast (cmd_msg_id c) (cmd_any c) (cmd_completion_tx c) b = (b1, Ok tt) /\
    active_broadcast b1 = Some st1 /\
    forall order1, order1 ≡ₚ map_to_list (sig_ops st1) ->
      exists b2 st2, p_for order1 (respond (cmd_any c)) b1 = (b2, Ok tt) /\ active_broadcast b2 = Some st2 /\
        sent_to_all local c b2 /\
        forall order2, order2 ≡ₚ map_to_list (msg_ops st2) ->
          exists b3, p_for order2 acknowledge b2 = (b3, Ok tt) /\ active_broadcast b3 = None /\
            GenerateEvent (EvBroadcastCompleted (cmd_msg_id c)) ∈ pending_events b3 /\
            forall tx, cmd_completion_tx c = Some tx -> (tx, Ok tt) ∈ completions b3.
Proof.
  intros Hnd Hlen Hlocal Hother Hsec Hsig Hcon Hop.
  destruct (broadcast_started local c b) as (b1 & st1 & E1 & Hb1 & <- & Hcol & Hm & Hs & Hcon1); [done..|].
  exists b1, st1. split_and!; [done..|]. intros order1 (Hm1 & Hnd1 & Hne1)%order_of_map.
  destruct (responses_complete local order1 b1 st1) as (b2 & st2 & E2 & Hb2 & Hc & _ & Hm2 & Hsent); try done; [by apply Hne1|].
  exists b2, st2. split_and!; [done..|]. intros order2 (Hm3 & Hnd2 & Hne2)%order_of_map.
  destruct (acknowledged_complete order2 b2 st2) as (b3 & E3 & Hb3 & Hev & Hcomp); try done; [by apply Hne2|].
  injection Hc as Hid _ Htx. exists b3. split_and!; [done..| |].
  - rewrite Hev, Hid. apply elem_of_app. right. by constructor.
  - cbn. rewrite Hcomp, Htx. intros tx ->. apply elem_of_app. right. by constructor.
Qed.
End completion.
End facts.

(** ** Digests

    The digest covers the type name and the value without a mark between
    them. *)

(** A signature of one wrapped message is a signature of every other one
    whose type name and value split the same bytes differently: moving bytes
    between the end of the type name and the front of the value changes the
    message but neither its digest nor the outcome of the verification. *)
Theorem digest_split {PeerId SK PK Sig} `{!EqDecision PK} (k : K256 SK PK Sig) sha256 (pk_of : PeerId -> option PK)
    (url moved : string) value sigs peers :
  let a := {| type_url := (url +:+ moved)%string; any_value := value |} in
  let b := {| type_url := url; any_value := bytes_of_string moved ++ value |} in
  hash_any sha256 a = hash_any sha256 b /\
  verify_signatures k sha256 pk_of a sigs peers = verify_signatures k sha256 pk_of b sigs peers /\
  (moved <> ""%string -> a <> b).
Proof.
  intros a b. assert (bytes_of_string (url +:+ moved) = bytes_of_string url ++ bytes_of_string moved) as E.
  { unfold bytes_of_string. rewrite <-fmap_app. f_equal. induction url as [|c url IH]; [done|]. cbn. by rewrite <-IH. }
  assert (hash_any sha256 a = hash_any sha256 b) as Eh.
  { unfold hash_any, a, b. cbn [type_url any_value]. by rewrite E, <-app_assoc. }
  split_and!; [done|unfold verify_signatures; by rewrite Eh|]. intros Hm [= _ Hv].
  destruct moved as [|c moved]; [done|]. apply (f_equal length) in Hv. rewrite length_app in Hv. cbn in Hv. lia.
Qed.

(** ** A broadcast of two peers *)

Module BcastSample.

Definition sha (b : list Z) : list Z := be_bytes 32 (fold_right Z.add 0 b).
Definition peers : list bool := [false; true].
Definition any : Any := {| type_url := "T"; any_value := [7] |}.
Definition registration : RegisteredMessage bool (list Any) :=
  {| reg_check := fun _ _ => Ok tt; reg_callback := fun _ _ any => p_modify (fun l => l ++ [any]) |}.
Definition registry : gmap string (RegisteredMessage bool (list Any)) := {["m" := registration]}.
Definition text (e : BcastError bool) : string := "".
Definition sign_of (p : bool) : list Z :=
  match sign_any (PeerId := bool) toy_k256 sha p any with Ok s => s | _ => [] end.

Definition inputs : list (Input bool) :=
  [IContext (Some false) {[true]}; IEnqueue "m" any (Some 0%nat); IPoll; IHandler (SigResponse 0 (sign_of true)); IPoll].
Definition final : Run bool := fst (run toy_k256 sha Some text registry peers false inputs run_new).
Definition full : BCastMessage :=
  {| bmsg_id := "m"; bmsg_message := Some any; bmsg_signatures := [sign_of false; sign_of true] |}.

Lemma sent_messages_accepted_witness :
  NotifyHandler true (BroadcastMessage 1 full) ∈ emitted final /\
  exists c, c ∈ issued final /\ "m"%string = cmd_msg_id c /\
    handle_inbound_msg toy_k256 sha Some registry peers false full [] = ([cmd_any c], Ok tt).
Proof.
  assert (emitted final = [NotifyHandler true (RequestSignature 0 {| sig_req_id := "m"; sig_req_message := Some any |});
    NotifyHandler true (BroadcastMessage 1 full)]) as Ef by (vm_compute; reflexivity).
  assert (NotifyHandler true (BroadcastMessage 1 full) ∈ emitted final) as He by (rewrite Ef; by repeat constructor).
  split; [exact He|].
  destruct (sent_messages_accepted toy_k256 sha Some text registry peers false inputs final true 1 full registry
    registration false []) as (_ & c & Hc & Hid & E); [vm_compute; reflexivity|exact He|reflexivity|].
  exists c. split; [exact Hc|]. split; [exact Hid|exact E].
Defined.

Definition command : BroadcastCommand := {| cmd_msg_id := "m"; cmd_any := any; cmd_completion_tx := Some 0%nat |}.

Lemma broadcast_completes_witness :
  exists b1 st1, start_broadcast toy_k256 sha Some text peers false "m" any (Some 0%nat) (behaviour_new (Some false) {[true]}) =
    (b1, Ok tt) /\ active_broadcast b1 = Some st1.
Proof.
  destruct (broadcast_completes toy_k256 sha Some text peers false toy_k256_laws (fun p => p) (fun p _ => eq_refl) false command
    (behaviour_new (Some false) {[true]})) as (b1 & st1 & E & Hb & _).
  - by apply (bool_decide_unpack _).
  - done.
  - set_solver.
  - exists true. set_solver.
  - done.
  - split; [by vm_compute|]. intros [] _; eexists _, _; (split; [vm_compute; reflexivity|done]).
  - split; [done|]. intros [] Hp Hne; [set_solver|done].
  - done.
  - exists b1, st1. split; [exact E|exact Hb].
Defined.

Lemma digest_split_witness :
  let a := {| type_url := "Ta"; any_value := [7] |} in
  let b := {| type_url := "T"; any_value := [97; 7] |} in
  a <> b /\ verify_signatures toy_k256 sha Some a [sign_of false] peers = verify_signatures toy_k256 sha Some b [sign_of false] peers.
Proof.
  destruct (digest_split toy_k256 sha (@Some bool) "T" "a" [7] [sign_of false] peers) as (_ & E & Hne).
  split; [exact (Hne ltac:(done))|exact E].
Defined.
End BcastSample.
