(* ===== verification/FrostTransport.v ===== *)
(** * Transport of the FROST rounds

    [crates/dkg/src/frostp2p]: the validation of round messages and the
    registrations with the reliable broadcast ([transport.rs]), the inbound
    side of the direct messages ([behaviour.rs]), the collection of the
    messages of a round, and the conversion to and from protobuf messages
    ([codec.rs]).  The decoders of prost and of curve points are parameters. *)

From S2P Require Import Prelude Bytes K1Util DkgBcast.

(** ** Messages *)

Record MsgKey := { val_idx : Z; source_id : Z; target_id : Z }.

#[global] Instance MsgKey_eq_dec : EqDecision MsgKey.
Proof. solve_decision. Defined.

#[global] Instance MsgKey_countable : Countable MsgKey.
Proof.
  apply (inj_countable' (fun key => (val_idx key, source_id key, target_id key))
    (fun '(v, s, t) => {| val_idx := v; source_id := s; target_id := t |})). by intros [].
Defined.

(** [FrostMsgKey] has the fields of [MsgKey]. *)
Abbreviation FrostMsgKey := MsgKey.

Record FrostRound1Cast := { c1_key : option FrostMsgKey; c1_wi : list Z; c1_ci : list Z; c1_commitments : list (list Z) }.
Record FrostRound1Casts := { casts1 : list FrostRound1Cast }.
Record FrostRound2Cast := { c2_key : option FrostMsgKey; c2_verification_key : list Z; c2_vk_share : list Z }.
Record FrostRound2Casts := { casts2 : list FrostRound2Cast }.
Record FrostRound1ShamirShare := { sh_key : option FrostMsgKey; sh_id : Z; sh_value : list Z }.
Record FrostRound1P2p := { shares : list FrostRound1ShamirShare }.

(** The broadcasts of [kryptology.rs], as bytes. *)
Record Round1Bcast := { commitments : list (list Z); wi : list Z; ci : list Z }.
Record Round2Bcast := { verification_key : list Z; vk_share : list Z }.
Record ShamirShare := { share_id : Z; share_value : list Z }.

Definition ROUND1_CAST_ID : string := "/charon/dkg/frost/2.0.0/round1/cast".
Definition ROUND2_CAST_ID : string := "/charon/dkg/frost/2.0.0/round2/cast".

(** [FrostError]: the variants the modelled code constructs. *)
Inductive FrostError :=
| MissingMsgKey
| DecodeWiScalar
| DecodeC1Scalar
| DecodeCommitment
| DecodeShamirScalar
| DecodeVerificationKeyScalar
| DecodeVkShare
| ConfigError (text : string)
| UnexpectedP2PMessageToSelf
| InvalidRound1P2PSourceId
| InvalidRound1P2PSharesCount
| InvalidRound1P2PTargetId
| InvalidRound1P2PValidatorIndex
| DuplicateRound1P2PValidatorIndex
| TooManyRound1CastsMessages
| TooManyRound1P2PMessages
| TooManyRound2CastsMessages.

(** ** [codec.rs] *)

Definition SCALAR_LENGTH : Z := 32.
Definition G1_COMPRESSED_LENGTH : Z := 48.

Section codec.
Context (scalar_ok point_ok : list Z -> bool).

Definition key_to_proto (key : MsgKey) : FrostMsgKey :=
  {| val_idx := val_idx key; source_id := source_id key; target_id := target_id key |}.

Definition key_from_proto (key : option FrostMsgKey) : res FrostError MsgKey :=
  key ← ok_or key MissingMsgKey;
  Ok {| val_idx := val_idx key; source_id := source_id key; target_id := target_id key |}.

(** [bytes_to_array], then the check of the value. *)
Definition bytes_to_array (n : Z) (context : FrostError) (bytes : list Z) : res FrostError (list Z) :=
  if len bytes =? n then Ok bytes else Err context.

Definition bytes_to_scalar (context : FrostError) (bytes : list Z) : res FrostError (list Z) :=
  scalar ← bytes_to_array SCALAR_LENGTH context bytes;
  if scalar_ok scalar then Ok scalar else Err context.

Definition bytes_to_g1 (context : FrostError) (bytes : list Z) : res FrostError (list Z) :=
  point ← bytes_to_array G1_COMPRESSED_LENGTH context bytes;
  if point_ok point then Ok point else Err context.

Definition round1_cast_to_proto (key : MsgKey) (cast : Round1Bcast) : FrostRound1Cast :=
  {| c1_key := Some (key_to_proto key); c1_wi := wi cast; c1_ci := ci cast; c1_commitments := commitments cast |}.

Definition round1_cast_from_proto (cast : FrostRound1Cast) : res FrostError (MsgKey * Round1Bcast) :=
  wi ← bytes_to_scalar DecodeWiScalar (c1_wi cast);
  ci ← bytes_to_scalar DecodeC1Scalar (c1_ci cast);
  commitments ← collect (bytes_to_g1 DecodeCommitment) (c1_commitments cast);
  key ← key_from_proto (c1_key cast);
  Ok (key, {| commitments := commitments; wi := wi; ci := ci |}).

Definition shamir_share_to_proto (key : MsgKey) (share : ShamirShare) : FrostRound1ShamirShare :=
  {| sh_key := Some (key_to_proto key); sh_id := share_id share; sh_value := share_value share |}.

Definition shamir_share_from_proto (share : FrostRound1ShamirShare) : res FrostError (MsgKey * ShamirShare) :=
  key ← key_from_proto (sh_key share);
  value ← bytes_to_scalar DecodeShamirScalar (sh_value share);
  Ok (key, {| share_id := sh_id share; share_value := value |}).

Definition round2_cast_to_proto (key : MsgKey) (cast : Round2Bcast) : FrostRound2Cast :=
  {| c2_key := Some (key_to_proto key); c2_verification_key := verification_key cast; c2_vk_share := vk_share cast |}.

Definition round2_cast_from_proto (cast : FrostRound2Cast) : res FrostError (MsgKey * Round2Bcast) :=
  verification_key ← bytes_to_g1 DecodeVerificationKeyScalar (c2_verification_key cast);
  vk_share ← bytes_to_g1 DecodeVkShare (c2_vk_share cast);
  key ← key_from_proto (c2_key cast);
  Ok (key, {| verification_key := verification_key; vk_share := vk_share |}).

(** The messages of a node list its broadcasts in the order of a [HashMap]. *)
Definition build_round1_casts (ho : HashOrder) (cast_r1 : gmap MsgKey Round1Bcast) : FrostRound1Casts :=
  {| casts1 := (fun '(key, cast) => round1_cast_to_proto key cast) <$> ho_list ho cast_r1 |}.

Definition build_round2_casts (ho : HashOrder) (cast_r2 : gmap MsgKey Round2Bcast) : FrostRound2Casts :=
  {| casts2 := (fun '(key, cast) => round2_cast_to_proto key cast) <$> ho_list ho cast_r2 |}.

(** The nested loops of [make_round1_response] and [make_round2_response]. *)
Fixpoint insert_all {C A} (from_proto : C -> res FrostError (MsgKey * A)) (m : gmap MsgKey A) (l : list C)
    : res FrostError (gmap MsgKey A) :=
  match l with
  | [] => Ok m
  | c :: l => '(key, a) ← from_proto c; insert_all from_proto (<[key := a]> m) l
  end.

Definition make_round1_response (casts : list FrostRound1Casts) (p2ps : list FrostRound1P2p)
    : res FrostError (gmap MsgKey Round1Bcast * gmap MsgKey ShamirShare) :=
  cast_map ← insert_all round1_cast_from_proto ∅ (concat (casts1 <$> casts));
  p2p_map ← insert_all shamir_share_from_proto ∅ (concat (shares <$> p2ps));
  Ok (cast_map, p2p_map).

Definition make_round2_response (msgs : list FrostRound2Casts) : res FrostError (gmap MsgKey Round2Bcast) :=
  insert_all round2_cast_from_proto ∅ (concat (casts2 <$> msgs)).
End codec.

(** ** [transport.rs] *)

Record PeerShareIndices (PeerId : Type) `{Countable PeerId} :=
  { peers_by_share_idx : gmap Z PeerId; share_idx_by_peer : gmap PeerId Z }.
Arguments peers_by_share_idx {PeerId _ _} _.
Arguments share_idx_by_peer {PeerId _ _} _.

(** What the callbacks and the round functions share: the peers each channel
    has accepted a message of, and the channels. *)
Record FrostP2P (PeerId : Type) `{Countable PeerId} := {
  round1_dedup : gset PeerId;
  round1_casts_rx : list FrostRound1Casts;
  round2_dedup : gset PeerId;
  round2_casts_rx : list FrostRound2Casts;
  accepted_round1_p2p : gset PeerId;
  round1_p2p_rx : list (PeerId * FrostRound1P2p);
}.
Arguments round1_dedup {PeerId _ _} _.
Arguments round1_casts_rx {PeerId _ _} _.
Arguments round2_dedup {PeerId _ _} _.
Arguments round2_casts_rx {PeerId _ _} _.
Arguments accepted_round1_p2p {PeerId _ _} _.
Arguments round1_p2p_rx {PeerId _ _} _.

Definition frost_p2p_new {PeerId} `{Countable PeerId} : FrostP2P PeerId :=
  {| round1_dedup := ∅; round1_casts_rx := []; round2_dedup := ∅; round2_casts_rx := [];
     accepted_round1_p2p := ∅; round1_p2p_rx := [] |}.

Section transport.
Context {PeerId : Type} `{Countable PeerId}.
#[local] Abbreviation Error := (BcastError PeerId).
#[local] Abbreviation FrostP2P := (FrostP2P PeerId).

(** The loop of [validate_peer_share_indices], over the entries of the map. *)
Fixpoint index_peers (l : list (PeerId * Z)) (acc : PeerShareIndices PeerId) : res FrostError (PeerShareIndices PeerId) :=
  match l with
  | [] => Ok acc
  | (peer_id, share_idx) :: l =>
      if share_idx =? 0 then Err (ConfigError "frost peer share index cannot be zero")
      else if decide (is_Some (peers_by_share_idx acc !! share_idx)) then
        Err (ConfigError "duplicate frost peer share index")
      else index_peers l {| peers_by_share_idx := <[share_idx := peer_id]> (peers_by_share_idx acc);
                            share_idx_by_peer := <[peer_id := share_idx]> (share_idx_by_peer acc) |}
  end.

Definition validate_peer_share_indices (ho : HashOrder) (peers : gmap PeerId Z) (local_share_idx : Z)
    : res FrostError (PeerShareIndices PeerId) :=
  indices ← index_peers (ho_list ho peers) {| peers_by_share_idx := ∅; share_idx_by_peer := ∅ |};
  if decide (is_Some (peers_by_share_idx indices !! local_share_idx)) then Ok indices
  else Err (ConfigError "local frost share index missing from peer map").

(** The loop over the casts of [validate_round1_casts] and
    [validate_round2_casts]; [more] is the rest of its body. *)
Fixpoint validate_casts {C} (peer_id : PeerId) (source num_validators : Z) (key_of : C -> option FrostMsgKey)
    (more : C -> res Error unit) (seen_validators : gset Z) (l : list C) : res Error unit :=
  match l with
  | [] => Ok tt
  | cast :: l =>
      key ← ok_or (key_of cast) (MissingField "key");
      if negb (source_id key =? source) then Err (InvalidPeerIndex peer_id)
      else if negb (target_id key =? 0) then Err (InvalidPeerIndex peer_id)
      else if num_validators <=? val_idx key then Err (InvalidPeerIndex peer_id)
      else if decide (val_idx key ∈ seen_validators) then Err (InvalidPeerIndex peer_id)
      else
        more cast ;;
        validate_casts peer_id source num_validators key_of more ({[val_idx key]} ∪ seen_validators) l
  end.

Definition validate_round1_casts (peer_id : PeerId) (share_idx_by_peer : gmap PeerId Z) (threshold num_validators : Z)
    (msg : FrostRound1Casts) : res Error unit :=
  source ← ok_or (share_idx_by_peer !! peer_id) (InvalidPeerIndex peer_id);
  if negb (len (casts1 msg) =? num_validators) then
    Err (InvalidSignatureCount num_validators (len (casts1 msg)))
  else
    validate_casts peer_id source num_validators c1_key
      (fun cast => if negb (len (c1_commitments cast) =? threshold)
                   then Err (InvalidSignatureCount threshold (len (c1_commitments cast))) else Ok tt)
      ∅ (casts1 msg).

Definition validate_round2_casts (peer_id : PeerId) (share_idx_by_peer : gmap PeerId Z) (num_validators : Z)
    (msg : FrostRound2Casts) : res Error unit :=
  source ← ok_or (share_idx_by_peer !! peer_id) (InvalidPeerIndex peer_id);
  if negb (len (casts2 msg) =? num_validators) then
    Err (InvalidSignatureCount num_validators (len (casts2 msg)))
  else validate_casts peer_id source num_validators c2_key (fun _ => Ok tt) ∅ (casts2 msg).

(** The callbacks; the receivers of the channels live as long as the run. *)
Definition round1_callback (share_idx_by_peer : gmap PeerId Z) (threshold num_validators : Z)
    (peer_id : PeerId) (_ : string) (msg : FrostRound1Casts) : proc FrostP2P Error unit :=
  p_lift (validate_round1_casts peer_id share_idx_by_peer threshold num_validators msg) ;;
  s ← p_get;
  if decide (peer_id ∈ round1_dedup s) then mret tt
  else
    p_modify (fun s => s <| round1_dedup ::= union {[peer_id]} |>) ;;
    p_modify (fun s => s <| round1_casts_rx ::= fun l => l ++ [msg] |>).

Definition round2_callback (share_idx_by_peer : gmap PeerId Z) (num_validators : Z)
    (peer_id : PeerId) (_ : string) (msg : FrostRound2Casts) : proc FrostP2P Error unit :=
  p_lift (validate_round2_casts peer_id share_idx_by_peer num_validators msg) ;;
  s ← p_get;
  if decide (peer_id ∈ round2_dedup s) then mret tt
  else
    p_modify (fun s => s <| round2_dedup ::= union {[peer_id]} |>) ;;
    p_modify (fun s => s <| round2_casts_rx ::= fun l => l ++ [msg] |>).

Section register.
Context (to_round1 : Any -> option FrostRound1Casts) (to_round2 : Any -> option FrostRound2Casts).

Definition register_round1_bcast (share_idx_by_peer : gmap PeerId Z) (threshold num_validators : Z)
    : proc (gmap string (RegisteredMessage PeerId FrostP2P)) Error unit :=
  register_message ROUND1_CAST_ID (typed_registration to_round1
    (fun peer_id msg => validate_round1_casts peer_id share_idx_by_peer threshold num_validators msg)
    (round1_callback share_idx_by_peer threshold num_validators)).

Definition register_round2_bcast (share_idx_by_peer : gmap PeerId Z) (num_validators : Z)
    : proc (gmap string (RegisteredMessage PeerId FrostP2P)) Error unit :=
  register_message ROUND2_CAST_ID (typed_registration to_round2
    (fun peer_id msg => validate_round2_casts peer_id share_idx_by_peer num_validators msg)
    (round2_callback share_idx_by_peer num_validators)).

(** [new_frost_p2p] after the indices are validated. *)
Definition new_frost_p2p (share_idx_by_peer : gmap PeerId Z) (threshold num_validators : Z)
    : proc (gmap string (RegisteredMessage PeerId FrostP2P)) Error unit :=
  register_round1_bcast share_idx_by_peer threshold num_validators ;;
  register_round2_bcast share_idx_by_peer num_validators.
End register.

(** ** Direct messages *)

Fixpoint validate_shares (source local_share_idx num_validators : Z) (seen_validators : gset Z)
    (l : list FrostRound1ShamirShare) : res FrostError unit :=
  match l with
  | [] => Ok tt
  | share :: l =>
      key ← ok_or (sh_key share) MissingMsgKey;
      if negb (source_id key =? source) then Err InvalidRound1P2PSourceId
      else if negb (target_id key =? local_share_idx) then Err InvalidRound1P2PTargetId
      else if num_validators <=? val_idx key then Err InvalidRound1P2PValidatorIndex
      else if decide (val_idx key ∈ seen_validators) then Err DuplicateRound1P2PValidatorIndex
      else validate_shares source local_share_idx num_validators ({[val_idx key]} ∪ seen_validators) l
  end.

Definition validate_round1_p2p (peer_id : PeerId) (share_idx_by_peer : gmap PeerId Z) (local_share_idx : Z)
    (msg : FrostRound1P2p) (num_validators : Z) : res FrostError unit :=
  source ← ok_or (share_idx_by_peer !! peer_id) InvalidRound1P2PSourceId;
  if negb (len (shares msg) =? num_validators) then Err InvalidRound1P2PSharesCount
  else validate_shares source local_share_idx num_validators ∅ (shares msg).

(** [OutEvent::Received] in [on_connection_handler_event]. *)
Definition receive_round1_p2p (share_idx_by_peer : gmap PeerId Z) (local_share_idx num_validators : Z)
    (peer_id : PeerId) (msg : FrostRound1P2p) (s : FrostP2P) : FrostP2P :=
  match validate_round1_p2p peer_id share_idx_by_peer local_share_idx msg num_validators with
  | Ok _ =>
      if decide (peer_id ∈ accepted_round1_p2p s) then s
      else s <| accepted_round1_p2p ::= union {[peer_id]} |> <| round1_p2p_rx ::= fun l => l ++ [(peer_id, msg)] |>
  | _ => s
  end.

(** The shares of a round, by receiver. *)
Fixpoint add_p2p_shares (indices : PeerShareIndices PeerId) (local_share_idx : Z) (l : list (MsgKey * ShamirShare))
    (p2p_msgs : gmap PeerId FrostRound1P2p) : res FrostError (gmap PeerId FrostRound1P2p) :=
  match l with
  | [] => Ok p2p_msgs
  | (key, share) :: l =>
      if target_id key =? local_share_idx then Err UnexpectedP2PMessageToSelf
      else
        peer_id ← ok_or (peers_by_share_idx indices !! target_id key) (ConfigError "unknown target");
        add_p2p_shares indices local_share_idx l
          (<[peer_id := {| shares := default [] (shares <$> p2p_msgs !! peer_id) ++ [shamir_share_to_proto key share] |}]> p2p_msgs)
  end.

Definition build_round1_p2p_by_peer (ho : HashOrder) (indices : PeerShareIndices PeerId) (local_share_idx : Z)
    (m : gmap MsgKey ShamirShare) : res FrostError (gmap PeerId FrostRound1P2p) :=
  add_p2p_shares indices local_share_idx (ho_list ho m) ∅.

(** ** Collecting a round

    The receive loops of [round1] and [round2] on the messages in the order in
    which they are received: [Ok None] while messages are missing. *)

Fixpoint collect_round1 (num_peers : Z) (received : list (FrostRound1Casts + FrostRound1P2p))
    (cast_msgs : list FrostRound1Casts) (p2p_msgs : list FrostRound1P2p)
    : res FrostError (option (list FrostRound1Casts * list FrostRound1P2p)) :=
  if (len cast_msgs =? num_peers) && (len p2p_msgs =? Z.max 0 (num_peers - 1)) then Ok (Some (cast_msgs, p2p_msgs))
  else
    match received with
    | [] => Ok None
    | inl msg :: received =>
        let cast_msgs := cast_msgs ++ [msg] in
        if num_peers <? len cast_msgs then Err TooManyRound1CastsMessages
        else collect_round1 num_peers received cast_msgs p2p_msgs
    | inr msg :: received =>
        let p2p_msgs := p2p_msgs ++ [msg] in
        if Z.max 0 (num_peers - 1) <? len p2p_msgs then Err TooManyRound1P2PMessages
        else collect_round1 num_peers received cast_msgs p2p_msgs
    end.

Fixpoint collect_round2 (num_peers : Z) (received cast_msgs : list FrostRound2Casts)
    : res FrostError (option (list FrostRound2Casts)) :=
  if len cast_msgs =? num_peers then Ok (Some cast_msgs)
  else
    match received with
    | [] => Ok None
    | msg :: received =>
        let cast_msgs := cast_msgs ++ [msg] in
        if num_peers <? len cast_msgs then Err TooManyRound2CastsMessages
        else collect_round2 num_peers received cast_msgs
    end.

(** [round1] and [round2] from the receive loop to the response. *)
Definition finish_round1 (scalar_ok point_ok : list Z -> bool) (num_peers : Z) (received : list (FrostRound1Casts + FrostRound1P2p))
    : res FrostError (option (gmap MsgKey Round1Bcast * gmap MsgKey ShamirShare)) :=
  collected ← collect_round1 num_peers received [] [];
  match collected with
  | Some (cast_msgs, p2p_msgs) => response ← make_round1_response scalar_ok point_ok cast_msgs p2p_msgs; Ok (Some response)
  | None => Ok None
  end.

Definition finish_round2 (point_ok : list Z -> bool) (num_peers : Z) (received : list FrostRound2Casts)
    : res FrostError (option (gmap MsgKey Round2Bcast)) :=
  collected ← collect_round2 num_peers received [];
  match collected with
  | Some cast_msgs => response ← make_round2_response point_ok cast_msgs; Ok (Some response)
  | None => Ok None
  end.
End transport.
