(* ===== verification/FrostNet.v ===== *)
(** * The FROST rounds over the reliable broadcast

    A cluster in which the honest peers run the inbound handlers of
    [DkgBcast] with the registrations of [FrostTransport] and the others send
    whatever they like, as long as they cannot forge signatures.  Two honest
    peers that collected the broadcasts of a round have the same messages. *)

From stdpp Require Import functions.
From S2P Require Import Prelude Bytes K1Util DkgBcast FrostTransport.

(** ** Cluster *)

(** The state of an honest peer that matters: the digests it signed on
    request, the application state of the transport, the broadcasts it started
    and those it delivered to itself. *)
Record Node (PeerId : Type) `{Countable PeerId} := {
  node_dedup : gmap (PeerId * string) (list Z);
  node_app : FrostP2P PeerId;
  node_issued : list (string * Any);
  node_self : list string;
}.
Arguments node_dedup {PeerId _ _} _.
Arguments node_app {PeerId _ _} _.
Arguments node_issued {PeerId _ _} _.
Arguments node_self {PeerId _ _} _.

Definition node_new {PeerId} `{Countable PeerId} : Node PeerId :=
  {| node_dedup := ∅; node_app := frost_p2p_new; node_issued := []; node_self := [] |}.

(** A round: its message id, its decoder and validation, its channel. *)
Record Round (PeerId : Type) `{Countable PeerId} := {
  rd_id : string;
  rd_msg : Type;
  rd_to : Any -> option rd_msg;
  rd_validate : PeerId -> rd_msg -> res (BcastError PeerId) unit;
  rd_dedup : FrostP2P PeerId -> gset PeerId;
  rd_rx : FrostP2P PeerId -> list rd_msg;
}.
Arguments rd_id {PeerId _ _} _.
Arguments rd_msg {PeerId _ _} _.
Arguments rd_to {PeerId _ _} _ _.
Arguments rd_validate {PeerId _ _} _ _ _.
Arguments rd_dedup {PeerId _ _} _ _.
Arguments rd_rx {PeerId _ _} _ _.

Section net.
Context {PeerId : Type} `{Countable PeerId}.
Context {SK PK Sig : Type} `{!EqDecision PK} (k : K256 SK PK Sig).
Context (sha256 : list Z -> list Z) (peer_id_to_public_key : PeerId -> option PK).
Context (peers : list PeerId) (secret : PeerId -> SK) (honest : gset PeerId).
Context (share_idx : gmap PeerId Z) (threshold num_validators : Z).
Context (to_round1 : Any -> option FrostRound1Casts) (to_round2 : Any -> option FrostRound2Casts).
Context (registry : gmap string (RegisteredMessage PeerId (FrostP2P PeerId))).

#[local] Abbreviation Error := (BcastError PeerId).
#[local] Abbreviation hash_any := (hash_any sha256).
#[local] Abbreviation Cluster := (PeerId -> Node PeerId).

(** What the key of an honest peer has signed: the digests of its store, and
    those of its own broadcasts. *)
Definition signed (C : Cluster) (h : PeerId) (digest : list Z) : Prop :=
  (exists key, node_dedup (C h) !! key = Some digest) \/
  (exists id any, (id, any) ∈ node_issued (C h) /\ hash_any any = digest).

(** Signatures of honest peers are not forged. *)
Definition authentic (C : Cluster) (message : BCastMessage) : Prop :=
  forall any i h signature pk,
    bmsg_message message = Some any -> peers !! i = Some h -> h ∈ honest ->
    bmsg_signatures message !! i = Some signature -> peer_id_to_public_key h = Some pk ->
    verify_65 k pk (hash_any any) signature = Ok true -> signed C h (hash_any any).

(** The end of [round1] and [round2]'s broadcast: the own message goes to the
    own channel. *)
Definition self_deliver (id : string) (any : Any) (s : FrostP2P PeerId) : FrostP2P PeerId :=
  if decide (id = ROUND1_CAST_ID) then
    match to_round1 any with Some m => s <| round1_casts_rx ::= fun l => l ++ [m] |> | None => s end
  else if decide (id = ROUND2_CAST_ID) then
    match to_round2 any with Some m => s <| round2_casts_rx ::= fun l => l ++ [m] |> | None => s end
  else s.

(** A connection has a handler when the remote peer is one of [peers]; a run
    of the transport broadcasts each id once, with a message of its own. *)
Inductive step (C : Cluster) : Cluster -> Prop :=
| step_request q p request : q ∈ honest -> p ∈ peers -> p <> q ->
    step C (<[q := (C q) <| node_dedup := fst (handle_inbound_sig_request k sha256 registry (secret q) p request (node_dedup (C q))) |>]> C)
| step_message q p message : q ∈ honest -> p ∈ peers -> p <> q -> authentic C message ->
    step C (<[q := (C q) <| node_app := fst (handle_inbound_msg k sha256 peer_id_to_public_key registry peers p message (node_app (C q))) |>]> C)
| step_direct q p local_share_idx message : q ∈ honest -> p ∈ peers -> p <> q ->
    step C (<[q := (C q) <| node_app ::= receive_round1_p2p share_idx local_share_idx num_validators p message |>]> C)
| step_issue q id any reg : q ∈ honest -> id ∉ (node_issued (C q)).*1 ->
    registry !! id = Some reg -> reg_check reg q any = Ok tt ->
    step C (<[q := (C q) <| node_issued ::= fun l => l ++ [(id, any)] |>]> C)
| step_self q id any : q ∈ honest -> (id, any) ∈ node_issued (C q) -> id ∉ node_self (C q) ->
    step C (<[q := (C q) <| node_app ::= self_deliver id any |> <| node_self ::= cons id |>]> C).

Definition reachable (C : Cluster) : Prop := rtc step (fun _ => node_new) C.

(** Two different wrapped messages that some registration accepts and that
    have the same digest. *)
Definition accepted (any : Any) : Prop :=
  exists id reg p, registry !! id = Some reg /\ reg_check reg p any = Ok tt.
Definition confusion : Prop :=
  exists any any', any <> any' /\ accepted any /\ accepted any' /\ hash_any any = hash_any any'.

(** ** Handlers *)

(** A request changes the store only by adding the digest of a message its
    registration accepts. *)
Lemma sig_request_dedup q p request d :
  let d' := fst (handle_inbound_sig_request k sha256 registry (secret q) p request d) in
  d' = d \/ exists any reg, registry !! sig_req_id request = Some reg /\ reg_check reg p any = Ok tt /\
    d !! (p, sig_req_id request) = None /\ d' = <[(p, sig_req_id request) := hash_any any]> d.
Proof.
  unfold handle_inbound_sig_request. proc_simp.
  destruct (sig_req_message request) as [any|]; cbn [ok_or]; [|by left]. proc_simp.
  destruct (registry !! sig_req_id request) as [reg|] eqn:Ereg; cbn [ok_or]; [|by left]. proc_simp.
  destruct (reg_check reg p any) as [[]|e|] eqn:Echeck; [|by left..].
  destruct (d !! (p, sig_req_id request)) as [previous|] eqn:Ed.
  - left. unfold mbind, proc_bind, p_get. rewrite Ed. case_decide; [|done]. unfold mret, proc_ret, p_lift.
    by destruct (sign_any _ _ _ _).
  - right. exists any, reg. split_and!; [done..|]. unfold mbind, proc_bind, p_get. rewrite Ed. unfold p_modify, p_lift.
    by destruct (sign_any _ _ _ _).
Qed.

Lemma verify_each_all hash l : verify_each k peer_id_to_public_key hash l = Ok tt ->
  Forall (fun '(p, signature) => exists pk, peer_id_to_public_key p = Some pk /\ verify_65 k pk hash signature = Ok true) l.
Proof.
  induction l as [|[p signature] l IH]; [constructor|]. cbn [verify_each]. case_match; [done|]. intros Hv.
  apply res_bind_Ok in Hv as (pk & Hpk & Hv). apply ok_or_Ok in Hpk. apply res_bind_Ok in Hv as (valid & Hver & Hv).
  destruct (verify_65 k pk hash signature) as [v|e|] eqn:E; [|done..]. injection Hver as ->.
  destruct valid; [|done]. constructor; [by exists pk|by apply IH].
Qed.

(** A message changes the application only through the callback of its id,
    after every honest peer has signed. *)
Lemma inbound_msg_app C q p message :
  (forall h, h ∈ honest -> h ∈ peers) -> authentic C message ->
  let s' := fst (handle_inbound_msg k sha256 peer_id_to_public_key registry peers p message (node_app (C q))) in
  s' = node_app (C q) \/ exists any reg, registry !! bmsg_id message = Some reg /\
    (forall h, h ∈ honest -> signed C h (hash_any any)) /\
    s' = fst (reg_callback reg p (bmsg_id message) any (node_app (C q))).
Proof.
  intros Hh Hauth. unfold handle_inbound_msg. proc_simp.
  destruct (bmsg_message message) as [any|] eqn:Em; cbn [ok_or]; [|by left]. proc_simp.
  destruct (verify_signatures _ _ _ _ _ _) as [[]|e|] eqn:Ever; [|by left..]. proc_simp.
  destruct (registry !! bmsg_id message) as [reg|]; cbn [ok_or]; [|by left].
  right. exists any, reg. split_and!; [done| |done]. intros h Hin.
  unfold verify_signatures in Ever. case_match eqn:El; [done|]. zbool.
  apply verify_each_all in Ever. rewrite Forall_forall in Ever.
  destruct (list_elem_of_lookup_1 _ _ (Hh h Hin)) as [i Hi].
  destruct (lookup_lt_is_Some_2 (bmsg_signatures message) i) as [signature Hs].
  { apply lookup_lt_Some in Hi. unfold len in El. lia. }
  destruct (Ever (h, signature)) as (pk & Hpk & Hv).
  { apply list_elem_of_lookup. exists i. by rewrite lookup_zip_with, Hi, Hs. }
  by apply (Hauth any i h signature pk).
Qed.

(** Nothing signed or issued is forgotten. *)
Definition grows (C C' : Cluster) : Prop :=
  (forall h digest, signed C h digest -> signed C' h digest) /\
  forall q x, x ∈ node_issued (C q) -> x ∈ node_issued (C' q).

Lemma grows_at C q n :
  (forall key digest, node_dedup (C q) !! key = Some digest -> node_dedup n !! key = Some digest) ->
  (forall x, x ∈ node_issued (C q) -> x ∈ node_issued n) -> grows C (<[q := n]> C).
Proof.
  intros Hd Hi. split.
  - intros h digest [[key Hk]|(id & any & Hin & E)]; (destruct (decide (h = q)) as [->|Hne];
      [|unfold signed; rewrite fn_lookup_insert_ne by done; eauto]).
    + left. exists key. rewrite fn_lookup_insert. by apply Hd.
    + right. exists id, any. rewrite fn_lookup_insert. auto.
  - intros q' x Hx. destruct (decide (q' = q)) as [->|Hne]; [rewrite fn_lookup_insert; auto|].
    by rewrite fn_lookup_insert_ne.
Qed.

(** ** One round

    What the development uses of a round and its registration. *)

Record round_ok (r : Round PeerId) : Prop := {
  ro_reg : exists reg, registry !! rd_id r = Some reg /\
    (forall p any, reg_check reg p any = Ok tt <-> exists m, rd_to r any = Some m /\ rd_validate r p m = Ok tt) /\
    (forall p any s, let s' := fst (reg_callback reg p (rd_id r) any s) in
      (rd_dedup r s' = rd_dedup r s /\ rd_rx r s' = rd_rx r s) \/
      exists m, rd_to r any = Some m /\ rd_validate r p m = Ok tt /\ p ∉ rd_dedup r s /\
        rd_dedup r s' = {[p]} ∪ rd_dedup r s /\ rd_rx r s' = rd_rx r s ++ [m]);
  ro_other : forall id reg, registry !! id = Some reg -> id <> rd_id r ->
    (forall p any, reg_check reg p any = Ok tt -> rd_to r any = None) /\
    (forall p any s, rd_dedup r (fst (reg_callback reg p id any s)) = rd_dedup r s /\
                     rd_rx r (fst (reg_callback reg p id any s)) = rd_rx r s);
  ro_self : forall any m s, rd_to r any = Some m ->
    rd_dedup r (self_deliver (rd_id r) any s) = rd_dedup r s /\ rd_rx r (self_deliver (rd_id r) any s) = rd_rx r s ++ [m];
  ro_self_other : forall id any s, id <> rd_id r ->
    rd_dedup r (self_deliver id any s) = rd_dedup r s /\ rd_rx r (self_deliver id any s) = rd_rx r s;
  ro_direct : forall l p msg s, let s' := receive_round1_p2p share_idx l num_validators p msg s in
    rd_dedup r s' = rd_dedup r s /\ rd_rx r s' = rd_rx r s;
  ro_binds : forall p p' m, rd_validate r p m = Ok tt -> rd_validate r p' m = Ok tt -> p = p';
  ro_new : rd_rx r frost_p2p_new = [];
}.

Section round.
Context (r : Round PeerId) (Hr : round_ok r) (Hhonest : forall h, h ∈ honest -> h ∈ peers).

(** A message [m] of [p] in the channel of [q]. *)
Definition delivered (C : Cluster) (q p : PeerId) (m : rd_msg r) : Prop :=
  p ∈ peers /\ rd_validate r p m = Ok tt /\
  exists any, rd_to r any = Some m /\
    ((p = q /\ (rd_id r, any) ∈ node_issued (C q)) \/ (p <> q /\ forall h, h ∈ honest -> signed C h (hash_any any))).

Definition dedup_inv (q : PeerId) (n : Node PeerId) : Prop :=
  forall p id digest, node_dedup n !! (p, id) = Some digest -> p <> q /\
    exists any reg, registry !! id = Some reg /\ reg_check reg p any = Ok tt /\ hash_any any = digest.

Definition issued_inv (q : PeerId) (n : Node PeerId) : Prop :=
  NoDup ((node_issued n).*1) /\ forall id any, (id, any) ∈ node_issued n ->
    exists reg, registry !! id = Some reg /\ reg_check reg q any = Ok tt.

(** The messages of the channel come from different peers. *)
Definition rx_inv (C : Cluster) (q : PeerId) (n : Node PeerId) : Prop :=
  exists ps, Forall2 (delivered C q) ps (rd_rx r (node_app n)) /\ NoDup ps /\
    (forall p, p ∈ ps -> p = q \/ p ∈ rd_dedup r (node_app n)) /\ (q ∈ ps -> rd_id r ∈ node_self n).

Definition node_inv (C : Cluster) (q : PeerId) (n : Node PeerId) : Prop := dedup_inv q n /\ issued_inv q n /\ rx_inv C q n.

Definition cluster_inv (C : Cluster) : Prop := forall q, q ∈ honest -> node_inv C q (C q).

Lemma delivered_grows C C' q p m : grows C C' -> delivered C q p m -> delivered C' q p m.
Proof.
  intros [Hs Hi] (Hp & Hv & any & Hm & Hfrom). split_and!; [done..|]. exists any. split; [done|].
  destruct Hfrom as [[-> Hin]|[Hne Hsig]]; [left; eauto|right; eauto].
Qed.

Lemma rx_inv_same C C' q n n' :
  grows C C' -> rx_inv C q n ->
  rd_dedup r (node_app n') = rd_dedup r (node_app n) -> rd_rx r (node_app n') = rd_rx r (node_app n) ->
  (forall id, id ∈ node_self n -> id ∈ node_self n') -> rx_inv C' q n'.
Proof.
  intros Hg (ps & Hps & Hnd & Hin & Hq) Ed Er Hs. exists ps. rewrite Ed, Er. split_and!; [|done|done|auto].
  eapply Forall2_impl; [exact Hps|]. intros p m. by apply delivered_grows.
Qed.

Lemma rx_inv_more C C' q n n' p m :
  grows C C' -> rx_inv C q n -> delivered C' q p m -> rd_rx r (node_app n') = rd_rx r (node_app n) ++ [m] ->
  (forall id, id ∈ node_self n -> id ∈ node_self n') ->
  rd_dedup r (node_app n) ⊆ rd_dedup r (node_app n') ->
  (p <> q /\ p ∉ rd_dedup r (node_app n) /\ p ∈ rd_dedup r (node_app n') \/
   p = q /\ rd_id r ∉ node_self n /\ rd_id r ∈ node_self n') ->
  rx_inv C' q n'.
Proof.
  intros Hg (ps & Hps & Hnd & Hin & Hq) Hdel Er Hs Hd Hp. exists (ps ++ [p]). rewrite Er. split_and!.
  - apply Forall2_app; [|by constructor; [|constructor]]. eapply Forall2_impl; [exact Hps|]. intros p' m'. by apply delivered_grows.
  - apply NoDup_app. split_and!; [done| |apply NoDup_singleton]. intros p' Hp' ->%list_elem_of_singleton.
    destruct Hp as [(Hne & Hnot & _)|(-> & Hnot & _)]; [|by apply Hnot, Hq].
    by destruct (Hin p Hp') as [?|?].
  - intros p' [Hp'|Hp'%list_elem_of_singleton]%elem_of_app; [|subst p'; by destruct Hp as [(? & ? & ?)|(? & ?)]; auto].
    destruct (Hin p' Hp'); [by left|right; set_solver].
  - intros [Hq'|Hq'%list_elem_of_singleton]%elem_of_app; [auto|]. subst p. by destruct Hp as [(? & ? & ?)|(? & ? & ?)].
Qed.

Lemma node_inv_grows C C' q n : grows C C' -> node_inv C q n -> node_inv C' q n.
Proof. intros Hg (Hd & Hi & Hx). split_and!; [done..|]. by apply (rx_inv_same C C' q n n). Qed.

(** A step at [q] keeps the invariant of the others. *)
Lemma cluster_inv_set C q n :
  cluster_inv C -> grows C (<[q := n]> C) -> node_inv (<[q := n]> C) q n -> cluster_inv (<[q := n]> C).
Proof.
  intros HC Hg Hn q' Hq'. destruct (decide (q' = q)) as [->|Hne]; [by rewrite fn_lookup_insert|].
  rewrite fn_lookup_insert_ne by done. eapply node_inv_grows; [exact Hg|by apply HC].
Qed.

Lemma cluster_inv_request C q p request :
  cluster_inv C -> q ∈ honest -> p ∈ peers -> p <> q ->
  cluster_inv (<[q := (C q) <| node_dedup := fst (handle_inbound_sig_request k sha256 registry (secret q) p request (node_dedup (C q))) |>]> C).
Proof.
  intros HC Hq Hp Hne. destruct (HC q Hq) as (Hd & Hi & Hx).
  pose proof (sig_request_dedup q p request (node_dedup (C q))) as Hreq. cbn in Hreq.
  set (d' := fst _) in *.
  assert (grows C (<[q := (C q) <| node_dedup := d' |>]> C)) as Hg.
  { apply grows_at; [|done]. cbn. intros key digest Hk. destruct Hreq as [->|(any & reg & _ & _ & Hnone & ->)]; [done|].
    rewrite lookup_insert_ne; [done|]. intros <-. congruence. }
  apply cluster_inv_set; [done..|]. split_and!; [|done|by apply (rx_inv_same C _ q (C q))].
  intros p' id digest. cbn. destruct Hreq as [->|(any & reg & Hreg & Hcheck & Hnone & ->)]; [by apply Hd|].
  rewrite lookup_insert_Some. intros [[[= <- <-] <-]|[_ Hold]]; [split; [done|by exists any, reg]|by apply Hd].
Qed.

Lemma cluster_inv_message C q p message :
  cluster_inv C -> q ∈ honest -> p ∈ peers -> p <> q -> authentic C message ->
  cluster_inv (<[q := (C q) <| node_app := fst (handle_inbound_msg k sha256 peer_id_to_public_key registry peers p message (node_app (C q))) |>]> C).
Proof.
  intros HC Hq Hp Hne Hauth. destruct (HC q Hq) as (Hd & Hi & Hx).
  pose proof (inbound_msg_app C q p message Hhonest Hauth) as Hmsg. cbn in Hmsg. set (s' := fst _) in *.
  assert (grows C (<[q := (C q) <| node_app := s' |>]> C)) as Hg by by apply grows_at.
  apply cluster_inv_set; [done..|]. split_and!; [done|done|].
  destruct Hmsg as [E|(any & reg & Hreg & Hsig & E)]; [by apply (rx_inv_same C _ q (C q)); [..|cbn; rewrite E|cbn; rewrite E|]|].
  destruct (decide (bmsg_id message = rd_id r)) as [Eid|Hid].
  - destruct (ro_reg r Hr) as (reg' & Hreg' & _ & Hcb). rewrite Eid, Hreg' in Hreg. injection Hreg as <-.
    rewrite Eid in E. destruct (Hcb p any (node_app (C q))) as [[E1 E2]|(m & Hm & Hv & Hnot & E1 & E2)].
    + by apply (rx_inv_same C _ q (C q)); [..|cbn; rewrite E|cbn; rewrite E|].
    + apply (rx_inv_more C _ q (C q) _ p m); [done|done| |by cbn; rewrite E|done|cbn; rewrite E, E1; set_solver|].
      * split_and!; [done..|]. exists any. split; [done|]. right. split; [done|]. intros h Hh. by apply Hg, Hsig.
      * left. cbn. rewrite E, E1. set_solver.
  - destruct (ro_other r Hr _ _ Hreg Hid) as [_ Hcb]. destruct (Hcb p any (node_app (C q))) as [E1 E2].
    by apply (rx_inv_same C _ q (C q)); [..|cbn; rewrite E|cbn; rewrite E|].
Qed.

Lemma cluster_inv_issue C q id any reg :
  cluster_inv C -> q ∈ honest -> id ∉ (node_issued (C q)).*1 -> registry !! id = Some reg -> reg_check reg q any = Ok tt ->
  cluster_inv (<[q := (C q) <| node_issued ::= fun l => l ++ [(id, any)] |>]> C).
Proof.
  intros HC Hq Hid Hreg Hcheck. destruct (HC q Hq) as (Hd & [Hnd Hi] & Hx).
  assert (grows C (<[q := (C q) <| node_issued ::= fun l => l ++ [(id, any)] |>]> C)) as Hg.
  { apply grows_at; [done|]. cbn. set_solver. }
  apply cluster_inv_set; [done..|]. split_and!; [done| |by apply (rx_inv_same C _ q (C q))]. split; cbn.
  - rewrite fmap_app. apply NoDup_app. split_and!; [done| |apply NoDup_singleton].
    intros x Hx' Hin%list_elem_of_singleton. by subst.
  - intros id' any' [Hin|Hin%list_elem_of_singleton]%elem_of_app; [by apply Hi|]. injection Hin as -> ->. by exists reg.
Qed.

Lemma cluster_inv_self C q id any :
  cluster_inv C -> q ∈ honest -> (id, any) ∈ node_issued (C q) -> id ∉ node_self (C q) ->
  cluster_inv (<[q := (C q) <| node_app ::= self_deliver id any |> <| node_self ::= cons id |>]> C).
Proof.
  intros HC Hq Hin Hid. destruct (HC q Hq) as (Hd & Hi & Hx).
  assert (grows C (<[q := (C q) <| node_app ::= self_deliver id any |> <| node_self ::= cons id |>]> C)) as Hg by by apply grows_at.
  apply cluster_inv_set; [done..|]. split_and!; [done|done|].
  destruct (decide (id = rd_id r)) as [->|Hne].
  - destruct Hi as [_ Hi]. destruct (Hi _ _ Hin) as (reg & Hreg & Hcheck).
    destruct (ro_reg r Hr) as (reg' & Hreg' & Hc & _). rewrite Hreg in Hreg'. injection Hreg' as <-.
    apply Hc in Hcheck as (m & Hm & Hv). destruct (ro_self r Hr any m (node_app (C q)) Hm) as [E1 E2].
    apply (rx_inv_more C _ q (C q) _ q m); [done|done| |done| | |right]; cbn.
    + split_and!; [by apply Hhonest|done|]. exists any. split; [done|]. left. split; [done|]. by apply Hg.
    + intros id Hid'. by constructor.
    + by rewrite E1.
    + split_and!; [done..|by constructor].
  - destruct (ro_self_other r Hr id any (node_app (C q)) Hne) as [E1 E2].
    apply (rx_inv_same C _ q (C q)); [done..|]. intros id' Hid'. by constructor.
Qed.

Lemma cluster_inv_step C C' : cluster_inv C -> step C C' -> cluster_inv C'.
Proof.
  intros HC Hstep. destruct Hstep as [q p request|q p message|q p l message Hq Hp Hne|q id any reg|q id any].
  - by apply cluster_inv_request.
  - by apply cluster_inv_message.
  - destruct (HC q Hq) as (Hd & Hi & Hx). apply cluster_inv_set; [done|by apply grows_at|]. split_and!; [done|done|].
    apply (rx_inv_same C _ q (C q)); [by apply grows_at|done|apply (ro_direct r Hr)..|done].
  - by apply (cluster_inv_issue C q id any reg).
  - by apply cluster_inv_self.
Qed.

Lemma net_reachable_inv C : reachable C -> cluster_inv C.
Proof.
  intros HC. apply (rtc_ind_r (fun C' => cluster_inv C') (fun _ => node_new)) in HC; [done| |].
  - intros q Hq. split_and!; [intros p id digest; cbn; by rewrite lookup_empty|split; [constructor|set_solver]|].
    exists []. cbn. rewrite (ro_new r Hr). split_and!; [constructor|constructor|set_solver|set_solver].
  - intros C1 C2 _ Hstep HC1. by eapply cluster_inv_step.
Qed.

(** ** Agreement *)

Lemma accepted_round p m any : rd_to r any = Some m -> rd_validate r p m = Ok tt -> accepted any.
Proof.
  intros Hm Hv. destruct (ro_reg r Hr) as (reg & Hreg & Hc & _). exists (rd_id r), reg, p. split; [done|].
  apply Hc. by exists m.
Qed.

(** Whether two wrapped messages with one digest are equal is decided by the
    digest function. *)
Lemma same_digest any any' : accepted any -> accepted any' -> hash_any any = hash_any any' -> any = any' \/ confusion.
Proof. intros Ha Ha' E. destruct (decide (any = any')) as [|Hne]; [by left|]. right. by exists any, any'. Qed.

(** What an honest peer signed of a message of [p] in this round. *)
Lemma signed_source C h p m any :
  cluster_inv C -> h ∈ honest -> rd_to r any = Some m -> rd_validate r p m = Ok tt -> signed C h (hash_any any) ->
  confusion \/ (p <> h /\ node_dedup (C h) !! (p, rd_id r) = Some (hash_any any)) \/
  (p = h /\ (rd_id r, any) ∈ node_issued (C h)).
Proof.
  intros HC Hh Hm Hv Hsig. destruct (HC h Hh) as (Hd & [_ Hi] & _).
  assert (forall id reg p', registry !! id = Some reg -> reg_check reg p' any = Ok tt -> id = rd_id r /\ p' = p) as Hid.
  { intros id reg p' Hreg Hcheck. destruct (decide (id = rd_id r)) as [->|Hne].
    - destruct (ro_reg r Hr) as (reg' & Hreg' & Hc & _). rewrite Hreg in Hreg'. injection Hreg' as <-.
      apply Hc in Hcheck as (m' & Hm' & Hv'). rewrite Hm in Hm'. injection Hm' as <-. split; [done|].
      by apply (ro_binds r Hr p' p m).
    - destruct (ro_other r Hr _ _ Hreg Hne) as [Hnone _]. by rewrite (Hnone _ _ Hcheck) in Hm. }
  destruct Hsig as [[[p' id] Hk]|(id & any' & Hin & E)].
  - destruct (Hd _ _ _ Hk) as (Hne & any' & reg & Hreg & Hcheck & E).
    destruct (same_digest any any') as [->|?]; [by eapply accepted_round|by exists id, reg, p'|done| |by left].
    destruct (Hid id reg p') as [-> ->]; [done..|]. right. by left.
  - destruct (Hi _ _ Hin) as (reg & Hreg & Hcheck).
    destruct (same_digest any any') as [->|?]; [by eapply accepted_round|by exists id, reg, h|done| |by left].
    destruct (Hid id reg h) as [-> ->]; [done..|]. right. by right.
Qed.

Lemma signed_same C h p m any m' any' :
  cluster_inv C -> h ∈ honest ->
  rd_to r any = Some m -> rd_validate r p m = Ok tt -> signed C h (hash_any any) ->
  rd_to r any' = Some m' -> rd_validate r p m' = Ok tt -> signed C h (hash_any any') -> m = m' \/ confusion.
Proof.
  intros HC Hh Hm Hv Hs Hm' Hv' Hs'. destruct (HC h Hh) as (_ & [Hnd _] & _).
  destruct (signed_source C h p m any) as [?|Hsrc]; [done..|by right|].
  destruct (signed_source C h p m' any') as [?|Hsrc']; [done..|by right|].
  assert (any = any' \/ confusion) as [->|?]; [|left; congruence|by right].
  destruct Hsrc as [[Hne Hd]|[-> Hin]], Hsrc' as [[Hne' Hd']|[? Hin']]; try done.
  - rewrite Hd in Hd'. injection Hd' as E. by apply same_digest; [by eapply accepted_round..|].
  - left. apply list_elem_of_lookup in Hin as [i Hi], Hin' as [j Hj].
    assert (i = j) as <-; [|congruence].
    eapply NoDup_lookup; [exact Hnd| |]; rewrite list_lookup_fmap; [by rewrite Hi|by rewrite Hj].
Qed.

Lemma delivered_same C a b p m m' :
  cluster_inv C -> a ∈ honest -> b ∈ honest -> delivered C a p m -> delivered C b p m' -> m = m' \/ confusion.
Proof.
  intros HC Ha Hb (_ & Hv & any & Hm & Hfrom) (_ & Hv' & any' & Hm' & Hfrom').
  assert (forall C h any, (rd_id r, any) ∈ node_issued (C h) -> signed C h (hash_any any)) as Hown
    by (intros; right; eauto).
  destruct Hfrom as [[-> Hin]|[Hne Hsig]], Hfrom' as [[Heq Hin']|[Hne' Hsig']].
  - subst b. by apply (signed_same C a a m any m' any'); auto.
  - by apply (signed_same C a a m any m' any'); auto.
  - subst p. by apply (signed_same C b b m any m' any'); auto.
  - by apply (signed_same C a p m any m' any'); auto.
Qed.

(** A channel holds at most one message of each peer; with as many messages as
    there are peers it holds one of each. *)
Lemma rx_complete C q :
  cluster_inv C -> q ∈ honest -> NoDup peers ->
  (length (rd_rx r (node_app (C q))) <= length peers)%nat /\
  (length (rd_rx r (node_app (C q))) = length peers ->
    exists ps, ps ≡ₚ peers /\ Forall2 (delivered C q) ps (rd_rx r (node_app (C q)))).
Proof.
  intros HC Hq Hnd. destruct (HC q Hq) as (_ & _ & ps & Hps & Hndps & _).
  rewrite <-(Forall2_length _ _ _ Hps).
  assert (ps ⊆+ peers) as Hsub.
  { apply NoDup_submseteq; [done|]. intros p Hp. apply list_elem_of_lookup in Hp as [i Hi].
    destruct (Forall2_lookup_l _ _ _ _ _ Hps Hi) as (m & _ & Hdel). apply Hdel. }
  split; [by apply submseteq_length|]. intros Hl. exists ps. split; [|done].
  by apply submseteq_length_Permutation; [|lia].
Qed.
End round.
End net.
