(* ===== verification/FrostViews.v ===== *)
(** * One view of the FROST rounds

    The two rounds of [FrostTransport] as instances of the broadcast rounds of
    [FrostNet]: honest peers that collected all messages of a round build the
    same map from them. *)

From S2P Require Import Prelude Bytes K1Util DkgBcast FrostTransport FrostNet.

(** ** Validated messages *)

Section validated.
Context {PeerId : Type} `{Countable PeerId}.

(** The share indices of different peers differ. *)
Definition indices_ok (indices : PeerShareIndices PeerId) : Prop :=
  forall p i, share_idx_by_peer indices !! p = Some i -> peers_by_share_idx indices !! i = Some p.

Lemma index_peers_ok l acc indices : indices_ok acc -> index_peers l acc = Ok indices -> indices_ok indices.
Proof.
  revert acc. induction l as [|[p i] l IH]; intros acc Hacc; cbn [index_peers]; [by intros [= <-]|].
  case_match; [done|]. case_decide as Hi; [done|]. apply IH. intros p' i'. cbn.
  rewrite lookup_insert_Some. intros [[<- <-]|[_ Hp]]; [by rewrite lookup_insert_eq|].
  apply Hacc in Hp. rewrite lookup_insert_ne; [done|]. intros <-. by apply Hi; exists p'.
Qed.

Lemma validate_indices_inj ho (peers : gmap PeerId Z) local indices p p' i :
  validate_peer_share_indices ho peers local = Ok indices ->
  share_idx_by_peer indices !! p = Some i -> share_idx_by_peer indices !! p' = Some i -> p = p'.
Proof.
  unfold validate_peer_share_indices. intros Hv Hp Hp'. apply res_bind_Ok in Hv as (indices' & Hv & Hd).
  case_decide; [|done]. injection Hd as ->. apply index_peers_ok in Hv; [|by intros ? ?].
  apply Hv in Hp, Hp'. congruence.
Qed.

(** The casts of a validated message have different keys of its sender. *)
Definition casts_ok {C} (key_of : C -> option FrostMsgKey) (source : Z) (l : list C) : Prop :=
  NoDup (key_of <$> l) /\ forall c, c ∈ l -> exists key, key_of c = Some key /\ source_id key = source.

Lemma validate_casts_ok {C} (p : PeerId) source nv (key_of : C -> option FrostMsgKey) more seen l :
  validate_casts p source nv key_of more seen l = Ok tt ->
  casts_ok key_of source l /\ forall c key, c ∈ l -> key_of c = Some key -> val_idx key ∉ seen.
Proof.
  revert seen. induction l as [|c l IH]; intros seen; cbn [validate_casts].
  - intros _. split; [split; [constructor|set_solver]|set_solver].
  - intros Hv. apply res_bind_Ok in Hv as (key & Hkey & Hv). apply ok_or_Ok in Hkey.
    repeat (case_match; [done|]). apply res_bind_Ok in Hv as ([] & _ & Hv).
    apply IH in Hv as [[Hnd Hin] Hseen]. zbool. split; [split|].
    + constructor; [|done]. rewrite Hkey. intros (c' & E & Hc')%list_elem_of_fmap.
      apply (Hseen c' key); [done|done|set_solver].
    + intros c' [->|Hc']%elem_of_cons; [by exists key|auto].
    + intros c' key' [->|Hc']%elem_of_cons Hk; [congruence|]. specialize (Hseen c' key' Hc' Hk). set_solver.
Qed.

(** Messages of different senders have different keys. *)
Lemma casts_ok_concat {C} (key_of : C -> option FrostMsgKey) sources ls :
  NoDup sources -> Forall2 (casts_ok key_of) sources ls -> NoDup (key_of <$> concat ls).
Proof.
  intros Hnd Hls. induction Hls as [|s l sources ls [Hl Hs] Hls IH]; [constructor|].
  apply NoDup_cons in Hnd as [Hnot Hnd]. cbn [concat]. rewrite fmap_app. apply NoDup_app.
  split_and!; [done| |by apply IH]. intros x (c & -> & Hc)%list_elem_of_fmap (c' & E & Hc')%list_elem_of_fmap.
  destruct (Hs c Hc) as (key & Hkey & <-). apply Hnot.
  apply list_elem_of_In, in_concat in Hc' as (l' & Hl'%list_elem_of_In & Hc'%list_elem_of_In).
  apply list_elem_of_lookup in Hl' as [i Hi]. destruct (Forall2_lookup_r _ _ _ _ _ Hls Hi) as (s' & Hs' & [_ Hl'']).
  destruct (Hl'' c' Hc') as (key' & Hkey' & <-). rewrite Hkey, Hkey' in E. injection E as ->.
  by eapply list_elem_of_lookup_2.
Qed.
End validated.

(** ** Maps of a round *)

Section maps.
Context {C A : Type} (from_proto : C -> res FrostError (MsgKey * A)) (key_of : C -> option FrostMsgKey).
Context (from_key : forall c key a, from_proto c = Ok (key, a) -> key_of c = Some key).

Lemma insert_all_Ok m l M :
  insert_all from_proto m l = Ok M <->
  exists kvs, Forall2 (fun c kv => from_proto c = Ok kv) l kvs /\ M = foldl (fun m kv => <[kv.1 := kv.2]> m) m kvs.
Proof.
  revert m. induction l as [|c l IH]; intros m; cbn [insert_all].
  - split; [intros [= <-]; by exists []|]. by intros (kvs & ->%Forall2_nil_inv_l & ->).
  - rewrite res_bind_Ok. split.
    + intros ([key a] & Hc & (kvs & Hl & ->)%IH). exists ((key, a) :: kvs). by split; [constructor|].
    + intros (kvs & Hl & ->). apply Forall2_cons_inv_l in Hl as ([key a] & kvs' & Hc & Hl & ->).
      exists (key, a). split; [done|]. apply IH. by exists kvs'.
Qed.

Lemma foldl_insert_map (kvs : list (MsgKey * A)) (m : gmap MsgKey A) :
  NoDup (kvs.*1) -> foldl (fun m kv => <[kv.1 := kv.2]> m) m kvs = list_to_map kvs ∪ m.
Proof.
  revert m. induction kvs as [|[key a] kvs IH]; intros m; [intros _; cbn; by rewrite (left_id_L ∅ (∪))|].
  rewrite fmap_cons. intros [Hnot Hnd]%NoDup_cons. cbn [foldl list_to_map foldr uncurry fst snd]. rewrite IH by done. rewrite <-insert_union_r by by apply not_elem_of_list_to_map_1.
  apply insert_union_l.
Qed.

Lemma from_proto_keys l kvs : Forall2 (fun c kv => from_proto c = Ok kv) l kvs -> key_of <$> l = Some <$> kvs.*1.
Proof.
  induction 1 as [|c [key a] l kvs Hc Hl IH]; [done|]. cbn. by rewrite (from_key _ _ _ Hc), IH.
Qed.

Lemma insert_all_perm l l' M :
  l ≡ₚ l' -> NoDup (key_of <$> l) -> insert_all from_proto ∅ l = Ok M -> insert_all from_proto ∅ l' = Ok M.
Proof.
  intros Hp Hnd (kvs & Hl & ->)%insert_all_Ok. destruct (Permutation_Forall2 Hp Hl) as (kvs' & Hkvs & Hl').
  apply insert_all_Ok. exists kvs'. split; [done|].
  assert (NoDup (kvs.*1)) as Hnd1 by (apply (NoDup_fmap_1 Some); by rewrite <-(from_proto_keys _ _ Hl)).
  rewrite !foldl_insert_map; [|by rewrite <-Hkvs|done]. by rewrite (list_to_map_proper _ _ Hnd1 Hkvs).
Qed.
End maps.

(** ** The rounds *)

Section views.
Context {PeerId : Type} `{Countable PeerId}.
Context {SK PK Sig : Type} `{!EqDecision PK} (k : K256 SK PK Sig).
Context (sha256 : list Z -> list Z) (peer_id_to_public_key : PeerId -> option PK).
Context (peers : list PeerId) (secret : PeerId -> SK) (honest : gset PeerId).
Context (share_idx : gmap PeerId Z) (threshold num_validators : Z).
Context (to_round1 : Any -> option FrostRound1Casts) (to_round2 : Any -> option FrostRound2Casts).
Context (others registry : gmap string (RegisteredMessage PeerId (FrostP2P PeerId))).

#[local] Abbreviation Error := (BcastError PeerId).
#[local] Abbreviation FrostP2P := (FrostP2P PeerId).
#[local] Abbreviation reachable :=
  (reachable k sha256 peer_id_to_public_key peers secret honest share_idx num_validators to_round1 to_round2 registry).
#[local] Abbreviation confusion := (confusion sha256 registry).
#[local] Abbreviation round_ok := (round_ok share_idx num_validators to_round1 to_round2 registry).
#[local] Abbreviation cluster_inv := (cluster_inv sha256 peers honest registry).
#[local] Abbreviation delivered := (delivered sha256 peers honest).

Definition round_one : Round PeerId := {|
  rd_id := ROUND1_CAST_ID; rd_msg := FrostRound1Casts; rd_to := to_round1;
  rd_validate := fun p m => validate_round1_casts p share_idx threshold num_validators m;
  rd_dedup := round1_dedup; rd_rx := round1_casts_rx |}.

Definition round_two : Round PeerId := {|
  rd_id := ROUND2_CAST_ID; rd_msg := FrostRound2Casts; rd_to := to_round2;
  rd_validate := fun p m => validate_round2_casts p share_idx num_validators m;
  rd_dedup := round2_dedup; rd_rx := round2_casts_rx |}.

(** The set-up of a run: the transport is registered with a component that may
    have other registrations, for other message types and with a state of
    their own; the decoders tell the types apart; the share indices differ. *)
Record setup : Prop := {
  su_registry : new_frost_p2p to_round1 to_round2 share_idx threshold num_validators others = (registry, Ok tt);
  su_others : forall id reg, others !! id = Some reg ->
    (forall p any, reg_check reg p any = Ok tt -> to_round1 any = None /\ to_round2 any = None) /\
    (forall p any s, fst (reg_callback reg p id any s) = s);
  su_types : forall any m, to_round1 any = Some m -> to_round2 any = None;
  su_indices : forall p p' i, share_idx !! p = Some i -> share_idx !! p' = Some i -> p = p';
  su_validators : 0 < num_validators;
  su_honest : forall h, h ∈ honest -> h ∈ peers;
  su_peers : NoDup peers;
}.

Context (Hsetup : setup).

Definition registration1 : RegisteredMessage PeerId FrostP2P := typed_registration to_round1
  (fun peer_id msg => validate_round1_casts peer_id share_idx threshold num_validators msg)
  (round1_callback share_idx threshold num_validators).
Definition registration2 : RegisteredMessage PeerId FrostP2P := typed_registration to_round2
  (fun peer_id msg => validate_round2_casts peer_id share_idx num_validators msg)
  (round2_callback share_idx num_validators).

Lemma registry_eq : registry = <[ROUND2_CAST_ID := registration2]> (<[ROUND1_CAST_ID := registration1]> others).
Proof.
  pose proof (su_registry Hsetup) as Hr. unfold new_frost_p2p, register_round1_bcast, register_round2_bcast, register_message in Hr.
  revert Hr. unfold mbind, proc_bind, p_get. case_decide; [done|]. cbn [p_modify fst snd].
  case_decide; [done|]. by intros [= <-].
Qed.

Lemma registry_cases id reg :
  registry !! id = Some reg ->
  (id = ROUND1_CAST_ID /\ reg = registration1) \/ (id = ROUND2_CAST_ID /\ reg = registration2) \/
  (id <> ROUND1_CAST_ID /\ id <> ROUND2_CAST_ID /\ others !! id = Some reg).
Proof.
  rewrite registry_eq, !lookup_insert_Some. intros [[<- <-]|[H2 [[<- <-]|[H1 Ho]]]]; [auto..|]. right; right. auto.
Qed.

Lemma typed_check {M} (to : Any -> option M) check (callback : PeerId -> string -> M -> proc FrostP2P Error unit) p any :
  reg_check (typed_registration to check callback) p any = Ok tt <-> exists m, to any = Some m /\ check p m = Ok tt.
Proof. cbn. rewrite res_bind_Ok. split; intros (m & Hm & Hc); exists m; (split; [by eapply ok_or_Ok|done]). Qed.

Lemma validate1_source p m :
  validate_round1_casts p share_idx threshold num_validators m = Ok tt ->
  exists source, share_idx !! p = Some source /\ casts_ok c1_key source (casts1 m) /\ casts1 m <> [].
Proof.
  unfold validate_round1_casts. intros Hv. apply res_bind_Ok in Hv as (source & Hs & Hv). apply ok_or_Ok in Hs.
  case_match eqn:El; [done|]. apply validate_casts_ok in Hv as [Hv _]. exists source. split_and!; [done..|].
  intros E. pose proof (su_validators Hsetup). rewrite E in El. cbn in El. destruct num_validators; done.
Qed.

Lemma validate2_source p m :
  validate_round2_casts p share_idx num_validators m = Ok tt ->
  exists source, share_idx !! p = Some source /\ casts_ok c2_key source (casts2 m) /\ casts2 m <> [].
Proof.
  unfold validate_round2_casts. intros Hv. apply res_bind_Ok in Hv as (source & Hs & Hv). apply ok_or_Ok in Hs.
  case_match eqn:El; [done|]. apply validate_casts_ok in Hv as [Hv _]. exists source. split_and!; [done..|].
  intros E. pose proof (su_validators Hsetup). rewrite E in El. cbn in El. destruct num_validators; done.
Qed.

(** A message is a message of one peer. *)
Lemma one_source {C} (key_of : C -> option FrostMsgKey) l s s' :
  l <> [] -> casts_ok key_of s l -> casts_ok key_of s' l -> s = s'.
Proof.
  destruct l as [|c l]; [done|]. intros _ [_ H1] [_ H2].
  destruct (H1 c) as (key & E & <-); [by constructor|]. destruct (H2 c) as (key' & E' & <-); [by constructor|]. congruence.
Qed.

Lemma direct_keeps l p msg s :
  let s' := receive_round1_p2p share_idx l num_validators p msg s in
  round1_dedup s' = round1_dedup s /\ round1_casts_rx s' = round1_casts_rx s /\
  round2_dedup s' = round2_dedup s /\ round2_casts_rx s' = round2_casts_rx s.
Proof. unfold receive_round1_p2p. destruct (validate_round1_p2p _ _ _ _ _); [|done..]. by case_decide. Qed.

Lemma callback1_cases p id any s :
  let s' := fst (reg_callback registration1 p id any s) in
  round2_dedup s' = round2_dedup s /\ round2_casts_rx s' = round2_casts_rx s /\
  ((round1_dedup s' = round1_dedup s /\ round1_casts_rx s' = round1_casts_rx s) \/
   exists m, to_round1 any = Some m /\ validate_round1_casts p share_idx threshold num_validators m = Ok tt /\
     p ∉ round1_dedup s /\ round1_dedup s' = {[p]} ∪ round1_dedup s /\ round1_casts_rx s' = round1_casts_rx s ++ [m]).
Proof.
  cbn. destruct (to_round1 any) as [m|] eqn:Em; [|by cbn; auto]. unfold round1_callback. proc_simp.
  destruct (validate_round1_casts _ _ _ _ _) as [[]|e|] eqn:Ev; [|by cbn; auto..]. proc_simp.
  case_decide as Hd; [by cbn; auto|]. proc_simp. cbn. split_and!; [done..|]. right. by exists m.
Qed.

Lemma callback2_cases p id any s :
  let s' := fst (reg_callback registration2 p id any s) in
  round1_dedup s' = round1_dedup s /\ round1_casts_rx s' = round1_casts_rx s /\
  ((round2_dedup s' = round2_dedup s /\ round2_casts_rx s' = round2_casts_rx s) \/
   exists m, to_round2 any = Some m /\ validate_round2_casts p share_idx num_validators m = Ok tt /\
     p ∉ round2_dedup s /\ round2_dedup s' = {[p]} ∪ round2_dedup s /\ round2_casts_rx s' = round2_casts_rx s ++ [m]).
Proof.
  cbn. destruct (to_round2 any) as [m|] eqn:Em; [|by cbn; auto]. unfold round2_callback. proc_simp.
  destruct (validate_round2_casts _ _ _ _) as [[]|e|] eqn:Ev; [|by cbn; auto..]. proc_simp.
  case_decide as Hd; [by cbn; auto|]. proc_simp. cbn. split_and!; [done..|]. right. by exists m.
Qed.

Lemma round_one_ok : round_ok round_one.
Proof.
  split; cbn -[reg_check reg_callback self_deliver].
  - exists registration1. split_and!.
    + by rewrite registry_eq, lookup_insert_ne, lookup_insert_eq by done.
    + intros p any. apply (typed_check to_round1).
    + intros p any s. apply callback1_cases.
  - intros id reg [[-> ->]|[[-> ->]|(_ & _ & Ho)]]%registry_cases Hid; [done| |].
    + split; [|intros p any s; by destruct (callback2_cases p ROUND2_CAST_ID any s) as (? & ? & _)].
      intros p any (m & Hm & _)%(typed_check to_round2). destruct (to_round1 any) as [m1|] eqn:E; [|done].
      by rewrite (su_types Hsetup _ _ E) in Hm.
    + destruct (su_others Hsetup _ _ Ho) as [Hc Hcb]. split; [intros p any Hcheck; by apply (Hc p any)|].
      intros p any s. by rewrite Hcb.
  - intros any m s Hm. unfold self_deliver. rewrite decide_True, Hm by done. done.
  - intros id any s Hid. unfold self_deliver. rewrite decide_False by done.
    case_decide; [|done]. by destruct (to_round2 any).
  - intros l p msg s. by destruct (direct_keeps l p msg s) as (? & ? & _).
  - intros p p' m (s & Hs & Hc & Hne)%validate1_source (s' & Hs' & Hc' & _)%validate1_source.
    eapply (su_indices Hsetup); [exact Hs|]. by rewrite (one_source _ _ _ _ Hne Hc Hc').
  - done.
Qed.

Lemma round_two_ok : round_ok round_two.
Proof.
  split; cbn -[reg_check reg_callback self_deliver].
  - exists registration2. split_and!.
    + by rewrite registry_eq, lookup_insert_eq.
    + intros p any. apply (typed_check to_round2).
    + intros p any s. apply callback2_cases.
  - intros id reg [[-> ->]|[[-> ->]|(_ & _ & Ho)]]%registry_cases Hid; [|done|].
    + split; [|intros p any s; by destruct (callback1_cases p ROUND1_CAST_ID any s) as (? & ? & _)].
      intros p any (m & Hm & _)%(typed_check to_round1). by apply (su_types Hsetup _ m).
    + destruct (su_others Hsetup _ _ Ho) as [Hc Hcb]. split; [intros p any Hcheck; by apply (Hc p any)|].
      intros p any s. by rewrite Hcb.
  - intros any m s Hm. unfold self_deliver. rewrite decide_False, decide_True, Hm by done. done.
  - intros id any s Hid. unfold self_deliver. case_decide; [by destruct (to_round1 any)|]. by rewrite decide_False by done.
  - intros l p msg s. by destruct (direct_keeps l p msg s) as (_ & _ & ? & ?).
  - intros p p' m (s & Hs & Hc & Hne)%validate2_source (s' & Hs' & Hc' & _)%validate2_source.
    eapply (su_indices Hsetup); [exact Hs|]. by rewrite (one_source _ _ _ _ Hne Hc Hc').
  - done.
Qed.

(** ** Same channel, same map *)

(** Full channels of two honest peers hold the same messages. *)
Lemma full_channels r C a b :
  round_ok r -> cluster_inv r C -> a ∈ honest -> b ∈ honest ->
  length (rd_rx r (node_app (C a))) = length peers -> length (rd_rx r (node_app (C b))) = length peers ->
  confusion \/ exists ps l, ps ≡ₚ peers /\ rd_rx r (node_app (C a)) ≡ₚ l /\ rd_rx r (node_app (C b)) = l /\
    Forall2 (fun p m => rd_validate r p m = Ok tt) ps l.
Proof.
  intros Hr HC Ha Hb Hla Hlb. pose proof (su_peers Hsetup) as Hnd.
  destruct (rx_complete sha256 peers honest registry r C a HC Ha Hnd) as [_ Hca].
  destruct (rx_complete sha256 peers honest registry r C b HC Hb Hnd) as [_ Hcb].
  destruct (Hca Hla) as (psa & Hpa & Hda), (Hcb Hlb) as (psb & Hpb & Hdb).
  assert (psa ≡ₚ psb) as Hps by by rewrite Hpa, Hpb.
  destruct (Permutation_Forall2 Hps Hda) as (l & Hl & Hdl).
  assert (confusion \/ l = rd_rx r (node_app (C b))) as [?| ->]; [|by left|].
  { clear -Hdl Hdb Hr HC Ha Hb. revert Hdb. generalize (rd_rx r (node_app (C b))).
    induction Hdl as [|p m ps l Hm Hl IH]; intros l' Hdb; [right; by apply Forall2_nil_inv_l in Hdb|].
    apply Forall2_cons_inv_l in Hdb as (m' & l'' & Hm' & Hl' & ->). destruct (IH _ Hl') as [?| ->]; [by left|].
    edestruct (delivered_same sha256 peers honest share_idx num_validators to_round1 to_round2 registry r Hr C a b p m m')
      as [->|?]; [done..|by right|by left]. }
  right. exists psb, (rd_rx r (node_app (C b))). split_and!; [done..|].
  eapply Forall2_impl; [exact Hdl|]. by intros p m (_ & Hv & _).
Qed.

(** ** Direct messages *)

Definition direct_inv (q : PeerId) (s : FrostP2P) : Prop :=
  NoDup ((round1_p2p_rx s).*1) /\ forall p, p ∈ (round1_p2p_rx s).*1 -> p ∈ accepted_round1_p2p s /\ p ∈ peers /\ p <> q.

Lemma callback_keeps_direct id reg p any s :
  registry !! id = Some reg ->
  round1_p2p_rx (fst (reg_callback reg p id any s)) = round1_p2p_rx s /\
  accepted_round1_p2p (fst (reg_callback reg p id any s)) = accepted_round1_p2p s.
Proof.
  intros [[-> ->]|[[-> ->]|(_ & _ & Ho)]]%registry_cases; cbn.
  - destruct (to_round1 any) as [m|]; [|done]. unfold round1_callback. proc_simp.
    destruct (validate_round1_casts _ _ _ _ _) as [[]|e|]; [|done..]. proc_simp. by case_decide.
  - destruct (to_round2 any) as [m|]; [|done]. unfold round2_callback. proc_simp.
    destruct (validate_round2_casts _ _ _ _) as [[]|e|]; [|done..]. proc_simp. by case_decide.
  - destruct (su_others Hsetup _ _ Ho) as [_ Hcb]. by rewrite Hcb.
Qed.

Lemma receive_direct q p l msg s :
  direct_inv q s -> p ∈ peers -> p <> q -> direct_inv q (receive_round1_p2p share_idx l num_validators p msg s).
Proof.
  intros [Hnd Hin] Hp Hne. unfold receive_round1_p2p. destruct (validate_round1_p2p _ _ _ _ _); [|done..].
  case_decide as Hd; [done|]. split; cbn.
  - rewrite fmap_app. apply NoDup_app. split_and!; [done| |apply NoDup_singleton].
    intros p' Hp' E%list_elem_of_singleton. subst p'. by apply Hd, Hin.
  - intros p'. rewrite fmap_app. intros [Hp'|E%list_elem_of_singleton]%elem_of_app; [|subst p'; set_solver].
    destruct (Hin p' Hp') as (? & ? & ?). set_solver.
Qed.

Lemma inbound_keeps_direct q p message s :
  direct_inv q s -> direct_inv q (fst (handle_inbound_msg k sha256 peer_id_to_public_key registry peers p message s)).
Proof.
  intros Hs. unfold handle_inbound_msg. proc_simp. destruct (bmsg_message message) as [any|]; cbn [ok_or]; [|done]. proc_simp.
  destruct (verify_signatures _ _ _ _ _ _); [|done..]. proc_simp.
  destruct (registry !! bmsg_id message) as [reg|] eqn:E; cbn [ok_or]; [|done].
  destruct (callback_keeps_direct _ _ p any s E) as [E1 E2]. unfold direct_inv. by rewrite E1, E2.
Qed.

Lemma reachable_direct C q : reachable C -> q ∈ honest -> direct_inv q (node_app (C q)).
Proof.
  intros HC. revert q. refine (rtc_ind_r (fun C' => forall q, q ∈ honest -> direct_inv q (node_app (C' q))) _ _ _ C HC);
    [intros q _; split; [constructor|set_solver]|].
  intros C1 C2 _ Hstep HC1 q Hq.
  assert (forall q' n, q' ∈ honest -> direct_inv q' (node_app n) -> direct_inv q (node_app ((<[q' := n]> C1) q))) as Hset.
  { intros q' n Hq' Hn. destruct (decide (q = q')) as [->|Hne]; [by rewrite functions.fn_lookup_insert|].
    rewrite functions.fn_lookup_insert_ne by done. by apply HC1. }
  destruct Hstep; apply Hset; try done; cbn.
  - by apply HC1.
  - apply inbound_keeps_direct. by apply HC1.
  - apply receive_direct; [by apply HC1|done..].
  - by apply HC1.
  - specialize (HC1 q0 ltac:(done)). unfold direct_inv, self_deliver in *. repeat case_decide; [| |done].
    + by destruct (to_round1 any).
    + by destruct (to_round2 any).
Qed.

(** ** Collecting *)

Definition received_casts (l : list (FrostRound1Casts + FrostRound1P2p)) : list FrostRound1Casts :=
  omap (fun x => match x with inl m => Some m | inr _ => None end) l.
Definition received_direct (l : list (FrostRound1Casts + FrostRound1P2p)) : list FrostRound1P2p :=
  omap (fun x => match x with inl _ => None | inr m => Some m end) l.

(** [round1] has received the messages of both channels, in some order. *)
Definition receives (l : list (FrostRound1Casts + FrostRound1P2p)) (s : FrostP2P) : Prop :=
  received_casts l = round1_casts_rx s /\ received_direct l = (round1_p2p_rx s).*2.

Lemma collect_round1_all n l casts p2ps :
  len (casts ++ received_casts l) <= n -> len (p2ps ++ received_direct l) <= Z.max 0 (n - 1) ->
  collect_round1 n l casts p2ps =
    Ok (if (len (casts ++ received_casts l) =? n) && (len (p2ps ++ received_direct l) =? Z.max 0 (n - 1))
        then Some (casts ++ received_casts l, p2ps ++ received_direct l) else None).
Proof.
  revert casts p2ps. induction l as [|x l IH]; intros casts p2ps Hc Hp.
  - cbn in *. rewrite !app_nil_r in *. by case_match.
  - assert (forall m, len (casts ++ m :: received_casts l) <= n -> (len casts =? n) = false) as Hnc.
    { intros m Hm. rewrite len_app in Hm. unfold len in *. cbn [length] in Hm. lia. }
    assert (forall m, len (p2ps ++ m :: received_direct l) <= Z.max 0 (n - 1) -> (len p2ps =? Z.max 0 (n - 1)) = false) as Hnp.
    { intros m Hm. rewrite len_app in Hm. unfold len in *. cbn [length] in Hm. lia. }
    destruct x as [m|m].
    + change (received_casts (inl m :: l)) with (m :: received_casts l) in *. change (received_direct (inl m :: l)) with (received_direct l) in *.
      cbn [collect_round1]. rewrite (Hnc m Hc). cbn [andb]. assert (casts ++ m :: received_casts l = (casts ++ [m]) ++ received_casts l) as E by by rewrite <-app_assoc.
      rewrite E in Hc |- *.
      rewrite IH by done. rewrite len_app in Hc. pose proof (len_nonneg (received_casts l)). by case_match; zbool; [lia|].
    + change (received_casts (inr m :: l)) with (received_casts l) in *. change (received_direct (inr m :: l)) with (m :: received_direct l) in *.
      cbn [collect_round1]. rewrite (Hnp m Hp), andb_false_r. assert (p2ps ++ m :: received_direct l = (p2ps ++ [m]) ++ received_direct l) as E by by rewrite <-app_assoc.
      rewrite E in Hp |- *.
      rewrite IH by done. rewrite len_app in Hp. pose proof (len_nonneg (received_direct l)). by case_match; zbool; [lia|].
Qed.

Lemma direct_bound q s : direct_inv q s -> q ∈ peers -> len (round1_p2p_rx s) <= Z.max 0 (len peers - 1).
Proof.
  intros [Hnd Hin] Hq. assert (q :: (round1_p2p_rx s).*1 ⊆+ peers) as Hsub.
  { apply NoDup_submseteq; [constructor; [intros Hq'; by apply Hin in Hq' as (_ & _ & ?)|done]|].
    intros p [->|Hp]%elem_of_cons; [done|by apply Hin]. }
  apply submseteq_length in Hsub. cbn in Hsub. rewrite length_fmap in Hsub. unfold len. lia.
Qed.

(** The receive loop of round 1 of an honest peer never sees more messages
    than it expects, whatever the others send: once all messages of its two
    channels are received it has returned them exactly when there is one
    broadcast of every peer and one direct message of every other peer, and
    otherwise still waits. *)
Theorem round1_collects C q l :
  reachable C -> q ∈ honest -> receives l (node_app (C q)) ->
  collect_round1 (len peers) l [] [] =
    Ok (if (len (round1_casts_rx (node_app (C q))) =? len peers) &&
           (len (round1_p2p_rx (node_app (C q))) =? Z.max 0 (len peers - 1))
        then Some (round1_casts_rx (node_app (C q)), (round1_p2p_rx (node_app (C q))).*2) else None).
Proof.
  intros HC Hq [Ec Ed]. pose proof (reachable_direct C q HC Hq) as Hdir.
  eapply net_reachable_inv in HC; [|apply round_one_ok|apply (su_honest Hsetup)].
  destruct (rx_complete sha256 peers honest registry round_one C q HC Hq (su_peers Hsetup)) as [Hle _]. cbn in Hle.
  pose proof (direct_bound q _ Hdir (su_honest Hsetup _ Hq)) as Hb.
  assert (len ((round1_p2p_rx (node_app (C q))).*2) = len (round1_p2p_rx (node_app (C q)))) as El
    by (unfold len; by rewrite length_fmap).
  rewrite collect_round1_all; cbn [app]; rewrite ?Ec, ?Ed, ?El; [done|unfold len; lia|done].
Qed.

(** ** One view *)

Lemma indices_nodup ps ss : NoDup ps -> Forall2 (fun p s => share_idx !! p = Some s) ps ss -> NoDup ss.
Proof.
  intros Hnd Hss. induction Hss as [|p s ps ss Hs Hss IH]; [constructor|]. apply NoDup_cons in Hnd as [Hnot Hnd].
  constructor; [|by apply IH]. intros (i & Hi)%list_elem_of_lookup.
  destruct (Forall2_lookup_r _ _ _ _ _ Hss Hi) as (p' & Hp' & Hs'). apply Hnot.
  rewrite (su_indices Hsetup p p' s Hs Hs'). by eapply list_elem_of_lookup_2.
Qed.

Lemma perm_concat {M A} (f : M -> list A) l l' : l ≡ₚ l' -> concat (f <$> l) ≡ₚ concat (f <$> l').
Proof. intros Hp. rewrite <-!(flat_map_concat_map f). by apply Permutation_flat_map. Qed.

Lemma round1_keys ps l :
  ps ≡ₚ peers -> Forall2 (fun p m => rd_validate round_one p m = Ok tt) ps l -> NoDup (c1_key <$> concat (casts1 <$> l)).
Proof.
  intros Hps Hv. assert (NoDup ps) as Hnd by (rewrite Hps; apply (su_peers Hsetup)).
  assert (exists ss, Forall2 (fun p s => share_idx !! p = Some s) ps ss /\ Forall2 (casts_ok c1_key) ss (casts1 <$> l)) as (ss & H1 & H2).
  { clear -Hv Hsetup. induction Hv as [|p m ps l Hm Hl (ss & H1 & H2)]; [by exists []|].
    destruct (validate1_source p m Hm) as (s & Hs & Hc & _). exists (s :: ss). by split; constructor. }
  apply (casts_ok_concat c1_key ss); [|done]. eapply indices_nodup; [exact Hnd|exact H1].
Qed.

Lemma round2_keys ps l :
  ps ≡ₚ peers -> Forall2 (fun p m => rd_validate round_two p m = Ok tt) ps l -> NoDup (c2_key <$> concat (casts2 <$> l)).
Proof.
  intros Hps Hv. assert (NoDup ps) as Hnd by (rewrite Hps; apply (su_peers Hsetup)).
  assert (exists ss, Forall2 (fun p s => share_idx !! p = Some s) ps ss /\ Forall2 (casts_ok c2_key) ss (casts2 <$> l)) as (ss & H1 & H2).
  { clear -Hv Hsetup. induction Hv as [|p m ps l Hm Hl (ss & H1 & H2)]; [by exists []|].
    destruct (validate2_source p m Hm) as (s & Hs & Hc & _). exists (s :: ss). by split; constructor. }
  apply (casts_ok_concat c2_key ss); [|done]. eapply indices_nodup; [exact Hnd|exact H1].
Qed.

Lemma key_from_proto_Ok o key : key_from_proto o = Ok key -> o = Some key.
Proof. unfold key_from_proto. intros H0. inv_res. subst. by destruct x. Qed.

Lemma round1_from_key sok pok c key a : round1_cast_from_proto sok pok c = Ok (key, a) -> c1_key c = Some key.
Proof. unfold round1_cast_from_proto. intros H0. inv_res. simplify_eq. by apply key_from_proto_Ok. Qed.

Lemma round2_from_key pok c key a : round2_cast_from_proto pok c = Ok (key, a) -> c2_key c = Some key.
Proof. unfold round2_cast_from_proto. intros H0. inv_res. simplify_eq. by apply key_from_proto_Ok. Qed.

(** The broadcasts of one full channel decode to the same map as those of
    another. *)
Lemma full_round1 sok pok C a b M :
  reachable C -> a ∈ honest -> b ∈ honest ->
  len (round1_casts_rx (node_app (C a))) = len peers -> len (round1_casts_rx (node_app (C b))) = len peers ->
  insert_all (round1_cast_from_proto sok pok) ∅ (concat (casts1 <$> round1_casts_rx (node_app (C a)))) = Ok M ->
  insert_all (round1_cast_from_proto sok pok) ∅ (concat (casts1 <$> round1_casts_rx (node_app (C b)))) = Ok M \/ confusion.
Proof.
  intros HC Ha Hb Hla Hlb HM. eapply net_reachable_inv in HC; [|apply round_one_ok|apply (su_honest Hsetup)].
  destruct (full_channels round_one C a b) as [?|(ps & l & Hps & Hp & E & Hv)];
    [apply round_one_ok|done|done|done|unfold len in *; cbn; lia|unfold len in *; cbn; lia|by right|].
  left. cbn in Hp, E. rewrite E. pose proof (perm_concat casts1 _ _ Hp) as Hc.
  eapply (insert_all_perm _ c1_key (round1_from_key sok pok)); [exact Hc| |exact HM].
  rewrite Hc. by apply (round1_keys ps).
Qed.

Lemma finish_round1_full sok pok C q l M Sh :
  reachable C -> q ∈ honest -> receives l (node_app (C q)) -> finish_round1 sok pok (len peers) l = Ok (Some (M, Sh)) ->
  insert_all (round1_cast_from_proto sok pok) ∅ (concat (casts1 <$> round1_casts_rx (node_app (C q)))) = Ok M /\
  len (round1_casts_rx (node_app (C q))) = len peers.
Proof.
  intros HC Hq Hl. unfold finish_round1. rewrite (round1_collects C q l HC Hq Hl). cbn [mbind res_bind].
  destruct ((_ =? _) && _) eqn:E; [|done]. intros Hf. apply andb_true_iff in E as [E _]. zbool. split; [|done].
  unfold make_round1_response in Hf. inv_res. by simplify_eq.
Qed.


Lemma collect_round2_all n l casts :
  len (casts ++ l) <= n -> collect_round2 n l casts = Ok (if len (casts ++ l) =? n then Some (casts ++ l) else None).
Proof.
  revert casts. induction l as [|m l IH]; intros casts Hc.
  - cbn. rewrite app_nil_r. by case_match.
  - cbn [collect_round2]. assert (casts ++ m :: l = (casts ++ [m]) ++ l) as E by by rewrite <-app_assoc.
    rewrite E in Hc |- *. rewrite !len_app in Hc. change (len [m]) with 1 in Hc. pose proof (len_nonneg l).
    rewrite (proj2 (Z.eqb_neq (len casts) n)) by lia.
    rewrite (proj2 (Z.ltb_ge n _)) by (rewrite len_app; change (len [m]) with 1; lia).
    apply IH. rewrite !len_app. change (len [m]) with 1. lia.
Qed.

(** The same for round 2: its loop never sees too many messages either. *)
Theorem round2_same_view pok C a b Ma Mb :
  reachable C -> a ∈ honest -> b ∈ honest ->
  finish_round2 pok (len peers) (round2_casts_rx (node_app (C a))) = Ok (Some Ma) ->
  finish_round2 pok (len peers) (round2_casts_rx (node_app (C b))) = Ok (Some Mb) ->
  Ma = Mb \/ confusion.
Proof.
  intros HC Ha Hb. eapply net_reachable_inv in HC; [|apply round_two_ok|apply (su_honest Hsetup)].
  assert (forall q M, q ∈ honest -> finish_round2 pok (len peers) (round2_casts_rx (node_app (C q))) = Ok (Some M) ->
    insert_all (round2_cast_from_proto pok) ∅ (concat (casts2 <$> round2_casts_rx (node_app (C q)))) = Ok M /\
    len (round2_casts_rx (node_app (C q))) = len peers) as Hfull.
  { intros q M Hq. destruct (rx_complete sha256 peers honest registry round_two C q HC Hq (su_peers Hsetup)) as [Hle _].
    cbn in Hle. unfold finish_round2. rewrite collect_round2_all by (unfold len; cbn; lia). cbn [app mbind res_bind].
    destruct (_ =? _) eqn:E; [|done]. intros Hf. zbool. split; [|done]. inv_res. by simplify_eq. }
  intros [HMa Hla]%Hfull [HMb Hlb]%Hfull; [|done..].
  destruct (full_channels round_two C a b) as [?|(ps & l & Hps & Hp & E & Hv)];
    [apply round_two_ok|done|done|done|unfold len in *; cbn; lia|unfold len in *; cbn; lia|by right|].
  left. cbn in Hp, E. rewrite E in HMb. pose proof (perm_concat casts2 _ _ Hp) as Hc.
  eapply (insert_all_perm _ c2_key (round2_from_key pok)) in HMa; [|exact Hc|rewrite Hc; by apply (round2_keys ps)].
  congruence.
Qed.
End views.

(** ** A run of two peers

    The toy scheme of [K1Util] signs, the digest is the sum of the bytes, and
    a message is the share index of its sender. *)

Module ViewSample.

Definition sha (b : list Z) : list Z := be_bytes 32 (fold_right Z.add 0 b).
Definition peers : list bool := [false; true].
Definition honest : gset bool := {[false; true]}.
Definition share_idx : gmap bool Z := {[false := 1; true := 2]}.

Definition wrap1 (source : Z) : Any := {| type_url := "1"; any_value := [source] |}.
Definition cast_of (source : Z) : FrostRound1Casts :=
  {| casts1 := [round1_cast_to_proto {| val_idx := 0; source_id := source; target_id := 0 |}
    {| commitments := [replicate 48 source]; wi := replicate 32 1; ci := replicate 32 2 |}] |}.
Definition share_of (source target : Z) : FrostRound1P2p :=
  {| shares := [shamir_share_to_proto {| val_idx := 0; source_id := source; target_id := target |}
    {| share_id := target; share_value := replicate 32 3 |}] |}.

Definition to_round1 (any : Any) : option FrostRound1Casts :=
  match any_value any with
  | [source] => if decide (type_url any = "1"%string) then Some (cast_of source) else None
  | _ => None
  end.
Definition to_round2 (any : Any) : option FrostRound2Casts := None.

Definition registry : gmap string (RegisteredMessage bool (FrostP2P bool)) :=
  fst (new_frost_p2p to_round1 to_round2 share_idx 1 1 ∅).

Abbreviation step := (step toy_k256 sha (fun p : bool => Some p) peers (fun p => p) honest share_idx 1 to_round1 to_round2 registry).

Definition idx (p : bool) : Z := if p then 2 else 1.
Definition sign_of (p : bool) (any : Any) : list Z :=
  match sign_any (PeerId := bool) toy_k256 sha p any with Ok s => s | _ => [] end.
Definition request (p : bool) : BCastSigRequest :=
  {| sig_req_id := ROUND1_CAST_ID; sig_req_message := Some (wrap1 (idx p)) |}.
Definition message (p : bool) : BCastMessage :=
  {| bmsg_id := ROUND1_CAST_ID; bmsg_message := Some (wrap1 (idx p));
     bmsg_signatures := [sign_of false (wrap1 (idx p)); sign_of true (wrap1 (idx p))] |}.

Abbreviation Cluster := (bool -> Node bool).
Definition issue (q : bool) (C : Cluster) : Cluster :=
  <[q := (C q) <| node_issued ::= fun l => l ++ [(ROUND1_CAST_ID, wrap1 (idx q))] |>]> C.
Definition ask (q p : bool) (C : Cluster) : Cluster :=
  <[q := (C q) <| node_dedup := fst (handle_inbound_sig_request toy_k256 sha registry q p (request p) (node_dedup (C q))) |>]> C.
Definition send (q p : bool) (C : Cluster) : Cluster :=
  <[q := (C q) <| node_app := fst (handle_inbound_msg toy_k256 sha (fun p : bool => Some p) registry peers p (message p) (node_app (C q))) |>]> C.
Definition own (q : bool) (C : Cluster) : Cluster :=
  <[q := (C q) <| node_app ::= self_deliver to_round1 to_round2 ROUND1_CAST_ID (wrap1 (idx q)) |> <| node_self ::= cons ROUND1_CAST_ID |>]> C.
Definition direct (q p : bool) (C : Cluster) : Cluster :=
  <[q := (C q) <| node_app ::= receive_round1_p2p share_idx (idx q) 1 p (share_of (idx p) (idx q)) |>]> C.

(** Both issue and sign, then both deliver. *)
Definition signed_state : Cluster := ask false true (ask true false (issue true (issue false (fun _ => node_new)))).
Definition final_state : Cluster :=
  direct true false (direct false true (own true (own false (send true false (send false true signed_state))))).

Lemma sample_setup : setup peers honest share_idx 1 1 to_round1 to_round2 ∅ registry.
Proof.
  split.
  - reflexivity.
  - intros id reg. by rewrite lookup_empty.
  - done.
  - intros [] [] i; vm_compute; congruence.
  - done.
  - intros [] _; set_solver.
  - by apply (bool_decide_unpack _).
Qed.

Lemma step_issue_own q (C : Cluster) : node_issued (C q) = [] -> step C (issue q C).
Proof.
  intros Hq. eapply step_issue; [by destruct q; set_solver|by rewrite Hq; apply not_elem_of_nil| |].
  - reflexivity.
  - by destruct q.
Qed.

Lemma step_ask q p (C : Cluster) : p <> q -> step C (ask q p C).
Proof. intros Hne. apply step_request; [by destruct q; set_solver|by destruct p; set_solver|done]. Qed.

Lemma step_send q p (C : Cluster) : p <> q ->
  (forall h, signed sha C h (hash_any sha (wrap1 (idx p)))) -> step C (send q p C).
Proof.
  intros Hne Hs. apply step_message; [by destruct q; set_solver|by destruct p; set_solver|done|].
  intros any i h signature pk [= <-] _ _ _ _ _. apply Hs.
Qed.

Lemma step_own q (C : Cluster) :
  (ROUND1_CAST_ID, wrap1 (idx q)) ∈ node_issued (C q) -> node_self (C q) = [] -> step C (own q C).
Proof. intros Hi Hs. apply step_self; [by destruct q; set_solver|done|by rewrite Hs; apply not_elem_of_nil]. Qed.

Lemma step_share q p (C : Cluster) : p <> q -> step C (direct q p C).
Proof. intros Hne. apply step_direct; [by destruct q; set_solver|by destruct p; set_solver|done]. Qed.

Lemma signed_by_all (C : Cluster) p h :
  node_issued (C p) = [(ROUND1_CAST_ID, wrap1 (idx p))] ->
  node_dedup (C (negb p)) !! (p, ROUND1_CAST_ID) = Some (hash_any sha (wrap1 (idx p))) ->
  signed sha C h (hash_any sha (wrap1 (idx p))).
Proof.
  intros Hi Hd. destruct (decide (h = p)) as [->|Hne].
  - right. exists ROUND1_CAST_ID, (wrap1 (idx p)). rewrite Hi. split; [by constructor|done].
  - left. exists (p, ROUND1_CAST_ID). by replace h with (negb p) by (destruct h, p; done).
Qed.

Lemma final_reachable : reachable toy_k256 sha (fun p : bool => Some p) peers (fun p => p) honest share_idx 1 to_round1 to_round2 registry final_state.
Proof.
  unfold reachable, final_state, signed_state.
  eapply rtc_r; [|by apply step_share]. eapply rtc_r; [|by apply step_share].
  eapply rtc_r; [|by apply step_own; [apply (bool_decide_unpack _); vm_compute|vm_compute; reflexivity]].
  eapply rtc_r; [|by apply step_own; [apply (bool_decide_unpack _); vm_compute|vm_compute; reflexivity]].
  eapply rtc_r; [|apply step_send; [done|intros h; apply signed_by_all; vm_compute; reflexivity]].
  eapply rtc_r; [|apply step_send; [done|intros h; apply signed_by_all; vm_compute; reflexivity]].
  eapply rtc_r; [|by apply step_ask]. eapply rtc_r; [|by apply step_ask].
  eapply rtc_r; [|by apply step_issue_own]. eapply rtc_r; [|by apply step_issue_own]. apply rtc_refl.
Qed.

Definition received_by (q : bool) : list (FrostRound1Casts + FrostRound1P2p) :=
  (inl <$> round1_casts_rx (node_app (final_state q))) ++ (inr <$> (round1_p2p_rx (node_app (final_state q))).*2).

Definition outcome (q : bool) := finish_round1 (fun _ => true) (fun _ => true) 2 (received_by q).

End ViewSample.
