(* ===== verification/DkgSync.v ===== *)
(** * Synchronisation of the key generation

    [crates/dkg/src/sync]: the nodes of a ceremony keep one stream to each
    peer, on which they repeat the step they are at ([client.rs]); the inbound
    side ([handler.rs]) checks the version and the signature of the definition
    hash and records the step in the [Server] ([server.rs]), on which the
    ceremony waits ([SyncRuntime] of [dkg.rs]).  The handler of a connection
    and the behaviour decide which connection carries the stream.

    An [async] wait is the test of one iteration of its loop, [None] when the
    loop goes on to wait for a notification; [notify] counts the calls of
    [notify_waiters].  Reading and writing a stream, and the timers, are events
    or arguments. *)

From S2P Require Import Prelude Version.

(** ** Data *)

Inductive SyncError (PeerId : Type) :=
| Canceled
| PeerRespondedWithError (text : string)
| VersionMismatch (expected got : string)
| InvalidDefinitionHashSignature
| PeerStepBehind
| PeerStepAhead
| AbnormalInitialStep
| PeerStepTooFarAhead
| StepOverflow
| Unsupported
| ParsePeerVersion (text : string)
| SignDefinitionHash (text : string)
| KeyConversion (text : string)
| Io (text : string)
| Peer (text : string)
| ServerNotStarted
| CompletionChannelClosed
| ActivationChannelUnavailable
| InvalidSyncMessage (peer : PeerId) (error : string)
| LocalPeerMissing
| LocalPeerNotInPeerSet.
Arguments Canceled {PeerId}.
Arguments PeerRespondedWithError {PeerId} text.
Arguments VersionMismatch {PeerId} expected got.
Arguments InvalidDefinitionHashSignature {PeerId}.
Arguments PeerStepBehind {PeerId}.
Arguments PeerStepAhead {PeerId}.
Arguments AbnormalInitialStep {PeerId}.
Arguments PeerStepTooFarAhead {PeerId}.
Arguments StepOverflow {PeerId}.
Arguments Unsupported {PeerId}.
Arguments ParsePeerVersion {PeerId} text.
Arguments SignDefinitionHash {PeerId} text.
Arguments KeyConversion {PeerId} text.
Arguments Io {PeerId} text.
Arguments Peer {PeerId} text.
Arguments ServerNotStarted {PeerId}.
Arguments CompletionChannelClosed {PeerId}.
Arguments ActivationChannelUnavailable {PeerId}.
Arguments InvalidSyncMessage {PeerId} peer error.
Arguments LocalPeerMissing {PeerId}.
Arguments LocalPeerNotInPeerSet {PeerId}.

(** The messages of the wire, [MsgSync] and [MsgSyncResponse]. *)
Record MsgSync := {
  timestamp : option Z;
  hash_signature : list Z;
  msg_shutdown : bool;
  msg_version : string;
  msg_step : Z;
}.

Record MsgSyncResponse := { sync_timestamp : option Z; resp_error : string }.

(** [io::ErrorKind], as far as it matters, and [is_relay_io_error]. *)
Inductive IoKind := ConnectionReset | ConnectionAborted | BrokenPipe | OtherIo.
Record IoError := { io_kind : IoKind; io_text : string }.

Definition is_relay_io_error (error : IoError) : bool :=
  match io_kind error with
  | ConnectionReset | ConnectionAborted | BrokenPipe => true
  | OtherIo => false
  end.

(** Events of the behaviour; the round-trip time is left out. *)
Inductive SyncEvent (PeerId : Type) :=
| PeerStepUpdated (peer_id : PeerId) (step : Z)
| PeerShutdownObserved (peer_id : PeerId)
| SyncRejected (peer_id : PeerId) (error : SyncError PeerId)
| PeerRttObserved (peer_id : PeerId).
Arguments PeerStepUpdated {PeerId} peer_id step.
Arguments PeerShutdownObserved {PeerId} peer_id.
Arguments SyncRejected {PeerId} peer_id error.
Arguments PeerRttObserved {PeerId} peer_id.

(** [ServerInner] with its [ServerState]. *)
Record Server (PeerId : Type) `{Countable PeerId} := {
  all_count : nat;
  def_hash : list Z;
  version : SemVer;
  started : bool;
  notify : nat;
  shutdown : gset PeerId;
  connected : gset PeerId;
  steps : gmap PeerId Z;
  err : option (SyncError PeerId);
}.
Arguments all_count {PeerId _ _} _.
Arguments def_hash {PeerId _ _} _.
Arguments version {PeerId _ _} _.
Arguments started {PeerId _ _} _.
Arguments notify {PeerId _ _} _.
Arguments shutdown {PeerId _ _} _.
Arguments connected {PeerId _ _} _.
Arguments steps {PeerId _ _} _.
Arguments err {PeerId _ _} _.

(** [ClientInner] with its [ClientState]; [stop] and [done] are the values of
    the two watch channels. *)
Record Client (PeerId : Type) := {
  peer_id : PeerId;
  hash_sig : list Z;
  client_version : SemVer;
  active : bool;
  is_connected : bool;
  reconnect : bool;
  step : Z;
  shutdown_requested : bool;
  finished : bool;
  outbound_claimed : bool;
  stop : bool;
  done_result : option (res (SyncError PeerId) unit);
}.
Arguments peer_id {PeerId} _.
Arguments hash_sig {PeerId} _.
Arguments client_version {PeerId} _.
Arguments active {PeerId} _.
Arguments is_connected {PeerId} _.
Arguments reconnect {PeerId} _.
Arguments step {PeerId} _.
Arguments shutdown_requested {PeerId} _.
Arguments finished {PeerId} _.
Arguments outbound_claimed {PeerId} _.
Arguments stop {PeerId} _.
Arguments done_result {PeerId} _.

(** How the loop of an outbound stream ends, and the state of a handler.  A
    future is represented by the phase it is in. *)
Inductive OutboundExit (PeerId : Type) :=
| GracefulShutdown
| Reconnectable (error : SyncError PeerId) (relay_reset : bool)
| Fatal (error : SyncError PeerId).
Arguments GracefulShutdown {PeerId}.
Arguments Reconnectable {PeerId} error relay_reset.
Arguments Fatal {PeerId} error.

Inductive OutboundState := Idle | OpenStream | Running | WaitingRetry (delay : Z) | Disabled.
#[global] Instance OutboundState_eq_dec : EqDecision OutboundState.
Proof. solve_decision. Defined.

Inductive OutboundRequest := Requested | Busy | Inactive.

Record Handler := { inbound : bool; outbound : OutboundState; backoff : Z }.

(** Commands and swarm events of the behaviour. *)
Inductive SyncToSwarm (PeerId : Type) :=
| Dial (peer : PeerId)
| GenerateEvent (e : SyncEvent PeerId).
Arguments Dial {PeerId} peer.
Arguments GenerateEvent {PeerId} e.

(** [StreamUpgradeError]; the protocol itself cannot fail to apply. *)
Inductive StreamUpgradeError := NegotiationFailed | UpgradeTimeout | UpgradeIo (error : IoError).

(** What [poll] of a handler returns. *)
Inductive HandlerPoll (PeerId : Type) :=
| NotifyBehaviour (e : SyncEvent PeerId)
| OutboundSubstreamRequest
| Pending.
Arguments NotifyBehaviour {PeerId} e.
Arguments OutboundSubstreamRequest {PeerId}.
Arguments Pending {PeerId}.

(** [DialError], as far as it matters. *)
Inductive DialError := Transport | NoAddresses | OtherDial.

(** [Behaviour], with the clients it shares with their handles. *)
Record Behaviour (PeerId : Type) `{Countable PeerId} := {
  server : Server PeerId;
  clients : gmap PeerId (Client PeerId);
  command_rx : list PeerId;
  pending_events : list (SyncToSwarm PeerId);
  no_addresses_retries : gset PeerId;
}.
Arguments server {PeerId _ _} _.
Arguments clients {PeerId _ _} _.
Arguments command_rx {PeerId _ _} _.
Arguments pending_events {PeerId _ _} _.
Arguments no_addresses_retries {PeerId _ _} _.

(** Milliseconds. *)
Definition INITIAL_BACKOFF : Z := 100.
Definition MAX_BACKOFF : Z := 1000.

Section sync.
Context {PeerId : Type} `{Countable PeerId} (peer_string : PeerId -> string).

#[local] Abbreviation Error := (SyncError PeerId).
#[local] Abbreviation Server := (Server PeerId).
#[local] Abbreviation Client := (Client PeerId).

(** [Display for Error] *)
Definition error_string (e : Error) : string :=
  match e with
  | Canceled => "sync client canceled"
  | PeerRespondedWithError s => "peer responded with error: " +:+ s
  | VersionMismatch expected got => "mismatching version; expect=" +:+ expected +:+ ", got=" +:+ got
  | InvalidDefinitionHashSignature => "invalid definition hash signature"
  | PeerStepBehind => "peer reported step is behind the last known step"
  | PeerStepAhead => "peer reported step is ahead the last known step"
  | AbnormalInitialStep => "peer reported abnormal initial step, expected 0 or 1"
  | PeerStepTooFarAhead => "peer step is too far ahead"
  | StepOverflow => "step overflow"
  | Unsupported => "protocol negotiation failed"
  | ParsePeerVersion s => "parse peer version: " +:+ s
  | SignDefinitionHash s => "sign definition hash: " +:+ s
  | KeyConversion s => "convert secret key to libp2p keypair: " +:+ s
  | Io s => "i/o error: " +:+ s
  | Peer s => "peer error: " +:+ s
  | ServerNotStarted => "sync server not started"
  | CompletionChannelClosed => "sync client completion channel closed"
  | ActivationChannelUnavailable => "sync client activation channel unavailable"
  | InvalidSyncMessage peer error => "invalid sync message: peer=" +:+ peer_string peer +:+ " err=" +:+ error
  | LocalPeerMissing => "local peer id missing from p2p context"
  | LocalPeerNotInPeerSet => "local peer id missing from sync peer set"
  end.

(** ** [protocol.rs] *)

(** Signatures of the definition hash are made and checked by libp2p. *)
Definition validate_request_with_public_key {PK} (verify : PK -> list Z -> list Z -> bool)
    (def_hash : list Z) (expected_version : SemVer) (public_key : PK) (msg : MsgSync) : res Error unit :=
  v ← map_err (fun _ => ParsePeerVersion "Invalid version format") (parse (msg_version msg));
  if negb (semver_eq v expected_version)
  then Err (VersionMismatch (to_string expected_version) (msg_version msg))
  else if negb (verify public_key def_hash (hash_signature msg))
  then Err InvalidDefinitionHashSignature
  else Ok tt.

(** ** [server.rs] *)

Definition server_new (all_count : nat) (def_hash : list Z) (version : SemVer) : Server := {|
  all_count := all_count; def_hash := def_hash; version := version; started := false; notify := 0;
  shutdown := ∅; connected := ∅; steps := ∅; err := None |}.

Definition notify_waiters (s : Server) : Server := s <| notify ::= S |>.

Definition start (s : Server) : Server := notify_waiters (s <| started := true |>).

(** [await_all_connected], [await_all_shutdown]: one test of the loop. *)
Definition await_all_connected (s : Server) : option (res Error unit) :=
  if negb (started s) then None
  else match err s with
  | Some error => Some (Err error)
  | None => if decide (size (connected s) = all_count s) then Some (Ok tt) else None
  end.

Definition await_all_shutdown (s : Server) : option (res Error unit) :=
  match err s with
  | Some error => Some (Err error)
  | None => if decide (size (shutdown s) = all_count s) then Some (Ok tt) else None
  end.

(** The scan over the recorded steps. *)
Fixpoint scan_steps (step step_plus_one step_plus_two : Z) (l : list Z) (all_ok : bool) : res Error bool :=
  match l with
  | [] => Ok all_ok
  | actual :: l =>
      if step_plus_two <=? actual then Err PeerStepTooFarAhead
      else scan_steps step step_plus_one step_plus_two l
             (if negb (actual =? step) && negb (actual =? step_plus_one) then false else all_ok)
  end.

Definition await_all_at_step (ho : HashOrder) (step : Z) (s : Server) : option (res Error unit) :=
  match checked_add_i64 step 1, checked_add_i64 step 2 with
  | Some step_plus_one, Some step_plus_two =>
      match err s with
      | Some error => Some (Err error)
      | None =>
          if decide (size (steps s) = all_count s) then
            match scan_steps step step_plus_one step_plus_two (map_values ho (steps s)) true with
            | Ok true => Some (Ok tt)
            | Ok false => None
            | Err e => Some (Err e)
            | Panic => Some Panic
            end
          else None
      end
  | _, _ => Some (Err StepOverflow)
  end.

Definition set_connected (peer : PeerId) (s : Server) : Server :=
  if decide (peer ∈ connected s) then s
  else notify_waiters (s <| connected ::= fun c => {[peer]} ∪ c |>).

Definition clear_connected (peer : PeerId) (s : Server) : Server :=
  if decide (peer ∈ connected s) then notify_waiters (s <| connected ::= fun c => c ∖ {[peer]} |>) else s.

Definition set_shutdown (peer : PeerId) (s : Server) : Server :=
  notify_waiters (s <| shutdown ::= fun c => {[peer]} ∪ c |>).

Definition set_err (error : Error) (s : Server) : Server :=
  match err s with
  | Some _ => s
  | None => notify_waiters (s <| err := Some error |>)
  end.

Definition update_step (peer : PeerId) (step : Z) : proc Server Error bool :=
  s ← p_get;
  match steps s !! peer with
  | Some current =>
      if step <? current then p_fail PeerStepBehind
      else
        current_plus_two ← p_lift (ok_or (checked_add_i64 current 2) StepOverflow);
        if current_plus_two <? step then p_fail PeerStepAhead
        else if step =? current then mret false
        else p_modify (fun s => notify_waiters (s <| steps ::= insert peer step |>)) ;; mret true
  | None =>
      if negb ((0 <=? step) && (step <=? 1)) then p_fail AbnormalInitialStep
      else p_modify (fun s => notify_waiters (s <| steps ::= insert peer step |>)) ;; mret true
  end.

(** ** [client.rs] *)

Definition client_new (peer : PeerId) (sig : list Z) (v : SemVer) : Client := {|
  peer_id := peer; hash_sig := sig; client_version := v; active := false; is_connected := false;
  reconnect := true; step := 0; shutdown_requested := false; finished := false;
  outbound_claimed := false; stop := false; done_result := None |}.

Definition set_step (n : Z) (c : Client) : Client := c <| step := n |>.
Definition request_shutdown (c : Client) : Client := c <| shutdown_requested := true |>.
Definition disable_reconnect (c : Client) : Client := c <| reconnect := false |>.
Definition should_schedule_dial (c : Client) : bool :=
  active c && negb (is_connected c) && negb (shutdown_requested c).
Definition client_set_connected (b : bool) (c : Client) : Client := c <| is_connected := b |>.

Definition try_claim_outbound (c : Client) : Client * bool :=
  if outbound_claimed c then (c, false) else (c <| outbound_claimed := true |>, true).

Definition release_outbound (c : Client) : Client := c <| outbound_claimed := false |>.

Definition finish (result : res Error unit) (c : Client) : Client :=
  let c1 := c <| active := false |> <| is_connected := false |> <| outbound_claimed := false |> in
  let c2 := if finished c then c1 else c1 <| finished := true |> <| done_result := Some result |> in
  c2 <| stop := true |>.

(** The command channel to the behaviour; [None] when the receiver is gone or
    the client has no sender. *)
Definition activate : proc (Client * option (list PeerId)) Error unit :=
  p_modify (fun '(c, ch) => (c <| active := true |> <| stop := false |>, ch)) ;;
  '(c, ch) ← p_get;
  match ch with
  | Some l => p_modify (fun '(c, _) => (c, Some (l ++ [peer_id c])))
  | None => p_modify (fun '(c, ch) => (c <| active := false |>, ch)) ;; p_fail ActivationChannelUnavailable
  end.

Definition request_stop (c : Client) : Client :=
  c <| active := false |> <| is_connected := false |> <| stop := true |>.

(** [wait_finished]: the result once it is published, or the cancellation. *)
Definition wait_finished (cancelled clear_on_cancel : bool) (c : Client) : Client * option (res Error unit) :=
  match done_result c with
  | Some result => (c, Some result)
  | None =>
      if cancelled then (if clear_on_cancel then request_stop c else c, Some (Err Canceled))
      else (c, None)
  end.

(** ** [handler.rs] *)

Definition handler_new : Handler := {| inbound := false; outbound := Idle; backoff := INITIAL_BACKOFF |}.

Definition schedule_retry (h : Handler) : Handler :=
  h <| outbound := WaitingRetry (backoff h) |> <| backoff := Z.min (backoff h * 2) MAX_BACKOFF |>.

(** A handler and the client of its peer, which other handlers share. *)
#[local] Abbreviation Conn := (Handler * option Client)%type.

Definition try_request_outbound (x : Conn) : Conn * OutboundRequest :=
  match x with
  | (h, None) => (x, Inactive)
  | (h, Some client) =>
      if negb (active client) then (x, Inactive)
      else
        let '(client, claimed) := try_claim_outbound client in
        if negb claimed then ((h, Some client), Busy)
        else ((h <| outbound := OpenStream |>, Some client), Requested)
  end.

Definition poll_idle_outbound (x : Conn) : Conn * HandlerPoll PeerId :=
  match try_request_outbound x with
  | (x, Requested) => (x, OutboundSubstreamRequest)
  | ((h, c), Busy) => ((schedule_retry h, c), Pending)
  | (x, Inactive) => (x, Pending)
  end.

Definition on_dial_upgrade_error (error : StreamUpgradeError) (x : Conn) : Conn :=
  match x with
  | (h, None) => (h <| outbound := Disabled |>, None)
  | (h, Some client) =>
      let client := release_outbound client in
      match error with
      | NegotiationFailed => (h <| outbound := Disabled |>, Some (finish (Err Unsupported) client))
      | _ =>
          let '(error, relay_reset) :=
            match error with
            | UpgradeIo error => (Io (io_text error), is_relay_io_error error)
            | _ => (Io "sync protocol negotiation timed out", false)
            end in
          if relay_reset || reconnect client then (schedule_retry h, Some client)
          else (h <| outbound := Disabled |>, Some (finish (Err error) client))
      end
  end.

(** The end of the outbound loop, as [poll] handles it. *)
Definition on_outbound_exit (exit : OutboundExit PeerId) (x : Conn) : Conn :=
  match exit, x with
  | GracefulShutdown, (h, client) => (h <| outbound := Disabled |>, finish (Ok tt) <$> client)
  | Fatal error, (h, client) => (h <| outbound := Disabled |>, finish (Err error) <$> client)
  | Reconnectable _ _, (h, None) => (h <| outbound := Disabled |>, None)
  | Reconnectable error relay_reset, (h, Some client) =>
      let client := release_outbound (client_set_connected false client) in
      if relay_reset || reconnect client
      then (schedule_retry (h <| backoff := INITIAL_BACKOFF |>), Some client)
      else (h <| outbound := Disabled |>, Some (finish (Err error) client))
  end.

(** [poll]: [event] is the next event of the streams, [inbound_done] that the
    inbound loop has ended, [delay_over] that the retry delay has passed and
    [exit] how the outbound loop has ended. *)
Definition handler_poll (event : option (SyncEvent PeerId)) (inbound_done delay_over : bool)
    (exit : option (OutboundExit PeerId)) (x : Conn) : Conn * HandlerPoll PeerId :=
  match event with
  | Some e => (x, NotifyBehaviour e)
  | None =>
      let '(h, client) := x in
      let h := if inbound_done then h <| inbound := false |> else h in
      let x := (h, client) in
      match outbound h with
      | Idle => poll_idle_outbound x
      | OpenStream => (x, Pending)
      | WaitingRetry _ =>
          if delay_over then
            match try_request_outbound x with
            | (x, Requested) => (x, OutboundSubstreamRequest)
            | ((h, c), Busy) => ((schedule_retry h, c), Pending)
            | ((h, c), Inactive) => ((h <| outbound := Idle |>, c), Pending)
            end
          else (x, Pending)
      | Running =>
          match exit with
          | Some exit => (on_outbound_exit exit x, Pending)
          | None => (x, Pending)
          end
      | Disabled => (x, Pending)
      end
  end.

(** [on_connection_event]: a second inbound stream is dropped. *)
Definition on_inbound_negotiated (h : Handler) : Handler := if inbound h then h else h <| inbound := true |>.

Definition on_outbound_negotiated (x : Conn) : Conn :=
  match x with
  | (h, None) => (h <| outbound := Disabled |>, None)
  | (h, Some client) => (h <| backoff := INITIAL_BACKOFF |> <| outbound := Running |>, Some client)
  end.

(** [run_outbound_stream], in pieces: what it does first, the message it
    sends, and what it makes of the answer. *)
Definition outbound_start (c : Client) : Client := client_set_connected true c.

Definition outbound_stopped (c : Client) : option (OutboundExit PeerId) :=
  if stop c then Some (Fatal Canceled) else None.

Definition outbound_request (now : Z) (c : Client) : MsgSync := {|
  timestamp := Some now; hash_signature := hash_sig c; msg_shutdown := shutdown_requested c;
  msg_version := to_string (client_version c); msg_step := step c |}.

Definition outbound_response (c : Client) (request : MsgSync) (response : MsgSyncResponse + IoError)
    : option (OutboundExit PeerId) * list (SyncEvent PeerId) :=
  match response with
  | inr error => (Some (Reconnectable (Io (io_text error)) (is_relay_io_error error)), [])
  | inl response =>
      if negb (bool_decide (resp_error response = ""%string))
      then (Some (Fatal (PeerRespondedWithError (resp_error response))), [])
      else (if msg_shutdown request then Some GracefulShutdown else None, [PeerRttObserved (peer_id c)])
  end.

(** [handle_inbound_stream], in pieces, on the server and the events sent. *)
Section inbound.
Context {PK : Type} (verify : PK -> list Z -> list Z -> bool).
Context (peer_id_to_libp2p_pk : PeerId -> string + PK).

Definition inbound_open (peer : PeerId) (s : Server) : res Error PK :=
  if negb (started s) then Err ServerNotStarted
  else match peer_id_to_libp2p_pk peer with
  | inl text => Err (Peer text)
  | inr public_key => Ok public_key
  end.

Definition inbound_validate (peer : PeerId) (public_key : PK) (message : MsgSync) (s : Server)
    : Server * MsgSyncResponse * list (SyncEvent PeerId) :=
  match validate_request_with_public_key verify (def_hash s) (version s) public_key message with
  | Err error =>
      (set_err (InvalidSyncMessage peer (error_string error)) s,
       {| sync_timestamp := timestamp message; resp_error := error_string error |},
       [SyncRejected peer error])
  | _ => (set_connected peer s, {| sync_timestamp := timestamp message; resp_error := "" |}, [])
  end.

(** The step is recorded even when the message is invalid. *)
Definition inbound_step (peer : PeerId) (message : MsgSync) : proc Server Error (list (SyncEvent PeerId)) := fun s =>
  match update_step peer (msg_step message) s with
  | (s, Ok updated) => (s, Ok (if updated then [PeerStepUpdated peer (msg_step message)] else []))
  | (s, Err error) => (set_err error s, Err error)
  | (s, Panic) => (s, Panic)
  end.

(** The messages of a stream, each with the error of writing its answer, if
    any; after the last one the read fails. *)
Fixpoint inbound_loop (peer : PeerId) (public_key : PK) (l : list (MsgSync * option IoError)) (read_error : IoError)
    (s : Server) : Server * list MsgSyncResponse * list (SyncEvent PeerId) * res Error unit :=
  match l with
  | [] => (s, [], [], Err (Io (io_text read_error)))
  | (message, write_error) :: l =>
      let '(s, response, events) := inbound_validate peer public_key message s in
      match inbound_step peer message s with
      | (s, Ok events') =>
          match write_error with
          | Some error => (s, [], events ++ events', Err (Io (io_text error)))
          | None =>
              if msg_shutdown message
              then (set_shutdown peer s, [response], events ++ events' ++ [PeerShutdownObserved peer], Ok tt)
              else
                let '(s, responses, events'', result) := inbound_loop peer public_key l read_error s in
                (s, response :: responses, events ++ events' ++ events'', result)
          end
      | (s, Err error) => (s, [], events, Err error)
      | (s, Panic) => (s, [], events, Panic)
      end
  end.

Definition handle_inbound_stream (peer : PeerId) (l : list (MsgSync * option IoError)) (read_error : IoError)
    (s : Server) : Server * list MsgSyncResponse * list (SyncEvent PeerId) * res Error unit :=
  match inbound_open peer s with
  | Ok public_key =>
      let '(s, responses, events, result) := inbound_loop peer public_key l read_error s in
      (clear_connected peer s, responses, events, result)
  | Err error => (clear_connected peer s, [], [], Err error)
  | Panic => (s, [], [], Panic)
  end.
End inbound.

(** ** [behaviour.rs] *)

#[local] Abbreviation Behaviour := (Behaviour PeerId).

Definition behaviour_new (s : Server) (l : list Client) : Behaviour := {|
  server := s; clients := list_to_map ((fun c => (peer_id c, c)) <$> l); command_rx := [];
  pending_events := []; no_addresses_retries := ∅ |}.

(** Only peers with a client get a handler. *)
Definition connection_handler_for_peer (peer : PeerId) (b : Behaviour) : option Handler :=
  (fun _ => handler_new) <$> clients b !! peer.

Definition schedule_dial_if_needed (peer : PeerId) (b : Behaviour) : Behaviour :=
  match clients b !! peer with
  | Some client =>
      if should_schedule_dial client then b <| pending_events ::= fun l => l ++ [Dial peer] |> else b
  | None => b
  end.

Definition should_retry_dial (peer : PeerId) (b : Behaviour) : bool :=
  match clients b !! peer with
  | Some client => reconnect client && should_schedule_dial client
  | None => false
  end.

Definition schedule_dial_retry_if_needed (peer : PeerId) (b : Behaviour) : Behaviour :=
  if should_retry_dial peer b then schedule_dial_if_needed peer b else b.

Definition schedule_no_addresses_retry_if_needed (peer : PeerId) (b : Behaviour) : Behaviour :=
  if should_retry_dial peer b then b <| no_addresses_retries ::= fun c => {[peer]} ∪ c |> else b.

(** [ready]: the peers whose delay has passed, in the order of the map. *)
Definition poll_no_addresses_retries (ready : list PeerId) (b : Behaviour) : Behaviour :=
  foldl (fun b peer => schedule_dial_retry_if_needed peer
    (b <| no_addresses_retries ::= fun c => c ∖ {[peer]} |>)) b
    (filter (fun peer => peer ∈ no_addresses_retries b) ready).

Definition on_connection_closed (peer : PeerId) (remaining_established : nat) (b : Behaviour) : Behaviour :=
  if (0 <? remaining_established)%nat then b
  else
    b <| clients ::= alter (fun client => release_outbound (client_set_connected false client)) peer |>
      <| server ::= clear_connected peer |>.

Definition on_dial_failure (peer : option PeerId) (error : DialError) (b : Behaviour) : Behaviour :=
  match peer, error with
  | Some peer, Transport => schedule_dial_retry_if_needed peer b
  | Some peer, NoAddresses => schedule_no_addresses_retry_if_needed peer b
  | _, _ => b
  end.

Definition on_connection_handler_event (event : SyncEvent PeerId) (b : Behaviour) : Behaviour :=
  b <| pending_events ::= fun l => l ++ [GenerateEvent event] |>.

(** [poll]: commands, retries, then one event. *)
Definition behaviour_poll (ready : list PeerId) (b : Behaviour) : Behaviour * option (SyncToSwarm PeerId) :=
  let b := (foldl (fun b peer => schedule_dial_if_needed peer b) b (command_rx b)) <| command_rx := [] |> in
  let b := poll_no_addresses_retries ready b in
  match pending_events b with
  | e :: l => (b <| pending_events := l |>, Some e)
  | [] => (b, None)
  end.

(** ** [mod.rs] *)

Definition sync_new (sign_definition_hash : list Z -> res Error (list Z)) (peers : list PeerId)
    (local_peer_id : option PeerId) (hash : list Z) (v : SemVer) : res Error (Behaviour * Server * list Client) :=
  local ← ok_or local_peer_id LocalPeerMissing;
  if decide (local ∉ peers) then Err LocalPeerNotInPeerSet
  else
    sig ← sign_definition_hash hash;
    let remote_peers := filter (fun peer => peer <> local) peers in
    let server := server_new (length remote_peers) hash v in
    let clients := (fun peer => client_new peer sig v) <$> remote_peers in
    Ok (behaviour_new server clients, server, clients).
End sync.
