(* ===== verification/DkgSyncNet.v ===== *)
(** * Ceremonies over the synchronisation protocol

    The main thread of a ceremony ([start_sync_protocol], [SyncRuntime] and the
    order of steps of [run_ceremony] in [crates/dkg/src/dkg.rs]) on top of
    [DkgSync], and a cluster of such nodes connected by streams, some of them
    faulty.  An honest node works on a step only when every honest node has
    finished the one before; when all nodes are honest, no interleaving and no
    broken stream makes a node give up, and the ceremony can always complete.

    One stream per pair is followed, message by message: sending, checking and
    recording a message, the answer, and the end of a shutdown are separate
    steps.  A stream that breaks fails with a reset, and not between the check
    and the record of a message. *)

From stdpp Require Import functions.
From S2P Require Import Prelude Version DkgSync.

(** ** The main thread of a node *)

(** Where the thread is: before [start_sync_protocol], in its loop, in
    [await_all_connected]; in the loop of [next_step] over the clients, in its
    wait, in the work that follows; in [shutdown], before asking the next
    client or waiting for one, and in its last wait. *)
Inductive Phase (PeerId : Type) :=
| NotStarted
| Connecting
| AwaitConnected
| SettingStep (todo : list PeerId)
| AwaitStep
| Working
| ShuttingDown (todo : list PeerId)
| AwaitClient (q : PeerId) (todo : list PeerId)
| AwaitShutdown
| Finished
| Failed (e : SyncError PeerId).
Arguments NotStarted {PeerId}.
Arguments Connecting {PeerId}.
Arguments AwaitConnected {PeerId}.
Arguments SettingStep {PeerId} todo.
Arguments AwaitStep {PeerId}.
Arguments Working {PeerId}.
Arguments ShuttingDown {PeerId} todo.
Arguments AwaitClient {PeerId} q todo.
Arguments AwaitShutdown {PeerId}.
Arguments Finished {PeerId}.
Arguments Failed {PeerId} e.

(** The step is that of [SyncRuntime]. *)
Record Node (PeerId : Type) `{Countable PeerId} := {
  n_server : Server PeerId;
  n_clients : PeerId -> Client PeerId;
  n_step : Z;
  n_phase : Phase PeerId;
}.
Arguments n_server {PeerId _ _} _.
Arguments n_clients {PeerId _ _} _ _.
Arguments n_step {PeerId _ _} _.
Arguments n_phase {PeerId _ _} _.

(** [run_ceremony] calls [next_step] once in [start_sync_protocol] and then
    after the key generation, the deposits, the registrations, the lock hash,
    the node signatures and the files. *)
Definition LAST_STEP : Z := 7.

(** A stream from one peer to another.  [Refused] is a stream whose other end
    has gone: the server was not started or gave up.  An answer on the wire
    leaves the server with the end of a shutdown to do. *)
Inductive Link :=
| Down
| Refused
| Up
| Sent (m : MsgSync)
| Checked (m : MsgSync) (r : MsgSyncResponse)
| Answered (m : MsgSync) (r : MsgSyncResponse)
| Acked
| Recorded (m : MsgSync) (r : MsgSyncResponse)
| Over.

Record Cluster (PeerId : Type) `{Countable PeerId} := {
  nodes : PeerId -> Node PeerId;
  links : PeerId * PeerId -> Link;
}.
Arguments nodes {PeerId _ _} _ _.
Arguments links {PeerId _ _} _ _.

(** What can happen: a step of the main thread, the abort after a failed
    client, the events of the stream from [p] to [q], and what faulty peers
    do, who send any message to an honest one and answer as they like. *)
Inductive Label (PeerId : Type) :=
| LAdvance (p : PeerId)
| LCancel (p q : PeerId)
| LOpen (p q : PeerId)
| LReset (p q : PeerId)
| LSend (p q : PeerId) (now : Z)
| LCheck (p q : PeerId)
| LRecord (p q : PeerId)
| LAck (p q : PeerId)
| LEnd (p q : PeerId)
| LForget (p q : PeerId)
| LInject (p q : PeerId) (m : MsgSync)
| LAnswer (p q : PeerId) (r : MsgSyncResponse).
Arguments LAdvance {PeerId} p.
Arguments LCancel {PeerId} p q.
Arguments LOpen {PeerId} p q.
Arguments LReset {PeerId} p q.
Arguments LSend {PeerId} p q now.
Arguments LCheck {PeerId} p q.
Arguments LRecord {PeerId} p q.
Arguments LAck {PeerId} p q.
Arguments LEnd {PeerId} p q.
Arguments LForget {PeerId} p q.
Arguments LInject {PeerId} p q m.
Arguments LAnswer {PeerId} p q r.

Section net.
Context {PeerId : Type} `{Countable PeerId} (peer_string : PeerId -> string).
Context {PK : Type} (verify : PK -> list Z -> list Z -> bool) (pk_of : PeerId -> PK).
Context (peers : list PeerId) (honest : gset PeerId).
Context (hash : list Z) (v : SemVer) (sign : PeerId -> list Z).

#[local] Abbreviation Node := (Node PeerId).
#[local] Abbreviation Cluster := (Cluster PeerId).
#[local] Abbreviation Client := (Client PeerId).
#[local] Abbreviation Server := (Server PeerId).

Definition remote (p : PeerId) : list PeerId := filter (fun q => q <> p) peers.

(** The client of [p] for [q]. *)
Definition update_client (q : PeerId) (f : Client -> Client) (n : Node) : Node :=
  n <| n_clients ::= fun cs => <[q := f (cs q)]> cs |>.

Definition update_clients (l : list PeerId) (f : Client -> Client) (n : Node) : Node :=
  foldl (fun n q => update_client q f n) n l.

Definition fail (e : SyncError PeerId) (n : Node) : Node := n <| n_phase := Failed e |>.

(** What a wait of the server lets the thread do. *)
Definition after_wait (verdict : option (res (SyncError PeerId) unit)) (continue : Node -> Node) (n : Node) : option Node :=
  match verdict with
  | Some (Ok _) => Some (continue n)
  | Some (Err e) => Some (fail e n)
  | _ => None
  end.

(** The beginning of [next_step]; the step does not overflow before
    [LAST_STEP]. *)
Definition begin_step (p : PeerId) (n : Node) : Node :=
  n <| n_step := n_step n + 1 |> <| n_phase := SettingStep (remote p) |>.

(** One step of the main thread; [None] while it waits. *)
Definition advance (ho : HashOrder) (p : PeerId) (n : Node) : option Node :=
  match n_phase n with
  | NotStarted =>
      Some ((update_clients (remote p) (fun c => fst (fst (activate (c, Some [])))) n)
              <| n_server ::= start |> <| n_phase := Connecting |>)
  | Connecting =>
      match err (n_server n) with
      | Some e => Some (fail e n)
      | None =>
          if forallb (fun q => is_connected (n_clients n q)) (remote p)
          then Some ((update_clients (remote p) disable_reconnect n) <| n_phase := AwaitConnected |>)
          else None
      end
  | AwaitConnected => after_wait (await_all_connected (n_server n)) (begin_step p) n
  | SettingStep (q :: todo) => Some ((update_client q (set_step (n_step n)) n) <| n_phase := SettingStep todo |>)
  | SettingStep [] => Some (n <| n_phase := AwaitStep |>)
  | AwaitStep => after_wait (await_all_at_step ho (n_step n) (n_server n)) (fun n => n <| n_phase := Working |>) n
  | Working =>
      Some (if n_step n <? LAST_STEP then begin_step p n else n <| n_phase := ShuttingDown (remote p) |>)
  | ShuttingDown (q :: todo) => Some ((update_client q request_shutdown n) <| n_phase := AwaitClient q todo |>)
  | ShuttingDown [] => Some (n <| n_phase := AwaitShutdown |>)
  | AwaitClient q todo =>
      after_wait (snd (wait_finished false false (n_clients n q))) (fun n => n <| n_phase := ShuttingDown todo |>) n
  | AwaitShutdown => after_wait (await_all_shutdown (n_server n)) (fun n => n <| n_phase := Finished |>) n
  | Finished | Failed _ => None
  end.

(** ** Streams *)

Definition set_node (p : PeerId) (f : Node -> Node) (C : Cluster) : Cluster :=
  C <| nodes ::= fun ns => <[p := f (ns p)]> ns |>.

Definition set_link (p q : PeerId) (l : Link) (C : Cluster) : Cluster :=
  C <| links ::= fun ls => <[(p, q) := l]> ls |>.

Definition on_client (p q : PeerId) (f : Client -> Client) : Cluster -> Cluster := set_node p (update_client q f).
Definition on_server (q : PeerId) (f : Server -> Server) : Cluster -> Cluster := set_node q (fun n => n <| n_server ::= f |>).

(** The end of an outbound loop, on the client. *)
Definition exit_client (exit : OutboundExit PeerId) (c : Client) : Client :=
  default c (snd (on_outbound_exit exit (handler_new, Some c))).

Definition reset_exit : OutboundExit PeerId := Reconnectable (Io "connection reset") true.

Definition client_of (C : Cluster) (p q : PeerId) : Client := n_clients (nodes C p) q.
Definition server_of (C : Cluster) (p : PeerId) : Server := n_server (nodes C p).

(** The client takes the answer to [m]; [over] is the link after a shutdown. *)
Definition take_answer (p q : PeerId) (m : MsgSync) (r : MsgSyncResponse) (over : Link) (C : Cluster) : Cluster :=
  match fst (outbound_response (client_of C p q) m (inl r)) with
  | None => set_link p q Up C
  | Some exit =>
      set_link p q (if msg_shutdown m then over else Over) (on_client p q (exit_client exit) C)
  end.

Definition apply_label (ho : HashOrder) (l : Label PeerId) (C : Cluster) : option Cluster :=
  match l with
  | LAdvance p =>
      if decide (p ∈ honest) then
        n ← advance ho p (nodes C p); Some (set_node p (fun _ => n) C)
      else None
  | LCancel p q =>
      match done_result (client_of C p q) with
      | Some (Err e) => if decide (p ∈ honest) then Some (set_node p (fail Canceled) C) else None
      | _ => None
      end
  | LOpen p q =>
      match links C (p, q) with
      | Down =>
          if decide (p ∈ honest /\ active (client_of C p q) = true /\ outbound_claimed (client_of C p q) = false)
          then Some (set_link p q (if decide (q ∈ honest /\ started (server_of C q) = false) then Refused else Up)
                 (on_client p q (fun c => outbound_start (fst (try_claim_outbound c))) C))
          else None
      | _ => None
      end
  | LReset p q =>
      match links C (p, q) with
      | Refused | Up | Sent _ | Answered _ _ | Recorded _ _ =>
          if decide (p ∈ honest) then
            Some (set_link p q Down (on_server q (clear_connected p) (on_client p q (exit_client reset_exit) C)))
          else None
      | _ => None
      end
  | LSend p q now =>
      match links C (p, q) with
      | Up =>
          if decide (p ∈ honest /\ stop (client_of C p q) = false)
          then Some (set_link p q (Sent (outbound_request now (client_of C p q))) C)
          else None
      | _ => None
      end
  | LCheck p q =>
      match links C (p, q) with
      | Sent m =>
          if decide (q ∈ honest) then
            let '(s, r, _) := inbound_validate peer_string verify p (pk_of p) m (server_of C q) in
            Some (set_link p q (Checked m r) (on_server q (fun _ => s) C))
          else None
      | _ => None
      end
  | LRecord p q =>
      match links C (p, q) with
      | Checked m r =>
          match inbound_step p m (server_of C q) with
          | (s, Ok _) => Some (set_link p q (Answered m r) (on_server q (fun _ => s) C))
          | (s, _) => Some (set_link p q Refused (on_server q (fun _ => clear_connected p s) C))
          end
      | _ => None
      end
  | LAck p q =>
      if decide (p ∈ honest) then
        match links C (p, q) with
        | Answered m r => Some (take_answer p q m r Acked C)
        | Recorded m r => Some (take_answer p q m r Over C)
        | _ => None
        end
      else None
  | LEnd p q =>
      if decide (q ∈ honest) then
        match links C (p, q) with
        | Answered m r =>
            if msg_shutdown m
            then Some (set_link p q (Recorded m r) (on_server q (fun s => clear_connected p (set_shutdown p s)) C))
            else None
        | Acked => Some (set_link p q Over (on_server q (fun s => clear_connected p (set_shutdown p s)) C))
        | _ => None
        end
      else None
  | LForget p q => if decide (q ∈ honest) then Some (on_server q (clear_connected p) C) else None
  | LInject p q m =>
      match links C (p, q) with
      | Checked _ _ => None
      | _ =>
          if decide (p ∉ honest /\ q ∈ honest /\ started (server_of C q) = true) then Some (set_link p q (Sent m) C)
          else None
      end
  | LAnswer p q r =>
      match links C (p, q) with
      | Sent m => if decide (q ∉ honest) then Some (set_link p q (Answered m r) C) else None
      | _ => None
      end
  end.

(** Both ends of a label are different peers. *)
Definition label_ok (l : Label PeerId) : Prop :=
  match l with
  | LAdvance p => p ∈ peers
  | LCancel p q | LOpen p q | LReset p q | LSend p q _ | LCheck p q | LRecord p q | LAck p q | LEnd p q
  | LForget p q | LInject p q _ | LAnswer p q _ => p ∈ peers /\ q ∈ peers /\ p <> q
  end.
#[global] Instance label_ok_dec l : Decision (label_ok l).
Proof. destruct l; apply _. Defined.

Definition net_step (C C' : Cluster) : Prop := exists ho l, label_ok l /\ apply_label ho l C = Some C'.

(** What [sync_new] builds. *)
Definition node_init (p : PeerId) : Node := {|
  n_server := server_new (length (remote p)) hash v;
  n_clients := fun q => client_new q (sign p) v;
  n_step := 0;
  n_phase := NotStarted |}.

Definition cluster_init : Cluster := {| nodes := node_init; links := fun _ => Down |}.

Definition net_reachable : Cluster -> Prop := rtc net_step cluster_init.

(** Evaluation of a run. *)
Fixpoint run_labels (ho : HashOrder) (ls : list (Label PeerId)) (C : Cluster) : option Cluster :=
  match ls with
  | [] => Some C
  | l :: ls => if decide (label_ok l) then C ← apply_label ho l C; run_labels ho ls C else None
  end.
End net.
