(* ===== verification/DkgSyncFacts.v ===== *)
(** * The server and the connections of the synchronisation protocol

    What the waits of the server mean and that no change is missed by them;
    that one connection at most carries the stream of a client, and how the
    claim on it is lost. *)

From S2P Require Import Prelude Version DkgSync.

(** ** The server *)

Section server.
Context {PeerId : Type} `{Countable PeerId}.
#[local] Abbreviation Server := (Server PeerId).

Lemma scan_steps_spec n l (ok : bool) :
  scan_steps (PeerId := PeerId) n (n + 1) (n + 2) l ok =
  if existsb (fun k => n + 2 <=? k) l then Err PeerStepTooFarAhead
  else Ok (ok && forallb (fun k => (k =? n) || (k =? n + 1)) l).
Proof.
  revert ok. induction l as [|k l IH]; intros ok; cbn; [by rewrite andb_true_r|].
  destruct (n + 2 <=? k); cbn; [done|]. rewrite IH.
  destruct (existsb _ l); [done|]. f_equal. by destruct (k =? n), (k =? n + 1), ok; cbn.
Qed.

(** A step barrier opens exactly when every expected peer is at the step or
    one ahead, whatever the order of the map. *)
Lemma await_step_ok ho n (s : Server) :
  await_all_at_step ho n s = Some (Ok tt) <->
  I64_MIN <= n + 1 /\ n + 2 <= I64_MAX /\ err s = None /\ size (steps s) = all_count s /\
  forall q k, steps s !! q = Some k -> k = n \/ k = n + 1.
Proof.
  unfold await_all_at_step, checked_add_i64.
  destruct (guard_i64 (n + 1)) as [n1|] eqn:E1; [|split; [done|]; intros (? & ? & _);
    rewrite guard_i64_in in E1 by lia; done].
  destruct (guard_i64 (n + 2)) as [n2|] eqn:E2; [|split; [done|]; intros (? & ? & _);
    rewrite guard_i64_in in E2 by lia; done].
  apply guard_i64_Some in E1 as [-> ?], E2 as [-> ?].
  destruct (err s); [naive_solver|]. case_decide as Hs; [|naive_solver].
  rewrite scan_steps_spec. destruct (existsb _ _) eqn:Ee.
  - apply existsb_exists in Ee as (k & Hk%list_elem_of_In%elem_of_map_values & Hle). zbool.
    destruct Hk as [q Hq]. split; [done|]. intros (_ & _ & _ & _ & Hall). apply Hall in Hq. lia.
  - rewrite andb_true_l. destruct (forallb _ _) eqn:Ef; cbn.
    + split; [|done]. intros _. do 4 (split; [first [done | lia]|]). intros q k Hq.
      rewrite forallb_forall in Ef. specialize (Ef k).
      assert (In k (map_values ho (steps s))) as Hin by (apply list_elem_of_In, elem_of_map_values; eauto).
      apply Ef, orb_true_iff in Hin as [?|?]; zbool; lia.
    + split; [done|]. intros (_ & _ & _ & _ & Hall). apply not_true_iff_false in Ef. destruct Ef.
      apply forallb_forall. intros k Hk%list_elem_of_In%elem_of_map_values. destruct Hk as [q Hq].
      apply orb_true_iff. rewrite !Z.eqb_eq. by eapply Hall.
Qed.

(** It fails on its own only when a peer is two steps ahead. *)
Lemma await_step_err ho n (s : Server) e :
  await_all_at_step ho n s = Some (Err e) -> n + 2 <= I64_MAX -> I64_MIN <= n -> err s = None ->
  exists q k, steps s !! q = Some k /\ n + 2 <= k.
Proof.
  unfold await_all_at_step, checked_add_i64. intros Ha ? ? Herr.
  rewrite !guard_i64_in, Herr in Ha by lia. case_decide; [|done]. rewrite scan_steps_spec in Ha.
  destruct (existsb _ _) eqn:Ee; [|by destruct (_ && _)].
  apply existsb_exists in Ee as (k & [q Hq]%list_elem_of_In%elem_of_map_values & Hle). zbool. eauto.
Qed.

Lemma await_step_no_panic ho n (s : Server) : await_all_at_step ho n s <> Some Panic.
Proof.
  unfold await_all_at_step. repeat case_match; try done.
  intros _. revert select (scan_steps _ _ _ _ _ = Panic). generalize true.
  induction (map_values ho (steps s)) as [|k l IH]; intros b; cbn; [done|]. case_match; [done|apply IH].
Qed.

(** [update_step], outcome by outcome. *)
Lemma update_step_ok p n (s s' : Server) b :
  update_step p n s = (s', Ok b) ->
  steps s' = <[p := n]> (steps s) /\ connected s' = connected s /\ shutdown s' = shutdown s /\ err s' = err s /\
  started s' = started s /\ all_count s' = all_count s /\ def_hash s' = def_hash s /\ version s' = version s.
Proof.
  unfold update_step. proc_simp. destruct (steps s !! p) as [k|] eqn:Ek.
  - case_match; [done|]. unfold mbind, proc_bind, p_lift, p_modify, p_fail, mret, proc_ret.
    destruct (ok_or _ _) as [k2|e|]; [|done..]. case_match; [done|]. case_match; intros [= <- <-]; [|done].
    zbool. subst. by rewrite insert_id.
  - case_match; [done|]. by intros [= <- <-].
Qed.

Lemma update_step_err p n (s s' : Server) e :
  update_step p n s = (s', Err e) ->
  s' = s /\
  match steps s !! p with
  | Some k => n < k \/ k + 2 < n \/ ~ (I64_MIN <= k + 2 <= I64_MAX)
  | None => ~ (0 <= n <= 1)
  end.
Proof.
  unfold update_step. proc_simp. destruct (steps s !! p) as [k|] eqn:Ek.
  - case_match; zbool; [intros [= <- <-]; auto|]. unfold mbind, proc_bind, p_lift, p_modify, p_fail, mret, proc_ret.
    unfold checked_add_i64. destruct (guard_i64 (k + 2)) as [k2|] eqn:E; cbn.
    + apply guard_i64_Some in E as [-> ?]. case_match; zbool; [intros [= <- <-]; auto|]. by case_match.
    + intros [= <- <-]. split; [done|]. right; right. intros Hk. by rewrite guard_i64_in in E.
  - case_match eqn:E; zbool; [|done]. intros [= <- <-]. split; [done|]. intros [??].
    apply andb_false_iff in E as [?|?]; zbool; lia.
Qed.

Lemma update_step_no_panic p n (s : Server) : snd (update_step p n s) <> Panic.
Proof.
  unfold update_step. proc_simp. unfold mbind, proc_bind, p_lift, p_modify, p_fail, mret, proc_ret.
  repeat (case_match; cbn; try done); unfold ok_or in *; by repeat case_match; simplify_eq.
Qed.

Inductive server_op :=
| OpStart
| OpSetConnected (p : PeerId)
| OpClearConnected (p : PeerId)
| OpSetShutdown (p : PeerId)
| OpSetErr (e : SyncError PeerId)
| OpUpdateStep (p : PeerId) (n : Z).

Definition run_op (op : server_op) (s : Server) : Server :=
  match op with
  | OpStart => start s
  | OpSetConnected p => set_connected p s
  | OpClearConnected p => clear_connected p s
  | OpSetShutdown p => set_shutdown p s
  | OpSetErr e => set_err e s
  | OpUpdateStep p n => fst (update_step p n s)
  end.

(** Every operation notifies the waiting tasks or leaves the server as it
    was: no wake-up is lost. *)
Theorem changes_notify op (s : Server) : notify (run_op op s) = S (notify s) \/ run_op op s = s.
Proof.
  destruct op; cbn; unfold set_connected, clear_connected, set_err, update_step; try (by left);
    repeat first [case_decide | progress proc_simp | case_match]; cbn; auto;
    unfold mbind, proc_bind, p_lift, p_modify, p_fail, mret, proc_ret; cbn;
    repeat case_match; cbn; simplify_eq/=; auto.
Qed.
End server.

(** ** The connections of a client

    Several connections to one peer share its client; each has a handler.  The
    steps are what libp2p does with them: it opens and closes connections,
    polls handlers, negotiates the streams they ask for or fails to. *)

Section connections.
Context {PeerId : Type} `{Countable PeerId}.
#[local] Abbreviation Client := (Client PeerId).

Record Conns := { client : Client; handlers : gmap nat Handler }.

(** A handler that has the stream or has asked for it. *)
Definition owner (h : Handler) : Prop := outbound h = OpenStream \/ outbound h = Running.

Definition put (id : nat) (x : Handler * option Client) (s : Conns) : Conns :=
  {| client := default (client s) (snd x); handlers := <[id := fst x]> (handlers s) |}.

(** [ConnectionClosed], as [on_connection_closed] treats the client. *)
Definition closed (id : nat) (s : Conns) : Conns :=
  let rest := delete id (handlers s) in
  {| client := if decide (rest = ∅) then release_outbound (client_set_connected false (client s)) else client s;
     handlers := rest |}.

(** What the rest of the program does to a client: it does not touch the
    claim. *)
Inductive client_step (c : Client) : Client -> Prop :=
| cs_activate ch : client_step c (fst (fst (activate (c, ch))))
| cs_set_step n : client_step c (set_step n c)
| cs_shutdown : client_step c (request_shutdown c)
| cs_disable : client_step c (disable_reconnect c)
| cs_stop : client_step c (request_stop c)
| cs_start : client_step c (outbound_start c).

Inductive conn_step (s : Conns) : Conns -> Prop :=
| conn_open id : handlers s !! id = None -> conn_step s {| client := client s; handlers := <[id := handler_new]> (handlers s) |}
| conn_poll id h event inbound_done delay_over exit : handlers s !! id = Some h ->
    conn_step s (put id (fst (handler_poll event inbound_done delay_over exit (h, Some (client s)))) s)
| conn_inbound id h : handlers s !! id = Some h ->
    conn_step s (put id (on_inbound_negotiated h, Some (client s)) s)
| conn_outbound id h : handlers s !! id = Some h -> outbound h = OpenStream ->
    conn_step s (put id (on_outbound_negotiated (h, Some (client s))) s)
| conn_dial_error id h error : handlers s !! id = Some h -> outbound h = OpenStream ->
    conn_step s (put id (on_dial_upgrade_error error (h, Some (client s))) s)
| conn_client c : client_step (client s) c -> conn_step s {| client := c; handlers := handlers s |}
| conn_close id h : handlers s !! id = Some h -> conn_step s (closed id s).

Definition conns_init (p : PeerId) (sig : list Z) (v : SemVer) : Conns := {| client := client_new p sig v; handlers := ∅ |}.

(** Owners are unique and hold the claim. *)
Definition claim_ok (s : Conns) : Prop :=
  (forall id h, handlers s !! id = Some h -> owner h -> outbound_claimed (client s) = true) /\
  (forall id id' h h', handlers s !! id = Some h -> handlers s !! id' = Some h' -> owner h -> owner h' -> id = id').

Lemma client_step_claim c c' : client_step c c' -> outbound_claimed c' = outbound_claimed c.
Proof. intros []; cbn; try done. unfold activate. proc_simp. by destruct ch. Qed.

(** What an operation may do to the handler and the claim: keep both; take a
    free claim; or give it up. *)
Definition claim_move (h : Handler) (c : Client) (h' : Handler) (c' : Client) : Prop :=
  (outbound_claimed c' = outbound_claimed c /\ (owner h' -> owner h)) \/
  (outbound_claimed c = false /\ outbound_claimed c' = true) \/
  (owner h /\ ~ owner h' /\ outbound_claimed c' = false).

Lemma claim_ok_put s id h h' c' :
  claim_ok s -> handlers s !! id = Some h -> claim_move h (client s) h' c' -> claim_ok (put id (h', Some c') s).
Proof.
  intros [Hc Hu] Hid Hm. unfold put; split; cbn.
  - intros i x [[<- <-]|[Hne Hx]]%lookup_insert_Some Ho.
    + destruct Hm as [[-> Hm]|[[_ ->]|(_ & ? & _)]]; [by eapply Hc; eauto|done..].
    + pose proof (Hc _ _ Hx Ho). destruct Hm as [[-> _]|[[? _]|(Hh & _)]]; [done|congruence|].
      destruct Hne. by eapply Hu.
  - intros i j x y [[<- <-]|[Hne Hx]]%lookup_insert_Some [[<- <-]|[Hne' Hy]]%lookup_insert_Some Hox Hoy;
      [done| | |by eapply Hu];
      (destruct Hm as [[_ Hm]|[[? _]|(_ & ? & _)]];
        [eapply Hu; eauto|exfalso; pose proof (Hc _ _ ltac:(eassumption) ltac:(eassumption)); congruence|done]).
Qed.

Lemma not_owner (h : Handler) o : o <> OpenStream -> o <> Running -> outbound h = o -> ~ owner h.
Proof. intros ? ? <- [?|?]; done. Qed.

Lemma try_request_move h (c : Client) :
  ~ owner h ->
  exists h' c' r, try_request_outbound (h, Some c) = ((h', Some c'), r) /\ claim_move h c h' c' /\ (r <> Requested -> h' = h).
Proof.
  intros Hh. unfold try_request_outbound, try_claim_outbound. destruct (active c); cbn.
  - destruct (outbound_claimed c) eqn:E; cbn; eexists _, _, _; (split; [done|]); split; try done.
    + by left.
    + right; left. by split.
  - eexists _, _, _. split; [done|]. split; [by left|done].
Qed.

Lemma retry_not_owner h : ~ owner (schedule_retry h).
Proof. by intros [?|?]. Qed.

Lemma claim_move_keep h (c : Client) h' : (owner h' -> owner h) -> claim_move h c h' c.
Proof. by left. Qed.

Lemma finish_claimed r (c : Client) : outbound_claimed (finish r c) = false.
Proof. unfold finish. by destruct (finished c). Qed.

Lemma exit_move exit h (c : Client) :
  owner h -> exists h' c', on_outbound_exit exit (h, Some c) = (h', Some c') /\ claim_move h c h' c'.
Proof.
  intros Hh. destruct exit; cbn; try case_match; eexists _, _; (split; [done|]); right; right;
    (split; [done|]); (split; [by intros [?|?]|]); by rewrite ?finish_claimed.
Qed.

Lemma poll_move event d1 d2 exit h (c : Client) :
  exists h' c', fst (handler_poll event d1 d2 exit (h, Some c)) = (h', Some c') /\ claim_move h c h' c'.
Proof.
  unfold handler_poll. destruct event; cbn [fst]; [eexists _, _; split; [done|]; by left|].
  set (h1 := if d1 then h <| inbound := false |> else h).
  assert (outbound h1 = outbound h) as Ho by (by destruct d1).
  assert (forall h' c', claim_move h1 c h' c' -> claim_move h c h' c') as Hmove.
  { intros h' c'. unfold claim_move, owner. by rewrite Ho. }
  destruct (outbound h1) eqn:E.
  1,4: assert (~ owner h1) as Hn by (intros [?|?]; congruence);
    destruct (try_request_move h1 c Hn) as (h' & c' & r & Hr & Hm & Hsame); unfold poll_idle_outbound.
  - rewrite Hr. destruct r; cbn; eexists _, _; (split; [done|]); apply Hmove; [done| |done].
    rewrite Hsame in Hm by done. (destruct Hm as [[? _]|[?|[? _]]]; [|by right; left|done]). left.
    split; [done|]. by intros [?|?].
  - destruct d2; [|eexists _, _; split; [done|]; apply Hmove; by left]. rewrite Hr.
    destruct r; cbn; eexists _, _; (split; [done|]); apply Hmove; [done| |];
    rewrite Hsame in Hm by done; (destruct Hm as [[? _]|[?|[? _]]]; [|by right; left|done]); left;
      (split; [done|]); by intros [?|?].
  - eexists _, _. split; [done|]. apply Hmove. by left.
  - destruct exit as [exit|]; cbn; [|eexists _, _; split; [done|]; apply Hmove; by left].
    destruct (exit_move exit h1 c) as (h' & c' & -> & Hm); [by right|].
    exists h', c'. split; [done|]. by apply Hmove.
  - eexists _, _. split; [done|]. apply Hmove. by left.
Qed.

Lemma dial_error_move error h (c : Client) :
  owner h -> exists h' c', on_dial_upgrade_error error (h, Some c) = (h', Some c') /\ claim_move h c h' c'.
Proof.
  intros Hh. destruct error; cbn; try case_match; eexists _, _; (split; [done|]); right; right;
    (split; [done|]); (split; [by intros [?|?]|]); by rewrite ?finish_claimed.
Qed.

Lemma claim_ok_step s s' : claim_ok s -> conn_step s s' -> claim_ok s'.
Proof.
  intros Hok Hs. destruct Hs as [id Hn|id h event d1 d2 exit Hh|id h Hh|id h Hh Ho|id h error Hh Ho|c Hc|id h Hh].
  - destruct Hok as [Hc Hu]. split; cbn.
    + intros i x [[<- <-]|[Hne Hx]]%lookup_insert_Some Ho; [by destruct Ho|]. by eapply Hc.
    + intros i j x y [[<- <-]|[Hne Hx]]%lookup_insert_Some [[<- <-]|[Hne' Hy]]%lookup_insert_Some Hox Hoy;
        [done|by destruct Hox|by destruct Hoy|by eapply Hu].
  - destruct (poll_move event d1 d2 exit h (client s)) as (h' & c' & -> & Hm). by eapply claim_ok_put.
  - eapply claim_ok_put; [done..|]. apply claim_move_keep. unfold on_inbound_negotiated. by destruct (inbound h).
  - eapply claim_ok_put; [done..|]. apply claim_move_keep. intros _. by left.
  - destruct (dial_error_move error h (client s)) as (h' & c' & -> & Hm); [by left|]. by eapply claim_ok_put.
  - destruct Hok as [Hcl Hu]. split; cbn; [|done]. intros i x. rewrite (client_step_claim _ _ Hc). apply Hcl.
  - destruct Hok as [Hcl Hu]. unfold closed. split; cbn.
    + intros i x Hx. rewrite decide_False; [|by intros Hem; rewrite Hem in Hx].
      apply lookup_delete_Some in Hx as [_ Hx]. by eapply Hcl.
    + intros i j x y [_ Hx]%lookup_delete_Some [_ Hy]%lookup_delete_Some. by apply Hu.
Qed.

(** At most one connection runs, or has asked for, the stream of a client. *)
Theorem one_outbound_stream p sig v s id id' h h' :
  rtc conn_step (conns_init p sig v) s ->
  handlers s !! id = Some h -> handlers s !! id' = Some h' -> owner h -> owner h' -> id = id'.
Proof.
  intros Hr. assert (claim_ok s) as [_ Hu]; [|by apply Hu].
  assert (claim_ok (conns_init p sig v)) as Hi by (split; by intros).
  revert Hi. induction Hr as [s|s s1 s2 Hs _ IH]; [done|]. intros Hi. apply IH. by eapply claim_ok_step.
Qed.

(** A claim that nobody holds: some connection is open, the client is active
    and no handler has its stream. *)
Definition orphaned (s : Conns) : Prop :=
  outbound_claimed (client s) = true /\ handlers s <> ∅ /\
  forall id h, handlers s !! id = Some h -> ~ owner h.

(** Such a claim stays, and no stream is asked for, until the last connection
    is closed. *)
Lemma orphaned_step s s' : orphaned s -> conn_step s s' -> handlers s' <> ∅ -> orphaned s'.
Proof.
  intros (Hcl & Hne & Hno) Hs Hne'.
  assert (forall id h h' c', handlers s !! id = Some h -> claim_move h (client s) h' c' ->
    orphaned (put id (h', Some c') s)) as Hput.
  { intros id h h' c' Hh Hm. destruct Hm as [[Hc Ho]|[[? _]|[? _]]]; [|congruence|by destruct (Hno _ _ Hh)].
    split; [by cbn; rewrite Hc|]. split; [apply insert_non_empty|]. cbn.
    intros i x [[<- <-]|[? Hx]]%lookup_insert_Some; [|by eapply Hno]. intros ?%Ho. by eapply Hno. }
  destruct Hs as [id Hn|id h event d1 d2 exit Hh|id h Hh|id h Hh Ho|id h error Hh Ho|c Hc|id h Hh].
  - split; [done|]. split; [apply insert_non_empty|]. cbn.
    intros i x [[<- <-]|[? Hx]]%lookup_insert_Some; [by intros [?|?]|by eapply Hno].
  - destruct (poll_move event d1 d2 exit h (client s)) as (h' & c' & -> & Hm). by eapply Hput.
  - eapply Hput; [done|]. apply claim_move_keep. unfold on_inbound_negotiated. by destruct (inbound h).
  - destruct (Hno _ _ Hh). by left.
  - destruct (Hno _ _ Hh). by left.
  - split; [|done]. cbn. by rewrite (client_step_claim _ _ Hc).
  - unfold closed in *; cbn in *. rewrite decide_False by done. split; [done|]. split; [done|].
    cbn. intros i x [_ Hx]%lookup_delete_Some. by eapply Hno.
Qed.

(** Steps that leave a connection open. *)
Definition open_step (s s' : Conns) : Prop := conn_step s s' /\ handlers s' <> ∅.

Lemma orphaned_stays s s' : orphaned s -> rtc open_step s s' -> orphaned s'.
Proof. intros Ho Hr. induction Hr as [|s s1 s2 [Hs Hne] _ IH]; [done|]. apply IH. by eapply orphaned_step. Qed.

(** When the connection that runs the stream closes and another one stays
    open, the claim is lost: the client is active and counts as connected, and
    for as long as a connection is open no stream is opened for it again. *)
Theorem claim_lost p sig v :
  exists s, rtc conn_step (conns_init p sig v) s /\ active (client s) = true /\ is_connected (client s) = true /\
    finished (client s) = false /\ orphaned s /\
    forall s', rtc open_step s s' -> forall id h, handlers s' !! id = Some h -> outbound h <> OpenStream /\ outbound h <> Running.
Proof.
  set (c0 := client_new p sig v). set (c1 := c0 <| active := true |>).
  set (c2 := (c1 : Client) <| outbound_claimed := true |>).
  set (c3 := (c2 : Client) <| is_connected := true |>).
  set (h1 := (handler_new <| outbound := OpenStream |>)).
  set (h2 := (handler_new <| outbound := Running |>)).
  exists {| client := c3; handlers := {[2%nat := handler_new]} |}.
  assert (orphaned {| client := c3; handlers := {[2%nat := handler_new]} |}) as Hor.
  { split; [done|]. split; [by apply map_non_empty_singleton|]. cbn.
    intros i x [<- <-]%lookup_singleton_Some. by intros [?|?]. }
  split; [|do 4 (split; [done|]); intros s' Hr id h Hh;
    destruct (orphaned_stays _ _ Hor Hr) as (_ & _ & Hno); specialize (Hno _ _ Hh); split; intros ?; apply Hno; by constructor].
  apply (rtc_l _ _ {| client := c1; handlers := ∅ |}).
  { apply (conn_client (conns_init p sig v)), (cs_activate c0 (Some [])). }
  apply (rtc_l _ _ {| client := c1; handlers := {[1%nat := handler_new]} |}).
  { by apply (conn_open {| client := c1; handlers := ∅ |} 1). }
  apply (rtc_l _ _ {| client := c2; handlers := {[1%nat := h1]} |}).
  { pose proof (conn_poll {| client := c1; handlers := {[1%nat := handler_new]} |} 1 handler_new None false false None
      eq_refl) as Hp.
    unfold put in Hp; cbn in Hp. by rewrite insert_singleton in Hp. }
  apply (rtc_l _ _ {| client := c2; handlers := {[1%nat := h2]} |}).
  { pose proof (conn_outbound {| client := c2; handlers := {[1%nat := h1]} |} 1 h1
      eq_refl eq_refl) as Hp.
    unfold put in Hp; cbn in Hp. by rewrite insert_singleton in Hp. }
  apply (rtc_l _ _ {| client := c3; handlers := {[1%nat := h2]} |}).
  { apply (conn_client {| client := c2; handlers := _ |}), cs_start. }
  apply (rtc_l _ _ {| client := c3; handlers := <[2%nat := handler_new]> ({[1%nat := h2]} : gmap nat Handler) |}).
  { exact (conn_open {| client := c3; handlers := {[1%nat := h2]} |} 2 eq_refl). }
  apply rtc_once.
  pose proof (conn_close {| client := c3; handlers := <[2%nat := handler_new]> ({[1%nat := h2]} : gmap nat Handler) |} 1 h2
    eq_refl) as Hp.
  unfold closed in Hp; cbn in Hp.
  replace (delete 1%nat (<[2%nat := handler_new]> {[1%nat := h2]} : gmap nat Handler)) with
    ({[2%nat := handler_new]} : gmap nat Handler) in Hp; [|by vm_compute].
  by rewrite decide_False in Hp by apply map_non_empty_singleton.
Qed.
End connections.
