(* ===== verification/DkgSyncCluster.v ===== *)
(** * The synchronisation protocol keeps the nodes in step

    Invariants of [DkgSyncNet]: an honest node works on a step only after every
    honest node has finished the one before, whatever the others send; among
    honest nodes the checks of the server never fail; and from every state a
    cluster of honest nodes reaches, whatever was lost or delayed on the way,
    some run takes every node through all steps and the shutdown. *)

From stdpp Require Import functions.
From S2P Require Import Prelude Version DkgSync DkgSyncNet DkgSyncFacts.

Section cluster.
Context {PeerId : Type} `{Countable PeerId} (peer_string : PeerId -> string).
Context {PK : Type} (verify : PK -> list Z -> list Z -> bool) (pk_of : PeerId -> PK).
Context (peers : list PeerId) (honest : gset PeerId).
Context (hash : list Z) (v : SemVer) (sign : PeerId -> list Z).
Context (peers_distinct : NoDup peers).

#[local] Abbreviation Node := (Node PeerId).
#[local] Abbreviation Cluster := (Cluster PeerId).
#[local] Abbreviation Client := (Client PeerId).
#[local] Abbreviation Server := (Server PeerId).
#[local] Abbreviation remote := (remote peers).
#[local] Abbreviation advance := (advance peers).
#[local] Abbreviation apply_label := (apply_label peer_string verify pk_of peers honest).
#[local] Abbreviation net_step := (net_step peer_string verify pk_of peers honest).
#[local] Abbreviation cluster_init := (cluster_init peers hash v sign).
#[local] Abbreviation net_reachable := (net_reachable peer_string verify pk_of peers honest hash v sign).

Definition step_of (C : Cluster) (p : PeerId) : Z := n_step (nodes C p).
Definition phase_of (C : Cluster) (p : PeerId) : Phase PeerId := n_phase (nodes C p).

(** ** Reading an updated cluster *)

Lemma client_of_on_client p q f (C : Cluster) p' q' :
  client_of (on_client p q f C) p' q' =
  if decide (p' = p /\ q' = q) then f (client_of C p q) else client_of C p' q'.
Proof.
  unfold client_of, on_client, set_node, update_client; cbn. destruct (decide (p' = p)) as [->|Hp].
  - rewrite fn_lookup_insert; cbn. destruct (decide (q' = q)) as [->|Hq].
    + rewrite fn_lookup_insert. by rewrite decide_True.
    + rewrite fn_lookup_insert_ne by done. by rewrite decide_False by naive_solver.
  - rewrite fn_lookup_insert_ne by done. by rewrite decide_False by naive_solver.
Qed.

Lemma node_of_set_node p f (C : Cluster) q :
  nodes (set_node p f C) q = if decide (q = p) then f (nodes C p) else nodes C q.
Proof.
  unfold set_node; cbn. case_decide as Hd; [subst; by rewrite fn_lookup_insert|by rewrite fn_lookup_insert_ne].
Qed.

Lemma node_of_on_client p q f (C : Cluster) x :
  server_of (on_client p q f C) x = server_of C x /\
  step_of (on_client p q f C) x = step_of C x /\ phase_of (on_client p q f C) x = phase_of C x.
Proof.
  unfold server_of, step_of, phase_of, on_client. rewrite node_of_set_node. by case_decide; subst.
Qed.

Lemma node_of_on_server p f (C : Cluster) x y :
  client_of (on_server p f C) x y = client_of C x y /\
  step_of (on_server p f C) x = step_of C x /\ phase_of (on_server p f C) x = phase_of C x.
Proof.
  unfold client_of, step_of, phase_of, on_server. rewrite node_of_set_node. by case_decide; subst.
Qed.

Lemma server_of_on_server p f (C : Cluster) x :
  server_of (on_server p f C) x = if decide (x = p) then f (server_of C p) else server_of C x.
Proof. unfold server_of, on_server. rewrite node_of_set_node. by case_decide; subst. Qed.

Lemma link_of_set_link p q l (C : Cluster) x :
  links (set_link p q l C) x = if decide (x = (p, q)) then l else links C x.
Proof.
  unfold set_link; cbn. case_decide as Hd; [subst; by rewrite fn_lookup_insert|by rewrite fn_lookup_insert_ne].
Qed.

Lemma clients_updated l f (n : Node) q :
  NoDup l -> n_clients (update_clients l f n) q = if decide (q ∈ l) then f (n_clients n q) else n_clients n q.
Proof.
  intros Hl. revert n. induction Hl as [|x l Hx Hl IH]; intros n; cbn; [by rewrite decide_False by apply not_elem_of_nil|].
  unfold update_clients in IH. rewrite IH. unfold update_client; cbn. destruct (decide (q = x)) as [->|Hne].
  - rewrite fn_lookup_insert. rewrite decide_False by done. by rewrite decide_True by constructor.
  - rewrite fn_lookup_insert_ne by done. destruct (decide (q ∈ l)).
    + by rewrite decide_True by by constructor.
    + rewrite decide_False; [done|]. rewrite elem_of_cons. naive_solver.
Qed.

Lemma rest_updated l f (n : Node) :
  n_server (update_clients l f n) = n_server n /\ n_step (update_clients l f n) = n_step n /\
  n_phase (update_clients l f n) = n_phase n.
Proof. unfold update_clients. revert n. induction l as [|x l IH]; intros n; [done|]. cbn. apply (IH (update_client x f n)). Qed.

Lemma remote_NoDup p : NoDup (remote p).
Proof. by apply NoDup_filter. Qed.

Lemma elem_of_remote p q : q ∈ remote p <-> q <> p /\ q ∈ peers.
Proof. unfold DkgSyncNet.remote. rewrite list_elem_of_filter. done. Qed.

(** ** Steps, stream by stream

    A step is one of the main thread, or changes the client, the server and
    the link of one stream. *)

Inductive stream_step (p q : PeerId) (c : Client) (s : Server) : Link -> Client -> Server -> Link -> Prop :=
| st_open : p ∈ honest -> active c = true -> outbound_claimed c = false ->
    stream_step p q c s Down (outbound_start (fst (try_claim_outbound c))) s
      (if decide (q ∈ honest /\ started s = false) then Refused else Up)
| st_reset L : p ∈ honest ->
    match L with Refused | Up | Sent _ | Answered _ _ | Recorded _ _ => True | _ => False end ->
    stream_step p q c s L (exit_client reset_exit c) (clear_connected p s) Down
| st_send now : p ∈ honest -> stop c = false -> stream_step p q c s Up c s (Sent (outbound_request now c))
| st_check m s' r ev : q ∈ honest -> inbound_validate peer_string verify p (pk_of p) m s = (s', r, ev) ->
    stream_step p q c s (Sent m) c s' (Checked m r)
| st_record m r s' ev : inbound_step p m s = (s', Ok ev) -> stream_step p q c s (Checked m r) c s' (Answered m r)
| st_refuse m r s' e : inbound_step p m s = (s', Err e) -> stream_step p q c s (Checked m r) c (clear_connected p s') Refused
| st_ack m r L : p ∈ honest -> L = Answered m r \/ L = Recorded m r ->
    fst (outbound_response c m (inl r)) = None -> stream_step p q c s L c s Up
| st_exit m r L exit : p ∈ honest -> L = Answered m r \/ L = Recorded m r ->
    fst (outbound_response c m (inl r)) = Some exit ->
    stream_step p q c s L (exit_client exit c) s
      (if msg_shutdown m then match L with Answered _ _ => Acked | _ => Over end else Over)
| st_end m r : q ∈ honest -> msg_shutdown m = true ->
    stream_step p q c s (Answered m r) c (clear_connected p (set_shutdown p s)) (Recorded m r)
| st_end_acked : q ∈ honest -> stream_step p q c s Acked c (clear_connected p (set_shutdown p s)) Over
| st_forget L : q ∈ honest -> stream_step p q c s L c (clear_connected p s) L
| st_inject L m : p ∉ honest -> q ∈ honest -> match L with Checked _ _ => False | _ => True end ->
    stream_step p q c s L c s (Sent m)
| st_answer m r : q ∉ honest -> stream_step p q c s (Sent m) c s (Answered m r).

(** The cluster after such a change. *)
Definition put_stream (p q : PeerId) (c : Client) (s : Server) (L : Link) (C C' : Cluster) : Prop :=
  (forall x y, client_of C' x y = if decide (x = p /\ y = q) then c else client_of C x y) /\
  (forall x, server_of C' x = if decide (x = q) then s else server_of C x) /\
  (forall x, links C' x = if decide (x = (p, q)) then L else links C x) /\
  (forall x, step_of C' x = step_of C x /\ phase_of C' x = phase_of C x).

Inductive cluster_step (C : Cluster) : Cluster -> Prop :=
| cl_advance ho p n : p ∈ peers -> p ∈ honest -> advance ho p (nodes C p) = Some n ->
    cluster_step C (set_node p (fun _ => n) C)
| cl_cancel p q e : p ∈ peers -> q ∈ peers -> p <> q -> p ∈ honest -> done_result (client_of C p q) = Some (Err e) ->
    cluster_step C (set_node p (fail Canceled) C)
| cl_stream p q c s L C' : p ∈ peers -> q ∈ peers -> p <> q ->
    stream_step p q (client_of C p q) (server_of C q) (links C (p, q)) c s L ->
    put_stream p q c s L C C' -> cluster_step C C'.

Lemma put_stream_intro p q f g L (C C' : Cluster) :
  C' = set_link p q L (on_server q g (on_client p q f C)) ->
  put_stream p q (f (client_of C p q)) (g (server_of C q)) L C C'.
Proof.
  intros ->. split_and!; intros x; [intros y| | |].
  - change (client_of (set_link p q L ?D) x y) with (client_of D x y).
    rewrite (proj1 (node_of_on_server _ _ _ x y)). apply client_of_on_client.
  - change (server_of (set_link p q L ?D) x) with (server_of D x). rewrite server_of_on_server.
    destruct (node_of_on_client p q f C q) as (-> & _), (node_of_on_client p q f C x) as (-> & _). done.
  - rewrite link_of_set_link. done.
  - change (step_of (set_link p q L ?D) x) with (step_of D x). change (phase_of (set_link p q L ?D) x) with (phase_of D x).
    destruct (node_of_on_server q g (on_client p q f C) x q) as (_ & -> & ->). apply (node_of_on_client p q f C x).
Qed.

(** The same, when only one of the two ends changes, or none. *)
Lemma put_stream_server p q g L (C C' : Cluster) :
  C' = set_link p q L (on_server q g C) -> put_stream p q (client_of C p q) (g (server_of C q)) L C C'.
Proof.
  intros ->. split_and!; intros x; [intros y| | |].
  - change (client_of (set_link p q L ?D) x y) with (client_of D x y).
    rewrite (proj1 (node_of_on_server _ _ _ x y)). case_decide; naive_solver.
  - apply server_of_on_server.
  - by rewrite link_of_set_link.
  - change (step_of (set_link p q L ?D) x) with (step_of D x). change (phase_of (set_link p q L ?D) x) with (phase_of D x).
    apply (node_of_on_server q g C x q).
Qed.

Lemma put_stream_client p q f L (C C' : Cluster) :
  C' = set_link p q L (on_client p q f C) -> put_stream p q (f (client_of C p q)) (server_of C q) L C C'.
Proof.
  intros ->. split_and!; intros x; [intros y| | |].
  - apply client_of_on_client.
  - change (server_of (set_link p q L ?D) x) with (server_of D x).
    destruct (node_of_on_client p q f C x) as (-> & _). case_decide; naive_solver.
  - by rewrite link_of_set_link.
  - change (step_of (set_link p q L ?D) x) with (step_of D x). change (phase_of (set_link p q L ?D) x) with (phase_of D x).
    apply (node_of_on_client p q f C x).
Qed.

Lemma put_stream_link p q L (C : Cluster) : put_stream p q (client_of C p q) (server_of C q) L C (set_link p q L C).
Proof.
  split_and!; intros x; [intros y| | |]; try done; try (case_decide; naive_solver). apply link_of_set_link.
Qed.

Lemma step_is_cluster_step (C C' : Cluster) : net_step C C' -> cluster_step C C'.
Proof.
  intros (ho & l & Hok & Hl). destruct l; cbn in Hok, Hl.
  - case_decide; [|done]. apply bind_Some in Hl as (n & Hn & [= <-]). by eapply cl_advance.
  - destruct (done_result _) as [[|e|]|] eqn:E; try done. case_decide; [|done]. injection Hl as <-.
    destruct Hok as (? & ? & ?). by eapply cl_cancel.
  - destruct Hok as (? & ? & ?). destruct (links C (p, q)) eqn:EL; try done. case_decide as Hd; [|done].
    injection Hl as <-. eapply (cl_stream _ p q); [done..| |by apply put_stream_client].
    rewrite EL. destruct Hd as (? & ? & ?). by apply st_open.
  - destruct Hok as (? & ? & ?).
    destruct (links C (p, q)) eqn:EL; try done; (case_decide; [|done]); injection Hl as <-;
      (eapply (cl_stream _ p q); [done..| |by apply put_stream_intro]); rewrite EL; by apply st_reset.
  - destruct Hok as (? & ? & ?). destruct (links C (p, q)) eqn:EL; try done. case_decide as Hd; [|done].
    injection Hl as <-. eapply (cl_stream _ p q); [done..| |by apply put_stream_link]. rewrite EL. destruct Hd. by apply st_send.
  - destruct Hok as (? & ? & ?). destruct (links C (p, q)) eqn:EL; try done. case_decide; [|done].
    destruct (inbound_validate _ _ _ _ _ _) as [[s r] ev] eqn:Ev. injection Hl as <-.
    eapply (cl_stream _ p q); [done..| |by apply put_stream_server]. rewrite EL. by eapply st_check.
  - destruct Hok as (? & ? & ?). destruct (links C (p, q)) eqn:EL; try done.
    destruct (inbound_step p m (server_of C q)) as [s [ev|e|]] eqn:Es; injection Hl as <-;
      (eapply (cl_stream _ p q); [done..| |by apply put_stream_server]); rewrite EL.
    + by eapply st_record.
    + by eapply st_refuse.
    + exfalso. apply (update_step_no_panic p (msg_step m) (server_of C q)). unfold inbound_step in Es.
      by destruct (update_step _ _ _) as [s1 []].
  - destruct Hok as (? & ? & ?). case_decide; [|done]. unfold take_answer in Hl.
    destruct (links C (p, q)) eqn:EL; try done; destruct (fst (outbound_response _ _ _)) eqn:Eo; injection Hl as <-.
    1,3: (eapply (cl_stream _ p q); [done..| |by apply put_stream_client]); rewrite EL; eapply (st_exit _ _ _ _ m r); eauto.
    all: (eapply (cl_stream _ p q); [done..| |by apply put_stream_link]); rewrite EL; eapply (st_ack _ _ _ _ m r); eauto.
  - destruct Hok as (? & ? & ?). case_decide; [|done].
    destruct (links C (p, q)) eqn:EL; try done; [destruct (msg_shutdown m) eqn:Em; [|done]|]; injection Hl as <-;
      (eapply (cl_stream _ p q); [done..| |by apply put_stream_server]); rewrite EL.
    + by apply st_end.
    + by apply st_end_acked.
  - destruct Hok as (? & ? & ?). case_decide; [|done]. injection Hl as <-.
    eapply (cl_stream _ p q _ _ (links C (p, q))); [done..|by apply st_forget|].
    split_and!; intros x; [intros y| | |].
    + rewrite (proj1 (node_of_on_server _ _ _ x y)). case_decide; naive_solver.
    + apply server_of_on_server.
    + change (links C x = if decide (x = (p, q)) then links C (p, q) else links C x). by case_decide; subst.
    + apply (node_of_on_server q _ C x q).
  - destruct Hok as (? & ? & ?).
    assert (p ∉ honest /\ q ∈ honest /\ C' = set_link p q (Sent m) C /\
      match links C (p, q) with Checked _ _ => False | _ => True end) as (? & ? & -> & HL).
    { destruct (links C (p, q)); try done; (case_decide as Hd; [|done]); injection Hl as <-; naive_solver. }
    eapply (cl_stream _ p q); [done..| |by apply put_stream_link]. by apply st_inject.
  - destruct Hok as (? & ? & ?). destruct (links C (p, q)) eqn:EL; try done. case_decide; [|done]. injection Hl as <-.
    eapply (cl_stream _ p q); [done..| |by apply put_stream_link]. rewrite EL. by apply st_answer.
Qed.

(** ** What a step leaves alone *)

(** Everything of a server but the flag, the counter and the error. *)
Definition same_tables (s s' : Server) : Prop :=
  steps s' = steps s /\ connected s' = connected s /\ shutdown s' = shutdown s /\ all_count s' = all_count s /\
  def_hash s' = def_hash s /\ version s' = version s.

Definition late (ph : Phase PeerId) : bool :=
  match ph with Working | ShuttingDown _ | AwaitClient _ _ | AwaitShutdown | Finished => true | _ => false end.
Definition early (ph : Phase PeerId) : bool :=
  match ph with NotStarted | Connecting | AwaitConnected => true | _ => false end.

(** The message on a link that the server has still to record. *)
Definition in_flight (L : Link) : option MsgSync :=
  match L with Sent m | Checked m _ => Some m | _ => None end.

(** What an iteration of the main thread does to the step and the phase: it
    moves inside a step, passes a barrier, or begins the next step. *)
Lemma advance_moves ho p n n' :
  advance ho p n = Some n' ->
  (n_step n' = n_step n /\ (late (n_phase n') = true -> late (n_phase n) = true \/
     n_phase n = AwaitStep /\ await_all_at_step ho (n_step n) (n_server n) = Some (Ok tt)) /\
   (early (n_phase n') = true -> early (n_phase n) = true)) \/
  (n_step n' = n_step n + 1 /\ n_phase n' = SettingStep (remote p) /\
   (n_phase n = Working /\ n_step n < LAST_STEP \/
    n_phase n = AwaitConnected /\ await_all_connected (n_server n) = Some (Ok tt))).
Proof.
  unfold DkgSyncNet.advance, after_wait, begin_step. intros Ha.
  destruct n as [s cs k ph]; cbn [n_phase n_step n_server n_clients] in *.
  destruct ph as [| | |[|q todo]| | |[|q todo]|q todo| | |e]; try done;
    repeat (case_match; try done); simplify_eq/=;
    rewrite ?(proj1 (proj2 (rest_updated _ _ _))); repeat match goal with u : unit |- _ => destruct u end;
    zbool; first [by left | by left; auto | by right; auto].
Qed.

Lemma advance_server ho p n n' :
  advance ho p n = Some n' ->
  same_tables (n_server n) (n_server n') /\ err (n_server n') = err (n_server n) /\
  started (n_server n') = (if n_phase n is NotStarted then true else started (n_server n)).
Proof.
  unfold DkgSyncNet.advance, after_wait, begin_step. intros Ha.
  destruct n as [s cs k ph]; cbn [n_phase n_step n_server n_clients] in *.
  destruct ph as [| | |[|q todo]| | |[|q todo]|q todo| | |e]; try done;
    repeat (case_match; try done); simplify_eq/=;
    rewrite ?(proj1 (rest_updated _ _ _)); unfold same_tables; cbn; try done.
Qed.

(** The clients of a node, per phase. *)
Lemma advance_clients ho p n n' q :
  advance ho p n = Some n' ->
  n_clients n' q =
    match n_phase n with
    | NotStarted => if decide (q ∈ remote p) then (n_clients n q) <| active := true |> <| stop := false |> else n_clients n q
    | Connecting =>
        if n_phase n' is Failed _ then n_clients n q
        else if decide (q ∈ remote p) then disable_reconnect (n_clients n q) else n_clients n q
    | SettingStep (x :: _) => if decide (q = x) then set_step (n_step n) (n_clients n q) else n_clients n q
    | ShuttingDown (x :: _) => if decide (q = x) then request_shutdown (n_clients n q) else n_clients n q
    | _ => n_clients n q
    end.
Proof.
  unfold DkgSyncNet.advance, after_wait, begin_step. intros Ha.
  destruct n as [s cs k ph]; cbn [n_phase n_step n_server n_clients] in *.
  destruct ph as [| | |[|x todo]| | |[|x todo]|x todo| | |e]; try done;
    repeat (case_match; try done); simplify_eq/=; try done;
    rewrite ?clients_updated by apply remote_NoDup;
    first [by rewrite decide_True | by rewrite decide_False | by rewrite fn_lookup_insert
          | by rewrite fn_lookup_insert_ne].
Qed.

(** A stream leaves the step of its client and the identities alone. *)
Lemma exit_client_fields exit (c : Client) :
  step (exit_client exit c) = step c /\ hash_sig (exit_client exit c) = hash_sig c /\
  client_version (exit_client exit c) = client_version c /\
  shutdown_requested (exit_client exit c) = shutdown_requested c.
Proof.
  unfold exit_client, on_outbound_exit, finish. destruct exit; cbn; repeat case_match; cbn; done.
Qed.

Lemma stream_client p q c s L c' s' L' :
  stream_step p q c s L c' s' L' ->
  step c' = step c /\ hash_sig c' = hash_sig c /\ client_version c' = client_version c /\
  shutdown_requested c' = shutdown_requested c.
Proof.
  destruct 1; try done; try apply exit_client_fields. unfold try_claim_outbound. by destruct (outbound_claimed c).
Qed.

(** The tables of a server change in the entries of one peer. *)
Definition same_others (p : PeerId) (s s' : Server) : Prop :=
  (forall r, r <> p -> steps s' !! r = steps s !! r) /\
  (forall r, r <> p -> r ∈ connected s' <-> r ∈ connected s) /\
  (forall r, r <> p -> r ∈ shutdown s' <-> r ∈ shutdown s) /\
  all_count s' = all_count s /\ def_hash s' = def_hash s /\ version s' = version s /\ started s' = started s.

Lemma clear_others p s : same_others p s (clear_connected p s).
Proof. unfold clear_connected. case_decide; split_and!; try done; cbn; set_solver. Qed.

Lemma set_connected_others p s : same_others p s (set_connected p s).
Proof. unfold set_connected. case_decide; split_and!; try done; cbn; set_solver. Qed.

Lemma set_shutdown_others p s : same_others p s (set_shutdown p s).
Proof. split_and!; try done; cbn; set_solver. Qed.

Lemma set_err_others p e s : same_others p s (set_err e s).
Proof. unfold set_err. by case_match. Qed.

Lemma same_others_trans p s1 s2 s3 : same_others p s1 s2 -> same_others p s2 s3 -> same_others p s1 s3.
Proof.
  intros (A1 & A2 & A3 & A4 & A5 & A6 & A7) (B1 & B2 & B3 & B4 & B5 & B6 & B7).
  split_and!; try congruence; intros r Hr.
  - by rewrite B1, A1.
  - by rewrite B2, A2.
  - by rewrite B3, A3.
Qed.

Lemma update_step_others p n s s' b : update_step p n s = (s', Ok b) -> same_others p s s'.
Proof.
  intros (Hs & Hc & Hd & _ & ? & ? & ? & ?)%update_step_ok.
  split_and!; try done; intros r Hr; rewrite ?Hs, ?Hc, ?Hd; [by rewrite lookup_insert_ne|done..].
Qed.

Lemma stream_server p q c s L c' s' L' : stream_step p q c s L c' s' L' -> same_others p s s'.
Proof.
  destruct 1 as [| | |m s' r ev _ Hv|m r s' ev Hs|m r s' e Hs| | | | | | |];
    try done; try apply clear_others; try (eapply same_others_trans; [apply set_shutdown_others|apply clear_others]).
  - unfold inbound_validate in Hv. case_match; injection Hv as <- <- <-;
      first [apply set_connected_others | apply set_err_others].
  - unfold inbound_step in Hs. destruct (update_step _ _ _) as [s1 [b|e|]] eqn:Eu; simplify_eq. by eapply update_step_others.
  - eapply same_others_trans; [|apply clear_others].
    unfold inbound_step in Hs. destruct (update_step _ _ _) as [s1 [b|e'|]] eqn:Eu; simplify_eq.
    apply update_step_err in Eu as [-> _]. apply set_err_others.
Qed.

(** The step recorded for the peer is the old one or that of its message. *)
Lemma clear_steps p (s : Server) : steps (clear_connected p s) = steps s.
Proof. unfold clear_connected. by case_decide. Qed.

Lemma stream_steps p q c s L c' s' L' :
  stream_step p q c s L c' s' L' ->
  steps s' = steps s \/ exists m r, L = Checked m r /\ L' = Answered m r /\ steps s' = <[p := msg_step m]> (steps s).
Proof.
  destruct 1 as [| | |m s' r ev _ Hv|m r s' ev Hs|m r s' e Hs| | | | | | |];
    rewrite ?clear_steps; try (by left).
  - left. unfold inbound_validate, set_connected, set_err in Hv. by repeat case_match; simplify_eq.
  - right. exists m, r. unfold inbound_step in Hs.
    destruct (update_step _ _ _) as [s1 [b|e|]] eqn:Eu; simplify_eq. split_and!; [done..|]. by eapply update_step_ok.
  - left. unfold inbound_step, set_err in Hs. destruct (update_step _ _ _) as [s1 [b|e'|]] eqn:Eu; simplify_eq.
    apply update_step_err in Eu as [-> _]. by repeat case_match.
Qed.

(** ** Safety, with faulty peers *)

(** The stream from [q] to [p] carries the steps of [q], and [p] is not ahead
    of [q] by more than the step it waits for. *)
Definition pair_safe (C : Cluster) (p q : PeerId) : Prop :=
  step (client_of C q p) <= step_of C q /\
  (forall k, steps (server_of C p) !! q = Some k -> k <= step (client_of C q p)) /\
  (forall m, in_flight (links C (q, p)) = Some m -> msg_step m <= step (client_of C q p)) /\
  step_of C p <= step_of C q + 1 /\ (late (phase_of C p) = true -> step_of C p <= step_of C q).

Record safe (C : Cluster) : Prop := {
  safe_step : forall p, 0 <= step_of C p;
  safe_early : forall p, early (phase_of C p) = true -> step_of C p = 0;
  safe_count : forall p, all_count (server_of C p) = length (remote p);
  safe_known : forall p r k, steps (server_of C p) !! r = Some k -> r ∈ remote p;
  safe_pair : forall p q, p ∈ honest -> q ∈ honest -> p ∈ peers -> q ∈ peers -> p <> q -> pair_safe C p q;
}.

Lemma safe_init : safe cluster_init.
Proof. by split. Qed.

(** A full table has an entry for every other peer. *)
Lemma full_table (C : Cluster) p q :
  safe C -> size (steps (server_of C p)) = all_count (server_of C p) -> q ∈ remote p ->
  is_Some (steps (server_of C p) !! q).
Proof.
  intros HC Hs Hq. rewrite (safe_count C HC) in Hs. apply elem_of_dom.
  assert (dom (steps (server_of C p)) ⊆ list_to_set (C := gset PeerId) (remote p)) as Hsub.
  { intros r [k Hk]%elem_of_dom. apply elem_of_list_to_set. by eapply safe_known. }
  assert (dom (steps (server_of C p)) = list_to_set (C := gset PeerId) (remote p)) as ->.
  { apply set_subseteq_size_eq; [done|]. rewrite size_dom, Hs, size_list_to_set by apply remote_NoDup. done. }
  by apply elem_of_list_to_set.
Qed.

Lemma set_node_step p n (C : Cluster) x : step_of (set_node p (fun _ => n) C) x = if decide (x = p) then n_step n else step_of C x.
Proof. unfold step_of. rewrite node_of_set_node. by case_decide. Qed.
Lemma set_node_phase p n (C : Cluster) x : phase_of (set_node p (fun _ => n) C) x = if decide (x = p) then n_phase n else phase_of C x.
Proof. unfold phase_of. rewrite node_of_set_node. by case_decide. Qed.
Lemma set_node_server p n (C : Cluster) x : server_of (set_node p (fun _ => n) C) x = if decide (x = p) then n_server n else server_of C x.
Proof. unfold server_of. rewrite node_of_set_node. by case_decide. Qed.
Lemma set_node_client p n (C : Cluster) x y : client_of (set_node p (fun _ => n) C) x y = if decide (x = p) then n_clients n y else client_of C x y.
Proof. unfold client_of. rewrite node_of_set_node. by case_decide. Qed.

(** The step of a client moves to that of its node. *)
Lemma advance_client_step ho p n n' q :
  advance ho p n = Some n' -> step (n_clients n' q) = step (n_clients n q) \/ step (n_clients n' q) = n_step n.
Proof.
  intros Ha. rewrite (advance_clients _ _ _ _ q Ha). repeat case_match; cbn; auto.
Qed.

Lemma safe_advance ho p n (C : Cluster) :
  safe C -> p ∈ peers -> p ∈ honest -> advance ho p (nodes C p) = Some n -> safe (set_node p (fun _ => n) C).
Proof.
  intros HC Hpp Hph Ha. pose proof (advance_moves _ _ _ _ Ha) as Hm.
  destruct (advance_server _ _ _ _ Ha) as [(Hs & _ & _ & Hn & _) _].
  fold (step_of C p) (phase_of C p) (server_of C p) in *.
  pose proof (safe_step C HC p) as H0. pose proof (safe_early C HC p) as He.
  assert (forall q, q ∈ honest -> q ∈ peers -> q <> p ->
    step_of C p <= step_of C q + 1 /\
    (late (n_phase n) = true -> n_step n <= step_of C q) /\ n_step n <= step_of C q + 1) as Hpair.
  { intros q Hq Hqp Hne. destruct (safe_pair C HC p q) as (Hc & Hk & Hf & Hle & Hl); [done..|].
    split; [done|]. destruct Hm as [(-> & Hlate & _)|(-> & -> & Hfrom)].
    - split; [|done]. intros [?|[_ (_ & _ & _ & Hsz & Hall)%await_step_ok]]%Hlate; [by apply Hl|].
      destruct (full_table C p q HC Hsz) as [k Hkk]; [by apply elem_of_remote|].
      apply Hall in Hkk as Hor. apply Hk in Hkk. lia.
    - split; [done|]. destruct Hfrom as [[Hw _]|[Hac _]]; [rewrite Hw in Hl; specialize (Hl eq_refl); lia|].
      rewrite Hac in He. specialize (He eq_refl).
      pose proof (safe_step C HC q). lia. }
  split.
  - intros x. rewrite set_node_step. case_decide; [subst|apply HC].
    destruct Hm as [(-> & _)|(-> & _)]; lia.
  - intros x. rewrite set_node_step, set_node_phase. case_decide; [subst|apply HC].
    destruct Hm as [(-> & _ & Hearly)|(_ & -> & _)]; [|done]. intros ?%Hearly. by apply He.
  - intros x. rewrite set_node_server. case_decide; [subst; rewrite Hn|]; apply HC.
  - intros x r k. rewrite set_node_server. case_decide; [subst; rewrite Hs|]; apply HC.
  - intros x y Hx Hy Hxp Hyp Hne. unfold pair_safe.
    rewrite !set_node_step, !set_node_phase, !set_node_server, !set_node_client.
    change (links (set_node p _ C)) with (links C).
    destruct (safe_pair C HC x y) as (Hc & Hk & Hf & Hle & Hl); [done..|].
    destruct (decide (x = p)) as [->|Hxn].
    + rewrite !decide_False by done. rewrite Hs. destruct (Hpair y) as (_ & ? & ?); [done..|]. by split_and!.
    + destruct (decide (y = p)) as [->|Hyn]; [|done].
      assert (n_step n = step_of C p \/ n_step n = step_of C p + 1) as Hst
        by (destruct Hm as [(? & _)|(? & _)]; auto).
      destruct (advance_client_step _ _ _ _ x Ha) as [Hcs|Hcs]; rewrite Hcs;
        fold (client_of C p x) (step_of C p) in *.
      * split_and!; [lia|done|done|lia|]. intros ?%Hl. lia.
      * split_and!; [lia| | |lia|intros ?%Hl; lia].
        -- intros k ?%Hk. lia.
        -- intros m ?%Hf. lia.
Qed.

Lemma safe_stream p q c s L (C C' : Cluster) :
  safe C -> p ∈ peers -> p <> q ->
  stream_step p q (client_of C p q) (server_of C q) (links C (p, q)) c s L -> put_stream p q c s L C C' -> safe C'.
Proof.
  intros HC Hp Hne Hst (Hcl & Hsv & Hln & Hsp).
  pose proof (stream_client _ _ _ _ _ _ _ _ Hst) as (Hstep & _).
  pose proof (stream_server _ _ _ _ _ _ _ _ Hst) as (Hothers & _ & _ & Hcount & _).
  pose proof (stream_steps _ _ _ _ _ _ _ _ Hst) as Hsteps.
  split.
  - intros x. rewrite (proj1 (Hsp x)). apply HC.
  - intros x. rewrite (proj1 (Hsp x)), (proj2 (Hsp x)). apply HC.
  - intros x. rewrite Hsv. case_decide; [subst; rewrite Hcount|]; apply HC.
  - intros x r k. rewrite Hsv. case_decide; [subst|apply HC].
    destruct (decide (r = p)) as [->|]; [intros _; by apply elem_of_remote|]. rewrite Hothers by done. apply HC.
  - intros x y Hx Hy Hxp Hyp Hxy. destruct (safe_pair C HC x y) as (Hc & Hk & Hf & Hle & Hl); [done..|].
    unfold pair_safe. rewrite !(proj1 (Hsp _)), !(proj2 (Hsp _)), Hcl, Hsv, Hln.
    destruct (decide (x = q)) as [->|Hxq]; [|rewrite !decide_False by naive_solver; done].
    destruct (decide (y = p)) as [->|Hyp'].
    + rewrite !decide_True by done. rewrite Hstep. split_and!; [done| | |done|done].
      * intros k Hkk. destruct Hsteps as [Hsame|(m & r & HL & _ & Hsame)]; rewrite Hsame in Hkk; [by apply Hk|].
        rewrite lookup_insert_eq in Hkk. injection Hkk as <-. apply Hf. by rewrite HL.
      * intros m Hm. remember (links C (p, q)) as L0 eqn:EL. clear Hsteps.
        destruct Hst; cbn in Hm; repeat case_match; simplify_eq/=; try done; by apply Hf.
    + rewrite !decide_False by naive_solver. split_and!; try done. intros k. rewrite Hothers by done. apply Hk.
Qed.

Lemma safe_cluster_step (C C' : Cluster) : safe C -> cluster_step C C' -> safe C'.
Proof.
  intros HC [ho p n Hp Hh Ha|p q e Hp Hq Hne Hh _|p q c s L C2 Hp Hq Hne Hst Hput].
  - by eapply safe_advance.
  - change (set_node p (fail Canceled) C) with (set_node p (fun _ => fail Canceled (nodes C p)) C).
    split; intros *; rewrite ?set_node_step, ?set_node_phase, ?set_node_server.
    + case_decide; subst; apply HC.
    + case_decide; subst; [done|apply HC].
    + case_decide; subst; apply HC.
    + case_decide; subst; apply HC.
    + intros Hx Hy Hxp Hyp Hxy. destruct (safe_pair C HC p0 q0) as (Hc & Hk & Hf & Hle & Hl); [done..|].
      unfold pair_safe. rewrite !set_node_step, !set_node_phase, !set_node_server, !set_node_client.
      repeat case_decide; subst; by split_and!.
  - by apply (safe_stream p q c s L C).
Qed.

Lemma reachable_safe (C : Cluster) : net_reachable C -> safe C.
Proof.
  intros Hr. assert (forall C1 C2, rtc net_step C1 C2 -> safe C1 -> safe C2) as Hall.
  { intros C1 C2 Hr'. induction Hr' as [|C1 C3 C2 Hs _ IH]; [done|]. intros HC. apply IH.
    eapply safe_cluster_step; [done|]. by apply step_is_cluster_step. }
  eapply Hall; [done|]. apply safe_init.
Qed.

(** C10: With any number of faulty peers, an honest node that works on a step
    finds every honest node at that step at least: all of them have finished
    the work of the step before.  No honest node is ever more than one step
    ahead of another. *)
Theorem barrier (C : Cluster) p q :
  net_reachable C -> p ∈ honest -> q ∈ honest -> p ∈ peers -> q ∈ peers -> p <> q ->
  step_of C p <= step_of C q + 1 /\ (phase_of C p = Working -> step_of C p <= step_of C q).
Proof.
  intros HC%reachable_safe ? ? ? ? ?. destruct (safe_pair C HC p q) as (_ & _ & _ & ? & Hl); [done..|].
  split; [done|]. intros Hw. apply Hl. by rewrite Hw.
Qed.

(** ** Honest clusters *)

Section all_honest.
Context (all_honest : forall p, p ∈ peers -> p ∈ honest) (version_ok : semver_ok v).
Context (sign_ok : forall p, p ∈ peers -> verify (pk_of p) hash (sign p) = true).

(** What is on the link from [q]. *)
Definition good_link (q : PeerId) (L : Link) : Prop :=
  match L with
  | Sent m => hash_signature m = sign q /\ msg_version m = to_string v
  | Checked _ r | Answered _ r | Recorded _ r => resp_error r = ""%string
  | _ => True
  end.

(** The records of [p] follow the messages of [q], and keep up with the step
    of [p]; the first record is in place before [p] begins its first step, or
    on its way. *)
Record pair_calm (C : Cluster) (p q : PeerId) : Prop := {
  pc_link : good_link q (links C (q, p));
  pc_client : 0 <= step (client_of C q p);
  pc_message : forall m, in_flight (links C (q, p)) = Some m -> 0 <= msg_step m;
  pc_order : forall k m, steps (server_of C p) !! q = Some k -> in_flight (links C (q, p)) = Some m -> k <= msg_step m;
  pc_nonneg : forall k, steps (server_of C p) !! q = Some k -> 0 <= k;
  pc_first : q ∈ connected (server_of C p) \/ 1 <= step_of C p ->
    is_Some (steps (server_of C p) !! q) \/ exists m r, links C (q, p) = Checked m r /\ msg_step m <= 1;
  pc_record : forall k, steps (server_of C p) !! q = Some k ->
    step_of C p <= k + 1 /\ (late (phase_of C p) = true -> step_of C p <= k);
  pc_recorded : late (phase_of C p) = true \/ 2 <= step_of C p -> is_Some (steps (server_of C p) !! q);
}.

Record calm (C : Cluster) : Prop := {
  calm_safe : safe C;
  calm_err : forall p, err (server_of C p) = None;
  calm_phase : forall p e, phase_of C p <> Failed e;
  calm_last : forall p, step_of C p <= LAST_STEP;
  calm_server : forall p, def_hash (server_of C p) = hash /\ version (server_of C p) = v;
  calm_client : forall p q, hash_sig (client_of C p q) = sign p /\ client_version (client_of C p q) = v;
  calm_done : forall p q r, done_result (client_of C p q) = Some r -> r = Ok tt;
  calm_known : forall p r, r ∈ connected (server_of C p) -> r ∈ remote p;
  calm_pair : forall p q, p ∈ peers -> q ∈ peers -> p <> q -> pair_calm C p q;
}.

Lemma calm_init : calm cluster_init.
Proof.
  split; try done. intros p q Hp Hq Hne. split; try done; intros [Hx|Hx]; cbn in Hx; first [lia | set_solver].
Qed.

(** Passing [await_all_connected] means that every other peer is connected. *)
Lemma full_connected (C : Cluster) p q :
  calm C -> await_all_connected (server_of C p) = Some (Ok tt) -> q ∈ remote p -> q ∈ connected (server_of C p).
Proof.
  intros HC Ha Hq. unfold await_all_connected in Ha. repeat case_match; simplify_eq.
  assert (connected (server_of C p) = list_to_set (C := gset PeerId) (remote p)) as ->.
  { apply set_subseteq_size_eq.
    - intros r Hr. apply elem_of_list_to_set. by eapply calm_known.
    - rewrite size_list_to_set by apply remote_NoDup. pose proof (safe_count C (calm_safe C HC) p). lia. }
  by apply elem_of_list_to_set.
Qed.

(** The main thread does not fail. *)
Lemma advance_not_failed ho p n (C : Cluster) e :
  calm C -> p ∈ peers -> advance ho p (nodes C p) = Some n -> n_phase n <> Failed e.
Proof.
  intros HC Hp Ha Hf. pose proof (calm_err C HC p) as Herr. pose proof (calm_phase C HC p) as Hph.
  pose proof (calm_last C HC p) as Hlast. pose proof (safe_step C (calm_safe C HC) p) as H0.
  unfold DkgSyncNet.advance, after_wait, begin_step in Ha.
  fold (server_of C p) (phase_of C p) (step_of C p) in Ha.
  unfold await_all_connected, await_all_shutdown, wait_finished in Ha. rewrite Herr in Ha.
  destruct (phase_of C p) as [| | |[|q todo]| | |[|q todo]|q todo| | |e'] eqn:Eph;
    [..|by destruct (Hph e')]; try (repeat case_match; simplify_eq/=; done).
  - destruct (await_all_at_step _ _ _) as [[|e'|]|] eqn:Ew; try done; [by simplify_eq|].
    apply await_step_err in Ew as (r & k & Hk & Hle); [|unfold LAST_STEP, I64_MAX, I64_MIN in *; lia..|done].
    pose proof (safe_known C (calm_safe C HC) p r k Hk) as [Hne Hr]%elem_of_remote.
    destruct (safe_pair C (calm_safe C HC) p r) as (Hc & Hkk & _); auto.
    destruct (safe_pair C (calm_safe C HC) r p) as (_ & _ & _ & Hd & _); auto. apply Hkk in Hk. lia.
  - fold (client_of C p q) in Ha. destruct (done_result (client_of C p q)) as [[|e'|]|] eqn:Ed; cbn in Ha; try done;
      [by simplify_eq|]. by apply (calm_done C HC) in Ed.
Qed.

Lemma calm_advance ho p n (C : Cluster) :
  calm C -> p ∈ peers -> advance ho p (nodes C p) = Some n -> calm (set_node p (fun _ => n) C).
Proof.
  intros HC Hp Ha. pose proof (advance_moves _ _ _ _ Ha) as Hm.
  destruct (advance_server _ _ _ _ Ha) as [(Hs & Hcn & Hsh & Hn & Hdh & Hv) [He _]].
  fold (step_of C p) (phase_of C p) (server_of C p) in *.
  pose proof (safe_early C (calm_safe C HC) p) as Hearly.
  assert (forall q, hash_sig (n_clients n q) = hash_sig (client_of C p q) /\
    client_version (n_clients n q) = client_version (client_of C p q) /\
    done_result (n_clients n q) = done_result (client_of C p q)) as Hcl.
  { intros q. rewrite (advance_clients _ _ _ _ q Ha). unfold client_of. repeat case_match; done. }
  assert (forall q, q ∈ remote p -> await_all_at_step ho (step_of C p) (server_of C p) = Some (Ok tt) ->
    exists k, steps (server_of C p) !! q = Some k /\ step_of C p <= k) as Hpass.
  { intros q Hq (_ & _ & _ & Hsz & Hall)%await_step_ok.
    destruct (full_table C p q (calm_safe C HC) Hsz Hq) as [k Hk]. exists k. split; [done|]. apply Hall in Hk. lia. }
  split.
  - eapply safe_advance; [apply HC|done|by apply all_honest|done].
  - intros x. rewrite set_node_server. case_decide; [subst; rewrite He|]; apply HC.
  - intros x e. rewrite set_node_phase. case_decide; [subst; by eapply advance_not_failed|apply HC].
  - intros x. rewrite set_node_step. case_decide; [subst|apply HC]. pose proof (calm_last C HC p).
    destruct Hm as [(-> & _)|(-> & _ & [[_ ?]|[Hac _]])]; [done|lia|].
    rewrite Hac in Hearly. rewrite Hearly by done. by vm_compute.
  - intros x. rewrite set_node_server. case_decide; [subst; rewrite Hdh, Hv|]; apply HC.
  - intros x y. rewrite set_node_client. case_decide; [subst|apply HC]. destruct (Hcl y) as (-> & -> & _). apply HC.
  - intros x y r. rewrite set_node_client. case_decide; [subst|apply HC]. destruct (Hcl y) as (_ & _ & ->). apply HC.
  - intros x r. rewrite set_node_server. case_decide; [subst; rewrite Hcn|]; apply HC.
  - intros x y Hx Hy Hne. pose proof (calm_pair C HC x y Hx Hy Hne) as HP.
    destruct (decide (x = p)) as [->|Hxn].
    + assert (y ∈ remote p) as Hrem by by apply elem_of_remote.
      split; rewrite ?set_node_step, ?set_node_phase, ?set_node_server, ?set_node_client;
        rewrite ?(decide_True (P := p = p)) by done; rewrite ?(decide_False (P := y = p)) by done;
        rewrite ?Hs, ?Hcn; try apply HP.
      * destruct Hm as [(-> & _)|(-> & _ & [[Hw _]|[_ Hac]])]; [apply HP| |].
        -- left. apply (pc_recorded _ _ _ HP). rewrite Hw. by left.
        -- intros _. apply (pc_first _ _ _ HP). left. by eapply full_connected.
      * intros k Hk. destruct (pc_record _ _ _ HP k Hk) as [Hk1 Hk2]. pose proof (pc_nonneg _ _ _ HP k Hk).
        destruct Hm as [(-> & Hl & _)|(-> & -> & [[Hw _]|[Hac _]])].
        -- split; [done|]. intros [?|[_ Haw]]%Hl; [by apply Hk2|].
           destruct (Hpass y Hrem Haw) as (k' & Hk' & ?). by simplify_eq.
        -- split; [|done]. rewrite Hw in Hk2. specialize (Hk2 eq_refl). lia.
        -- split; [|done]. rewrite Hac in Hearly. rewrite Hearly by done. lia.
      * destruct Hm as [(-> & Hl & _)|(-> & -> & [[Hw _]|[Hac _]])].
        -- intros [[?|[_ Haw]]%Hl|?]; [apply (pc_recorded _ _ _ HP); by left| |apply (pc_recorded _ _ _ HP); by right].
           destruct (Hpass y Hrem Haw) as (k' & -> & _). done.
        -- intros _. apply (pc_recorded _ _ _ HP). rewrite Hw. by left.
        -- rewrite Hac in Hearly. rewrite Hearly by done. intros [?|?]; [done|lia].
    + split; rewrite ?set_node_step, ?set_node_phase, ?set_node_server, ?set_node_client;
        rewrite ?(decide_False (P := x = p)) by done; destruct HP; try assumption.
      case_decide; [subst|done]. destruct (advance_client_step _ _ _ _ x Ha) as [-> | ->]; [done|].
      apply (safe_step C (calm_safe C HC)).
Qed.

(** A message of an honest client passes the checks. *)
Lemma semver_eq_refl (a : SemVer) : semver_eq a a = true.
Proof. unfold semver_eq, cmp. rewrite !Z.eqb_refl. cbn. by destruct (bool_decide _). Qed.

Lemma honest_message_valid p m (s : Server) :
  p ∈ peers -> def_hash s = hash -> version s = v -> hash_signature m = sign p -> msg_version m = to_string v ->
  inbound_validate peer_string verify p (pk_of p) m s =
    (set_connected p s, {| sync_timestamp := timestamp m; resp_error := "" |}, []).
Proof.
  intros Hp Hh Hv Hs Hm. unfold inbound_validate, validate_request_with_public_key.
  rewrite Hm, (proj2 (version_roundtrip v) version_ok). cbn. by rewrite Hv, semver_eq_refl, Hh, Hs, sign_ok.
Qed.

(** The next record is in order. *)
Lemma record_in_order (C : Cluster) p q m r :
  calm C -> p ∈ peers -> q ∈ peers -> p <> q -> links C (q, p) = Checked m r ->
  exists b, snd (update_step q (msg_step m) (server_of C p)) = Ok b.
Proof.
  intros HC Hp Hq Hne HL. pose proof (calm_pair C HC p q Hp Hq Hne) as HP.
  destruct (safe_pair C (calm_safe C HC) p q) as (Hc & Hk & Hf & _); auto.
  destruct (safe_pair C (calm_safe C HC) q p) as (_ & _ & _ & Hd & _); auto.
  specialize (Hf m). rewrite HL in Hf. specialize (Hf eq_refl).
  pose proof (pc_message _ _ _ HP m ltac:(by rewrite HL)) as H0. pose proof (calm_last C HC q) as Hlast.
  destruct (update_step q (msg_step m) (server_of C p)) as [s [b|e|]] eqn:Eu; [by exists b| |];
    [exfalso|by destruct (update_step_no_panic q (msg_step m) (server_of C p)); rewrite Eu].
  apply update_step_err in Eu as [_ Hbad]. destruct (steps (server_of C p) !! q) as [k|] eqn:Ek.
  - pose proof (pc_order _ _ _ HP k m Ek ltac:(by rewrite HL)). pose proof (pc_nonneg _ _ _ HP k Ek).
    destruct (pc_record _ _ _ HP k Ek) as [? _]. unfold LAST_STEP, I64_MIN, I64_MAX in *. lia.
  - destruct (decide (1 <= step_of C p)) as [H1|H1].
    + destruct (pc_first _ _ _ HP (or_intror H1)) as [[k Hk']|(m' & r' & HL' & ?)]; [congruence|].
      rewrite HL in HL'. injection HL' as <- <-. lia.
    + pose proof (safe_step C (calm_safe C HC) p). lia.
Qed.

(** A stream does not finish a client with an error. *)
Lemma done_reset (c : Client) : done_result (exit_client reset_exit c) = done_result c.
Proof. done. Qed.

Lemma done_exit (c : Client) m r exit x :
  resp_error r = ""%string -> fst (outbound_response c m (inl r)) = Some exit ->
  msg_shutdown m = true /\ exit = GracefulShutdown /\
  (done_result (exit_client exit c) = Some x -> done_result c = Some x \/ x = Ok tt).
Proof.
  unfold outbound_response. intros ->. cbn. destruct (msg_shutdown m); [|done]. intros [= <-].
  split_and!; try done. unfold exit_client, on_outbound_exit, finish; cbn. destruct (finished c); cbn; naive_solver.
Qed.

Lemma clear_err p (s : Server) : err (clear_connected p s) = err s.
Proof. unfold clear_connected. by case_decide. Qed.

Lemma clear_connected_elem p r (s : Server) : r ∈ connected (clear_connected p s) -> r ∈ connected s /\ r <> p.
Proof. unfold clear_connected. case_decide; cbn; set_solver. Qed.

#[local] Ltac effects :=
  split_and!; try done;
  try solve [by left | by right | by left; eexists _, _ | by right; eexists _, _ | by case_decide
            | by intros [??]%clear_connected_elem | right; left; by intros (? & ? & ?)].

(** The steps of a stream between honest peers that can happen, and what they
    do to the server: nothing fails. *)
Lemma calm_stream_effect (C : Cluster) p q c s L :
  calm C -> p ∈ peers -> q ∈ peers -> p <> q ->
  stream_step p q (client_of C p q) (server_of C q) (links C (p, q)) c s L ->
  err s = None /\
  (forall x, done_result c = Some x -> x = Ok tt) /\
  (p ∈ connected s -> p ∈ connected (server_of C q) \/ exists m r, links C (p, q) = Sent m /\ L = Checked m r) /\
  good_link p L /\
  match in_flight L with
  | Some m => in_flight (links C (p, q)) = Some m \/
              links C (p, q) = Up /\ msg_step m = step (client_of C p q)
  | None => True
  end /\
  ((exists m r, L = Checked m r) \/ ~ (exists m r, links C (p, q) = Checked m r) \/ is_Some (steps s !! p)) /\
  (forall m r, L = Checked m r -> in_flight (links C (p, q)) = Some m).
Proof.
  intros HC Hp Hq Hne Hst. pose proof (calm_err C HC q) as Herr.
  pose proof (calm_done C HC p q) as Hdone. pose proof (calm_client C HC p q) as [Hsig Hver].
  pose proof (pc_link _ _ _ (calm_pair C HC q p Hq Hp ltac:(done))) as Hgood.
  pose proof (record_in_order C q p) as Hrec.
  remember (links C (p, q)) as L0 eqn:EL.
  destruct Hst as [_ _ _|L1 _ HL|now _ _|m s r ev _ Hv|m r s ev Hs|m r s e Hs|m r L1 _ HL _|m r L1 exit _ HL Ho
                  |m r _ Hsd| |L1 _|L1 m Hno|m r Hno];
    try (by destruct Hno; apply all_honest);
    rewrite ?clear_err.
  - effects. unfold try_claim_outbound. by destruct (outbound_claimed _).
  - effects. right; left. intros (m & r & ->). done.
  - effects. split; [done|]. cbn. by rewrite Hver.
  - rewrite honest_message_valid in Hv by (try apply (calm_server C HC); try done; apply Hgood). injection Hv as <- <- <-.
    effects; [unfold set_connected; by case_decide|by intros ? ? [= <- <-]].
  - unfold inbound_step in Hs. destruct (update_step _ _ _) as [s1 [b|e|]] eqn:Eu; simplify_eq.
    apply update_step_ok in Eu as (Hst & Hcn & _ & He & _).
    split_and!; try done; [congruence|rewrite Hcn; by left|]. right; right. rewrite Hst, lookup_insert_eq. by eexists.
  - exfalso. destruct (Hrec m r HC Hq Hp) as [b Hb]; [done..|].
    unfold inbound_step in Hs. by destruct (update_step _ _ _) as [s1 []]; simplify_eq.
  - effects. right; left. destruct HL as [-> | ->]; by intros (? & ? & ?).
  - assert (resp_error r = ""%string) as Hr by (by destruct HL as [-> | ->]).
    destruct (done_exit (client_of C p q) m r exit (Ok tt) Hr Ho) as (-> & _ & _).
    effects; try (by destruct L1).
    + intros x Hx. destruct (done_exit (client_of C p q) m r exit x Hr Ho) as (_ & _ & Hd).
      destruct (Hd Hx) as [?%Hdone|?]; done.
    + right; left. destruct HL as [-> | ->]; by intros (? & ? & ?).
  - effects.
  - effects.
  - effects.
    + destruct (in_flight L1); auto.
    + destruct L1; try (right; left; by intros (? & ? & ?)). left. by eexists _, _.
    + intros m r ->. done.
Qed.

Lemma calm_stream p q c s L (C C' : Cluster) :
  calm C -> p ∈ peers -> q ∈ peers -> p <> q ->
  stream_step p q (client_of C p q) (server_of C q) (links C (p, q)) c s L -> put_stream p q c s L C C' -> calm C'.
Proof.
  intros HC Hp Hq Hne Hst Hput. pose proof Hput as (Hcl & Hsv & Hln & Hsp).
  destruct (calm_stream_effect C p q c s L HC Hp Hq Hne Hst) as (Herr & Hdone & Hconn & Hgood & Hfl & Hchk & Hchk').
  destruct (stream_client _ _ _ _ _ _ _ _ Hst) as (Hstep & Hsig & Hver & _).
  destruct (stream_server _ _ _ _ _ _ _ _ Hst) as (Hothers & Hcothers & _ & Hcount & Hdh & Hv & _).
  pose proof (stream_steps _ _ _ _ _ _ _ _ Hst) as Hsteps.
  split.
  - by apply (safe_stream p q c s L C C' (calm_safe C HC)).
  - intros x. rewrite Hsv. case_decide; [done|apply HC].
  - intros x e. rewrite (proj2 (Hsp x)). apply HC.
  - intros x. rewrite (proj1 (Hsp x)). apply HC.
  - intros x. rewrite Hsv. case_decide; [subst; rewrite Hdh, Hv|]; apply HC.
  - intros x y. rewrite Hcl. case_decide as Hd; [destruct Hd as [-> ->]; rewrite Hsig, Hver|]; apply HC.
  - intros x y r. rewrite Hcl. case_decide as Hd; [apply Hdone|apply HC].
  - intros x r. rewrite Hsv. case_decide; [subst|apply HC].
    destruct (decide (r = p)) as [->|]; [intros _; by apply elem_of_remote|]. rewrite Hcothers by done. apply HC.
  - intros x y Hx Hy Hxy. pose proof (calm_pair C HC x y Hx Hy Hxy) as HP.
    destruct (decide (x = q)) as [->|Hxq].
    2: { split; rewrite ?(proj1 (Hsp _)), ?(proj2 (Hsp _)), ?Hcl, ?Hsv, ?Hln; rewrite ?decide_False by naive_solver;
         destruct HP; assumption. }
    destruct (decide (y = p)) as [->|Hyp].
    2: { split; rewrite ?(proj1 (Hsp _)), ?(proj2 (Hsp _)), ?Hcl, ?Hsv, ?Hln; rewrite ?(decide_True (P := q = q)) by done;
         rewrite ?decide_False by naive_solver; rewrite ?Hothers, ?Hcothers by done; destruct HP; assumption. }
    assert (forall k, steps s !! p = Some k -> steps (server_of C q) !! p = Some k \/
      exists m r, links C (p, q) = Checked m r /\ L = Answered m r /\ k = msg_step m) as Hrec.
    { intros k Hk. destruct Hsteps as [Hsame|(m & r & HL & HL' & Hsame)]; rewrite Hsame in Hk; [by left|].
      rewrite lookup_insert_eq in Hk. injection Hk as <-. right. eauto. }
    assert (is_Some (steps (server_of C q) !! p) -> is_Some (steps s !! p)) as Hsome.
    { destruct Hsteps as [->|(m & r & _ & _ & ->)]; [done|]. rewrite lookup_insert_eq. by eexists. }
    split; rewrite ?(proj1 (Hsp _)), ?(proj2 (Hsp _)), ?Hcl, ?Hsv, ?Hln; rewrite ?decide_True by done.
    + done.
    + rewrite Hstep. apply (pc_client _ _ _ HP).
    + intros m Hm. rewrite Hm in Hfl. destruct Hfl as [Hold|[_ ->]]; [by apply (pc_message _ _ _ HP)|].
      apply (pc_client _ _ _ HP).
    + intros k m [Hk|(m' & r & _ & -> & _)]%Hrec Hm; [|done]. rewrite Hm in Hfl.
      destruct Hfl as [Hold|[_ ->]]; [by apply (pc_order _ _ _ HP)|].
      destruct (safe_pair C (calm_safe C HC) q p) as (_ & Hle & _); auto.
    + intros k [Hk|(m & r & HL & _ & ->)]%Hrec; [by apply (pc_nonneg _ _ _ HP)|].
      apply (pc_message _ _ _ HP). by rewrite HL.
    + intros Hpre. destruct (decide (is_Some (steps s !! p))) as [?|Hnone]; [by left|right].
      assert (~ is_Some (steps (server_of C q) !! p)) as Hnone' by auto.
      assert (p ∈ connected (server_of C q) \/ 1 <= step_of C q -> exists m r, L = Checked m r /\ msg_step m <= 1) as Hcase.
      { intros Hold. destruct (pc_first _ _ _ HP Hold) as [?|(m & r & HL & Hle)]; [done|].
        destruct Hchk as [(m' & r' & ->)|[Hno|?]]; [|by destruct Hno; eauto|done].
        exists m', r'. split; [done|]. specialize (Hchk' m' r' eq_refl). rewrite HL in Hchk'. by injection Hchk' as ->. }
      destruct Hpre as [Hin|?]; [|by apply Hcase; right].
      destruct (Hconn Hin) as [?|(m & r & HL & ->)]; [by apply Hcase; left|].
      exists m, r. split; [done|]. destruct (decide (1 <= step_of C q)) as [H1|H1].
      { destruct Hcase as (m' & r' & [= <- <-] & ?); [by right|done]. }
      destruct (safe_pair C (calm_safe C HC) q p) as (Hc & _ & Hf & _); auto.
      destruct (safe_pair C (calm_safe C HC) p q) as (_ & _ & _ & Hd & _); auto.
      specialize (Hf m ltac:(by rewrite HL)). pose proof (safe_step C (calm_safe C HC) q). lia.
    + intros k [Hk|(m & r & HL & _ & ->)]%Hrec; [by apply (pc_record _ _ _ HP)|].
      destruct (steps (server_of C q) !! p) as [k|] eqn:Ek.
      * destruct (pc_record _ _ _ HP k Ek) as [? Hl]. pose proof (pc_order _ _ _ HP k m Ek ltac:(by rewrite HL)).
        split; [lia|]. intros ?%Hl. lia.
      * pose proof (pc_recorded _ _ _ HP) as Hr. rewrite Ek in Hr.
        pose proof (pc_message _ _ _ HP m ltac:(by rewrite HL)).
        split; [destruct (decide (2 <= step_of C q)); [|lia]|intros ?];
          destruct Hr as [? [=]]; auto.
    + intros Hl. apply Hsome. by apply (pc_recorded _ _ _ HP).
Qed.

Lemma reachable_calm (C : Cluster) : net_reachable C -> calm C.
Proof.
  intros Hr. assert (forall C1 C2, rtc net_step C1 C2 -> calm C1 -> calm C2) as Hall.
  { intros C1 C2 Hr'. induction Hr' as [|C1 C3 C2 Hs _ IH]; [done|]. intros HC. apply IH.
    apply step_is_cluster_step in Hs as [ho p n Hp Hh Ha|p q e Hp Hq Hne Hh He|p q c s L C4 Hp Hq Hne Hst Hput].
    - by eapply calm_advance.
    - by apply (calm_done C1 HC) in He.
    - by apply (calm_stream p q c s L C1). }
  eapply Hall; [done|]. apply calm_init.
Qed.


(** ** What a stream and its client know of each other *)

Definition closing (ph : Phase PeerId) : bool :=
  match ph with ShuttingDown _ | AwaitClient _ _ | AwaitShutdown | Finished => true | _ => false end.

(** The client of [p] for [q], by the state of the link. *)
Definition client_fits (ph : Phase PeerId) (c : Client) (rec : option Z) (L : Link) : Prop :=
  match L with
  | Down => outbound_claimed c = false /\ done_result c = None /\ finished c = false /\ stop c = false /\
            (active c = true <-> ph <> NotStarted)
  | Acked | Over => done_result c = Some (Ok tt) /\ shutdown_requested c = true /\ rec = Some LAST_STEP
  | _ => active c = true /\ is_connected c = true /\ done_result c = None /\ finished c = false /\
         stop c = false /\ ph <> NotStarted
  end.

(** The message on the link: a request to shut down comes with the last
    step, and what was answered is recorded. *)
Definition message_fits (c : Client) (rec : option Z) (down : Prop) (L : Link) : Prop :=
  match L with
  | Sent m | Checked m _ => msg_shutdown m = true -> shutdown_requested c = true /\ msg_step m = LAST_STEP
  | Answered m _ =>
      rec = Some (msg_step m) /\ (msg_shutdown m = true -> shutdown_requested c = true /\ msg_step m = LAST_STEP)
  | Recorded m _ =>
      rec = Some (msg_step m) /\ msg_shutdown m = true /\ shutdown_requested c = true /\ msg_step m = LAST_STEP /\ down
  | Over => down
  | _ => True
  end.

(** The client, by the phase of its node. *)
Definition phase_fits (q : PeerId) (n : Z) (ph : Phase PeerId) (c : Client) : Prop :=
  n - 1 <= step c /\
  (match ph with SettingStep todo => q ∉ todo -> step c = n | _ => step c = n end) /\
  (shutdown_requested c = true -> closing ph = true) /\
  match ph with
  | ShuttingDown todo => q ∉ todo -> done_result c = Some (Ok tt)
  | AwaitClient x todo =>
      (q = x -> shutdown_requested c = true) /\ (q ∉ todo -> q <> x -> done_result c = Some (Ok tt))
  | AwaitShutdown | Finished => done_result c = Some (Ok tt)
  | _ => True
  end.

Record pair_live (C : Cluster) (p q : PeerId) : Prop := {
  pl_client : client_fits (phase_of C p) (client_of C p q) (steps (server_of C q) !! p) (links C (p, q));
  pl_message : message_fits (client_of C p q) (steps (server_of C q) !! p) (p ∈ shutdown (server_of C q)) (links C (p, q));
  pl_phase : phase_fits q (step_of C p) (phase_of C p) (client_of C p q);
}.

(** The clients still to be shut down are those of other peers. *)
Definition todo_known (p : PeerId) (ph : Phase PeerId) : Prop :=
  match ph with
  | ShuttingDown todo => forall x, x ∈ todo -> x ∈ remote p
  | AwaitClient y todo => y ∈ remote p /\ forall x, x ∈ todo -> x ∈ remote p
  | _ => True
  end.

Record live (C : Cluster) : Prop := {
  live_calm : calm C;
  live_started : forall p, started (server_of C p) = true <-> phase_of C p <> NotStarted;
  live_closing : forall p, closing (phase_of C p) = true -> step_of C p = LAST_STEP;
  live_known : forall p r, r ∈ shutdown (server_of C p) -> r ∈ remote p;
  live_todo : forall p, todo_known p (phase_of C p);
  live_pair : forall p q, p ∈ peers -> q ∈ peers -> p <> q -> pair_live C p q;
}.

Lemma live_init : live cluster_init.
Proof.
  split; try done. by apply calm_init.
Qed.

(** ** Preservation *)

Lemma client_fits_phase ph ph' (c : Client) rec L :
  ph <> NotStarted -> ph' <> NotStarted -> client_fits ph c rec L -> client_fits ph' c rec L.
Proof. intros ? ?. destruct L; cbn; naive_solver. Qed.

Lemma client_fits_shutdown ph (c : Client) rec L : client_fits ph c rec L -> client_fits ph (request_shutdown c) rec L.
Proof. destruct L; cbn; naive_solver. Qed.

Lemma message_fits_shutdown (c : Client) rec down L : message_fits c rec down L -> message_fits (request_shutdown c) rec down L.
Proof. destruct L; cbn; naive_solver. Qed.

(** The main thread, phase by phase. *)
Lemma advance_fits ho p n n' q rec down L :
  advance ho p n = Some n' -> q ∈ remote p -> (forall e, n_phase n' <> Failed e) ->
  client_fits (n_phase n) (n_clients n q) rec L -> message_fits (n_clients n q) rec down L ->
  phase_fits q (n_step n) (n_phase n) (n_clients n q) ->
  (forall x r, done_result (n_clients n x) = Some r -> r = Ok tt) ->
  client_fits (n_phase n') (n_clients n' q) rec L /\ message_fits (n_clients n' q) rec down L /\
  phase_fits q (n_step n') (n_phase n') (n_clients n' q).
Proof.
  intros Ha Hq Hnf Hc Hm Hp Hdone. pose proof (advance_clients _ _ _ _ q Ha) as Hcl.
  generalize dependent (n_clients n' q). intros c' Hcl.
  unfold DkgSyncNet.advance, after_wait, begin_step, wait_finished in Ha.
  destruct n as [s cs k ph]; cbn [n_phase n_step n_server n_clients] in *.
  destruct Hp as (Hp1 & Hp2 & Hp3 & Hp4).
  destruct ph as [| | |[|x todo]| | |[|x todo]|x todo| | |e]; try done.
  - injection Ha as <-. rewrite decide_True in Hcl by done. subst c'. cbn.
    rewrite (proj1 (proj2 (rest_updated _ _ _))). split_and!; try done.
    destruct L; cbn in Hc |- *; naive_solver.
  - destruct (err s) as [e|]; [injection Ha as <-; by destruct (Hnf e)|]. destruct (forallb _ _); [|done].
    injection Ha as <-. cbn in Hcl. rewrite decide_True in Hcl by done. subst c'. cbn.
    rewrite (proj1 (proj2 (rest_updated _ _ _))). split_and!; try done. by apply (client_fits_phase Connecting).
  - destruct (await_all_connected s) as [[|e|]|]; try done; injection Ha as <-; [|by destruct (Hnf e)]. subst c'. cbn.
    unfold phase_fits. split_and!; try done; [by apply (client_fits_phase AwaitConnected)|lia].
  - injection Ha as <-. subst c'. cbn. unfold phase_fits. split_and!; try done; [by apply (client_fits_phase (SettingStep []))|].
    apply Hp2, not_elem_of_nil.
  - injection Ha as <-. subst c'. cbn. case_decide as Hd.
    + unfold phase_fits. split_and!; try done; [by apply (client_fits_phase (SettingStep (x :: todo)))|cbn; lia].
    + unfold phase_fits. split_and!; try done; [by apply (client_fits_phase (SettingStep (x :: todo)))|].
      intros Hn. apply Hp2. by apply not_elem_of_cons.
  - destruct (await_all_at_step _ _ _) as [[|e|]|]; try done; injection Ha as <-; [|by destruct (Hnf e)]. subst c'. cbn.
    split_and!; try done. by apply (client_fits_phase AwaitStep).
  - injection Ha as <-. subst c'. case_match; cbn; unfold phase_fits.
    + split_and!; try done; [by apply (client_fits_phase Working)|lia].
    + split_and!; try done. by apply (client_fits_phase Working).
  - injection Ha as <-. subst c'. cbn. unfold phase_fits. split_and!; try done; [by apply (client_fits_phase (ShuttingDown []))|].
    apply Hp4, not_elem_of_nil.
  - injection Ha as <-. subst c'. cbn. case_decide as Hd.
    + split_and!; try done.
      * apply client_fits_shutdown. by apply (client_fits_phase (ShuttingDown (x :: todo))).
      * by apply message_fits_shutdown.
    + unfold phase_fits. split_and!; try done; [by apply (client_fits_phase (ShuttingDown (x :: todo)))|].
      intros Hn _. apply Hp4. by apply not_elem_of_cons.
  - destruct (done_result (cs x)) as [r|] eqn:Er; cbn in Ha; [|done]. apply Hdone in Er as Hr. subst r.
    injection Ha as <-. subst c'. cbn. unfold phase_fits. split_and!; try done; [by apply (client_fits_phase (AwaitClient x todo))|].
    intros Hn. destruct (decide (q = x)) as [->|]; [done|]. by apply Hp4.
  - destruct (await_all_shutdown _) as [[|e|]|]; try done; injection Ha as <-; [|by destruct (Hnf e)]. subst c'. cbn.
    split_and!; try done. by apply (client_fits_phase AwaitShutdown).
Qed.

Lemma advance_started ho p n n' : advance ho p n = Some n' -> n_phase n' <> NotStarted.
Proof.
  unfold DkgSyncNet.advance, after_wait, begin_step. intros Ha.
  destruct (n_phase n) as [| | |[|y todo]| | |[|y todo]|y todo| | |e]; repeat (case_match; try done); by simplify_eq/=.
Qed.

Lemma advance_closing ho p n n' :
  advance ho p n = Some n' -> closing (n_phase n') = true ->
  n_step n' = n_step n /\ (closing (n_phase n) = true \/ LAST_STEP <= n_step n).
Proof.
  unfold DkgSyncNet.advance, after_wait, begin_step. intros Ha.
  destruct (n_phase n) as [| | |[|y todo]| | |[|y todo]|y todo| | |e]; repeat (case_match; try done);
    simplify_eq/=; zbool; auto; done.
Qed.

Lemma advance_todo ho p n n' : advance ho p n = Some n' -> todo_known p (n_phase n) -> todo_known p (n_phase n').
Proof.
  unfold DkgSyncNet.advance, after_wait, begin_step. intros Ha Ht.
  destruct (n_phase n) as [| | |[|y todo]| | |[|y todo]|y todo| | |e]; repeat (case_match; try done);
    simplify_eq/=; try done; [split; [apply Ht; by constructor|]; intros x Hx; apply Ht; by constructor|apply Ht].
Qed.

Lemma live_advance ho p n (C : Cluster) :
  live C -> p ∈ peers -> advance ho p (nodes C p) = Some n -> live (set_node p (fun _ => n) C).
Proof.
  intros HC Hp Ha. pose proof (calm_advance _ _ _ _ (live_calm C HC) Hp Ha) as Hcalm.
  destruct (advance_server _ _ _ _ Ha) as [(Hs & Hcn & Hsh & _) [_ Hst]].
  split; [done|..].
  - intros x. rewrite set_node_server, set_node_phase. case_decide; [subst|apply HC]. rewrite Hst.
    pose proof (live_started C HC p) as Hl. pose proof (advance_started _ _ _ _ Ha).
    fold (phase_of C p) (server_of C p). split; [done|intros _]. destruct (phase_of C p); try done; by apply Hl.
  - intros x. rewrite set_node_step, set_node_phase. case_decide; [subst|apply HC].
    intros [-> [?|?]]%(advance_closing _ _ _ _ Ha); [by apply (live_closing C HC)|].
    pose proof (calm_last C (live_calm C HC) p). unfold step_of in *. lia.
  - intros x r. rewrite set_node_server. case_decide; [subst; rewrite Hsh|]; apply HC.
  - intros x. rewrite set_node_phase. case_decide; [subst|apply HC]. eapply advance_todo; [done|apply HC].
  - intros x y Hx Hy Hne. destruct (live_pair C HC x y Hx Hy Hne) as [P1 P2 P3].
    assert (forall z, steps (server_of (set_node p (fun _ => n) C) z) = steps (server_of C z) /\
      shutdown (server_of (set_node p (fun _ => n) C) z) = shutdown (server_of C z)) as Hsv.
    { intros z. rewrite set_node_server. case_decide; [by subst|done]. }
    destruct (decide (x = p)) as [->|Hxn].
    + destruct (advance_fits ho p (nodes C p) n y (steps (server_of C y) !! p) (p ∈ shutdown (server_of C y)) (links C (p, y)))
        as (Q1 & Q2 & Q3); try done.
      * by apply elem_of_remote.
      * intros e. by apply (advance_not_failed ho p n C e (live_calm C HC)).
      * intros z r. apply (calm_done C (live_calm C HC) p z).
      * split; rewrite ?set_node_step, ?set_node_phase, ?set_node_client, ?(proj1 (Hsv _)), ?(proj2 (Hsv _));
          by rewrite ?decide_True.
    + split; rewrite ?set_node_step, ?set_node_phase, ?set_node_client, ?(proj1 (Hsv _)), ?(proj2 (Hsv _));
        by rewrite ?(decide_False (P := x = p)).
Qed.

(** A step of a stream, state by state of the link. *)
Lemma stream_fits p q ph n c s L c' s' L' :
  stream_step p q c s L c' s' L' -> p ∈ peers -> q ∈ peers ->
  good_link p L -> good_link p L' ->
  (shutdown_requested c = true -> n = LAST_STEP) ->
  client_fits ph c (steps s !! p) L -> message_fits c (steps s !! p) (p ∈ shutdown s) L -> phase_fits q n ph c ->
  client_fits ph c' (steps s' !! p) L' /\ message_fits c' (steps s' !! p) (p ∈ shutdown s') L' /\ phase_fits q n ph c'.
Proof.
  intros Hst Hp Hq Hg Hg' Hlast Hc Hm Hf.
  destruct (stream_client _ _ _ _ _ _ _ _ Hst) as (Hstep & _ & _ & Hsr).
  assert ((done_result c' = done_result c \/ done_result c' = Some (Ok tt)) -> phase_fits q n ph c') as Hphase.
  { intros Hd. unfold phase_fits in *. rewrite Hstep, Hsr. destruct Hf as (? & ? & ? & Hf). split_and!; try done.
    destruct ph; try done; destruct Hd as [-> | ->]; naive_solver. }
  destruct Hst as [_ Ha Hu|L1 _ HL|now _ _|m s' r ev _ Hv|m r s' ev Hs|m r s' e Hs|m r L1 _ HL Ho|m r L1 exit _ HL Ho
                  |m r _ Hsd| |L1 _|L1 m Hno|m r Hno];
    try (by destruct Hno; apply all_honest); rewrite ?clear_steps.
  - destruct Hc as (_ & Hd & Hfi & Hs & Hph). apply Hph in Ha as Hph'. unfold try_claim_outbound in Hphase |- *. rewrite Hu in Hphase |- *. cbn in Hphase |- *.
    split_and!; [by case_decide|by case_decide|]. apply Hphase. by left.
  - destruct L1; try done; destruct Hc as (Ha & _ & Hd & Hfi & Hs & Hph);
      (split_and!; [by split_and!|done|apply Hphase; by left]).
  - split_and!; [done| |done]. cbn. intros Hsd. split; [done|]. destruct Hf as (_ & Hst & Hcl & _).
    specialize (Hcl Hsd). rewrite <-(Hlast Hsd). by destruct ph.
  - assert (steps s' = steps s /\ shutdown s' = shutdown s) as [-> ->].
    { unfold inbound_validate, set_connected, set_err in Hv. by repeat case_match; simplify_eq. }
    by split_and!.
  - unfold inbound_step in Hs. destruct (update_step _ _ _) as [s1 [b|e|]] eqn:Eu; simplify_eq.
    apply update_step_ok in Eu as (Hst & _ & Hsh & _). rewrite Hst, lookup_insert_eq. by split_and!.
  - assert (steps s' = steps s) as ->.
    { unfold inbound_step, set_err in Hs. destruct (update_step _ _ _) as [s1 [b|e'|]] eqn:Eu; simplify_eq.
      apply update_step_err in Eu as [-> _]. by repeat case_match. }
    by split_and!.
  - split_and!; [|done|done]. by destruct HL as [-> | ->].
  - assert (resp_error r = ""%string) as Hr by (by destruct HL as [-> | ->]).
    destruct (done_exit c m r exit (Ok tt) Hr Ho) as (Hsd & -> & _). rewrite Hsd.
    assert (done_result c = None /\ finished c = false) as [Hd Hfi]
      by (destruct HL as [-> | ->]; destruct Hc as (_ & _ & ? & ? & _); done).
    assert (done_result (exit_client GracefulShutdown c) = Some (Ok tt)) as Hd'.
    { unfold exit_client, on_outbound_exit, finish; cbn. by rewrite Hfi. }
    specialize (Hphase (or_intror Hd')). destruct HL as [-> | ->]; unfold client_fits, message_fits in *; rewrite Hsr, Hd'.
    + destruct Hm as [-> Hm]. destruct (Hm Hsd) as [? ->]. by split_and!.
    + destruct Hm as (-> & _ & ? & -> & ?). by split_and!.
  - split_and!; [done|..|done]. cbn in Hm |- *. destruct Hm as (? & Hsd'). specialize (Hsd' Hsd).
    split_and!; try done; try apply Hsd'. unfold clear_connected. case_decide; cbn; set_solver.
  - split_and!; [done|..|done]. cbn. unfold clear_connected. case_decide; cbn; set_solver.
  - assert (shutdown (clear_connected p s) = shutdown s) as -> by (unfold clear_connected; by case_decide).
    by split_and!.
Qed.

Lemma live_stream p q c s L (C C' : Cluster) :
  live C -> p ∈ peers -> q ∈ peers -> p <> q ->
  stream_step p q (client_of C p q) (server_of C q) (links C (p, q)) c s L -> put_stream p q c s L C C' -> live C'.
Proof.
  intros HC Hp Hq Hne Hst Hput. pose proof Hput as (Hcl & Hsv & Hln & Hsp).
  pose proof (calm_stream p q c s L C C' (live_calm C HC) Hp Hq Hne Hst Hput) as Hcalm.
  destruct (stream_server _ _ _ _ _ _ _ _ Hst) as (Hothers & _ & Hsothers & _ & _ & _ & Hstart).
  split; [done|..].
  - intros x. rewrite Hsv, (proj2 (Hsp x)). case_decide; [subst; rewrite Hstart|]; apply HC.
  - intros x. rewrite (proj1 (Hsp x)), (proj2 (Hsp x)). apply HC.
  - intros x r. rewrite Hsv. case_decide; [subst|apply HC].
    destruct (decide (r = p)) as [->|]; [intros _; by apply elem_of_remote|]. rewrite Hsothers by done. apply HC.
  - intros x. rewrite (proj2 (Hsp x)). apply HC.
  - intros x y Hx Hy Hxy. destruct (live_pair C HC x y Hx Hy Hxy) as [P1 P2 P3].
    destruct (decide (x = p /\ y = q)) as [[-> ->]|Hd].
    + destruct (stream_fits p q (phase_of C p) (step_of C p) _ _ _ _ _ _ Hst Hp Hq) as (Q1 & Q2 & Q3); try done.
      * apply (pc_link _ _ _ (calm_pair C (live_calm C HC) q p Hq Hp ltac:(done))).
      * pose proof (pc_link _ _ _ (calm_pair C' Hcalm q p Hq Hp ltac:(done))) as Hg.
        by rewrite Hln, decide_True in Hg.
      * intros Hsr. apply (live_closing C HC). by apply P3.
      * split; rewrite ?(proj1 (Hsp _)), ?(proj2 (Hsp _)), ?Hcl, ?Hsv, ?Hln; by rewrite ?decide_True.
    + assert (steps (server_of C' y) !! x = steps (server_of C y) !! x /\
              (x ∈ shutdown (server_of C' y) <-> x ∈ shutdown (server_of C y))) as [Hs1 Hs2].
      { rewrite Hsv. case_decide; [subst|done]. split; [apply Hothers|apply Hsothers]; naive_solver. }
      split; rewrite ?(proj1 (Hsp _)), ?(proj2 (Hsp _)), ?Hcl, ?Hln, ?Hs1; rewrite ?decide_False by naive_solver; try done.
      destruct (links C (x, y)); cbn in P2 |- *; rewrite ?Hs2; done.
Qed.

Lemma reachable_live_from (C1 C2 : Cluster) : rtc net_step C1 C2 -> live C1 -> live C2.
Proof.
  intros Hr. induction Hr as [|C1 C3 C2 Hs _ IH]; [done|]. intros HC. apply IH.
  apply step_is_cluster_step in Hs as [ho p n Hp Hh Ha|p q e Hp Hq Hne Hh He|p q c s L C4 Hp Hq Hne Hst Hput].
  - by eapply live_advance.
  - by apply (calm_done C1 (live_calm C1 HC)) in He.
  - by apply (live_stream p q c s L C1).
Qed.

Lemma reachable_live (C : Cluster) : net_reachable C -> live C.
Proof. intros Hr. by apply (reachable_live_from cluster_init C), live_init. Qed.

(** ** Driving a stream *)

(** A run that works on the stream from [p] to [q] only. *)
Record touches (p q : PeerId) (C C' : Cluster) : Prop := {
  to_nodes : forall x, step_of C' x = step_of C x /\ phase_of C' x = phase_of C x;
  to_clients : forall x y, ~ (x = p /\ y = q) -> client_of C' x y = client_of C x y;
  to_links : forall x y, ~ (x = p /\ y = q) -> links C' (x, y) = links C (x, y);
  to_servers : forall x, x <> q -> server_of C' x = server_of C x;
  to_server : same_others p (server_of C q) (server_of C' q);
  to_client : step (client_of C' p q) = step (client_of C p q) /\
              shutdown_requested (client_of C' p q) = shutdown_requested (client_of C p q);
}.

Lemma touches_trans p q (C1 C2 C3 : Cluster) : touches p q C1 C2 -> touches p q C2 C3 -> touches p q C1 C3.
Proof.
  intros [A1 A2 A3 A4 A5 A6] [B1 B2 B3 B4 B5 B6]. split.
  - intros x. destruct (A1 x), (B1 x). split; congruence.
  - intros x y Hd. by rewrite B2, A2.
  - intros x y Hd. by rewrite B3, A3.
  - intros x Hd. by rewrite B4, A4.
  - by eapply same_others_trans.
  - destruct A6, B6. split; congruence.
Qed.

Lemma stream_touches p q c s L (C C' : Cluster) :
  stream_step p q (client_of C p q) (server_of C q) (links C (p, q)) c s L -> put_stream p q c s L C C' ->
  touches p q C C'.
Proof.
  intros Hst (Hcl & Hsv & Hln & Hsp). destruct (stream_client _ _ _ _ _ _ _ _ Hst) as (Hstep & _ & _ & Hsr).
  split; try done.
  - intros x y Hd. by rewrite Hcl, decide_False.
  - intros x y Hd. rewrite Hln, decide_False; [done|]. naive_solver.
  - intros x Hd. by rewrite Hsv, decide_False.
  - rewrite Hsv, decide_True by done. by eapply stream_server.
  - by rewrite Hcl, decide_True.
Qed.

(** A label of the stream, with the state it leads to. *)
Lemma do_stream l p q c s L (C C' : Cluster) :
  label_ok peers l -> apply_label default_order l C = Some C' ->
  stream_step p q (client_of C p q) (server_of C q) (links C (p, q)) c s L -> put_stream p q c s L C C' ->
  net_step C C' /\ touches p q C C' /\ client_of C' p q = c /\ server_of C' q = s /\ links C' (p, q) = L.
Proof.
  intros Hl Ha Hst Hput. split; [by exists default_order, l|]. split; [by eapply stream_touches|].
  destruct Hput as (Hcl & Hsv & Hln & _). rewrite Hcl, Hsv, Hln. by rewrite !decide_True.
Qed.

Section stream.
Context (p q : PeerId) (Hp : p ∈ peers) (Hq : q ∈ peers) (Hne : p <> q).

Lemma do_reset (C : Cluster) :
  match links C (p, q) with Refused | Up | Sent _ | Answered _ _ | Recorded _ _ => True | _ => False end ->
  exists C', net_step C C' /\ touches p q C C' /\ links C' (p, q) = Down.
Proof.
  intros HL. eexists. destruct (do_stream (LReset p q) p q (exit_client reset_exit (client_of C p q))
    (clear_connected p (server_of C q)) Down C
    (set_link p q Down (on_server q (clear_connected p) (on_client p q (exit_client reset_exit) C)))) as (? & ? & _ & _ & ?).
  - done.
  - cbn. destruct (links C (p, q)); try done; by rewrite decide_True by auto.
  - by apply st_reset; auto.
  - by apply put_stream_intro.
  - done.
Qed.

Lemma do_open (C : Cluster) :
  live C -> links C (p, q) = Down -> phase_of C p <> NotStarted -> phase_of C q <> NotStarted ->
  exists C', net_step C C' /\ touches p q C C' /\ links C' (p, q) = Up /\ is_connected (client_of C' p q) = true.
Proof.
  intros HC HL Hpp Hpq. pose proof (pl_client _ _ _ (live_pair C HC p q Hp Hq Hne)) as Hf.
  rewrite HL in Hf. destruct Hf as (Hu & Hd & _ & _ & Ha). apply Ha in Hpp. apply (live_started C HC) in Hpq.
  eexists. edestruct (do_stream (LOpen p q) p q (outbound_start (fst (try_claim_outbound (client_of C p q))))
    (server_of C q) Up C) as (? & ? & Hc & _ & ?).
  - done.
  - cbn. rewrite HL, decide_True by auto. rewrite decide_False by (intros [_ ?]; congruence). done.
  - rewrite HL. replace Up with (if decide (q ∈ honest /\ started (server_of C q) = false) then Refused else Up);
      [by apply st_open; auto|]. rewrite decide_False; [done|]. intros [_ ?]; congruence.
  - exact (put_stream_client p q (fun c => outbound_start (fst (try_claim_outbound c))) Up C _ eq_refl).
  - split_and!; try done. rewrite Hc. done.
Qed.

Lemma do_send (C : Cluster) :
  live C -> links C (p, q) = Up ->
  exists C', net_step C C' /\ touches p q C C' /\ links C' (p, q) = Sent (outbound_request 0 (client_of C p q)).
Proof.
  intros HC HL. pose proof (pl_client _ _ _ (live_pair C HC p q Hp Hq Hne)) as Hf.
  rewrite HL in Hf. destruct Hf as (_ & _ & _ & _ & Hs & _).
  eexists. edestruct (do_stream (LSend p q 0) p q (client_of C p q) (server_of C q)
    (Sent (outbound_request 0 (client_of C p q))) C) as (? & ? & _ & _ & ?).
  - done.
  - cbn. rewrite HL, decide_True by auto. done.
  - rewrite HL. by apply st_send; auto.
  - by apply put_stream_link.
  - by split_and!.
Qed.

Lemma do_check (C : Cluster) m :
  live C -> links C (p, q) = Sent m ->
  exists C' r, net_step C C' /\ touches p q C C' /\ links C' (p, q) = Checked m r /\ p ∈ connected (server_of C' q).
Proof.
  intros HC HL. pose proof (pc_link _ _ _ (calm_pair C (live_calm C HC) q p Hq Hp ltac:(done))) as Hg.
  rewrite HL in Hg. destruct Hg as [Hg1 Hg2]. destruct (calm_server C (live_calm C HC) q) as [Hh Hv].
  pose proof (honest_message_valid p m (server_of C q) Hp Hh Hv Hg1 Hg2) as Hval.
  eexists _, _. edestruct (do_stream (LCheck p q) p q (client_of C p q) (set_connected p (server_of C q))) as (? & ? & _ & Hs & ?).
  - done.
  - cbn. rewrite HL, decide_True by auto. rewrite Hval. done.
  - rewrite HL. eapply st_check; [by auto|exact Hval].
  - exact (put_stream_server p q (fun _ => set_connected p (server_of C q)) _ C _ eq_refl).
  - split_and!; [done..|]. rewrite Hs. unfold set_connected. case_decide; cbn; set_solver.
Qed.

Lemma do_record (C : Cluster) m r :
  live C -> links C (p, q) = Checked m r ->
  exists C', net_step C C' /\ touches p q C C' /\ links C' (p, q) = Answered m r /\
    steps (server_of C' q) !! p = Some (msg_step m) /\ connected (server_of C' q) = connected (server_of C q).
Proof.
  intros HC HL. destruct (record_in_order C q p m r (live_calm C HC)) as [b Hb]; [done..|].
  destruct (update_step p (msg_step m) (server_of C q)) as [s x] eqn:Eu. cbn in Hb. subst x.
  assert (exists ev, inbound_step p m (server_of C q) = (s, Ok ev)) as [ev Hin]
    by (unfold inbound_step; rewrite Eu; eauto).
  apply update_step_ok in Eu as (Hst & Hcn & _).
  eexists. edestruct (do_stream (LRecord p q) p q (client_of C p q) s (Answered m r) C) as (? & ? & _ & Hs & ?).
  - done.
  - cbn. rewrite HL, Hin. done.
  - rewrite HL. by eapply st_record.
  - exact (put_stream_server p q (fun _ => s) _ C _ eq_refl).
  - rewrite Hs, Hst, lookup_insert_eq. by split_and!.
Qed.

Lemma do_ack_shutdown (C : Cluster) m r :
  live C -> links C (p, q) = Answered m r -> msg_shutdown m = true ->
  exists C', net_step C C' /\ touches p q C C' /\ links C' (p, q) = Acked.
Proof.
  intros HC HL Hsd. pose proof (pc_link _ _ _ (calm_pair C (live_calm C HC) q p Hq Hp ltac:(done))) as Hg.
  rewrite HL in Hg. cbn in Hg.
  assert (fst (outbound_response (client_of C p q) m (inl r)) = Some GracefulShutdown) as Ho
    by (unfold outbound_response; by rewrite Hg, Hsd).
  eexists. edestruct (do_stream (LAck p q) p q (exit_client GracefulShutdown (client_of C p q)) (server_of C q) Acked C)
    as (? & ? & _ & _ & ?).
  - done.
  - cbn. rewrite decide_True by auto. rewrite HL. unfold take_answer. rewrite Ho, Hsd. done.
  - rewrite HL. pose proof (st_exit p q (client_of C p q) (server_of C q) m r (Answered m r) GracefulShutdown) as Hx.
    rewrite Hsd in Hx. apply Hx; auto.
  - exact (put_stream_client p q (exit_client GracefulShutdown) Acked C _ eq_refl).
  - by split_and!.
Qed.

Lemma do_end (C : Cluster) :
  live C -> links C (p, q) = Acked ->
  exists C', net_step C C' /\ touches p q C C' /\ links C' (p, q) = Over.
Proof.
  intros HC HL. eexists. edestruct (do_stream (LEnd p q) p q (client_of C p q)
    (clear_connected p (set_shutdown p (server_of C q))) Over C) as (? & ? & _ & _ & ?).
  - done.
  - cbn. rewrite decide_True by auto. rewrite HL. done.
  - rewrite HL. by apply st_end_acked; auto.
  - exact (put_stream_server p q (fun s => clear_connected p (set_shutdown p s)) Over C _ eq_refl).
  - by split_and!.
Qed.
End stream.

(** [q] hears from [p] what step it is at. *)
Lemma deliver p q (C : Cluster) :
  p ∈ peers -> q ∈ peers -> p <> q -> live C -> phase_of C p <> NotStarted -> phase_of C q <> NotStarted ->
  done_result (client_of C p q) = None ->
  exists C' m r, rtc net_step C C' /\ touches p q C C' /\ links C' (p, q) = Answered m r /\
    msg_shutdown m = shutdown_requested (client_of C p q) /\
    steps (server_of C' q) !! p = Some (step (client_of C p q)) /\ p ∈ connected (server_of C' q).
Proof.
  intros Hp Hq Hne HC Hpp Hpq Hd.
  assert (touches p q C C) as Hrefl by done.
  (* the stream is closed *)
  assert (exists C1, rtc net_step C C1 /\ touches p q C C1 /\ links C1 (p, q) = Down) as (C1 & R1 & T1 & L1).
  { pose proof (pl_client _ _ _ (live_pair C HC p q Hp Hq Hne)) as Hf.
    assert (forall C0, rtc net_step C C0 -> touches p q C C0 ->
      match links C0 (p, q) with Refused | Up | Sent _ | Answered _ _ | Recorded _ _ => True | _ => False end ->
      exists C1, rtc net_step C C1 /\ touches p q C C1 /\ links C1 (p, q) = Down) as Hreset.
    { intros C0 R0 T0 H0. destruct (do_reset p q Hp Hq Hne C0 H0) as (C1 & S1 & T1 & L1).
      exists C1. split_and!; [by eapply rtc_r|by eapply touches_trans|done]. }
    destruct (links C (p, q)) as [| | | |m r| | | |] eqn:EL;
      try (apply (Hreset C); [done|done|by rewrite EL]).
    - by exists C.
    - destruct (do_record p q Hp Hq Hne C m r HC EL) as (C0 & S0 & T0 & L0 & _).
      apply (Hreset C0); [by apply rtc_once|done|by rewrite L0].
    - destruct Hf as [Hf _]. congruence.
    - destruct Hf as [Hf _]. congruence. }
  pose proof (reachable_live_from C C1 R1 HC) as HC1.
  destruct (do_open p q Hp Hq Hne C1 HC1 L1) as (C2 & S2 & T2 & L2 & _);
    [by rewrite (proj2 (to_nodes _ _ _ _ T1 _))..|].
  pose proof (reachable_live_from C1 C2 (rtc_once _ _ S2) HC1) as HC2.
  destruct (do_send p q Hp Hq Hne C2 HC2 L2) as (C3 & S3 & T3 & L3).
  pose proof (reachable_live_from C2 C3 (rtc_once _ _ S3) HC2) as HC3.
  destruct (do_check p q Hp Hq Hne C3 _ HC3 L3) as (C4 & r & S4 & T4 & L4 & Hc4).
  pose proof (reachable_live_from C3 C4 (rtc_once _ _ S4) HC3) as HC4.
  destruct (do_record p q Hp Hq Hne C4 _ r HC4 L4) as (C5 & S5 & T5 & L5 & Hst & Hcn).
  assert (touches p q C C2) as T02 by by eapply touches_trans.
  assert (touches p q C C5) as T05
    by (eapply touches_trans; [|done]; eapply touches_trans; [|done]; by eapply touches_trans).
  exists C5, (outbound_request 0 (client_of C2 p q)), r. cbn.
  destruct (to_client _ _ _ _ T02) as [E1 E2]. split_and!; try done.
  - do 4 (eapply rtc_r; [|done]). done.
  - by rewrite Hst; cbn; rewrite E1.
  - by rewrite Hcn.
Qed.

(** [p] hears from all of [l]. *)
Record gathered (p : PeerId) (l : list PeerId) (C C' : Cluster) : Prop := {
  ga_nodes : forall x, step_of C' x = step_of C x /\ phase_of C' x = phase_of C x;
  ga_clients : forall x, x ∉ l -> client_of C' x p = client_of C x p;
  ga_steps : forall x, x ∈ l -> steps (server_of C' p) !! x = Some (step (client_of C x p));
  ga_connected : forall x, x ∈ l -> done_result (client_of C x p) = None -> x ∈ connected (server_of C' p);
}.

(** A client that is done told its server the last step. *)
Lemma done_recorded p q (C : Cluster) r :
  p ∈ peers -> q ∈ peers -> p <> q -> live C -> done_result (client_of C p q) = Some r ->
  steps (server_of C q) !! p = Some (step (client_of C p q)) /\ (links C (p, q) = Acked \/ links C (p, q) = Over).
Proof.
  intros Hp Hq Hne HC Hd. destruct (live_pair C HC p q Hp Hq Hne) as [P1 _ (_ & P3 & P4 & _)].
  assert ((links C (p, q) = Acked \/ links C (p, q) = Over) /\ shutdown_requested (client_of C p q) = true /\
    steps (server_of C q) !! p = Some LAST_STEP) as (HL & Hsr & ->).
  { destruct (links C (p, q)); cbn in P1; destruct_and?; auto; congruence. }
  split; [|done]. specialize (P4 Hsr). rewrite <-(live_closing C HC p P4). f_equal. symmetry. by destruct (phase_of C p).
Qed.

Lemma gather p l (C : Cluster) :
  p ∈ peers -> NoDup l -> (forall x, x ∈ l -> x ∈ remote p) -> live C ->
  phase_of C p <> NotStarted -> (forall x, x ∈ l -> phase_of C x <> NotStarted) ->
  exists C', rtc net_step C C' /\ gathered p l C C'.
Proof.
  intros Hp Hl. induction Hl as [|x l Hx Hl IH]; intros Hrem HC Hpp Hpl.
  { exists C. split; [done|]. split; try done; intros x Hx; by apply not_elem_of_nil in Hx. }
  destruct IH as (C1 & R1 & [G1 G2 G3 G4]); [intros; apply Hrem; by constructor|done|done|intros; apply Hpl; by constructor|].
  pose proof (reachable_live_from C C1 R1 HC) as HC1.
  assert (x ∈ x :: l) as Hxl by constructor. destruct (proj1 (elem_of_remote p x) (Hrem x Hxl)) as [Hxp Hxpeer].
  specialize (G2 x Hx) as Hcx.
  destruct (done_result (client_of C x p)) as [r|] eqn:Ed.
  - exists C1. split; [done|]. rewrite <-Hcx in Ed.
    destruct (done_recorded x p C1 r) as [Hrec _]; [done..|].
    split; [done| | |].
    + intros y [? Hy]%not_elem_of_cons. by apply G2.
    + intros y [->|Hy]%elem_of_cons; [by rewrite Hrec, Hcx|by apply G3].
    + intros y [->|Hy]%elem_of_cons; [rewrite <-Hcx; congruence|by apply G4].
  - destruct (deliver x p C1) as (C2 & m & r & R2 & T2 & _ & _ & Hst & Hcn); try done.
    { rewrite (proj2 (G1 x)). by apply Hpl. }
    { by rewrite (proj2 (G1 p)). }
    { by rewrite Hcx. }
    exists C2. split; [by etrans|]. destruct (to_server _ _ _ _ T2) as (O1 & O2 & _).
    split.
    + intros y. destruct (to_nodes _ _ _ _ T2 y) as [-> ->]. apply G1.
    + intros y [Hy1 Hy2]%not_elem_of_cons. rewrite (to_clients _ _ _ _ T2) by naive_solver. by apply G2.
    + intros y [->|Hy]%elem_of_cons; [by rewrite Hst, Hcx|].
      destruct (decide (y = x)) as [->|Hyx]; [done|]. rewrite O1 by done. by apply G3.
    + intros y [->|Hy]%elem_of_cons Hdy; [done|].
      destruct (decide (y = x)) as [->|Hyx]; [done|]. rewrite O2 by done. by apply G4.
Qed.

(** ** Progress *)

(** How far a node is. *)
#[local] Abbreviation N := (Z.of_nat (length peers)).
Definition position (n : Z) (ph : Phase PeerId) : Z :=
  let W := 4 * N + 20 in
  match ph with
  | NotStarted => 0
  | Connecting => 1
  | AwaitConnected => 2
  | SettingStep todo => n * W + 3 + (N - Z.of_nat (length todo))
  | AwaitStep => n * W + N + 4
  | Working => n * W + N + 5
  | ShuttingDown todo => 8 * W + 2 * (N - Z.of_nat (length todo))
  | AwaitClient _ todo => 8 * W + 2 * (N - Z.of_nat (length todo)) - 1
  | AwaitShutdown => 8 * W + 2 * N + 1
  | Finished => 8 * W + 2 * N + 2
  | Failed _ => 0
  end.
Definition last_position : Z := 8 * (4 * N + 20) + 2 * N + 2.
Definition pos (C : Cluster) (p : PeerId) : Z := position (step_of C p) (phase_of C p).

Lemma remote_length p : (length (remote p) <= length peers)%nat.
Proof. apply length_filter. Qed.

Lemma position_le n ph : 0 <= n <= LAST_STEP -> position n ph <= last_position.
Proof. unfold last_position, LAST_STEP. intros ?. destruct ph; cbn [position]; try lia; nia. Qed.

Lemma advance_position ho p n n' :
  advance ho p n = Some n' -> (forall e, n_phase n' <> Failed e) -> 0 <= n_step n <= LAST_STEP ->
  (early (n_phase n) = true -> n_step n = 0) ->
  position (n_step n) (n_phase n) < position (n_step n') (n_phase n').
Proof.
  intros Ha Hnf Hn He. pose proof (remote_length p) as Hr. unfold LAST_STEP in Hn.
  unfold DkgSyncNet.advance, after_wait, begin_step in Ha.
  destruct n as [s cs k ph]; cbn [n_phase n_step n_server n_clients] in *.
  destruct ph as [| | |[|x todo]| | |[|x todo]|x todo| | |e]; try done;
    repeat (case_match; try done); simplify_eq/=; try (by exfalso; eapply Hnf);
    rewrite ?(proj1 (proj2 (rest_updated _ _ _))); cbn [position length]; zbool; unfold LAST_STEP in *; try lia; try nia.
Qed.

(** The main thread of [p] can go on after a run that changes no thread. *)
Lemma advance_after p (C C1 : Cluster) n :
  live C -> p ∈ peers -> rtc net_step C C1 -> (forall x, step_of C1 x = step_of C x /\ phase_of C1 x = phase_of C x) ->
  advance default_order p (nodes C1 p) = Some n ->
  exists C', rtc net_step C C' /\ pos C p < pos C' p /\ forall x, x <> p -> pos C' x = pos C x.
Proof.
  intros HC Hp HR Hsame Ha. pose proof (reachable_live_from C C1 HR HC) as HC1.
  exists (set_node p (fun _ => n) C1). split_and!.
  - eapply rtc_r; [done|]. exists default_order, (LAdvance p). split; [done|]. cbn.
    rewrite decide_True by auto. by rewrite Ha.
  - unfold pos. rewrite set_node_step, set_node_phase, !decide_True by done.
    destruct (Hsame p) as [<- <-]. eapply advance_position; [done|..].
    + intros e. by apply (advance_not_failed default_order p n C1 e (live_calm C1 HC1)).
    + split; [apply (safe_step C1 (calm_safe C1 (live_calm C1 HC1)))|apply (calm_last C1 (live_calm C1 HC1))].
    + apply (safe_early C1 (calm_safe C1 (live_calm C1 HC1))).
  - intros x Hx. unfold pos. rewrite set_node_step, set_node_phase, !decide_False by done.
    by destruct (Hsame x) as [-> ->].
Qed.

(** Streams for all of [l] are open. *)
Lemma open_all p l (C : Cluster) :
  p ∈ peers -> NoDup l -> (forall x, x ∈ l -> x ∈ remote p) -> live C ->
  phase_of C p = Connecting -> (forall x, x ∈ l -> phase_of C x <> NotStarted) ->
  exists C', rtc net_step C C' /\ (forall x, step_of C' x = step_of C x /\ phase_of C' x = phase_of C x) /\
    server_of C' p = server_of C p /\
    forall x, x ∈ l -> is_connected (client_of C' p x) = true.
Proof.
  intros Hp Hl. induction Hl as [|x l Hx Hl IH]; intros Hrem HC Hpp Hpl.
  { exists C. split_and!; try done. intros x Hx. by apply not_elem_of_nil in Hx. }
  destruct IH as (C1 & R1 & S1 & V1 & K1); [intros; apply Hrem; by constructor|done|done|intros; apply Hpl; by constructor|].
  pose proof (reachable_live_from C C1 R1 HC) as HC1.
  assert (x ∈ x :: l) as Hxl by constructor. destruct (proj1 (elem_of_remote p x) (Hrem x Hxl)) as [Hxp Hxpeer].
  assert (phase_of C1 p = Connecting) as Hpp1 by by rewrite (proj2 (S1 p)).
  assert (links C1 (p, x) = Down \/ links C1 (p, x) <> Down) as [HL|HL] by (destruct (links C1 (p, x)); auto).
  - destruct (do_open p x Hp Hxpeer ltac:(done) C1 HC1 HL) as (C2 & S2 & T2 & _ & Hc).
    { by rewrite Hpp1. }
    { rewrite (proj2 (S1 x)). by apply Hpl. }
    exists C2. split_and!.
    + by eapply rtc_r.
    + intros y. destruct (to_nodes _ _ _ _ T2 y) as [-> ->]. apply S1.
    + by rewrite (to_servers _ _ _ _ T2).
    + intros y [->|Hy]%elem_of_cons; [done|]. destruct (decide (y = x)) as [->|]; [done|].
      rewrite (to_clients _ _ _ _ T2) by naive_solver. by apply K1.
  - exists C1. split_and!; try done. intros y [->|Hy]%elem_of_cons; [|by apply K1].
    destruct (live_pair C1 HC1 p x Hp Hxpeer ltac:(done)) as [P1 _ (_ & _ & P4 & _)]. rewrite Hpp1 in P4.
    destruct (links C1 (p, x)); cbn in P1; destruct_and?; try done; by specialize (P4 ltac:(done)).
Qed.

(** The shutdown of all peers of [l] is recorded. *)
Lemma end_all p l (C : Cluster) :
  p ∈ peers -> NoDup l -> (forall x, x ∈ l -> x ∈ remote p) -> live C ->
  (forall x, x ∈ l -> is_Some (done_result (client_of C x p))) ->
  exists C', rtc net_step C C' /\ (forall x, step_of C' x = step_of C x /\ phase_of C' x = phase_of C x) /\
    (forall x, x ∉ l -> client_of C' x p = client_of C x p) /\ forall x, x ∈ l -> x ∈ shutdown (server_of C' p).
Proof.
  intros Hp Hl. induction Hl as [|x l Hx Hl IH]; intros Hrem HC Hdone.
  { exists C. split_and!; try done. intros x Hx. by apply not_elem_of_nil in Hx. }
  destruct IH as (C1 & R1 & S1 & K1 & V1); [intros; apply Hrem; by constructor|done|intros; apply Hdone; by constructor|].
  pose proof (reachable_live_from C C1 R1 HC) as HC1.
  assert (x ∈ x :: l) as Hxl by constructor. destruct (proj1 (elem_of_remote p x) (Hrem x Hxl)) as [Hxp Hxpeer].
  destruct (Hdone x Hxl) as [r Hr]. rewrite <-(K1 x Hx) in Hr.
  destruct (done_recorded x p C1 r) as [_ [HL|HL]]; [done..| |].
  - destruct (do_end x p Hxpeer Hp Hxp C1 HC1 HL) as (C2 & S2 & T2 & L2).
    pose proof (reachable_live_from C1 C2 (rtc_once _ _ S2) HC1) as HC2.
    pose proof (pl_message _ _ _ (live_pair C2 HC2 x p Hxpeer Hp Hxp)) as Hm. rewrite L2 in Hm. cbn in Hm.
    exists C2. split_and!.
    + by eapply rtc_r.
    + intros y. destruct (to_nodes _ _ _ _ T2 y) as [-> ->]. apply S1.
    + intros y [? ?]%not_elem_of_cons. rewrite (to_clients _ _ _ _ T2) by naive_solver. by apply K1.
    + intros y [->|Hy]%elem_of_cons; [done|]. destruct (decide (y = x)) as [->|]; [done|].
      destruct (to_server _ _ _ _ T2) as (_ & _ & O3 & _). apply O3; [done|]. by apply V1.
  - exists C1. split_and!; try done; [intros y [? ?]%not_elem_of_cons; by apply K1|].
    intros y [->|Hy]%elem_of_cons; [|by apply V1].
    pose proof (pl_message _ _ _ (live_pair C1 HC1 x p Hxpeer Hp Hxp)) as Hm. by rewrite HL in Hm.
Qed.

Lemma full_set (p : PeerId) (X : gset PeerId) n :
  (forall x, x ∈ X -> x ∈ remote p) -> (forall x, x ∈ remote p -> x ∈ X) -> n = length (remote p) -> size X = n.
Proof.
  intros H1 H2 ->. replace X with (list_to_set (C := gset PeerId) (remote p)); [|set_solver].
  apply size_list_to_set, remote_NoDup.
Qed.

(** The node that is furthest behind goes on, wait by wait. *)
Section slowest.
Context (p : PeerId) (C : Cluster) (HC : live C) (Hp : p ∈ peers).
Context (Hmin : forall q, q ∈ peers -> pos C p <= pos C q).

#[local] Abbreviation goes_on :=
  (exists C', rtc net_step C C' /\ pos C p < pos C' p /\ forall x, x <> p -> pos C' x = pos C x).

Lemma remote_peer x : x ∈ remote p -> x ∈ peers /\ x <> p.
Proof. intros ?%elem_of_remote. naive_solver. Qed.

Lemma others_started x : 1 <= pos C p -> x ∈ remote p -> phase_of C x <> NotStarted.
Proof.
  intros H1 [Hx _]%remote_peer Hph. specialize (Hmin x Hx). unfold pos in Hmin at 2. rewrite Hph in Hmin. cbn in Hmin. lia.
Qed.

Lemma connecting_goes_on : phase_of C p = Connecting -> goes_on.
Proof.
  intros Eph. assert (1 <= pos C p) as H1 by (unfold pos; by rewrite Eph).
  destruct (open_all p (remote p) C) as (C1 & R1 & S1 & V1 & K1); try done;
    [apply remote_NoDup|intros x; by apply others_started|].
  eapply (advance_after p C C1); [done..|]. unfold DkgSyncNet.advance. fold (phase_of C1 p) (server_of C1 p).
  rewrite (proj2 (S1 p)), Eph, V1, (calm_err C (live_calm C HC) p).
  destruct (forallb _ (remote p)) eqn:Ef; [done|]. apply not_true_iff_false in Ef. destruct Ef.
  apply forallb_forall. intros x Hx%list_elem_of_In. by apply K1.
Qed.

(** No peer is done before [p] has begun. *)
Lemma not_done_early x : early (phase_of C p) = true -> x ∈ remote p -> done_result (client_of C x p) = None.
Proof.
  intros He [Hx Hne]%remote_peer. destruct (done_result (client_of C x p)) as [r|] eqn:Ed; [|done]. exfalso.
  destruct (live_pair C HC x p Hx Hp Hne) as [Q1 _ (_ & _ & Q3 & _)].
  destruct (done_recorded x p C r) as [_ HL]; try done.
  assert (closing (phase_of C x) = true) as Hcl%(live_closing C HC)
    by (apply Q3; destruct HL as [HL|HL]; rewrite HL in Q1; apply Q1).
  destruct (safe_pair C (calm_safe C (live_calm C HC)) x p) as (_ & _ & _ & Hle & _); auto.
  rewrite (safe_early C (calm_safe C (live_calm C HC)) p He) in Hle. unfold LAST_STEP in Hcl. lia.
Qed.

Lemma await_connected_goes_on : phase_of C p = AwaitConnected -> goes_on.
Proof.
  intros Eph. assert (1 <= pos C p) as H1 by (unfold pos; by rewrite Eph).
  destruct (gather p (remote p) C) as (C1 & R1 & [S1 _ _ K1]); try done;
    [apply remote_NoDup|by rewrite Eph|intros x; by apply others_started|].
  pose proof (reachable_live_from C C1 R1 HC) as HC1.
  eapply (advance_after p C C1); [done..|]. unfold DkgSyncNet.advance. fold (phase_of C1 p) (server_of C1 p).
  rewrite (proj2 (S1 p)), Eph. unfold await_all_connected.
  rewrite (proj2 (live_started C1 HC1 p)) by (by rewrite (proj2 (S1 p)), Eph).
  rewrite (calm_err C1 (live_calm C1 HC1) p). cbn. rewrite decide_True; [done|]. apply (full_set p).
  - apply (calm_known C1 (live_calm C1 HC1)).
  - intros x Hx. apply K1; [done|]. apply not_done_early; [by rewrite Eph|done].
  - apply (safe_count C1 (calm_safe C1 (live_calm C1 HC1))).
Qed.

(** The others are at the step [p] waits for, or at the next one. *)
Lemma others_at_step x :
  phase_of C p = AwaitStep -> x ∈ remote p ->
  step (client_of C x p) = step_of C p \/ step (client_of C x p) = step_of C p + 1.
Proof.
  intros Eph [Hx Hne]%remote_peer. specialize (Hmin x Hx). unfold pos in Hmin. rewrite Eph in Hmin.
  destruct (live_pair C HC x p Hx Hp Hne) as [_ _ (Q1 & Q2 & _)].
  destruct (safe_pair C (calm_safe C (live_calm C HC)) x p) as (_ & _ & _ & Hle & _); auto.
  destruct (safe_pair C (calm_safe C (live_calm C HC)) p x) as (Hc & _); auto.
  pose proof (safe_step C (calm_safe C (live_calm C HC)) p). pose proof (safe_step C (calm_safe C (live_calm C HC)) x).
  pose proof (calm_last C (live_calm C HC) p). unfold LAST_STEP in *.
  pose proof (live_closing C HC x) as Hcl. pose proof (safe_early C (calm_safe C (live_calm C HC)) x) as He.
  assert (step_of C p <= step_of C x /\
    (step_of C x = step_of C p -> step (client_of C x p) = step_of C x)) as [? Heq].
  { unfold LAST_STEP in *. destruct (phase_of C x) eqn:Ex; cbn [position closing early] in *;
      try (specialize (Hcl eq_refl)); try (specialize (He eq_refl)); split; intros; nia || lia || auto. }
  destruct (decide (step_of C x = step_of C p)) as [E|]; [left; specialize (Heq E)|]; lia.
Qed.

Lemma await_step_goes_on : phase_of C p = AwaitStep -> goes_on.
Proof.
  intros Eph. pose proof (safe_step C (calm_safe C (live_calm C HC)) p) as H0.
  pose proof (calm_last C (live_calm C HC) p) as Hlast. unfold LAST_STEP in Hlast.
  assert (1 <= pos C p) as H1 by (unfold pos; rewrite Eph; cbn [position]; nia).
  destruct (gather p (remote p) C) as (C1 & R1 & [S1 _ G1 _]); try done;
    [apply remote_NoDup|by rewrite Eph|intros x; by apply others_started|].
  pose proof (reachable_live_from C C1 R1 HC) as HC1.
  eapply (advance_after p C C1); [done..|]. unfold DkgSyncNet.advance. fold (phase_of C1 p) (server_of C1 p) (step_of C1 p).
  rewrite (proj2 (S1 p)), Eph, (proj1 (S1 p)).
  rewrite (proj2 (await_step_ok default_order (step_of C p) (server_of C1 p))); [done|].
  split_and!; try (unfold I64_MIN, I64_MAX; lia).
  - apply (calm_err C1 (live_calm C1 HC1)).
  - rewrite <-size_dom. apply (full_set p).
    + intros x [k Hk]%elem_of_dom. by apply (safe_known C1 (calm_safe C1 (live_calm C1 HC1)) p x k).
    + intros x Hx. apply elem_of_dom. rewrite G1 by done. by eexists.
    + apply (safe_count C1 (calm_safe C1 (live_calm C1 HC1))).
  - intros x k Hk. pose proof (safe_known C1 (calm_safe C1 (live_calm C1 HC1)) p x k Hk) as Hx.
    rewrite G1 in Hk by done. injection Hk as <-. by apply others_at_step.
Qed.

(** Once [p] shuts down, every peer is at the last step. *)
Lemma others_at_last x : closing (phase_of C p) = true -> x ∈ remote p -> step_of C x = LAST_STEP /\ phase_of C x <> NotStarted.
Proof.
  intros Hcl [Hx Hne]%remote_peer.
  destruct (safe_pair C (calm_safe C (live_calm C HC)) p x) as (_ & _ & _ & _ & Hl); auto.
  assert (late (phase_of C p) = true) as Hlate by (by destruct (phase_of C p)). specialize (Hl Hlate).
  rewrite (live_closing C HC p Hcl) in Hl. pose proof (calm_last C (live_calm C HC) x) as Hlast.
  split; [lia|]. intros Hph. pose proof (safe_early C (calm_safe C (live_calm C HC)) x) as He.
  rewrite Hph in He. specialize (He eq_refl). unfold LAST_STEP in *. lia.
Qed.

Lemma await_client_goes_on x todo : phase_of C p = AwaitClient x todo -> goes_on.
Proof.
  intros Eph. pose proof (live_todo C HC p) as Ht. rewrite Eph in Ht. destruct Ht as [Hrem _].
  destruct (remote_peer x Hrem) as [Hx Hne].
  assert (forall C1, rtc net_step C C1 -> (forall y, step_of C1 y = step_of C y /\ phase_of C1 y = phase_of C y) ->
    done_result (client_of C1 p x) = Some (Ok tt) -> goes_on) as Hfin.
  { intros C1 R1 S1 Hd. eapply (advance_after p C C1); [done..|]. unfold DkgSyncNet.advance, wait_finished.
    fold (phase_of C1 p). rewrite (proj2 (S1 p)), Eph. fold (client_of C1 p x). by rewrite Hd. }
  destruct (done_result (client_of C p x)) as [r|] eqn:Ed.
  { apply (Hfin C); [done..|]. by rewrite Ed, (calm_done C (live_calm C HC) p x r Ed). }
  destruct (live_pair C HC p x Hp Hx ltac:(done)) as [_ _ (_ & _ & _ & Q4)]. rewrite Eph in Q4. destruct Q4 as [Q4 _].
  destruct (deliver p x C) as (C1 & m & r & R1 & T1 & L1 & Hsd & _); try done; [by rewrite Eph|..].
  { apply others_at_last; [by rewrite Eph|done]. }
  pose proof (reachable_live_from C C1 R1 HC) as HC1. rewrite Q4 in Hsd by done.
  destruct (do_ack_shutdown p x Hp Hx ltac:(done) C1 m r HC1 L1 Hsd) as (C2 & S2 & T2 & L2).
  pose proof (reachable_live_from C1 C2 (rtc_once _ _ S2) HC1) as HC2.
  apply (Hfin C2); [by eapply rtc_r| |].
  - intros y. destruct (to_nodes _ _ _ _ T2 y) as [-> ->]. apply (to_nodes _ _ _ _ T1 y).
  - pose proof (pl_client _ _ _ (live_pair C2 HC2 p x Hp Hx ltac:(done))) as Hf. rewrite L2 in Hf. apply Hf.
Qed.

Lemma await_shutdown_goes_on : phase_of C p = AwaitShutdown -> goes_on.
Proof.
  intros Eph. assert (forall x, x ∈ remote p -> done_result (client_of C x p) = Some (Ok tt)) as Hdone.
  { intros x [Hx Hne]%remote_peer. specialize (Hmin x Hx). unfold pos in Hmin. rewrite Eph in Hmin.
    destruct (live_pair C HC x p Hx Hp Hne) as [_ _ (_ & _ & _ & Q4)].
    pose proof (safe_step C (calm_safe C (live_calm C HC)) x). pose proof (calm_last C (live_calm C HC) x).
    unfold LAST_STEP in *. destruct (phase_of C x); cbn [position] in Hmin; try done; exfalso; nia. }
  destruct (end_all p (remote p) C) as (C1 & R1 & S1 & _ & V1); try done;
    [apply remote_NoDup|intros x Hx; by rewrite (Hdone x Hx)|].
  pose proof (reachable_live_from C C1 R1 HC) as HC1.
  eapply (advance_after p C C1); [done..|]. unfold DkgSyncNet.advance. fold (phase_of C1 p) (server_of C1 p).
  rewrite (proj2 (S1 p)), Eph. unfold await_all_shutdown. rewrite (calm_err C1 (live_calm C1 HC1) p).
  rewrite decide_True; [done|]. apply (full_set p); [apply (live_known C1 HC1)|done|].
  apply (safe_count C1 (calm_safe C1 (live_calm C1 HC1))).
Qed.

Lemma slowest_goes_on : phase_of C p <> Finished -> goes_on.
Proof.
  intros Hnf.
  assert (forall n, advance default_order p (nodes C p) = Some n -> goes_on) as Hnow
    by (intros n Hn; by apply (advance_after p C C n)).
  destruct (phase_of C p) as [| | |[|x todo]| | |[|x todo]|x todo| | |e] eqn:Eph;
    [..|by destruct Hnf|by destruct (calm_phase C (live_calm C HC) p e)];
    try (eapply Hnow; unfold DkgSyncNet.advance; fold (phase_of C p); rewrite Eph; done).
  - by apply connecting_goes_on.
  - by apply await_connected_goes_on.
  - by apply await_step_goes_on.
  - by apply (await_client_goes_on x todo).
  - by apply await_shutdown_goes_on.
Qed.
End slowest.

(** What is left to do, over all peers. *)
Definition remaining (C : Cluster) : nat :=
  list_sum ((fun p => Z.to_nat (last_position - pos C p)) <$> peers).

Lemma list_sum_lt (l : list PeerId) (f g : PeerId -> nat) p :
  p ∈ l -> (g p < f p)%nat -> (forall x, x <> p -> g x = f x) -> (list_sum (g <$> l) < list_sum (f <$> l))%nat.
Proof.
  intros Hin Hlt Heq.
  assert (forall (h : PeerId -> nat) x l, list_sum (h <$> x :: l) = (h x + list_sum (h <$> l))%nat) as Hcons by done.
  assert (forall l, (list_sum (g <$> l) <= list_sum (f <$> l))%nat) as Hle.
  { intros k. induction k as [|x k IH]; [done|]. rewrite !Hcons.
    destruct (decide (x = p)) as [->|Hx]; [lia|]. rewrite (Heq x) by done. lia. }
  induction l as [|x l IH]; [by apply not_elem_of_nil in Hin|]. rewrite !Hcons.
  destruct (decide (x = p)) as [->|Hx]; [specialize (Hle l); lia|].
  apply elem_of_cons in Hin as [->|Hin]; [done|]. specialize (IH Hin). rewrite (Heq x) by done. lia.
Qed.

Lemma list_min (l : list PeerId) (f : PeerId -> Z) : l <> [] -> exists x, x ∈ l /\ forall y, y ∈ l -> f x <= f y.
Proof.
  induction l as [|x l IH]; [done|]. intros _. destruct l as [|y l].
  - exists x. split; [by constructor|]. intros y ->%list_elem_of_singleton. lia.
  - destruct IH as (z & Hz & Hmin); [done|]. destruct (decide (f x <= f z)).
    + exists x. split; [by constructor|]. intros w [->|Hw]%elem_of_cons; [lia|]. specialize (Hmin w Hw). lia.
    + exists z. split; [by constructor|]. intros w [->|Hw]%elem_of_cons; [lia|by apply Hmin].
Qed.

Lemma pos_bound (C : Cluster) p : live C -> pos C p <= last_position.
Proof.
  intros HC. apply position_le. split; [apply (safe_step C (calm_safe C (live_calm C HC)))|apply (calm_last C (live_calm C HC))].
Qed.

Lemma pos_last (C : Cluster) p : live C -> last_position <= pos C p -> phase_of C p = Finished.
Proof.
  intros HC. pose proof (safe_step C (calm_safe C (live_calm C HC)) p). pose proof (calm_last C (live_calm C HC) p).
  unfold pos, last_position, LAST_STEP in *. destruct (phase_of C p); cbn [position]; try done; intros; exfalso; nia.
Qed.

Lemma live_completes (C : Cluster) : live C -> exists C', rtc net_step C C' /\ forall p, p ∈ peers -> phase_of C' p = Finished.
Proof.
  remember (remaining C) as k eqn:Ek. revert C Ek. induction (lt_wf k) as [k _ IH]. intros C -> HC.
  destruct (decide (peers = [])) as [->|Hpeers]; [exists C; split; [done|]; intros p Hp; by apply not_elem_of_nil in Hp|].
  destruct (list_min peers (pos C) Hpeers) as (p & Hp & Hmin).
  destruct (decide (last_position <= pos C p)) as [Hl|Hl].
  { exists C. split; [done|]. intros q Hq. apply pos_last; [done|]. specialize (Hmin q Hq). lia. }
  destruct (slowest_goes_on p C HC Hp Hmin) as (C1 & R1 & Hlt & Hsame).
  { intros Hf. apply Hl. unfold pos. by rewrite Hf. }
  pose proof (reachable_live_from C C1 R1 HC) as HC1.
  destruct (IH (remaining C1)) with (C := C1) as (C2 & R2 & Hall); try done.
  - apply (list_sum_lt _ _ _ p Hp); [pose proof (pos_bound C1 p HC1); lia|]. intros x Hx. by rewrite Hsame.
  - exists C2. split; [by etrans|done].
Qed.

End all_honest.
End cluster.

(** ** A run of the protocol

    Three peers, named by numbers; a signature is the definition hash after
    the name.  In the first run the third peer is faulty. *)

Module SyncSample.

Definition hash : list Z := [1; 2; 3].
Definition sign (p : Z) : list Z := p :: hash.
Definition verify (pk : Z) (h s : list Z) : bool := bool_decide (s = pk :: h).
Definition peer_string (p : Z) : string := "peer".
Definition version : SemVer := v_minor 1 7.
Definition peers : list Z := [1; 2; 3].

Lemma peers_distinct : NoDup peers.
Proof. repeat (constructor; [set_solver|]). constructor. Qed.

Abbreviation reachable honest := (net_reachable peer_string verify id peers honest hash version sign).
Abbreviation run honest ls :=
  (run_labels peer_string verify id peers honest default_order ls (cluster_init peers hash version sign)).

Lemma run_reachable honest ls C : run honest ls = Some C -> reachable honest C.
Proof.
  assert (forall ls C1, run_labels peer_string verify id peers honest default_order ls C1 = Some C ->
    rtc (net_step peer_string verify id peers honest) C1 C) as Hall; [|by apply Hall].
  clear ls. intros ls. induction ls as [|l ls IH]; intros C1; cbn; [by intros [= ->]|].
  case_decide; [|done]. intros (C2 & Hl & Hr)%bind_Some. eapply rtc_l; [|by apply IH]. by exists default_order, l.
Qed.

Definition talk (p q : Z) : list (Label Z) := [LSend p q 0; LCheck p q; LRecord p q; LAck p q].
Definition lie (p q n : Z) : list (Label Z) :=
  [LInject p q {| timestamp := None; hash_signature := sign p; msg_shutdown := false; msg_version := "v1.7.2"; msg_step := n |};
   LCheck p q; LRecord p q].

(** Peers 1 and 2 connect and begin the first step; peer 1 passes it. *)
Definition first_step : list (Label Z) :=
  [LAdvance 1; LAdvance 2; LOpen 1 2; LOpen 1 3; LOpen 2 1; LOpen 2 3; LAdvance 1; LAdvance 2] ++
  talk 1 2 ++ talk 2 1 ++ lie 3 1 0 ++ lie 3 2 1 ++
  [LAdvance 1; LAdvance 1; LAdvance 1; LAdvance 1; LAdvance 2; LAdvance 2; LAdvance 2; LAdvance 2] ++
  talk 2 1 ++ lie 3 1 1 ++ [LAdvance 1].

Definition two : gset Z := {[1; 2]}.

Lemma barrier_witness :
  match run two first_step with
  | Some C => phase_of C 1 = Working /\ 1 <= step_of C 1 /\ step_of C 1 <= step_of C 2
  | None => False
  end.
Proof.
  assert (1 ∈ two /\ 2 ∈ two /\ 1 ∈ peers /\ 2 ∈ peers) as (H1 & H2 & H3 & H4) by (unfold two, peers; set_solver).
  assert ((fun C => (phase_of C 1, step_of C 1)) <$> run two first_step = Some (Working, 1)) as Hph by by vm_compute.
  destruct (run two first_step) as [C|] eqn:E; [|done]. injection Hph as Hph Hst.
  split; [done|]. split; [by rewrite Hst|].
  destruct (barrier peer_string verify id peers two hash version sign peers_distinct C 1 2) as [_ Hb];
    [exact (run_reachable _ _ _ E)|done..|exact (Hb Hph)].
Defined.

(** Three honest peers; a stream breaks with a message on it. *)
Definition three : gset Z := {[1; 2; 3]}.

Definition broken_stream : list (Label Z) :=
  [LAdvance 1; LOpen 1 2; LReset 1 2; LAdvance 2; LOpen 1 2; LSend 1 2 0; LCheck 1 2; LRecord 1 2; LReset 1 2; LOpen 1 2; LSend 1 2 5].

Lemma three_honest p : p ∈ peers -> p ∈ three.
Proof. unfold peers, three. set_solver. Qed.

Lemma version_fine : semver_ok version.
Proof. repeat split; done. Qed.

Lemma sign_fine p : p ∈ peers -> verify (id p) hash (sign p) = true.
Proof. intros _. unfold verify. by apply bool_decide_true. Qed.


End SyncSample.
