(* ===== verification/ConsensusMsg.v ===== *)
(** * Consensus messages on the wire

    [crates/consensus/src/qbft/msg.rs] and the admission of inbound messages in
    [crates/consensus/src/qbft/component.rs]: how a signed protobuf message
    becomes a message of the QBFT core, and what is checked before. *)

From S2P Require Import Prelude Qbft Bytes Types Deadline.

Open Scope Z_scope.

Abbreviation Bytes := (list Z).

(** ** Protobuf messages *)

(** [pbconsensus::QbftMsg]: the integers are [i64]. *)
Record QbftMsg := {
  q_type : Z;
  q_duty : option PbDuty;
  q_peer_idx : Z;
  q_round : Z;
  q_value_hash : Bytes;
  q_prepared_round : Z;
  q_prepared_value_hash : Bytes;
  q_signature : Bytes;
}.

#[global] Instance PbDuty_eq_dec : EqDecision PbDuty.
Proof. solve_decision. Defined.

#[global] Instance QbftMsg_eq_dec : EqDecision QbftMsg.
Proof. solve_decision. Defined.

(** [pbconsensus::QbftConsensusMsg]. *)
Record QbftConsensusMsg := {
  cm_msg : option QbftMsg;
  cm_justification : list QbftMsg;
  cm_values : list Any;
}.

(** [hash_proto] of the message types (protobuf encoding, then an SSZ root) and
    of raw bytes, the decoding of the two supported payloads, and secp256k1
    signing and recovery are parameters. *)
Class Wire (PublicKey SecretKey UDS PR : Type) := {
  hash_msg : QbftMsg -> option Bytes;
  hash_bytes : Bytes -> option Bytes;
  uds_url : string;
  pr_url : string;
  decode_uds : Bytes -> option UDS;
  decode_pr : Bytes -> option PR;
  hash_uds : UDS -> option Bytes;
  hash_pr : PR -> option Bytes;
  k1_sign : SecretKey -> Bytes -> option Bytes;
  k1_recover : Bytes -> Bytes -> option PublicKey;
}.

Section msg.
Context {PublicKey SecretKey UDS PR : Type} `{EqDecision PublicKey}.
Context {W : Wire PublicKey SecretKey UDS PR}.

(** [msg::Error]; the marshalling and hashing errors of [hash_proto] are one. *)
Inductive MsgError :=
| ValueHashNotFound
| PreparedValueHashNotFound
| HashProto
| EmptySignature
| RecoverPubkey
| SignError.

(** [ValueMap]. *)
Abbreviation ValueMap := (gmap Bytes Any).

(** [HashRoot::default()]. *)
Definition zero_hash : Bytes := replicate 32 0.

(** The core's messages: instances are duties, values hashes, and what the
    application compares the payloads. *)
Abbreviation CoreMsg := (@Qbft.Msg Duty Bytes Any).

(** [msg::Msg]. *)
Inductive WMsg := MkW {
  w_msg : QbftMsg;
  w_value_hash : Bytes;
  w_prepared_value_hash : Bytes;
  w_values : ValueMap;
  w_justification_protos : list QbftMsg;
  w_justification : list WMsg;
}.

Definition to_hash32 (value : Bytes) : option Bytes :=
  if negb (len value =? 32) then None
  else if bool_decide (value = zero_hash) then None
  else Some value.

Definition value_hash (msg : QbftMsg) (values : ValueMap) : res MsgError Bytes :=
  match to_hash32 (q_value_hash msg) with
  | None => Ok zero_hash
  | Some hash => if bool_decide (is_Some (values !! hash)) then Ok hash else Err ValueHashNotFound
  end.

Definition prepared_value_hash (msg : QbftMsg) (values : ValueMap) : res MsgError Bytes :=
  match to_hash32 (q_prepared_value_hash msg) with
  | None => Ok zero_hash
  | Some hash => if bool_decide (is_Some (values !! hash)) then Ok hash else Err PreparedValueHashNotFound
  end.

(** A loop that collects results and stops at the first error. *)
Fixpoint try_map {E A B} (f : A -> res E B) (l : list A) : res E (list B) :=
  match l with
  | [] => Ok []
  | x :: l => y ← f x; ys ← try_map f l; Ok (y :: ys)
  end.

(** [Msg::new] without and with justifications; those carry none themselves. *)
Definition new_flat (values : ValueMap) (msg : QbftMsg) : res MsgError WMsg :=
  vh ← value_hash msg values;
  pvh ← prepared_value_hash msg values;
  Ok {| w_msg := msg; w_value_hash := vh; w_prepared_value_hash := pvh; w_values := values;
        w_justification_protos := []; w_justification := [] |}.

Definition msg_new (msg : QbftMsg) (justification : list QbftMsg) (values : ValueMap) : res MsgError WMsg :=
  vh ← value_hash msg values;
  pvh ← prepared_value_hash msg values;
  js ← try_map (new_flat values) justification;
  Ok {| w_msg := msg; w_value_hash := vh; w_prepared_value_hash := pvh; w_values := values;
        w_justification_protos := justification; w_justification := js |}.

(** [duty_from_proto] of the adapter. *)
Definition instance_of (duty : option PbDuty) : Duty :=
  match duty with
  | None => {| slot := 0; duty_type := Unknown |}
  | Some d => {| slot := pb_slot d; duty_type := default Unknown (duty_type_of_i32 (pb_type d)) |}
  end.

(** [SomeMsg for Msg]. *)
Fixpoint core_of (w : WMsg) : CoreMsg :=
  match w with
  | MkW m vh pvh values _ js =>
    {| type_ := q_type m;
       instance := instance_of (q_duty m);
       source := q_peer_idx m;
       round := q_round m;
       value := vh;
       value_source := ok_or (values !! vh) ValueNotFound;
       prepared_round := q_prepared_round m;
       prepared_value := pvh;
       justification := map core_of js |}
  end.

Definition to_consensus_msg (ho : HashOrder) (w : WMsg) : QbftConsensusMsg := {|
  cm_msg := Some (w_msg w);
  cm_justification := w_justification_protos w;
  cm_values := map_values ho (w_values w);
|}.

(** ** Signatures *)

Definition unsigned (msg : QbftMsg) : QbftMsg := msg <| q_signature := [] |>.

Definition sign_msg (msg : QbftMsg) (privkey : SecretKey) : res MsgError QbftMsg :=
  hash ← ok_or (hash_msg (unsigned msg)) HashProto;
  signature ← ok_or (k1_sign privkey hash) SignError;
  Ok ((unsigned msg) <| q_signature := signature |>).

Definition verify_msg_sig (msg : QbftMsg) (pubkey : PublicKey) : res MsgError bool :=
  if bool_decide (q_signature msg = []) then Err EmptySignature
  else
    hash ← ok_or (hash_msg (unsigned msg)) HashProto;
    recovered ← ok_or (k1_recover hash (q_signature msg)) RecoverPubkey;
    Ok (bool_decide (recovered = pubkey)).

(** ** Admission *)

Inductive ComponentError :=
| PeerIndexOverflow (index : Z)
| InvalidLocalPeerIndex (peer_idx : Z)
| InvalidConsensusMessage
| InvalidConsensusMessageType
| InvalidConsensusMessageDutyType
| InvalidConsensusMessageRound
| InvalidConsensusMessagePreparedRound
| InvalidPeerIndex
| VerifyConsensusMessageSignature (e : MsgError)
| InvalidConsensusMessageSignature
| InvalidDuty
| InvalidJustification (e : ComponentError)
| JustificationDutyDiffers
| TooManyJustifications (count max : Z)
| UnmarshalAny
| MsgErr (e : MsgError)
| DutyExpired
| TimeoutEnqueuingReceiveBuffer
| ReceiveCancelledDuringVerification.

Inductive DecodedValue :=
| UnsignedDataSet (v : UDS)
| PriorityResult (v : PR).

Definition decode_supported_any (value : Any) : res ComponentError DecodedValue :=
  if bool_decide (type_url value = uds_url) then
    decoded ← ok_or (decode_uds (any_value value)) UnmarshalAny;
    Ok (UnsignedDataSet decoded)
  else if bool_decide (type_url value = pr_url) then
    decoded ← ok_or (decode_pr (any_value value)) UnmarshalAny;
    Ok (PriorityResult decoded)
  else Err UnmarshalAny.

(** The consensus hash of a payload: that of the decoded message. *)
Definition any_hash (value : Any) : res ComponentError Bytes :=
  decoded ← decode_supported_any value;
  match decoded with
  | UnsignedDataSet inner => ok_or (hash_uds inner) (MsgErr HashProto)
  | PriorityResult inner => ok_or (hash_pr inner) (MsgErr HashProto)
  end.

Fixpoint values_loop (values : list Any) (out : ValueMap) : res ComponentError ValueMap :=
  match values with
  | [] => Ok out
  | value :: values => hash ← any_hash value; values_loop values (<[hash := value]> out)
  end.

Definition values_by_hash (values : list Any) : res ComponentError ValueMap := values_loop values ∅.

(** [Consensus]: the peers' keys by index, the gate on duties, and per duty the
    queue of admitted messages ([InstanceIo]). *)
Record Consensus := {
  node_count : nat;
  pubkeys : gmap Z PublicKey;
  local_peer_idx : Z;
  duty_gater : Duty -> bool;
  instances : gmap Duty (list WMsg);
}.

(** [Consensus::new]. *)
Definition consensus_new (peers : list PublicKey) (local_peer_idx : Z) (duty_gater : Duty -> bool)
    : res ComponentError Consensus :=
  if I64_MAX + 1 <? len peers then Err (PeerIndexOverflow (I64_MAX + 1))
  else
    let pubkeys := list_to_map (imap (fun i pk => (Z.of_nat i, pk)) peers) : gmap Z PublicKey in
    if bool_decide (is_Some (pubkeys !! local_peer_idx)) then
      Ok {| node_count := length peers; pubkeys := pubkeys; local_peer_idx := local_peer_idx;
            duty_gater := duty_gater; instances := ∅ |}
    else Err (InvalidLocalPeerIndex local_peer_idx).

Definition duty_from_msg (msg : QbftMsg) : res ComponentError Duty :=
  duty ← ok_or (q_duty msg) InvalidConsensusMessage;
  ok_or (duty_from_proto duty) InvalidConsensusMessageDutyType.

Definition verify_msg (c : Consensus) (msg : QbftMsg) : res ComponentError unit :=
  match q_duty msg with
  | None => Err InvalidConsensusMessage
  | Some duty =>
    if negb (message_type_valid (q_type msg)) then Err InvalidConsensusMessageType
    else
      duty_type ← ok_or (duty_type_of_i32 (pb_type duty)) InvalidConsensusMessageDutyType;
      if negb (is_valid duty_type) then Err InvalidConsensusMessageDutyType
      else if q_round msg <=? 0 then Err InvalidConsensusMessageRound
      else if q_prepared_round msg <? 0 then Err InvalidConsensusMessagePreparedRound
      else
        pubkey ← ok_or (pubkeys c !! q_peer_idx msg) InvalidPeerIndex;
        signature_ok ← map_err VerifyConsensusMessageSignature (verify_msg_sig msg pubkey);
        if negb signature_ok then Err InvalidConsensusMessageSignature else Ok tt
  end.

Definition MAX_JUSTIFICATIONS_PER_NODE : Z := 4.

(** The loop over the justifications; [saturating_mul] on [usize]. *)
Fixpoint verify_justifications (c : Consensus) (duty : Duty) (l : list QbftMsg) : res ComponentError unit :=
  match l with
  | [] => Ok tt
  | j :: l =>
    map_err InvalidJustification (verify_msg c j) ;;
    just_duty ← map_err InvalidJustification (duty_from_msg j);
    if bool_decide (just_duty <> duty) then Err JustificationDutyDiffers
    else verify_justifications c duty l
  end.

Definition max_justifications (c : Consensus) : Z :=
  Z.min (MAX_JUSTIFICATIONS_PER_NODE * Z.of_nat (node_count c)) U64_MAX.

(** What [handle] checks and builds before it queues the message. *)
Definition admit_msg (c : Consensus) (pb_msg : QbftConsensusMsg) : res ComponentError (Duty * WMsg) :=
  inner ← ok_or (cm_msg pb_msg) InvalidConsensusMessage;
  verify_msg c inner ;;
  duty ← duty_from_msg inner;
  if negb (duty_gater c duty) then Err InvalidDuty
  else if max_justifications c <? len (cm_justification pb_msg) then
    Err (TooManyJustifications (len (cm_justification pb_msg)) (max_justifications c))
  else
    verify_justifications c duty (cm_justification pb_msg) ;;
    values ← values_by_hash (cm_values pb_msg);
    wrapped ← map_err MsgErr (msg_new inner (cm_justification pb_msg) values);
    Ok (duty, wrapped).

(** How sending on the instance's channel ends. *)
Inductive Enqueue := Enqueued | Closed (has_started : bool) | Cancelled.

Definition handle (cancelled : bool) (outcome : AddOutcome) (enq : Enqueue) (pb_msg : QbftConsensusMsg)
    : proc Consensus ComponentError unit :=
  c ← p_get;
  '(duty, wrapped) ← p_lift (admit_msg c pb_msg);
  if cancelled then p_fail ReceiveCancelledDuringVerification
  else match outcome with
  | Scheduled =>
    p_modify (fun c => c <| instances ::= fun m => <[duty := default [] (m !! duty)]> m |>) ;;
    match enq with
    | Enqueued => p_modify (fun c => c <| instances ::= push_at duty wrapped |>)
    | Closed true => mret tt
    | Closed false | Cancelled => p_fail TimeoutEnqueuingReceiveBuffer
    end
  | _ => p_fail DutyExpired
  end.

(** The expired-duty loop of [start]. *)
Definition expire_instance (duty : Duty) (c : Consensus) : Consensus := c <| instances ::= delete duty |>.
End msg.
