(* ===== verification/ConsensusTransport.v ===== *)
(** * Sending and receiving consensus messages

    [crates/consensus/src/qbft/transport.rs]: how a broadcast of the core
    becomes a signed message on the wire; and what the checks of the receiving
    side ([ConsensusMsg]) give the core. *)

From S2P Require Import Prelude Qbft QbftNet Bytes Types Deadline ConsensusMsg.

Open Scope Z_scope.

Section transport.
Context {PublicKey SecretKey UDS PR : Type} `{EqDecision PublicKey}.
Context {W : Wire PublicKey SecretKey UDS PR}.
Abbreviation ValueMap := (gmap Bytes Any).
Abbreviation CoreMsg := (@Qbft.Msg Duty Bytes Any).
Abbreviation Consensus := (@Consensus PublicKey).

Inductive TransportError :=
| UnknownValue
| InvalidDutyType
| BroadcastFailed
| ReceiveBufferClosed
| TMsg (e : MsgError).

(** [Transport]: the local values not yet read from their channel, the cache of
    values by hash, what was handed to the broadcaster, and the messages put
    into the core's receive buffer. *)
Record Transport := {
  value_rx : list Any;
  values : ValueMap;
  outbox : list QbftConsensusMsg;
  recv_buffer : list WMsg;
}.

Abbreviation Proc := (proc Transport TransportError).

Definition set_values (w : WMsg) : Proc unit :=
  p_modify (fun t => t <| values ::= fun vs => w_values w ∪ vs |>).

Definition get_value (hash : Bytes) : Proc Any :=
  t ← p_get;
  match value_rx t with
  | [] => mret tt
  | local :: rest =>
    p_modify (fun t => t <| value_rx := rest |>) ;;
    h ← p_lift (ok_or (hash_bytes (any_value local)) (TMsg HashProto));
    p_modify (fun t => t <| values ::= insert h local |>)
  end ;;
  t ← p_get;
  p_lift (ok_or (values t !! hash) UnknownValue).

(** The transport's [BroadcastRequest]; its justifications are wrapped
    messages, so that the downcasts of the code succeed. *)
Record TRequest := {
  t_type : Z;
  t_duty : Duty;
  t_peer_idx : Z;
  t_round : Z;
  t_value_hash : Bytes;
  t_prepared_round : Z;
  t_prepared_value_hash : Bytes;
  t_justification : list WMsg;
}.

Definition create_msg (r : TRequest) (vs : ValueMap) (privkey : SecretKey) : res TransportError WMsg :=
  duty ← ok_or (duty_to_proto (t_duty r)) InvalidDutyType;
  let pb_msg := {| q_type := t_type r; q_duty := Some duty; q_peer_idx := t_peer_idx r;
    q_round := t_round r; q_value_hash := t_value_hash r; q_prepared_round := t_prepared_round r;
    q_prepared_value_hash := t_prepared_value_hash r; q_signature := [] |} in
  pb_msg ← map_err TMsg (sign_msg pb_msg privkey);
  map_err TMsg (msg_new pb_msg (w_msg <$> t_justification r) vs).

(** The loop that looks up the values a message refers to. *)
Fixpoint collect_values (hashes : list Bytes) (vs : ValueMap) : Proc ValueMap :=
  match hashes with
  | [] => mret vs
  | hash :: hashes =>
    if bool_decide (hash = zero_hash) || bool_decide (is_Some (vs !! hash)) then collect_values hashes vs
    else v ← get_value hash; collect_values hashes (<[hash := v]> vs)
  end.

Definition request_hashes (r : TRequest) : list Bytes :=
  t_value_hash r :: t_prepared_value_hash r ::
    mjoin ((fun j => [w_value_hash j; w_prepared_value_hash j]) <$> t_justification r).

(** [broadcast]; [sent] is the external broadcaster's answer. *)
Definition broadcast (ho : HashOrder) (privkey : SecretKey) (sent : res TransportError unit) (r : TRequest)
    : Proc unit :=
  vs ← collect_values (request_hashes r) ∅;
  msg ← p_lift (create_msg r vs privkey);
  p_modify (fun t => t <| recv_buffer ::= fun l => l ++ [msg] |>
                       <| outbox ::= fun l => l ++ [to_consensus_msg ho msg] |>) ;;
  p_lift sent.

(** One turn of [process_receives], for a message admitted from a peer; the
    buffer may be closed, or the instance cancelled while it waits. *)
Inductive BufferSend := BufSent | BufClosed | BufCancelled.

Definition process_receive (send : BufferSend) (w : WMsg) : Proc unit :=
  set_values w ;;
  match send with
  | BufSent => p_modify (fun t => t <| recv_buffer ::= fun l => l ++ [w] |>)
  | BufClosed => p_fail ReceiveBufferClosed
  | BufCancelled => mret tt
  end.

(** ** What admission gives the core *)

Lemma try_map_Forall2 {E A B} (f : A -> res E B) l l' :
  try_map f l = Ok l' <-> Forall2 (fun x y => f x = Ok y) l l'.
Proof.
  revert l'. induction l as [|x l IH]; intros l'; cbn.
  - split; [intros [= <-]; constructor|by inversion 1].
  - split.
    + intros (y & Hy & (ys & Hys & [= <-])%res_bind_Ok)%res_bind_Ok. constructor; [done|by apply IH].
    + inversion 1 as [|? y ? ys Hy Hys]; subst. rewrite Hy. cbn. apply IH in Hys. by rewrite Hys.
Qed.

(** A hash of full length is taken as it is. *)
Lemma value_hash_Ok msg vs h :
  value_hash msg vs = Ok h ->
  (h = zero_hash \/ is_Some (vs !! h)) /\ (len (q_value_hash msg) = 32 -> h = q_value_hash msg).
Proof.
  unfold value_hash, to_hash32. destruct (Z.eqb_spec (len (q_value_hash msg)) 32) as [Hl|Hl]; cbn.
  - case_bool_decide; [intros [= <-]; split; [by left|done]|].
    case_bool_decide; [intros [= <-]; split; [by right|done]|done].
  - intros [= <-]. split; [by left|done].
Qed.

Lemma prepared_value_hash_Ok msg vs h :
  prepared_value_hash msg vs = Ok h ->
  (h = zero_hash \/ is_Some (vs !! h)) /\
  (len (q_prepared_value_hash msg) = 32 -> h = q_prepared_value_hash msg).
Proof.
  unfold prepared_value_hash, to_hash32.
  destruct (Z.eqb_spec (len (q_prepared_value_hash msg)) 32) as [Hl|Hl]; cbn.
  - case_bool_decide; [intros [= <-]; split; [by left|done]|].
    case_bool_decide; [intros [= <-]; split; [by right|done]|done].
  - intros [= <-]. split; [by left|done].
Qed.

(** What [verify_msg] establishes. *)
Lemma verify_msg_Ok (c : Consensus) msg :
  verify_msg c msg = Ok tt ->
  message_type_valid (q_type msg) = true /\ 0 < q_round msg /\ 0 <= q_prepared_round msg /\
  is_Some (q_duty msg) /\
  exists pk, pubkeys c !! q_peer_idx msg = Some pk /\ verify_msg_sig msg pk = Ok true.
Proof.
  unfold verify_msg. destruct (q_duty msg) as [pd|]; [|done].
  destruct (message_type_valid (q_type msg)); cbn; [|done]. intros (t & _ & Hr)%res_bind_Ok.
  destruct (is_valid t); cbn in Hr; [|done]. destruct (Z.leb_spec (q_round msg) 0); [done|].
  destruct (Z.ltb_spec (q_prepared_round msg) 0); [done|].
  destruct (pubkeys c !! q_peer_idx msg) as [pk|]; cbn in Hr; [|done].
  destruct (verify_msg_sig msg pk) as [[]|e|] eqn:Hs; cbn in Hr; try done. eauto 10.
Qed.

Lemma verify_justifications_Ok (c : Consensus) duty l :
  verify_justifications c duty l = Ok tt ->
  Forall (fun j => verify_msg c j = Ok tt /\ duty_from_msg j = Ok duty) l.
Proof.
  induction l as [|j l IH]; [constructor|]. cbn.
  destruct (verify_msg c j) as [[]|e|] eqn:Hv; cbn; try done.
  destruct (duty_from_msg j) as [d|e|] eqn:Hd; cbn; try done.
  case_bool_decide as Hne; [done|]. intros Hl. constructor; [|by apply IH].
  split; [done|]. destruct (decide (d = duty)) as [->|]; [done|]. by destruct Hne.
Qed.

(** What [admit_msg] establishes. *)
Lemma admit_Ok (c : Consensus) pb duty w :
  admit_msg c pb = Ok (duty, w) ->
  exists inner vs, cm_msg pb = Some inner /\ verify_msg c inner = Ok tt /\ duty_from_msg inner = Ok duty /\
    duty_gater c duty = true /\
    Forall (fun j => verify_msg c j = Ok tt /\ duty_from_msg j = Ok duty) (cm_justification pb) /\
    values_by_hash (cm_values pb) = Ok vs /\ msg_new inner (cm_justification pb) vs = Ok w.
Proof.
  unfold admit_msg. destruct (cm_msg pb) as [inner|]; [|done]. cbn.
  destruct (verify_msg c inner) as [[]|e|] eqn:Hv; cbn; try done.
  intros (d & Hd & Hr)%res_bind_Ok. destruct (duty_gater c d) eqn:Hg; cbn in Hr; [|done].
  destruct (_ <? _); [done|]. apply res_bind_Ok in Hr as ([] & Hj & (vs & Hvs & Hr)%res_bind_Ok).
  destruct (msg_new inner (cm_justification pb) vs) as [w'|e|] eqn:Hw; cbn in Hr; try done.
  injection Hr as <- <-. exists inner, vs. split_and!; try done. by apply verify_justifications_Ok.
Qed.

(** ** The network assumption of the core *)

Abbreviation Request := (@Qbft.BroadcastRequest Duty Bytes Any).

(** A broadcast of the core and a raw message with the same signed fields. *)
Definition signed_body (b : Request) (raw : QbftMsg) : Prop :=
  b_type b = q_type raw /\ b_source b = q_peer_idx raw /\ b_round b = q_round raw /\
  b_value b = q_value_hash raw /\ len (q_value_hash raw) = 32 /\
  b_prepared_round b = q_prepared_round raw /\
  b_prepared_value b = q_prepared_value_hash raw /\ len (q_prepared_value_hash raw) = 32.

(** Signatures cannot be forged: a message that verifies under a peer's key is
    a faulty peer's, or has the fields of one of the broadcasts. *)
Definition unforgeable (c : Consensus) (Byz : gset Z) (sent : list Request) : Prop :=
  forall raw pk, pubkeys c !! q_peer_idx raw = Some pk -> verify_msg_sig raw pk = Ok true ->
    q_peer_idx raw ∈ Byz \/ Exists (fun b => signed_body b raw) sent.

(** A wrapped message whose raw message verified. *)
Lemma wrapped_authentic (c : Consensus) Byz sent raw vs vh pvh protos js :
  verify_msg c raw = Ok tt -> in_i64 (q_round raw) = true -> unforgeable c Byz sent ->
  value_hash raw vs = Ok vh -> prepared_value_hash raw vs = Ok pvh ->
  authentic (dom (pubkeys c)) Byz sent (core_of (MkW raw vh pvh vs protos js)) = true.
Proof.
  intros (Ht & Hr & Hpr & _ & pk & Hpk & Hsig)%verify_msg_Ok Htyped Huf Hvh Hpvh.
  apply value_hash_Ok in Hvh as [_ Hvh]. apply prepared_value_hash_Ok in Hpvh as [_ Hpvh].
  unfold authentic, well_formed. cbn. rewrite Ht.
  rewrite bool_decide_eq_true_2 by (by apply elem_of_dom). cbn.
  unfold in_i64 in Htyped. apply andb_true_iff in Htyped as [_ Hmax]. rewrite Hmax.
  replace (1 <=? q_round raw) with true by (symmetry; apply Z.leb_le; lia).
  replace (0 <=? q_prepared_round raw) with true by (symmetry; apply Z.leb_le; lia). cbn.
  apply orb_true_iff. destruct (Huf raw pk Hpk Hsig) as [Hb|Hs]; [left; by apply bool_decide_eq_true|right].
  apply existsb_exists. apply list.Exists_exists in Hs as (b & Hin & Hb).
  exists b. split; [by apply list_elem_of_In|].
  unfold same_body. cbn. destruct Hb as (-> & -> & -> & -> & Hl & -> & -> & Hl').
  by rewrite !Z.eqb_refl, (Hvh Hl), (Hpvh Hl'), !bool_decide_eq_true_2.
Qed.

Lemma duty_from_msg_instance raw duty : duty_from_msg raw = Ok duty -> instance_of (q_duty raw) = duty.
Proof.
  unfold duty_from_msg. destruct (q_duty raw) as [pd|]; [|done]. cbn.
  unfold duty_from_proto. destruct (duty_type_of_i32 (pb_type pd)) as [t|] eqn:Et; cbn; [|done].
  destruct (is_valid t); cbn; [|done]. by intros [= <-].
Qed.

Lemma new_flat_Ok vs raw w :
  new_flat vs raw = Ok w -> exists vh pvh, value_hash raw vs = Ok vh /\
    prepared_value_hash raw vs = Ok pvh /\ w = MkW raw vh pvh vs [] [].
Proof. unfold new_flat. intros (vh & Hv & (pvh & Hp & [= <-])%res_bind_Ok)%res_bind_Ok. eauto. Qed.

Lemma core_justification w : justification (core_of w) = core_of <$> w_justification w.
Proof. by destruct w. Qed.

(** C5: admission gives the core the network it assumes.  If signatures cannot
    be forged, a message that passes [handle]'s checks is one that the model of
    the QBFT network may deliver: it and its justifications come from peers,
    from correct ones only as they were broadcast, have valid types and rounds,
    and are not nested deeper; and all of them belong to the admitted duty. *)
Theorem admitted_messages_deliverable (c : Consensus) pb duty w Byz sent :
  admit_msg c pb = Ok (duty, w) ->
  Forall (fun raw => in_i64 (q_round raw) = true) (option_list (cm_msg pb) ++ cm_justification pb) ->
  unforgeable c Byz sent ->
  deliverable (dom (pubkeys c)) Byz sent (EvReceive (Some (core_of w))) = true /\
  Forall (fun m => instance m = duty) (core_of w :: justification (core_of w)).
Proof.
  intros (inner & vs & Hcm & Hv & Hd & _ & Hjs & _ & Hw)%admit_Ok Htyped Huf.
  rewrite Hcm in Htyped. apply list.Forall_cons in Htyped as [Hti Htj].
  unfold msg_new in Hw.
  apply res_bind_Ok in Hw as (vh & Hvh & (pvh & Hpvh & (js & Hmap & [= <-])%res_bind_Ok)%res_bind_Ok).
  apply try_map_Forall2 in Hmap.
  assert (Forall (fun j => authentic (dom (pubkeys c)) Byz sent (core_of j) = true /\
    justification (core_of j) = [] /\ instance (core_of j) = duty) js) as Hall.
  { apply list.Forall_forall. intros j Hj. apply list_elem_of_lookup in Hj as [i Hi].
    destruct (Forall2_lookup_r _ _ _ _ _ Hmap Hi) as (raw & Hraw & (vh' & pvh' & H1 & H2 & ->)%new_flat_Ok).
    apply list_elem_of_lookup_2 in Hraw. rewrite list.Forall_forall in Hjs, Htj.
    destruct (Hjs raw Hraw) as [Hvr Hdr]. split; [|split; [done|by apply duty_from_msg_instance]].
    eapply wrapped_authentic; eauto. }
  split.
  - unfold deliverable. apply andb_true_iff. split.
    + apply forallb_forall. intros m [<-|Hm]; [by eapply wrapped_authentic|].
      rewrite core_justification in Hm. apply list_elem_of_In, list_elem_of_fmap in Hm as (j & -> & Hj).
      rewrite list.Forall_forall in Hall. by apply Hall.
    + apply forallb_forall. intros m Hm.
      rewrite core_justification in Hm. apply list_elem_of_In, list_elem_of_fmap in Hm as (j & -> & Hj).
      rewrite list.Forall_forall in Hall. destruct (Hall j Hj) as (_ & Hn & _). by rewrite Hn.
  - constructor; [by apply duty_from_msg_instance|]. rewrite core_justification. apply list.Forall_forall.
    intros m (j & -> & Hj)%list_elem_of_fmap. rewrite list.Forall_forall in Hall. by apply Hall.
Qed.

(** ** A broadcast and its receivers *)

(** A map of values keyed by their consensus hash. *)
Definition cache_ok (vs : ValueMap) : Prop := forall h v, vs !! h = Some v -> any_hash v = Ok h.

Lemma values_loop_entries l out :
  Forall (fun kv : Bytes * Any => any_hash kv.2 = Ok kv.1) l -> NoDup l.*1 ->
  values_loop l.*2 out = Ok (list_to_map l ∪ out).
Proof.
  revert out. induction l as [|[h v] l IH]; intros out Hall Hnd; cbn.
  { by rewrite (left_id_L ∅ (∪)). }
  cbn in Hnd. apply list.NoDup_cons in Hnd as [Hh Hnd]. apply list.Forall_cons in Hall as [Hv Hall].
  cbn in Hv. rewrite Hv. cbn. rewrite IH by done. f_equal.
  rewrite <- insert_union_r by (by apply not_elem_of_list_to_map_1). by rewrite insert_union_l.
Qed.

(** The values of a message, listed in any order, give the receiver the map. *)
Lemma values_roundtrip ho vs : cache_ok vs -> values_by_hash (map_values ho vs) = Ok vs.
Proof.
  intros Hok. unfold values_by_hash, map_values. pose proof (ho_perm ho vs) as Hp.
  assert (NoDup (ho_list ho vs).*1) as Hnd by (rewrite Hp; apply NoDup_fst_map_to_list).
  rewrite values_loop_entries; [|rewrite Hp|done].
  - rewrite (right_id_L ∅ (∪)). f_equal. rewrite <- (list_to_map_to_list vs) at 2.
    by apply list_to_map_proper.
  - apply list.Forall_forall. intros [h v] Hin%elem_of_map_to_list. by apply Hok.
Qed.

Lemma values_loop_ok l out m : values_loop l out = Ok m -> cache_ok out -> cache_ok m.
Proof.
  revert out. induction l as [|v l IH]; intros out; cbn; [by intros [= <-]|].
  intros (h & Hh & Hl)%res_bind_Ok Hok. eapply IH; [done|].
  intros h' v' [[<- <-]|[_ Hx]]%lookup_insert_Some; [done|by apply Hok].
Qed.

(** Local values are packed canonically: the hash of their bytes is the hash of
    the decoded payload. *)
Definition canonical (v : Any) : Prop := forall h, hash_bytes (any_value v) = Some h -> any_hash v = Ok h.

Record transport_inv (t : Transport) : Prop := {
  inv_cache : cache_ok (values t);
  inv_local : Forall canonical (value_rx t);
}.

Lemma get_value_inv hash t :
  transport_inv t ->
  match get_value hash t with
  | (t', Ok v) => transport_inv t' /\ any_hash v = Ok hash /\ outbox t' = outbox t /\ recv_buffer t' = recv_buffer t
  | (t', _) => transport_inv t'
  end.
Proof.
  intros [Hc Hl]. unfold get_value. rewrite proc_get.
  assert (forall t', transport_inv t' -> outbox t' = outbox t -> recv_buffer t' = recv_buffer t ->
    match p_lift (S := Transport) (ok_or (values t' !! hash) UnknownValue) t' with
    | (t', Ok v) => transport_inv t' /\ any_hash v = Ok hash /\ outbox t' = outbox t /\ recv_buffer t' = recv_buffer t
    | (t', _) => transport_inv t' end) as Hend.
  { intros t' [Hc' Hl'] ? ?. unfold p_lift. destruct (values t' !! hash) as [v|] eqn:Ev; cbn; [|by split].
    split_and!; [by split|by apply Hc'|done|done]. }
  destruct (value_rx t) as [|local rest] eqn:Erx.
  - unfold mbind, proc_bind, mret, proc_ret, p_get. apply Hend; [|done|done]. split; [done|]. by rewrite Erx.
  - apply list.Forall_cons in Hl as [Hloc Hrest]. unfold mbind, proc_bind, p_modify, p_lift, p_get.
    destruct (hash_bytes (any_value local)) as [h|] eqn:Eh; cbn; [|by split].
    specialize (Hend (t <| value_rx := rest |> <| values ::= insert h local |>)).
    unfold p_lift in Hend. cbn in Hend. apply Hend; [|done|done]. split; cbn; [|done].
    intros h' v' [[<- <-]|[_ Hx]]%lookup_insert_Some; [by apply Hloc|by apply Hc].
Qed.

Lemma collect_values_inv hashes vs t :
  transport_inv t -> cache_ok vs ->
  match collect_values hashes vs t with
  | (t', Ok vs') => transport_inv t' /\ cache_ok vs' /\ outbox t' = outbox t /\ recv_buffer t' = recv_buffer t
  | (t', _) => transport_inv t'
  end.
Proof.
  revert vs t. induction hashes as [|h hashes IH]; intros vs t Hinv Hvs; cbn [collect_values]; [done|].
  destruct (_ || _); [by apply IH|]. unfold mbind, proc_bind. pose proof (get_value_inv h t Hinv) as Hg.
  destruct (get_value h t) as [t1 [v|e|]]; [|done|done]. destruct Hg as (H1 & Hv & Ho & Hr).
  specialize (IH (<[h := v]> vs) t1 H1). destruct (collect_values hashes (<[h := v]> vs) t1) as [t2 [vs2|e|]].
  - rewrite <- Ho, <- Hr. apply IH. intros h' v' [[<- <-]|[_ Hx]]%lookup_insert_Some; [done|by apply Hvs].
  - apply IH. intros h' v' [[<- <-]|[_ Hx]]%lookup_insert_Some; [done|by apply Hvs].
  - apply IH. intros h' v' [[<- <-]|[_ Hx]]%lookup_insert_Some; [done|by apply Hvs].
Qed.

(** What a signature proves: that of a key verifies, and is not empty. *)
Definition signs_as (sk : SecretKey) (pk : PublicKey) : Prop :=
  forall hash sig, k1_sign sk hash = Some sig -> sig <> [] /\ k1_recover hash sig = Some pk.

Lemma sign_verify raw sk pk signed :
  signs_as sk pk -> sign_msg raw sk = Ok signed ->
  verify_msg_sig signed pk = Ok true /\ unsigned signed = unsigned raw.
Proof.
  intros Hk. unfold sign_msg. destruct (hash_msg (unsigned raw)) as [h|] eqn:Eh; cbn; [|done].
  destruct (k1_sign sk h) as [sig|] eqn:Es; cbn; [|done]. intros [= <-].
  destruct (Hk h sig Es) as [Hne Hrec]. split; [|done].
  unfold verify_msg_sig. case_bool_decide as Hb; [by destruct Hne|].
  change (unsigned ((unsigned raw) <| q_signature := sig |>)) with (unsigned raw).
  change (q_signature ((unsigned raw) <| q_signature := sig |>)) with sig. rewrite Eh.
  cbn -[bool_decide]. rewrite Hrec. cbn -[bool_decide]. by rewrite bool_decide_eq_true_2.
Qed.

(** The core may broadcast the request: a valid type, duty and rounds, the
    sender's own index, full hashes, and justifications that were admitted for
    the same duty, not more than a message may carry. *)
Record sendable (c : Consensus) (r : TRequest) (pk : PublicKey) : Prop := {
  s_type : message_type_valid (t_type r) = true;
  s_duty : is_valid (duty_type (t_duty r)) = true;
  s_gate : duty_gater c (t_duty r) = true;
  s_peer : pubkeys c !! t_peer_idx r = Some pk;
  s_round : 0 < t_round r;
  s_prepared : 0 <= t_prepared_round r;
  s_value : len (t_value_hash r) = 32;
  s_prepared_value : len (t_prepared_value_hash r) = 32;
  s_just : Forall (fun j => verify_msg c (w_msg j) = Ok tt /\ duty_from_msg (w_msg j) = Ok (t_duty r))
             (t_justification r);
  s_count : len (t_justification r) <= max_justifications c;
}.

Lemma verify_justifications_ok (c : Consensus) duty l :
  Forall (fun j => verify_msg c j = Ok tt /\ duty_from_msg j = Ok duty) l ->
  verify_justifications c duty l = Ok tt.
Proof.
  induction 1 as [|j l [Hv Hd] _ IH]; [done|]. cbn. rewrite Hv. cbn. rewrite Hd. cbn.
  rewrite bool_decide_eq_false_2; [done|]. by intros [].
Qed.

#[local] Arguments verify_msg : simpl never.
#[local] Arguments verify_msg_sig : simpl never.
#[local] Arguments duty_from_msg : simpl never.
#[local] Arguments msg_new : simpl never.
#[local] Arguments values_by_hash : simpl never.
#[local] Arguments map_values : simpl never.
#[local] Arguments Z.ltb : simpl never.
#[local] Arguments Z.leb : simpl never.

(** A message that [create_msg] builds is admitted by every receiver that
    knows the sender. *)
Lemma created_admitted (c : Consensus) ho sk pk r vs w :
  signs_as sk pk -> sendable c r pk -> cache_ok vs -> create_msg r vs sk = Ok w ->
  admit_msg c (to_consensus_msg ho w) = Ok (t_duty r, w) /\
  type_ (core_of w) = t_type r /\ source (core_of w) = t_peer_idx r /\ round (core_of w) = t_round r /\
  value (core_of w) = t_value_hash r /\ prepared_round (core_of w) = t_prepared_round r /\
  prepared_value (core_of w) = t_prepared_value_hash r.
Proof.
  intros Hk [S1 S2 S3 S4 S5 S6 S7 S8 S9 S10] Hvs. unfold create_msg.
  destruct (duty_to_proto (t_duty r)) as [pd|] eqn:Epd; cbn; [|done].
  set (raw := {| q_type := t_type r |}).
  destruct (sign_msg raw sk) as [signed|e|] eqn:Esign; cbn; [|done|done].
  destruct (msg_new signed (w_msg <$> t_justification r) vs) as [w'|e|] eqn:Enew; cbn; [|done|done].
  intros [= <-]. destruct (sign_verify raw sk pk signed Hk Esign) as [Hsig Hun].
  assert (exists sig, signed = raw <| q_signature := sig |>) as [sig ->].
  { exists (q_signature signed). destruct signed. unfold unsigned in Hun. cbn in Hun. by injection Hun as -> -> -> -> -> -> ->. }
  pose proof Enew as Hnew. unfold msg_new in Hnew.
  apply res_bind_Ok in Hnew as (vh & Hvh & (pvh & Hpvh & (js & Hmap & [= <-])%res_bind_Ok)%res_bind_Ok).
  apply value_hash_Ok in Hvh as [_ Hvh]. apply prepared_value_hash_Ok in Hpvh as [_ Hpvh].
  unfold duty_to_proto in Epd. destruct (duty_type_to_i32 (duty_type (t_duty r))) as [t|] eqn:Et; [|done].
  cbn in Epd. injection Epd as <-. apply duty_type_i32_inv in Et.
  assert (duty_from_msg (raw <| q_signature := sig |>) = Ok (t_duty r)) as Hduty.
  { unfold duty_from_msg, duty_from_proto. cbn. rewrite Et. cbn. rewrite S2. cbn. by destruct (t_duty r). }
  assert (verify_msg c (raw <| q_signature := sig |>) = Ok tt) as Hver.
  { unfold verify_msg. cbn. rewrite S1. cbn. rewrite Et. cbn. rewrite S2. cbn.
    destruct (Z.leb_spec (t_round r) 0); [lia|]. destruct (Z.ltb_spec (t_prepared_round r) 0); [lia|].
    rewrite S4. cbn. by rewrite Hsig. }
  split_and!; try done; [|by apply Hvh|by apply Hpvh].
  unfold admit_msg, to_consensus_msg. cbn. rewrite Hver. cbn. rewrite Hduty. cbn. rewrite S3. cbn.
  replace (len (w_msg <$> t_justification r)) with (len (t_justification r)) by (unfold len; by rewrite length_fmap).
  destruct (Z.ltb_spec (max_justifications c) (len (t_justification r))); [lia|].
  rewrite verify_justifications_ok by (by apply Forall_fmap). cbn.
  rewrite values_roundtrip by done. cbn. by rewrite Enew.
Qed.

(** C4: what is sent is what is received.  When a correct participant's
    transport broadcasts a request of the core, the message it puts into its
    own core's buffer and the message every peer that knows its key admits from
    the wire are the same, with the request's type, source, rounds and values;
    the order in which the values travel does not matter. *)
Theorem broadcast_received (c : Consensus) ho sk pk r sent t t' :
  signs_as sk pk -> sendable c r pk -> transport_inv t ->
  broadcast ho sk sent r t = (t', Ok tt) ->
  exists w pb, outbox t' = outbox t ++ [pb] /\ recv_buffer t' = recv_buffer t ++ [w] /\
    admit_msg c pb = Ok (t_duty r, w) /\
    type_ (core_of w) = t_type r /\ source (core_of w) = t_peer_idx r /\ round (core_of w) = t_round r /\
    value (core_of w) = t_value_hash r /\ prepared_round (core_of w) = t_prepared_round r /\
    prepared_value (core_of w) = t_prepared_value_hash r.
Proof.
  intros Hk Hs Hinv. unfold broadcast. unfold mbind at 1, proc_bind at 1.
  pose proof (collect_values_inv (request_hashes r) ∅ t Hinv) as Hc.
  destruct (collect_values (request_hashes r) ∅ t) as [t1 [vs|e|]]; [|done|done].
  destruct Hc as (_ & Hvs & Ho & Hr); [intros h v Hx; by rewrite lookup_empty in Hx|].
  unfold mbind at 1, proc_bind at 1, p_lift at 1.
  destruct (create_msg r vs sk) as [w|e|] eqn:Ew; [|done|done].
  destruct (created_admitted c ho sk pk r vs w Hk Hs Hvs Ew) as [Hadm Hfields].
  unfold mbind, proc_bind, p_modify, p_lift. intros [= <- _]. exists w, (to_consensus_msg ho w). cbn.
  rewrite Ho, Hr. split_and!; try done; apply Hfields.
Qed.

(** The values of an admitted message. *)
Lemma values_loop_source l out m h v :
  values_loop l out = Ok m -> m !! h = Some v -> (v ∈ l /\ any_hash v = Ok h) \/ out !! h = Some v.
Proof.
  revert out m. induction l as [|x l IH]; intros out m; cbn; [intros [= <-]; by right|].
  intros (hx & Hx & Hl)%res_bind_Ok Hm. destruct (IH _ _ Hl Hm) as [[Hin Hv]|Hout].
  - left. split; [by right|done].
  - apply lookup_insert_Some in Hout as [[<- <-]|[_ ?]]; [left; split; [by left|done]|by right].
Qed.

Lemma admit_values (c : Consensus) pb duty w :
  admit_msg c pb = Ok (duty, w) ->
  (forall h v, w_values w !! h = Some v -> v ∈ cm_values pb /\ any_hash v = Ok h) /\
  (value (core_of w) <> zero_hash -> is_Some (w_values w !! value (core_of w))).
Proof.
  intros (inner & vs & _ & _ & _ & _ & _ & Hvs & Hw)%admit_Ok. unfold msg_new in Hw.
  apply res_bind_Ok in Hw as (vh & Hvh & (pvh & Hpvh & (js & _ & [= <-])%res_bind_Ok)%res_bind_Ok).
  apply value_hash_Ok in Hvh as [Hvh _]. cbn. split; [|by destruct Hvh].
  intros h v Hv. destruct (values_loop_source _ _ _ _ _ Hvs Hv) as [?|Hn]; [done|]. by rewrite lookup_empty in Hn.
Qed.
End transport.

(** ** A concrete cluster

    Keys are numbers; a message is hashed to the list of its integers, padded to
    32 bytes, and signed by prefixing the key. *)
Module TransportSample.
Definition pad (l : Bytes) : Bytes := take 32 (l ++ replicate 32 1).

#[local] Instance wire : Wire Z Z Bytes Bytes := {
  hash_msg := fun m => Some (pad (q_type m :: q_peer_idx m :: q_round m :: q_prepared_round m :: q_value_hash m));
  hash_bytes := fun b => Some (pad b);
  uds_url := "uds"; pr_url := "pr";
  decode_uds := fun b => Some b; decode_pr := fun b => Some b;
  hash_uds := fun b => Some (pad b); hash_pr := fun b => Some (pad b);
  k1_sign := fun sk h => Some (sk :: h);
  k1_recover := fun h sig => match sig with pk :: h' => if decide (h = h') then Some pk else None | [] => None end;
}.

Definition payload : Any := {| type_url := "uds"; any_value := [5; 6] |}.
Definition duty7 : Duty := {| slot := 7; duty_type := Attester |}.

Definition peer : @Consensus Z := {|
  node_count := 4; pubkeys := list_to_map [(0, 100); (1, 101); (2, 102); (3, 103)];
  local_peer_idx := 0; duty_gater := fun _ => true; instances := ∅ |}.

(** Peer 1 proposes the payload it holds in its local channel. *)
Definition t0 : Transport := {| value_rx := [payload]; values := ∅; outbox := []; recv_buffer := [] |}.
Definition proposal : TRequest := {|
  t_type := MSG_PRE_PREPARE; t_duty := duty7; t_peer_idx := 1; t_round := 1;
  t_value_hash := pad [5; 6]; t_prepared_round := 0; t_prepared_value_hash := zero_hash;
  t_justification := [] |}.

Definition t1 : Transport := fst (broadcast default_order 101 (Ok tt) proposal t0).

Lemma broadcast_received_witness :
  exists w pb, outbox t1 = outbox t0 ++ [pb] /\ recv_buffer t1 = recv_buffer t0 ++ [w] /\
    admit_msg peer pb = Ok (duty7, w) /\
    type_ (core_of w) = MSG_PRE_PREPARE /\ source (core_of w) = 1 /\ round (core_of w) = 1 /\
    value (core_of w) = pad [5; 6] /\ prepared_round (core_of w) = 0 /\ prepared_value (core_of w) = zero_hash.
Proof.
  refine (broadcast_received peer default_order 101 101 proposal (Ok tt) t0 t1 _ _ _ _).
  - intros h sig [= <-]. split; [done|]. cbn. by rewrite decide_True.
  - split; try reflexivity; try (cbn; lia); [constructor|vm_compute; discriminate].
  - split; [by intros h v Hv; vm_compute in Hv|]. repeat constructor. intros h [= <-]. reflexivity.
  - vm_compute. reflexivity.
Defined.

(** The message on the wire and its wrapper. *)
Definition wire_msg : QbftConsensusMsg := {|
  cm_msg := Some {| q_type := MSG_PRE_PREPARE; q_duty := Some {| pb_slot := 7; pb_type := 2 |};
    q_peer_idx := 1; q_round := 1; q_value_hash := pad [5; 6]; q_prepared_round := 0;
    q_prepared_value_hash := zero_hash;
    q_signature := 101 :: pad (1 :: 1 :: 1 :: 0 :: pad [5; 6]) |};
  cm_justification := []; cm_values := [payload] |}.
Definition wrapped : WMsg := {|
  w_msg := default {| q_type := 0; q_duty := None; q_peer_idx := 0; q_round := 0; q_value_hash := [];
    q_prepared_round := 0; q_prepared_value_hash := []; q_signature := [] |} (cm_msg wire_msg);
  w_value_hash := pad [5; 6]; w_prepared_value_hash := zero_hash; w_values := {[pad [5; 6] := payload]};
  w_justification_protos := []; w_justification := [] |}.
End TransportSample.

(** A signature scheme in which one message was ever signed: peer 1's PREPARE. *)
Module SignedSample.
Definition body : QbftMsg := {| q_type := MSG_PREPARE; q_duty := Some {| pb_slot := 7; pb_type := 2 |};
  q_peer_idx := 1; q_round := 1; q_value_hash := zero_hash; q_prepared_round := 0;
  q_prepared_value_hash := zero_hash; q_signature := [] |}.

#[local] Instance wire : Wire Z Z Bytes Bytes := {
  hash_msg := fun m => if decide (m = body) then Some [1] else None;
  hash_bytes := fun b => Some b;
  uds_url := "uds"; pr_url := "pr";
  decode_uds := fun b => Some b; decode_pr := fun b => Some b;
  hash_uds := fun b => Some b; hash_pr := fun b => Some b;
  k1_sign := fun sk h => Some (sk :: h);
  k1_recover := fun h sig => if decide (sig = [101; 1]) then Some 101 else None;
}.

Definition prepare : QbftConsensusMsg :=
  {| cm_msg := Some (body <| q_signature := [101; 1] |>); cm_justification := []; cm_values := [] |}.
Definition wrapped_prepare : WMsg := {|
  w_msg := body <| q_signature := [101; 1] |>; w_value_hash := zero_hash; w_prepared_value_hash := zero_hash;
  w_values := ∅; w_justification_protos := []; w_justification := [] |}.
Definition sent : list (@Qbft.BroadcastRequest Duty Bytes Any) := [{|
  b_type := MSG_PREPARE; b_instance := TransportSample.duty7; b_source := 1; b_round := 1;
  b_value := zero_hash; b_prepared_round := 0; b_prepared_value := zero_hash; b_justification := None |}].

Lemma one_signature : unforgeable TransportSample.peer ∅ sent.
Proof.
  intros raw pk _ Hsig. right. constructor. unfold verify_msg_sig in Hsig.
  case_bool_decide; [done|]. destruct (hash_msg (unsigned raw)) as [h|] eqn:E; [|done].
  cbn in E. destruct (decide (unsigned raw = body)) as [Hb|]; [|done].
  destruct raw. unfold unsigned in Hb. cbn in Hb. injection Hb as -> -> -> -> -> -> ->.
  by split_and!.
Defined.

Lemma admitted_messages_deliverable_witness :
  deliverable (dom (pubkeys TransportSample.peer)) ∅ sent (EvReceive (Some (core_of wrapped_prepare))) = true /\
  Forall (fun m => instance m = TransportSample.duty7)
    (core_of wrapped_prepare :: justification (core_of wrapped_prepare)).
Proof.
  refine (admitted_messages_deliverable TransportSample.peer prepare TransportSample.duty7 wrapped_prepare ∅ sent _ _ _).
  - vm_compute. reflexivity.
  - repeat constructor.
  - exact one_signature.
Defined.
End SignedSample.
