(* ===== verification/ConsensusDefinition.v ===== *)
(** * The callbacks of a consensus instance

    [crates/consensus/src/qbft/definition.rs]: the election of leaders, the
    comparison of a proposed attestation with the local one, and what happens
    with a decision ([SubscriberSet] of [component.rs] included). *)

From S2P Require Import Prelude Qbft Bytes Types DutyDb ConsensusMsg ConsensusTransport.

Open Scope Z_scope.

(** ** Leaders *)

(** [leader]: the sum fits an [i128]; a division by zero panics. *)
Definition leader (duty : Duty) (round nodes : Z) : res unit Z :=
  let duty_type := default 0 (duty_type_to_i32 (duty_type duty)) in
  let total := slot duty + duty_type + round in
  if nodes =? 0 then Panic else Ok (total mod Z.abs nodes).

(** ** Comparison and decision *)

Section definition.
Context {PublicKey SecretKey UDS PR : Type} `{EqDecision PublicKey}.
Context {W : Wire PublicKey SecretKey UDS PR}.
Context {PubKey Root Proposal AggAttestation Bits : Type}.
Context `{Countable PubKey, EqDecision Root}.

(** [phase0::Checkpoint]. *)
Record Checkpoint := { cp_epoch : Z; cp_root : Root }.

Abbreviation Unsigned := (@UnsignedDutyData Root Checkpoint Proposal AggAttestation Bits).
Abbreviation UnsignedSet := (gmap PubKey Unsigned).

(** [unsigned_data_set_from_proto] for attester duties. *)
Context (set_from_proto : UDS -> option UnsignedSet).

Inductive AttesterCompareError :=
| ValueSource (e : QbftError)
| DecodeAny (e : ComponentError)
| UnexpectedValueType
| TimeoutWaitingLocalValue
| LocalValueChannelClosed
| DecodeUnsignedDataSet
| UnexpectedUnsignedDataType
| AttestationMismatch (pubkey : PubKey) (field : string).

Definition decode_attester_set (any : Any) : res AttesterCompareError UnsignedSet :=
  decoded ← map_err DecodeAny (decode_supported_any any);
  match decoded with
  | UnsignedDataSet value => ok_or (set_from_proto value) DecodeUnsignedDataSet
  | PriorityResult _ => Err UnexpectedValueType
  end.

(** [Any::default()]. *)
Definition any_default : Any := {| type_url := ""; any_value := [] |}.

(** What the select of [local_compare_value] sees. *)
Inductive LocalValue := LocalReceived (v : Any) | LocalClosed | LocalCancelled.

(** The value, and the one sent back to the core's cache. *)
Definition local_compare_value (input_value_source : Any) (local : LocalValue)
    : res AttesterCompareError (Any * option Any) :=
  if bool_decide (input_value_source <> any_default) then Ok (input_value_source, None)
  else match local with
  | LocalReceived v => Ok (v, Some v)
  | LocalClosed => Err LocalValueChannelClosed
  | LocalCancelled => Err TimeoutWaitingLocalValue
  end.

Definition attestation_data (data : Unsigned) : res AttesterCompareError (@Attestation Root Checkpoint) :=
  match data with UAttestation a => Ok a | _ => Err UnexpectedUnsignedDataType end.

(** The comparison of one validator's data. *)
Definition compare_data (pubkey : PubKey) (l r : @Attestation Root Checkpoint) : res AttesterCompareError unit :=
  let ls := ad_source (at_data l) in let rs := ad_source (at_data r) in
  let lt := ad_target (at_data l) in let rt := ad_target (at_data r) in
  if negb (cp_epoch ls =? cp_epoch rs) then Err (AttestationMismatch pubkey "source epoch")
  else if bool_decide (cp_root ls <> cp_root rs) then Err (AttestationMismatch pubkey "source root")
  else if negb (cp_epoch lt =? cp_epoch rt) then Err (AttestationMismatch pubkey "target epoch")
  else if bool_decide (cp_root lt <> cp_root rt) then Err (AttestationMismatch pubkey "target root")
  else Ok tt.

Fixpoint compare_loop (leader : list (PubKey * Unsigned)) (local : UnsignedSet) : res AttesterCompareError unit :=
  match leader with
  | [] => Ok tt
  | (pubkey, leader_data) :: leader =>
    leader_data ← attestation_data leader_data;
    match local !! pubkey with
    | None => compare_loop leader local
    | Some local_data =>
      local_data ← attestation_data local_data;
      compare_data pubkey leader_data local_data ;;
      compare_loop leader local
    end
  end.

Definition compare_attester (ho : HashOrder) (qcommit : @Qbft.Msg Duty Bytes Any) (input_value_source : Any)
    (local : LocalValue) : res AttesterCompareError unit :=
  leader_any ← map_err ValueSource (value_source qcommit);
  leader ← decode_attester_set leader_any;
  '(local_any, _) ← local_compare_value input_value_source local;
  local ← decode_attester_set local_any;
  compare_loop (ho_list ho leader) local.

(** [compare]: what is sent back to the core. *)
Definition compare (ho : HashOrder) (compare_attestations : bool) (qcommit : @Qbft.Msg Duty Bytes Any)
    (input_value_source : Any) (local : LocalValue) : res QbftError unit :=
  if negb compare_attestations || negb (bool_decide (duty_type (instance qcommit) = Attester)) then Ok tt
  else map_err (fun _ => CompareError) (compare_attester ho qcommit input_value_source local).

(** Who is told about a decision: the decide callback, then every subscriber of
    the payload's kind, in order of registration; errors are logged only. *)
Inductive Subscriber := SubUnsigned (id : nat) | SubPriority (id : nat).
Inductive Notification :=
| DecideCallback (qcommit : list WMsg)
| ToUnsigned (id : nat) (duty : Duty) (v : UDS)
| ToPriority (id : nat) (duty : Duty) (v : PR).

Definition dispatch_decoded (subs : list Subscriber) (duty : Duty) (v : @DecodedValue UDS PR) : list Notification :=
  omap (fun s => match s, v with
    | SubUnsigned id, UnsignedDataSet x => Some (ToUnsigned id duty x)
    | SubPriority id, PriorityResult x => Some (ToPriority id duty x)
    | _, _ => None
    end) subs.

Definition decide_ (subs : list Subscriber) (duty : Duty) (value : Bytes) (qcommit : list WMsg) : list Notification :=
  match head qcommit with
  | None => []
  | Some msg =>
    match w_values msg !! value with
    | None => []
    | Some any_value =>
      match decode_supported_any any_value with
      | Ok decoded => DecideCallback qcommit :: dispatch_decoded subs duty decoded
      | _ => []
      end
    end
  end.

(** ** Theorems *)

(** The sources and targets of two attestations agree. *)
Definition same_vote (l r : @Attestation Root Checkpoint) : Prop :=
  ad_source (at_data l) = ad_source (at_data r) /\ ad_target (at_data l) = ad_target (at_data r).

Lemma compare_data_Ok pk l r : compare_data pk l r = Ok tt <-> same_vote l r.
Proof.
  unfold compare_data, same_vote. destruct (ad_source (at_data l)) as [se sr], (ad_source (at_data r)) as [se' sr'],
    (ad_target (at_data l)) as [te tr], (ad_target (at_data r)) as [te' tr']; cbn.
  destruct (Z.eqb_spec se se'), (Z.eqb_spec te te'); cbn; repeat case_bool_decide; cbn; naive_solver.
Qed.

(** What the comparison demands of one validator. *)
Definition vote_agrees (local : UnsignedSet) (pk : PubKey) (u : Unsigned) : Prop :=
  exists a, u = UAttestation a /\
    forall x, local !! pk = Some x -> exists b, x = UAttestation b /\ same_vote a b.

Lemma compare_loop_Ok l local :
  compare_loop l local = Ok tt <-> Forall (fun kv => vote_agrees local kv.1 kv.2) l.
Proof.
  induction l as [|[pk u] l IH]; cbn; [by split; [constructor|]|]. rewrite list.Forall_cons. cbn.
  unfold vote_agrees at 1. destruct u as [|a| |]; cbn; try (split; [done|by intros [(? & ? & _) _]]).
  destruct (local !! pk) as [x|] eqn:Ex.
  - destruct x as [|b| |]; cbn; try (split; [done|];
      intros [(a' & [= <-] & Hx) _]; by destruct (Hx _ eq_refl) as (? & ? & _)).
    destruct (compare_data pk a b) as [[]|e|] eqn:Ec; cbn.
    + rewrite IH. apply compare_data_Ok in Ec. split; [|by intros [_ ?]]. intros Hl. split; [|done].
      exists a. split; [done|]. intros x [= <-]. eauto.
    + split; [done|]. intros [(a' & [= <-] & Hx) _]. destruct (Hx _ eq_refl) as (b' & [= <-] & Hs).
      apply (compare_data_Ok pk) in Hs. congruence.
    + split; [done|]. intros [(a' & [= <-] & Hx) _]. destruct (Hx _ eq_refl) as (b' & [= <-] & Hs).
      apply (compare_data_Ok pk) in Hs. congruence.
  - rewrite IH. split; [|by intros [_ ?]]. intros Hl. split; [|done]. exists a. split; [done|]. done.
Qed.

(** The comparison accepts a proposal exactly when its attestations vote
    like the local ones: for a payload and a local value that decode, in
    whatever order the validators are visited, the result is [Ok] if and only
    if every validator known locally has the same source and target
    checkpoints in both; a validator not known locally is skipped. *)
Theorem compare_accepts_same_votes ho (m : @Qbft.Msg Duty Bytes Any) input local v lv back lset rset :
  duty_type (instance m) = Attester -> value_source m = Ok v -> decode_attester_set v = Ok lset ->
  local_compare_value input local = Ok (lv, back) -> decode_attester_set lv = Ok rset ->
  compare ho true m input local = Ok tt <-> (forall pk u, lset !! pk = Some u -> vote_agrees rset pk u).
Proof.
  intros Ht Hv Hl Hlv Hr. unfold compare. rewrite bool_decide_eq_true_2 by done. cbn.
  unfold compare_attester. rewrite Hv. cbn. rewrite Hl. cbn. rewrite Hlv. cbn. rewrite Hr. cbn.
  transitivity (compare_loop (ho_list ho lset) rset = Ok tt).
  { destruct (compare_loop _ _) as [[]|e|]; cbn; by split. }
  rewrite compare_loop_Ok, (ho_perm ho lset), list.Forall_forall. split.
  - intros Hall pk u Hu. apply (Hall (pk, u)). by apply elem_of_map_to_list.
  - intros Hall [pk u] Hin%elem_of_map_to_list. by apply Hall.
Qed.

(** A decision reaches the subscribers with the payload that was sent.  If
    the first message of the deciding quorum was admitted and carries the
    decided, non-zero value, then the decide callback and every subscriber of
    the payload's kind are called, once each, with a payload of that message
    whose consensus hash is the decided value. *)
Theorem decision_dispatched (c : @Consensus PublicKey) pb duty w qcommit subs :
  admit_msg c pb = Ok (duty, w) -> head qcommit = Some w -> value (core_of w) <> zero_hash ->
  exists v decoded, v ∈ cm_values pb /\ any_hash v = Ok (value (core_of w)) /\
    decode_supported_any v = Ok decoded /\
    decide_ subs duty (value (core_of w)) qcommit = DecideCallback qcommit :: dispatch_decoded subs duty decoded.
Proof.
  intros Hadm Hhead Hz. destruct (admit_values c pb duty w Hadm) as [Hin Hsome].
  destruct (Hsome Hz) as [v Hv]. destruct (Hin _ _ Hv) as [Hpb Hh].
  pose proof Hh as Hd. unfold any_hash in Hd. apply res_bind_Ok in Hd as (decoded & Hdec & _).
  exists v, decoded. split_and!; try done. unfold decide_. by rewrite Hhead, Hv, Hdec.
Qed.
End definition.

(** ** Rotation of leaders *)

Lemma leader_eq duty round nodes :
  0 < nodes ->
  leader duty round nodes =
    Ok ((slot duty + default 0 (duty_type_to_i32 (duty_type duty)) + round) mod nodes).
Proof.
  intros Hn. unfold leader. destruct (Z.eqb_spec nodes 0); [lia|]. by rewrite Z.abs_eq by lia.
Qed.

(** Every participant leads.  The leader of a round is a participant, and
    among any [nodes] consecutive rounds of a duty each participant leads
    exactly one: a cluster with a correct participant reaches a correct leader
    within [faulty + 1] rounds. *)
Theorem leaders_rotate duty round nodes p :
  0 < nodes -> 0 <= p < nodes ->
  (exists l, leader duty round nodes = Ok l /\ 0 <= l < nodes) /\
  (exists k, 0 <= k < nodes /\ leader duty (round + k) nodes = Ok p /\
     forall k', 0 <= k' < nodes -> leader duty (round + k') nodes = Ok p -> k' = k).
Proof.
  intros Hn Hp. set (t := slot duty + default 0 (duty_type_to_i32 (duty_type duty)) + round). split.
  { exists (t mod nodes). rewrite leader_eq by done. split; [done|]. by apply Z.mod_pos_bound. }
  assert (forall k, leader duty (round + k) nodes = Ok ((t + k) mod nodes)) as Hl.
  { intros k. rewrite leader_eq by done. f_equal. f_equal. unfold t. lia. }
  exists ((p - t) mod nodes). pose proof (Z.mod_pos_bound (p - t) nodes Hn) as Hk. split_and!; try lia.
  - rewrite Hl, Zplus_mod_idemp_r. replace (t + (p - t)) with p by lia. by rewrite Z.mod_small.
  - intros k' Hk'. rewrite Hl. intros [= <-]. rewrite Zminus_mod_idemp_l.
    replace (t + k' - t) with k' by lia. by rewrite Z.mod_small.
Qed.

(** ** Concrete callbacks *)

Module DefinitionSample.
Import TransportSample.
#[local] Existing Instance wire.

Lemma leaders_rotate_witness :
  (exists l, leader duty7 5 4 = Ok l /\ 0 <= l < 4) /\
  (exists k, 0 <= k < 4 /\ leader duty7 (5 + k) 4 = Ok 3 /\
     forall k', 0 <= k' < 4 -> leader duty7 (5 + k') 4 = Ok 3 -> k' = k).
Proof. apply (leaders_rotate duty7 5 4 3); lia. Defined.

Abbreviation SUnsigned := (@UnsignedDutyData Z (@Checkpoint Z) Z Z Z).

Definition vote (source target : Z) : SUnsigned := UAttestation {|
  at_data := {| ad_slot := 7; ad_index := 3; ad_beacon_block_root := 9;
    ad_source := {| cp_epoch := source; cp_root := source |};
    ad_target := {| cp_epoch := target; cp_root := target |} |};
  at_duty_slot := 7; at_committee_index := 3; at_validator_index := 1 |}.

(** A payload of two numbers is validator 11's source and target epoch. *)
Definition set_from_proto (b : Bytes) : option (gmap Z SUnsigned) :=
  match b with [s; t] => Some {[11 := vote s t]} | _ => None end.

Lemma compare_accepts_same_votes_witness :
  compare set_from_proto default_order true (core_of wrapped) any_default (LocalReceived payload) = Ok tt <->
  (forall pk u, ({[11 := vote 5 6]} : gmap Z SUnsigned) !! pk = Some u ->
     vote_agrees ({[11 := vote 5 6]} : gmap Z SUnsigned) pk u).
Proof.
  refine (compare_accepts_same_votes set_from_proto default_order (core_of wrapped) any_default
    (LocalReceived payload) payload payload (Some payload) _ _ _ _ _ _ _); vm_compute; reflexivity.
Defined.

Lemma decision_dispatched_witness :
  exists v decoded, v ∈ cm_values wire_msg /\ any_hash v = Ok (value (core_of wrapped)) /\
    decode_supported_any v = Ok decoded /\
    decide_ [SubPriority 0; SubUnsigned 1] duty7 (value (core_of wrapped)) [wrapped] =
      DecideCallback [wrapped] :: dispatch_decoded [SubPriority 0; SubUnsigned 1] duty7 decoded.
Proof.
  refine (decision_dispatched peer wire_msg duty7 wrapped [wrapped] [SubPriority 0; SubUnsigned 1] _ _ _).
  - vm_compute. reflexivity.
  - reflexivity.
  - vm_compute. discriminate.
Defined.
End DefinitionSample.
