(* ===== verification/FeatureSet.v ===== *)
(** * Feature set

    The rollout status of features ([crates/featureset/src/lib.rs]): a feature
    is enabled when its status, the default one or the user's choice, is at
    least the configured minimum. *)

From stdpp Require Import countable.
From Stdlib Require Import Ascii.
From S2P Require Import Prelude.

Inductive Status := Disable | Alpha | Beta | Stable | Sentinel | Enable.

#[global] Instance Status_eq_dec : EqDecision Status.
Proof. solve_decision. Defined.

(** The discriminants, by which the derived order compares. *)
Definition status_value (s : Status) : Z :=
  match s with
  | Disable => 0 | Alpha => 1 | Beta => 2 | Stable => 3 | Sentinel => 4
  | Enable => 2 ^ 31 - 1
  end.

Definition status_str (s : Status) : string :=
  match s with
  | Disable => "disable" | Alpha => "alpha" | Beta => "beta" | Stable => "stable"
  | Sentinel => "sentinel" | Enable => "enable"
  end.

Inductive Feature :=
| MockAlpha
| EagerDoubleLinearF
| ConsensusParticipate
| AggSigDBV2
| JsonRequests
| GnosisBlockHotfix
| LinearF
| SseReorgDuties
| AttestationInclusion
| ProposalTimeout
| Quic
| FetchOnlyCommIdx0
| ChainSplitHalt.

#[global] Instance Feature_eq_dec : EqDecision Feature.
Proof. solve_decision. Defined.

Definition feature_str (f : Feature) : string :=
  match f with
  | MockAlpha => "mock_alpha"
  | EagerDoubleLinearF => "eager_double_linear"
  | ConsensusParticipate => "consensus_participate"
  | AggSigDBV2 => "aggsigdb_v2"
  | JsonRequests => "json_requests"
  | GnosisBlockHotfix => "gnosis_block_hotfix"
  | LinearF => "linear"
  | SseReorgDuties => "sse_reorg_duties"
  | AttestationInclusion => "attestation_inclusion"
  | ProposalTimeout => "proposal_timeout"
  | Quic => "quic"
  | FetchOnlyCommIdx0 => "fetch_only_commidx_0"
  | ChainSplitHalt => "chain_split_halt"
  end.

(** [Feature::all]. *)
Definition all_features : list Feature :=
  [MockAlpha; EagerDoubleLinearF; ConsensusParticipate; AggSigDBV2; JsonRequests; GnosisBlockHotfix;
   LinearF; SseReorgDuties; AttestationInclusion; ProposalTimeout; Quic; FetchOnlyCommIdx0; ChainSplitHalt].

(** [str::eq_ignore_ascii_case]. *)
Definition ascii_lower (c : ascii) : ascii :=
  let n := nat_of_ascii c in
  if (65 <=? n)%nat && (n <=? 90)%nat then ascii_of_nat (n + 32) else c.

Fixpoint eq_ignore_ascii_case (s t : string) : bool :=
  match s, t with
  | EmptyString, EmptyString => true
  | String a s, String b t => Ascii.eqb (ascii_lower a) (ascii_lower b) && eq_ignore_ascii_case s t
  | _, _ => false
  end.

(** [Feature::try_from]. *)
Definition feature_of (value : string) : option Feature :=
  List.find (fun f => eq_ignore_ascii_case value (feature_str f)) all_features.

#[global] Instance Feature_countable : Countable Feature.
Proof.
  refine (inj_countable feature_str feature_of _). intros []; reflexivity.
Defined.

Inductive FeaturesetError := UnknownMinStatus (min_status : string).

Record Config := {
  cfg_min_status : Status;
  cfg_enabled : list Feature;
  cfg_disabled : list Feature;
}.

Definition config_default : Config :=
  {| cfg_min_status := Stable; cfg_enabled := []; cfg_disabled := [] |}.

Record FeatureSet := {
  fs_state : gmap Feature Status;
  fs_min_status : Status;
}.

Definition default_statuses : list (Feature * Status) :=
  [(EagerDoubleLinearF, Stable); (ConsensusParticipate, Stable); (MockAlpha, Alpha); (AggSigDBV2, Alpha);
   (JsonRequests, Alpha); (GnosisBlockHotfix, Alpha); (LinearF, Alpha); (SseReorgDuties, Alpha);
   (AttestationInclusion, Alpha); (ProposalTimeout, Alpha); (Quic, Alpha); (FetchOnlyCommIdx0, Alpha);
   (ChainSplitHalt, Alpha)].

Definition set_all (s : Status) (l : list Feature) (m : gmap Feature Status) : gmap Feature Status :=
  foldl (fun m f => <[f := s]> m) m l.

Definition from_config (c : Config) : res FeaturesetError FeatureSet :=
  match cfg_min_status c with
  | Alpha | Beta | Stable =>
      let state := list_to_map default_statuses in
      let state := set_all Enable (cfg_enabled c) state in
      let state := set_all Disable (cfg_disabled c) state in
      Ok {| fs_state := state; fs_min_status := cfg_min_status c |}
  | s => Err (UnknownMinStatus (status_str s))
  end.

Definition enabled (fs : FeatureSet) (f : Feature) : bool :=
  status_value (fs_min_status fs) <=? status_value (default Disable (fs_state fs !! f)).

Definition enable_gnosis_block_hotfix_if_not_disabled (c : Config) (fs : FeatureSet) : FeatureSet :=
  if bool_decide (GnosisBlockHotfix ∈ cfg_disabled c) then fs
  else {| fs_state := <[GnosisBlockHotfix := Enable]> (fs_state fs); fs_min_status := fs_min_status fs |}.

Definition custom_enabled_all (ho : HashOrder) (fs : FeatureSet) : list Feature :=
  (List.filter (fun fs => status_value Stable <? status_value (snd fs)) (ho_list ho (fs_state fs))).*1.

(** ** What is enabled *)

Definition default_status (f : Feature) : Status :=
  match f with EagerDoubleLinearF | ConsensusParticipate => Stable | _ => Alpha end.

(** The status of a feature after the choices of the user. *)
Definition chosen_status (c : Config) (f : Feature) : Status :=
  if bool_decide (f ∈ cfg_disabled c) then Disable
  else if bool_decide (f ∈ cfg_enabled c) then Enable
  else default_status f.

Lemma lookup_set_all s l m f : set_all s l m !! f = if bool_decide (f ∈ l) then Some s else m !! f.
Proof.
  unfold set_all. revert m. induction l as [|g l IH]; intros m; cbn [foldl]; [done|]. rewrite IH.
  destruct (decide (f ∈ l)) as [Hf|Hf].
  - rewrite !bool_decide_true; set_solver.
  - rewrite (bool_decide_false _ Hf). destruct (decide (f = g)) as [->|Hne].
    + rewrite lookup_insert, decide_True, bool_decide_true; set_solver.
    + rewrite lookup_insert_ne, bool_decide_false; set_solver.
Qed.

Lemma state_chosen c fs f : from_config c = Ok fs -> fs_state fs !! f = Some (chosen_status c f).
Proof.
  unfold from_config. intros Hc. assert (fs_state fs =
    set_all Disable (cfg_disabled c) (set_all Enable (cfg_enabled c) (list_to_map default_statuses))) as ->.
  { by destruct (cfg_min_status c); simplify_eq. }
  rewrite !lookup_set_all. unfold chosen_status. repeat (case_bool_decide; [done|]). by destruct f.
Qed.

(** A feature is on exactly when the user did not disable it and either
    enabled it or accepts its rollout status.  Disabling wins over enabling. *)
Theorem feature_enabled c fs f :
  from_config c = Ok fs ->
  (enabled fs f = true) <->
  (f ∉ cfg_disabled c) /\ (f ∈ cfg_enabled c \/ status_value (cfg_min_status c) <= status_value (default_status f)).
Proof.
  intros Hc. unfold enabled. rewrite (state_chosen c fs f Hc). cbn [default]. rewrite Z.leb_le.
  assert (fs_min_status fs = cfg_min_status c /\ 1 <= status_value (cfg_min_status c) <= 3) as [-> Hm].
  { unfold from_config in Hc. by destruct (cfg_min_status c); simplify_eq. }
  unfold chosen_status. repeat case_bool_decide; cbn; naive_solver lia.
Qed.

Lemma from_config_ok c :
  (exists fs, from_config c = Ok fs) <-> 1 <= status_value (cfg_min_status c) <= 3.
Proof. unfold from_config. destruct (cfg_min_status c); cbn; split; try lia; naive_solver. Qed.

(** On Gnosis the hotfix is on unless it was disabled, and nothing else changes. *)
Lemma gnosis_hotfix c fs f :
  from_config c = Ok fs ->
  enabled (enable_gnosis_block_hotfix_if_not_disabled c fs) f =
  if decide (f = GnosisBlockHotfix) then bool_decide (GnosisBlockHotfix ∉ cfg_disabled c) else enabled fs f.
Proof.
  intros Hc. pose proof (feature_enabled c fs f Hc) as He.
  assert (1 <= status_value (fs_min_status fs) <= 3).
  { unfold from_config in Hc. by destruct (cfg_min_status c); simplify_eq. }
  unfold enable_gnosis_block_hotfix_if_not_disabled. case_bool_decide as Hd; case_decide as Hf; subst.
  - rewrite bool_decide_false by tauto. apply not_true_iff_false. tauto.
  - done.
  - rewrite bool_decide_true by done. unfold enabled; cbn. rewrite lookup_insert, decide_True by done. cbn.
    apply Z.leb_le. lia.
  - unfold enabled; cbn. by rewrite lookup_insert_ne.
Qed.

(** Names are read back, in any case. *)
Lemma feature_of_str f : feature_of (feature_str f) = Some f.
Proof. by destruct f. Qed.

Lemma elem_of_custom_enabled ho c fs f :
  from_config c = Ok fs ->
  f ∈ custom_enabled_all ho fs <-> f ∈ cfg_enabled c /\ f ∉ cfg_disabled c.
Proof.
  intros Hc. unfold custom_enabled_all. rewrite list_elem_of_fmap.
  assert (status_value Stable < status_value (chosen_status c f) <-> f ∈ cfg_enabled c /\ f ∉ cfg_disabled c) as <-.
  { unfold chosen_status. repeat case_bool_decide; cbn; try naive_solver lia. destruct f; cbn; naive_solver lia. }
  split.
  - intros ([g s] & -> & [Hin Hs]%list_elem_of_In%filter_In). apply list_elem_of_In in Hin.
    rewrite ho_perm, elem_of_map_to_list, (state_chosen c fs g Hc) in Hin. simplify_eq/=. by apply Z.ltb_lt.
  - intros Hs. exists (f, chosen_status c f). split; [done|]. apply list_elem_of_In, filter_In. split.
    + apply list_elem_of_In. rewrite ho_perm. apply elem_of_map_to_list. by apply state_chosen.
    + by apply Z.ltb_lt.
Qed.
