(* ===== verification/RoundTimer.v ===== *)
(** * Round timers

    The timeouts of consensus rounds ([crates/consensus/src/timer.rs]): the
    three strategies behind the trait [RoundTimer], and the choice among them.
    Durations and instants count nanoseconds; the clock is an argument. *)

From S2P Require Import Prelude FeatureSet Types.

(** ** [Duration] and [Instant]

    A duration has 64-bit seconds; an instant has signed 64-bit seconds. *)

Definition MILLI : Z := 1000000.
Definition SECOND : Z := 1000000000.
Definition DURATION_MAX : Z := U64_MAX * SECOND + 999999999.

Definition duration_checked_mul (d k : Z) : option Z :=
  if d * k <=? DURATION_MAX then Some (d * k) else None.

Definition duration_checked_add (d e : Z) : option Z :=
  if d + e <=? DURATION_MAX then Some (d + e) else None.

Definition instant_checked_add (start timeout : Z) : option Z :=
  if (start + timeout) / SECOND <=? I64_MAX then Some (start + timeout) else None.

(** ** Timeouts *)

Definition INC_ROUND_START : Z := 750 * MILLI.
Definition INC_ROUND_INCREASE : Z := 250 * MILLI.
Definition LINEAR_ROUND_INC : Z := SECOND.
Definition PROPOSAL_TIMEOUT : Z := 1500 * MILLI.

Inductive TimerError :=
| InvalidRound (round : Z)
| DurationOverflow (round : Z)
| DeadlineOverflow (round : Z).

Inductive TimerType := Increasing | EagerDoubleLinear | Linear.

Definition eager (t : TimerType) : bool :=
  match t with EagerDoubleLinear => true | _ => false end.

Definition is_proposer (d : Duty) : bool := bool_decide (duty_type d = Proposer).

Definition proposal_timeout_duration (duty : option Duty) (round : Z) (fs : FeatureSet) : option Z :=
  if (round =? 1) && match duty with Some d => is_proposer d | None => false end && enabled fs ProposalTimeout
  then Some PROPOSAL_TIMEOUT else None.

Definition ensure_non_negative_round (round : Z) : res TimerError unit :=
  if round <? 0 then Err (InvalidRound round) else Ok tt.

Definition increasing_round_timeout (round : Z) : res TimerError Z :=
  ensure_non_negative_round round ;;
  rounds ← ok_or (guard_u32 round) (DurationOverflow round);
  increment ← ok_or (duration_checked_mul INC_ROUND_INCREASE rounds) (DurationOverflow round);
  ok_or (duration_checked_add INC_ROUND_START increment) (DurationOverflow round).

Definition linear_round_timeout (round : Z) : res TimerError Z :=
  ensure_non_negative_round round ;;
  rounds ← ok_or (guard_u32 round) (DurationOverflow round);
  ok_or (duration_checked_mul LINEAR_ROUND_INC rounds) (DurationOverflow round).

(** In nanoseconds. *)
Definition linear_subsequent_round_timeout (round : Z) : res TimerError Z :=
  ensure_non_negative_round round ;;
  previous_round ← ok_or (checked_sub_i64 round 1) (DurationOverflow round);
  increment_nanos ← ok_or (checked_mul_i64 previous_round 200) (DurationOverflow round);
  timeout_nanos ← ok_or (checked_add_i64 increment_nanos 200) (DurationOverflow round);
  ok_or (guard_u64 timeout_nanos) (DurationOverflow round).

Definition checked_deadline (start timeout round : Z) : res TimerError Z :=
  ok_or (instant_checked_add start timeout) (DeadlineOverflow round).

(** ** The three timers

    A timer answers with the deadline at which its future resolves. *)

Class RoundTimer (T : Type) := {
  timer_type : T -> TimerType;
  timer : Z -> Z -> proc T TimerError Z;
}.

Record IncreasingRoundTimer := { i_duty : option Duty; i_features : FeatureSet }.

Record EagerDoubleLinearRoundTimer := {
  e_duty : option Duty;
  e_features : FeatureSet;
  first_deadlines : gmap Z Z;
}.

Record LinearRoundTimer := { l_duty : option Duty; l_features : FeatureSet }.

Definition increasing_timer (now round : Z) : proc IncreasingRoundTimer TimerError Z :=
  t ← p_get;
  timeout ← p_lift (match proposal_timeout_duration (i_duty t) round (i_features t) with
                    | Some timeout => Ok timeout
                    | None => increasing_round_timeout round
                    end);
  p_lift (checked_deadline now timeout round).

Definition eager_timeout (duty : option Duty) (fs : FeatureSet) (round : Z) : res TimerError Z :=
  match proposal_timeout_duration duty round fs with
  | Some timeout => Ok timeout
  | None => linear_round_timeout round
  end.

Definition eager_timer (now round : Z) : proc EagerDoubleLinearRoundTimer TimerError Z :=
  t ← p_get;
  timeout ← p_lift (eager_timeout (e_duty t) (e_features t) round);
  match first_deadlines t !! round with
  | Some first => p_lift (checked_deadline first timeout round)
  | None =>
      first_deadline ← p_lift (checked_deadline now timeout round);
      p_modify (fun t => t <| first_deadlines ::= insert round first_deadline |>) ;;
      mret first_deadline
  end.

Definition linear_timer (now round : Z) : proc LinearRoundTimer TimerError Z :=
  t ← p_get;
  timeout ← p_lift (match proposal_timeout_duration (l_duty t) round (l_features t) with
                    | Some timeout => Ok timeout
                    | None => if round =? 1 then Ok SECOND else linear_subsequent_round_timeout round
                    end);
  p_lift (checked_deadline now timeout round).

#[global] Instance Increasing_timer : RoundTimer IncreasingRoundTimer :=
  {| timer_type := fun _ => Increasing; timer := increasing_timer |}.
#[global] Instance Eager_timer : RoundTimer EagerDoubleLinearRoundTimer :=
  {| timer_type := fun _ => EagerDoubleLinear; timer := eager_timer |}.
#[global] Instance Linear_timer : RoundTimer LinearRoundTimer :=
  {| timer_type := fun _ => Linear; timer := linear_timer |}.

(** [Box<dyn RoundTimer>]. *)
Inductive BoxTimer :=
| BIncreasing (t : IncreasingRoundTimer)
| BEager (t : EagerDoubleLinearRoundTimer)
| BLinear (t : LinearRoundTimer).

Definition boxed {T} (box : T -> BoxTimer) (t : T) (m : proc T TimerError Z) : BoxTimer * res TimerError Z :=
  let '(t, r) := m t in (box t, r).

#[global] Instance Box_timer : RoundTimer BoxTimer := {|
  timer_type := fun b =>
    match b with BIncreasing t => timer_type t | BEager t => timer_type t | BLinear t => timer_type t end;
  timer := fun now round b =>
    match b with
    | BIncreasing t => boxed BIncreasing t (timer now round)
    | BEager t => boxed BEager t (timer now round)
    | BLinear t => boxed BLinear t (timer now round)
    end;
|}.

Definition get_round_timer_func (fs : FeatureSet) (duty : Duty) : BoxTimer :=
  if enabled fs LinearF then
    if is_proposer duty then BLinear {| l_duty := Some duty; l_features := fs |}
    else if enabled fs EagerDoubleLinearF
    then BEager {| e_duty := Some duty; e_features := fs; first_deadlines := ∅ |}
    else BIncreasing {| i_duty := Some duty; i_features := fs |}
  else if enabled fs EagerDoubleLinearF
  then BEager {| e_duty := Some duty; e_features := fs; first_deadlines := ∅ |}
  else BIncreasing {| i_duty := Some duty; i_features := fs |}.

(** Successive calls, each with its time and round. *)
Fixpoint calls {T} `{RoundTimer T} (l : list (Z * Z)) (t : T) : list (res TimerError Z) :=
  match l with
  | [] => []
  | (now, round) :: l => let '(t, r) := timer now round t in r :: calls l t
  end.

(** ** Durations *)

(** The timeout of a round, by strategy. *)
Definition round_duration (t : TimerType) (round : Z) : Z :=
  match t with
  | Increasing => INC_ROUND_START + INC_ROUND_INCREASE * round
  | EagerDoubleLinear => SECOND * round
  | Linear => if round =? 1 then SECOND else 200 * round
  end.

(** With the override for proposals. *)
Definition duty_round_duration (fs : FeatureSet) (duty : Duty) (t : TimerType) (round : Z) : Z :=
  if (round =? 1) && is_proposer duty && enabled fs ProposalTimeout then PROPOSAL_TIMEOUT
  else round_duration t round.

(** Rounds and instants for which no arithmetic overflows: any 32-bit round,
    any instant whose seconds fit 62 bits. *)
Definition round_ok (round : Z) : Prop := 0 <= round <= U32_MAX.
Definition instant_ok (now : Z) : Prop := 0 <= now / SECOND <= 2 ^ 62.

Lemma duration_mul_ok d k : d * k <= DURATION_MAX -> duration_checked_mul d k = Some (d * k).
Proof. intros. unfold duration_checked_mul. by rewrite (proj2 (Z.leb_le _ _)). Qed.

Lemma duration_add_ok d e : d + e <= DURATION_MAX -> duration_checked_add d e = Some (d + e).
Proof. intros. unfold duration_checked_add. by rewrite (proj2 (Z.leb_le _ _)). Qed.

Lemma guard_u32_in z : 0 <= z <= U32_MAX -> guard_u32 z = Some z.
Proof. intros. unfold guard_u32, in_u32. by rewrite !(proj2 (Z.leb_le _ _)) by lia. Qed.

Ltac timer_bounds :=
  unfold round_ok, instant_ok, duty_round_duration, round_duration, INC_ROUND_START, INC_ROUND_INCREASE,
    LINEAR_ROUND_INC, PROPOSAL_TIMEOUT, MILLI, DURATION_MAX, SECOND, U32_MAX, U64_MAX, I64_MAX, I64_MIN in *.

Lemma non_negative_ok round : 0 <= round -> ensure_non_negative_round round = Ok tt.
Proof. intros. unfold ensure_non_negative_round. by rewrite (proj2 (Z.ltb_ge _ _)). Qed.

Lemma increasing_ok round :
  round_ok round -> increasing_round_timeout round = Ok (round_duration Increasing round).
Proof.
  intros Hr. unfold increasing_round_timeout. rewrite non_negative_ok by apply Hr. cbn [mbind res_bind].
  rewrite guard_u32_in by done. cbn [mbind res_bind ok_or].
  rewrite duration_mul_ok by (timer_bounds; lia). cbn [mbind res_bind ok_or].
  by rewrite duration_add_ok by (timer_bounds; lia).
Qed.

Lemma linear_ok round :
  round_ok round -> linear_round_timeout round = Ok (round_duration EagerDoubleLinear round).
Proof.
  intros Hr. unfold linear_round_timeout. rewrite non_negative_ok by apply Hr. cbn [mbind res_bind].
  rewrite guard_u32_in by done. cbn [mbind res_bind ok_or].
  by rewrite duration_mul_ok by (timer_bounds; lia).
Qed.

Lemma subsequent_ok round :
  round_ok round -> linear_subsequent_round_timeout round = Ok (200 * round).
Proof.
  intros Hr. unfold linear_subsequent_round_timeout, checked_sub_i64, checked_mul_i64, checked_add_i64.
  rewrite non_negative_ok by apply Hr. cbn [mbind res_bind].
  do 3 (rewrite guard_i64_in by (timer_bounds; lia); cbn [mbind res_bind ok_or]).
  unfold guard_u64, in_u64. rewrite !(proj2 (Z.leb_le _ _)) by (timer_bounds; lia). cbn. f_equal. lia.
Qed.

Lemma deadline_ok start timeout round :
  start / SECOND <= 2 ^ 62 + 2 ^ 33 -> 0 <= timeout <= SECOND * (2 ^ 33) ->
  checked_deadline start timeout round = Ok (start + timeout).
Proof.
  intros Hs Ht. unfold checked_deadline, instant_checked_add.
  rewrite (proj2 (Z.leb_le _ _)); [done|].
  transitivity ((start + 2 ^ 33 * SECOND) / SECOND).
  - apply Z.div_le_mono; timer_bounds; lia.
  - rewrite Z.div_add by done. timer_bounds. lia.
Qed.

Lemma proposal_timeout_some duty round fs :
  proposal_timeout_duration (Some duty) round fs =
  if (round =? 1) && is_proposer duty && enabled fs ProposalTimeout then Some PROPOSAL_TIMEOUT else None.
Proof. done. Qed.

Lemma duty_round_duration_bound fs duty t round :
  round_ok round -> 0 <= duty_round_duration fs duty t round <= SECOND * 2 ^ 33.
Proof.
  intros Hr. timer_bounds. destruct t; repeat case_match; lia.
Qed.

(** ** Deadlines *)

Lemma eager_timeout_ok fs duty round :
  round_ok round ->
  eager_timeout (Some duty) fs round = Ok (duty_round_duration fs duty EagerDoubleLinear round).
Proof.
  intros Hr. unfold eager_timeout, duty_round_duration. rewrite proposal_timeout_some.
  destruct (_ && _ && _); [done|by apply linear_ok].
Qed.

(** The time of the first call for a round. *)
Definition first_call (l : list (Z * Z)) (round : Z) : option Z :=
  fst <$> List.find (fun c => snd c =? round) l.

Definition call_ok (c : Z * Z) : Prop := instant_ok (fst c) /\ round_ok (snd c).

(** A fresh timer for a duty. *)
Definition eager_new (fs : FeatureSet) (duty : Duty) : EagerDoubleLinearRoundTimer :=
  {| e_duty := Some duty; e_features := fs; first_deadlines := ∅ |}.

(** What an eager timer remembers after some calls. *)
Definition remembers (fs : FeatureSet) (duty : Duty) (l : list (Z * Z)) (t : EagerDoubleLinearRoundTimer) : Prop :=
  e_duty t = Some duty /\ e_features t = fs /\
  forall r, first_deadlines t !! r =
    (fun t0 => t0 + duty_round_duration fs duty EagerDoubleLinear r) <$> first_call l r.

Lemma first_call_app l k r :
  first_call (l ++ k) r = match first_call l r with Some t0 => Some t0 | None => first_call k r end.
Proof.
  unfold first_call. induction l as [|[t0 r0] l IH]; cbn; [done|]. by destruct (r0 =? r).
Qed.

Lemma first_call_instant l r t0 : Forall call_ok l -> first_call l r = Some t0 -> instant_ok t0.
Proof.
  unfold first_call. intros Hl Hf. destruct (List.find _ l) as [[t1 r1]|] eqn:E; simplify_eq/=.
  apply find_some in E as [Hin _]. rewrite Forall_forall in Hl. by apply (Hl (t0, r1)), list_elem_of_In.
Qed.

Definition eager_answer fs duty (l : list (Z * Z)) (now round : Z) : Z :=
  match first_call l round with
  | Some t0 => t0 + 2 * duty_round_duration fs duty EagerDoubleLinear round
  | None => now + duty_round_duration fs duty EagerDoubleLinear round
  end.

Lemma deadline_sum start d round :
  instant_ok start -> 0 <= d <= SECOND * 2 ^ 33 ->
  checked_deadline start d round = Ok (start + d) /\ checked_deadline (start + d) d round = Ok (start + 2 * d).
Proof.
  intros [_ Hs] Hd. split.
  - apply deadline_ok; [timer_bounds; lia|done].
  - replace (start + 2 * d) with (start + d + d) by lia. apply deadline_ok; [|done].
    transitivity ((start + 2 ^ 33 * SECOND) / SECOND).
    + apply Z.div_le_mono; timer_bounds; lia.
    + rewrite Z.div_add by done. lia.
Qed.

Lemma eager_step fs duty l now round t :
  Forall call_ok l -> call_ok (now, round) -> remembers fs duty l t ->
  exists t', eager_timer now round t = (t', Ok (eager_answer fs duty l now round)) /\
    remembers fs duty (l ++ [(now, round)]) t'.
Proof.
  intros Hl [Hnow Hr] (Hd & Hf & Hm). cbn in Hnow, Hr. unfold eager_timer, eager_answer.
  proc_simp. rewrite Hd, Hf, eager_timeout_ok by done. rewrite Hm.
  pose proof (duty_round_duration_bound fs duty EagerDoubleLinear round Hr) as Hb.
  assert (forall t, remembers fs duty l t -> is_Some (first_call l round) ->
    remembers fs duty (l ++ [(now, round)]) t) as Hsame.
  { intros t' (? & ? & Hm') [t0 Ht0]. split_and!; try done. intros r. rewrite first_call_app, Hm'.
    destruct (first_call l r) eqn:E; [done|]. unfold first_call; cbn.
    destruct (Z.eqb_spec round r); [congruence|done]. }
  destruct (first_call l round) as [t0|] eqn:E; cbn [fmap option_fmap option_map].
  - exists t. destruct (deadline_sum t0 (duty_round_duration fs duty EagerDoubleLinear round) round) as [_ ->];
      [by eapply first_call_instant|done|]. split; [done|]. apply Hsame; [done|by eexists].
  - destruct (deadline_sum now (duty_round_duration fs duty EagerDoubleLinear round) round) as [-> _]; [done..|].
    proc_simp. eexists; split; [done|]. split_and!; [done..|]. intros r. cbn. rewrite first_call_app.
    destruct (decide (r = round)) as [->|Hne].
    + rewrite lookup_insert, decide_True, E by done. unfold first_call; cbn. by rewrite Z.eqb_refl.
    + rewrite lookup_insert_ne, Hm by done. unfold first_call at 3; cbn.
      rewrite (proj2 (Z.eqb_neq _ _)) by done. by destruct (first_call l r).
Qed.

Lemma eager_calls fs duty l k t :
  Forall call_ok l -> Forall call_ok k -> remembers fs duty l t ->
  forall i now round, k !! i = Some (now, round) ->
  calls k t !! i = Some (Ok (eager_answer fs duty (l ++ take i k) now round)).
Proof.
  revert l t. induction k as [|[now' round'] k IH]; intros l t Hl Hk Ht i now round Hi; [done|].
  inversion Hk as [|? ? Hc Hk']; subst. destruct (eager_step fs duty l now' round' t Hl Hc Ht) as (t' & He & Ht').
  cbn [calls timer Eager_timer]. rewrite He. destruct i as [|i]; cbn in *.
  - simplify_eq. by rewrite app_nil_r.
  - rewrite (IH (l ++ [(now', round')]) t') with (now := now) (round := round);
      [by rewrite <-app_assoc|by apply Forall_app_2; [|constructor]|done..].
Qed.

(** A call to the timer chosen for a duty, for a round it was not called for
    before. *)
Lemma chosen_timer fs duty now round :
  instant_ok now -> round_ok round ->
  let b := get_round_timer_func fs duty in
  exists b', timer now round b = (b', Ok (now + duty_round_duration fs duty (timer_type b) round)).
Proof.
  intros Hnow Hr. pose proof (fun t => duty_round_duration_bound fs duty t round Hr) as Hb.
  assert (forall t, checked_deadline now (duty_round_duration fs duty t round) round =
    Ok (now + duty_round_duration fs duty t round)) as Hd by (intros t; apply deadline_sum; auto).
  assert (exists b', timer now round (BEager (eager_new fs duty)) =
    (b', Ok (now + duty_round_duration fs duty EagerDoubleLinear round))) as He.
  { destruct (eager_step fs duty [] now round (eager_new fs duty)) as (t' & Ht & _); [done..|].
    exists (BEager t'). cbn. unfold boxed. by rewrite Ht. }
  assert (forall t r, duty_round_duration fs duty t round = r -> match proposal_timeout_duration (Some duty) round fs with
    | Some timeout => Ok timeout | None => Ok (round_duration t round) end = Ok r :> res TimerError Z) as Hp.
  { intros t r <-. rewrite proposal_timeout_some. unfold duty_round_duration. by destruct (_ && _ && _). }
  assert (exists b', timer now round (BIncreasing {| i_duty := Some duty; i_features := fs |}) =
    (b', Ok (now + duty_round_duration fs duty Increasing round))) as Hi.
  { eexists. cbn. unfold boxed, increasing_timer. proc_simp. cbn.
    rewrite increasing_ok, (Hp Increasing _ eq_refl), Hd by done. done. }
  unfold get_round_timer_func. destruct (enabled fs LinearF), (is_proposer duty), (enabled fs EagerDoubleLinearF); try done.
  all: eexists; cbn; unfold boxed, linear_timer; proc_simp; cbn;
    rewrite (subsequent_ok round Hr).
  all: replace (if round =? 1 then Ok SECOND else Ok (200 * round)) with (Ok (round_duration Linear round) : res TimerError Z)
         by (unfold round_duration; by destruct (round =? 1));
    by rewrite (Hp Linear _ eq_refl), Hd.
Qed.

(** ** Theorems *)

(** Whenever an eager timer is asked, its answers depend on the first request
    for a round only: that one gets its time plus the timeout of the round, and
    every later one, at whatever time, exactly twice the timeout after the
    first.  Peers that start a round together also end it together. *)
Theorem eager_deadlines_fixed fs duty l i now round :
  Forall call_ok l -> l !! i = Some (now, round) ->
  calls l (eager_new fs duty) !! i =
  Some (Ok (match first_call (take i l) round with
            | None => now + duty_round_duration fs duty EagerDoubleLinear round
            | Some t0 => t0 + 2 * duty_round_duration fs duty EagerDoubleLinear round
            end)).
Proof. intros Hl Hi. by rewrite (eager_calls fs duty [] l (eager_new fs duty) ltac:(done) Hl ltac:(done) i now round Hi). Qed.

(** Unless the linear timer is enabled, timeouts outgrow every bound up to
    2^29 seconds: from some round on every request succeeds and waits longer. *)
Theorem timeouts_outgrow fs duty now bound :
  enabled fs LinearF = false -> instant_ok now -> 0 <= bound < SECOND * 2 ^ 29 ->
  exists start, round_ok start /\
    forall round, start <= round <= U32_MAX ->
    exists b d, timer now round (get_round_timer_func fs duty) = (b, Ok (now + d)) /\ bound < d.
Proof.
  intros Hl Hnow Hb. exists (bound / INC_ROUND_INCREASE + 2).
  assert (0 <= bound / INC_ROUND_INCREASE <= 2 ^ 31) as Hq.
  { split; [apply Z.div_pos; timer_bounds; lia|]. apply Z.div_le_upper_bound; timer_bounds; lia. }
  split; [timer_bounds; lia|]. intros round Hr.
  destruct (chosen_timer fs duty now round Hnow) as [b' Hb']; [timer_bounds; lia|].
  eexists b', _. split; [done|].
  assert (bound < INC_ROUND_INCREASE * (bound / INC_ROUND_INCREASE + 1)) as Hlt
    by (apply Z.mul_succ_div_gt; done).
  assert (timer_type (get_round_timer_func fs duty) <> Linear) as Ht.
  { unfold get_round_timer_func. rewrite Hl. by destruct (enabled fs EagerDoubleLinearF). }
  unfold duty_round_duration. rewrite (proj2 (Z.eqb_neq round 1)) by lia. cbn [andb].
  destruct (timer_type _); [|clear Ht|done]; timer_bounds; nia.
Qed.

(** With the linear timer, by contrast, a round after the first waits 200
    nanoseconds per round. *)
Lemma linear_rounds_short fs duty now round :
  enabled fs LinearF = true -> is_proposer duty = true -> instant_ok now -> round_ok round -> round <> 1 ->
  exists b, timer now round (get_round_timer_func fs duty) = (b, Ok (now + 200 * round)).
Proof.
  intros Hl Hp Hnow Hr Hne. destruct (chosen_timer fs duty now round Hnow Hr) as [b Hb]. exists b.
  rewrite Hb. unfold get_round_timer_func, duty_round_duration. rewrite Hl, Hp. cbn.
  by rewrite (proj2 (Z.eqb_neq round 1)) by done.
Qed.

Module TimerSample.

Definition features : FeatureSet :=
  match from_config config_default with Ok fs => fs | _ => {| fs_state := ∅; fs_min_status := Stable |} end.
Definition duty : Duty := {| slot := 7; duty_type := Attester |}.

(** Round 1 is asked for at 5 s, again when a proposal arrives, and again. *)
Definition requests : list (Z * Z) := [(5 * SECOND, 1); (5400 * MILLI, 1); (6 * SECOND, 2); (6100 * MILLI, 1)].

Lemma eager_deadlines_fixed_witness :
  calls requests (eager_new features duty) !! 3%nat = Some (Ok (7 * SECOND)).
Proof.
  rewrite (eager_deadlines_fixed features duty requests 3 (6100 * MILLI) 1); [done| |done].
  repeat (apply Forall_cons; split; [repeat split; vm_compute; congruence|]). by apply Forall_nil.
Defined.

Lemma timeouts_outgrow_witness :
  exists start, round_ok start /\
    forall round, start <= round <= U32_MAX ->
    exists b d, timer 0 round (get_round_timer_func features duty) = (b, Ok (0 + d)) /\ 12 * SECOND < d.
Proof.
  apply (timeouts_outgrow features duty 0 (12 * SECOND)); [by vm_compute|split; vm_compute; congruence..].
Defined.

End TimerSample.
