(* ===== verification/ConsensusRunner.v ===== *)
(** * Starting and joining a consensus instance

    The channels and flags of an instance ([crates/consensus/src/instance.rs])
    and the callers that propose a value, participate, run the instance and
    wait for its result ([crates/consensus/src/qbft/runner.rs]).  Any number of
    calls for one duty run concurrently; every access to the shared state is a
    step of its own.  Calls whose task is aborted halfway are not covered. *)

From S2P Require Import Prelude FeatureSet Types Qbft ConsensusMsg.

(** ** Channels

    A bounded [tokio::sync::mpsc] channel: what is queued, and whether its
    receiver is still in its slot, was taken, or is gone.  The sender is kept
    by the instance, which every caller holds, so it is never dropped. *)

Inductive Rx := InSlot | TakenRx | DroppedRx.

#[global] Instance Rx_eq_dec : EqDecision Rx.
Proof. solve_decision. Defined.

Record Chan (A : Type) := { queue : list A; rx : Rx }.
Arguments queue {A} _.
Arguments rx {A} _.

Definition chan_new {A} : Chan A := {| queue := []; rx := InSlot |}.

Inductive TrySend A := Sent (c : Chan A) | Full | ClosedRx.
Arguments Sent {A} c.
Arguments Full {A}.
Arguments ClosedRx {A}.

Definition try_send {A} (capacity : nat) (x : A) (c : Chan A) : TrySend A :=
  if decide (rx c = DroppedRx) then ClosedRx
  else if decide (length (queue c) < capacity)%nat then Sent {| queue := queue c ++ [x]; rx := rx c |}
  else Full.

Definition drop_rx {A} (c : Chan A) : Chan A := {| queue := []; rx := DroppedRx |}.
Definition pop {A} (c : Chan A) : Chan A := {| queue := tail (queue c); rx := rx c |}.

(** ** An instance *)

Inductive InstanceError :=
| AlreadyParticipated
| AlreadyProposed
| ReceiverAlreadyTaken (channel : string).

Inductive Error :=
| ProposeConsensus (e : InstanceError)
| ParticipateConsensus (e : InstanceError)
| InputChannelFull
| Instance (e : InstanceError)
| MsgErr (e : MsgError)
| PackProto
| Join
| Core (e : QbftError)
| TransportErr (text : string)
| ConsensusTimeout
| RunnerResultChannelClosed
(** The text of the error of the runner; here that error. *)
| RunnerResult (cause : Error).

Abbreviation Result := (res Error unit).

(** The inbound messages play no part here, so their queue is left out; the
    time of the decision is only a metric. *)
Record InstanceIo (Hash Any : Type) := {
  participated : bool;
  proposed : bool;
  running : bool;
  recv_rx : Rx;
  hash_ch : Chan Hash;
  value_ch : Chan Any;
  verify_ch : Chan Any;
  err_ch : Chan Result;
  decided_at_rx : Rx;
}.
Arguments participated {Hash Any} _.
Arguments proposed {Hash Any} _.
Arguments running {Hash Any} _.
Arguments recv_rx {Hash Any} _.
Arguments hash_ch {Hash Any} _.
Arguments value_ch {Hash Any} _.
Arguments verify_ch {Hash Any} _.
Arguments err_ch {Hash Any} _.
Arguments decided_at_rx {Hash Any} _.

(** What [run_instance_inner] sees when the core has returned: an error of the
    transport, the result of the blocking task ([None] when it panicked),
    whether the decide callback ran, and whether one of the tokens was
    cancelled before the teardown. *)
Record CoreEnd := {
  transport_error : option string;
  core_result : option (res QbftError unit);
  decided : bool;
  canceled_before_teardown : bool;
}.

Definition run_outcome (e : CoreEnd) : Result :=
  match transport_error e with
  | Some text => Err (TransportErr text)
  | None =>
      match core_result e with
      | None | Some Panic => Err Join
      | Some (Ok _) => Ok tt
      | Some (Err ContextCanceled) => if decided e then Ok tt else Err ConsensusTimeout
      | Some (Err ChannelError) =>
          if canceled_before_teardown e then Err ConsensusTimeout else Err (Core ChannelError)
      | Some (Err err) => Err (Core err)
      end
  end.

(** ** The callers *)

(** Inside [run_instance]: before each access, in the core, and before the
    result is published. *)
Inductive RunPc :=
| RDeadline
| RTakeRecv
| RTakeHash
| RTakeValue
| RTakeVerify
| RCore
| RPublish (r : Result).

(** [propose]: before marking the instance, before each of the three sends,
    at the test of their results, before taking the receiver of the decision
    time and starting, running, and in [wait_instance_result]. *)
Inductive ProposePc :=
| PMark
| PValue
| PHash (closed : bool)
| PVerify (closed : bool)
| PBranch (closed : bool)
| PTakeDecided
| PStart
| PRun (pc : RunPc)
| PTakeErr
| PRecv
| PDone (r : Result).

Inductive ParticipatePc :=
| AMark
| AStart
| ARun (pc : RunPc)
| ADone (r : Result).

Inductive Task (Hash Any : Type) :=
| Propose (hash : Hash) (any : Any) (pc : ProposePc)
| Participate (pc : ParticipatePc).
Arguments Propose {Hash Any} hash any pc.
Arguments Participate {Hash Any} pc.

(** What the surroundings decide: whether the deadliner scheduled the duty,
    that the tasks of the runner read or drop an input, and how the core ends. *)
Inductive Choice :=
| CGo
| CDeadline (scheduled : bool)
| CReadHash | CReadValue | CReadVerify
| CDropRecv | CDropHash | CDropVerify
| CEnd (e : CoreEnd).

Section runner.
Context {Hash Any : Type} (compare_attestations : bool).

#[local] Abbreviation Io := (InstanceIo Hash Any).
#[local] Abbreviation Task := (Task Hash Any).

(** [InstanceIo::new]. *)
Definition instance_new : Io := {|
  participated := false; proposed := false; running := false; recv_rx := InSlot;
  hash_ch := chan_new; value_ch := chan_new; verify_ch := chan_new; err_ch := chan_new;
  decided_at_rx := InSlot;
|}.

Definition mark_participated : proc Io InstanceError unit :=
  io ← p_get;
  if participated io then p_fail AlreadyParticipated else p_modify (fun io => io <| participated := true |>).

Definition mark_proposed : proc Io InstanceError unit :=
  io ← p_get;
  if proposed io then p_fail AlreadyProposed else p_modify (fun io => io <| proposed := true |>).

Definition maybe_start : proc Io InstanceError bool :=
  io ← p_get;
  if running io then mret false else p_modify (fun io => io <| running := true |>) ;; mret true.

(** [take_receiver] on a slot. *)
Definition take_receiver (slot : Io -> Rx) (taken : Io -> Io) (channel : string) : proc Io InstanceError unit :=
  io ← p_get;
  if decide (slot io = InSlot) then p_modify taken else p_fail (ReceiverAlreadyTaken channel).

Definition take_chan {A} (c : Chan A) : Chan A := {| queue := queue c; rx := TakenRx |}.

Definition take_recv_rx : proc Io InstanceError unit :=
  take_receiver recv_rx (fun io => io <| recv_rx := TakenRx |>) "recv".
Definition take_hash_rx : proc Io InstanceError unit :=
  take_receiver (fun io => rx (hash_ch io)) (fun io => io <| hash_ch ::= take_chan |>) "hash".
Definition take_value_rx : proc Io InstanceError unit :=
  take_receiver (fun io => rx (value_ch io)) (fun io => io <| value_ch ::= take_chan |>) "value".
Definition take_verify_rx : proc Io InstanceError unit :=
  take_receiver (fun io => rx (verify_ch io)) (fun io => io <| verify_ch ::= take_chan |>) "verify".
Definition take_err_rx : proc Io InstanceError unit :=
  take_receiver (fun io => rx (err_ch io)) (fun io => io <| err_ch ::= take_chan |>) "err".
Definition take_decided_at_rx : proc Io InstanceError unit :=
  take_receiver decided_at_rx (fun io => io <| decided_at_rx := TakenRx |>) "decided_at".

(** What [run_instance_inner] owned is dropped when it returns. *)
Definition drop_inputs (io : Io) : Io :=
  let owned {A} (c : Chan A) := if decide (rx c = InSlot) then c else drop_rx c in
  io <| recv_rx := if decide (recv_rx io = InSlot) then InSlot else DroppedRx |>
     <| hash_ch ::= owned |> <| value_ch ::= owned |> <| verify_ch ::= owned |>.

(** An access that ends the runner when it fails. *)
Definition run_take (m : proc Io InstanceError unit) (next : RunPc) (io : Io) : Io * RunPc :=
  match m io with
  | (io, Ok _) => (io, next)
  | (io, Err e) => (drop_inputs io, RPublish (Err (Instance e)))
  | (io, Panic) => (io, next)
  end.

(** [run_instance_inner]; the result is published in the step after. *)
Definition run_step (ch : Choice) (pc : RunPc) (io : Io) : option (Io * RunPc) :=
  match pc, ch with
  | RDeadline, CDeadline true => Some (io, RTakeRecv)
  | RDeadline, CDeadline false => Some (io, RPublish (Ok tt))
  | RTakeRecv, CGo => Some (run_take take_recv_rx RTakeHash io)
  | RTakeHash, CGo => Some (run_take take_hash_rx RTakeValue io)
  | RTakeValue, CGo => Some (run_take take_value_rx RTakeVerify io)
  | RTakeVerify, CGo => Some (run_take take_verify_rx RCore io)
  | RCore, CReadHash => Some (io <| hash_ch ::= pop |>, RCore)
  | RCore, CReadValue => Some (io <| value_ch ::= pop |>, RCore)
  | RCore, CReadVerify => Some (io <| verify_ch ::= pop |>, RCore)
  | RCore, CDropRecv => Some (io <| recv_rx := DroppedRx |>, RCore)
  | RCore, CDropHash => Some (io <| hash_ch ::= drop_rx |>, RCore)
  | RCore, CDropVerify => Some (io <| verify_ch ::= drop_rx |>, RCore)
  | RCore, CEnd e => Some (drop_inputs io, RPublish (run_outcome e))
  | _, _ => None
  end.

(** [err_tx.send(result).await]: waits while the channel is full; an error of
    the send is ignored. *)
Definition publish (r : Result) (io : Io) : option Io :=
  match try_send 1 r (err_ch io) with
  | Sent c => Some (io <| err_ch := c |>)
  | ClosedRx => Some io
  | Full => None
  end.

(** [try_send_input], into the channel [put] stores back. *)
Definition try_send_input {A} (x : A) (c : Chan A) (put : Chan A -> Io -> Io) (io : Io) : Io * res Error bool :=
  match try_send 1 x c with
  | Sent c => (put c io, Ok false)
  | ClosedRx => (io, Ok true)
  | Full => (io, Err InputChannelFull)
  end.

Definition after_send (r : Io * res Error bool) (next : bool -> ProposePc) : Io * ProposePc :=
  match r with
  | (io, Ok closed) => (io, next closed)
  | (io, Err e) => (io, PDone (Err e))
  | (io, Panic) => (io, PDone Panic)
  end.

(** [propose], after the value was hashed and packed. *)
Definition propose_step (ch : Choice) (hash : Hash) (any : Any) (pc : ProposePc) (io : Io) : option (Io * ProposePc) :=
  match pc with
  | PMark =>
      Some (match mark_proposed io with
            | (io, Err e) => (io, PDone (Err (ProposeConsensus e)))
            | (io, _) => (io, PValue)
            end)
  | PValue => Some (after_send (try_send_input any (value_ch io) (fun c io => io <| value_ch := c |>) io) PHash)
  | PHash closed =>
      Some (after_send (try_send_input hash (hash_ch io) (fun c io => io <| hash_ch := c |>) io)
              (fun c => PVerify (closed || c)))
  | PVerify closed =>
      Some (if compare_attestations
            then after_send (try_send_input any (verify_ch io) (fun c io => io <| verify_ch := c |>) io)
                   (fun c => PBranch (closed || c))
            else (io, PBranch closed))
  | PBranch true => Some (io, if running io then PTakeErr else PDone (Err InputChannelFull))
  | PBranch false => Some (io, PTakeDecided)
  | PTakeDecided =>
      Some (match take_decided_at_rx io with
            | (io, Err e) => (io, PDone (Err (Instance e)))
            | (io, _) => (io, PStart)
            end)
  | PStart => Some (match maybe_start io with
                    | (io, Ok true) => (io, PRun RDeadline)
                    | (io, _) => (io, PTakeErr)
                    end)
  | PRun (RPublish r) => io ← publish r io; Some (io, PDone r)
  | PRun pc => '(io, pc) ← run_step ch pc io; Some (io, PRun pc)
  | PTakeErr => Some (match take_err_rx io with
                      | (io, Err e) => (io, PDone (Err (Instance e)))
                      | (io, _) => (io, PRecv)
                      end)
  | PRecv =>
      match queue (err_ch io) with
      | [] => None
      | r :: _ => Some (io <| err_ch ::= drop_rx |>, PDone (map_err RunnerResult r))
      end
  | PDone _ => None
  end.

(** [participate], after its two early returns. *)
Definition participate_step (ch : Choice) (pc : ParticipatePc) (io : Io) : option (Io * ParticipatePc) :=
  match pc with
  | AMark =>
      Some (match mark_participated io with
            | (io, Err e) => (io, ADone (Err (ParticipateConsensus e)))
            | (io, _) => (io, AStart)
            end)
  | AStart => Some (match maybe_start io with
                    | (io, Ok true) => (io, ARun RDeadline)
                    | (io, _) => (io, ADone (Ok tt))
                    end)
  | ARun (RPublish r) => io ← publish r io; Some (io, ADone r)
  | ARun pc => '(io, pc) ← run_step ch pc io; Some (io, ARun pc)
  | ADone _ => None
  end.

Definition task_step (ch : Choice) (t : Task) (io : Io) : option (Io * Task) :=
  match t with
  | Propose hash any pc => '(io, pc) ← propose_step ch hash any pc io; Some (io, Propose hash any pc)
  | Participate pc => '(io, pc) ← participate_step ch pc io; Some (io, Participate pc)
  end.

(** The beginning of a call: [propose] hashes and packs its value first;
    [participate] returns at once for the duties that have no consensus of
    their own value, and when the feature is off. *)
Definition propose_begin {V} (hash_proto : V -> res MsgError Hash) (pack : V -> option Any) (value : V) : res Error Task :=
  hash ← map_err MsgErr (hash_proto value);
  any ← ok_or (pack value) PackProto;
  Ok (Propose hash any PMark).

Definition participate_begin (fs : FeatureSet) (duty : Duty) : Task :=
  if bool_decide (duty_type duty = Aggregator) || bool_decide (duty_type duty = SyncContribution)
  then Participate (ADone (Ok tt))
  else if negb (FeatureSet.enabled fs ConsensusParticipate) then Participate (ADone (Ok tt))
  else Participate AMark.

(** The calls for one duty, with the instance they share. *)
Record System := { io : Io; tasks : list Task }.

Inductive sys_step : System -> System -> Prop :=
| sys_task s i t ch io' t' :
    tasks s !! i = Some t -> task_step ch t (io s) = Some (io', t') ->
    sys_step s {| io := io'; tasks := <[i := t']> (tasks s) |}
| sys_call s t :
    (exists hash any, t = Propose hash any PMark) \/ t = Participate AMark \/ t = Participate (ADone (Ok tt)) ->
    sys_step s {| io := io s; tasks := tasks s ++ [t] |}.

Definition sys_init : System := {| io := instance_new; tasks := [] |}.

(** ** The invariant *)

(** The call that has marked the instance as proposed and not returned, and
    the call that runs it. *)
Definition proposer_pc (t : Task) : option ProposePc :=
  match t with
  | Propose _ _ PMark | Propose _ _ (PDone _) | Participate _ => None
  | Propose _ _ pc => Some pc
  end.

Definition runner_pc (t : Task) : option RunPc :=
  match t with Propose _ _ (PRun pc) | Participate (ARun pc) => Some pc | _ => None end.

(** At most one call has a role, and it is the recorded one. *)
Definition role_at {A} (role : Task -> option A) (P : option (nat * A)) (ts : list Task) : Prop :=
  (forall j t x, ts !! j = Some t -> role t = Some x -> P = Some (j, x)) /\
  (forall j x, P = Some (j, x) -> exists t, ts !! j = Some t /\ role t = Some x).

Definition role_next {A} (role : Task -> option A) (i : nat) (t t' : Task) (P : option (nat * A)) : option (nat * A) :=
  match role t' with
  | Some x => Some (i, x)
  | None => match role t with Some _ => None | None => P end
  end.

Lemma role_update {A} (role : Task -> option A) P ts i t t' :
  role_at role P ts -> ts !! i = Some t -> (role t' = None \/ P = None \/ exists x, P = Some (i, x)) ->
  role_at role (role_next role i t t' P) (<[i := t']> ts).
Proof.
  intros [H1 H2] Hi Hc. assert (i < length ts)%nat as Hlt by by eapply lookup_lt_Some.
  unfold role_next. split.
  - intros j u x [(-> & -> & _)|[Hne Hj]]%list_lookup_insert_Some Hu; [by rewrite Hu|].
    pose proof (H1 j u x Hj Hu) as HP. destruct (role t') as [y|] eqn:Ey.
    + destruct Hc as [?|[?|[? ?]]]; simplify_eq.
    + destruct (role t) as [z|] eqn:Ez; [|done]. specialize (H1 i t z Hi Ez). simplify_eq.
  - intros j x Hx. destruct (role t') as [y|] eqn:Ey; simplify_eq.
    + exists t'. by rewrite list_lookup_insert_eq.
    + destruct (role t) as [z|] eqn:Ez; [done|]. destruct (H2 j x Hx) as (u & Hj & Hu).
      exists u. rewrite list_lookup_insert_ne; [done|]. intros ->. simplify_eq.
Qed.

Lemma role_app {A} (role : Task -> option A) P ts t :
  role t = None -> role_at role P ts -> role_at role P (ts ++ [t]).
Proof.
  intros Ht [H1 H2]. split.
  - intros j u x [Hj|[_ Hj]]%lookup_app_Some Hu; [by eapply H1|].
    apply list_lookup_singleton_Some in Hj as [_ <-]. congruence.
  - intros j x (u & Hj & Hu)%H2. exists u. split; [|done]. by apply lookup_app_l_Some.
Qed.

(** What [run_instance] itself can answer. *)
Definition run_result (r : Result) : Prop :=
  match r with
  | Ok _ | Err Join | Err (Core _) | Err (TransportErr _) | Err ConsensusTimeout => True
  | _ => False
  end.

Definition runner_fits (pc : RunPc) (io : Io) : Prop :=
  let verify := rx (verify_ch io) = InSlot in
  let value := rx (value_ch io) = InSlot /\ verify in
  let hash := rx (hash_ch io) = InSlot /\ value in
  match pc with
  | RDeadline | RTakeRecv => recv_rx io = InSlot /\ hash
  | RTakeHash => hash
  | RTakeValue => value
  | RTakeVerify => verify
  | RCore => True
  | RPublish r => run_result r
  end.

Definition proposer_fits (pc : ProposePc) (io : Io) : Prop :=
  let err := rx (err_ch io) = InSlot in
  let decided := decided_at_rx io = InSlot /\ err in
  let verify := queue (verify_ch io) = [] /\ decided in
  let hash := queue (hash_ch io) = [] /\ verify in
  match pc with
  | PValue => queue (value_ch io) = [] /\ hash
  | PHash closed => (closed = true -> running io = true) /\ hash
  | PVerify closed => (closed = true -> running io = true) /\ verify
  | PBranch closed => (closed = true -> running io = true) /\ decided
  | PTakeDecided => decided
  | PStart => err
  | PTakeErr => running io = true /\ err
  | PRecv => running io = true
  | PMark | PRun _ | PDone _ => True
  end.

Definition err_open (io : Io) : Prop := queue (err_ch io) = [] /\ rx (err_ch io) <> DroppedRx.

Record fits (P : option ProposePc) (R : option RunPc) (io : Io) (ended : Result -> Prop) : Prop := {
  fits_proposer : match P with None => True | Some pc => proposed io = true /\ proposer_fits pc io end;
  fits_unmarked : proposed io = false -> proposer_fits PValue io;
  fits_runner : match R with
                | None => True
                | Some pc => running io = true /\ runner_fits pc io /\ err_open io
                end;
  fits_idle : running io = false -> runner_fits RDeadline io /\ err_open io;
  fits_waiting : proposed io = false \/ P <> None -> R = None -> running io = true ->
                 exists r, queue (err_ch io) = [r] /\ run_result r /\ ended r;
}.

(** The results callers return. *)
Definition task_result (t : Task) : option Result :=
  match t with Propose _ _ (PDone r) | Participate (ADone r) => Some r | _ => None end.

Definition result_ok (ended : Result -> Prop) (t : Task) : Prop :=
  match t with
  | Propose _ _ (PDone r) =>
      r = Err (ProposeConsensus AlreadyProposed) \/ run_result r \/
      exists r', r = map_err RunnerResult r' /\ run_result r' /\ ended r'
  | Participate (ADone r) => r = Err (ParticipateConsensus AlreadyParticipated) \/ run_result r
  | _ => True
  end.

Definition ended (ts : list Task) (r : Result) : Prop := exists j, ts !! j = Some (Participate (ADone r)).

Record inv (s : System) : Prop := {
  inv_roles : exists P R, role_at proposer_pc P (tasks s) /\ role_at runner_pc R (tasks s) /\
                fits (snd <$> P) (snd <$> R) (io s) (ended (tasks s));
  inv_results : forall j t, tasks s !! j = Some t -> result_ok (ended (tasks s)) t;
}.

(** Proposals only look at what the runner leaves alone. *)
Definition frame (io io' : Io) : Prop :=
  proposed io' = proposed io /\ running io' = running io /\ err_ch io' = err_ch io /\ decided_at_rx io' = decided_at_rx io /\
  (queue (value_ch io) = [] -> queue (value_ch io') = []) /\ (queue (hash_ch io) = [] -> queue (hash_ch io') = []) /\
  (queue (verify_ch io) = [] -> queue (verify_ch io') = []).

Lemma proposer_frame pc io io' : frame io io' -> proposer_fits pc io -> proposer_fits pc io'.
Proof.
  intros (? & Hr & He & Hd & ? & ? & ?). destruct pc; cbn; rewrite ?Hr, ?He, ?Hd; intuition.
Qed.

Lemma frame_drop io : frame io (drop_inputs io).
Proof. unfold frame, drop_inputs; cbn. repeat case_decide; intuition. Qed.

Lemma run_step_frame ch pc io io' pc' :
  runner_fits pc io -> run_step ch pc io = Some (io', pc') -> frame io io' /\ runner_fits pc' io'.
Proof.
  intros Hf Hs.
  destruct pc, ch as [|[]| | | | | | |e]; cbn in Hs; simplify_eq/=;
    unfold run_take, take_recv_rx, take_hash_rx, take_value_rx, take_verify_rx, take_receiver in *;
    rewrite ?proc_get in *; cbn in *; try (rewrite decide_True in * by tauto); cbn in *; simplify_eq/=;
    try (by split; [|tauto]);
    try (split; [|tauto]; repeat split; cbn; try done; by intros ->).
  split; [apply frame_drop|]. unfold run_outcome. destruct e as [[] [[|[]|]|] [] []]; done.
Qed.

Lemma fits_run P P' pc ch io io' pc' E :
  fits P (Some pc) io E -> run_step ch pc io = Some (io', pc') ->
  (P' = P \/ exists q q', P = Some (PRun q) /\ P' = Some (PRun q')) ->
  fits P' (Some pc') io' E.
Proof.
  intros [HP HU (Hrun & HR & Hq) HI HW] Hs HP'.
  destruct (run_step_frame _ _ _ _ _ HR Hs) as [Hf HR'].
  pose proof Hf as (Hp & Hr & He & _). split.
  - destruct HP' as [->|(q & q' & -> & ->)].
    + destruct P as [q|]; [|done]. rewrite Hp. split; [apply HP|]. eapply proposer_frame; [done|apply HP].
    + rewrite Hp. split; [apply HP|done].
  - rewrite Hp. intros Hu. eapply proposer_frame; [done|auto].
  - by rewrite Hr; unfold err_open; rewrite He.
  - rewrite Hr. congruence.
  - done.
Qed.

Lemma publish_open r (io : Io) :
  err_open io -> publish r io = Some (io <| err_ch := {| queue := [r]; rx := rx (err_ch io) |} |>).
Proof.
  intros [Hq Hx]. unfold publish, try_send. rewrite decide_False by done. rewrite Hq.
  by rewrite decide_True by (cbn; lia).
Qed.

(** A participating runner publishes its result for the waiting proposal. *)
Lemma fits_publish P r io io' (E E' : Result -> Prop) :
  fits P (Some (RPublish r)) io E -> publish r io = Some io' -> E' r -> fits P None io' E'.
Proof.
  intros [HP HU (Hrun & HR & Ho) HI HW] Hs HE. rewrite publish_open in Hs by done. simplify_eq. split; cbn.
  - destruct P as [q|]; [|done]. split; [apply HP|]. destruct HP as [_ HP]. by destruct q.
  - done.
  - done.
  - congruence.
  - intros _ _ _. by exists r.
Qed.

(** A proposal that ran the instance returns after publishing. *)
Lemma fits_publish_own q r io io' (E E' : Result -> Prop) :
  fits (Some q) (Some (RPublish r)) io E -> publish r io = Some io' -> fits None None io' E'.
Proof.
  intros [HP HU (Hrun & HR & Ho) HI HW] Hs. rewrite publish_open in Hs by done. simplify_eq.
  destruct HP as [Hp _]. split; cbn; [done|by rewrite Hp|done|congruence|by rewrite Hp; intros []].
Qed.

Lemma maybe_start_eq (io : Io) :
  maybe_start io = if running io then (io, Ok false) else (io <| running := true |>, Ok true).
Proof. unfold maybe_start. rewrite proc_get. by destruct (running io). Qed.

Lemma mark_proposed_eq (io : Io) :
  mark_proposed io = if proposed io then (io, Err AlreadyProposed) else (io <| proposed := true |>, Ok tt).
Proof. unfold mark_proposed. rewrite proc_get. by destruct (proposed io). Qed.

Lemma mark_participated_eq (io : Io) :
  mark_participated io = if participated io then (io, Err AlreadyParticipated) else (io <| participated := true |>, Ok tt).
Proof. unfold mark_participated. rewrite proc_get. by destruct (participated io). Qed.

(** The first call to start the instance runs it. *)
Lemma fits_start P P' io (E : Result -> Prop) :
  fits P None io E -> running io = false -> (P' = P \/ P = Some PStart /\ P' = Some (PRun RDeadline)) ->
  fits P' (Some RDeadline) (io <| running := true |>) E.
Proof.
  intros [HP HU _ HI HW] Hr HP'. destruct (HI Hr) as [? ?]. split; cbn; [|done|done|done|done].
  destruct HP' as [->|[-> ->]]; [|by destruct HP]. destruct P as [q|]; [|done].
  split; [apply HP|]. destruct HP as [_ HP]. destruct q; cbn in *; naive_solver.
Qed.

Lemma fits_mark R io (E : Result -> Prop) :
  fits None R io E -> proposed io = false -> fits (Some PValue) R (io <| proposed := true |>) E.
Proof. intros [HP HU HR HI HW] Hp. split; cbn; try done; [split; [done|by apply HU]|]. intros _. apply HW. by left. Qed.

(** Steps of a proposal that leave the receivers of the inputs and the result
    channel as they are. *)
Lemma fits_local pc pc' R io io' E :
  fits (Some pc) R io E -> proposer_fits pc' io' -> proposed io' = proposed io -> running io' = running io ->
  err_ch io' = err_ch io -> recv_rx io' = recv_rx io -> rx (hash_ch io') = rx (hash_ch io) ->
  rx (value_ch io') = rx (value_ch io) -> rx (verify_ch io') = rx (verify_ch io) ->
  fits (Some pc') R io' E.
Proof.
  intros [[Hp HP] HU HR HI HW] HP' Ep Er Ee E1 E2 E3 E4.
  assert (forall q, runner_fits q io -> runner_fits q io') as Hr
    by (intros q; destruct q; cbn; by rewrite ?E1, ?E2, ?E3, ?E4).
  split; unfold err_open in *; rewrite ?Ep, ?Er, ?Ee in *; auto.
  - congruence.
  - destruct R as [q|]; [|done]. destruct HR as (? & ? & ?); auto.
  - intros Hi. destruct (HI Hi). auto.
Qed.

Lemma try_send_empty {A} (x : A) c :
  queue c = [] -> try_send 1 x c = if decide (rx c = DroppedRx) then ClosedRx else Sent {| queue := [x]; rx := rx c |}.
Proof. intros Hq. unfold try_send. rewrite Hq. case_decide; [done|]. by rewrite decide_True by (cbn; lia). Qed.

(** A send into an empty channel, which is closed only by a runner. *)
Lemma fits_send {A} pc pc1 R io io' E (x : A) (c : Chan A) put next :
  fits (Some pc) R io E -> queue c = [] -> (running io = false -> rx c = InSlot) ->
  (forall closed, (closed = true -> running io = true) -> fits (Some (next closed)) R (if closed then io else put {| queue := [x]; rx := rx c |} io) E) ->
  after_send (try_send_input x c put io) next = (io', pc1) -> fits (Some pc1) R io' E /\ exists closed, pc1 = next closed.
Proof.
  intros Hf Hq Hc Hn Hs. unfold try_send_input in Hs. rewrite try_send_empty in Hs by done.
  case_decide as Hd; cbn in Hs; simplify_eq.
  - split; [|by eexists]. apply (Hn true). intros _. destruct (running _); [done|]. rewrite Hc in Hd; done.
  - split; [|by eexists]. by apply (Hn false).
Qed.

(** The other steps of a proposal. *)
Lemma fits_propose R ch hash any pc pc' io io' E :
  fits (Some pc) R io E -> (forall q, pc <> PRun q) -> pc <> PMark ->
  propose_step ch hash any pc io = Some (io', pc') ->
  match pc' with
  | PDone r => fits None R io' E /\ exists r', r = map_err RunnerResult r' /\ run_result r' /\ E r'
  | PRun q => R = None /\ fits (Some pc') (Some q) io' E
  | _ => fits (Some pc') R io' E
  end.
Proof.
  intros Hf Hnr Hnm Hs. pose proof Hf as [[Hp HP] HU HR HI HW]. cbn in HI.
  destruct pc as [| |closed|closed|[]| | |q| | |]; cbn in HP; try done; try (by destruct (Hnr q)); cbn in Hs; simplify_eq.
  - apply fits_send with (pc := PValue) (R := R) (E := E) in Hs as [Hs [? ->]]; [done|done|tauto|tauto|].
    intros [] Hc; eapply fits_local; try done; cbn; tauto.
  - apply fits_send with (pc := PHash closed) (R := R) (E := E) in Hs as [Hs [? ->]]; [done|done|tauto|tauto|].
    intros c Hc. eapply fits_local; try done; destruct c; cbn; try tauto;
      rewrite ?orb_true_r, ?orb_false_r; tauto.
  - destruct compare_attestations; simplify_eq; [|eapply fits_local; try done; cbn; tauto].
    apply fits_send with (pc := PVerify closed) (R := R) (E := E) in Hs as [Hs [? ->]]; [done|done|tauto|tauto|].
    intros c Hc. eapply fits_local; try done; destruct c; cbn; try tauto;
      rewrite ?orb_true_r, ?orb_false_r; tauto.
  - rewrite (proj1 HP eq_refl). eapply fits_local; try done; cbn. tauto.
  - eapply fits_local; try done; cbn. tauto.
  - unfold take_decided_at_rx, take_receiver in Hs. rewrite proc_get, decide_True in Hs by tauto. cbn in Hs. simplify_eq.
    eapply fits_local; try done; cbn. tauto.
  - rewrite maybe_start_eq in Hs. destruct (running io) eqn:Hr; simplify_eq.
    + eapply fits_local; try done.
    + destruct R as [q|]; [by destruct HR|]. split; [done|]. eapply fits_start; [done|done|by right].
  - unfold take_err_rx, take_receiver in Hs. rewrite proc_get, decide_True in Hs by tauto. cbn in Hs. simplify_eq.
    destruct HP as [HP _]. split; cbn; [done|congruence| |congruence|].
    + destruct R as [q|]; [|done]. destruct HR as (? & ? & ? & _). by repeat split.
    + intros _. apply HW. by right.
  - destruct (queue (err_ch io)) as [|r rest] eqn:Hq; simplify_eq. split.
    + split; cbn; [done|congruence| |congruence|].
      * destruct R as [q|]; [|done]. destruct HR as (_ & _ & [? _]). congruence.
      * intros [?|?]; congruence.
    + destruct R as [q|]; [destruct HR as (_ & _ & [? _]); congruence|].
      destruct (HW ltac:(by right) eq_refl HP) as (r' & Hr' & ? & ?). simplify_eq. by exists r'.
Qed.

Lemma fits_mono P R io (E E' : Result -> Prop) : (forall r, E r -> E' r) -> fits P R io E -> fits P R io E'.
Proof. intros HE [HP HU HR HI HW]. split; auto. intros ? ? ?. destruct HW as (r & ? & ? & ?); eauto. Qed.

(** A call that has returned stays as it is. *)
Lemma ended_insert ts i t t' r :
  ts !! i = Some t -> task_result t = None -> ended ts r -> ended (<[i := t']> ts) r.
Proof.
  intros Hi Ht [j Hj]. exists j. rewrite list_lookup_insert_ne; [done|]. intros ->. by simplify_eq/=.
Qed.

Lemma ended_app ts t r : ended ts r -> ended (ts ++ [t]) r.
Proof. intros [j Hj]. exists j. by apply lookup_app_l_Some. Qed.

Lemma result_ok_mono (E E' : Result -> Prop) t : (forall r, E r -> E' r) -> result_ok E t -> result_ok E' t.
Proof. intros HE. destruct t as [? ? []|[]]; cbn; naive_solver. Qed.

Lemma fits_participated P R io E : fits P R io E -> fits P R (io <| participated := true |>) E.
Proof.
  intros [HP HU HR HI HW]. by split.
Qed.

(** A step of a call: what becomes of its roles, and what it returns. *)
Definition stepped (i : nat) (t t' : Task) (ts : list Task) (io' : Io) P R : Prop :=
  let ts' := <[i := t']> ts in
  task_result t = None /\ result_ok (ended ts') t' /\
  (proposer_pc t' = None \/ P = None \/ exists x, P = Some (i, x)) /\
  (runner_pc t' = None \/ R = None \/ exists x, R = Some (i, x)) /\
  fits (snd <$> role_next proposer_pc i t t' P) (snd <$> role_next runner_pc i t t' R) io' (ended ts').

Lemma participate_stepped i ch pc pc' ts io io' P R :
  role_at proposer_pc P ts -> role_at runner_pc R ts -> ts !! i = Some (Participate pc) ->
  fits (snd <$> P) (snd <$> R) io (ended ts) -> participate_step ch pc io = Some (io', pc') ->
  stepped i (Participate pc) (Participate pc') ts io' P R.
Proof.
  intros [HP1 _] [HR1 _] Hi Hf Hs.
  assert (task_result (Participate pc) = None) as Hres by by destruct pc.
  assert (forall r, ended ts r -> ended (<[i := Participate pc']> ts) r) as Hm by (intros r; by eapply ended_insert).
  pose proof (fits_mono _ _ _ _ _ Hm Hf) as Hf'. unfold stepped, role_next. split; [done|].
  destruct pc as [| |q|]; cbn in Hs; [| | |done].
  - rewrite mark_participated_eq in Hs. destruct (participated io); simplify_eq/=; [by auto 10|].
    split_and!; [done|by left|by left|by apply fits_participated].
  - rewrite maybe_start_eq in Hs. destruct (running io) eqn:Hr; simplify_eq/=; [by auto 10|].
    destruct R as [[j q]|]; [apply fits_runner in Hf; naive_solver congruence|]. cbn in *.
    split_and!; [done|by left|by right; left|]. eapply fits_start; [done|done|by left].
  - specialize (HR1 i _ q Hi eq_refl). subst R. cbn [snd fmap option_fmap option_map] in *.
    destruct q as [| | | | | |r]; cbn [participate_step] in Hs.
    7: { apply bind_Some in Hs as (io1 & Hpub & ?). simplify_eq/=.
      split_and!; [right; apply (fits_runner _ _ _ _ Hf)|by left|by left|].
      eapply fits_publish; [done|done|]. exists i. apply list_lookup_insert_eq. by eapply lookup_lt_Some. }
    all: apply bind_Some in Hs as ([io1 q'] & Hrun & ?); simplify_eq/=;
      split_and!; [done|by left|by right; right; eexists|eapply fits_run; [done|done|by left]].
Qed.

Lemma propose_step_marked ch hash any pc io io' : propose_step ch hash any pc io <> Some (io', PMark).
Proof.
  destruct pc as [| | | |[]| | |[]| | |]; cbn; rewrite ?mark_proposed_eq, ?maybe_start_eq;
    unfold after_send, try_send_input, take_decided_at_rx, take_err_rx, take_receiver; rewrite ?proc_get;
    intros Hs; repeat case_match; try (apply bind_Some in Hs as (? & ? & Hs)); repeat case_match; simplify_eq.
Qed.

Lemma propose_stepped i ch hash any pc pc' ts io io' P R :
  role_at proposer_pc P ts -> role_at runner_pc R ts -> ts !! i = Some (Propose hash any pc) ->
  fits (snd <$> P) (snd <$> R) io (ended ts) -> propose_step ch hash any pc io = Some (io', pc') ->
  stepped i (Propose hash any pc) (Propose hash any pc') ts io' P R.
Proof.
  intros [HP1 _] [HR1 HR2] Hi Hf Hs.
  assert (task_result (Propose hash any pc) = None) as Hres by by destruct pc.
  assert (forall r, ended ts r -> ended (<[i := Propose hash any pc']> ts) r) as Hm by (intros r; by eapply ended_insert).
  pose proof (fits_mono _ _ _ _ _ Hm Hf) as Hf'.
  assert (pc = PMark \/ (exists q, pc = PRun q) \/ (pc <> PMark /\ forall q, pc <> PRun q)) as [->|[[q ->]|[Hnm Hnr]]]
    by (destruct pc; naive_solver).
  - cbn in Hs. rewrite mark_proposed_eq in Hs. unfold stepped, role_next. split; [done|].
    destruct (proposed io) eqn:Hp; simplify_eq/=; [by auto 10|].
    destruct P as [[j q]|]; [apply fits_proposer in Hf; naive_solver congruence|].
    split_and!; [done|by right; left|by left|by apply fits_mark].
  - pose proof (HP1 i _ _ Hi eq_refl). pose proof (HR1 i _ _ Hi eq_refl). subst P R.
    unfold stepped, role_next. split; [done|]. cbn [snd fmap option_fmap option_map] in *.
    destruct q as [| | | | | |r]; cbn [propose_step] in Hs.
    7: { apply bind_Some in Hs as (io1 & Hpub & ?). simplify_eq/=.
      split_and!; [right; left; apply (fits_runner _ _ _ _ Hf)|by left|by left|by eapply fits_publish_own]. }
    all: apply bind_Some in Hs as ([io1 q'] & Hrun & ?); simplify_eq/=;
      split_and!; [done|by right; right; eexists..|eapply fits_run; [done|done|right; by do 2 eexists]].
  - assert (proposer_pc (Propose hash any pc) = Some pc) as Hpc by (destruct pc; done).
    assert (runner_pc (Propose hash any pc) = None) as Hrc by (destruct pc; try done; by destruct (Hnr pc)).
    pose proof (HP1 i _ _ Hi Hpc). subst P. cbn [snd fmap option_fmap option_map] in *.
    pose proof (fits_propose _ _ _ _ _ _ _ _ _ Hf' Hnr Hnm Hs) as Hn.
    unfold stepped, role_next. rewrite Hpc, Hrc. split; [done|].
    destruct pc' as [| | | | | | |q| | |r]; cbn [proposer_pc runner_pc result_ok];
      try (split_and!; [done|by right; right; eexists|by left|done]).
    + by apply propose_step_marked in Hs.
    + destruct Hn as [HR Hn]. destruct R as [[? ?]|]; [done|].
      split_and!; [done|by right; right; eexists|by right; left|done].
    + destruct Hn as [Hn Hr]. split_and!; [by right; right|by left|by left|done].
Qed.

Lemma inv_step s s' : inv s -> sys_step s s' -> inv s'.
Proof.
  intros [(P & R & HP & HR & Hf) Hres] Hs. destruct Hs as [s i t ch io' t' Hi Ht|s t Ht].
  - assert (stepped i t t' (tasks s) io' P R) as (Hnone & Hok & HcP & HcR & Hf').
    { destruct t; cbn in Ht; apply bind_Some in Ht as ([? ?] & Hs & ?); simplify_eq;
        [by eapply propose_stepped|by eapply participate_stepped]. }
    split; cbn.
    + eexists _, _. split_and!; [by eapply role_update..|done].
    + intros j u [(-> & <- & _)|[Hne Hj]]%list_lookup_insert_Some; [done|].
      eapply result_ok_mono; [|by eapply Hres]. intros r. by eapply ended_insert.
  - split; cbn.
    + exists P, R. split_and!; [apply role_app; [naive_solver|done]..|].
      eapply fits_mono; [|done]. intros r. apply ended_app.
    + intros j u [Hj|[_ Hj]]%lookup_app_Some.
      * eapply result_ok_mono; [|by eapply Hres]. intros r. apply ended_app.
      * apply list_lookup_singleton_Some in Hj as [_ <-]. naive_solver.
Qed.

Lemma inv_reachable s : rtc sys_step sys_init s -> inv s.
Proof.
  assert (inv sys_init) as H0.
  { split; [|done]. exists None, None. split_and!; [by split..|]. split; cbn; by repeat split. }
  revert H0. generalize sys_init. induction 2 as [|s0 s1 s2 Hs _ IH]; eauto using inv_step.
Qed.

(** ** Every call returns *)

Definition run_rank (pc : RunPc) : nat :=
  match pc with
  | RDeadline => 7 | RTakeRecv => 6 | RTakeHash => 5 | RTakeValue => 4 | RTakeVerify => 3 | RCore => 2 | RPublish _ => 1
  end.

(** How many accesses a call has still to make, at most. *)
Definition rank (t : Task) : nat :=
  match t with
  | Propose _ _ pc =>
      match pc with
      | PMark => 20 | PValue => 19 | PHash _ => 18 | PVerify _ => 17 | PBranch _ => 16 | PTakeDecided => 15
      | PStart => 14 | PRun pc => run_rank pc | PTakeErr => 9 | PRecv => 8 | PDone _ => 0
      end
  | Participate pc =>
      match pc with AMark => 10 | AStart => 9 | ARun pc => run_rank pc | ADone _ => 0 end
  end.

(** The choice that takes a call on: the duty is scheduled, the core ends. *)
Definition onward (t : Task) : Choice :=
  match runner_pc t with
  | Some RDeadline => CDeadline true
  | Some RCore => CEnd {| transport_error := None; core_result := Some (Ok tt); decided := true; canceled_before_teardown := false |}
  | _ => CGo
  end.

Lemma onward_rank t io io' t' : task_step (onward t) t io = Some (io', t') -> (rank t' < rank t)%nat.
Proof.
  destruct t as [hash any pc|pc]; cbn [task_step]; intros ([io1 pc'] & Hs & ?)%bind_Some; simplify_eq;
    [destruct pc as [| | | |[]| | |[]| | |]|destruct pc as [| |[]|]];
    cbn in Hs; rewrite ?mark_proposed_eq, ?mark_participated_eq, ?maybe_start_eq in Hs;
    unfold after_send, try_send_input, run_take, take_recv_rx, take_hash_rx, take_value_rx, take_verify_rx,
      take_decided_at_rx, take_err_rx, take_receiver in Hs; rewrite ?proc_get in Hs;
    repeat case_match; try (apply bind_Some in Hs as (? & ? & Hs)); repeat case_match; simplify_eq/=; lia.
Qed.

Lemma runner_progress q t io :
  runner_pc t = Some q -> runner_fits q io -> err_open io -> is_Some (task_step (onward t) t io).
Proof.
  intros Ht Hq Ho. assert (forall r, is_Some (publish r io)) as Hp by (intros r; rewrite publish_open by done; by eexists).
  destruct t as [hash any []|[]]; simplify_eq/=; unfold onward; cbn; destruct q; cbn; try (by eexists);
    try (destruct (run_take _ _ _); by eexists); destruct (Hp r) as [? ->]; by eexists.
Qed.

Lemma some_progress s :
  inv s -> (exists t, t ∈ tasks s /\ task_result t = None) ->
  exists i t io' t', tasks s !! i = Some t /\ task_step (onward t) t (io s) = Some (io', t').
Proof.
  intros [(P & R & [HP1 HP2] & [HR1 HR2] & Hf) _] (t & [i Hi]%list_elem_of_lookup & Ht).
  assert (forall i t, tasks s !! i = Some t -> is_Some (task_step (onward t) t (io s)) ->
    exists i t io' t', tasks s !! i = Some t /\ task_step (onward t) t (io s) = Some (io', t')) as Hex.
  { intros j u Hj [[io' u'] Hu]. by exists j, u, io', u'. }
  destruct R as [[j q]|].
  - destruct (HR2 j q eq_refl) as (u & Hj & Hu). apply (Hex j u Hj).
    destruct (fits_runner _ _ _ _ Hf) as (_ & ? & ?). by eapply runner_progress.
  - apply (Hex i t Hi). destruct t as [hash any pc|pc]; cbn [task_step].
    + enough (is_Some (propose_step (onward (Propose hash any pc)) hash any pc (io s))) as [[? ?] ->] by by eexists.
      destruct pc as [| | | |[]| | |q| | |]; try done; try (by eexists); [by specialize (HR1 i _ q Hi eq_refl)|].
      specialize (HP1 i _ _ Hi eq_refl). subst P. destruct Hf as [[_ HP] _ _ _ HW].
      destruct (HW ltac:(by right) eq_refl HP) as (r & Hr & _). cbn. rewrite Hr. by eexists.
    + enough (is_Some (participate_step (onward (Participate pc)) pc (io s))) as [[? ?] ->] by by eexists.
      destruct pc as [| |q|]; try done; try (by eexists). by specialize (HR1 i _ q Hi eq_refl).
Qed.

Lemma insert_rank ts i t t' :
  ts !! i = Some t -> (rank t' < rank t -> sum_list (rank <$> <[i := t']> ts) < sum_list (rank <$> ts))%nat.
Proof.
  intros Hi Hr. rewrite <-(take_drop_middle _ _ _ Hi) at 2. rewrite insert_take_drop by by eapply lookup_lt_Some.
  rewrite !fmap_app, !fmap_cons, !sum_list_with_app. cbn. lia.
Qed.

Lemma all_return n s :
  (sum_list (rank <$> tasks s) < n)%nat -> inv s ->
  exists s', rtc sys_step s s' /\ length (tasks s') = length (tasks s) /\
    forall t, t ∈ tasks s' -> task_result t <> None.
Proof.
  revert s. induction n as [|n IH]; intros s Hn Hs; [lia|].
  destruct (decide (Exists (fun t => task_result t = None) (tasks s))) as [He|He].
  - apply Exists_exists in He. destruct (some_progress s Hs He) as (i & t & io' & t' & Hi & Ht).
    pose proof (sys_task s i t _ io' t' Hi Ht) as Hstep.
    pose proof (insert_rank _ _ _ _ Hi (onward_rank _ _ _ _ Ht)).
    destruct (IH {| io := io'; tasks := <[i := t']> (tasks s) |}) as (s' & Hr & Hl & Hall); [cbn; lia|by eapply inv_step|].
    exists s'. split_and!; [by eapply rtc_l|by rewrite Hl; cbn; rewrite length_insert|done].
  - exists s. split_and!; [done..|]. intros t Ht Hno. apply He. apply Exists_exists. by exists t.
Qed.

(** ** Theorems *)

(** C19: However calls to propose and to participate interleave, at most one of
    them runs the instance.  A proposal fails only because the instance was
    proposed to before, or with the result of the instance, its own or that of
    the participant who runs it; no receiver is taken twice, no input channel
    is full, and no result is lost. *)
Theorem instance_runs_once s :
  rtc sys_step sys_init s ->
  (forall i j t u, tasks s !! i = Some t -> tasks s !! j = Some u ->
    runner_pc t <> None -> runner_pc u <> None -> i = j) /\
  (forall j t, tasks s !! j = Some t -> result_ok (ended (tasks s)) t).
Proof.
  intros [(P & R & _ & [HR _] & _) Hres]%inv_reachable. split; [|done].
  intros i j t u Hi Hj Ht Hu. destruct (runner_pc t) as [x|] eqn:Ex, (runner_pc u) as [y|] eqn:Ey; try done.
  pose proof (HR i t x Hi Ex). pose proof (HR j u y Hj Ey). by simplify_eq.
Qed.

(** C20: No call is left waiting: from every state that the calls reach, they can
    all return. *)
Theorem callers_return s :
  rtc sys_step sys_init s ->
  exists s', rtc sys_step s s' /\ length (tasks s') = length (tasks s) /\
    forall t, t ∈ tasks s' -> task_result t <> None.
Proof. intros Hs%inv_reachable. by eapply all_return; [apply Nat.lt_succ_diag_r|]. Qed.

End runner.

Module RunnerSample.

(** A participant has started the instance when a proposal arrives, and a
    second proposal is refused. *)
Definition refused : Task Z Z := Propose 3 4 (PDone (Err (ProposeConsensus AlreadyProposed))).

Definition calls : System := {|
  io := (instance_new : InstanceIo Z Z) <| running := true |> <| participated := true |> <| proposed := true |>;
  tasks := [Participate (ARun RDeadline); Propose 1 2 PValue; refused];
|}.

Lemma calls_reached : rtc (sys_step true) sys_init calls.
Proof.
  apply (rtc_l _ _ {| io := instance_new; tasks := [Participate AMark] |}); [apply (sys_call _ sys_init); tauto|].
  eapply rtc_l; [by apply (sys_task true _ 0 (Participate AMark) CGo)|].
  eapply rtc_l; [by apply (sys_task true _ 0 (Participate AStart) CGo)|].
  eapply rtc_l; [apply (sys_call true _ (Propose 1 2 PMark)); eauto|].
  eapply rtc_l; [by apply (sys_task true _ 1 (Propose 1 2 PMark) CGo)|].
  eapply rtc_l; [apply (sys_call true _ (Propose 3 4 PMark)); eauto|].
  eapply rtc_l; [by apply (sys_task true _ 2 (Propose 3 4 PMark) CGo)|]. apply rtc_refl.
Qed.

Lemma instance_runs_once_witness : result_ok (ended (tasks calls)) refused.
Proof. by apply (instance_runs_once true calls calls_reached) with (j := 2%nat). Defined.

Lemma callers_return_witness :
  exists s', rtc (sys_step true) calls s' /\ length (tasks s') = 3%nat /\ forall t, t ∈ tasks s' -> task_result t <> None.
Proof. apply (callers_return true calls calls_reached). Defined.

End RunnerSample.
