(* ===== verification/Tracker.v ===== *)
(** * The tracker

    Failure analysis and participation of duties ([crates/core/src/tracker]):
    the steps and reasons, the analysis of the events of a duty
    ([analysis.rs]), the service that collects them ([mod.rs]) and the
    reporters with their counters ([reporters.rs]). *)

From stdpp Require Import countable.
From S2P Require Import Prelude FeatureSet Types.

(** ** Steps and reasons *)

Inductive Step :=
| Zero
| Fetcher
| ConsensusStep
| DutyDB
| ValidatorAPI
| ParSigDBInternal
| ParSigEx
| ParSigDBExternal
| SigAggStep
| AggSigDBStep
| Bcast
| ChainInclusion
| SentinelStep.

#[global] Instance Step_eq_dec : EqDecision Step.
Proof. solve_decision. Defined.

(** The discriminants, by which steps are ordered. *)
Definition step_value (s : Step) : Z :=
  match s with
  | Zero => 0 | Fetcher => 1 | ConsensusStep => 2 | DutyDB => 3 | ValidatorAPI => 4 | ParSigDBInternal => 5
  | ParSigEx => 6 | ParSigDBExternal => 7 | SigAggStep => 8 | AggSigDBStep => 9 | Bcast => 10
  | ChainInclusion => 11 | SentinelStep => 12
  end.

Definition step_str (s : Step) : string :=
  match s with
  | Zero => "unknown" | Fetcher => "fetcher" | ConsensusStep => "consensus" | DutyDB => "duty_db"
  | ValidatorAPI => "validator_api" | ParSigDBInternal => "parsig_db_local" | ParSigEx => "parsig_ex"
  | ParSigDBExternal => "parsig_db_external" | SigAggStep => "sig_aggregation" | AggSigDBStep => "aggsig_db"
  | Bcast => "bcast" | ChainInclusion => "chain_inclusion" | SentinelStep => "sentinel"
  end.

#[global] Instance Step_countable : Countable Step.
Proof.
  refine (inj_countable step_value (fun z => List.find (fun s => step_value s =? z)
    [Zero; Fetcher; ConsensusStep; DutyDB; ValidatorAPI; ParSigDBInternal; ParSigEx; ParSigDBExternal;
     SigAggStep; AggSigDBStep; Bcast; ChainInclusion; SentinelStep]) _).
  by intros [].
Defined.

(** The reasons, by their code; their texts are left out. *)
Inductive Reason :=
| REASON_UNKNOWN
| REASON_FETCH_BN_ERROR
| REASON_MISSING_AGGREGATOR_ATTESTATION
| REASON_INSUFFICIENT_AGGREGATOR_SELECTIONS
| REASON_ZERO_AGGREGATOR_SELECTIONS
| REASON_FAILED_AGGREGATOR_SELECTION
| REASON_NO_AGGREGATOR_SELECTIONS
| REASON_PROPOSER_INSUFFICIENT_RANDAOS
| REASON_PROPOSER_ZERO_RANDAOS
| REASON_FAILED_PROPOSER_RANDAO
| REASON_PROPOSER_NO_EXTERNAL_RANDAOS
| REASON_SYNC_CONTRIBUTION_NO_SYNC_MSG
| REASON_SYNC_CONTRIBUTION_FEW_PREPARES
| REASON_SYNC_CONTRIBUTION_ZERO_PREPARES
| REASON_SYNC_CONTRIBUTION_FAILED_PREPARE
| REASON_SYNC_CONTRIBUTION_NO_EXTERNAL_PREPARES
| REASON_NO_CONSENSUS
| REASON_NO_LOCAL_VC_SIGNATURE
| REASON_NO_PEER_SIGNATURES
| REASON_INSUFFICIENT_PEER_SIGNATURES
| REASON_PAR_SIG_DB_INCONSISTENT_SYNC
| REASON_BROADCAST_BN_ERROR
| REASON_NOT_INCLUDED_ON_CHAIN
| REASON_BUG_FETCH_ERROR
| REASON_BUG_PAR_SIG_DB_INCONSISTENT
| REASON_BUG_PAR_SIG_DB_EXTERNAL
| REASON_BUG_SIG_AGG
| REASON_BUG_AGGREGATION_ERROR
| REASON_BUG_DUTY_DB_ERROR
| REASON_BUG_PAR_SIG_DB_INTERNAL.

#[global] Instance Reason_eq_dec : EqDecision Reason.
Proof. solve_decision. Defined.

Definition reason_code (r : Reason) : string :=
  match r with
  | REASON_UNKNOWN => "unknown"
  | REASON_FETCH_BN_ERROR => "fetch_bn_error"
  | REASON_MISSING_AGGREGATOR_ATTESTATION => "missing_aggregator_attestation"
  | REASON_INSUFFICIENT_AGGREGATOR_SELECTIONS => "insufficient_aggregator_selections"
  | REASON_ZERO_AGGREGATOR_SELECTIONS => "zero_aggregator_prepares"
  | REASON_FAILED_AGGREGATOR_SELECTION => "failed_aggregator_selection"
  | REASON_NO_AGGREGATOR_SELECTIONS => "no_aggregator_selections"
  | REASON_PROPOSER_INSUFFICIENT_RANDAOS => "proposer_insufficient_randaos"
  | REASON_PROPOSER_ZERO_RANDAOS => "proposer_zero_randaos"
  | REASON_FAILED_PROPOSER_RANDAO => "failed_proposer_randao"
  | REASON_PROPOSER_NO_EXTERNAL_RANDAOS => "proposer_no_external_randaos"
  | REASON_SYNC_CONTRIBUTION_NO_SYNC_MSG => "sync_contribution_no_sync_msg"
  | REASON_SYNC_CONTRIBUTION_FEW_PREPARES => "sync_contribution_few_prepares"
  | REASON_SYNC_CONTRIBUTION_ZERO_PREPARES => "sync_contribution_zero_prepares"
  | REASON_SYNC_CONTRIBUTION_FAILED_PREPARE => "sync_contribution_failed_prepare"
  | REASON_SYNC_CONTRIBUTION_NO_EXTERNAL_PREPARES => "sync_contribution_no_external_prepares"
  | REASON_NO_CONSENSUS => "no_consensus"
  | REASON_NO_LOCAL_VC_SIGNATURE => "no_local_vc_signature"
  | REASON_NO_PEER_SIGNATURES => "no_peer_signatures"
  | REASON_INSUFFICIENT_PEER_SIGNATURES => "insufficient_peer_signatures"
  | REASON_PAR_SIG_DB_INCONSISTENT_SYNC => "par_sig_db_inconsistent_sync"
  | REASON_BROADCAST_BN_ERROR => "broadcast_bn_error"
  | REASON_NOT_INCLUDED_ON_CHAIN => "not_included_onchain"
  | REASON_BUG_FETCH_ERROR => "bug_fetch_error"
  | REASON_BUG_PAR_SIG_DB_INCONSISTENT => "bug_par_sig_db_inconsistent"
  | REASON_BUG_PAR_SIG_DB_EXTERNAL => "bug_par_sig_db_external"
  | REASON_BUG_SIG_AGG => "bug_sig_agg"
  | REASON_BUG_AGGREGATION_ERROR => "bug_aggregation_error"
  | REASON_BUG_DUTY_DB_ERROR => "bug_duty_db_error"
  | REASON_BUG_PAR_SIG_DB_INTERNAL => "bug_par_sig_db_internal"
  end.

(** ** Errors

    A [dyn Error] with its chain of sources; the analysis only asks whether
    one of them is an error of the beacon-node client. *)
Inductive ErrorKind := EthBeaconNodeApiClientError | OtherError (text : string).

Abbreviation StepError := (list ErrorKind).

Fixpoint is_eth2_api_error (err : StepError) : bool :=
  match err with
  | [] => false
  | EthBeaconNodeApiClientError :: _ => true
  | _ :: source => is_eth2_api_error source
  end.

Definition string_error (s : string) : StepError := [OtherError s].

(** ** Which steps end a duty *)

Definition incl_supported (fs : FeatureSet) : gset DutyType :=
  {[Proposer]} ∪ (if enabled fs AttestationInclusion then {[Attester; Aggregator]} else ∅).

Definition last_step (duty_type : DutyType) (fs : FeatureSet) : Step :=
  if bool_decide (duty_type ∈ incl_supported fs) then ChainInclusion else Bcast.

Definition expect_inconsistent_par_sigs (duty_type : DutyType) : bool :=
  match duty_type with SyncMessage | SyncContribution => true | _ => false end.

Record DutyFailure := { f_step : Step; f_reason : Reason; f_err : option StepError }.

Record DutyFailedStep := { failed : bool; failed_at : Step; failed_err : option StepError }.

Record Event (PubKey Data : Type) := {
  ev_duty : Duty;
  ev_step : Step;
  ev_pubkey : PubKey;
  step_err : option StepError;
  par_sig : option (ParSignedData Data);
}.
Arguments ev_duty {PubKey Data} _.
Arguments ev_step {PubKey Data} _.
Arguments ev_pubkey {PubKey Data} _.
Arguments step_err {PubKey Data} _.
Arguments par_sig {PubKey Data} _.

(** The order in which [duty_failed_step] looks for events. *)
Definition STEPS : list Step :=
  [ChainInclusion; Bcast; AggSigDBStep; SigAggStep; ParSigDBExternal; ParSigEx; ParSigDBInternal; ValidatorAPI;
   DutyDB; ConsensusStep; Fetcher].

Section analysis.
Context {PubKey Data Root Sig E : Type} `{Countable PubKey} `{Countable Root} `{!SignedData Data Root Sig E}.

#[local] Abbreviation Event := (Event PubKey Data).
#[local] Abbreviation Events := (gmap Duty (list Event)).

Definition by_step (events : list Event) : gmap Step (list Event) :=
  foldl (fun m e => push_at (ev_step e) e m) ∅ events.

Definition duty_failed_step (events : list Event) (fs : FeatureSet) : DutyFailedStep :=
  match events with
  | [] => {| failed := true; failed_at := Zero; failed_err := None |}
  | e0 :: _ =>
      match head (omap (fun s => by_step events !! s ≫= last) STEPS) with
      | None => {| failed := true; failed_at := Zero; failed_err := None |}
      | Some l =>
          if bool_decide (ev_step l = last_step (duty_type (ev_duty e0)) fs) && bool_decide (step_err l = None)
          then {| failed := false; failed_at := Zero; failed_err := None |}
          else {| failed := true; failed_at := ev_step l; failed_err := step_err l |}
      end
  end.

(** The events of a duty of the same slot. *)
Definition events_of (all_events : Events) (duty : Duty) (t : DutyType) : list Event :=
  default [] (all_events !! {| slot := slot duty; duty_type := t |}).

Definition analyse_fetcher_failed_proposer (duty : Duty) (all_events : Events) (fetch_err : option StepError) (fs : FeatureSet)
    : DutyFailure :=
  let randao := duty_failed_step (events_of all_events duty Randao) fs in
  let reason :=
    if failed randao then
      match failed_at randao with
      | ParSigEx => REASON_PROPOSER_NO_EXTERNAL_RANDAOS
      | ParSigDBExternal => REASON_PROPOSER_INSUFFICIENT_RANDAOS
      | Zero => REASON_PROPOSER_ZERO_RANDAOS
      | _ => REASON_FAILED_PROPOSER_RANDAO
      end
    else REASON_BUG_FETCH_ERROR in
  {| f_step := Fetcher; f_reason := reason; f_err := fetch_err |}.

Definition analyse_fetcher_failed_aggregator (duty : Duty) (all_events : Events) (fetch_err : option StepError) (fs : FeatureSet)
    : option DutyFailure :=
  _ ← fetch_err;
  let prep := duty_failed_step (events_of all_events duty PrepareAggregator) fs in
  if failed prep then
    Some {| f_step := Fetcher;
            f_reason := match failed_at prep with
                        | ParSigEx => REASON_NO_AGGREGATOR_SELECTIONS
                        | ParSigDBExternal => REASON_INSUFFICIENT_AGGREGATOR_SELECTIONS
                        | Zero => REASON_ZERO_AGGREGATOR_SELECTIONS
                        | _ => REASON_FAILED_AGGREGATOR_SELECTION
                        end;
            f_err := fetch_err |}
  else
    let att := duty_failed_step (events_of all_events duty Attester) fs in
    Some {| f_step := Fetcher;
            f_reason := if failed att && (step_value (failed_at att) <=? step_value DutyDB)
                        then REASON_MISSING_AGGREGATOR_ATTESTATION else REASON_BUG_FETCH_ERROR;
            f_err := fetch_err |}.

Definition analyse_fetcher_failed_sync_contribution (duty : Duty) (all_events : Events) (fetch_err : option StepError)
    (fs : FeatureSet) : option DutyFailure :=
  _ ← fetch_err;
  let prep := duty_failed_step (events_of all_events duty PrepareSyncContribution) fs in
  if failed prep then
    Some {| f_step := Fetcher;
            f_reason := match failed_at prep with
                        | ParSigEx => REASON_SYNC_CONTRIBUTION_NO_EXTERNAL_PREPARES
                        | ParSigDBExternal => REASON_SYNC_CONTRIBUTION_FEW_PREPARES
                        | Zero => REASON_SYNC_CONTRIBUTION_ZERO_PREPARES
                        | _ => REASON_SYNC_CONTRIBUTION_FAILED_PREPARE
                        end;
            f_err := fetch_err |}
  else
    let sync := duty_failed_step (events_of all_events duty SyncMessage) fs in
    Some {| f_step := Fetcher;
            f_reason := if failed sync && (step_value (failed_at sync) <=? step_value AggSigDBStep)
                        then REASON_SYNC_CONTRIBUTION_NO_SYNC_MSG else REASON_BUG_FETCH_ERROR;
            f_err := fetch_err |}.

Definition analyse_fetcher_failed (duty : Duty) (all_events : Events) (fetch_err : option StepError) (fs : FeatureSet)
    : option DutyFailure :=
  match duty_type duty with
  | Proposer => Some (analyse_fetcher_failed_proposer duty all_events fetch_err fs)
  | Aggregator => analyse_fetcher_failed_aggregator duty all_events fetch_err fs
  | SyncContribution => analyse_fetcher_failed_sync_contribution duty all_events fetch_err fs
  | _ =>
      Some {| f_step := Fetcher;
              f_reason := match fetch_err with
                          | Some e => if is_eth2_api_error e then REASON_FETCH_BN_ERROR else REASON_BUG_FETCH_ERROR
                          | None => REASON_BUG_FETCH_ERROR
                          end;
              f_err := fetch_err |}
  end.

Definition analyse_duty_failed (duty : Duty) (all_events : Events) (st : DutyFailedStep) (msg_root_consistent : bool)
    (fs : FeatureSet) : option DutyFailure :=
  if negb (failed st) then None
  else
    let err := failed_err st in
    let has_err := match err with Some _ => true | None => false end in
    let fail step reason err := Some {| f_step := step; f_reason := reason; f_err := err |} in
    match failed_at st with
    | Fetcher => analyse_fetcher_failed duty all_events err fs
    | ConsensusStep => fail ConsensusStep (if has_err then REASON_NO_CONSENSUS else REASON_UNKNOWN) err
    | DutyDB =>
        if has_err then fail DutyDB REASON_BUG_DUTY_DB_ERROR err
        else fail ValidatorAPI REASON_NO_LOCAL_VC_SIGNATURE err
    | ParSigDBInternal => fail ParSigDBInternal REASON_BUG_PAR_SIG_DB_INTERNAL err
    | ParSigEx => fail ParSigEx (if has_err then REASON_UNKNOWN else REASON_NO_PEER_SIGNATURES) err
    | ParSigDBExternal =>
        if has_err then fail ParSigDBExternal REASON_BUG_PAR_SIG_DB_EXTERNAL err
        else fail ParSigDBExternal
               (if msg_root_consistent then REASON_INSUFFICIENT_PEER_SIGNATURES
                else if expect_inconsistent_par_sigs (duty_type duty) then REASON_PAR_SIG_DB_INCONSISTENT_SYNC
                else REASON_BUG_PAR_SIG_DB_INCONSISTENT) err
    | SigAggStep => fail SigAggStep (if has_err then REASON_BUG_SIG_AGG else REASON_UNKNOWN) err
    | AggSigDBStep => fail AggSigDBStep REASON_BUG_AGGREGATION_ERROR err
    | Bcast =>
        if has_err then fail Bcast REASON_BROADCAST_BN_ERROR err
        else fail Bcast REASON_UNKNOWN (Some (string_error "bug: missing chain inclusion event"))
    | ChainInclusion =>
        if has_err then fail ChainInclusion REASON_NOT_INCLUDED_ON_CHAIN err
        else fail ChainInclusion REASON_UNKNOWN (Some (string_error "bug: missing chain inclusion error"))
    | Zero => fail Zero REASON_UNKNOWN (Some (string_error "no events for duty"))
    | s => fail s REASON_UNKNOWN (Some (string_error ("duty failed at step " +:+ step_str s)))
    end.

(** ** Partial signatures *)

Abbreviation ParSigsByMsg := (gmap PubKey (gmap Root (list (ParSignedData Data)))).

Definition msg_roots_consistent (ho : HashOrder) (parsigs : ParSigsByMsg) : bool :=
  forallb (fun roots => (size roots <=? 1)%nat) (map_values ho parsigs).

Definition extract_step (st : gset (PubKey * Z) * ParSigsByMsg) (e : Event) : gset (PubKey * Z) * ParSigsByMsg :=
  let '(dedup, resp) := st in
  match par_sig e with
  | None => (dedup, resp)
  | Some ps =>
      if decide ((ev_pubkey e, share_idx ps) ∈ dedup) then (dedup, resp)
      else
        let dedup := {[(ev_pubkey e, share_idx ps)]} ∪ dedup in
        match message_root (signed_data ps) with
        | Ok root => (dedup, <[ev_pubkey e := push_at root ps (default ∅ (resp !! ev_pubkey e))]> resp)
        | _ => (dedup, resp)
        end
  end.

Definition extract_par_sigs (events : list Event) : ParSigsByMsg := snd (foldl extract_step (∅, ∅) events).

(** ** Participation *)

Definition scheduled (duty : Duty) (pubkey : PubKey) (all_events : Events) (t : DutyType) : bool :=
  match all_events !! {| slot := slot duty; duty_type := t |} with
  | None => false
  | Some events => existsb (fun e => bool_decide (ev_step e = Fetcher) && bool_decide (ev_pubkey e = pubkey)) events
  end.

Definition is_par_sig_event_expected (duty : Duty) (pubkey : PubKey) (all_events : Events) : bool :=
  match duty_type duty with
  | Exit | BuilderRegistration => true
  | Randao => scheduled duty pubkey all_events Proposer || scheduled duty pubkey all_events BuilderProposer
  | PrepareAggregator => scheduled duty pubkey all_events Attester
  | PrepareSyncContribution | SyncMessage => scheduled duty pubkey all_events SyncContribution
  | other => scheduled duty pubkey all_events other
  end.

Record ParticipationResult := {
  participated : gmap Z Z;
  unexpected : gmap Z Z;
  validators_per_duty : Z;
}.

(** [*entry.or_insert(0) = slot.saturating_add(1)]. *)
Definition count_up (k : Z) (m : gmap Z Z) : gmap Z Z := <[k := Z.min (default 0 (m !! k) + 1) U64_MAX]> m.

Definition participation_step (duty : Duty) (all_events : Events)
    (st : gmap Z Z * gmap Z Z * gset (Z * PubKey)) (e : Event) : gmap Z Z * gmap Z Z * gset (Z * PubKey) :=
  let '(part, unexp, dedup) := st in
  match ev_step e, par_sig e with
  | ParSigDBExternal, Some ps | ParSigDBInternal, Some ps =>
      if negb (is_par_sig_event_expected duty (ev_pubkey e) all_events)
      then (part, count_up (share_idx ps) unexp, dedup)
      else if decide ((share_idx ps, ev_pubkey e) ∈ dedup) then (part, unexp, dedup)
      else (count_up (share_idx ps) part, unexp, {[(share_idx ps, ev_pubkey e)]} ∪ dedup)
  | _, _ => (part, unexp, dedup)
  end.

Definition analyse_participation (duty : Duty) (all_events : Events) : ParticipationResult :=
  match all_events !! duty with
  | None => {| participated := ∅; unexpected := ∅; validators_per_duty := 0 |}
  | Some events =>
      let '(part, unexp, _) := foldl (participation_step duty all_events) (∅, ∅, ∅) events in
      {| participated := part; unexpected := unexp;
         validators_per_duty := Z.of_nat (size (list_to_set (ev_pubkey <$> events) : gset PubKey)) |}
  end.

(** ** Reporters *)

Record PeerInfo := { peer_name : string; peer_share_idx : Z }.

(** The counters and gauges; a label that was never touched counts zero. *)
Record Metrics := {
  expect_duties : gmap DutyType Z;
  success_duties : gmap DutyType Z;
  failed_duties : gmap DutyType Z;
  failed_reasons : gmap (DutyType * string) Z;
  part_success : gmap (DutyType * string) Z;
  part_expected : gmap (DutyType * string) Z;
  part_missed : gmap (DutyType * string) Z;
  part_gauge : gmap (DutyType * string) Z;
  unexpected_events : gmap string Z;
  inconsistent_parsigs : gmap DutyType Z;
}.

Definition metrics_new : Metrics := {|
  expect_duties := ∅; success_duties := ∅; failed_duties := ∅; failed_reasons := ∅; part_success := ∅;
  part_expected := ∅; part_missed := ∅; part_gauge := ∅; unexpected_events := ∅; inconsistent_parsigs := ∅;
|}.

Definition inc_by {K} `{Countable K} (k : K) (n : Z) (m : gmap K Z) : gmap K Z := <[k := default 0 (m !! k) + n]> m.

Definition report_duty (duty : Duty) (is_failed : bool) (result : DutyFailure) (m : Metrics) : Metrics :=
  let dt := duty_type duty in
  if negb is_failed then
    if decide (f_step result = Fetcher) then m
    else m <| expect_duties ::= inc_by dt 1 |> <| success_duties ::= inc_by dt 1 |>
  else
    m <| expect_duties ::= inc_by dt 1 |> <| failed_duties ::= inc_by dt 1 |>
      <| failed_reasons ::= inc_by (dt, reason_code (f_reason result)) 1 |>.

Record UnsupportedIgnorer := {
  logged_no_aggregator : bool;
  logged_no_contribution : bool;
  aggregation_supported : bool;
  contribution_supported : bool;
}.

Definition ignorer_new : UnsupportedIgnorer := {|
  logged_no_aggregator := false; logged_no_contribution := false;
  aggregation_supported := false; contribution_supported := false;
|}.

Definition ignorer_check (duty : Duty) (outcome : option DutyFailure) (u : UnsupportedIgnorer) : UnsupportedIgnorer * bool :=
  match outcome with
  | None =>
      let u := if decide (duty_type duty = Aggregator) then u <| aggregation_supported := true |> else u in
      let u := if decide (duty_type duty = SyncContribution) then u <| contribution_supported := true |> else u in
      (u, false)
  | Some f =>
      if negb (aggregation_supported u) && bool_decide (duty_type duty = Aggregator) && bool_decide (f_step f = Fetcher)
         && bool_decide (f_reason f = REASON_ZERO_AGGREGATOR_SELECTIONS)
      then (u <| logged_no_aggregator := true |>, true)
      else if negb (contribution_supported u) && bool_decide (duty_type duty = SyncContribution)
              && bool_decide (f_step f = Fetcher) && bool_decide (f_reason f = REASON_SYNC_CONTRIBUTION_ZERO_PREPARES)
      then (u <| logged_no_contribution := true |>, true)
      else (u, false)
  end.

(** One peer of the participation report; the names of absent peers are
    collected. *)
Definition report_peer (dt : DutyType) (part unexp : gmap Z Z) (expected_per_peer : Z)
    (st : Metrics * list string) (peer : PeerInfo) : Metrics * list string :=
  let '(m, absent) := st in
  let p := default 0 (part !! peer_share_idx peer) in
  let u := default 0 (unexp !! peer_share_idx peer) in
  let labels := (dt, peer_name peer) in
  let m := m <| part_success ::= inc_by labels p |>
             <| part_expected ::= inc_by labels expected_per_peer |>
             <| part_missed ::= inc_by labels (Z.max 0 (expected_per_peer - p)) |> in
  if 0 <? p then (m <| part_gauge ::= insert labels 1 |>, absent)
  else if 0 <? u then (m <| unexpected_events ::= inc_by (peer_name peer) u |>, absent)
  else (m <| part_gauge ::= insert labels 0 |>, absent ++ [peer_name peer]).

Record ParticipationReporter := { peers : list PeerInfo; prev_absent : gmap DutyType (list string) }.

Definition report_participation (duty : Duty) (is_failed : bool) (part unexp : gmap Z Z) (expected_per_peer : Z)
    (r : ParticipationReporter) (m : Metrics) : ParticipationReporter * Metrics :=
  if bool_decide (part = ∅) && negb is_failed then (r, m)
  else
    let '(m, absent) := foldl (report_peer (duty_type duty) part unexp expected_per_peer) (m, []) (peers r) in
    (r <| prev_absent ::= insert (duty_type duty) absent |>, m).

Definition report_par_sigs (ho : HashOrder) (duty : Duty) (parsigs : ParSigsByMsg) (m : Metrics) : Metrics :=
  if msg_roots_consistent ho parsigs then m else m <| inconsistent_parsigs ::= inc_by (duty_type duty) 1 |>.

(** ** The service *)

Record TrackerService := {
  t_events : Events;
  t_ignorer : UnsupportedIgnorer;
  t_reporter : ParticipationReporter;
  t_metrics : Metrics;
}.

Definition tracker_start (ps : list PeerInfo) : TrackerService := {|
  t_events := ∅; t_ignorer := ignorer_new; t_reporter := {| peers := ps; prev_absent := ∅ |}; t_metrics := metrics_new;
|}.

Context (fs : FeatureSet) (from_slot : Z).

Definition analyse (ho : HashOrder) (duty : Duty) (t : TrackerService) : TrackerService :=
  let duty_events := default [] (t_events t !! duty) in
  let parsigs := extract_par_sigs duty_events in
  let m := report_par_sigs ho duty parsigs (t_metrics t) in
  let failed_step := duty_failed_step duty_events fs in
  let outcome := analyse_duty_failed duty (t_events t) failed_step (msg_roots_consistent ho parsigs) fs in
  let '(ign, ignored) := ignorer_check duty outcome (t_ignorer t) in
  let t := t <| t_ignorer := ign |> in
  if ignored then t <| t_metrics := m |>
  else
    let is_failed := match outcome with Some _ => true | None => false end in
    let result := default {| f_step := failed_at failed_step; f_reason := REASON_UNKNOWN; f_err := None |} outcome in
    let m := report_duty duty is_failed result m in
    let part := analyse_participation duty (t_events t) in
    let '(r, m) := report_participation duty is_failed (participated part) (unexpected part)
                     (validators_per_duty part) (t_reporter t) m in
    t <| t_reporter := r |> <| t_metrics := m |>.

(** What the loop of [run] receives; for an event, what the two deadliners
    answer when they are asked to schedule its duty. *)
Inductive TrackerInput :=
| Analyse (ho : HashOrder) (duty : Duty)
| Delete (duty : Duty)
| Report (e : Event) (deleter_scheduled analyser_scheduled : bool).

Definition tracker_step (t : TrackerService) (i : TrackerInput) : TrackerService :=
  match i with
  | Analyse ho duty => analyse ho duty t
  | Delete duty => t <| t_events ::= delete duty |>
  | Report e deleter_scheduled analyser_scheduled =>
      if slot (ev_duty e) <? from_slot then t
      else if negb deleter_scheduled then t
      else if negb analyser_scheduled then t
      else t <| t_events ::= push_at (ev_duty e) e |>
  end.

Definition tracker_run (ps : list PeerInfo) (l : list TrackerInput) : TrackerService :=
  foldl tracker_step (tracker_start ps) l.

End analysis.
