(* ===== verification/TrackerFacts.v ===== *)
(** * What the tracker reports

    The step a failed duty is blamed on is the furthest one with an event; the
    participation of a peer counts the validators it signed for; the counters
    of the reporters stay consistent over every run of the service. *)

From S2P Require Import Prelude FeatureSet Types Tracker.

Section facts.
Context {PubKey Data Root Sig E : Type} `{Countable PubKey} `{Countable Root} `{!SignedData Data Root Sig E}.

#[local] Abbreviation Event := (Event PubKey Data).
#[local] Abbreviation Events := (gmap Duty (list Event)).

(** ** The furthest step *)

Lemma filter_none {A} (P : A -> Prop) `{forall x, Decision (P x)} (l : list A) :
  (forall x, x ∈ l -> ~ P x) -> filter P l = [].
Proof.
  intros Hl. induction l as [|x l IH]; [done|]. rewrite filter_cons_False by (apply Hl; left).
  apply IH. intros y Hy. apply Hl. by right.
Qed.

Lemma by_step_lookup (l : list Event) s :
  default [] (by_step l !! s) = filter (fun e => ev_step e = s) l.
Proof.
  unfold by_step. induction l as [|e l IH] using rev_ind; [done|].
  rewrite foldl_app. cbn [foldl]. rewrite default_push_at, filter_app. case_decide as Hs.
  - subst s. by rewrite IH, filter_cons_True.
  - by rewrite IH, filter_cons_False, app_nil_r.
Qed.

Lemma by_step_last (l : list Event) s :
  by_step l !! s ≫= last = last (filter (fun e => ev_step e = s) l).
Proof. rewrite <-by_step_lookup. by destruct (by_step l !! s). Qed.

(** [e] is the last of the events with the furthest step. *)
Definition furthest (l : list Event) (e : Event) : Prop :=
  exists l1 l2, l = l1 ++ e :: l2 /\ ev_step e ∈ STEPS /\
    (forall x, x ∈ l1 -> ev_step x ∈ STEPS -> step_value (ev_step x) <= step_value (ev_step e)) /\
    (forall x, x ∈ l2 -> ev_step x ∈ STEPS -> step_value (ev_step x) < step_value (ev_step e)).

Lemma steps_values i s : STEPS !! i = Some s -> step_value s = 11 - Z.of_nat i.
Proof. do 11 (destruct i as [|i]; [by intros [= <-]|]). done. Qed.

Lemma steps_sorted s l1 l2 : STEPS = l1 ++ s :: l2 -> forall s', s' ∈ l1 -> step_value s < step_value s'.
Proof.
  intros Hs s' [i Hi]%list_elem_of_lookup.
  rewrite (steps_values i s') by (rewrite Hs; by apply lookup_app_l_Some).
  rewrite (steps_values (length l1) s) by (rewrite Hs; by apply list_lookup_middle).
  apply lookup_lt_Some in Hi. lia.
Qed.

Lemma omap_head_skip {A B} (f : A -> option B) (l1 l2 : list A) x y :
  (forall z, z ∈ l1 -> f z = None) -> f x = Some y -> head (omap f (l1 ++ x :: l2)) = Some y.
Proof.
  intros H1 Hx. rewrite omap_app. replace (omap f l1) with (@nil B).
  - cbn. by rewrite Hx.
  - symmetry. induction l1 as [|z l1 IH]; [done|]. cbn. rewrite H1 by left. apply IH. intros ? ?. apply H1. by right.
Qed.

Lemma furthest_found (l : list Event) e :
  furthest l e -> head (omap (fun s => by_step l !! s ≫= last) STEPS) = Some e.
Proof.
  intros (l1 & l2 & -> & [k1 [k2 Hk]]%list_elem_of_split & H1 & H2). rewrite Hk.
  apply omap_head_skip.
  - intros s Hs. rewrite by_step_last. pose proof (steps_sorted _ _ _ Hk s Hs) as Hlt.
    assert (s ∈ STEPS) as Hin by (rewrite Hk; set_solver).
    replace (filter _ _) with (@nil Event); [done|]. symmetry. apply filter_none.
    intros x Hx Heq. subst s. apply elem_of_app in Hx as [Hx|[->|Hx]%elem_of_cons]; [|lia|].
    + specialize (H1 x Hx Hin). lia.
    + specialize (H2 x Hx Hin). lia.
  - rewrite by_step_last, filter_app, filter_cons_True by done.
    replace (filter _ l2) with (@nil Event); [by rewrite last_snoc|]. symmetry. apply filter_none.
    intros x Hx Heq. assert (ev_step x ∈ STEPS) as Hin by (rewrite Heq, Hk; set_solver).
    specialize (H2 x Hx Hin). rewrite Heq in H2. lia.
Qed.

Lemma furthest_exists (l : list Event) :
  (exists e, furthest l e) \/ forall e, e ∈ l -> ev_step e ∉ STEPS.
Proof.
  induction l as [|e l IH] using rev_ind; [right; set_solver|].
  destruct (decide (ev_step e ∈ STEPS)) as [He|He].
  - destruct IH as [(x & l1 & l2 & -> & Hx & H1 & H2)|Hno].
    + left. destruct (Z_lt_le_dec (step_value (ev_step e)) (step_value (ev_step x))).
      * exists x, l1, (l2 ++ [e]). rewrite <-app_assoc. split_and!; [done..|].
        intros y [Hy|Hy]%elem_of_app; [by apply H2|]. by apply list_elem_of_singleton in Hy as ->.
      * exists e, (l1 ++ x :: l2), []. split_and!; [done..| |set_solver].
        intros y [Hy|[->|Hy]%elem_of_cons]%elem_of_app Hs; [specialize (H1 y Hy Hs)| |specialize (H2 y Hy Hs)]; lia.
    + left. exists e, l, []. split_and!; [done..| |set_solver]. intros y Hy Hs. by destruct (Hno y Hy).
  - destruct IH as [(x & l1 & l2 & -> & Hx & H1 & H2)|Hno]; [left|right].
    + exists x, l1, (l2 ++ [e]). rewrite <-app_assoc. split_and!; [done..|].
      intros y [Hy|Hy]%elem_of_app Hs; [by apply H2|]. apply list_elem_of_singleton in Hy as ->. done.
    + intros y [Hy|Hy]%elem_of_app; [by apply Hno|]. by apply list_elem_of_singleton in Hy as ->.
Qed.

(** ** Participation *)

(** The share a partial signature in the database came from. *)
Definition share_of (e : Event) : option Z :=
  match ev_step e with
  | ParSigDBExternal | ParSigDBInternal => share_idx <$> par_sig e
  | _ => None
  end.

(** The validators a share signed for, and its signatures nobody asked for. *)
Definition signers (duty : Duty) (all : Events) (l : list Event) (s : Z) : gset PubKey :=
  list_to_set (ev_pubkey <$> filter (fun e => share_of e = Some s /\ is_par_sig_event_expected duty (ev_pubkey e) all = true) l).

Definition strays (duty : Duty) (all : Events) (l : list Event) (s : Z) : list Event :=
  filter (fun e => share_of e = Some s /\ is_par_sig_event_expected duty (ev_pubkey e) all = false) l.

Lemma participation_step_eq duty all st (e : Event) :
  participation_step duty all st e =
  match share_of e with
  | None => st
  | Some s =>
      let '(part, unexp, dedup) := st in
      if is_par_sig_event_expected duty (ev_pubkey e) all then
        if decide ((s, ev_pubkey e) ∈ dedup) then st
        else (count_up s part, unexp, {[(s, ev_pubkey e)]} ∪ dedup)
      else (part, count_up s unexp, dedup)
  end.
Proof.
  destruct st as [[part unexp] dedup]. unfold participation_step, share_of.
  destruct (ev_step e); try done; destruct (par_sig e); try done; cbn; by destruct (is_par_sig_event_expected _ _ _).
Qed.

Lemma signers_snoc duty all l e s :
  signers duty all (l ++ [e]) s =
  signers duty all l s ∪
    (if decide (share_of e = Some s /\ is_par_sig_event_expected duty (ev_pubkey e) all = true) then {[ev_pubkey e]} else ∅).
Proof.
  unfold signers. rewrite filter_app, fmap_app, list_to_set_app_L. f_equal.
  case_decide as Hd; [rewrite filter_cons_True by done|rewrite filter_cons_False by done]; set_solver.
Qed.

Lemma strays_snoc duty all l e s :
  strays duty all (l ++ [e]) s =
  strays duty all l s ++
    (if decide (share_of e = Some s /\ is_par_sig_event_expected duty (ev_pubkey e) all = false) then [e] else []).
Proof.
  unfold strays. by rewrite filter_app.
Qed.

(** A counter that saturates. *)
Definition counted (n : Z) (o : option Z) : Prop := default 0 o = Z.min n U64_MAX /\ (o = None <-> n = 0).

Lemma counted_up n o : 0 <= n -> counted n o -> counted (n + 1) (Some (Z.min (default 0 o + 1) U64_MAX)).
Proof. intros Hn [Ho _]. split; cbn; [rewrite Ho; unfold U64_MAX; lia|]. split; [done|lia]. Qed.

Lemma lookup_count_up k m s : count_up k m !! s = if decide (k = s) then Some (Z.min (default 0 (m !! k) + 1) U64_MAX) else m !! s.
Proof. unfold count_up. rewrite lookup_insert. by case_decide. Qed.

Lemma participation_fold duty all (l : list Event) :
  let '(part, unexp, dedup) := foldl (participation_step duty all) (∅, ∅, ∅) l in
  (forall s pk, (s, pk) ∈ dedup <-> pk ∈ signers duty all l s) /\
  (forall s, counted (Z.of_nat (size (signers duty all l s))) (part !! s)) /\
  (forall s, counted (len (strays duty all l s)) (unexp !! s)).
Proof.
  induction l as [|e l IH] using rev_ind.
  { split_and!; [set_solver|by intros s; unfold signers; cbn; rewrite size_empty|done]. }
  rewrite foldl_app. cbn [foldl]. destruct (foldl _ _ l) as [[part unexp] dedup]. destruct IH as (Hd & Hp & Hu).
  rewrite participation_step_eq. destruct (share_of e) as [s0|] eqn:Es.
  2: { split_and!; intros s *; rewrite ?signers_snoc, ?strays_snoc, Es; (rewrite decide_False by (by intros [? _]));
       rewrite ?union_empty_r_L, ?app_nil_r; auto. }
  destruct (is_par_sig_event_expected duty (ev_pubkey e) all) eqn:Ee.
  - assert (forall s, strays duty all (l ++ [e]) s = strays duty all l s) as Hst.
    { intros s. rewrite strays_snoc, decide_False, app_nil_r by (intros [_ ?]; congruence). done. }
    assert (forall s, signers duty all (l ++ [e]) s =
      signers duty all l s ∪ (if decide (s0 = s) then {[ev_pubkey e]} else ∅)) as Hsi.
    { intros s. rewrite signers_snoc, Es, Ee. f_equal. repeat case_decide; naive_solver. }
    case_decide as Hin.
    + assert (forall s, signers duty all (l ++ [e]) s = signers duty all l s) as Hsame.
      { intros s. rewrite Hsi. case_decide; [|set_solver]. subst. apply Hd in Hin. set_solver. }
      split_and!; intros s *; rewrite ?Hst, ?Hsame; auto.
    + split_and!.
      * intros s pk. rewrite Hsi, elem_of_union, elem_of_singleton, Hd, elem_of_union. case_decide; set_solver.
      * intros s. rewrite Hsi, lookup_count_up. case_decide; [subst s0|by rewrite union_empty_r_L].
        rewrite Hd in Hin. rewrite size_union, size_singleton by set_solver.
        rewrite Nat2Z.inj_add. apply counted_up; [lia|done].
      * intros s. by rewrite Hst.
  - assert (forall s, signers duty all (l ++ [e]) s = signers duty all l s) as Hsi.
    { intros s. rewrite signers_snoc, decide_False, union_empty_r_L by (intros [_ ?]; congruence). done. }
    split_and!; intros s *; rewrite ?Hsi; auto.
    rewrite strays_snoc, Es, Ee, lookup_count_up. destruct (decide (s0 = s)) as [->|Hne].
    + rewrite decide_True by done. rewrite len_app. apply counted_up; [apply len_nonneg|done].
    + rewrite decide_False by (intros [? _]; congruence). by rewrite app_nil_r.
Qed.

Lemma participation_eq duty (all : Events) :
  let l := default [] (all !! duty) in
  analyse_participation duty all =
  let '(part, unexp, _) := foldl (participation_step duty all) (∅, ∅, ∅) l in
  {| participated := part; unexpected := unexp;
     validators_per_duty := Z.of_nat (size (list_to_set (ev_pubkey <$> l) : gset PubKey)) |}.
Proof. unfold analyse_participation. by destruct (all !! duty). Qed.

(** ** Counters *)

#[local] Arguments inc_by : simpl never.

Lemma lookup_inc_by {K} `{Countable K} (k k' : K) n m :
  default 0 (inc_by k n m !! k') = default 0 (m !! k') + (if decide (k = k') then n else 0).
Proof. unfold inc_by. rewrite lookup_insert. case_decide; [by subst|cbn; lia]. Qed.

(** Successes and misses of a peer add up to what was expected of it, and
    successful and failed duties to all that were expected. *)
Record consistent (m : Metrics) : Prop := {
  participation_adds_up : forall k,
    default 0 (part_success m !! k) + default 0 (part_missed m !! k) = default 0 (part_expected m !! k);
  duties_add_up : forall dt,
    default 0 (success_duties m !! dt) + default 0 (failed_duties m !! dt) = default 0 (expect_duties m !! dt);
}.

Lemma consistent_report_duty duty f r m : consistent m -> consistent (report_duty duty f r m).
Proof.
  intros [H1 H2]. unfold report_duty. destruct f; cbn [negb]; [|case_decide; [done|]];
    (split; [done|]; cbn; intros dt; rewrite !lookup_inc_by, <-H2; case_decide; lia).
Qed.

Lemma consistent_report_peer dt part unexp n st peer :
  default 0 (part !! peer_share_idx peer) <= n -> consistent (fst st) ->
  consistent (fst (report_peer dt part unexp n st peer)).
Proof.
  destruct st as [m absent]. cbn [fst]. intros Hle [H1 H2].
  assert (consistent (m <| part_success ::= inc_by (dt, peer_name peer) (default 0 (part !! peer_share_idx peer)) |>
             <| part_expected ::= inc_by (dt, peer_name peer) n |>
             <| part_missed ::= inc_by (dt, peer_name peer) (Z.max 0 (n - default 0 (part !! peer_share_idx peer))) |>)) as [H3 H4].
  { split; cbn; [|done]. intros k. rewrite !lookup_inc_by, <-H1. case_decide; lia. }
  unfold report_peer. repeat case_match; cbn; by split.
Qed.

Lemma consistent_report_peers dt part unexp n (ps : list PeerInfo) st :
  (forall s, default 0 (part !! s) <= n) -> consistent (fst st) ->
  consistent (fst (foldl (report_peer dt part unexp n) st ps)).
Proof.
  intros Hle. revert st. induction ps as [|p ps IH]; intros st Hc; [done|]. apply IH.
  by apply consistent_report_peer.
Qed.

Lemma consistent_report_participation duty f part unexp n r m :
  (forall s, default 0 (part !! s) <= n) -> consistent m ->
  consistent (snd (report_participation duty f part unexp n r m)).
Proof.
  intros Hle Hc. unfold report_participation. destruct (bool_decide _ && _); [done|].
  pose proof (consistent_report_peers (duty_type duty) part unexp n (peers r) (m, []) Hle Hc) as Hr.
  by destruct (foldl _ _ _).
Qed.

(** A peer cannot sign for more validators than had the duty. *)
Lemma participation_bound duty (all : Events) s :
  default 0 (participated (analyse_participation duty all) !! s) <= validators_per_duty (analyse_participation duty all).
Proof.
  rewrite participation_eq. set (l := default [] (all !! duty)).
  pose proof (participation_fold duty all l) as Hf. destruct (foldl _ _ l) as [[part unexp] dedup].
  destruct Hf as (_ & Hp & _). cbn. destruct (Hp s) as [-> _].
  assert (size (signers duty all l s) <= size (list_to_set (ev_pubkey <$> l) : gset PubKey))%nat; [|lia].
  apply subseteq_size. unfold signers. intros pk. rewrite !elem_of_list_to_set, !list_elem_of_fmap.
  intros (e & -> & He). exists e. split; [done|]. by apply list_elem_of_filter in He as [_ ?].
Qed.

Context (fs : FeatureSet) (from_slot : Z).

Lemma consistent_analyse ho duty (t : TrackerService (PubKey := PubKey) (Data := Data)) :
  consistent (t_metrics t) -> consistent (t_metrics (analyse fs ho duty t)).
Proof.
  intros Hc. unfold analyse. set (m := report_par_sigs _ _ _ _).
  assert (consistent m) as Hm by (unfold m, report_par_sigs; case_match; [done|by destruct Hc]).
  destruct (ignorer_check _ _ _) as [ign []]; [done|]. cbn [t_events t_reporter].
  match goal with |- context [report_participation ?a ?b ?c ?d ?e ?f ?g] =>
    pose proof (consistent_report_participation a b c d e f g) as Hr; destruct (report_participation a b c d e f g) end.
  apply Hr; [intros s; apply participation_bound|]. by apply consistent_report_duty.
Qed.

(** What the service knows of a duty: the reports it took since it last
    deleted it. *)
Definition kept (duty : Duty) (acc : list Event) (i : TrackerInput (PubKey := PubKey) (Data := Data)) : list Event :=
  match i with
  | Analyse _ _ => acc
  | Delete d => if decide (d = duty) then [] else acc
  | Report e deleter_scheduled analyser_scheduled =>
      if decide (ev_duty e = duty /\ from_slot <= slot duty /\ deleter_scheduled = true /\ analyser_scheduled = true)
      then acc ++ [e] else acc
  end.

Lemma tracker_events ps l duty :
  default [] (t_events (tracker_run fs from_slot ps l) !! duty) = foldl (kept duty) [] l.
Proof.
  unfold tracker_run. induction l as [|i l IH] using rev_ind; [done|]. rewrite !foldl_app. cbn [foldl].
  set (t := foldl _ _ l) in *. rewrite <-IH. destruct i as [ho d|d|e b1 b2]; cbn.
  - unfold analyse. destruct (ignorer_check _ _ _) as [ign []]; [done|]. by destruct (report_participation _ _ _ _ _ _).
  - rewrite lookup_delete. by case_decide.
  - destruct (Z.ltb_spec (slot (ev_duty e)) from_slot).
    + rewrite decide_False; [done|]. intros (<- & ? & _). lia.
    + destruct b1, b2; cbn; try (rewrite decide_False; [done|naive_solver]).
      rewrite default_push_at. destruct (decide (ev_duty e = duty)) as [<-|Hne].
      * by rewrite decide_True.
      * rewrite decide_False by naive_solver. done.
Qed.

(** ** Theorems *)

(** A duty with events is blamed on the last event of the furthest step that
    has one, unless that event ends the duty without an error. *)
Theorem failed_step_furthest e0 (l : list Event) :
  (exists e, furthest (e0 :: l) e /\
    duty_failed_step (e0 :: l) fs =
      if decide (ev_step e = last_step (duty_type (ev_duty e0)) fs /\ step_err e = None)
      then {| failed := false; failed_at := Zero; failed_err := None |}
      else {| failed := true; failed_at := ev_step e; failed_err := step_err e |}) \/
  (forall e, e ∈ e0 :: l -> ev_step e ∉ STEPS) /\
    duty_failed_step (e0 :: l) fs = {| failed := true; failed_at := Zero; failed_err := None |}.
Proof.
  unfold duty_failed_step. destruct (furthest_exists (e0 :: l)) as [[e He]|Hno]; [left|right].
  - exists e. split; [done|]. rewrite (furthest_found _ _ He).
    destruct (decide (ev_step e = last_step (duty_type (ev_duty e0)) fs)) as [Hs|Hs].
    + rewrite bool_decide_true by done. destruct (decide (step_err e = None)) as [Hn|Hn].
      * by rewrite bool_decide_true, decide_True.
      * rewrite bool_decide_false, decide_False by tauto. done.
    + rewrite bool_decide_false, decide_False by tauto. done.
  - split; [done|]. replace (omap _ STEPS) with (@nil Event); [done|]. symmetry.
    assert (forall k, (forall s, s ∈ k -> s ∈ STEPS) -> omap (fun s => by_step (e0 :: l) !! s ≫= last) k = []) as Hk.
    { induction k as [|s k IH]; intros Hin; [done|]. cbn -[by_step]. rewrite by_step_last, filter_none.
      - apply IH. intros ? ?. apply Hin. by right.
      - intros x Hx <-. apply (Hno x Hx). apply Hin. left. }
    by apply Hk.
Qed.

(** The participation of a duty counts, for each share, the validators it
    signed for, each once however often it signed, and separately the
    signatures that no scheduled duty explains. *)
Theorem participation_counts duty (all : Events) :
  let l := default [] (all !! duty) in
  let r := analyse_participation duty all in
  (forall s, counted (Z.of_nat (size (signers duty all l s))) (participated r !! s)) /\
  (forall s, counted (len (strays duty all l s)) (unexpected r !! s)) /\
  validators_per_duty r = Z.of_nat (size (list_to_set (ev_pubkey <$> l) : gset PubKey)).
Proof.
  intros l r. unfold r. rewrite participation_eq. fold l.
  pose proof (participation_fold duty all l) as Hf. destruct (foldl _ _ l) as [[part unexp] dedup].
  by destruct Hf as (_ & ? & ?).
Qed.

(** Whatever is reported, analysed and deleted, in whatever order: successes
    and misses of each peer add up to what was expected of it, and so do the
    successful and failed duties of each type. *)
Theorem metrics_consistent ps (l : list (TrackerInput (PubKey := PubKey) (Data := Data))) : consistent (t_metrics (tracker_run fs from_slot ps l)).
Proof.
  unfold tracker_run. induction l as [|i l IH] using rev_ind; [by split|].
  rewrite foldl_app. cbn [foldl]. destruct i as [ho d|d|e b1 b2]; cbn; [by apply consistent_analyse|done|].
  by repeat case_match.
Qed.

End facts.
