(* ===== verification/Inclusion.v ===== *)
(** * On-chain inclusion of duties

    The core of the inclusion checker ([crates/core/src/tracker/inclusion.rs]):
    duties that were submitted to the beacon node are cached, checked against
    the blocks that follow, and reported to the tracker as included or missed. *)

From S2P Require Import Prelude FeatureSet Types SszBits Tracker.

(** ** Data *)

Inductive InclusionError :=
| InvalidAttestation
| InvalidAggregateAndProof
| InvalidBlock
| DeprecatedDutyBuilderProposer
| NotIncludedOnChain
| NotAnAttestation
| ParseVersionedAggregate
| NoValidatorIndex
| NoAttesterDuty
| InvalidCommitteeBits
| MissingAttestation
| DecodeAggregationBits
| Bitfield (e : BitfieldError).

Inductive DataVersion := VUnknown | VPhase0 | VAltair | VBellatrix | VCapella | VDeneb | VElectra | VFulu.

#[global] Instance DataVersion_eq_dec : EqDecision DataVersion.
Proof. solve_decision. Defined.

(** [AttestationPayload], of the fork [pl_version]: its data, its aggregation
    bits as SSZ bytes, and from Electra on its committee bits. *)
Record AttestationPayload (AttData : Type) := {
  pl_version : DataVersion;
  pl_data : AttData;
  pl_aggregation_bits : list Z;
  pl_committee_bits : list Z;
}.
Arguments pl_version {AttData} _.
Arguments pl_data {AttData} _.
Arguments pl_aggregation_bits {AttData} _.
Arguments pl_committee_bits {AttData} _.

Record VersionedAttestation (AttData : Type) := {
  va_version : DataVersion;
  va_validator_index : option Z;
  va_attestation : option (AttestationPayload AttData);
}.
Arguments va_version {AttData} _.
Arguments va_validator_index {AttData} _.
Arguments va_attestation {AttData} _.

(** What a boxed [SignedData] can be downcast to, with what is read of it. *)
Inductive SubData (AttData : Type) :=
| DVersionedAttestation (att : VersionedAttestation AttData)
| DAttestation (data : AttData)
| DVersionedAggregate (data : option AttData) (aggregation_bits : option (list Z))
| DAggregate (data : AttData)
| DProposal (blinded synthetic : bool)
| DOther.
Arguments DVersionedAttestation {AttData} att.
Arguments DAttestation {AttData} data.
Arguments DVersionedAggregate {AttData} data aggregation_bits.
Arguments DAggregate {AttData} data.
Arguments DProposal {AttData} blinded synthetic.
Arguments DOther {AttData}.

Record AttesterDuty := { ad_validator_index : Z; ad_validator_committee_index : Z }.
Record BeaconCommittee := { bc_index : Z; bc_validators : list Z }.

Section inclusion.
Context {PubKey Root AttData : Type} `{Countable PubKey} `{Countable Root}.
(** [tree_hash_root] of attestation data, and the zero root. *)
Context (tree_hash_root : AttData -> Root) (zero_root : Root) (fs : FeatureSet).

#[local] Abbreviation SubData := (SubData AttData).
#[local] Abbreviation VersionedAttestation := (VersionedAttestation AttData).

Record Submission := {
  sub_duty : Duty;
  sub_pubkey : PubKey;
  sub_data : SubData;
  att_data_root : Root;
}.

Record Block := {
  b_slot : Z;
  att_duties : list AttesterDuty;
  attestations_by_data_root : gmap Root VersionedAttestation;
  b_committees : list BeaconCommittee;
}.

(** The calls to the three callbacks. *)
Inductive Callback :=
| Missed (sub : Submission)
| AttIncluded (sub : Submission) (block_slot : Z)
| TrackerIncl (duty : Duty) (pubkey : PubKey) (err : option InclusionError).

Record InclusionCore := {
  submissions : gmap (Duty * PubKey) Submission;
  beacon_committees : gmap Z (list BeaconCommittee);
  callbacks : list Callback;
}.

Definition core_new : InclusionCore := {| submissions := ∅; beacon_committees := ∅; callbacks := [] |}.

Definition emit (c : Callback) (s : InclusionCore) : InclusionCore := s <| callbacks ::= fun l => l ++ [c] |>.

(** The root a submission is matched by, or why it is refused; [None] for a
    synthetic proposal. *)
Definition submission_root (duty : Duty) (data : SubData) : res InclusionError (option Root) :=
  match duty_type duty with
  | Attester =>
      match data with
      | DVersionedAttestation att =>
          payload ← ok_or (va_attestation att) MissingAttestation;
          Ok (Some (tree_hash_root (pl_data payload)))
      | DAttestation d => Ok (Some (tree_hash_root d))
      | _ => Err InvalidAttestation
      end
  | Aggregator =>
      match data with
      | DVersionedAggregate d _ => d ← ok_or d InvalidAggregateAndProof; Ok (Some (tree_hash_root d))
      | DAggregate d => Ok (Some (tree_hash_root d))
      | _ => Err InvalidAggregateAndProof
      end
  | Proposer =>
      match data with
      | DProposal _ synthetic => Ok (if synthetic then None else Some zero_root)
      | _ => Err InvalidBlock
      end
  | BuilderProposer => Err DeprecatedDutyBuilderProposer
  | _ => Ok (Some zero_root)
  end.

Definition submitted (duty : Duty) (pubkey : PubKey) (data : SubData) : proc InclusionCore InclusionError unit :=
  if negb (bool_decide (duty_type duty ∈ incl_supported fs)) then mret tt
  else
    root ← p_lift (submission_root duty data);
    match root with
    | None => p_modify (emit (TrackerIncl duty pubkey None))
    | Some root =>
        p_modify (fun s => s <| submissions ::= insert (duty, pubkey)
          {| sub_duty := duty; sub_pubkey := pubkey; sub_data := data; att_data_root := root |} |>)
    end.

Definition trim_key (key : Duty * PubKey) : proc InclusionCore InclusionError unit :=
  s ← p_get;
  sub ← p_lift (expect (submissions s !! key));
  p_modify (fun s => s <| submissions ::= delete key |>) ;;
  p_modify (emit (Missed sub)) ;;
  p_modify (emit (TrackerIncl (sub_duty sub) (sub_pubkey sub) (Some NotIncludedOnChain))).

Definition stale_keys (ho : HashOrder) (slot_ : Z) (s : InclusionCore) : list (Duty * PubKey) :=
  (List.filter (fun ks => slot (sub_duty (snd ks)) <=? slot_) (ho_list ho (submissions s))).*1.

Definition trim (ho : HashOrder) (slot_ : Z) : proc InclusionCore InclusionError unit :=
  s ← p_get;
  p_for (stale_keys ho slot_ s) trim_key ;;
  p_modify (fun s => s <| beacon_committees ::= filter (fun kv => slot_ < fst kv) |>).

(** The keys of the proposals for a slot; panics on any other submission. *)
Fixpoint matched_keys (slot_ : Z) (l : list ((Duty * PubKey) * Submission)) : res InclusionError (list (Duty * PubKey)) :=
  match l with
  | [] => Ok []
  | (key, sub) :: l =>
      match duty_type (sub_duty sub) with
      | Proposer =>
          rest ← matched_keys slot_ l;
          Ok (if slot (sub_duty sub) =? slot_ then key :: rest else rest)
      | _ => Panic
      end
  end.

Definition check_block_key (found : bool) (key : Duty * PubKey) : proc InclusionCore InclusionError unit :=
  s ← p_get;
  match submissions s !! key with
  | Some sub =>
      match sub_data sub with
      | DProposal _ _ =>
          p_modify (fun s => s <| submissions ::= delete key |>) ;;
          (if found then mret tt else p_modify (emit (Missed sub))) ;;
          p_modify (emit (TrackerIncl (sub_duty sub) (sub_pubkey sub) None))
      | _ => mret tt
      end
  | None => mret tt
  end.

Definition check_block (ho : HashOrder) (slot_ : Z) (found : bool) : proc InclusionCore InclusionError unit :=
  s ← p_get;
  keys ← p_lift (matched_keys slot_ (ho_list ho (submissions s)));
  p_for keys (check_block_key found).

Definition MAX_AGG_BITS : Z := 131072.

Definition decode_bits (bytes : list Z) : res InclusionError BitList :=
  map_err (fun _ => DecodeAggregationBits) (Bits.from_ssz_bytes MAX_AGG_BITS bytes).

Definition block_att_agg_bits (att : VersionedAttestation) : res InclusionError (list Z) :=
  ok_or (pl_aggregation_bits <$> va_attestation att) MissingAttestation.

Definition electra_committee_index (payload : AttestationPayload AttData) : res InclusionError Z :=
  match pl_version payload with
  | VElectra | VFulu =>
      idxs ← Vector.bit_indices 64 (pl_committee_bits payload);
      match idxs with [idx] => Ok idx | _ => Err InvalidCommitteeBits end
  | _ => Err InvalidCommitteeBits
  end.

Definition previous_validators (committees : list BeaconCommittee) (committee_index : Z) : Z :=
  foldr Z.add 0 ((fun c => len (bc_validators c)) <$> take (Z.to_nat committee_index) committees).

Definition check_attestation_inclusion (sub : Submission) (block : Block) : res InclusionError bool :=
  match sub_data sub with
  | DVersionedAttestation sub_att =>
      match attestations_by_data_root block !! att_data_root sub with
      | None => Ok false
      | Some att =>
          payload ← ok_or (va_attestation sub_att) MissingAttestation;
          match va_version sub_att with
          | VPhase0 | VAltair | VBellatrix | VCapella | VDeneb =>
              sub_bits ← decode_bits (pl_aggregation_bits payload);
              bits ← block_att_agg_bits att;
              att_bits ← decode_bits bits;
              map_err Bitfield (Bits.contains att_bits sub_bits)
          | VElectra | VFulu =>
              validator_index ← ok_or (va_validator_index sub_att) NoValidatorIndex;
              duty ← ok_or (List.find (fun d => ad_validator_index d =? validator_index) (att_duties block)) NoAttesterDuty;
              bits ← block_att_agg_bits att;
              att_bits ← decode_bits bits;
              committee_index ← electra_committee_index payload;
              Bits.bit_at att_bits
                (Z.min U64_MAX (previous_validators (b_committees block) committee_index + ad_validator_committee_index duty))
          | VUnknown => Err NotAnAttestation
          end
      end
  | _ => Err NotAnAttestation
  end.

Definition check_aggregation_inclusion (sub : Submission) (block : Block) : res InclusionError bool :=
  match attestations_by_data_root block !! att_data_root sub with
  | None => Ok false
  | Some att =>
      bits ← block_att_agg_bits att;
      att_bits ← decode_bits bits;
      match sub_data sub with
      | DVersionedAggregate _ agg_bits =>
          agg_bits ← ok_or agg_bits ParseVersionedAggregate;
          sub_bits ← decode_bits agg_bits;
          map_err Bitfield (Bits.contains att_bits sub_bits)
      | _ => Err ParseVersionedAggregate
      end
  end.

Inductive Act := Include | ProposerInclude (blinded : bool).

(** What is to be done with a submission; an error of the check counts as
    included. *)
Definition act_of (sub : Submission) (block : Block) : res InclusionError (option Act) :=
  let checked (r : res InclusionError bool) :=
    match r with
    | Err _ | Ok true => Ok (Some Include)
    | Ok false => Ok None
    | Panic => Panic
    end in
  match duty_type (sub_duty sub) with
  | Attester => checked (check_attestation_inclusion sub block)
  | Aggregator => checked (check_aggregation_inclusion sub block)
  | Proposer =>
      if negb (slot (sub_duty sub) =? b_slot block) then Ok None
      else match sub_data sub with DProposal blinded _ => Ok (Some (ProposerInclude blinded)) | _ => Ok None end
  | _ => Panic
  end.

Fixpoint acts (block : Block) (l : list ((Duty * PubKey) * Submission)) : res InclusionError (list ((Duty * PubKey) * Act)) :=
  match l with
  | [] => Ok []
  | (key, sub) :: l =>
      a ← act_of sub block;
      rest ← acts block l;
      Ok (match a with Some a => (key, a) :: rest | None => rest end)
  end.

Definition run_act (block : Block) (ka : (Duty * PubKey) * Act) : proc InclusionCore InclusionError unit :=
  s ← p_get;
  sub ← p_lift (expect (submissions s !! fst ka));
  p_modify (fun s => s <| submissions ::= delete (fst ka) |>) ;;
  (match snd ka with
   | Include => p_modify (emit (AttIncluded sub (b_slot block)))
   | ProposerInclude _ => mret tt
   end) ;;
  p_modify (emit (TrackerIncl (sub_duty sub) (sub_pubkey sub) None)).

Definition INCL_MISSED_LAG : Z := 32.

Definition check_block_and_atts (ho : HashOrder) (block : Block) : proc InclusionCore InclusionError unit :=
  s ← p_get;
  l ← p_lift (acts block (ho_list ho (submissions s)));
  p_for l (run_act block) ;;
  (if INCL_MISSED_LAG <=? b_slot block
   then p_modify (fun s => s <| beacon_committees ::= delete (b_slot block - INCL_MISSED_LAG) |>)
   else mret tt).

(** The operations, and a run of them. *)
Inductive InclOp :=
| OpSubmitted (duty : Duty) (pubkey : PubKey) (data : SubData)
| OpTrim (ho : HashOrder) (slot_ : Z)
| OpCheckBlock (ho : HashOrder) (slot_ : Z) (found : bool)
| OpCheckBlockAndAtts (ho : HashOrder) (block : Block).

Definition incl_op (op : InclOp) : proc InclusionCore InclusionError unit :=
  match op with
  | OpSubmitted duty pubkey data => submitted duty pubkey data
  | OpTrim ho slot_ => trim ho slot_
  | OpCheckBlock ho slot_ found => check_block ho slot_ found
  | OpCheckBlockAndAtts ho block => check_block_and_atts ho block
  end.

Definition incl_run (ops : list InclOp) : InclusionCore := foldl (fun s op => fst (incl_op op s)) core_new ops.

End inclusion.
