(* ===== verification/InclusionFacts.v ===== *)
(** * Every submission is resolved once

    Over any run of the inclusion checker each submitted duty is reported to
    the tracker exactly once, included or not; and before Electra an
    attestation counts as included when its bits are among those on chain. *)

From S2P Require Import Prelude Bytes FeatureSet Types SszBits Tracker Inclusion.

Section facts.
Context {PubKey Root AttData : Type} `{Countable PubKey} `{Countable Root}.
Context (tree_hash_root : AttData -> Root) (zero_root : Root) (fs : FeatureSet).

#[local] Abbreviation Submission := (Submission (PubKey := PubKey) (Root := Root) (AttData := AttData)).
#[local] Abbreviation Block := (Block (Root := Root) (AttData := AttData)).
#[local] Abbreviation Core := (InclusionCore (PubKey := PubKey) (Root := Root) (AttData := AttData)).
#[local] Abbreviation Callback := (Callback (PubKey := PubKey) (Root := Root) (AttData := AttData)).
#[local] Abbreviation InclOp := (InclOp (PubKey := PubKey) (Root := Root) (AttData := AttData)).
#[local] Abbreviation submission_root := (submission_root tree_hash_root zero_root).
#[local] Abbreviation submitted := (submitted tree_hash_root zero_root fs).
#[local] Abbreviation incl_op := (incl_op tree_hash_root zero_root fs).
#[local] Abbreviation incl_run := (incl_run tree_hash_root zero_root fs).

(** ** Counting reports *)

Definition reports_key (k : Duty * PubKey) (c : Callback) : bool :=
  match c with TrackerIncl d pk _ => bool_decide ((d, pk) = k) | _ => false end.

(** How often the tracker was told about a duty of a validator. *)
Definition reports (k : Duty * PubKey) (s : Core) : nat := length (filter (fun c => reports_key k c) (callbacks s)).

Definition pending (k : Duty * PubKey) (s : Core) : nat := if decide (is_Some (submissions s !! k)) then 1 else 0.

(** What is cached is what was submitted. *)
Definition wf_core (s : Core) : Prop :=
  forall k sub, submissions s !! k = Some sub ->
    k = (sub_duty sub, sub_pubkey sub) /\ duty_type (sub_duty sub) ∈ incl_supported fs /\
    submission_root (sub_duty sub) (sub_data sub) = Ok (Some (att_data_root sub)).

(** A core that has resolved or still holds [f k] submissions for each key. *)
Definition tally (f : Duty * PubKey -> nat) (s : Core) : Prop :=
  wf_core s /\ forall k, (reports k s + pending k s)%nat = f k.

Lemma reports_emit k c s : reports k (emit c s) = (reports k s + if reports_key k c then 1 else 0)%nat.
Proof.
  unfold reports, emit; cbn. rewrite filter_app, length_app. f_equal. cbn.
  by destruct (reports_key k c).
Qed.

Lemma pending_delete k k' (s : Core) :
  pending k (s <| submissions ::= delete k' |>) = if decide (k' = k) then 0%nat else pending k s.
Proof.
  unfold pending; cbn. destruct (decide (k' = k)) as [->|Hne].
  - rewrite lookup_delete_eq. by rewrite decide_False by (by intros [? ?]).
  - by rewrite lookup_delete_ne.
Qed.

Lemma pending_emit k c s : pending k (emit c s) = pending k s.
Proof. done. Qed.

(** A submission leaves the cache with a report, and whatever else is told to
    the other callbacks. *)
Lemma tally_resolve f s key sub err (others : list Callback) :
  tally f s -> submissions s !! key = Some sub -> (forall k c, c ∈ others -> reports_key k c = false) ->
  tally f (emit (TrackerIncl (sub_duty sub) (sub_pubkey sub) err)
    (foldl (fun s c => emit c s) (s <| submissions ::= delete key |>) others)).
Proof.
  intros [Hwf Ht] Hk Ho. destruct (Hwf _ _ Hk) as (Hkey & _ & _).
  assert (forall (l : list Callback) (s0 : Core), submissions (foldl (fun s c => emit c s) s0 l) = submissions s0) as Hsub.
  { induction l as [|c l IH]; intros s0; [done|]. cbn. by rewrite IH. }
  assert (forall k (l : list Callback) (s0 : Core), (forall c, c ∈ l -> reports_key k c = false) ->
    reports k (foldl (fun s c => emit c s) s0 l) = reports k s0) as Hrep.
  { intros k. induction l as [|c l IH]; intros s0 Hl; [done|]. cbn.
    rewrite IH, reports_emit, Hl, Nat.add_0_r by set_solver. done. }
  split.
  - intros k sub'. cbn. rewrite Hsub. cbn. intros [_ Hl]%lookup_delete_Some. by apply Hwf.
  - intros k. rewrite reports_emit, pending_emit, Hrep by auto.
    unfold pending at 1. rewrite Hsub. fold (pending k (s <| submissions ::= delete key |>)).
    rewrite pending_delete, <-Ht. cbn [reports_key]. rewrite <-Hkey. destruct (decide (key = k)) as [->|Hne].
    + rewrite bool_decide_true by done. unfold pending. rewrite decide_True by (rewrite Hk; by eexists).
      unfold reports; cbn. lia.
    + rewrite bool_decide_false by done. unfold reports; cbn. lia.
Qed.

Lemma keeps_trim_key f key : keeps (tally f) (trim_key key : proc Core InclusionError unit).
Proof.
  unfold trim_key. apply keeps_get. intros s Hs. destruct (submissions s !! key) as [sub|] eqn:Hk; [|done].
  proc_simp. cbn [expect]. apply (tally_resolve f s key sub _ [Missed sub]); [done..|].
  intros k c Hc%list_elem_of_singleton. by subst c.
Qed.

Lemma keeps_check_block_key f found key : keeps (tally f) (check_block_key found key : proc Core InclusionError unit).
Proof.
  unfold check_block_key. apply keeps_get. intros s Hs. destruct (submissions s !! key) as [sub|] eqn:Hk; [|done].
  destruct (sub_data sub); try done. proc_simp. destruct found; proc_simp.
  - apply (tally_resolve f s key sub _ []); [done..|]. by intros k c ?%elem_of_nil.
  - apply (tally_resolve f s key sub _ [Missed sub]); [done..|]. intros k c Hc%list_elem_of_singleton. by subst c.
Qed.

Lemma keeps_run_act f block ka : keeps (tally f) (run_act block ka : proc Core InclusionError unit).
Proof.
  unfold run_act. apply keeps_get. intros s Hs. destruct (submissions s !! fst ka) as [sub|] eqn:Hk; [|done].
  proc_simp. cbn [expect]. destruct (snd ka); proc_simp.
  - apply (tally_resolve f s (fst ka) sub _ [AttIncluded sub (b_slot block)]); [done..|].
    intros k c Hc%list_elem_of_singleton. by subst c.
  - apply (tally_resolve f s (fst ka) sub _ []); [done..|]. by intros k c ?%elem_of_nil.
Qed.

Lemma keeps_committees f g : keeps (tally f) (p_modify (fun s : Core => s <| beacon_committees ::= g |>) : proc Core InclusionError unit).
Proof. by intros s [? ?]. Qed.

(** Everything but a submission keeps the tally. *)
Lemma keeps_op f op :
  match op with OpSubmitted _ _ _ => False | _ => True end -> keeps (tally f) (incl_op op).
Proof.
  destruct op as [| ho n|ho n found|ho block]; intros Hop; [done|..]; cbn.
  - apply keeps_get. intros s Hs. apply (keeps_bind (tally f)); [|intros []; apply keeps_committees|done].
    apply keeps_for. intros k _. apply keeps_trim_key.
  - apply keeps_get. intros s Hs. apply (keeps_bind (tally f)); [apply keeps_lift| |done].
    intros keys. apply keeps_for. intros k _. apply keeps_check_block_key.
  - apply keeps_get. intros s Hs. apply (keeps_bind (tally f)); [apply keeps_lift| |done].
    intros l. apply keeps_bind; [apply keeps_for; intros ka _; apply keeps_run_act|].
    intros []. case_match; [apply keeps_committees|apply keeps_ret].
Qed.

(** Whether a call of [submitted] records or reports its duty. *)
Definition accepts (k : Duty * PubKey) (op : InclOp) : bool :=
  match op with
  | OpSubmitted duty pubkey data =>
      bool_decide ((duty, pubkey) = k) && bool_decide (duty_type duty ∈ incl_supported fs) &&
      is_Ok (submission_root duty data)
  | _ => false
  end.

Definition accepted (k : Duty * PubKey) (ops : list InclOp) : nat := length (filter (fun op => accepts k op) ops).

Lemma submitted_tally f duty pubkey data s :
  tally f s -> (accepts (duty, pubkey) (OpSubmitted duty pubkey data) = true -> pending (duty, pubkey) s = 0%nat) ->
  tally (fun k => f k + if accepts k (OpSubmitted duty pubkey data) then 1 else 0)%nat (fst (submitted duty pubkey data s)).
Proof.
  intros [Hwf Ht] Hp. unfold submitted, accepts in *. destruct (decide (duty_type duty ∈ incl_supported fs)) as [Hin|Hin].
  2: { rewrite bool_decide_false in * by done. cbn. split; [done|]. intros k. rewrite andb_false_r. cbn. by rewrite Nat.add_0_r. }
  rewrite bool_decide_true in * by done. cbn [negb]. proc_simp.
  destruct (submission_root duty data) as [[root|]|e|] eqn:Hr; cbn [is_Ok] in *.
  - specialize (Hp ltac:(by rewrite bool_decide_true)). split.
    + intros k sub. cbn. intros [[<- <-]|[_ Hl]]%lookup_insert_Some; [done|by apply Hwf].
    + intros k. rewrite <-Ht, !andb_true_r. unfold pending, reports in *; cbn.
      destruct (decide ((duty, pubkey) = k)) as [<-|Hne].
      * rewrite lookup_insert_eq, bool_decide_true, decide_True by eauto. lia.
      * rewrite lookup_insert_ne, bool_decide_false by done. lia.
  - split; [done|]. intros k. cbn [fst p_modify]. rewrite reports_emit, pending_emit, <-Ht, !andb_true_r. cbn. lia.
  - split; [done|]. intros k. rewrite !andb_false_r. cbn. by rewrite Nat.add_0_r.
  - split; [done|]. intros k. rewrite !andb_false_r. cbn. by rewrite Nat.add_0_r.
Qed.

Lemma accepted_snoc k ops op : accepted k (ops ++ [op]) = (accepted k ops + if accepts k op then 1 else 0)%nat.
Proof. unfold accepted. rewrite filter_app, length_app. f_equal. cbn. by destruct (accepts k op). Qed.

Lemma tally_ext f g s : (forall k, f k = g k) -> tally f s -> tally g s.
Proof. intros Hfg [? Ht]. split; [done|]. intros k. by rewrite <-Hfg. Qed.

Lemma run_tally ops : (forall k, (accepted k ops <= 1)%nat) -> tally (fun k => accepted k ops) (incl_run ops).
Proof.
  induction ops as [|op ops IH] using rev_ind; intros Hu; [by split|].
  unfold incl_run. rewrite foldl_app. cbn [foldl]. fold (incl_run ops).
  assert (tally (fun k => accepted k ops) (incl_run ops)) as Ht.
  { apply IH. intros k. specialize (Hu k). rewrite accepted_snoc in Hu. lia. }
  eapply tally_ext; [intros k; symmetry; apply accepted_snoc|].
  destruct op as [duty pubkey data| | |]; [|by apply (tally_ext (fun k => accepted k ops)); [intros; cbn; lia|apply keeps_op]..].
  apply submitted_tally; [done|]. intros Ha. specialize (Hu (duty, pubkey)). rewrite accepted_snoc, Ha in Hu.
  destruct Ht as [_ Ht]. specialize (Ht (duty, pubkey)). cbn in Ht. lia.
Qed.

(** ** Trimming *)

Lemma trim_keys l (s : Core) :
  NoDup l -> (forall k, k ∈ l -> is_Some (submissions s !! k)) ->
  exists s', p_for l trim_key s = (s', Ok tt) /\
    forall k, submissions s' !! k = if decide (k ∈ l) then None else submissions s !! k.
Proof.
  intros Hl. revert s. induction Hl as [|key l Hk Hl IH]; intros s Hin; cbn [p_for].
  { exists s. split; [done|]. intros k. by rewrite decide_False by (by intros ?%elem_of_nil). }
  destruct (Hin key) as [sub Hsub]; [left|].
  assert (trim_key key s = (emit (TrackerIncl (sub_duty sub) (sub_pubkey sub) (Some NotIncludedOnChain))
    (emit (Missed sub) (s <| submissions ::= delete key |>)), Ok tt)) as Ht.
  { unfold trim_key. proc_simp. by rewrite Hsub. }
  rewrite (proc_step _ _ _ _ _ Ht). match goal with |- context [p_for l trim_key ?s1] => destruct (IH s1) as (s' & Hs' & Hl') end.
  { intros k Hkl. cbn. rewrite lookup_delete_ne; [apply Hin; by right|]. by intros ->. }
  exists s'. split; [done|]. intros k. rewrite Hl'. cbn. destruct (decide (k ∈ l)) as [Hkl|Hkl].
  - by rewrite decide_True by (by right).
  - destruct (decide (k = key)) as [->|Hne]; [rewrite lookup_delete_eq, decide_True by left; done|].
    rewrite lookup_delete_ne, decide_False; [done| |done]. intros [?|?]%elem_of_cons; done.
Qed.

Lemma stale_keys_spec ho n (s : Core) :
  NoDup (stale_keys ho n s) /\
  forall k, k ∈ stale_keys ho n s <-> exists sub, submissions s !! k = Some sub /\ slot (sub_duty sub) <= n.
Proof.
  unfold stale_keys.
  assert (forall k sub, (k, sub) ∈ ho_list ho (submissions s) <-> submissions s !! k = Some sub) as Hin.
  { intros k sub. rewrite ho_perm. apply elem_of_map_to_list. }
  assert (NoDup (ho_list ho (submissions s)).*1) as Hnd.
  { rewrite ho_perm. apply NoDup_fst_map_to_list. }
  split.
  - clear Hin. induction (ho_list ho (submissions s)) as [|[k sub] l IH]; cbn in *; [constructor|].
    apply NoDup_cons in Hnd as [Hk Hnd]. case_match; [|by apply IH]. cbn. constructor; [|by apply IH].
    rewrite list_elem_of_fmap. intros ([k' sub'] & -> & [Hin _]%list_elem_of_In%filter_In). apply Hk.
    apply list_elem_of_fmap. exists (k', sub'). split; [done|]. by apply list_elem_of_In.
  - intros k. rewrite list_elem_of_fmap. split.
    + intros ([k' sub] & -> & [Hl Hs]%list_elem_of_In%filter_In). exists sub.
      rewrite <-Hin. split; [by apply list_elem_of_In|by apply Z.leb_le].
    + intros (sub & Hs & Hle). exists (k, sub). split; [done|]. apply list_elem_of_In, filter_In.
      rewrite <-list_elem_of_In, Hin. split; [done|by apply Z.leb_le].
Qed.

(** Trimming succeeds and leaves exactly the later submissions. *)
Lemma trim_spec ho n (s : Core) :
  exists s', trim ho n s = (s', Ok tt) /\
    forall k sub, submissions s' !! k = Some sub <-> submissions s !! k = Some sub /\ n < slot (sub_duty sub).
Proof.
  destruct (stale_keys_spec ho n s) as [Hnd Hk]. destruct (trim_keys (stale_keys ho n s) s) as (s' & Hs' & Hl); [done| |].
  { intros k (sub & -> & _)%Hk. by eexists. }
  eexists. split.
  { unfold trim. rewrite proc_get, (proc_step _ _ _ _ _ Hs'). done. }
  intros k sub. cbn. rewrite Hl. case_decide as Hin.
  - apply Hk in Hin as (sub' & Hs & ?). rewrite Hs. split; [done|]. intros [? ?]. simplify_eq. lia.
  - split; [|by intros [? _]]. intros Hs. split; [done|]. apply Z.nle_gt. intros Hle. apply Hin, Hk. by exists sub.
Qed.

(** ** Aggregation bits *)

Definition att_bytes_ok (bytes : list Z) : Prop := Forall is_byte bytes /\ 8 * len bytes <= U64_MAX.

Lemma decode_bits_wf bytes b : att_bytes_ok bytes -> decode_bits bytes = Ok b -> wf b.
Proof.
  intros [Hb Hsize]. unfold decode_bits. destruct (Bits.from_ssz_bytes MAX_AGG_BITS bytes) as [b'| |] eqn:Hd; intros [= ->].
  destruct (decode_inv _ _ _ Hb Hsize Hd) as (bs & x & -> & Hx & Hn & Hm).
  destruct (decode_spec MAX_AGG_BITS bs x) as (b' & E' & Hwf & _); [done..|]. rewrite E' in Hd. by injection Hd as <-.
Qed.

Definition before_electra (v : DataVersion) : bool :=
  match v with VPhase0 | VAltair | VBellatrix | VCapella | VDeneb => true | _ => false end.

(** ** Theorems *)


(** Before Electra, a submitted attestation whose data is on chain counts as
    included exactly when all its bits are among those of the attestation on
    chain. *)
Theorem attestation_included (sub : Submission) (block : Block) sub_att att p q a b :
  sub_data sub = DVersionedAttestation sub_att -> before_electra (va_version sub_att) = true ->
  va_attestation sub_att = Some p -> attestations_by_data_root block !! att_data_root sub = Some att ->
  va_attestation att = Some q -> att_bytes_ok (pl_aggregation_bits p) -> att_bytes_ok (pl_aggregation_bits q) ->
  decode_bits (pl_aggregation_bits p) = Ok a -> decode_bits (pl_aggregation_bits q) = Ok b -> bit_len a = bit_len b ->
  check_attestation_inclusion sub block = Ok (bool_decide (members a ⊆ members b)).
Proof.
  intros Hd Hv Hp Hatt Hq Hbp Hbq Ha Hb Hl. unfold check_attestation_inclusion, block_att_agg_bits.
  rewrite Hd, Hatt, Hp, Hq. cbn [ok_or mbind res_bind fmap option_fmap option_map].
  assert (map_err Bitfield (Bits.contains b a) = Ok (bool_decide (members a ⊆ members b))) as Hc.
  { rewrite contains_members; [done|by apply (decode_bits_wf _ _ Hbq)|by apply (decode_bits_wf _ _ Hbp)|done]. }
  destruct (va_version sub_att); try done; by rewrite Ha, Hb.
Qed.

End facts.

Module InclusionSample.

Definition features : FeatureSet := match from_config config_default with Ok fs => fs | _ => {| fs_state := ∅; fs_min_status := Stable |} end.
Definition duty : Duty := {| slot := 3; duty_type := Proposer |}.

(** A proposal that no block includes. *)
Definition ops : list (InclOp (PubKey := Z) (Root := Z) (AttData := Z)) :=
  [OpSubmitted duty 7 (DProposal false false); OpCheckBlock default_order 2 true].


(** One of three validators attested; on chain are two of them. *)
Definition payload (bits : list Z) : AttestationPayload Z :=
  {| pl_version := VDeneb; pl_data := 1; pl_aggregation_bits := bits; pl_committee_bits := [] |}.
Definition attestation (bits : list Z) : VersionedAttestation Z :=
  {| va_version := VDeneb; va_validator_index := None; va_attestation := Some (payload bits) |}.
Definition sub : Submission (PubKey := Z) (Root := Z) (AttData := Z) :=
  {| sub_duty := duty; sub_pubkey := 7; sub_data := DVersionedAttestation (attestation [12]); att_data_root := 1 |}.
Definition block : Block (Root := Z) (AttData := Z) :=
  {| b_slot := 4; att_duties := []; attestations_by_data_root := {[1 := attestation [13]]}; b_committees := [] |}.

Lemma attestation_included_witness : check_attestation_inclusion sub block = Ok true.
Proof.
  rewrite (attestation_included sub block (attestation [12]) (attestation [13]) (payload [12]) (payload [13])
    {| bytes := [4]; bit_len := 3 |} {| bytes := [5]; bit_len := 3 |}); try done;
    try (by vm_compute); (split; [by repeat constructor|by vm_compute]).
Defined.

End InclusionSample.
