(* ===== verification/DutyDefs.v ===== *)
(** * Duty definitions

    The duty definitions of [crates/core/src/types.rs] with their conversions
    from the loosely typed answers of a beacon node, in which every number and
    every key is text.  The records of the answers are those of the generated
    beacon-node client, as far as the conversions read them. *)

From S2P Require Import Prelude Bytes Types Version.
From Stdlib Require Import Ascii.

Open Scope Z_scope.

(** [EthBeaconNodeApiClientError], without the errors of the event stream. *)
Inductive ApiError :=
| RequestError
| UnexpectedResponse
| UnexpectedType
| ParseError (field : string)
| ZeroSlotDurationOrSlotsPerEpoch
| DomainTypeNotFound (domain : string).

(** The answer of an endpoint that returns a list: the data, another status
    code, or no answer at all. *)
Inductive Response (A : Type) :=
| ResOk (data : list A)
| ResOther
| ResFail.
Arguments ResOk {A} _.
Arguments ResOther {A}.
Arguments ResFail {A}.

(** [.map_err(RequestError)] and the match on the variant of the response. *)
Definition response_data {A} (r : Response A) : res ApiError (list A) :=
  match r with
  | ResOk data => Ok data
  | ResOther => Err UnexpectedResponse
  | ResFail => Err RequestError
  end.

(** [str::parse::<u64>]: an optional plus sign and at least one digit. *)
Definition parse_u64 (s : string) : option Z :=
  match s with
  | "" => None
  | String c rest =>
      if Ascii.eqb c "+"%char then match rest with "" => None | _ => parse_digits 0 rest end
      else parse_digits 0 s
  end%string.

Definition parse_field (field s : string) : res ApiError Z := ok_or (parse_u64 s) (ParseError field).

Abbreviation PubKey := (list Z).

(** ** Attester duties *)

(** [signeddata::AttesterDuty] *)
Record AttesterDuty := {
  ad_slot : Z;
  ad_validator_index : Z;
  ad_committee_index : Z;
  ad_committee_length : Z;
  ad_committees_at_slot : Z;
  ad_validator_committee_index : Z;
}.

Record AttesterDutyDefinition := { at_pubkey : PubKey; at_duty : AttesterDuty }.

Record AttesterDatum := {
  adt_pubkey : string;
  adt_validator_index : string;
  adt_slot : string;
  adt_committee_index : string;
  adt_committee_length : string;
  adt_committees_at_slot : string;
  adt_validator_committee_index : string;
}.

Record ProposerDutyDefinition := { pr_pubkey : PubKey; pr_v_idx : Z; pr_slot : Z }.

Record ProposerDatum := { pdt_pubkey : string; pdt_validator_index : string; pdt_slot : string }.

Record SyncCommitteeDutyDefinition := {
  sy_pubkey : PubKey;
  sy_validator_index : Z;
  sy_validator_sync_committee_indices : list Z;
}.

Record SyncDatum := {
  sdt_pubkey : string;
  sdt_validator_index : string;
  sdt_validator_sync_committee_indices : list string;
}.

Inductive DutyDefinition :=
| DefAttester (d : AttesterDutyDefinition)
| DefProposer (d : ProposerDutyDefinition)
| DefSyncCommittee (d : SyncCommitteeDutyDefinition).

Abbreviation DutyDefinitionSet := (gmap PubKey DutyDefinition).

Section conversions.
Context (hex_decode : string -> option (list Z)).

Definition parse_pubkey_field (s : string) : res ApiError PubKey :=
  map_err (fun _ => ParseError "pubkey") (pubkey_of_str hex_decode s).

Definition attester_of_datum (value : AttesterDatum) : res ApiError AttesterDutyDefinition :=
  pubkey ← parse_pubkey_field (adt_pubkey value);
  validator_index ← parse_field "validator_index" (adt_validator_index value);
  slot ← parse_field "slot" (adt_slot value);
  committee_index ← parse_field "committee_index" (adt_committee_index value);
  committee_length ← parse_field "committee_length" (adt_committee_length value);
  committees_at_slot ← parse_field "committees_at_slot" (adt_committees_at_slot value);
  validator_committee_index ←
    parse_field "validator_committee_index" (adt_validator_committee_index value);
  Ok {| at_pubkey := pubkey;
        at_duty := {| ad_slot := slot; ad_validator_index := validator_index;
                      ad_committee_index := committee_index;
                      ad_committee_length := committee_length;
                      ad_committees_at_slot := committees_at_slot;
                      ad_validator_committee_index := validator_committee_index |} |}.

Definition proposer_of_datum (value : ProposerDatum) : res ApiError ProposerDutyDefinition :=
  pubkey ← parse_pubkey_field (pdt_pubkey value);
  v_idx ← parse_field "validator_index" (pdt_validator_index value);
  slot ← parse_field "slot" (pdt_slot value);
  Ok {| pr_pubkey := pubkey; pr_v_idx := v_idx; pr_slot := slot |}.

Definition sync_of_datum (value : SyncDatum) : res ApiError SyncCommitteeDutyDefinition :=
  pubkey ← parse_pubkey_field (sdt_pubkey value);
  validator_index ← parse_field "validator_index" (sdt_validator_index value);
  indices ← collect (parse_field "validator_sync_committee_indices")
              (sdt_validator_sync_committee_indices value);
  Ok {| sy_pubkey := pubkey; sy_validator_index := validator_index;
        sy_validator_sync_committee_indices := indices |}.
End conversions.

(** ** Lemmas *)

Lemma collect_Ok {E A B} (f : A -> res E B) l ys :
  collect f l = Ok ys <-> Forall2 (fun x y => f x = Ok y) l ys.
Proof.
  revert ys. induction l as [|x l IH]; intros ys; cbn.
  - split; [intros [= <-]; constructor|by inversion 1].
  - split.
    + intros H. inv_res. subst. constructor; [done|]. by apply IH.
    + inversion 1 as [|? y ? ys' Hy Hys]; subst. rewrite Hy. cbn. apply IH in Hys. by rewrite Hys.
Qed.
