(* ===== verification/ValCache.v ===== *)
(** * The validator cache

    [crates/eth2api/src/valcache.rs]: the validators of the cluster as the
    beacon node reported them last.  [get_by_head] fetches without a lock and
    checks again before it stores, so calls interleave; the tasks that share a
    cache are modelled as a sequence of their locked sections. *)

From S2P Require Import Prelude Bytes Types Version DutyDefs.

Open Scope Z_scope.

(** The statuses the code distinguishes; the others are opaque. *)
Inductive ValidatorStatus :=
| ActiveOngoing
| ActiveExiting
| ActiveSlashed
| OtherStatus (name : string).

Definition is_active (s : ValidatorStatus) : bool :=
  match s with ActiveOngoing | ActiveExiting | ActiveSlashed => true | OtherStatus _ => false end.

(** [GetStateValidatorsResponseResponseDatum] *)
Record ValidatorDatum := {
  vd_index : string;
  vd_status : ValidatorStatus;
  vd_pubkey : string;
  vd_activation_epoch : string;
}.

Abbreviation ActiveValidators := (gmap Z PubKey).
Abbreviation CompleteValidators := (gmap Z ValidatorDatum).

Record CachedValidators := {
  active : option ActiveValidators;
  complete : option CompleteValidators;
}.

Definition cache_default : CachedValidators := {| active := None; complete := None |}.

(** [PostStateValidatorsRequest] *)
Record ValidatorsRequest := { state_id : string; ids : list string }.

Section valcache.
Context (hex_encode : list Z -> string) (hex_decode : string -> option (list Z)).
Context (ho : HashOrder).

Definition format_pubkey (pk : PubKey) : string := ("0x" +:+ hex_encode pk)%string.

Definition parse_pubkey (s : string) : res ApiError PubKey :=
  bytes ← ok_or (hex_decode (strip_0x s)) UnexpectedType;
  if len bytes =? PK_LEN then Ok bytes else Err UnexpectedType.

Definition index_datum (d : ValidatorDatum) : res ApiError (Z * ValidatorDatum) :=
  index ← ok_or (parse_u64 (vd_index d)) UnexpectedType;
  Ok (index, d).

(** A later entry replaces an earlier one with its key, as in [collect]. *)
Definition map_of_entries {A} (l : list (Z * A)) : gmap Z A :=
  foldl (fun m '(k, v) => <[k := v]> m) ∅ l.

Definition validators_from_response (data : list ValidatorDatum)
    : res ApiError (ActiveValidators * CompleteValidators) :=
  entries ← collect index_datum data;
  let all_validators := map_of_entries entries in
  actives ← collect (fun '(index, v) => pubkey ← parse_pubkey (vd_pubkey v); Ok (index, pubkey))
              (filter (fun '(_, v) => is_active (vd_status v)) (ho_list ho all_validators));
  Ok (map_of_entries actives, all_validators).

Abbreviation Proc := (proc CachedValidators ApiError).

Definition trim : Proc unit := p_modify (fun _ => cache_default).

Definition request (state_id : string) (pubkeys : list PubKey) : ValidatorsRequest :=
  {| state_id := state_id; ids := format_pubkey <$> pubkeys |}.

(** The section of [get_by_head] under the read lock: a warm cache answers. *)
Definition head_cached (c : CachedValidators) : option (ActiveValidators * CompleteValidators) :=
  match active c, complete c with
  | Some a, Some m => Some (a, m)
  | _, _ => None
  end.

(** The rest of [get_by_head], from the response on. *)
Definition head_finish (response : Response ValidatorDatum)
    : Proc (ActiveValidators * CompleteValidators) :=
  data ← p_lift (response_data response);
  '(a, m) ← p_lift (validators_from_response data);
  c ← p_get;
  match head_cached c with
  | Some r => mret r
  | None => p_modify (fun _ => {| active := Some a; complete := Some m |});; mret (a, m)
  end.

Definition get_by_head (post : ValidatorsRequest -> Response ValidatorDatum) (pubkeys : list PubKey)
    : Proc (ActiveValidators * CompleteValidators) :=
  c ← p_get;
  match head_cached c with
  | Some r => mret r
  | None => head_finish (post (request "head" pubkeys))
  end.

(** The cache is locked for the whole call. *)
Definition get_by_slot (post : ValidatorsRequest -> Response ValidatorDatum) (pubkeys : list PubKey)
    (slot : Z) : Proc (ActiveValidators * CompleteValidators * bool) :=
  '(data, refreshed_by_slot) ←
    match post (request (show_usize slot) pubkeys) with
    | ResOk data => mret (data, true)
    | _ => data ← p_lift (response_data (post (request "head" pubkeys))); mret (data, false)
    end;
  '(a, m) ← p_lift (validators_from_response data);
  p_modify (fun _ => {| active := Some a; complete := Some m |});;
  mret (a, m, refreshed_by_slot).

(** ** Concurrent callers

    Callers of [get_by_head] that missed are only counted: they hold no state
    besides. *)
Inductive CacheEvent :=
| EvRead
| EvFinish (response : Response ValidatorDatum)
| EvBySlot (post : ValidatorsRequest -> Response ValidatorDatum) (pubkeys : list PubKey) (slot : Z)
| EvTrim.

Record CacheSystem := { cache : CachedValidators; fetching : nat }.

(** One event, with the value it returns to its caller. *)
Definition cache_step (e : CacheEvent) (s : CacheSystem)
    : option (CacheSystem * option (ActiveValidators * CompleteValidators)) :=
  match e with
  | EvRead =>
      match head_cached (cache s) with
      | Some r => Some (s, Some r)
      | None => Some ({| cache := cache s; fetching := S (fetching s) |}, None)
      end
  | EvFinish response =>
      match fetching s with
      | O => None
      | S n =>
          let '(c, r) := head_finish response (cache s) in
          Some ({| cache := c; fetching := n |}, match r with Ok v => Some v | _ => None end)
      end
  | EvBySlot post pubkeys slot =>
      let '(c, r) := get_by_slot post pubkeys slot (cache s) in
      Some ({| cache := c; fetching := fetching s |},
            match r with Ok (a, m, _) => Some (a, m) | _ => None end)
  | EvTrim =>
      let '(c, _) := trim (cache s) in Some ({| cache := c; fetching := fetching s |}, None)
  end.

(** A run: the final state and what the callers got. *)
Fixpoint cache_run (es : list CacheEvent) (s : CacheSystem)
    : option (CacheSystem * list (ActiveValidators * CompleteValidators)) :=
  match es with
  | [] => Some (s, [])
  | e :: es =>
      '(s, r) ← cache_step e s;
      '(s, rs) ← cache_run es s;
      Some (s, match r with Some v => v :: rs | None => rs end)
  end.

(** What the two maps of the cache promise together: the active validators are
    those of the complete ones with an active status, under their index. *)
Definition coherent (r : ActiveValidators * CompleteValidators) : Prop :=
  (forall i d, r.2 !! i = Some d -> parse_u64 (vd_index d) = Some i) /\
  (forall i pk, r.1 !! i = Some pk <->
     exists d, r.2 !! i = Some d /\ is_active (vd_status d) = true /\ parse_pubkey (vd_pubkey d) = Ok pk) /\
  (forall i d, r.2 !! i = Some d -> is_active (vd_status d) = true -> is_Some (r.1 !! i)).

(** The events that do not invalidate the cache. *)
Definition refreshes (e : CacheEvent) : bool :=
  match e with EvRead | EvFinish _ => false | EvBySlot _ _ _ | EvTrim => true end.

(** ** Theorems *)

Lemma map_of_entries_foldl {A} (l : list (Z * A)) (m : gmap Z A) i x :
  foldl (fun m '(k, v) => <[k := v]> m) m l !! i = Some x ->
  (i, x) ∈ l \/ m !! i = Some x.
Proof.
  revert m. induction l as [|[k v] l IH]; intros m; cbn; [by right|].
  intros [H|H]%IH; [left; by apply list_elem_of_further|].
  rewrite lookup_insert in H. case_decide; [|by right].
  simplify_eq. left. apply list_elem_of_here.
Qed.

Lemma map_of_entries_Some {A} (l : list (Z * A)) i x :
  map_of_entries l !! i = Some x -> (i, x) ∈ l.
Proof. intros [H|H]%map_of_entries_foldl; [done|by rewrite lookup_empty in H]. Qed.

Lemma map_of_entries_dom {A} (l : list (Z * A)) i x :
  (i, x) ∈ l -> is_Some (map_of_entries l !! i).
Proof.
  unfold map_of_entries. generalize (∅ : gmap Z A) as m.
  induction l as [|[k v] l IH]; intros m; cbn; [by intros ?%not_elem_of_nil|].
  rewrite elem_of_cons. intros [[= <- <-]|H]; [|by apply IH].
  clear IH. assert (is_Some (<[i:=x]> m !! i)) as Hm by (rewrite lookup_insert_eq; eauto).
  revert Hm. generalize (<[i:=x]> m). clear. induction l as [|[k v] l IH]; intros m Hm; cbn; [done|].
  apply IH. rewrite lookup_insert. case_decide; eauto.
Qed.

(** Entries without a key twice are found as they are. *)
Lemma map_of_entries_unique {A} (l : list (Z * A)) i x :
  (forall y, (i, y) ∈ l -> y = x) -> (i, x) ∈ l -> map_of_entries l !! i = Some x.
Proof.
  intros Hu Hin. destruct (map_of_entries_dom l i x Hin) as [y Hy].
  rewrite Hy. f_equal. apply Hu. by apply map_of_entries_Some.
Qed.

Lemma collect_elem {E A B} (f : A -> res E B) l ys y :
  collect f l = Ok ys -> (y ∈ ys <-> exists x, x ∈ l /\ f x = Ok y).
Proof.
  intros H%collect_Ok. split.
  - intros Hy. apply list_elem_of_lookup in Hy as [k Hk].
    destruct (Forall2_lookup_r _ _ _ _ _ H Hk) as (x & Hx & Hf).
    exists x. split; [|done]. by eapply list_elem_of_lookup_2.
  - intros (x & Hx & Hf). apply list_elem_of_lookup in Hx as [k Hk].
    destruct (Forall2_lookup_l _ _ _ _ _ H Hk) as (y' & Hy' & Hf').
    replace y with y' by congruence. by eapply list_elem_of_lookup_2.
Qed.

Lemma validators_from_response_coherent data r :
  validators_from_response data = Ok r -> coherent r.
Proof.
  unfold validators_from_response. intros H. inv_res. subst r. cbn.
  rename x into entries, x0 into actives.
  match goal with H : collect index_datum _ = Ok _ |- _ => rename H into He end.
  match goal with H : collect _ (filter _ _) = Ok _ |- _ => rename H into Ha end.
  assert (forall i pk, (i, pk) ∈ actives <-> exists d, map_of_entries entries !! i = Some d /\
            is_active (vd_status d) = true /\ parse_pubkey (vd_pubkey d) = Ok pk) as Hact.
  { intros i pk. rewrite (collect_elem _ _ _ _ Ha). split.
    - intros ([j d] & Hd & Hp). apply list_elem_of_filter in Hd as [Hs Hd].
      rewrite ho_perm in Hd. apply elem_of_map_to_list in Hd. inv_res. simplify_eq.
      exists d. split_and!; [done|by apply Is_true_true|done].
    - intros (d & Hd & Hs & Hp). exists (i, d). rewrite Hp. split; [|done].
      apply list_elem_of_filter. split; [by apply Is_true_true|].
      rewrite ho_perm. by apply elem_of_map_to_list. }
  split_and!; cbn.
  - intros i d Hd%map_of_entries_Some. apply (collect_elem _ _ _ _ He) in Hd as (d' & _ & Hd').
    unfold index_datum in Hd'. inv_res. by simplify_eq.
  - intros i pk. split; [by intros ?%map_of_entries_Some%Hact|].
    intros Hd. apply map_of_entries_unique; [|by apply Hact].
    intros pk' (d' & Hd' & _ & Hp')%Hact. destruct Hd as (d & Hd & _ & Hp). congruence.
  - intros i d Hd Hs.
    assert ((i, d) ∈ filter (fun '(_, v) => is_active (vd_status v)) (ho_list ho (map_of_entries entries))) as Hin.
    { apply list_elem_of_filter. split; [by apply Is_true_true|].
      rewrite ho_perm. by apply elem_of_map_to_list. }
    apply collect_Ok in Ha. apply list_elem_of_lookup in Hin as [k Hk].
    destruct (Forall2_lookup_l _ _ _ _ _ Ha Hk) as ([j pk] & Hj & Hp). inv_res. simplify_eq.
    eapply map_of_entries_dom, list_elem_of_lookup_2, Hj.
Qed.

(** The cache is cold, or holds one coherent answer. *)
Definition cache_ok (c : CachedValidators) : Prop :=
  c = cache_default \/ exists r, c = {| active := Some r.1; complete := Some r.2 |} /\ coherent r.

Lemma head_cached_ok c r : cache_ok c -> head_cached c = Some r -> coherent r.
Proof. by intros [->|([a m] & -> & Hr)]; [|intros [= <-]]. Qed.

Lemma head_finish_ok response c c' r :
  cache_ok c -> head_finish response c = (c', r) ->
  cache_ok c' /\ (forall v, head_cached c = Some v -> c' = c) /\
  (forall v, r = Ok v -> coherent v /\ head_cached c' = Some v).
Proof.
  intros Hc. unfold head_finish, mbind, proc_bind, p_lift, mret, proc_ret, p_modify, p_get.
  destruct (response_data response) as [data|e|]; cbn; [|intros [= <- <-]; split_and!; done..].
  destruct (validators_from_response data) as [[a m]|e|] eqn:Ev; cbn;
    [|intros [= <- <-]; split_and!; done..].
  destruct (head_cached c) as [v|] eqn:Eh; cbn; intros [= <- <-].
  - split_and!; [done|done|]. intros ? [= <-]. eauto using head_cached_ok.
  - apply validators_from_response_coherent in Ev. split_and!; [|done|].
    + right. exists (a, m). done.
    + intros v [= <-]. done.
Qed.

Lemma get_by_slot_ok post pubkeys slot c c' r :
  cache_ok c -> get_by_slot post pubkeys slot c = (c', r) ->
  cache_ok c' /\ (forall a m b, r = Ok (a, m, b) -> coherent (a, m) /\ head_cached c' = Some (a, m)).
Proof.
  intros Hc. unfold get_by_slot, mbind, proc_bind, p_lift, mret, proc_ret, p_modify, p_get.
  intros H. repeat case_match; simplify_eq/=; try done;
    match goal with H : validators_from_response _ = Ok _ |- _ =>
      apply validators_from_response_coherent in H as Hv end;
    (split; [right; by eexists (_, _)|intros ? ? ? [=]; by subst]).
Qed.

Lemma cache_step_ok e s s' r :
  cache_ok (cache s) -> cache_step e s = Some (s', r) ->
  cache_ok (cache s') /\ (forall v, r = Some v -> coherent v /\ head_cached (cache s') = Some v) /\
  (refreshes e = false -> forall v, head_cached (cache s) = Some v -> cache s' = cache s).
Proof.
  intros Hc. destruct e as [|response|post pubkeys slot|]; cbn.
  - destruct (head_cached (cache s)) as [v|] eqn:Eh; intros [= <- <-]; cbn; [|done].
    split_and!; [done| |done]. intros ? [= <-]. eauto using head_cached_ok.
  - destruct (fetching s) as [|n]; [done|].
    destruct (head_finish response (cache s)) as [c res] eqn:Ef. intros [= <- <-]. cbn.
    destruct (head_finish_ok _ _ _ _ Hc Ef) as (Hc' & Hw & Hr). split_and!; [done| |eauto].
    destruct res as [v|e|]; intros ? [=]; subst; by apply Hr.
  - destruct (get_by_slot post pubkeys slot (cache s)) as [c res] eqn:Ef. intros [= <- <-]. cbn.
    destruct (get_by_slot_ok _ _ _ _ _ _ Hc Ef) as (Hc' & Hr). split_and!; [done| |done].
    destruct res as [[[a m] b]|e|]; intros ? [=]; subst; by eapply Hr.
  - intros [= <- <-]. split_and!; [by left|done|done].
Qed.

Lemma warm_run es s s' rs v :
  cache_ok (cache s) -> head_cached (cache s) = Some v ->
  forallb (fun e => negb (refreshes e)) es = true -> cache_run es s = Some (s', rs) ->
  Forall (eq v) rs.
Proof.
  revert s rs. induction es as [|e es IH]; intros s rs Hc Hv Hes; cbn; [intros [= <- <-]; constructor|].
  cbn in Hes. apply andb_true_iff in Hes as [He%negb_true_iff Hes].
  destruct (cache_step e s) as [[s1 r]|] eqn:Es; cbn; [|done].
  destruct (cache_run es s1) as [[s2 rs']|] eqn:Er; cbn; [|done]. intros [= <- <-].
  destruct (cache_step_ok _ _ _ _ Hc Es) as (Hc1 & Hr & Hw). pose proof (Hw He _ Hv) as E1.
  assert (Forall (eq v) rs') by (eapply IH; [..|exact Er]; [done|by rewrite E1|done]).
  destruct r as [v'|]; [|done]. constructor; [|done].
  destruct (Hr v' eq_refl) as [_ Hv']. congruence.
Qed.

(** However the callers interleave, each of them gets a coherent pair: the
    active validators are exactly the complete ones with an active status. *)
Theorem cached_validators_coherent es s s' rs :
  cache_ok (cache s) -> cache_run es s = Some (s', rs) -> cache_ok (cache s') /\ Forall coherent rs.
Proof.
  revert s rs. induction es as [|e es IH]; intros s rs Hc; cbn; [by intros [= <- <-]|].
  destruct (cache_step e s) as [[s1 r]|] eqn:Es; cbn; [|done].
  destruct (cache_run es s1) as [[s2 rs']|] eqn:Er; cbn; [|done]. intros [= <- <-].
  destruct (cache_step_ok _ _ _ _ Hc Es) as (Hc1 & Hr & _).
  destruct (IH _ _ Hc1 Er) as [? ?]. split; [done|].
  destruct r as [v|]; [|done]. constructor; [by apply Hr|done].
Qed.

(** Callers that fetched at the same time all get the same answer, until the
    cache is trimmed or refreshed: the second check keeps the first value. *)
Theorem cached_validators_agree es s s' rs :
  cache_ok (cache s) -> forallb (fun e => negb (refreshes e)) es = true ->
  cache_run es s = Some (s', rs) -> forall v w, v ∈ rs -> w ∈ rs -> v = w.
Proof.
  revert s rs. induction es as [|e es IH]; intros s rs Hc Hes; cbn.
  { intros [= <- <-] v w ?%not_elem_of_nil. done. }
  cbn in Hes. apply andb_true_iff in Hes as [He Hes].
  destruct (cache_step e s) as [[s1 r]|] eqn:Es; cbn; [|done].
  destruct (cache_run es s1) as [[s2 rs']|] eqn:Er; cbn; [|done]. intros [= <- <-].
  destruct (cache_step_ok _ _ _ _ Hc Es) as (Hc1 & Hr & _).
  destruct r as [x|]; [|by eapply IH].
  destruct (Hr x eq_refl) as [_ Hx].
  assert (Forall (eq x) (x :: rs')) as Hall.
  { constructor; [done|]. by eapply warm_run. }
  rewrite Forall_forall in Hall. intros v w Hv Hw. rewrite <-(Hall v), <-(Hall w); done.
Qed.
End valcache.

(** Two callers miss, and the beacon node answers them differently. *)
Module ValCacheSample.

Definition datum (pk : Z) (st : ValidatorStatus) : ValidatorDatum :=
  {| vd_index := "5"; vd_status := st; vd_pubkey := pubkey_to_string hex_text (replicate 48 pk);
     vd_activation_epoch := "0" |}.

Definition events : list CacheEvent :=
  [EvRead; EvRead; EvFinish (ResOk [datum 7 ActiveOngoing]);
   EvFinish (ResOk [datum 7 ActiveExiting; datum 8 (OtherStatus "exited_slashed")]); EvRead].

Definition outcome := cache_run hex_text hex_parse default_order events
  {| cache := cache_default; fetching := 0 |}.

Lemma cached_validators_agree_witness :
  match outcome with
  | Some (_, rs) => length rs = 3%nat /\ forall v w, v ∈ rs -> w ∈ rs -> v = w
  | None => False
  end.
Proof.
  assert (match outcome with Some (_, rs) => length rs = 3%nat | None => False end) as Hl
    by (vm_compute; reflexivity).
  destruct outcome as [[s rs]|] eqn:E; [|exact Hl]. split; [exact Hl|].
  exact (cached_validators_agree hex_text hex_parse default_order events
    {| cache := cache_default; fetching := 0 |} s rs (or_introl eq_refl) eq_refl E).
Defined.

Lemma cached_validators_coherent_witness :
  match outcome with
  | Some (_, rs) => Forall (coherent hex_parse) rs
  | _ => False
  end.
Proof.
  destruct outcome as [[s rs]|] eqn:E.
  - exact (proj2 (cached_validators_coherent hex_text hex_parse default_order events
      {| cache := cache_default; fetching := 0 |} s rs (or_introl eq_refl) E)).
  - vm_compute in E. discriminate E.
Defined.
End ValCacheSample.
