(* ===== verification/Scheduler.v ===== *)
(** * The scheduler

    [crates/core/src/scheduler.rs]: the actor that resolves the duties of an
    epoch with the beacon node, triggers them slot by slot and answers queries
    for their definitions; the slot ticker that drives it; and the broadcast
    channels its subscribers listen to. *)

From S2P Require Import Prelude Bytes Types Version DutyDefs ValCache.

Open Scope Z_scope.

Definition TRIM_EPOCH_OFFSET : Z := 3.

Inductive SchedulerError :=
| EthBeaconNodeApiClientError (e : ApiError)
| ValidatorCacheError (e : ApiError)
| SchedPubKeyError (e : PubKeyError)
| InvalidDutyPubkey (expected actual : PubKey)
| SchedDeprecatedDutyBuilderProposer
| EpochAlreadyTrimmed (epoch : Z) (duty : Duty)
| EpochNotResolved (epoch : Z) (duty : Duty)
| DutyNotFound (epoch : Z) (duty : Duty)
| Terminated.

(** The duty constructors of [types.rs] the scheduler uses. *)
Definition new_attester_duty (slot : Z) : Duty := {| slot := slot; duty_type := Attester |}.
Definition new_aggregator_duty (slot : Z) : Duty := {| slot := slot; duty_type := Aggregator |}.
Definition new_proposer_duty (slot : Z) : Duty := {| slot := slot; duty_type := Proposer |}.
Definition new_sync_contribution_duty (slot : Z) : Duty :=
  {| slot := slot; duty_type := SyncContribution |}.

Record Validator := { v_pubkey : PubKey; v_v_idx : Z }.

(** What the beacon node answers while the duties of a slot are resolved: the
    complete validators of the cache and the three duty endpoints. *)
Record BeaconAnswers := {
  ans_validators : res ApiError CompleteValidators;
  ans_attester : Response AttesterDatum;
  ans_proposer : Response ProposerDatum;
  ans_sync : Response SyncDatum;
}.

(** A function that cannot fail, used where errors have another type. *)
Definition total {E A} (r : res unit A) : res E A :=
  match r with Ok x => Ok x | _ => Panic end.

Section fetch.
Context (hex_decode : string -> option (list Z)) (ho : HashOrder).

(** ** Fetching *)

Fixpoint active_loop (epoch : Z) (entries : list (Z * ValidatorDatum))
    : res SchedulerError (list Validator) :=
  match entries with
  | [] => Ok []
  | (index, val) :: rest =>
      pubkey ← map_err SchedPubKeyError (pubkey_of_str hex_decode (vd_pubkey val));
      wanted ←
        (if is_active (vd_status val) then Ok true
         else activation_epoch ← map_err EthBeaconNodeApiClientError
                (parse_field "activation_epoch" (vd_activation_epoch val));
              Ok (activation_epoch =? epoch));
      vs ← active_loop epoch rest;
      Ok (if wanted : bool then {| v_pubkey := pubkey; v_v_idx := index |} :: vs else vs)
  end.

Definition resolve_active_validators (epoch : Z) (complete : res ApiError CompleteValidators)
    : res SchedulerError (list Validator) :=
  complete ← map_err ValidatorCacheError complete;
  active_loop epoch (ho_list ho complete).

Definition find_pubkey (validators : list Validator) (v_idx : Z) : option PubKey :=
  v_pubkey <$> List.find (fun v => v_v_idx v =? v_idx) validators.

(** The data of a response, converted. *)
Definition convert {A B} (f : A -> res ApiError B) (r : Response A) : res SchedulerError (list B) :=
  map_err EthBeaconNodeApiClientError
    (data ← response_data r; collect (fun d => map_err (fun _ => UnexpectedResponse) (f d)) data).

Fixpoint attester_loop (slot : Slot) (validators : list Validator)
    (l : list AttesterDutyDefinition) : res SchedulerError (list AttesterDutyDefinition) :=
  match l with
  | [] => Ok []
  | d :: l =>
      if ad_slot (at_duty d) <? sl_slot slot then attester_loop slot validators l
      else match find_pubkey validators (ad_validator_index (at_duty d)) with
      | None => attester_loop slot validators l
      | Some pubkey =>
          if decide (pubkey = at_pubkey d) then
            result ← attester_loop slot validators l; Ok (d :: result)
          else Err (InvalidDutyPubkey pubkey (at_pubkey d))
      end
  end.

Definition fetch_attester_duties (slot : Slot) (validators : list Validator)
    (resp : Response AttesterDatum) : res SchedulerError (list AttesterDutyDefinition) :=
  att_duties ← convert (attester_of_datum hex_decode) resp;
  attester_loop slot validators att_duties.

Fixpoint proposer_loop (slot : Slot) (validators : list Validator)
    (l : list ProposerDutyDefinition) : res SchedulerError (list ProposerDutyDefinition) :=
  match l with
  | [] => Ok []
  | d :: l =>
      if pr_slot d <? sl_slot slot then proposer_loop slot validators l
      else match find_pubkey validators (pr_v_idx d) with
      | None => proposer_loop slot validators l
      | Some pubkey =>
          if decide (pubkey = pr_pubkey d) then
            result ← proposer_loop slot validators l; Ok (d :: result)
          else Err (InvalidDutyPubkey pubkey (pr_pubkey d))
      end
  end.

Definition fetch_proposer_duties (slot : Slot) (validators : list Validator)
    (resp : Response ProposerDatum) : res SchedulerError (list ProposerDutyDefinition) :=
  pro_duties ← convert (proposer_of_datum hex_decode) resp;
  proposer_loop slot validators pro_duties.

Fixpoint sync_loop (validators : list Validator) (l : list SyncCommitteeDutyDefinition)
    : res SchedulerError (list SyncCommitteeDutyDefinition) :=
  match l with
  | [] => Ok []
  | d :: l =>
      match find_pubkey validators (sy_validator_index d) with
      | None => sync_loop validators l
      | Some pubkey =>
          if decide (pubkey = sy_pubkey d) then
            result ← sync_loop validators l; Ok (d :: result)
          else Err (InvalidDutyPubkey pubkey (sy_pubkey d))
      end
  end.

Definition fetch_sync_committee_duties (validators : list Validator)
    (resp : Response SyncDatum) : res SchedulerError (list SyncCommitteeDutyDefinition) :=
  sync_duties ← convert (sync_of_datum hex_decode) resp;
  sync_loop validators sync_duties.
End fetch.

(** ** The actor *)

(** [SchedulerActor]; [triggered] are the tasks it spawned, which broadcast
    their duty once [delay_slot_offset] has passed, and [ticked] the slots it
    broadcast. *)
Record SchedulerActor := {
  slots_per_epoch : Z;
  resolved_epoch : Z;
  duties : gmap Duty DutyDefinitionSet;
  duties_by_epoch : gmap Z (list Duty);
  ticked : list Slot;
  triggered : list (Duty * DutyDefinitionSet);
}.

Definition actor_new (slots_per_epoch : Z) : SchedulerActor :=
  {| slots_per_epoch := slots_per_epoch; resolved_epoch := U64_MAX; duties := ∅;
     duties_by_epoch := ∅; ticked := []; triggered := [] |}.

Section actor.
Context (hex_decode : string -> option (list Z)) (ho : HashOrder).

Abbreviation Proc := (proc SchedulerActor SchedulerError).

Definition set_duty_definition (duty : Duty) (epoch : Z) (pub_key : PubKey)
    (definition : DutyDefinition) : Proc bool :=
  st ← p_get;
  let def_set : DutyDefinitionSet := default ∅ (duties st !! duty) in
  match def_set !! pub_key with
  | Some _ => mret false
  | None =>
      p_modify (fun st : SchedulerActor =>
        st <| duties ::= insert duty (<[pub_key := definition]> def_set) |>
           <| duties_by_epoch ::= push_at epoch duty |>);;
      mret true
  end.

Definition trim_duties (epoch : Z) : Proc unit :=
  st ← p_get;
  match duties_by_epoch st !! epoch with
  | None => mret tt
  | Some ds =>
      p_modify (fun st : SchedulerActor =>
        st <| duties_by_epoch ::= delete epoch |>
           <| duties ::= fun m => foldl (fun m d => delete d m) m ds |>)
  end.

Definition is_epoch_trimmed (st : SchedulerActor) (epoch : Z) : bool :=
  if resolved_epoch st =? U64_MAX then false
  else Z.min (epoch + TRIM_EPOCH_OFFSET) U64_MAX <=? resolved_epoch st.

Definition is_epoch_resolved (st : SchedulerActor) (epoch : Z) : bool :=
  if resolved_epoch st =? U64_MAX then false else epoch <=? resolved_epoch st.

Definition handle_chain_reorg (epoch : Z) : Proc unit :=
  st ← p_get;
  if epoch <? resolved_epoch st then
    trim_duties (resolved_epoch st);;
    p_modify (fun st : SchedulerActor => st <| resolved_epoch := U64_MAX |>)
  else mret tt.

Definition get_duty_definition (duty : Duty) : Proc DutyDefinitionSet :=
  st ← p_get;
  if decide (duty_type duty = BuilderProposer) then p_fail SchedDeprecatedDutyBuilderProposer
  else
    epoch ← p_lift (if slots_per_epoch st =? 0 then Panic else Ok (slot duty / slots_per_epoch st));
    if negb (is_epoch_resolved st epoch) then p_fail (EpochNotResolved epoch duty)
    else if is_epoch_trimmed st epoch then p_fail (EpochAlreadyTrimmed epoch duty)
    else p_lift (ok_or (duties st !! duty) (DutyNotFound epoch duty)).

(** [slot.iter().take_while(|other| other.epoch() == slot.epoch())].  The
    remaining slots of an epoch are at most [slots_per_epoch]. *)
Fixpoint take_epoch (epoch : Z) (l : list Slot) : list Slot :=
  match l with
  | [] => []
  | s :: l =>
      match Types.epoch s with
      | Ok e => if e =? epoch then s :: take_epoch epoch l else []
      | _ => []
      end
  end.

Definition epoch_slots (slot : Slot) (epoch : Z) : list Slot :=
  take_epoch epoch (slot_iter (Z.to_nat (sl_per_epoch slot)) slot).

Definition resolve_attester (epoch : Z) (d : AttesterDutyDefinition) : Proc unit :=
  set ← set_duty_definition (new_attester_duty (ad_slot (at_duty d))) epoch (at_pubkey d)
          (DefAttester d);
  if set : bool then
    set_duty_definition (new_aggregator_duty (ad_slot (at_duty d))) epoch (at_pubkey d)
      (DefAttester d);;
    mret tt
  else mret tt.

Definition resolve_proposer (epoch : Z) (d : ProposerDutyDefinition) : Proc unit :=
  set_duty_definition (new_proposer_duty (pr_slot d)) epoch (pr_pubkey d) (DefProposer d);;
  mret tt.

Definition resolve_sync (slot : Slot) (epoch : Z) (d : SyncCommitteeDutyDefinition) : Proc unit :=
  p_for (epoch_slots slot epoch) (fun sl =>
    sl_epoch ← p_lift (total (Types.epoch sl));
    set_duty_definition (new_sync_contribution_duty (sl_slot sl)) sl_epoch (sy_pubkey d)
      (DefSyncCommittee d);;
    mret tt).

Definition resolve_duties (ans : BeaconAnswers) (slot : Slot) : Proc unit :=
  epoch ← p_lift (total (Types.epoch slot));
  vals ← p_lift (resolve_active_validators hex_decode ho epoch (ans_validators ans));
  match vals with
  | [] => p_modify (fun st : SchedulerActor => st <| resolved_epoch := epoch |>)
  | _ =>
      att_duties ← p_lift (fetch_attester_duties hex_decode slot vals (ans_attester ans));
      p_for att_duties (resolve_attester epoch);;
      pro_duties ← p_lift (fetch_proposer_duties hex_decode slot vals (ans_proposer ans));
      p_for pro_duties (resolve_proposer epoch);;
      sync_duties ← p_lift (fetch_sync_committee_duties hex_decode vals (ans_sync ans));
      p_for sync_duties (resolve_sync slot epoch);;
      p_modify (fun st : SchedulerActor => st <| resolved_epoch := epoch |>);;
      if TRIM_EPOCH_OFFSET <=? epoch then trim_duties (epoch - TRIM_EPOCH_OFFSET) else mret tt
  end.

(** The duties of a slot, in the order of [DutyType::all]. *)
Definition slot_duties (st : SchedulerActor) (sl : Z) : list (Duty * DutyDefinitionSet) :=
  omap (fun t => let duty := {| slot := sl; duty_type := t |} in
                 (fun def_set => (duty, def_set)) <$> duties st !! duty) all_duty_types.

(** [if let Err(err) = ... { warn }] *)
Definition ignore_err (m : Proc unit) : Proc unit := p_catch m (fun _ => mret tt).

Definition schedule_slot (ans ans_next : BeaconAnswers) (slot : Slot) : Proc unit :=
  epoch ← p_lift (total (Types.epoch slot));
  st ← p_get;
  (if resolved_epoch st =? epoch then mret tt else ignore_err (resolve_duties ans slot));;
  p_modify (fun st : SchedulerActor => st <| triggered ::= fun l => l ++ slot_duties st (sl_slot slot) |>);;
  last ← p_lift (total (last_in_epoch slot));
  if last : bool then ignore_err (resolve_duties ans_next (next_slot slot)) else mret tt.

(** The messages of the loop [run]; a query carries no state of its own, its
    answer is the outcome of the step. *)
Inductive SchedulerEvent :=
| EvReorg (epoch : Z)
| EvGet (duty : Duty)
| EvSlot (slot : Slot) (ans ans_next : BeaconAnswers).

Definition run_event (e : SchedulerEvent)
    : Proc (option (res SchedulerError DutyDefinitionSet)) :=
  match e with
  | EvReorg epoch => handle_chain_reorg epoch;; mret None
  | EvGet duty =>
      p_catch (def_set ← get_duty_definition duty; mret (Some (Ok def_set)))
        (fun err => mret (Some (Err err)))
  | EvSlot slot ans ans_next =>
      p_modify (fun st : SchedulerActor => st <| ticked ::= fun l => l ++ [slot] |>);;
      schedule_slot ans ans_next slot;;
      mret None
  end.

(** The queues the loop selects from. *)
Record Inbox := {
  cancelled : bool;
  reorg_rx : list Z;
  msg_rx : list Duty;
  slot_rx : list (Slot * BeaconAnswers * BeaconAnswers);
}.

(** The biased [select!]: a cancellation first, then reorgs, queries, slots. *)
Definition select (q : Inbox) : option (SchedulerEvent * Inbox) :=
  if cancelled q then None
  else match reorg_rx q, msg_rx q, slot_rx q with
  | e :: l, _, _ => Some (EvReorg e, q <| reorg_rx := l |>)
  | [], d :: l, _ => Some (EvGet d, q <| msg_rx := l |>)
  | [], [], (s, a, b) :: l => Some (EvSlot s a b, q <| slot_rx := l |>)
  | [], [], [] => None
  end.

(** [SchedulerHandle::get_duty_definition]: a query that the actor drops with
    its channels fails. *)
Definition handle_get (alive : bool) (duty : Duty) (st : SchedulerActor)
    : res SchedulerError DutyDefinitionSet :=
  if alive then (get_duty_definition duty st).2 else Err Terminated.
End actor.

(** ** Delays

    When the task of a triggered duty broadcasts it: at its deadline, if that
    has not passed. *)
Definition delay_slot_offset (slot : Slot) (duty : Duty) (now : Z) : Z :=
  match duty_type duty with
  | Attester => Z.max now (sl_time slot + sl_duration slot / 3)
  | Aggregator | SyncContribution => Z.max now (sl_time slot + sl_duration slot * 2 / 3)
  | _ => now
  end.

(** ** The slot ticker

    Times are nanoseconds, as in [chrono]; [genesis_time] and [slot_duration]
    come from the beacon node. *)
Section ticker.
Context (genesis_time slot_duration spe : Z).

Definition num_milliseconds (d : Z) : Z := Z.quot d 1000000.

Definition current_slot (now : Z) : res unit Slot :=
  let chain_age := now - genesis_time in
  let slot_ms := num_milliseconds slot_duration in
  slot ← expect (checked_div_i64 (num_milliseconds chain_age) slot_ms);
  start_offset ← expect (checked_mul_i64 slot slot_ms);
  Ok {| sl_slot := slot mod 2 ^ 64; sl_time := genesis_time + start_offset * 1000000;
        sl_duration := slot_duration; sl_per_epoch := spe |}.

(** One round of the loop, after the sleep until [slot.time]: the slot it
    sends and the one it waits for next. *)
Definition ticker_step (slot : Slot) (now : Z) : res unit (Slot * Slot) :=
  slot ← (if sl_time (next_slot slot) <? now then current_slot now else Ok slot);
  Ok (slot, next_slot slot).

(** The slots sent when the sleeps end at the times [nows]. *)
Fixpoint ticker_run (slot : Slot) (nows : list Z) : res unit (list Slot) :=
  match nows with
  | [] => Ok []
  | now :: nows =>
      '(sent, next) ← ticker_step slot now;
      rest ← ticker_run next nows;
      Ok (sent :: rest)
  end.
End ticker.

(** ** Waiting for the chain *)

(** [wait_chain_start]: the sleep once the genesis time is known. *)
Definition wait_chain_start (genesis_time now : Z) : Z := Z.max now genesis_time.

(** [wait_beacon_sync] on the successive answers of the node ([None]: another
    response); no outcome yet while the node is syncing. *)
Fixpoint wait_beacon_sync (answers : list (option bool)) : option (res SchedulerError unit) :=
  match answers with
  | [] => None
  | None :: _ => Some (Err (EthBeaconNodeApiClientError UnexpectedResponse))
  | Some true :: rest => wait_beacon_sync rest
  | Some false :: _ => Some (Ok tt)
  end.

(** ** Broadcast channels

    [tokio::sync::broadcast] keeps the last [cap] values; a subscriber that is
    further behind gets [Lagged] and its task ends. *)
Section subscribers.
Context {A : Type} (cap : nat).

Record Subscriber := { position : nat; ended : bool; delivered : list A }.

Definition subscribe (sent : list A) : Subscriber :=
  {| position := length sent; ended := false; delivered := [] |}.

(** One round of a subscriber's loop, on all values sent so far; [closed] when
    the scheduler has dropped its sender. *)
Definition subscriber_step (sent : list A) (closed : bool) (s : Subscriber) : Subscriber :=
  if ended s then s
  else match sent !! position s with
  | Some x =>
      if (cap <? length sent - position s)%nat then s <| ended := true |>
      else s <| position ::= S |> <| delivered ::= fun l => l ++ [x] |>
  | None => if closed then s <| ended := true |> else s
  end.
End subscribers.

(** ** Validator status metric

    The last status reported per key and the gauge series it left at one. *)
Record StatusMetric := {
  last_status : gmap PubKey string;
  gauge : gmap (PubKey * string) Z;
}.

Definition submit_validator_status_metric (pubkey : PubKey) (status : string) (m : StatusMetric)
    : StatusMetric :=
  let m := match last_status m !! pubkey with
    | Some prev =>
        if decide (prev = status) then m
        else m <| gauge ::= insert (pubkey, prev) 0 |> <| last_status ::= insert pubkey status |>
    | None => m <| last_status ::= insert pubkey status |>
    end in
  m <| gauge ::= insert (pubkey, status) 1 |>.
