(* ===== verification/SchedulerFacts.v ===== *)
(** * What the scheduler triggers

    Against a beacon node that tells the truth when it answers, the scheduler
    triggers in each slot exactly the duties of that slot, whatever the
    failures, reorganisations and queries before it; and it answers queries
    with the same definitions.  The slot ticker never sends a slot early, late
    by more than a slot, or twice. *)

From S2P Require Import Prelude Bytes Types Version DutyDefs ValCache Scheduler.
From Stdlib Require Import Sorting.Sorted.

Open Scope Z_scope.

(** ** The truth

    The validators and duties of every epoch, as lists of what the endpoints
    answer. *)
Record Chain := {
  ch_spe : Z;
  ch_vals : Z -> gmap Z PubKey;
  ch_att : Z -> list AttesterDutyDefinition;
  ch_pro : Z -> list ProposerDutyDefinition;
  ch_syn : Z -> list SyncCommitteeDutyDefinition;
}.

(** The endpoints list the duties of the epoch they are asked for, with the keys
    of the validators. *)
Record chain_ok (ch : Chain) : Prop := {
  co_spe : 0 < ch_spe ch;
  co_att : forall e d, d ∈ ch_att ch e -> ad_slot (at_duty d) / ch_spe ch = e;
  co_pro : forall e d, d ∈ ch_pro ch e -> pr_slot d / ch_spe ch = e;
  co_att_key : forall e d pk, d ∈ ch_att ch e ->
    ch_vals ch e !! ad_validator_index (at_duty d) = Some pk -> at_pubkey d = pk;
  co_pro_key : forall e d pk, d ∈ ch_pro ch e -> ch_vals ch e !! pr_v_idx d = Some pk -> pr_pubkey d = pk;
  co_syn_key : forall e d pk, d ∈ ch_syn ch e ->
    ch_vals ch e !! sy_validator_index d = Some pk -> sy_pubkey d = pk;
}.

Definition epoch_of (ch : Chain) (d : Duty) : Z := slot d / ch_spe ch.

(** The definition a duty has for a validator: the first one the beacon node
    lists for an active validator with that key. *)
Definition due (ch : Chain) (d : Duty) (pk : PubKey) : option DutyDefinition :=
  let e := epoch_of ch d in
  match duty_type d with
  | Attester | Aggregator =>
      DefAttester <$> List.find (fun x => bool_decide (ad_slot (at_duty x) = slot d) &&
        bool_decide (at_pubkey x = pk) &&
        bool_decide (ch_vals ch e !! ad_validator_index (at_duty x) = Some pk)) (ch_att ch e)
  | Proposer =>
      DefProposer <$> List.find (fun x => bool_decide (pr_slot x = slot d) &&
        bool_decide (pr_pubkey x = pk) &&
        bool_decide (ch_vals ch e !! pr_v_idx x = Some pk)) (ch_pro ch e)
  | SyncContribution =>
      DefSyncCommittee <$> List.find (fun x => bool_decide (sy_pubkey x = pk) &&
        bool_decide (ch_vals ch e !! sy_validator_index x = Some pk)) (ch_syn ch e)
  | _ => None
  end.

(** The entry of a duty for a validator in the actor's table. *)
Definition entry (st : SchedulerActor) (d : Duty) (pk : PubKey) : option DutyDefinition :=
  duties st !! d ≫= (.!! pk).

Section facts.
Context (hex_decode : string -> option (list Z)) (ho : HashOrder) (ch : Chain).

(** Answers for an epoch that are the truth wherever they are answers. *)
Record truthful (e : Z) (ans : BeaconAnswers) : Prop := {
  tr_returns : ans_validators ans <> Panic;
  tr_vals : forall vs, resolve_active_validators hex_decode ho e (ans_validators ans) = Ok vs ->
    forall i, find_pubkey vs i = ch_vals ch e !! i;
  tr_att : forall l, convert (attester_of_datum hex_decode) (ans_attester ans) = Ok l -> l = ch_att ch e;
  tr_pro : forall l, convert (proposer_of_datum hex_decode) (ans_proposer ans) = Ok l -> l = ch_pro ch e;
  tr_syn : forall l, convert (sync_of_datum hex_decode) (ans_sync ans) = Ok l -> l = ch_syn ch e;
}.

(** Every duty of the table is listed under its epoch, and only there. *)
Definition indexed (st : SchedulerActor) : Prop :=
  (forall d set, duties st !! d = Some set ->
     set <> ∅ /\ exists l, duties_by_epoch st !! epoch_of ch d = Some l /\ d ∈ l) /\
  (forall e l d, duties_by_epoch st !! e = Some l -> d ∈ l -> epoch_of ch d = e).

(** Attesters and aggregators of a slot have the same entries. *)
Definition paired (st : SchedulerActor) : Prop :=
  forall s pk, entry st (new_attester_duty s) pk = entry st (new_aggregator_duty s) pk.

(** The invariant, when all slots from [now] on are still to come. *)
Record Inv (now : Z) (st : SchedulerActor) : Prop := {
  i_spe : slots_per_epoch st = ch_spe ch;
  i_indexed : indexed st;
  i_paired : paired st;
  i_sound : forall d pk def, entry st d pk = Some def -> due ch d pk = Some def;
  i_complete : forall d pk, resolved_epoch st <> U64_MAX -> epoch_of ch d = resolved_epoch st ->
    now <= slot d -> entry st d pk = due ch d pk;
}.

(** ** Adding entries

    [adds f st st']: the table gained the entries [f] where it had none. *)
Record adds (f : Duty -> PubKey -> option DutyDefinition) (st st' : SchedulerActor) : Prop := {
  g_spe : slots_per_epoch st' = slots_per_epoch st;
  g_resolved : resolved_epoch st' = resolved_epoch st;
  g_ticked : ticked st' = ticked st;
  g_triggered : triggered st' = triggered st;
  g_entry : forall d pk, entry st' d pk = union (entry st d pk) (f d pk);
  g_indexed : indexed st -> indexed st';
}.

Lemma adds_refl st : adds (fun _ _ => None) st st.
Proof. constructor; try done. intros d pk. by destruct (entry st d pk). Qed.

Lemma adds_trans f g st1 st2 st3 :
  adds f st1 st2 -> adds g st2 st3 -> adds (fun d pk => union (f d pk) (g d pk)) st1 st3.
Proof.
  intros [A1 A2 A3 A4 A5 A6] [B1 B2 B3 B4 B5 B6]. constructor; auto; try congruence.
  intros d pk. rewrite B5, A5. by destruct (entry st1 d pk), (f d pk), (g d pk).
Qed.

Lemma adds_ext f g st st' : (forall d pk, f d pk = g d pk) -> adds f st st' -> adds g st st'.
Proof. intros Hfg []. constructor; try done. intros d pk. by rewrite <-Hfg. Qed.

(** One definition for one key. *)
Definition one (d0 : Duty) (pk0 : PubKey) (def : DutyDefinition) (d : Duty) (pk : PubKey)
    : option DutyDefinition :=
  if decide (d = d0 /\ pk = pk0) then Some def else None.

Lemma set_duty_definition_spec (d0 : Duty) (pk0 : PubKey) def (st : SchedulerActor) :
  exists st', set_duty_definition d0 (epoch_of ch d0) pk0 def st =
      (st', Ok (negb (bool_decide (is_Some (entry st d0 pk0))))) /\
    adds (one d0 pk0 def) st st'.
Proof.
  unfold set_duty_definition. proc_simp.
  assert (default ∅ (duties st !! d0) !! pk0 = entry st d0 pk0) as He.
  { unfold entry. by destruct (duties st !! d0). }
  rewrite He. destruct (entry st d0 pk0) as [x|] eqn:Ex; eexists; (split; [reflexivity|]).
  - constructor; try done. intros d pk. unfold one. case_decide as Hd; [|by destruct (entry st d pk)].
    destruct Hd as [-> ->]. by rewrite Ex.
  - constructor; try done; cbn.
    + intros d pk. unfold entry at 1. cbn. unfold one. rewrite lookup_insert.
      destruct (decide (d0 = d)) as [<-|Hd]; cbn.
      * rewrite lookup_insert. destruct (decide (pk0 = pk)) as [<-|Hpk].
        -- rewrite Ex. by rewrite decide_True.
        -- rewrite decide_False by naive_solver.
           transitivity (entry st d0 pk); [|by destruct (entry st d0 pk)].
           unfold entry. by destruct (duties st !! d0).
      * rewrite decide_False by naive_solver. change (duties st !! d ≫= lookup pk) with (entry st d pk).
        by destruct (entry st d pk).
    + intros [H1 H2]. split; cbn.
      * intros d m. rewrite lookup_insert. unfold push_at. case_decide as Hd.
        -- subst d. intros [= <-]. rewrite lookup_insert_eq. split; [apply insert_non_empty|].
           eexists. split; [done|]. set_solver.
        -- intros (Hne & l & Hl & Hin)%H1. split; [done|].
           rewrite lookup_insert. case_decide as He'; [|eauto].
           rewrite He', Hl. cbn. eexists. split; [done|]. set_solver.
      * intros e l d. rewrite lookup_push_at. intros [[-> ->]|[Hne Hl]] Hin; [|by eauto].
        apply elem_of_app in Hin as [Hin| ->%list_elem_of_singleton]; [|done].
        destruct (duties_by_epoch st !! epoch_of ch d0) eqn:El; cbn in Hin; [by eauto|].
        by apply not_elem_of_nil in Hin.
Qed.

(** A trimmed epoch has no entries left; all others keep theirs. *)
Lemma foldl_delete (ds : list Duty) (m : gmap Duty DutyDefinitionSet) d :
  foldl (fun m d => delete d m) m ds !! d = if decide (d ∈ ds) then None else m !! d.
Proof.
  revert m. induction ds as [|x ds IH]; intros m; cbn; [done|].
  rewrite IH, lookup_delete. destruct (decide (d ∈ ds)) as [Hd|Hd].
  - rewrite decide_True; [done|]. by right.
  - destruct (decide (x = d)) as [->|Hx].
    + rewrite decide_True; [done|]. by left.
    + rewrite decide_False; [done|]. set_solver.
Qed.

Lemma trim_duties_spec e st :
  indexed st ->
  exists st', trim_duties e st = (st', Ok tt) /\
    slots_per_epoch st' = slots_per_epoch st /\ resolved_epoch st' = resolved_epoch st /\
    ticked st' = ticked st /\ triggered st' = triggered st /\ indexed st' /\
    (forall d pk, entry st' d pk = if decide (epoch_of ch d = e) then None else entry st d pk).
Proof.
  intros [H1 H2]. unfold trim_duties. proc_simp.
  destruct (duties_by_epoch st !! e) as [ds|] eqn:Ee; eexists; (split; [reflexivity|]); cbn.
  - assert (forall d, d ∈ ds <-> epoch_of ch d = e /\ (d ∈ ds)) as Hds by naive_solver.
    split_and!; try done.
    + split; cbn.
      * intros d m. rewrite foldl_delete. case_decide as Hd; [done|].
        intros (Hne & l & Hl & Hin)%H1. split; [done|]. exists l. split; [|done].
        rewrite lookup_delete_ne; [done|]. intros ->. congruence.
      * intros e' l d. rewrite lookup_delete. case_decide; [done|]. apply H2.
    + intros d pk. unfold entry. cbn. rewrite foldl_delete.
      destruct (decide (epoch_of ch d = e)) as [He|He].
      * case_decide as Hd; [done|]. destruct (duties st !! d) as [m|] eqn:Ed; [|done].
        destruct (H1 _ _ Ed) as (_ & l & Hl & Hin). congruence.
      * rewrite decide_False; [done|]. intros Hd. by apply He, (H2 e ds).
  - split_and!; try done. intros d pk. case_decide as He; [|done].
    unfold entry. destruct (duties st !! d) as [m|] eqn:Ed; [|done].
    destruct (H1 _ _ Ed) as (_ & l & Hl & _). congruence.
Qed.

(** ** The loops of [resolve_duties] *)

Lemma union_Some_first {A} (x : A) o : union (Some x) o = Some x.
Proof. by destruct o. Qed.

Lemma find_cons {A} (P : A -> bool) x l :
  List.find P (x :: l) = union (if P x then Some x else None) (List.find P l).
Proof. cbn. by destruct (P x), (List.find P l). Qed.

Lemma find_filter {A} (P Q : A -> bool) l :
  List.find P (List.filter Q l) = List.find (fun x => Q x && P x) l.
Proof. induction l as [|x l IH]; [done|]. cbn. destruct (Q x); cbn; by rewrite IH. Qed.

Lemma find_ext {A} (P Q : A -> bool) l :
  (forall x, x ∈ l -> P x = Q x) -> List.find P l = List.find Q l.
Proof.
  induction l as [|x l IH]; intros H; [done|]. cbn. rewrite (H x) by left.
  rewrite IH; [done|]. intros y Hy. apply H. by right.
Qed.

Lemma fmap_union_option {A B} (g : A -> B) (a b : option A) :
  g <$> union a b = union (g <$> a) (g <$> b).
Proof. by destruct a, b. Qed.

Definition from_att (l : list AttesterDutyDefinition) (d : Duty) (pk : PubKey)
    : option DutyDefinition :=
  match duty_type d with
  | Attester | Aggregator => DefAttester <$> List.find (fun x =>
      bool_decide (ad_slot (at_duty x) = slot d) && bool_decide (at_pubkey x = pk)) l
  | _ => None
  end.

Definition from_pro (l : list ProposerDutyDefinition) (d : Duty) (pk : PubKey)
    : option DutyDefinition :=
  match duty_type d with
  | Proposer => DefProposer <$> List.find (fun x =>
      bool_decide (pr_slot x = slot d) && bool_decide (pr_pubkey x = pk)) l
  | _ => None
  end.

Definition from_syn (slots : list Z) (l : list SyncCommitteeDutyDefinition) (d : Duty) (pk : PubKey)
    : option DutyDefinition :=
  match duty_type d with
  | SyncContribution =>
      if decide (slot d ∈ slots) then
        DefSyncCommittee <$> List.find (fun x => bool_decide (sy_pubkey x = pk)) l
      else None
  | _ => None
  end.

(** A loop whose rounds each add their own entries adds all of them. *)
Lemma p_for_grows {X} (F : list X -> Duty -> PubKey -> option DutyDefinition)
    (body : X -> proc SchedulerActor SchedulerError unit) (P : SchedulerActor -> Prop) l st :
  (forall d pk, F [] d pk = None) ->
  (forall x l d pk, F (x :: l) d pk = union (F [x] d pk) (F l d pk)) ->
  (forall x st, x ∈ l -> P st -> exists st', body x st = (st', Ok tt) /\ adds (F [x]) st st' /\ P st') ->
  P st -> exists st', p_for l body st = (st', Ok tt) /\ adds (F l) st st' /\ P st'.
Proof.
  intros Hnil Hcons. revert st. induction l as [|x l IH]; intros st Hbody HP.
  - exists st. split_and!; [done| |done]. eapply adds_ext; [|apply adds_refl]. done.
  - destruct (Hbody x st) as (st1 & E1 & G1 & P1); [left|done|].
    destruct (IH st1) as (st2 & E2 & G2 & P2); [|done|].
    { intros y st0 Hy. apply Hbody. by right. }
    exists st2. split_and!; [|by eapply adds_ext; [|eapply adds_trans]|done].
    cbn. unfold mbind, proc_bind. by rewrite E1.
Qed.

Lemma paired_from_att l st st' : paired st -> adds (from_att l) st st' -> paired st'.
Proof. intros Hp [_ _ _ _ He _] s pk. by rewrite !He, Hp. Qed.

Lemma paired_grows f st st' :
  paired st -> adds f st st' ->
  (forall s pk, f (new_attester_duty s) pk = f (new_aggregator_duty s) pk) -> paired st'.
Proof. intros Hp [_ _ _ _ He _] Hf s pk. by rewrite !He, Hp, Hf. Qed.

Lemma resolve_attester_spec d st :
  paired st ->
  exists st', resolve_attester (epoch_of ch (new_attester_duty (ad_slot (at_duty d)))) d st = (st', Ok tt) /\
    adds (from_att [d]) st st' /\ paired st'.
Proof.
  intros Hp. unfold resolve_attester.
  set (s := ad_slot (at_duty d)). set (pk := at_pubkey d).
  destruct (set_duty_definition_spec (new_attester_duty s) pk (DefAttester d) st) as (st1 & E1 & G1).
  unfold mbind at 1, proc_bind at 1. rewrite E1. clear E1.
  destruct (entry st (new_attester_duty s) pk) as [x|] eqn:Ex; cbn [is_Some].
  - rewrite bool_decide_true by eauto. cbn. exists st1. split; [done|].
    assert (adds (from_att [d]) st st1) as G; [|by eauto using paired_from_att].
    destruct G1 as [? ? ? ? He ?]. constructor; try done. intros d' pk'. rewrite He.
    destruct (entry st d' pk') as [y|] eqn:Ey; [by rewrite !union_Some_first|].
    unfold one, from_att. cbn. rewrite decide_False by naive_solver.
    destruct d' as [s' t']; destruct t'; try done; cbn in *;
      repeat case_bool_decide; try done; subst s' pk'; fold s pk in Ey;
      [|pose proof (Hp s pk) as Hp'];
      unfold new_attester_duty, new_aggregator_duty in *; congruence.
  - rewrite bool_decide_false by (by intros []). cbn.
    destruct (set_duty_definition_spec (new_aggregator_duty s) pk (DefAttester d) st1) as (st2 & E2 & G2).
    unfold mbind, proc_bind. change (epoch_of ch (new_attester_duty s)) with (epoch_of ch (new_aggregator_duty s)).
    rewrite E2. exists st2. split; [done|].
    assert (adds (from_att [d]) st st2) as G; [|by eauto using paired_from_att].
    eapply adds_ext; [|exact (adds_trans _ _ _ _ _ G1 G2)]. intros [s' t'] pk'.
    unfold one, from_att, new_attester_duty, new_aggregator_duty. cbn. fold s pk.
    destruct t'; repeat case_decide; repeat case_bool_decide; naive_solver.
Qed.

Lemma resolve_proposer_spec d st :
  paired st ->
  exists st', resolve_proposer (epoch_of ch (new_proposer_duty (pr_slot d))) d st = (st', Ok tt) /\
    adds (from_pro [d]) st st' /\ paired st'.
Proof.
  intros Hp. unfold resolve_proposer.
  destruct (set_duty_definition_spec (new_proposer_duty (pr_slot d)) (pr_pubkey d) (DefProposer d) st)
    as (st1 & E1 & G1).
  unfold mbind, proc_bind. rewrite E1. exists st1. split; [done|].
  assert (adds (from_pro [d]) st st1) as G; [|split; [done|by eapply paired_grows]].
  eapply adds_ext; [|exact G1]. intros [s' t'] pk'. unfold one, from_pro, new_proposer_duty. cbn.
  destruct t'; repeat case_decide; repeat case_bool_decide; naive_solver.
Qed.

(** The slots left in an epoch; [slots_per_epoch] rounds of the iterator are
    enough to see the next epoch. *)
Lemma take_epoch_elem n (sl : Slot) e x :
  sl_per_epoch sl = ch_spe ch -> 0 < ch_spe ch -> 0 <= sl_slot sl ->
  sl_slot sl + Z.of_nat n <= U64_MAX + 1 -> e <= sl_slot sl / ch_spe ch ->
  x ∈ sl_slot <$> take_epoch e (slot_iter n sl) <->
  sl_slot sl <= x < sl_slot sl + Z.of_nat n /\ x / ch_spe ch = e.
Proof.
  revert sl. induction n as [|n IH]; intros sl Hspe Hpos H0 Hmax He; cbn [slot_iter take_epoch].
  { cbn. rewrite elem_of_nil. lia. }
  unfold epoch. rewrite Hspe. destruct (Z.eqb_spec (ch_spe ch) 0) as [|_]; [lia|].
  destruct (Z.eqb_spec (sl_slot sl / ch_spe ch) e) as [Ee|Ee].
  - rewrite fmap_cons, elem_of_cons. destruct n as [|n].
    + cbn. rewrite elem_of_nil. split; [intros [->|[]]; lia|].
      intros [? ?]. left. lia.
    + rewrite IH; cbn [next_slot sl_per_epoch sl_slot]; unfold slot_next;
        [|done|done|lia|lia|].
      * rewrite Z.min_l by lia. split; [intros [->|[? ?]]; lia|].
        intros [? ?]. destruct (decide (x = sl_slot sl)); [by left|]. right. lia.
      * rewrite Z.min_l by lia. rewrite <-Ee. apply Z.div_le_mono; lia.
  - rewrite fmap_nil, elem_of_nil. split; [done|]. intros [[Hx _] Hxe].
    pose proof (Z.div_le_mono _ _ (ch_spe ch) Hpos Hx). lia.
Qed.

Lemma take_epoch_epochs e l : Forall (fun sl => Types.epoch sl = Ok e) (take_epoch e l).
Proof.
  induction l as [|sl l IH]; cbn; [constructor|].
  destruct (Types.epoch sl) as [e'|?|] eqn:Ee; try constructor.
  destruct (Z.eqb_spec e' e) as [->|]; [by constructor|constructor].
Qed.

(** A slot of this chain, with a whole epoch of slots after it. *)
Definition slot_ok (sl : Slot) : Prop :=
  sl_per_epoch sl = ch_spe ch /\ 0 < ch_spe ch /\ 0 <= sl_slot sl /\
  sl_slot sl + ch_spe ch <= U64_MAX.

Definition slots_from (sl : Slot) (e : Z) : list Z := sl_slot <$> epoch_slots sl e.

Lemma elem_of_slots_from sl x :
  slot_ok sl ->
  x ∈ slots_from sl (sl_slot sl / ch_spe ch) <->
  sl_slot sl <= x /\ x / ch_spe ch = sl_slot sl / ch_spe ch.
Proof.
  intros (Hspe & Hpos & H0 & Hmax). unfold slots_from, epoch_slots.
  rewrite take_epoch_elem by lia. rewrite Hspe, Z2Nat.id by lia.
  pose proof (Z.div_mod x (ch_spe ch) ltac:(lia)). pose proof (Z.mod_pos_bound x (ch_spe ch) Hpos).
  pose proof (Z.div_mod (sl_slot sl) (ch_spe ch) ltac:(lia)).
  pose proof (Z.mod_pos_bound (sl_slot sl) (ch_spe ch) Hpos).
  split; [lia|]. intros [? He]. split; [|done]. rewrite He in *. lia.
Qed.

Lemma resolve_sync_spec sl e d st :
  paired st -> Forall (fun s => epoch_of ch (new_sync_contribution_duty s) = e) (slots_from sl e) ->
  exists st', resolve_sync sl e d st = (st', Ok tt) /\
    adds (from_syn (slots_from sl e) [d]) st st' /\ paired st'.
Proof.
  intros Hp Hall. unfold resolve_sync, slots_from in *.
  pose proof (take_epoch_epochs e (slot_iter (Z.to_nat (sl_per_epoch sl)) sl)) as He.
  fold (epoch_slots sl e) in He.
  apply (p_for_grows (fun l => from_syn (sl_slot <$> l) [d]) _ paired); [..|done].
  - intros [s t] pk. by destruct t.
  - intros x l [s t] pk. unfold from_syn. cbn. destruct t; try done.
    destruct (decide (s ∈ sl_slot x :: (sl_slot <$> l))) as [H|H];
      destruct (decide (s ∈ [sl_slot x])), (decide (s ∈ sl_slot <$> l));
      try set_solver; case_bool_decide; done.
  - intros x st0 Hx Hp0. rewrite Forall_forall in He. rewrite (He x Hx). cbn [total].
    proc_simp. rewrite Forall_forall in Hall. pose proof (Hall (sl_slot x)) as Hs.
    rewrite <-Hs by set_solver.
    destruct (set_duty_definition_spec (new_sync_contribution_duty (sl_slot x)) (sy_pubkey d)
      (DefSyncCommittee d) st0) as (st1 & E1 & G1).
    unfold mbind, proc_bind. rewrite E1. exists st1. split; [done|].
    assert (adds (from_syn (sl_slot <$> [x]) [d]) st0 st1) as G; [|split; [done|by eapply paired_grows]].
    eapply adds_ext; [|exact G1]. intros [s' t'] pk'.
    unfold one, from_syn, new_sync_contribution_duty. cbn.
    destruct t'; repeat case_decide; repeat case_bool_decide; set_solver.
Qed.

(** The checks of the fetched duties are filters, when they succeed. *)
Lemma attester_loop_filter sl vs l r :
  attester_loop sl vs l = Ok r ->
  r = List.filter (fun d => (sl_slot sl <=? ad_slot (at_duty d)) &&
        bool_decide (find_pubkey vs (ad_validator_index (at_duty d)) = Some (at_pubkey d))) l.
Proof.
  revert r. induction l as [|d l IH]; intros r; cbn; [by intros [= <-]|].
  destruct (Z.ltb_spec (ad_slot (at_duty d)) (sl_slot sl)).
  { rewrite (proj2 (Z.leb_gt _ _)) by lia. apply IH. }
  rewrite (proj2 (Z.leb_le _ _)) by lia. cbn.
  destruct (find_pubkey vs _) as [pk|]; [|rewrite bool_decide_false by done; apply IH].
  destruct (decide (pk = at_pubkey d)) as [->|]; [|done]. rewrite bool_decide_true by done.
  intros Hr. inv_res. subst r. by erewrite <-IH.
Qed.

Lemma proposer_loop_filter sl vs l r :
  proposer_loop sl vs l = Ok r ->
  r = List.filter (fun d => (sl_slot sl <=? pr_slot d) &&
        bool_decide (find_pubkey vs (pr_v_idx d) = Some (pr_pubkey d))) l.
Proof.
  revert r. induction l as [|d l IH]; intros r; cbn; [by intros [= <-]|].
  destruct (Z.ltb_spec (pr_slot d) (sl_slot sl)).
  { rewrite (proj2 (Z.leb_gt _ _)) by lia. apply IH. }
  rewrite (proj2 (Z.leb_le _ _)) by lia. cbn.
  destruct (find_pubkey vs _) as [pk|]; [|rewrite bool_decide_false by done; apply IH].
  destruct (decide (pk = pr_pubkey d)) as [->|]; [|done]. rewrite bool_decide_true by done.
  intros Hr. inv_res. subst r. by erewrite <-IH.
Qed.

Lemma sync_loop_filter vs l r :
  sync_loop vs l = Ok r ->
  r = List.filter (fun d => bool_decide (find_pubkey vs (sy_validator_index d) = Some (sy_pubkey d))) l.
Proof.
  revert r. induction l as [|d l IH]; intros r; cbn; [by intros [= <-]|].
  destruct (find_pubkey vs _) as [pk|]; [|rewrite bool_decide_false by done; apply IH].
  destruct (decide (pk = sy_pubkey d)) as [->|]; [|done]. rewrite bool_decide_true by done.
  intros Hr. inv_res. subst r. by erewrite <-IH.
Qed.

(** ** No panics *)

Lemma collect_no_panic {E A B} (f : A -> res E B) l :
  (forall x, f x <> Panic) -> collect f l <> Panic.
Proof.
  intros Hf. induction l as [|x l IH]; cbn; [done|].
  apply bind_no_panic; [done|]. intros y _. by apply bind_no_panic.
Qed.

Lemma parse_pubkey_field_no_panic str : parse_pubkey_field hex_decode str <> Panic.
Proof.
  unfold parse_pubkey_field, pubkey_of_str, pubkey_of_bytes.
  apply map_err_no_panic, bind_no_panic; [apply ok_or_no_panic|]. intros x _. by case_match.
Qed.

Lemma parse_field_no_panic field str : parse_field field str <> Panic.
Proof. apply ok_or_no_panic. Qed.

Create HintDb no_panic discriminated.
#[local] Hint Resolve bind_no_panic map_err_no_panic collect_no_panic ok_or_no_panic
  parse_pubkey_field_no_panic parse_field_no_panic : no_panic.

(** Runs through a sequence of parsers. *)
Ltac no_panic := repeat (apply bind_no_panic; [auto with no_panic|intros ? _]); auto with no_panic; try done.

Lemma convert_no_panic {A B} (f : A -> res ApiError B) r :
  (forall x, f x <> Panic) -> convert f r <> Panic.
Proof. intros Hf. apply map_err_no_panic. destruct r; cbn; auto with no_panic; done. Qed.

Lemma attester_of_datum_no_panic x : attester_of_datum hex_decode x <> Panic.
Proof. unfold attester_of_datum. no_panic. Qed.

Lemma proposer_of_datum_no_panic x : proposer_of_datum hex_decode x <> Panic.
Proof. unfold proposer_of_datum. no_panic. Qed.

Lemma sync_of_datum_no_panic x : sync_of_datum hex_decode x <> Panic.
Proof. unfold sync_of_datum. no_panic. Qed.

Lemma attester_loop_no_panic sl vs l : attester_loop sl vs l <> Panic.
Proof. induction l as [|d l IH]; cbn; [done|]. repeat case_match; try done. no_panic. Qed.

Lemma proposer_loop_no_panic sl vs l : proposer_loop sl vs l <> Panic.
Proof. induction l as [|d l IH]; cbn; [done|]. repeat case_match; try done. no_panic. Qed.

Lemma sync_loop_no_panic vs l : sync_loop vs l <> Panic.
Proof. induction l as [|d l IH]; cbn; [done|]. repeat case_match; try done. no_panic. Qed.

Lemma active_loop_no_panic e l : active_loop hex_decode e l <> Panic.
Proof.
  induction l as [|[i v] l IH]; cbn; [done|]. apply bind_no_panic.
  - apply map_err_no_panic. unfold pubkey_of_str, pubkey_of_bytes.
    apply bind_no_panic; [apply ok_or_no_panic|]. intros x _. by case_match.
  - intros pk _. apply bind_no_panic; [|intros b _; by apply bind_no_panic].
    case_match; [done|]. no_panic.
Qed.

(** ** Resolving an epoch *)

(** What a successful resolution from slot [s] on adds. *)
Definition fresh (e s : Z) (d : Duty) (pk : PubKey) : option DutyDefinition :=
  if decide (epoch_of ch d = e /\ s <= slot d) then due ch d pk else None.

Context (Hch : chain_ok ch).

Lemma from_att_fresh sl vs r d pk :
  let e := sl_slot sl / ch_spe ch in
  (forall i, find_pubkey vs i = ch_vals ch e !! i) -> attester_loop sl vs (ch_att ch e) = Ok r ->
  from_att r d pk = match duty_type d with
                    | Attester | Aggregator => fresh e (sl_slot sl) d pk | _ => None end.
Proof.
  intros e Hv ->%attester_loop_filter. unfold from_att.
  assert (DefAttester <$> List.find (fun x => bool_decide (ad_slot (at_duty x) = slot d) &&
      bool_decide (at_pubkey x = pk)) (List.filter (fun d => (sl_slot sl <=? ad_slot (at_duty d)) &&
        bool_decide (find_pubkey vs (ad_validator_index (at_duty d)) = Some (at_pubkey d)))
          (ch_att ch e)) =
    if decide (epoch_of ch d = e /\ sl_slot sl <= slot d) then
      DefAttester <$> List.find (fun x => bool_decide (ad_slot (at_duty x) = slot d) &&
        bool_decide (at_pubkey x = pk) &&
        bool_decide (ch_vals ch e !! ad_validator_index (at_duty x) = Some pk)) (ch_att ch e)
    else None) as H.
  { rewrite find_filter. case_decide as Hd.
    - f_equal. apply find_ext. intros x _. rewrite Hv. repeat case_bool_decide; subst; try done;
        destruct (Z.leb_spec (sl_slot sl) (ad_slot (at_duty x))); cbn; try done; lia.
    - destruct (List.find _ _) as [x|] eqn:Ef; [|done]. exfalso. apply Hd.
      apply find_some in Ef as [Hx Hb]. zbool. apply list_elem_of_In in Hx.
      apply (co_att _ Hch) in Hx. unfold epoch_of. split; [congruence|lia]. }
  unfold fresh. destruct d as [s t]. cbn in *. destruct t; try done.
  all: rewrite H; case_decide as Hd; [|done]; unfold due; cbn; by destruct Hd as [-> _].
Qed.

Lemma from_pro_fresh sl vs r d pk :
  let e := sl_slot sl / ch_spe ch in
  (forall i, find_pubkey vs i = ch_vals ch e !! i) -> proposer_loop sl vs (ch_pro ch e) = Ok r ->
  from_pro r d pk = match duty_type d with Proposer => fresh e (sl_slot sl) d pk | _ => None end.
Proof.
  intros e Hv ->%proposer_loop_filter. unfold from_pro, fresh, due.
  destruct (duty_type d); try done. rewrite find_filter. case_decide as Hd.
  - destruct Hd as [He Hd]. rewrite He. f_equal. apply find_ext. intros x _. rewrite Hv.
    repeat case_bool_decide; subst; try done;
      destruct (Z.leb_spec (sl_slot sl) (pr_slot x)); cbn; try done; lia.
  - destruct (List.find _ _) as [x|] eqn:Ef; [|done]. exfalso. apply Hd.
    apply find_some in Ef as [Hx Hb]. zbool. apply list_elem_of_In in Hx.
    apply (co_pro _ Hch) in Hx. unfold epoch_of. split; [congruence|lia].
Qed.

Lemma from_syn_fresh sl vs r d pk :
  slot_ok sl ->
  let e := sl_slot sl / ch_spe ch in
  (forall i, find_pubkey vs i = ch_vals ch e !! i) -> sync_loop vs (ch_syn ch e) = Ok r ->
  from_syn (slots_from sl e) r d pk =
  match duty_type d with SyncContribution => fresh e (sl_slot sl) d pk | _ => None end.
Proof.
  intros Hsl e Hv ->%sync_loop_filter. unfold from_syn, fresh, due.
  destruct (duty_type d); try done. rewrite find_filter.
  pose proof (elem_of_slots_from sl (slot d) Hsl) as Hin. fold e in Hin. fold (epoch_of ch d) in Hin.
  destruct (decide (slot d ∈ slots_from sl e)) as [Hd|Hd].
  - rewrite decide_True by tauto. apply Hin in Hd as [_ ->].
    f_equal. apply find_ext. intros x _. rewrite Hv. repeat case_bool_decide; congruence || done.
  - rewrite decide_False by tauto. done.
Qed.

Lemma Inv_grows f now st st' :
  Inv now st -> adds f st st' -> paired st' ->
  (forall d pk def, f d pk = Some def -> due ch d pk = Some def) -> Inv now st'.
Proof.
  intros [I1 I2 I3 I4 I5] [G1 G2 G3 G4 G5 G6] Hp Hf. constructor; [congruence|auto|done|..].
  - intros d pk def. rewrite G5. destruct (entry st d pk) as [x|] eqn:Ex.
    + rewrite union_Some_first. intros [= <-]. auto.
    + destruct (f d pk) as [x|] eqn:Ef; [|done]. intros [= <-]. auto.
  - intros d pk. rewrite G2, G5. intros Hm He Hs. rewrite (I5 d pk Hm He Hs).
    destruct (due ch d pk) as [x|] eqn:Ed; [by rewrite union_Some_first|].
    destruct (f d pk) as [x|] eqn:Ef; [|done]. apply Hf in Ef. congruence.
Qed.

Lemma fresh_due e s d pk def : fresh e s d pk = Some def -> due ch d pk = Some def.
Proof. unfold fresh. by case_decide. Qed.

(** The epoch [e] is resolved from slot [s] on. *)
Lemma Inv_resolved now s e st :
  Inv now st -> (forall d pk, epoch_of ch d = e -> s <= slot d -> entry st d pk = due ch d pk) ->
  Inv s (st <| resolved_epoch := e |>).
Proof. intros [I1 I2 I3 I4 I5] Hd. constructor; auto. cbn. intros d pk _. apply Hd. Qed.

Lemma Inv_trim now e st st' :
  Inv now st -> resolved_epoch st <> e -> trim_duties e st = (st', Ok tt) -> Inv now st'.
Proof.
  intros [I1 I2 I3 I4 I5] Hne Et.
  destruct (trim_duties_spec e st I2) as (st1 & E1 & T1 & T2 & T3 & T4 & T5 & T6).
  rewrite Et in E1. simplify_eq. constructor; [congruence|done|..].
  - intros s pk. rewrite !T6, (I3 s pk). done.
  - intros d pk def. rewrite T6. case_decide; [done|]. apply I4.
  - intros d pk. rewrite T2, T6. intros Hm He Hs. case_decide; [congruence|auto].
Qed.

Lemma epoch_ok sl : slot_ok sl -> Types.epoch sl = Ok (sl_slot sl / ch_spe ch).
Proof.
  intros (Hspe & Hpos & _). unfold Types.epoch. rewrite Hspe.
  destruct (Z.eqb_spec (ch_spe ch) 0); [lia|done].
Qed.

Lemma due_no_vals d pk : (forall i, ch_vals ch (epoch_of ch d) !! i = None) -> due ch d pk = None.
Proof.
  intros Hv. unfold due.
  destruct (duty_type d); try done;
    (destruct (List.find _ _) as [x|] eqn:Ef; [|done]); exfalso;
    apply find_some in Ef as [_ Hb]; zbool; congruence.
Qed.

(** The outcome of a resolution at slot [sl]. *)
Definition resolution (now : Z) (sl : Slot) (st st' : SchedulerActor) (r : res SchedulerError unit) : Prop :=
  ticked st' = ticked st /\ triggered st' = triggered st /\
  match r with
  | Ok _ => Inv (sl_slot sl) st' /\ resolved_epoch st' = sl_slot sl / ch_spe ch
  | Err _ => Inv now st' /\ resolved_epoch st' = resolved_epoch st
  | Panic => False
  end.

Lemma resolution_grows f now sl st st' (e : SchedulerError) :
  Inv now st -> adds f st st' -> paired st' ->
  (forall d pk def, f d pk = Some def -> due ch d pk = Some def) ->
  resolution now sl st st' (Err e).
Proof.
  intros HI HG Hp Hf. split_and!; [apply HG|apply HG|by eapply Inv_grows|apply HG].
Qed.

(** The three fetches, with what their loops add to the table. *)
Lemma attesters_spec sl ans vs st :
  let e := sl_slot sl / ch_spe ch in
  truthful e ans -> (forall i, find_pubkey vs i = ch_vals ch e !! i) -> paired st ->
  match fetch_attester_duties hex_decode sl vs (ans_attester ans) with
  | Ok l => exists st', p_for l (resolve_attester e) st = (st', Ok tt) /\
      adds (fun d pk => match duty_type d with
        | Attester | Aggregator => fresh e (sl_slot sl) d pk | _ => None end) st st' /\ paired st'
  | Err _ => True
  | Panic => False
  end.
Proof.
  intros e Htr Hv Hp. unfold fetch_attester_duties.
  destruct (convert (attester_of_datum hex_decode) (ans_attester ans)) as [l0|err|] eqn:Ec; [|done|].
  2: { by apply convert_no_panic in Ec; [|apply attester_of_datum_no_panic]. }
  apply (tr_att _ _ Htr) in Ec as ->. cbn.
  destruct (attester_loop sl vs (ch_att ch e)) as [l|err|] eqn:El; [|done|].
  2: { by apply attester_loop_no_panic in El. }
  destruct (p_for_grows from_att (resolve_attester e) paired l st) as (st' & E' & G' & P'); [..|done|].
  - intros [s t] pk. by destruct t.
  - intros x l' [s t] pk. unfold from_att. cbn [duty_type]. destruct t; try done;
      by rewrite (find_cons _ x l'), fmap_union_option, !(find_cons _ x []), fmap_union_option;
      cbn; destruct (_ && _); cbn; rewrite ?union_Some_first.
  - intros x st0 Hx Hp0.
    assert (epoch_of ch (new_attester_duty (ad_slot (at_duty x))) = e) as <-; [|by apply resolve_attester_spec].
    apply (co_att _ Hch). rewrite (attester_loop_filter _ _ _ _ El) in Hx.
    apply list_elem_of_In, filter_In in Hx as [Hx _]. by apply list_elem_of_In.
  - exists st'. split_and!; [done| |done]. eapply adds_ext; [|exact G'].
    intros d pk. by apply (from_att_fresh sl vs).
Qed.

Lemma proposers_spec sl ans vs st :
  let e := sl_slot sl / ch_spe ch in
  truthful e ans -> (forall i, find_pubkey vs i = ch_vals ch e !! i) -> paired st ->
  match fetch_proposer_duties hex_decode sl vs (ans_proposer ans) with
  | Ok l => exists st', p_for l (resolve_proposer e) st = (st', Ok tt) /\
      adds (fun d pk => match duty_type d with
        | Proposer => fresh e (sl_slot sl) d pk | _ => None end) st st' /\ paired st'
  | Err _ => True
  | Panic => False
  end.
Proof.
  intros e Htr Hv Hp. unfold fetch_proposer_duties.
  destruct (convert (proposer_of_datum hex_decode) (ans_proposer ans)) as [l0|err|] eqn:Ec; [|done|].
  2: { by apply convert_no_panic in Ec; [|apply proposer_of_datum_no_panic]. }
  apply (tr_pro _ _ Htr) in Ec as ->. cbn.
  destruct (proposer_loop sl vs (ch_pro ch e)) as [l|err|] eqn:El; [|done|].
  2: { by apply proposer_loop_no_panic in El. }
  destruct (p_for_grows from_pro (resolve_proposer e) paired l st) as (st' & E' & G' & P'); [..|done|].
  - intros [s t] pk. by destruct t.
  - intros x l' [s t] pk. unfold from_pro. cbn [duty_type]. destruct t; try done.
    rewrite (find_cons _ x l'), fmap_union_option, !(find_cons _ x []), fmap_union_option.
    cbn. destruct (_ && _); cbn; by rewrite ?union_Some_first.
  - intros x st0 Hx Hp0.
    assert (epoch_of ch (new_proposer_duty (pr_slot x)) = e) as <-; [|by apply resolve_proposer_spec].
    apply (co_pro _ Hch). rewrite (proposer_loop_filter _ _ _ _ El) in Hx.
    apply list_elem_of_In, filter_In in Hx as [Hx _]. by apply list_elem_of_In.
  - exists st'. split_and!; [done| |done]. eapply adds_ext; [|exact G'].
    intros d pk. by apply (from_pro_fresh sl vs).
Qed.

Lemma syncs_spec sl ans vs st :
  let e := sl_slot sl / ch_spe ch in
  slot_ok sl -> truthful e ans -> (forall i, find_pubkey vs i = ch_vals ch e !! i) -> paired st ->
  match fetch_sync_committee_duties hex_decode vs (ans_sync ans) with
  | Ok l => exists st', p_for l (resolve_sync sl e) st = (st', Ok tt) /\
      adds (fun d pk => match duty_type d with
        | SyncContribution => fresh e (sl_slot sl) d pk | _ => None end) st st' /\ paired st'
  | Err _ => True
  | Panic => False
  end.
Proof.
  intros e Hsl Htr Hv Hp. unfold fetch_sync_committee_duties.
  destruct (convert (sync_of_datum hex_decode) (ans_sync ans)) as [l0|err|] eqn:Ec; [|done|].
  2: { by apply convert_no_panic in Ec; [|apply sync_of_datum_no_panic]. }
  apply (tr_syn _ _ Htr) in Ec as ->. cbn.
  destruct (sync_loop vs (ch_syn ch e)) as [l|err|] eqn:El; [|done|].
  2: { by apply sync_loop_no_panic in El. }
  destruct (p_for_grows (from_syn (slots_from sl e)) (resolve_sync sl e) paired l st)
    as (st' & E' & G' & P'); [..|done|].
  - intros [s t] pk. destruct t; try done. unfold from_syn. cbn. by case_decide.
  - intros x l' [s t] pk. unfold from_syn. cbn [duty_type slot]. destruct t; try done.
    case_decide; [|done].
    rewrite (find_cons _ x l'), fmap_union_option, !(find_cons _ x []), fmap_union_option.
    cbn. destruct (bool_decide _); cbn; by rewrite ?union_Some_first.
  - intros x st0 _ Hp0. apply resolve_sync_spec; [done|]. rewrite Forall_forall.
    intros s [_ Hs]%elem_of_slots_from; done.
  - exists st'. split_and!; [done| |done]. eapply adds_ext; [|exact G'].
    intros d pk. by apply (from_syn_fresh sl vs).
Qed.

Lemma p_lift_bind {S E A B} (r : res E A) (f : A -> proc S E B) s :
  (p_lift r ≫= f) s = match r with Ok x => f x s | Err e => (s, Err e) | Panic => (s, Panic) end.
Proof. by destruct r. Qed.

(** The end of a resolution: the epoch counts as resolved, an old one goes. *)
Lemma finish_spec now sl st st0 :
  let e := sl_slot sl / ch_spe ch in
  Inv now st -> slot_ok sl -> ticked st = ticked st0 -> triggered st = triggered st0 ->
  (forall d pk, epoch_of ch d = e -> sl_slot sl <= slot d -> entry st d pk = due ch d pk) ->
  exists st', (p_modify (fun st : SchedulerActor => st <| resolved_epoch := e |>);;
    if TRIM_EPOCH_OFFSET <=? e then trim_duties (e - TRIM_EPOCH_OFFSET) else mret tt) st =
    (st', Ok tt) /\ resolution now sl st0 st' (Ok tt).
Proof.
  intros e HI Hsl Ht1 Ht2 Hd. proc_simp.
  pose proof (Inv_resolved _ _ _ _ HI Hd) as HI'.
  destruct (TRIM_EPOCH_OFFSET <=? e); [|by eexists].
  destruct (trim_duties_spec (e - TRIM_EPOCH_OFFSET) _ (i_indexed _ _ HI'))
    as (st' & E' & T1 & T2 & T3 & T4 & _).
  exists st'. split; [done|]. split_and!; [by rewrite T3|by rewrite T4| |by rewrite T2].
  eapply Inv_trim; [exact HI'| |exact E']. cbn. unfold TRIM_EPOCH_OFFSET. lia.
Qed.

Lemma resolve_duties_spec now sl ans st :
  Inv now st -> slot_ok sl -> truthful (sl_slot sl / ch_spe ch) ans ->
  exists st' r, resolve_duties hex_decode ho ans sl st = (st', r) /\ resolution now sl st st' r.
Proof.
  intros HI Hsl Htr. unfold resolve_duties. rewrite (epoch_ok _ Hsl). cbn [total].
  set (e := sl_slot sl / ch_spe ch) in *. rewrite !p_lift_bind.
  destruct (resolve_active_validators hex_decode ho e (ans_validators ans)) as [vs|err|] eqn:Ev.
  2: { eexists _, _. by split. }
  2: { exfalso. unfold resolve_active_validators in Ev. pose proof (tr_returns _ _ Htr).
       destruct (ans_validators ans); try done. by apply active_loop_no_panic in Ev. }
  pose proof (tr_vals _ _ Htr _ Ev) as Hv. clear Ev.
  destruct vs as [|v vs].
  { eexists _, _. split; [reflexivity|]. split_and!; [done|done| |done].
    eapply Inv_resolved; [exact HI|]. intros d pk He Hs.
    assert (due ch d pk = None) as Hn by (apply due_no_vals; intros i; by rewrite He, <-Hv).
    destruct (entry st d pk) eqn:Ed; [|done]. apply (i_sound _ _ HI) in Ed. congruence. }
  set (vals := v :: vs) in *.
  pose proof (attesters_spec sl ans vals st Htr Hv (i_paired _ _ HI)) as H1.
  rewrite p_lift_bind. destruct (fetch_attester_duties _ _ _ _) as [l1|err|]; [|by eexists _, _|done].
  destruct H1 as (st1 & E1 & G1 & P1). erewrite proc_step by exact E1.
  pose proof (proposers_spec sl ans vals st1 Htr Hv P1) as H2.
  rewrite p_lift_bind. destruct (fetch_proposer_duties _ _ _ _) as [l2|err|]; [| |done].
  2: { eexists _, _. split; [done|]. eapply resolution_grows; [done..|].
       cbv beta. intros d pk def Hd. destruct (duty_type d); try done; by eapply fresh_due. }
  destruct H2 as (st2 & E2 & G2 & P2). erewrite proc_step by exact E2.
  pose proof (adds_trans _ _ _ _ _ G1 G2) as G12.
  pose proof (syncs_spec sl ans vals st2 Hsl Htr Hv P2) as H3.
  rewrite p_lift_bind. destruct (fetch_sync_committee_duties _ _ _) as [l3|err|]; [| |done].
  2: { eexists _, _. split; [done|]. eapply resolution_grows; [done..|]. cbv beta.
       intros d pk def Hd. destruct (duty_type d); try done;
         rewrite ?(left_id_L None _), ?(right_id_L None _) in Hd; by eapply fresh_due. }
  destruct H3 as (st3 & E3 & G3 & P3). erewrite proc_step by exact E3.
  pose proof (adds_trans _ _ _ _ _ G12 G3) as G.
  assert (adds (fresh e (sl_slot sl)) st st3) as Gf.
  { eapply adds_ext; [|exact G]. cbv beta. intros d pk.
    assert (fresh e (sl_slot sl) d pk = None \/ exists x, fresh e (sl_slot sl) d pk = Some x) as Hf
      by (destruct (fresh e (sl_slot sl) d pk); eauto).
    destruct (duty_type d) eqn:Et; rewrite ?(left_id_L None _), ?(right_id_L None _); try done;
      unfold fresh, due; rewrite Et; by case_decide. }
  destruct (finish_spec now sl st3 st) as (st4 & E4 & R4); [..|exists st4, (Ok tt); by split].
  - eapply Inv_grows; [exact HI|exact Gf|done|]. apply fresh_due.
  - done.
  - apply Gf.
  - apply Gf.
  - intros d pk He Hs. rewrite (g_entry _ _ _ Gf). unfold fresh. rewrite decide_True by done.
    destruct (entry st d pk) as [x|] eqn:Ed; [|by destruct (due ch d pk)].
    rewrite union_Some_first. symmetry. by apply (i_sound _ _ HI).
Qed.

(** ** Beacon nodes that answer *)

(** All four questions for the epoch are answered. *)
Record healthy (e : Z) (ans : BeaconAnswers) : Prop := {
  he_vals : exists vs, resolve_active_validators hex_decode ho e (ans_validators ans) = Ok vs;
  he_att : exists l, convert (attester_of_datum hex_decode) (ans_attester ans) = Ok l;
  he_pro : exists l, convert (proposer_of_datum hex_decode) (ans_proposer ans) = Ok l;
  he_syn : exists l, convert (sync_of_datum hex_decode) (ans_sync ans) = Ok l;
}.

Lemma attester_loop_ok sl vs l :
  (forall d pk, d ∈ l -> find_pubkey vs (ad_validator_index (at_duty d)) = Some pk -> at_pubkey d = pk) ->
  exists r, attester_loop sl vs l = Ok r.
Proof.
  induction l as [|d l IH]; intros H; cbn; [eauto|].
  destruct IH as [r Hr]; [by intros d' pk Hd; apply (H d' pk); right|].
  destruct (_ <? _); [eauto|]. destruct (find_pubkey vs _) as [pk|] eqn:Ef; [|eauto].
  rewrite (H d pk) by (done || left). rewrite decide_True by done. rewrite Hr. cbn. eauto.
Qed.

Lemma proposer_loop_ok sl vs l :
  (forall d pk, d ∈ l -> find_pubkey vs (pr_v_idx d) = Some pk -> pr_pubkey d = pk) ->
  exists r, proposer_loop sl vs l = Ok r.
Proof.
  induction l as [|d l IH]; intros H; cbn; [eauto|].
  destruct IH as [r Hr]; [by intros d' pk Hd; apply (H d' pk); right|].
  destruct (_ <? _); [eauto|]. destruct (find_pubkey vs _) as [pk|] eqn:Ef; [|eauto].
  rewrite (H d pk) by (done || left). rewrite decide_True by done. rewrite Hr. cbn. eauto.
Qed.

Lemma sync_loop_ok vs l :
  (forall d pk, d ∈ l -> find_pubkey vs (sy_validator_index d) = Some pk -> sy_pubkey d = pk) ->
  exists r, sync_loop vs l = Ok r.
Proof.
  induction l as [|d l IH]; intros H; cbn; [eauto|].
  destruct IH as [r Hr]; [by intros d' pk Hd; apply (H d' pk); right|].
  destruct (find_pubkey vs _) as [pk|] eqn:Ef; [|eauto].
  rewrite (H d pk) by (done || left). rewrite decide_True by done. rewrite Hr. cbn. eauto.
Qed.

Lemma resolve_duties_ok now sl ans st :
  Inv now st -> slot_ok sl -> truthful (sl_slot sl / ch_spe ch) ans ->
  healthy (sl_slot sl / ch_spe ch) ans ->
  (resolve_duties hex_decode ho ans sl st).2 = Ok tt.
Proof.
  intros HI Hsl Htr [[vs Ev] [l1 E1] [l2 E2] [l3 E3]].
  destruct (resolve_duties_spec now sl ans st HI Hsl Htr) as (st' & r & Er & Hr).
  rewrite Er. cbn. destruct r as [[]|err|]; [done| |by destruct Hr as (_ & _ & [])].
  exfalso. clear Hr. revert Er. unfold resolve_duties. rewrite (epoch_ok _ Hsl). cbn [total].
  set (e := sl_slot sl / ch_spe ch) in *. rewrite !p_lift_bind, Ev.
  pose proof (tr_vals _ _ Htr _ Ev) as Hv. destruct vs as [|v vs]; [done|]. set (vals := v :: vs) in *.
  pose proof (attesters_spec sl ans vals st Htr Hv (i_paired _ _ HI)) as H1.
  unfold fetch_attester_duties in *. rewrite E1, (tr_att _ _ Htr _ E1) in *. cbn in H1 |- *.
  destruct (attester_loop_ok sl vals (ch_att ch e)) as [r1 R1].
  { intros d pk Hd. rewrite Hv. by apply (co_att_key _ Hch). }
  rewrite R1 in *. destruct H1 as (st1 & F1 & _ & P1). rewrite p_lift_bind. erewrite proc_step by exact F1.
  pose proof (proposers_spec sl ans vals st1 Htr Hv P1) as H2.
  unfold fetch_proposer_duties in *. rewrite E2, (tr_pro _ _ Htr _ E2) in *. cbn in H2 |- *.
  destruct (proposer_loop_ok sl vals (ch_pro ch e)) as [r2 R2].
  { intros d pk Hd. rewrite Hv. by apply (co_pro_key _ Hch). }
  rewrite R2 in *. destruct H2 as (st2 & F2 & _ & P2). rewrite p_lift_bind. erewrite proc_step by exact F2.
  pose proof (syncs_spec sl ans vals st2 Hsl Htr Hv P2) as H3.
  unfold fetch_sync_committee_duties in *. rewrite E3, (tr_syn _ _ Htr _ E3) in *. cbn in H3 |- *.
  destruct (sync_loop_ok vals (ch_syn ch e)) as [r3 R3].
  { intros d pk Hd. rewrite Hv. by apply (co_syn_key _ Hch). }
  rewrite R3 in *. destruct H3 as (st3 & F3 & _ & P3). rewrite p_lift_bind. erewrite proc_step by exact F3.
  proc_simp. destruct (TRIM_EPOCH_OFFSET <=? e); [|done].
  unfold trim_duties. proc_simp. by case_match.
Qed.

(** ** Ticks *)

Lemma Inv_later now now' st : Inv now st -> now <= now' -> Inv now' st.
Proof. intros [I1 I2 I3 I4 I5] Hle. constructor; auto. intros d pk ? ? ?. apply I5; [done|done|lia]. Qed.

(** A tick of this chain, whose two resolutions get true answers. *)
Record tick_ok (sl : Slot) (ans ans_next : BeaconAnswers) : Prop := {
  to_slot : slot_ok sl;
  to_next : slot_ok (next_slot sl);
  to_ans : truthful (sl_slot sl / ch_spe ch) ans;
  to_ans_next : truthful (sl_slot (next_slot sl) / ch_spe ch) ans_next;
}.

(** The duties triggered for slot [s] are duties of [s], each triggered once,
    with definitions that are due. *)
Definition triggers_sound (s : Z) (new : list (Duty * DutyDefinitionSet)) : Prop :=
  NoDup new.*1 /\
  forall d set, (d, set) ∈ new -> slot d = s /\ set <> ∅ /\
    forall pk def, set !! pk = Some def -> due ch d pk = Some def.

(** No due definition is missing. *)
Definition triggers_complete (s : Z) (new : list (Duty * DutyDefinitionSet)) : Prop :=
  forall d pk def, slot d = s -> due ch d pk = Some def ->
    exists set, (d, set) ∈ new /\ set !! pk = Some def.

Lemma elem_of_slot_duties st s d set :
  (d, set) ∈ slot_duties st s <->
  slot d = s /\ duty_type d ∈ all_duty_types /\ duties st !! d = Some set.
Proof.
  unfold slot_duties. rewrite list_elem_of_omap. split.
  - intros (t & Ht & Hd). destruct (duties st !! _) as [m|] eqn:Em; [|done]. cbn in Hd. by simplify_eq.
  - intros (<- & Ht & Hd). exists (duty_type d). split; [done|]. destruct d as [s t]. cbn. by rewrite Hd.
Qed.

Lemma slot_duties_NoDup st s : NoDup (slot_duties st s).*1.
Proof.
  unfold slot_duties. assert (NoDup all_duty_types) as Hn by (by apply (bool_decide_unpack (NoDup all_duty_types))).
  induction Hn as [|t l Ht Hl IH]; cbn; [constructor|].
  destruct (duties st !! _) as [m|]; cbn; [|done]. constructor; [|done].
  rewrite list_elem_of_fmap. intros ([d m'] & Hd' & Hin). apply list_elem_of_omap in Hin as (t' & Ht' & Hd).
  destruct (duties st !! _) in Hd; [|done]. cbn in *. by simplify_eq.
Qed.

Lemma slot_duties_sound now st s : Inv now st -> triggers_sound s (slot_duties st s).
Proof.
  intros HI. split; [apply slot_duties_NoDup|].
  intros d set (<- & _ & Hd)%elem_of_slot_duties. split; [done|].
  split; [apply (proj1 (i_indexed _ _ HI) d set Hd)|].
  intros pk def Hp. apply (i_sound _ _ HI). unfold entry. by rewrite Hd.
Qed.

Lemma due_types d pk def : due ch d pk = Some def -> duty_type d ∈ all_duty_types.
Proof. unfold due. destruct (duty_type d); try done; intros _; by apply (bool_decide_unpack (_ ∈ _)). Qed.

Lemma slot_duties_complete now st s :
  Inv now st -> resolved_epoch st = s / ch_spe ch -> resolved_epoch st <> U64_MAX -> now <= s ->
  triggers_complete s (slot_duties st s).
Proof.
  intros HI He Hm Hs d pk def <- Hd. pose proof (i_complete _ _ HI d pk Hm) as Hc.
  rewrite Hd in Hc. specialize (Hc (eq_sym He) Hs). unfold entry in Hc.
  destruct (duties st !! d) as [set|] eqn:Ed; [|done]. exists set. split; [|done].
  apply elem_of_slot_duties. eauto using due_types.
Qed.

Lemma slot_ok_epoch sl : slot_ok sl -> sl_slot sl / ch_spe ch <> U64_MAX.
Proof.
  intros (_ & Hpos & H0 & Hmax).
  assert (sl_slot sl / ch_spe ch <= sl_slot sl) by (apply Z.div_le_upper_bound; nia). lia.
Qed.

#[local] Arguments slot_duties : simpl never.
#[local] Arguments resolve_duties : simpl never.

(** A resolution whose errors are only logged. *)
Lemma ignore_err_spec now sl ans st :
  Inv now st -> slot_ok sl -> truthful (sl_slot sl / ch_spe ch) ans -> now <= sl_slot sl ->
  exists st', ignore_err (resolve_duties hex_decode ho ans sl) st = (st', Ok tt) /\
    Inv (sl_slot sl) st' /\ ticked st' = ticked st /\ triggered st' = triggered st /\
    (healthy (sl_slot sl / ch_spe ch) ans -> resolved_epoch st' = sl_slot sl / ch_spe ch).
Proof.
  intros HI Hsl Htr Hnow. destruct (resolve_duties_spec now sl ans st HI Hsl Htr) as (st' & r & Er & Hr).
  pose proof (resolve_duties_ok now sl ans st HI Hsl Htr) as Hok. rewrite Er in Hok. cbn in Hok.
  unfold ignore_err, p_catch. rewrite Er. destruct Hr as (R1 & R2 & R3). exists st'.
  destruct r as [[]|err|]; [| |done]; destruct R3 as [R3 R4].
  - by split_and!.
  - split_and!; [done|by eapply Inv_later|done|done|]. intros Hh. by specialize (Hok Hh).
Qed.

Lemma last_in_epoch_ok sl : slot_ok sl -> exists b, last_in_epoch sl = Ok b.
Proof.
  intros (Hspe & Hpos & _). unfold last_in_epoch. rewrite Hspe.
  destruct (Z.eqb_spec (ch_spe ch) 0); [lia|eauto].
Qed.

Lemma schedule_slot_spec now sl ans ans_next st :
  Inv now st -> now <= sl_slot sl -> tick_ok sl ans ans_next ->
  exists st' new, schedule_slot hex_decode ho ans ans_next sl st = (st', Ok tt) /\
    Inv (sl_slot sl + 1) st' /\ triggered st' = triggered st ++ new /\ ticked st' = ticked st /\
    triggers_sound (sl_slot sl) new /\
    (healthy (sl_slot sl / ch_spe ch) ans \/ resolved_epoch st = sl_slot sl / ch_spe ch ->
     triggers_complete (sl_slot sl) new).
Proof.
  intros HI Hnow [Hsl Hnext Htr Htr']. unfold schedule_slot.
  rewrite (epoch_ok _ Hsl). cbn [total]. rewrite p_lift_bind. proc_simp.
  set (e := sl_slot sl / ch_spe ch) in *.
  assert (exists st1, (if resolved_epoch st =? e then mret tt
      else ignore_err (resolve_duties hex_decode ho ans sl)) st = (st1, Ok tt) /\
      Inv (sl_slot sl) st1 /\ ticked st1 = ticked st /\ triggered st1 = triggered st /\
      (healthy e ans \/ resolved_epoch st = e -> resolved_epoch st1 = e)) as (st1 & E1 & I1 & T1 & U1 & C1).
  { destruct (Z.eqb_spec (resolved_epoch st) e) as [He|He].
    - exists st. split_and!; try done. by eapply Inv_later.
    - destruct (ignore_err_spec now sl ans st HI Hsl Htr Hnow) as (st1 & E1 & I1 & T1 & U1 & C1).
      exists st1. split_and!; try done. intros [Hh|]; [by apply C1|done]. }
  erewrite proc_step by exact E1. proc_simp.
  destruct (last_in_epoch_ok sl Hsl) as [last El]. rewrite El. cbn [total].
  set (st2 := st1 <| triggered ::= fun l => l ++ slot_duties st1 (sl_slot sl) |>).
  assert (Inv (sl_slot sl) st2) as I2 by (destruct I1; by constructor).
  assert (triggers_sound (sl_slot sl) (slot_duties st1 (sl_slot sl))) as Hs by (by eapply slot_duties_sound).
  assert (healthy e ans \/ resolved_epoch st = e ->
    triggers_complete (sl_slot sl) (slot_duties st1 (sl_slot sl))) as Hc.
  { intros Hh%C1. eapply slot_duties_complete; [exact I1|done| |lia]. rewrite Hh. by apply slot_ok_epoch. }
  exists (if last then (ignore_err (resolve_duties hex_decode ho ans_next (next_slot sl)) st2).1 else st2),
    (slot_duties st1 (sl_slot sl)).
  destruct last.
  - assert (sl_slot (next_slot sl) = sl_slot sl + 1) as Hn.
    { cbn. unfold slot_next. destruct Hsl as (_ & ? & ? & ?). lia. }
    destruct (ignore_err_spec (sl_slot sl) (next_slot sl) ans_next st2 I2 Hnext Htr') as
      (st3 & E3 & I3 & T3 & U3 & _); [lia|].
    rewrite E3. cbn [fst]. rewrite Hn in I3.
    split_and!; [reflexivity|exact I3|by rewrite U3; cbn; rewrite U1|by rewrite T3|exact Hs|exact Hc].
  - split_and!; [reflexivity|eapply Inv_later; [exact I2|lia]|by cbn; rewrite U1|exact T1|exact Hs|exact Hc].
Qed.

(** ** Runs of the actor *)

Lemma Inv_init : Inv 0 (actor_new (ch_spe ch)).
Proof. constructor; try done. Qed.

Lemma reorg_spec now e st :
  Inv now st ->
  exists st', handle_chain_reorg e st = (st', Ok tt) /\ Inv now st' /\
    triggered st' = triggered st /\ ticked st' = ticked st.
Proof.
  intros HI. unfold handle_chain_reorg. proc_simp.
  destruct (e <? resolved_epoch st); [|by eexists].
  destruct (trim_duties_spec (resolved_epoch st) st (i_indexed _ _ HI))
    as (st1 & E1 & T1 & T2 & T3 & T4 & T5 & T6).
  erewrite proc_step by exact E1. eexists. split; [reflexivity|]. cbn. split_and!; try done.
  destruct HI as [I1 I2 I3 I4 I5]. constructor; cbn; [congruence|done|..|done].
  - intros s pk. change (entry st1 (new_attester_duty s) pk = entry st1 (new_aggregator_duty s) pk).
    rewrite !T6, (I3 s pk). done.
  - intros d pk def. change (entry st1 d pk = Some def -> due ch d pk = Some def).
    rewrite T6. case_decide; [done|]. apply I4.
Qed.

(** Sequences of events whose ticks move forward and get true answers. *)
Fixpoint events_ok (now : Z) (es : list SchedulerEvent) : Prop :=
  match es with
  | [] => True
  | EvSlot sl ans ans_next :: es =>
      now <= sl_slot sl /\ tick_ok sl ans ans_next /\ events_ok (sl_slot sl + 1) es
  | _ :: es => events_ok now es
  end.

Fixpoint next_now (now : Z) (es : list SchedulerEvent) : Z :=
  match es with
  | [] => now
  | EvSlot sl _ _ :: es => next_now (sl_slot sl + 1) es
  | _ :: es => next_now now es
  end.

Fixpoint run_events (es : list SchedulerEvent)
    : proc SchedulerActor SchedulerError (list (option (res SchedulerError DutyDefinitionSet))) :=
  match es with
  | [] => mret []
  | e :: es => r ← run_event hex_decode ho e; rs ← run_events es; mret (r :: rs)
  end.

Lemma get_duty_definition_state d st : (get_duty_definition d st).1 = st.
Proof.
  unfold get_duty_definition. proc_simp. case_decide; [done|]. rewrite p_lift_bind.
  destruct (_ =? 0); [done|]. destruct (negb _); [done|]. by destruct (is_epoch_trimmed _ _).
Qed.

(** What a query is answered, on every branch. *)
Definition query_answer (d : Duty) (st : SchedulerActor) : res SchedulerError DutyDefinitionSet :=
  if decide (duty_type d = BuilderProposer) then Err SchedDeprecatedDutyBuilderProposer
  else if negb (is_epoch_resolved st (epoch_of ch d)) then Err (EpochNotResolved (epoch_of ch d) d)
  else if is_epoch_trimmed st (epoch_of ch d) then Err (EpochAlreadyTrimmed (epoch_of ch d) d)
  else ok_or (duties st !! d) (DutyNotFound (epoch_of ch d) d).

Lemma get_duty_definition_answer now d st :
  Inv now st -> get_duty_definition d st = (st, query_answer d st).
Proof.
  intros HI. unfold get_duty_definition, query_answer. proc_simp. case_decide; [done|].
  rewrite p_lift_bind, (i_spe _ _ HI). pose proof (co_spe _ Hch).
  destruct (Z.eqb_spec (ch_spe ch) 0); [lia|]. fold (epoch_of ch d).
  destruct (negb _); [done|]. by destruct (is_epoch_trimmed _ _).
Qed.

Lemma run_events_spec es now st :
  Inv now st -> events_ok now es ->
  exists st' rs, run_events es st = (st', Ok rs) /\ Inv (next_now now es) st'.
Proof.
  revert now st. induction es as [|e es IH]; intros now st HI Hes; [by exists st, []|].
  assert (exists st1 r, run_event hex_decode ho e st = (st1, Ok r) /\ Inv (next_now now [e]) st1 /\
    events_ok (next_now now [e]) es) as (st1 & r & E1 & I1 & Hes1).
  { destruct e as [ep|d|sl ans ans_next]; cbn in Hes |- *.
    - destruct (reorg_spec now ep st HI) as (st1 & E1 & I1 & _). erewrite proc_step by exact E1.
      by eexists _, _.
    - unfold p_catch, mbind, proc_bind. rewrite (get_duty_definition_answer now d st HI).
      assert (query_answer d st <> Panic) as Hn.
      { unfold query_answer. repeat case_match; try done. apply ok_or_no_panic. }
      destruct (query_answer d st); [| |done]; by eexists _, _.
    - destruct Hes as (Hnow & Htick & Hes). proc_simp.
      set (st0 := st <| ticked ::= fun l => l ++ [sl] |>).
      assert (Inv now st0) as I0 by (destruct HI; by constructor).
      destruct (schedule_slot_spec now sl ans ans_next st0 I0 Hnow Htick) as (st1 & new & E1 & I1 & _).
      erewrite proc_step by exact E1. by eexists _, _. }
  destruct (IH _ _ I1 Hes1) as (st2 & rs & E2 & I2). exists st2, (r :: rs). split.
  - cbn. erewrite proc_step by exact E1. by erewrite proc_step by exact E2.
  - destruct e; exact I2.
Qed.
End facts.

(** ** Theorems *)

(** The state before and after a tick, however the actor got there. *)
Lemma run_events_tick hex_decode ho ch es sl ans ans_next :
  chain_ok ch -> events_ok hex_decode ho ch 0 (es ++ [EvSlot sl ans ans_next]) ->
  exists st rs st' new,
    run_events hex_decode ho es (actor_new (ch_spe ch)) = (st, Ok rs) /\
    run_event hex_decode ho (EvSlot sl ans ans_next) st = (st', Ok None) /\
    triggered st' = triggered st ++ new /\ ticked st' = ticked st ++ [sl] /\
    triggers_sound ch (sl_slot sl) new /\
    (healthy hex_decode ho (sl_slot sl / ch_spe ch) ans \/
     resolved_epoch st = sl_slot sl / ch_spe ch -> triggers_complete ch (sl_slot sl) new).
Proof.
  intros Hch Hes.
  assert (forall now, events_ok hex_decode ho ch now (es ++ [EvSlot sl ans ans_next]) ->
    events_ok hex_decode ho ch now es /\ next_now now es <= sl_slot sl /\
    tick_ok hex_decode ho ch sl ans ans_next) as Hsplit.
  { clear Hes. induction es as [|e es IH]; intros now; cbn; [tauto|].
    destruct e; cbn; [apply IH|apply IH|]. intros (? & ? & ?%IH). tauto. }
  destruct (Hsplit 0 Hes) as (Hes1 & Hnow & Htick).
  destruct (run_events_spec hex_decode ho ch Hch es 0 _ (Inv_init ch) Hes1) as (st & rs & E1 & I1).
  set (st0 := st <| ticked ::= fun l => l ++ [sl] |>).
  assert (Inv ch (next_now 0 es) st0) as I0 by (destruct I1; by constructor).
  destruct (schedule_slot_spec hex_decode ho ch Hch _ sl ans ans_next st0 I0 Hnow Htick)
    as (st' & new & E2 & I2 & U2 & T2 & S2 & C2).
  exists st, rs, st', new. split_and!; [done| |done|by rewrite T2|done|done].
  cbn. proc_simp. by erewrite proc_step by exact E2.
Qed.



(** ** The slot ticker *)

Section ticker_facts.
Context (genesis_time slot_duration spe : Z).
Context (ms : Z) (Hms : 0 < ms) (Hdur : slot_duration = ms * 1000000).

(** The [k]th slot. *)
Definition nth_slot (k : Z) : Slot :=
  {| sl_slot := k; sl_time := genesis_time + k * slot_duration; sl_duration := slot_duration;
     sl_per_epoch := spe |}.

(** Times after genesis that chrono and the slot counter can hold. *)
Definition time_ok (now : Z) : Prop :=
  genesis_time <= now /\ num_milliseconds (now - genesis_time) < I64_MAX.

Lemma next_nth_slot k : 0 <= k < U64_MAX -> next_slot (nth_slot k) = nth_slot (k + 1).
Proof.
  intros Hk. unfold next_slot, nth_slot, slot_next. cbn. rewrite Z.min_l by lia. f_equal. lia.
Qed.

Lemma current_slot_spec now :
  time_ok now ->
  exists k, current_slot genesis_time slot_duration spe now = Ok (nth_slot k) /\ 0 <= k < I64_MAX /\
    sl_time (nth_slot k) <= now < sl_time (nth_slot (k + 1)).
Proof.
  intros [Hg Hi]. unfold current_slot, num_milliseconds in *. rewrite Hdur.
  rewrite Z.quot_mul by lia. rewrite Z.quot_div_nonneg in * by lia.
  set (age := (now - genesis_time) / 1000000) in *.
  assert (0 <= age) by (apply Z.div_pos; lia).
  unfold checked_div_i64, checked_mul_i64. destruct (Z.eqb_spec ms 0); [lia|].
  rewrite Z.quot_div_nonneg by lia.
  assert (0 <= age / ms <= age) by (split; [apply Z.div_pos; lia|apply Z.div_le_upper_bound; nia]).
  rewrite guard_i64_in by (unfold I64_MIN in *; lia). cbn.
  pose proof (Z.div_mod age ms ltac:(lia)). pose proof (Z.mod_pos_bound age ms Hms).
  rewrite guard_i64_in by (unfold I64_MIN in *; nia). cbn.
  pose proof (Z.div_mod (now - genesis_time) 1000000 ltac:(lia)).
  pose proof (Z.mod_pos_bound (now - genesis_time) 1000000 ltac:(lia)). fold age in H2.
  exists (age / ms). split_and!; [|lia|lia|..].
  - unfold nth_slot. rewrite Z.mod_small by (unfold I64_MAX in *; lia). rewrite Hdur. do 2 f_equal. lia.
  - cbn. rewrite Hdur. nia.
  - cbn. rewrite Hdur. nia.
Qed.

Lemma ticker_step_spec k now :
  0 <= k < I64_MAX -> time_ok now -> sl_time (nth_slot k) <= now ->
  exists k', ticker_step genesis_time slot_duration spe (nth_slot k) now =
      Ok (nth_slot k', nth_slot (k' + 1)) /\ k <= k' < I64_MAX /\
    sl_time (nth_slot k') <= now <= sl_time (nth_slot (k' + 1)).
Proof.
  intros Hk Ht Hnow. unfold ticker_step.
  rewrite next_nth_slot by (unfold I64_MAX, U64_MAX in *; lia).
  destruct (Z.ltb_spec (sl_time (nth_slot (k + 1))) now) as [Hlt|Hle].
  - destruct (current_slot_spec now Ht) as (k' & E & Hk' & Hn). rewrite E. cbn.
    rewrite next_nth_slot by (unfold I64_MAX, U64_MAX in *; lia). exists k'. cbn in *.
    assert (k < k' + 1) by nia. split_and!; try done; lia.
  - cbn. rewrite next_nth_slot by (unfold I64_MAX, U64_MAX in *; lia). exists k. by split_and!; try lia.
Qed.

(** The sleep of each round ends when the awaited slot has begun. *)
Fixpoint sleeps (sl : Slot) (nows : list Z) : Prop :=
  match nows with
  | [] => True
  | now :: nows =>
      sl_time sl <= now /\ time_ok now /\
      match ticker_step genesis_time slot_duration spe sl now with
      | Ok (_, next) => sleeps next nows
      | _ => True
      end
  end.

End ticker_facts.


(** ** Subscribers *)

Inductive SubEvent (A : Type) := SubSend (x : A) | SubRecv.
Arguments SubSend {A} _.
Arguments SubRecv {A}.

Fixpoint sub_run {A} (cap : nat) (evs : list (SubEvent A)) (sent : list A) (s : Subscriber (A := A))
    : list A * Subscriber (A := A) :=
  match evs with
  | [] => (sent, s)
  | SubSend x :: evs => sub_run cap evs (sent ++ [x]) s
  | SubRecv :: evs => sub_run cap evs sent (subscriber_step cap sent false s)
  end.

(** A subscriber sees the values sent after it subscribed, in order and without
    gaps; it is only dropped when more than the capacity was waiting for it. *)
Theorem subscribers_in_order {A} cap (evs : list (SubEvent A)) sent0 sent s :
  sub_run cap evs sent0 (subscribe sent0) = (sent, s) ->
  delivered s = take (length (delivered s)) (drop (length sent0) sent) /\
  position s = (length sent0 + length (delivered s))%nat /\
  (ended s = true -> (cap < length sent - position s)%nat).
Proof.
  assert (forall sent1 s1, sub_run cap evs sent1 s1 = (sent, s) ->
    delivered s1 = take (length (delivered s1)) (drop (length sent0) sent1) /\
    position s1 = (length sent0 + length (delivered s1))%nat /\
    (position s1 <= length sent1)%nat /\
    (ended s1 = true -> (cap < length sent1 - position s1)%nat) ->
    delivered s = take (length (delivered s)) (drop (length sent0) sent) /\
    position s = (length sent0 + length (delivered s))%nat /\
    (ended s = true -> (cap < length sent - position s)%nat)) as H.
  { induction evs as [|[x|] evs IH]; intros sent1 s1; cbn; [intros [= <- <-]; tauto|..];
      intros Hr (H1 & H2 & H3 & H4); apply (IH _ _ Hr); clear IH Hr.
    - split_and!; [|done|rewrite length_app; lia|rewrite length_app; intros Hx%H4; cbn; lia].
      rewrite drop_app_le, take_app_le by (rewrite ?length_drop; lia). done.
    - unfold subscriber_step. destruct (ended s1) eqn:Ee; [by rewrite Ee|].
      destruct (sent1 !! position s1) as [x|] eqn:Ex; [|by rewrite Ee].
      destruct (Nat.ltb_spec cap (length sent1 - position s1)) as [Hl|Hl]; cbn; [done|].
      apply lookup_lt_Some in Ex as Hp. rewrite length_app. cbn. split_and!; [|lia|lia|congruence].
      rewrite Nat.add_1_r. rewrite (take_S_r _ _ x); [by rewrite <-H1|].
      rewrite lookup_drop. by rewrite <-H2. }
  intros Hr. apply (H _ _ Hr). cbn. split_and!; [by rewrite drop_all|lia|lia|done].
Qed.

(** ** Validator status *)

(** At any time exactly the series of the last reported status is at one. *)
Theorem status_series reports m :
  foldl (fun m '(pk, st) => submit_validator_status_metric pk st m)
    {| last_status := ∅; gauge := ∅ |} reports = m ->
  forall pk st, gauge m !! (pk, st) = Some 1 <-> last_status m !! pk = Some st.
Proof.
  assert (forall m0, (forall pk st, gauge m0 !! (pk, st) = Some 1 <-> last_status m0 !! pk = Some st) ->
    foldl (fun m '(pk, st) => submit_validator_status_metric pk st m) m0 reports = m ->
    forall pk st, gauge m !! (pk, st) = Some 1 <-> last_status m !! pk = Some st) as H.
  { induction reports as [|[pk0 st0] reports IH]; intros m0 Hm; cbn; [by intros <-|].
    apply IH. clear IH. intros pk st. unfold submit_validator_status_metric.
    destruct (last_status m0 !! pk0) as [prev|] eqn:El; [destruct (decide (prev = st0)) as [->|]|];
      cbn; rewrite !lookup_insert; repeat case_decide; simplify_eq; try (rewrite Hm); naive_solver. }
  apply H. intros pk st. cbn. by rewrite !lookup_empty.
Qed.

(** ** A sample chain

    Two slots per epoch; in the first epoch one validator attests in slot 1 and
    is in the sync committee. *)
Module SchedulerSample.

Definition pk : PubKey := replicate 48 7.

Definition att_def : AttesterDutyDefinition :=
  {| at_pubkey := pk; at_duty := {| ad_slot := 1; ad_validator_index := 5; ad_committee_index := 2;
       ad_committee_length := 64; ad_committees_at_slot := 3; ad_validator_committee_index := 9 |} |}.

Definition sync_def : SyncCommitteeDutyDefinition :=
  {| sy_pubkey := pk; sy_validator_index := 5; sy_validator_sync_committee_indices := [4] |}.

Definition chain : Chain := {|
  ch_spe := 2;
  ch_vals := fun _ => {[5 := pk]};
  ch_att := fun e => if e =? 0 then [att_def] else [];
  ch_pro := fun _ => [];
  ch_syn := fun e => if e =? 0 then [sync_def] else [] |}.

Definition pk_text : string := pubkey_to_string hex_text pk.

Definition answers : BeaconAnswers := {|
  ans_validators := Ok {[5 := {| vd_index := "5"; vd_status := ActiveOngoing; vd_pubkey := pk_text;
                                vd_activation_epoch := "0" |}]};
  ans_attester := ResOk [{| adt_pubkey := pk_text; adt_validator_index := "5"; adt_slot := "1";
    adt_committee_index := "2"; adt_committee_length := "64"; adt_committees_at_slot := "3";
    adt_validator_committee_index := "9" |}];
  ans_proposer := ResOk [];
  ans_sync := ResOk [{| sdt_pubkey := pk_text; sdt_validator_index := "5";
    sdt_validator_sync_committee_indices := ["4"] |}] |}.

Definition silent : BeaconAnswers :=
  {| ans_validators := Err RequestError; ans_attester := ResFail; ans_proposer := ResFail;
     ans_sync := ResFail |}.

Definition at_slot (k : Z) : Slot :=
  {| sl_slot := k; sl_time := 12 * k; sl_duration := 12; sl_per_epoch := 2 |}.

Lemma chain_is_ok : chain_ok chain.
Proof.
  constructor; cbn [chain ch_spe ch_vals ch_att ch_pro ch_syn].
  - done.
  - intros e d. destruct (Z.eqb_spec e 0) as [->|];
      [by intros ->%list_elem_of_singleton|by intros ?%not_elem_of_nil].
  - by intros e d ?%not_elem_of_nil.
  - intros e d pk'. destruct (Z.eqb_spec e 0) as [->|]; [|by intros ?%not_elem_of_nil].
    intros ->%list_elem_of_singleton. cbn. intros H. by simplify_map_eq.
  - by intros e d pk' ?%not_elem_of_nil.
  - intros e d pk'. destruct (Z.eqb_spec e 0) as [->|]; [|by intros ?%not_elem_of_nil].
    intros ->%list_elem_of_singleton. cbn. intros H. by simplify_map_eq.
Qed.

Lemma find_pubkey_one i :
  find_pubkey [{| v_pubkey := pk; v_v_idx := 5 |}] i = ({[5 := pk]} : gmap Z PubKey) !! i.
Proof.
  unfold find_pubkey. cbn [List.find v_v_idx]. rewrite lookup_singleton.
  destruct (Z.eqb_spec 5 i), (decide (5 = i)); congruence || done.
Qed.

Lemma answers_truthful : truthful hex_parse default_order chain 0 answers.
Proof.
  constructor.
  - done.
  - intros vs Hvs i. vm_compute in Hvs. injection Hvs as <-. apply find_pubkey_one.
  - intros l Hl. vm_compute in Hl. by injection Hl as <-.
  - intros l Hl. vm_compute in Hl. by injection Hl as <-.
  - intros l Hl. vm_compute in Hl. by injection Hl as <-.
Qed.

Lemma silent_truthful e : truthful hex_parse default_order chain e silent.
Proof. constructor; done. Qed.

Lemma answers_healthy : healthy hex_parse default_order 0 answers.
Proof. constructor; eexists; vm_compute; reflexivity. Qed.

Lemma slot_ok_at k : 0 <= k <= 10 -> slot_ok chain (at_slot k).
Proof. intros Hk. split_and!; cbn; unfold U64_MAX; lia. Qed.

(** The beacon node is silent in slot 0 and answers in slot 1. *)
Definition events : list SchedulerEvent :=
  [EvReorg 3; EvSlot (at_slot 0) silent silent; EvGet (new_attester_duty 1)].

Lemma events_are_ok :
  events_ok hex_parse default_order chain 0 (events ++ [EvSlot (at_slot 1) answers silent]).
Proof.
  cbn. split_and!; try done; constructor;
    first [apply silent_truthful | apply answers_truthful | by apply (slot_ok_at 0)
          | by apply (slot_ok_at 1) | by apply (slot_ok_at 2)].
Qed.


End SchedulerSample.
