(* ===== verification/ChainSpec.v ===== *)
(** * Chain constants, forks and signing domains

    [crates/eth2api/src/extensions.rs] (the chain spec, fork schedule and
    domains), [crates/eth2util/src/signing.rs] (signing roots),
    [crates/eth2util/src/eth2exp.rs] (aggregator selection),
    [crates/eth2util/src/network.rs] (known networks) and the slot arithmetic of
    [crates/eth2util/src/helpers.rs].  The spec and the genesis data are what the
    beacon node answers; hashing, hexadecimal text and BLS verification are
    parameters. *)

From S2P Require Import Prelude Bytes Types Version DutyDefs.

Open Scope Z_scope.

(** ** The chain spec *)

(** A JSON value of the spec; the code only looks at strings. *)
Inductive Json := JStr (s : string) | JOther.

Abbreviation Spec := (gmap string Json).

Record GenesisData := {
  g_genesis_time : string;
  g_genesis_fork_version : string;
  g_genesis_validators_root : string;
}.

(** What the endpoints for the spec and for genesis answer; both are constants
    of a chain. *)
Record Client := {
  get_spec : res ApiError Spec;
  get_genesis : res ApiError GenesisData;
}.

Definition as_str (j : Json) : option string := match j with JStr s => Some s | JOther => None end.

Definition required_str_field (spec : Spec) (field : string) : res ApiError string :=
  ok_or (spec !! field ≫= as_str) (ParseError ("missing " +:+ field)).

Definition parse_u64_field (spec : Spec) (field : string) : res ApiError Z :=
  s ← required_str_field spec field;
  ok_or (parse_u64 s) (ParseError ("parse " +:+ field)).

(** [ConsensusVersion], and the constant [FORKS]. *)
Inductive Fork := Altair | Bellatrix | Capella | Deneb | Electra | Fulu.

#[global] Instance Fork_eq_dec : EqDecision Fork.
Proof. solve_decision. Defined.

Definition FORKS : list Fork := [Altair; Bellatrix; Capella; Deneb; Electra; Fulu].

#[global] Instance Fork_countable : Countable Fork.
Proof.
  refine (inj_countable
    (fun f => match f with Altair => 0 | Bellatrix => 1 | Capella => 2 | Deneb => 3 | Electra => 4
                         | Fulu => 5 end%nat)
    (fun n => FORKS !! n) _).
  by intros [].
Defined.

(** [fork.to_string().to_uppercase()] *)
Definition fork_upper (f : Fork) : string :=
  match f with
  | Altair => "ALTAIR" | Bellatrix => "BELLATRIX" | Capella => "CAPELLA"
  | Deneb => "DENEB" | Electra => "ELECTRA" | Fulu => "FULU"
  end.

Record ForkSchedule := { fs_version : list Z; fs_epoch : Z }.

Section spec.
Context (hex_decode : string -> option (list Z)).

Definition decode_fixed_hex (n : Z) (value step : string) : res ApiError (list Z) :=
  bytes ← ok_or (hex_decode (strip_0x value)) (ParseError step);
  if len bytes =? n then Ok bytes else Err (ParseError step).

Definition parse_genesis_fork_version_and_validators_root (g : GenesisData)
    : res ApiError (list Z * list Z) :=
  fork_version ← decode_fixed_hex 4 (g_genesis_fork_version g) "decode genesis_fork_version";
  validators_root ← decode_fixed_hex 32 (g_genesis_validators_root g) "decode genesis_validators_root";
  Ok (fork_version, validators_root).

Definition fetch_fork (fork : Fork) (spec : Spec) : res ApiError ForkSchedule :=
  let version_field := (fork_upper fork +:+ "_FORK_VERSION")%string in
  value ← required_str_field spec version_field;
  version ← decode_fixed_hex 4 value ("decode " +:+ version_field);
  epoch ← parse_u64_field spec (fork_upper fork +:+ "_FORK_EPOCH");
  Ok {| fs_version := version; fs_epoch := epoch |}.

Fixpoint fork_schedule_loop (spec : Spec) (forks : list Fork) (result : gmap Fork ForkSchedule)
    : res ApiError (gmap Fork ForkSchedule) :=
  match forks with
  | [] => Ok result
  | fork :: forks =>
      fork_schedule ← fetch_fork fork spec;
      fork_schedule_loop spec forks (<[fork := fork_schedule]> result)
  end.

Definition fork_schedule_from_spec (spec : Spec) : res ApiError (gmap Fork ForkSchedule) :=
  fork_schedule_loop spec FORKS ∅.

Definition resolve_domain_type (spec : Spec) (spec_key : string) : res ApiError (list Z) :=
  raw ← ok_or (spec !! spec_key ≫= as_str) (DomainTypeNotFound spec_key);
  decode_fixed_hex 4 raw ("decode " +:+ spec_key).

Fixpoint resolve_fork_version_loop (epoch : Z) (schedule : gmap Fork ForkSchedule)
    (forks : list Fork) (active_version : list Z) : list Z :=
  match forks with
  | [] => active_version
  | fork :: forks =>
      resolve_fork_version_loop epoch schedule forks
        match schedule !! fork with
        | None => active_version
        | Some s => if fs_epoch s <=? epoch then fs_version s else active_version
        end
  end.

Definition resolve_fork_version (epoch : Z) (genesis_fork_version : list Z)
    (schedule : gmap Fork ForkSchedule) : list Z :=
  resolve_fork_version_loop epoch schedule FORKS genesis_fork_version.

(** [tree_hash_root] of [ForkData]. *)
Context (fork_data_root : list Z -> list Z -> list Z).

Definition ZERO_ROOT : list Z := replicate 32 0.

Definition compute_domain (domain_type fork_version genesis_validators_root : list Z) : list Z :=
  domain_type ++ take 28 (fork_data_root fork_version genesis_validators_root).

Definition compute_builder_domain (domain_type genesis_fork_version : list Z) : list Z :=
  compute_domain domain_type genesis_fork_version ZERO_ROOT.

Definition resolve_domain (domain_type voluntary_exit_domain_type : list Z)
    (schedule : gmap Fork ForkSchedule) (genesis_fork_version genesis_validators_root : list Z)
    (epoch : Z) : list Z :=
  let fork_version :=
    if decide (domain_type = voluntary_exit_domain_type) then
      match schedule !! Capella with Some s => fs_version s | None => genesis_fork_version end
    else resolve_fork_version epoch genesis_fork_version schedule in
  compute_domain domain_type fork_version genesis_validators_root.

(** [fetch_slots_config]; the slot duration in seconds. *)
Definition fetch_slots_config (c : Client) : res ApiError (Z * Z) :=
  spec ← get_spec c;
  slot_duration ← parse_u64_field spec "SECONDS_PER_SLOT";
  slots_per_epoch ← parse_u64_field spec "SLOTS_PER_EPOCH";
  if (slot_duration =? 0) || (slots_per_epoch =? 0) then Err ZeroSlotDurationOrSlotsPerEpoch
  else Ok (slot_duration, slots_per_epoch).

Definition fetch_domain_type (c : Client) (spec_key : string) : res ApiError (list Z) :=
  spec ← get_spec c;
  resolve_domain_type spec spec_key.

Definition fetch_genesis_domain (c : Client) (domain_type : list Z) : res ApiError (list Z) :=
  genesis ← get_genesis c;
  '(genesis_fork_version, _) ← parse_genesis_fork_version_and_validators_root genesis;
  Ok (compute_domain domain_type genesis_fork_version ZERO_ROOT).

Definition fetch_domain (c : Client) (domain_type : list Z) (epoch : Z) : res ApiError (list Z) :=
  spec ← get_spec c;
  fork_schedule ← fork_schedule_from_spec spec;
  genesis ← get_genesis c;
  '(genesis_fork_version, genesis_validators_root) ←
    parse_genesis_fork_version_and_validators_root genesis;
  voluntary_exit_domain_type ← resolve_domain_type spec "DOMAIN_VOLUNTARY_EXIT";
  Ok (resolve_domain domain_type voluntary_exit_domain_type fork_schedule genesis_fork_version
        genesis_validators_root epoch).

(** ** Signing roots *)

Inductive DomainName :=
| BeaconProposer | BeaconAttester | DomRandao | DomVoluntaryExit | ApplicationBuilder | SelectionProof
| DomAggregateAndProof | SyncCommittee | SyncCommitteeSelectionProof | DomContributionAndProof | DomDeposit
| BlobSidecar.

#[global] Instance DomainName_eq_dec : EqDecision DomainName.
Proof. solve_decision. Defined.

Definition as_spec_key (d : DomainName) : string :=
  match d with
  | BeaconProposer => "DOMAIN_BEACON_PROPOSER"
  | BeaconAttester => "DOMAIN_BEACON_ATTESTER"
  | DomRandao => "DOMAIN_RANDAO"
  | DomVoluntaryExit => "DOMAIN_VOLUNTARY_EXIT"
  | ApplicationBuilder => "DOMAIN_APPLICATION_BUILDER"
  | SelectionProof => "DOMAIN_SELECTION_PROOF"
  | DomAggregateAndProof => "DOMAIN_AGGREGATE_AND_PROOF"
  | SyncCommittee => "DOMAIN_SYNC_COMMITTEE"
  | SyncCommitteeSelectionProof => "DOMAIN_SYNC_COMMITTEE_SELECTION_PROOF"
  | DomContributionAndProof => "DOMAIN_CONTRIBUTION_AND_PROOF"
  | DomDeposit => "DOMAIN_DEPOSIT"
  | BlobSidecar => "DOMAIN_BLOB_SIDECAR"
  end.

Inductive SigningError :=
| BeaconNode (e : ApiError)
| ZeroSignature
| Verification.

(** [tree_hash_root] of [SigningData], and [BlstImpl.verify] of a public key, a
    message and a signature. *)
Context (signing_data_root : list Z -> list Z -> list Z)
  (bls_verify : list Z -> list Z -> list Z -> bool).

Definition compute_signing_root (message_root domain : list Z) : list Z :=
  signing_data_root message_root domain.

Definition get_domain (c : Client) (name : DomainName) (epoch : Z) : res SigningError (list Z) :=
  domain_type ← map_err BeaconNode (fetch_domain_type c (as_spec_key name));
  if decide (name = ApplicationBuilder) then map_err BeaconNode (fetch_genesis_domain c domain_type)
  else map_err BeaconNode (fetch_domain c domain_type epoch).

Definition get_data_root (c : Client) (name : DomainName) (epoch : Z) (root : list Z)
    : res SigningError (list Z) :=
  domain ← get_domain c name epoch;
  Ok (compute_signing_root root domain).

Definition verify (c : Client) (name : DomainName) (epoch : Z)
    (message_root signature pubkey : list Z) : res SigningError unit :=
  if decide (signature = replicate 96 0) then Err ZeroSignature
  else
    signing_root ← get_data_root c name epoch message_root;
    if bls_verify pubkey signing_root signature then Ok tt else Err Verification.

Definition verify_with_domain (domain message_root signature pubkey : list Z)
    : res SigningError unit :=
  if decide (signature = replicate 96 0) then Err ZeroSignature
  else if bls_verify pubkey (compute_signing_root message_root domain) signature then Ok tt
  else Err Verification.

(** ** Aggregator selection *)

Inductive Eth2ExpError :=
| GetSpec (e : ApiError)
| InvalidTargetAggregatorsPerCommittee
| InvalidSyncCommitteeSize
| InvalidSyncCommitteeSubnetCount
| InvalidTargetAggregatorsPerSyncSubcommittee
| ZeroTargetAggregatorsPerCommittee
| ZeroSyncCommitteeSubnetCount
| ZeroTargetAggregatorsPerSyncSubcommittee.

Context (sha256 : list Z -> list Z).

Definition spec_u64 (spec : Spec) (field : string) (e : Eth2ExpError) : res Eth2ExpError Z :=
  ok_or (j ← spec !! field; str ← as_str j; parse_u64 str) e.

(** [u64::checked_div] *)
Definition checked_div_u64 (a b : Z) : option Z := if b =? 0 then None else Some (a / b).

(** The digest has 32 bytes, so the slice exists; [is_multiple_of] zero holds
    of zero only. *)
Definition hash_modulo (sig : list Z) (modulo : Z) : bool :=
  let as_u64 := le_value (take 8 (sha256 sig)) in
  if modulo =? 0 then as_u64 =? 0 else as_u64 mod modulo =? 0.

Definition is_att_aggregator (c : Client) (comm_len : Z) (slot_sig : list Z) : res Eth2ExpError bool :=
  spec ← map_err GetSpec (get_spec c);
  aggs_per_comm ← spec_u64 spec "TARGET_AGGREGATORS_PER_COMMITTEE" InvalidTargetAggregatorsPerCommittee;
  q ← ok_or (checked_div_u64 comm_len aggs_per_comm) ZeroTargetAggregatorsPerCommittee;
  Ok (hash_modulo slot_sig (Z.max q 1)).

Definition is_sync_comm_aggregator (c : Client) (sig : list Z) : res Eth2ExpError bool :=
  spec ← map_err GetSpec (get_spec c);
  comm_size ← spec_u64 spec "SYNC_COMMITTEE_SIZE" InvalidSyncCommitteeSize;
  comm_subnet_count ← spec_u64 spec "SYNC_COMMITTEE_SUBNET_COUNT" InvalidSyncCommitteeSubnetCount;
  aggs_per_comm ← spec_u64 spec "TARGET_AGGREGATORS_PER_SYNC_SUBCOMMITTEE"
                    InvalidTargetAggregatorsPerSyncSubcommittee;
  q ← ok_or (checked_div_u64 comm_size comm_subnet_count) ZeroSyncCommitteeSubnetCount;
  q ← ok_or (checked_div_u64 q aggs_per_comm) ZeroTargetAggregatorsPerSyncSubcommittee;
  Ok (hash_modulo sig (Z.max q 1)).
End spec.

(** ** Slots of timestamps *)

Inductive HelperError := GettingSpec | FetchSlotsPerEpoch | SlotComputation.

(** [chrono::DateTime::from_timestamp] accepts seconds up to [max_secs]; times
    are nanoseconds and a signed duration fits an [i64] of them or not. *)
Definition slot_from_timestamp (max_secs genesis_time slot_duration timestamp now : Z)
    : res HelperError Z :=
  timestamp ← ok_or (if timestamp <=? max_secs then Some (timestamp * 1000000000) else None)
                SlotComputation;
  let timestamp := if timestamp <? genesis_time then now else timestamp in
  slot ← ok_or (delta ← guard_i64 (timestamp - genesis_time);
                if delta <? 0 then None else checked_div_u64 delta slot_duration) SlotComputation;
  ok_or (guard_u64 slot) SlotComputation.

Definition epoch_from_slot (c : Client) (slot : Z) : res HelperError Z :=
  '(_, slots_per_epoch) ← map_err (fun _ => GettingSpec) (fetch_slots_config c);
  ok_or (checked_div_u64 slot slots_per_epoch) FetchSlotsPerEpoch.

(** ** Networks *)

Record Network := {
  chain_id : Z;
  net_name : string;
  genesis_fork_version_hex : string;
  genesis_timestamp : Z;
  capella_hard_fork : string;
}.

Definition is_non_zero (n : Network) : bool :=
  negb (bool_decide (net_name n = "")) && negb (chain_id n =? 0) && negb (genesis_timestamp n =? 0) &&
  negb (bool_decide (genesis_fork_version_hex n = "")).

Definition predefined : list Network :=
  let net c n v t h := {| chain_id := c; net_name := n; genesis_fork_version_hex := v;
                          genesis_timestamp := t; capella_hard_fork := h |} in
  [net 1 "mainnet" "0x00000000" 1606824023 "0x03000000";
   net 5 "goerli" "0x00001020" 1616508000 "0x03001020";
   net 100 "gnosis" "0x00000064" 1638993340 "0x03000064";
   net 10200 "chiado" "0x0000006f" 1665396300 "0x0300006f";
   net 11155111 "sepolia" "0x90000069" 1655733600 "0x90000072";
   net 17000 "holesky" "0x01017000" 1696000704 "0x04017000";
   net 560048 "hoodi" "0x10000910" 1742213400 "0x40000910"].

Inductive NetworkError :=
| InvalidName (name : string)
| InvalidForkVersion (fork_version : string)
| InvalidGenesisTimestamp (genesis_timestamp : Z).

(** The supported networks are a list behind a lock; [add_test_network] appends
    to it. *)
Definition add_test_network (networks : list Network) (n : Network) : list Network := networks ++ [n].

Section networks.
Context (hex_encode : list Z -> string) (hex_decode : string -> option (list Z)).
Context (networks : list Network).

Definition network_from_name (name : string) : res NetworkError Network :=
  ok_or (List.find (fun n => bool_decide (net_name n = name)) networks) (InvalidName name).

Definition network_from_fork_version (fork_version : string) : res NetworkError Network :=
  ok_or (List.find (fun n => bool_decide (strip_0x (genesis_fork_version_hex n) = strip_0x fork_version))
           networks) (InvalidForkVersion fork_version).

Definition fork_version_to_chain_id (fork_version : list Z) : res NetworkError Z :=
  n ← network_from_fork_version (hex_encode fork_version);
  Ok (chain_id n).

Definition fork_version_to_network (fork_version : list Z) : res NetworkError string :=
  n ← network_from_fork_version (hex_encode fork_version);
  Ok (net_name n).

Definition network_to_fork_version (name : string) : res NetworkError string :=
  n ← network_from_name name;
  Ok (genesis_fork_version_hex n).

Definition network_to_fork_version_bytes (name : string) : res NetworkError (list Z) :=
  fork_version ← network_to_fork_version name;
  ok_or (hex_decode (strip_0x fork_version)) (InvalidForkVersion fork_version).

Definition valid_network (name : string) : bool := is_Ok (network_from_name name).

(** The time in seconds; [from_timestamp] accepts up to [max_secs]. *)
Definition network_to_genesis_time (max_secs : Z) (name : string) : res NetworkError Z :=
  n ← network_from_name name;
  if genesis_timestamp n <=? max_secs then Ok (genesis_timestamp n)
  else Err (InvalidGenesisTimestamp (genesis_timestamp n)).

Definition fork_version_to_genesis_time (max_secs : Z) (fork_version : list Z) : res NetworkError Z :=
  n ← network_from_fork_version (hex_encode fork_version);
  network_to_genesis_time max_secs (net_name n).
End networks.

(** ** Theorems *)

Section theorems.
Context (hex_decode : string -> option (list Z)) (fork_data_root : list Z -> list Z -> list Z).
Context (signing_data_root : list Z -> list Z -> list Z).

Definition fork_active (epoch : Z) (schedule : gmap Fork ForkSchedule) (f : Fork) : Prop :=
  exists s, schedule !! f = Some s /\ fs_epoch s <= epoch.

Lemma resolve_loop_app epoch schedule a b v :
  resolve_fork_version_loop epoch schedule (a ++ b) v =
  resolve_fork_version_loop epoch schedule b (resolve_fork_version_loop epoch schedule a v).
Proof. revert v. induction a as [|f a IH]; intros v; cbn; [done|]. apply IH. Qed.

Lemma resolve_loop_inactive epoch schedule l v :
  (forall f, f ∈ l -> ~ fork_active epoch schedule f) -> resolve_fork_version_loop epoch schedule l v = v.
Proof.
  revert v. induction l as [|f l IH]; intros v Hl; cbn; [done|].
  rewrite IH by (intros g Hg; apply Hl; by right).
  destruct (schedule !! f) as [sc|] eqn:Ef; [|done].
  destruct (Z.leb_spec (fs_epoch sc) epoch); [|done].
  destruct (Hl f); [left|]. by exists sc.
Qed.

Lemma resolve_fork_version_latest epoch genesis schedule pre f post sc :
  FORKS = pre ++ f :: post -> schedule !! f = Some sc -> fs_epoch sc <= epoch ->
  (forall g, g ∈ post -> ~ fork_active epoch schedule g) ->
  resolve_fork_version epoch genesis schedule = fs_version sc.
Proof.
  intros Hf Hs He Hpost. unfold resolve_fork_version. rewrite Hf, resolve_loop_app. cbn.
  rewrite Hs, (proj2 (Z.leb_le _ _)) by lia. by apply resolve_loop_inactive.
Qed.

Lemma decode_fixed_hex_len n value step b :
  decode_fixed_hex hex_decode n value step = Ok b -> len b = n.
Proof. unfold decode_fixed_hex. intros H. inv_res. case_in H0; inv_res. zbool. congruence. Qed.

Lemma resolve_domain_type_len spec key t : resolve_domain_type hex_decode spec key = Ok t -> len t = 4.
Proof. unfold resolve_domain_type. intros H. inv_res. by eapply decode_fixed_hex_len. Qed.

(** Every domain starts with its type. *)
Lemma get_domain_type c name epoch d :
  get_domain hex_decode fork_data_root c name epoch = Ok d ->
  exists t rest, fetch_domain_type hex_decode c (as_spec_key name) = Ok t /\ len t = 4 /\ d = t ++ rest.
Proof.
  unfold get_domain. destruct (fetch_domain_type hex_decode c (as_spec_key name)) as [t|e|] eqn:Et; [|done..].
  cbn. intros Hd. exists t.
  assert (len t = 4) as Hl.
  { unfold fetch_domain_type in Et. inv_res. by eapply resolve_domain_type_len. }
  destruct (decide (name = ApplicationBuilder)).
  - destruct (fetch_genesis_domain _ _ _ _) as [d'|e'|] eqn:Eg; [|done..]. cbn in Hd. inv_res. subst d'.
    unfold fetch_genesis_domain in Eg. inv_res. destruct x0 as [v r]. inv_res. subst d.
    eexists. split_and!; [done|done|]. unfold compute_domain. reflexivity.
  - destruct (fetch_domain _ _ _ _ _) as [d'|e'|] eqn:Eg; [|done..]. cbn in Hd. inv_res. subst d'.
    unfold fetch_domain in Eg. inv_res. destruct x2 as [v r]. inv_res. subst d.
    eexists. split_and!; [done|done|]. unfold resolve_domain, compute_domain. reflexivity.
Qed.

(** Equal signing roots have equal messages and domains of one name. *)
Lemma data_root_inj c n1 e1 r1 n2 e2 r2 x :
  (forall r d r' d', signing_data_root r d = signing_data_root r' d' -> r = r' /\ d = d') ->
  (forall n n' t, fetch_domain_type hex_decode c (as_spec_key n) = Ok t ->
     fetch_domain_type hex_decode c (as_spec_key n') = Ok t -> n = n') ->
  get_data_root hex_decode fork_data_root signing_data_root c n1 e1 r1 = Ok x ->
  get_data_root hex_decode fork_data_root signing_data_root c n2 e2 r2 = Ok x ->
  r1 = r2 /\ n1 = n2.
Proof.
  intros Hinj Hdist H1 H2. unfold get_data_root in *.
  apply res_bind_Ok in H1 as (d1 & Hd1 & H1). apply res_bind_Ok in H2 as (d2 & Hd2 & H2).
  inv_res. subst x. apply Hinj in H2 as [-> ->]. split; [done|].
  destruct (get_domain_type _ _ _ _ Hd1) as (t1 & x1 & Ht1 & L1 & E1).
  destruct (get_domain_type _ _ _ _ Hd2) as (t2 & x2 & Ht2 & L2 & E2).
  assert (t1 = t2) as ->; [|by eapply Hdist].
  rewrite E1 in E2. apply app_inj_1 in E2 as [? _]; [done|]. unfold len in *. lia.
Qed.

(** A signing root commits to the message and to the kind of duty: two signing
    roots of one chain are equal only for equal messages of equal kinds, given
    that the hash of the pair has no collision and the chain's domain types are
    distinct.  So a signature made for one kind of duty verifies for no other. *)
Theorem signing_roots_separate c n1 e1 r1 n2 e2 r2 x :
  (forall r d r' d', signing_data_root r d = signing_data_root r' d' -> r = r' /\ d = d') ->
  (forall n n' t, fetch_domain_type hex_decode c (as_spec_key n) = Ok t ->
     fetch_domain_type hex_decode c (as_spec_key n') = Ok t -> n = n') ->
  get_data_root hex_decode fork_data_root signing_data_root c n1 e1 r1 = Ok x ->
  get_data_root hex_decode fork_data_root signing_data_root c n2 e2 r2 = Ok x ->
  r1 = r2 /\ n1 = n2.
Proof. apply data_root_inj. Qed.

Lemma schedule_loop_spec spec forks result schedule :
  NoDup forks -> fork_schedule_loop hex_decode spec forks result = Ok schedule ->
  forall f, if decide (f ∈ forks) then exists s, schedule !! f = Some s /\ fetch_fork hex_decode f spec = Ok s
            else schedule !! f = result !! f.
Proof.
  intros Hn. revert result. induction Hn as [|g l Hg Hl IH]; intros result; cbn.
  { intros [= ->] f. by rewrite decide_False by apply not_elem_of_nil. }
  intros H f. apply res_bind_Ok in H as (sg & Esg & H). specialize (IH _ H f).
  destruct (decide (f ∈ l)) as [Hf|Hf]; [rewrite decide_True by (by right); done|].
  destruct (decide (f = g)) as [->|Hne].
  - rewrite decide_True by left. exists sg. rewrite IH, lookup_insert_eq. done.
  - rewrite decide_False by set_solver. by rewrite IH, lookup_insert_ne by done.
Qed.

(** A fetched schedule has every fork, as the spec has it. *)
Lemma schedule_complete spec schedule f :
  fork_schedule_from_spec hex_decode spec = Ok schedule ->
  exists s, schedule !! f = Some s /\ fetch_fork hex_decode f spec = Ok s.
Proof.
  intros H. assert (NoDup FORKS) as Hn by (by apply (bool_decide_unpack (NoDup FORKS))).
  pose proof (schedule_loop_spec spec FORKS ∅ schedule Hn H f) as Hf.
  rewrite decide_True in Hf; [done|]. destruct f; by apply (bool_decide_unpack (_ ∈ FORKS)).
Qed.

(** The domain of an epoch is computed with the version of the latest fork that
    is active at that epoch; that of a voluntary exit with the Capella version,
    whatever the epoch. *)
Theorem domain_of_epoch c spec schedule dt vt epoch d pre f post sf sc :
  get_spec c = Ok spec -> fork_schedule_from_spec hex_decode spec = Ok schedule ->
  resolve_domain_type hex_decode spec "DOMAIN_VOLUNTARY_EXIT" = Ok vt ->
  fetch_domain hex_decode fork_data_root c dt epoch = Ok d ->
  FORKS = pre ++ f :: post -> fetch_fork hex_decode f spec = Ok sf -> fs_epoch sf <= epoch ->
  (forall g sg, g ∈ post -> fetch_fork hex_decode g spec = Ok sg -> epoch < fs_epoch sg) ->
  fetch_fork hex_decode Capella spec = Ok sc ->
  exists gv gr, (g ← get_genesis c; parse_genesis_fork_version_and_validators_root hex_decode g) = Ok (gv, gr) /\
    d = dt ++ take 28 (fork_data_root (fs_version (if decide (dt = vt) then sc else sf)) gr).
Proof.
  intros Hspec Hsched Hvt Hd Hforks Hsf Hact Hpost Hsc. unfold fetch_domain in Hd.
  apply res_bind_Ok in Hd as (spec' & Hspec' & Hd). replace spec' with spec in * by congruence.
  apply res_bind_Ok in Hd as (schedule' & Hsched' & Hd). replace schedule' with schedule in * by congruence.
  apply res_bind_Ok in Hd as (g & Hg & Hd). apply res_bind_Ok in Hd as ([gv gr] & Hp & Hd).
  apply res_bind_Ok in Hd as (vt' & Hvt' & Hd). replace vt' with vt in * by congruence.
  injection Hd as <-.
  exists gv, gr. split; [by rewrite Hg|]. unfold resolve_domain, compute_domain. do 3 f_equal.
  destruct (decide (dt = vt)).
  - destruct (schedule_complete _ _ Capella Hsched) as (s & Hs & Hs'). rewrite Hs. congruence.
  - destruct (schedule_complete _ _ f Hsched) as (s & Hs & Hs'). replace s with sf in * by congruence.
    eapply resolve_fork_version_latest; try done.
    intros g' Hg' (s' & Es' & Hle). destruct (schedule_complete _ _ g' Hsched) as (s'' & Es'' & Hf'').
    assert (epoch < fs_epoch s'') by eauto. simplify_eq. lia.
Qed.

(** ** Slots and aggregators *)

Lemma parse_u64_range str z : parse_u64 str = Some z -> 0 <= z <= U64_MAX.
Proof.
  assert (0 <= 0 <= U64_MAX) by (unfold U64_MAX; lia).
  unfold parse_u64. destruct str as [|ch rest]; [done|]. destruct (Ascii.eqb ch _).
  - destruct rest; [done|]. by apply parse_digits_bound.
  - by apply parse_digits_bound.
Qed.

(** The slot configuration that the scheduler and the deadliner work with has
    no zero in it. *)
Theorem slots_config_positive c d n :
  fetch_slots_config c = Ok (d, n) -> 0 < d <= U64_MAX /\ 0 < n <= U64_MAX.
Proof.
  assert (forall spec f z, parse_u64_field spec f = Ok z -> 0 <= z <= U64_MAX) as Hr.
  { unfold parse_u64_field. intros spec f z H. inv_res. by eapply parse_u64_range. }
  unfold fetch_slots_config. intros H.
  apply res_bind_Ok in H as (spec & _ & H). apply res_bind_Ok in H as (d' & Hd & H).
  apply res_bind_Ok in H as (n' & Hn & H). apply Hr in Hd, Hn.
  destruct (Z.eqb_spec d' 0), (Z.eqb_spec n' 0); try done. cbn in H. simplify_eq. lia.
Qed.

(** In a committee of less than twice the target number of aggregators, every
    member aggregates, whatever its signature. *)
Theorem small_committees_aggregate sha256 c spec target comm_len sig :
  get_spec c = Ok spec -> spec_u64 spec "TARGET_AGGREGATORS_PER_COMMITTEE" InvalidTargetAggregatorsPerCommittee = Ok target ->
  0 < target -> 0 <= comm_len < 2 * target -> is_att_aggregator sha256 c comm_len sig = Ok true.
Proof.
  intros Hs Ht Hpos Hlen. unfold is_att_aggregator. rewrite Hs. cbn [map_err mbind res_bind].
  rewrite Ht. cbn. unfold checked_div_u64. destruct (Z.eqb_spec target 0); [lia|]. cbn.
  assert (comm_len / target <= 1) by (apply Z.lt_succ_r, Z.div_lt_upper_bound; lia).
  rewrite Z.max_r by lia. unfold hash_modulo. cbn. by rewrite Z.mod_1_r.
Qed.

(** A timestamp after genesis gets the slot it lies in. *)
Theorem timestamp_in_slot max_secs genesis_time slot_duration timestamp now k :
  0 < slot_duration -> slot_from_timestamp max_secs genesis_time slot_duration timestamp now = Ok k ->
  genesis_time <= timestamp * 1000000000 ->
  genesis_time + k * slot_duration <= timestamp * 1000000000 < genesis_time + (k + 1) * slot_duration.
Proof.
  intros Hd H Hg. unfold slot_from_timestamp in H.
  destruct (timestamp <=? max_secs); [|done]. cbn in H.
  destruct (Z.ltb_spec (timestamp * 1000000000) genesis_time); [lia|].
  destruct (guard_i64 _) as [delta|] eqn:Eg; [|done]. cbn in H. apply guard_i64_Some in Eg as [-> _].
  destruct (Z.ltb_spec (timestamp * 1000000000 - genesis_time) 0); [done|].
  unfold checked_div_u64 in H. destruct (Z.eqb_spec slot_duration 0); [lia|]. cbn in H.
  apply ok_or_Ok in H. unfold guard_u64 in H. destruct (in_u64 _); [|done]. simplify_eq.
  pose proof (Z.div_mod (timestamp * 1000000000 - genesis_time) slot_duration ltac:(lia)).
  pose proof (Z.mod_pos_bound (timestamp * 1000000000 - genesis_time) slot_duration Hd). nia.
Qed.
End theorems.

(** ** Networks *)

(** Text of pairs of lower-case hexadecimal digits. *)
Fixpoint hex_lower (s : string) : bool :=
  match s with
  | EmptyString => true
  | String a (String b s) => bool_decide (is_Some (hex_val a)) && bool_decide (is_Some (hex_val b)) && hex_lower s
  | _ => false
  end.

(** For every known network the name and the fork version determine each other,
    also when test networks were added. *)
Theorem networks_roundtrip hex_encode hex_decode extra n :
  (forall s, hex_lower s = true -> exists b, hex_decode s = Some b /\ hex_encode b = s) ->
  n ∈ predefined ->
  exists b, network_to_fork_version_bytes hex_decode (predefined ++ extra) (net_name n) = Ok b /\
    fork_version_to_network hex_encode (predefined ++ extra) b = Ok (net_name n) /\
    fork_version_to_chain_id hex_encode (predefined ++ extra) b = Ok (chain_id n) /\
    valid_network (predefined ++ extra) (net_name n) = true.
Proof.
  intros Hhex Hn.
  destruct (Hhex (strip_0x (genesis_fork_version_hex n))) as (b & Hd & He).
  { repeat (apply elem_of_cons in Hn as [->|Hn]; [by vm_compute|]). by apply not_elem_of_nil in Hn. }
  exists b. unfold network_to_fork_version_bytes, network_to_fork_version, fork_version_to_network,
    fork_version_to_chain_id, network_from_fork_version, network_from_name, valid_network.
  rewrite He. clear He Hhex.
  repeat (apply elem_of_cons in Hn as [->|Hn]; [vm_compute in Hd |- *; by rewrite Hd|]).
  by apply not_elem_of_nil in Hn.
Qed.

(** ** A sample chain *)
Module ChainSample.

Definition spec : Spec :=
  list_to_map [("SECONDS_PER_SLOT", JStr "12"); ("SLOTS_PER_EPOCH", JStr "32");
    ("ALTAIR_FORK_VERSION", JStr "0x01000000"); ("ALTAIR_FORK_EPOCH", JStr "10");
    ("BELLATRIX_FORK_VERSION", JStr "0x02000000"); ("BELLATRIX_FORK_EPOCH", JStr "20");
    ("CAPELLA_FORK_VERSION", JStr "0x03000000"); ("CAPELLA_FORK_EPOCH", JStr "30");
    ("DENEB_FORK_VERSION", JStr "0x04000000"); ("DENEB_FORK_EPOCH", JStr "40");
    ("ELECTRA_FORK_VERSION", JStr "0x05000000"); ("ELECTRA_FORK_EPOCH", JStr "50");
    ("FULU_FORK_VERSION", JStr "0x06000000"); ("FULU_FORK_EPOCH", JStr "18446744073709551615");
    ("DOMAIN_BEACON_PROPOSER", JStr "0x00000000"); ("DOMAIN_VOLUNTARY_EXIT", JStr "0x04000000");
    ("DOMAIN_RANDAO", JStr "0x02000000"); ("TARGET_AGGREGATORS_PER_COMMITTEE", JStr "16")]%string.

Definition client : Client := {|
  get_spec := Ok spec;
  get_genesis := Ok {| g_genesis_time := "1606824023"; g_genesis_fork_version := "0x00000000";
    g_genesis_validators_root := ("0x" +:+ hex_text (replicate 32 9))%string |} |}.

(** Pairs of lists as one list, without collisions: the length first. *)
Definition pair_up (a b : list Z) : list Z := len a :: a ++ b.

Lemma pair_up_inj a b a' b' : pair_up a b = pair_up a' b' -> a = a' /\ b = b'.
Proof. unfold pair_up, len. intros [= Hl H]. apply app_inj_1 in H; [done|lia]. Qed.

Definition exit_root := get_data_root hex_parse pair_up pair_up client DomVoluntaryExit 60 [1; 2].

Lemma signing_roots_separate_witness :
  match exit_root with Ok x => get_data_root hex_parse pair_up pair_up client DomRandao 60 [1; 2] <> Ok x
  | _ => False end.
Proof.
  destruct exit_root as [x|e|] eqn:E; [|vm_compute in E; discriminate E..]. intros E'.
  assert (forall n n' t, fetch_domain_type hex_parse client (as_spec_key n) = Ok t ->
     fetch_domain_type hex_parse client (as_spec_key n') = Ok t -> n = n') as Hd.
  { intros n n' t Hn Hn'. destruct n; vm_compute in Hn; try discriminate Hn;
      destruct n'; vm_compute in Hn'; try discriminate Hn'; try reflexivity; congruence. }
  destruct (signing_roots_separate hex_parse pair_up pair_up client DomVoluntaryExit 60 [1; 2] DomRandao 60 [1; 2] x
    pair_up_inj Hd E E') as [_ H]. discriminate H.
Defined.

Lemma domain_of_epoch_witness :
  exists d, fetch_domain hex_parse pair_up client [2; 0; 0; 0] 45 = Ok d /\ take 4 d = [2; 0; 0; 0].
Proof.
  destruct (fetch_domain hex_parse pair_up client [2; 0; 0; 0] 45) as [d|e|] eqn:E;
    [|vm_compute in E; discriminate E..].
  destruct (fork_schedule_from_spec hex_parse spec) as [schedule|e|] eqn:Es;
    [|vm_compute in Es; discriminate Es..].
  destruct (domain_of_epoch hex_parse pair_up client spec schedule [2; 0; 0; 0] [4; 0; 0; 0] 45 d
    [Altair; Bellatrix; Capella] Deneb [Electra; Fulu] {| fs_version := [4; 0; 0; 0]; fs_epoch := 40 |}
    {| fs_version := [3; 0; 0; 0]; fs_epoch := 30 |}) as (gv & gr & _ & Hd); try reflexivity.
  - exact Es.
  - exact E.
  - discriminate.
  - intros g sg Hg Hs. apply elem_of_cons in Hg as [->|Hg]; [vm_compute in Hs; by injection Hs as <-|].
    apply list_elem_of_singleton in Hg as ->. vm_compute in Hs. by injection Hs as <-.
  - exists d. split; [reflexivity|]. by rewrite Hd.
Defined.

Lemma hex_val_inv a x : hex_val a = Some x -> 0 <= x < 16 /\ hex_char x = a.
Proof.
  assert (forallb (fun n => match hex_val (Ascii.ascii_of_nat n) with
    | Some x => (0 <=? x) && (x <? 16) && Ascii.eqb (hex_char x) (Ascii.ascii_of_nat n)
    | None => true end) (seq 0 256) = true) as H by (vm_compute; reflexivity).
  rewrite forallb_forall in H. specialize (H (Ascii.nat_of_ascii a)).
  rewrite Ascii.ascii_nat_embedding in H. intros Hx. rewrite Hx in H.
  assert ((0 <=? x) && (x <? 16) && Ascii.eqb (hex_char x) a = true) as Hb.
  { apply H, in_seq. pose proof (Ascii.nat_ascii_bounded a). lia. }
  zbool. split; [lia|]. by apply Ascii.eqb_eq.
Qed.

Lemma hex_parse_lower s : hex_lower s = true -> exists b, hex_parse s = Some b /\ hex_text b = s.
Proof.
  remember (String.length s) as n eqn:Hn. revert s Hn. induction (lt_wf n) as [n _ IH]. intros s -> Hs.
  destruct s as [|a [|a' s]]; [by exists []|done|]. cbn in Hs. zbool.
  destruct H as [x Hx], H1 as [y Hy]. destruct (IH (String.length s)) with (s := s) as (b & Hp & Ht);
    [cbn; lia|done|done|].
  cbn. rewrite Hx, Hy, Hp. cbn. exists (16 * x + y :: b). split; [done|].
  apply hex_val_inv in Hx as [? Hx], Hy as [? Hy]. cbn [hex_text]. rewrite Ht.
  replace ((16 * x + y) / 16) with x by (apply (Z.div_unique _ _ _ y); lia).
  replace ((16 * x + y) mod 16) with y by (apply (Z.mod_unique _ _ x); lia).
  by rewrite Hx, Hy.
Qed.

Lemma networks_roundtrip_witness :
  exists b, network_to_fork_version_bytes hex_parse (predefined ++ []) "gnosis" = Ok b /\
    fork_version_to_network hex_text (predefined ++ []) b = Ok "gnosis".
Proof.
  destruct (networks_roundtrip hex_text hex_parse [] {| chain_id := 100; net_name := "gnosis";
    genesis_fork_version_hex := "0x00000064"; genesis_timestamp := 1638993340;
    capella_hard_fork := "0x03000064" |} hex_parse_lower) as (b & Hb & Hn & _).
  - right. right. left.
  - exists b. split; [exact Hb|exact Hn].
Defined.
End ChainSample.
