(* ===== verification/Fetcher.v ===== *)
(** * The fetcher

    [crates/core/src/fetcher/mod.rs] and [graffiti.rs]: for a triggered duty it
    fetches the unsigned data from the beacon node, with the help of the
    aggregated-signature and duty databases, and hands it to its subscribers.
    What the code asks others for is recorded in a log, and answers may depend
    on everything asked before. *)

From S2P Require Import Prelude Bytes Types Version DutyDefs ChainSpec Deadline DutyDb.

Open Scope Z_scope.

(** ** Graffiti *)

Definition GRAFFITI_LEN : nat := 32.
Definition OBOL_TOKEN : string := "OB".

Definition client_graffiti_token (product_token : string) : string :=
  if decide (product_token = "teku") then "TK"
  else if decide (product_token = "Lighthouse") then "LH"
  else if decide (product_token = "Lodestar") then "LS"
  else if decide (product_token = "Prysm") then "PY"
  else if decide (product_token = "Nimbus") then "NB"
  else if decide (product_token = "Grandine") then "GD"
  else "".

(** The copy into a fixed array. *)
Definition graffiti_bytes (s : string) : list Z :=
  let bytes := bytes_of_string s in
  take GRAFFITI_LEN bytes ++ replicate (GRAFFITI_LEN - length bytes) 0.

Definition build_graffiti (graffiti token : string) (disable_client_append : bool) : list Z :=
  if disable_client_append then graffiti_bytes graffiti
  else graffiti_bytes (graffiti +:+ OBOL_TOKEN +:+ token).

(** The part of a text before its first slash. *)
Fixpoint before_slash (s : string) : string :=
  match s with
  | EmptyString => ""
  | String c s => if Ascii.eqb c (Ascii.ascii_of_nat 47) then "" else String c (before_slash s)
  end.

(** [None]: the beacon node did not tell its version. *)
Definition fetch_beacon_node_token (node_version : option string) : string :=
  match node_version with
  | None => ""
  | Some version => client_graffiti_token (before_slash version)
  end.

Record GraffitiBuilder := { default_graffiti : list Z; graffiti : gmap PubKey (list Z) }.

Inductive GraffitiError := LengthMismatch.

(** [default] is [default_graffiti()], of the version and the commit. *)
Definition graffiti_new (default : list Z) (pubkeys : list PubKey) (gs : option (list string))
    (disable_client_append : bool) (node_version : option string)
    : res GraffitiError GraffitiBuilder :=
  let build l := Ok {| default_graffiti := default;
                       graffiti := foldl (fun m '(pk, g) => <[pk := g]> m) ∅ l |} in
  match gs with
  | None => build ((fun pk => (pk, default)) <$> pubkeys)
  | Some gs =>
      if (1 <? length gs)%nat && negb (length gs =? length pubkeys)%nat then Err LengthMismatch
      else
        let token := fetch_beacon_node_token node_version in
        match gs with
        | [single] =>
            build ((fun pk => (pk, build_graffiti single token disable_client_append)) <$> pubkeys)
        | _ =>
            if (length gs <? length pubkeys)%nat then Panic
            else build (zip_with (fun pk g => (pk, build_graffiti g token disable_client_append)) pubkeys gs)
        end
  end.

Definition get_graffiti (b : GraffitiBuilder) (pk : PubKey) : list Z :=
  default (default_graffiti b) (graffiti b !! pk).

(** ** The fetcher *)

Section fetcher.
Context {Root Checkpoint Proposal AggAttestation Bits Sig Address : Type}.
Context `{Countable Root, EqDecision Checkpoint, EqDecision Address}.

Abbreviation AttData := (AttData (Root := Root) (Checkpoint := Checkpoint)).
Abbreviation Contribution := (Contribution (Root := Root) (Bits := Bits)).
Abbreviation UnsignedDutyData := (UnsignedDutyData (Root := Root) (Checkpoint := Checkpoint)
  (Proposal := Proposal) (AggAttestation := AggAttestation) (Bits := Bits)).
Abbreviation UnsignedDataSet := (gmap PubKey UnsignedDutyData).

Inductive FetcherError :=
| Fetch (context : string) (source : FetcherError)
| FetcherDeprecatedBuilderProposer
| FetcherUnsupportedDutyType (t : DutyType)
| InvalidAttesterDefinition
| InvalidBeaconCommitteeSelection
| InvalidSyncCommitteeSelection
| InvalidSyncCommitteeMessage
| NilAttestationData
| AggregateAttestationNotFound
| SyncContributionNotFound
| FetcherUnexpectedResponse
| Callback
| FetcherBeaconNode
| FetcherEth2Exp (e : Eth2ExpError)
| Conversion
| SignedDataDecode
| SignatureError.

(** The aggregated data the fetcher asks for, by the types it downcasts to. *)
Inductive Signed :=
| SBeaconCommitteeSelection (selection_proof : list Z)
| SSyncCommitteeSelection (subcommittee_index : Z) (selection_proof : list Z)
| SSignedSyncMessage (beacon_block_root : Root)
| SSignature (sig : option Sig).

(** [SignedData::signature] of the randao reveal. *)
Context (signature_of : Signed -> option Sig).

(** An answer: a value, one that does not convert, another status, none. *)
Inductive Answer (A : Type) := AnsOk (x : A) | AnsBad | AnsOther | AnsFail.
#[global] Arguments AnsOk {A} _.
#[global] Arguments AnsBad {A}.
#[global] Arguments AnsOther {A}.
#[global] Arguments AnsFail {A}.

(** What the fetcher asks for, in its order. *)
Inductive Request :=
| ReqAttData (slot comm_idx : Z)
| ReqAggregate (slot comm_idx : Z) (root : Root)
| ReqContribution (slot subcomm_idx : Z) (root : Root)
| ReqBlock (slot : Z) (randao : Sig) (graffiti : list Z) (builder_boost_factor : Z)
| ReqAggSigDb (duty : Duty) (pk : PubKey)
| ReqDutyDb (slot comm_idx : Z)
| ReqSubscriber (n : nat) (set : UnsignedDataSet).

(** The collaborators, each answering on the log so far. *)
Record Env := {
  produce_attestation_data : list Request -> Z -> Z -> Answer AttData;
  get_aggregated_attestation : list Request -> Z -> Z -> Root -> Answer AggAttestation;
  produce_sync_committee_contribution : list Request -> Z -> Z -> Root -> Answer Contribution;
  produce_block : list Request -> Z -> Sig -> list Z -> Z -> Answer Proposal;
  agg_sig_db : list Request -> Duty -> PubKey -> option Signed;
  await_att_data : list Request -> Z -> Z -> option AttData;
  subscriber : list Request -> nat -> UnsignedDataSet -> bool;
}.

Record FetcherConfig := {
  eth2_cl : Client;
  subs : nat;
  builder_enabled : bool;
  graffiti_builder : GraffitiBuilder;
  electra_slot : Z;
  fetch_only_comm_idx0 : bool;
}.

(** The root of attestation data and [Sha256]. *)
Context (att_root : AttData -> Root) (sha256 : list Z -> list Z).
Context (env : Env) (f : FetcherConfig) (ho : HashOrder).

Abbreviation Proc := (proc (list Request) FetcherError).

(** Asks, and records that it asked. *)
Definition ask {A} (req : Request) (answer : list Request -> A) : Proc A :=
  fun log => (log ++ [req], Ok (answer log)).

Definition attestation_data (slot comm_idx : Z) : Proc AttData :=
  r ← ask (ReqAttData slot comm_idx) (fun log => produce_attestation_data env log slot comm_idx);
  match r with
  | AnsOk data => mret data
  | AnsBad => p_fail Conversion
  | AnsOther => p_fail NilAttestationData
  | AnsFail => p_fail FetcherBeaconNode
  end.

(** The conversion of the payload for its fork, [attestation_payload], is part
    of the answer. *)
Definition aggregate_attestation (slot comm_idx : Z) (data_root : Root) : Proc AggAttestation :=
  r ← ask (ReqAggregate slot comm_idx data_root)
        (fun log => get_aggregated_attestation env log slot comm_idx data_root);
  match r with
  | AnsOk agg => mret agg
  | AnsBad => p_fail FetcherUnexpectedResponse
  | AnsOther => p_fail AggregateAttestationNotFound
  | AnsFail => p_fail FetcherBeaconNode
  end.

Definition sync_committee_contribution (slot subcomm_idx : Z) (block_root : Root) : Proc Contribution :=
  r ← ask (ReqContribution slot subcomm_idx block_root)
        (fun log => produce_sync_committee_contribution env log slot subcomm_idx block_root);
  match r with
  | AnsOk c => mret c
  | AnsBad => p_fail Conversion
  | AnsOther => p_fail SyncContributionNotFound
  | AnsFail => p_fail FetcherBeaconNode
  end.

Definition query_agg_sig_db (duty : Duty) (pk : PubKey) : Proc Signed :=
  r ← ask (ReqAggSigDb duty pk) (fun log => agg_sig_db env log duty pk);
  p_lift (ok_or r Callback).

Definition query_att_data (slot comm_idx : Z) : Proc AttData :=
  r ← ask (ReqDutyDb slot comm_idx) (fun log => await_att_data env log slot comm_idx);
  p_lift (ok_or r Callback).

(** ** Attesters *)

Definition att_comm_idx (slot : Z) (d : AttesterDuty) : Z :=
  if (electra_slot f <=? slot) && fetch_only_comm_idx0 f then 0 else ad_committee_index d.

Definition unsigned_attestation (data : AttData) (d : AttesterDuty) : UnsignedDutyData :=
  UAttestation {| at_data := data; at_duty_slot := DutyDefs.ad_slot d;
                  at_committee_index := ad_committee_index d;
                  at_validator_index := ad_validator_index d |}.

Fixpoint attester_data_loop (slot : Z) (l : list (PubKey * DutyDefinition))
    (data_by_comm_idx : gmap Z AttData) (resp : UnsignedDataSet) : Proc UnsignedDataSet :=
  match l with
  | [] => mret resp
  | (pk, DefAttester att_def) :: l =>
      let comm_idx := att_comm_idx slot (at_duty att_def) in
      eth2_att_data ←
        match data_by_comm_idx !! comm_idx with
        | Some data => mret data
        | None => attestation_data slot comm_idx
        end;
      attester_data_loop slot l (<[comm_idx := eth2_att_data]> data_by_comm_idx)
        (<[pk := unsigned_attestation eth2_att_data (at_duty att_def)]> resp)
  | _ :: _ => p_fail InvalidAttesterDefinition
  end.

Definition fetch_attester_data (slot : Z) (def_set : DutyDefinitionSet) : Proc UnsignedDataSet :=
  attester_data_loop slot (ho_list ho def_set) ∅ ∅.

(** ** Aggregators *)

Fixpoint aggregator_data_loop (sl : Z) (l : list (PubKey * DutyDefinition))
    (agg_att_by_comm_idx : gmap Z AggAttestation) (resp : UnsignedDataSet) : Proc UnsignedDataSet :=
  match l with
  | [] => mret resp
  | (pk, DefAttester att_def) :: l =>
      prep_agg_data ← query_agg_sig_db {| slot := sl; duty_type := PrepareAggregator |} pk;
      match prep_agg_data with
      | SBeaconCommitteeSelection selection_proof =>
          is_aggregator ← p_lift (map_err FetcherEth2Exp
            (is_att_aggregator sha256 (eth2_cl f) (ad_committee_length (at_duty att_def)) selection_proof));
          if is_aggregator : bool then
            let comm_idx := ad_committee_index (at_duty att_def) in
            match agg_att_by_comm_idx !! comm_idx with
            | Some agg_att =>
                aggregator_data_loop sl l agg_att_by_comm_idx (<[pk := UAggAttestation agg_att]> resp)
            | None =>
                att_data ← query_att_data sl comm_idx;
                agg_att ← aggregate_attestation sl comm_idx (att_root att_data);
                aggregator_data_loop sl l (<[comm_idx := agg_att]> agg_att_by_comm_idx)
                  (<[pk := UAggAttestation agg_att]> resp)
            end
          else aggregator_data_loop sl l agg_att_by_comm_idx resp
      | _ => p_fail InvalidBeaconCommitteeSelection
      end
  | _ :: _ => p_fail InvalidAttesterDefinition
  end.

Definition fetch_aggregator_data (slot : Z) (def_set : DutyDefinitionSet) : Proc UnsignedDataSet :=
  aggregator_data_loop slot (ho_list ho def_set) ∅ ∅.

(** ** Proposers *)

Fixpoint proposer_data_loop (sl : Z) (l : list PubKey) (resp : UnsignedDataSet) : Proc UnsignedDataSet :=
  match l with
  | [] => mret resp
  | pk :: l =>
      randao_data ← query_agg_sig_db {| slot := sl; duty_type := Randao |} pk;
      randao ← p_lift (ok_or (signature_of randao_data) SignatureError);
      let builder_boost_factor := if builder_enabled f then U64_MAX else 0 in
      let g := get_graffiti (graffiti_builder f) pk in
      r ← ask (ReqBlock sl randao g builder_boost_factor)
            (fun log => produce_block env log sl randao g builder_boost_factor);
      match r with
      | AnsOk proposal => proposer_data_loop sl l (<[pk := UProposal proposal]> resp)
      | AnsBad => p_fail SignedDataDecode
      | AnsOther => p_fail FetcherUnexpectedResponse
      | AnsFail => p_fail FetcherBeaconNode
      end
  end.

Definition fetch_proposer_data (slot : Z) (def_set : DutyDefinitionSet) : Proc UnsignedDataSet :=
  proposer_data_loop slot (ho_list ho def_set).*1 ∅.

(** The warning about a wrong fee recipient: the pair it prints. *)
Definition fee_recipient_mismatch (actual : option Address) (fee_recipient : Address)
    : option (Address * Address) :=
  match actual with
  | None => None
  | Some actual => if decide (actual = fee_recipient) then None else Some (fee_recipient, actual)
  end.

(** ** Sync contributions *)

Fixpoint contribution_data_loop (sl : Z) (l : list PubKey) (resp : UnsignedDataSet)
    : Proc UnsignedDataSet :=
  match l with
  | [] => mret resp
  | pk :: l =>
      selection_data ← query_agg_sig_db {| slot := sl; duty_type := PrepareSyncContribution |} pk;
      match selection_data with
      | SSyncCommitteeSelection subcomm_idx selection_proof =>
          is_aggregator ← p_lift (map_err FetcherEth2Exp
            (is_sync_comm_aggregator sha256 (eth2_cl f) selection_proof));
          if is_aggregator : bool then
            sync_msg_data ← query_agg_sig_db {| slot := sl; duty_type := SyncMessage |} pk;
            match sync_msg_data with
            | SSignedSyncMessage block_root =>
                contribution ← sync_committee_contribution sl subcomm_idx block_root;
                contribution_data_loop sl l (<[pk := USyncContribution contribution]> resp)
            | _ => p_fail InvalidSyncCommitteeMessage
            end
          else contribution_data_loop sl l resp
      | _ => p_fail InvalidSyncCommitteeSelection
      end
  end.

Definition fetch_contribution_data (slot : Z) (def_set : DutyDefinitionSet) : Proc UnsignedDataSet :=
  contribution_data_loop slot (ho_list ho def_set).*1 ∅.

(** ** Dispatch *)

Definition wrap {A} (context : string) (m : Proc A) : Proc A :=
  p_catch m (fun source => p_fail (Fetch context source)).

(** The data of a duty; [None] when there is nothing to hand on. *)
Definition fetch_set (duty : Duty) (def_set : DutyDefinitionSet) : Proc (option UnsignedDataSet) :=
  let nonempty (set : UnsignedDataSet) := if decide (set = ∅) then None else Some set in
  match duty_type duty with
  | Proposer => set ← wrap "fetch proposer data" (fetch_proposer_data (slot duty) def_set); mret (Some set)
  | Attester => set ← wrap "fetch attester data" (fetch_attester_data (slot duty) def_set); mret (Some set)
  | BuilderProposer => p_fail FetcherDeprecatedBuilderProposer
  | Aggregator =>
      set ← wrap "fetch aggregator data" (fetch_aggregator_data (slot duty) def_set); mret (nonempty set)
  | SyncContribution =>
      set ← wrap "fetch contribution data" (fetch_contribution_data (slot duty) def_set);
      mret (nonempty set)
  | other => p_fail (FetcherUnsupportedDutyType other)
  end.

Definition call_subscribers (ns : list nat) (set : UnsignedDataSet) : Proc unit :=
  p_for ns (fun n =>
    ok ← ask (ReqSubscriber n set) (fun log => subscriber env log n set);
    if ok : bool then mret tt else p_fail Callback).

Definition fetch (duty : Duty) (def_set : DutyDefinitionSet) : Proc unit :=
  set ← fetch_set duty def_set;
  match set with
  | None => mret tt
  | Some set => call_subscribers (seq 0 (subs f)) set
  end.
End fetcher.
