(* ===== verification/FetcherFacts.v ===== *)
(** * What the fetcher hands on

    Validators of one committee get the same data, from one request; an
    aggregate is fetched for the attestation data this node holds; subscribers
    are called in order with one and the same set, and not at all after an
    error. *)

From S2P Require Import Prelude Bytes Types Version DutyDefs ChainSpec Deadline DutyDb Fetcher.

Open Scope Z_scope.

Section facts.
Context {Root Checkpoint Proposal AggAttestation Bits Sig : Type}.
Context `{Countable Root, EqDecision Checkpoint}.
Context (signature_of : Signed (Root := Root) (Sig := Sig) -> option Sig).
Context (att_root : AttData (Root := Root) (Checkpoint := Checkpoint) -> Root) (sha256 : list Z -> list Z).
Context (env : Env (Root := Root) (Checkpoint := Checkpoint) (Proposal := Proposal)
  (AggAttestation := AggAttestation) (Bits := Bits) (Sig := Sig)).
Context (f : FetcherConfig) (ho : HashOrder).

Abbreviation AttData := (AttData (Root := Root) (Checkpoint := Checkpoint)).
Abbreviation Request := (Request (Root := Root) (Checkpoint := Checkpoint) (Proposal := Proposal)
  (AggAttestation := AggAttestation) (Bits := Bits) (Sig := Sig)).
Abbreviation UnsignedDataSet := (gmap PubKey (UnsignedDutyData (Root := Root) (Checkpoint := Checkpoint)
  (Proposal := Proposal) (AggAttestation := AggAttestation) (Bits := Bits))).

(** One round of asking. *)
Lemma ask_bind {A B} (req : Request) (answer : list Request -> A)
    (k : A -> proc (list Request) FetcherError B) log :
  (ask req answer ≫= k) log = k (answer log) (log ++ [req]).
Proof. done. Qed.

Lemma attestation_data_Ok sl ci log log' x :
  attestation_data env sl ci log = (log', Ok x) ->
  log' = log ++ [ReqAttData sl ci] /\ produce_attestation_data env log sl ci = AnsOk x.
Proof.
  unfold attestation_data. rewrite ask_bind.
  destruct (produce_attestation_data env log sl ci); intros [=]; by subst.
Qed.

(** ** Attesters *)

Lemma attester_data_loop_spec (sl : Z) (l : list (PubKey * DutyDefinition)) (m : gmap Z AttData)
    (resp : UnsignedDataSet) (log log' : list Request) (set : UnsignedDataSet) :
  NoDup l.*1 -> attester_data_loop env f sl l m resp log = (log', Ok set) ->
  exists (m' : gmap Z AttData) idxs,
    m ⊆ m' /\ log' = log ++ (ReqAttData sl <$> idxs) /\ NoDup idxs /\
    (forall ci, is_Some (m' !! ci) -> is_Some (m !! ci) \/ ci ∈ idxs) /\
    (forall ci, ci ∈ idxs -> m !! ci = None /\
       exists log0 x, m' !! ci = Some x /\ produce_attestation_data env log0 sl ci = AnsOk x) /\
    (forall pk d, (pk, d) ∈ l -> exists ad x, d = DefAttester ad /\
       m' !! att_comm_idx f sl (at_duty ad) = Some x /\
       set !! pk = Some (unsigned_attestation x (at_duty ad))) /\
    (forall pk, pk ∉ l.*1 -> set !! pk = resp !! pk).
Proof.
  revert m resp log. induction l as [|[pk d] l IH]; intros m resp log Hn.
  { cbn. intros [=]; subst. exists m, []. rewrite app_nil_r.
    split_and!; try done; [constructor|by left|by intros ? ?%not_elem_of_nil|by intros ? ? ?%not_elem_of_nil]. }
  cbn in Hn. apply NoDup_cons in Hn as [Hpk Hn].
  destruct d as [ad|?|?]; [|done..]. cbn [attester_data_loop].
  set (ci := att_comm_idx f sl (at_duty ad)).
  destruct (m !! ci) as [x|] eqn:Em.
  - rewrite proc_mret. rewrite insert_id by done.
    intros (m' & idxs & Hsub & Hlog & Hnd & Hdom & Hidx & Hin & Hout)%IH; [|done].
    exists m', idxs. split_and!; try done.
    + intros pk' d' [[= -> ->]|Hl]%elem_of_cons; [|by apply Hin].
      exists ad, x. split_and!; [done|by eapply lookup_weaken|].
      rewrite Hout by done. by rewrite lookup_insert_eq.
    + intros pk' [Hne Hl]%not_elem_of_cons. rewrite Hout by done. by rewrite lookup_insert_ne.
  - intros Hr. apply proc_bind_Ok in Hr as (log1 & x & Hask & Hr).
    apply attestation_data_Ok in Hask as [-> Hans].
    apply IH in Hr as (m' & idxs & Hsub & Hlog & Hnd & Hdom & Hidx & Hin & Hout); [|done].
    assert (m' !! ci = Some x) as Hx.
    { eapply lookup_weaken; [|exact Hsub]. by rewrite lookup_insert_eq. }
    exists m', (ci :: idxs). split_and!.
    + etrans; [|exact Hsub]. by apply insert_subseteq.
    + rewrite Hlog. cbn. by rewrite <-app_assoc.
    + constructor; [|done]. intros [Hc _]%Hidx. by rewrite lookup_insert_eq in Hc.
    + intros ci' [Hc|Hc]%Hdom; [|right; by right]. rewrite lookup_insert in Hc.
      case_decide; [right; subst; by left|by left].
    + intros ci' [->|Hci]%elem_of_cons; [split; [done|by exists log, x]|].
      destruct (Hidx _ Hci) as [Hc Hex]. split; [|done].
      destruct (decide (ci = ci')) as [<-|]; [done|]. by rewrite lookup_insert_ne in Hc.
    + intros pk' d' [[= -> ->]|Hl]%elem_of_cons; [|by apply Hin].
      exists ad, x. split_and!; [done|done|]. rewrite Hout by done. by rewrite lookup_insert_eq.
    + intros pk' [Hne Hl]%not_elem_of_cons. rewrite Hout by done. by rewrite lookup_insert_ne.
Qed.

Lemma fetch_attester_data_spec (sl : Z) (def_set : DutyDefinitionSet) (log log' : list Request) (set : UnsignedDataSet) :
  fetch_attester_data env f ho sl def_set log = (log', Ok set) ->
  exists (data : gmap Z AttData) idxs,
    log' = log ++ (ReqAttData sl <$> idxs) /\ NoDup idxs /\
    (forall ci, ci ∈ idxs -> exists log0 x, data !! ci = Some x /\
       produce_attestation_data env log0 sl ci = AnsOk x) /\
    (forall pk d, def_set !! pk = Some d -> exists ad x, d = DefAttester ad /\
       att_comm_idx f sl (at_duty ad) ∈ idxs /\
       data !! att_comm_idx f sl (at_duty ad) = Some x /\
       set !! pk = Some (unsigned_attestation x (at_duty ad))) /\
    (forall pk, def_set !! pk = None -> set !! pk = None).
Proof.
  intros (m' & idxs & _ & Hlog & Hnd & Hdom & Hidx & Hin & Hout)%attester_data_loop_spec; [|apply ho_list_NoDup].
  exists m', idxs. split_and!; try done.
  - intros ci Hci. apply (proj2 (Hidx ci Hci)).
  - intros pk d Hd. apply (elem_of_ho_list ho) in Hd. destruct (Hin _ _ Hd) as (ad & x & -> & Hx & Hs).
    exists ad, x. split_and!; try done. destruct (Hdom (att_comm_idx f sl (at_duty ad))) as [Hc|]; [eauto| |done].
    rewrite lookup_empty in Hc. by destruct Hc.
  - intros pk Hd. rewrite Hout by (by apply not_elem_of_ho_list). apply lookup_empty.
Qed.

(** ** Aggregators *)

Lemma query_agg_sig_db_Ok d pk (log log' : list Request) x :
  query_agg_sig_db env d pk log = (log', Ok x) ->
  log' = log ++ [ReqAggSigDb d pk] /\ agg_sig_db env log d pk = Some x.
Proof.
  unfold query_agg_sig_db. rewrite ask_bind. unfold p_lift.
  destruct (agg_sig_db env log d pk); intros [=]; by subst.
Qed.

Lemma query_att_data_Ok sl ci (log log' : list Request) x :
  query_att_data env sl ci log = (log', Ok x) ->
  log' = log ++ [ReqDutyDb sl ci] /\ await_att_data env log sl ci = Some x.
Proof.
  unfold query_att_data. rewrite ask_bind. unfold p_lift.
  destruct (await_att_data env log sl ci); intros [=]; by subst.
Qed.

Lemma aggregate_attestation_Ok sl ci root (log log' : list Request) x :
  aggregate_attestation env sl ci root log = (log', Ok x) ->
  log' = log ++ [ReqAggregate sl ci root] /\ get_aggregated_attestation env log sl ci root = AnsOk x.
Proof.
  unfold aggregate_attestation. rewrite ask_bind.
  destruct (get_aggregated_attestation env log sl ci root); intros [=]; by subst.
Qed.

(** What the aggregation of a validator was decided by, and led to. *)
Definition aggregated (sl : Z) (m : gmap Z AggAttestation) (set : UnsignedDataSet) (pk : PubKey)
    (d : DutyDefinition) : Prop :=
  exists ad log0 proof b, d = DefAttester ad /\
    agg_sig_db env log0 {| slot := sl; duty_type := PrepareAggregator |} pk = Some (SBeaconCommitteeSelection proof) /\
    is_att_aggregator sha256 (eth2_cl f) (ad_committee_length (at_duty ad)) proof = Ok b /\
    if b : bool then exists a, m !! ad_committee_index (at_duty ad) = Some a /\ set !! pk = Some (UAggAttestation a)
    else set !! pk = None.

(** An aggregate was asked for with the root of this node's own data. *)
Definition from_own_data (sl ci : Z) (a : AggAttestation) : Prop :=
  exists log0 log1 data, await_att_data env log0 sl ci = Some data /\
    get_aggregated_attestation env log1 sl ci (att_root data) = AnsOk a.

Lemma aggregator_data_loop_spec (sl : Z) (l : list (PubKey * DutyDefinition)) (m : gmap Z AggAttestation)
    (resp : UnsignedDataSet) (log log' : list Request) (set : UnsignedDataSet) :
  NoDup l.*1 -> (forall pk, pk ∈ l.*1 -> resp !! pk = None) ->
  aggregator_data_loop att_root sha256 env f sl l m resp log = (log', Ok set) ->
  exists m' : gmap Z AggAttestation, m ⊆ m' /\
    (forall ci a, m' !! ci = Some a -> m !! ci = Some a \/ from_own_data sl ci a) /\
    (forall pk d, (pk, d) ∈ l -> aggregated sl m' set pk d) /\
    (forall pk, pk ∉ l.*1 -> set !! pk = resp !! pk).
Proof.
  revert m resp log. induction l as [|[pk d] l IH]; intros m resp log Hn Hresp.
  { cbn. intros [=]; subst. exists m. split_and!; [done|by left|by intros ? ? ?%not_elem_of_nil|done]. }
  cbn in Hn. apply NoDup_cons in Hn as [Hpk Hn].
  destruct d as [ad|?|?]; [|done..]. cbn [aggregator_data_loop]. intros Hr.
  apply proc_bind_Ok in Hr as (log1 & prep & Hq & Hr). apply query_agg_sig_db_Ok in Hq as [-> Hq].
  destruct prep as [proof|?|?|?]; [|done..].
  apply proc_bind_Ok in Hr as (log1 & b & Hb & Hr). unfold p_lift in Hb. injection Hb as <- Hb.
  destruct (is_att_aggregator _ _ _ _) as [b'|?|] eqn:Eb; [|done..]. injection Hb as ->.
  set (ci := ad_committee_index (at_duty ad)) in *.
  assert (forall pk', pk' ∈ l.*1 -> resp !! pk' = None) as Hresp' by (intros ? ?; apply Hresp; by right).
  assert (forall x pk', pk' ∈ l.*1 -> <[pk := x]> resp !! pk' = None) as Hresp''.
  { intros x pk' Hl. rewrite lookup_insert_ne by (intros ->; done). auto. }
  destruct b; [destruct (m !! ci) as [a|] eqn:Em|].
  - apply IH in Hr as (m' & Hsub & Hm & Hin & Hout); [|done|by auto]. exists m'. split_and!; try done.
    + intros pk' d' [[= -> ->]|Hl]%elem_of_cons; [|by apply Hin].
      exists ad, log, proof, true. split_and!; try done. exists a. split; [by eapply lookup_weaken|].
      rewrite Hout by done. by rewrite lookup_insert_eq.
    + intros pk' [Hne Hl]%not_elem_of_cons. rewrite Hout by done. by rewrite lookup_insert_ne.
  - apply proc_bind_Ok in Hr as (log1 & data & Hd & Hr). apply query_att_data_Ok in Hd as [-> Hd].
    apply proc_bind_Ok in Hr as (log1 & a & Ha & Hr). apply aggregate_attestation_Ok in Ha as [-> Ha].
    apply IH in Hr as (m' & Hsub & Hm & Hin & Hout); [|done|by auto].
    assert (m' !! ci = Some a) as Hci.
    { eapply lookup_weaken; [|exact Hsub]. by rewrite lookup_insert_eq. }
    exists m'. split_and!.
    + etrans; [|exact Hsub]. by apply insert_subseteq.
    + intros ci' a' [Hc|Hc]%Hm; [|by right]. rewrite lookup_insert in Hc. case_decide; [|by left].
      simplify_eq. right. by eexists _, _, _.
    + intros pk' d' [[= -> ->]|Hl]%elem_of_cons; [|by apply Hin].
      exists ad, log, proof, true. split_and!; try done. exists a. split; [done|].
      rewrite Hout by done. by rewrite lookup_insert_eq.
    + intros pk' [Hne Hl]%not_elem_of_cons. rewrite Hout by done. by rewrite lookup_insert_ne.
  - apply IH in Hr as (m' & Hsub & Hm & Hin & Hout); [|done|done]. exists m'. split_and!; try done.
    + intros pk' d' [[= -> ->]|Hl]%elem_of_cons; [|by apply Hin].
      exists ad, log, proof, false. split_and!; try done. rewrite Hout by done. apply Hresp. by left.
    + intros pk' [Hne Hl]%not_elem_of_cons. by apply Hout.
Qed.

(** ** Subscribers *)

Definition is_subscriber (r : Request) : bool := match r with ReqSubscriber _ _ => true | _ => false end.

Lemma call_subscribers_spec ns set (log log' : list Request) r :
  call_subscribers env ns set log = (log', r) ->
  exists k, log' = log ++ ((fun n => ReqSubscriber n set) <$> take k ns) /\
    (r = Ok tt /\ k = length ns \/ r = Err Callback /\ (0 < k <= length ns)%nat).
Proof.
  unfold call_subscribers. revert log. induction ns as [|n ns IH]; intros log; cbn.
  { intros [=]; subst. exists 0%nat. rewrite app_nil_r. auto. }
  unfold mbind, proc_bind, ask. cbn. destruct (subscriber env log n set); cbn.
  - intros (k & -> & Hk)%IH. exists (S k). cbn. rewrite <-app_assoc. split; [done|].
    destruct Hk as [[-> ->]|[-> ?]]; [by left|right; split; [done|lia]].
  - intros [=]; subst. exists 1%nat. cbn. rewrite take_0. split; [done|]. right. split; [done|lia].
Qed.

(** Nothing but the call to the subscribers is a subscriber's. *)
Definition quiet {A} (m : proc (list Request) FetcherError A) : Prop :=
  forall log log' r, m log = (log', r) ->
    exists new, log' = log ++ new /\ Forall (fun q => is_subscriber q = false) new.

Lemma quiet_ret {A} (x : A) : quiet (mret x).
Proof. intros log log' r [=]; subst. exists []. by rewrite app_nil_r. Qed.

Lemma quiet_fail {A} e : quiet (p_fail (A := A) e).
Proof. intros log log' r [=]; subst. exists []. by rewrite app_nil_r. Qed.

Lemma quiet_lift {A} (r : res FetcherError A) : quiet (p_lift r).
Proof. intros log log' r' [=]; subst. exists []. by rewrite app_nil_r. Qed.

Lemma quiet_bind {A B} (m : proc (list Request) FetcherError A) (k : A -> proc (list Request) FetcherError B) :
  quiet m -> (forall x, quiet (k x)) -> quiet (m ≫= k).
Proof.
  intros Hm Hk log log' r. unfold mbind, proc_bind. destruct (m log) as [log1 [x|e|]] eqn:Em;
    destruct (Hm _ _ _ Em) as (new & -> & Hnew); [|intros [=]; subst; by exists new..].
  intros (new' & -> & Hnew')%Hk. exists (new ++ new'). rewrite app_assoc. split; [done|].
  by apply Forall_app.
Qed.

Lemma quiet_ask {A} q (answer : list Request -> A) : is_subscriber q = false -> quiet (ask q answer).
Proof. intros Hq log log' r [=]; subst. exists [q]. split; [done|]. by repeat constructor. Qed.

Lemma quiet_wrap {A} c (m : proc (list Request) FetcherError A) : quiet m -> quiet (wrap c m).
Proof.
  intros Hm log log' r. unfold wrap, p_catch, p_fail. destruct (m log) as [log1 [x|e|]] eqn:Em;
    destruct (Hm _ _ _ Em) as (new & -> & Hnew); intros [=]; subst; by exists new.
Qed.

Create HintDb quiet discriminated.
#[local] Hint Resolve quiet_ret quiet_fail quiet_lift quiet_bind quiet_ask quiet_wrap : quiet.

(** Runs through the steps of a method. *)
Ltac quiet_steps :=
  repeat first
    [ progress auto with quiet
    | match goal with
      | |- quiet (_ ≫= _) => apply quiet_bind; [|intros ?]
      | |- quiet (match ?x with _ => _ end) => destruct x
      | |- quiet (if ?x then _ else _) => destruct x
      end ].

Lemma quiet_fetch_set d defs : quiet (fetch_set signature_of att_root sha256 env f ho d defs).
Proof.
  assert (forall l m resp, quiet (attester_data_loop env f (slot d) l m resp)) as H1.
  { induction l as [|[pk [ad|?|?]] l IH]; intros m resp; cbn; quiet_steps.
    unfold attestation_data. quiet_steps. }
  assert (forall l m resp, quiet (aggregator_data_loop att_root sha256 env f (slot d) l m resp)) as H2.
  { induction l as [|[pk [ad|?|?]] l IH]; intros m resp; cbn; quiet_steps;
      unfold query_agg_sig_db, query_att_data, aggregate_attestation; quiet_steps. }
  assert (forall l resp, quiet (proposer_data_loop signature_of env f (slot d) l resp)) as H3.
  { induction l as [|pk l IH]; intros resp; cbn; quiet_steps; unfold query_agg_sig_db; quiet_steps. }
  assert (forall l resp, quiet (contribution_data_loop sha256 env f (slot d) l resp)) as H4.
  { induction l as [|pk l IH]; intros resp; cbn; quiet_steps;
      unfold query_agg_sig_db, sync_committee_contribution; quiet_steps. }
  unfold fetch_set, fetch_proposer_data, fetch_attester_data, fetch_aggregator_data, fetch_contribution_data.
  quiet_steps; apply quiet_wrap; auto.
Qed.

(** ** Theorems *)

(** Every validator of an attester duty gets attestation data with its own duty;
    validators of one committee get the same data, the answer to the only
    request that was made for that committee. *)
Theorem committees_share_data (sl : Z) (def_set : DutyDefinitionSet) (log log' : list Request)
    (set : UnsignedDataSet) :
  fetch_attester_data env f ho sl def_set log = (log', Ok set) ->
  exists (data : gmap Z AttData) idxs,
    log' = log ++ (ReqAttData sl <$> idxs) /\ NoDup idxs /\
    (forall ci, ci ∈ idxs -> exists log0 x, data !! ci = Some x /\
       produce_attestation_data env log0 sl ci = AnsOk x) /\
    (forall pk d, def_set !! pk = Some d -> exists ad x, d = DefAttester ad /\
       data !! att_comm_idx f sl (at_duty ad) = Some x /\
       set !! pk = Some (unsigned_attestation x (at_duty ad))) /\
    dom set = dom def_set.
Proof.
  intros (data & idxs & Hlog & Hn & Hidx & Hin & Hout)%fetch_attester_data_spec.
  exists data, idxs. split_and!; try done.
  - intros pk d Hd. destruct (Hin pk d Hd) as (ad & x & ? & _ & ? & ?). by exists ad, x.
  - apply set_eq. intros pk. rewrite !elem_of_dom. destruct (def_set !! pk) as [d|] eqn:Ed.
    + destruct (Hin pk d Ed) as (ad & x & _ & _ & _ & ->). split; eauto.
    + rewrite (Hout pk Ed). done.
Qed.

(** Exactly the validators whose selection proof makes them aggregators get an
    aggregate, one per committee; and it was asked for with the root of the
    attestation data that this node's duty database holds for the committee. *)
Theorem aggregates_match_own_data (sl : Z) (def_set : DutyDefinitionSet) (log log' : list Request)
    (set : UnsignedDataSet) :
  fetch_aggregator_data att_root sha256 env f ho sl def_set log = (log', Ok set) ->
  exists m : gmap Z AggAttestation,
    (forall ci a, m !! ci = Some a -> from_own_data sl ci a) /\
    (forall pk d, def_set !! pk = Some d -> aggregated sl m set pk d) /\
    (forall pk, def_set !! pk = None -> set !! pk = None).
Proof.
  intros (m & _ & Hm & Hin & Hout)%aggregator_data_loop_spec;
    [|apply ho_list_NoDup|intros pk _; apply lookup_empty].
  exists m. split_and!.
  - intros ci a [Hc|Hc]%Hm; [by rewrite lookup_empty in Hc|done].
  - intros pk d Hd. apply Hin. by apply elem_of_ho_list.
  - intros pk Hd. rewrite Hout by (by apply not_elem_of_ho_list). apply lookup_empty.
Qed.

(** The subscribers are called in order, with the same set, once all data is
    there: a fetch that fails calls none of them, and one whose data is ready
    stops at the first subscriber that fails. *)
Theorem subscribers_get_the_set d defs (log log' : list Request) r :
  fetch signature_of att_root sha256 env f ho d defs log = (log', r) ->
  exists fetched set k,
    log' = log ++ fetched ++ ((fun n => ReqSubscriber n set) <$> seq 0 k) /\
    Forall (fun q => is_subscriber q = false) fetched /\
    match (fetch_set signature_of att_root sha256 env f ho d defs log).2 with
    | Ok (Some set') => set = set' /\ (r = Ok tt /\ k = subs f \/ r = Err Callback /\ (0 < k <= subs f)%nat)
    | Ok None => r = Ok tt /\ k = 0%nat
    | Err e => r = Err e /\ k = 0%nat
    | Panic => r = Panic /\ k = 0%nat
    end.
Proof.
  unfold fetch, mbind, proc_bind.
  destruct (fetch_set signature_of att_root sha256 env f ho d defs log) as [log1 s] eqn:Es.
  destruct (quiet_fetch_set _ _ _ _ _ Es) as (fetched & -> & Hq). cbn [snd].
  destruct s as [[set|]|e|]; [|intros [=]; subst; exists fetched, ∅, 0%nat; cbn; by rewrite app_nil_r..].
  intros (k & -> & Hk)%call_subscribers_spec. exists fetched, set, k.
  rewrite length_seq in Hk. rewrite <-app_assoc. split; [|split; [done|split; [done|exact Hk]]].
  assert (take k (seq 0 (subs f)) = seq 0 k) as ->; [|done].
  rewrite take_seq. f_equal. destruct Hk as [[_ ->]|[_ ?]]; lia.
Qed.
End facts.

(** ** Graffiti *)

Lemma length_graffiti_bytes s : length (graffiti_bytes s) = GRAFFITI_LEN.
Proof. unfold graffiti_bytes. rewrite length_app, length_take, length_replicate. lia. Qed.

Lemma graffiti_map_lookup (l : list (PubKey * list Z)) (m : gmap PubKey (list Z)) pk g :
  foldl (fun m '(pk, g) => <[pk := g]> m) m l !! pk = Some g -> (pk, g) ∈ l \/ m !! pk = Some g.
Proof.
  revert m. induction l as [|[pk' g'] l IH]; intros m; cbn; [by right|].
  intros [Hl|Hm]%IH; [left; by right|]. rewrite lookup_insert in Hm. case_decide; [|by right].
  simplify_eq. left. by left.
Qed.

(** Every graffiti is a full field of the block, whatever the configuration. *)
Theorem graffiti_fits default pubkeys gs disable version b pk :
  length default = GRAFFITI_LEN -> graffiti_new default pubkeys gs disable version = Ok b ->
  length (get_graffiti b pk) = GRAFFITI_LEN.
Proof.
  intros Hd Hb.
  assert (forall l : list (PubKey * list Z), Forall (fun p => length p.2 = GRAFFITI_LEN) l ->
    length (get_graffiti {| default_graffiti := default;
      graffiti := foldl (fun m '(pk, g) => <[pk := g]> m) ∅ l |} pk) = GRAFFITI_LEN) as Hl.
  { intros l Hl. unfold get_graffiti. cbn. destruct (_ !! pk) as [g|] eqn:El; [|done]. cbn.
    apply graffiti_map_lookup in El as [El|El]; [|by rewrite lookup_empty in El].
    rewrite Forall_forall in Hl. by apply (Hl (pk, g)). }
  assert (forall g t dis, length (build_graffiti g t dis) = GRAFFITI_LEN) as Hg.
  { intros g t dis. unfold build_graffiti. destruct dis; apply length_graffiti_bytes. }
  unfold graffiti_new in Hb. destruct gs as [gs|].
  - destruct (_ && _); [done|]. destruct gs as [|g [|g' gs]].
    + destruct (_ <? _)%nat; [done|]. injection Hb as <-. apply Hl. destruct pubkeys; constructor.
    + injection Hb as <-. apply Hl. apply Forall_fmap, Forall_true. intros ?. apply Hg.
    + destruct (_ <? _)%nat; [done|]. injection Hb as <-. apply Hl.
      generalize (g :: g' :: gs). clear Hl. induction pubkeys as [|pk' l IH]; intros [|x xs]; cbn; constructor;
        [apply Hg|apply IH].
  - injection Hb as <-. apply Hl. apply Forall_fmap, Forall_true. intros ?. apply Hd.
Qed.

(** An empty list of values, with validators, is not refused: it panics. *)
Theorem empty_graffiti_panics default pk pubkeys disable version :
  graffiti_new default (pk :: pubkeys) (Some []) disable version = Panic.
Proof. done. Qed.
