(* ===== verification/Workflow.v ===== *)
(** * From the scheduler to the duty database

    The components composed as a node wires them: the scheduler triggers a
    duty, the fetcher gets its data, and the duty database stores it (after
    consensus, which hands every node the set one of them proposed).  What the
    scheduler promises about its definitions is what the fetcher needs, and
    what the fetcher promises about its sets is what the database needs. *)

From S2P Require Import Prelude Bytes Types Version DutyDefs ValCache Scheduler SchedulerFacts ChainSpec.
From S2P Require Import Deadline DutyDb DutyDbFacts Fetcher FetcherFacts.

Open Scope Z_scope.

Section workflow.
Context {Root Checkpoint Proposal AggAttestation Bits Sig : Type}.
Context `{Countable Root, EqDecision Checkpoint}.
Context {DD : DutyData (Root := Root) (Checkpoint := Checkpoint) (Proposal := Proposal)
  (AggAttestation := AggAttestation) (Bits := Bits)}.
Context (signature_of : Signed (Root := Root) (Sig := Sig) -> option Sig).
Context (att_root : AttData (Root := Root) (Checkpoint := Checkpoint) -> Root) (sha256 : list Z -> list Z).
Context (env : Env (Root := Root) (Checkpoint := Checkpoint) (Proposal := Proposal)
  (AggAttestation := AggAttestation) (Bits := Bits) (Sig := Sig)).
Context (f : FetcherConfig) (ho ho' : HashOrder) (ch : Chain).

Abbreviation AttData := (AttData (Root := Root) (Checkpoint := Checkpoint)).
Abbreviation Attestation := (Attestation (Root := Root) (Checkpoint := Checkpoint)).
Abbreviation Request := (Request (Root := Root) (Checkpoint := Checkpoint) (Proposal := Proposal)
  (AggAttestation := AggAttestation) (Bits := Bits) (Sig := Sig)).
Abbreviation UnsignedDataSet := (gmap PubKey (UnsignedDutyData (Root := Root) (Checkpoint := Checkpoint)
  (Proposal := Proposal) (AggAttestation := AggAttestation) (Bits := Bits))).
Abbreviation Db := (Db (PubKey := PubKey) (Root := Root) (Checkpoint := Checkpoint) (Proposal := Proposal)
  (AggAttestation := AggAttestation) (Bits := Bits)).

(** ** Scheduler to fetcher *)

(** A set of due definitions, as the scheduler triggers it. *)
Definition due_set (d : Duty) (set : DutyDefinitionSet) : Prop :=
  set <> ∅ /\ forall pk def, set !! pk = Some def -> due ch d pk = Some def.

(** The errors of the fetcher that blame the duty or its definitions. *)
Fixpoint blames_definition (e : FetcherError) : bool :=
  match e with
  | Fetch _ e => blames_definition e
  | FetcherDeprecatedBuilderProposer | FetcherUnsupportedDutyType _ | InvalidAttesterDefinition => true
  | _ => false
  end.

Lemma due_shape d pk def :
  due ch d pk = Some def ->
  match duty_type d with
  | Attester | Aggregator => exists ad, def = DefAttester ad /\ at_pubkey ad = pk /\
      DutyDefs.ad_slot (at_duty ad) = slot d /\
      ch_vals ch (epoch_of ch d) !! ad_validator_index (at_duty ad) = Some pk
  | Proposer | SyncContribution => True
  | _ => False
  end.
Proof.
  unfold due. destruct (duty_type d); try done;
    (destruct (List.find _ _) as [x|] eqn:Ef; [|done]); intros [= <-]; apply find_some in Ef as [_ Hb];
    zbool; by exists x.
Qed.

(** No error of [m] blames the definitions. *)
Definition blameless {A} (m : proc (list Request) FetcherError A) : Prop :=
  forall log log' e, m log = (log', Err e) -> blames_definition e = false.

Lemma blameless_bind {A B} (m : proc (list Request) FetcherError A) (k : A -> proc (list Request) FetcherError B) :
  blameless m -> (forall x, blameless (k x)) -> blameless (m ≫= k).
Proof.
  intros Hm Hk log log' e. unfold mbind, proc_bind. destruct (m log) as [log1 [x|e'|]] eqn:Em.
  - apply Hk.
  - intros [=]; subst. by eapply Hm.
  - done.
Qed.

Lemma blameless_ret {A} (x : A) : blameless (mret x).
Proof. done. Qed.

Lemma blameless_fail {A} e : blames_definition e = false -> blameless (p_fail (A := A) e).
Proof. intros He log log' e' [=]. by subst. Qed.

Lemma blameless_lift {A} (r : res FetcherError A) :
  (forall e, r = Err e -> blames_definition e = false) -> blameless (p_lift r).
Proof. intros Hr log log' e [= _ He]. auto. Qed.

Lemma blameless_ask {A} (q : Request) (answer : list Request -> A) : blameless (ask q answer).
Proof. done. Qed.

Lemma blameless_wrap {A} c (m : proc (list Request) FetcherError A) : blameless m -> blameless (wrap c m).
Proof.
  intros Hm log log' e. unfold wrap, p_catch, p_fail. destruct (m log) as [log1 [x|e'|]] eqn:Em;
    intros [=]; subst. cbn. by eapply Hm.
Qed.

Create HintDb blameless discriminated.
#[local] Hint Resolve blameless_ret blameless_ask : blameless.
#[local] Hint Extern 1 (blameless (p_fail _)) => apply blameless_fail; reflexivity : blameless.

Lemma blameless_ok_or {A} (o : option A) e : blames_definition e = false -> blameless (p_lift (ok_or o e)).
Proof. intros He. apply blameless_lift. destruct o; cbn; intros e' [=]; by subst. Qed.

Lemma blameless_exp {A} (r : res Eth2ExpError A) : blameless (p_lift (map_err FetcherEth2Exp r)).
Proof. apply blameless_lift. destruct r; cbn; intros e' [=]; by subst. Qed.

#[local] Hint Resolve blameless_exp : blameless.
#[local] Hint Extern 1 (blameless (p_lift (ok_or _ _))) => apply blameless_ok_or; reflexivity : blameless.

Ltac blameless_steps :=
  repeat first
    [ progress auto with blameless
    | match goal with
      | |- blameless (_ ≫= _) => apply blameless_bind; [|intros ?]
      | |- blameless (match ?x with _ => _ end) => destruct x
      | |- blameless (if ?x then _ else _) => destruct x
      end ].

Lemma blameless_queries :
  (forall d pk, blameless (query_agg_sig_db env d pk)) /\
  (forall sl ci, blameless (query_att_data env sl ci)) /\
  (forall sl ci, blameless (attestation_data env sl ci)) /\
  (forall sl ci r, blameless (aggregate_attestation env sl ci r)) /\
  (forall sl ci r, blameless (sync_committee_contribution env sl ci r)).
Proof.
  unfold query_agg_sig_db, query_att_data, attestation_data, aggregate_attestation, sync_committee_contribution.
  split_and!; intros; blameless_steps.
Qed.

Lemma blameless_attesters sl l m resp :
  (forall pk d, (pk, d) ∈ l -> exists ad, d = DefAttester ad) -> blameless (attester_data_loop env f sl l m resp).
Proof.
  destruct blameless_queries as (_ & _ & Hq & _).
  revert m resp. induction l as [|[pk d] l IH]; intros m resp Hl; cbn; [apply blameless_ret|].
  destruct (Hl pk d) as [ad ->]; [by left|].
  assert (forall m resp, blameless (attester_data_loop env f sl l m resp)) as Hrest.
  { intros m' resp'. apply IH. intros pk' d' Hd. apply (Hl pk' d'). by right. }
  blameless_steps.
Qed.

Lemma blameless_aggregators sl l m resp :
  (forall pk d, (pk, d) ∈ l -> exists ad, d = DefAttester ad) ->
  blameless (aggregator_data_loop att_root sha256 env f sl l m resp).
Proof.
  destruct blameless_queries as (Hq1 & Hq2 & _ & Hq3 & _).
  revert m resp. induction l as [|[pk d] l IH]; intros m resp Hl; cbn; [apply blameless_ret|].
  destruct (Hl pk d) as [ad ->]; [by left|].
  assert (forall m resp, blameless (aggregator_data_loop att_root sha256 env f sl l m resp)) as Hrest.
  { intros m' resp'. apply IH. intros pk' d' Hd. apply (Hl pk' d'). by right. }
  blameless_steps.
Qed.

Lemma blameless_proposers sl l resp : blameless (proposer_data_loop signature_of env f sl l resp).
Proof.
  destruct blameless_queries as (Hq1 & _).
  revert resp. induction l as [|pk l IH]; intros resp; cbn; blameless_steps.
Qed.

Lemma blameless_contributions sl l resp : blameless (contribution_data_loop sha256 env f sl l resp).
Proof.
  destruct blameless_queries as (Hq1 & _ & _ & _ & Hq2).
  revert resp. induction l as [|pk l IH]; intros resp; cbn; blameless_steps.
Qed.

Lemma due_set_fetchable d set :
  due_set d set -> blameless (fetch signature_of att_root sha256 env f ho d set).
Proof.
  intros [Hne Hdue].
  assert (exists pk def, set !! pk = Some def) as (pk & def & Hpk) by (by apply map_choose).
  pose proof (due_shape _ _ _ (Hdue _ _ Hpk)) as Ht. unfold fetch, fetch_set.
  assert (duty_type d = Attester \/ duty_type d = Aggregator ->
    forall pk' d', (pk', d') ∈ ho_list ho set -> exists ad, d' = DefAttester ad) as Hatt.
  { intros Hty pk' d' Hd%elem_of_ho_list. apply Hdue, due_shape in Hd.
    destruct Hty as [Hty|Hty]; rewrite Hty in Hd; destruct Hd as (ad & -> & _); by exists ad. }
  apply blameless_bind.
  - destruct (duty_type d); try done; apply blameless_bind; blameless_steps; apply blameless_wrap.
    + apply blameless_proposers.
    + apply blameless_attesters, Hatt. by left.
    + apply blameless_aggregators, Hatt. by right.
    + apply blameless_contributions.
  - intros [s|]; [|apply blameless_ret]. unfold call_subscribers.
    induction (seq 0 (subs f)) as [|n ns IH]; cbn; blameless_steps.
Qed.

(** ** Fetcher to duty database *)

(** The votes of a slot: the data the beacon node hands out for any committee of
    it, apart from the committee index. *)
Context (block : Root) (source target : Checkpoint).

Definition votes_for (sl : Z) (x : AttData) : Prop :=
  DutyDb.ad_slot x = sl /\ ad_beacon_block_root x = block /\ ad_source x = source /\ ad_target x = target.

(** The duty database holds nothing that contradicts these votes and the keys
    of the slot's validators, and indexes its keys by their slot. *)
Record consistent (d : Duty) (s : Db) : Prop := {
  cs_data : forall c x, attestation_duties s !! (slot d, c) = Some x -> votes_for (slot d) x;
  cs_keys : forall c v pk, attestation_pub_keys s !! (slot d, c, v) = Some pk ->
    ch_vals ch (epoch_of ch d) !! v = Some pk;
  cs_index : forall sl keys k, attestation_keys_by_slot s !! sl = Some keys -> k ∈ keys -> k.1.1 = sl;
}.

(** [m] succeeds and keeps the database consistent. *)
Definition stores (d : Duty) (m : proc Db DbError unit) : Prop :=
  forall s, consistent d s -> wp m (fun _ s' => consistent d s') (fun _ _ => False) s.

Lemma stores_bind d m k : stores d m -> stores d k -> stores d (m ;; k).
Proof.
  intros Hm Hk s Hs. apply wp_bind. eapply wp_mono; [by apply Hm| |done]. intros ? s' Hs'. by apply Hk.
Qed.

Lemma stores_for {X} d (l : list X) g : (forall x, x ∈ l -> stores d (g x)) -> stores d (p_for l g).
Proof.
  induction l as [|x l IH]; intros Hl; cbn.
  - intros s Hs. by apply wp_ret.
  - apply stores_bind; [apply Hl; by left|]. apply IH. intros y Hy. apply Hl. by right.
Qed.

Lemma stores_pubkey d c v pk :
  ch_vals ch (epoch_of ch d) !! v = Some pk -> stores d (store_att_pubkey (slot d) (slot d) c v pk).
Proof.
  intros Hv s [Hd Hk Hi]. unfold store_att_pubkey. wp_step.
  destruct (attestation_pub_keys s !! (slot d, c, v)) as [pk'|] eqn:E.
  - apply Hk in E. rewrite Hv in E. injection E as <-. rewrite bool_decide_false by auto.
    by apply wp_ret.
  - wp_step. constructor; cbn.
    + done.
    + intros c' v' pk'. rewrite lookup_insert. case_decide as Heq; [|apply Hk].
      injection Heq as <- <-. by intros [= <-].
    + intros sl keys k. unfold push_at. rewrite lookup_insert. case_decide as Heq; [|apply Hi].
      subst sl. intros [= <-]. rewrite elem_of_app, list_elem_of_singleton. intros [Hin| ->]; [|done].
      destruct (attestation_keys_by_slot s !! slot d) as [ks|] eqn:Ek; [by eapply Hi|by apply elem_of_nil in Hin].
Qed.

Lemma consistent_insert d c x s :
  votes_for (slot d) x -> consistent d s -> consistent d (s <| attestation_duties ::= insert (slot d, c) x |>).
Proof.
  intros Hx [Hd Hk Hi]. constructor; cbn; [|done..].
  intros c' x'. rewrite lookup_insert. case_decide; [by intros [= <-]|apply Hd].
Qed.

Lemma stores_data d c x : votes_for (slot d) x -> stores d (store_att_data (slot d) c x).
Proof.
  intros Hx s Hs. unfold store_att_data. wp_step.
  destruct (attestation_duties s !! (slot d, c)) as [y|] eqn:E.
  - apply (cs_data _ _ Hs) in E as (_ & Eb & Es & Et). destruct Hx as (_ & Xb & Xs & Xt).
    rewrite !bool_decide_false by congruence. by apply wp_ret.
  - wp_step. by apply consistent_insert.
Qed.

Lemma stores_data0 d x : votes_for (slot d) x -> stores d (store_att_data_commidx0 (slot d) x).
Proof.
  intros Hx s Hs. unfold store_att_data_commidx0. wp_step.
  destruct (attestation_duties s !! (slot d, 0)) as [y|] eqn:E.
  - apply (cs_data _ _ Hs) in E as (_ & Eb & Es & Et). destruct Hx as (_ & Xb & Xs & Xt).
    rewrite !bool_decide_false by congruence. by apply wp_ret.
  - wp_step. by apply consistent_insert.
Qed.

(** The value the fetcher makes of a due definition. *)
Definition due_value (d : Duty) (pk : PubKey) (a : Attestation) : Prop :=
  votes_for (slot d) (at_data a) /\ at_duty_slot a = slot d /\
  ch_vals ch (epoch_of ch d) !! at_validator_index a = Some pk.

Lemma stores_attestation d pk a : due_value d pk a -> stores d (store_attestation pk a).
Proof.
  intros (Hx & Hds & Hv). unfold store_attestation. rewrite Hds, (proj1 Hx).
  apply stores_bind; [by apply stores_pubkey|]. apply stores_bind; [by apply stores_data|].
  apply stores_bind; [by apply stores_pubkey|]. by apply stores_data0.
Qed.

(** A duty the database can evict without touching [d]. *)
Definition evictable (d d' : Duty) : Prop :=
  List.In (duty_type d') [Proposer; Attester; Aggregator; SyncContribution] /\ (duty_type d' = Attester -> slot d' <> slot d).

Abbreviation evict_att_key := (fun (s : Db) (key : Z * Z * Z) =>
  s <| attestation_pub_keys ::= delete key |> <| attestation_duties ::= delete (key.1.1, key.1.2) |>).

(** [s] still holds what [s0] holds for the slot of [d]. *)
Record slot_kept (d : Duty) (s0 s : Db) : Prop := {
  sk_data : forall c x, attestation_duties s !! (slot d, c) = Some x <-> attestation_duties s0 !! (slot d, c) = Some x;
  sk_keys : forall c v pk, attestation_pub_keys s !! (slot d, c, v) = Some pk <->
    attestation_pub_keys s0 !! (slot d, c, v) = Some pk;
  sk_index : forall sl keys k, attestation_keys_by_slot s !! sl = Some keys -> k ∈ keys -> k.1.1 = sl;
}.

Lemma slot_kept_same d s0 s s' :
  slot_kept d s0 s -> attestation_duties s' = attestation_duties s ->
  attestation_pub_keys s' = attestation_pub_keys s ->
  attestation_keys_by_slot s' = attestation_keys_by_slot s -> slot_kept d s0 s'.
Proof. intros [Hd Hk Hi] E1 E2 E3. constructor; by rewrite ?E1, ?E2, ?E3. Qed.

Lemma slot_kept_evict d d' s0 s s' keys :
  slot_kept d s0 s -> slot d' <> slot d -> attestation_keys_by_slot s !! slot d' = Some keys ->
  s' = foldl evict_att_key (s <| attestation_keys_by_slot ::= delete (slot d') |>) keys ->
  slot_kept d s0 s'.
Proof.
  intros [Hd Hk Hi] Hne Hkeys ->. constructor.
  - intros c x. rewrite evict_att_data. cbn. rewrite <-Hd. split; [by intros [? _]|]. intros Hx. split; [done|].
    intros vi Hin. apply Hne. by rewrite <-(Hi _ _ _ Hkeys Hin).
  - intros c v pk. rewrite evict_att_pub_keys, lookup_delete_all. cbn. rewrite <-Hk.
    split; [by intros [_ ?]|]. intros Hx. split; [|done].
    intros Hin. apply Hne. by rewrite <-(Hi _ _ _ Hkeys Hin).
  - intros sl l k. rewrite (evict_att_same attestation_keys_by_slot) by done. cbn.
    rewrite lookup_delete_Some. intros [_ Hl]. by eapply Hi.
Qed.

Lemma delete_duty_kept d d' s0 s :
  evictable d d' -> slot_kept d s0 s ->
  wp (delete_duty d') (fun _ s' => slot_kept d s0 s') (fun _ _ => False) s.
Proof.
  intros [Ht Hatt] Hs. unfold delete_duty.
  destruct (duty_type d') eqn:E; try (cbn in Ht; exfalso; intuition congruence); apply wp_modify.
  - by eapply slot_kept_same.
  - destruct (attestation_keys_by_slot s !! slot d') as [keys|] eqn:Ek; [|by eapply slot_kept_same].
    eapply slot_kept_same; [eapply slot_kept_evict; [exact Hs|by apply Hatt|exact Ek|reflexivity]|done..].
  - destruct (aggregation_keys_by_slot s !! slot d'); [|done]. eapply slot_kept_same; [exact Hs|..];
      by rewrite (foldl_proj _ (fun a _ => a)), foldl_const.
  - destruct (contrib_keys_by_slot s !! slot d'); [|by eapply slot_kept_same].
    eapply slot_kept_same; [exact Hs|..]; cbn; by rewrite (foldl_proj _ (fun a _ => a)), foldl_const.
Qed.

Lemma wake_kept d s0 t s :
  slot_kept d s0 s -> wp (wake t) (fun _ s' => slot_kept d s0 s') (fun _ _ => False) s.
Proof.
  intros Hs. unfold wake. destruct t; try by apply wp_ret.
  all: apply wp_modify; by eapply slot_kept_same.
Qed.

Lemma evict_expired_kept d expired s0 s :
  Forall (evictable d) expired -> slot_kept d s0 s ->
  wp (evict_expired expired) (fun _ s' => slot_kept d s0 s') (fun _ _ => False) s.
Proof.
  intros Hall. revert s. induction Hall as [|d' l Hd' _ IH]; intros s Hs; [by apply wp_ret|].
  unfold evict_expired. cbn [p_for]. apply wp_bind, wp_bind.
  eapply wp_mono; [by apply (delete_duty_kept d d' s0)| |done]. intros ? s1 H1.
  eapply wp_mono; [by apply (wake_kept d s0)| |done]. intros ? s2 H2. by apply IH.
Qed.

Lemma consistent_kept d s0 s : consistent d s0 -> slot_kept d s0 s -> consistent d s.
Proof. intros [Hd Hk Hi] [Hd' Hk' Hi']. constructor; [|setoid_rewrite Hk'|]; naive_solver. Qed.

(** Storing a set of such values, with the eviction that goes with it. *)
Lemma store_due_values (d : Duty) (uset : UnsignedDataSet) (expired : list Duty) (s : Db) :
  duty_type d = Attester -> (forall pk u, uset !! pk = Some u -> exists a, u = UAttestation a /\ due_value d pk a) ->
  Forall (evictable d) expired -> consistent d s ->
  exists s', store ho' Scheduled expired d uset s = (s', Ok tt) /\ consistent d s' /\
    forall pk a, uset !! pk = Some (UAttestation a) -> att_stored pk a s'.
Proof.
  intros Ht Hset Hexp Hs.
  assert (stores d (store_set ho' Attester uset)) as Hst.
  { apply stores_for. intros [pk u] Hin. apply elem_of_ho_list in Hin.
    destruct (Hset pk u Hin) as (a & -> & Ha). by apply stores_attestation. }
  unfold store. rewrite Ht. rewrite bool_decide_false by done.
  specialize (Hst s Hs). unfold wp in Hst.
  destruct (store_set ho' Attester uset s) as [s1 [[]|e|]] eqn:E1; [|done..].
  erewrite proc_step by exact E1. cbn [wake]. proc_simp.
  set (s2 := s1 <| attestation_notify ::= S |>).
  assert (slot_kept d s1 s2) as H2 by (constructor; [done|done|apply Hst]).
  pose proof (evict_expired_kept d expired s1 s2 Hexp H2) as H3. unfold wp in H3.
  destruct (evict_expired expired s2) as [s3 [[]|e|]]; [|done..]. exists s3.
  split_and!; [done|by eapply consistent_kept|]. intros pk a Ha.
  destruct (Hset pk _ Ha) as (? & [= <-] & (Hx & _)).
  pose proof (store_set_attester_ok _ _ _ _ _ _ E1 Ha) as Hatt. unfold att_stored in *.
  rewrite (proj1 Hx) in *. destruct H3 as [Hd3 Hk3 _].
  setoid_rewrite Hd3. by rewrite !Hk3.
Qed.

Lemma fetch_attester_loop_total (sl : Z) (l : list (PubKey * DutyDefinition)) m resp log :
  (forall log ci, exists x, produce_attestation_data env log sl ci = AnsOk x) ->
  (forall pk d, (pk, d) ∈ l -> exists ad, d = DefAttester ad) ->
  exists log' set, attester_data_loop env f sl l m resp log = (log', Ok set).
Proof.
  intros Hans. revert m resp log. induction l as [|[pk d] l IH]; intros m resp log Hl; [by eexists _, _|].
  destruct (Hl pk d) as [ad ->]; [by left|]. cbn [attester_data_loop].
  assert (forall pk d, (pk, d) ∈ l -> exists ad, d = DefAttester ad) as Hl'.
  { intros pk' d' Hd. apply (Hl pk' d'). by right. }
  destruct (m !! _) as [x|]; [rewrite proc_mret; by apply IH|].
  unfold attestation_data. destruct (Hans log (att_comm_idx f sl (at_duty ad))) as [x Hx].
  erewrite proc_step; [by apply IH|]. rewrite ask_bind, Hx. reflexivity.
Qed.

(** ** Theorems *)

(** Whatever happened before, no duty that a tick triggers is one the fetcher
    has no data for, or whose definitions it refuses. *)
Theorem triggered_duties_fetchable hex_decode es sl ans ans_next log :
  chain_ok ch -> events_ok hex_decode ho ch 0 (es ++ [EvSlot sl ans ans_next]) ->
  exists st rs st' new,
    run_events hex_decode ho es (actor_new (ch_spe ch)) = (st, Ok rs) /\
    run_event hex_decode ho (EvSlot sl ans ans_next) st = (st', Ok None) /\
    triggered st' = triggered st ++ new /\
    forall d set e, (d, set) ∈ new ->
      (fetch signature_of att_root sha256 env f ho d set log).2 = Err e -> blames_definition e = false.
Proof.
  intros Hch Hes.
  destruct (run_events_tick hex_decode ho ch es sl ans ans_next Hch Hes)
    as (st & rs & st' & new & E1 & E2 & E3 & _ & [_ Hs] & _).
  exists st, rs, st', new. split_and!; [done..|]. intros d set e Hin He.
  destruct (Hs d set Hin) as (_ & Hne & Hdue).
  eapply (due_set_fetchable d set); [by split|]. by rewrite (surjective_pairing (fetch _ _ _ _ _ _ _ _ _)), He.
Qed.

End workflow.

(** ** Sample: the scheduler's sample validator *)

Module WorkflowSample.
Import SchedulerSample.

Abbreviation AD := (AttData (Root := Z) (Checkpoint := Z)).
Abbreviation SEnv := (Env (Root := Z) (Checkpoint := Z) (Proposal := Z * Z) (AggAttestation := option AD)
  (Bits := Z) (Sig := Z)).

(** A beacon node whose head is block 30 all the time. *)
Definition votes (sl ci : Z) : AD :=
  {| DutyDb.ad_slot := sl; ad_index := ci; ad_beacon_block_root := 30; ad_source := 1; ad_target := 2 |}.

Definition env : SEnv := {|
  produce_attestation_data := fun _ sl ci => AnsOk (votes sl ci);
  get_aggregated_attestation := fun _ sl ci _ => AnsOk (Some (votes sl ci));
  produce_sync_committee_contribution := fun _ _ _ _ => AnsOther;
  produce_block := fun _ sl _ _ _ => AnsOk (sl, 31);
  agg_sig_db := fun _ _ _ => None;
  await_att_data := fun _ sl ci => Some (votes sl ci);
  subscriber := fun _ _ _ => true |}.

Definition config : FetcherConfig := {|
  eth2_cl := ChainSample.client;
  subs := 1; builder_enabled := false;
  graffiti_builder := {| default_graffiti := replicate 32 0; graffiti := ∅ |};
  electra_slot := 100; fetch_only_comm_idx0 := false |}.

Definition attest : Duty := new_attester_duty 1.

Definition attesters : DutyDefinitionSet := {[pk := DefAttester att_def]}.

Lemma attesters_due : due_set chain attest attesters.
Proof.
  split; [apply map_non_empty_singleton|]. intros pk' def Hd. unfold attesters in Hd.
  apply lookup_singleton_Some in Hd as [<- <-]. vm_compute. reflexivity.
Qed.

Lemma triggered_duties_fetchable_witness :
  exists new : list (Duty * DutyDefinitionSet), (exists set, (attest, set) ∈ new) /\ forall d set e, (d, set) ∈ new ->
    (fetch (fun _ => None) ad_beacon_block_root (fun x => x) env config default_order d set []).2 = Err e ->
    blames_definition e = false.
Proof.
  destruct (triggered_duties_fetchable (fun _ => None) ad_beacon_block_root (fun x => x) env config default_order
    chain hex_parse events (at_slot 1) answers silent [] chain_is_ok events_are_ok)
    as (st & rs & st' & new & E1 & E2 & E3 & Hnew).
  exists new. split; [|exact Hnew].
  destruct (run_events_tick hex_parse default_order chain events (at_slot 1) answers silent chain_is_ok events_are_ok)
    as (st1 & rs1 & st1' & new1 & F1 & F2 & F3 & _ & _ & Hc).
  rewrite E1 in F1. injection F1 as <- <-. rewrite E2 in F2. injection F2 as <-.
  rewrite E3 in F3. apply app_inv_head in F3. subst new1.
  destruct (Hc (or_introl answers_healthy) attest pk (DefAttester att_def) eq_refl) as (set & Hin & _);
    [vm_compute; reflexivity|by exists set].
Defined.

End WorkflowSample.
