(* ===== verification/BeaconTypes.v ===== *)
(** * Beacon-chain types

    The parts of [crates/eth2api/src/spec] (versions, attestations, aggregates,
    exits, sync committee messages), [v1.rs] and [versioned.rs] that signed and
    unsigned duty data are made of.  Beacon blocks are opaque: their slot,
    graffiti and tree hash are read through [BeaconSpec]. *)

From S2P Require Import Prelude SszBits.

Open Scope Z_scope.

Abbreviation Root := (list Z).
Abbreviation BLSSignature := (list Z).

(** ** Versions *)

Inductive DataVersion := VUnknown | VPhase0 | VAltair | VBellatrix | VCapella | VDeneb | VElectra | VFulu.

#[global] Instance DataVersion_eq_dec : EqDecision DataVersion.
Proof. solve_decision. Defined.

Definition version_as_str (v : DataVersion) : string :=
  match v with
  | VUnknown => "unknown" | VPhase0 => "phase0" | VAltair => "altair" | VBellatrix => "bellatrix"
  | VCapella => "capella" | VDeneb => "deneb" | VElectra => "electra" | VFulu => "fulu"
  end.

(** [None] is the error [UnknownDataVersion]. *)
Definition to_legacy_u64 (v : DataVersion) : option Z :=
  match v with
  | VPhase0 => Some 0 | VAltair => Some 1 | VBellatrix => Some 2 | VCapella => Some 3
  | VDeneb => Some 4 | VElectra => Some 5 | VFulu => Some 6
  | VUnknown => None
  end.

Definition from_legacy_u64 (value : Z) : option DataVersion :=
  match value with
  | 0 => Some VPhase0 | 1 => Some VAltair | 2 => Some VBellatrix | 3 => Some VCapella
  | 4 => Some VDeneb | 5 => Some VElectra | 6 => Some VFulu
  | _ => None
  end.

Definition data_version_is_before_electra (v : DataVersion) : bool :=
  match v with VElectra | VFulu => false | _ => true end.

Inductive BuilderVersion := BvUnknown | BvV1.

#[global] Instance BuilderVersion_eq_dec : EqDecision BuilderVersion.
Proof. solve_decision. Defined.

(** ** Messages *)

Record Checkpoint := { cp_epoch : Z; cp_root : Root }.

Record AttestationData := {
  att_slot : Z;
  att_index : Z;
  att_beacon_block_root : Root;
  att_source : Checkpoint;
  att_target : Checkpoint;
}.

(** [phase0::Attestation] and [electra::Attestation]. *)
Record Attestation0 := {
  a0_aggregation_bits : BitList;
  a0_data : AttestationData;
  a0_signature : BLSSignature;
}.

Record AttestationE := {
  ae_aggregation_bits : BitList;
  ae_data : AttestationData;
  ae_signature : BLSSignature;
  ae_committee_bits : list Z;
}.

(** The containers of a message and its signature. *)
Record SignedMsg (M : Type) := { sm_message : M; sm_signature : BLSSignature }.
#[global] Arguments sm_message {M} _.
#[global] Arguments sm_signature {M} _.

Record AggregateAndProof (A : Type) := {
  ap_aggregator_index : Z;
  ap_aggregate : A;
  ap_selection_proof : BLSSignature;
}.
#[global] Arguments ap_aggregator_index {A} _.
#[global] Arguments ap_aggregate {A} _.
#[global] Arguments ap_selection_proof {A} _.

Abbreviation SignedAggregate0 := (SignedMsg (AggregateAndProof Attestation0)).
Abbreviation SignedAggregateE := (SignedMsg (AggregateAndProof AttestationE)).

Record VoluntaryExit := { ve_epoch : Z; ve_validator_index : Z }.

Record SyncCommitteeMessage := {
  sc_msg_slot : Z;
  sc_msg_beacon_block_root : Root;
  sc_msg_validator_index : Z;
  sc_msg_signature : BLSSignature;
}.

Record SyncCommitteeContribution := {
  scc_slot : Z;
  scc_beacon_block_root : Root;
  scc_subcommittee_index : Z;
  scc_aggregation_bits : list Z;
  scc_signature : BLSSignature;
}.

Record ContributionAndProof := {
  cap_aggregator_index : Z;
  cap_contribution : SyncCommitteeContribution;
  cap_selection_proof : BLSSignature;
}.

Record SyncAggregatorSelectionData := { sel_slot : Z; sel_subcommittee_index : Z }.

Record ValidatorRegistration := {
  vr_fee_recipient : list Z;
  vr_gas_limit : Z;
  vr_timestamp : Z;
  vr_pubkey : list Z;
}.

Record BeaconCommitteeSelection := {
  bcs_slot : Z;
  bcs_validator_index : Z;
  bcs_selection_proof : BLSSignature;
}.

Record SyncCommitteeSelection := {
  scs_slot : Z;
  scs_validator_index : Z;
  scs_subcommittee_index : Z;
  scs_selection_proof : BLSSignature;
}.

(** [eth2util::types::SignedEpoch]. *)
Record SignedEpoch := { se_epoch : Z; se_signature : BLSSignature }.

#[global] Instance BitList_eq_dec : EqDecision BitList.
Proof. solve_decision. Defined.
#[global] Instance Checkpoint_eq_dec : EqDecision Checkpoint.
Proof. solve_decision. Defined.
#[global] Instance AttestationData_eq_dec : EqDecision AttestationData.
Proof. solve_decision. Defined.
#[global] Instance Attestation0_eq_dec : EqDecision Attestation0.
Proof. solve_decision. Defined.
#[global] Instance AttestationE_eq_dec : EqDecision AttestationE.
Proof. solve_decision. Defined.
#[global] Instance SignedMsg_eq_dec {M} `{EqDecision M} : EqDecision (SignedMsg M).
Proof. solve_decision. Defined.
#[global] Instance AggregateAndProof_eq_dec {A} `{EqDecision A} : EqDecision (AggregateAndProof A).
Proof. solve_decision. Defined.
#[global] Instance VoluntaryExit_eq_dec : EqDecision VoluntaryExit.
Proof. solve_decision. Defined.
#[global] Instance SyncCommitteeMessage_eq_dec : EqDecision SyncCommitteeMessage.
Proof. solve_decision. Defined.
#[global] Instance SyncCommitteeContribution_eq_dec : EqDecision SyncCommitteeContribution.
Proof. solve_decision. Defined.
#[global] Instance ContributionAndProof_eq_dec : EqDecision ContributionAndProof.
Proof. solve_decision. Defined.
#[global] Instance ValidatorRegistration_eq_dec : EqDecision ValidatorRegistration.
Proof. solve_decision. Defined.
#[global] Instance BeaconCommitteeSelection_eq_dec : EqDecision BeaconCommitteeSelection.
Proof. solve_decision. Defined.
#[global] Instance SyncCommitteeSelection_eq_dec : EqDecision SyncCommitteeSelection.
Proof. solve_decision. Defined.
#[global] Instance SignedEpoch_eq_dec : EqDecision SignedEpoch.
Proof. solve_decision. Defined.

(** ** Blocks *)

(** The block types of the specification; Fulu has those of Electra. *)
Inductive BlockKind :=
| KPhase0 | KAltair | KBellatrix | KBellatrixBlinded | KCapella | KCapellaBlinded
| KDeneb | KDenebBlinded | KElectra | KElectraBlinded.

#[global] Instance BlockKind_eq_dec : EqDecision BlockKind.
Proof. solve_decision. Defined.

(** Blocks, the KZG proofs and blobs that go with some of them, and the tree
    hashes of all messages. *)
Class BeaconSpec := {
  Block : BlockKind -> Type;
  Blobs : Type;
  Block_eq_dec :: forall k, EqDecision (Block k);
  Blobs_eq_dec :: EqDecision Blobs;
  block_slot : forall k, Block k -> Z;
  block_graffiti : forall k, Block k -> Root;
  block_root : forall k, Block k -> Root;
  att_data_root : AttestationData -> Root;
  exit_root : VoluntaryExit -> Root;
  registration_root : ValidatorRegistration -> Root;
  epoch_root : Z -> Root;
  slot_root : Z -> Root;
  selection_data_root : SyncAggregatorSelectionData -> Root;
  aggregate_root0 : AggregateAndProof Attestation0 -> Root;
  aggregate_rootE : AggregateAndProof AttestationE -> Root;
  contribution_root : ContributionAndProof -> Root;
}.
#[global] Arguments block_slot {_ _} _.
#[global] Arguments block_graffiti {_ _} _.
#[global] Arguments block_root {_ _} _.

Section versioned.
Context `{BeaconSpec}.

Record SignedBlockContents (k : BlockKind) := {
  sbc_signed_block : SignedMsg (Block k);
  sbc_blobs : Blobs;
}.
#[global] Arguments sbc_signed_block {k} _.
#[global] Arguments sbc_blobs {k} _.

#[global] Instance SignedBlockContents_eq_dec k : EqDecision (SignedBlockContents k).
Proof. solve_decision. Defined.

Inductive SignedProposalBlock :=
| SpPhase0 (b : SignedMsg (Block KPhase0))
| SpAltair (b : SignedMsg (Block KAltair))
| SpBellatrix (b : SignedMsg (Block KBellatrix))
| SpBellatrixBlinded (b : SignedMsg (Block KBellatrixBlinded))
| SpCapella (b : SignedMsg (Block KCapella))
| SpCapellaBlinded (b : SignedMsg (Block KCapellaBlinded))
| SpDeneb (b : SignedBlockContents KDeneb)
| SpDenebBlinded (b : SignedMsg (Block KDenebBlinded))
| SpElectra (b : SignedBlockContents KElectra)
| SpElectraBlinded (b : SignedMsg (Block KElectraBlinded))
| SpFulu (b : SignedBlockContents KElectra)
| SpFuluBlinded (b : SignedMsg (Block KElectraBlinded)).

#[global] Instance SignedProposalBlock_eq_dec : EqDecision SignedProposalBlock.
Proof. solve_decision. Defined.

(** The signed block inside, with its kind. *)
Definition signed_block_of (p : SignedProposalBlock) : { k : BlockKind & SignedMsg (Block k) } :=
  match p with
  | SpPhase0 b => existT _ b | SpAltair b => existT _ b
  | SpBellatrix b => existT _ b | SpBellatrixBlinded b => existT _ b
  | SpCapella b => existT _ b | SpCapellaBlinded b => existT _ b
  | SpDeneb b => existT _ (sbc_signed_block b) | SpDenebBlinded b => existT _ b
  | SpElectra b => existT _ (sbc_signed_block b) | SpElectraBlinded b => existT _ b
  | SpFulu b => existT _ (sbc_signed_block b) | SpFuluBlinded b => existT _ b
  end.

Definition proposal_signature (p : SignedProposalBlock) : BLSSignature :=
  sm_signature (projT2 (signed_block_of p)).
Definition proposal_graffiti (p : SignedProposalBlock) : Root :=
  block_graffiti (sm_message (projT2 (signed_block_of p))).
Definition proposal_slot (p : SignedProposalBlock) : Z :=
  block_slot (sm_message (projT2 (signed_block_of p))).
Definition proposal_root (p : SignedProposalBlock) : Root :=
  block_root (sm_message (projT2 (signed_block_of p))).

Definition with_signature {M} (s : BLSSignature) (b : SignedMsg M) : SignedMsg M :=
  {| sm_message := sm_message b; sm_signature := s |}.

Definition contents_with_signature {k} (s : BLSSignature) (c : SignedBlockContents k) : SignedBlockContents k :=
  {| sbc_signed_block := with_signature s (sbc_signed_block c); sbc_blobs := sbc_blobs c |}.

Definition proposal_set_signature (s : BLSSignature) (p : SignedProposalBlock) : SignedProposalBlock :=
  match p with
  | SpPhase0 b => SpPhase0 (with_signature s b)
  | SpAltair b => SpAltair (with_signature s b)
  | SpBellatrix b => SpBellatrix (with_signature s b)
  | SpBellatrixBlinded b => SpBellatrixBlinded (with_signature s b)
  | SpCapella b => SpCapella (with_signature s b)
  | SpCapellaBlinded b => SpCapellaBlinded (with_signature s b)
  | SpDeneb b => SpDeneb (contents_with_signature s b)
  | SpDenebBlinded b => SpDenebBlinded (with_signature s b)
  | SpElectra b => SpElectra (contents_with_signature s b)
  | SpElectraBlinded b => SpElectraBlinded (with_signature s b)
  | SpFulu b => SpFulu (contents_with_signature s b)
  | SpFuluBlinded b => SpFuluBlinded (with_signature s b)
  end.

Inductive SignedBlindedProposalBlock :=
| SbBellatrix (b : SignedMsg (Block KBellatrixBlinded))
| SbCapella (b : SignedMsg (Block KCapellaBlinded))
| SbDeneb (b : SignedMsg (Block KDenebBlinded))
| SbElectra (b : SignedMsg (Block KElectraBlinded))
| SbFulu (b : SignedMsg (Block KElectraBlinded)).

Definition into_blinded (p : SignedProposalBlock) : option SignedBlindedProposalBlock :=
  match p with
  | SpBellatrixBlinded b => Some (SbBellatrix b)
  | SpCapellaBlinded b => Some (SbCapella b)
  | SpDenebBlinded b => Some (SbDeneb b)
  | SpElectraBlinded b => Some (SbElectra b)
  | SpFuluBlinded b => Some (SbFulu b)
  | _ => None
  end.

Definition into_signed (p : SignedBlindedProposalBlock) : SignedProposalBlock :=
  match p with
  | SbBellatrix b => SpBellatrixBlinded b
  | SbCapella b => SpCapellaBlinded b
  | SbDeneb b => SpDenebBlinded b
  | SbElectra b => SpElectraBlinded b
  | SbFulu b => SpFuluBlinded b
  end.

(** [versioned::VersionedSignedProposal]. *)
Record VersionedSignedProposal := {
  vsp_version : DataVersion;
  vsp_blinded : bool;
  vsp_block : SignedProposalBlock;
}.

#[global] Instance VersionedSignedProposal_eq_dec : EqDecision VersionedSignedProposal.
Proof. solve_decision. Defined.

Record VersionedSignedBlindedProposal := {
  vsb_version : DataVersion;
  vsb_block : SignedBlindedProposalBlock;
}.

(** ** Attestations *)

Inductive AttestationPayload :=
| ApPhase0 (a : Attestation0) | ApAltair (a : Attestation0) | ApBellatrix (a : Attestation0)
| ApCapella (a : Attestation0) | ApDeneb (a : Attestation0)
| ApElectra (a : AttestationE) | ApFulu (a : AttestationE).

#[global] Instance AttestationPayload_eq_dec : EqDecision AttestationPayload.
Proof. solve_decision. Defined.

Definition payload_signature (p : AttestationPayload) : BLSSignature :=
  match p with
  | ApPhase0 a | ApAltair a | ApBellatrix a | ApCapella a | ApDeneb a => a0_signature a
  | ApElectra a | ApFulu a => ae_signature a
  end.

Definition payload_data (p : AttestationPayload) : AttestationData :=
  match p with
  | ApPhase0 a | ApAltair a | ApBellatrix a | ApCapella a | ApDeneb a => a0_data a
  | ApElectra a | ApFulu a => ae_data a
  end.

Definition a0_with_signature (s : BLSSignature) (a : Attestation0) : Attestation0 :=
  {| a0_aggregation_bits := a0_aggregation_bits a; a0_data := a0_data a; a0_signature := s |}.
Definition ae_with_signature (s : BLSSignature) (a : AttestationE) : AttestationE :=
  {| ae_aggregation_bits := ae_aggregation_bits a; ae_data := ae_data a; ae_signature := s;
     ae_committee_bits := ae_committee_bits a |}.

Definition payload_set_signature (s : BLSSignature) (p : AttestationPayload) : AttestationPayload :=
  match p with
  | ApPhase0 a => ApPhase0 (a0_with_signature s a)
  | ApAltair a => ApAltair (a0_with_signature s a)
  | ApBellatrix a => ApBellatrix (a0_with_signature s a)
  | ApCapella a => ApCapella (a0_with_signature s a)
  | ApDeneb a => ApDeneb (a0_with_signature s a)
  | ApElectra a => ApElectra (ae_with_signature s a)
  | ApFulu a => ApFulu (ae_with_signature s a)
  end.

Definition payload_aggregation_bits (p : AttestationPayload) : BitList :=
  match p with
  | ApPhase0 a | ApAltair a | ApBellatrix a | ApCapella a | ApDeneb a => a0_aggregation_bits a
  | ApElectra a | ApFulu a => ae_aggregation_bits a
  end.

(** [versioned::VersionedAttestation]. *)
Record VersionedAttestation := {
  va_version : DataVersion;
  va_validator_index : option Z;
  va_attestation : option AttestationPayload;
}.

#[global] Instance VersionedAttestation_eq_dec : EqDecision VersionedAttestation.
Proof. solve_decision. Defined.

(** ** Aggregates *)

Inductive AggregatePayload :=
| AgPhase0 (a : SignedAggregate0) | AgAltair (a : SignedAggregate0) | AgBellatrix (a : SignedAggregate0)
| AgCapella (a : SignedAggregate0) | AgDeneb (a : SignedAggregate0)
| AgElectra (a : SignedAggregateE) | AgFulu (a : SignedAggregateE).

#[global] Instance AggregatePayload_eq_dec : EqDecision AggregatePayload.
Proof. solve_decision. Defined.

Definition aggregate_signature (p : AggregatePayload) : BLSSignature :=
  match p with
  | AgPhase0 a | AgAltair a | AgBellatrix a | AgCapella a | AgDeneb a => sm_signature a
  | AgElectra a | AgFulu a => sm_signature a
  end.

Definition aggregate_set_signature (s : BLSSignature) (p : AggregatePayload) : AggregatePayload :=
  match p with
  | AgPhase0 a => AgPhase0 (with_signature s a)
  | AgAltair a => AgAltair (with_signature s a)
  | AgBellatrix a => AgBellatrix (with_signature s a)
  | AgCapella a => AgCapella (with_signature s a)
  | AgDeneb a => AgDeneb (with_signature s a)
  | AgElectra a => AgElectra (with_signature s a)
  | AgFulu a => AgFulu (with_signature s a)
  end.

Definition aggregate_data (p : AggregatePayload) : AttestationData :=
  match p with
  | AgPhase0 a | AgAltair a | AgBellatrix a | AgCapella a | AgDeneb a => a0_data (ap_aggregate (sm_message a))
  | AgElectra a | AgFulu a => ae_data (ap_aggregate (sm_message a))
  end.

Definition aggregate_selection_proof (p : AggregatePayload) : BLSSignature :=
  match p with
  | AgPhase0 a | AgAltair a | AgBellatrix a | AgCapella a | AgDeneb a => ap_selection_proof (sm_message a)
  | AgElectra a | AgFulu a => ap_selection_proof (sm_message a)
  end.

Definition aggregate_message_root (p : AggregatePayload) : Root :=
  match p with
  | AgPhase0 a | AgAltair a | AgBellatrix a | AgCapella a | AgDeneb a => aggregate_root0 (sm_message a)
  | AgElectra a | AgFulu a => aggregate_rootE (sm_message a)
  end.

(** [versioned::VersionedSignedAggregateAndProof]. *)
Record VersionedSignedAggregateAndProof := {
  vag_version : DataVersion;
  vag_payload : AggregatePayload;
}.

#[global] Instance VersionedSignedAggregateAndProof_eq_dec : EqDecision VersionedSignedAggregateAndProof.
Proof. solve_decision. Defined.

Definition vag_slot (v : VersionedSignedAggregateAndProof) : option Z :=
  if decide (vag_version v = VUnknown) then None else Some (att_slot (aggregate_data (vag_payload v))).

Definition vag_message_root (v : VersionedSignedAggregateAndProof) : option Root :=
  if decide (vag_version v = VUnknown) then None else Some (aggregate_message_root (vag_payload v)).

(** [versioned::VersionedSignedValidatorRegistration]. *)
Record VersionedSignedValidatorRegistration := {
  vreg_version : BuilderVersion;
  vreg_v1 : option (SignedMsg ValidatorRegistration);
}.

#[global] Instance VersionedSignedValidatorRegistration_eq_dec :
  EqDecision VersionedSignedValidatorRegistration.
Proof. solve_decision. Defined.

Definition vreg_message_root (r : VersionedSignedValidatorRegistration) : option Root :=
  match vreg_version r with
  | BvV1 => (fun v => registration_root (sm_message v)) <$> vreg_v1 r
  | BvUnknown => None
  end.
End versioned.

(** ** Versions on the wire *)

Lemma legacy_version_roundtrip v n : to_legacy_u64 v = Some n <-> from_legacy_u64 n = Some v /\ 0 <= n <= 6.
Proof.
  split.
  - destruct v; intros [= <-]; (split; [done|lia]).
  - intros [H Hn]. assert (n = 0 \/ n = 1 \/ n = 2 \/ n = 3 \/ n = 4 \/ n = 5 \/ n = 6) as Hc by lia.
    destruct Hc as [->|[->|[->|[->|[->|[->| ->]]]]]]; by injection H as <-.
Qed.
