(* ===== verification/SszCodec.v ===== *)
(** * SSZ codec of duty data

    [crates/core/src/ssz_codec.rs]: the binary form of signed and unsigned duty
    data, with the headers that tell versions apart.  The derived encoders of
    the beacon-chain containers are the class [Ssz]; the headers are laid out
    here, byte by byte. *)

From S2P Require Import Prelude Bytes SszBits BeaconTypes.

Open Scope Z_scope.

(** [ssz::Encode] and [ssz::Decode]; [ssz_value] holds of the values of the
    Rust type: integers of their width, byte arrays of their length, lists within
    their limits. *)
Class Ssz (T : Type) := {
  as_ssz_bytes : T -> list Z;
  from_ssz_bytes : list Z -> option T;
  ssz_value : T -> Prop;
}.

Inductive SszCodecError :=
| TooShort (need got : Z)
| InvalidOffset (expected got : Z)
| SszUnknownVersion (v : Z)
| InvalidBufferSize
| Decode.

(** The [From] conversions of the two decoding errors. *)
Definition of_ssz {A} (o : option A) : res SszCodecError A := ok_or o Decode.
Definition of_binary {A} (r : res SszBinaryError A) : res SszCodecError A := map_err (fun _ => Decode) r.

Definition require (bytes : list Z) (need : Z) : res SszCodecError unit :=
  if len bytes <? need then Err (TooShort need (len bytes)) else Ok tt.

Definition encode_version (v : DataVersion) : res SszCodecError (list Z) :=
  n ← ok_or (to_legacy_u64 v) Decode; Ok (encode_u64 n).

Definition decode_version (bytes : list Z) : res SszCodecError DataVersion :=
  raw ← of_binary (decode_u64 bytes);
  ok_or (from_legacy_u64 raw) (SszUnknownVersion raw).

(** The check of an offset field. *)
Definition check_offset (expected got : Z) : res SszCodecError unit :=
  if decide (got = expected) then Ok tt else Err (InvalidOffset expected got).

Definition VERSIONED_ATTESTATION_VAL_IDX_HEADER : Z := 20.
Definition VERSIONED_SIGNED_AGGREGATE_HEADER : Z := 12.
Definition VERSIONED_SIGNED_PROPOSAL_HEADER : Z := 13.
Definition SIGNED_VALIDATOR_REGISTRATION_SSZ_SIZE : Z := 180.

(** ** Unsigned proposals *)

Section unsigned.
Context `{BeaconSpec}.

(** [signeddata::ProposalBlock]. *)
Inductive ProposalBlock :=
| PbPhase0 (b : Block KPhase0)
| PbAltair (b : Block KAltair)
| PbBellatrix (b : Block KBellatrix)
| PbBellatrixBlinded (b : Block KBellatrixBlinded)
| PbCapella (b : Block KCapella)
| PbCapellaBlinded (b : Block KCapellaBlinded)
| PbDeneb (b : Block KDeneb) (blobs : Blobs)
| PbDenebBlinded (b : Block KDenebBlinded)
| PbElectra (b : Block KElectra) (blobs : Blobs)
| PbElectraBlinded (b : Block KElectraBlinded)
| PbFulu (b : Block KElectra) (blobs : Blobs)
| PbFuluBlinded (b : Block KElectraBlinded).

Definition pb_version (p : ProposalBlock) : DataVersion :=
  match p with
  | PbPhase0 _ => VPhase0 | PbAltair _ => VAltair
  | PbBellatrix _ | PbBellatrixBlinded _ => VBellatrix
  | PbCapella _ | PbCapellaBlinded _ => VCapella
  | PbDeneb _ _ | PbDenebBlinded _ => VDeneb
  | PbElectra _ _ | PbElectraBlinded _ => VElectra
  | PbFulu _ _ | PbFuluBlinded _ => VFulu
  end.

Definition pb_is_blinded (p : ProposalBlock) : bool :=
  match p with
  | PbBellatrixBlinded _ | PbCapellaBlinded _ | PbDenebBlinded _ | PbElectraBlinded _ | PbFuluBlinded _ => true
  | _ => false
  end.

Record VersionedProposal := {
  vp_block : ProposalBlock;
  vp_consensus_block_value : Z;
  vp_execution_payload_value : Z;
}.

(** [DenebBlockContents] and [ElectraBlockContents]. *)
Record BlockContents (k : BlockKind) := { bc_block : Block k; bc_blobs : Blobs }.
#[global] Arguments bc_block {k} _.
#[global] Arguments bc_blobs {k} _.
End unsigned.

(** The derived codecs of all containers. *)
Class SpecSsz `{BeaconSpec} := {
  ssz_att0 :: Ssz Attestation0;
  ssz_attE :: Ssz AttestationE;
  ssz_att_data :: Ssz AttestationData;
  ssz_agg0 :: Ssz SignedAggregate0;
  ssz_aggE :: Ssz SignedAggregateE;
  ssz_sync_message :: Ssz SyncCommitteeMessage;
  ssz_contribution :: Ssz SyncCommitteeContribution;
  ssz_signed_contribution :: Ssz (SignedMsg ContributionAndProof);
  ssz_registration :: Ssz (SignedMsg ValidatorRegistration);
  ssz_block k :: Ssz (Block k);
  ssz_block_contents k :: Ssz (BlockContents k);
  ssz_signed_block k :: Ssz (SignedMsg (Block k));
  ssz_signed_contents k :: Ssz (SignedBlockContents k);
}.

Section codec.
Context `{SpecSsz}.

(** The array of registrations that a validator client posts. *)
Definition decode_signed_validator_registrations (bytes : list Z)
    : res SszCodecError (list (SignedMsg ValidatorRegistration)) :=
  if negb (len bytes mod SIGNED_VALIDATOR_REGISTRATION_SSZ_SIZE =? 0) then Err InvalidBufferSize
  else collect (fun chunk => of_ssz (from_ssz_bytes chunk))
         (chunks (Z.to_nat SIGNED_VALIDATOR_REGISTRATION_SSZ_SIZE) bytes).

(** ** Attestations *)

Definition encode_attestation_payload (a : option AttestationPayload) : res SszCodecError (list Z) :=
  match a with
  | Some (ApPhase0 a | ApAltair a | ApBellatrix a | ApCapella a | ApDeneb a) => Ok (as_ssz_bytes a)
  | Some (ApElectra a | ApFulu a) => Ok (as_ssz_bytes a)
  | None => Err Decode
  end.

Definition decode_attestation_payload (v : DataVersion) (inner : list Z) : res SszCodecError AttestationPayload :=
  match v with
  | VPhase0 => a ← of_ssz (from_ssz_bytes inner); Ok (ApPhase0 a)
  | VAltair => a ← of_ssz (from_ssz_bytes inner); Ok (ApAltair a)
  | VBellatrix => a ← of_ssz (from_ssz_bytes inner); Ok (ApBellatrix a)
  | VCapella => a ← of_ssz (from_ssz_bytes inner); Ok (ApCapella a)
  | VDeneb => a ← of_ssz (from_ssz_bytes inner); Ok (ApDeneb a)
  | VElectra => a ← of_ssz (from_ssz_bytes inner); Ok (ApElectra a)
  | VFulu => a ← of_ssz (from_ssz_bytes inner); Ok (ApFulu a)
  | VUnknown => Err (SszUnknownVersion U64_MAX)
  end.

Definition encode_versioned_attestation (va : VersionedAttestation) : res SszCodecError (list Z) :=
  version ← encode_version (va_version va);
  inner ← encode_attestation_payload (va_attestation va);
  match va_validator_index va with
  | Some val_idx => Ok (version ++ encode_u64 val_idx ++ encode_u32 VERSIONED_ATTESTATION_VAL_IDX_HEADER ++ inner)
  | None => Ok (version ++ encode_u32 VERSIONED_SIGNED_AGGREGATE_HEADER ++ inner)
  end.

Definition try_decode_versioned_attestation_with_val_idx (bytes : list Z) : res SszCodecError VersionedAttestation :=
  require bytes VERSIONED_ATTESTATION_VAL_IDX_HEADER ;;
  b ← slice bytes 0 8; version ← decode_version b;
  b ← slice bytes 8 16; val_idx ← of_binary (decode_u64 b);
  b ← slice bytes 16 20; offset ← of_binary (decode_u32 b);
  check_offset VERSIONED_ATTESTATION_VAL_IDX_HEADER offset ;;
  inner ← slice bytes VERSIONED_ATTESTATION_VAL_IDX_HEADER (len bytes);
  attestation ← decode_attestation_payload version inner;
  Ok {| va_version := version; va_validator_index := Some val_idx; va_attestation := Some attestation |}.

(** The header of version and offset, and what follows. *)
Definition decode_version_header (bytes : list Z) : res SszCodecError (DataVersion * list Z) :=
  require bytes VERSIONED_SIGNED_AGGREGATE_HEADER ;;
  b ← slice bytes 0 8; version ← decode_version b;
  b ← slice bytes 8 12; offset ← of_binary (decode_u32 b);
  check_offset VERSIONED_SIGNED_AGGREGATE_HEADER offset ;;
  inner ← slice bytes VERSIONED_SIGNED_AGGREGATE_HEADER (len bytes);
  Ok (version, inner).

Definition decode_versioned_attestation_no_val_idx (bytes : list Z) : res SszCodecError VersionedAttestation :=
  '(version, inner) ← decode_version_header bytes;
  attestation ← decode_attestation_payload version inner;
  Ok {| va_version := version; va_validator_index := None; va_attestation := Some attestation |}.

Definition decode_versioned_attestation (bytes : list Z) : res SszCodecError VersionedAttestation :=
  match try_decode_versioned_attestation_with_val_idx bytes with
  | Err (InvalidOffset _ _) => decode_versioned_attestation_no_val_idx bytes
  | r => r
  end.

(** [VersionedAggregatedAttestation]: a versioned attestation without the
    validator index. *)
Definition encode_versioned_aggregated_attestation (va : VersionedAttestation) : res SszCodecError (list Z) :=
  version ← encode_version (va_version va);
  inner ← encode_attestation_payload (va_attestation va);
  Ok (version ++ encode_u32 VERSIONED_SIGNED_AGGREGATE_HEADER ++ inner).

Definition decode_versioned_aggregated_attestation (bytes : list Z) : res SszCodecError VersionedAttestation :=
  '(version, inner) ← decode_version_header bytes;
  attestation ← decode_attestation_payload version inner;
  Ok {| va_version := version; va_validator_index := None; va_attestation := Some attestation |}.

(** ** Aggregates *)

Definition encode_aggregate_payload (p : AggregatePayload) : list Z :=
  match p with
  | AgPhase0 a | AgAltair a | AgBellatrix a | AgCapella a | AgDeneb a => as_ssz_bytes a
  | AgElectra a | AgFulu a => as_ssz_bytes a
  end.

Definition decode_aggregate_payload (v : DataVersion) (inner : list Z) : res SszCodecError AggregatePayload :=
  match v with
  | VPhase0 => a ← of_ssz (from_ssz_bytes inner); Ok (AgPhase0 a)
  | VAltair => a ← of_ssz (from_ssz_bytes inner); Ok (AgAltair a)
  | VBellatrix => a ← of_ssz (from_ssz_bytes inner); Ok (AgBellatrix a)
  | VCapella => a ← of_ssz (from_ssz_bytes inner); Ok (AgCapella a)
  | VDeneb => a ← of_ssz (from_ssz_bytes inner); Ok (AgDeneb a)
  | VElectra => a ← of_ssz (from_ssz_bytes inner); Ok (AgElectra a)
  | VFulu => a ← of_ssz (from_ssz_bytes inner); Ok (AgFulu a)
  | VUnknown => Err (SszUnknownVersion U64_MAX)
  end.

Definition encode_versioned_signed_aggregate_and_proof (va : VersionedSignedAggregateAndProof)
    : res SszCodecError (list Z) :=
  version ← encode_version (vag_version va);
  Ok (version ++ encode_u32 VERSIONED_SIGNED_AGGREGATE_HEADER ++ encode_aggregate_payload (vag_payload va)).

Definition decode_versioned_signed_aggregate_and_proof (bytes : list Z)
    : res SszCodecError VersionedSignedAggregateAndProof :=
  '(version, inner) ← decode_version_header bytes;
  payload ← decode_aggregate_payload version inner;
  Ok {| vag_version := version; vag_payload := payload |}.

(** ** Proposals *)

Definition encode_proposal_block (p : SignedProposalBlock) : list Z :=
  match p with
  | SpPhase0 b => as_ssz_bytes b
  | SpAltair b => as_ssz_bytes b
  | SpBellatrix b => as_ssz_bytes b
  | SpBellatrixBlinded b => as_ssz_bytes b
  | SpCapella b => as_ssz_bytes b
  | SpCapellaBlinded b => as_ssz_bytes b
  | SpDeneb b => as_ssz_bytes b
  | SpDenebBlinded b => as_ssz_bytes b
  | SpElectra b => as_ssz_bytes b
  | SpElectraBlinded b => as_ssz_bytes b
  | SpFulu b => as_ssz_bytes b
  | SpFuluBlinded b => as_ssz_bytes b
  end.

Definition decode_proposal_block (v : DataVersion) (blinded : bool) (bytes : list Z)
    : res SszCodecError SignedProposalBlock :=
  match v, blinded with
  | VPhase0, _ => b ← of_ssz (from_ssz_bytes bytes); Ok (SpPhase0 b)
  | VAltair, _ => b ← of_ssz (from_ssz_bytes bytes); Ok (SpAltair b)
  | VBellatrix, false => b ← of_ssz (from_ssz_bytes bytes); Ok (SpBellatrix b)
  | VBellatrix, true => b ← of_ssz (from_ssz_bytes bytes); Ok (SpBellatrixBlinded b)
  | VCapella, false => b ← of_ssz (from_ssz_bytes bytes); Ok (SpCapella b)
  | VCapella, true => b ← of_ssz (from_ssz_bytes bytes); Ok (SpCapellaBlinded b)
  | VDeneb, false => b ← of_ssz (from_ssz_bytes bytes); Ok (SpDeneb b)
  | VDeneb, true => b ← of_ssz (from_ssz_bytes bytes); Ok (SpDenebBlinded b)
  | VElectra, false => b ← of_ssz (from_ssz_bytes bytes); Ok (SpElectra b)
  | VElectra, true => b ← of_ssz (from_ssz_bytes bytes); Ok (SpElectraBlinded b)
  | VFulu, false => b ← of_ssz (from_ssz_bytes bytes); Ok (SpFulu b)
  | VFulu, true => b ← of_ssz (from_ssz_bytes bytes); Ok (SpFuluBlinded b)
  | VUnknown, _ => Err (SszUnknownVersion U64_MAX)
  end.

(** The blinded flag, one byte. *)
Definition encode_blinded (b : bool) : list Z := [if b then 1 else 0].

Definition encode_versioned_signed_proposal (vp : VersionedSignedProposal) : res SszCodecError (list Z) :=
  version ← encode_version (vsp_version vp);
  Ok (version ++ encode_blinded (vsp_blinded vp) ++ encode_u32 VERSIONED_SIGNED_PROPOSAL_HEADER ++
      encode_proposal_block (vsp_block vp)).

(** The header of version, flag and offset, and what follows. *)
Definition decode_blinded_header (bytes : list Z) : res SszCodecError (DataVersion * bool * list Z) :=
  require bytes VERSIONED_SIGNED_PROPOSAL_HEADER ;;
  b ← slice bytes 0 8; version ← decode_version b;
  flag ← expect (bytes !! 8%nat);
  b ← slice bytes 9 13; offset ← of_binary (decode_u32 b);
  check_offset VERSIONED_SIGNED_PROPOSAL_HEADER offset ;;
  inner ← slice bytes VERSIONED_SIGNED_PROPOSAL_HEADER (len bytes);
  Ok (version, negb (flag =? 0), inner).

Definition decode_versioned_signed_proposal (bytes : list Z) : res SszCodecError VersionedSignedProposal :=
  '(version, blinded, inner) ← decode_blinded_header bytes;
  block ← decode_proposal_block version blinded inner;
  Ok {| vsp_version := version; vsp_blinded := blinded; vsp_block := block |}.

(** The bodies that validator clients post. *)
Definition decode_signed_proposal_block_body (v : DataVersion) (bytes : list Z)
    : res SszCodecError SignedProposalBlock :=
  decode_proposal_block v false bytes.

Definition decode_signed_blinded_proposal_block_body (v : DataVersion) (bytes : list Z)
    : res SszCodecError SignedBlindedProposalBlock :=
  match v with
  | VBellatrix => b ← of_ssz (from_ssz_bytes bytes); Ok (SbBellatrix b)
  | VCapella => b ← of_ssz (from_ssz_bytes bytes); Ok (SbCapella b)
  | VDeneb => b ← of_ssz (from_ssz_bytes bytes); Ok (SbDeneb b)
  | VElectra => b ← of_ssz (from_ssz_bytes bytes); Ok (SbElectra b)
  | VFulu => b ← of_ssz (from_ssz_bytes bytes); Ok (SbFulu b)
  | _ => Err (SszUnknownVersion (default U64_MAX (to_legacy_u64 v)))
  end.

(** ** Unsigned proposals *)

Definition encode_unsigned_proposal_block (p : ProposalBlock) : list Z :=
  match p with
  | PbPhase0 b => as_ssz_bytes b
  | PbAltair b => as_ssz_bytes b
  | PbBellatrix b => as_ssz_bytes b
  | PbBellatrixBlinded b => as_ssz_bytes b
  | PbCapella b => as_ssz_bytes b
  | PbCapellaBlinded b => as_ssz_bytes b
  | PbDeneb b blobs => as_ssz_bytes {| bc_block := b; bc_blobs := blobs |}
  | PbDenebBlinded b => as_ssz_bytes b
  | PbElectra b blobs => as_ssz_bytes {| bc_block := b; bc_blobs := blobs |}
  | PbElectraBlinded b => as_ssz_bytes b
  | PbFulu b blobs => as_ssz_bytes {| bc_block := b; bc_blobs := blobs |}
  | PbFuluBlinded b => as_ssz_bytes b
  end.

Definition decode_unsigned_proposal_block (v : DataVersion) (blinded : bool) (bytes : list Z)
    : res SszCodecError ProposalBlock :=
  match v, blinded with
  | VPhase0, _ => b ← of_ssz (from_ssz_bytes bytes); Ok (PbPhase0 b)
  | VAltair, _ => b ← of_ssz (from_ssz_bytes bytes); Ok (PbAltair b)
  | VBellatrix, false => b ← of_ssz (from_ssz_bytes bytes); Ok (PbBellatrix b)
  | VBellatrix, true => b ← of_ssz (from_ssz_bytes bytes); Ok (PbBellatrixBlinded b)
  | VCapella, false => b ← of_ssz (from_ssz_bytes bytes); Ok (PbCapella b)
  | VCapella, true => b ← of_ssz (from_ssz_bytes bytes); Ok (PbCapellaBlinded b)
  | VDeneb, false => c ← of_ssz (from_ssz_bytes bytes); Ok (PbDeneb (bc_block c) (bc_blobs c))
  | VDeneb, true => b ← of_ssz (from_ssz_bytes bytes); Ok (PbDenebBlinded b)
  | VElectra, false => c ← of_ssz (from_ssz_bytes bytes); Ok (PbElectra (bc_block c) (bc_blobs c))
  | VElectra, true => b ← of_ssz (from_ssz_bytes bytes); Ok (PbElectraBlinded b)
  | VFulu, false => c ← of_ssz (from_ssz_bytes bytes); Ok (PbFulu (bc_block c) (bc_blobs c))
  | VFulu, true => b ← of_ssz (from_ssz_bytes bytes); Ok (PbFuluBlinded b)
  | VUnknown, _ => Err (SszUnknownVersion U64_MAX)
  end.

Definition encode_versioned_proposal (vp : VersionedProposal) : res SszCodecError (list Z) :=
  version ← encode_version (pb_version (vp_block vp));
  Ok (version ++ encode_blinded (pb_is_blinded (vp_block vp)) ++ encode_u32 VERSIONED_SIGNED_PROPOSAL_HEADER ++
      encode_unsigned_proposal_block (vp_block vp)).

(** The block values are not on the wire. *)
Definition decode_versioned_proposal (bytes : list Z) : res SszCodecError VersionedProposal :=
  '(version, blinded, inner) ← decode_blinded_header bytes;
  block ← decode_unsigned_proposal_block version blinded inner;
  Ok {| vp_block := block; vp_consensus_block_value := 0; vp_execution_payload_value := 0 |}.
End codec.
