(* ===== verification/SszCodecFacts.v ===== *)
(** * SSZ codec of duty data: theorems

    What is encoded is decoded to itself.  The derived encoders are assumed to
    round-trip and to start as SSZ lays a container out: with the offset of its
    first variable part, which is the size of its fixed part. *)

From S2P Require Import Prelude Bytes SszBits BeaconTypes SszCodec.

Open Scope Z_scope.

(** ** Bytes *)

Lemma le_bytes_app m n z : le_bytes (m + n) z = le_bytes m z ++ le_bytes n (z / 256 ^ Z.of_nat m).
Proof.
  revert z. induction m as [|m IH]; intros z; cbn [Nat.add le_bytes app].
  - by rewrite Z.pow_0_r, Z.div_1_r.
  - rewrite IH. do 3 f_equal. rewrite Nat2Z.inj_succ, Z.pow_succ_r, Z.div_div by lia. done.
Qed.

Lemma le_value_bytes_mod n z : le_value (le_bytes n z) = z mod 256 ^ Z.of_nat n.
Proof.
  revert z. induction n as [|n IH]; intros z; cbn [le_bytes le_value].
  - by rewrite Z.pow_0_r, Z.mod_1_r.
  - rewrite IH, Nat2Z.inj_succ, Z.pow_succ_r by lia. rewrite Z.rem_mul_r; [lia|lia|]. apply Z.pow_pos_nonneg; lia.
Qed.

Lemma slice_at {E A} (l pre mid post : list A) a b :
  l = pre ++ mid ++ post -> a = len pre -> b = len pre + len mid -> slice l a b = @Ok E _ mid.
Proof. intros -> -> ->. apply slice_app. Qed.

(** Lengths of encodings, and cutting a field out of one. *)
Ltac bytes_len :=
  unfold len, encode_u64, encode_u32, encode_blinded in *; rewrite ?length_app, ?length_le_bytes in *;
  cbn [length] in *; lia.
Ltac cut_field a pre mid post :=
  rewrite (slice_at _ pre mid post a) by (first [rewrite ?app_nil_r, <-?app_assoc; reflexivity | bytes_len]);
  cbn [mbind res_bind].

Lemma decode_u64_bytes z : 0 <= z <= U64_MAX -> of_binary (decode_u64 (encode_u64 z)) = Ok z.
Proof.
  intros Hz. unfold decode_u64, encode_u64, decode_fixed_bytes. rewrite length_le_bytes. cbn [Nat.eqb].
  cbn [mbind res_bind of_binary map_err]. rewrite le_value_bytes; [done|]. unfold U64_MAX in Hz. cbn. lia.
Qed.

Lemma decode_u32_bytes z : of_binary (decode_u32 (le_bytes 4 z)) = Ok (z mod 2 ^ 32).
Proof.
  unfold decode_u32, decode_fixed_bytes. rewrite length_le_bytes. cbn [Nat.eqb].
  cbn [mbind res_bind of_binary map_err]. by rewrite le_value_bytes_mod.
Qed.

(** ** Headers *)

Lemma encode_version_spec v bytes :
  encode_version v = Ok bytes -> exists n, bytes = le_bytes 8 n /\ 0 <= n <= 6 /\ decode_version bytes = Ok v.
Proof.
  unfold encode_version. destruct (to_legacy_u64 v) as [n|] eqn:E; [|done]. intros [= <-].
  apply legacy_version_roundtrip in E as [Hv Hn]. exists n. split_and!; [done|lia|lia|].
  unfold decode_version. rewrite decode_u64_bytes by (unfold U64_MAX; lia). cbn. by rewrite Hv.
Qed.

Lemma encode_version_known v : v <> VUnknown -> exists bytes, encode_version v = Ok bytes.
Proof. unfold encode_version. destruct v; [done|..]; cbn; eauto. Qed.

Lemma require_ok bytes n : n <= len bytes -> require bytes n = Ok tt.
Proof. intros Hn. unfold require. destruct (Z.ltb_spec (len bytes) n); [lia|done]. Qed.

Lemma check_offset_of n : 0 <= n < 2 ^ 32 -> (offset ← of_binary (decode_u32 (encode_u32 n)); check_offset n offset) = Ok tt.
Proof.
  intros Hn. unfold encode_u32. rewrite decode_u32_bytes. cbn [mbind res_bind]. unfold check_offset.
  by rewrite Z.mod_small, decide_True.
Qed.

(** The header of version and offset. *)
Lemma version_header v version inner :
  encode_version v = Ok version ->
  decode_version_header (version ++ encode_u32 VERSIONED_SIGNED_AGGREGATE_HEADER ++ inner) = Ok (v, inner).
Proof.
  intros (n & -> & Hn & Hv)%encode_version_spec. unfold decode_version_header, VERSIONED_SIGNED_AGGREGATE_HEADER.
  rewrite require_ok by bytes_len. cbn [mbind res_bind].
  cut_field 0 (@nil Z) (le_bytes 8 n) (encode_u32 12 ++ inner). rewrite Hv. cbn [mbind res_bind].
  cut_field 8 (le_bytes 8 n) (encode_u32 12) inner.
  unfold encode_u32 at 1. rewrite decode_u32_bytes. cbn [mbind res_bind].
  unfold check_offset. rewrite decide_True by done. cbn [mbind res_bind].
  by cut_field 12 (le_bytes 8 n ++ encode_u32 12) inner (@nil Z).
Qed.

(** The header of version, flag and offset. *)
Lemma blinded_header v version blinded inner :
  encode_version v = Ok version ->
  decode_blinded_header (version ++ encode_blinded blinded ++ encode_u32 VERSIONED_SIGNED_PROPOSAL_HEADER ++ inner) =
    Ok (v, blinded, inner).
Proof.
  intros (n & -> & Hn & Hv)%encode_version_spec. unfold decode_blinded_header, VERSIONED_SIGNED_PROPOSAL_HEADER.
  rewrite require_ok by bytes_len. cbn [mbind res_bind].
  cut_field 0 (@nil Z) (le_bytes 8 n) (encode_blinded blinded ++ encode_u32 13 ++ inner). rewrite Hv. cbn [mbind res_bind].
  assert ((le_bytes 8 n ++ encode_blinded blinded ++ encode_u32 13 ++ inner) !! 8%nat = Some (if blinded then 1 else 0))
    as ->. { rewrite lookup_app_r by (by rewrite length_le_bytes). by rewrite length_le_bytes. }
  cbn [expect mbind res_bind].
  cut_field 9 (le_bytes 8 n ++ encode_blinded blinded) (encode_u32 13) inner.
  unfold encode_u32 at 1. rewrite decode_u32_bytes. cbn [mbind res_bind].
  unfold check_offset. rewrite decide_True by done. cbn [mbind res_bind].
  cut_field 13 (le_bytes 8 n ++ encode_blinded blinded ++ encode_u32 13) inner (@nil Z). by destruct blinded.
Qed.

(** ** The derived codecs *)

(** What the code relies on: decoding inverts encoding on the values of the
    type; attestation data takes 128 bytes; a container with a
    variable part starts with the size of its fixed part; and the slot of an
    attestation follows. *)
Class SszLaws `{SpecSsz} := {
  rt_att0 (x : Attestation0) : ssz_value x -> from_ssz_bytes (as_ssz_bytes x) = Some x;
  rt_attE (x : AttestationE) : ssz_value x -> from_ssz_bytes (as_ssz_bytes x) = Some x;
  rt_att_data (x : AttestationData) : ssz_value x -> from_ssz_bytes (as_ssz_bytes x) = Some x;
  rt_agg0 (x : SignedAggregate0) : ssz_value x -> from_ssz_bytes (as_ssz_bytes x) = Some x;
  rt_aggE (x : SignedAggregateE) : ssz_value x -> from_ssz_bytes (as_ssz_bytes x) = Some x;
  rt_sync_message (x : SyncCommitteeMessage) : ssz_value x -> from_ssz_bytes (as_ssz_bytes x) = Some x;
  rt_contribution (x : SyncCommitteeContribution) : ssz_value x -> from_ssz_bytes (as_ssz_bytes x) = Some x;
  rt_signed_contribution (x : SignedMsg ContributionAndProof) : ssz_value x -> from_ssz_bytes (as_ssz_bytes x) = Some x;
  rt_block k (x : Block k) : ssz_value x -> from_ssz_bytes (as_ssz_bytes x) = Some x;
  rt_block_contents k (x : BlockContents k) : ssz_value x -> from_ssz_bytes (as_ssz_bytes x) = Some x;
  rt_signed_block k (x : SignedMsg (Block k)) : ssz_value x -> from_ssz_bytes (as_ssz_bytes x) = Some x;
  rt_signed_contents k (x : SignedBlockContents k) : ssz_value x -> from_ssz_bytes (as_ssz_bytes x) = Some x;
  size_att_data (x : AttestationData) : ssz_value x -> len (as_ssz_bytes x) = 128;
  layout_att0 (x : Attestation0) :
    exists rest, as_ssz_bytes x = le_bytes 4 228 ++ le_bytes 8 (att_slot (a0_data x)) ++ rest;
  layout_attE (x : AttestationE) :
    exists rest, as_ssz_bytes x = le_bytes 4 236 ++ le_bytes 8 (att_slot (ae_data x)) ++ rest;
  first_att0 b (x : Attestation0) : from_ssz_bytes b = Some x -> take 4 b = le_bytes 4 228;
  first_attE b (x : AttestationE) : from_ssz_bytes b = Some x -> take 4 b = le_bytes 4 236;
  first_agg0 b (x : SignedAggregate0) : from_ssz_bytes b = Some x -> take 4 b = le_bytes 4 100;
}.

Section facts.
Context `{SszLaws}.

(** The version a payload is for. *)
Definition payload_version (p : AttestationPayload) : DataVersion :=
  match p with
  | ApPhase0 _ => VPhase0 | ApAltair _ => VAltair | ApBellatrix _ => VBellatrix | ApCapella _ => VCapella
  | ApDeneb _ => VDeneb | ApElectra _ => VElectra | ApFulu _ => VFulu
  end.

Definition aggregate_version (p : AggregatePayload) : DataVersion :=
  match p with
  | AgPhase0 _ => VPhase0 | AgAltair _ => VAltair | AgBellatrix _ => VBellatrix | AgCapella _ => VCapella
  | AgDeneb _ => VDeneb | AgElectra _ => VElectra | AgFulu _ => VFulu
  end.

(** The versions and flags a signed block is for. *)
Definition block_fits (v : DataVersion) (blinded : bool) (p : SignedProposalBlock) : Prop :=
  match p with
  | SpPhase0 _ => v = VPhase0 | SpAltair _ => v = VAltair
  | SpBellatrix _ => v = VBellatrix /\ blinded = false | SpBellatrixBlinded _ => v = VBellatrix /\ blinded = true
  | SpCapella _ => v = VCapella /\ blinded = false | SpCapellaBlinded _ => v = VCapella /\ blinded = true
  | SpDeneb _ => v = VDeneb /\ blinded = false | SpDenebBlinded _ => v = VDeneb /\ blinded = true
  | SpElectra _ => v = VElectra /\ blinded = false | SpElectraBlinded _ => v = VElectra /\ blinded = true
  | SpFulu _ => v = VFulu /\ blinded = false | SpFuluBlinded _ => v = VFulu /\ blinded = true
  end.

(** The values of the payload types. *)
Definition payload_value (p : AttestationPayload) : Prop :=
  match p with
  | ApPhase0 a | ApAltair a | ApBellatrix a | ApCapella a | ApDeneb a => ssz_value a
  | ApElectra a | ApFulu a => ssz_value a
  end.

Definition aggregate_value (p : AggregatePayload) : Prop :=
  match p with
  | AgPhase0 a | AgAltair a | AgBellatrix a | AgCapella a | AgDeneb a => ssz_value a
  | AgElectra a | AgFulu a => ssz_value a
  end.

Definition block_value (p : SignedProposalBlock) : Prop :=
  match p with
  | SpPhase0 b => ssz_value b | SpAltair b => ssz_value b
  | SpBellatrix b => ssz_value b | SpBellatrixBlinded b => ssz_value b
  | SpCapella b => ssz_value b | SpCapellaBlinded b => ssz_value b
  | SpDeneb b => ssz_value b | SpDenebBlinded b => ssz_value b
  | SpElectra b => ssz_value b | SpElectraBlinded b => ssz_value b
  | SpFulu b => ssz_value b | SpFuluBlinded b => ssz_value b
  end.

Definition unsigned_block_value (p : ProposalBlock) : Prop :=
  match p with
  | PbPhase0 b => ssz_value b | PbAltair b => ssz_value b
  | PbBellatrix b => ssz_value b | PbBellatrixBlinded b => ssz_value b
  | PbCapella b => ssz_value b | PbCapellaBlinded b => ssz_value b
  | PbDeneb b blobs => ssz_value {| bc_block := b; bc_blobs := blobs |} | PbDenebBlinded b => ssz_value b
  | PbElectra b blobs => ssz_value {| bc_block := b; bc_blobs := blobs |} | PbElectraBlinded b => ssz_value b
  | PbFulu b blobs => ssz_value {| bc_block := b; bc_blobs := blobs |} | PbFuluBlinded b => ssz_value b
  end.

Lemma payload_roundtrip p bytes :
  payload_value p -> encode_attestation_payload (Some p) = Ok bytes ->
  decode_attestation_payload (payload_version p) bytes = Ok p.
Proof. destruct p; cbn; intros Hv [= <-]; by rewrite ?rt_att0, ?rt_attE. Qed.

Lemma aggregate_payload_roundtrip p :
  aggregate_value p -> decode_aggregate_payload (aggregate_version p) (encode_aggregate_payload p) = Ok p.
Proof. destruct p; cbn; intros Hv; by rewrite ?rt_agg0, ?rt_aggE. Qed.

Lemma proposal_block_roundtrip v blinded p :
  block_value p -> block_fits v blinded p -> decode_proposal_block v blinded (encode_proposal_block p) = Ok p.
Proof.
  destruct p; cbn; intros Hv; try (intros [-> ->]); try (intros ->); cbn; by rewrite ?rt_signed_block, ?rt_signed_contents.
Qed.

Lemma unsigned_block_roundtrip p :
  unsigned_block_value p ->
  decode_unsigned_proposal_block (pb_version p) (pb_is_blinded p) (encode_unsigned_proposal_block p) = Ok p.
Proof. destruct p; cbn; intros Hv; by rewrite ?rt_block, ?rt_block_contents. Qed.

(** The encoding of an attestation: an offset other than 20, the slot, the
    rest. *)
Lemma payload_layout p bytes :
  encode_attestation_payload (Some p) = Ok bytes ->
  exists off rest, bytes = le_bytes 4 off ++ le_bytes 8 (att_slot (payload_data p)) ++ rest.
Proof.
  destruct p; cbn; intros [= <-];
    first [destruct (layout_att0 a) as [rest ->] | destruct (layout_attE a) as [rest ->]]; eauto.
Qed.

(** No attestation starts with four zeros. *)
Lemma payload_first v bytes p : decode_attestation_payload v bytes = Ok p -> take 4 bytes <> le_bytes 4 0.
Proof.
  destruct v; cbn; try done; unfold of_ssz; destruct (from_ssz_bytes bytes) as [a|] eqn:E; try done; intros _;
    first [rewrite (first_att0 _ _ E) | rewrite (first_attE _ _ E)]; done.
Qed.

Lemma decode_payload_total v bytes : decode_attestation_payload v bytes <> Panic.
Proof. destruct v; cbn; unfold of_ssz; try done; by destruct (from_ssz_bytes bytes). Qed.

(** The first decoder on the encoding with a validator index. *)
Lemma decode_with_index v version idx p inner :
  encode_version v = Ok version -> 0 <= idx <= U64_MAX -> decode_attestation_payload v inner = Ok p ->
  try_decode_versioned_attestation_with_val_idx
    (version ++ encode_u64 idx ++ encode_u32 VERSIONED_ATTESTATION_VAL_IDX_HEADER ++ inner) =
    Ok {| va_version := v; va_validator_index := Some idx; va_attestation := Some p |}.
Proof.
  intros (n & -> & Hn & Hv)%encode_version_spec Hidx Hp.
  unfold try_decode_versioned_attestation_with_val_idx, VERSIONED_ATTESTATION_VAL_IDX_HEADER.
  rewrite require_ok by bytes_len. cbn [mbind res_bind].
  cut_field 0 (@nil Z) (le_bytes 8 n) (encode_u64 idx ++ encode_u32 20 ++ inner). rewrite Hv. cbn [mbind res_bind].
  cut_field 8 (le_bytes 8 n) (encode_u64 idx) (encode_u32 20 ++ inner).
  rewrite decode_u64_bytes by done. cbn [mbind res_bind].
  cut_field 16 (le_bytes 8 n ++ encode_u64 idx) (encode_u32 20) inner.
  unfold encode_u32 at 1. rewrite decode_u32_bytes. cbn [mbind res_bind].
  unfold check_offset. rewrite decide_True by done. cbn [mbind res_bind].
  cut_field 20 (le_bytes 8 n ++ encode_u64 idx ++ encode_u32 20) inner (@nil Z). by rewrite Hp.
Qed.

(** The same decoder on the encoding without one: it takes the low half of the
    slot for its offset, and what follows for the attestation. *)
Lemma decode_without_index v version p inner :
  encode_version v = Ok version -> encode_attestation_payload (Some p) = Ok inner ->
  let slot := att_slot (payload_data p) in
  exists idx rest, try_decode_versioned_attestation_with_val_idx
    (version ++ encode_u32 VERSIONED_SIGNED_AGGREGATE_HEADER ++ inner) =
    (check_offset VERSIONED_ATTESTATION_VAL_IDX_HEADER (slot mod 2 ^ 32) ;;
     att ← decode_attestation_payload v (le_bytes 4 (slot / 2 ^ 32) ++ rest);
     Ok {| va_version := v; va_validator_index := Some idx; va_attestation := Some att |}).
Proof.
  intros (n & -> & Hn & Hv)%encode_version_spec (off & rest & ->)%payload_layout slot. fold slot.
  change (le_bytes 8 slot) with (le_bytes (4 + 4) slot). rewrite (le_bytes_app 4 4 slot).
  change (256 ^ Z.of_nat 4) with (2 ^ 32). rewrite <-(app_assoc (le_bytes 4 slot)).
  exists (le_value (encode_u32 12 ++ le_bytes 4 off)), rest.
  unfold try_decode_versioned_attestation_with_val_idx, VERSIONED_ATTESTATION_VAL_IDX_HEADER,
    VERSIONED_SIGNED_AGGREGATE_HEADER.
  rewrite require_ok by bytes_len. cbn [mbind res_bind].
  cut_field 0 (@nil Z) (le_bytes 8 n)
    (encode_u32 12 ++ le_bytes 4 off ++ le_bytes 4 slot ++ le_bytes 4 (slot / 2 ^ 32) ++ rest).
  rewrite Hv. cbn [mbind res_bind].
  cut_field 8 (le_bytes 8 n) (encode_u32 12 ++ le_bytes 4 off) (le_bytes 4 slot ++ le_bytes 4 (slot / 2 ^ 32) ++ rest).
  unfold decode_u64, decode_fixed_bytes. replace (length (encode_u32 12 ++ le_bytes 4 off) =? 8)%nat with true
    by (unfold encode_u32; by rewrite length_app, !length_le_bytes).
  cbn [mbind res_bind of_binary map_err].
  cut_field 16 (le_bytes 8 n ++ encode_u32 12 ++ le_bytes 4 off) (le_bytes 4 slot) (le_bytes 4 (slot / 2 ^ 32) ++ rest).
  rewrite decode_u32_bytes. cbn [mbind res_bind]. f_equal.
  cut_field 20 (le_bytes 8 n ++ encode_u32 12 ++ le_bytes 4 off ++ le_bytes 4 slot) (le_bytes 4 (slot / 2 ^ 32) ++ rest) (@nil Z).
  done.
Qed.

(** ** Attestations *)

(** Attestations whose parts agree. *)
Definition attestation_wf (a : VersionedAttestation) : Prop :=
  exists p, va_attestation a = Some p /\ va_version a = payload_version p /\ payload_value p /\
    match va_validator_index a with Some i => 0 <= i <= U64_MAX | None => True end.

Lemma attestation_roundtrip a :
  attestation_wf a ->
  (va_validator_index a = None -> forall p, va_attestation a = Some p -> att_slot (payload_data p) mod 2 ^ 32 <> 20) ->
  exists bytes, encode_versioned_attestation a = Ok bytes /\ decode_versioned_attestation bytes = Ok a.
Proof.
  intros (p & Hp & Hv & Hval & Hidx) Hslot. destruct a as [v idx att]. cbn in *. subst att v.
  assert (exists inner, encode_attestation_payload (Some p) = Ok inner) as [inner Hin] by (destruct p; by eexists).
  destruct (encode_version_known (payload_version p)) as [version Hver]; [by destruct p|].
  unfold encode_versioned_attestation. cbn [va_version va_attestation va_validator_index].
  rewrite Hver, Hin. cbn [mbind res_bind]. pose proof (payload_roundtrip p inner Hval Hin) as Hrt.
  destruct idx as [idx|]; eexists; (split; [reflexivity|]); unfold decode_versioned_attestation.
  - by rewrite (decode_with_index _ _ _ _ _ Hver Hidx Hrt).
  - destruct (decode_without_index _ _ _ _ Hver Hin) as (idx & rest & ->).
    unfold check_offset. rewrite decide_False by (by apply Hslot). cbn [mbind res_bind].
    unfold decode_versioned_attestation_no_val_idx. rewrite (version_header _ _ _ Hver). cbn [mbind res_bind].
    by rewrite Hrt.
Qed.

Lemma aggregated_attestation_roundtrip a :
  attestation_wf a -> va_validator_index a = None ->
  exists bytes, encode_versioned_aggregated_attestation a = Ok bytes /\
    decode_versioned_aggregated_attestation bytes = Ok a.
Proof.
  intros (p & Hp & Hv & Hval & _) Hidx. destruct a as [v idx att]. cbn in *. subst att v idx.
  assert (exists inner, encode_attestation_payload (Some p) = Ok inner) as [inner Hin] by (destruct p; by eexists).
  destruct (encode_version_known (payload_version p)) as [version Hver]; [by destruct p|].
  unfold encode_versioned_aggregated_attestation. cbn [va_version va_attestation].
  rewrite Hver, Hin. cbn [mbind res_bind]. eexists. split; [reflexivity|].
  unfold decode_versioned_aggregated_attestation. rewrite (version_header _ _ _ Hver). cbn [mbind res_bind].
  by rewrite (payload_roundtrip p inner Hval Hin).
Qed.

(** ** Aggregates and proposals *)

Lemma aggregate_roundtrip a :
  aggregate_value (vag_payload a) -> vag_version a = aggregate_version (vag_payload a) ->
  exists bytes, encode_versioned_signed_aggregate_and_proof a = Ok bytes /\
    decode_versioned_signed_aggregate_and_proof bytes = Ok a.
Proof.
  intros Hval Hv. destruct a as [v p]. cbn in *. subst v.
  destruct (encode_version_known (aggregate_version p)) as [version Hver]; [by destruct p|].
  unfold encode_versioned_signed_aggregate_and_proof. cbn [vag_version vag_payload].
  rewrite Hver. cbn [mbind res_bind]. eexists. split; [reflexivity|].
  unfold decode_versioned_signed_aggregate_and_proof. rewrite (version_header _ _ _ Hver). cbn [mbind res_bind].
  by rewrite aggregate_payload_roundtrip.
Qed.

Lemma proposal_roundtrip p :
  block_value (vsp_block p) -> block_fits (vsp_version p) (vsp_blinded p) (vsp_block p) ->
  exists bytes, encode_versioned_signed_proposal p = Ok bytes /\ decode_versioned_signed_proposal bytes = Ok p.
Proof.
  intros Hval Hf. destruct p as [v blinded b]. cbn in *.
  destruct (encode_version_known v) as [version Hver]; [by destruct b; cbn in Hf; naive_solver|].
  unfold encode_versioned_signed_proposal. cbn [vsp_version vsp_blinded vsp_block].
  rewrite Hver. cbn [mbind res_bind]. eexists. split; [reflexivity|].
  unfold decode_versioned_signed_proposal. rewrite (blinded_header _ _ _ _ Hver). cbn [mbind res_bind].
  by rewrite proposal_block_roundtrip.
Qed.

(** The values of the block are lost. *)
Lemma unsigned_proposal_roundtrip p :
  unsigned_block_value (vp_block p) ->
  exists bytes, encode_versioned_proposal p = Ok bytes /\
    decode_versioned_proposal bytes =
      Ok {| vp_block := vp_block p; vp_consensus_block_value := 0; vp_execution_payload_value := 0 |}.
Proof.
  intros Hval. destruct p as [b cv ev]. cbn in Hval. destruct (encode_version_known (pb_version b)) as [version Hver]; [by destruct b|].
  unfold encode_versioned_proposal. cbn [vp_block]. rewrite Hver. cbn [mbind res_bind]. eexists. split; [reflexivity|].
  unfold decode_versioned_proposal. rewrite (blinded_header _ _ _ _ Hver). cbn [mbind res_bind].
  by rewrite unsigned_block_roundtrip.
Qed.

(** What starts with a version is neither an unversioned attestation nor an
    unversioned aggregate. *)
Lemma versioned_first v version rest :
  encode_version v = Ok version ->
  from_ssz_bytes (T := Attestation0) (version ++ rest) = None /\
  from_ssz_bytes (T := SignedAggregate0) (version ++ rest) = None.
Proof.
  intros (n & -> & Hn & _)%encode_version_spec.
  assert (take 4 (le_bytes 8 n ++ rest) = le_bytes 4 n) as Ht.
  { rewrite (le_bytes_app 4 4), <-app_assoc. by rewrite take_app_length' by (by rewrite length_le_bytes). }
  assert (forall m, 6 < m < 2 ^ 32 -> le_bytes 4 n <> le_bytes 4 m) as Hne.
  { intros m Hm E. apply (f_equal le_value) in E. rewrite !le_value_bytes in E by (cbn; lia). lia. }
  split; destruct (from_ssz_bytes _) as [x|] eqn:E; try done; exfalso.
  - apply first_att0 in E. rewrite Ht in E. by eapply Hne; [|exact E].
  - apply first_agg0 in E. rewrite Ht in E. by eapply Hne; [|exact E].
Qed.

(** ** Theorems *)

(** An attestation without a validator index whose slot is 20, or 20 modulo
    2^32, cannot be read back: the decoder takes its slot for the offset of the
    longer header, and does not fall back. *)
Theorem slot_20_attestation_unreadable a p bytes :
  va_validator_index a = None -> va_attestation a = Some p -> att_slot (payload_data p) = 20 ->
  encode_versioned_attestation a = Ok bytes -> decode_versioned_attestation bytes = Err Decode.
Proof.
  intros Hidx Hp Hslot. unfold encode_versioned_attestation. rewrite Hidx, Hp.
  intros (version & Hver & (inner & Hin & Hb)%res_bind_Ok)%res_bind_Ok.
  assert (bytes = version ++ encode_u32 VERSIONED_SIGNED_AGGREGATE_HEADER ++ inner) as -> by congruence.
  unfold decode_versioned_attestation. destruct (decode_without_index _ _ _ _ Hver Hin) as (idx & rest & ->).
  rewrite Hslot. unfold check_offset. rewrite decide_True by done. cbn [mbind res_bind].
  destruct (decode_attestation_payload (va_version a) _) as [att|e|] eqn:E.
  - apply payload_first in E. by rewrite take_app_length' in E by (by rewrite length_le_bytes).
  - cbn. destruct (va_version a); cbn in E; unfold of_ssz in E; try (destruct (from_ssz_bytes _)); try discriminate E;
      by injection E as <-.
  - by apply decode_payload_total in E.
Qed.
End facts.
