(* ===== verification/Eth2Signed.v ===== *)
(** * Signed duty data

    [crates/core/src/signeddata.rs] and [eth2signeddata.rs]: the types behind
    the trait [SignedData], their signatures and message roots, the signing
    domain and epoch of each, and the verification of their signatures.  The
    section ends with [new_verifier] of [sigagg.rs], which aggregation uses. *)

From S2P Require Import Prelude Types SszBits BeaconTypes DutyDefs ChainSpec.

Open Scope Z_scope.

Inductive SignedDataError :=
| UnsupportedSignatureMessageRoot
| MissingV1Registration
| UnknownVersion
| MissingAttestation (v : DataVersion)
| MissingProposal (v : DataVersion)
| MissingBlindedProposal (v : DataVersion)
| ProposalNotBlinded.

Section signed.
Context `{BeaconSpec}.

(** What a [Box<dyn SignedData>] can hold. *)
Inductive SignedDatum :=
| SdSignature (s : BLSSignature)
| SdProposal (p : VersionedSignedProposal)
| SdAttestation (a : Attestation0)
| SdVersionedAttestation (a : VersionedAttestation)
| SdExit (e : SignedMsg VoluntaryExit)
| SdRegistration (r : VersionedSignedValidatorRegistration)
| SdRandao (e : SignedEpoch)
| SdBeaconSelection (s : BeaconCommitteeSelection)
| SdSyncSelection (s : SyncCommitteeSelection)
| SdAggregate (a : SignedAggregate0)
| SdVersionedAggregate (a : VersionedSignedAggregateAndProof)
| SdSyncMessage (m : SyncCommitteeMessage)
| SdContributionProof (c : ContributionAndProof)
| SdSignedContribution (c : SignedMsg ContributionAndProof).

#[global] Instance SignedDatum_eq_dec : EqDecision SignedDatum.
Proof. solve_decision. Defined.

(** ** Proposals *)

Definition proposal_payload_error (version : DataVersion) (blinded : bool) : SignedDataError :=
  match version with
  | VUnknown => UnknownVersion
  | VPhase0 | VAltair => MissingProposal version
  | _ => if blinded then MissingBlindedProposal version else MissingProposal version
  end.

Definition new_proposal (p : VersionedSignedProposal) : res SignedDataError VersionedSignedProposal :=
  if decide (vsp_version p = VUnknown) then Err UnknownVersion else Ok p.

Definition from_blinded_proposal (p : VersionedSignedBlindedProposal)
    : res SignedDataError VersionedSignedProposal :=
  new_proposal {| vsp_version := vsb_version p; vsp_blinded := true; vsp_block := into_signed (vsb_block p) |}.

Definition to_blinded (p : VersionedSignedProposal) : res SignedDataError VersionedSignedBlindedProposal :=
  if negb (vsp_blinded p) then Err ProposalNotBlinded
  else
    blinded_block ← ok_or (into_blinded (vsp_block p)) (proposal_payload_error (vsp_version p) true);
    Ok {| vsb_version := vsp_version p; vsb_block := blinded_block |}.

(** ** Attestations and registrations *)

Definition new_attestation (a : VersionedAttestation) : res SignedDataError VersionedAttestation :=
  if decide (va_version a = VUnknown) then Err UnknownVersion
  else ok_or (va_attestation a) (MissingAttestation (va_version a)) ;; Ok a.

Definition attestation_payload (a : VersionedAttestation) : res SignedDataError AttestationPayload :=
  if decide (va_version a = VUnknown) then Err UnknownVersion
  else ok_or (va_attestation a) (MissingAttestation (va_version a)).

Definition new_registration (r : VersionedSignedValidatorRegistration)
    : res SignedDataError VersionedSignedValidatorRegistration :=
  match vreg_version r with
  | BvV1 => ok_or (vreg_v1 r) MissingV1Registration ;; Ok r
  | BvUnknown => Err UnknownVersion
  end.

Definition registration_payload (r : VersionedSignedValidatorRegistration)
    : res SignedDataError (SignedMsg ValidatorRegistration) :=
  match vreg_version r with
  | BvV1 => ok_or (vreg_v1 r) MissingV1Registration
  | BvUnknown => Err UnknownVersion
  end.

(** ** The trait *)

Definition sd_signature (d : SignedDatum) : res SignedDataError BLSSignature :=
  match d with
  | SdSignature s => Ok s
  | SdProposal p =>
      if decide (vsp_version p = VUnknown) then Err UnknownVersion else Ok (proposal_signature (vsp_block p))
  | SdAttestation a => Ok (a0_signature a)
  | SdVersionedAttestation a => p ← attestation_payload a; Ok (payload_signature p)
  | SdExit e => Ok (sm_signature e)
  | SdRegistration r => v1 ← registration_payload r; Ok (sm_signature v1)
  | SdRandao e => Ok (se_signature e)
  | SdBeaconSelection s => Ok (bcs_selection_proof s)
  | SdSyncSelection s => Ok (scs_selection_proof s)
  | SdAggregate a => Ok (sm_signature a)
  | SdVersionedAggregate a =>
      if decide (vag_version a = VUnknown) then Err UnknownVersion
      else Ok (aggregate_signature (vag_payload a))
  | SdSyncMessage m => Ok (sc_msg_signature m)
  | SdContributionProof c => Ok (cap_selection_proof c)
  | SdSignedContribution c => Ok (sm_signature c)
  end.

Definition sd_set_signature (d : SignedDatum) (s : BLSSignature) : res SignedDataError SignedDatum :=
  match d with
  | SdSignature _ => Ok (SdSignature s)
  | SdProposal p =>
      if decide (vsp_version p = VUnknown) then Err UnknownVersion
      else Ok (SdProposal {| vsp_version := vsp_version p; vsp_blinded := vsp_blinded p;
                             vsp_block := proposal_set_signature s (vsp_block p) |})
  | SdAttestation a => Ok (SdAttestation (a0_with_signature s a))
  | SdVersionedAttestation a =>
      p ← attestation_payload a;
      Ok (SdVersionedAttestation {| va_version := va_version a; va_validator_index := va_validator_index a;
                                    va_attestation := Some (payload_set_signature s p) |})
  | SdExit e => Ok (SdExit (with_signature s e))
  | SdRegistration r =>
      v1 ← registration_payload r;
      Ok (SdRegistration {| vreg_version := vreg_version r; vreg_v1 := Some (with_signature s v1) |})
  | SdRandao e => Ok (SdRandao {| se_epoch := se_epoch e; se_signature := s |})
  | SdBeaconSelection x =>
      Ok (SdBeaconSelection {| bcs_slot := bcs_slot x; bcs_validator_index := bcs_validator_index x;
                               bcs_selection_proof := s |})
  | SdSyncSelection x =>
      Ok (SdSyncSelection {| scs_slot := scs_slot x; scs_validator_index := scs_validator_index x;
                             scs_subcommittee_index := scs_subcommittee_index x; scs_selection_proof := s |})
  | SdAggregate a => Ok (SdAggregate (with_signature s a))
  | SdVersionedAggregate a =>
      if decide (vag_version a = VUnknown) then Err UnknownVersion
      else Ok (SdVersionedAggregate {| vag_version := vag_version a;
                                       vag_payload := aggregate_set_signature s (vag_payload a) |})
  | SdSyncMessage m =>
      Ok (SdSyncMessage {| sc_msg_slot := sc_msg_slot m; sc_msg_beacon_block_root := sc_msg_beacon_block_root m;
                           sc_msg_validator_index := sc_msg_validator_index m; sc_msg_signature := s |})
  | SdContributionProof c =>
      Ok (SdContributionProof {| cap_aggregator_index := cap_aggregator_index c;
                                 cap_contribution := cap_contribution c; cap_selection_proof := s |})
  | SdSignedContribution c => Ok (SdSignedContribution (with_signature s c))
  end.

(** [ContributionAndProof::selection_proof_message_root]. *)
Definition selection_proof_message_root (c : ContributionAndProof) : Root :=
  selection_data_root {| sel_slot := scc_slot (cap_contribution c);
                         sel_subcommittee_index := scc_subcommittee_index (cap_contribution c) |}.

Definition sd_message_root (d : SignedDatum) : res SignedDataError Root :=
  match d with
  | SdSignature _ => Err UnsupportedSignatureMessageRoot
  | SdProposal p =>
      if decide (vsp_version p = VUnknown) then Err UnknownVersion else Ok (proposal_root (vsp_block p))
  | SdAttestation a => Ok (att_data_root (a0_data a))
  | SdVersionedAttestation a => p ← attestation_payload a; Ok (att_data_root (payload_data p))
  | SdExit e => Ok (exit_root (sm_message e))
  | SdRegistration r =>
      match vreg_version r with
      | BvV1 => ok_or (vreg_message_root r) MissingV1Registration
      | BvUnknown => Err UnknownVersion
      end
  | SdRandao e => Ok (epoch_root (se_epoch e))
  | SdBeaconSelection s => Ok (slot_root (bcs_slot s))
  | SdSyncSelection s =>
      Ok (selection_data_root {| sel_slot := scs_slot s; sel_subcommittee_index := scs_subcommittee_index s |})
  | SdAggregate a => Ok (aggregate_root0 (sm_message a))
  | SdVersionedAggregate a =>
      if decide (vag_version a = VUnknown) then Err UnknownVersion
      else ok_or (vag_message_root a) UnknownVersion
  | SdSyncMessage m => Ok (sc_msg_beacon_block_root m)
  | SdContributionProof c => Ok (selection_proof_message_root c)
  | SdSignedContribution c => Ok (contribution_root (sm_message c))
  end.

#[global] Instance eth2_signed_data : SignedData SignedDatum Root BLSSignature SignedDataError :=
  {| signature := sd_signature; set_signature := sd_set_signature; message_root := sd_message_root |}.

(** ** Eth2 signed data *)

(** [as_eth2_signed_data] and [domain_name]: [None] for data without a
    domain. *)
Definition domain_name (d : SignedDatum) : option DomainName :=
  match d with
  | SdSignature _ | SdContributionProof _ => None
  | SdProposal _ => Some BeaconProposer
  | SdAttestation _ | SdVersionedAttestation _ => Some BeaconAttester
  | SdExit _ => Some DomVoluntaryExit
  | SdRegistration _ => Some ApplicationBuilder
  | SdRandao _ => Some DomRandao
  | SdBeaconSelection _ => Some SelectionProof
  | SdSyncSelection _ => Some SyncCommitteeSelectionProof
  | SdAggregate _ | SdVersionedAggregate _ => Some DomAggregateAndProof
  | SdSyncMessage _ => Some SyncCommittee
  | SdSignedContribution _ => Some DomContributionAndProof
  end.

Inductive Eth2SignedDataError :=
| EsdSignedData (e : SignedDataError)
| EsdSigning (e : SigningError)
| EsdHelper (e : HelperError).

Context (hex_decode : string -> option (list Z)) (fork_data_root signing_data_root : list Z -> list Z -> list Z)
  (bls_verify : list Z -> list Z -> list Z -> bool) (client : Client).

Definition sd_epoch_from_slot (slot : Z) : res Eth2SignedDataError Z := map_err EsdHelper (epoch_from_slot client slot).

Definition sd_epoch (d : SignedDatum) : res Eth2SignedDataError Z :=
  match d with
  | SdSignature _ | SdContributionProof _ => Ok 0
  | SdProposal p =>
      if decide (vsp_version p = VUnknown) then Err (EsdSignedData UnknownVersion)
      else sd_epoch_from_slot (proposal_slot (vsp_block p))
  | SdAttestation a => Ok (cp_epoch (att_target (a0_data a)))
  | SdVersionedAttestation a =>
      p ← map_err EsdSignedData (attestation_payload a);
      Ok (cp_epoch (att_target (payload_data p)))
  | SdExit e => Ok (ve_epoch (sm_message e))
  | SdRegistration _ => Ok 0
  | SdRandao e => Ok (se_epoch e)
  | SdBeaconSelection s => sd_epoch_from_slot (bcs_slot s)
  | SdSyncSelection s => sd_epoch_from_slot (scs_slot s)
  | SdAggregate a => sd_epoch_from_slot (att_slot (a0_data (ap_aggregate (sm_message a))))
  | SdVersionedAggregate a =>
      slot ← ok_or (vag_slot a) (EsdSignedData UnknownVersion);
      sd_epoch_from_slot slot
  | SdSyncMessage m => sd_epoch_from_slot (sc_msg_slot m)
  | SdSignedContribution c => sd_epoch_from_slot (scc_slot (cap_contribution (sm_message c)))
  end.

Definition verify_eth2_signed_data (d : SignedDatum) (name : DomainName) (pubkey : list Z)
    : res Eth2SignedDataError unit :=
  sig_root ← map_err EsdSignedData (sd_message_root d);
  sig ← map_err EsdSignedData (sd_signature d);
  epoch ← sd_epoch d;
  map_err EsdSigning (verify hex_decode fork_data_root signing_data_root bls_verify client name epoch sig_root sig pubkey).
End signed.
