(* ===== verification/Eth2SignedFacts.v ===== *)
(** * Signed duty data: theorems

    Setting a signature changes nothing else; a signature of one duty is none of
    another; and what the partial-signature database hands out, if the partial
    signatures are valid, becomes a signature that the beacon chain accepts. *)

From S2P Require Import Prelude Types SszBits BeaconTypes DutyDefs ChainSpec ParSigDb SigAgg Eth2Signed.

Open Scope Z_scope.

Section facts.
Context `{BeaconSpec}.
Context (hex_decode : string -> option (list Z)) (fork_data_root signing_data_root : list Z -> list Z -> list Z)
  (bls_verify : list Z -> list Z -> list Z -> bool) (client : Client).

(** ** Signatures *)

Lemma proposal_signed s p :
  proposal_signature (proposal_set_signature s p) = s /\
  proposal_root (proposal_set_signature s p) = proposal_root p /\
  proposal_slot (proposal_set_signature s p) = proposal_slot p.
Proof. by destruct p. Qed.

Lemma payload_signed s p :
  payload_signature (payload_set_signature s p) = s /\ payload_data (payload_set_signature s p) = payload_data p.
Proof. by destruct p. Qed.

Lemma aggregate_signed s p :
  aggregate_signature (aggregate_set_signature s p) = s /\
  aggregate_message_root (aggregate_set_signature s p) = aggregate_message_root p /\
  aggregate_data (aggregate_set_signature s p) = aggregate_data p.
Proof. by destruct p. Qed.

Lemma attestation_payload_with a p p' :
  attestation_payload a = Ok p ->
  attestation_payload {| va_version := va_version a; va_validator_index := va_validator_index a;
    va_attestation := Some p' |} = Ok p'.
Proof. unfold attestation_payload. cbn. by case_decide. Qed.

(** What [set_signature] leaves as it is. *)
Record same_message (d d' : SignedDatum) : Prop := {
  sm_root : sd_message_root d' = sd_message_root d;
  sm_domain : domain_name d' = domain_name d;
  sm_epoch : sd_epoch client d' = sd_epoch client d;
}.

Lemma set_signature_spec d s d' :
  sd_set_signature d s = Ok d' -> sd_signature d' = Ok s /\ same_message d d'.
Proof.
  destruct d; cbn; try (intros [= <-]; split; [done|by constructor]).
  - case_decide; [done|]. intros [= <-]. cbn. destruct (proposal_signed s (vsp_block p)) as (E1 & E2 & E3).
    rewrite decide_False, E1 by done. split; [done|]. constructor; cbn; [by rewrite E2|done|by rewrite E3].
  - intros (p & Hp & [= <-])%res_bind_Ok. destruct (payload_signed s p) as (E1 & E2).
    pose proof (attestation_payload_with a p (payload_set_signature s p) Hp) as Hp'.
    cbn. rewrite Hp'. cbn. rewrite E1. split; [done|].
    constructor; cbn; rewrite ?Hp, ?Hp'; cbn; by rewrite ?E2.
  - intros (v & Hv & [= <-])%res_bind_Ok. unfold registration_payload in *. cbn. split.
    { by destruct (vreg_version r). }
    constructor; [|done|done]. cbn. unfold vreg_message_root. cbn.
    destruct (vreg_version r); [done|]. by destruct (vreg_v1 r); inversion Hv.
  - case_decide; [done|]. intros [= <-]. cbn. destruct (aggregate_signed s (vag_payload a)) as (E1 & E2 & E3).
    rewrite decide_False, E1 by done. split; [done|].
    constructor; cbn; unfold vag_message_root, vag_slot; cbn; by rewrite ?E2, ?E3.
Qed.

Lemma set_signature_total d s s' : sd_signature d = Ok s' -> exists d', sd_set_signature d s = Ok d'.
Proof.
  destruct d; cbn; eauto; try (case_decide; [done|]; eauto; fail).
  - intros (p & -> & _)%res_bind_Ok. cbn. eauto.
  - intros (v & -> & _)%res_bind_Ok. cbn. eauto.
Qed.

(** ** Verification *)

(** The root that a signature of [d] signs. *)
Definition signs (d : SignedDatum) (r : list Z) : Prop :=
  exists name epoch root, domain_name d = Some name /\ sd_epoch client d = Ok epoch /\
    sd_message_root d = Ok root /\
    get_data_root hex_decode fork_data_root signing_data_root client name epoch root = Ok r.

Lemma signs_same d d' r : same_message d d' -> signs d r -> signs d' r.
Proof.
  intros [E1 E2 E3] (name & epoch & root & Hn & He & Hr & Hg). exists name, epoch, root.
  by rewrite E1, E2, E3.
Qed.

(** [new_verifier] of the aggregator; the conversion of the public key cannot
    fail. *)
Definition new_verifier {CryptoError} (pubkey : list Z) (d : SignedDatum)
    : res (SigAggError (PubKey := list Z) (SDError := SignedDataError) (CryptoError := CryptoError)
             (Eth2Error := Eth2SignedDataError)) unit :=
  name ← ok_or (domain_name d) InvalidEth2SignedData;
  Prelude.map_err VerificationFailed
    (verify_eth2_signed_data hex_decode fork_data_root signing_data_root bls_verify client d name pubkey).

Lemma verify_eth2_Ok d name pubkey :
  verify_eth2_signed_data hex_decode fork_data_root signing_data_root bls_verify client d name pubkey = Ok tt <->
  exists epoch root s r, sd_message_root d = Ok root /\ sd_signature d = Ok s /\ sd_epoch client d = Ok epoch /\
    s <> replicate 96 0 /\ get_data_root hex_decode fork_data_root signing_data_root client name epoch root = Ok r /\
    bls_verify pubkey r s = true.
Proof.
  unfold verify_eth2_signed_data, verify. split.
  - destruct (sd_message_root d) as [root|e|]; [|done..]. destruct (sd_signature d) as [s|e|]; [|done..]. cbn.
    destruct (sd_epoch client d) as [epoch|e|]; [|done..]. cbn. case_decide as Hz; [done|].
    destruct (get_data_root _ _ _ _ _ _ _) as [r|e|] eqn:Er; [|done..]. cbn.
    destruct (bls_verify pubkey r s) eqn:Eb; [|done]. intros _. by exists epoch, root, s, r.
  - intros (epoch & root & s & r & -> & -> & -> & Hz & Hg & Hb). cbn. rewrite decide_False by done.
    rewrite Hg. cbn. by rewrite Hb.
Qed.

Lemma new_verifier_Ok {CryptoError} pubkey d r s :
  signs d r -> sd_signature d = Ok s -> s <> replicate 96 0 -> bls_verify pubkey r s = true ->
  new_verifier (CryptoError := CryptoError) pubkey d = Ok tt.
Proof.
  intros (name & epoch & root & Hn & He & Hr & Hg) Hs Hz Hb. unfold new_verifier. rewrite Hn. cbn.
  assert (verify_eth2_signed_data hex_decode fork_data_root signing_data_root bls_verify client d name pubkey = Ok tt)
    as ->; [|done]. apply verify_eth2_Ok. by exists epoch, root, s, r.
Qed.

(** ** Aggregation *)

Context {CryptoError : Type} (threshold_aggregate : gmap Z BLSSignature -> res CryptoError BLSSignature).

(** The downcast of the aggregator. *)
Definition attestation_index (d : SignedDatum) : option (option Z) :=
  match d with SdVersionedAttestation a => Some (va_validator_index a) | _ => None end.

Abbreviation PSD := (ParSignedData SignedDatum).
Abbreviation Aggregator := (Aggregator (PubKey := list Z) (D := SignedDatum) (SDError := SignedDataError)
  (CryptoError := CryptoError) (Eth2Error := Eth2SignedDataError)).

Lemma find_full_elem (ps : list PSD) d :
  find_full attestation_index ps = Some d -> exists v, v ∈ ps /\ signed_data v = d.
Proof.
  induction ps as [|v ps IH]; cbn; [done|]. destruct (attestation_index (signed_data v)) as [[i|]|]; [| |done].
  - intros [= <-]. exists v. split; [by left|done].
  - intros (w & Hw & Hd)%IH. exists w. split; [by right|done].
Qed.

(** Share [i] of the validator's key signed the root [r]. *)
Context (partial_valid : list Z -> Z -> BLSSignature -> Prop).

(** The partial signatures of a threshold of nodes on one root. *)
Definition valid_partials (r : list Z) (ps : list PSD) : Prop :=
  Forall (fun v => signs (signed_data v) r /\
    exists s, sd_signature (signed_data v) = Ok s /\ partial_valid r (share_idx v) s) ps.

(** What threshold BLS promises: a threshold of valid partial signatures
    combines to a signature of the validator's key. *)
Definition combines (th : Z) (pubkey r : list Z) : Prop :=
  forall m, th <= Z.of_nat (size m) -> (forall i s, m !! i = Some s -> partial_valid r i s) ->
    exists s, threshold_aggregate m = Ok s /\ s <> replicate 96 0 /\ bls_verify pubkey r s = true.

(** A signed value that the beacon chain accepts for the validator. *)
Definition accepted (pubkey r : list Z) (d : SignedDatum) : Prop :=
  signs d r /\ exists s, sd_signature d = Ok s /\ bls_verify pubkey r s = true.

(** Aggregated data is one of the partially signed values with another
    signature. *)
Definition made_of (ps : list PSD) (d : SignedDatum) : Prop :=
  exists v s, v ∈ ps /\ sd_set_signature (signed_data v) s = Ok d.

Lemma aggregate_one_accepted (a : Aggregator) pk (ps : list PSD) typ r :
  0 < threshold a -> verify_fn a = new_verifier -> threshold_set (threshold a) typ ps ->
  valid_partials r ps -> combines (threshold a) pk r ->
  exists d, aggregate_one threshold_aggregate attestation_index a pk ps = Ok d /\ accepted pk r d /\ made_of ps d.
Proof.
  intros Hth Hv Hts Hps Hc.
  destruct (threshold_set_sigs threshold_aggregate attestation_index a pk ps typ Hts) as (m & -> & Hsz & _ & Hm).
  { eapply Forall_impl; [exact Hps|]. intros v (_ & s & Hs & _). by exists s. }
  unfold valid_partials in Hps. rewrite list.Forall_forall in Hps.
  destruct (Hc m) as (s & Hagg & Hz & Hb); [lia| |].
  { intros i s (v & Hin & <- & Hs)%Hm. destruct (Hps v Hin) as (_ & s' & Hs' & Hp). cbn in Hs.
    rewrite Hs' in Hs. by injection Hs as <-. }
  unfold finish. rewrite Hagg. cbn [SigAgg.map_err mbind res_bind].
  assert (exists v, v ∈ ps /\ match find_full attestation_index ps with
    | Some d => Ok d | None => ps0 ← expect (head ps); Ok (signed_data ps0) end =
    (Ok (signed_data v) : res (SigAggError (PubKey := list Z) (SDError := SignedDataError) (CryptoError := CryptoError)
             (Eth2Error := Eth2SignedDataError)) _)) as (v & Hin & ->).
  { destruct (find_full attestation_index ps) as [d|] eqn:Ef.
    - apply find_full_elem in Ef as (v & Hin & <-). by exists v.
    - destruct ps as [|v ps]; [destruct Hts as [Hl _ _]; unfold len in Hl; cbn in Hl; lia|]. exists v. split; [by left|done]. }
  cbn [mbind res_bind]. destruct (Hps v Hin) as (Hsg & s' & Hs' & _).
  destruct (set_signature_total _ s _ Hs') as (d & Hd). cbn. rewrite Hd. cbn.
  destruct (set_signature_spec _ _ _ Hd) as (Hsig & Hsame).
  pose proof (signs_same _ _ _ Hsame Hsg) as Hsd.
  rewrite Hv, (new_verifier_Ok pk d r s Hsd Hsig Hz Hb). cbn. exists d. split; [done|]. split; [split; [done|by exists s]|by exists v, s].
Qed.

Lemma aggregate_all_accepted (a : Aggregator) typ (root_of : list Z -> list Z) (l : list (list Z * list PSD)) out :
  0 < threshold a -> verify_fn a = new_verifier ->
  (forall pk ps, (pk, ps) ∈ l -> threshold_set (threshold a) typ ps /\ valid_partials (root_of pk) ps /\
     combines (threshold a) pk (root_of pk)) ->
  exists out', aggregate_all threshold_aggregate attestation_index a l out = Ok out' /\
    (forall pk d, out' !! pk = Some d ->
       out !! pk = Some d \/ (accepted pk (root_of pk) d /\ exists ps, (pk, ps) ∈ l /\ made_of ps d)).
Proof.
  intros Hth Hv. revert out. induction l as [|[pk ps] l IH]; intros out Hl; cbn [aggregate_all]; [exists out; auto|].
  destruct (Hl pk ps) as (Hts & Hps & Hc); [by left|].
  destruct (aggregate_one_accepted a pk ps typ _ Hth Hv Hts Hps Hc) as (d & -> & Hd & Hm). cbn [mbind res_bind].
  destruct (IH (<[pk := d]> out)) as (out' & Ho & Hacc); [intros pk' ps' Hin; apply Hl; by right|].
  exists out'. split; [done|]. intros pk' d' [Hins|(Ha & ps' & Hin & Hmade)]%Hacc.
  - apply lookup_insert_Some in Hins as [[<- <-]|[_ Hold]]; [|by left]. right. split; [done|]. exists ps. split; [by left|done].
  - right. split; [done|]. exists ps'. split; [by right|done].
Qed.

Lemma aggregate_accepted (db : @MemDB (list Z) SignedDatum SignedDataError _ _) (a : Aggregator) (ho : HashOrder) (d : Duty)
    (out : gmap (list Z) (list PSD)) (root_of : list Z -> list Z) (log : list (Duty * gmap (list Z) SignedDatum)) :
  reachable (threshold a) db -> 0 < threshold a -> verify_fn a = new_verifier -> (d, out) ∈ thresh_calls db ->
  (forall pk ps, out !! pk = Some ps -> valid_partials (root_of pk) ps /\ combines (threshold a) pk (root_of pk)) ->
  exists output : gmap (list Z) SignedDatum,
    aggregate threshold_aggregate attestation_index ho a d out log =
      p_for (subs a) (fun sub => p_modify (fun log => log ++ [(d, output)]) ;; p_lift (sub d output)) log /\
    dom output = dom out /\ forall pk v, output !! pk = Some v ->
      accepted pk (root_of pk) v /\ exists ps, out !! pk = Some ps /\ made_of ps v.
Proof.
  intros Hr Hth Hv Hin Hps. apply reachable_ok in Hr. apply (ok_calls _ _ Hr) in Hin as [Hne Hout].
  destruct (aggregate_all_accepted a (duty_type d) root_of (ho_list ho out) ∅ Hth Hv) as (output & Hagg & Hacc).
  - intros pk ps Hin%elem_of_ho_list. split; [by apply (Hout pk ps)|by apply Hps].
  - exists output. split_and!.
    + unfold aggregate. rewrite bool_decide_false by done. by rewrite Hagg.
    + apply aggregate_all_ok in Hagg as [_ Hdom]; [|intros pk v Hpk; by rewrite lookup_empty in Hpk].
      rewrite Hdom, dom_empty_L, (left_id_L ∅ (∪)). apply ho_list_dom.
    + intros pk v [Hpk|(Ha & ps & Hin%elem_of_ho_list & Hm)]%Hacc; [by rewrite lookup_empty in Hpk|]. eauto.
Qed.

(** ** Theorems *)

(** A signature can be set on exactly the data that has one; it is then the
    signature of the data, and the message root, the domain and the epoch stay
    as they were. *)
Theorem set_signature_changes_nothing_else d s :
  match sd_set_signature d s with
  | Ok d' => is_Ok (sd_signature d) = true /\ sd_signature d' = Ok s /\ same_message d d'
  | Err e => sd_signature d = Err e
  | Panic => False
  end.
Proof.
  destruct (sd_set_signature d s) as [d'|e|] eqn:E.
  - split; [|by apply set_signature_spec in E].
    destruct d; cbn in *; try done; try (case_decide; [done|done]).
    + apply res_bind_Ok in E as (p & -> & _). done.
    + apply res_bind_Ok in E as (p & -> & _). done.
  - destruct d; cbn in *; try done; try (case_decide; [by injection E as <-|done]).
    + by destruct (attestation_payload a); inversion E.
    + by destruct (registration_payload r); inversion E.
  - destruct d; cbn in *; try done; try (by case_decide).
    + destruct (attestation_payload a) eqn:Ep; inversion E. unfold attestation_payload in Ep.
      case_decide; [done|]. by destruct (va_attestation a).
    + destruct (registration_payload r) eqn:Ep; inversion E. unfold registration_payload in Ep.
      destruct (vreg_version r); [done|]. by destruct (vreg_v1 r).
Qed.


(** Valid partial signatures become valid signatures.  For every set the
    partial-signature database hands to its subscribers, if its partial
    signatures are valid, the aggregator with the same threshold calls its own
    subscribers with signed values that the beacon chain accepts, one for every
    validator of the set. *)
Theorem valid_partials_aggregate (db : @MemDB (list Z) SignedDatum SignedDataError _ _) (a : Aggregator) (ho : HashOrder) (d : Duty)
    (out : gmap (list Z) (list PSD)) (root_of : list Z -> list Z) (log : list (Duty * gmap (list Z) SignedDatum)) :
  reachable (threshold a) db -> 0 < threshold a -> verify_fn a = new_verifier -> (d, out) ∈ thresh_calls db ->
  (forall pk ps, out !! pk = Some ps -> valid_partials (root_of pk) ps /\ combines (threshold a) pk (root_of pk)) ->
  exists output : gmap (list Z) SignedDatum,
    aggregate threshold_aggregate attestation_index ho a d out log =
      p_for (subs a) (fun sub => p_modify (fun log => log ++ [(d, output)]) ;; p_lift (sub d output)) log /\
    dom output = dom out /\ forall pk v, output !! pk = Some v -> accepted pk (root_of pk) v.
Proof.
  intros Hr Hth Hv Hin Hps. destruct (aggregate_accepted db a ho d out root_of log Hr Hth Hv Hin Hps) as (output & Hagg & Hdom & Hacc).
  exists output. split_and!; [done|done|]. intros pk v Hpk. by destruct (Hacc pk v Hpk).
Qed.
End facts.

(** ** A voluntary exit signed by two nodes *)

Module Eth2Sample.
Import ChainSample.

Definition spec_sample : BeaconSpec := {|
  Block := fun _ => (Z * Z)%type; Blobs := unit;
  block_slot := fun _ b => b.1; block_graffiti := fun _ b => [b.2]; block_root := fun _ b => [b.1; b.2];
  att_data_root := att_beacon_block_root;
  BeaconTypes.exit_root := fun e => [ve_epoch e; ve_validator_index e];
  registration_root := vr_pubkey; epoch_root := fun e => [e]; slot_root := fun s => [s];
  selection_data_root := fun d => [sel_slot d; sel_subcommittee_index d];
  aggregate_root0 := fun a => att_beacon_block_root (a0_data (ap_aggregate a));
  aggregate_rootE := fun a => att_beacon_block_root (ae_data (ap_aggregate a));
  contribution_root := fun c => scc_beacon_block_root (cap_contribution c) |}.
#[local] Existing Instance spec_sample.

(** Signatures that show who signed what: 99 is the validator's key. *)
Definition bls_sample (pubkey r s : list Z) : bool := bool_decide (s = 99 :: r).
Definition partial_sample (r : list Z) (i : Z) (s : list Z) : Prop := s = i :: r.
Definition combine_sample (m : gmap Z (list Z)) : res unit (list Z) :=
  match map_to_list m with (_, s) :: _ => Ok (99 :: tail s) | [] => Err tt end.

Definition exit_msg : VoluntaryExit := {| ve_epoch := 60; ve_validator_index := 5 |}.
Definition exit_signing_root : list Z :=
  match get_data_root hex_parse pair_up pair_up client DomVoluntaryExit 60 [60; 5] with Ok r => r | _ => [] end.

Definition exit_of (s : list Z) : SignedDatum := SdExit {| sm_message := exit_msg; sm_signature := s |}.
Definition exit_share (i : Z) : ParSignedData SignedDatum :=
  {| signed_data := exit_of (i :: exit_signing_root); share_idx := i |}.

Definition exit_duty : Duty := {| slot := 1920; duty_type := Exit |}.
Definition key : list Z := [7].

Abbreviation SDB := (@MemDB (list Z) SignedDatum SignedDataError _ _).
Abbreviation SErr := (SigAggError (PubKey := list Z) (SDError := SignedDataError) (CryptoError := unit)
  (Eth2Error := Eth2SignedDataError)).

Definition db_exit : SDB :=
  foldl (fun s (set : gmap (list Z) (ParSignedData SignedDatum)) => fst (store_external default_order 2 exit_duty set s))
    (fst (subscribe_threshold (fun _ _ => Ok tt) memdb_new)) [{[key := exit_share 1]}; {[key := exit_share 2]}].

Lemma db_exit_reachable : reachable 2 db_exit.
Proof. do 2 apply reach_external. apply reach_thresh_sub, reach_new. Defined.

Definition exit_set : gmap (list Z) (list (ParSignedData SignedDatum)) := {[key := [exit_share 1; exit_share 2]]}.

Definition agg_exit : Aggregator (PubKey := list Z) (D := SignedDatum) (SDError := SignedDataError)
    (CryptoError := unit) (Eth2Error := Eth2SignedDataError) :=
  {| threshold := 2; verify_fn := new_verifier hex_parse pair_up pair_up bls_sample client; subs := [fun _ _ => Ok tt] |}.

Lemma exit_signs s : signs hex_parse pair_up pair_up client (exit_of s) exit_signing_root.
Proof. exists DomVoluntaryExit, 60, [60; 5]. split_and!; [reflexivity..|]. vm_compute. reflexivity. Qed.

Lemma sample_combines r : combines bls_sample combine_sample partial_sample 2 key r.
Proof.
  intros m Hm Hp. unfold combine_sample. destruct (map_to_list m) as [|[i s] l] eqn:El.
  - apply map_to_list_empty_iff in El. subst. rewrite map_size_empty in Hm. lia.
  - assert (m !! i = Some s) as Hi by (apply elem_of_map_to_list; rewrite El; by left).
    rewrite (Hp i s Hi). exists (99 :: r). split_and!; [done| |by apply bool_decide_eq_true]. by destruct r.
Qed.

Lemma valid_partials_aggregate_witness :
  exists output : gmap (list Z) SignedDatum,
    snd (aggregate combine_sample attestation_index default_order agg_exit exit_duty exit_set []) = Ok tt /\
    (exit_duty, output) ∈ fst (aggregate combine_sample attestation_index default_order agg_exit exit_duty exit_set []) /\
    is_Some (output !! key).
Proof.
  destruct (valid_partials_aggregate hex_parse pair_up pair_up bls_sample client combine_sample partial_sample
    db_exit agg_exit default_order exit_duty exit_set (fun _ => exit_signing_root) []) as (output & Hagg & Hdom & _).
  - exact db_exit_reachable.
  - reflexivity.
  - reflexivity.
  - apply list_elem_of_In. vm_compute. auto.
  - intros pk ps Hps. unfold exit_set in Hps. apply lookup_singleton_Some in Hps as [<- <-]. split; [|apply sample_combines].
    repeat constructor; first [apply exit_signs | eexists; split; reflexivity].
  - exists output. rewrite Hagg. split_and!; [done|by left|].
    apply elem_of_dom. rewrite Hdom. apply elem_of_dom. by eexists.
Defined.

(** The validator's signature on the exit, passed off as a randao reveal. *)
Definition stolen : SignedDatum := SdRandao {| se_epoch := 60; se_signature := 99 :: exit_signing_root |}.

Lemma domains_distinct n n' t :
  fetch_domain_type hex_parse client (as_spec_key n) = Ok t ->
  fetch_domain_type hex_parse client (as_spec_key n') = Ok t -> n = n'.
Proof.
  intros Hn Hn'. destruct n; vm_compute in Hn; try discriminate Hn;
    destruct n'; vm_compute in Hn'; try discriminate Hn'; try reflexivity; congruence.
Qed.

End Eth2Sample.
