(* ===== verification/ParSigCodec.v ===== *)
(** * Wire form of partial signatures and consensus values

    [crates/core/src/parsigex_codec.rs], the protobuf conversions of
    [ParSignedData] in [types.rs], and [unsigneddata.rs]: SSZ where a type has
    it, JSON otherwise, and readers that try SSZ first.  JSON and base64 are the
    class [SpecJson]. *)

From S2P Require Import Prelude Bytes Types SszBits BeaconTypes DutyDefs ChainSpec Eth2Signed SszCodec.

Open Scope Z_scope.

(** [serde_json::to_vec] and [from_slice]; [json_value] holds of the values of
    the Rust type. *)
Class Json (T : Type) := {
  to_json : T -> option (list Z);
  from_json : list Z -> option T;
  json_value : T -> Prop;
}.

(** An attester duty and its data, [signeddata::AttestationData]. *)
Abbreviation AttestationDuty := (AttestationData * AttesterDuty)%type.

Class SpecJson `{BeaconSpec} := {
  json_string :: Json string;
  json_att0 :: Json Attestation0;
  json_attestation :: Json VersionedAttestation;
  json_signed_proposal :: Json VersionedSignedProposal;
  json_registration :: Json VersionedSignedValidatorRegistration;
  json_exit :: Json (SignedMsg VoluntaryExit);
  json_randao :: Json SignedEpoch;
  json_beacon_selection :: Json BeaconCommitteeSelection;
  json_sync_selection :: Json SyncCommitteeSelection;
  json_agg0 :: Json SignedAggregate0;
  json_aggregate :: Json VersionedSignedAggregateAndProof;
  json_sync_message :: Json SyncCommitteeMessage;
  json_signed_contribution :: Json (SignedMsg ContributionAndProof);
  json_proposal :: Json VersionedProposal;
  json_contribution :: Json SyncCommitteeContribution;
  json_attestation_duty :: Json AttestationDuty;
  b64_encode : list Z -> string;
  b64_decode : string -> option (list Z);
}.

Inductive CodecError :=
| InvalidUnsignedDataSetFields
| InvalidParSignedDataSetFields
| CodecUnsupportedDutyType
| DeprecatedBuilderProposer
| InvalidPubKey (s : string)
| InvalidShareIndex
| Serialize
| SszCodec (e : SszCodecError)
| CodecSignedData
| UnsignedData
| InvalidSignature.

Definition is_ascii_whitespace (b : Z) : bool :=
  (b =? 32) || (b =? 9) || (b =? 10) || (b =? 12) || (b =? 13).

Definition looks_like_json (bytes : list Z) : bool :=
  match List.find (fun b => negb (is_ascii_whitespace b)) bytes with Some b => b =? 123 | None => false end.

(** A loop that converts entries and inserts them. *)
Fixpoint build_map {E X K V} `{Countable K} (f : X -> res E (K * V)) (l : list X) (out : gmap K V)
    : res E (gmap K V) :=
  match l with
  | [] => Ok out
  | x :: l => '(k, v) ← f x; build_map f l (<[k := v]> out)
  end.

Section codec.
Context `{SpecSsz} `{!SpecJson}.

(** ** Signed data *)

Definition json_or {A} (o : option A) : res CodecError A := ok_or o Serialize.

Definition SIGNATURE_LENGTH : Z := 96.

Definition serialize_signature (sig : BLSSignature) : res CodecError (list Z) := json_or (to_json (b64_encode sig)).

Definition deserialize_signature (bytes : list Z) : res CodecError SignedDatum :=
  encoded ← json_or (from_json bytes);
  raw ← ok_or (b64_decode encoded) CodecSignedData;
  if len raw =? SIGNATURE_LENGTH then Ok (SdSignature raw) else Err InvalidSignature.

Definition serialize_signed_data (d : SignedDatum) : res CodecError (list Z) :=
  match d with
  | SdAttestation a => Ok (as_ssz_bytes a)
  | SdVersionedAttestation a => map_err SszCodec (encode_versioned_attestation a)
  | SdAggregate a => Ok (as_ssz_bytes a)
  | SdVersionedAggregate a => map_err SszCodec (encode_versioned_signed_aggregate_and_proof a)
  | SdSyncMessage m => Ok (as_ssz_bytes m)
  | SdSignedContribution c => Ok (as_ssz_bytes c)
  | SdProposal p => map_err SszCodec (encode_versioned_signed_proposal p)
  | SdRegistration r => json_or (to_json r)
  | SdExit e => json_or (to_json e)
  | SdRandao e => json_or (to_json e)
  | SdSignature s => serialize_signature s
  | SdBeaconSelection s => json_or (to_json s)
  | SdSyncSelection s => json_or (to_json s)
  | SdContributionProof _ => Err CodecUnsupportedDutyType
  end.

(** The readers of a type with SSZ: its decoders in turn, then JSON. *)
Definition json_fallback (bytes : list Z) (r : res CodecError SignedDatum) : res CodecError SignedDatum :=
  if looks_like_json bytes then r else Err CodecUnsupportedDutyType.

(** [or_else]. *)
Definition or_json {A B} (f : A -> SignedDatum) (g : B -> SignedDatum) (a : option A) (b : option B)
    : res CodecError SignedDatum :=
  match a with Some x => Ok (f x) | None => y ← json_or b; Ok (g y) end.

Definition deserialize_attester (bytes : list Z) : res CodecError SignedDatum :=
  match from_ssz_bytes (T := Attestation0) bytes with
  | Some att => Ok (SdAttestation att)
  | None =>
      match decode_versioned_attestation bytes with
      | Ok va => wrapped ← map_err (fun _ => CodecSignedData) (new_attestation va); Ok (SdVersionedAttestation wrapped)
      | Panic => Panic
      | Err _ => json_fallback bytes (or_json SdAttestation SdVersionedAttestation (from_json bytes) (from_json bytes))
      end
  end.

Definition deserialize_proposer (bytes : list Z) : res CodecError SignedDatum :=
  match decode_versioned_signed_proposal bytes with
  | Ok vp => wrapped ← map_err (fun _ => CodecSignedData) (new_proposal vp); Ok (SdProposal wrapped)
  | Panic => Panic
  | Err _ => json_fallback bytes (p ← json_or (from_json bytes); Ok (SdProposal p))
  end.

Definition deserialize_aggregator (bytes : list Z) : res CodecError SignedDatum :=
  match from_ssz_bytes (T := SignedAggregate0) bytes with
  | Some sap => Ok (SdAggregate sap)
  | None =>
      match decode_versioned_signed_aggregate_and_proof bytes with
      | Ok va => Ok (SdVersionedAggregate va)
      | Panic => Panic
      | Err _ => json_fallback bytes (or_json SdAggregate SdVersionedAggregate (from_json bytes) (from_json bytes))
      end
  end.

Definition deserialize_sync_message (bytes : list Z) : res CodecError SignedDatum :=
  match from_ssz_bytes (T := SyncCommitteeMessage) bytes with
  | Some msg => Ok (SdSyncMessage msg)
  | None => json_fallback bytes (m ← json_or (from_json bytes); Ok (SdSyncMessage m))
  end.

Definition deserialize_contribution (bytes : list Z) : res CodecError SignedDatum :=
  match from_ssz_bytes (T := SignedMsg ContributionAndProof) bytes with
  | Some scp => Ok (SdSignedContribution scp)
  | None => json_fallback bytes (c ← json_or (from_json bytes); Ok (SdSignedContribution c))
  end.

Definition deserialize_signed_data (t : DutyType) (bytes : list Z) : res CodecError SignedDatum :=
  match t with
  | Attester => deserialize_attester bytes
  | Proposer => deserialize_proposer bytes
  | BuilderProposer => Err DeprecatedBuilderProposer
  | BuilderRegistration => r ← json_or (from_json bytes); Ok (SdRegistration r)
  | Exit => e ← json_or (from_json bytes); Ok (SdExit e)
  | Randao => e ← json_or (from_json bytes); Ok (SdRandao e)
  | Signature => deserialize_signature bytes
  | PrepareAggregator => s ← json_or (from_json bytes); Ok (SdBeaconSelection s)
  | Aggregator => deserialize_aggregator bytes
  | SyncMessage => deserialize_sync_message bytes
  | PrepareSyncContribution => s ← json_or (from_json bytes); Ok (SdSyncSelection s)
  | SyncContribution => deserialize_contribution bytes
  | Unknown | InfoSync | DutySentinel _ => Err CodecUnsupportedDutyType
  end.

(** ** Partial signatures *)

(** [pbcore::ParSignedData]. *)
Record PbParSignedData := { pb_data : list Z; pb_signature : list Z; pb_share_idx : Z }.

Definition I32_MAX : Z := 2147483647.

Definition par_to_proto (data : ParSignedData SignedDatum) : res CodecError PbParSignedData :=
  encoded ← serialize_signed_data (signed_data data);
  idx ← (if share_idx data <=? I32_MAX then Ok (share_idx data) else Err InvalidShareIndex);
  sig ← map_err (fun _ => InvalidSignature) (sd_signature (signed_data data));
  Ok {| pb_data := encoded; pb_signature := sig; pb_share_idx := idx |}.

Definition par_from_proto (t : DutyType) (data : PbParSignedData) : res CodecError (ParSignedData SignedDatum) :=
  idx ← (if 0 <=? pb_share_idx data then Ok (pb_share_idx data) else Err InvalidShareIndex);
  d ← deserialize_signed_data t (pb_data data);
  Ok {| signed_data := d; share_idx := idx |}.

Context (hex_encode : list Z -> string) (hex_decode : string -> option (list Z)).

Definition parse_pub_key (s : string) : res CodecError (list Z) :=
  map_err (fun _ => InvalidPubKey s) (pubkey_of_str hex_decode s).

Definition par_set_to_proto (ho : HashOrder) (set : gmap (list Z) (ParSignedData SignedDatum))
    : res CodecError (gmap string PbParSignedData) :=
  build_map (fun '(pk, value) => pb ← par_to_proto value; Ok (pubkey_to_string hex_encode pk, pb)) (ho_list ho set) ∅.

Definition par_set_from_proto (ho : HashOrder) (t : DutyType) (set : gmap string PbParSignedData)
    : res CodecError (gmap (list Z) (ParSignedData SignedDatum)) :=
  if decide (set = ∅) then Err InvalidParSignedDataSetFields
  else build_map (fun '(s, value) => pk ← parse_pub_key s; v ← par_from_proto t value; Ok (pk, v)) (ho_list ho set) ∅.

(** ** Unsigned data *)

Inductive UnsignedDatum :=
| UdProposal (p : VersionedProposal)
| UdAttestation (data : AttestationData) (duty : AttesterDuty)
| UdAggAttestation (a : VersionedAttestation)
| UdSyncContribution (c : SyncCommitteeContribution).

Definition ATTESTATION_DATA_SSZ_OFFSET : Z := 8.
Definition ATTESTER_DUTY_SSZ_SIZE : Z := 96.

(** The offsets are far below the bounds of their checked sums. *)
Definition encode_attestation_data_ssz (data : AttestationData) (duty : AttesterDuty) : res CodecError (list Z) :=
  let attestation := as_ssz_bytes data in
  let duty_offset := ATTESTATION_DATA_SSZ_OFFSET + len attestation in
  if U32_MAX <? duty_offset then Err UnsignedData
  else Ok (le_bytes 4 ATTESTATION_DATA_SSZ_OFFSET ++ le_bytes 4 duty_offset ++ attestation ++ replicate 48 0 ++
           le_bytes 8 (ad_slot duty) ++ le_bytes 8 (ad_validator_index duty) ++ le_bytes 8 (ad_committee_index duty) ++
           le_bytes 8 (ad_committee_length duty) ++ le_bytes 8 (ad_committees_at_slot duty) ++
           le_bytes 8 (ad_validator_committee_index duty)).

Definition duty_field (data : list Z) (start : Z) : res CodecError Z :=
  b ← slice data start (start + 8);
  map_err (fun _ => UnsignedData) (decode_u64 b).

Definition decode_attester_duty_ssz (data : list Z) : res CodecError AttesterDuty :=
  if len data <? ATTESTER_DUTY_SSZ_SIZE then Err UnsignedData
  else
    slot ← duty_field data 48;
    validator_index ← duty_field data 56;
    committee_index ← duty_field data 64;
    committee_length ← duty_field data 72;
    committees_at_slot ← duty_field data 80;
    validator_committee_index ← duty_field data 88;
    Ok {| ad_slot := slot; ad_validator_index := validator_index; ad_committee_index := committee_index;
          ad_committee_length := committee_length; ad_committees_at_slot := committees_at_slot;
          ad_validator_committee_index := validator_committee_index |}.

Definition decode_attestation_data_ssz (data : list Z) : res CodecError AttestationDuty :=
  if len data <? ATTESTATION_DATA_SSZ_OFFSET then Err UnsignedData
  else
    b ← slice data 0 4; data_offset ← map_err (fun _ => UnsignedData) (decode_u32 b);
    b ← slice data 4 ATTESTATION_DATA_SSZ_OFFSET; duty_offset ← map_err (fun _ => UnsignedData) (decode_u32 b);
    if negb (data_offset =? ATTESTATION_DATA_SSZ_OFFSET) || (duty_offset <? data_offset) || (len data <? duty_offset)
       || (Z.max 0 (len data - duty_offset) <? ATTESTER_DUTY_SSZ_SIZE)
    then Err UnsignedData
    else
      b ← slice data data_offset duty_offset;
      attestation_data ← ok_or (from_ssz_bytes b) UnsignedData;
      b ← slice data duty_offset (len data);
      duty ← decode_attester_duty_ssz b;
      Ok (attestation_data, duty).

(** SSZ first, then JSON. *)
Definition ssz_or_json {E A} (r : res E A) (bytes : list Z) (json : option A) : res CodecError A :=
  match r with
  | Ok x => Ok x
  | Panic => Panic
  | Err _ => if looks_like_json bytes then json_or json else Err UnsignedData
  end.

Definition wrap_phase0_aggregated_attestation (att : Attestation0) : VersionedAttestation :=
  {| va_version := VPhase0; va_validator_index := None; va_attestation := Some (ApPhase0 att) |}.

Definition decode_aggregated_attestation (bytes : list Z) : res CodecError VersionedAttestation :=
  match decode_versioned_aggregated_attestation bytes with
  | Ok agg => Ok agg
  | Panic => Panic
  | Err _ =>
      match from_ssz_bytes (T := Attestation0) bytes with
      | Some att => Ok (wrap_phase0_aggregated_attestation att)
      | None =>
          if looks_like_json bytes then
            match from_json (T := VersionedAttestation) bytes with
            | Some decoded => Ok decoded
            | None => att ← json_or (from_json (T := Attestation0) bytes); Ok (wrap_phase0_aggregated_attestation att)
            end
          else Err UnsignedData
      end
  end.

Definition marshal_unsigned_duty_data (d : UnsignedDatum) : res CodecError (list Z) :=
  match d with
  | UdAttestation data duty => encode_attestation_data_ssz data duty
  | UdProposal p => map_err SszCodec (encode_versioned_proposal p)
  | UdAggAttestation a => map_err SszCodec (encode_versioned_aggregated_attestation a)
  | UdSyncContribution c => Ok (as_ssz_bytes c)
  end.

Definition unsigned_duty_data_from_proto (t : DutyType) (bytes : list Z) : res CodecError UnsignedDatum :=
  match t with
  | Attester =>
      '(data, duty) ← ssz_or_json (decode_attestation_data_ssz bytes) bytes (from_json bytes);
      Ok (UdAttestation data duty)
  | Proposer => p ← ssz_or_json (decode_versioned_proposal bytes) bytes (from_json bytes); Ok (UdProposal p)
  | Aggregator => a ← decode_aggregated_attestation bytes; Ok (UdAggAttestation a)
  | SyncContribution =>
      c ← ssz_or_json (ok_or (from_ssz_bytes bytes) Decode) bytes (from_json bytes); Ok (UdSyncContribution c)
  | _ => Err CodecUnsupportedDutyType
  end.

Definition unsigned_data_set_to_proto (ho : HashOrder) (set : gmap (list Z) UnsignedDatum)
    : res CodecError (gmap string (list Z)) :=
  build_map (fun '(pk, d) => b ← marshal_unsigned_duty_data d; Ok (pubkey_to_string hex_encode pk, b)) (ho_list ho set) ∅.

Definition unsigned_data_set_from_proto (ho : HashOrder) (t : DutyType) (set : gmap string (list Z))
    : res CodecError (gmap (list Z) UnsignedDatum) :=
  if decide (set = ∅) then Err InvalidUnsignedDataSetFields
  else build_map (fun '(s, b) => pk ← parse_pub_key s; d ← unsigned_duty_data_from_proto t b; Ok (pk, d)) (ho_list ho set) ∅.
End codec.
