(* ===== verification/ParSigCodecFacts.v ===== *)
(** * Wire form of partial signatures and consensus values: theorems

    Whatever bytes a peer sends, decoding them ends in an error or in data of the
    type that the duty takes; what a node encodes, its peers decode to the same
    value. *)

From S2P Require Import Prelude Bytes Types SszBits BeaconTypes DutyDefs ChainSpec Eth2Signed SszCodec SszCodecFacts.
From S2P Require Import ParSigCodec.

Open Scope Z_scope.

(** ** Decoders do not panic *)

Lemma slice_no_panic {E A} (l : list A) a b : 0 <= a <= b -> b <= len l -> @slice E A l a b <> Panic.
Proof. intros Ha Hb. by destruct (slice_ok (E := E) l a b Ha Hb) as (s & -> & _). Qed.

Lemma decode_fixed_no_panic n (b : list Z) : decode_fixed_bytes n b <> Panic.
Proof. unfold decode_fixed_bytes. by destruct (_ =? _)%nat. Qed.

Lemma check_offset_no_panic a b : check_offset a b <> Panic.
Proof. unfold check_offset. by case_decide. Qed.

Lemma require_spec (b : list Z) n : require b n <> Panic /\ (forall u, require b n = Ok u -> n <= len b).
Proof. unfold require. destruct (Z.ltb_spec (len b) n); split; by intros. Qed.

(** One bind, conversion or primitive at a time. *)
Ltac no_panic :=
  repeat first
    [ apply bind_no_panic; [|intros ? ?]
    | apply map_err_no_panic
    | apply ok_or_no_panic
    | apply decode_fixed_no_panic
    | apply check_offset_no_panic
    | apply require_spec
    | discriminate ].

Lemma decode_int_no_panic (b : list Z) : decode_u32 b <> Panic /\ decode_u64 b <> Panic /\ decode_version b <> Panic.
Proof. unfold decode_version, decode_u32, decode_u64, of_binary. split_and!; no_panic. Qed.

(** What a computation returns satisfies [P], and it does not panic. *)
Definition returns {E A} (P : A -> Prop) (r : res E A) : Prop :=
  match r with Ok x => P x | Err _ => True | Panic => False end.

Lemma returns_no_panic {E A} (r : res E A) : returns (fun _ => True) r <-> r <> Panic.
Proof. destruct r; naive_solver. Qed.

Lemma returns_bind {E A B} (P : A -> Prop) (Q : B -> Prop) (m : res E A) (f : A -> res E B) :
  returns P m -> (forall x, P x -> returns Q (f x)) -> returns Q (m ≫= f).
Proof. destruct m; cbn; auto. Qed.

Lemma returns_map_err {E F A} (P : A -> Prop) (g : E -> F) (r : res E A) : returns P r -> returns P (map_err g r).
Proof. by destruct r. Qed.

Lemma returns_ok_or {E A} (o : option A) (e : E) : returns (fun _ => True) (ok_or o e).
Proof. by destruct o. Qed.

Lemma build_map_returns {E X K V} `{Countable K} (P : K -> V -> Prop) (f : X -> res E (K * V)) l out :
  (forall x, x ∈ l -> returns (fun kv => P kv.1 kv.2) (f x)) -> map_Forall P out ->
  returns (map_Forall P) (build_map f l out).
Proof.
  revert out. induction l as [|x l IH]; intros out Hf Hout; [done|]. cbn.
  eapply returns_bind; [apply Hf; by left|]. intros [k v] HP. apply IH; [intros y Hy; apply Hf; by right|].
  by apply map_Forall_insert_2.
Qed.

Section safety.
Context `{SpecSsz} `{!SpecJson}.

(** A decoder that has checked the length of its header. *)
Ltac header_no_panic :=
  unfold of_binary;
  repeat first
    [ progress no_panic
    | apply decode_int_no_panic
    | match goal with Hr : require _ _ = Ok _ |- slice _ _ _ <> Panic =>
        apply require_spec in Hr; apply slice_no_panic; unfold len in *; lia end ].

Lemma decode_version_header_no_panic b : decode_version_header b <> Panic.
Proof. unfold decode_version_header, VERSIONED_SIGNED_AGGREGATE_HEADER. header_no_panic. Qed.

Lemma decode_blinded_header_no_panic b : decode_blinded_header b <> Panic.
Proof.
  unfold decode_blinded_header, VERSIONED_SIGNED_PROPOSAL_HEADER. header_no_panic.
  destruct (lookup_lt_is_Some_2 b 8) as [y ->]; [|done]. match goal with Hr : require _ _ = Ok _ |- _ => apply require_spec in Hr end.
  unfold len in *. lia.
Qed.

Lemma decode_payloads_no_panic v blinded b :
  decode_attestation_payload v b <> Panic /\ decode_aggregate_payload v b <> Panic /\
  decode_proposal_block v blinded b <> Panic /\ decode_unsigned_proposal_block v blinded b <> Panic.
Proof. unfold of_ssz. split_and!; destruct v, blinded; cbn; unfold of_ssz; no_panic. Qed.

Lemma decode_versioned_attestation_no_panic b : decode_versioned_attestation b <> Panic.
Proof.
  unfold decode_versioned_attestation. destruct (try_decode_versioned_attestation_with_val_idx b) as [x|[]|] eqn:E; try done.
  - unfold decode_versioned_attestation_no_val_idx. apply bind_no_panic; [apply decode_version_header_no_panic|].
    intros [v inner] _. no_panic. by apply (decode_payloads_no_panic v true).
  - exfalso. revert E. fold (not (try_decode_versioned_attestation_with_val_idx b = Panic)).
    unfold try_decode_versioned_attestation_with_val_idx, VERSIONED_ATTESTATION_VAL_IDX_HEADER.
    header_no_panic. by apply (decode_payloads_no_panic _ true).
Qed.

Lemma decode_versioned_no_panic b :
  decode_versioned_aggregated_attestation b <> Panic /\ decode_versioned_signed_aggregate_and_proof b <> Panic /\
  decode_versioned_signed_proposal b <> Panic /\ decode_versioned_proposal b <> Panic.
Proof.
  unfold decode_versioned_aggregated_attestation, decode_versioned_signed_aggregate_and_proof,
    decode_versioned_signed_proposal, decode_versioned_proposal.
  split_and!; (apply bind_no_panic; [first [apply decode_version_header_no_panic | apply decode_blinded_header_no_panic]|]).
  1,2: intros [v inner] _; no_panic; by apply (decode_payloads_no_panic v true).
  all: intros [[v blinded] inner] _; no_panic; by apply (decode_payloads_no_panic v blinded).
Qed.

(** The data that a duty type takes. *)
Definition datum_fits (t : DutyType) (d : SignedDatum) : Prop :=
  match d with
  | SdAttestation _ | SdVersionedAttestation _ => t = Attester
  | SdProposal _ => t = Proposer
  | SdRegistration _ => t = BuilderRegistration
  | SdExit _ => t = Exit
  | SdRandao _ => t = Randao
  | SdSignature s => t = Signature /\ len s = SIGNATURE_LENGTH
  | SdBeaconSelection _ => t = PrepareAggregator
  | SdAggregate _ | SdVersionedAggregate _ => t = Aggregator
  | SdSyncMessage _ => t = SyncMessage
  | SdSyncSelection _ => t = PrepareSyncContribution
  | SdSignedContribution _ => t = SyncContribution
  | SdContributionProof _ => False
  end.

Definition unsigned_fits (t : DutyType) (d : UnsignedDatum) : Prop :=
  match d with
  | UdProposal _ => t = Proposer
  | UdAttestation _ _ => t = Attester
  | UdAggAttestation _ => t = Aggregator
  | UdSyncContribution _ => t = SyncContribution
  end.

Lemma returns_Ok_map {E A B} (Q : B -> Prop) (g : A -> B) (m : res E A) :
  m <> Panic -> (forall x, Q (g x)) -> returns Q (x ← m; Ok (g x)).
Proof. destruct m; cbn; [by auto|done|done]. Qed.

Lemma json_fallback_returns Q bytes r : returns Q r -> returns Q (json_fallback bytes r).
Proof. unfold json_fallback. by destruct (looks_like_json bytes). Qed.

Lemma or_json_returns {A B} (Q : SignedDatum -> Prop) (f : A -> SignedDatum) (g : B -> SignedDatum) a b :
  (forall x, Q (f x)) -> (forall x, Q (g x)) -> returns Q (or_json f g a b).
Proof. intros Hf Hg. destruct a; [apply Hf|]. cbn. by destruct b; cbn. Qed.

Lemma json_returns {A} (Q : SignedDatum -> Prop) (g : A -> SignedDatum) (o : option A) :
  (forall x, Q (g x)) -> returns Q (x ← json_or o; Ok (g x)).
Proof. intros Hg. by destruct o; cbn. Qed.

Lemma new_attestation_no_panic a : new_attestation a <> Panic.
Proof. unfold new_attestation. case_decide; [done|]. by destruct (va_attestation a). Qed.

Lemma deserialize_signature_returns b : returns (datum_fits Signature) (deserialize_signature b).
Proof.
  unfold deserialize_signature. destruct (from_json b) as [e|]; [|done]. cbn. destruct (b64_decode e) as [raw|]; [|done].
  cbn. destruct (Z.eqb_spec (len raw) SIGNATURE_LENGTH); by cbn.
Qed.

Lemma deserialize_attester_returns b : returns (datum_fits Attester) (deserialize_attester b).
Proof.
  unfold deserialize_attester. destruct (from_ssz_bytes b); [done|].
  destruct (decode_versioned_attestation b) as [va| |] eqn:E.
  - apply returns_Ok_map; [|done]. apply map_err_no_panic, new_attestation_no_panic.
  - by apply json_fallback_returns, or_json_returns.
  - by apply decode_versioned_attestation_no_panic in E.
Qed.

Lemma deserialize_proposer_returns b : returns (datum_fits Proposer) (deserialize_proposer b).
Proof.
  unfold deserialize_proposer. destruct (decode_versioned_signed_proposal b) as [vp| |] eqn:E.
  - apply returns_Ok_map; [|done]. apply map_err_no_panic. unfold new_proposal. by case_decide.
  - by apply json_fallback_returns, json_returns.
  - by apply decode_versioned_no_panic in E.
Qed.

Lemma deserialize_aggregator_returns b : returns (datum_fits Aggregator) (deserialize_aggregator b).
Proof.
  unfold deserialize_aggregator. destruct (from_ssz_bytes b); [done|].
  destruct (decode_versioned_signed_aggregate_and_proof b) as [va| |] eqn:E; [done| |by apply decode_versioned_no_panic in E].
  by apply json_fallback_returns, or_json_returns.
Qed.

Lemma deserialize_returns t b : returns (datum_fits t) (deserialize_signed_data t b).
Proof.
  destruct t; cbn [deserialize_signed_data]; try done; try (by apply json_returns).
  - apply deserialize_proposer_returns.
  - apply deserialize_attester_returns.
  - apply deserialize_signature_returns.
  - apply deserialize_aggregator_returns.
  - unfold deserialize_sync_message. destruct (from_ssz_bytes b); [done|]. by apply json_fallback_returns, json_returns.
  - unfold deserialize_contribution. destruct (from_ssz_bytes b); [done|]. by apply json_fallback_returns, json_returns.
Qed.

Lemma decode_attester_duty_no_panic b : decode_attester_duty_ssz b <> Panic.
Proof.
  unfold decode_attester_duty_ssz, ATTESTER_DUTY_SSZ_SIZE. destruct (Z.ltb_spec (len b) 96); [done|].
  unfold duty_field. repeat (no_panic; first [apply slice_no_panic; lia | apply decode_int_no_panic]).
Qed.

Lemma decode_attestation_data_no_panic b : decode_attestation_data_ssz b <> Panic.
Proof.
  unfold decode_attestation_data_ssz, ATTESTATION_DATA_SSZ_OFFSET. destruct (Z.ltb_spec (len b) 8); [done|].
  repeat first [progress no_panic | apply decode_int_no_panic | apply slice_no_panic; lia].
  destruct (negb _ || _ || _ || _) eqn:E; [done|]. repeat (apply orb_false_iff in E as [E ?]). zbool.
  no_panic; try (apply slice_no_panic; lia). apply decode_attester_duty_no_panic.
Qed.

Lemma ssz_or_json_no_panic {E A} (r : res E A) bytes o : r <> Panic -> ssz_or_json r bytes o <> Panic.
Proof. destruct r; cbn; try done. destruct (looks_like_json bytes); [by destruct o|done]. Qed.

Lemma decode_aggregated_attestation_no_panic b : decode_aggregated_attestation b <> Panic.
Proof.
  unfold decode_aggregated_attestation.
  destruct (decode_versioned_aggregated_attestation b) eqn:E; [done| |by apply decode_versioned_no_panic in E].
  destruct (from_ssz_bytes b); [done|]. destruct (looks_like_json b); [|done].
  destruct (from_json b); [done|]. by destruct (from_json b).
Qed.

Lemma unsigned_returns t b : returns (unsigned_fits t) (unsigned_duty_data_from_proto t b).
Proof.
  destruct t; cbn [unsigned_duty_data_from_proto]; try done.
  - apply returns_Ok_map; [|done]. apply ssz_or_json_no_panic, decode_versioned_no_panic.
  - eapply (returns_bind (fun _ => True)); [|by intros []].
    apply returns_no_panic, ssz_or_json_no_panic, decode_attestation_data_no_panic.
  - apply returns_Ok_map; [|done]. apply decode_aggregated_attestation_no_panic.
  - apply returns_Ok_map; [|done]. apply ssz_or_json_no_panic, ok_or_no_panic.
Qed.

Context (hex_decode : string -> option (list Z)).

Lemma parse_pub_key_returns s : returns (fun pk => len pk = PK_LEN) (parse_pub_key hex_decode s).
Proof.
  unfold parse_pub_key, pubkey_of_str. destruct (hex_decode _) as [pk|]; [|done]. cbn. unfold pubkey_of_bytes.
  destruct (Z.eqb_spec (len pk) PK_LEN); by cbn.
Qed.

(** C37: Whatever a peer sends, under whatever duty type: reading its set of partial
    signatures, or its set of proposed values, does not panic, and ends in an
    error or in a set in which every key is a public key and every value is of
    the kind that the duty takes. *)
Theorem peer_bytes_typed (ho : HashOrder) (t : DutyType) :
  (forall set, returns (map_Forall (fun pk v => len pk = PK_LEN /\ datum_fits t (signed_data v) /\ 0 <= share_idx v))
     (par_set_from_proto hex_decode ho t set)) /\
  (forall set, returns (map_Forall (fun pk d => len pk = PK_LEN /\ unsigned_fits t d))
     (unsigned_data_set_from_proto hex_decode ho t set)).
Proof.
  split; intros set; [unfold par_set_from_proto | unfold unsigned_data_set_from_proto]; (case_decide; [done|]);
    apply build_map_returns; try apply map_Forall_empty; intros [s v] _;
    (eapply returns_bind; [apply parse_pub_key_returns|]); intros pk Hpk.
  - unfold par_from_proto. destruct (Z.leb_spec 0 (pb_share_idx v)); [|done]. cbn [mbind res_bind].
    pose proof (deserialize_returns t (pb_data v)) as Hd. by destruct (deserialize_signed_data t (pb_data v)).
  - pose proof (unsigned_returns t v) as Hd. by destruct (unsigned_duty_data_from_proto t v).
Qed.
End safety.

(** ** Round trips *)

(** Entries with keys of their own are all inserted. *)
Lemma build_map_union {E X K V} `{Countable K} (f : X -> res E (K * V)) l kvs (out : gmap K V) :
  Forall2 (fun x kv => f x = Ok kv) l kvs -> NoDup kvs.*1 -> (forall k, k ∈ kvs.*1 -> out !! k = None) ->
  build_map f l out = Ok (list_to_map kvs ∪ out).
Proof.
  intros Hf. revert out. induction Hf as [|x [k v] l kvs Hx Hf IH]; intros out Hnd Hout; cbn.
  - by rewrite (left_id_L ∅ (∪)).
  - rewrite Hx. cbn in *. apply NoDup_cons in Hnd as [Hk Hnd]. rewrite IH; [|done|].
    + f_equal. rewrite <-insert_union_r by (by apply not_elem_of_list_to_map). by rewrite insert_union_l.
    + intros k' Hk'. rewrite lookup_insert_ne by set_solver. apply Hout. by right.
Qed.

Lemma build_map_all {E X K V} `{Countable K} (f : X -> res E (K * V)) l kvs :
  Forall2 (fun x kv => f x = Ok kv) l kvs -> NoDup kvs.*1 -> build_map f l ∅ = Ok (list_to_map kvs : gmap K V).
Proof.
  intros Hf Hnd. rewrite (build_map_union f l kvs) by (done || intros; apply lookup_empty).
  by rewrite (right_id_L ∅ (∪)).
Qed.

Lemma Forall2_perm {A B} (R : A -> B -> Prop) l k k' :
  Forall2 R l k -> k ≡ₚ k' -> exists l', l ≡ₚ l' /\ Forall2 R l' k'.
Proof.
  intros HR Hp. revert l HR. induction Hp as [|x k k' _ IH|x y k|k1 k2 k3 _ IH1 _ IH2]; intros l HR.
  - exists l. by inversion HR.
  - inversion HR as [|a ? l0 ? Ha Hl]; subst. destruct (IH l0 Hl) as (l' & Hp & Hl').
    exists (a :: l'). split; [by f_equiv|by constructor].
  - inversion HR as [|a ? l0 ? Ha Hl]; subst. inversion Hl as [|b ? l1 ? Hb Hl1]; subst.
    exists (b :: a :: l1). split; [apply Permutation_swap|by repeat constructor].
  - destruct (IH1 _ HR) as (l2 & Hp1 & H2). destruct (IH2 _ H2) as (l3 & Hp2 & H3). exists l3. by rewrite Hp1.
Qed.

Lemma NoDup_converted {F K V K' V'} (g : K' * V' -> res F (K * V)) l kvs :
  (forall k v w x y, g (k, v) = Ok x -> g (k, w) = Ok y -> x.1 = y.1) ->
  Forall2 (fun x kv => g kv = Ok x) l kvs -> NoDup l.*1 -> NoDup kvs.*1.
Proof.
  intros Hg. induction 1 as [|[k v] [k' v'] l kvs Hx Hf IH]; cbn; [intros _; constructor|].
  rewrite !NoDup_cons. intros [Hk Hnd]. split; [|exact (IH Hnd)]. intros ([k0 w] & Hk' & Hin)%list_elem_of_fmap. cbn in Hk'. subst k0.
  apply list_elem_of_lookup_1 in Hin as [i Hi]. destruct (Forall2_lookup_r _ _ _ _ _ Hf Hi) as ([k1 v1] & Hl & Hg1).
  apply Hk. apply list_elem_of_fmap. exists (k1, v1). split; [|by eapply list_elem_of_lookup_2].
  exact (Hg _ _ _ _ _ Hx Hg1).
Qed.

(** Converting a map entry by entry and back; what is not sent is [h]. *)
Lemma build_map_roundtrip {E F K V K' V'} `{Countable K} `{Countable K'} (ho ho' : HashOrder)
    (f : K * V -> res E (K' * V')) (g : K' * V' -> res F (K * V)) (h : V -> V) (m : gmap K V) :
  (forall k v w x y, g (k, v) = Ok x -> g (k, w) = Ok y -> x.1 = y.1) ->
  (forall k v, m !! k = Some v -> exists kv, f (k, v) = Ok kv /\ g kv = Ok (k, h v)) ->
  exists m', build_map f (ho_list ho m) ∅ = Ok m' /\ build_map g (ho_list ho' m') ∅ = Ok (h <$> m) /\ (m' = ∅ -> m = ∅).
Proof.
  intros Hkey Hfg.
  assert (exists kvs, Forall2 (fun x kv => f x = Ok kv /\ g kv = Ok (prod_map id h x)) (ho_list ho m) kvs) as [kvs Hkvs].
  { apply Forall_exists_Forall2_l, Forall_forall. intros [k v] Hin%elem_of_ho_list. by apply Hfg. }
  assert (Forall2 (fun x kv => g kv = Ok x) (prod_map id h <$> ho_list ho m) kvs) as Hg.
  { apply Forall2_fmap_l. eapply Forall2_impl; [exact Hkvs|by intros ? ? []]. }
  assert ((prod_map id h <$> ho_list ho m).*1 = (ho_list ho m).*1) as Hkeys.
  { rewrite <-list_fmap_compose. by apply list_fmap_ext. }
  assert (NoDup kvs.*1) as Hnd by (eapply NoDup_converted; [done|done|rewrite Hkeys; apply ho_list_NoDup]).
  exists (list_to_map kvs). split_and!.
  - apply build_map_all; [|done]. eapply Forall2_impl; [exact Hkvs|by intros ? ? []].
  - destruct (Forall2_perm _ _ _ (ho_list ho' (list_to_map kvs : gmap K' V')) Hg) as (l & Hl & Hg').
    { by rewrite ho_perm, map_to_list_to_map. }
    rewrite (build_map_all g _ l) by (by apply Forall2_flip || (rewrite <-Hl, Hkeys; apply ho_list_NoDup)).
    f_equal. rewrite <-(list_to_map_proper (prod_map id h <$> ho_list ho m)) by (done || (rewrite Hkeys; apply ho_list_NoDup)).
    rewrite list_to_map_fmap. f_equal.
    rewrite (list_to_map_proper _ (map_to_list m)) by (apply ho_perm || apply ho_list_NoDup). apply list_to_map_to_list.
  - intros He. destruct kvs as [|[k v] kvs]; [|cbn in He; by apply insert_non_empty in He].
    inversion Hkvs as [Hm|]. apply map_to_list_empty_iff, Permutation_nil. by rewrite <-(ho_perm ho m), <-Hm.
Qed.

(** JSON and base64 decode what they encoded. *)
Class JsonLaws `{SpecJson} := {
  rt_json_string (x : string) : exists b, to_json x = Some b /\ from_json b = Some x;
  rt_json_registration (x : VersionedSignedValidatorRegistration) :
    json_value x -> exists b, to_json x = Some b /\ from_json b = Some x;
  rt_json_exit (x : SignedMsg VoluntaryExit) : json_value x -> exists b, to_json x = Some b /\ from_json b = Some x;
  rt_json_randao (x : SignedEpoch) : json_value x -> exists b, to_json x = Some b /\ from_json b = Some x;
  rt_json_beacon_selection (x : BeaconCommitteeSelection) :
    json_value x -> exists b, to_json x = Some b /\ from_json b = Some x;
  rt_json_sync_selection (x : SyncCommitteeSelection) :
    json_value x -> exists b, to_json x = Some b /\ from_json b = Some x;
  rt_b64 (b : list Z) : Forall is_byte b -> b64_decode (b64_encode b) = Some b;
}.

Section roundtrip.
Context `{SszLaws} `{!SpecJson} `{!JsonLaws}.

(** Signed data that a node builds for a duty: parts that agree, and no
    attestation without validator index at a slot that reads as a header. *)
Definition wire_wf (t : DutyType) (d : SignedDatum) : Prop :=
  datum_fits t d /\
  match d with
  | SdAttestation a => ssz_value a
  | SdVersionedAttestation a =>
      attestation_wf a /\
      (va_validator_index a = None -> forall p, va_attestation a = Some p -> att_slot (payload_data p) mod 2 ^ 32 <> 20)
  | SdAggregate a => ssz_value a
  | SdVersionedAggregate a => aggregate_value (vag_payload a) /\ vag_version a = aggregate_version (vag_payload a)
  | SdSyncMessage m => ssz_value m
  | SdSignedContribution c => ssz_value c
  | SdProposal p => block_value (vsp_block p) /\ block_fits (vsp_version p) (vsp_blinded p) (vsp_block p)
  | SdRegistration r => json_value r /\ exists v1, registration_payload r = Ok v1
  | SdExit e => json_value e
  | SdRandao e => json_value e
  | SdSignature s => Forall is_byte s
  | SdBeaconSelection s => json_value s
  | SdSyncSelection s => json_value s
  | SdContributionProof _ => False
  end.

Lemma json_datum {A} `{Json A} (g : A -> SignedDatum) (x : A) :
  (exists b, to_json x = Some b /\ from_json b = Some x) ->
  exists b, json_or (to_json x) = Ok b /\ (y ← json_or (from_json b); Ok (g y)) = Ok (g x).
Proof. intros (b & -> & Hb). exists b. by rewrite Hb. Qed.

(** What an encoder with a header wrote starts with the version. *)
Lemma encode_versioned_attestation_first a b :
  encode_versioned_attestation a = Ok b -> from_ssz_bytes (T := Attestation0) b = None.
Proof.
  unfold encode_versioned_attestation. intros (version & Hv & (inner & _ & Hb)%res_bind_Ok)%res_bind_Ok.
  destruct (va_validator_index a); injection Hb as <-; by apply (versioned_first _ _ _ Hv).
Qed.

Lemma encode_aggregate_first a b :
  encode_versioned_signed_aggregate_and_proof a = Ok b -> from_ssz_bytes (T := SignedAggregate0) b = None.
Proof.
  unfold encode_versioned_signed_aggregate_and_proof. intros (version & Hv & Hb)%res_bind_Ok.
  injection Hb as <-. by apply (versioned_first _ _ _ Hv).
Qed.

Lemma block_fits_version p : block_fits (vsp_version p) (vsp_blinded p) (vsp_block p) -> vsp_version p <> VUnknown.
Proof. destruct (vsp_block p); cbn; intros Hf; intuition congruence. Qed.

Lemma signed_data_roundtrip t d :
  wire_wf t d -> exists b, serialize_signed_data d = Ok b /\ deserialize_signed_data t b = Ok d.
Proof.
  intros [Hfit Hwf]. destruct d as [s|p|a|a|e|r|e|s|s|a|a|m|c|c]; cbn [serialize_signed_data]; cbn in Hfit, Hwf.
  - destruct Hfit as [-> Hlen]. unfold serialize_signature.
    destruct (rt_json_string (b64_encode s)) as (b & -> & Hb). exists b. split; [done|].
    cbn. unfold deserialize_signature. rewrite Hb. cbn. rewrite rt_b64 by done. cbn. by rewrite Hlen.
  - subst t. destruct Hwf as [Hv Hf]. destruct (proposal_roundtrip p Hv Hf) as (b & -> & Hb).
    exists b. split; [done|]. cbn. unfold deserialize_proposer. rewrite Hb. unfold new_proposal.
    by rewrite decide_False by (by apply block_fits_version).
  - subst t. eexists. split; [done|]. cbn. unfold deserialize_attester. by rewrite rt_att0.
  - subst t. destruct Hwf as [Hwf Hslot]. destruct (attestation_roundtrip a Hwf Hslot) as (b & Hb & Hd).
    rewrite Hb. exists b. split; [done|]. cbn. unfold deserialize_attester.
    rewrite (encode_versioned_attestation_first a b Hb), Hd. destruct Hwf as (p & Hp & Hv & _). unfold new_attestation.
    rewrite Hp. rewrite decide_False by (rewrite Hv; by destruct p). done.
  - subst t. by apply json_datum, rt_json_exit.
  - subst t. destruct Hwf as [Hwf _]. by apply json_datum, rt_json_registration.
  - subst t. by apply json_datum, rt_json_randao.
  - subst t. by apply json_datum, rt_json_beacon_selection.
  - subst t. by apply json_datum, rt_json_sync_selection.
  - subst t. eexists. split; [done|]. cbn. unfold deserialize_aggregator. by rewrite rt_agg0.
  - subst t. destruct Hwf as [Hv Hver]. destruct (aggregate_roundtrip a Hv Hver) as (b & Hb & Hd).
    rewrite Hb. exists b. split; [done|]. cbn. unfold deserialize_aggregator. by rewrite (encode_aggregate_first a b Hb), Hd.
  - subst t. eexists. split; [done|]. cbn. unfold deserialize_sync_message. by rewrite rt_sync_message.
  - done.
  - subst t. eexists. split; [done|]. cbn. unfold deserialize_contribution. by rewrite rt_signed_contribution.
Qed.

(** Duties whose fields are [u64]. *)
Definition duty_wf (ad : AttesterDuty) : Prop :=
  Forall (fun z => 0 <= z <= U64_MAX)
    [ad_slot ad; ad_validator_index ad; ad_committee_index ad; ad_committee_length ad; ad_committees_at_slot ad;
     ad_validator_committee_index ad].

Lemma duty_field_at data pre post start z :
  data = pre ++ le_bytes 8 z ++ post -> start = len pre -> 0 <= z <= U64_MAX -> duty_field data start = Ok z.
Proof.
  intros -> -> Hz. unfold duty_field.
  rewrite (slice_at _ pre (le_bytes 8 z) post) by (done || unfold len; rewrite ?length_le_bytes; lia).
  cbn [mbind res_bind]. pose proof (decode_u64_bytes z Hz) as Hd. unfold of_binary, encode_u64 in Hd.
  destruct (decode_u64 (le_bytes 8 z)); cbn in *; congruence.
Qed.

Lemma length_u64s zs : length (concat (le_bytes 8 <$> zs)) = (8 * length zs)%nat.
Proof. induction zs as [|z zs IH]; [done|]. cbn [fmap list_fmap concat]. rewrite length_app, length_le_bytes, IH. cbn. lia. Qed.

Lemma duty_field_nth pre zs (i : nat) z start :
  Forall (fun z => 0 <= z <= U64_MAX) zs -> zs !! i = Some z -> start = len pre + 8 * Z.of_nat i ->
  duty_field (pre ++ concat (le_bytes 8 <$> zs)) start = Ok z.
Proof.
  intros Hzs Hi ->. pose proof (Forall_lookup_1 _ _ _ _ Hzs Hi) as Hz.
  apply (duty_field_at _ (pre ++ concat (le_bytes 8 <$> take i zs)) (concat (le_bytes 8 <$> drop (S i) zs))); [| |done].
  - rewrite <-(take_drop_middle zs i z Hi) at 1. rewrite fmap_app, concat_app. cbn [fmap list_fmap concat].
    by rewrite <-!app_assoc.
  - unfold len. rewrite length_app, length_u64s, length_take. apply lookup_lt_Some in Hi. lia.
Qed.

Lemma attester_duty_roundtrip ad :
  duty_wf ad ->
  decode_attester_duty_ssz
    (replicate 48 0 ++ le_bytes 8 (ad_slot ad) ++ le_bytes 8 (ad_validator_index ad) ++ le_bytes 8 (ad_committee_index ad) ++
     le_bytes 8 (ad_committee_length ad) ++ le_bytes 8 (ad_committees_at_slot ad) ++
     le_bytes 8 (ad_validator_committee_index ad)) = Ok ad.
Proof.
  intros Hwf. destruct ad as [s v ci cl cs vi]. unfold duty_wf in Hwf.
  cbn [ad_slot ad_validator_index ad_committee_index ad_committee_length ad_committees_at_slot
       ad_validator_committee_index] in *.
  set (zs := [s; v; ci; cl; cs; vi]) in *.
  replace (replicate 48 0 ++ _) with (replicate 48 0 ++ concat (le_bytes 8 <$> zs)) by (cbn [zs fmap list_fmap concat]; by rewrite app_nil_r).
  unfold decode_attester_duty_ssz, ATTESTER_DUTY_SSZ_SIZE.
  destruct (Z.ltb_spec (len (replicate 48 0 ++ concat (le_bytes 8 <$> zs))) 96) as [Hlt|_].
  { unfold len in Hlt. rewrite length_app, length_u64s in Hlt. cbn in Hlt. lia. }
  rewrite (duty_field_nth _ zs 0 s 48), (duty_field_nth _ zs 1 v 56), (duty_field_nth _ zs 2 ci 64), (duty_field_nth _ zs 3 cl 72),
    (duty_field_nth _ zs 4 cs 80), (duty_field_nth _ zs 5 vi 88) by done. done.
Qed.

Lemma attestation_data_roundtrip data duty :
  ssz_value data -> duty_wf duty ->
  exists b, encode_attestation_data_ssz data duty = Ok b /\ decode_attestation_data_ssz b = Ok (data, duty).
Proof.
  intros Hv Hwf. pose proof (size_att_data data Hv) as Hsz. unfold encode_attestation_data_ssz, ATTESTATION_DATA_SSZ_OFFSET.
  rewrite Hsz. change (U32_MAX <? 8 + 128) with false. cbn [negb].
  pose proof (attester_duty_roundtrip duty Hwf) as Hduty. eexists. split; [reflexivity|].
  set (tl := replicate 48 0 ++ _) in *. unfold decode_attestation_data_ssz, ATTESTATION_DATA_SSZ_OFFSET.
  assert (len tl = 96) as Htl by (unfold len, tl; rewrite !length_app, !length_le_bytes; done).
  assert (len (le_bytes 4 8 ++ le_bytes 4 (8 + 128) ++ as_ssz_bytes data ++ tl) = 232) as Hlen.
  { unfold len in *. rewrite !length_app, !length_le_bytes. lia. }
  rewrite Hlen. change (232 <? 8) with false. cbn iota.
  assert (forall z, 0 <= z < 2 ^ 32 -> map_err (fun _ => UnsignedData) (decode_u32 (le_bytes 4 z)) = Ok z) as Hu32.
  { intros z Hz. pose proof (decode_u32_bytes z) as Hd. rewrite Z.mod_small in Hd by done.
    unfold of_binary in Hd. destruct (decode_u32 (le_bytes 4 z)); cbn in *; congruence. }
  cut_field 0 (@nil Z) (le_bytes 4 8) (le_bytes 4 (8 + 128) ++ as_ssz_bytes data ++ tl).
  rewrite Hu32 by done. cbn [mbind res_bind].
  cut_field 4 (le_bytes 4 8) (le_bytes 4 (8 + 128)) (as_ssz_bytes data ++ tl).
  rewrite Hu32 by done. cbn [mbind res_bind].
  change (negb _ || _ || _ || _) with false. cbn iota.
  cut_field 8 (le_bytes 4 8 ++ le_bytes 4 (8 + 128)) (as_ssz_bytes data) tl.
  rewrite rt_att_data by done. cbn [ok_or mbind res_bind].
  cut_field 136 (le_bytes 4 8 ++ le_bytes 4 (8 + 128) ++ as_ssz_bytes data) tl (@nil Z).
  by rewrite Hduty.
Qed.

(** Proposed values with agreeing parts. *)
Definition unsigned_wf (t : DutyType) (d : UnsignedDatum) : Prop :=
  unsigned_fits t d /\
  match d with
  | UdProposal p => unsigned_block_value (vp_block p)
  | UdAttestation data duty => ssz_value data /\ duty_wf duty
  | UdAggAttestation a => attestation_wf a
  | UdSyncContribution c => ssz_value c
  end.

(** What of a proposed value is sent: the bids for a block and the validator
    index of an aggregated attestation are not. *)
Definition on_wire (d : UnsignedDatum) : UnsignedDatum :=
  match d with
  | UdProposal p =>
      UdProposal {| vp_block := vp_block p; vp_consensus_block_value := 0; vp_execution_payload_value := 0 |}
  | UdAggAttestation a =>
      UdAggAttestation {| va_version := va_version a; va_validator_index := None; va_attestation := va_attestation a |}
  | d => d
  end.

Lemma unsigned_data_roundtrip t d :
  unsigned_wf t d ->
  exists b, marshal_unsigned_duty_data d = Ok b /\ unsigned_duty_data_from_proto t b = Ok (on_wire d).
Proof.
  intros [Hfit Hwf]. destruct d as [p|data duty|a|c]; cbn in Hfit, Hwf; subst t; cbn [marshal_unsigned_duty_data].
  - destruct (unsigned_proposal_roundtrip p Hwf) as (b & -> & Hb). exists b. split; [done|]. cbn. by rewrite Hb.
  - destruct Hwf as [Hv Hd]. destruct (attestation_data_roundtrip data duty Hv Hd) as (b & -> & Hb).
    exists b. split; [done|]. cbn. by rewrite Hb.
  - destruct (aggregated_attestation_roundtrip
      {| va_version := va_version a; va_validator_index := None; va_attestation := va_attestation a |}) as (b & Hb & Hd);
      [|done|].
    { destruct Hwf as (p & Hp & Hv & Hval & _). by exists p. }
    exists b. split; [|cbn; unfold decode_aggregated_attestation; by rewrite Hd].
    change (encode_versioned_aggregated_attestation _) with (encode_versioned_aggregated_attestation a) in Hb. by rewrite Hb.
  - eexists. split; [done|]. cbn. by rewrite rt_contribution.
Qed.

Lemma wire_wf_signature t d : wire_wf t d -> exists s, sd_signature d = Ok s.
Proof.
  intros [Hfit Hwf]. destruct d as [s|p|a|a|e|r|e|s|s|a|a|m|c|c]; cbn in *; eauto.
  - destruct Hwf as [_ Hf]. rewrite decide_False by (by apply block_fits_version). eauto.
  - destruct Hwf as [(p & Hp & Hv & _) _]. unfold attestation_payload. rewrite Hp.
    rewrite decide_False by (rewrite Hv; by destruct p). cbn. eauto.
  - destruct Hwf as [_ [v1 ->]]. cbn. eauto.
  - destruct Hwf as [_ Hv]. rewrite decide_False by (rewrite Hv; by destruct (vag_payload a)). eauto.
Qed.

Lemma par_roundtrip t v :
  wire_wf t (signed_data v) -> 0 <= share_idx v <= I32_MAX ->
  exists pb, par_to_proto v = Ok pb /\ par_from_proto t pb = Ok v.
Proof.
  intros Hwf Hidx. destruct (signed_data_roundtrip t _ Hwf) as (b & Hs & Hd).
  destruct (wire_wf_signature t _ Hwf) as [sig Hsig]. unfold par_to_proto. rewrite Hs, Hsig. cbn [mbind res_bind map_err].
  rewrite (proj2 (Z.leb_le _ _)) by lia. cbn [mbind res_bind]. eexists. split; [done|].
  unfold par_from_proto. cbn [pb_share_idx pb_data]. rewrite (proj2 (Z.leb_le _ _)) by lia. cbn [mbind res_bind].
  rewrite Hd. by destruct v.
Qed.

Context (hex_encode : list Z -> string) (hex_decode : string -> option (list Z)).

Lemma parse_pub_key_text pk :
  (forall b, Forall is_byte b -> hex_decode (hex_encode b) = Some b) -> Forall is_byte pk -> len pk = PK_LEN ->
  parse_pub_key hex_decode (pubkey_to_string hex_encode pk) = Ok pk.
Proof. intros Hhex Hb Hl. unfold parse_pub_key. by rewrite pubkey_text_roundtrip. Qed.


(** What a node proposes to consensus, its peers decide on: a set of values
    encodes to a message, and the message decodes to the set, without the bids for
    blocks. *)
Theorem proposed_values_exchanged (ho ho' : HashOrder) (t : DutyType) (set : gmap (list Z) UnsignedDatum) :
  (forall b, Forall is_byte b -> hex_decode (hex_encode b) = Some b) -> set <> ∅ ->
  map_Forall (fun pk d => Forall is_byte pk /\ len pk = PK_LEN /\ unsigned_wf t d) set ->
  exists msg, unsigned_data_set_to_proto hex_encode ho set = Ok msg /\
    unsigned_data_set_from_proto hex_decode ho' t msg = Ok (on_wire <$> set).
Proof.
  intros Hhex Hne Hwf. destruct (build_map_roundtrip ho ho'
    (fun '(pk, d) => b ← marshal_unsigned_duty_data d; Ok (pubkey_to_string hex_encode pk, b))
    (fun '(s, b) => pk ← parse_pub_key hex_decode s; d ← unsigned_duty_data_from_proto t b; Ok (pk, d)) on_wire set)
    as (msg & Hto & Hfrom & Hmsg).
  - intros s v w [pk x] [pk' y]. destruct (parse_pub_key hex_decode s); [|done|done]. cbn.
    by intros (x' & _ & [= <- _])%res_bind_Ok (y' & _ & [= <- _])%res_bind_Ok.
  - intros pk d Hd. destruct (Hwf _ _ Hd) as (Hb & Hl & Hu). destruct (unsigned_data_roundtrip t d Hu) as (b & Hm & Hf).
    eexists. rewrite Hm. split; [done|]. cbn beta iota. rewrite parse_pub_key_text by done. cbn. by rewrite Hf.
  - exists msg. split; [done|]. unfold unsigned_data_set_from_proto. rewrite decide_False by auto. by rewrite Hfrom.
Qed.
End roundtrip.
