(* ===== verification/SszContainers.v ===== *)
(** * SSZ containers

    The encodings that [ssz_derive] gives the beacon-chain messages, as the SSZ
    specification defines them: fixed-size fields one after the other, a
    variable-size field behind an offset.  They satisfy the laws that the codec
    theorems assume; blocks are those of the sample. *)

From S2P Require Import Prelude Bytes Types SszBits BeaconTypes Eth2Signed SszCodec SszCodecFacts.
From S2P Require Import DutyDefs ParSigCodec ParSigCodecFacts Eth2SignedFacts.

Open Scope Z_scope.

(** ** Fixed-size types *)

Record Fixed (T : Type) := {
  fsize : nat;
  fenc : T -> list Z;
  fdec : list Z -> T;
  fval : T -> Prop;
  fenc_len : forall x, fval x -> length (fenc x) = fsize;
  fdec_enc : forall x, fval x -> fdec (fenc x) = x;
}.
#[global] Arguments fsize {T} _.
#[global] Arguments fenc {T} _ _.
#[global] Arguments fdec {T} _ _.
#[global] Arguments fval {T} _ _.
#[global] Arguments fenc_len {T} _ _ _.
#[global] Arguments fdec_enc {T} _ _ _.

Definition u64_f : Fixed Z.
Proof.
  refine {| fsize := 8; fenc := le_bytes 8; fdec := le_value; fval := fun z => 0 <= z <= U64_MAX |}.
  - intros. apply length_le_bytes.
  - intros z Hz. apply le_value_bytes. unfold U64_MAX in Hz. cbn. lia.
Defined.

Definition bytes_f (n : nat) : Fixed (list Z).
Proof. by refine {| fsize := n; fenc := id; fdec := id; fval := fun b => length b = n |}. Defined.

Definition unit_f : Fixed unit.
Proof. refine {| fsize := 0; fenc := fun _ => []; fdec := fun _ => tt; fval := fun _ => True |}; by intros []. Defined.

Definition pair_f {A B} (a : Fixed A) (b : Fixed B) : Fixed (A * B).
Proof.
  refine {| fsize := fsize a + fsize b; fenc := fun x => fenc a x.1 ++ fenc b x.2;
            fdec := fun l => (fdec a (take (fsize a) l), fdec b (drop (fsize a) l));
            fval := fun x => fval a x.1 /\ fval b x.2 |}.
  - intros [x y] [Hx Hy]. cbn in *. by rewrite length_app, !fenc_len.
  - intros [x y] [Hx Hy]. cbn in *. pose proof (fenc_len a x Hx).
    by rewrite take_app_length', drop_app_length', !fdec_enc.
Defined.

Definition iso_f {T U} (to : T -> U) (from : U -> T) (H : forall x, from (to x) = x) (u : Fixed U) : Fixed T.
Proof.
  refine {| fsize := fsize u; fenc := fun x => fenc u (to x); fdec := fun l => from (fdec u l); fval := fun x => fval u (to x) |}.
  - intros x Hx. by apply fenc_len.
  - intros x Hx. by rewrite fdec_enc, H.
Defined.

(** ** Types of any size *)

Record Codec (T : Type) := {
  cenc : T -> list Z;
  cdec : list Z -> option T;
  cval : T -> Prop;
  cdec_enc : forall x, cval x -> cdec (cenc x) = Some x;
}.
#[global] Arguments cenc {T} _ _.
#[global] Arguments cdec {T} _ _.
#[global] Arguments cval {T} _ _.
#[global] Arguments cdec_enc {T} _ _ _.

Definition fixed_c {T} (f : Fixed T) : Codec T.
Proof.
  refine {| cenc := fenc f; cdec := fun b => if (length b =? fsize f)%nat then Some (fdec f b) else None; cval := fval f |}.
  intros x Hx. by rewrite fenc_len, Nat.eqb_refl, fdec_enc.
Defined.

Definition bits_c (MAX : Z) : Codec BitList.
Proof.
  refine {| cenc := fun b => match @Bits.to_ssz_bytes DecodeError b with Ok s => s | _ => [] end;
            cdec := fun s => match Bits.from_ssz_bytes MAX s with Ok b => Some b | _ => None end;
            cval := fun b => SszBits.wf b /\ (0 < MAX -> bit_len b <= MAX) |}.
  intros b [Hwf Hmax]. destruct (bits_read_back MAX b Hwf Hmax) as (s & -> & ->). done.
Defined.

(** A container with one variable-size field: fields, its offset, fields, and
    the field itself. *)
Section container.
Context {T A B C : Type} (fa : Fixed A) (fb : Fixed B) (c : Codec C) (to : T -> A * B * C) (from : A * B * C -> T)
  (Hfrom : forall x, from (to x) = x).

Definition fixed_part : nat := fsize fa + (4 + fsize fb).

Definition container_enc (x : T) : list Z :=
  let '(a, b, v) := to x in fenc fa a ++ le_bytes 4 (Z.of_nat fixed_part) ++ fenc fb b ++ cenc c v.

Definition container_dec (l : list Z) : option T :=
  if decide (take 4 (drop (fsize fa) l) = le_bytes 4 (Z.of_nat fixed_part)) then
    v ← cdec c (drop fixed_part l);
    Some (from (fdec fa (take (fsize fa) l), fdec fb (take (fsize fb) (drop (fsize fa + 4) l)), v))
  else None.

Definition container_c : Codec T.
Proof.
  refine {| cenc := container_enc; cdec := container_dec;
            cval := fun x => let '(a, b, v) := to x in fval fa a /\ fval fb b /\ cval c v |}.
  intros x. unfold container_enc, container_dec. specialize (Hfrom x). destruct (to x) as [[a b] v]. intros (Ha & Hb & Hv).
  pose proof (fenc_len fa a Ha) as Hla. pose proof (fenc_len fb b Hb) as Hlb. unfold fixed_part.
  set (o := le_bytes 4 _). assert (length o = 4%nat) as Hlo by apply length_le_bytes.
  rewrite drop_app_length', take_app_length', decide_True by done.
  replace (drop (fsize fa + (4 + fsize fb)) _) with (cenc c v).
  2:{ rewrite !app_assoc, drop_app_length'; [done|]. rewrite !length_app. lia. }
  replace (take (fsize fb) (drop _ _)) with (fenc fb b).
  2:{ rewrite app_assoc, drop_app_length' by (rewrite length_app; lia). by rewrite take_app_length'. }
  rewrite cdec_enc by done. cbn. by rewrite take_app_length', !fdec_enc, Hfrom.
Defined.

Lemma container_first l x : container_dec l = Some x -> take 4 (drop (fsize fa) l) = le_bytes 4 (Z.of_nat fixed_part).
Proof. unfold container_dec. by case_decide. Qed.
End container.

(** ** Messages *)

Definition root_f : Fixed Root := bytes_f 32.
Definition sig_f : Fixed BLSSignature := bytes_f 96.

Definition checkpoint_f : Fixed Checkpoint.
Proof.
  refine (iso_f (fun c => (cp_epoch c, cp_root c)) (fun '(e, r) => {| cp_epoch := e; cp_root := r |}) _ (pair_f u64_f root_f)).
  by intros [].
Defined.

Definition att_data_f : Fixed AttestationData.
Proof.
  refine (iso_f (fun d => (att_slot d, (att_index d, (att_beacon_block_root d, (att_source d, att_target d)))))
    (fun '(s, (i, (r, (a, b)))) => {| att_slot := s; att_index := i; att_beacon_block_root := r; att_source := a; att_target := b |})
    _ (pair_f u64_f (pair_f u64_f (pair_f root_f (pair_f checkpoint_f checkpoint_f))))).
  by intros [].
Defined.

Definition att0_c : Codec Attestation0 :=
  container_c unit_f (pair_f att_data_f sig_f) (bits_c 2048)
    (fun a => (tt, (a0_data a, a0_signature a), a0_aggregation_bits a))
    (fun '(_, (d, s), b) => {| a0_aggregation_bits := b; a0_data := d; a0_signature := s |})
    (fun a => match a with Build_Attestation0 _ _ _ => eq_refl end).

Definition attE_c : Codec AttestationE :=
  container_c unit_f (pair_f att_data_f (pair_f sig_f (bytes_f 8))) (bits_c 131072)
    (fun a => (tt, (ae_data a, (ae_signature a, ae_committee_bits a)), ae_aggregation_bits a))
    (fun '(_, (d, (s, c)), b) => {| ae_aggregation_bits := b; ae_data := d; ae_signature := s; ae_committee_bits := c |})
    (fun a => match a with Build_AttestationE _ _ _ _ => eq_refl end).

Definition aggregate_c {A} (c : Codec A) : Codec (AggregateAndProof A) :=
  container_c u64_f sig_f c
    (fun a => (ap_aggregator_index a, ap_selection_proof a, ap_aggregate a))
    (fun '(i, s, x) => {| ap_aggregator_index := i; ap_aggregate := x; ap_selection_proof := s |})
    (fun a => match a with Build_AggregateAndProof _ _ _ _ => eq_refl end).

Definition signed_c {M} (c : Codec M) : Codec (SignedMsg M) :=
  container_c unit_f sig_f c (fun m => (tt, sm_signature m, sm_message m))
    (fun '(_, s, m) => {| sm_message := m; sm_signature := s |})
    (fun m => match m with Build_SignedMsg _ _ _ => eq_refl end).

Definition signed_f {M} (f : Fixed M) : Fixed (SignedMsg M).
Proof.
  refine (iso_f (fun m => (sm_message m, sm_signature m)) (fun '(m, s) => {| sm_message := m; sm_signature := s |}) _
    (pair_f f sig_f)).
  by intros [].
Defined.

Definition sync_message_f : Fixed SyncCommitteeMessage.
Proof.
  refine (iso_f (fun m => (sc_msg_slot m, (sc_msg_beacon_block_root m, (sc_msg_validator_index m, sc_msg_signature m))))
    (fun '(s, (r, (i, g))) => {| sc_msg_slot := s; sc_msg_beacon_block_root := r; sc_msg_validator_index := i; sc_msg_signature := g |})
    _ (pair_f u64_f (pair_f root_f (pair_f u64_f sig_f)))).
  by intros [].
Defined.

Definition contribution_f : Fixed SyncCommitteeContribution.
Proof.
  refine (iso_f (fun c => (scc_slot c, (scc_beacon_block_root c, (scc_subcommittee_index c, (scc_aggregation_bits c, scc_signature c)))))
    (fun '(s, (r, (i, (b, g)))) => {| scc_slot := s; scc_beacon_block_root := r; scc_subcommittee_index := i;
                                      scc_aggregation_bits := b; scc_signature := g |})
    _ (pair_f u64_f (pair_f root_f (pair_f u64_f (pair_f (bytes_f 16) sig_f))))).
  by intros [].
Defined.

Definition contribution_proof_f : Fixed ContributionAndProof.
Proof.
  refine (iso_f (fun c => (cap_aggregator_index c, (cap_contribution c, cap_selection_proof c)))
    (fun '(i, (c, s)) => {| cap_aggregator_index := i; cap_contribution := c; cap_selection_proof := s |})
    _ (pair_f u64_f (pair_f contribution_f sig_f))).
  by intros [].
Defined.

Definition registration_f : Fixed ValidatorRegistration.
Proof.
  refine (iso_f (fun r => (vr_fee_recipient r, (vr_gas_limit r, (vr_timestamp r, vr_pubkey r))))
    (fun '(f, (g, (t, p))) => {| vr_fee_recipient := f; vr_gas_limit := g; vr_timestamp := t; vr_pubkey := p |})
    _ (pair_f (bytes_f 20) (pair_f u64_f (pair_f u64_f (bytes_f 48))))).
  by intros [].
Defined.

Definition exit_f : Fixed VoluntaryExit.
Proof.
  refine (iso_f (fun e => (ve_epoch e, ve_validator_index e)) (fun '(e, i) => {| ve_epoch := e; ve_validator_index := i |})
    _ (pair_f u64_f u64_f)).
  by intros [].
Defined.

Definition randao_f : Fixed SignedEpoch.
Proof.
  refine (iso_f (fun e => (se_epoch e, se_signature e)) (fun '(e, s) => {| se_epoch := e; se_signature := s |})
    _ (pair_f u64_f sig_f)).
  by intros [].
Defined.

Definition beacon_selection_f : Fixed BeaconCommitteeSelection.
Proof.
  refine (iso_f (fun x => (bcs_slot x, (bcs_validator_index x, bcs_selection_proof x)))
    (fun '(s, (i, p)) => {| bcs_slot := s; bcs_validator_index := i; bcs_selection_proof := p |})
    _ (pair_f u64_f (pair_f u64_f sig_f))).
  by intros [].
Defined.

Definition sync_selection_f : Fixed SyncCommitteeSelection.
Proof.
  refine (iso_f (fun x => (scs_slot x, (scs_validator_index x, (scs_subcommittee_index x, scs_selection_proof x))))
    (fun '(s, (i, (c, p))) => {| scs_slot := s; scs_validator_index := i; scs_subcommittee_index := c; scs_selection_proof := p |})
    _ (pair_f u64_f (pair_f u64_f (pair_f u64_f sig_f)))).
  by intros [].
Defined.

(** ** The instance *)

Definition codec_ssz {T} (c : Codec T) : Ssz T :=
  {| as_ssz_bytes := cenc c; from_ssz_bytes := cdec c; ssz_value := cval c |}.

(** JSON objects stand for their fields; the fallback formats are not used. *)
Definition codec_json {T} (f : Fixed T) : Json T :=
  {| to_json := fun x => Some (123 :: fenc f x); from_json := fun b => cdec (fixed_c f) (drop 1 b); json_value := fval f |}.
Definition no_json {T} : Json T := {| to_json := fun _ => None; from_json := fun _ => None; json_value := fun _ => False |}.
Definition string_json : Json string :=
  {| to_json := fun s => Some (bytes_of_string s); from_json := fun b => Some (string_of_bytes b); json_value := fun _ => True |}.

Module SszSample.
Import Eth2Sample.
#[local] Existing Instance spec_sample.

Definition block_f (k : BlockKind) : Fixed (Block k) := pair_f u64_f u64_f.

Definition contents_f (k : BlockKind) : Fixed (BlockContents k).
Proof.
  refine (iso_f bc_block (fun b => {| bc_block := b; bc_blobs := tt |}) _ (block_f k)). by intros [? []].
Defined.

Definition signed_contents_f (k : BlockKind) : Fixed (SignedBlockContents k).
Proof.
  refine (iso_f sbc_signed_block (fun b => {| sbc_signed_block := b; sbc_blobs := tt |}) _ (signed_f (block_f k))).
  by intros [? []].
Defined.

#[export] Instance ssz_sample : SpecSsz := {|
  ssz_att0 := codec_ssz att0_c; ssz_attE := codec_ssz attE_c; ssz_att_data := codec_ssz (fixed_c att_data_f);
  ssz_agg0 := codec_ssz (signed_c (aggregate_c att0_c)); ssz_aggE := codec_ssz (signed_c (aggregate_c attE_c));
  ssz_sync_message := codec_ssz (fixed_c sync_message_f); ssz_contribution := codec_ssz (fixed_c contribution_f);
  ssz_signed_contribution := codec_ssz (fixed_c (signed_f contribution_proof_f));
  ssz_registration := codec_ssz (fixed_c (signed_f registration_f));
  ssz_block := fun k => codec_ssz (fixed_c (block_f k)); ssz_block_contents := fun k => codec_ssz (fixed_c (contents_f k));
  ssz_signed_block := fun k => codec_ssz (fixed_c (signed_f (block_f k)));
  ssz_signed_contents := fun k => codec_ssz (fixed_c (signed_contents_f k)) |}.

#[export] Instance ssz_laws : SszLaws.
Proof.
  split; try (intros; by apply cdec_enc).
  - intros x Hx. unfold len. change (as_ssz_bytes x) with (fenc att_data_f x). by rewrite (fenc_len att_data_f x Hx).
  - intros [b d s]. eexists. cbn. by rewrite <-!app_assoc.
  - intros [b d s c]. eexists. cbn. by rewrite <-!app_assoc.
  - intros b x Hx. by apply container_first in Hx.
  - intros b x Hx. by apply container_first in Hx.
  - intros b x Hx. by apply container_first in Hx.
Qed.

Definition registration_json : Json VersionedSignedValidatorRegistration :=
  {| to_json := fun r => v1 ← vreg_v1 r; Some (123 :: fenc (signed_f registration_f) v1);
     from_json := fun b => v1 ← cdec (fixed_c (signed_f registration_f)) (drop 1 b);
                           Some {| vreg_version := BvV1; vreg_v1 := Some v1 |};
     json_value := fun r => vreg_version r = BvV1 /\ exists v1, vreg_v1 r = Some v1 /\ fval (signed_f registration_f) v1 |}.

#[export] Instance json_sample : SpecJson := {|
  json_string := string_json; json_att0 := no_json; json_attestation := no_json; json_signed_proposal := no_json;
  json_registration := registration_json; json_exit := codec_json (signed_f exit_f); json_randao := codec_json randao_f;
  json_beacon_selection := codec_json beacon_selection_f; json_sync_selection := codec_json sync_selection_f;
  json_agg0 := no_json; json_aggregate := no_json; json_sync_message := no_json; json_signed_contribution := no_json;
  json_proposal := no_json; json_contribution := no_json; json_attestation_duty := no_json;
  b64_encode := string_of_bytes; b64_decode := fun s => Some (bytes_of_string s) |}.

Lemma bytes_of_string_of_bytes b : Forall is_byte b -> bytes_of_string (string_of_bytes b) = b.
Proof.
  intros Hb. unfold bytes_of_string, string_of_bytes. rewrite String.list_ascii_of_string_of_list_ascii, <-list_fmap_compose.
  induction Hb as [|z b Hz _ IH]; [done|]. cbn [fmap list_fmap]. rewrite IH. f_equal. unfold compose, is_byte in *.
  rewrite Ascii.nat_ascii_embedding by lia. lia.
Qed.

#[export] Instance json_laws : JsonLaws.
Proof.
  split.
  - intros x. eexists. split; [done|]. cbn. by rewrite string_of_bytes_of_string.
  - intros [v r] [Hv (v1 & Hr & Hval)]. cbn in *. subst. eexists. split; [done|].
    pose proof (cdec_enc (fixed_c (signed_f registration_f)) v1 Hval) as Hd.
    change ((cdec (fixed_c (signed_f registration_f)) (cenc (fixed_c (signed_f registration_f)) v1) ≫=
      fun v => Some {| vreg_version := BvV1; vreg_v1 := Some v |}) = Some {| vreg_version := BvV1; vreg_v1 := Some v1 |}).
    by rewrite Hd.
  - intros x Hx. eexists. split; [done|]. by apply (cdec_enc (fixed_c (signed_f exit_f))).
  - intros x Hx. eexists. split; [done|]. by apply (cdec_enc (fixed_c randao_f)).
  - intros x Hx. eexists. split; [done|]. by apply (cdec_enc (fixed_c beacon_selection_f)).
  - intros x Hx. eexists. split; [done|]. by apply (cdec_enc (fixed_c sync_selection_f)).
  - intros b Hb. apply (f_equal Some). by apply bytes_of_string_of_bytes.
Qed.

(** A versioned attestation and its message. *)
Definition att_sample : Attestation0 := {|
  a0_aggregation_bits := bits_sample;
  a0_data := {| att_slot := 33; att_index := 2; att_beacon_block_root := replicate 32 7;
                att_source := {| cp_epoch := 0; cp_root := replicate 32 1 |};
                att_target := {| cp_epoch := 1; cp_root := replicate 32 2 |} |};
  a0_signature := replicate 96 9 |}.

Definition share_sample : ParSignedData SignedDatum :=
  {| signed_data := SdVersionedAttestation {| va_version := VDeneb; va_validator_index := None; va_attestation := Some (ApDeneb att_sample) |};
     share_idx := 3 |}.

Lemma att_sample_value : ssz_value att_sample.
Proof.
  split; [exact I|]. split; [|split; [exact bits_sample_wf|done]].
  repeat split; first [reflexivity | discriminate].
Qed.

Definition pk_sample : list Z := replicate 48 5.

Lemma pk_sample_bytes : Forall is_byte pk_sample.
Proof. by apply Forall_replicate. Qed.


Definition value_sample : UnsignedDatum :=
  UdAttestation (a0_data att_sample)
    {| ad_slot := 33; ad_validator_index := 4; ad_committee_index := 2; ad_committee_length := 10;
       ad_committees_at_slot := 8; ad_validator_committee_index := 1 |}.

Lemma proposed_values_exchanged_witness :
  exists msg, unsigned_data_set_to_proto string_of_bytes default_order {[pk_sample := value_sample]} = Ok msg /\
    unsigned_data_set_from_proto (fun s => Some (bytes_of_string s)) reverse_order Attester msg =
      Ok (on_wire <$> {[pk_sample := value_sample]}).
Proof.
  apply proposed_values_exchanged.
  - intros b Hb. f_equal. by apply bytes_of_string_of_bytes.
  - apply map_non_empty_singleton.
  - apply map_Forall_singleton. split_and!; [exact pk_sample_bytes|reflexivity|]. split; [done|]. split.
    + apply att_sample_value.
    + unfold duty_wf, U64_MAX. repeat constructor; cbn; lia.
Defined.
End SszSample.
