(* ===== verification/Bcast.v ===== *)
(** * The broadcaster and the recaster

    [crates/core/src/bcast/mod.rs] and [recast.rs], with the submissions of
    [crates/eth2api/src/validator_duty.rs]: aggregated data is converted,
    checked and submitted to the beacon node; registrations are submitted again
    in every epoch.  Submissions are recorded in a log, and the node's answers may
    depend on everything submitted before. *)

From S2P Require Import Prelude Bytes Types Version DutyDefs SszBits BeaconTypes ChainSpec Deadline ValCache Eth2Signed.

Open Scope Z_scope.

(** ** Submissions *)

(** [u8::trailing_zeros] of a byte that is not zero. *)
Definition trailing_zeros_u8 (b : Z) : Z :=
  default 8 (List.find (Z.testbit b) (seqZ 0 8)).

Fixpoint first_set_bit_from (byte_index : Z) (bytes : list Z) : option Z :=
  match bytes with
  | [] => None
  | b :: bytes => if b =? 0 then first_set_bit_from (byte_index + 1) bytes
                  else Some (byte_index * 8 + trailing_zeros_u8 b)
  end.
Definition first_set_bit (bytes : list Z) : option Z := first_set_bit_from 0 bytes.

(** The items of an attestation request, before Electra and since. *)
Inductive AttestationItem :=
| Item0 (bits : list Z) (data : AttestationData) (sig : BLSSignature)
| ItemE (attester_index committee_index : Z) (data : AttestationData) (sig : BLSSignature).

(** Why a submission failed: the beacon node's answer says that the attestation
    was known, or something else. *)
Inductive SubmitError := PriorAttestationKnown | OtherFailure.

Inductive BcError :=
| ClientError (context : string) (source : SubmitError)
| BcSignedData (e : SignedDataError)
| CryptoError
| InvalidTime
| BcArithmeticOverflow
| DeprecatedDutyBuilderProposer
| ExpectedOneItemInSet
| InvalidProposal
| InvalidRegistration
| InvalidExit
| InvalidAggregateAndProof
| InvalidSyncCommitteeMessage
| InvalidSyncCommitteeContribution
| InvalidAttestation
| NoAttestations
| InvalidValidatorField
| BcUnsupportedDutyType.

(** [eth2api::AttesterDuty]. *)
Record DutyOf := { do_slot : Z; do_validator_index : Z; do_pubkey : PubKey }.

Section bcast.
Context `{BeaconSpec}.

Abbreviation SignedDataSet := (gmap PubKey SignedDatum).

Inductive Submission :=
| SubmitAttestations (v : DataVersion) (items : list AttestationItem)
| SubmitProposal (v : DataVersion) (block : SignedProposalBlock)
| SubmitBlindedProposal (v : DataVersion) (block : SignedBlindedProposalBlock)
| SubmitRegistrations (items : list (SignedMsg ValidatorRegistration))
| SubmitExit (e : SignedMsg VoluntaryExit)
| SubmitAggregates (v : DataVersion) (electra : bool) (items : list AggregatePayload)
| SubmitSyncMessages (items : list SyncCommitteeMessage)
| SubmitContributions (items : list (SignedMsg ContributionAndProof)).

(** [BlstImpl::verify]. *)
Inductive BlsResult := BlsOk | BlsVerificationFailed | BlsError.

(** The beacon node and the clock; [bc_node] answers a submission on the log, and
    times are nanoseconds. *)
Record BcEnv := {
  bc_client : Client;
  bc_genesis_time : option Z;
  bc_now : Z;
  bc_chrono : Chrono;
  bc_complete_validators : option CompleteValidators;
  bc_attester_duties : Z -> list Z -> option (list DutyOf);
  bc_node : list Submission -> Submission -> option SubmitError;
}.

Context (hex_decode : string -> option (list Z)) (fork_data_root signing_data_root : list Z -> list Z -> list Z)
  (bls : PubKey -> list Z -> BLSSignature -> BlsResult) (env : BcEnv) (ho : HashOrder).

Abbreviation Bc := (proc (list Submission) BcError).

(** A request that reaches the node. *)
Definition send (s : Submission) : proc (list Submission) SubmitError unit :=
  fun log => (log ++ [s], match bc_node env log s with None => Ok tt | Some e => Err e end).

(** [ConsensusVersion::try_from]. *)
Definition consensus_version (v : DataVersion) : res SubmitError DataVersion :=
  if decide (v = VUnknown) then Err OtherFailure else Ok v.

Definition electra_item (a : VersionedAttestation) : res SubmitError AttestationItem :=
  payload ← ok_or (va_attestation a) OtherFailure;
  validator_index ← ok_or (va_validator_index a) OtherFailure;
  match payload with
  | ApElectra att | ApFulu att =>
      committee_index ← ok_or (first_set_bit (ae_committee_bits att)) OtherFailure;
      Ok (ItemE validator_index committee_index (ae_data att) (ae_signature att))
  | _ => Err OtherFailure
  end.

Definition phase0_item (a : VersionedAttestation) : res SubmitError AttestationItem :=
  payload ← ok_or (va_attestation a) OtherFailure;
  match payload with
  | ApPhase0 att | ApAltair att | ApBellatrix att | ApCapella att | ApDeneb att =>
      bits ← Bits.to_ssz_bytes (a0_aggregation_bits att);
      Ok (Item0 bits (a0_data att) (a0_signature att))
  | _ => Err OtherFailure
  end.

Definition attestations_request_body (l : list VersionedAttestation) : res SubmitError (list AttestationItem) :=
  match l with
  | a :: _ => if data_version_is_before_electra (va_version a) then collect phase0_item l else collect electra_item l
  | [] => collect phase0_item l
  end.

Definition submit_attestations (l : list VersionedAttestation) : proc (list Submission) SubmitError unit :=
  version ← p_lift (consensus_version (default VPhase0 (va_version <$> head l)));
  body ← p_lift (attestations_request_body l);
  send (SubmitAttestations version body).

Definition is_blinded_block (b : SignedProposalBlock) : bool :=
  match b with
  | SpBellatrixBlinded _ | SpCapellaBlinded _ | SpDenebBlinded _ | SpElectraBlinded _ | SpFuluBlinded _ => true
  | _ => false
  end.

Definition submit_signed_proposal (p : VersionedSignedProposal) : proc (list Submission) SubmitError unit :=
  version ← p_lift (consensus_version (vsp_version p));
  if is_blinded_block (vsp_block p) then p_fail OtherFailure else send (SubmitProposal version (vsp_block p)).

Definition submit_signed_blinded_proposal (p : VersionedSignedBlindedProposal)
    : proc (list Submission) SubmitError unit :=
  version ← p_lift (consensus_version (vsb_version p));
  send (SubmitBlindedProposal version (vsb_block p)).

Definition registration_request_item (r : VersionedSignedValidatorRegistration)
    : res SubmitError (SignedMsg ValidatorRegistration) :=
  match vreg_version r, vreg_v1 r with BvV1, Some v1 => Ok v1 | _, _ => Err OtherFailure end.

Definition submit_validator_registrations (l : list VersionedSignedValidatorRegistration)
    : proc (list Submission) SubmitError unit :=
  body ← p_lift (collect registration_request_item l);
  send (SubmitRegistrations body).

Definition submit_aggregate_attestations (l : list VersionedSignedAggregateAndProof)
    : proc (list Submission) SubmitError unit :=
  version ← p_lift (consensus_version (default VPhase0 (vag_version <$> head l)));
  let is_electra := match l with a :: _ => negb (data_version_is_before_electra (vag_version a)) | [] => false end in
  send (SubmitAggregates version is_electra (vag_payload <$> l)).

(** ** Conversions *)

Definition with_context {A : Type} (context : string) (m : proc (list Submission) SubmitError A) : Bc A :=
  p_catch m (fun e => p_fail (ClientError context e)).

(** [downcast_signed_data] to each type. *)
Definition as_attestation (d : SignedDatum) := match d with SdVersionedAttestation a => Some a | _ => None end.
Definition as_proposal (d : SignedDatum) := match d with SdProposal p => Some p | _ => None end.
Definition as_registration (d : SignedDatum) := match d with SdRegistration r => Some r | _ => None end.
Definition as_exit (d : SignedDatum) := match d with SdExit e => Some e | _ => None end.
Definition as_aggregate (d : SignedDatum) := match d with SdVersionedAggregate a => Some a | _ => None end.
Definition as_sync_message (d : SignedDatum) := match d with SdSyncMessage m => Some m | _ => None end.
Definition as_contribution (d : SignedDatum) := match d with SdSignedContribution c => Some c | _ => None end.

Definition set_to_one (set : SignedDataSet) : res BcError (PubKey * SignedDatum) :=
  if negb (size set =? 1)%nat then Err ExpectedOneItemInSet
  else match ho_list ho set with x :: _ => Ok x | [] => Panic end.

Definition set_values_to {T : Type} (set : SignedDataSet) (error : BcError) (downcast : SignedDatum -> option T)
    : res BcError (list T) :=
  collect (fun d => ok_or (downcast d) error) (ho_list ho set).*2.

Definition set_to_exits (set : SignedDataSet) : res BcError (list (PubKey * SignedMsg VoluntaryExit)) :=
  collect (fun '(pk, d) => e ← ok_or (as_exit d) InvalidExit; Ok (pk, e)) (ho_list ho set).

(** ** Validator indices *)

Fixpoint attestations_need_validator_indices (l : list VersionedAttestation) : bool :=
  match l with
  | [] => false
  | a :: l =>
      if data_version_is_before_electra (va_version a) then false
      else match va_validator_index a with None => true | Some _ => attestations_need_validator_indices l end
  end.

Fixpoint active_indices (epoch : Z) (l : list (Z * ValidatorDatum)) : res BcError (list Z) :=
  match l with
  | [] => Ok []
  | (index, datum) :: l =>
      activation_epoch ← ok_or (parse_u64 (vd_activation_epoch datum)) InvalidValidatorField;
      rest ← active_indices epoch l;
      Ok (if negb (is_active (vd_status datum)) && negb (activation_epoch =? epoch) then rest else index :: rest)
  end.

Definition resolve_active_validators_indices (epoch : Z) : res BcError (list Z) :=
  validators ← ok_or (bc_complete_validators env) (ClientError "complete validators" OtherFailure);
  active_indices epoch (ho_list ho validators).

Definition attestation_matches_duty (a : VersionedAttestation) (d : DutyOf) (domain : list Z) : res BcError bool :=
  payload ← ok_or (va_attestation a) InvalidAttestation;
  match bls (do_pubkey d) (signing_data_root (att_data_root (payload_data payload)) domain) (payload_signature payload) with
  | BlsOk => Ok true
  | BlsVerificationFailed => Ok false
  | BlsError => Err CryptoError
  end.

(** The loop over the attestations: the first that matches is stamped. *)
Fixpoint stamp (d : DutyOf) (domain : list Z) (l : list VersionedAttestation) : res BcError (list VersionedAttestation) :=
  match l with
  | [] => Ok []
  | a :: l =>
      matches ← attestation_matches_duty a d domain;
      if matches : bool then
        Ok ({| va_version := va_version a; va_validator_index := Some (do_validator_index d);
               va_attestation := va_attestation a |} :: l)
      else rest ← stamp d domain l; Ok (a :: rest)
  end.

Fixpoint stamp_all (slot : Z) (domain : list Z) (duties : list DutyOf) (l : list VersionedAttestation)
    : res BcError (list VersionedAttestation) :=
  match duties with
  | [] => Ok l
  | d :: duties =>
      if negb (do_slot d =? slot) then stamp_all slot domain duties l
      else l ← stamp d domain l; stamp_all slot domain duties l
  end.

Definition fetch_beacon_attester_domain (epoch : Z) : res ApiError (list Z) :=
  domain_type ← fetch_domain_type hex_decode (bc_client env) "DOMAIN_BEACON_ATTESTER";
  fetch_domain hex_decode fork_data_root (bc_client env) domain_type epoch.

Definition populate_missing_validator_indices (l : list VersionedAttestation) : res BcError (list VersionedAttestation) :=
  att0 ← ok_or (a ← head l; va_attestation a) InvalidAttestation;
  let epoch := cp_epoch (att_target (payload_data att0)) in
  let slot := att_slot (payload_data att0) in
  val_idxs ← resolve_active_validators_indices epoch;
  duties ← ok_or (bc_attester_duties env epoch val_idxs) (ClientError "fetch attester duties" OtherFailure);
  domain ← map_err (fun _ => ClientError "fetch beacon attester domain" OtherFailure) (fetch_beacon_attester_domain epoch);
  stamp_all slot domain duties l.

(** ** Broadcasting *)

Definition broadcast_attester (set : SignedDataSet) : Bc unit :=
  attestations ← p_lift (set_values_to set InvalidAttestation as_attestation);
  attestations ← p_lift
    (if attestations_need_validator_indices attestations then
       if decide (attestations = []) then Err NoAttestations else populate_missing_validator_indices attestations
     else Ok attestations);
  p_catch (submit_attestations attestations) (fun e =>
    if e is PriorAttestationKnown then p_lift (Ok tt) else p_fail (ClientError "submit attestations" e)).

Definition broadcast_proposer (set : SignedDataSet) : Bc unit :=
  '(_, agg_data) ← p_lift (set_to_one set);
  block ← p_lift (ok_or (as_proposal agg_data) InvalidProposal);
  if vsp_blinded block then
    proposal ← p_lift (map_err BcSignedData (to_blinded block));
    with_context "submit blinded proposal" (submit_signed_blinded_proposal proposal)
  else with_context "submit proposal" (submit_signed_proposal block).

Definition broadcast_builder_registration (set : SignedDataSet) : Bc unit :=
  registrations ← p_lift (set_values_to set InvalidRegistration as_registration);
  with_context "submit validator registrations" (submit_validator_registrations registrations).

(** One request per exit, the last error. *)
Fixpoint submit_exits (l : list (PubKey * SignedMsg VoluntaryExit)) (last_error : option SubmitError)
    : Bc (option SubmitError) :=
  match l with
  | [] => p_lift (Ok last_error)
  | (_, e) :: l => fun log =>
      match send (SubmitExit e) log with
      | (log, Err source) => submit_exits l (Some source) log
      | (log, _) => submit_exits l last_error log
      end
  end.

Definition broadcast_exits (set : SignedDataSet) : Bc unit :=
  exits ← p_lift (set_to_exits set);
  last_error ← submit_exits exits None;
  match last_error with
  | Some source => p_fail (ClientError "submit voluntary exit" source)
  | None => p_lift (Ok tt)
  end.

Definition broadcast_aggregator (set : SignedDataSet) : Bc unit :=
  aggregate_and_proofs ← p_lift (set_values_to set InvalidAggregateAndProof as_aggregate);
  with_context "submit aggregate attestations" (submit_aggregate_attestations aggregate_and_proofs).

Definition broadcast_sync_messages (set : SignedDataSet) : Bc unit :=
  messages ← p_lift (set_values_to set InvalidSyncCommitteeMessage as_sync_message);
  with_context "submit sync committee messages" (send (SubmitSyncMessages messages)).

Definition broadcast_sync_contributions (set : SignedDataSet) : Bc unit :=
  contributions ← p_lift (set_values_to set InvalidSyncCommitteeContribution as_contribution);
  with_context "submit sync committee contributions" (send (SubmitContributions contributions)).

Definition first_slot_in_current_epoch : res BcError Z :=
  genesis_time ← ok_or (bc_genesis_time env) (ClientError "fetch genesis time" OtherFailure);
  '(slot_duration, slots_per_epoch) ←
    map_err (fun _ => ClientError "fetch slots config" OtherFailure) (fetch_slots_config (bc_client env));
  let slot_duration_ms := slot_duration * 1000 in
  if I64_MAX <? slot_duration_ms then Err BcArithmeticOverflow
  else
    let chain_age_ms := Z.quot (bc_now env - genesis_time) 1000000 in
    if slot_duration_ms <=? 0 then Err InvalidTime
    else
      current_slot_i64 ← ok_or (checked_div_i64 chain_age_ms slot_duration_ms) BcArithmeticOverflow;
      current_slot ← (if current_slot_i64 <? 0 then Err InvalidTime else Ok current_slot_i64);
      current_epoch ← ok_or (checked_div_u64 current_slot slots_per_epoch) BcArithmeticOverflow;
      ok_or (guard_u64 (current_epoch * slots_per_epoch)) BcArithmeticOverflow.

(** [broadcast]; what follows a success is metrics. *)
Definition broadcast (duty : Duty) (set : SignedDataSet) : Bc unit :=
  match duty_type duty with
  | Attester => broadcast_attester set
  | Proposer => broadcast_proposer set
  | BuilderProposer => p_fail DeprecatedDutyBuilderProposer
  | BuilderRegistration => p_lift first_slot_in_current_epoch ;; broadcast_builder_registration set
  | Exit => broadcast_exits set
  | Randao | PrepareAggregator | PrepareSyncContribution => p_lift (Ok tt)
  | Aggregator => broadcast_aggregator set
  | SyncMessage => broadcast_sync_messages set
  | SyncContribution => broadcast_sync_contributions set
  | Unknown | Signature | InfoSync | DutySentinel _ => p_fail BcUnsupportedDutyType
  end.

(** ** Recasting *)

Record RecastTuple := { rc_duty : Duty; rc_agg_data : SignedDatum }.

(** Subscribers act on the log, and their errors are only reported. *)
Abbreviation RecastSubscriber := (Duty -> SignedDataSet -> Bc unit).

Record RecastState := { rc_tuples : gmap PubKey RecastTuple; rc_subs : list RecastSubscriber }.

Definition recaster_new : RecastState := {| rc_tuples := ∅; rc_subs := [] |}.

Definition recast_subscribe (sub : RecastSubscriber) (st : RecastState) : RecastState :=
  {| rc_tuples := rc_tuples st; rc_subs := rc_subs st ++ [sub] |}.

Definition store_one (duty : Duty) (pk : PubKey) (agg_data : SignedDatum) (st : RecastState) : RecastState :=
  match rc_tuples st !! pk with
  | Some tuple => if slot duty <=? slot (rc_duty tuple) then st
                  else {| rc_tuples := <[pk := {| rc_duty := duty; rc_agg_data := agg_data |}]> (rc_tuples st); rc_subs := rc_subs st |}
  | None => {| rc_tuples := <[pk := {| rc_duty := duty; rc_agg_data := agg_data |}]> (rc_tuples st); rc_subs := rc_subs st |}
  end.

Definition recast_store (duty : Duty) (set : SignedDataSet) (st : RecastState) : RecastState :=
  if decide (duty_type duty = BuilderRegistration) then
    foldl (fun st '(pk, d) => store_one duty pk d st) st (ho_list ho set)
  else st.

(** The sets to send: by duty, the data of active validators. *)
Definition recast_sets (active : gset PubKey) (st : RecastState) : gmap Duty SignedDataSet :=
  foldl (fun sets '(pk, tuple) =>
           if decide (pk ∈ active) then
             <[rc_duty tuple := <[pk := rc_agg_data tuple]> (default ∅ (sets !! rc_duty tuple))]> sets
           else sets) ∅ (ho_list ho (rc_tuples st)).

(** An error of a subscriber does not stop the others. *)
Fixpoint call_subs (duty : Duty) (set : SignedDataSet) (subs : list RecastSubscriber) : Bc unit :=
  match subs with
  | [] => p_lift (Ok tt)
  | sub :: subs => fun log =>
      match sub duty set log with
      | (log, Panic) => (log, Panic)
      | (log, _) => call_subs duty set subs log
      end
  end.

Fixpoint recast_all (subs : list RecastSubscriber) (sets : list (Duty * SignedDataSet)) : Bc unit :=
  match sets with
  | [] => p_lift (Ok tt)
  | (duty, set) :: sets => call_subs duty set subs ;; recast_all subs sets
  end.

(** [active]: the beacon node's answer. *)
Definition slot_ticked (s : Slot) (active : option (gset PubKey)) (st : RecastState) : Bc unit :=
  first ← p_lift (match first_in_epoch s with Ok b => Ok b | _ => Panic end);
  if negb first then p_lift (Ok tt)
  else
    active ← p_lift (ok_or active (ClientError "get active validator" OtherFailure));
    recast_all (rc_subs st) (ho_list ho (recast_sets active st)).
End bcast.
