(* ===== verification/BcastFacts.v ===== *)
(** * The broadcaster and the recaster: theorems *)

From S2P Require Import Prelude Bytes Types Version DutyDefs SszBits BeaconTypes ChainSpec Deadline ValCache Eth2Signed.
From S2P Require Import Bcast.

Open Scope Z_scope.

Section facts.
Context `{BeaconSpec}.
Context (hex_decode : string -> option (list Z)) (fork_data_root signing_data_root : list Z -> list Z -> list Z)
  (bls : PubKey -> list Z -> BLSSignature -> BlsResult) (env : BcEnv) (ho : HashOrder).

Abbreviation SignedDataSet := (gmap PubKey SignedDatum).

(** The signatures that a submission carries. *)
Definition item_signature (i : AttestationItem) : BLSSignature :=
  match i with Item0 _ _ s => s | ItemE _ _ _ s => s end.

Definition blinded_signature (b : SignedBlindedProposalBlock) : BLSSignature := proposal_signature (into_signed b).

Definition submission_signatures (s : Submission) : list BLSSignature :=
  match s with
  | SubmitAttestations _ items => item_signature <$> items
  | SubmitProposal _ b => [proposal_signature b]
  | SubmitBlindedProposal _ b => [blinded_signature b]
  | SubmitRegistrations items => sm_signature <$> items
  | SubmitExit e => [sm_signature e]
  | SubmitAggregates _ _ items => aggregate_signature <$> items
  | SubmitSyncMessages items => sc_msg_signature <$> items
  | SubmitContributions items => sm_signature <$> items
  end.

Definition signatures_of (new : list Submission) : list BLSSignature := concat (submission_signatures <$> new).

(** The signatures of a set, in the order of iteration. *)
Definition set_signatures (set : SignedDataSet) (sigs : list BLSSignature) : Prop :=
  Forall2 (fun d s => sd_signature d = Ok s) (ho_list ho set).*2 sigs.

(** Duties whose data is submitted. *)
Definition submits (t : DutyType) : bool :=
  match t with
  | Attester | Proposer | BuilderRegistration | Exit | Aggregator | SyncMessage | SyncContribution => true
  | _ => false
  end.

(** A step that submits all of the set's signatures, or nothing and then ends in
    [nothing]. *)
Definition delivers {E : Type} (nothing : res E unit -> Prop) (set : SignedDataSet) (p : proc (list Submission) E unit) : Prop :=
  forall sigs log log' r, set_signatures set sigs -> p log = (log', r) ->
    exists new, log' = log ++ new /\ (signatures_of new = sigs \/ (new = [] /\ nothing r)).

Definition refused (r : res SubmitError unit) : Prop := r = Err OtherFailure \/ r = Panic.
Abbreviation all_or_nothing := (delivers (fun r : res BcError unit => r <> Ok tt)).

(** ** Conversions *)

(** Items that carry the signatures of the data they were made of. *)
Lemma Forall2_signatures {X : Type} (values : list SignedDatum) (sigs : list BLSSignature) (items : list X)
    (down : SignedDatum -> option X) (sig : X -> BLSSignature) :
  Forall2 (fun d s => sd_signature d = Ok s) values sigs -> Forall2 (fun d x => down d = Some x) values items ->
  (forall d x s, down d = Some x -> sd_signature d = Ok s -> sig x = s) -> sig <$> items = sigs.
Proof.
  intros Hs Hi Hsig. revert items Hi. induction Hs as [|d s values sigs Hd _ IH]; intros items Hi; inversion Hi; subst; [done|].
  cbn. f_equal; [by eapply Hsig|by apply IH].
Qed.

Lemma set_values_spec {T : Type} (set : SignedDataSet) error (down : SignedDatum -> option T) l :
  set_values_to ho set error down = Ok l -> Forall2 (fun d x => down d = Some x) (ho_list ho set).*2 l.
Proof.
  intros Hl%collect_Ok. eapply Forall2_impl; [exact Hl|]. intros d x. cbn. by rewrite ok_or_Ok.
Qed.

Lemma set_values_no_panic {T : Type} (set : SignedDataSet) error (down : SignedDatum -> option T) :
  set_values_to ho set error down <> Panic.
Proof.
  unfold set_values_to. induction ((ho_list ho set).*2) as [|d l IH]; [done|]. cbn.
  destruct (down d); cbn; [|done]. by destruct (collect _ l).
Qed.

(** ** Submissions *)

Lemma delivers_lift {E A : Type} (nothing : res E unit -> Prop) (set : SignedDataSet) (r : res E A) (f : A -> proc (list Submission) E unit) :
  (forall e, r = Err e -> nothing (Err e)) -> nothing Panic -> (forall x, r = Ok x -> delivers nothing set (f x)) ->
  delivers nothing set (p_lift r ≫= f).
Proof.
  intros He Hp Hf sigs log log' r' Hs. cbn. destruct r as [x|e|]; cbn; [by apply Hf|..]; intros [= <- <-];
    exists []; rewrite app_nil_r; auto.
Qed.

Lemma delivers_send (nothing : res SubmitError unit -> Prop) (set : SignedDataSet) (sub : Submission) :
  (forall sigs, set_signatures set sigs -> submission_signatures sub = sigs) -> delivers nothing set (send env sub).
Proof.
  intros Hsub sigs log log' r Hs. cbn. intros [= <- <-]. exists [sub]. split; [done|]. left.
  unfold signatures_of. cbn. rewrite app_nil_r. by apply Hsub.
Qed.

Lemma delivers_catch (set : SignedDataSet) (m : proc (list Submission) SubmitError unit)
    (h : SubmitError -> proc (list Submission) BcError unit) :
  delivers refused set m -> (forall e log, fst (h e log) = log) -> (forall log, snd (h OtherFailure log) <> Ok tt) ->
  all_or_nothing set (p_catch m h).
Proof.
  intros Hm Hlog Hfail sigs log log' r Hs. unfold p_catch. destruct (m log) as [l1 r1] eqn:E.
  destruct (Hm sigs log l1 r1 Hs E) as (new & -> & Hnew). intros Hr. exists new.
  destruct r1 as [[]|e|]; cbn in Hr.
  - injection Hr as <- <-. split; [done|]. destruct Hnew as [?|[_ [|]]]; [by left|done|done].
  - assert (log' = log ++ new) as -> by (rewrite <-(Hlog e (log ++ new)); by rewrite Hr).
    split; [done|]. destruct Hnew as [?|[-> [[= ->]|]]]; [by left| |done]. right. split; [done|].
    specialize (Hfail (log ++ [])). by rewrite Hr in Hfail.
  - injection Hr as <- <-. split; [done|]. destruct Hnew as [?|[-> _]]; [by left|by right].
Qed.

Lemma delivers_context (set : SignedDataSet) (context : string) (m : proc (list Submission) SubmitError unit) :
  delivers refused set m -> all_or_nothing set (with_context context m).
Proof. intros Hm. by apply delivers_catch. Qed.

(** A set converted and submitted. *)
Lemma delivers_values {T : Type} (set : SignedDataSet) error (down : SignedDatum -> option T)
    (f : list T -> proc (list Submission) BcError unit) :
  (forall l, Forall2 (fun d x => down d = Some x) (ho_list ho set).*2 l -> all_or_nothing set (f l)) ->
  all_or_nothing set (p_lift (set_values_to ho set error down) ≫= f).
Proof.
  intros Hf. apply delivers_lift; [done|done|]. intros l Hl%set_values_spec. by apply Hf.
Qed.

Lemma sync_messages_delivered (set : SignedDataSet) : all_or_nothing set (broadcast_sync_messages env ho set).
Proof.
  apply delivers_values. intros l Hl. apply delivers_context, delivers_send. intros sigs Hs. cbn.
  eapply Forall2_signatures; [exact Hs|exact Hl|]. intros d x sg; destruct d; cbn; congruence.
Qed.

Lemma contributions_delivered (set : SignedDataSet) : all_or_nothing set (broadcast_sync_contributions env ho set).
Proof.
  apply delivers_values. intros l Hl. apply delivers_context, delivers_send. intros sigs Hs. cbn.
  eapply Forall2_signatures; [exact Hs|exact Hl|]. intros d x sg; destruct d; cbn; congruence.
Qed.

Lemma aggregates_delivered (set : SignedDataSet) : all_or_nothing set (broadcast_aggregator env ho set).
Proof.
  apply delivers_values. intros l Hl. apply delivers_context, delivers_lift.
  - unfold consensus_version. intros e. case_decide; [intros [= <-]; by left|done].
  - by right.
  - intros v _. apply delivers_send. intros sigs Hs. cbn. rewrite <-list_fmap_compose.
    eapply Forall2_signatures; [exact Hs|exact Hl|]. intros d x sg; destruct d; cbn; try done. intros [= <-]. case_decide; [done|].
    by intros [= <-].
Qed.

Lemma collect_Err {E A B : Type} (f : A -> res E B) l e : collect f l = Err e -> exists x, x ∈ l /\ f x = Err e.
Proof.
  induction l as [|x l IH]; [done|]. cbn. destruct (f x) as [y|e'|] eqn:Hx; cbn; [|by intros [= <-]; exists x; split; [left|]|done].
  destruct (collect f l); cbn; [done| |done]. intros He. destruct (IH He) as (z & Hz & Hf). exists z. split; [by right|done].
Qed.

(** Requests whose items are all of the set. *)
Lemma delivers_items {T I : Type} (set : SignedDataSet) (R : SignedDatum -> T -> Prop) (item : T -> res SubmitError I)
    (l : list T) (sub : list I -> Submission) (sig : I -> BLSSignature) :
  Forall2 R (ho_list ho set).*2 l ->
  (forall x e, item x = Err e -> e = OtherFailure) ->
  (forall d x i s, R d x -> item x = Ok i -> sd_signature d = Ok s -> sig i = s) ->
  (forall items, submission_signatures (sub items) = sig <$> items) ->
  delivers refused set (p_lift (collect item l) ≫= fun items => send env (sub items)).
Proof.
  intros Hl Herr Hsig Hsub. apply delivers_lift; [|by right|].
  - intros e (x & _ & Hx)%collect_Err. left. f_equal. by eapply Herr.
  - intros items Hi%collect_Ok. apply delivers_send. intros sigs Hs. rewrite Hsub. unfold set_signatures in Hs.
    revert items sigs Hi Hs. induction Hl as [|d x ds l Hd _ IH]; intros items sigs Hi Hs;
      inversion Hi; subst; inversion Hs; subst; [done|]. cbn. f_equal; [by eapply Hsig|by apply IH].
Qed.

Lemma registrations_delivered (set : SignedDataSet) : all_or_nothing set (broadcast_builder_registration env ho set).
Proof.
  apply delivers_values. intros l Hl. apply delivers_context.
  apply (delivers_items set (fun d x => as_registration d = Some x) registration_request_item l SubmitRegistrations sm_signature); [done| | |done].
  - intros x e. unfold registration_request_item. destruct (vreg_version x), (vreg_v1 x); congruence.
  - intros d x i sg. destruct d; cbn; try done. intros [= <-]. unfold registration_request_item, registration_payload.
    destruct (vreg_version r); [done|]. destruct (vreg_v1 r); [|done]. cbn. congruence.
Qed.

Lemma into_blinded_signed b b' : into_blinded b = Some b' -> into_signed b' = b.
Proof. destruct b; cbn; try done; by intros [= <-]. Qed.

Lemma proposal_delivered (set : SignedDataSet) : all_or_nothing set (broadcast_proposer env ho set).
Proof.
  unfold broadcast_proposer. apply delivers_lift; [done|done|]. intros [pk d] Hone.
  apply delivers_lift; [done|done|]. intros block Hb%ok_or_Ok. destruct d as [|p| | | | | | | | | | | | ]; try done.
  injection Hb as ->.
  assert (forall sigs, set_signatures set sigs -> exists s, sigs = [s] /\ sd_signature (SdProposal block) = Ok s) as Hsigs.
  { intros sigs Hs. unfold set_to_one in Hone. destruct (negb _) eqn:E; [done|]. unfold set_signatures in Hs.
    apply negb_false_iff, Nat.eqb_eq in E. pose proof (Permutation_length (ho_perm ho set)) as Hlen.
    rewrite length_map_to_list, E in Hlen. destruct (ho_list ho set) as [|x [|]]; try done. injection Hone as ->.
    cbn in Hs. inversion Hs as [|? s ? l Hd Hl]; subst. inversion Hl; subst. eauto. }
  assert (forall e, consensus_version (vsp_version block) = Err e -> refused (Err e)) as Hv.
  { intros e. unfold consensus_version. case_decide; [intros [= <-]; by left|done]. }
  assert (forall s, sd_signature (SdProposal block) = Ok s -> proposal_signature (vsp_block block) = s) as Hsig.
  { intros s. cbn. case_decide; congruence. }
  destruct (vsp_blinded block) eqn:Hbl.
  - apply delivers_lift; [done|done|]. intros bp Hbp. unfold to_blinded in Hbp. rewrite Hbl in Hbp. cbn in Hbp.
    destruct (into_blinded (vsp_block block)) as [bb|] eqn:Hbb; cbn in Hbp; [|done]. injection Hbp as <-.
    apply delivers_context, delivers_lift; [exact Hv|by right|]. intros v _. apply delivers_send.
    intros sigs (s & -> & Hs)%Hsigs. cbn. unfold blinded_signature. rewrite (into_blinded_signed _ _ Hbb).
    by rewrite (Hsig s Hs).
  - apply delivers_context, delivers_lift; [exact Hv|by right|]. intros v _.
    destruct (is_blinded_block (vsp_block block)).
    + intros sigs log log' r _ [= <- <-]. exists []. rewrite app_nil_r. split; [done|]. right. split; [done|by left].
    + apply delivers_send. intros sigs (s & -> & Hs)%Hsigs. cbn. by rewrite (Hsig s Hs).
Qed.

(** Every exit is submitted, and there is an error exactly when one was refused. *)
Lemma submit_exits_spec l last_error log :
  exists e, submit_exits env l last_error log = (log ++ (SubmitExit <$> l.*2), Ok e) /\
    (e = None <-> last_error = None /\
       forall l1 x l2, l = l1 ++ x :: l2 -> bc_node env (log ++ (SubmitExit <$> l1.*2)) (SubmitExit x.2) = None).
Proof.
  revert last_error log. induction l as [|[pk x] l IH]; intros last_error log; cbn.
  - exists last_error. rewrite app_nil_r. split; [done|]. split; [|tauto]. intros ->. split; [done|]. by intros [|].
  - destruct (IH (match bc_node env log (SubmitExit x) with None => last_error | Some e => Some e end) (log ++ [SubmitExit x]))
      as (e & He & Hnone).
    exists e. split; [by destruct (bc_node env log (SubmitExit x)); rewrite He, <-app_assoc|].
    rewrite Hnone. split.
    + intros [Hle Hall]. destruct (bc_node env log (SubmitExit x)) eqn:Hx; [done|]. split; [done|].
      intros l1 z l2 Hl. destruct l1 as [|y l1]; injection Hl as <- ->; [cbn; by rewrite app_nil_r|].
      rewrite <-(Hall l1 z l2 eq_refl). cbn. by rewrite <-app_assoc.
    + intros [-> Hall]. pose proof (Hall [] (pk, x) l eq_refl) as Hx. cbn in Hx. rewrite app_nil_r in Hx. rewrite Hx. split; [done|].
      intros l1 z l2 ->. rewrite <-(Hall ((pk, x) :: l1) z l2 eq_refl). cbn. by rewrite <-app_assoc.
Qed.

Lemma set_to_exits_spec (set : SignedDataSet) l :
  set_to_exits ho set = Ok l -> Forall2 (fun d e => as_exit d = Some e) (ho_list ho set).*2 l.*2.
Proof.
  intros Hl%collect_Ok. induction Hl as [|[pk d] [pk' e] ds l Hd _ IH]; [done|]. cbn in *. constructor; [|done].
  destruct (as_exit d); cbn in Hd; congruence.
Qed.

Lemma exits_delivered (set : SignedDataSet) : all_or_nothing set (broadcast_exits env ho set).
Proof.
  apply delivers_lift; [done|done|]. intros l Hl%set_to_exits_spec sigs log log' r Hs.
  destruct (submit_exits_spec l None log) as (e & He & _). unfold mbind, proc_bind. rewrite He. intros Hr.
  exists (SubmitExit <$> l.*2). split; [by destruct e; injection Hr as <- _|]. left.
  assert (sm_signature <$> l.*2 = sigs) as <-.
  { eapply Forall2_signatures; [exact Hs|exact Hl|]. intros d x sg; destruct d; cbn; congruence. }
  generalize (l.*2). intros xs. induction xs as [|x xs IH]; [done|]. cbn. f_equal. exact IH.
Qed.

(** ** Attestations *)

(** Stamping changes validator indices only. *)
Lemma stamp_payloads d domain l l' :
  stamp signing_data_root bls d domain l = Ok l' ->
  va_attestation <$> l' = va_attestation <$> l /\ va_version <$> l' = va_version <$> l.
Proof.
  revert l'. induction l as [|a l IH]; intros l'; cbn; [by intros [= <-]|].
  destruct (attestation_matches_duty signing_data_root bls a d domain) as [[]| |]; cbn; [by intros [= <-]| |done|done].
  destruct (stamp signing_data_root bls d domain l) as [rest| |]; cbn; [|done|done]. intros [= <-]. cbn.
  destruct (IH rest eq_refl) as [-> ->]. done.
Qed.

Lemma stamp_all_payloads slot domain duties l l' :
  stamp_all signing_data_root bls slot domain duties l = Ok l' ->
  va_attestation <$> l' = va_attestation <$> l /\ va_version <$> l' = va_version <$> l.
Proof.
  revert l. induction duties as [|d duties IH]; intros l; cbn; [by intros [= <-]|].
  destruct (negb (do_slot d =? slot)); [by apply IH|]. intros (l1 & Hl1 & Hl')%res_bind_Ok.
  destruct (IH _ Hl') as [-> ->]. by eapply stamp_payloads.
Qed.

Lemma populate_payloads l l' :
  populate_missing_validator_indices hex_decode fork_data_root signing_data_root bls env ho l = Ok l' ->
  va_attestation <$> l' = va_attestation <$> l /\ va_version <$> l' = va_version <$> l.
Proof. unfold populate_missing_validator_indices. intros Hp. inv_res. by eapply stamp_all_payloads. Qed.

Lemma to_ssz_no_error {E : Type} (b : BitList) (e : E) : Bits.to_ssz_bytes b <> Err e.
Proof.
  unfold Bits.to_ssz_bytes, Bits.append_sentinel, or_bit. destruct (BIT_MASK !! _); cbn; [|done].
  by destruct (_ !! Z.to_nat (bit_len b / 8)).
Qed.

Lemma electra_item_spec a :
  (forall e, electra_item a = Err e -> e = OtherFailure) /\
  (forall i, electra_item a = Ok i -> exists p, va_attestation a = Some p /\ item_signature i = payload_signature p).
Proof.
  unfold electra_item. destruct (va_attestation a) as [p|]; cbn; [|by split; intros ? [= <-]].
  destruct (va_validator_index a); cbn; [|by split; intros ? [= <-]].
  destruct p; cbn; try (by split; intros ? [= <-]); destruct (first_set_bit _); cbn; split; intros ? [= <-]; eauto.
Qed.

Lemma phase0_item_spec a :
  (forall e, phase0_item a = Err e -> e = OtherFailure) /\
  (forall i, phase0_item a = Ok i -> exists p, va_attestation a = Some p /\ item_signature i = payload_signature p).
Proof.
  unfold phase0_item. destruct (va_attestation a) as [p|]; cbn; [|by split; intros ? [= <-]].
  destruct p; cbn; try (by split; intros ? [= <-]);
    destruct (Bits.to_ssz_bytes _) as [b|e|] eqn:E; cbn; try (by apply to_ssz_no_error in E); split; intros ? [= <-]; eauto.
Qed.

Definition same_attestation (d : SignedDatum) (a : VersionedAttestation) : Prop :=
  exists a0, d = SdVersionedAttestation a0 /\ va_attestation a = va_attestation a0.

Lemma submit_attestations_delivers (set : SignedDataSet) l :
  Forall2 same_attestation (ho_list ho set).*2 l -> delivers refused set (submit_attestations env l).
Proof.
  intros Hl. apply delivers_lift; [|by right|].
  { unfold consensus_version. intros e. case_decide; [intros [= <-]; by left|done]. }
  intros v _.
  assert (forall item, (forall a e, item a = Err e -> e = OtherFailure) ->
    (forall a i, item a = Ok i -> exists p, va_attestation a = Some p /\ item_signature i = payload_signature p) ->
    delivers refused set (p_lift (collect item l) ≫= fun items => send env (SubmitAttestations v items))) as Hitems.
  { intros item Herr Hok. apply (delivers_items set same_attestation item l (SubmitAttestations v) item_signature); [done|done| |done].
    intros d a i sg (a0 & -> & Ha) (p & Hp & Hsig)%Hok. cbn. unfold attestation_payload. rewrite <-Ha, Hp.
    case_decide; [done|]. cbn. congruence. }
  assert (delivers refused set (p_lift (collect phase0_item l) ≫= fun items => send env (SubmitAttestations v items))) as H0
    by (apply Hitems; intros a; apply phase0_item_spec).
  unfold attestations_request_body. destruct l as [|a l']; [exact H0|].
  destruct (data_version_is_before_electra (va_version a)); [exact H0|]. apply Hitems; intros b; apply electra_item_spec.
Qed.

Lemma attestations_delivered (set : SignedDataSet) :
  all_or_nothing set (broadcast_attester hex_decode fork_data_root signing_data_root bls env ho set).
Proof.
  apply delivers_values. intros l Hl. apply delivers_lift; [done|done|]. intros l' Hl'.
  assert (va_attestation <$> l' = va_attestation <$> l) as Hsame.
  { destruct (attestations_need_validator_indices l); [|by injection Hl' as <-].
    case_decide; [done|]. apply populate_payloads in Hl' as [Hp _]. exact Hp. }
  apply delivers_catch; [|by intros [] ?|done]. apply submit_attestations_delivers. clear Hl'.
  revert l' Hsame. induction Hl as [|d a ds l Hd _ IH]; intros [|a' l'] Hsame; try done; constructor.
  - injection Hsame as Ha _. destruct d; try done. injection Hd as ->. by eexists.
  - apply IH. by injection Hsame.
Qed.

Lemma broadcast_delivers (duty : Duty) (set : SignedDataSet) sigs log log' r :
  set_signatures set sigs ->
  broadcast hex_decode fork_data_root signing_data_root bls env ho duty set log = (log', r) ->
  exists new, log' = log ++ new /\
    if submits (duty_type duty) then signatures_of new = sigs \/ (new = [] /\ r <> Ok tt) else new = [].
Proof.
  intros Hs. unfold broadcast. destruct (duty_type duty); cbn [submits];
    try (intros [= <- <-]; exists []; by rewrite app_nil_r).
  - by apply proposal_delivered.
  - by apply attestations_delivered.
  - by apply exits_delivered.
  - apply (delivers_lift (fun r : res BcError unit => r <> Ok tt) set (first_slot_in_current_epoch env)
      (fun _ => broadcast_builder_registration env ho set)); [done|done| |done]. intros _ _. apply registrations_delivered.
  - by apply aggregates_delivered.
  - by apply sync_messages_delivered.
  - by apply contributions_delivered.
Qed.

(** ** Publication *)

Definition electra_payload (p : AttestationPayload) : bool :=
  match p with ApElectra _ | ApFulu _ => true | _ => false end.

(** An attestation that the beacon node's request format can hold, of the era
    before Electra or since. *)
Definition attestation_publishable (electra : bool) (a : VersionedAttestation) : Prop :=
  va_version a <> VUnknown /\ data_version_is_before_electra (va_version a) = negb electra /\
  exists p, va_attestation a = Some p /\
    match p with
    | ApElectra att | ApFulu att =>
        electra = true /\ is_Some (va_validator_index a) /\ is_Some (first_set_bit (ae_committee_bits att))
    | ApPhase0 att | ApAltair att | ApBellatrix att | ApCapella att | ApDeneb att =>
        electra = false /\ exists b, @Bits.to_ssz_bytes SubmitError (a0_aggregation_bits att) = Ok b
    end.

(** Data that its duty publishes. *)
Definition datum_publishable (t : DutyType) (electra : bool) (d : SignedDatum) : Prop :=
  match t, d with
  | Attester, SdVersionedAttestation a => attestation_publishable electra a
  | Proposer, SdProposal p => vsp_version p <> VUnknown /\ is_blinded_block (vsp_block p) = vsp_blinded p
  | BuilderRegistration, SdRegistration r => vreg_version r = BvV1 /\ is_Some (vreg_v1 r)
  | Exit, SdExit _ => True
  | Aggregator, SdVersionedAggregate a => vag_version a <> VUnknown
  | SyncMessage, SdSyncMessage _ => True
  | SyncContribution, SdSignedContribution _ => True
  | _, _ => False
  end.

(** Sets that their duty publishes: of such data, one proposal, and
    registrations when the clock and the chain's configuration can be read. *)
Definition publishable (t : DutyType) (electra : bool) (set : SignedDataSet) : Prop :=
  set <> ∅ /\ (t = Proposer -> size set = 1%nat) /\
  (t = BuilderRegistration -> is_Ok (first_slot_in_current_epoch env) = true) /\
  map_Forall (fun _ => datum_publishable t electra) set.

(** Every submission of an exit set, or one of another set. *)
Definition sends {E : Type} (p : proc (list Submission) E unit) : Prop :=
  forall log, exists sub subs r, p log = (log ++ sub :: subs, r) /\ r <> Panic.

Lemma collect_total {E A B : Type} (f : A -> res E B) l :
  (forall x, x ∈ l -> exists y, f x = Ok y) -> exists ys, collect f l = Ok ys.
Proof.
  induction l as [|x l IH]; intros Hf; [by eexists|]. cbn. destruct (Hf x) as [y ->]; [by left|].
  destruct IH as [ys ->]; [intros z Hz; apply Hf; by right|]. by eexists.
Qed.

Lemma elem_of_values (set : SignedDataSet) d : d ∈ (ho_list ho set).*2 -> exists pk, set !! pk = Some d.
Proof. intros ([pk d'] & -> & Hin%elem_of_ho_list)%list_elem_of_fmap. eauto. Qed.

Lemma values_total {T : Type} (set : SignedDataSet) error (down : SignedDatum -> option T) :
  map_Forall (fun _ d => is_Some (down d)) set -> exists l, set_values_to ho set error down = Ok l.
Proof.
  intros Hall. apply collect_total. intros d (pk & Hd)%elem_of_values. destruct (Hall _ _ Hd) as [x Hx].
  exists x. by rewrite Hx.
Qed.

Lemma send_sends {E : Type} (m : proc (list Submission) E unit) sub (h : SubmitError -> proc (list Submission) E unit) :
  (forall e log, fst (h e log) = log /\ snd (h e log) <> Panic) -> (forall log, m log = p_catch (send env sub) h log) -> sends m.
Proof.
  intros Hh Hm log. rewrite Hm. unfold p_catch. cbn. destruct (bc_node env log sub) as [e|]; cbn.
  - destruct (Hh e (log ++ [sub])) as [Hl Hp]. destruct (h e (log ++ [sub])) as [log' r]. cbn in *. subst log'. eauto.
  - eexists _, _, _. split; [reflexivity|done].
Qed.

Lemma context_fails context : forall e log,
  fst (p_fail (ClientError context e) log : list Submission * res BcError unit) = log /\
  snd (p_fail (ClientError context e) log : list Submission * res BcError unit) <> Panic.
Proof. done. Qed.

Lemma first_version_known {A : Type} (ver : A -> DataVersion) (l : list A) :
  (forall x, x ∈ l -> ver x <> VUnknown) -> consensus_version (default VPhase0 (ver <$> head l)) = Ok (default VPhase0 (ver <$> head l)).
Proof.
  intros Hl. unfold consensus_version. rewrite decide_False; [done|]. destruct l as [|x l]; [done|]. apply Hl. by left.
Qed.

Lemma lift_Ok {E A : Type} (x : A) (f : A -> proc (list Submission) E unit) : (p_lift (Ok x) ≫= f) = f x.
Proof. done. Qed.

Lemma sync_messages_sent (electra : bool) (set : SignedDataSet) :
  publishable SyncMessage electra set -> sends (broadcast_sync_messages env ho set).
Proof.
  intros (_ & _ & _ & Hp). destruct (values_total set InvalidSyncCommitteeMessage as_sync_message) as [l Hl].
  { intros pk d Hd. specialize (Hp _ _ Hd). by destruct d. }
  eapply send_sends; [apply context_fails|]. intros log. unfold broadcast_sync_messages. by rewrite Hl.
Qed.

Lemma contributions_sent (electra : bool) (set : SignedDataSet) :
  publishable SyncContribution electra set -> sends (broadcast_sync_contributions env ho set).
Proof.
  intros (_ & _ & _ & Hp). destruct (values_total set InvalidSyncCommitteeContribution as_contribution) as [l Hl].
  { intros pk d Hd. specialize (Hp _ _ Hd). by destruct d. }
  eapply send_sends; [apply context_fails|]. intros log. unfold broadcast_sync_contributions. by rewrite Hl.
Qed.

Lemma aggregates_sent (electra : bool) (set : SignedDataSet) : publishable Aggregator electra set -> sends (broadcast_aggregator env ho set).
Proof.
  intros (_ & _ & _ & Hp). destruct (values_total set InvalidAggregateAndProof as_aggregate) as [l Hl].
  { intros pk d Hd. specialize (Hp _ _ Hd). by destruct d. }
  eapply send_sends; [apply context_fails|]. intros log. unfold broadcast_aggregator. rewrite Hl, lift_Ok.
  unfold submit_aggregate_attestations. rewrite first_version_known, lift_Ok; [reflexivity|].
  intros a Ha. apply set_values_spec in Hl. apply list_elem_of_lookup_1 in Ha as [i Hi].
  destruct (Forall2_lookup_r _ _ _ _ _ Hl Hi) as (d & Hd & Hda). apply list_elem_of_lookup_2, elem_of_values in Hd as [pk Hd].
  specialize (Hp _ _ Hd). destruct d; try done. by injection Hda as ->.
Qed.

Lemma registrations_sent (electra : bool) (set : SignedDataSet) :
  publishable BuilderRegistration electra set -> sends (broadcast_builder_registration env ho set).
Proof.
  intros (_ & _ & _ & Hp). destruct (values_total set InvalidRegistration as_registration) as [l Hl].
  { intros pk d Hd. specialize (Hp _ _ Hd). by destruct d. }
  destruct (collect_total registration_request_item l) as [items Hi].
  { intros r Hr. pose proof (set_values_spec _ _ _ _ Hl) as Hl'. apply list_elem_of_lookup_1 in Hr as [i Hi].
    destruct (Forall2_lookup_r _ _ _ _ _ Hl' Hi) as (d & Hd & Hda). apply list_elem_of_lookup_2, elem_of_values in Hd as [pk Hd].
    specialize (Hp _ _ Hd). destruct d; try done. injection Hda as ->. destruct Hp as [Hv [v1 Hv1]].
    exists v1. unfold registration_request_item. by rewrite Hv, Hv1. }
  eapply send_sends; [apply context_fails|]. intros log. unfold broadcast_builder_registration. rewrite Hl, lift_Ok.
  unfold submit_validator_registrations. by rewrite Hi, lift_Ok.
Qed.

Lemma proposal_sent (electra : bool) (set : SignedDataSet) : publishable Proposer electra set -> sends (broadcast_proposer env ho set).
Proof.
  intros (_ & Hsize & _ & Hall). specialize (Hsize eq_refl).
  pose proof (Permutation_length (ho_perm ho set)) as Hlen. rewrite length_map_to_list, Hsize in Hlen.
  destruct (ho_list ho set) as [|[pk d] [|]] eqn:Hl; try done.
  assert (set !! pk = Some d) as Hd by (apply (elem_of_ho_list ho); rewrite Hl; by left).
  specialize (Hall _ _ Hd). destruct d as [|p| | | | | | | | | | | | ]; try done. destruct Hall as [Hv Hbl].
  assert (set_to_one ho set = Ok (pk, SdProposal p)) as Hone by (unfold set_to_one; by rewrite Hsize, Hl).
  assert (consensus_version (vsp_version p) = Ok (vsp_version p)) as Hcv by (unfold consensus_version; by rewrite decide_False).
  unfold broadcast_proposer. rewrite Hone, lift_Ok. cbn [as_proposal ok_or]. rewrite lift_Ok.
  destruct (vsp_blinded p) eqn:Hb.
  - assert (exists bb, into_blinded (vsp_block p) = Some bb) as [bb Hbb] by (destruct (vsp_block p); try done; by eexists).
    unfold to_blinded. rewrite Hb, Hbb. cbn [negb ok_or mbind res_bind Prelude.map_err]. rewrite lift_Ok.
    eapply send_sends; [apply context_fails|]. intros log. unfold submit_signed_blinded_proposal. cbn [vsb_version]. by rewrite Hcv, lift_Ok.
  - eapply send_sends; [apply context_fails|]. intros log. unfold submit_signed_proposal. rewrite Hcv, lift_Ok.
    by rewrite Hbl.
Qed.

Lemma exits_sent (electra : bool) (set : SignedDataSet) : publishable Exit electra set -> sends (broadcast_exits env ho set).
Proof.
  intros (Hne & _ & _ & Hp) log.
  destruct (collect_total (fun '(pk, d) => e ← ok_or (as_exit d) InvalidExit; Ok (pk, e)) (ho_list ho set)) as [l Hl].
  { intros [pk d] Hin%elem_of_ho_list. specialize (Hp _ _ Hin). destruct d; try done. by eexists. }
  unfold broadcast_exits, set_to_exits. rewrite Hl, lift_Ok.
  destruct (submit_exits_spec l None log) as (e & He & _). unfold mbind, proc_bind. rewrite He.
  apply collect_Ok in Hl. destruct l as [|[pk x] l].
  - inversion Hl as [Hnil|]. destruct Hne. apply map_to_list_empty_iff, Permutation_nil.
    by rewrite <-(ho_perm ho set), <-Hnil.
  - cbn. by destruct e; eexists _, _, _.
Qed.

Lemma no_indices_needed electra l :
  Forall (attestation_publishable electra) l -> attestations_need_validator_indices l = false.
Proof.
  induction 1 as [|a l (Hv & He & p & Hp & Hm) _ IH]; [done|]. cbn. rewrite He. destruct electra; [|done]. cbn.
  assert (is_Some (va_validator_index a)) as [i ->]; [|done]. destruct p; naive_solver.
Qed.

Lemma items_total electra l :
  Forall (attestation_publishable electra) l -> exists items, attestations_request_body l = Ok items.
Proof.
  intros Hl. unfold attestations_request_body.
  assert (exists items, (if electra then collect electra_item l else collect phase0_item l) = Ok items) as Hi.
  { destruct electra; apply collect_total; intros a Ha; rewrite list.Forall_forall in Hl;
      destruct (Hl a Ha) as (_ & _ & p & Hp & Hm); unfold electra_item, phase0_item; rewrite Hp; cbn;
      destruct p; destruct Hm as (? & Hm); try done.
    all: try (destruct Hm as [b ->]; by eexists).
    all: destruct Hm as [[i ->] [c Hc]]; cbn; rewrite Hc; by eexists. }
  destruct l as [|a l']; [by eexists|]. inversion Hl as [|? ? (_ & He & _)]; subst. rewrite He. by destruct electra.
Qed.

Lemma attestations_sent (electra : bool) (set : SignedDataSet) :
  publishable Attester electra set ->
  sends (broadcast_attester hex_decode fork_data_root signing_data_root bls env ho set).
Proof.
  intros (_ & _ & _ & Hp). destruct (values_total set InvalidAttestation as_attestation) as [l Hl].
  { intros pk d Hd. specialize (Hp _ _ Hd). by destruct d. }
  assert (Forall (attestation_publishable electra) l) as Hall.
  { apply list.Forall_forall. intros a Ha. pose proof (set_values_spec _ _ _ _ Hl) as Hl'.
    apply list_elem_of_lookup_1 in Ha as [i Hi]. destruct (Forall2_lookup_r _ _ _ _ _ Hl' Hi) as (d & Hd & Hda).
    apply list_elem_of_lookup_2, elem_of_values in Hd as [pk Hd]. specialize (Hp _ _ Hd). destruct d; try done.
    by injection Hda as ->. }
  destruct (items_total electra l Hall) as [items Hi].
  unfold broadcast_attester. rewrite Hl, lift_Ok, (no_indices_needed electra l Hall), lift_Ok.
  eapply (send_sends _ _ (fun e => match e with PriorAttestationKnown => p_lift (Ok tt)
    | _ => p_fail (ClientError "submit attestations" e) end)); [by intros []|]. intros log.
  unfold submit_attestations. rewrite first_version_known, lift_Ok, Hi, lift_Ok; [reflexivity|].
  intros a Ha. rewrite list.Forall_forall in Hall. by destruct (Hall a Ha).
Qed.

Lemma broadcast_sends (electra : bool) (duty : Duty) (set : SignedDataSet) :
  publishable (duty_type duty) electra set ->
  sends (broadcast hex_decode fork_data_root signing_data_root bls env ho duty set).
Proof.
  intros Hp. unfold broadcast. destruct (duty_type duty) eqn:Ht;
    try (destruct Hp as (Hne & _ & _ & Hall); apply map_choose in Hne as (pk & x & Hx); specialize (Hall _ _ Hx); by destruct x).
  - by apply (proposal_sent electra).
  - by apply (attestations_sent electra).
  - by apply (exits_sent electra).
  - destruct (first_slot_in_current_epoch env) as [x| |] eqn:Hx.
    + rewrite lift_Ok. by apply (registrations_sent electra).
    + destruct Hp as (_ & _ & Hc & _). rewrite Hx in Hc. by specialize (Hc eq_refl).
    + destruct Hp as (_ & _ & Hc & _). rewrite Hx in Hc. by specialize (Hc eq_refl).
  - by apply (aggregates_sent electra).
  - by apply (sync_messages_sent electra).
  - by apply (contributions_sent electra).
Qed.

Lemma publishable_submits (electra : bool) (t : DutyType) (set : SignedDataSet) : publishable t electra set -> submits t = true.
Proof.
  intros (Hne & _ & _ & Hall). apply map_choose in Hne as (pk & d & Hd). specialize (Hall _ _ Hd). by destruct t, d.
Qed.

Lemma broadcast_publishes (electra : bool) (duty : Duty) (set : SignedDataSet) sigs log :
  publishable (duty_type duty) electra set -> set_signatures set sigs ->
  exists new r, broadcast hex_decode fork_data_root signing_data_root bls env ho duty set log = (log ++ new, r) /\
    signatures_of new = sigs /\ r <> Panic.
Proof.
  intros Hp Hs. destruct (broadcast_sends electra duty set Hp log) as (sub & rest & r & Hb & Hr).
  exists (sub :: rest), r. split_and!; [done| |done].
  destruct (broadcast_delivers duty set sigs log _ r Hs Hb) as (new & Hnew & Hor).
  apply app_inv_head in Hnew. subst new. rewrite (publishable_submits electra _ set Hp) in Hor.
  by destruct Hor as [?|[? _]].
Qed.

(** ** Recasting *)

(** The registration that a sequence of stores leaves for a validator: the first
    of those with the highest slot. *)
Definition newest (pk : PubKey) (calls : list (Duty * SignedDataSet)) : option RecastTuple :=
  foldl (fun acc '(duty, set) =>
    if decide (duty_type duty = BuilderRegistration) then
      match set !! pk, acc with
      | None, _ => acc
      | Some d, Some t => if slot duty <=? slot (rc_duty t) then acc else Some {| rc_duty := duty; rc_agg_data := d |}
      | Some d, None => Some {| rc_duty := duty; rc_agg_data := d |}
      end
    else acc) None calls.

Definition recast_run (calls : list (Duty * SignedDataSet)) (st : RecastState) : RecastState :=
  foldl (fun st '(duty, set) => recast_store ho duty set st) st calls.

Lemma store_one_lookup duty pk d st pk' :
  rc_tuples (store_one duty pk d st) !! pk' =
    if decide (pk' = pk) then
      match rc_tuples st !! pk with
      | Some t => if slot duty <=? slot (rc_duty t) then Some t else Some {| rc_duty := duty; rc_agg_data := d |}
      | None => Some {| rc_duty := duty; rc_agg_data := d |}
      end
    else rc_tuples st !! pk'.
Proof.
  unfold store_one. case_decide as Hk; [subst pk'|]; destruct (rc_tuples st !! pk) as [t|] eqn:Ht; try destruct (slot duty <=? _);
    cbn; rewrite ?lookup_insert_eq, ?lookup_insert_ne by done; done.
Qed.

Lemma store_loop_lookup duty (l : list (PubKey * SignedDatum)) st pk :
  NoDup l.*1 ->
  let st' := foldl (fun st '(pk, d) => store_one duty pk d st) st l in
  rc_subs st' = rc_subs st /\
  rc_tuples st' !! pk =
    match (list_to_map l : SignedDataSet) !! pk, rc_tuples st !! pk with
    | None, acc => acc
    | Some d, Some t => if slot duty <=? slot (rc_duty t) then Some t else Some {| rc_duty := duty; rc_agg_data := d |}
    | Some d, None => Some {| rc_duty := duty; rc_agg_data := d |}
    end.
Proof.
  revert st. induction l as [|[k d] l IH]; intros st Hnd; cbn.
  - by rewrite lookup_empty.
  - apply NoDup_cons in Hnd as [Hk Hnd]. destruct (IH (store_one duty k d st) Hnd) as [-> ->]. split.
    { unfold store_one. destruct (rc_tuples st !! k); [by destruct (_ <=? _)|done]. }
    rewrite store_one_lookup, lookup_insert. case_decide as Heq; [subst k; rewrite decide_True by done|rewrite decide_False by done; done].
    by rewrite (not_elem_of_list_to_map_1 (M := gmap PubKey) l pk Hk).
Qed.

Lemma recast_run_spec calls st :
  rc_tuples st = ∅ ->
  rc_subs (recast_run calls st) = rc_subs st /\ forall pk, rc_tuples (recast_run calls st) !! pk = newest pk calls.
Proof.
  intros Hst. induction calls as [|[duty set] calls IH] using rev_ind.
  - split; [done|]. intros pk. cbn. by rewrite Hst, lookup_empty.
  - unfold recast_run, newest in *. rewrite foldl_app. cbn. destruct IH as [Hs Ht].
    split; [unfold recast_store; case_decide; [|done]; rewrite (proj1 (store_loop_lookup _ _ _ [] (ho_list_NoDup ho set))); done|].
    intros pk. rewrite foldl_app. cbn. unfold recast_store. case_decide; [|by apply Ht].
    rewrite (proj2 (store_loop_lookup _ _ _ pk (ho_list_NoDup ho set))), Ht.
    rewrite (list_to_map_proper _ (map_to_list set)) by (apply ho_perm || apply ho_list_NoDup).
    rewrite list_to_map_to_list. destruct (set !! pk); [|done].
    by match goal with |- context [foldl ?f None calls] => destruct (foldl f None calls) end.
Qed.

(** The data to send under a duty. *)
Definition recast_datum (active : gset PubKey) (t : option RecastTuple) (duty : Duty) (pk : PubKey) : option SignedDatum :=
  match t with
  | Some t => if decide (pk ∈ active /\ rc_duty t = duty) then Some (rc_agg_data t) else None
  | None => None
  end.

Lemma recast_loop_lookup (active : gset PubKey) (l : list (PubKey * RecastTuple)) (sets : gmap Duty SignedDataSet) duty pk :
  NoDup l.*1 -> (forall k, k ∈ l.*1 -> sets !! duty ≫= (.!! k) = None) -> (sets !! duty <> Some ∅) ->
  let sets' := foldl (fun sets '(pk, tuple) =>
           if decide (pk ∈ active) then
             <[rc_duty tuple := <[pk := rc_agg_data tuple]> (default ∅ (sets !! rc_duty tuple))]> sets
           else sets) sets l in
  sets' !! duty ≫= (.!! pk) =
    match (list_to_map l : gmap PubKey RecastTuple) !! pk with
    | Some t => recast_datum active (Some t) duty pk
    | None => sets !! duty ≫= (.!! pk)
    end /\ sets' !! duty <> Some ∅.
Proof.
  revert sets. induction l as [|[k t] l IH]; intros sets Hnd Hfresh Hne; cbn -[recast_datum]; [by rewrite lookup_empty|].
  apply NoDup_cons in Hnd as [Hk Hnd].
  set (sets1 := if decide (k ∈ active) then _ else sets).
  assert (forall k', sets1 !! duty ≫= (.!! k') =
    if decide (k' = k) then recast_datum active (Some t) duty k else sets !! duty ≫= (.!! k')) as Hs1.
  { intros k'. unfold sets1, recast_datum. destruct (decide (k ∈ active)) as [Ha|Ha].
    - destruct (decide (rc_duty t = duty)) as [<-|Hd].
      + rewrite lookup_insert_eq. cbn. rewrite lookup_insert. case_decide as He; [subst k'; rewrite !decide_True by done; by destruct (sets !! rc_duty t)|].
        rewrite decide_False by done. by destruct (sets !! rc_duty t); cbn; rewrite ?lookup_empty.
      + rewrite lookup_insert_ne by done. destruct (decide (k' = k)) as [->|]; [|done].
        rewrite decide_False by naive_solver. apply Hfresh. by left.
    - destruct (decide (k' = k)) as [->|]; [|done]. rewrite decide_False by naive_solver. apply Hfresh. by left. }
  assert (sets1 !! duty <> Some ∅) as Hne1.
  { unfold sets1. destruct (decide (k ∈ active)); [|done]. destruct (decide (rc_duty t = duty)) as [<-|Hd].
    - rewrite lookup_insert_eq. intros [= He]. by apply insert_non_empty in He.
    - by rewrite lookup_insert_ne. }
  destruct (IH sets1 Hnd) as [Hl Hn]; [|done|].
  { intros k' Hk'. rewrite Hs1. destruct (decide (k' = k)) as [->|]; [done|]. apply Hfresh. by right. }
  split; [|exact Hn]. rewrite Hl, Hs1, lookup_insert. destruct (decide (k = pk)) as [->|Hkp].
  - rewrite (not_elem_of_list_to_map_1 (M := gmap PubKey) l pk Hk), decide_True by done. done.
  - rewrite decide_False by done. done.
Qed.

Lemma recast_sets_lookup active st duty pk :
  recast_sets ho active st !! duty ≫= (.!! pk) = recast_datum active (rc_tuples st !! pk) duty pk /\
  recast_sets ho active st !! duty <> Some ∅.
Proof.
  destruct (recast_loop_lookup active (ho_list ho (rc_tuples st)) ∅ duty pk) as [Hl Hn].
  - apply ho_list_NoDup.
  - intros k _. by rewrite lookup_empty.
  - by rewrite lookup_empty.
  - split; [|exact Hn]. unfold recast_sets. rewrite Hl.
    rewrite (list_to_map_proper _ (map_to_list (rc_tuples st))) by (apply ho_perm || apply ho_list_NoDup).
    rewrite list_to_map_to_list, lookup_empty. by destruct (rc_tuples st !! pk).
Qed.

Lemma signatures_of_app a b : signatures_of (a ++ b) = signatures_of a ++ signatures_of b.
Proof. unfold signatures_of. by rewrite fmap_app, concat_app. Qed.

Lemma set_signatures_total (set : SignedDataSet) :
  map_Forall (fun _ d => exists s, sd_signature d = Ok s) set ->
  exists sigs, set_signatures set sigs /\
    forall s, s ∈ sigs <-> exists pk d, set !! pk = Some d /\ sd_signature d = Ok s.
Proof.
  intros Hall. assert (exists sigs, set_signatures set sigs) as [sigs Hs].
  { apply Forall_exists_Forall2_l, Forall_forall. intros d (pk & Hd)%elem_of_values. by eapply Hall. }
  exists sigs. split; [done|]. intros s. unfold set_signatures in Hs. split.
  - intros [i Hi]%list_elem_of_lookup_1. destruct (Forall2_lookup_r _ _ _ _ _ Hs Hi) as (d & Hd & Hsd).
    apply list_elem_of_lookup_2, elem_of_values in Hd as [pk Hd]. eauto.
  - intros (pk & d & Hd & Hsd). assert (d ∈ (ho_list ho set).*2) as Hin.
    { apply list_elem_of_fmap. exists (pk, d). split; [done|by apply elem_of_ho_list]. }
    apply list_elem_of_lookup_1 in Hin as [i Hi]. destruct (Forall2_lookup_l _ _ _ _ _ Hs Hi) as (s' & Hs' & Hsd').
    assert (s = s') as -> by congruence. by eapply list_elem_of_lookup_2.
Qed.

Abbreviation publish := (broadcast hex_decode fork_data_root signing_data_root bls env ho).

Lemma recast_all_publishes sets log :
  (forall duty set, (duty, set) ∈ sets -> publishable (duty_type duty) false set /\
     map_Forall (fun _ d => exists s, sd_signature d = Ok s) set) ->
  exists new, recast_all [publish] sets log = (log ++ new, Ok tt) /\
    forall s, s ∈ signatures_of new <->
      exists duty set pk d, (duty, set) ∈ sets /\ set !! pk = Some d /\ sd_signature d = Ok s.
Proof.
  revert log. induction sets as [|[duty set] sets IH]; intros log Hsets.
  - exists []. rewrite app_nil_r. split; [done|]. intros s. split; [by intros ?%not_elem_of_nil|].
    by intros (? & ? & ? & ? & ?%not_elem_of_nil & _).
  - destruct (Hsets duty set) as [Hp Hsig]; [by left|]. destruct (set_signatures_total set Hsig) as (sigs & Hs & Hin).
    destruct (broadcast_publishes false duty set sigs log Hp Hs) as (new & r & Hb & Hnew & Hr).
    destruct (IH (log ++ new)) as (new' & Hrest & Hin').
    { intros duty' set' Hel. apply Hsets. by right. }
    exists (new ++ new'). split.
    + cbn. unfold mbind, proc_bind, call_subs. rewrite Hb. rewrite app_assoc. by destruct r.
    + intros s. rewrite signatures_of_app, elem_of_app, Hnew, Hin, Hin'. split.
      * intros [(pk & d & Hd & Hsd)|(duty' & set' & pk & d & Hel & Hd & Hsd)].
        -- exists duty, set, pk, d. split; [by left|done].
        -- exists duty', set', pk, d. split; [by right|done].
      * intros (duty' & set' & pk & d & [[= -> ->]|Hel]%elem_of_cons & Hd & Hsd); [left|right]; eauto 7.
Qed.

(** Stored registrations that are well-formed. *)
Definition registrations_wf (calls : list (Duty * SignedDataSet)) : Prop :=
  forall duty set, (duty, set) ∈ calls -> duty_type duty = BuilderRegistration ->
    map_Forall (fun _ => datum_publishable BuilderRegistration false) set.

Lemma newest_stored pk calls t :
  newest pk calls = Some t -> exists set, (rc_duty t, set) ∈ calls /\ duty_type (rc_duty t) = BuilderRegistration /\
    set !! pk = Some (rc_agg_data t).
Proof.
  unfold newest. induction calls as [|[duty set] calls IH] using rev_ind; [done|]. rewrite foldl_app. cbn.
  assert (foldl (fun acc '(duty, set) =>
    if decide (duty_type duty = BuilderRegistration) then
      match (set : SignedDataSet) !! pk, acc with
      | None, _ => acc
      | Some d, Some t => if slot duty <=? slot (rc_duty t) then acc else Some {| rc_duty := duty; rc_agg_data := d |}
      | Some d, None => Some {| rc_duty := duty; rc_agg_data := d |}
      end
    else acc) None calls = Some t -> exists set0, (rc_duty t, set0) ∈ calls ++ [(duty, set)] /\
      duty_type (rc_duty t) = BuilderRegistration /\ set0 !! pk = Some (rc_agg_data t)) as Hold.
  { intros (set0 & Hin & Ht & Hd)%IH. exists set0. split; [apply elem_of_app; by left|done]. }
  destruct (decide (duty_type duty = BuilderRegistration)) as [Hr|]; [|exact Hold].
  destruct (set !! pk) as [d|] eqn:Hd; [|exact Hold].
  assert (Some {| rc_duty := duty; rc_agg_data := d |} = Some t -> exists set0, (rc_duty t, set0) ∈ calls ++ [(duty, set)] /\
      duty_type (rc_duty t) = BuilderRegistration /\ set0 !! pk = Some (rc_agg_data t)) as Hnew.
  { intros [= <-]. exists set. split; [apply elem_of_app; right; by left|done]. }
  match goal with |- context [foldl ?f None calls] => destruct (foldl f None calls) as [t'|] end; [|exact Hnew].
  destruct (slot duty <=? slot (rc_duty t')); [exact Hold|exact Hnew].
Qed.

(** ** Theorems *)

(** What is broadcast is what was aggregated: whatever the beacon node answers,
    the submissions for a duty carry exactly the signatures of its set, or there
    are none and the broadcast fails. *)
Theorem broadcast_all_or_nothing (duty : Duty) (set : SignedDataSet) sigs log log' r :
  set_signatures set sigs ->
  broadcast hex_decode fork_data_root signing_data_root bls env ho duty set log = (log', r) ->
  exists new, log' = log ++ new /\
    if submits (duty_type duty) then signatures_of new = sigs \/ (new = [] /\ r <> Ok tt) else new = [].
Proof. apply broadcast_delivers. Qed.

(** Registrations are renewed in every epoch: at its first slot, whatever the
    beacon node answered before, the broadcaster submits for every active
    validator the registration with the highest slot stored so far, and nothing
    else. *)
Theorem registrations_recast (calls : list (Duty * SignedDataSet)) (tick : Slot) (active : gset PubKey) log :
  registrations_wf calls -> first_in_epoch tick = Ok true -> is_Ok (first_slot_in_current_epoch env) = true ->
  exists new,
    slot_ticked ho tick (Some active) (recast_run calls (recast_subscribe publish recaster_new)) log = (log ++ new, Ok tt) /\
    forall s, s ∈ signatures_of new <->
      exists pk t, pk ∈ active /\ newest pk calls = Some t /\ sd_signature (rc_agg_data t) = Ok s.
Proof.
  intros Hwf Htick Hclock. destruct (recast_run_spec calls (recast_subscribe publish recaster_new)) as [Hsubs Htup]; [done|].
  set (st := recast_run _ _) in *. unfold slot_ticked. rewrite Htick, lift_Ok. cbn [negb]. cbn [ok_or]. rewrite lift_Ok.
  rewrite Hsubs. cbn [recast_subscribe recaster_new rc_subs app].
  assert (forall duty set pk d, recast_sets ho active st !! duty = Some set -> set !! pk = Some d ->
    exists t, newest pk calls = Some t /\ pk ∈ active /\ rc_duty t = duty /\ rc_agg_data t = d) as Hfrom.
  { intros duty set pk d Hset Hd. destruct (recast_sets_lookup active st duty pk) as [Hl _]. rewrite Hset in Hl. cbn in Hl.
    rewrite Hd, Htup in Hl. unfold recast_datum in Hl. destruct (newest pk calls) as [t|]; [|done].
    case_decide as Hc; [|done]. destruct Hc. exists t. by injection Hl as ->. }
  destruct (recast_all_publishes (ho_list ho (recast_sets ho active st)) log) as (new & Hnew & Hin).
  - intros duty set Hset%elem_of_ho_list. destruct (recast_sets_lookup active st duty []) as [_ Hne].
    assert (map_Forall (fun _ => datum_publishable BuilderRegistration false) set /\
            (set <> ∅ -> duty_type duty = BuilderRegistration)) as [Hall Hty].
    { split.
      - intros pk d Hd. destruct (Hfrom _ _ _ _ Hset Hd) as (t & Hn & _ & <- & <-).
        apply newest_stored in Hn as (set0 & Hc & Ht & Hd0). exact (Hwf _ _ Hc Ht _ _ Hd0).
      - intros (pk & d & Hd)%map_choose. destruct (Hfrom _ _ _ _ Hset Hd) as (t & Hn & _ & <- & _).
        by apply newest_stored in Hn as (set0 & _ & Ht & _). }
    assert (set <> ∅) as Hs by congruence. rewrite (Hty Hs). split; [by split_and!|].
    intros pk d Hd. specialize (Hall _ _ Hd). destruct d; try done. destruct Hall as [Hv [v1 Hv1]]. cbn.
    unfold registration_payload. rewrite Hv, Hv1. by eexists.
  - exists new. split; [exact Hnew|]. intros s. rewrite Hin. split.
    + intros (duty & set & pk & d & Hset%elem_of_ho_list & Hd & Hs).
      destruct (Hfrom _ _ _ _ Hset Hd) as (t & Hn & Ha & _ & <-). by exists pk, t.
    + intros (pk & t & Ha & Hn & Hs). destruct (recast_sets_lookup active st (rc_duty t) pk) as [Hl _].
      rewrite Htup, Hn in Hl. unfold recast_datum in Hl. rewrite decide_True in Hl by done.
      destruct (recast_sets ho active st !! rc_duty t) as [set|] eqn:Hset; [|done]. cbn in Hl.
      exists (rc_duty t), set, pk, (rc_agg_data t). split_and!; [by apply elem_of_ho_list|done|done].
Qed.
End facts.
