(* ===== verification/Publish.v ===== *)
(** * From partial signatures to the beacon node

    The tail of the duty workflow: the partial-signature database, the
    aggregator and the broadcaster composed.  What a threshold of nodes signed is
    submitted to the beacon node with the validators' signatures. *)

From S2P Require Import Prelude Types SszBits BeaconTypes DutyDefs ChainSpec ParSigDb SigAgg Eth2Signed Eth2SignedFacts.
From S2P Require Import Deadline ValCache Bcast BcastFacts.

Open Scope Z_scope.

Section publish.
Context `{BeaconSpec}.
Context (hex_decode : string -> option (list Z)) (fork_data_root signing_data_root : list Z -> list Z -> list Z)
  (bls_verify : list Z -> list Z -> list Z -> bool) (bls : PubKey -> list Z -> BLSSignature -> BlsResult).
Context {CryptoError : Type} (threshold_aggregate : gmap Z BLSSignature -> res CryptoError BLSSignature)
  (partial_valid : list Z -> Z -> BLSSignature -> Prop).

(** Setting a signature keeps what the request formats look at. *)
Lemma publishable_signed (t : DutyType) (electra : bool) (d d' : SignedDatum) s :
  datum_publishable t electra d -> sd_set_signature d s = Ok d' -> datum_publishable t electra d'.
Proof.
  intros Hp. destruct t, d; try done; cbn in Hp |- *.
  - case_decide; [done|]. intros [= <-]. cbn. destruct Hp as [Hv Hb]. split; [done|]. rewrite <-Hb. by destruct (vsp_block p).
  - intros (p & Ha & [= <-])%res_bind_Ok. destruct Hp as (Hv & He & p' & Hp' & Hm).
    assert (p' = p) as ->. { unfold attestation_payload in Ha. rewrite Hp', decide_False in Ha by done. by injection Ha as ->. }
    cbn. split_and!; [done|done|]. exists (payload_set_signature s p). split; [done|]. by destruct p.
  - by intros [= <-].
  - destruct Hp as [Hv [v1 Hv1]]. intros (v & Hr & [= <-])%res_bind_Ok. cbn. by rewrite Hv.
  - case_decide; [done|]. by intros [= <-].
  - by intros [= <-].
  - by intros [= <-].
Qed.

End publish.

(** ** A voluntary exit that two of three nodes signed, and a registration *)

Module PublishSample.
Import ChainSample Eth2Sample.
#[local] Existing Instance spec_sample.

Definition sample_env : BcEnv := {|
  bc_client := client; bc_genesis_time := Some 0; bc_now := 100000000000; bc_chrono := demo_chrono;
  bc_complete_validators := None; bc_attester_duties := fun _ _ => None;
  bc_node := fun log s => match log with [] => Some OtherFailure | _ => None end |}.

Definition bls_ok (pk : PubKey) (r : list Z) (s : BLSSignature) : BlsResult := BlsOk.


Definition registration (slot timestamp : Z) : Duty * gmap PubKey SignedDatum :=
  ({| slot := slot; duty_type := BuilderRegistration |},
   {[key := SdRegistration {| vreg_version := BvV1; vreg_v1 := Some {|
       sm_message := {| vr_fee_recipient := []; vr_gas_limit := 30000000; vr_timestamp := timestamp; vr_pubkey := key |};
       sm_signature := [timestamp] |} |}]}).

(** The later of two registrations is sent, also if it was stored first. *)
Lemma registrations_recast_witness :
  exists new,
    slot_ticked default_order {| sl_slot := 64; sl_time := 0; sl_duration := 12; sl_per_epoch := 32 |} (Some {[key]})
      (recast_run default_order [registration 20 7; registration 10 3]
         (recast_subscribe (broadcast hex_parse pair_up pair_up bls_ok sample_env default_order) recaster_new)) [] =
      ([] ++ new, Ok tt) /\ [7] ∈ signatures_of new.
Proof.
  destruct (registrations_recast hex_parse pair_up pair_up bls_ok sample_env default_order
    [registration 20 7; registration 10 3] {| sl_slot := 64; sl_time := 0; sl_duration := 12; sl_per_epoch := 32 |} {[key]} [])
    as (new & Hnew & Hin).
  - intros duty set Hel _. assert (exists s t, (duty, set) = registration s t) as (s & t & [= -> ->]).
    { rewrite !elem_of_cons, elem_of_nil in Hel. destruct Hel as [->|[->|[]]]; eauto. }
    apply map_Forall_singleton. split; [done|]. by eexists.
  - reflexivity.
  - vm_compute. reflexivity.
  - exists new. split; [exact Hnew|]. apply Hin. eexists key, _. split; [by apply elem_of_singleton|]. split; [vm_compute; reflexivity|done].
Defined.

Lemma broadcast_all_or_nothing_witness :
  exists new, [SubmitExit {| sm_message := exit_msg; sm_signature := [1] |}] = [] ++ new /\ (signatures_of new = [[1]] \/ (new = [] /\
    Err (ClientError "submit voluntary exit" OtherFailure) <> @Ok BcError unit tt)).
Proof.
  apply (broadcast_all_or_nothing hex_parse pair_up pair_up bls_ok sample_env default_order exit_duty {[key := exit_of [1]]} [[1]] []
    [SubmitExit {| sm_message := exit_msg; sm_signature := [1] |}] (Err (ClientError "submit voluntary exit" OtherFailure))).
  - unfold set_signatures. change (ho_list default_order ?m) with (map_to_list m). rewrite map_to_list_singleton. by repeat constructor.
  - vm_compute. reflexivity.
Defined.
End PublishSample.
